(* ===== verification/_CoqProject ===== *)
-Q . S2P
Prelude.v
Utf8.v
StdText.v
UriKeys.v
Spans.v
SourceRows.v
LineIndex.v
Convert.v
ByteLineIndex.v
SourceLines.v
Positions.v
Mapper.v
Strict.v
SourceIdentity.v
ReferenceEdit.v
ParseErrors.v
Framing.v
Incoming.v
Budget.v
Completion.v
Snapshot.v
TextEdits.v
Checkpoint.v
CheckpointCache.v
LexerTokens.v
LexerCursor.v
LexerStrings.v
LexerStringLaws.v
LexerStringParity.v
LexerNumbers.v
LexerQuotes.v
LexerQuoteLaws.v
Tokens.v
TokenStream.v
Incremental.v
Runtime.v
RuntimeSteps.v
PackageGraph.v
PackageGraphLaws.v
PackageIndex.v
LruCache.v
LruLaws.v
DocumentStore.v
Monitoring.v
Coordinator.v
CoordinatorLaws.v
IndexMachine.v
NameMaps.v
WorkspaceSymbols.v
WorkspaceSymbolLaws.v
WorkspaceIndex.v
WorkspaceIndexLaws.v
WorkspaceOperations.v
WorkspaceProperties.v
SymbolQueries.v
SemanticFacts.v
ReferenceIndex.v
ImportExports.v
FactHashes.v
FactShards.v
Visibility.v
SemanticQueries.v
SemanticQueryLaws.v
SemanticPlans.v
SemanticPlanLaws.v
