(* ===== verification/Prelude.v ===== *)
(** * A verification library for the perl-lsp sources

    Pure Rocq models of the core logic of the Perl language server
    (src/crates/) and proofs about them.  Every definition is translated from
    the Rust source; machine integers are [Z] with their wrap-around or
    saturation written out, strings are lists of bytes ([Utf8]), a function
    that may panic returns an [outcome], and one that may fail a [result].

    ** The program and its parts

    An editor sends JSON-RPC messages over a byte transport.  The server
    frames and decodes them, keeps the text of every document, converts the
    editor's UTF-16 positions to byte offsets, applies the edits, and lexes
    and parses again what changed.  Workspace-wide work runs on other threads
    under the authority of a root generation.  The parts and their files:

    - Transport.  [Framing] (lsp-rs-core transport/framing.rs): the
      Content-Length framer over a byte buffer; [Incoming] (incoming.rs,
      jsonrpc): the stages from a body to a request, the stateful reader and
      the one-shot reader.  JSON is the class [Json]; a transport is the list
      of its read results.
    - Positions.  [SourceRows] is the specification (rows of characters);
      [LineIndex] (position-tracking line_index.rs), [Convert] (convert.rs,
      wire.rs), [ByteLineIndex] (perl-line-index), [Strict] (strict.rs),
      [SourceLines] (source_lines.rs: the streaming scanner and validator) and
      [Spans] (span.rs, position.rs) implement it, and [Positions] proves
      that they agree.  Ropes are the class [RopeOps] with its laws.
      [Mapper] (mapper.rs) is the mapper that keeps its document in a rope and
      cuts lines as ropes do (class [RopeText]).
    - URIs.  [UriKeys] (perl-uri classify.rs) computes the keys under which
      documents and files are stored; parsing a URL and percent encoding are
      the classes [UrlOps] and [PercentEncode].
    - Identity.  [SourceIdentity] (perl-source-identity): digests, logical
      paths and generations; SHA-256 is a parameter.
    - Edits.  [TextEdits] (perl-parser incremental/: mod.rs, edit.rs,
      incremental_edit.rs, incremental_document.rs) is the edit pipeline;
      [ReferenceEdit] (perl-tdd-support reference_edit.rs) the independent
      model it is compared with.
    - Lexing.  [Checkpoint] (perl-lexer checkpoint/, checkpoint_impl.rs,
      lexer/state.rs): the lexer's state, its capture, edit and restore;
      [CheckpointCache] (cache.rs); [LexerTokens] (token.rs) and the class
      [Tokenize] of the tokenizer; [Tokens] (perl-token) and [TokenStream]
      (perl-parser-core token_stream.rs): the parser's lookahead over the lexer.
      [LexerCursor] (lexer/helpers/cursor.rs, line_scanning.rs,
      file_normalization.rs, unicode.rs) is the cursor, with the state monad
      [scan] of the lexer's routines; [LexerStrings] (lib.rs
      parse_double_quoted_string, balanced_segments.rs, interpolation_scan.rs,
      quote_interpolation.rs) the scanners of interpolating strings, with
      their laws in [LexerStringLaws]; [LexerStringParity] has the agreement
      of the two and the exact reading of a double-quoted string.  The Unicode tables are the class [Unicode].
      [LexerNumbers] (lib.rs try_number, parse_decimal_number; numeric.rs) has
      numeric literals and their values; [LexerQuotes] (lib.rs,
      quote_handler.rs, regex_literal.rs, heredoc_delimiter.rs) the plain
      strings, regex literals, substitutions and transliterations, with their
      laws in [LexerQuoteLaws].
    - The incremental parser.  [ParseErrors], [Completion], [Budget]
      (perl-parser-core syntax/error/, operation.rs), [Snapshot] and
      [Incremental] (perl-parser incremental/: lex.rs, reparse.rs, state.rs):
      the committed state, its restart from a stored checkpoint, and the
      validation of a parse.  The parser and the syntax tree are parameters.
    - Workspace roots.  [Runtime] (perl-workspace runtime_generation/core.rs)
      has the controller and its operations as critical sections;
      [RuntimeSteps] (runtime_generation.rs) the step relation of threads
      that run them under the lifecycle gate.
    - The workspace index (perl-workspace).  [DocumentStore]
      (document_store.rs) keeps the open documents; [PackageGraph]
      (semantic/package_graph.rs, queries.rs) the inheritance and role edges of
      all files, with its traversals in [PackageGraphLaws] and what the index
      represents in [PackageIndex].  [NameMaps] is the pattern of a map from
      names to what files contribute; [WorkspaceSymbols] the definition cache,
      the search index and the references built on it, with their laws in
      [WorkspaceSymbolLaws]; [WorkspaceIndex] the state and the operations, as
      critical sections; [WorkspaceIndexLaws] the step relation of sections
      and its invariants, each for the runs it needs: a [Regime] says which
      spellings of URIs are stored, what parses may find, and whether the
      sections of a clear interleave with others; [WorkspaceOperations] whole operations,
      [WorkspaceProperties] and [SymbolQueries] what queries answer (all of
      workspace_index.rs).  [Monitoring] (monitoring/mod.rs) and
      [Coordinator] with [CoordinatorLaws] (workspace_index.rs) are the
      lifecycle of that index with its limits and parse storms, over the class
      [WorkspaceIndexOps], which the workspace index implements;
      [IndexMachine] (state_machine/mod.rs) is the other state machine, and
      [LruCache] with [LruLaws] (cache.rs) the bounded cache.
    - The semantic index (perl-workspace semantic/, over the facts of
      perl-semantic-facts).  [SemanticFacts] has the facts and the shards of
      files; [ReferenceIndex] (references.rs) the occurrences by name and by
      entity; [ImportExports] (imports.rs) what files import and modules
      export; [FactHashes] (facts.rs) the shard of a file with the hashes of
      its categories; [FactShards] (invalidation.rs, workspace_index.rs) the
      stores that replace shards category by category: it implements the class
      [FactStores] which [WorkspaceIndex] is generic in.  [Visibility]
      (visibility.rs) has the symbols visible at an offset; [SemanticQueries]
      (queries.rs, value_shape.rs) the query facade, with its laws in
      [SemanticQueryLaws]; [SemanticPlans] (queries.rs) the rename and safe
      delete plans, with theirs in [SemanticPlanLaws].

    This file has the outcomes, results and loops, machine integers, lists
    indexed by [Z], and stable sorting; [Utf8] characters and strings;
    [StdText] the string operations of the standard library.

    ** What is proved

    - Refinement and equivalence: the framer's output is the frames of the
      stream however it is chunked; the token stream is a cursor over the
      lexer's tokens; the edit pipeline computes what the reference model
      computes; the position components agree with each other; the scanner
      builds the rows of the text whatever the chunks; the two scanners of
      interpolating strings compute the same parts; the maps of the workspace
      index, kept file by file, are those of a rebuild from all files, the
      package graph is the edges of the current files, and the bounded cache
      is a list of entries in the order of use; the semantic stores, updated
      only in the categories whose hash changed, are those built from the
      shards that were indexed last under these hashes, and the batched lookup
      of spans is the single one; the state of the index machine is the
      reading of the operations it accepted.  The maps of names need that a
      clear does not interleave with other sections, and the references also
      that each key is stored in one spelling ([WorkspaceOperations] shows
      what happens without); no theorem assumes that equal hashes mean equal
      facts.
    - Invariants and safety: the incremental state stays one coherent
      generation and restarts never replay old text; checkpoints restore only
      into their source; over every interleaving of threads a superseded
      generation never regains authority, tasks of lost generations are
      cancelled, and shutdown is final; budgets account exactly; a refused
      commit to the workspace index publishes nothing and an accepted edit is
      not undone by an older one; the newest version of a document stays; the
      instrumentation of the coordinator accounts for its state; a rename plan
      that is not blocked edits the definition, for the kinds of entities that
      it does not overlook, and every use the indexes hold, and a delete of an
      anchored entity is reported safe exactly when nothing needs it.
    - Functional descriptions: the exact condition under which an edit, a
      transaction, a checkpoint edit or restore, a position or a frame is
      accepted, and the value computed, errors included; which quote ends a
      double-quoted string and which parts it has, and a balanced segment is consumed exactly when
      the text starts with one; the definitions, references, ancestors and
      packages that a query of the workspace answers, the imported symbols
      visible at an offset and in which order, and which transitions the state machine of
      the index allows; the texts that the lexer reads as a plain string, a
      regex literal or a transliteration are those of a grammar.
    - Round trips, bounds and termination: positions, also through a rope,
      frames, checkpoints and spellings, a key for each Windows path, and the
      values of integer literals; the transport buffer, the observation window
      and the stored checkpoints are bounded, and so are the bounded cache and
      the files and symbols of the workspace index; the reader terminates on every
      transport, every operation of the workspace index returns from every
      state that a run reaches, and a parse
      storm ends when the pending parses do.

    ** Fuel and bounds

    Loops that are not structural run on fuel, and running out of fuel is
    [Panic], so a theorem that a function returns also shows that the fuel is
    enough.  [loop] is given a measure of what is left: the bytes not yet
    read ([read_fuel], [line_fuel]), or the bound [progress] of the class
    [Tokenize] on the tokens still to come.  [decimal] has twenty digits, the
    width of a [usize].  The recursion along the package graph has one unit of
    fuel for each edge and one more, since a path never repeats a package.

    ** Not modelled

    The step of the lexer, the parser and the syntax tree are parameters with
    named laws: of the token rules, those for strings, numbers and quote-like
    literals are here, but not those for blanks, variables, identifiers,
    operators, delimiters and heredocs, nor the choice among them.  So are SHA-256, JSON, ropes, the
    unstable sort and binary search of the standard library, and the clock.  Of the workspace index,
    parsing, the extraction of facts, the keys of URIs and the hasher of the
    standard library are parameters; what is fed to the hasher is modelled, and
    of its values only that the ids of different files differ is assumed.
    Its torn-read retries are left out, and readers are modelled only between
    critical sections.  A hash map is iterated in the order of [map_to_list],
    so theorems about answers that depend on that order speak of members, not
    of positions; the counters of the semantic index are unbounded.  The parser
    with its syntax tree exceeds this library.  The index is generic in
    the keys of URIs, since [UriKeys] rests on the url crate, and the
    conversions between paths and URIs ask the file system.  Providers, the debug adapter, the build tasks, logging, file and
    process input and output, Display, Debug and serde are left out: they
    format, dispatch, or talk to the system. *)

From Stdlib Require Import Sorted.
From stdpp Require Import base numbers list.

Declare Scope pl_scope.
Delimit Scope pl_scope with pl.
Open Scope Z_scope.
Open Scope pl_scope.

(** ** Outcomes: a Rust computation returns a value or panics *)

Inductive outcome (A : Type) : Type :=
| Ret (a : A)
| Panic.
Arguments Ret {A} a.
Arguments Panic {A}.

#[export] Instance outcome_ret : MRet outcome := fun A a => Ret a.
#[export] Instance outcome_bind : MBind outcome :=
  fun A B f m => match m with Ret a => f a | Panic => Panic end.
#[export] Instance outcome_map : FMap outcome :=
  fun A B f m => match m with Ret a => Ret (f a) | Panic => Panic end.

(** [expect o]: the value of an index, slice or checked operation whose
    failure panics. *)
Definition expect {A} (o : option A) : outcome A :=
  match o with Some a => Ret a | None => Panic end.

Lemma bind_Ret {A B} (a : A) (f : A -> outcome B) : (Ret a ≫= f) = f a.
Proof. reflexivity. Qed.

Lemma bind_Ret_inv {A B} (m : outcome A) (f : A -> outcome B) b :
  (m ≫= f) = Ret b -> exists a, m = Ret a /\ f a = Ret b.
Proof. destruct m as [a|]; intros H; [by exists a | discriminate]. Qed.

(** ** [Result<A, E>] *)

Inductive result (E A : Type) : Type :=
| Ok (a : A)
| Err (e : E).
Arguments Ok {E A} a.
Arguments Err {E A} e.

#[export] Instance result_ret {E} : MRet (result E) := fun A a => Ok a.
#[export] Instance result_bind {E} : MBind (result E) :=
  fun A B f m => match m with Ok a => f a | Err e => Err e end.

(** [o.ok_or(e)] *)
Definition ok_or {E A} (o : option A) (e : E) : result E A :=
  match o with Some a => Ok a | None => Err e end.
(** [r.map_err(f)] *)
Definition map_err {E F A} (f : E -> F) (r : result E A) : result F A :=
  match r with Ok a => Ok a | Err e => Err (f e) end.

(** [x ← m; k] for a computation that may panic and whose result may be an
    error: the [?] operator. *)
Definition try_bind {E A B} (m : outcome (result E A)) (k : A -> outcome (result E B))
    : outcome (result E B) :=
  match m with Ret (Ok a) => k a | Ret (Err e) => Ret (Err e) | Panic => Panic end.
Notation "x ←? m ; k" := (try_bind m (fun x => k))
  (at level 20, m at level 100, k at level 200) : pl_scope.

(** ** Machine integers *)

Definition u32_max : Z := 4294967295.
Definition usize_max : Z := 18446744073709551615.
Definition i32_max : Z := 2147483647.
(** No Rust allocation is longer than [isize::MAX] bytes. *)
Definition isize_max : Z := 9223372036854775807.

(** [x as u32] on an unsigned source. *)
Definition as_u32 (x : Z) : Z := x `mod` 4294967296.
Definition checked_add_u32 (x y : Z) : option Z :=
  if x + y <=? u32_max then Some (x + y) else None.
Definition checked_add (x y : Z) : option Z :=
  if x + y <=? usize_max then Some (x + y) else None.
Definition saturating_sub (x y : Z) : Z := Z.max 0 (x - y).
Definition saturating_add (x y : Z) : Z := Z.min usize_max (x + y).

(** [x as i32] and [x as isize] on an unsigned source: the bits read as signed. *)
Definition as_i32 (x : Z) : Z := (x + 2147483648) `mod` 4294967296 - 2147483648.
Definition as_isize (x : Z) : Z :=
  (x + 9223372036854775808) `mod` 18446744073709551616 - 9223372036854775808.
(** [x as usize] on a signed source. *)
Definition as_usize (x : Z) : Z := x `mod` 18446744073709551616.

(** The operators [+] and [-]: overflow panics (the profiles with overflow
    checks; every no-panic theorem therefore also covers wrapping ones). *)
Definition arith (lo hi x : Z) : outcome Z := if (lo <=? x) && (x <=? hi) then Ret x else Panic.
Definition usize_add (x y : Z) : outcome Z := arith 0 usize_max (x + y).
Definition usize_sub (x y : Z) : outcome Z := arith 0 usize_max (x - y).
Definition u32_add (x y : Z) : outcome Z := arith 0 u32_max (x + y).
Definition i32_op (x : Z) : outcome Z := arith (-2147483648) 2147483647 x.
Definition isize_op (x : Z) : outcome Z := arith (-9223372036854775808) 9223372036854775807 x.

Lemma arith_Ret lo hi x : lo <= x <= hi -> arith lo hi x = Ret x.
Proof. intros H. unfold arith. by rewrite !(proj2 (Z.leb_le _ _)) by lia. Qed.

Lemma as_i32_small x : -2147483648 <= x < 2147483648 -> as_i32 x = x.
Proof. intros H. unfold as_i32. rewrite Z.mod_small; lia. Qed.
Lemma as_isize_small x : - 9223372036854775808 <= x <= isize_max -> as_isize x = x.
Proof. intros H. unfold as_isize, isize_max in *. rewrite Z.mod_small; lia. Qed.
Lemma as_usize_small x : 0 <= x <= usize_max -> as_usize x = x.
Proof. intros H. unfold as_usize, usize_max in *. rewrite Z.mod_small; lia. Qed.

Lemma as_u32_small x : 0 <= x <= u32_max -> as_u32 x = x.
Proof. intros H. unfold as_u32, u32_max in *. apply Z.mod_small. lia. Qed.

Lemma checked_add_u32_Some x y : x + y <= u32_max -> checked_add_u32 x y = Some (x + y).
Proof. intros H. unfold checked_add_u32. by rewrite (proj2 (Z.leb_le _ _) H). Qed.

Lemma checked_add_u32_inv x y z : checked_add_u32 x y = Some z -> z = x + y /\ z <= u32_max.
Proof.
  unfold checked_add_u32. destruct (Z.leb_spec (x + y) u32_max); intros E; [|done].
  by simplify_eq.
Qed.

Lemma checked_add_Some x y : x + y <= usize_max -> checked_add x y = Some (x + y).
Proof. intros H. unfold checked_add. by rewrite (proj2 (Z.leb_le _ _) H). Qed.

(** ** Lists indexed by [Z], the way the sources index slices *)

Definition len {A} (l : list A) : Z := Z.of_nat (length l).
Definition zget {A} (l : list A) (i : Z) : option A :=
  if 0 <=? i then l !! Z.to_nat i else None.
Definition ztake {A} (i : Z) (l : list A) : list A := take (Z.to_nat i) l.
Definition zdrop {A} (i : Z) (l : list A) : list A := drop (Z.to_nat i) l.
(** The half-open slice [l[a..b]], empty when out of order. *)
Definition zslice {A} (l : list A) (a b : Z) : list A := ztake (b - a) (zdrop a l).

Fixpoint sum_Z (l : list Z) : Z :=
  match l with [] => 0 | x :: l => x + sum_Z l end.

Section len_lemmas.
Context {A : Type}.
Implicit Types l : list A.

Lemma len_nil : len (@nil A) = 0.
Proof. reflexivity. Qed.
Lemma len_cons (x : A) l : len (x :: l) = 1 + len l.
Proof. unfold len; simpl; lia. Qed.
Lemma len_app l1 l2 : len (l1 ++ l2) = len l1 + len l2.
Proof. unfold len; rewrite length_app; lia. Qed.
Lemma len_nonneg l : 0 <= len l.
Proof. unfold len; lia. Qed.
Lemma len_zero_nil l : len l = 0 -> l = [].
Proof. destruct l; [done|]. rewrite len_cons. pose proof (len_nonneg l). lia. Qed.
Lemma len_map {B} (f : A -> B) l : len (f <$> l) = len l.
Proof. unfold len. by rewrite length_fmap. Qed.

Lemma ztake_0 l i : i <= 0 -> ztake i l = [].
Proof. intros. unfold ztake. by replace (Z.to_nat i) with 0%nat by lia. Qed.
Lemma zdrop_0 l i : i <= 0 -> zdrop i l = l.
Proof. intros. unfold zdrop. by replace (Z.to_nat i) with 0%nat by lia. Qed.
Lemma ztake_app_len l1 l2 : ztake (len l1) (l1 ++ l2) = l1.
Proof. unfold ztake, len. by rewrite Nat2Z.id, take_app_length. Qed.
Lemma zdrop_app_len l1 l2 : zdrop (len l1) (l1 ++ l2) = l2.
Proof. unfold zdrop, len. by rewrite Nat2Z.id, drop_app_length. Qed.
Lemma ztake_all l i : len l <= i -> ztake i l = l.
Proof. unfold len, ztake. intros. apply take_ge. lia. Qed.
Lemma zdrop_all l i : len l <= i -> zdrop i l = [].
Proof. unfold len, zdrop. intros. apply drop_ge. lia. Qed.
Lemma len_ztake l i : 0 <= i <= len l -> len (ztake i l) = i.
Proof. unfold len, ztake. intros. rewrite length_take. lia. Qed.
Lemma len_zdrop l i : 0 <= i <= len l -> len (zdrop i l) = len l - i.
Proof. unfold len, zdrop. intros. rewrite length_drop. lia. Qed.
Lemma ztake_zdrop l i : ztake i l ++ zdrop i l = l.
Proof. apply take_drop. Qed.
Lemma zslice_mid (l1 l2 l3 : list A) :
  zslice (l1 ++ l2 ++ l3) (len l1) (len l1 + len l2) = l2.
Proof.
  unfold zslice. rewrite zdrop_app_len.
  replace (len l1 + len l2 - len l1) with (len l2) by lia. apply ztake_app_len.
Qed.

Lemma zget_neg l i : i < 0 -> zget l i = None.
Proof. intros. unfold zget. destruct (Z.leb_spec 0 i); [lia|done]. Qed.
Lemma zget_ge l i : len l <= i -> zget l i = None.
Proof.
  intros. unfold zget, len in *. destruct (Z.leb_spec 0 i); [|done].
  apply lookup_ge_None. lia.
Qed.
Lemma zget_app_len l1 x l2 : zget (l1 ++ x :: l2) (len l1) = Some x.
Proof.
  unfold zget, len. destruct (Z.leb_spec 0 (Z.of_nat (length l1))); [|lia].
  rewrite Nat2Z.id. by apply list_lookup_middle.
Qed.
Lemma zget_Some_lt l i x : zget l i = Some x -> 0 <= i < len l.
Proof.
  unfold zget, len. destruct (Z.leb_spec 0 i); [|done].
  intros E%lookup_lt_Some. lia.
Qed.
Lemma zget_lt_Some l i : 0 <= i < len l -> exists x, zget l i = Some x.
Proof.
  intros H. unfold zget, len in *. destruct (Z.leb_spec 0 i); [|lia].
  apply lookup_lt_is_Some. lia.
Qed.
Lemma zget_split l i x :
  zget l i = Some x -> exists l1 l2, l = l1 ++ x :: l2 /\ len l1 = i.
Proof.
  intros E. pose proof (zget_Some_lt _ _ _ E) as Hi. unfold zget in E.
  destruct (Z.leb_spec 0 i); [|done].
  exists (take (Z.to_nat i) l), (drop (S (Z.to_nat i)) l). split.
  - symmetry. by apply take_drop_middle.
  - unfold len in *. rewrite length_take. lia.
Qed.
Lemma zget_app_l l1 l2 i : i < len l1 -> zget (l1 ++ l2) i = zget l1 i.
Proof.
  intros. unfold zget, len in *. destruct (Z.leb_spec 0 i); [|done].
  apply lookup_app_l. lia.
Qed.
Lemma zget_app_r l1 l2 i : len l1 <= i -> zget (l1 ++ l2) i = zget l2 (i - len l1).
Proof.
  intros. unfold zget, len in *.
  destruct (Z.leb_spec 0 i), (Z.leb_spec 0 (i - Z.of_nat (length l1))); try lia.
  rewrite lookup_app_r by lia. f_equal. lia.
Qed.
Lemma zget_cons_0 (x : A) l : zget (x :: l) 0 = Some x.
Proof. reflexivity. Qed.
Lemma zget_cons_S (x : A) l i : 0 < i -> zget (x :: l) i = zget l (i - 1).
Proof. intros. change (x :: l) with ([x] ++ l). by rewrite zget_app_r by (change (len [x]) with 1; lia). Qed.
End len_lemmas.

Lemma sum_Z_app l1 l2 : sum_Z (l1 ++ l2) = sum_Z l1 + sum_Z l2.
Proof. induction l1; simpl; lia. Qed.

(** ** Searching an ordered slice *)

(** [slice::partition_point]: the number of leading elements on which the
    predicate holds. *)
Fixpoint partition_point {A} (p : A -> bool) (l : list A) : Z :=
  match l with
  | [] => 0
  | x :: l => if p x then 1 + partition_point p l else 0
  end.

(** [slice::binary_search] on a strictly increasing slice: [inl i] is
    [Ok(i)], [inr i] is [Err(i)], the insertion index. *)
Definition binary_search (l : list Z) (x : Z) : Z + Z :=
  let i := partition_point (fun y => y <? x) l in
  match zget l i with
  | Some y => if y =? x then inl i else inr i
  | None => inr i
  end.

Lemma partition_point_bounds {A} (p : A -> bool) (l : list A) : 0 <= partition_point p l <= len l.
Proof.
  induction l as [|x l IH]; simpl; [done|]. rewrite len_cons.
  destruct (p x); lia.
Qed.

Lemma partition_point_app {A} (p : A -> bool) (l1 l2 : list A) :
  Forall (fun x => p x = true) l1 -> partition_point p (l1 ++ l2) = len l1 + partition_point p l2.
Proof.
  induction 1 as [|x l1 Hx _ IH]; simpl; [done|]. rewrite Hx, len_cons. lia.
Qed.

Lemma partition_point_stop {A} (p : A -> bool) (x : A) (l : list A) :
  p x = false -> partition_point p (x :: l) = 0.
Proof. simpl. by intros ->. Qed.

(** ** Stable sorting ([slice::sort_by], [sort_by_key]) *)

Section sorting.
Context {A : Type} (le : A -> A -> bool).

Fixpoint insert_by (x : A) (l : list A) : list A :=
  match l with
  | [] => [x]
  | y :: l' => if le x y then x :: l else y :: insert_by x l'
  end.
Fixpoint sort_by (l : list A) : list A :=
  match l with [] => [] | x :: l => insert_by x (sort_by l) end.

Lemma insert_by_perm x l : insert_by x l ≡ₚ x :: l.
Proof using Type.
  induction l as [|y l IH]; simpl; [done|]. destruct (le x y); [done|].
  rewrite IH. apply Permutation_swap.
Qed.
Lemma sort_by_perm l : sort_by l ≡ₚ l.
Proof using Type. induction l as [|x l IH]; simpl; [done|]. by rewrite insert_by_perm, IH. Qed.

Definition ordered (l : list A) : Prop := StronglySorted (fun x y => le x y = true) l.

Hypothesis le_total : forall x y, le x y = false -> le y x = true.
Hypothesis le_trans : forall x y z, le x y = true -> le y z = true -> le x z = true.

Lemma insert_by_ordered x l : ordered l -> ordered (insert_by x l).
Proof using le_total le_trans.
  induction 1 as [|y l Hl IH Hy]; simpl.
  - constructor; [constructor|constructor].
  - destruct (le x y) eqn:E.
    + constructor; [by constructor|]. constructor; [done|].
      eapply Forall_impl; [exact Hy|]. intros z Hz. by eapply le_trans.
    + constructor; [done|]. rewrite insert_by_perm. constructor; [by apply le_total|done].
Qed.
Lemma sort_by_ordered l : ordered (sort_by l).
Proof using le_total le_trans.
  induction l as [|x l IH]; simpl; [constructor|]. by apply insert_by_ordered.
Qed.

(** Sorting what is ordered changes nothing. *)
Lemma sort_by_id l : ordered l -> sort_by l = l.
Proof using Type.
  induction 1 as [|x l Hl IH Hx]; simpl; [done|]. rewrite IH.
  destruct l as [|y l]; simpl; [done|]. inversion Hx as [|? ? E]; subst. by rewrite E.
Qed.
End sorting.

Lemma ordered_filter {A} (le : A -> A -> bool) (P : A -> Prop) `{!forall x, Decision (P x)} l : ordered le l -> ordered le (filter P l).
Proof.
  induction 1 as [|x l _ IH Hx]; [constructor|]. rewrite filter_cons. destruct (decide (P x)); [|done]. constructor; [done|].
  rewrite Forall_forall in Hx |- *. intros y [_ Hy]%list_elem_of_filter. by apply Hx.
Qed.
(** Two ordered permutations of a list are equal when the order separates its
    elements. *)
Lemma ordered_unique {A} (le : A -> A -> bool) l1 l2 :
  ordered le l1 -> ordered le l2 -> l1 ≡ₚ l2 ->
  (forall x y, x ∈ l1 -> y ∈ l1 -> le x y = true -> le y x = true -> x = y) -> l1 = l2.
Proof.
  intros H1. revert l2. induction H1 as [|x l1 H1 IH Hx]; intros l2 H2 Hp Ha.
  { by apply Permutation_nil in Hp. }
  destruct H2 as [|y l2 H2 Hy].
  { symmetry in Hp. by apply Permutation_nil_cons in Hp. }
  assert (x = y) as ->.
  { assert (y ∈ x :: l1) as Iy by (rewrite Hp; by left).
    assert (x ∈ y :: l2) as Ix by (rewrite <- Hp; by left).
    apply elem_of_cons in Iy as [->|Iy]; [done|].
    apply elem_of_cons in Ix as [->|Ix]; [done|].
    rewrite Forall_forall in Hx, Hy.
    apply Ha; [by left|by right|by apply Hx|by apply Hy]. }
  f_equal. apply IH; [done|by apply Permutation_cons_inv in Hp|].
  intros a b Ia Ib. apply Ha; by right.
Qed.

(** ** Automation shared by the components *)

Create Rewrite HintDb pl_len.
Create HintDb pl_len.
#[export] Hint Rewrite @len_nil @len_cons @len_app @len_map : pl_len.
#[export] Hint Resolve len_nonneg : pl_len.

(** [lia] with quotients and remainders by constants. *)
Ltac dlia := Z.to_euclidean_division_equations; lia.

(** Split every boolean comparison of integers that blocks the goal, closing
    the impossible branches with the given solver. *)
Ltac bcase_by solver :=
  repeat match goal with
  | |- context [Z.ltb ?a ?b] => destruct (Z.ltb_spec a b); try solver
  | |- context [Z.leb ?a ?b] => destruct (Z.leb_spec a b); try solver
  | |- context [Z.eqb ?a ?b] => destruct (Z.eqb_spec a b); try solver
  end.
Ltac bcase := bcase_by lia.
Ltac dbcase := bcase_by dlia.

(** [bcase] in the hypotheses as well. *)
Ltac bcase_all :=
  repeat match goal with
  | H : context [Z.ltb ?a ?b] |- _ => destruct (Z.ltb_spec a b); try lia
  | H : context [Z.leb ?a ?b] |- _ => destruct (Z.leb_spec a b); try lia
  | H : context [Z.eqb ?a ?b] |- _ => destruct (Z.eqb_spec a b); try lia
  end; bcase.

(** Congruence down to integer equations. *)
Ltac feq := repeat (first [reflexivity | lia | f_equal]).
