(* ===== verification/Utf8.v ===== *)
(** * Rust's [char] and [str]

    A [char] is a Unicode scalar value (an integer); a [str] is its UTF-8
    byte sequence (a list of integers below 256).  The operations are those
    of the Rust standard library that the sources use: encoding and decoding,
    [is_char_boundary], [get] and slice indexing by byte offsets, [chars],
    [char_indices], [split_inclusive] and [strip_suffix].  [valid_utf8] is
    the invariant every [&str] carries. *)

From Stdlib Require Import String Ascii.
From stdpp Require Import base numbers list.
From S2P Require Import Prelude.

(** The bytes of a string literal. *)
Definition bytes_of (s : string) : list Z :=
  (fun a => Z.of_N (N_of_ascii a)) <$> list_ascii_of_string s.

(** ** Scalar values *)

Definition is_scalar (c : Z) : bool :=
  ((0 <=? c) && (c <=? 55295)) || ((57344 <=? c) && (c <=? 1114111)).

(** [char::len_utf8] *)
Definition len_utf8 (c : Z) : Z :=
  if c <? 128 then 1 else if c <? 2048 then 2 else if c <? 65536 then 3 else 4.

(** [char::len_utf16] *)
Definition len_utf16 (c : Z) : Z := if c <? 65536 then 1 else 2.

(** [char::encode_utf8] *)
Definition encode_char (c : Z) : list Z :=
  if c <? 128 then [c]
  else if c <? 2048 then [192 + c `div` 64; 128 + c `mod` 64]
  else if c <? 65536 then
    [224 + c `div` 4096; 128 + c `div` 64 `mod` 64; 128 + c `mod` 64]
  else
    [240 + c `div` 262144; 128 + c `div` 4096 `mod` 64; 128 + c `div` 64 `mod` 64;
     128 + c `mod` 64].

(** The UTF-8 bytes of a character sequence. *)
Fixpoint encode (cs : list Z) : list Z :=
  match cs with [] => [] | c :: cs => encode_char c ++ encode cs end.

Definition scalars (cs : list Z) : Prop := Forall (fun c => is_scalar c = true) cs.

Definition valid_utf8 (bs : list Z) : Prop := exists cs, scalars cs /\ bs = encode cs.

(** [str::chars] (the decoder of [core::str::next_code_point]). *)
Fixpoint chars (bs : list Z) : list Z :=
  match bs with
  | [] => []
  | x :: t =>
    if x <? 128 then x :: chars t
    else match t with
    | [] => []
    | y :: t =>
      if x <? 224 then (x `mod` 32) * 64 + y `mod` 64 :: chars t
      else match t with
      | [] => []
      | z :: t =>
        if x <? 240 then (x `mod` 16) * 4096 + (y `mod` 64) * 64 + z `mod` 64 :: chars t
        else match t with
        | [] => []
        | w :: t =>
          (x `mod` 8) * 262144 + (y `mod` 64) * 4096 + (z `mod` 64) * 64 + w `mod` 64 :: chars t
        end
      end
    end
  end.

(** The length of a character sequence in code units of width [w]; bytes and
    UTF-16 units are the two instances. *)
Fixpoint wlen (w : Z -> Z) (cs : list Z) : Z :=
  match cs with [] => 0 | c :: cs => w c + wlen w cs end.
Notation blen := (wlen len_utf8).
Notation u16len := (wlen len_utf16).

(** [str::char_indices], offsets counted from [o]. *)
Fixpoint char_indices_from (o : Z) (cs : list Z) : list (Z * Z) :=
  match cs with [] => [] | c :: cs => (o, c) :: char_indices_from (o + len_utf8 c) cs end.
Definition char_indices (bs : list Z) : list (Z * Z) := char_indices_from 0 (chars bs).

(** ** Byte offsets into a [str] *)

(** [str::is_char_boundary]: the ends, or a byte that does not continue a
    character. *)
Definition is_char_boundary (bs : list Z) (i : Z) : bool :=
  (i =? 0) || (i =? len bs) ||
  match zget bs i with Some b => (b <? 128) || (192 <=? b) | None => false end.

(** [str.get(a..b)] *)
Definition str_get (bs : list Z) (a b : Z) : option (list Z) :=
  if (a <=? b) && is_char_boundary bs a && is_char_boundary bs b
  then Some (zslice bs a b) else None.

(** [&str[a..b]] *)
Definition str_index (bs : list Z) (a b : Z) : outcome (list Z) := expect (str_get bs a b).

(** [String::replace_range(a..b, with)] *)
Definition replace_range (bs : list Z) (a b : Z) (replacement : list Z) : outcome (list Z) :=
  if (a <=? b) && is_char_boundary bs a && is_char_boundary bs b
  then Ret (ztake a bs ++ replacement ++ zdrop b bs) else Panic.

(** ** Splitting *)

Definition LF : Z := 10.
Definition CR : Z := 13.

(** [split_inclusive('\n')]: pieces keep their terminator, and no empty piece
    follows a final one. *)
Fixpoint split_inclusive (l : list Z) : list (list Z) :=
  match l with
  | [] => []
  | b :: l =>
    if b =? LF then [b] :: split_inclusive l
    else match split_inclusive l with [] => [[b]] | r :: rs => (b :: r) :: rs end
  end.

(** [str::strip_suffix(char)] *)
Definition strip_suffix (l : list Z) (x : Z) : option (list Z) :=
  match last l with
  | Some y => if y =? x then Some (ztake (len l - 1) l) else None
  | None => None
  end.

(** ** Facts about one character *)

Section char_lemmas.
Variable c : Z.
Hypothesis Hc : is_scalar c = true.

Lemma scalar_range : 0 <= c <= 1114111.
Proof using Hc.
  unfold is_scalar in Hc. apply orb_true_iff in Hc as [H|H];
    apply andb_true_iff in H as [H1%Z.leb_le H2%Z.leb_le]; lia.
Qed.

Lemma len_encode_char : len (encode_char c) = len_utf8 c.
Proof using Type. unfold encode_char, len_utf8. bcase; reflexivity. Qed.

Lemma encode_char_shape :
  exists b t, encode_char c = b :: t /\ (b <? 128) || (192 <=? b) = true
    /\ Forall (fun x => 128 <= x < 192) t.
Proof using Hc.
  pose proof scalar_range. unfold encode_char.
  bcase; do 2 eexists; (split; [reflexivity|]); (split; [dbcase; reflexivity|]);
    repeat constructor; dlia.
Qed.

Lemma chars_encode_char rest : chars (encode_char c ++ rest) = c :: chars rest.
Proof using Hc.
  pose proof scalar_range. unfold encode_char.
  bcase; simpl; dbcase; f_equal; dlia.
Qed.

Lemma encode_char_bytes : Forall (fun b => 0 <= b < 256) (encode_char c).
Proof using Hc.
  pose proof scalar_range. unfold encode_char.
  bcase; repeat constructor; dlia.
Qed.

Lemma encode_char_ascii : c < 128 -> encode_char c = [c].
Proof using Type. unfold encode_char. bcase; done. Qed.

Lemma encode_char_high : 128 <= c -> Forall (fun b => 128 <= b) (encode_char c).
Proof using Hc.
  pose proof scalar_range. unfold encode_char. intros. bcase; repeat constructor; dlia.
Qed.
End char_lemmas.

Lemma len_utf8_pos c : 1 <= len_utf8 c <= 4.
Proof. unfold len_utf8. bcase. Qed.
Lemma len_utf16_pos c : 1 <= len_utf16 c <= 2.
Proof. unfold len_utf16. bcase. Qed.
Lemma len_utf16_le_utf8 c : len_utf16 c <= len_utf8 c.
Proof. unfold len_utf8, len_utf16. bcase. Qed.
#[export] Hint Resolve len_utf8_pos len_utf16_pos : pl_len.

(** ** Facts about sequences *)

Lemma scalars_app cs1 cs2 : scalars (cs1 ++ cs2) <-> scalars cs1 /\ scalars cs2.
Proof. apply Forall_app. Qed.

Lemma scalars_app_3 cs1 cs2 cs3 :
  scalars (cs1 ++ cs2 ++ cs3) <-> scalars cs1 /\ scalars cs2 /\ scalars cs3.
Proof. by rewrite !scalars_app. Qed.
Lemma wlen_app w cs1 cs2 : wlen w (cs1 ++ cs2) = wlen w cs1 + wlen w cs2.
Proof. induction cs1; simpl; lia. Qed.

(** A code unit count gives every character a positive width. *)
Class Width (w : Z -> Z) : Prop := width_pos c : 1 <= w c.
#[export] Instance width_utf8 : Width len_utf8.
Proof. intros c. apply len_utf8_pos. Qed.
#[export] Instance width_utf16 : Width len_utf16.
Proof. intros c. apply len_utf16_pos. Qed.

Lemma wlen_nonneg w `{!Width w} cs : 0 <= wlen w cs.
Proof. induction cs as [|c cs IH]; simpl; [done|]. pose proof (width_pos c). lia. Qed.
Lemma wlen_zero_nil w `{!Width w} cs : wlen w cs = 0 -> cs = [].
Proof.
  destruct cs as [|c cs]; [done|]. simpl.
  pose proof (width_pos c). pose proof (wlen_nonneg w cs). lia.
Qed.
Lemma blen_app cs1 cs2 : blen (cs1 ++ cs2) = blen cs1 + blen cs2.
Proof. apply wlen_app. Qed.
Lemma u16len_app cs1 cs2 : u16len (cs1 ++ cs2) = u16len cs1 + u16len cs2.
Proof. apply wlen_app. Qed.
Lemma blen_nonneg cs : 0 <= blen cs.
Proof. apply wlen_nonneg, _. Qed.
Lemma u16len_nonneg cs : 0 <= u16len cs.
Proof. apply wlen_nonneg, _. Qed.
Lemma u16len_le_blen cs : u16len cs <= blen cs.
Proof. induction cs as [|c cs IH]; simpl; [done|]. pose proof (len_utf16_le_utf8 c). lia. Qed.
Lemma blen_zero_nil cs : blen cs = 0 -> cs = [].
Proof. apply wlen_zero_nil, _. Qed.
Lemma len_le_blen cs : len cs <= blen cs.
Proof.
  induction cs as [|c cs IH]; [done|]. rewrite len_cons. simpl. pose proof (len_utf8_pos c). lia.
Qed.

Lemma encode_app cs1 cs2 : encode (cs1 ++ cs2) = encode cs1 ++ encode cs2.
Proof. induction cs1 as [|c cs1 IH]; simpl; [done|]. by rewrite IH, app_assoc. Qed.
Lemma len_encode cs : len (encode cs) = blen cs.
Proof. induction cs as [|c cs IH]; simpl; [done|]. by rewrite len_app, len_encode_char, IH. Qed.
#[export] Hint Rewrite blen_app u16len_app encode_app len_encode : pl_len.

(** Decoding inverts encoding, so a [str] and its characters determine each
    other. *)
Lemma chars_encode cs : scalars cs -> chars (encode cs) = cs.
Proof.
  induction 1 as [|c cs Hc _ IH]; simpl; [done|]. by rewrite chars_encode_char, IH.
Qed.

Lemma encode_inj cs1 cs2 : scalars cs1 -> scalars cs2 -> encode cs1 = encode cs2 -> cs1 = cs2.
Proof. intros H1 H2 E. by rewrite <- (chars_encode cs1), E, chars_encode. Qed.

Lemma encode_bytes cs : scalars cs -> Forall (fun b => 0 <= b < 256) (encode cs).
Proof.
  induction 1; simpl; [constructor|]. apply Forall_app; auto using encode_char_bytes.
Qed.

(** Prefixes of a sequence with comparable byte lengths are nested. *)
Lemma blen_prefix_inj c1 c2 d1 d2 :
  c1 ++ c2 = d1 ++ d2 -> blen c1 = blen d1 -> c1 = d1 /\ c2 = d2.
Proof.
  revert d1. induction c1 as [|x c1 IH]; intros [|y d1] E L; simpl in *.
  - done.
  - pose proof (len_utf8_pos y). pose proof (blen_nonneg d1). lia.
  - pose proof (len_utf8_pos x). pose proof (blen_nonneg c1). lia.
  - injection E as -> E. assert (blen c1 = blen d1) as L' by lia.
    by destruct (IH d1 E L') as [-> ->].
Qed.

Lemma prefix_le_split c1 c2 d1 d2 :
  c1 ++ c2 = d1 ++ d2 -> blen c1 <= blen d1 -> exists m, d1 = c1 ++ m /\ c2 = m ++ d2.
Proof.
  revert d1. induction c1 as [|x c1 IH]; intros d1 E L; simpl in *; [by exists d1|].
  destruct d1 as [|y d1]; simpl in *.
  - pose proof (len_utf8_pos x). pose proof (blen_nonneg c1). lia.
  - injection E as -> E. assert (blen c1 <= blen d1) as L' by lia.
    destruct (IH d1 E L') as (m & -> & ->). by exists m.
Qed.

(** ** Boundaries are the byte lengths of the prefixes *)

Lemma boundary_prefix c1 c2 :
  scalars (c1 ++ c2) -> is_char_boundary (encode (c1 ++ c2)) (blen c1) = true.
Proof.
  intros [_ Hs]%scalars_app. unfold is_char_boundary.
  destruct c2 as [|c c2].
  - rewrite app_nil_r, len_encode, Z.eqb_refl. by rewrite orb_true_r.
  - inversion Hs as [|? ? Hc _]; subst.
    destruct (encode_char_shape c Hc) as (b & t & E & Hb & _).
    rewrite encode_app. simpl. rewrite E. simpl. rewrite <- (len_encode c1) at 3.
    rewrite zget_app_len, Hb. by rewrite orb_true_r.
Qed.

Lemma boundary_interior c1 c c2 k :
  is_scalar c = true -> 0 < k < len_utf8 c ->
  is_char_boundary (encode (c1 ++ c :: c2)) (blen c1 + k) = false.
Proof.
  intros Hc Hk. unfold is_char_boundary.
  destruct (encode_char_shape c Hc) as (b & t & E & _ & Ht).
  assert (len t = len_utf8 c - 1) as Hlt.
  { rewrite <- len_encode_char, E, len_cons. lia. }
  pose proof (blen_nonneg c1). pose proof (blen_nonneg c2).
  rewrite len_encode, blen_app. simpl.
  destruct (Z.eqb_spec (blen c1 + k) 0); [lia|].
  destruct (Z.eqb_spec (blen c1 + k) (blen c1 + (len_utf8 c + blen c2))); [lia|]. simpl.
  rewrite encode_app, zget_app_r by (rewrite len_encode; lia). simpl.
  rewrite len_encode. replace (blen c1 + k - blen c1) with k by lia.
  rewrite E. simpl. rewrite zget_cons_S, zget_app_l by lia.
  destruct (zget_lt_Some t (k - 1)) as [x Hx]; [lia|]. rewrite Hx.
  apply zget_split in Hx as (t1 & t2 & -> & _).
  apply Forall_app in Ht as [_ Ht]. inversion Ht; subst. bcase; done.
Qed.

(** Every offset inside the text is a boundary or lies inside one character. *)
Lemma offset_cases cs i :
  0 <= i <= blen cs ->
  (exists c1 c2, cs = c1 ++ c2 /\ i = blen c1) \/
  (exists c1 c c2 k, cs = c1 ++ c :: c2 /\ i = blen c1 + k /\ 0 < k < len_utf8 c).
Proof.
  revert i. induction cs as [|c cs IH]; intros i Hi; simpl in *.
  - left. exists [], []. simpl. split; [done|lia].
  - destruct (Z.eq_dec i 0) as [->|].
    { left. by exists [], (c :: cs). }
    destruct (Z_lt_le_dec i (len_utf8 c)).
    + right. exists [], c, cs, i. simpl. repeat split; lia.
    + destruct (IH (i - len_utf8 c)) as [(c1 & c2 & -> & E)|(c1 & d & c2 & k & -> & E & Hk)]; [lia| |].
      * left. exists (c :: c1), c2. simpl. split; [done|lia].
      * right. exists (c :: c1), d, c2, k. simpl. repeat split; try lia.
Qed.

Lemma boundary_inv cs i :
  scalars cs -> is_char_boundary (encode cs) i = true ->
  exists c1 c2, cs = c1 ++ c2 /\ i = blen c1.
Proof.
  intros Hs Hb.
  assert (0 <= i <= blen cs) as Hi.
  { unfold is_char_boundary in Hb. rewrite !orb_true_iff in Hb.
    pose proof (blen_nonneg cs). rewrite len_encode in Hb.
    destruct Hb as [[E%Z.eqb_eq|E%Z.eqb_eq]|E]; [lia|lia|].
    destruct (zget (encode cs) i) eqn:G; [|done].
    apply zget_Some_lt in G. rewrite len_encode in G. lia. }
  destruct (offset_cases cs i Hi) as [?|(c1 & c & c2 & k & -> & -> & Hk)]; [done|].
  apply scalars_app in Hs as [_ Hs]. inversion Hs; subst.
  by rewrite boundary_interior in Hb.
Qed.

(** ** Slices at boundaries *)

Lemma str_get_mid c1 c2 c3 :
  scalars (c1 ++ c2 ++ c3) ->
  str_get (encode (c1 ++ c2 ++ c3)) (blen c1) (blen c1 + blen c2) = Some (encode c2).
Proof.
  intros Hs. unfold str_get. pose proof (blen_nonneg c2).
  rewrite (boundary_prefix c1 (c2 ++ c3)) by done.
  rewrite <- blen_app, (app_assoc c1 c2 c3), (boundary_prefix (c1 ++ c2) c3)
    by (by rewrite <- app_assoc).
  rewrite blen_app. bcase. simpl. f_equal.
  rewrite <- app_assoc, !encode_app, <- !len_encode. apply zslice_mid.
Qed.

Lemma str_index_mid c1 c2 c3 :
  scalars (c1 ++ c2 ++ c3) ->
  str_index (encode (c1 ++ c2 ++ c3)) (blen c1) (blen c1 + blen c2) = Ret (encode c2).
Proof. intros. unfold str_index. by rewrite str_get_mid. Qed.

Lemma str_get_inv cs a b s :
  scalars cs -> str_get (encode cs) a b = Some s ->
  exists c1 c2 c3, cs = c1 ++ c2 ++ c3 /\ a = blen c1 /\ b = blen c1 + blen c2 /\ s = encode c2.
Proof.
  intros Hs. unfold str_get.
  destruct (Z.leb_spec a b) as [Hab|]; [|done].
  destruct (is_char_boundary (encode cs) a) eqn:Ha; [|done].
  destruct (is_char_boundary (encode cs) b) eqn:Hb; [|done]. simpl. intros [= <-].
  apply boundary_inv in Ha as (a1 & a2 & E1 & ->); [|done].
  apply boundary_inv in Hb as (b1 & b2 & E2 & ->); [|done].
  rewrite E1 in E2.
  destruct (prefix_le_split a1 a2 b1 b2 E2 Hab) as (m & -> & ->).
  exists a1, m, b2. split; [done|]. split; [done|]. rewrite blen_app. split; [done|].
  rewrite E1, !encode_app, <- !len_encode. apply zslice_mid.
Qed.

(** ** Bytes, lines and suffixes of encoded text *)

Lemma split_inclusive_high l k :
  Forall (fun b => 128 <= b) l -> l <> [] ->
  split_inclusive (l ++ k) =
    match split_inclusive k with [] => [l] | r :: rs => (l ++ r) :: rs end.
Proof.
  intros Hl Hne. induction Hl as [|b l Hb Hl IH]; [done|]. simpl.
  unfold LF. destruct (Z.eqb_spec b 10); [lia|].
  destruct l as [|b' l].
  - simpl. destruct (split_inclusive k); reflexivity.
  - rewrite IH by done. destruct (split_inclusive k); reflexivity.
Qed.

Lemma split_inclusive_encode cs :
  scalars cs -> split_inclusive (encode cs) = encode <$> split_inclusive cs.
Proof.
  induction 1 as [|c cs Hc Hs IH]; [done|]. simpl encode. simpl split_inclusive at 2.
  unfold LF. destruct (Z.eqb_spec c 10) as [->|Hne].
  - simpl. by rewrite IH.
  - destruct (Z_lt_le_dec c 128).
    + rewrite encode_char_ascii by done. simpl. unfold LF.
      destruct (Z.eqb_spec c 10); [lia|]. rewrite IH.
      destruct (split_inclusive cs); simpl; by rewrite encode_char_ascii.
    + rewrite split_inclusive_high.
      * rewrite IH. destruct (split_inclusive cs); simpl; [by rewrite app_nil_r|done].
      * by apply encode_char_high.
      * destruct (encode_char_shape c Hc) as (? & ? & -> & _). done.
Qed.

Lemma concat_split_inclusive l : concat (split_inclusive l) = l.
Proof.
  induction l as [|b l IH]; [done|]. simpl.
  destruct (b =? LF); simpl; [by f_equal|].
  revert IH. destruct (split_inclusive l); simpl; by intros <-.
Qed.

Lemma strip_suffix_snoc l x : strip_suffix (l ++ [x]) x = Some l.
Proof.
  unfold strip_suffix. rewrite last_snoc, Z.eqb_refl. f_equal.
  rewrite len_app, len_cons, len_nil.
  replace (len l + (1 + 0) - 1) with (len l) by lia. apply ztake_app_len.
Qed.
Lemma strip_suffix_snoc_ne l x y : x <> y -> strip_suffix (l ++ [x]) y = None.
Proof. intros. unfold strip_suffix. rewrite last_snoc. by destruct (Z.eqb_spec x y). Qed.

Lemma strip_suffix_inv l x w : strip_suffix l x = Some w -> l = w ++ [x].
Proof.
  destruct l as [|y l] using rev_ind; [done|].
  destruct (decide (y = x)) as [->|Hne].
  - rewrite strip_suffix_snoc. by intros [= ->].
  - by rewrite strip_suffix_snoc_ne by congruence.
Qed.

Lemma strip_suffix_encode cs x :
  scalars cs -> 0 <= x < 128 -> strip_suffix (encode cs) x = encode <$> strip_suffix cs x.
Proof.
  intros Hs Hx. destruct cs as [|c cs] using rev_ind; [done|].
  apply scalars_app in Hs as [_ Hs]. inversion Hs as [|? ? Hc _]; subst.
  rewrite encode_app. simpl. rewrite app_nil_r.
  destruct (Z_lt_le_dec c 128) as [Hlt|Hge].
  - rewrite encode_char_ascii by done.
    destruct (Z.eq_dec c x) as [->|]; [by rewrite !strip_suffix_snoc|].
    by rewrite !strip_suffix_snoc_ne.
  - rewrite strip_suffix_snoc_ne by lia. simpl.
    pose proof (encode_char_high c Hc Hge) as Hh.
    destruct (encode_char_shape c Hc) as (b0 & t0 & E & _). rewrite E in *. clear E.
    destruct (exists_last (l := b0 :: t0)) as (t & b & E); [done|].
    rewrite E in *. clear E.
    rewrite app_assoc. apply Forall_app in Hh as [_ Hh]. inversion Hh; subst.
    by rewrite strip_suffix_snoc_ne by lia.
Qed.

Lemma chars_len_encode cs : scalars cs -> len (chars (encode cs)) = len cs.
Proof. intros. by rewrite chars_encode. Qed.

(** ** Replacing a range *)

(** A range between boundaries is a run of characters. *)
Lemma range_split cs a b :
  scalars cs -> a <= b -> is_char_boundary (encode cs) a = true ->
  is_char_boundary (encode cs) b = true ->
  exists c1 c2 c3, cs = c1 ++ c2 ++ c3 /\ a = blen c1 /\ b = blen c1 + blen c2.
Proof.
  intros Hs Hab Ha Hb.
  destruct (str_get (encode cs) a b) as [s|] eqn:E.
  - apply str_get_inv in E as (c1 & c2 & c3 & ? & ? & ? & _); [|done]. by exists c1, c2, c3.
  - unfold str_get in E. by rewrite Ha, Hb, (proj2 (Z.leb_le _ _) Hab) in E.
Qed.

Lemma replace_range_mid c1 c2 c3 r :
  scalars (c1 ++ c2 ++ c3) ->
  replace_range (encode (c1 ++ c2 ++ c3)) (blen c1) (blen c1 + blen c2) (encode r) =
    Ret (encode (c1 ++ r ++ c3)).
Proof.
  intros Hs. unfold replace_range. pose proof (blen_nonneg c2).
  rewrite (boundary_prefix c1 (c2 ++ c3)) by done.
  rewrite <- blen_app, (app_assoc c1 c2 c3), (boundary_prefix (c1 ++ c2) c3)
    by (by rewrite <- app_assoc).
  rewrite blen_app. bcase. simpl. f_equal. rewrite <- blen_app.
  rewrite (encode_app (c1 ++ c2) c3), <- (len_encode (c1 ++ c2)), zdrop_app_len.
  rewrite (encode_app c1 c2), <- (len_encode c1), <- app_assoc, ztake_app_len.
  by rewrite !encode_app.
Qed.

(** A boundary of a prefix stays one whatever follows it. *)
Lemma boundary_keep c1 c2 c2' i :
  scalars (c1 ++ c2) -> scalars (c1 ++ c2') -> i <= blen c1 ->
  is_char_boundary (encode (c1 ++ c2)) i = true -> is_char_boundary (encode (c1 ++ c2')) i = true.
Proof.
  intros Hs Hs' Hi Hb. apply boundary_inv in Hb as (d1 & d2 & E & ->); [|done].
  destruct (prefix_le_split d1 d2 c1 c2) as (m & -> & _); [done|done|].
  rewrite <- app_assoc. apply boundary_prefix. by rewrite app_assoc.
Qed.

(** A boundary of a suffix stays one whatever precedes it. *)
Lemma boundary_shift c1 d1 c2 i :
  scalars (c1 ++ c2) -> scalars (d1 ++ c2) -> blen c1 <= i ->
  is_char_boundary (encode (c1 ++ c2)) i = true ->
  is_char_boundary (encode (d1 ++ c2)) (i - blen c1 + blen d1) = true.
Proof.
  intros Hs Hs' Hi Hb. apply boundary_inv in Hb as (e1 & e2 & E & ->); [|done].
  destruct (prefix_le_split c1 c2 e1 e2) as (m & -> & ->); [done|done|].
  rewrite blen_app. replace (blen c1 + blen m - blen c1 + blen d1) with (blen (d1 ++ m))
    by (rewrite blen_app; lia).
  rewrite app_assoc. apply boundary_prefix. by rewrite <- app_assoc.
Qed.

Lemma boundary_bounds cs i : scalars cs -> is_char_boundary (encode cs) i = true -> 0 <= i <= blen cs.
Proof.
  intros Hs Hb. apply boundary_inv in Hb as (c1 & c2 & -> & ->); [|done].
  rewrite blen_app. pose proof (blen_nonneg c1). pose proof (blen_nonneg c2). lia.
Qed.
