(* ===== verification/StdText.v ===== *)
(** * Operations of Rust's [str] that several components use

    Validation ([str::from_utf8]), trimming, ASCII case folding, splitting at
    a separator, and the decimal notation of [usize].  A string is its list
    of bytes; characters come from [Utf8.chars]. *)

From stdpp Require Import base numbers list.
From S2P Require Import Prelude Utf8.

(** ** Validation *)

(** [std::str::from_utf8] *)
Definition from_utf8 (bs : list Z) : bool :=
  forallb is_scalar (chars bs) && bool_decide (encode (chars bs) = bs).
(** [Utf8Error::valid_up_to]: the length of the longest valid prefix. *)
Fixpoint longest_valid (n : nat) (bs : list Z) : Z :=
  match n with
  | O => 0
  | S n' => if from_utf8 (take n bs) then Z.of_nat n else longest_valid n' bs
  end.
Definition valid_up_to (bs : list Z) : Z := longest_valid (length bs) bs.

(** ** Characters *)

Definition to_ascii_lowercase (c : Z) : Z := if (65 <=? c) && (c <=? 90) then c + 32 else c.
Definition eq_ignore_ascii_case (a b : list Z) : bool :=
  bool_decide (to_ascii_lowercase <$> a = to_ascii_lowercase <$> b).

(** [char::is_whitespace]: the characters with the property [White_Space]. *)
Definition is_whitespace (c : Z) : bool :=
  ((9 <=? c) && (c <=? 13)) || (c =? 32) || (c =? 133) || (c =? 160) || (c =? 5760) ||
  ((8192 <=? c) && (c <=? 8202)) || (c =? 8232) || (c =? 8233) || (c =? 8239) || (c =? 8287) || (c =? 12288).

Fixpoint drop_while {A} (p : A -> bool) (l : list A) : list A :=
  match l with x :: l' => if p x then drop_while p l' else l | [] => [] end.
Definition drop_while_end {A} (p : A -> bool) (l : list A) : list A := reverse (drop_while p (reverse l)).

(** [str::trim] *)
Definition trim (s : list Z) : list Z :=
  encode (drop_while_end is_whitespace (drop_while is_whitespace (chars s))).
(** [str::trim_end_matches] with a one-byte pattern *)
Definition trim_end_matches (b : Z) (s : list Z) : list Z := drop_while_end (fun x => x =? b) s.

(** [str::split_once] with a one-byte separator *)
Fixpoint split_once (sep : Z) (s : list Z) : option (list Z * list Z) :=
  match s with
  | [] => None
  | x :: s => if x =? sep then Some ([], s)
              else match split_once sep s with Some (a, b) => Some (x :: a, b) | None => None end
  end.

(** [str::rsplit_once("::")]: the text before and after the last separator *)
Fixpoint rsplit_colons (s : list Z) : option (list Z * list Z) :=
  match s with
  | [] => None
  | x :: rest =>
    match rsplit_colons rest with
    | Some (a, b) => Some (x :: a, b)
    | None => match s with 58 :: 58 :: b => Some ([], b) | _ => None end
    end
  end.

(** ** Decimal [usize] *)

(** [str::parse::<usize>]: an optional plus sign, then digits, at least one;
    a value above [usize::MAX] is an error. *)
Definition is_digit (c : Z) : bool := (48 <=? c) && (c <=? 57).
Fixpoint parse_digits (acc : Z) (s : list Z) : option Z :=
  match s with
  | [] => Some acc
  | c :: s =>
    if is_digit c then
      let acc := acc * 10 + (c - 48) in
      if acc <=? usize_max then parse_digits acc s else None
    else None
  end.
Definition parse_usize (s : list Z) : option Z :=
  match s with
  | [] => None
  | 43 :: [] => None
  | 43 :: s => parse_digits 0 s
  | s => parse_digits 0 s
  end.

(** [format!("{n}")]; twenty digits are enough for [usize::MAX]. *)
Fixpoint decimal_digits (fuel : nat) (n : Z) : list Z :=
  match fuel with
  | O => []
  | S fuel => if n <? 10 then [48 + n] else decimal_digits fuel (n / 10) ++ [48 + n `mod` 10]
  end.
Definition decimal (n : Z) : list Z := decimal_digits 20 n.

(** ** Lemmas *)

Lemma from_utf8_spec bs : from_utf8 bs = true <-> valid_utf8 bs.
Proof.
  unfold from_utf8, valid_utf8. rewrite andb_true_iff, forallb_forall, bool_decide_eq_true. split.
  - intros [Hs He]. exists (chars bs). split; [|done]. apply Forall_forall. intros c Hc. apply Hs.
    by apply list_elem_of_In.
  - intros (cs & Hs & ->). rewrite chars_encode by done. split; [|done].
    intros c Hc%list_elem_of_In. by eapply Forall_forall in Hs.
Qed.

Lemma longest_valid_spec n bs :
  0 <= longest_valid n bs <= Z.of_nat n /\ valid_utf8 (ztake (longest_valid n bs) bs) /\
  forall k, longest_valid n bs < k <= Z.of_nat n -> ~ valid_utf8 (ztake k bs).
Proof.
  induction n as [|n (IH1 & IH2 & IH3)]; cbn [longest_valid].
  { split_and!; [lia|lia|exists []; split; [constructor|done]|lia]. }
  destruct (from_utf8 (take (S n) bs)) eqn:E.
  - apply from_utf8_spec in E. split_and!; [lia|lia| |lia]. unfold ztake. by rewrite Nat2Z.id.
  - split_and!; [lia|lia|done|]. intros k Hk Hv. destruct (decide (k = Z.of_nat (S n))) as [->|Hne].
    + unfold ztake in Hv. rewrite Nat2Z.id in Hv. apply from_utf8_spec in Hv. congruence.
    + apply (IH3 k); [lia|done].
Qed.

(** ASCII text is its own character sequence. *)
Definition ascii (s : list Z) : Prop := Forall (fun c => 0 <= c < 128) s.
Lemma ascii_scalars s : ascii s -> scalars s.
Proof. intros H. eapply Forall_impl; [exact H|]. intros c Hc. simpl in Hc. unfold is_scalar. bcase; done || lia. Qed.
Lemma encode_ascii s : ascii s -> encode s = s.
Proof.
  induction 1 as [|c s Hc _ IH]; [done|]. simpl. rewrite IH. by rewrite encode_char_ascii by (simpl in Hc; lia).
Qed.
Lemma chars_ascii s : ascii s -> chars s = s.
Proof. intros H. rewrite <- (encode_ascii s H) at 1. by apply chars_encode, ascii_scalars. Qed.
Lemma from_utf8_ascii s : ascii s -> from_utf8 s = true.
Proof. intros H. apply from_utf8_spec. exists s. split; [by apply ascii_scalars|by rewrite encode_ascii]. Qed.


(** Trimming text without blanks, and after leading blanks. *)
Definition solid (s : list Z) : Prop := Forall (fun c => is_whitespace c = false) s.
Lemma drop_while_solid s : solid s -> drop_while is_whitespace s = s.
Proof. destruct 1 as [|x s H _]; [done|]. simpl. by rewrite H. Qed.
Lemma drop_while_end_solid s : solid s -> drop_while_end is_whitespace s = s.
Proof.
  intros H. unfold drop_while_end. rewrite drop_while_solid; [apply reverse_involutive|].
  by apply Forall_reverse.
Qed.
Lemma drop_while_app {A} (p : A -> bool) l1 l2 :
  Forall (fun x => p x = true) l1 -> drop_while p (l1 ++ l2) = drop_while p l2.
Proof. induction 1 as [|x l1 H _ IH]; [done|]. simpl. by rewrite H. Qed.
Lemma trim_blank_solid b s :
  ascii (b ++ s) -> Forall (fun c => is_whitespace c = true) b -> solid s -> trim (b ++ s) = s.
Proof.
  intros Ha Hb Hs. unfold trim. rewrite chars_ascii by done.
  rewrite drop_while_app, drop_while_solid, drop_while_end_solid by done.
  apply encode_ascii. by apply Forall_app in Ha as [_ Ha].
Qed.

Lemma split_once_app sep a b : Forall (fun x => x <> sep) a -> split_once sep (a ++ sep :: b) = Some (a, b).
Proof.
  induction 1 as [|x a H _ IH]; simpl; [by rewrite Z.eqb_refl|].
  destruct (Z.eqb_spec x sep); [done|]. by rewrite IH.
Qed.

(** ** Lemmas: decimal notation *)

Lemma parse_digits_app a l1 l2 : parse_digits a (l1 ++ l2) = x ← parse_digits a l1; parse_digits x l2.
Proof.
  revert a. induction l1 as [|c l1 IH]; intros a; [done|]. simpl.
  destruct (is_digit c); [|done]. by destruct (_ <=? usize_max).
Qed.
Lemma decimal_digits_spec fuel n :
  0 <= n <= usize_max -> n < 10 ^ Z.of_nat fuel ->
  parse_digits 0 (decimal_digits fuel n) = Some n /\ Forall (fun c => is_digit c = true) (decimal_digits fuel n).
Proof.
  revert n. induction fuel as [|fuel IH]; intros n Hn Hf.
  { simpl in *. split; [f_equal; lia|constructor]. }
  rewrite Nat2Z.inj_succ, Z.pow_succ_r in Hf by lia. simpl.
  assert (forall d, 0 <= d < 10 -> is_digit (48 + d) = true) as Hd by (intros d ?; unfold is_digit; bcase; done || lia).
  destruct (Z.ltb_spec n 10) as [Hs|Hs].
  - simpl. rewrite Hd by lia. replace (0 * 10 + (48 + n - 48)) with n by lia.
    rewrite (proj2 (Z.leb_le n usize_max)) by lia.
    split; [done|]. constructor; [by apply Hd; lia|constructor].
  - destruct (IH (n / 10)) as [E Ha]; [dlia|dlia|]. rewrite parse_digits_app, E. simpl.
    rewrite Hd by dlia. replace (n / 10 * 10 + (48 + n `mod` 10 - 48)) with n by dlia.
    rewrite (proj2 (Z.leb_le n usize_max)) by lia. split; [done|].
    apply Forall_app. split; [done|]. constructor; [apply Hd; dlia|constructor].
Qed.
Lemma decimal_digits_nil fuel n : decimal_digits (S fuel) n <> [].
Proof. simpl. destruct (n <? 10); [done|]. by destruct (decimal_digits fuel (n / 10)). Qed.

Lemma usize_digits n : 0 <= n <= usize_max -> n < 10 ^ Z.of_nat 20.
Proof. change (10 ^ Z.of_nat 20) with 100000000000000000000. unfold usize_max. lia. Qed.

(** What is printed is parsed. *)
Lemma parse_decimal n : 0 <= n <= usize_max -> parse_usize (decimal n) = Some n.
Proof.
  intros Hn. destruct (decimal_digits_spec 20 n Hn) as [E Hd]; [by apply usize_digits|].
  fold (decimal n) in E, Hd. pose proof (decimal_digits_nil 19 n) as Hne. fold (decimal n) in Hne.
  unfold parse_usize. destruct (decimal n) as [|c s]; [done|]. inversion Hd as [|? ? Hc _]; subst.
  assert (c <> 43) as Hp by (unfold is_digit in Hc; bcase_all; lia).
  destruct c as [|p|p]; [done| |done]. repeat (destruct p as [p|p|]; try done).
Qed.
Lemma decimal_ascii n : 0 <= n <= usize_max -> ascii (decimal n) /\ solid (decimal n) /\ Forall (fun c => is_digit c = true) (decimal n).
Proof.
  intros Hn. destruct (decimal_digits_spec 20 n Hn) as [_ Hd]; [by apply usize_digits|].
  split_and!; [| |done]; (eapply Forall_impl; [exact Hd|]); intros c Hc; unfold is_digit in Hc;
    apply andb_true_iff in Hc as [H1%Z.leb_le H2%Z.leb_le]; simpl; [lia|].
  unfold is_whitespace. bcase; done || lia.
Qed.
Lemma decimal_length n : len (decimal n) <= 20.
Proof.
  assert (forall fuel n, len (decimal_digits fuel n) <= Z.of_nat fuel) as H; [|apply (H 20%nat)].
  induction fuel as [|fuel IH]; intros m; simpl; [by rewrite len_nil|].
  destruct (m <? 10); [rewrite len_cons, len_nil; lia|]. rewrite len_app, len_cons, len_nil. specialize (IH (m / 10)). lia.
Qed.
