(* ===== verification/UriKeys.v ===== *)
(** * Keys of URIs (perl-uri/src/classify.rs)

    [uri_key] maps the spellings of a file that editors use to one key: the
    legacy Windows and UNC forms are rewritten here, anything else goes
    through the url crate, which is the class [UrlOps]; percent encoding is
    the class [PercentEncode].  Proved here: the key of a Windows path is the
    same for all its spellings and differs for different paths, and the
    extension of a URI is what follows the last dot of its last segment. *)

From Stdlib Require Import String.
From stdpp Require Import base numbers list.
From S2P Require Import Prelude Utf8 StdText.

(** ** Strings *)

Notation text := (list Z).
Definition SLASH : Z := 47.
Definition BACKSLASH : Z := 92.
Definition is_ascii_alphabetic (c : Z) : bool := ((65 <=? c) && (c <=? 90)) || ((97 <=? c) && (c <=? 122)).
(** [str::replace] of one character by another *)
Definition replace_char (from to : Z) (s : text) : text := (fun c => if c =? from then to else c) <$> s.
(** [str::split(char)] *)
Fixpoint split_on (p : Z -> bool) (s : text) : list text :=
  match s with
  | [] => [[]]
  | c :: s => if p c then [] :: split_on p s else match split_on p s with [] => [[c]] | w :: ws => (c :: w) :: ws end
  end.
(** [join] *)
Fixpoint join (sep : text) (ws : list text) : text :=
  match ws with [] => [] | [w] => w | w :: ws => w ++ sep ++ join sep ws end.
Definition strip_prefix (p s : text) : option text := if bool_decide (take (length p) s = p) then Some (drop (length p) s) else None.
(** [rfind(char)] *)
Fixpoint rfind (b : Z) (s : text) : option Z :=
  match s with
  | [] => None
  | c :: s => match rfind b s with Some i => Some (1 + i) | None => if c =? b then Some 0 else None end
  end.

(** ** The url and percent-encoding crates *)

Class UrlOps := {
  Url : Type;
  url_parse : text -> option Url;
  as_str : Url -> text;
  scheme : Url -> text;
  host_str : Url -> option text;
  path : Url -> text;
  query : Url -> option text;
  fragment : Url -> option text;
}.
Class PercentEncode := { utf8_percent_encode : text -> (Z -> bool) -> text }.

(** [CONTROLS] and the characters added to it *)
Definition URI_PATH_KEY_ENCODE_SET (c : Z) : bool :=
  (c <? 32) || (c =? 127) || bool_decide (c ∈ [32; 34; 35; 37; 60; 62; 63; 96; 123; 125]).

Section keys.
Context `{!UrlOps, !PercentEncode}.

Definition is_local_file_authority (host : option text) : bool :=
  match host with
  | Some h => bool_decide (h ∈ [bytes_of "localhost"; bytes_of "127.0.0.1"; bytes_of "::1"; bytes_of "[::1]"])
  | None => false
  end.
Definition local_file_uri_without_authority (parsed : Url) : text :=
  bytes_of "file://" ++ path parsed ++ from_option (fun q => 63 :: q) [] (query parsed) ++ from_option (fun f => 35 :: f) [] (fragment parsed).
Definition strip_ascii_prefix (value prefix : text) : option text :=
  candidate ← str_get value 0 (len prefix);
  if eq_ignore_ascii_case candidate prefix then str_get value (len prefix) (len value) else None.
Definition or_else {A} (x y : option A) : option A := match x with Some _ => x | None => y end.
Definition strip_localhost_authority (p : text) : option text :=
  rest ← strip_ascii_prefix p (bytes_of "localhost");
  or_else (strip_prefix [SLASH] rest) (strip_prefix [BACKSLASH] rest).
Definition encode_uri_path_key_component (component : text) : text := utf8_percent_encode component URI_PATH_KEY_ENCODE_SET.
Definition is_slash (c : Z) : bool := c =? SLASH.
Definition encode_segments (s : text) : text := join [SLASH] (encode_uri_path_key_component <$> split_on is_slash s).

Definition normalize_unc_path_to_key (p : text) : option text :=
  without_prefix ← or_else (strip_prefix [BACKSLASH; BACKSLASH] p) (strip_prefix [SLASH; SLASH] p);
  match filter (fun segment => segment <> []) (split_on is_slash (replace_char BACKSLASH SLASH without_prefix)) with
  | server :: share :: parts =>
    let share := encode_uri_path_key_component share in
    let rest := join [SLASH] (encode_uri_path_key_component <$> parts) in
    Some (if bool_decide (rest = []) then bytes_of "file://" ++ server ++ [SLASH] ++ share
          else bytes_of "file://" ++ server ++ [SLASH] ++ share ++ [SLASH] ++ rest)
  | _ => None
  end.
Definition normalize_windows_path_to_key (p : text) : option text :=
  let p := drop_while is_slash p in
  if len p <? 3 then None
  else match p with
  | b0 :: b1 :: _ =>
    if negb (is_ascii_alphabetic b0) || (negb (b1 =? 58) && negb (b1 =? 124)) then None
    else
      let normalized := replace_char BACKSLASH SLASH p in
      let normalized := if bool_decide (zget normalized 1 = Some 124) then ztake 1 normalized ++ [58] ++ zdrop 2 normalized else normalized in
      let normalized := if bool_decide (zget normalized 2 = Some SLASH) then normalized else ztake 2 normalized ++ [SLASH] ++ zdrop 2 normalized in
      let drive := to_ascii_lowercase <$> ztake 1 normalized in
      let path := encode_segments (zdrop 3 normalized) in
      Some (if bool_decide (path = []) then bytes_of "file:///" ++ drive ++ bytes_of ":/" else bytes_of "file:///" ++ drive ++ bytes_of ":/" ++ path)
  | _ => None
  end.
Definition normalize_legacy_windows_uri (uri : text) : option text :=
  let trimmed := trim uri in
  if bool_decide (trimmed = []) then None
  else
    let normalize p :=
      let p := default p (strip_localhost_authority p) in
      or_else (normalize_windows_path_to_key p) (normalize_unc_path_to_key p) in
    match strip_ascii_prefix trimmed (bytes_of "file://") with
    | Some rest => if bool_decide (head rest = Some SLASH) then None else normalize rest
    | None => normalize trimmed
    end.
(** The drive letter of a canonical URI in lower case; a byte before an ASCII
    byte ends a character, so the slices are whole characters. *)
Definition lower_drive (value : text) : text :=
  match strip_prefix (bytes_of "file:///") value with
  | Some (b0 :: b1 :: rest) =>
    if ((b1 =? 58) || (b1 =? 124)) && is_ascii_alphabetic b0
    then bytes_of "file:///" ++ [to_ascii_lowercase b0] ++ [if b1 =? 124 then 58 else b1] ++ rest
    else value
  | _ => value
  end.
Definition uri_key (uri : text) : text :=
  let trimmed := trim uri in
  match normalize_legacy_windows_uri trimmed with
  | Some normalized => normalized
  | None =>
    match url_parse trimmed with
    | Some parsed =>
      lower_drive (if bool_decide (scheme parsed = bytes_of "file") && is_local_file_authority (host_str parsed)
                   then local_file_uri_without_authority parsed else as_str parsed)
    | None => trimmed
    end
  end.

(** [uri.get(..n).is_some_and(|p| p.eq_ignore_ascii_case(p))] *)
Definition starts_with_ignore_case (uri prefix : text) : bool :=
  match str_get uri 0 (len prefix) with Some p => eq_ignore_ascii_case p prefix | None => false end.
Definition is_file_uri (uri : text) : bool := starts_with_ignore_case uri (bytes_of "file://").
Definition is_special_scheme (uri : text) : bool :=
  match url_parse uri with
  | Some url => negb (bool_decide (scheme url = bytes_of "file"))
  | None => starts_with_ignore_case uri (bytes_of "untitled:") || starts_with_ignore_case uri (bytes_of "git:") || starts_with_ignore_case uri (bytes_of "vscode-notebook:") ||
    starts_with_ignore_case uri (bytes_of "vscode-notebook-cell:") || starts_with_ignore_case uri (bytes_of "vscode-vfs:")
  end.
End keys.

(** [uri.split_once(['?', '#'])], the part before *)
Definition before_query (uri : text) : text := hd [] (split_on (fun c => (c =? 63) || (c =? 35)) uri).
Definition uri_extension (uri : text) : option text :=
  path_part ← last (split_on (fun c => (c =? SLASH) || (c =? BACKSLASH)) (before_query uri));
  dot_pos ← rfind 46 path_part;
  if dot_pos =? 0 then None
  else
    let ext := zdrop (dot_pos + 1) path_part in
    if bool_decide (ext = []) then None else Some ext.

(** ** Splitting and joining *)

Definition free (p : Z -> bool) (w : text) : Prop := Forall (fun c => p c = false) w.
Lemma split_on_cons p s : exists w ws, split_on p s = w :: ws.
Proof. destruct s as [|c s]; simpl; [by eauto|]. destruct (p c); [by eauto|]. destruct (split_on p s); eauto. Qed.
Lemma split_on_free p w : free p w -> split_on p w = [w].
Proof. induction 1 as [|c w Hc _ IH]; [done|]. simpl. by rewrite Hc, IH. Qed.
Lemma split_on_app p w c s : free p w -> p c = true -> split_on p (w ++ c :: s) = w :: split_on p s.
Proof. intros Hw Hc. induction Hw as [|x w Hx _ IH]; simpl; [by rewrite Hc|]. by rewrite Hx, IH. Qed.
Lemma split_on_join p c ws : p c = true -> Forall (free p) ws -> ws <> [] -> split_on p (join [c] ws) = ws.
Proof.
  intros Hc. induction 1 as [|w ws Hw Hws IH]; [done|]. intros _. destruct ws as [|w' ws]; [by apply split_on_free|].
  change (join [c] (w :: w' :: ws)) with (w ++ c :: join [c] (w' :: ws)). by rewrite split_on_app, IH.
Qed.
Lemma split_on_two p d c w : p c = true -> exists v v' vs, split_on p (d ++ c :: w) = v :: v' :: vs.
Proof.
  intros Hc. induction d as [|x d (v & v' & vs & E)]; simpl.
  - rewrite Hc. destruct (split_on_cons p w) as (v & vs & ->). eauto.
  - rewrite E. destruct (p x); eauto.
Qed.
Lemma split_on_last p dir w : free p w -> dir = [] \/ (exists dir' c, dir = dir' ++ [c] /\ p c = true) -> last (split_on p (dir ++ w)) = Some w.
Proof.
  intros Hw [->|(dir' & c & -> & Hc)]; [by rewrite split_on_free|]. rewrite <- app_assoc. simpl. induction dir' as [|x dir' IH]; simpl in *.
  - by rewrite Hc, split_on_free.
  - destruct (split_on_two p dir' c w Hc) as (v & v' & vs & E). rewrite E in *. by destruct (p x).
Qed.
Lemma last_segment p s : exists dir w, s = dir ++ w /\ free p w /\ (dir = [] \/ exists dir' c, dir = dir' ++ [c] /\ p c = true).
Proof.
  induction s as [|c s (dir & w & -> & Hw & Hd)]; [exists [], []; repeat split; [constructor|by left]|].
  destruct Hd as [->|(dir' & x & -> & Hx)].
  - destruct (p c) eqn:Hc; [exists [c], w; repeat split; [done|right; by exists [], c]|exists [], (c :: w); repeat split; [by constructor|by left]].
  - exists (c :: dir' ++ [x]), w. repeat split; [done|]. right. by exists (c :: dir'), x.
Qed.
Lemma first_segment p s : exists w t, s = w ++ t /\ free p w /\ (t = [] \/ exists c t', t = c :: t' /\ p c = true).
Proof.
  induction s as [|c s (w & t & -> & Hw & Ht)]; [exists [], []; repeat split; [constructor|by left]|].
  destruct (p c) eqn:Hc; [exists [], (c :: w ++ t); repeat split; [constructor|right; by exists c, (w ++ t)]|].
  exists (c :: w), t. repeat split; [by constructor|done].
Qed.
Lemma hd_split p w t : free p w -> t = [] \/ (exists c t', t = c :: t' /\ p c = true) -> hd [] (split_on p (w ++ t)) = w.
Proof. intros Hw [->|(c & t' & -> & Hc)]; [by rewrite app_nil_r, split_on_free|by rewrite split_on_app]. Qed.
Lemma rfind_app b s1 s2 : b ∉ s2 -> rfind b (s1 ++ b :: s2) = Some (len s1).
Proof.
  intros Hb. induction s1 as [|c s1 IH]; simpl.
  - assert (rfind b s2 = None) as ->; [|by rewrite Z.eqb_refl]. induction s2 as [|c s2 IH]; [done|]. apply not_elem_of_cons in Hb as [Hc Hb]. simpl. rewrite IH by done. by rewrite (proj2 (Z.eqb_neq _ _)).
  - by rewrite IH, len_cons.
Qed.
Lemma rfind_Some b s i : rfind b s = Some i -> exists s1 s2, s = s1 ++ b :: s2 /\ b ∉ s2 /\ i = len s1.
Proof.
  revert i. induction s as [|c s IH]; intros i; simpl; [done|]. destruct (rfind b s) as [j|] eqn:E.
  - intros [= <-]. destruct (IH j) as (s1 & s2 & -> & Hb & ->); [done|]. exists (c :: s1), s2. by rewrite len_cons.
  - destruct (Z.eqb_spec c b) as [->|]; [|done]. intros [= <-]. exists [], s. split; [done|]. split; [|done].
    clear IH. intros Hb. apply list_elem_of_split in Hb as (l1 & l2 & ->). revert E. clear. induction l1 as [|x l1 IH]; simpl; [by destruct (rfind b l2); rewrite ?Z.eqb_refl|]. destruct (rfind b (l1 ++ b :: l2)); [done|by auto].
Qed.

Definition is_query (c : Z) : bool := (c =? 63) || (c =? 35).
Definition is_separator (c : Z) : bool := (c =? SLASH) || (c =? BACKSLASH).
(** The extension of a URI is exactly what follows the last dot of the last
    segment of its path, when that dot does not start the segment and
    something follows it. *)
Lemma uri_extension_exact uri ext : uri_extension uri = Some ext <->
  exists dir stem tail, uri = (dir ++ stem ++ 46 :: ext) ++ tail /\ stem <> [] /\ ext <> [] /\ 46 ∉ ext /\
    free is_query (dir ++ stem ++ 46 :: ext) /\ free is_separator (stem ++ 46 :: ext) /\
    (dir = [] \/ exists dir' c, dir = dir' ++ [c] /\ is_separator c = true) /\ (tail = [] \/ exists c t, tail = c :: t /\ is_query c = true).
Proof.
  unfold uri_extension, before_query. fold is_query is_separator. split.
  - destruct (first_segment is_query uri) as (w & tail & -> & Hw & Ht). rewrite (hd_split is_query) by done.
    destruct (last_segment is_separator w) as (dir & seg & -> & Hseg & Hd). rewrite split_on_last by done. simpl.
    destruct (rfind 46 seg) as [i|] eqn:E; simpl; [|done]. apply rfind_Some in E as (stem & e & -> & He & ->). destruct (Z.eqb_spec (len stem) 0) as [|Hs]; [done|].
    replace (stem ++ 46 :: e) with ((stem ++ [46]) ++ e) by (by rewrite <- app_assoc). replace (len stem + 1) with (len (stem ++ [46])) by (by rewrite len_app).
    rewrite zdrop_app_len. case_bool_decide as Ee; [done|]. intros [= <-]. exists dir, stem, tail. rewrite <- !app_assoc in *. repeat split; try done. by intros ->.
  - intros (dir & stem & tail & -> & Hs & He & Hdot & Hq & Hsep & Hd & Ht). rewrite (hd_split is_query) by done. rewrite split_on_last by done. simpl. rewrite rfind_app by done. simpl.
    destruct (Z.eqb_spec (len stem) 0) as [E|_]; [by apply len_zero_nil in E|].
    replace (stem ++ 46 :: ext) with ((stem ++ [46]) ++ ext) by (by rewrite <- app_assoc). replace (len stem + 1) with (len (stem ++ [46])) by (by rewrite len_app).
    rewrite zdrop_app_len. by rewrite bool_decide_eq_false_2.
Qed.

(** ** Percent encoding *)

Definition hex_digit (n : Z) : Z := if n <? 10 then 48 + n else 55 + n.
Definition encode_byte (set : Z -> bool) (b : Z) : text := if (128 <=? b) || set b then [37; hex_digit (b / 16); hex_digit (b `mod` 16)] else [b].
(** Documented behaviour of percent-encoding: the bytes of the set and those
    beyond ASCII become a percent sign and two upper-case digits. *)
Class PercentLaws `{!PercentEncode} : Prop := { percent_spec s set : utf8_percent_encode s set = concat (encode_byte set <$> s) }.

Definition unhex (c : Z) : Z := if c <? 58 then c - 48 else c - 55.
Fixpoint percent_decode (s : text) : text :=
  match s with
  | [] => []
  | c :: s' =>
    if c =? 37 then match s' with h :: l :: s'' => 16 * unhex h + unhex l :: percent_decode s'' | _ => c :: percent_decode s' end
    else c :: percent_decode s'
  end.
Definition bytes (s : text) : Prop := Forall (fun b => 0 <= b < 256) s.
Lemma nibbles b : 0 <= b < 256 -> 0 <= b / 16 < 16 /\ 0 <= b `mod` 16 < 16.
Proof. intros H. split; [split; [apply Z.div_pos; lia|apply Z.div_lt_upper_bound; lia]|apply Z.mod_pos_bound; lia]. Qed.
Lemma unhex_digit n : 0 <= n < 16 -> unhex (hex_digit n) = n.
Proof. intros H. unfold unhex, hex_digit. destruct (Z.ltb_spec n 10); bcase; lia. Qed.
Lemma hex_digit_free n : 0 <= n < 16 -> hex_digit n <> SLASH.
Proof. intros H. unfold hex_digit, SLASH. destruct (Z.ltb_spec n 10); lia. Qed.

Section laws.
Context `{!UrlOps, !PercentEncode} {Hlaws : PercentLaws}.
Notation enc := encode_uri_path_key_component.

Lemma enc_cons b s : enc (b :: s) = encode_byte URI_PATH_KEY_ENCODE_SET b ++ enc s.
Proof using Hlaws. unfold encode_uri_path_key_component. by rewrite !percent_spec. Qed.
Lemma enc_nil : enc [] = [].
Proof using Hlaws. unfold encode_uri_path_key_component. by rewrite percent_spec. Qed.
Lemma decode_enc s : bytes s -> percent_decode (enc s) = s.
Proof using Hlaws.
  induction 1 as [|b s Hb _ IH]; [by rewrite enc_nil|]. rewrite enc_cons. unfold encode_byte. destruct (_ || _) eqn:E; simpl.
  - rewrite !unhex_digit, IH by (apply nibbles; lia). f_equal. pose proof (Z.div_mod b 16). lia.
  - destruct (Z.eqb_spec b 37) as [->|]; [done|]. by rewrite IH.
Qed.
Lemma enc_free s : bytes s -> free is_slash s -> free is_slash (enc s).
Proof using Hlaws.
  intros Hb. induction Hb as [|b s Hb _ IH]; intros Hs; [by rewrite enc_nil; constructor|]. inversion Hs as [|? ? Hc Hs']; subst. rewrite enc_cons. apply Forall_app. split; [|by apply IH].
  unfold encode_byte. destruct (_ || _); [|by repeat constructor]. unfold is_slash.
  repeat constructor; apply Z.eqb_neq; try apply hex_digit_free; try done; apply nibbles; lia.
Qed.

(** ** Windows paths *)

Definition windows_key (drive : Z) (segments : list text) : text :=
  bytes_of "file:///" ++ [to_ascii_lowercase drive] ++ bytes_of ":/" ++ join [SLASH] (enc <$> segments).
Lemma windows_key_inj d d' ws ws' : Forall bytes ws -> Forall bytes ws' -> Forall (free is_slash) ws -> Forall (free is_slash) ws' -> ws <> [] -> ws' <> [] ->
  windows_key d ws = windows_key d' ws' -> to_ascii_lowercase d = to_ascii_lowercase d' /\ ws = ws'.
Proof using Hlaws.
  intros Hb Hb' Hf Hf' Hn Hn' E. unfold windows_key in E. apply app_inv_head in E. simpl in E. injection E as Ed E. split; [done|].
  assert (Hs : forall ws, Forall bytes ws -> Forall (free is_slash) ws -> ws <> [] -> split_on is_slash (join [SLASH] (enc <$> ws)) = enc <$> ws).
  { clear -Hlaws. intros ws Hb Hf Hn. apply split_on_join; [done| |by destruct ws]. apply Forall_fmap. apply Forall_forall. intros w Hw. rewrite Forall_forall in Hb, Hf. apply enc_free; auto. }
  apply (f_equal (split_on is_slash)) in E. rewrite !Hs in E by done. apply (f_equal (fmap percent_decode)) in E. rewrite <- !list_fmap_compose in E.
  assert (Hd : forall ws, Forall bytes ws -> percent_decode ∘ enc <$> ws = ws).
  { clear -Hlaws. induction 1 as [|w ws Hw _ IH]; [done|]. simpl. f_equal; [by apply decode_enc|exact IH]. }
  by rewrite !Hd in E by done.
Qed.
Lemma encode_segments_join ws : Forall (free is_slash) ws -> ws <> [] -> encode_segments (join [SLASH] ws) = join [SLASH] (enc <$> ws).
Proof using Type. intros Hf Hn. unfold encode_segments. by rewrite split_on_join. Qed.

(** A path with a drive: the letter, a colon or a bar, then the segments with
    slashes of either kind between them, and perhaps one in front. *)
Definition slash (c : Z) : Prop := c = SLASH \/ c = BACKSLASH.
Inductive windows_path (d : Z) (ws : list text) : text -> Prop :=
| wp_intro colon sep rest : is_ascii_alphabetic d = true -> colon = 58 \/ colon = 124 -> Forall (free is_slash) ws -> ws <> [] ->
    replace_char BACKSLASH SLASH rest = join [SLASH] ws ->
    (exists c, sep = [c] /\ slash c) \/ sep = [] /\ (exists c rest', rest = c :: rest' /\ ~ slash c) ->
    windows_path d ws (d :: colon :: sep ++ rest).
Lemma alphabetic_range d : is_ascii_alphabetic d = true -> 65 <= d <= 122 /\ d <> BACKSLASH.
Proof using Type. unfold is_ascii_alphabetic, BACKSLASH. intros [Hd|Hd]%orb_true_iff; apply andb_true_iff in Hd as [H1%Z.leb_le H2%Z.leb_le]; lia. Qed.
Lemma normalize_windows_path d ws p : windows_path d ws p -> normalize_windows_path_to_key p = Some (windows_key d ws).
Proof using Type.
  intros [colon sep rest Ha Hcolon Hf Hn Hr Hsep]. apply alphabetic_range in Ha as Hd. unfold SLASH, BACKSLASH in Hd.
  assert (Hdrop : drop_while is_slash (d :: colon :: sep ++ rest) = d :: colon :: sep ++ rest) by (simpl; unfold is_slash at 1, SLASH; by rewrite (proj2 (Z.eqb_neq d 47)) by lia).
  unfold normalize_windows_path_to_key. rewrite Hdrop. clear Hdrop.
  assert (Hlen : (len (d :: colon :: sep ++ rest) <? 3) = false).
  { apply Z.ltb_ge. rewrite !len_cons, len_app. destruct Hsep as [(c & -> & _)|(-> & c & rest' & -> & _)]; rewrite len_cons; [pose proof (len_nonneg rest)|pose proof (len_nonneg rest')]; rewrite len_nil; lia. }
  cbv zeta. rewrite Hlen, Ha. assert ((negb (colon =? 58) && negb (colon =? 124)) = false) as -> by (destruct Hcolon as [-> | ->]; done). cbn [negb orb].
  assert (Hrep : replace_char BACKSLASH SLASH (d :: colon :: sep ++ rest) = d :: colon :: replace_char BACKSLASH SLASH sep ++ join [SLASH] ws).
  { unfold replace_char in *. rewrite !fmap_cons, fmap_app, Hr. unfold BACKSLASH. rewrite (proj2 (Z.eqb_neq d 92)) by lia. by destruct Hcolon as [-> | ->]. }
  rewrite Hrep. clear Hrep Hlen.
  assert (Hcol : forall t, (if bool_decide (zget (d :: colon :: t) 1 = Some 124) then ztake 1 (d :: colon :: t) ++ [58] ++ zdrop 2 (d :: colon :: t) else d :: colon :: t) = d :: 58 :: t)
    by (intros t; destruct Hcolon as [-> | ->]; done).
  rewrite Hcol. clear Hcol.
  assert (Hsl : (if bool_decide (zget (d :: 58 :: replace_char BACKSLASH SLASH sep ++ join [SLASH] ws) 2 = Some SLASH) then d :: 58 :: replace_char BACKSLASH SLASH sep ++ join [SLASH] ws
      else ztake 2 (d :: 58 :: replace_char BACKSLASH SLASH sep ++ join [SLASH] ws) ++ [SLASH] ++ zdrop 2 (d :: 58 :: replace_char BACKSLASH SLASH sep ++ join [SLASH] ws)) = d :: 58 :: SLASH :: join [SLASH] ws).
  { destruct Hsep as [(c & -> & Hc)|(-> & c & rest' & -> & Hc)].
    - assert (replace_char BACKSLASH SLASH [c] = [SLASH]) as -> by (by destruct Hc as [-> | ->]). done.
    - simpl replace_char at 1. rewrite <- Hr. simpl. rewrite bool_decide_eq_false_2; [done|]. unfold slash, replace_char in *. cbn. intros [= E]. destruct (Z.eqb_spec c BACKSLASH); [by apply Hc; right|by apply Hc; left]. }
  rewrite Hsl. change (zdrop 3 (d :: 58 :: SLASH :: join [SLASH] ws)) with (join [SLASH] ws). change (ztake 1 (d :: 58 :: SLASH :: join [SLASH] ws)) with [d].
  clear Hsl. rewrite encode_segments_join by done. unfold windows_key. case_bool_decide as Ee; [|done]. by rewrite Ee.
Qed.

(** ** Spellings of a Windows path *)

Lemma strip_ascii_prefix_app pre x p : eq_ignore_ascii_case pre p = true -> x = [] \/ (exists c x', x = c :: x' /\ c < 128) -> strip_ascii_prefix (pre ++ x) p = Some x.
Proof using Type.
  intros He Hx. assert (Hl : len p = len pre).
  { apply bool_decide_eq_true in He. apply (f_equal len) in He. by rewrite !len_map in He. }
  assert (Hb : is_char_boundary (pre ++ x) (len pre) = true).
  { unfold is_char_boundary. destruct Hx as [->|(c & x' & -> & Hc)]; [rewrite app_nil_r, (Z.eqb_refl (len pre)); by rewrite orb_true_r|].
    rewrite zget_app_len. rewrite (proj2 (Z.ltb_lt c 128)) by done. by rewrite orb_true_r. }
  pose proof (len_nonneg pre). pose proof (len_nonneg x).
  unfold strip_ascii_prefix, str_get. rewrite Hl, Hb. rewrite (proj2 (Z.leb_le 0 _)) by done.
  assert (is_char_boundary (pre ++ x) 0 = true) as -> by done. simpl.
  assert (zslice (pre ++ x) 0 (len pre) = pre) as ->.
  { unfold zslice. rewrite zdrop_0 by done. rewrite Z.sub_0_r. apply ztake_app_len. }
  rewrite He, len_app. rewrite (proj2 (Z.leb_le _ _)) by lia.
  assert (is_char_boundary (pre ++ x) (len pre + len x) = true) as ->.
  { unfold is_char_boundary. rewrite len_app, Z.eqb_refl. by rewrite orb_true_r. }
  simpl. unfold zslice. rewrite zdrop_app_len. f_equal. apply ztake_all. lia.
Qed.
Lemma strip_ascii_prefix_inv v p x : strip_ascii_prefix v p = Some x -> exists pre, v = pre ++ x /\ eq_ignore_ascii_case pre p = true.
Proof using Type.
  unfold strip_ascii_prefix, str_get. destruct ((0 <=? len p) && _ && _); simpl; [|done]. destruct (eq_ignore_ascii_case _ p) eqn:E; [|done]. destruct (_ && _) eqn:Eb; [|done]. intros [= <-].
  apply andb_true_iff in Eb as [[Eb%Z.leb_le _]%andb_true_iff _].
  exists (ztake (len p) v). unfold zslice in *. rewrite zdrop_0, Z.sub_0_r in E by done. split; [|done].
  rewrite (ztake_all (zdrop (len p) v)); [by rewrite ztake_zdrop|]. unfold len, zdrop in *. rewrite length_drop. lia.
Qed.
(** A path that starts with a drive starts with no scheme and no authority. *)
Lemma no_prefix d colon t a b p : colon = 58 \/ colon = 124 -> to_ascii_lowercase b <> 58 -> to_ascii_lowercase b <> 124 -> strip_ascii_prefix (d :: colon :: t) (a :: b :: p) = None.
Proof using Type.
  intros Hc H1 H2. destruct (strip_ascii_prefix _ _) as [x|] eqn:E; [|done]. apply strip_ascii_prefix_inv in E as (pre & Ep & E). apply bool_decide_eq_true in E.
  destruct pre as [|p1 [|p2 pre]]; [done|done|]. injection Ep as <- <- _. simpl in E. injection E as _ E _. by destruct Hc as [-> | ->].
Qed.

(** A file is spelled with or without its scheme, with or without a local
    authority, in any case, between blanks. *)
Definition scheme_of (s : text) : Prop := s = [] \/ eq_ignore_ascii_case s (bytes_of "file://") = true.
Definition authority_of (s : text) : Prop := s = [] \/ exists h c, s = h ++ [c] /\ eq_ignore_ascii_case h (bytes_of "localhost") = true /\ slash c.
Definition windows_spelling (d : Z) (ws : list text) (uri : text) : Prop :=
  valid_utf8 uri /\ exists sch host p, trim uri = sch ++ host ++ p /\ scheme_of sch /\ authority_of host /\ windows_path d ws p.

Lemma drop_while_sub {A} (f : A -> bool) l (P : A -> Prop) : Forall P l -> Forall P (drop_while f l).
Proof using Type. induction 1 as [|x l Hx Hl IH]; simpl; [constructor|]. destruct (f x); [done|by constructor]. Qed.
Lemma drop_while_head {A} (f : A -> bool) l : drop_while f l = [] \/ exists x l', drop_while f l = x :: l' /\ f x = false.
Proof using Type. induction l as [|x l IH]; simpl; [by left|]. destruct (f x) eqn:E; [done|right; eauto]. Qed.
Lemma drop_while_done {A} (f : A -> bool) l : drop_while f (drop_while f l) = drop_while f l.
Proof using Type. destruct (drop_while_head f l) as [->|(x & l' & -> & Hx)]; [done|]. simpl. by rewrite Hx. Qed.
Lemma drop_while_end_head {A} (f : A -> bool) x l : f x = false -> exists l', drop_while_end f (x :: l) = x :: l'.
Proof using Type.
  intros Hx. unfold drop_while_end. rewrite reverse_cons. generalize (reverse l). intros k. induction k as [|y k IH]; simpl; [rewrite Hx; by exists []|].
  destruct (f y); [done|]. rewrite reverse_cons, reverse_app. simpl. eauto.
Qed.
Lemma trim_trim s : valid_utf8 s -> valid_utf8 (trim s) /\ trim (trim s) = trim s.
Proof using Type.
  intros (cs & Hs & ->). unfold trim. rewrite (chars_encode cs) by done. set (l := drop_while_end is_whitespace (drop_while is_whitespace cs)).
  assert (Hl : scalars l).
  { unfold l, drop_while_end. apply Forall_reverse, drop_while_sub, Forall_reverse, drop_while_sub, Hs. }
  split; [by exists l|]. rewrite chars_encode by done. f_equal.
  assert (drop_while is_whitespace l = l) as ->.
  { unfold l. destruct (drop_while_head is_whitespace cs) as [->|(x & l' & -> & Hx)]; [done|]. destruct (drop_while_end_head is_whitespace x l' Hx) as [k ->]. simpl. by rewrite Hx. }
  unfold l, drop_while_end. by rewrite reverse_involutive, drop_while_done.
Qed.

Lemma authority_head h : eq_ignore_ascii_case h (bytes_of "localhost") = true -> exists c t, h = c :: t /\ (c = 76 \/ c = 108).
Proof using Type.
  intros E%bool_decide_eq_true. destruct h as [|c t]; [done|]. simpl in E. injection E as E _. exists c, t. split; [done|]. unfold to_ascii_lowercase in E.
  destruct (Z.leb_spec 65 c), (Z.leb_spec c 90); simpl in E; lia.
Qed.
Lemma windows_path_head d ws p : windows_path d ws p -> exists colon t, p = d :: colon :: t /\ (colon = 58 \/ colon = 124) /\ 65 <= d <= 122.
Proof using Type. intros [colon sep rest Ha Hcolon _ _ _ _]. apply alphabetic_range in Ha as [? _]. eauto. Qed.
(** What is left of the URI once its scheme is gone starts with an ASCII
    letter, and the local authority is dropped from it. *)
Lemma authority_path d ws host p : authority_of host -> windows_path d ws p ->
  (exists c t, host ++ p = c :: t /\ c < 128 /\ c <> SLASH) /\ strip_ascii_prefix (host ++ p) (bytes_of "file://") = None /\
  default (host ++ p) (strip_localhost_authority (host ++ p)) = p.
Proof using Type.
  intros Hh Hp. destruct (windows_path_head _ _ _ Hp) as (colon & t & -> & Hc & Hd). unfold SLASH. destruct Hh as [->|(h & c & -> & Hl & Hs)].
  - simpl. split; [exists d, (colon :: t); split; [done|lia]|]. unfold strip_localhost_authority. split; [|change (bytes_of "localhost") with (108 :: 111 :: bytes_of "calhost")].
    + by apply (no_prefix d colon t 102 105).
    + by rewrite no_prefix.
  - split; [destruct (authority_head h Hl) as (x & k & -> & Hx); exists x, ((k ++ [c]) ++ d :: colon :: t); split; [done|lia]|]. rewrite <- app_assoc. simpl. split.
    + destruct (strip_ascii_prefix _ _) as [x|] eqn:E; [|done]. apply strip_ascii_prefix_inv in E as (pre & Ep & E%bool_decide_eq_true). destruct (authority_head h Hl) as (y & k & -> & Hy).
      destruct pre as [|p1 pre]; [done|]. injection Ep as <- _. simpl in E. by destruct Hy as [-> | ->].
    + unfold strip_localhost_authority. rewrite (strip_ascii_prefix_app h (c :: d :: colon :: t)); [|done|right; exists c, (d :: colon :: t); split; [done|by destruct Hs as [-> | ->]]]. by destruct Hs as [-> | ->].
Qed.
Lemma legacy_key d ws uri : windows_spelling d ws uri -> normalize_legacy_windows_uri (trim uri) = Some (windows_key d ws).
Proof using Type.
  intros (Hv & sch & host & p & Et & Hs & Hh & Hp). destruct (trim_trim uri Hv) as [_ Htt]. unfold normalize_legacy_windows_uri. rewrite Htt, Et.
  destruct (authority_path d ws host p Hh Hp) as ((c & t & Ehp & Hc & Hns) & Hnone & Hdef). rewrite bool_decide_eq_false_2 by (rewrite Ehp; by destruct sch).
  destruct Hs as [->|Hs].
  - simpl. rewrite Hnone, Hdef. by rewrite (normalize_windows_path d ws p).
  - rewrite (strip_ascii_prefix_app sch (host ++ p)); [|done|right; eauto]. rewrite bool_decide_eq_false_2 by (rewrite Ehp; simpl; congruence). rewrite Hdef. by rewrite (normalize_windows_path d ws p).
Qed.
Lemma spelling_bytes d ws uri : windows_spelling d ws uri -> Forall bytes ws /\ Forall (free is_slash) ws /\ ws <> [].
Proof using Type.
  intros (Hv & sch & host & p & Et & _ & _ & Hp). destruct (trim_trim uri Hv) as [(cs & Hcs & Ecs) _]. pose proof (encode_bytes cs Hcs) as Hb. rewrite <- Ecs, Et in Hb.
  apply Forall_app in Hb as [_ Hb]. apply Forall_app in Hb as [_ Hb]. clear Et Ecs. revert Hb. destruct Hp as [colon sep rest _ _ Hf Hn Hr _]. intros Hb. split; [|done].
  apply Forall_cons in Hb as [_ Hb]. apply Forall_cons in Hb as [_ Hb]. apply Forall_app in Hb as [_ Hb].
  assert (Hj : bytes (join [SLASH] ws)).
  { rewrite <- Hr. unfold replace_char. apply Forall_fmap. eapply Forall_impl; [exact Hb|]. intros c Hc. simpl. destruct (c =? BACKSLASH); [done|exact Hc]. }
  clear -Hj. induction ws as [|w [|w' ws] IH]; [constructor|by repeat constructor|]. change (bytes (w ++ SLASH :: join [SLASH] (w' :: ws))) in Hj.
  apply Forall_app in Hj as [Hw Hj]. apply Forall_cons in Hj as [_ Hj]. constructor; [done|by apply IH].
Qed.

(** C36. The key of a Windows path identifies the file: all its spellings (with or
    without the file scheme and the local authority in any case, slashes of
    either kind, a colon or a bar behind the drive letter of either case, with
    or without a slash after it, and blanks around) have the same key, and the
    spellings of two different paths have different keys. *)
Theorem windows_keys_identify_paths d d' ws ws' uri uri' : windows_spelling d ws uri -> windows_spelling d' ws' uri' ->
  uri_key uri = windows_key d ws /\ (uri_key uri = uri_key uri' <-> to_ascii_lowercase d = to_ascii_lowercase d' /\ ws = ws').
Proof using Hlaws.
  intros Hu Hu'. assert (Hk : forall d ws uri, windows_spelling d ws uri -> uri_key uri = windows_key d ws) by (intros e vs u Hs; unfold uri_key; by rewrite (legacy_key e vs u)).
  split; [by apply Hk|]. rewrite (Hk d ws), (Hk d' ws') by done. destruct (spelling_bytes _ _ _ Hu) as (H1 & H2 & H3), (spelling_bytes _ _ _ Hu') as (H1' & H2' & H3'). split.
  - by apply windows_key_inj.
  - intros [E ->]. unfold windows_key. by rewrite E.
Qed.
End laws.

(** ** Concrete crates *)

#[export] Instance no_urls : UrlOps := {|
  Url := Empty_set;
  url_parse _ := None;
  as_str u := match u with end;
  scheme u := match u with end;
  host_str u := match u with end;
  path u := match u with end;
  query u := match u with end;
  fragment u := match u with end;
|}.
#[export] Instance plain_percent : PercentEncode := {| utf8_percent_encode s set := concat (encode_byte set <$> s) |}.
#[export] Instance plain_percent_laws : PercentLaws.
Proof. by constructor. Qed.

Example key_backslashes : uri_key (bytes_of "C:\Users\dev\path with spaces\name#frag?.pl") = bytes_of "file:///c:/Users/dev/path%20with%20spaces/name%23frag%3F.pl".
Proof. by vm_compute. Qed.
Example key_unc : uri_key (bytes_of "file://\\server\shared docs\folder#1\file?.pl") = bytes_of "file://server/shared%20docs/folder%231/file%3F.pl".
Proof. by vm_compute. Qed.
Lemma windows_keys_identify_paths_witness :
  uri_key (bytes_of "C:\my dir\a.pl") = windows_key 67 [bytes_of "my dir"; bytes_of "a.pl"] /\
  (uri_key (bytes_of "C:\my dir\a.pl") = uri_key (bytes_of " FILE://LocalHost\c|/my dir/a.pl ") <-> to_ascii_lowercase 67 = to_ascii_lowercase 99 /\ [bytes_of "my dir"; bytes_of "a.pl"] = [bytes_of "my dir"; bytes_of "a.pl"]).
Proof.
  apply (windows_keys_identify_paths 67 99 [bytes_of "my dir"; bytes_of "a.pl"] [bytes_of "my dir"; bytes_of "a.pl"]).
  - split; [exists (bytes_of "C:\my dir\a.pl"); split; [by repeat constructor|by vm_compute]|]. exists [], [], (bytes_of "C:\my dir\a.pl"). split; [by vm_compute|]. split; [by left|]. split; [by left|].
    apply (wp_intro 67 _ 58 [92] (bytes_of "my dir\a.pl")); [done|by left|by repeat constructor|done|by vm_compute|left; exists 92; split; [done|by right]].
  - split; [exists (bytes_of " FILE://LocalHost\c|/my dir/a.pl "); split; [by repeat constructor|by vm_compute]|].
    exists (bytes_of "FILE://"), (bytes_of "LocalHost\"), (bytes_of "c|/my dir/a.pl"). split; [by vm_compute|]. split; [by right; vm_compute|]. split; [right; exists (bytes_of "LocalHost"), 92; split; [done|]; split; [by vm_compute|by right]|].
    apply (wp_intro 99 _ 124 [47] (bytes_of "my dir/a.pl")); [done|by right|by repeat constructor|done|by vm_compute|left; exists 47; split; [done|by left]].
Defined.
(** The key is not a fixed point of the normalisation of paths: the segments of
    a Windows spelling are kept as they are, a dot segment included. *)
Example key_keeps_dot_segments : uri_key (bytes_of "C:\a\..\b.pl") = bytes_of "file:///c:/a/../b.pl".
Proof. by vm_compute. Qed.
Example extension_of_query : uri_extension (bytes_of "file:///a.b/c.pl?x=1.y") = Some (bytes_of "pl").
Proof. by vm_compute. Qed.
