(* ===== verification/Spans.v ===== *)
(** * Byte spans and engine positions
      (perl-position-tracking/src/span.rs and position.rs)

    [ByteSpan] is a half-open byte interval; [Position] and [Range] track a
    byte offset with a 1-based line and column.  Proved: the span operations
    are the operations on sets of bytes, and advancing a position over a text
    computes the line, the column and the byte offset of the text's end. *)

From stdpp Require Import base numbers sets list.
From S2P Require Import Prelude Utf8.

(** ** Byte spans *)

Module ByteSpan.

Record t := mk { start : Z; end_ : Z }.
#[export] Instance t_eq_dec : EqDecision t.
Proof. solve_decision. Defined.

(** [debug_assert!(start <= end)] *)
Definition new (s e : Z) : outcome t := if s <=? e then Ret (mk s e) else Panic.
Definition empty (pos : Z) : t := mk pos pos.
Definition whole (source : list Z) : t := mk 0 (len source).
Definition length (self : t) : outcome Z := usize_sub (end_ self) (start self).
Definition is_empty (self : t) : bool := start self =? end_ self.
Definition contains (self : t) (offset : Z) : bool :=
  (start self <=? offset) && (offset <? end_ self).
Definition contains_span (self other : t) : bool :=
  (start self <=? start other) && (end_ other <=? end_ self).
Definition overlaps (self other : t) : bool :=
  (start self <? end_ other) && (start other <? end_ self).
Definition intersection (self other : t) : option t :=
  let s := Z.max (start self) (start other) in
  let e := Z.min (end_ self) (end_ other) in
  if s <? e then Some (mk s e) else None.
Definition union (self other : t) : t :=
  mk (Z.min (start self) (start other)) (Z.max (end_ self) (end_ other)).
Definition slice (self : t) (source : list Z) : outcome (list Z) :=
  str_index source (start self) (end_ self).
Definition try_slice (self : t) (source : list Z) : option (list Z) :=
  str_get source (start self) (end_ self).

End ByteSpan.

(** ** Positions *)

Module Position.

Record t := mk { byte : Z; line : Z; column : Z }.
#[export] Instance t_eq_dec : EqDecision t.
Proof. solve_decision. Defined.

Definition start : t := mk 0 1 1.

Definition advance_char (self : t) (ch : Z) : outcome t :=
  lc ← (if ch =? LF then l ← u32_add (line self) 1; mret (l, 1)
        else c ← u32_add (column self) 1; mret (line self, c));
  b ← usize_add (byte self) (len_utf8 ch);
  mret (mk b (fst lc) (snd lc)).

(** The loop of [advance]; its body is [advance_char]'s. *)
Fixpoint advance_chars (self : t) (cs : list Z) : outcome t :=
  match cs with
  | [] => mret self
  | ch :: cs => p ← advance_char self ch; advance_chars p cs
  end.
Definition advance (self : t) (text : list Z) : outcome t := advance_chars self (chars text).

End Position.

(** ** Ranges *)

Module Range.

Record t := mk { start : Position.t; end_ : Position.t }.

Definition empty (pos : Position.t) : t := mk pos pos.
Definition contains_byte (self : t) (byte : Z) : bool :=
  (Position.byte (start self) <=? byte) && (byte <? Position.byte (end_ self)).
Definition contains (self : t) (pos : Position.t) : bool :=
  (Position.byte (start self) <=? Position.byte pos) &&
  (Position.byte pos <? Position.byte (end_ self)).
Definition overlaps (self other : t) : bool :=
  (Position.byte (start self) <? Position.byte (end_ other)) &&
  (Position.byte (start other) <? Position.byte (end_ self)).
Definition length (self : t) : Z :=
  saturating_sub (Position.byte (end_ self)) (Position.byte (start self)).
Definition is_empty (self : t) : bool :=
  Position.byte (end_ self) <=? Position.byte (start self).
Definition extend (self other : t) : t :=
  let self := if Position.byte (start other) <? Position.byte (start self)
              then mk (start other) (end_ self) else self in
  if Position.byte (end_ self) <? Position.byte (end_ other)
  then mk (start self) (end_ other) else self.
Definition span_to (self other : t) : t :=
  mk (if Position.byte (start self) <? Position.byte (start other) then start self else start other)
     (if Position.byte (end_ other) <? Position.byte (end_ self) then end_ self else end_ other).

(** [Range::from(loc: SourceLocation)] *)
Definition from_span (loc : ByteSpan.t) : t :=
  mk (Position.mk (ByteSpan.start loc) 0 0) (Position.mk (ByteSpan.end_ loc) 0 0).

End Range.

(** ** The position of the end of a text *)

(** The number of lines ended in a text, and the characters after the last
    line end. *)
Fixpoint newlines (cs : list Z) : Z :=
  match cs with [] => 0 | c :: cs => (if c =? LF then 1 else 0) + newlines cs end.
Fixpoint tail_chars (cs : list Z) : Z :=
  match cs with
  | [] => 0
  | c :: cs => if (newlines cs =? 0) && negb (c =? LF) then 1 + tail_chars cs else tail_chars cs
  end.

(** Where a position ends up after a text. *)
Definition advanced (p : Position.t) (cs : list Z) : Position.t :=
  Position.mk (Position.byte p + blen cs) (Position.line p + newlines cs)
    (if newlines cs =? 0 then Position.column p + len cs else 1 + tail_chars cs).

Lemma newlines_nonneg cs : 0 <= newlines cs.
Proof. induction cs as [|c cs IH]; simpl; [done|]. destruct (c =? LF); lia. Qed.

Lemma newlines_app cs1 cs2 : newlines (cs1 ++ cs2) = newlines cs1 + newlines cs2.
Proof. induction cs1 as [|c cs1 IH]; simpl; [done|]. lia. Qed.

Lemma newlines_le_len cs : newlines cs <= len cs.
Proof.
  induction cs as [|c cs IH]; [done|]. rewrite len_cons. simpl. destruct (c =? LF); lia.
Qed.

Lemma tail_chars_bounds cs : 0 <= tail_chars cs <= len cs.
Proof.
  induction cs as [|c cs IH]; [done|]. rewrite len_cons. simpl.
  destruct (_ && _); lia.
Qed.

Lemma tail_chars_none cs : newlines cs = 0 -> tail_chars cs = len cs.
Proof.
  induction cs as [|c cs IH]; [done|]. rewrite len_cons. simpl.
  pose proof (newlines_nonneg cs). destruct (Z.eqb_spec c LF); intros E; [lia|].
  rewrite (proj2 (Z.eqb_eq (newlines cs) 0)) by lia. simpl. rewrite IH by lia. done.
Qed.

Lemma tail_chars_app cs1 cs2 :
  tail_chars (cs1 ++ cs2) =
    if newlines cs2 =? 0 then tail_chars cs1 + len cs2 else tail_chars cs2.
Proof.
  destruct (Z.eqb_spec (newlines cs2) 0) as [E|Hne].
  - induction cs1 as [|c cs1 IH]; simpl; [by apply tail_chars_none|].
    rewrite newlines_app, E, Z.add_0_r. destruct (_ && _); lia.
  - induction cs1 as [|c cs1 IH]; simpl; [done|]. rewrite newlines_app.
    pose proof (newlines_nonneg cs1). pose proof (newlines_nonneg cs2).
    rewrite (proj2 (Z.eqb_neq (newlines cs1 + newlines cs2) 0)) by lia. done.
Qed.

Lemma advanced_nil p : advanced p [] = p.
Proof. destruct p. unfold advanced. simpl. f_equal; change (len (@nil Z)) with 0; lia. Qed.

(** Advancing over a concatenation advances twice. *)
Lemma advanced_app p cs1 cs2 : advanced p (cs1 ++ cs2) = advanced (advanced p cs1) cs2.
Proof.
  unfold advanced. cbn [Position.byte Position.line Position.column].
  rewrite blen_app, newlines_app, tail_chars_app, len_app.
  pose proof (newlines_nonneg cs1). pose proof (newlines_nonneg cs2).
  f_equal; [lia|lia|]. bcase.
Qed.


(** [advance] computes [advanced] while the counters stay in range. *)
Lemma advance_chars_advanced p cs :
  0 <= Position.byte p -> 0 <= Position.line p -> 0 <= Position.column p ->
  Position.byte p + blen cs <= usize_max -> Position.line p + newlines cs <= u32_max ->
  Position.column p + len cs <= u32_max -> 1 + len cs <= u32_max ->
  Position.advance_chars p cs = Ret (advanced p cs).
Proof.
  revert p. induction cs as [|c cs IH]; intros p Hb0 Hl0 Hc0 Hb Hl Hc H1.
  - by rewrite advanced_nil.
  - rewrite len_cons in *. simpl in Hb, Hl. pose proof (len_utf8_pos c).
    pose proof (newlines_nonneg cs). pose proof (blen_nonneg cs). pose proof (len_nonneg cs).
    cbn [Position.advance_chars].
    assert (Position.advance_char p c = Ret (advanced p [c])) as ->.
    { unfold Position.advance_char, u32_add, usize_add, advanced.
      destruct p as [pb pl pc]. cbn [Position.byte Position.line Position.column newlines tail_chars] in *.
      change (len [c]) with 1. simpl (blen [c]). rewrite !Z.add_0_r.
      destruct (Z.eqb_spec c LF); rewrite !arith_Ret by lia; simpl; rewrite ?arith_Ret by lia; unfold mret, outcome_ret; by rewrite ?Z.add_0_r. }
    cbn [mbind outcome_bind]. change (c :: cs) with ([c] ++ cs). rewrite advanced_app.
    apply IH; unfold advanced; change (len [c]) with 1; simpl; rewrite ?Z.add_0_r; bcase;
      destruct (c =? LF); simpl in *; try lia.
Qed.

(** ** Theorems *)

(** The span operations are the set operations on the bytes they contain:
    the intersection contains exactly the common bytes and is empty exactly
    when there are none, the union is the least span covering both, and
    containment of a nonempty span is inclusion of its bytes. *)
Theorem span_operations_are_sets a b o :
  (match ByteSpan.intersection a b with
   | Some i => ByteSpan.contains i o = ByteSpan.contains a o && ByteSpan.contains b o /\
       ByteSpan.start i < ByteSpan.end_ i
   | None => ByteSpan.contains a o && ByteSpan.contains b o = false
   end) /\
  ByteSpan.contains_span (ByteSpan.union a b) a = true /\
  ByteSpan.contains_span (ByteSpan.union a b) b = true /\
  (forall c, ByteSpan.contains_span c a = true -> ByteSpan.contains_span c b = true ->
     ByteSpan.contains_span c (ByteSpan.union a b) = true) /\
  (ByteSpan.start a < ByteSpan.end_ a -> ByteSpan.start b < ByteSpan.end_ b ->
     ByteSpan.overlaps a b = bool_decide (is_Some (ByteSpan.intersection a b))).
Proof.
  unfold ByteSpan.intersection, ByteSpan.contains, ByteSpan.contains_span, ByteSpan.union,
    ByteSpan.overlaps.
  destruct a as [a1 a2], b as [b1 b2]. cbn [ByteSpan.start ByteSpan.end_]. split; [|split; [|split; [|split]]].
  - destruct (Z.ltb_spec (Z.max a1 b1) (Z.min a2 b2)) as [Hlt|Hge].
    + cbn [ByteSpan.start ByteSpan.end_]. split; [|done]. bcase; done.
    + bcase; done.
  - bcase; done.
  - bcase; done.
  - intros [c1 c2]. cbn [ByteSpan.start ByteSpan.end_]. rewrite !andb_true_iff, !Z.leb_le. lia.
  - intros Ha Hb. destruct (Z.ltb_spec (Z.max a1 b1) (Z.min a2 b2)); simpl; bcase; done.
Qed.

Example span_operations_are_sets_witness :
  ByteSpan.contains_span (ByteSpan.mk 0 9) (ByteSpan.union (ByteSpan.mk 1 4) (ByteSpan.mk 3 8)) = true /\
  ByteSpan.overlaps (ByteSpan.mk 1 4) (ByteSpan.mk 3 8) =
    bool_decide (is_Some (ByteSpan.intersection (ByteSpan.mk 1 4) (ByteSpan.mk 3 8))).
Proof.
  destruct (span_operations_are_sets (ByteSpan.mk 1 4) (ByteSpan.mk 3 8) 3) as (_ & _ & _ & H1 & H2).
  split; [apply (H1 (ByteSpan.mk 0 9)); reflexivity|apply H2; reflexivity].
Defined.

(** Advancing the start position over a text gives the byte length, one
    more than its line feeds, and one more than the characters after the last
    line feed; no counter overflows on a text that fits in a [u32]. *)
Theorem advance_over_text cs :
  scalars cs -> blen cs < u32_max ->
  Position.advance Position.start (encode cs) = Ret (Position.mk (blen cs) (1 + newlines cs) (1 + tail_chars cs)).
Proof.
  intros Hs Hb. unfold Position.advance. rewrite chars_encode by done.
  pose proof (len_le_blen cs). pose proof (newlines_le_len cs). unfold u32_max, usize_max in *.
  rewrite advance_chars_advanced by (simpl; unfold u32_max, usize_max; lia).
  unfold advanced. simpl. f_equal. f_equal.
  destruct (Z.eqb_spec (newlines cs) 0) as [E|]; [|done]. by rewrite tail_chars_none.
Qed.

Example advance_over_text_witness :
  Position.advance Position.start [104; 10; 228; 184; 150; 101] = Ret (Position.mk 6 2 3).
Proof. by apply (advance_over_text [104; 10; 19990; 101]); [repeat constructor|]. Defined.
