(* ===== verification/SourceRows.v ===== *)
(** * What a source position means

    The abstract specification the position components are proved against:
    a text is a sequence of characters cut into rows at LF; a row's content
    excludes its LF or CRLF separator; a position is a row number and a
    UTF-16 column in the row's content.  [locate] is the position of a byte
    offset, [place] the byte offset of a position; both clamp to the previous
    character boundary and to the end of the row's content.  The detailed
    definitions of Convert, LineIndex and ByteLineIndex refine these. *)

From stdpp Require Import base numbers sets list.
From S2P Require Import Prelude Utf8.

(** ** The longest prefix that fits *)

Fixpoint floor_by (w : Z -> Z) (cs : list Z) (k : Z) : list Z :=
  match cs with
  | [] => []
  | c :: cs => if w c <=? k then c :: floor_by w cs (k - w c) else []
  end.

Section floor_by.
Context (w : Z -> Z) `{!Width w}.

Lemma floor_by_split cs k : exists m, cs = floor_by w cs k ++ m.
Proof using Type.
  revert k. induction cs as [|c cs IH]; intros k; simpl; [by exists []|].
  destruct (w c <=? k); [|by exists (c :: cs)].
  destruct (IH (k - w c)) as [m E]. exists m. simpl. by rewrite <- E.
Qed.

Lemma floor_by_le cs k : 0 <= k -> wlen w (floor_by w cs k) <= k.
Proof using Type.
  revert k. induction cs as [|c cs IH]; intros k Hk; simpl; [done|].
  destruct (Z.leb_spec (w c) k); simpl; [|done].
  specialize (IH (k - w c)). lia.
Qed.

Lemma floor_by_neg cs k : k < 1 -> floor_by w cs k = [].
Proof using All.
  destruct cs as [|c cs]; [done|]. simpl. pose proof (width_pos (w := w) c). intros. by bcase.
Qed.

(** The prefix is determined by where it stops. *)
Lemma floor_by_stop c1 c c2 k :
  0 <= k < w c -> floor_by w (c1 ++ c :: c2) (wlen w c1 + k) = c1.
Proof using All.
  intros Hk. induction c1 as [|x c1 IH]; simpl; [by bcase|].
  pose proof (wlen_nonneg w c1). bcase. f_equal.
  by replace (w x + wlen w c1 + k - w x) with (wlen w c1 + k) by lia.
Qed.

Lemma floor_by_all cs k : wlen w cs <= k -> floor_by w cs k = cs.
Proof using All.
  revert k. induction cs as [|c cs IH]; intros k Hk; simpl in *; [done|].
  pose proof (wlen_nonneg w cs). bcase. f_equal. apply IH. lia.
Qed.

Lemma floor_by_prefix c1 c2 : floor_by w (c1 ++ c2) (wlen w c1) = c1.
Proof using All.
  destruct c2 as [|c c2]; [rewrite app_nil_r; by apply floor_by_all|].
  rewrite <- (Z.add_0_r (wlen w c1)). apply floor_by_stop.
  pose proof (width_pos (w := w) c). lia.
Qed.

(** Either everything fits, or the first character that does not is known. *)
Lemma floor_by_cases cs k :
  0 <= k ->
  (floor_by w cs k = cs /\ wlen w cs <= k) \/
  (exists c m, cs = floor_by w cs k ++ c :: m /\
    wlen w (floor_by w cs k) <= k < wlen w (floor_by w cs k) + w c).
Proof using All.
  revert k. induction cs as [|c cs IH]; intros k Hk; simpl; [by left|].
  destruct (Z.leb_spec (w c) k); simpl.
  - destruct (IH (k - w c)) as [[E ?]|(d & m & E & ?)]; [lia| |].
    + left. rewrite E. split; [done|lia].
    + right. exists d, m. split; [by f_equal|lia].
  - right. exists c, cs. split; [done|]. lia.
Qed.

(** Flooring [c1 ++ c2] past the whole of [c1] continues in [c2]. *)
Lemma floor_by_app c1 c2 k :
  wlen w c1 <= k -> floor_by w (c1 ++ c2) k = c1 ++ floor_by w c2 (k - wlen w c1).
Proof using All.
  revert k. induction c1 as [|c c1 IH]; intros k Hk; simpl in *; [by rewrite Z.sub_0_r|].
  pose proof (wlen_nonneg w c1). bcase. f_equal. rewrite IH by lia. do 2 f_equal. lia.
Qed.

(** Flooring inside [c1] does not see [c2]. *)
Lemma floor_by_app_l c1 c2 k :
  k < wlen w c1 -> floor_by w (c1 ++ c2) k = floor_by w c1 k.
Proof using All.
  revert k. induction c1 as [|c c1 IH]; intros k Hk; simpl in *.
  - apply floor_by_neg. lia.
  - destruct (w c <=? k); [|done]. f_equal. apply IH. lia.
Qed.

Lemma floor_by_mono cs j k : j <= k -> exists m, floor_by w cs k = floor_by w cs j ++ m.
Proof using Type.
  revert j k. induction cs as [|c cs IH]; intros j k Hjk; simpl; [by exists []|].
  destruct (Z.leb_spec (w c) j).
  - destruct (Z.leb_spec (w c) k); [|lia].
    destruct (IH (j - w c) (k - w c)) as [m ->]; [lia|]. by exists m.
  - by eexists.
Qed.
End floor_by.

(** ** Rows *)

(** A text has one row more than it has LFs; every row but the last ends with
    its LF. *)
Fixpoint rows (cs : list Z) : list (list Z) :=
  match cs with
  | [] => [[]]
  | c :: cs =>
    if c =? LF then [LF] :: rows cs
    else match rows cs with [] => [[c]] | r :: rs => (c :: r) :: rs end
  end.

(** The content of a row: without its LF, or its CRLF pair. *)
Definition content (r : list Z) : list Z :=
  match strip_suffix r LF with
  | Some w => default w (strip_suffix w CR)
  | None => r
  end.

(** ** Positions *)

Fixpoint locate (rs : list (list Z)) (o : Z) : Z * Z :=
  match rs with
  | [] => (0, 0)
  | r :: rs' =>
    if bool_decide (rs' = []) || (o <? blen r)
    then (0, u16len (floor_by len_utf8 (content r) o))
    else let '(l, c) := locate rs' (o - blen r) in (1 + l, c)
  end.

Fixpoint place (rs : list (list Z)) (line col : Z) : Z :=
  match rs with
  | [] => 0
  | r :: rs =>
    if line =? 0 then blen (floor_by len_utf16 (content r) col)
    else blen r + place rs (line - 1) col
  end.

(** The byte offset an offset is clamped to. *)
Fixpoint snap (rs : list (list Z)) (o : Z) : Z :=
  match rs with
  | [] => 0
  | r :: rs' =>
    if bool_decide (rs' = []) || (o <? blen r)
    then blen (floor_by len_utf8 (content r) o)
    else blen r + snap rs' (o - blen r)
  end.

Definition position_of (cs : list Z) (o : Z) : Z * Z := locate (rows cs) o.
Definition offset_of (cs : list Z) (line col : Z) : Z := place (rows cs) line col.

(** ** Facts about rows *)

Lemma rows_cons cs : exists r rs, rows cs = r :: rs.
Proof.
  destruct cs as [|c cs]; simpl; [by eauto|].
  destruct (c =? LF); [by eauto|]. destruct (rows cs); eauto.
Qed.

Lemma concat_rows cs : concat (rows cs) = cs.
Proof.
  induction cs as [|c cs IH]; [done|]. simpl.
  destruct (Z.eqb_spec c LF) as [->|]; simpl; [by f_equal|].
  revert IH. destruct (rows cs); simpl; by intros <-.
Qed.

(** The shape of the rows: terminated rows, then one row without LF. *)
Definition terminated (r : list Z) : Prop := exists w, r = w ++ [LF] /\ LF ∉ w.
Inductive row_list : list (list Z) -> Prop :=
| row_last r : LF ∉ r -> row_list [r]
| row_cons r rs : terminated r -> row_list rs -> row_list (r :: rs).

Lemma rows_row_list cs : row_list (rows cs).
Proof.
  induction cs as [|c cs IH]; simpl; [constructor; set_solver|].
  destruct (Z.eqb_spec c LF) as [->|Hc].
  - constructor; [|done]. exists []. split; [done|set_solver].
  - inversion IH as [r Hr E|r rs (w & -> & Hw) Hrs E].
    + constructor. set_solver.
    + constructor; [|done]. exists (c :: w). split; [done|]. set_solver.
Qed.

Lemma terminated_pos r : terminated r -> 0 < blen r.
Proof.
  intros (w & -> & _). rewrite blen_app. pose proof (blen_nonneg w). simpl. 
  change (len_utf8 LF) with 1. lia.
Qed.

(** [content] is a prefix of the row. *)
Lemma content_prefix r : exists t, r = content r ++ t.
Proof.
  unfold content. destruct r as [|x r _] using rev_ind; [by exists []|].
  destruct (Z.eq_dec x LF) as [->|]; [|rewrite strip_suffix_snoc_ne by done; by exists []; rewrite app_nil_r].
  rewrite strip_suffix_snoc. destruct r as [|y r _] using rev_ind; [by exists [LF]|].
  destruct (Z.eq_dec y CR) as [->|]; [rewrite strip_suffix_snoc|rewrite strip_suffix_snoc_ne by done].
  - exists [CR; LF]. simpl. by rewrite <- app_assoc.
  - by exists [LF].
Qed.

Lemma content_unterminated r : LF ∉ r -> content r = r.
Proof.
  intros H. unfold content. destruct r as [|x r _] using rev_ind; [done|].
  rewrite strip_suffix_snoc_ne; [done|set_solver].
Qed.

Lemma blen_content_le r : blen (content r) <= blen r.
Proof.
  destruct (content_prefix r) as [t E]. apply (f_equal blen) in E.
  rewrite blen_app in E. pose proof (blen_nonneg t). lia.
Qed.

(** Where an offset falls: the rows before it, its row, and the rows after. *)
Lemma row_split rs o :
  row_list rs -> 0 <= o ->
  exists rs1 r rs2, rs = rs1 ++ r :: rs2 /\ Forall terminated rs1 /\
    blen (concat rs1) <= o /\ (rs2 = [] \/ o < blen (concat rs1) + blen r) /\
    (terminated r /\ rs2 <> [] \/ LF ∉ r /\ rs2 = []).
Proof.
  intros H. revert o. induction H as [r Hr|r rs Hr Hrs IH]; intros o Ho.
  - exists [], r, []. simpl. repeat split; [by constructor|done|by left|by right].
  - destruct (Z_lt_le_dec o (blen r)).
    + exists [], r, rs. simpl. repeat split; [by constructor|done|by right|].
      left. split; [done|]. by destruct Hrs.
    + destruct (IH (o - blen r)) as (rs1 & r' & rs2 & -> & Ht & Hle & Hlt & Hr'); [lia|].
      exists (r :: rs1), r', rs2. simpl. rewrite blen_app.
      repeat split; [by constructor|lia| |done]. destruct Hlt; [by left|right; lia].
Qed.

Lemma locate_split rs1 r rs2 o :
  Forall terminated rs1 -> blen (concat rs1) <= o ->
  rs2 = [] \/ o < blen (concat rs1) + blen r ->
  locate (rs1 ++ r :: rs2) o =
    (len rs1, u16len (floor_by len_utf8 (content r) (o - blen (concat rs1)))).
Proof.
  intros Ht. revert o. induction Ht as [|r' rs1 Hr' _ IH]; intros o Hle Hlt; simpl in *.
  - rewrite Z.sub_0_r. destruct Hlt as [->|Hlt]; simpl; [done|].
    rewrite (proj2 (Z.ltb_lt _ _)) by lia. by rewrite orb_true_r.
  - rewrite blen_app in *. pose proof (blen_nonneg (concat rs1)).
    rewrite bool_decide_eq_false_2 by (by destruct rs1). simpl. bcase.
    rewrite IH; [|lia|destruct Hlt; [by left|right; lia]].
    rewrite len_cons. do 3 f_equal. lia.
Qed.

Lemma snap_split rs1 r rs2 o :
  Forall terminated rs1 -> blen (concat rs1) <= o ->
  rs2 = [] \/ o < blen (concat rs1) + blen r ->
  snap (rs1 ++ r :: rs2) o =
    blen (concat rs1) + blen (floor_by len_utf8 (content r) (o - blen (concat rs1))).
Proof.
  intros Ht. revert o. induction Ht as [|r' rs1 Hr' _ IH]; intros o Hle Hlt; simpl in *.
  - rewrite Z.sub_0_r. destruct Hlt as [->|Hlt]; simpl; [done|].
    rewrite (proj2 (Z.ltb_lt _ _)) by lia. by rewrite orb_true_r.
  - rewrite blen_app in *. pose proof (blen_nonneg (concat rs1)).
    rewrite bool_decide_eq_false_2 by (by destruct rs1). simpl. bcase.
    rewrite IH; [|lia|destruct Hlt; [by left|right; lia]]. replace (o - blen r' - blen (concat rs1)) with
      (o - (blen r' + blen (concat rs1))) by lia. lia.
Qed.

Lemma place_split rs1 r rs2 col :
  place (rs1 ++ r :: rs2) (len rs1) col =
    blen (concat rs1) + blen (floor_by len_utf16 (content r) col).
Proof.
  induction rs1 as [|r' rs1 IH]; simpl; [done|].
  rewrite len_cons, blen_app. pose proof (len_nonneg rs1). bcase.
  replace (1 + len rs1 - 1) with (len rs1) by lia. rewrite IH. lia.
Qed.

Lemma place_beyond rs line col : len rs <= line -> place rs line col = blen (concat rs).
Proof.
  revert line. induction rs as [|r rs IH]; intros line Hl; simpl; [done|].
  rewrite len_cons in Hl. pose proof (len_nonneg rs). bcase. rewrite blen_app, IH by lia. done.
Qed.

(** ** The specification's own laws *)

(** Placing the position of an offset gives the offset it is clamped to. *)
Lemma place_locate rs o :
  row_list rs -> 0 <= o -> place rs (fst (locate rs o)) (snd (locate rs o)) = snap rs o.
Proof.
  intros Hrs Ho. destruct (row_split rs o Hrs Ho) as (rs1 & r & rs2 & -> & Ht & Hle & Hlt & _).
  rewrite locate_split, snap_split by done. simpl. rewrite place_split.
  destruct (floor_by_split len_utf8 (content r) (o - blen (concat rs1))) as [m E].
  rewrite E at 1. by rewrite (floor_by_prefix len_utf16).
Qed.

(** A proper prefix of a row that does not end between a CR and its LF is a
    prefix of the row's content. *)
Lemma content_covers r m t :
  r = m ++ t -> (terminated r /\ t <> [] \/ LF ∉ r) ->
  ~ (last m = Some CR /\ head t = Some LF) ->
  exists m', content r = m ++ m'.
Proof.
  intros -> [[(w & E & Hw) Ht]|Hn] Ha.
  2: { rewrite content_unterminated by done. by exists t. }
  destruct t as [|x t _] using rev_ind; [done|].
  rewrite app_assoc in *. apply app_inj_tail in E as [<- ->].
  unfold content. rewrite strip_suffix_snoc.
  destruct t as [|y t _] using rev_ind.
  - rewrite app_nil_r. exists []. rewrite app_nil_r.
    destruct m as [|z m _] using rev_ind; [done|].
    rewrite strip_suffix_snoc_ne; [done|]. intros ->. apply Ha. by rewrite last_snoc.
  - rewrite app_assoc. destruct (Z.eq_dec y CR) as [->|].
    + rewrite strip_suffix_snoc. by exists t.
    + rewrite strip_suffix_snoc_ne by done. exists (t ++ [y]). by rewrite <- app_assoc.
Qed.

(** A character boundary that is not between the CR and the LF of a separator
    is its own clamp. *)
Lemma snap_addressable c1 c2 :
  ~ (last c1 = Some CR /\ head c2 = Some LF) ->
  snap (rows (c1 ++ c2)) (blen c1) = blen c1.
Proof.
  intros Ha. pose proof (blen_nonneg c1) as Hn.
  destruct (row_split (rows (c1 ++ c2)) (blen c1) (rows_row_list _) Hn)
    as (rs1 & r & rs2 & E & Ht & Hle & Hlt & Hr).
  rewrite E, snap_split by done.
  pose proof (concat_rows (c1 ++ c2)) as Ec. rewrite E, concat_app in Ec. simpl in Ec.
  destruct (prefix_le_split (concat rs1) (r ++ concat rs2) c1 c2 Ec Hle) as (m & -> & Em).
  rewrite blen_app in *.
  replace (blen (concat rs1) + blen m - blen (concat rs1)) with (blen m) by lia.
  assert (exists t, r = m ++ t /\ (rs2 <> [] -> t <> []) /\ (t <> [] -> head c2 = head t))
    as (t & -> & Ht1 & Ht2).
  { destruct Hlt as [->|Hlt].
    - exists c2. simpl in Em. rewrite app_nil_r in Em. by subst.
    - destruct (prefix_le_split m c2 r (concat rs2)) as (t & -> & ->); [done|lia|].
      exists t. rewrite blen_app in Hlt. split; [done|]. split.
      + intros _ ->. simpl in Hlt. lia.
      + by destruct t. }
  destruct (content_covers (m ++ t) m t) as [m' E'].
  - done.
  - destruct Hr as [[? ?]|[? ?]]; auto.
  - intros [Hl Hh]. apply Ha. destruct m as [|x m _] using rev_ind; [done|].
    rewrite app_assoc, !last_snoc in *. split; [done|].
    rewrite Ht2; [done|]. by destruct t.
  - rewrite E'. by rewrite (floor_by_prefix len_utf8).
Qed.

(** Positions are monotone in the offset. *)
Definition pos_le (p q : Z * Z) : Prop := fst p < fst q \/ fst p = fst q /\ snd p <= snd q.

Lemma locate_line_bounds rs o : row_list rs -> 0 <= o -> 0 <= fst (locate rs o) < len rs.
Proof.
  intros Hrs Ho. destruct (row_split rs o Hrs Ho) as (rs1 & r & rs2 & -> & Ht & Hle & Hlt & _).
  rewrite locate_split by done. rewrite len_app, len_cons. simpl.
  pose proof (len_nonneg rs1). pose proof (len_nonneg rs2). lia.
Qed.

Lemma locate_mono rs o1 o2 :
  row_list rs -> 0 <= o1 <= o2 -> pos_le (locate rs o1) (locate rs o2).
Proof.
  intros H. revert o1 o2. induction H as [r Hr|r rs Hr Hrs IH]; intros o1 o2 Ho; simpl.
  - right. split; [done|]. simpl.
    destruct (floor_by_mono len_utf8 (content r) o1 o2) as [m ->]; [lia|].
    rewrite u16len_app. pose proof (u16len_nonneg m). lia.
  - rewrite bool_decide_eq_false_2 by (by destruct Hrs). simpl.
    destruct (Z.ltb_spec o1 (blen r)), (Z.ltb_spec o2 (blen r)); try lia.
    + right. split; [done|]. simpl.
      destruct (floor_by_mono len_utf8 (content r) o1 o2) as [m ->]; [lia|].
      rewrite u16len_app. pose proof (u16len_nonneg m). lia.
    + left. pose proof (locate_line_bounds rs (o2 - blen r) Hrs ltac:(lia)).
      destruct (locate rs (o2 - blen r)). simpl in *. lia.
    + pose proof (IH (o1 - blen r) (o2 - blen r) ltac:(lia)) as Hm.
      destruct (locate rs (o1 - blen r)), (locate rs (o2 - blen r)).
      unfold pos_le in *. simpl in *. lia.
Qed.

(** The strict reading of a position: only an existing row and a column that
    is exactly a character boundary of its content name an offset. *)
Definition place_exact (rs : list (list Z)) (line col : Z) : option Z :=
  match zget rs line with
  | None => None
  | Some r =>
    if u16len (floor_by len_utf16 (content r) col) =? col then Some (place rs line col) else None
  end.
Definition exact_offset_of (cs : list Z) (line col : Z) : option Z :=
  place_exact (rows cs) line col.

(** A row picked by number splits the rows around it. *)
Lemma row_pick rs line :
  row_list rs -> 0 <= line < len rs ->
  exists rs1 r rs2, rs = rs1 ++ r :: rs2 /\ line = len rs1 /\ Forall terminated rs1.
Proof.
  intros Hrs Hl. destruct (zget_lt_Some rs line Hl) as [r Hr].
  apply zget_split in Hr as (rs1 & rs2 & -> & <-). exists rs1, r, rs2.
  split; [done|]. split; [done|]. clear Hl.
  induction rs1 as [|r1 rs1 IH]; [constructor|]. simpl in Hrs.
  inversion Hrs as [? ? E|? ? Hr1 Hrs']; subst; [by destruct rs1|].
  constructor; [done|]. by apply IH.
Qed.

(** Flooring the whole text, cut at the row's content, floors in the row. *)
Lemma floor_content c1 r c3 o :
  blen c1 <= o ->
  Z.min (blen (floor_by len_utf8 (c1 ++ r ++ c3) o)) (blen c1 + blen (content r)) =
    blen c1 + blen (floor_by len_utf8 (content r) (o - blen c1)).
Proof.
  intros Ho. rewrite (floor_by_app len_utf8) by done. rewrite blen_app.
  destruct (content_prefix r) as [t E]. rewrite E at 1. rewrite <- app_assoc.
  destruct (Z_lt_le_dec (o - blen c1) (blen (content r))) as [Hlt|Hge].
  - rewrite (floor_by_app_l len_utf8) by done.
    destruct (floor_by_split len_utf8 (content r) (o - blen c1)) as [m Em].
    apply (f_equal blen) in Em. rewrite blen_app in Em. pose proof (blen_nonneg m). lia.
  - rewrite (floor_by_app len_utf8) by done. rewrite (floor_by_all len_utf8 (content r)) by done.
    rewrite blen_app. pose proof (blen_nonneg (floor_by len_utf8 (t ++ c3) (o - blen c1 - blen (content r)))).
    lia.
Qed.

(** The content of a row, split where an offset floors, inside the text. *)
Lemma row_content_split w c1 r c3 k :
  exists m, c1 ++ r ++ c3 = c1 ++ floor_by w (content r) k ++ m.
Proof.
  destruct (content_prefix r) as [t E]. destruct (floor_by_split w (content r) k) as [m Em].
  exists (m ++ t ++ c3). f_equal. rewrite E at 1. rewrite Em at 1. by rewrite <- !app_assoc.
Qed.
