(* ===== verification/LineIndex.v ===== *)
(** * Line indexes (perl-position-tracking/src/line_index.rs)

    [LineStartsCache] and [LineIndex] convert between byte offsets and
    (line, UTF-16 column) positions through a table of line starts.  The Rope
    constructors and conversions are stated over an interface of the Rope
    operations they call, with the documented behaviour of those operations
    as laws.  Every conversion is proved to implement [SourceRows.locate] and
    [SourceRows.place], and never to panic. *)

From stdpp Require Import base numbers sets list.
From S2P Require Import Prelude Utf8 SourceRows.

(** ** Shared helpers *)

Definition is_utf8_continuation (b : Z) : bool := Z.land b 192 =? 128.

Fixpoint lf_line_starts_from (offset : Z) (bs : list Z) : list Z :=
  match bs with
  | [] => []
  | byte :: bs =>
    if byte =? LF then (offset + 1) :: lf_line_starts_from (offset + 1) bs
    else lf_line_starts_from (offset + 1) bs
  end.
Definition lf_line_starts (text : list Z) : list Z := 0 :: lf_line_starts_from 0 text.

(** [bytes[i] == b]; every use is guarded so that [i] is in range. *)
Definition byte_is (bs : list Z) (i b : Z) : bool :=
  match zget bs i with Some x => x =? b | None => false end.

Definition line_content_end (text : list Z) (line_start separator_end : Z) : Z :=
  let n := len text in
  let e := Z.max (Z.min separator_end n) (Z.min line_start n) in
  if (line_start <? e) && byte_is text (e - 1) LF then
    let e := e - 1 in
    if (line_start <? e) && byte_is text (e - 1) CR then e - 1 else e
  else e.

(** [line_starts.binary_search(&offset).unwrap_or_else(|i| i.saturating_sub(1))] *)
Definition line_of (line_starts : list Z) (offset : Z) : Z :=
  match binary_search line_starts offset with inl i => i | inr i => saturating_sub i 1 end.

(** [while normalized > 0 && !text.is_char_boundary(normalized) { normalized -= 1 }] *)
Fixpoint down_to_boundary (text : list Z) (n : nat) : Z :=
  match n with
  | O => 0
  | S m => if is_char_boundary text (Z.of_nat n) then Z.of_nat n else down_to_boundary text m
  end.

(** The column walk of [position_to_offset]: the bytes of the characters that
    fit in [character] UTF-16 units, [uc] units and [bo] bytes in. *)
Fixpoint utf16_walk (cs : list Z) (character uc bo : Z) : Z :=
  match cs with
  | [] => bo
  | ch :: cs =>
    if character <? uc + len_utf16 ch then bo
    else utf16_walk cs character (uc + len_utf16 ch) (bo + len_utf8 ch)
  end.

(** ** The Rope interface *)

Class RopeOps (Rope : Type) := {
  rope_chunks : Rope -> list (list Z);
  rope_len_bytes : Rope -> Z;
  rope_byte : Rope -> Z -> outcome Z;
  rope_byte_slice : Rope -> Z -> Z -> outcome (list Z);
}.

(** Documented behaviour of ropey: the chunks concatenate to the text, and the
    byte accessors read that text, panicking out of range or off a character
    boundary. *)
Class RopeLaws (Rope : Type) `{RopeOps Rope} (text : Rope -> list Z) : Prop := {
  rope_chunks_text r : concat (rope_chunks r) = text r;
  rope_len_text r : rope_len_bytes r = len (text r);
  rope_byte_text r i : rope_byte r i = expect (zget (text r) i);
  rope_byte_slice_text r a b : rope_byte_slice r a b = str_index (text r) a b;
}.

Fixpoint lf_line_starts_chunks (offset : Z) (chunks : list (list Z)) : list Z :=
  match chunks with
  | [] => []
  | chunk :: chunks =>
    lf_line_starts_from offset chunk ++ lf_line_starts_chunks (offset + len chunk) chunks
  end.
Definition lf_line_starts_rope `{RopeOps Rope} (rope : Rope) : list Z :=
  0 :: lf_line_starts_chunks 0 (rope_chunks rope).

(** [rope.byte(i) == b] *)
Definition rope_byte_is `{RopeOps Rope} (rope : Rope) (i b : Z) : outcome bool :=
  x ← rope_byte rope i; mret (x =? b).

Definition rope_line_content_end `{RopeOps Rope} (rope : Rope) (line_start separator_end : Z)
    : outcome Z :=
  let n := rope_len_bytes rope in
  let start := Z.min line_start n in
  let e := Z.max (Z.min separator_end n) start in
  is_lf ← (if start <? e then rope_byte_is rope (e - 1) LF else mret false);
  if (is_lf : bool) then
    let e := e - 1 in
    is_cr ← (if start <? e then rope_byte_is rope (e - 1) CR else mret false);
    mret (if (is_cr : bool) then e - 1 else e)
  else mret e.

(** [while normalized > 0 && normalized < len && is_utf8_continuation(...)] *)
Fixpoint rope_down_to_boundary `{RopeOps Rope} (rope : Rope) (n : nat) : outcome Z :=
  match n with
  | O => mret 0
  | S m =>
    if Z.of_nat n <? rope_len_bytes rope then
      b ← rope_byte rope (Z.of_nat n);
      if is_utf8_continuation b then rope_down_to_boundary rope m else mret (Z.of_nat n)
    else mret (Z.of_nat n)
  end.

(** ** [LineStartsCache] *)

Module LineStartsCache.

Record t := mk { line_starts : list Z }.

Definition normalize_text_offset (text : list Z) (offset : Z) : Z :=
  down_to_boundary text (Z.to_nat (Z.min offset (len text))).

Definition new (text : list Z) : t := mk (lf_line_starts text).
Definition new_rope `{RopeOps Rope} (rope : Rope) : t := mk (lf_line_starts_rope rope).

Definition offset_to_position (self : t) (text : list Z) (offset : Z) : outcome (Z * Z) :=
  let offset := normalize_text_offset text offset in
  let line := line_of (line_starts self) offset in
  ls ← expect (zget (line_starts self) line);
  let separator_end := default (len text) (zget (line_starts self) (line + 1)) in
  let offset := Z.min offset (line_content_end text ls separator_end) in
  s ← str_index text ls offset;
  mret (as_u32 line, as_u32 (u16len (chars s))).

Definition position_to_offset (self : t) (text : list Z) (line character : Z) : outcome Z :=
  if len (line_starts self) <=? line then mret (len text)
  else
    ls ← expect (zget (line_starts self) line);
    let separator_end := default (len text) (zget (line_starts self) (line + 1)) in
    let le := line_content_end text ls separator_end in
    lt ← str_index text ls le;
    mret (ls + Z.min (utf16_walk (chars lt) character 0 0) (len lt)).

Definition normalize_rope_offset `{RopeOps Rope} (rope : Rope) (offset : Z) : outcome Z :=
  rope_down_to_boundary rope (Z.to_nat (Z.min offset (rope_len_bytes rope))).

Definition offset_to_position_rope `{RopeOps Rope} (self : t) (rope : Rope) (offset : Z)
    : outcome (Z * Z) :=
  offset ← normalize_rope_offset rope offset;
  let line := line_of (line_starts self) offset in
  ls ← expect (zget (line_starts self) line);
  let separator_end := default (rope_len_bytes rope) (zget (line_starts self) (line + 1)) in
  e ← rope_line_content_end rope ls separator_end;
  s ← rope_byte_slice rope ls (Z.min offset e);
  mret (as_u32 line, as_u32 (u16len (chars s))).

Definition position_to_offset_rope `{RopeOps Rope} (self : t) (rope : Rope) (line character : Z)
    : outcome Z :=
  if len (line_starts self) <=? line then mret (rope_len_bytes rope)
  else
    ls ← expect (zget (line_starts self) line);
    let separator_end := default (rope_len_bytes rope) (zget (line_starts self) (line + 1)) in
    le ← rope_line_content_end rope ls separator_end;
    let n := rope_len_bytes rope in
    let slice_start := Z.min ls n in
    let slice_end := Z.max (Z.min le n) slice_start in
    sl ← rope_byte_slice rope slice_start slice_end;
    let bo := utf16_walk (chars sl) character 0 0 in
    mret (Z.min (default n (checked_add ls bo)) n).

End LineStartsCache.

(** ** [LineIndex] *)

Module LineIndex.

Record t := mk { line_starts : list Z; text : list Z }.

Definition new (text : list Z) : t := mk (lf_line_starts text) text.

Definition normalize_offset (self : t) (offset : Z) : Z :=
  down_to_boundary (text self) (Z.to_nat (Z.min offset (len (text self)))).

Definition utf16_column (self : t) (line byte_offset : Z) : outcome Z :=
  match zget (line_starts self) line with
  | None => mret 0
  | Some line_start =>
    if len (text self) <? line_start then mret 0
    else match checked_add line_start byte_offset with
    | None => mret 0
    | Some target_byte =>
      if len (text self) <? target_byte then mret 0
      else
        line_text ← str_index (text self) line_start target_byte;
        mret (u16len (chars line_text))
    end
  end.

(** The loop of [utf16_to_byte_offset]: [inl] is a [return], [inr] the UTF-16
    length reached when the line ends first. *)
Fixpoint utf16_to_byte_offset_loop (cis : list (Z * Z)) (utf16_offset current_utf16 : Z)
    : option Z + Z :=
  match cis with
  | [] => inr current_utf16
  | (byte_offset, ch) :: cis =>
    if current_utf16 =? utf16_offset then inl (Some byte_offset)
    else
      let current_utf16 := current_utf16 + len_utf16 ch in
      if utf16_offset <? current_utf16 then inl None
      else utf16_to_byte_offset_loop cis utf16_offset current_utf16
  end.

Definition utf16_to_byte_offset (line_text : list Z) (utf16_offset : Z) : option Z :=
  match utf16_to_byte_offset_loop (char_indices line_text) utf16_offset 0 with
  | inl r => r
  | inr current_utf16 =>
    if current_utf16 =? utf16_offset then Some (len line_text) else None
  end.

Definition offset_to_position (self : t) (offset : Z) : outcome (Z * Z) :=
  let offset := normalize_offset self offset in
  let line := line_of (line_starts self) offset in
  line_start ← expect (zget (line_starts self) line);
  let separator_end := default (len (text self)) (zget (line_starts self) (line + 1)) in
  let offset := Z.min offset (line_content_end (text self) line_start separator_end) in
  column ← utf16_column self line (offset - line_start);
  mret (as_u32 line, as_u32 column).

Definition position_to_offset (self : t) (line character : Z) : outcome (option Z) :=
  if len (line_starts self) <=? line then mret None
  else
    line_start ← expect (zget (line_starts self) line);
    let separator_end := default (len (text self)) (zget (line_starts self) (line + 1)) in
    let line_end := line_content_end (text self) line_start separator_end in
    line_text ← str_index (text self) line_start line_end;
    mret (byte_offset ← utf16_to_byte_offset line_text character; Some (line_start + byte_offset)).

Definition range (self : t) (start end_ : Z) : outcome ((Z * Z) * (Z * Z)) :=
  start_pos ← offset_to_position self start;
  end_pos ← offset_to_position self end_;
  mret (start_pos, end_pos).

End LineIndex.

(** ** The table of line starts lists the row starts *)

Fixpoint row_starts (s : Z) (rs : list (list Z)) : list Z :=
  match rs with [] => [] | r :: rs => s :: row_starts (s + blen r) rs end.

Lemma row_starts_app s rs1 rs2 :
  row_starts s (rs1 ++ rs2) = row_starts s rs1 ++ row_starts (s + blen (concat rs1)) rs2.
Proof.
  revert s. induction rs1 as [|r rs1 IH]; intros s; simpl; [by rewrite Z.add_0_r|].
  rewrite IH, blen_app, Z.add_assoc. done.
Qed.

Lemma len_row_starts s rs : len (row_starts s rs) = len rs.
Proof. revert s. induction rs; intros s; simpl; [done|]. rewrite !len_cons. by rewrite IHrs. Qed.

Lemma row_starts_lt s rs :
  Forall terminated rs -> Forall (fun x => x < s + blen (concat rs)) (row_starts s rs).
Proof.
  intros H. revert s. induction H as [|r rs Hr _ IH]; intros s; simpl; [constructor|].
  pose proof (terminated_pos r Hr). pose proof (blen_nonneg (concat rs)).
  rewrite blen_app. constructor; [lia|].
  eapply Forall_impl; [apply IH|]. simpl. lia.
Qed.

Lemma lf_line_starts_from_app o l k :
  lf_line_starts_from o (l ++ k) = lf_line_starts_from o l ++ lf_line_starts_from (o + len l) k.
Proof.
  revert o. induction l as [|b l IH]; intros o; simpl; [by rewrite Z.add_0_r|].
  rewrite len_cons, !IH, <- Z.add_assoc. by destruct (b =? LF).
Qed.

Lemma lf_line_starts_from_none o l : LF ∉ l -> lf_line_starts_from o l = [].
Proof.
  revert o. induction l as [|b l IH]; intros o H; simpl; [done|].
  destruct (Z.eqb_spec b LF); [set_solver|]. apply IH. set_solver.
Qed.

Lemma LF_encode_char c : is_scalar c = true -> c <> LF -> LF ∉ encode_char c.
Proof.
  intros Hc Hne Hin. destruct (Z_lt_le_dec c 128).
  - rewrite encode_char_ascii in Hin by done. set_solver.
  - pose proof (encode_char_high c Hc l) as Hh. rewrite Forall_forall in Hh.
    apply Hh in Hin. unfold LF in *. lia.
Qed.

Lemma lf_line_starts_from_encode cs o r rs :
  scalars cs -> rows cs = r :: rs ->
  lf_line_starts_from o (encode cs) = row_starts (o + blen r) rs.
Proof.
  intros Hs. revert o r rs. induction Hs as [|c cs Hc Hs IH]; intros o r rs E; simpl in *.
  - by simplify_eq.
  - destruct (rows_cons cs) as (r' & rs' & E'). rewrite E' in E.
    destruct (Z.eqb_spec c LF) as [->|Hne]; simplify_eq; simpl.
    + rewrite (IH (o + 1) r' rs' E'). done.
    + rewrite lf_line_starts_from_app, lf_line_starts_from_none by (by apply LF_encode_char).
      simpl. rewrite len_encode_char, (IH _ r' rs E'). f_equal. lia.
Qed.

Lemma lf_line_starts_encode cs :
  scalars cs -> lf_line_starts (encode cs) = row_starts 0 (rows cs).
Proof.
  intros Hs. destruct (rows_cons cs) as (r & rs & E). unfold lf_line_starts.
  by rewrite (lf_line_starts_from_encode cs 0 r rs Hs E), E.
Qed.

Lemma lf_line_starts_chunks_concat o chunks :
  lf_line_starts_chunks o chunks = lf_line_starts_from o (concat chunks).
Proof.
  revert o. induction chunks as [|k chunks IH]; intros o; simpl; [done|].
  by rewrite IH, lf_line_starts_from_app.
Qed.

(** ** One row of a text: what every lookup finds there *)

Section row.
Context (cs : list Z) (rs1 : list (list Z)) (r : list Z) (rs2 : list (list Z)).
Hypothesis Hs : scalars cs.
Hypothesis Hrows : rows cs = rs1 ++ r :: rs2.
Hypothesis Ht : Forall terminated rs1.

Lemma row_text : cs = concat rs1 ++ r ++ concat rs2.
Proof using Hrows. by rewrite <- (concat_rows cs), Hrows, concat_app. Qed.

Lemma row_blen : blen cs = blen (concat rs1) + blen r + blen (concat rs2).
Proof using Hrows. rewrite row_text, !blen_app. lia. Qed.

Lemma row_line_of o :
  blen (concat rs1) <= o -> rs2 = [] \/ o < blen (concat rs1) + blen r ->
  line_of (lf_line_starts (encode cs)) o = len rs1.
Proof using All.
  intros Hle Hlt. rewrite lf_line_starts_encode, Hrows, row_starts_app by done. simpl row_starts.
  rewrite Z.add_0_l.
  pose proof (row_starts_lt 0 rs1 Ht) as Hp. simpl in Hp.
  set (s := blen (concat rs1)) in *. unfold line_of, binary_search.
  assert (Forall (fun x => (x <? o) = true) (row_starts 0 rs1)) as Hp'.
  { eapply Forall_impl; [apply Hp|]. intros x Hx. apply Z.ltb_lt. simpl in Hx. lia. }
  rewrite partition_point_app, len_row_starts by done. simpl partition_point.
  pose proof (len_nonneg rs1).
  destruct (Z.ltb_spec s o) as [Hso|Hso]; simpl.
  - assert (partition_point (fun y => y <? o) (row_starts (s + blen r) rs2) = 0) as ->.
    { destruct rs2 as [|r2 rs2']; [done|]. simpl. destruct Hlt; [done|]. by bcase. }
    assert (forall y, zget (row_starts 0 rs1 ++ s :: row_starts (s + blen r) rs2) (len rs1 + (1 + 0))
      = Some y -> y <> o) as Hy.
    { intros y. rewrite zget_app_r by (rewrite len_row_starts; lia). rewrite len_row_starts.
      replace (len rs1 + (1 + 0) - len rs1) with 1 by lia. rewrite zget_cons_S by lia.
      destruct rs2 as [|r2 rs2']; [done|]. destruct Hlt; [done|]. simpl. intros [= <-]. lia. }
    destruct (zget _ _) as [y|]; [|unfold saturating_sub; lia].
    destruct (Z.eqb_spec y o); [by specialize (Hy _ eq_refl)|]. unfold saturating_sub. lia.
  - rewrite Z.add_0_r, <- (len_row_starts 0 rs1), zget_app_len.
    assert (s = o) as -> by lia. by rewrite Z.eqb_refl.
Qed.

Lemma row_start : zget (lf_line_starts (encode cs)) (len rs1) = Some (blen (concat rs1)).
Proof using Hrows Hs.
  rewrite lf_line_starts_encode, Hrows, row_starts_app by done. simpl row_starts.
  rewrite Z.add_0_l.
  by rewrite <- (len_row_starts 0 rs1), zget_app_len.
Qed.

Lemma row_separator_end :
  default (len (encode cs)) (zget (lf_line_starts (encode cs)) (len rs1 + 1)) =
    blen (concat rs1) + blen r.
Proof using Hrows Hs.
  rewrite lf_line_starts_encode, Hrows, row_starts_app by done. simpl row_starts.
  rewrite Z.add_0_l.
  rewrite zget_app_r by (rewrite len_row_starts; lia). rewrite len_row_starts.
  replace (len rs1 + 1 - len rs1) with 1 by lia. rewrite zget_cons_S by lia.
  pose proof row_blen as Hb. destruct rs2 as [|r2 rs2']; simpl in *; [|done].
  rewrite len_encode, Hb. lia.
Qed.

Lemma row_count : len (lf_line_starts (encode cs)) = len rs1 + 1 + len rs2.
Proof using Hrows Hs.
  rewrite lf_line_starts_encode, len_row_starts, Hrows, len_app, len_cons by done. lia.
Qed.
End row.

(** The byte before the end of an encoded text. *)
Lemma byte_is_last a x k b :
  is_scalar x = true -> 0 <= b < 128 ->
  byte_is (encode (a ++ [x]) ++ k) (blen a + len_utf8 x - 1) b = (x =? b).
Proof.
  intros Hx Hb. unfold byte_is. rewrite encode_app. simpl. rewrite app_nil_r, <- app_assoc.
  pose proof (len_utf8_pos x). rewrite zget_app_r by (rewrite len_encode; lia).
  rewrite len_encode. replace (blen a + len_utf8 x - 1 - blen a) with (len_utf8 x - 1) by lia.
  destruct (Z_lt_le_dec x 128) as [Hlt|Hge].
  - rewrite encode_char_ascii by done. unfold len_utf8.
    rewrite (proj2 (Z.ltb_lt _ _)) by done. done.
  - rewrite zget_app_l by (rewrite len_encode_char; lia).
    destruct (zget_lt_Some (encode_char x) (len_utf8 x - 1)) as [y Hy];
      [rewrite len_encode_char; lia|].
    rewrite Hy. apply zget_split in Hy as (l1 & l2 & E & _).
    pose proof (encode_char_high x Hx Hge) as Hh. rewrite E in Hh.
    apply Forall_app in Hh as [_ Hh]. inversion Hh; subst. bcase; done.
Qed.

(** Trimming the separator finds the end of the row's content. *)
Lemma line_content_end_row c1 r c3 :
  scalars (c1 ++ r ++ c3) ->
  line_content_end (encode (c1 ++ r ++ c3)) (blen c1) (blen c1 + blen r) =
    blen c1 + blen (content r).
Proof.
  intros Hs. unfold line_content_end. rewrite len_encode, !blen_app.
  pose proof (blen_nonneg c1). pose proof (blen_nonneg r). pose proof (blen_nonneg c3).
  replace (Z.max _ _) with (blen c1 + blen r) by lia.
  apply scalars_app in Hs as [Hs1 [Hsr Hs3]%scalars_app].
  destruct r as [|x r _] using rev_ind.
  { simpl. bcase. simpl. done. }
  apply scalars_app in Hsr as [Hsr Hx]. inversion Hx as [|? ? Hx' _]; subst.
  assert (forall b, 0 <= b < 128 ->
    byte_is (encode (c1 ++ (r ++ [x]) ++ c3)) (blen c1 + blen (r ++ [x]) - 1) b = (x =? b)) as Hb.
  { intros b Hb. replace (encode (c1 ++ (r ++ [x]) ++ c3))
      with (encode ((c1 ++ r) ++ [x]) ++ encode c3) by (by rewrite <- encode_app, <- !app_assoc).
    rewrite <- (byte_is_last (c1 ++ r) x (encode c3)) by done. f_equal.
    rewrite !blen_app. simpl. lia. }
  rewrite (Hb LF) by (unfold LF; lia). clear Hb.
  pose proof (len_utf8_pos x). rewrite blen_app. simpl.
  destruct (Z.ltb_spec (blen c1) (blen c1 + (blen r + (len_utf8 x + 0)))); [|pose proof (blen_nonneg r); lia].
  simpl. unfold content. destruct (Z.eqb_spec x LF) as [->|Hne].
  2: { rewrite strip_suffix_snoc_ne by done. rewrite blen_app. simpl. lia. }
  rewrite strip_suffix_snoc. change (len_utf8 LF) with 1.
  destruct r as [|y r _] using rev_ind.
  { simpl. bcase. simpl. lia. }
  apply scalars_app in Hsr as [Hsr Hy]. inversion Hy as [|? ? Hy' _]; subst.
  assert (forall b, 0 <= b < 128 ->
    byte_is (encode (c1 ++ ((r ++ [y]) ++ [LF]) ++ c3))
      (blen c1 + (blen (r ++ [y]) + (1 + 0)) - 1 - 1) b = (y =? b)) as Hb.
  { intros b Hb. replace (encode (c1 ++ ((r ++ [y]) ++ [LF]) ++ c3))
      with (encode ((c1 ++ r) ++ [y]) ++ encode ([LF] ++ c3))
      by (by rewrite <- encode_app, <- !app_assoc).
    rewrite <- (byte_is_last (c1 ++ r) y (encode ([LF] ++ c3))) by done. f_equal.
    rewrite !blen_app. simpl. lia. }
  rewrite (Hb CR) by (unfold CR; lia). clear Hb.
  pose proof (len_utf8_pos y). pose proof (blen_nonneg r). rewrite blen_app. simpl.
  rewrite (proj2 (Z.ltb_lt (blen c1) _)) by lia. simpl.
  destruct (Z.eqb_spec y CR) as [->|Hne].
  - rewrite strip_suffix_snoc. simpl. change (len_utf8 CR) with 1. lia.
  - rewrite strip_suffix_snoc_ne by done. simpl. rewrite blen_app. simpl. lia.
Qed.

(** Walking back to a boundary floors the offset. *)
Lemma down_to_boundary_floor cs o :
  scalars cs -> 0 <= o ->
  down_to_boundary (encode cs) (Z.to_nat (Z.min o (len (encode cs)))) =
    blen (floor_by len_utf8 cs o).
Proof.
  intros Hs Ho. rewrite len_encode. pose proof (blen_nonneg cs).
  assert (blen (floor_by len_utf8 cs o) = blen (floor_by len_utf8 cs (Z.min o (blen cs)))) as ->.
  { destruct (Z_le_gt_dec o (blen cs)); [by rewrite Z.min_l by lia|].
    rewrite Z.min_r by lia. by rewrite !(floor_by_all len_utf8) by lia. }
  assert (0 <= Z.min o (blen cs) <= blen cs) as Hi by lia.
  generalize dependent (Z.min o (blen cs)). clear o Ho. intros o Ho.
  assert (forall c1 c2, cs = c1 ++ c2 ->
    down_to_boundary (encode cs) (Z.to_nat (blen c1)) = blen c1) as Hbd.
  { intros c1 c2 ->. pose proof (blen_nonneg c1).
    destruct (Z.to_nat (blen c1)) eqn:E; cbn [down_to_boundary]; [lia|].
    replace (Z.of_nat (S n)) with (blen c1) by lia. by rewrite boundary_prefix. }
  destruct (offset_cases cs o Ho) as [(c1 & c2 & E & ->)|(c1 & c & c2 & k & E & -> & Hk)].
  - rewrite (Hbd c1 c2 E), E. by rewrite (floor_by_prefix len_utf8).
  - rewrite E at 2. rewrite (floor_by_stop len_utf8) by lia.
    transitivity (down_to_boundary (encode cs) (Z.to_nat (blen c1))); [|by apply (Hbd c1 (c :: c2))].
    rewrite E in Hs. apply scalars_app in Hs as [_ [Hc _]%Forall_cons].
    pose proof (blen_nonneg c1) as Hn.
    assert (forall m, Z.of_nat m < len_utf8 c ->
      down_to_boundary (encode cs) (Z.to_nat (blen c1 + Z.of_nat m)) =
      down_to_boundary (encode cs) (Z.to_nat (blen c1))) as Hm.
    { induction m as [|m IH]; intros Hm; [by rewrite Z.add_0_r|]. rewrite <- IH by lia.
      replace (Z.to_nat (blen c1 + Z.of_nat (S m)))
        with (S (Z.to_nat (blen c1 + Z.of_nat m))) by lia.
      cbn [down_to_boundary].
      replace (Z.of_nat (S (Z.to_nat (blen c1 + Z.of_nat m))))
        with (blen c1 + Z.of_nat (S m)) by lia.
      by replace (is_char_boundary (encode cs) (blen c1 + Z.of_nat (S m))) with false
        by (rewrite E; symmetry; apply boundary_interior; [done|lia]). }
    rewrite <- (Hm (Z.to_nat k)) by lia. by rewrite Z2Nat.id by lia.
Qed.

(** The column walk floors in UTF-16 units. *)
Lemma utf16_walk_floor cs character uc bo :
  utf16_walk cs character uc bo = bo + blen (floor_by len_utf16 cs (character - uc)).
Proof.
  revert uc bo. induction cs as [|c cs IH]; intros uc bo; simpl; [lia|].
  destruct (Z.ltb_spec character (uc + len_utf16 c)), (Z.leb_spec (len_utf16 c) (character - uc));
    try lia; simpl; [lia|].
  rewrite IH. replace (character - (uc + len_utf16 c)) with (character - uc - len_utf16 c) by lia.
  lia.
Qed.

(** The exact column search succeeds on character boundaries only. *)
Lemma utf16_to_byte_offset_floor cs t :
  scalars cs -> 0 <= t ->
  LineIndex.utf16_to_byte_offset (encode cs) t =
    if u16len (floor_by len_utf16 cs t) =? t then Some (blen (floor_by len_utf16 cs t)) else None.
Proof.
  intros Hs Ht. unfold LineIndex.utf16_to_byte_offset, char_indices.
  rewrite chars_encode, len_encode by done. clear Hs.
  enough (forall bo uc, uc <= t ->
    match LineIndex.utf16_to_byte_offset_loop (char_indices_from bo cs) t uc with
    | inl r => r
    | inr u => if u =? t then Some (bo + blen cs) else None
    end = if uc + u16len (floor_by len_utf16 cs (t - uc)) =? t
          then Some (bo + blen (floor_by len_utf16 cs (t - uc))) else None) as H.
  { specialize (H 0 0 Ht). rewrite !Z.add_0_l, Z.sub_0_r in H. by rewrite <- H. }
  induction cs as [|c cs IH]; intros bo uc Huc; cbn [char_indices_from LineIndex.utf16_to_byte_offset_loop].
  - simpl. rewrite !Z.add_0_r. by destruct (uc =? t).
  - pose proof (len_utf16_pos c). cbn [floor_by].
    destruct (Z.eqb_spec uc t) as [->|Hne].
    + rewrite Z.sub_diag. bcase; simpl in *; try lia. by rewrite Z.add_0_r.
    + destruct (Z.ltb_spec t (uc + len_utf16 c)).
      * bcase; simpl in *; try lia; done.
      * specialize (IH (bo + len_utf8 c) (uc + len_utf16 c) ltac:(lia)).
        rewrite (proj2 (Z.leb_le _ _)) by lia. cbn [wlen]. replace (t - (uc + len_utf16 c)) with (t - uc - len_utf16 c) in IH by lia.
        rewrite !Z.add_assoc. done.
Qed.

(** ** The conversions implement the specification *)

(** The row of an offset, with everything the conversions compute in it. *)
Lemma offset_row cs offset :
  scalars cs -> 0 <= offset ->
  exists rs1 r rs2, let s := blen (concat rs1) in
    let o := blen (floor_by len_utf8 cs offset) in
    rows cs = rs1 ++ r :: rs2 /\ Forall terminated rs1 /\ s <= offset /\
    (rs2 = [] \/ offset < s + blen r) /\
    line_of (lf_line_starts (encode cs)) o = len rs1 /\
    line_content_end (encode cs) s (s + blen r) = s + blen (content r) /\
    Z.min o (s + blen (content r)) = s + blen (floor_by len_utf8 (content r) (offset - s)).
Proof.
  intros Hs Ho.
  destruct (row_split (rows cs) offset (rows_row_list cs) Ho) as (rs1 & r & rs2 & E & Ht & Hle & Hlt & _).
  exists rs1, r, rs2. cbv zeta. pose proof (row_text cs rs1 r rs2 E) as Ec.
  split; [done|]. split; [done|]. split; [done|]. split; [done|]. split; [|split].
  - apply (row_line_of cs rs1 r rs2); try done.
    + rewrite Ec, (floor_by_app len_utf8), blen_app by done.
      pose proof (blen_nonneg (floor_by len_utf8 (r ++ concat rs2) (offset - blen (concat rs1)))). lia.
    + pose proof (floor_by_le len_utf8 cs offset Ho). destruct Hlt; [by left|right; lia].
  - rewrite Ec. apply line_content_end_row. by rewrite <- Ec.
  - rewrite Ec. by apply floor_content.
Qed.

(** The slice of the row up to a floored offset. *)
Lemma row_slice cs rs1 r rs2 w k :
  scalars cs -> rows cs = rs1 ++ r :: rs2 ->
  str_index (encode cs) (blen (concat rs1))
    (blen (concat rs1) + blen (floor_by w (content r) k)) = Ret (encode (floor_by w (content r) k)) /\
  scalars (floor_by w (content r) k).
Proof.
  intros Hs E. pose proof (row_text cs rs1 r rs2 E) as Ec.
  destruct (row_content_split w (concat rs1) r (concat rs2) k) as [m Em].
  rewrite Em in Ec. rewrite Ec in Hs |- *. split; [by apply str_index_mid|]. apply scalars_app in Hs as [_ [Hs _]%scalars_app]. done.
Qed.

Lemma cache_offset_to_position cs offset :
  scalars cs -> 0 <= offset ->
  LineStartsCache.offset_to_position (LineStartsCache.new (encode cs)) (encode cs) offset =
    Ret (as_u32 (fst (position_of cs offset)), as_u32 (snd (position_of cs offset))).
Proof.
  intros Hs Ho. destruct (offset_row cs offset Hs Ho) as
    (rs1 & r & rs2 & E & Ht & Hle & Hlt & Hline & Hend & Hmin).
  unfold LineStartsCache.offset_to_position, LineStartsCache.normalize_text_offset. simpl.
  rewrite down_to_boundary_floor, Hline, (row_start cs rs1 r rs2) by done. simpl.
  rewrite (row_separator_end cs rs1 r rs2), Hend, Hmin by done.
  destruct (row_slice cs rs1 r rs2 len_utf8 (offset - blen (concat rs1)) Hs E) as [-> Hsc]. simpl.
  rewrite chars_encode by done. unfold position_of. by rewrite E, locate_split.
Qed.

Lemma cache_position_to_offset cs line col :
  scalars cs -> 0 <= line ->
  LineStartsCache.position_to_offset (LineStartsCache.new (encode cs)) (encode cs) line col =
    Ret (offset_of cs line col).
Proof.
  intros Hs Hl. unfold LineStartsCache.position_to_offset, offset_of. simpl.
  destruct (Z.leb_spec (len (lf_line_starts (encode cs))) line) as [Hge|Hlt].
  - rewrite lf_line_starts_encode, len_row_starts in Hge by done.
    by rewrite place_beyond, concat_rows, len_encode.
  - rewrite lf_line_starts_encode, len_row_starts in Hlt by done.
    destruct (row_pick (rows cs) line (rows_row_list cs)) as (rs1 & r & rs2 & E & -> & Ht); [lia|].
    rewrite (row_start cs rs1 r rs2) by done. simpl.
    rewrite (row_separator_end cs rs1 r rs2) by done.
    assert (line_content_end (encode cs) (blen (concat rs1)) (blen (concat rs1) + blen r) =
      blen (concat rs1) + blen (content r)) as ->.
    { pose proof (row_text cs rs1 r rs2 E) as Ec. rewrite Ec.
      apply line_content_end_row. by rewrite <- Ec. }
    destruct (row_slice cs rs1 r rs2 len_utf8 (blen (content r)) Hs E) as [Hsl Hsc].
    rewrite (floor_by_all len_utf8) in Hsl, Hsc by done. rewrite Hsl. simpl.
    rewrite chars_encode, utf16_walk_floor, Z.sub_0_r, len_encode, E, place_split by done.
    destruct (floor_by_split len_utf16 (content r) col) as [m Em].
    apply (f_equal blen) in Em. rewrite blen_app in Em. pose proof (blen_nonneg m).
    f_equal. simpl. lia.
Qed.

(** Every [str] is at most [isize::MAX] bytes long. *)
Definition allocatable (cs : list Z) : Prop := blen cs <= isize_max.

Lemma index_offset_to_position cs offset :
  scalars cs -> allocatable cs -> 0 <= offset ->
  LineIndex.offset_to_position (LineIndex.new (encode cs)) offset =
    Ret (as_u32 (fst (position_of cs offset)), as_u32 (snd (position_of cs offset))).
Proof.
  intros Hs Ha Ho. destruct (offset_row cs offset Hs Ho) as
    (rs1 & r & rs2 & E & Ht & Hle & Hlt & Hline & Hend & Hmin).
  unfold LineIndex.offset_to_position, LineIndex.normalize_offset. simpl.
  rewrite down_to_boundary_floor, Hline, (row_start cs rs1 r rs2) by done. simpl.
  rewrite (row_separator_end cs rs1 r rs2), Hend, Hmin by done.
  unfold LineIndex.utf16_column. simpl. rewrite (row_start cs rs1 r rs2) by done.
  set (f := floor_by len_utf8 (content r) (offset - blen (concat rs1))) in *.
  assert (blen (concat rs1) + blen f <= blen cs) as Hb.
  { rewrite (row_blen cs rs1 r rs2 E).
    destruct (row_content_split len_utf8 (concat rs1) r (concat rs2)
      (offset - blen (concat rs1))) as [m Em].
    apply (f_equal blen) in Em. rewrite !blen_app in Em. fold f in Em.
    pose proof (blen_nonneg m). lia. }
  pose proof (blen_nonneg f). rewrite len_encode.
  replace (blen (concat rs1) + blen f - blen (concat rs1)) with (blen f) by lia.
  unfold allocatable, isize_max in Ha.
  rewrite checked_add_Some by (unfold usize_max; lia). bcase. simpl.
  destruct (row_slice cs rs1 r rs2 len_utf8 (offset - blen (concat rs1)) Hs E) as [Hsl Hsc].
  fold f in Hsl, Hsc. rewrite Hsl. simpl.
  rewrite chars_encode by done. unfold position_of. by rewrite E, locate_split.
Qed.

Lemma index_position_to_offset cs line col :
  scalars cs -> 0 <= line -> 0 <= col ->
  LineIndex.position_to_offset (LineIndex.new (encode cs)) line col =
    Ret (exact_offset_of cs line col).
Proof.
  intros Hs Hl Hc. unfold LineIndex.position_to_offset, exact_offset_of, place_exact. simpl.
  destruct (Z.leb_spec (len (lf_line_starts (encode cs))) line) as [Hge|Hlt].
  - rewrite lf_line_starts_encode, len_row_starts in Hge by done. by rewrite zget_ge.
  - rewrite lf_line_starts_encode, len_row_starts in Hlt by done.
    destruct (row_pick (rows cs) line (rows_row_list cs)) as (rs1 & r & rs2 & E & -> & Ht); [lia|].
    rewrite (row_start cs rs1 r rs2) by done. simpl.
    rewrite (row_separator_end cs rs1 r rs2) by done.
    assert (line_content_end (encode cs) (blen (concat rs1)) (blen (concat rs1) + blen r) =
      blen (concat rs1) + blen (content r)) as ->.
    { pose proof (row_text cs rs1 r rs2 E) as Ec. rewrite Ec.
      apply line_content_end_row. by rewrite <- Ec. }
    destruct (row_slice cs rs1 r rs2 len_utf8 (blen (content r)) Hs E) as [Hsl Hsc].
    rewrite (floor_by_all len_utf8) in Hsl, Hsc by done. rewrite Hsl. simpl.
    rewrite utf16_to_byte_offset_floor, E, zget_app_len by done.
    destruct (_ =? col); simpl; [|done]. by rewrite place_split.
Qed.

(** ** The Rope variants agree with the text variants *)

Section rope.
Context {Rope : Type} `{!RopeOps Rope} (text : Rope -> list Z) `{!RopeLaws Rope text}.
Context (rope : Rope) (cs : list Z).
Hypothesis Hs : scalars cs.
Hypothesis Htext : text rope = encode cs.

Lemma rope_line_starts : lf_line_starts_rope rope = lf_line_starts (encode cs).
Proof using All.
  unfold lf_line_starts_rope. rewrite lf_line_starts_chunks_concat.
  by rewrite (rope_chunks_text (text := text)), Htext.
Qed.

Lemma rope_length : rope_len_bytes rope = len (encode cs).
Proof using All. by rewrite (rope_len_text (text := text)), Htext. Qed.

Lemma rope_byte_at i : rope_byte rope i = expect (zget (encode cs) i).
Proof using All. by rewrite (rope_byte_text (text := text)), Htext. Qed.

Lemma rope_slice_at a b : rope_byte_slice rope a b = str_index (encode cs) a b.
Proof using All. by rewrite (rope_byte_slice_text (text := text)), Htext. Qed.

Lemma rope_byte_is_at i b :
  0 <= i < len (encode cs) -> rope_byte_is rope i b = Ret (byte_is (encode cs) i b).
Proof using All.
  intros Hi. unfold rope_byte_is, byte_is. rewrite rope_byte_at.
  by destruct (zget_lt_Some (encode cs) i Hi) as [x ->].
Qed.

Lemma rope_content_end ls se :
  0 <= ls <= len (encode cs) ->
  rope_line_content_end rope ls se = Ret (line_content_end (encode cs) ls se).
Proof using All.
  intros Hl. unfold rope_line_content_end, line_content_end. rewrite rope_length.
  replace (Z.min ls (len (encode cs))) with ls by lia.
  set (e := Z.max (Z.min se (len (encode cs))) ls).
  assert (e <= len (encode cs)) as He by (unfold e; lia). clearbody e.
  destruct (Z.ltb_spec ls e) as [H1|]; simpl; [|done].
  rewrite (rope_byte_is_at (e - 1)) by lia. simpl.
  destruct (byte_is (encode cs) (e - 1) LF); simpl; [|done].
  destruct (Z.ltb_spec ls (e - 1)) as [H2|]; simpl; [|done].
  rewrite rope_byte_is_at by lia. simpl. by destruct (byte_is _ _ CR).
Qed.

Lemma continuation_boundary i b :
  0 < i < len (encode cs) -> zget (encode cs) i = Some b ->
  is_utf8_continuation b = negb (is_char_boundary (encode cs) i).
Proof using Hs.
  intros Hi Hb. unfold is_char_boundary. rewrite Hb.
  destruct (Z.eqb_spec i 0); [lia|]. destruct (Z.eqb_spec i (len (encode cs))); [lia|].
  simpl. pose proof (encode_bytes cs Hs) as Hbs. apply zget_split in Hb as (l1 & l2 & E & _).
  rewrite E in Hbs. apply Forall_app in Hbs as [_ [Hb _]%Forall_cons].
  assert (forallb (fun n => Bool.eqb (is_utf8_continuation (Z.of_nat n))
    (negb ((Z.of_nat n <? 128) || (192 <=? Z.of_nat n)))) (seq 0 256) = true) as Hall
    by (vm_compute; reflexivity).
  rewrite forallb_forall in Hall. specialize (Hall (Z.to_nat b)).
  rewrite Z2Nat.id in Hall by lia. apply eqb_prop, Hall. apply in_seq. lia.
Qed.

Lemma rope_down n :
  Z.of_nat n <= len (encode cs) ->
  rope_down_to_boundary rope n = Ret (down_to_boundary (encode cs) n).
Proof using All.
  induction n as [|n IH]; intros Hn; [done|].
  cbn [rope_down_to_boundary down_to_boundary]. rewrite rope_length.
  destruct (Z.ltb_spec (Z.of_nat (S n)) (len (encode cs))) as [Hlt|Hge].
  - rewrite rope_byte_at.
    destruct (zget_lt_Some (encode cs) (Z.of_nat (S n))) as [b Hb]; [lia|]. rewrite Hb.
    cbn [expect mbind outcome_bind].
    rewrite (continuation_boundary (Z.of_nat (S n)) b) by (done || lia).
    destruct (is_char_boundary (encode cs) (Z.of_nat (S n))); simpl; [done|]. apply IH. lia.
  - assert (Z.of_nat (S n) = len (encode cs)) as -> by lia.
    unfold is_char_boundary. rewrite Z.eqb_refl, orb_true_r. done.
Qed.

Lemma rope_offset_to_position offset :
  0 <= offset ->
  LineStartsCache.offset_to_position_rope (LineStartsCache.new_rope rope) rope offset =
    LineStartsCache.offset_to_position (LineStartsCache.new (encode cs)) (encode cs) offset.
Proof using All.
  intros Ho. unfold LineStartsCache.offset_to_position_rope, LineStartsCache.offset_to_position.
  unfold LineStartsCache.normalize_rope_offset, LineStartsCache.normalize_text_offset. simpl.
  pose proof (len_nonneg (encode cs)).
  rewrite rope_line_starts, rope_length, rope_down by lia. simpl.
  rewrite down_to_boundary_floor by done.
  destruct (offset_row cs offset Hs Ho) as (rs1 & r & rs2 & E & Ht & Hle & Hlt & -> & Hend & Hmin).
  rewrite (row_start cs rs1 r rs2) by done. simpl.
  rewrite (row_separator_end cs rs1 r rs2), rope_content_end; try done.
  - simpl. by rewrite rope_slice_at.
  - rewrite len_encode, (row_blen cs rs1 r rs2 E).
    pose proof (blen_nonneg (concat rs1)). pose proof (blen_nonneg r).
    pose proof (blen_nonneg (concat rs2)). lia.
Qed.

Lemma rope_position_to_offset line character :
  allocatable cs -> 0 <= line ->
  LineStartsCache.position_to_offset_rope (LineStartsCache.new_rope rope) rope line character =
    LineStartsCache.position_to_offset (LineStartsCache.new (encode cs)) (encode cs) line character.
Proof using All.
  intros Ha Hl. rewrite cache_position_to_offset by done.
  unfold LineStartsCache.position_to_offset_rope, offset_of. simpl.
  rewrite rope_line_starts, rope_length.
  destruct (Z.leb_spec (len (lf_line_starts (encode cs))) line) as [Hge|Hlt].
  { rewrite lf_line_starts_encode, len_row_starts in Hge by done.
    by rewrite place_beyond, concat_rows, len_encode. }
  rewrite lf_line_starts_encode, len_row_starts in Hlt by done.
  destruct (row_pick (rows cs) line (rows_row_list cs)) as (rs1 & r & rs2 & E & -> & Ht); [lia|].
  rewrite (row_start cs rs1 r rs2) by done. simpl.
  rewrite (row_separator_end cs rs1 r rs2) by done.
  pose proof (row_text cs rs1 r rs2 E) as Ec.
  pose proof (row_blen cs rs1 r rs2 E) as Eb.
  pose proof (blen_nonneg (concat rs1)). pose proof (blen_nonneg r).
  pose proof (blen_nonneg (concat rs2)). pose proof (blen_content_le r).
  pose proof (blen_nonneg (content r)).
  rewrite rope_content_end by (rewrite len_encode; lia). simpl.
  assert (line_content_end (encode cs) (blen (concat rs1)) (blen (concat rs1) + blen r) =
    blen (concat rs1) + blen (content r)) as ->.
  { rewrite Ec. apply line_content_end_row. by rewrite <- Ec. }
  destruct (row_slice cs rs1 r rs2 len_utf8 (blen (content r)) Hs E) as [Hsl Hsc].
  rewrite (floor_by_all len_utf8) in Hsl, Hsc by done.
  rewrite rope_slice_at, len_encode.
  replace (Z.max _ _) with (blen (concat rs1) + blen (content r)) by lia.
  replace (Z.min (blen (concat rs1)) (blen cs)) with (blen (concat rs1)) by lia.
  rewrite Hsl. simpl. rewrite chars_encode, utf16_walk_floor, Z.sub_0_r, E, place_split by done.
  destruct (floor_by_split len_utf16 (content r) character) as [m Em].
  apply (f_equal blen) in Em. rewrite blen_app in Em. pose proof (blen_nonneg m).
  unfold allocatable, isize_max in Ha.
  rewrite checked_add_Some by (unfold usize_max; lia). f_equal. simpl. lia.
Qed.
End rope.
