(* ===== verification/Convert.v ===== *)
(** * Scanning conversions and wire positions
      (perl-position-tracking/src/convert.rs and wire.rs)

    The table-free conversions between byte offsets and (line, UTF-16 column)
    pairs, which walk the LF-terminated pieces of the text, and the wire types
    built on them.  They implement the same specification as the indexed
    conversions of LineIndex. *)

From stdpp Require Import base numbers sets list.
From S2P Require Import Prelude Utf8 SourceRows LineIndex.

Definition line_content_end (line : list Z) : Z :=
  match strip_suffix line LF with
  | Some without_lf => len (default without_lf (strip_suffix without_lf CR))
  | None => len line
  end.

(** The loop of [text_end_utf16_line_col] over the enumerated lines. *)
Fixpoint text_end_loop (lines : list (list Z)) (idx : Z) (last : Z * Z) : outcome (Z * Z) :=
  match lines with
  | [] => mret last
  | line :: lines =>
    s ← str_index line 0 (line_content_end line);
    text_end_loop lines (idx + 1) (as_u32 idx, as_u32 (u16len (chars s)))
  end.

Definition text_end_utf16_line_col (text : list Z) : outcome (Z * Z) :=
  if len text =? 0 then mret (0, 0)
  else match strip_suffix text LF with
  | Some _ => mret (as_u32 (len (split_inclusive text)), 0)
  | None => text_end_loop (split_inclusive text) 0 (0, 0)
  end.

(** The column of the relative offset [rel] of one line. *)
Definition line_column (line : list Z) (rel : Z) : outcome Z :=
  if rel =? 0 then mret 0
  else
    let content_end := line_content_end line in
    if content_end <=? rel then
      s ← str_index line 0 content_end; mret (as_u32 (u16len (chars s)))
    else if is_char_boundary line rel then
      s ← str_index line 0 rel; mret (as_u32 (u16len (chars s)))
    else
      s ← str_index line 0 (down_to_boundary line (Z.to_nat rel));
      mret (as_u32 (u16len (chars s))).

Fixpoint offset_loop (lines : list (list Z)) (line_idx acc offset : Z) : outcome (option (Z * Z)) :=
  match lines with
  | [] => mret None
  | line :: lines =>
    let next := acc + len line in
    if offset <? next then
      c ← line_column line (offset - acc);
      mret (Some (as_u32 line_idx, c))
    else offset_loop lines (line_idx + 1) next offset
  end.

Definition offset_to_utf16_line_col (text : list Z) (offset : Z) : outcome (Z * Z) :=
  if len text <=? offset then text_end_utf16_line_col text
  else
    r ← offset_loop (split_inclusive text) 0 0 offset;
    match r with Some p => mret p | None => text_end_utf16_line_col text end.

(** The loop over the characters of a line's content; [None] when it ends
    without a [return]. *)
Fixpoint column_loop (cis : list (Z * Z)) (up col : Z) : option Z :=
  match cis with
  | [] => None
  | (bi, ch) :: cis =>
    if up =? col then Some bi
    else if (up <? col) && (col <? as_u32 (up + len_utf16 ch)) then Some bi
    else
      let up := as_u32 (up + len_utf16 ch) in
      if col <? up then Some bi else column_loop cis up col
  end.

Fixpoint line_loop (lines : list (list Z)) (curr offset line col text_len : Z) : outcome Z :=
  match lines with
  | [] => mret text_len
  | lt :: lines =>
    if as_u32 curr =? line then
      if col =? 0 then mret offset
      else
        let line_end := line_content_end lt in
        line_content ← str_index lt 0 line_end;
        match column_loop (char_indices line_content) 0 col with
        | Some bi => mret (offset + bi)
        | None => mret (offset + Z.min line_end (saturating_sub text_len offset))
        end
    else line_loop lines (curr + 1) (offset + len lt) line col text_len
  end.

Definition utf16_line_col_to_offset (text : list Z) (line col : Z) : outcome Z :=
  line_loop (split_inclusive text) 0 0 line col (len text).

(** ** Wire types *)

Module Wire.

Record WirePosition := mkPosition { line : Z; character : Z }.
Record WireRange := mkRange { start : WirePosition; end_ : WirePosition }.

Definition from_byte_offset (source : list Z) (byte_offset : Z) : outcome WirePosition :=
  p ← offset_to_utf16_line_col source byte_offset;
  mret (mkPosition (fst p) (snd p)).

Definition to_byte_offset (self : WirePosition) (source : list Z) : outcome Z :=
  utf16_line_col_to_offset source (line self) (character self).

Definition from_byte_offsets (source : list Z) (start_byte end_byte : Z) : outcome WireRange :=
  s ← from_byte_offset source start_byte;
  e ← from_byte_offset source end_byte;
  mret (mkRange s e).

Definition empty (pos : WirePosition) : WireRange := mkRange pos pos.

Definition whole_document (source : list Z) : outcome WireRange :=
  e ← from_byte_offset source (len source);
  mret (mkRange (mkPosition 0 0) e).

End Wire.

(** ** The lines of the scan are the rows of the specification *)

(** The scan is exact for texts whose length fits in a [u32]. *)
Definition u32_sized (cs : list Z) : Prop := blen cs <= u32_max.

Lemma rows_split_inclusive cs :
  rows cs = split_inclusive cs ++
    (if bool_decide (cs = []) || bool_decide (last cs = Some LF) then [[]] else []).
Proof.
  induction cs as [|c cs IH]; [done|]. cbn [rows split_inclusive]. rewrite IH. clear IH.
  destruct (Z.eqb_spec c LF) as [->|Hne].
  - destruct cs as [|d cs]; [done|]. simpl. done.
  - destruct cs as [|d cs].
    + simpl. rewrite bool_decide_eq_false_2 by congruence. done.
    + simpl (bool_decide (_ :: _ :: _ = [])). simpl (last (_ :: _)).
      destruct (split_inclusive (d :: cs)) as [|r rs] eqn:E; [|done].
      pose proof (concat_split_inclusive (d :: cs)) as Hc. by rewrite E in Hc.
Qed.

Lemma line_content_end_encode r :
  scalars r -> line_content_end (encode r) = blen (content r).
Proof.
  intros Hs. unfold line_content_end, content.
  rewrite strip_suffix_encode by (unfold LF; done || lia).
  destruct (strip_suffix r LF) as [w|] eqn:E; simpl; [|apply len_encode].
  assert (scalars w) as Hw.
  { destruct r as [|x r _] using rev_ind; [done|].
    destruct (Z.eq_dec x LF) as [->|]; [|by rewrite strip_suffix_snoc_ne in E].
    rewrite strip_suffix_snoc in E. simplify_eq. by apply scalars_app in Hs as [? _]. }
  rewrite strip_suffix_encode by (unfold CR; done || lia).
  destruct (strip_suffix w CR); simpl; apply len_encode.
Qed.

Lemma content_scalars r : scalars r -> scalars (content r).
Proof.
  intros Hs. destruct (content_prefix r) as [t E]. rewrite E in Hs. by apply scalars_app in Hs as [? _].
Qed.

(** A floored prefix of a row's content is a slice of the row. *)
Lemma row_prefix_slice r k :
  scalars r ->
  str_index (encode r) 0 (blen (floor_by len_utf8 (content r) k)) =
    Ret (encode (floor_by len_utf8 (content r) k)) /\
  scalars (floor_by len_utf8 (content r) k).
Proof.
  intros Hs. destruct (row_content_split len_utf8 [] r [] k) as [m E].
  rewrite !app_nil_l, app_nil_r in E.
  rewrite E in Hs. split; [|by apply scalars_app in Hs as [? _]].
  rewrite E at 1. apply (str_index_mid [] _ m). by simpl.
Qed.

Lemma line_column_encode r rel :
  scalars r -> 0 <= rel -> u32_sized r ->
  line_column (encode r) rel = Ret (u16len (floor_by len_utf8 (content r) rel)).
Proof.
  intros Hs Hrel Hu. unfold line_column. rewrite line_content_end_encode by done.
  assert (forall k, as_u32 (u16len (floor_by len_utf8 (content r) k)) =
    u16len (floor_by len_utf8 (content r) k)) as Hcast.
  { intros k. apply as_u32_small. split; [apply u16len_nonneg|].
    pose proof (u16len_le_blen (floor_by len_utf8 (content r) k)).
    destruct (floor_by_split len_utf8 (content r) k) as [m E].
    apply (f_equal blen) in E. rewrite blen_app in E. pose proof (blen_nonneg m).
    pose proof (blen_content_le r). unfold u32_sized in Hu. lia. }
  assert (forall k, (s ← str_index (encode r) 0 (blen (floor_by len_utf8 (content r) k));
      mret (as_u32 (u16len (chars s)))) = Ret (u16len (floor_by len_utf8 (content r) k))) as Hk.
  { intros k. destruct (row_prefix_slice r k Hs) as [-> Hsc]. simpl. by rewrite chars_encode, Hcast. }
  destruct (Z.eqb_spec rel 0) as [->|Hne].
  { by rewrite (floor_by_neg len_utf8). }
  destruct (Z.leb_spec (blen (content r)) rel) as [Hge|Hlt].
  { rewrite <- Hk. by rewrite (floor_by_all len_utf8). }
  assert (floor_by len_utf8 r rel = floor_by len_utf8 (content r) rel) as Ef.
  { destruct (content_prefix r) as [t E]. rewrite E at 1. by apply (floor_by_app_l len_utf8). }
  rewrite <- Hk. pose proof (blen_content_le r).
  pose proof (down_to_boundary_floor r rel Hs Hrel) as Hd.
  rewrite len_encode, Z.min_l, Ef in Hd by lia.
  destruct (is_char_boundary (encode r) rel) eqn:Hb; [|by rewrite Hd].
  apply boundary_inv in Hb as (c1 & c2 & -> & ->); [|done].
  by rewrite <- Ef, (floor_by_prefix len_utf8).
Qed.

Lemma locate_drop_last rs o :
  o < blen (concat rs) -> locate (rs ++ [[]]) o = locate rs o.
Proof.
  revert o. induction rs as [|r rs IH]; intros o Ho; simpl in *.
  { by destruct (decide (o < 0)); bcase. }
  rewrite blen_app in Ho. rewrite bool_decide_eq_false_2 by (by destruct rs). simpl.
  destruct (Z.ltb_spec o (blen r)); simpl; [by rewrite orb_true_r|].
  rewrite (bool_decide_eq_false_2 (rs = [])) by (intros ->; simpl in Ho; lia).
  rewrite IH by lia. done.
Qed.

Lemma offset_loop_encode ls idx acc offset :
  Forall scalars ls -> acc <= offset < acc + blen (concat ls) -> u32_sized (concat ls) ->
  0 <= idx -> idx + blen (concat ls) <= u32_max -> Forall (fun r => r <> []) ls ->
  offset_loop (encode <$> ls) idx acc offset =
    Ret (Some (idx + fst (locate ls (offset - acc)), snd (locate ls (offset - acc)))).
Proof.
  intros Hs. revert idx acc. induction Hs as [|r ls Hr Hs IH]; intros idx acc Ho Hu Hi Hm Hne;
    simpl in Ho; [lia|].
  apply Forall_cons in Hne as [Hr0 Hne]. simpl in Hm. unfold u32_sized in Hu. simpl in Hu.
  rewrite blen_app in *. pose proof (blen_nonneg r). pose proof (blen_nonneg (concat ls)).
  assert (1 <= blen r) by (destruct r as [|x r']; [done|]; simpl;
    pose proof (len_utf8_pos x); pose proof (blen_nonneg r'); lia).
  rewrite fmap_cons. cbn [offset_loop locate]. rewrite len_encode.
  destruct (Z.ltb_spec offset (acc + blen r)).
  - rewrite line_column_encode by (done || lia || unfold u32_sized; lia). simpl.
    rewrite as_u32_small by (unfold u32_max in *; lia).
    rewrite (proj2 (Z.ltb_lt _ _)) by lia. rewrite orb_true_r. simpl. by rewrite Z.add_0_r.
  - rewrite IH by (try done; unfold u32_sized; lia).
    rewrite bool_decide_eq_false_2 by (intros ->; simpl in *; lia).
    rewrite (proj2 (Z.ltb_ge _ _)) by lia. simpl.
    replace (offset - acc - blen r) with (offset - (acc + blen r)) by lia.
    destruct (locate ls (offset - (acc + blen r))). simpl. do 3 f_equal. lia.
Qed.

Lemma split_inclusive_nonempty cs : Forall (fun r => r <> []) (split_inclusive cs).
Proof.
  induction cs as [|c cs IH]; [constructor|]. cbn [split_inclusive].
  destruct (c =? LF); [by constructor|].
  destruct (split_inclusive cs) as [|r rs]; [by repeat constructor|].
  apply Forall_cons in IH as [_ IH]. by constructor.
Qed.

Lemma concat_scalars ls : scalars (concat ls) -> Forall scalars ls.
Proof.
  induction ls as [|r ls IH]; [constructor|]. simpl. intros [Hr Hs]%scalars_app.
  constructor; auto.
Qed.

Lemma len_le_blen_concat ls : Forall (fun r => r <> []) ls -> len ls <= blen (concat ls).
Proof.
  induction 1 as [|r ls Hr _ IH]; [done|]. simpl. rewrite len_cons, blen_app.
  destruct r as [|x r]; [done|]. simpl. pose proof (len_utf8_pos x). pose proof (blen_nonneg r). lia.
Qed.

(** The position of an offset at or past the end of the text: the last row. *)
Lemma locate_past rs r o :
  Forall terminated rs -> blen (concat rs) + blen r <= o ->
  locate (rs ++ [r]) o = (len rs, u16len (content r)).
Proof.
  intros Ht Ho. pose proof (blen_nonneg r). pose proof (blen_content_le r).
  rewrite locate_split by (auto; lia). by rewrite (floor_by_all len_utf8) by lia.
Qed.

Lemma text_end_loop_encode ls r idx last :
  Forall scalars (ls ++ [r]) ->
  text_end_loop (encode <$> (ls ++ [r])) idx last =
    Ret (as_u32 (idx + len ls), as_u32 (u16len (content r))).
Proof.
  revert idx last. induction ls as [|r' ls IH]; intros idx last Hs; simpl.
  - apply Forall_cons in Hs as [Hs _]. rewrite line_content_end_encode by done.
    destruct (row_prefix_slice r (blen (content r)) Hs) as [Hsl Hsc].
    rewrite (floor_by_all len_utf8) in Hsl, Hsc by done. rewrite Hsl. simpl.
    by rewrite chars_encode, Z.add_0_r.
  - apply Forall_cons in Hs as [Hs' Hs]. rewrite line_content_end_encode by done.
    destruct (row_prefix_slice r' (blen (content r')) Hs') as [Hsl Hsc].
    rewrite (floor_by_all len_utf8) in Hsl by done. rewrite Hsl. simpl.
    rewrite IH by done. rewrite len_cons. do 3 f_equal. lia.
Qed.

Lemma strip_suffix_LF_last cs :
  strip_suffix cs LF = None <-> last cs <> Some LF.
Proof.
  destruct cs as [|x cs _] using rev_ind; [done|]. rewrite last_snoc.
  destruct (Z.eq_dec x LF) as [->|]; [by rewrite strip_suffix_snoc|].
  rewrite strip_suffix_snoc_ne by done. split; congruence.
Qed.

Lemma text_end_encode cs offset :
  scalars cs -> u32_sized cs -> blen cs <= offset ->
  text_end_utf16_line_col (encode cs) = Ret (position_of cs offset).
Proof.
  intros Hs Hu Ho. unfold text_end_utf16_line_col, position_of.
  rewrite len_encode, strip_suffix_encode by (unfold LF; done || lia).
  pose proof (rows_row_list cs) as Hrl. pose proof (concat_rows cs) as Hc.
  destruct (row_split (rows cs) offset Hrl) as (rs1 & r & rs2 & E & Ht & Hle & Hlt & Hr);
    [pose proof (blen_nonneg cs); lia|].
  assert (rs2 = []) as ->.
  { destruct Hlt as [|Hlt]; [done|]. exfalso.
    pose proof (row_blen cs rs1 r rs2 E). pose proof (blen_nonneg (concat rs2)). lia. }
  pose proof (row_blen cs rs1 r [] E) as Hb. simpl in Hb.
  assert (content r = r) as Hcr.
  { destruct Hr as [[_ ?]|[? _]]; [done|by apply content_unterminated]. }
  rewrite E, locate_past by (done || lia). rewrite Hcr.
  pose proof (rows_split_inclusive cs) as Hsp. rewrite E in Hsp.
  destruct (Z.eqb_spec (blen cs) 0) as [H0|H0].
  { apply blen_zero_nil in H0 as ->. simpl in Hsp. destruct rs1; simplify_eq/=; [done|by destruct rs1]. }
  rewrite (bool_decide_eq_false_2 (cs = [])) in Hsp by (intros ->; done). simpl in Hsp.
  pose proof (len_le_blen_concat _ (split_inclusive_nonempty cs)) as Hn.
  rewrite concat_split_inclusive in Hn. unfold u32_sized in Hu.
  destruct (strip_suffix cs LF) as [w|] eqn:Esuf; simpl.
  - assert (last cs = Some LF) as Hl.
    { destruct (decide (last cs = Some LF)) as [?|Hn']; [done|].
      apply strip_suffix_LF_last in Hn'. congruence. }
    rewrite bool_decide_eq_true_2 in Hsp by done. apply app_inj_tail in Hsp as [-> ->].
    rewrite split_inclusive_encode, len_map by done. simpl.
    rewrite as_u32_small; [done|]. pose proof (len_nonneg (split_inclusive cs)). lia.
  - apply strip_suffix_LF_last in Esuf. rewrite bool_decide_eq_false_2 in Hsp by done.
    rewrite app_nil_r in Hsp. rewrite split_inclusive_encode, <- Hsp by done.
    rewrite text_end_loop_encode.
    + rewrite Hcr, Z.add_0_l. rewrite <- Hsp, len_app, len_cons, len_nil in Hn.
      rewrite !as_u32_small; [done| |].
      * pose proof (u16len_nonneg r). pose proof (u16len_le_blen r).
        pose proof (blen_nonneg (concat rs1)). lia.
      * pose proof (len_nonneg rs1). lia.
    + apply concat_scalars. by rewrite <- E, Hc.
Qed.

Lemma convert_offset_to_position cs offset :
  scalars cs -> u32_sized cs -> 0 <= offset ->
  offset_to_utf16_line_col (encode cs) offset = Ret (position_of cs offset).
Proof.
  intros Hs Hu Ho. unfold offset_to_utf16_line_col. rewrite len_encode.
  destruct (Z.leb_spec (blen cs) offset); [by apply text_end_encode|].
  rewrite split_inclusive_encode by done.
  pose proof (concat_split_inclusive cs) as Hc.
  pose proof (split_inclusive_nonempty cs) as Hne.
  unfold u32_sized in Hu.
  rewrite offset_loop_encode; rewrite ?Hc; try done; try lia.
  2: { apply concat_scalars. by rewrite Hc. }
  simpl. rewrite Z.sub_0_r. unfold position_of. rewrite rows_split_inclusive.
  destruct (bool_decide (cs = []) || bool_decide (last cs = Some LF)).
  - rewrite locate_drop_last by (by rewrite Hc). by destruct (locate _ _) as [[|?|?] ?].
  - rewrite app_nil_r. by destruct (locate _ _) as [[|?|?] ?].
Qed.

(** The column walk stops at the longest prefix that fits. *)
Lemma column_loop_floor cs bo up col total :
  0 <= up <= col -> up + u16len cs <= u32_max -> total = bo + blen cs ->
  default total (column_loop (char_indices_from bo cs) up col) =
    bo + blen (floor_by len_utf16 cs (col - up)).
Proof.
  revert bo up. induction cs as [|c cs IH]; intros bo up Hup Hm ->; [simpl; lia|].
  cbn [char_indices_from column_loop floor_by wlen] in *.
  pose proof (len_utf16_pos c). pose proof (u16len_nonneg cs).
  rewrite as_u32_small by lia.
  destruct (Z.eqb_spec up col) as [->|].
  { rewrite (proj2 (Z.leb_gt _ _)) by lia. simpl. lia. }
  destruct (Z.ltb_spec up col); [|lia]. simpl.
  destruct (Z.ltb_spec col (up + len_utf16 c)).
  { rewrite (proj2 (Z.leb_gt _ _)) by lia. simpl. lia. }
  rewrite (proj2 (Z.leb_le _ _)) by lia. cbn [wlen].
  rewrite IH by lia. replace (col - (up + len_utf16 c)) with (col - up - len_utf16 c) by lia. lia.
Qed.

Lemma place_drop_last rs line col :
  0 <= line -> 0 <= col -> place (rs ++ [[]]) line col = place rs line col.
Proof.
  revert line. induction rs as [|r rs IH]; intros line Hl Hc; simpl.
  - by destruct (line =? 0).
  - destruct (Z.eqb_spec line 0); [done|]. by rewrite IH by lia.
Qed.

Lemma line_loop_encode ls curr offset line col total :
  Forall scalars ls -> 0 <= curr <= line -> line <= u32_max -> 0 <= col ->
  offset + blen (concat ls) = total -> 0 <= offset -> total <= u32_max ->
  curr + len ls <= u32_max + 1 ->
  line_loop (encode <$> ls) curr offset line col total =
    Ret (offset + place ls (line - curr) col).
Proof.
  intros Hs. revert curr offset.
  induction Hs as [|r ls Hr Hs IH]; intros curr offset Hcur Hl Hc Ht Ho Hm Hn; simpl in *.
  - f_equal. lia.
  - rewrite len_cons in Hn. pose proof (len_nonneg ls). rewrite blen_app in Ht.
    pose proof (blen_nonneg r). pose proof (blen_nonneg (concat ls)).
    pose proof (blen_content_le r). pose proof (u16len_le_blen (content r)).
    rewrite as_u32_small by lia. rewrite len_encode.
    destruct (Z.eqb_spec curr line) as [->|].
    + rewrite Z.sub_diag. simpl. destruct (Z.eqb_spec col 0) as [->|].
      { by rewrite (floor_by_neg len_utf16), Z.add_0_r by lia. }
      rewrite line_content_end_encode by done.
      destruct (row_prefix_slice r (blen (content r)) Hr) as [Hsl Hsc].
      rewrite (floor_by_all len_utf8) in Hsl, Hsc by done. rewrite Hsl. simpl.
      unfold char_indices. rewrite chars_encode by done.
      assert (Z.min (blen (content r)) (saturating_sub total offset) = blen (content r)) as ->
        by (unfold saturating_sub; lia).
      pose proof (column_loop_floor (content r) 0 0 col (blen (content r))) as Hf.
      rewrite Z.sub_0_r, !Z.add_0_l in Hf. rewrite <- Hf by lia.
      by destruct (column_loop _ _ _).
    + rewrite IH by lia. rewrite (proj2 (Z.eqb_neq _ _)) by lia.
      replace (line - (curr + 1)) with (line - curr - 1) by lia. f_equal. lia.
Qed.

Lemma convert_position_to_offset cs line col :
  scalars cs -> u32_sized cs -> 0 <= line <= u32_max -> 0 <= col ->
  utf16_line_col_to_offset (encode cs) line col = Ret (offset_of cs line col).
Proof.
  intros Hs Hu Hl Hc. unfold utf16_line_col_to_offset, offset_of.
  rewrite split_inclusive_encode, len_encode by done.
  pose proof (concat_split_inclusive cs) as Hcc.
  pose proof (len_le_blen_concat _ (split_inclusive_nonempty cs)) as Hn. rewrite Hcc in Hn.
  unfold u32_sized in Hu.
  rewrite line_loop_encode; rewrite ?Hcc; try done; try lia.
  2: { apply concat_scalars. by rewrite Hcc. }
  rewrite Z.sub_0_r, Z.add_0_l. rewrite rows_split_inclusive.
  destruct (_ || _); [by rewrite place_drop_last by lia|by rewrite app_nil_r].
Qed.
