(* ===== verification/ByteLineIndex.v ===== *)
(** * Byte-column line index (perl-line-index/src/lib.rs)

    The separate crate that maps byte offsets to (line, byte column) pairs
    and back.  Its byte columns round-trip at every offset, and its UTF-16
    entry point is proved equal to the strict conversion of LineIndex. *)

From stdpp Require Import base numbers sets list.
From S2P Require Import Prelude Utf8 SourceRows LineIndex.

Module ByteLineIndex.

Record t := mk { line_starts : list Z; text_len : Z }.

Fixpoint new_loop (cis : list (Z * Z)) : list Z :=
  match cis with
  | [] => []
  | (idx, ch) :: cis => if ch =? LF then (idx + 1) :: new_loop cis else new_loop cis
  end.
Definition new (text : list Z) : t := mk (0 :: new_loop (char_indices text)) (len text).

Definition byte_to_position (self : t) (byte : Z) : outcome (Z * Z) :=
  let byte := Z.min byte (text_len self) in
  let line := line_of (line_starts self) byte in
  let line := Z.min line (saturating_sub (len (line_starts self)) 1) in
  ls ← expect (zget (line_starts self) line);
  mret (line, byte - ls).

(** [position_to_byte]; [position_to_byte_checked] has the same body. *)
Definition position_to_byte (self : t) (line column : Z) : option Z :=
  start ← zget (line_starts self) line;
  let line_end :=
    match zget (line_starts self) (line + 1) with
    | None => text_len self
    | Some next_start => saturating_sub next_start 1
    end in
  let max_column := saturating_sub line_end start in
  if max_column <? column then None else Some (start + column).

Definition position_to_byte_checked (self : t) (line column : Z) : option Z :=
  start ← zget (line_starts self) line;
  let line_end :=
    match zget (line_starts self) (line + 1) with
    | None => text_len self
    | Some next_start => saturating_sub next_start 1
    end in
  let max_column := saturating_sub line_end start in
  if max_column <? column then None else Some (start + column).

(** The walk of [position_to_byte_utf16]: [inl] is a [return]. *)
Fixpoint utf16_loop (cis : list (Z * Z)) (line_start column utf16_units : Z) : option Z + Z :=
  match cis with
  | [] => inr utf16_units
  | (byte_offset, ch) :: cis =>
    if utf16_units =? column then inl (Some (line_start + byte_offset))
    else if column <? utf16_units + len_utf16 ch then inl None
    else utf16_loop cis line_start column (utf16_units + len_utf16 ch)
  end.

(** [text.as_bytes().get(a..b)] *)
Definition bytes_get (bs : list Z) (a b : Z) : option (list Z) :=
  if (a <=? b) && (b <=? len bs) then Some (zslice bs a b) else None.

Definition position_to_byte_utf16 (self : t) (text : list Z) (line column : Z) : option Z :=
  line_start ← zget (line_starts self) line;
  let line_end :=
    match zget (line_starts self) (line + 1) with
    | None => text_len self
    | Some next_start =>
      let terminator_len :=
        if (2 <=? next_start) && bool_decide (bytes_get text (next_start - 2) next_start = Some [CR; LF])
        then 2 else 1 in
      saturating_sub next_start terminator_len
    end in
  line_text ← str_get text line_start line_end;
  match utf16_loop (char_indices line_text) line_start column 0 with
  | inl r => r
  | inr utf16_units =>
    if utf16_units =? column then Some (line_start + len line_text) else None
  end.

End ByteLineIndex.

(** ** Its table is the table of LineIndex *)

Lemma new_loop_from cs o :
  scalars cs ->
  ByteLineIndex.new_loop (char_indices_from o cs) = lf_line_starts_from o (encode cs).
Proof.
  intros H. revert o. induction H as [|c cs Hc _ IH]; intros o; [done|].
  cbn [char_indices_from ByteLineIndex.new_loop encode].
  rewrite lf_line_starts_from_app, len_encode_char, <- IH.
  destruct (Z.eqb_spec c LF) as [->|Hne]; [done|].
  by rewrite lf_line_starts_from_none by (by apply LF_encode_char).
Qed.

Lemma byte_index_new cs :
  scalars cs ->
  ByteLineIndex.new (encode cs) = ByteLineIndex.mk (lf_line_starts (encode cs)) (blen cs).
Proof.
  intros Hs. unfold ByteLineIndex.new, char_indices.
  by rewrite chars_encode, new_loop_from, len_encode.
Qed.

(** ** One row of the index *)

(** The row after the rows [rs1]: its start, and the last addressable byte. *)
Lemma byte_row cs rs1 r rs2 :
  scalars cs -> rows cs = rs1 ++ r :: rs2 ->
  zget (lf_line_starts (encode cs)) (len rs1) = Some (blen (concat rs1)) /\
  zget (lf_line_starts (encode cs)) (len rs1 + 1) =
    if bool_decide (rs2 = []) then None else Some (blen (concat rs1) + blen r).
Proof.
  intros Hs E. split; [by apply (row_start cs rs1 r rs2)|].
  rewrite lf_line_starts_encode, E, row_starts_app by done.
  rewrite zget_app_r by (rewrite len_row_starts; lia). rewrite len_row_starts.
  replace (len rs1 + 1 - len rs1) with 1 by lia. simpl. rewrite zget_cons_S by lia.
  by destruct rs2.
Qed.

Lemma byte_index_roundtrip cs byte :
  scalars cs -> 0 <= byte <= blen cs ->
  exists line column,
    ByteLineIndex.byte_to_position (ByteLineIndex.new (encode cs)) byte = Ret (line, column) /\
    0 <= line < len (rows cs) /\ 0 <= column /\
    ByteLineIndex.position_to_byte (ByteLineIndex.new (encode cs)) line column = Some byte.
Proof.
  intros Hs Hb. rewrite byte_index_new by done.
  destruct (row_split (rows cs) byte (rows_row_list cs)) as
    (rs1 & r & rs2 & E & Ht & Hle & Hlt & Hr); [lia|].
  pose proof (row_blen cs rs1 r rs2 E) as Hbl. pose proof (blen_nonneg (concat rs1)).
  pose proof (len_nonneg rs1). pose proof (len_nonneg rs2).
  exists (len rs1), (byte - blen (concat rs1)).
  unfold ByteLineIndex.byte_to_position, ByteLineIndex.position_to_byte. simpl.
  rewrite (Z.min_l byte) by lia.
  rewrite (row_line_of cs rs1 r rs2), (row_count cs rs1 r rs2) by done.
  unfold saturating_sub. rewrite Z.min_l by lia.
  destruct (byte_row cs rs1 r rs2 Hs E) as [Es En]. rewrite Es, En. simpl.
  rewrite E, len_app, len_cons.
  split; [done|]. split; [lia|]. split; [lia|].
  destruct Hr as [[Htr Hne]|[Hnl ->]].
  - rewrite bool_decide_eq_false_2 by done. pose proof (terminated_pos r Htr).
    destruct Hlt; [done|]. rewrite (proj2 (Z.ltb_ge _ _)) by lia. f_equal. lia.
  - rewrite bool_decide_eq_true_2 by done. simpl in Hbl.
    rewrite (proj2 (Z.ltb_ge _ _)) by lia. f_equal. lia.
Qed.

Lemma utf16_loop_shift cis ls col u :
  match ByteLineIndex.utf16_loop cis ls col u with
  | inl r => r | inr _ => None end =
  match LineIndex.utf16_to_byte_offset_loop cis col u with
  | inl r => b ← r; Some (ls + b) | inr _ => None end /\
  (forall v, ByteLineIndex.utf16_loop cis ls col u = inr v <->
    LineIndex.utf16_to_byte_offset_loop cis col u = inr v).
Proof.
  revert u. induction cis as [|[bo ch] cis IH]; intros u; simpl; [done|].
  destruct (u =? col); simpl; [by split|].
  destruct (col <? u + len_utf16 ch); simpl; [by split|]. apply IH.
Qed.

Lemma zslice_pair (l1 : list Z) a b l2 : zslice (l1 ++ a :: b :: l2) (len l1) (len l1 + 2) = [a; b].
Proof.
  exact (zslice_mid l1 [a; b] l2).
Qed.

Lemma encode_char_last y :
  is_scalar y = true -> exists t b, encode_char y = t ++ [b] /\ (b = CR <-> y = CR).
Proof.
  intros Hy. destruct (Z_lt_le_dec y 128).
  - exists [], y. by rewrite encode_char_ascii.
  - pose proof (encode_char_high y Hy l) as Hh.
    destruct (encode_char_shape y Hy) as (b0 & t0 & E & _). rewrite E in Hh |- *.
    destruct (exists_last (l := b0 :: t0)) as (t & b & E'); [done|].
    rewrite E' in Hh |- *. apply Forall_app in Hh as [_ [Hb _]%Forall_cons].
    exists t, b. split; [done|]. unfold CR. lia.
Qed.

(** The two bytes before a row start are CRLF exactly when the character
    before the LF is a CR. *)
Lemma crlf_check p k :
  scalars p ->
  (2 <=? blen p + 1) && bool_decide
    (ByteLineIndex.bytes_get (encode (p ++ LF :: k)) (blen p + 1 - 2) (blen p + 1) = Some [CR; LF])
  = bool_decide (last p = Some CR).
Proof.
  intros Hs. destruct p as [|y p _] using rev_ind; [done|].
  apply scalars_app in Hs as [Hs [Hy _]%Forall_cons]. rewrite last_snoc.
  destruct (encode_char_last y Hy) as (t & b & Et & Hb).
  assert (blen (p ++ [y]) = blen p + len t + 1) as El.
  { rewrite blen_app. simpl. rewrite <- len_encode_char, Et, len_app, len_cons, len_nil. lia. }
  assert (encode ((p ++ [y]) ++ LF :: k) = (encode p ++ t) ++ b :: LF :: encode k) as Ec.
  { rewrite <- app_assoc, encode_app. simpl. rewrite Et. by rewrite <- !app_assoc. }
  pose proof (blen_nonneg p). pose proof (len_nonneg t). pose proof (len_nonneg (encode k)).
  rewrite Ec. unfold ByteLineIndex.bytes_get. rewrite El.
  rewrite (proj2 (Z.leb_le 2 _)) by lia. rewrite (proj2 (Z.leb_le (_ - 2) _)) by lia.
  rewrite (proj2 (Z.leb_le _ (len _))) by (rewrite len_app, !len_cons, len_app, len_encode; lia).
  simpl. replace (blen p + len t + 1 + 1 - 2) with (len (encode p ++ t))
    by (rewrite len_app, len_encode; lia).
  replace (blen p + len t + 1 + 1) with (len (encode p ++ t) + 2)
    by (rewrite len_app, len_encode; lia).
  rewrite zslice_pair. apply bool_decide_ext. split; intros H'; simplify_eq.
  - f_equal. by apply Hb.
  - by rewrite (proj2 Hb).
Qed.

Lemma last_concat_terminated rs :
  Forall terminated rs -> last (concat rs) = None \/ last (concat rs) = Some LF.
Proof.
  destruct rs as [|r rs _] using rev_ind; [by left|].
  intros [_ [(w & -> & _) _]%Forall_cons]%Forall_app. right.
  rewrite concat_app. simpl. by rewrite app_nil_r, app_assoc, last_snoc.
Qed.

(** The end of the content as this crate computes it. *)
Lemma byte_content_end cs rs1 r rs2 :
  scalars cs -> rows cs = rs1 ++ r :: rs2 -> Forall terminated rs1 ->
  (terminated r /\ rs2 <> [] \/ LF ∉ r /\ rs2 = []) ->
  match zget (lf_line_starts (encode cs)) (len rs1 + 1) with
  | None => blen cs
  | Some next_start =>
    saturating_sub next_start
      (if (2 <=? next_start) &&
          bool_decide (ByteLineIndex.bytes_get (encode cs) (next_start - 2) next_start = Some [CR; LF])
       then 2 else 1)
  end = blen (concat rs1) + blen (content r).
Proof.
  intros Hs E Ht Hr. destruct (byte_row cs rs1 r rs2 Hs E) as [_ ->].
  pose proof (row_text cs rs1 r rs2 E) as Ec. pose proof (blen_nonneg (concat rs1)).
  pose proof (row_blen cs rs1 r rs2 E) as Eb.
  destruct Hr as [[(w & -> & Hw) Hne]|[Hnl ->]].
  2: { rewrite bool_decide_eq_true_2, content_unterminated by done. simpl in Eb. lia. }
  rewrite bool_decide_eq_false_2 by done.
  assert (cs = (concat rs1 ++ w) ++ LF :: concat rs2) as Ec'.
  { rewrite Ec at 1. by rewrite <- !app_assoc. }
  assert (blen (concat rs1) + blen (w ++ [LF]) = blen (concat rs1 ++ w) + 1) as ->.
  { rewrite !blen_app. simpl. change (len_utf8 LF) with 1. lia. }
  clear Ec. subst cs. rewrite crlf_check.
  2: { by apply scalars_app in Hs as [? _]. }
  rewrite blen_app. unfold content. rewrite strip_suffix_snoc.
  pose proof (blen_nonneg w). unfold saturating_sub.
  destruct w as [|y w _] using rev_ind.
  - rewrite app_nil_r. destruct (last_concat_terminated rs1 Ht) as [->| ->];
      (rewrite bool_decide_eq_false_2 by done); simpl; lia.
  - rewrite app_assoc, last_snoc. destruct (Z.eq_dec y CR) as [->|].
    + rewrite bool_decide_eq_true_2, strip_suffix_snoc by done. simpl. rewrite blen_app in *.
      simpl in *. change (len_utf8 CR) with 1 in *. pose proof (blen_nonneg w). lia.
    + rewrite bool_decide_eq_false_2, strip_suffix_snoc_ne by congruence. simpl. lia.
Qed.

Lemma byte_index_utf16 cs line col :
  scalars cs -> 0 <= line -> 0 <= col ->
  ByteLineIndex.position_to_byte_utf16 (ByteLineIndex.new (encode cs)) (encode cs) line col =
    exact_offset_of cs line col.
Proof.
  intros Hs Hl Hc. rewrite byte_index_new by done.
  unfold ByteLineIndex.position_to_byte_utf16, exact_offset_of, place_exact.
  cbn [ByteLineIndex.line_starts ByteLineIndex.text_len].
  destruct (Z_le_gt_dec (len (rows cs)) line) as [Hge|Hlt].
  { rewrite (zget_ge (rows cs)) by done.
    rewrite (zget_ge (lf_line_starts _) line); [done|]. by rewrite lf_line_starts_encode, len_row_starts. }
  destruct (row_pick (rows cs) line (rows_row_list cs)) as (rs1 & r & rs2 & E & -> & Ht); [lia|].
  destruct (byte_row cs rs1 r rs2 Hs E) as [Es _]. rewrite Es. cbn [mbind option_bind].
  assert (terminated r /\ rs2 <> [] \/ LF ∉ r /\ rs2 = []) as Hr.
  { pose proof (rows_row_list cs) as Hrl. rewrite E in Hrl. clear -Hrl.
    induction rs1 as [|r1 rs1 IH]; simpl in Hrl.
    - inversion Hrl as [|? ? ? Hrl']; subst; [by right|left].
      split; [done|by destruct Hrl'].
    - inversion Hrl; subst; [by destruct rs1|auto]. }
  rewrite (byte_content_end cs rs1 r rs2) by done.
  destruct (row_slice cs rs1 r rs2 len_utf8 (blen (content r)) Hs E) as [Hsl Hsc].
  rewrite (floor_by_all len_utf8) in Hsl, Hsc by done.
  unfold str_index in Hsl. destruct (str_get _ _ _) as [s|]; [|done]. simpl in Hsl. simplify_eq.
  cbn [mbind option_bind]. rewrite E, zget_app_len, place_split.
  pose proof (utf16_to_byte_offset_floor (content r) col Hsc Hc) as Hf.
  unfold LineIndex.utf16_to_byte_offset in Hf.
  destruct (utf16_loop_shift (char_indices (encode (content r))) (blen (concat rs1)) col 0) as [H1 H2].
  destruct (LineIndex.utf16_to_byte_offset_loop _ _ _) as [o|v] eqn:El.
  - destruct (ByteLineIndex.utf16_loop _ _ _ _) as [o'|v'] eqn:Eb.
    + rewrite H1, Hf. by destruct (_ =? col).
    + discriminate (proj1 (H2 v') eq_refl).
  - destruct (ByteLineIndex.utf16_loop _ _ _ _) as [o'|v'] eqn:Eb.
    + discriminate (proj2 (H2 v) eq_refl).
    + pose proof (proj1 (H2 v') eq_refl). simplify_eq.
      revert Hf. destruct (v' =? col), (u16len (floor_by len_utf16 (content r) col) =? col);
        intros Hf; by simplify_eq/=; rewrite ?Hf.
Qed.
