(* ===== verification/SourceLines.v ===== *)
(** * Chunk-stable source lines (perl-position-tracking/src/source_lines.rs)

    The byte-only table of source rows: its records and their constructor,
    the streaming scanner with one pending CR, the incremental UTF-8
    validator, the table constructors and lookups, with every error value.
    Proved: the scanner builds exactly the rows of the specification for every
    partition of the source into chunks, the validator accepts exactly UTF-8,
    and the row lookup is the line number of the position specification. *)

From stdpp Require Import base numbers sets list.
From S2P Require Import Prelude Utf8 SourceRows LineIndex.

(** ** Records *)

Inductive SeparatorKind := SepNone | SepLf | SepCrLf.
#[export] Instance SeparatorKind_eq_dec : EqDecision SeparatorKind.
Proof. solve_decision. Defined.

Definition sep_byte_len (k : SeparatorKind) : Z :=
  match k with SepNone => 0 | SepLf => 1 | SepCrLf => 2 end.

Record LineRecord := mkRecord {
  start_byte : Z;
  content_end_byte : Z;
  separator_end_byte : Z;
  separator_kind : SeparatorKind;
}.

Inductive SourceLineError :=
| InvalidUtf8
| ArithmeticOverflow
| InvalidRecord (start_byte content_end_byte separator_end_byte : Z)
| SeparatorKindMismatch (start_byte : Z) (kind : SeparatorKind) (separator_byte_len : Z)
| NonCoveringRecords (index expected_start found_start : Z)
| NonTerminalRowWithNoSeparator (index : Z)
| MissingTerminalRow.

(** [LineRecord::new] *)
Definition new_record (s c e : Z) (k : SeparatorKind) : result SourceLineError LineRecord :=
  if negb ((s <=? c) && (c <=? e)) then Err (InvalidRecord s c e)
  else
    let actual_len := e - c in
    let expected_len := sep_byte_len k in
    if negb (actual_len =? expected_len) then Err (SeparatorKindMismatch s k actual_len)
    else Ok (mkRecord s c e k).

(** [source.get(start..content_end)] on the source bytes. *)
Definition record_content (self : LineRecord) (source : list Z) : option (list Z) :=
  if (start_byte self <=? content_end_byte self) && (content_end_byte self <=? len source)
  then Some (zslice source (start_byte self) (content_end_byte self)) else None.

(** ** The incremental UTF-8 validator *)

Record Utf8Validator := mkValidator { remaining : Z; next_min : Z; next_max : Z }.
Definition validator_default : Utf8Validator := mkValidator 0 0 0.

Definition in_range (lo b hi : Z) : bool := (lo <=? b) && (b <=? hi).

(** [advance]: the new state, or [None] when the stream stops being UTF-8. *)
Definition advance (self : Utf8Validator) (byte : Z) : option Utf8Validator :=
  if remaining self =? 0 then
    if in_range 0 byte 127 then Some self
    else if in_range 194 byte 223 then Some (mkValidator 1 128 191)
    else if byte =? 224 then Some (mkValidator 2 160 191)
    else if in_range 225 byte 236 || in_range 238 byte 239 then Some (mkValidator 2 128 191)
    else if byte =? 237 then Some (mkValidator 2 128 159)
    else if byte =? 240 then Some (mkValidator 3 144 191)
    else if in_range 241 byte 243 then Some (mkValidator 3 128 191)
    else if byte =? 244 then Some (mkValidator 3 128 143)
    else None
  else if in_range 128 byte 191 && in_range (next_min self) byte (next_max self) then
    Some (mkValidator (remaining self - 1) 128 191)
  else None.

Definition is_complete (self : Utf8Validator) : bool := remaining self =? 0.

(** ** The streaming scanner *)

Record Scanner := mkScanner {
  pending_cr_at : option Z;
  record_start : Z;
  offset : Z;
  records : list LineRecord;
  utf8 : Utf8Validator;
}.
Definition scanner_default : Scanner := mkScanner None 0 0 [] validator_default.

Definition push_byte (self : Scanner) (byte : Z) : result SourceLineError Scanner :=
  (* [self.pending_cr_at.take()] clears the pending CR on every path *)
  match pending_cr_at self, byte =? LF with
  | Some cr_at, true =>
    separator_end ← ok_or (checked_add (offset self) 1) ArithmeticOverflow;
    crlf_record ← map_err (fun _ => ArithmeticOverflow)
      (new_record (record_start self) cr_at separator_end SepCrLf);
    mret (mkScanner None separator_end separator_end (records self ++ [crlf_record]) (utf8 self))
  | _, _ =>
    if byte =? LF then
      separator_end ← ok_or (checked_add (offset self) 1) ArithmeticOverflow;
      lf_record ← map_err (fun _ => ArithmeticOverflow)
        (new_record (record_start self) (offset self) separator_end SepLf);
      mret (mkScanner None separator_end separator_end (records self ++ [lf_record]) (utf8 self))
    else if byte =? CR then
      o ← ok_or (checked_add (offset self) 1) ArithmeticOverflow;
      mret (mkScanner (Some (offset self)) (record_start self) o (records self) (utf8 self))
    else
      o ← ok_or (checked_add (offset self) 1) ArithmeticOverflow;
      mret (mkScanner None (record_start self) o (records self) (utf8 self))
  end.

Fixpoint push_bytes (self : Scanner) (chunk : list Z) : result SourceLineError Scanner :=
  match chunk with
  | [] => Ok self
  | byte :: chunk => self ← push_byte self byte; push_bytes self chunk
  end.

Definition set_utf8 (self : Scanner) (v : Utf8Validator) : Scanner :=
  mkScanner (pending_cr_at self) (record_start self) (offset self) (records self) v.

Fixpoint push_utf8_chunk (self : Scanner) (chunk : list Z) : result SourceLineError Scanner :=
  match chunk with
  | [] => Ok self
  | byte :: chunk =>
    match advance (utf8 self) byte with
    | None => Err InvalidUtf8
    | Some v => self ← push_byte (set_utf8 self v) byte; push_utf8_chunk self chunk
    end
  end.

(** ** The table *)

Record LineRecordTable := mkTable { source_byte_length : Z; table_records : list LineRecord }.

(** The first loop of [try_from_records]: each record starts where the
    previous one ended. *)
Fixpoint check_starts (index expected_start : Z) (rs : list LineRecord) : result SourceLineError Z :=
  match rs with
  | [] => Ok expected_start
  | r :: rs =>
    if negb (start_byte r =? expected_start)
    then Err (NonCoveringRecords index expected_start (start_byte r))
    else check_starts (index + 1) (separator_end_byte r) rs
  end.

(** The second loop: separators on all records but the last. *)
Fixpoint check_separators (index : Z) (rs : list LineRecord) : result SourceLineError unit :=
  match rs with
  | [] => Ok tt
  | r :: rs' =>
    match bool_decide (rs' = []), separator_kind r with
    | true, SepNone => check_separators (index + 1) rs'
    | true, _ => Err MissingTerminalRow
    | false, SepNone => Err (NonTerminalRowWithNoSeparator index)
    | false, _ => check_separators (index + 1) rs'
    end
  end.

Definition try_from_records (source_byte_length : Z) (rs : list LineRecord)
    : result SourceLineError LineRecordTable :=
  expected_start ← check_starts 0 0 rs;
  if negb (expected_start =? source_byte_length)
  then Err (NonCoveringRecords (len rs) expected_start source_byte_length)
  else match rs with
  | [] => Err MissingTerminalRow
  | _ :: _ => _ ← check_separators 0 rs; Ok (mkTable source_byte_length rs)
  end.

Definition finish (self : Scanner) : result SourceLineError LineRecordTable :=
  let terminal_content_end := offset self in
  record ← new_record (record_start self) terminal_content_end terminal_content_end SepNone;
  try_from_records terminal_content_end (records self ++ [record]).

Definition from_str (source : list Z) : result SourceLineError LineRecordTable :=
  scanner ← push_bytes scanner_default source;
  finish scanner.

Fixpoint push_chunks (self : Scanner) (chunks : list (list Z)) : result SourceLineError Scanner :=
  match chunks with
  | [] => Ok self
  | chunk :: chunks => self ← push_utf8_chunk self chunk; push_chunks self chunks
  end.

Definition from_chunks_utf8 (chunks : list (list Z)) : result SourceLineError LineRecordTable :=
  scanner ← push_chunks scanner_default chunks;
  if negb (is_complete (utf8 scanner)) then Err InvalidUtf8 else finish scanner.

Definition line_count (self : LineRecordTable) : Z := len (table_records self).

Definition record (self : LineRecordTable) (line : Z) : option LineRecord :=
  zget (table_records self) line.

Definition line_index_at_byte (self : LineRecordTable) (byte_offset : Z) : option Z :=
  if source_byte_length self <? byte_offset then None
  else
    let line := partition_point (fun r => start_byte r <=? byte_offset) (table_records self) in
    Some (saturating_sub line 1).

Definition line_record_at_byte (self : LineRecordTable) (byte_offset : Z) : option LineRecord :=
  line ← line_index_at_byte self byte_offset;
  zget (table_records self) line.

Definition content_span (self : LineRecordTable) (line : Z) : option (Z * Z) :=
  r ← record self line;
  Some (start_byte r, content_end_byte r).

(** ** The rows of the specification as records *)

Definition kind_of (r : list Z) : SeparatorKind :=
  match strip_suffix r LF with
  | None => SepNone
  | Some w => match strip_suffix w CR with None => SepLf | Some _ => SepCrLf end
  end.

Fixpoint records_of (s : Z) (rs : list (list Z)) : list LineRecord :=
  match rs with
  | [] => []
  | r :: rs =>
    mkRecord s (s + blen (content r)) (s + blen r) (kind_of r) :: records_of (s + blen r) rs
  end.

Definition table_of (cs : list Z) : LineRecordTable := mkTable (blen cs) (records_of 0 (rows cs)).

Lemma records_of_app s rs1 rs2 :
  records_of s (rs1 ++ rs2) = records_of s rs1 ++ records_of (s + blen (concat rs1)) rs2.
Proof.
  revert s. induction rs1 as [|r rs1 IH]; intros s; simpl; [by rewrite Z.add_0_r|].
  by rewrite IH, blen_app, Z.add_assoc.
Qed.

Lemma len_records_of s rs : len (records_of s rs) = len rs.
Proof. revert s. induction rs; intros s; simpl; [done|]. by rewrite !len_cons, IHrs. Qed.

Lemma rows_snoc p c :
  exists rs1 r, rows p = rs1 ++ [r] /\ Forall terminated rs1 /\ LF ∉ r /\
    rows (p ++ [c]) = if c =? LF then rs1 ++ [r ++ [LF]; []] else rs1 ++ [r ++ [c]].
Proof.
  induction p as [|d p IH].
  - exists [], []. simpl. split; [done|]. split; [constructor|]. split; [set_solver|].
    by destruct (c =? LF).
  - destruct IH as (rs1 & r & E & Ht & Hr & E'). simpl. rewrite E, E'. clear E E'.
    destruct (Z.eqb_spec d LF) as [->|Hd].
    + exists ([LF] :: rs1), r. split; [done|]. split; [|split; [done|]].
      * constructor; [|done]. exists []. split; [done|set_solver].
      * by destruct (c =? LF).
    + destruct rs1 as [|r1 rs1]; simpl.
      * exists [], (d :: r). split; [done|]. split; [constructor|]. split; [set_solver|].
        by destruct (c =? LF).
      * apply Forall_cons in Ht as [(w & -> & Hw) Ht].
        exists ((d :: w ++ [LF]) :: rs1), r. split; [done|]. split; [|split; [done|]].
        -- constructor; [|done]. exists (d :: w). split; [done|set_solver].
        -- by destruct (c =? LF).
Qed.

(** ** The scanner tracks the rows of what it has consumed *)

Definition scan_state (rs1 : list (list Z)) (r : list Z) (v : Utf8Validator) : Scanner :=
  let o := blen (concat rs1) + blen r in
  mkScanner (if bool_decide (last r = Some CR) then Some (o - 1) else None)
    (blen (concat rs1)) o (records_of 0 rs1) v.

Definition tracks (p : list Z) (st : Scanner) : Prop :=
  exists rs1 r v, rows p = rs1 ++ [r] /\ Forall terminated rs1 /\ LF ∉ r /\ st = scan_state rs1 r v.

Lemma new_record_ok s c e k :
  s <= c -> c <= e -> e - c = sep_byte_len k -> new_record s c e k = Ok (mkRecord s c e k).
Proof.
  intros H1 H2 H3. unfold new_record.
  rewrite (proj2 (Z.leb_le s c)), (proj2 (Z.leb_le c e)) by done. simpl.
  by rewrite (proj2 (Z.eqb_eq _ _)).
Qed.

(** A run of bytes other than LF and CR only moves the offset. *)
Lemma push_plain l st :
  l <> [] -> Forall (fun b => b <> LF /\ b <> CR) l -> offset st + len l <= usize_max ->
  push_bytes st l =
    Ok (mkScanner None (record_start st) (offset st + len l) (records st) (utf8 st)).
Proof.
  intros Hne Hl. revert st. induction Hl as [|b l [Hb1 Hb2] Hl IH]; intros st Ho; [done|].
  rewrite len_cons in Ho |- *. pose proof (len_nonneg l). cbn [push_bytes]. unfold push_byte.
  rewrite (proj2 (Z.eqb_neq b LF)), (proj2 (Z.eqb_neq b CR)) by done.
  rewrite checked_add_Some by lia.
  transitivity (push_bytes (mkScanner None (record_start st) (offset st + 1) (records st) (utf8 st)) l).
  { by destruct (pending_cr_at st). }
  destruct l as [|b' l']; [by rewrite len_nil, Z.add_0_r|].
  rewrite IH; [|done|simpl offset; lia]. simpl. do 2 f_equal. lia.
Qed.

(** Scanner states that differ by arithmetic and by the lengths of rows. *)
Ltac scan_eq :=
  simpl; rewrite ?blen_app; simpl;
  change (len_utf8 LF) with 1 in *; change (len_utf8 CR) with 1 in *; feq.

Lemma scan_char p c st :
  tracks p st -> is_scalar c = true -> blen p + len_utf8 c <= usize_max ->
  exists st', push_bytes st (encode_char c) = Ok st' /\ tracks (p ++ [c]) st' /\ utf8 st' = utf8 st.
Proof.
  intros (rs1 & r & v & E & Ht & Hr & ->) Hc Hm.
  destruct (rows_snoc p c) as (rs1' & r' & E' & _ & _ & E'').
  rewrite E in E'. apply app_inj_tail in E' as [<- <-].
  assert (blen p = blen (concat rs1) + blen r) as Hp.
  { rewrite <- (concat_rows p), E, concat_app, blen_app. simpl. by rewrite app_nil_r. }
  pose proof (blen_nonneg r). pose proof (blen_nonneg (concat rs1)).
  destruct (Z.eqb_spec c LF) as [->|HnLF]; [|destruct (Z.eq_dec c CR) as [->|HnCR]].
  - change (encode_char LF) with [LF]. change (len_utf8 LF) with 1 in Hm.
    cbn [push_bytes]. unfold push_byte, scan_state. simpl.
    rewrite checked_add_Some by lia. simpl.
    exists (scan_state (rs1 ++ [r ++ [LF]]) [] v).
    assert (Forall terminated (rs1 ++ [r ++ [LF]])) as Ht'.
    { apply Forall_app. split; [done|]. constructor; [|constructor]. by exists r. }
    split; [|split; [|done]].
    2: { exists (rs1 ++ [r ++ [LF]]), [], v. rewrite E'', <- app_assoc.
         split; [done|]. split; [done|]. split; [set_solver|done]. }
    unfold scan_state. simpl. rewrite concat_app. simpl. rewrite app_nil_r, !blen_app. simpl.
    rewrite records_of_app. simpl. change (len_utf8 LF) with 1.
    unfold content, kind_of. rewrite strip_suffix_snoc.
    change (len_utf8 LF) with 1 in *.
    destruct r as [|y r _] using rev_ind.
    + simpl. rewrite new_record_ok by (simpl; lia). scan_eq.
    + rewrite last_snoc, blen_app in *. simpl in *. pose proof (blen_nonneg r).
      destruct (Z.eq_dec y CR) as [->|Hy].
      * rewrite bool_decide_eq_true_2, strip_suffix_snoc by done. change (len_utf8 CR) with 1 in *.
        simpl. rewrite new_record_ok by (simpl; lia). scan_eq.
      * rewrite bool_decide_eq_false_2, strip_suffix_snoc_ne by congruence. simpl.
        rewrite blen_app. simpl. rewrite new_record_ok by (simpl; lia). scan_eq.
  - change (encode_char CR) with [CR]. change (len_utf8 CR) with 1 in Hm.
    exists (scan_state rs1 (r ++ [CR]) v). split; [|split; [|done]].
    2: { exists rs1, (r ++ [CR]), v. split; [done|]. split; [done|]. split; [|done].
         unfold LF, CR in *. set_solver. }
    cbn [push_bytes]. unfold push_byte, scan_state. simpl. rewrite checked_add_Some by lia. simpl.
    rewrite last_snoc, blen_app, (bool_decide_eq_true_2 (Some CR = Some CR)) by done.
    simpl. change (len_utf8 CR) with 1. destruct (bool_decide (last r = Some CR)); simpl; feq.
  - exists (scan_state rs1 (r ++ [c]) v). split; [|split; [|done]].
    2: { exists rs1, (r ++ [c]), v. split; [done|]. split; [done|]. split; [|done]. set_solver. }
    rewrite push_plain.
    + unfold scan_state. simpl. rewrite last_snoc, blen_app, bool_decide_eq_false_2 by congruence.
      simpl. rewrite len_encode_char. feq.
    + destruct (encode_char_shape c Hc) as (? & ? & -> & _). done.
    + destruct (Z_lt_le_dec c 128) as [Hlt|Hge].
      * rewrite encode_char_ascii by done. by repeat constructor.
      * eapply Forall_impl; [by apply encode_char_high|]. simpl. unfold LF, CR. lia.
    + rewrite len_encode_char. simpl. lia.
Qed.

Lemma push_bytes_app st l k :
  push_bytes st (l ++ k) = (st' ← push_bytes st l; push_bytes st' k).
Proof.
  revert st. induction l as [|b l IH]; intros st; simpl; [done|].
  destruct (push_byte st b); simpl; [apply IH|done].
Qed.

Lemma scan_text p cs st :
  tracks p st -> scalars cs -> blen p + blen cs <= usize_max ->
  exists st', push_bytes st (encode cs) = Ok st' /\ tracks (p ++ cs) st'.
Proof.
  intros Ht Hs. revert p st Ht. induction Hs as [|c cs Hc Hs IH]; intros p st Ht Hm; simpl.
  - exists st. by rewrite app_nil_r.
  - simpl in Hm. pose proof (blen_nonneg cs).
    destruct (scan_char p c st Ht Hc) as (st1 & E1 & T1 & _); [lia|].
    destruct (IH (p ++ [c]) st1 T1) as (st2 & E2 & T2).
    { rewrite blen_app. simpl. lia. }
    exists st2. rewrite push_bytes_app, E1. simpl. split; [done|]. by rewrite <- app_assoc in T2.
Qed.

(** ** Finishing: the table of the rows *)

Lemma content_gap r : terminated r -> blen r - blen (content r) = sep_byte_len (kind_of r).
Proof.
  intros (w & -> & _). unfold content, kind_of. rewrite strip_suffix_snoc.
  destruct w as [|y w _] using rev_ind; [done|].
  destruct (Z.eq_dec y CR) as [->|Hy].
  - rewrite strip_suffix_snoc. simpl. rewrite !blen_app. simpl.
    change (len_utf8 LF) with 1. change (len_utf8 CR) with 1. lia.
  - rewrite strip_suffix_snoc_ne by done. simpl. rewrite !blen_app. simpl.
    change (len_utf8 LF) with 1. lia.
Qed.

Lemma kind_of_unterminated r : LF ∉ r -> kind_of r = SepNone.
Proof.
  intros H. unfold kind_of. destruct r as [|x r _] using rev_ind; [done|].
  rewrite strip_suffix_snoc_ne; [done|set_solver].
Qed.

Lemma kind_of_terminated r : terminated r -> kind_of r <> SepNone.
Proof.
  intros (w & -> & _). unfold kind_of. rewrite strip_suffix_snoc. by destruct (strip_suffix w CR).
Qed.

Lemma check_starts_records rs i s :
  check_starts i s (records_of s rs) = Ok (s + blen (concat rs)).
Proof.
  revert i s. induction rs as [|r rs IH]; intros i s; simpl; [by rewrite Z.add_0_r|].
  rewrite Z.eqb_refl. simpl. rewrite IH, blen_app. f_equal. lia.
Qed.

Lemma check_separators_records rs i s :
  row_list rs -> check_separators i (records_of s rs) = Ok tt.
Proof.
  intros H. revert i s. induction H as [r Hr|r rs Hr Hrs IH]; intros i s; simpl.
  - by rewrite kind_of_unterminated.
  - rewrite bool_decide_eq_false_2 by (by destruct Hrs).
    pose proof (kind_of_terminated r Hr). destruct (kind_of r); [done|apply IH|apply IH].
Qed.

Lemma try_from_records_rows cs : try_from_records (blen cs) (records_of 0 (rows cs)) = Ok (table_of cs).
Proof.
  unfold try_from_records, table_of. rewrite check_starts_records, concat_rows. simpl. rewrite Z.eqb_refl. simpl.
  rewrite check_separators_records by apply rows_row_list.
  destruct (rows_cons cs) as (r & rs & ->). done.
Qed.

Lemma finish_tracks cs st : tracks cs st -> finish st = Ok (table_of cs).
Proof.
  intros (rs1 & r & v & E & Ht & Hr & ->). unfold finish, scan_state. simpl.
  pose proof (blen_nonneg r). rewrite new_record_ok by (simpl; lia). simpl.
  assert (blen cs = blen (concat rs1) + blen r) as Hb.
  { rewrite <- (concat_rows cs), E, concat_app, blen_app. simpl. by rewrite app_nil_r. }
  rewrite <- Hb. rewrite <- (try_from_records_rows cs). f_equal. rewrite E, records_of_app. simpl.
  rewrite content_unterminated, kind_of_unterminated by done. rewrite Hb. feq.
Qed.

Lemma from_str_rows cs : scalars cs -> allocatable cs -> from_str (encode cs) = Ok (table_of cs).
Proof.
  intros Hs Ha. unfold allocatable, isize_max in Ha. unfold from_str.
  assert (tracks [] scanner_default) as T0.
  { exists [], [], validator_default. split; [done|]. split; [constructor|]. split; [set_solver|done]. }
  destruct (scan_text [] cs scanner_default T0 Hs) as (st & E & T).
  { unfold usize_max. simpl. lia. }
  rewrite E. simpl. by apply finish_tracks.
Qed.

(** ** Chunks *)

Lemma push_utf8_chunk_app st l k :
  push_utf8_chunk st (l ++ k) = (st' ← push_utf8_chunk st l; push_utf8_chunk st' k).
Proof.
  revert st. induction l as [|b l IH]; intros st; simpl; [done|].
  destruct (advance (utf8 st) b) as [v|]; simpl; [|done].
  destruct (push_byte (set_utf8 st v) b); simpl; [apply IH|done].
Qed.

Lemma push_chunks_concat st chunks : push_chunks st chunks = push_utf8_chunk st (concat chunks).
Proof.
  revert st. induction chunks as [|k chunks IH]; intros st; simpl; [done|].
  rewrite push_utf8_chunk_app. by destruct (push_utf8_chunk st k); simpl.
Qed.

(** The validator's run over a byte sequence. *)
Fixpoint validate_from (v : Utf8Validator) (bs : list Z) : option Utf8Validator :=
  match bs with
  | [] => Some v
  | b :: bs => v ← advance v b; validate_from v bs
  end.

Definition validate (bs : list Z) : bool :=
  match validate_from validator_default bs with Some v => is_complete v | None => false end.

Lemma validate_from_app v l k :
  validate_from v (l ++ k) = (v' ← validate_from v l; validate_from v' k).
Proof.
  revert v. induction l as [|b l IH]; intros v; simpl; [done|].
  destruct (advance v b); simpl; [apply IH|done].
Qed.

(** A scanner state whose bounds are in order can take any byte. *)
Definition scanner_ok (st : Scanner) : Prop :=
  record_start st <= offset st /\
  forall k, pending_cr_at st = Some k -> record_start st <= k /\ k + 1 = offset st.

Lemma push_byte_ok st b :
  scanner_ok st -> offset st + 1 <= usize_max ->
  exists st', push_byte st b = Ok st' /\ scanner_ok st' /\ offset st' = offset st + 1 /\
    utf8 st' = utf8 st /\ forall v, push_byte (set_utf8 st v) b = Ok (set_utf8 st' v).
Proof.
  intros [H1 H2] Hm. unfold push_byte, set_utf8. simpl. rewrite checked_add_Some by done. simpl.
  assert (new_record (record_start st) (offset st) (offset st + 1) SepLf =
    Ok (mkRecord (record_start st) (offset st) (offset st + 1) SepLf)) as ->
    by (apply new_record_ok; simpl; lia).
  destruct (pending_cr_at st) as [k|] eqn:Ep.
  - destruct (H2 k eq_refl). destruct (b =? LF).
    + rewrite new_record_ok by (simpl; lia). simpl. eexists. split; [done|].
      repeat split; simpl; (lia || done).
    + destruct (b =? CR); simpl; (eexists; split; [done|]; repeat split; simpl; try lia; try done);
        intros; simplify_eq/=; lia.
  - destruct (b =? LF); [|destruct (b =? CR)]; simpl;
      (eexists; split; [done|]; repeat split; simpl; try lia; try done); intros; simplify_eq/=; lia.
Qed.

(** The validator's state rides along unchanged while bytes are pushed. *)
Lemma push_bytes_set st v l :
  push_bytes (set_utf8 st v) l = (s ← push_bytes st l; Ok (set_utf8 s v)).
Proof.
  revert st. induction l as [|c l IH]; intros st; simpl; [done|].
  unfold push_byte, set_utf8. simpl.
  destruct (pending_cr_at st), (c =? LF), (c =? CR), (checked_add (offset st) 1); simpl;
    try done; try (destruct (new_record _ _ _ _); simpl; try done);
    rewrite <- IH; done.
Qed.

(** Validating and scanning a chunk is scanning it when the validator runs. *)
Lemma push_utf8_chunk_run st bs :
  scanner_ok st -> offset st + len bs <= usize_max ->
  match validate_from (utf8 st) bs with
  | Some v => exists st', push_bytes st bs = Ok st' /\ push_utf8_chunk st bs = Ok (set_utf8 st' v)
  | None => push_utf8_chunk st bs = Err InvalidUtf8
  end.
Proof.
  revert st. induction bs as [|b bs IH]; intros st Hok Hm; simpl.
  { exists st. split; [done|]. by destruct st. }
  rewrite len_cons in Hm. pose proof (len_nonneg bs).
  destruct (advance (utf8 st) b) as [v|]; simpl; [|done].
  destruct (push_byte_ok st b Hok) as (st' & E & Hok' & Ho & Hu & Hv); [lia|].
  rewrite E, Hv. simpl. specialize (IH (set_utf8 st' v)). simpl in IH.
  destruct (validate_from v bs) as [v'|] eqn:Ev.
  - destruct IH as (st2 & E2 & E3); [done|simpl; lia|].
    rewrite push_bytes_set in E2. destruct (push_bytes st' bs) as [s|]; [|done]. simpl in E2. simplify_eq.
    exists s. split; [done|]. rewrite E3. done.
  - apply IH; [done|simpl; lia].
Qed.

(** ** The validator accepts exactly UTF-8 *)

Lemma in_range_true lo b hi : lo <= b <= hi -> in_range lo b hi = true.
Proof. unfold in_range. intros. by bcase. Qed.
Lemma in_range_false lo b hi : ~ (lo <= b <= hi) -> in_range lo b hi = false.
Proof. unfold in_range. intros. by bcase. Qed.
Lemma in_range_iff lo b hi : in_range lo b hi = true <-> lo <= b <= hi.
Proof. unfold in_range. bcase; simpl; split; (done || lia). Qed.

(** What a lead byte announces: how many continuations, and the range of the
    first. *)
Inductive lead : Z -> Z -> Z -> Z -> Prop :=
| lead2 b : 194 <= b <= 223 -> lead b 1 128 191
| lead3a : lead 224 2 160 191
| lead3b b : 225 <= b <= 236 \/ 238 <= b <= 239 -> lead b 2 128 191
| lead3c : lead 237 2 128 159
| lead4a : lead 240 3 144 191
| lead4b b : 241 <= b <= 243 -> lead b 3 128 191
| lead4c : lead 244 3 128 143.

Lemma advance_ascii v b : remaining v = 0 -> 0 <= b <= 127 -> advance v b = Some v.
Proof. intros Hv Hb. unfold advance. by rewrite Hv, in_range_true. Qed.

Lemma advance_lead v b n lo hi :
  remaining v = 0 -> lead b n lo hi -> advance v b = Some (mkValidator n lo hi).
Proof.
  intros Hv Hl. unfold advance. rewrite Hv. simpl.
  destruct Hl; try done; repeat first
    [ rewrite in_range_true by lia; reflexivity
    | rewrite in_range_false by lia
    | rewrite (proj2 (Z.eqb_neq _ _)) by lia ].
  destruct H as [H|H]; [by rewrite (in_range_true 225) by lia|].
  rewrite (in_range_true 238) by lia. by rewrite orb_true_r.
Qed.

Lemma advance_cont n lo hi b :
  0 < n -> 128 <= b <= 191 -> lo <= b <= hi ->
  advance (mkValidator n lo hi) b = Some (mkValidator (n - 1) 128 191).
Proof.
  intros Hn Hb Hr. unfold advance. simpl. rewrite (proj2 (Z.eqb_neq n 0)) by lia.
  by rewrite !in_range_true.
Qed.

Lemma advance_start_inv v b v' :
  remaining v = 0 -> advance v b = Some v' ->
  (0 <= b <= 127 /\ v' = v) \/ (exists n lo hi, lead b n lo hi /\ v' = mkValidator n lo hi).
Proof.
  intros Hv. unfold advance. rewrite Hv. simpl.
  repeat match goal with
  | |- context [in_range ?a ?x ?c] =>
    destruct (in_range a x c) eqn:?; [match goal with H : in_range a x c = true |- _ => apply in_range_iff in H end|]
  | |- context [Z.eqb ?x ?a] => destruct (Z.eqb_spec x a); subst
  end; simpl; intros E; simplify_eq; try (left; split; (done || lia));
    right; do 3 eexists; (split; [|reflexivity]); constructor; lia.
Qed.

Lemma advance_cont_inv n lo hi b v' :
  0 < n -> advance (mkValidator n lo hi) b = Some v' ->
  128 <= b <= 191 /\ lo <= b <= hi /\ v' = mkValidator (n - 1) 128 191.
Proof.
  intros Hn. unfold advance. simpl. rewrite (proj2 (Z.eqb_neq n 0)) by lia.
  destruct (in_range 128 b 191) eqn:E1, (in_range lo b hi) eqn:E2; simpl; intros E; simplify_eq.
  apply in_range_iff in E1, E2. done.
Qed.

(** The continuation bytes a lead announces. *)
Definition conts (n lo hi : Z) (l : list Z) : Prop :=
  len l = n /\ Forall (fun b => 128 <= b <= 191) l /\ (forall b, head l = Some b -> lo <= b <= hi).

Lemma validate_conts n lo hi l :
  0 < n -> conts n lo hi l -> validate_from (mkValidator n lo hi) l = Some (mkValidator 0 128 191).
Proof.
  intros Hn (Hl & Hc & Hh). revert n lo hi Hn Hl Hh.
  induction Hc as [|b l Hb Hc IH]; intros n lo hi Hn Hl Hh; [rewrite len_nil in Hl; lia|].
  rewrite len_cons in Hl. cbn [validate_from].
  rewrite advance_cont by (auto; lia). simpl.
  destruct l as [|b' l']; [rewrite len_nil in Hl; by replace (n - 1) with 0 by lia|].
  pose proof (len_nonneg l'). rewrite len_cons in *. apply IH; [lia|lia|].
  intros c [= <-]. by apply Forall_cons in Hc as [? _].
Qed.

Lemma conts_inv n lo hi bs v' :
  0 < n -> validate_from (mkValidator n lo hi) bs = Some v' -> remaining v' = 0 ->
  exists l rest, bs = l ++ rest /\ conts n lo hi l /\
    validate_from (mkValidator 0 128 191) rest = Some v'.
Proof.
  intros Hn. rewrite <- (Z2Nat.id n) in * by lia. generalize dependent (Z.to_nat n). clear n.
  intros n. revert lo hi bs. induction n as [|n IH]; intros lo hi bs Hn E Hr; [lia|].
  destruct bs as [|b bs]; cbn [validate_from] in E.
  { injection E as <-. simpl in Hr. lia. }
  destruct (advance _ b) as [v|] eqn:Ea; [|done]. simpl in E.
  apply advance_cont_inv in Ea as (Hb & Hlh & ->); [|lia].
  replace (Z.of_nat (S n) - 1) with (Z.of_nat n) in E by lia. destruct n as [|n].
  - exists [b], bs. split; [done|]. split; [|done].
    split; [done|]. split; [constructor; [done|constructor]|]. by intros ? [= <-].
  - destruct (IH 128 191 bs) as (l & rest & -> & (Hl & Hc & Hh) & Ev); [lia|done|done|].
    exists (b :: l), rest. split; [done|]. split; [|done].
    split; [rewrite len_cons; lia|]. split; [by constructor|]. by intros ? [= <-].
Qed.

(** A lead and its continuations are one scalar value, and conversely. *)
Lemma lead_char b n lo hi l :
  lead b n lo hi -> conts n lo hi l ->
  exists c, is_scalar c = true /\ encode_char c = b :: l.
Proof.
  intros Hl (Hn & Hc & Hh).
  assert (forall c, (0 <= c <= 55295 \/ 57344 <= c <= 1114111) -> is_scalar c = true) as Hsc.
  { intros c ?. unfold is_scalar. bcase; done. }
  destruct l as [|x l]; [inversion Hl; subst; rewrite len_nil in *; lia|].
  specialize (Hh x eq_refl). apply Forall_cons in Hc as [Hx Hc]. rewrite len_cons in Hn.
  destruct l as [|y l].
  { rewrite len_nil in Hn. exists ((b - 192) * 64 + (x - 128)).
    inversion Hl; subst; try lia. split; [apply Hsc; lia|].
    unfold encode_char. dbcase. repeat f_equal; dlia. }
  apply Forall_cons in Hc as [Hy Hc]. rewrite len_cons in Hn. destruct l as [|z l].
  { rewrite len_nil in Hn. exists ((b - 224) * 4096 + (x - 128) * 64 + (y - 128)).
    inversion Hl; subst; try lia; (split; [apply Hsc; lia|]);
      unfold encode_char; dbcase; repeat f_equal; dlia. }
  apply Forall_cons in Hc as [Hz Hc]. rewrite len_cons in Hn. destruct l as [|w l].
  2: { rewrite len_cons in Hn. pose proof (len_nonneg l). inversion Hl; subst; lia. }
  rewrite len_nil in Hn.
  exists ((b - 240) * 262144 + (x - 128) * 4096 + (y - 128) * 64 + (z - 128)).
  inversion Hl; subst; try lia; (split; [apply Hsc; lia|]);
    unfold encode_char; dbcase; repeat f_equal; dlia.
Qed.

Lemma char_lead c :
  is_scalar c = true -> 128 <= c ->
  exists b n lo hi l, encode_char c = b :: l /\ lead b n lo hi /\ 0 < n /\ conts n lo hi l.
Proof.
  intros Hc Hge. pose proof (scalar_range c Hc) as Hr. unfold is_scalar in Hc.
  assert (0 <= c <= 55295 \/ 57344 <= c) as Hc'.
  { apply orb_true_iff in Hc as [H|H]; apply andb_true_iff in H as [H1%Z.leb_le H2%Z.leb_le]; lia. }
  clear Hc. unfold encode_char.
  assert (forall lo hi x l, lo <= x <= hi -> Forall (fun b => 128 <= b <= 191) (x :: l) ->
    conts (len (x :: l)) lo hi (x :: l)) as Hconts.
  { intros lo hi x l Hx Hl. split; [done|]. split; [done|]. by intros ? [= <-]. }
  bcase.
  - exists (192 + c `div` 64), 1, 128, 191. eexists. split; [done|].
    split; [constructor; dlia|]. split; [done|].
    apply (Hconts 128 191); [dlia|]. repeat constructor; dlia.
  - destruct (Z_lt_le_dec c 4096); [|destruct (Z_lt_le_dec c 53248); [|destruct (Z_lt_le_dec c 57344)]].
    + exists 224, 2, 160, 191. eexists. split; [f_equal; dlia|]. split; [constructor|].
      split; [done|]. apply (Hconts 160 191); [dlia|]. repeat constructor; dlia.
    + exists (224 + c `div` 4096), 2, 128, 191. eexists. split; [done|].
      split; [constructor; dlia|]. split; [done|].
      apply (Hconts 128 191); [dlia|]. repeat constructor; dlia.
    + exists 237, 2, 128, 159. eexists. split; [f_equal; dlia|]. split; [constructor|].
      split; [done|]. apply (Hconts 128 159); [dlia|]. repeat constructor; dlia.
    + exists (224 + c `div` 4096), 2, 128, 191. eexists. split; [done|].
      split; [constructor; dlia|]. split; [done|].
      apply (Hconts 128 191); [dlia|]. repeat constructor; dlia.
  - destruct (Z_lt_le_dec c 262144); [|destruct (Z_lt_le_dec c 1048576)].
    + exists 240, 3, 144, 191. eexists. split; [f_equal; dlia|]. split; [constructor|].
      split; [done|]. apply (Hconts 144 191); [dlia|]. repeat constructor; dlia.
    + exists (240 + c `div` 262144), 3, 128, 191. eexists. split; [done|].
      split; [constructor; dlia|]. split; [done|].
      apply (Hconts 128 191); [dlia|]. repeat constructor; dlia.
    + exists 244, 3, 128, 143. eexists. split; [f_equal; dlia|]. split; [constructor|].
      split; [done|]. apply (Hconts 128 143); [dlia|]. repeat constructor; dlia.
Qed.

Lemma validate_encode cs v :
  scalars cs -> remaining v = 0 ->
  exists v', validate_from v (encode cs) = Some v' /\ remaining v' = 0.
Proof.
  intros Hs. revert v. induction Hs as [|c cs Hc _ IH]; intros v Hv; simpl; [by exists v|].
  rewrite validate_from_app. destruct (Z_lt_le_dec c 128) as [Hlt|Hge].
  - rewrite encode_char_ascii by done. pose proof (scalar_range c Hc).
    cbn [validate_from]. rewrite advance_ascii by lia. simpl. by apply IH.
  - destruct (char_lead c Hc Hge) as (b & n & lo & hi & l & -> & Hl & Hn & Hcs).
    cbn [validate_from]. rewrite (advance_lead v b n lo hi) by done. simpl.
    rewrite validate_conts by done. simpl. by apply IH.
Qed.

Lemma validate_sound bs v v' :
  validate_from v bs = Some v' -> remaining v = 0 -> remaining v' = 0 -> valid_utf8 bs.
Proof.
  remember (length bs) as n eqn:En. revert bs v En.
  induction (lt_wf n) as [n _ IH]. intros bs v -> E Hv Hv'.
  destruct bs as [|b bs]; [exists []; split; [constructor|done]|]. cbn [validate_from] in E.
  destruct (advance v b) as [v1|] eqn:Ea; [|done]. simpl in E.
  destruct (advance_start_inv v b v1 Hv Ea) as [[Hb ->]|(n & lo & hi & Hl & ->)].
  - destruct (IH (length bs) ltac:(simpl; lia) bs v eq_refl E Hv Hv') as (cs & Hs & ->).
    exists (b :: cs). split.
    + constructor; [|done]. unfold is_scalar. bcase; done.
    + simpl. by rewrite encode_char_ascii by lia.
  - assert (0 < n) by (inversion Hl; lia).
    apply conts_inv in E as (l & rest & -> & Hc & E); [|done|done].
    destruct (lead_char b n lo hi l Hl Hc) as (c & Hsc & Ec).
    destruct (IH (length rest)) with (bs := rest) (v := mkValidator 0 128 191) as (cs & Hs & ->);
      [simpl; rewrite length_app; lia|done|done|done|done|].
    exists (c :: cs). split; [by constructor|]. simpl. by rewrite Ec.
Qed.

Lemma from_chunks_cases chunks :
  len (concat chunks) <= isize_max ->
  from_chunks_utf8 chunks =
    if validate (concat chunks) then from_str (concat chunks) else Err InvalidUtf8.
Proof.
  intros Hm. unfold from_chunks_utf8, from_str, validate. rewrite push_chunks_concat.
  unfold isize_max in Hm.
  pose proof (push_utf8_chunk_run scanner_default (concat chunks)) as Hrun. simpl in Hrun.
  destruct (validate_from validator_default (concat chunks)) as [v|].
  - destruct Hrun as (st & E & E').
    + split; [simpl; lia|]. intros k Hk. discriminate Hk.
    + unfold usize_max. lia.
    + rewrite E, E'. simpl. by destruct (is_complete v).
  - rewrite Hrun; [done| |unfold usize_max; lia].
    split; [simpl; lia|]. intros k Hk. discriminate Hk.
Qed.

Lemma validate_iff bs : validate bs = true <-> valid_utf8 bs.
Proof.
  unfold validate. split.
  - destruct (validate_from validator_default bs) as [v|] eqn:E; [|done].
    intros Hc%Z.eqb_eq. by apply (validate_sound bs validator_default v).
  - intros (cs & Hs & ->). destruct (validate_encode cs validator_default Hs eq_refl) as (v & -> & Hv).
    unfold is_complete. by rewrite Hv.
Qed.

(** ** Lookups *)

Lemma line_index_rows cs b :
  0 <= b <= blen cs -> line_index_at_byte (table_of cs) b = Some (fst (position_of cs b)).
Proof.
  intros Hb. unfold line_index_at_byte, table_of, position_of. simpl.
  rewrite (proj2 (Z.ltb_ge _ _)) by lia. f_equal.
  destruct (row_split (rows cs) b (rows_row_list cs)) as (rs1 & r & rs2 & -> & Ht & Hle & Hlt & _); [lia|].
  rewrite locate_split by done. rewrite records_of_app. simpl.
  rewrite partition_point_app.
  - rewrite len_records_of. simpl. rewrite (proj2 (Z.leb_le _ _)) by lia.
    assert (partition_point (fun r0 => start_byte r0 <=? b)
      (records_of (0 + blen (concat rs1) + blen r) rs2) = 0) as ->.
    { destruct rs2 as [|r2 rs2]; [done|]. simpl. destruct Hlt; [done|]. by bcase. }
    pose proof (len_nonneg rs1). unfold saturating_sub. lia.
  - clear Hlt. assert (forall s, s + blen (concat rs1) <= b ->
      Forall (fun x => (start_byte x <=? b) = true) (records_of s rs1)) as H.
    { clear Hle. induction Ht as [|r1 rs1 Hr1 _ IH]; intros s Hs; simpl; [constructor|].
      simpl in Hs. rewrite blen_app in Hs. pose proof (blen_nonneg (concat rs1)).
      pose proof (blen_nonneg r1). constructor; [apply Z.leb_le; simpl; lia|]. apply IH. lia. }
    apply H. lia.
Qed.

(** ** Theorems *)

(** Scanning a text yields the table of its rows (start, content end,
    separator end and separator kind of every row, in order), and that table
    passes the constructor's own validation of foreign records. *)
Theorem scan_builds_rows cs :
  scalars cs -> allocatable cs ->
  from_str (encode cs) = Ok (table_of cs) /\
  try_from_records (source_byte_length (table_of cs)) (table_records (table_of cs)) = Ok (table_of cs).
Proof. intros Hs Ha. split; [by apply from_str_rows|]. apply try_from_records_rows. Qed.

Example scan_builds_rows_witness :
  from_str [97; 13; 10; 195; 169; 10] =
    Ok (mkTable 6 [mkRecord 0 1 3 SepCrLf; mkRecord 3 5 6 SepLf; mkRecord 6 6 6 SepNone]).
Proof. apply (scan_builds_rows [97; 13; 10; 233; 10]); [by repeat constructor|done]. Defined.

(** Chunk stability: scanning the chunks of a byte stream gives the same
    result for every partition of the stream, also when a chunk ends inside a
    CRLF or inside a character: the table of the text when the stream is
    UTF-8, and [InvalidUtf8] exactly when it is not. *)
Theorem chunks_do_not_matter chunks cs :
  len (concat chunks) <= isize_max ->
  (scalars cs -> concat chunks = encode cs -> from_chunks_utf8 chunks = Ok (table_of cs)) /\
  (from_chunks_utf8 chunks = Err InvalidUtf8 <-> ~ valid_utf8 (concat chunks)).
Proof.
  intros Hm. rewrite from_chunks_cases by done. split.
  - intros Hs E. rewrite E, (proj2 (validate_iff (encode cs))) by (by exists cs).
    rewrite from_str_rows; [done|done|]. unfold allocatable. by rewrite <- len_encode, <- E.
  - rewrite <- validate_iff. destruct (validate (concat chunks)) eqn:E; [|done].
    split; [|done]. apply validate_iff in E as (cs' & Hs & E). rewrite E.
    rewrite from_str_rows; [done|done|]. unfold allocatable. by rewrite <- len_encode, <- E.
Qed.

Example chunks_do_not_matter_witness :
  from_chunks_utf8 [[97; 13]; [10; 195]; [169]] =
    Ok (mkTable 5 [mkRecord 0 1 3 SepCrLf; mkRecord 3 5 5 SepNone]).
Proof.
  apply (chunks_do_not_matter [[97; 13]; [10; 195]; [169]] [97; 13; 10; 233]); [done| |done].
  by repeat constructor.
Defined.

(** The incremental validator accepts exactly UTF-8: after the bytes of a
    stream it stands at the start of a character if and only if the stream is
    the encoding of a sequence of Unicode scalar values (so overlong forms,
    surrogates, values past 10FFFF and truncated tails are refused). *)
Theorem validator_accepts_utf8 bs :
  match validate_from validator_default bs with
  | Some v => is_complete v = true <-> exists cs, scalars cs /\ bs = encode cs
  | None => ~ exists cs, scalars cs /\ bs = encode cs
  end.
Proof.
  pose proof (validate_iff bs) as H. unfold validate, valid_utf8 in H.
  destruct (validate_from validator_default bs) as [v|]; [done|].
  intros Hv. by apply H in Hv.
Qed.

(** The row lookup of the table is the line of the position specification,
    for every byte of the text and for its end; past the end it answers
    nothing. *)
Theorem row_lookup_is_line cs b :
  0 <= b ->
  line_index_at_byte (table_of cs) b =
    if blen cs <? b then None else Some (fst (position_of cs b)).
Proof.
  intros Hb. destruct (Z.ltb_spec (blen cs) b) as [Hlt|Hle]; [|by apply line_index_rows].
  unfold line_index_at_byte, table_of. simpl. by rewrite (proj2 (Z.ltb_lt _ _)).
Qed.

Example row_lookup_is_line_witness :
  line_index_at_byte (table_of [97; 13; 10; 233; 10]) 4 = Some 1.
Proof. by apply (row_lookup_is_line [97; 13; 10; 233; 10] 4). Defined.
