(* ===== verification/Positions.v ===== *)
(** * The position components agree

    The theorems that tie the conversions of Convert, LineIndex (text and
    Rope) and ByteLineIndex to the specification of SourceRows and to each
    other, and the laws that follow for the program's own functions: round
    trip, monotonicity, and the behaviour past the end.  A concrete Rope (a
    list of chunks) shows that the Rope interface is satisfiable. *)

From stdpp Require Import base numbers sets list.
From S2P Require Import Prelude Utf8 SourceRows LineIndex Convert ByteLineIndex.

(** ** Positions of a text whose length fits in a [u32] *)

Lemma position_u32 cs o :
  u32_sized cs -> 0 <= o ->
  0 <= fst (position_of cs o) <= u32_max /\ 0 <= snd (position_of cs o) <= u32_max.
Proof.
  intros Hu Ho. unfold position_of, u32_sized in *.
  destruct (row_split (rows cs) o (rows_row_list cs) Ho) as (rs1 & r & rs2 & E & Ht & Hle & Hlt & _).
  rewrite E, locate_split by done. cbn [fst snd].
  pose proof (concat_rows cs) as Ec. rewrite E, concat_app in Ec. simpl in Ec.
  rewrite <- Ec, !blen_app in Hu.
  assert (len rs1 <= blen (concat rs1)) as Hn.
  { apply len_le_blen_concat. eapply Forall_impl; [exact Ht|]. intros x (w & -> & _). by destruct w. }
  destruct (floor_by_split len_utf8 (content r) (o - blen (concat rs1))) as [m Em].
  apply (f_equal blen) in Em. rewrite blen_app in Em. pose proof (blen_content_le r).
  set (f := floor_by _ _ _) in *. pose proof (u16len_le_blen f). pose proof (u16len_nonneg f).
  pose proof (blen_nonneg m). pose proof (blen_nonneg (concat rs1)).
  pose proof (blen_nonneg (concat rs2)). pose proof (len_nonneg rs1). lia.
Qed.

Lemma as_u32_position cs o :
  u32_sized cs -> 0 <= o ->
  (as_u32 (fst (position_of cs o)), as_u32 (snd (position_of cs o))) = position_of cs o.
Proof.
  intros Hu Ho. pose proof (position_u32 cs o Hu Ho).
  rewrite !as_u32_small by lia. by destruct (position_of cs o).
Qed.

Lemma u32_allocatable cs : u32_sized cs -> allocatable cs.
Proof. unfold u32_sized, allocatable, u32_max, isize_max. lia. Qed.

(** ** A Rope made of chunks *)

#[export] Instance chunk_rope_ops : RopeOps (list (list Z)) := {|
  rope_chunks chunks := chunks;
  rope_len_bytes chunks := len (concat chunks);
  rope_byte chunks i := expect (zget (concat chunks) i);
  rope_byte_slice chunks a b := str_index (concat chunks) a b;
|}.
#[export] Instance chunk_rope_laws : RopeLaws (list (list Z)) (@concat Z).
Proof. by constructor. Qed.

(** ** The examples' text: two rows, a CRLF, a two- and a four-byte character *)

Definition sample : list Z := [97; 233; CR; LF; 128512; 98].
Lemma sample_scalars : scalars sample.
Proof. by repeat constructor. Qed.

(** ** Theorems *)

(** The three encoders of the crate, the scanning function and the two
    indexes, compute the same position at every byte offset (inside the text,
    inside a character, inside a CRLF, and past the end): the row and UTF-16
    column of the specification; none of them panics. *)
Theorem encoders_agree cs offset :
  scalars cs -> u32_sized cs -> 0 <= offset ->
  offset_to_utf16_line_col (encode cs) offset = Ret (position_of cs offset) /\
  LineStartsCache.offset_to_position (LineStartsCache.new (encode cs)) (encode cs) offset =
    Ret (position_of cs offset) /\
  LineIndex.offset_to_position (LineIndex.new (encode cs)) offset = Ret (position_of cs offset).
Proof.
  intros Hs Hu Ho.
  rewrite convert_offset_to_position, cache_offset_to_position, index_offset_to_position
    by auto using u32_allocatable.
  by rewrite as_u32_position.
Qed.

Example encoders_agree_witness :
  offset_to_utf16_line_col (encode sample) 8 = Ret (1, 0) /\
  LineIndex.offset_to_position (LineIndex.new (encode sample)) 4 = Ret (0, 2).
Proof.
  split.
  - by apply (encoders_agree sample 8 sample_scalars).
  - by apply (encoders_agree sample 4 sample_scalars).
Defined.

(** The two clamping decoders agree at every position, the existing rows
    and columns as well as rows past the end, columns past a row's content and
    columns inside a surrogate pair: the offset of the specification. *)
Theorem decoders_agree cs line col :
  scalars cs -> u32_sized cs -> 0 <= line <= u32_max -> 0 <= col ->
  utf16_line_col_to_offset (encode cs) line col = Ret (offset_of cs line col) /\
  LineStartsCache.position_to_offset (LineStartsCache.new (encode cs)) (encode cs) line col =
    Ret (offset_of cs line col).
Proof.
  intros Hs Hu Hl Hc. rewrite convert_position_to_offset, cache_position_to_offset by (done || lia).
  done.
Qed.

Example decoders_agree_witness :
  utf16_line_col_to_offset (encode sample) 1 1 = Ret 5 /\
  LineStartsCache.position_to_offset (LineStartsCache.new (encode sample)) (encode sample) 0 99 = Ret 3.
Proof.
  split.
  - by apply (decoders_agree sample 1 1 sample_scalars).
  - by apply (decoders_agree sample 0 99 sample_scalars).
Defined.

(** The strict decoder of [LineIndex] and the one of the separate crate
    perl-line-index, written independently, are the same function: both
    answer exactly at the existing rows and the columns that are character
    boundaries of the row's content. *)
Theorem strict_decoders_agree cs line col :
  scalars cs -> 0 <= line -> 0 <= col ->
  LineIndex.position_to_offset (LineIndex.new (encode cs)) line col =
    Ret (ByteLineIndex.position_to_byte_utf16 (ByteLineIndex.new (encode cs)) (encode cs) line col) /\
  ByteLineIndex.position_to_byte_utf16 (ByteLineIndex.new (encode cs)) (encode cs) line col =
    exact_offset_of cs line col.
Proof. intros Hs Hl Hc. by rewrite index_position_to_offset, byte_index_utf16. Qed.

Example strict_decoders_agree_witness :
  LineIndex.position_to_offset (LineIndex.new (encode sample)) 1 2 = Ret (Some 9) /\
  LineIndex.position_to_offset (LineIndex.new (encode sample)) 1 1 = Ret None.
Proof.
  split.
  - by rewrite (proj1 (strict_decoders_agree sample 1 2 sample_scalars ltac:(lia) ltac:(lia))).
  - by rewrite (proj1 (strict_decoders_agree sample 1 1 sample_scalars ltac:(lia) ltac:(lia))).
Defined.

(** Round trip: at every character boundary that is not between a CR and
    its LF, encoding the offset and decoding the position returns the offset,
    through the scanning functions and through the strict index. *)
Theorem position_round_trip c1 c2 :
  scalars (c1 ++ c2) -> u32_sized (c1 ++ c2) ->
  ~ (last c1 = Some CR /\ head c2 = Some LF) ->
  let text := encode (c1 ++ c2) in
  (offset_to_utf16_line_col text (blen c1) ≫= fun p => utf16_line_col_to_offset text (fst p) (snd p))
    = Ret (blen c1) /\
  (LineIndex.offset_to_position (LineIndex.new text) (blen c1) ≫= fun p =>
    LineIndex.position_to_offset (LineIndex.new text) (fst p) (snd p)) = Ret (Some (blen c1)).
Proof.
  intros Hs Hu Ha text. unfold text. pose proof (blen_nonneg c1) as Hn.
  pose proof (position_u32 _ (blen c1) Hu Hn) as [Hl Hc].
  rewrite convert_offset_to_position, index_offset_to_position by auto using u32_allocatable.
  rewrite as_u32_position by done. cbn [mbind outcome_bind].
  rewrite convert_position_to_offset, index_position_to_offset by (done || lia).
  assert (offset_of (c1 ++ c2) (fst (position_of (c1 ++ c2) (blen c1)))
            (snd (position_of (c1 ++ c2) (blen c1))) = blen c1) as E.
  { unfold offset_of, position_of. rewrite place_locate by auto using rows_row_list.
    by apply snap_addressable. }
  rewrite E. split; [done|]. unfold exact_offset_of, place_exact.
  fold (offset_of (c1 ++ c2) (fst (position_of (c1 ++ c2) (blen c1)))
            (snd (position_of (c1 ++ c2) (blen c1)))). rewrite E.
  unfold position_of.
  destruct (row_split (rows (c1 ++ c2)) (blen c1) (rows_row_list _) Hn)
    as (rs1 & r & rs2 & Er & Ht & Hle & Hlt & _).
  rewrite Er, locate_split by done. cbn [fst snd]. rewrite zget_app_len.
  destruct (floor_by_split len_utf8 (content r) (blen c1 - blen (concat rs1))) as [m Em].
  rewrite Em at 1. by rewrite (floor_by_prefix len_utf16), Z.eqb_refl.
Qed.

Example position_round_trip_witness :
  (offset_to_utf16_line_col (encode sample) 5 ≫= fun p =>
    utf16_line_col_to_offset (encode sample) (fst p) (snd p)) = Ret 5.
Proof.
  apply (position_round_trip [97; 233; CR; LF] [128512; 98]); [apply sample_scalars|done|].
  by intros [? ?].
Defined.

(** Encoding is monotone: a later byte offset never gets an earlier
    position, whatever the two offsets are. *)
Theorem position_monotone cs o1 o2 :
  scalars cs -> u32_sized cs -> 0 <= o1 <= o2 ->
  exists p1 p2, offset_to_utf16_line_col (encode cs) o1 = Ret p1 /\
    offset_to_utf16_line_col (encode cs) o2 = Ret p2 /\ pos_le p1 p2.
Proof.
  intros Hs Hu Ho. exists (position_of cs o1), (position_of cs o2).
  rewrite !convert_offset_to_position by (done || lia).
  split; [done|]. split; [done|]. apply locate_mono; auto using rows_row_list.
Qed.

Example position_monotone_witness :
  exists p1 p2, offset_to_utf16_line_col (encode sample) 3 = Ret p1 /\
    offset_to_utf16_line_col (encode sample) 9 = Ret p2 /\ pos_le p1 p2.
Proof. apply (position_monotone sample 3 9); [apply sample_scalars|done|lia]. Defined.

(** The Rope constructors and conversions compute what the text ones do, at
    every offset and position, for every Rope that behaves as documented,
    whatever its chunks are (a chunk may end inside a CRLF). *)
Theorem rope_agrees {Rope : Type} `{!RopeOps Rope} (text : Rope -> list Z) `{!RopeLaws Rope text}
    (rope : Rope) cs :
  scalars cs -> allocatable cs -> text rope = encode cs ->
  LineStartsCache.new_rope rope = LineStartsCache.new (encode cs) /\
  (forall offset, 0 <= offset ->
    LineStartsCache.offset_to_position_rope (LineStartsCache.new_rope rope) rope offset =
      LineStartsCache.offset_to_position (LineStartsCache.new (encode cs)) (encode cs) offset) /\
  (forall line character, 0 <= line ->
    LineStartsCache.position_to_offset_rope (LineStartsCache.new_rope rope) rope line character =
      LineStartsCache.position_to_offset (LineStartsCache.new (encode cs)) (encode cs) line character).
Proof.
  intros Hs Ha Ht. split; [|split].
  - unfold LineStartsCache.new_rope. by rewrite (rope_line_starts text rope cs).
  - intros offset Ho. by apply (rope_offset_to_position text rope cs).
  - intros line character Hl. by apply (rope_position_to_offset text rope cs).
Qed.

Example rope_agrees_witness :
  LineStartsCache.new_rope [[97; 195]; [169; 13]; [10; 240; 159; 152; 128; 98]] =
    LineStartsCache.new (encode sample).
Proof.
  apply (rope_agrees (@concat Z) [[97; 195]; [169; 13]; [10; 240; 159; 152; 128; 98]] sample);
    [apply sample_scalars|done|done].
Defined.

(** The wire range of an ordered byte range whose ends are addressable is
    ordered, and its ends decode back to the two byte offsets. *)
Theorem wire_range_round_trip c1 c2 c3 :
  scalars (c1 ++ c2 ++ c3) -> u32_sized (c1 ++ c2 ++ c3) ->
  ~ (last c1 = Some CR /\ head (c2 ++ c3) = Some LF) ->
  ~ (last (c1 ++ c2) = Some CR /\ head c3 = Some LF) ->
  let text := encode (c1 ++ c2 ++ c3) in
  exists r, Wire.from_byte_offsets text (blen c1) (blen c1 + blen c2) = Ret r /\
    pos_le (Wire.line (Wire.start r), Wire.character (Wire.start r))
           (Wire.line (Wire.end_ r), Wire.character (Wire.end_ r)) /\
    Wire.to_byte_offset (Wire.start r) text = Ret (blen c1) /\
    Wire.to_byte_offset (Wire.end_ r) text = Ret (blen c1 + blen c2).
Proof.
  intros Hs Hu H1 H2 text. unfold text. pose proof (blen_nonneg c1). pose proof (blen_nonneg c2).
  unfold Wire.from_byte_offsets, Wire.from_byte_offset, Wire.to_byte_offset.
  rewrite !convert_offset_to_position by (done || lia). cbn [mbind outcome_bind mret outcome_ret].
  eexists. split; [reflexivity|]. cbn [Wire.start Wire.end_ Wire.line Wire.character].
  pose proof (position_u32 (c1 ++ c2 ++ c3) (blen c1) Hu ltac:(lia)) as [? ?].
  pose proof (position_u32 (c1 ++ c2 ++ c3) (blen c1 + blen c2) Hu ltac:(lia)) as [? ?].
  rewrite !convert_position_to_offset by (done || lia).
  unfold offset_of, position_of. rewrite !place_locate by (apply rows_row_list || lia).
  split; [|split].
  - rewrite <- !surjective_pairing. apply locate_mono; [apply rows_row_list|lia].
  - by rewrite snap_addressable.
  - rewrite <- blen_app, app_assoc. by rewrite snap_addressable.
Qed.

Example wire_range_round_trip_witness :
  exists r, Wire.from_byte_offsets (encode sample) 1 9 = Ret r /\
    pos_le (Wire.line (Wire.start r), Wire.character (Wire.start r))
           (Wire.line (Wire.end_ r), Wire.character (Wire.end_ r)) /\
    Wire.to_byte_offset (Wire.start r) (encode sample) = Ret 1 /\
    Wire.to_byte_offset (Wire.end_ r) (encode sample) = Ret 9.
Proof.
  apply (wire_range_round_trip [97] [233; CR; LF; 128512] [98]);
    [apply sample_scalars|done|by intros [? ?]|by intros [? ?]].
Defined.

(** The byte-column index round-trips at every byte of the text, character
    boundary or not: encoding gives an existing row, and decoding the position
    returns the byte. *)
Theorem byte_column_round_trip cs byte :
  scalars cs -> 0 <= byte <= blen cs ->
  exists line column,
    ByteLineIndex.byte_to_position (ByteLineIndex.new (encode cs)) byte = Ret (line, column) /\
    0 <= line < len (rows cs) /\ 0 <= column /\
    ByteLineIndex.position_to_byte (ByteLineIndex.new (encode cs)) line column = Some byte.
Proof. apply byte_index_roundtrip. Qed.

Example byte_column_round_trip_witness :
  exists line column,
    ByteLineIndex.byte_to_position (ByteLineIndex.new (encode sample)) 7 = Ret (line, column) /\
    0 <= line < len (rows sample) /\ 0 <= column /\
    ByteLineIndex.position_to_byte (ByteLineIndex.new (encode sample)) line column = Some 7.
Proof. apply (byte_column_round_trip sample 7); [apply sample_scalars|]. done. Defined.
