(* ===== verification/Mapper.v ===== *)
(** * The rope-backed position mapper (perl-position-tracking/src/mapper.rs)

    [PositionMapper] keeps a document in a rope, converts between byte offsets
    and UTF-16 positions over the lines of the rope, and splices edits; next to
    it are the detection of the style of line endings and the splice of
    [apply_edit_utf8].  The rope is the class [RopeText] with the laws that
    ropey documents; its lines end at LF, CR, CRLF, VT, FF, NEL, LS and PS.
    Proved here: every byte offset survives the trip through a position, edits
    are splices that keep the style detected and never panic, and on texts
    whose lines end at LF or CRLF the mapper agrees with the LF rows of
    SourceRows on every exact position. *)

From stdpp Require Import base numbers sets list.
From S2P Require Import Prelude Utf8 StdText SourceRows LineIndex Convert Positions.
Import Wire.

(** ** The rope *)

Class RopeText (Rope : Type) := {
  rope_from_str : list Z -> Rope;
  rope_to_string : Rope -> list Z;
  rope_bytes : Rope -> Z;
  rope_lines : Rope -> Z;
  rope_byte_to_char : Rope -> Z -> outcome Z;
  rope_char_to_byte : Rope -> Z -> outcome Z;
  rope_byte_to_line : Rope -> Z -> outcome Z;
  rope_line_to_byte : Rope -> Z -> outcome Z;
  rope_line : Rope -> Z -> outcome (list Z);
  rope_slice : Rope -> Z -> Z -> outcome (list Z);
  rope_remove : Rope -> Z -> Z -> outcome Rope;
  rope_insert : Rope -> Z -> list Z -> outcome Rope;
}.

(** ** Line endings *)

Module LineEnding.
Inductive t := Lf | CrLf | Cr | Mixed.
#[export] Instance t_dec : EqDecision t.
Proof. solve_decision. Defined.
End LineEnding.
Export (hints) LineEnding.

(** The counters are of type [i32]. *)
Definition i32_add (x y : Z) : outcome Z := i32_op (x + y).
Fixpoint count_endings (bs : list Z) (crlf_count lf_count cr_count : Z) : outcome (Z * Z * Z) :=
  match bs with
  | [] => mret (crlf_count, lf_count, cr_count)
  | b :: bs =>
    if (b =? CR) && bool_decide (head bs = Some LF) then
      crlf_count ← i32_add crlf_count 1;
      match bs with _ :: bs => count_endings bs crlf_count lf_count cr_count | [] => Panic end
    else if b =? LF then lf_count ← i32_add lf_count 1; count_endings bs crlf_count lf_count cr_count
    else if b =? CR then cr_count ← i32_add cr_count 1; count_endings bs crlf_count lf_count cr_count
    else count_endings bs crlf_count lf_count cr_count
  end.
Definition detect_line_ending (text : list Z) : outcome LineEnding.t :=
  counts ← count_endings text 0 0 0;
  let '(crlf_count, lf_count, cr_count) := counts in
  mret
    (if (0 <? crlf_count) && (lf_count =? 0) && (cr_count =? 0) then LineEnding.CrLf
     else if (0 <? lf_count) && (crlf_count =? 0) && (cr_count =? 0) then LineEnding.Lf
     else if (0 <? cr_count) && (crlf_count =? 0) && (lf_count =? 0) then LineEnding.Cr
     else if (0 <? crlf_count) || (0 <? lf_count) || (0 <? cr_count) then LineEnding.Mixed
     else LineEnding.Lf).

(** ** Walking a line *)

(** The bytes of the characters that fit in [character] UTF-16 units. *)
Fixpoint bytes_to_column (cs : list Z) (character utf16_offset byte_offset : Z) : outcome Z :=
  match cs with
  | [] => mret byte_offset
  | ch :: cs =>
    if character <=? utf16_offset then mret byte_offset
    else
      next_utf16 ← u32_add utf16_offset (if 65535 <? ch then 2 else 1);
      if character <? next_utf16 then mret byte_offset
      else
        byte_offset ← usize_add byte_offset (len_utf8 ch);
        bytes_to_column cs character next_utf16 byte_offset
  end.
(** The UTF-16 units of the characters that fit in [byte_in_line] bytes. *)
Fixpoint column_at_byte (cs : list Z) (byte_in_line utf16_offset current_byte : Z) : outcome Z :=
  match cs with
  | [] => mret utf16_offset
  | ch :: cs =>
    if byte_in_line <=? current_byte then mret utf16_offset
    else
      next ← usize_add current_byte (len_utf8 ch);
      if byte_in_line <? next then mret utf16_offset
      else
        utf16_offset ← u32_add utf16_offset (if 65535 <? ch then 2 else 1);
        column_at_byte cs byte_in_line utf16_offset next
  end.

(** ** The mapper *)

Record PositionMapper (Rope : Type) := mkMapper { rope : Rope; line_ending : LineEnding.t }.
Arguments mkMapper {Rope} rope line_ending.
Arguments rope {Rope} _.
Arguments line_ending {Rope} _.

Section mapper.
Context {Rope : Type} `{!RopeText Rope}.
Implicit Type self : PositionMapper Rope.

Definition new (text : list Z) : outcome (PositionMapper Rope) :=
  ending ← detect_line_ending text; mret (mkMapper (rope_from_str text) ending).
Definition update (self : PositionMapper Rope) (text : list Z) : outcome (PositionMapper Rope) := new text.

Definition apply_edit self (start_byte end_byte : Z) (new_text : list Z) : outcome (PositionMapper Rope) :=
  let start_byte := Z.min start_byte (rope_bytes (rope self)) in
  let end_byte := Z.min end_byte (rope_bytes (rope self)) in
  start_char ← rope_byte_to_char (rope self) start_byte;
  end_char ← rope_byte_to_char (rope self) end_byte;
  r ← (if start_char <? end_char then rope_remove (rope self) start_char end_char else mret (rope self));
  r ← (if len new_text =? 0 then mret r else rope_insert r start_char new_text);
  ending ← detect_line_ending (rope_to_string r);
  mret (mkMapper r ending).

Definition lsp_pos_to_byte self (pos : WirePosition) : outcome (option Z) :=
  if rope_lines (rope self) <=? line pos then mret None
  else
    line_start_byte ← rope_line_to_byte (rope self) (line pos);
    text ← rope_line (rope self) (line pos);
    byte_offset ← bytes_to_column (chars text) (character pos) 0 0;
    byte ← usize_add line_start_byte byte_offset;
    mret (Some byte).

Definition byte_to_lsp_pos self (byte_offset : Z) : outcome WirePosition :=
  let byte_offset := Z.min byte_offset (rope_bytes (rope self)) in
  line_idx ← rope_byte_to_line (rope self) byte_offset;
  line_start_byte ← rope_line_to_byte (rope self) line_idx;
  byte_in_line ← usize_sub byte_offset line_start_byte;
  text ← rope_line (rope self) line_idx;
  utf16_offset ← column_at_byte (chars text) byte_in_line 0 0;
  mret (mkPosition (as_u32 line_idx) utf16_offset).

Definition text self : list Z := rope_to_string (rope self).
Definition slice self (start_byte end_byte : Z) : outcome (list Z) :=
  start_char ← rope_byte_to_char (rope self) (Z.min start_byte (rope_bytes (rope self)));
  end_char ← rope_byte_to_char (rope self) (Z.min end_byte (rope_bytes (rope self)));
  rope_slice (rope self) start_char end_char.
Definition len_bytes self : Z := rope_bytes (rope self).
Definition len_lines self : Z := rope_lines (rope self).
Definition lsp_pos_to_char self (pos : WirePosition) : outcome (option Z) :=
  byte ← lsp_pos_to_byte self pos;
  match byte with
  | Some byte => char_idx ← rope_byte_to_char (rope self) byte; mret (Some char_idx)
  | None => mret None
  end.
Definition char_to_lsp_pos self (char_idx : Z) : outcome WirePosition :=
  byte_offset ← rope_char_to_byte (rope self) char_idx; byte_to_lsp_pos self byte_offset.
Definition is_empty self : bool := rope_bytes (rope self) =? 0.
End mapper.

(** ** Splicing a string *)

(** [while c < text.len() && !text.is_char_boundary(c) { c += 1 }] *)
Fixpoint snap_forward (fuel : nat) (text : list Z) (c : Z) : Z :=
  match fuel with
  | S fuel => if (c <? len text) && negb (is_char_boundary text c) then snap_forward fuel text (c + 1) else c
  | O => c
  end.
(** [while c > start && !text.is_char_boundary(c) { c -= 1 }] *)
Fixpoint snap_backward (fuel : nat) (text : list Z) (start c : Z) : Z :=
  match fuel with
  | S fuel => if (start <? c) && negb (is_char_boundary text c) then snap_backward fuel text start (c - 1) else c
  | O => c
  end.
Definition apply_edit_utf8 (text : list Z) (start_byte old_end_byte : Z) (replacement : list Z) : outcome (list Z) :=
  if negb (is_char_boundary text start_byte) then
    let corrected := snap_forward (Z.to_nat (len text - start_byte)) text start_byte in
    if old_end_byte <? corrected then mret text else replace_range text corrected old_end_byte replacement
  else if negb (is_char_boundary text old_end_byte) then
    replace_range text start_byte (snap_backward (Z.to_nat (old_end_byte - start_byte)) text start_byte old_end_byte) replacement
  else replace_range text start_byte old_end_byte replacement.

Definition newline_count (text : list Z) : Z := len (filter (fun c => c = LF) (chars text)).
(** [rfind('\n')]: the bytes after the last one. *)
Fixpoint after_last_newline (text : list Z) : list Z :=
  match text with
  | [] => []
  | b :: rest => if bool_decide (LF ∈ rest) then after_last_newline rest else if b =? LF then rest else text
  end.
Definition last_line_column_utf8 (text : list Z) : Z := Z.min (len (after_last_newline text)) u32_max.

(** ** The lines of a rope *)

(** A character ends a line: LF, VT, FF, NEL, LS, PS, and CR unless the LF of
    its pair follows. *)
Definition ends_line (c : Z) (next : option Z) : bool :=
  (c =? LF) || (c =? 11) || (c =? 12) || (c =? 133) || (c =? 8232) || (c =? 8233) || ((c =? CR) && negb (bool_decide (next = Some LF))).
Fixpoint rope_rows (cs : list Z) : list (list Z) :=
  match cs with
  | [] => [[]]
  | c :: cs =>
    if ends_line c (head cs) then [c] :: rope_rows cs
    else match rope_rows cs with [] => [[c]] | r :: rs => (c :: r) :: rs end
  end.
(** The row of a byte offset. *)
Fixpoint row_index (rs : list (list Z)) (o : Z) : Z :=
  match rs with
  | [] => 0
  | r :: rs' => if bool_decide (rs' = []) || (o <? blen r) then 0 else 1 + row_index rs' (o - blen r)
  end.

(** Documented behaviour of ropey: a rope is its characters; a byte inside a
    character has the index of that character; lines are cut as above; and
    indices out of range panic. *)
Class RopeTextLaws (Rope : Type) `{!RopeText Rope} (content_of : Rope -> list Z) : Prop := {
  rl_scalars r : scalars (content_of r);
  rl_from_str cs : scalars cs -> content_of (rope_from_str (encode cs)) = cs;
  rl_to_string r : rope_to_string r = encode (content_of r);
  rl_bytes r : rope_bytes r = blen (content_of r);
  rl_lines r : rope_lines r = len (rope_rows (content_of r));
  rl_byte_to_char r b : 0 <= b <= blen (content_of r) -> rope_byte_to_char r b = Ret (len (floor_by len_utf8 (content_of r) b));
  rl_char_to_byte r i : 0 <= i <= len (content_of r) -> rope_char_to_byte r i = Ret (blen (ztake i (content_of r)));
  rl_byte_to_line r b : 0 <= b <= blen (content_of r) -> rope_byte_to_line r b = Ret (row_index (rope_rows (content_of r)) b);
  rl_line_to_byte r l : 0 <= l <= len (rope_rows (content_of r)) -> rope_line_to_byte r l = Ret (blen (concat (ztake l (rope_rows (content_of r)))));
  rl_line r l : rope_line r l = expect (encode <$> zget (rope_rows (content_of r)) l);
  rl_slice r a b : 0 <= a -> 0 <= b <= len (content_of r) -> rope_slice r a b = if a <=? b then Ret (encode (zslice (content_of r) a b)) else Panic;
  rl_remove r a b : 0 <= a <= b -> b <= len (content_of r) ->
    exists r', rope_remove r a b = Ret r' /\ content_of r' = ztake a (content_of r) ++ zdrop b (content_of r);
  rl_insert r i cs : 0 <= i <= len (content_of r) -> scalars cs ->
    exists r', rope_insert r i (encode cs) = Ret r' /\ content_of r' = ztake i (content_of r) ++ cs ++ zdrop i (content_of r);
}.

(** ** Lemmas *)

Lemma rope_rows_cons cs : exists r rs, rope_rows cs = r :: rs.
Proof. destruct cs as [|c cs]; simpl; [by eauto|]. destruct (ends_line _ _); [by eauto|]. destruct (rope_rows cs); eauto. Qed.
Lemma concat_rope_rows cs : concat (rope_rows cs) = cs.
Proof.
  induction cs as [|c cs IH]; [done|]. simpl. destruct (ends_line c (head cs)); simpl; [by f_equal|].
  revert IH. destruct (rope_rows cs); simpl; by intros <-.
Qed.
(** Where an offset falls. *)
Lemma any_row_split rs o : rs <> [] -> 0 <= o ->
  exists rs1 r rs2, rs = rs1 ++ r :: rs2 /\ blen (concat rs1) <= o /\ (rs2 = [] \/ o < blen (concat rs1) + blen r).
Proof.
  revert o. induction rs as [|r rs IH]; intros o Hne Ho; [done|]. destruct (Z_lt_le_dec o (blen r)) as [Hlt|Hle].
  { exists [], r, rs. simpl. repeat split; [done|by right]. }
  destruct rs as [|r' rs]; [by exists [], r, []; simpl; repeat split; [|left]|].
  destruct (IH (o - blen r)) as (rs1 & r1 & rs2 & -> & H1 & H2); [done|lia|].
  exists (r :: rs1), r1, rs2. simpl. rewrite blen_app. repeat split; [lia|]. destruct H2; [by left|right; lia].
Qed.
Lemma row_index_split rs1 r rs2 o : blen (concat rs1) <= o -> rs2 = [] \/ o < blen (concat rs1) + blen r -> row_index (rs1 ++ r :: rs2) o = len rs1.
Proof.
  revert o. induction rs1 as [|r1 rs1 IH]; intros o Hle Hlt; simpl in *.
  - destruct Hlt as [->|Hlt]; simpl; [done|]. rewrite (proj2 (Z.ltb_lt _ _)) by lia. by rewrite orb_true_r.
  - rewrite blen_app in *. pose proof (blen_nonneg (concat rs1)). rewrite bool_decide_eq_false_2 by (by destruct rs1). simpl. bcase.
    rewrite IH; [by rewrite len_cons|lia|destruct Hlt; [by left|right; lia]].
Qed.

Lemma width_eq ch : (if 65535 <? ch then 2 else 1) = len_utf16 ch.
Proof. unfold len_utf16. bcase; lia. Qed.
(** The walks stop at the longest prefix that fits. *)
Lemma bytes_to_column_floor cs character u b : 0 <= u -> 0 <= b -> u + u16len cs <= u32_max -> b + blen cs <= usize_max ->
  bytes_to_column cs character u b = Ret (b + blen (floor_by len_utf16 cs (character - u))).
Proof.
  revert u b. induction cs as [|c cs IH]; intros u b Hu Hb Hm Hn; simpl in *; [by rewrite Z.add_0_r|].
  pose proof (len_utf16_pos c). pose proof (len_utf8_pos c). pose proof (u16len_nonneg cs). pose proof (blen_nonneg cs).
  rewrite width_eq. unfold u32_add, usize_add. rewrite !arith_Ret by lia. simpl.
  destruct (Z.leb_spec character u); [rewrite (proj2 (Z.leb_gt _ _)) by lia; simpl; by rewrite Z.add_0_r|].
  destruct (Z.ltb_spec character (u + len_utf16 c)); [rewrite (proj2 (Z.leb_gt _ _)) by lia; simpl; by rewrite Z.add_0_r|].
  rewrite (proj2 (Z.leb_le _ _)) by lia. simpl. rewrite IH by lia. f_equal. replace (character - (u + len_utf16 c)) with (character - u - len_utf16 c) by lia. lia.
Qed.
Lemma column_at_byte_floor cs n u b : 0 <= u -> 0 <= b -> u + u16len cs <= u32_max -> b + blen cs <= usize_max ->
  column_at_byte cs n u b = Ret (u + u16len (floor_by len_utf8 cs (n - b))).
Proof.
  revert u b. induction cs as [|c cs IH]; intros u b Hu Hb Hm Hn; simpl in *; [by rewrite Z.add_0_r|].
  pose proof (len_utf16_pos c). pose proof (len_utf8_pos c). pose proof (u16len_nonneg cs). pose proof (blen_nonneg cs).
  rewrite width_eq. unfold u32_add, usize_add. rewrite !arith_Ret by lia. simpl.
  destruct (Z.leb_spec n b); [rewrite (proj2 (Z.leb_gt _ _)) by lia; simpl; by rewrite Z.add_0_r|].
  destruct (Z.ltb_spec n (b + len_utf8 c)); [rewrite (proj2 (Z.leb_gt _ _)) by lia; simpl; by rewrite Z.add_0_r|].
  rewrite (proj2 (Z.leb_le _ _)) by lia. simpl. rewrite IH by lia. f_equal. replace (n - (b + len_utf8 c)) with (n - b - len_utf8 c) by lia. lia.
Qed.

Lemma row_bounds cs rs1 r rs2 : rope_rows cs = rs1 ++ r :: rs2 ->
  cs = concat rs1 ++ r ++ concat rs2 /\ blen (concat rs1) + blen r <= blen cs /\ len rs1 <= blen (concat rs1) /\ (rs2 = [] -> blen (concat rs1) + blen r = blen cs).
Proof.
  intros E. pose proof (concat_rope_rows cs) as Ec. rewrite E, concat_app in Ec. simpl in Ec. split; [done|].
  pose proof (f_equal blen Ec) as Eb. rewrite !blen_app in Eb. pose proof (blen_nonneg (concat rs2)). split; [lia|]. split; [|intros ->; simpl in Eb; lia].
  clear -E. revert cs E. induction rs1 as [|r1 rs1 IH]; intros cs E; simpl in *; [by rewrite len_nil|].
  rewrite len_cons, blen_app. cut (0 < blen r1 /\ exists cs', rope_rows cs' = rs1 ++ r :: rs2).
  { intros [Hp [cs' E']]. specialize (IH cs' E'). lia. }
  clear IH. revert r1 E. induction cs as [|c cs IH]; intros r1 E; simpl in E; [by destruct rs1|].
  pose proof (len_utf8_pos c). destruct (ends_line c (head cs)).
  - injection E as <- E. split; [simpl; lia|by exists cs].
  - destruct (rope_rows_cons cs) as (r0 & rs0 & E0). rewrite E0 in *. injection E as <- E. destruct (IH r0) as [Hp Hx]; [by f_equal|]. split; [simpl; lia|done].
Qed.

Section mapper_laws.
Context {Rope : Type} `{!RopeText Rope} (content_of : Rope -> list Z) `{!RopeTextLaws Rope content_of}.
Implicit Type m : PositionMapper Rope.
Notation cs m := (content_of (rope m)).

Lemma position_at m o : u32_sized (cs m) -> 0 <= o ->
  exists rs1 r rs2, rope_rows (cs m) = rs1 ++ r :: rs2 /\ blen (concat rs1) <= Z.min o (blen (cs m)) /\ (rs2 = [] \/ Z.min o (blen (cs m)) < blen (concat rs1) + blen r) /\
    byte_to_lsp_pos m o = Ret (mkPosition (len rs1) (u16len (floor_by len_utf8 r (Z.min o (blen (cs m)) - blen (concat rs1))))).
Proof using RopeTextLaws0.
  intros Hu Ho. unfold u32_sized in Hu. pose proof (blen_nonneg (cs m)) as Hn.
  destruct (any_row_split (rope_rows (cs m)) (Z.min o (blen (cs m)))) as (rs1 & r & rs2 & E & Hle & Hlt); [by destruct (rope_rows_cons (cs m)) as (? & ? & ->)|lia|].
  exists rs1, r, rs2. split; [done|]. split; [done|]. split; [done|]. destruct (row_bounds _ _ _ _ E) as (_ & Hb & Hl & _).
  pose proof (blen_nonneg (concat rs1)). pose proof (blen_nonneg r). pose proof (u16len_le_blen r). pose proof (len_nonneg rs1). pose proof (len_nonneg rs2).
  unfold byte_to_lsp_pos. rewrite (rl_bytes (content_of := content_of)), (rl_byte_to_line (content_of := content_of)), E by lia. rewrite row_index_split by done. simpl.
  rewrite (rl_line_to_byte (content_of := content_of)), E by (rewrite E, len_app, len_cons; lia). rewrite ztake_app_len. simpl.
  unfold usize_sub. rewrite arith_Ret by (unfold usize_max, u32_max in *; lia). simpl.
  rewrite (rl_line (content_of := content_of)), E, zget_app_len. simpl.
  assert (Hs : scalars r).
  { pose proof (rl_scalars (content_of := content_of) (rope m)) as Hs. rewrite (proj1 (row_bounds _ _ _ _ E)) in Hs. by apply scalars_app_3 in Hs as (_ & Hs & _). }
  rewrite chars_encode by done. rewrite column_at_byte_floor by (unfold usize_max, u32_max in *; lia). simpl. rewrite as_u32_small by lia. by rewrite Z.sub_0_r.
Qed.
Lemma byte_at m rs1 r rs2 col : u32_sized (cs m) -> rope_rows (cs m) = rs1 ++ r :: rs2 ->
  lsp_pos_to_byte m (mkPosition (len rs1) col) = Ret (Some (blen (concat rs1) + blen (floor_by len_utf16 r col))).
Proof using RopeTextLaws0.
  intros Hu E. unfold u32_sized in Hu. destruct (row_bounds _ _ _ _ E) as (Ecs & Hb & _ & _).
  pose proof (blen_nonneg (concat rs1)). pose proof (blen_nonneg r). pose proof (u16len_le_blen r). pose proof (len_nonneg rs1). pose proof (len_nonneg rs2).
  unfold lsp_pos_to_byte. cbn [line character]. rewrite (rl_lines (content_of := content_of)), E, len_app, len_cons. rewrite (proj2 (Z.leb_gt _ _)) by lia.
  rewrite (rl_line_to_byte (content_of := content_of)), E by (rewrite E, len_app, len_cons; lia). rewrite ztake_app_len. simpl.
  rewrite (rl_line (content_of := content_of)), E, zget_app_len. simpl.
  assert (Hs : scalars r).
  { pose proof (rl_scalars (content_of := content_of) (rope m)) as Hs. rewrite Ecs in Hs. by apply scalars_app_3 in Hs as (_ & Hs & _). }
  rewrite chars_encode by done. rewrite bytes_to_column_floor by (unfold usize_max, u32_max in *; lia). simpl. rewrite Z.sub_0_r.
  assert (blen (floor_by len_utf16 r col) <= blen r).
  { destruct (floor_by_split len_utf16 r col) as [k Ek]. apply (f_equal blen) in Ek. rewrite blen_app in Ek. pose proof (blen_nonneg k). lia. }
  pose proof (blen_nonneg (floor_by len_utf16 r col)). unfold usize_add. by rewrite arith_Ret by (unfold usize_max, u32_max in *; lia).
Qed.
Lemma no_line m pos : len (rope_rows (cs m)) <= line pos -> lsp_pos_to_byte m pos = Ret None.
Proof using RopeTextLaws0. intros H. unfold lsp_pos_to_byte. rewrite (rl_lines (content_of := content_of)). by rewrite (proj2 (Z.leb_le _ _)). Qed.
End mapper_laws.

(** ** Line endings found in a text *)

Fixpoint endings (bs : list Z) : list LineEnding.t :=
  match bs with
  | [] => []
  | b :: bs =>
    if (b =? CR) && bool_decide (head bs = Some LF) then LineEnding.CrLf :: match bs with _ :: bs => endings bs | [] => [] end
    else if b =? LF then LineEnding.Lf :: endings bs
    else if b =? CR then LineEnding.Cr :: endings bs
    else endings bs
  end.
Definition occurrences (e : LineEnding.t) (es : list LineEnding.t) : Z := len (filter (fun x => x = e) es).

Lemma occurrences_cons e x es : occurrences e (x :: es) = (if decide (x = e) then 1 else 0) + occurrences e es.
Proof. unfold occurrences. rewrite filter_cons. destruct (decide (x = e)); rewrite ?len_cons; lia. Qed.
Lemma occurrences_pos e es : 0 < occurrences e es <-> e ∈ es.
Proof.
  induction es as [|x es IH]; [split; [unfold occurrences, len; simpl; lia|by intros ?%elem_of_nil]|].
  rewrite occurrences_cons, elem_of_cons. destruct (decide (x = e)) as [->|Hn]; [split; [by left|]|rewrite Z.add_0_l, IH; naive_solver].
  intros _. pose proof (len_nonneg (filter (fun x => x = e) es)). unfold occurrences. lia.
Qed.
Lemma occurrences_nonneg e es : 0 <= occurrences e es.
Proof. apply len_nonneg. Qed.
Lemma i32_add_Ret x : 0 <= x < i32_max -> i32_add x 1 = Ret (x + 1).
Proof. unfold i32_max, i32_add, i32_op. intros H. apply arith_Ret. lia. Qed.
Lemma three_equal (x y z x' y' z' : Z) : x = x' -> y = y' -> z = z' -> Ret (x, y, z) = Ret (x', y', z').
Proof. congruence. Qed.
Lemma count_endings_exact bs a b c : 0 <= a -> 0 <= b -> 0 <= c -> a + b + c + len bs <= i32_max ->
  count_endings bs a b c = Ret (a + occurrences LineEnding.CrLf (endings bs), b + occurrences LineEnding.Lf (endings bs), c + occurrences LineEnding.Cr (endings bs)) /\
  LineEnding.Mixed ∉ endings bs.
Proof.
  remember (length bs) as n eqn:En. revert bs a b c En. induction (lt_wf n) as [n _ IH]. intros bs a b c -> Ha Hb Hc Hm.
  destruct bs as [|x bs]; [rewrite !Z.add_0_r; split; [done|by apply not_elem_of_nil]|]. rewrite len_cons in Hm. pose proof (len_nonneg bs) as Hn. cbn [count_endings endings].
  destruct ((x =? CR) && bool_decide (head bs = Some LF)) eqn:E1; [destruct bs as [|y bs]; [by rewrite andb_false_r in E1|rewrite len_cons in Hm]|
    destruct (x =? LF) eqn:E2; [|destruct (x =? CR) eqn:E3]].
  all: pose proof (len_nonneg bs).
  1,2,3: rewrite i32_add_Ret by lia; simpl.
  all: rewrite ?occurrences_cons, ?not_elem_of_cons; simpl.
  all: match goal with |- context [count_endings ?l ?p ?q ?r] => destruct (IH (length l) ltac:(simpl; lia) l p q r) as [-> Hx]; [done|lia..|] end.
  all: split; [apply three_equal; lia|set_solver].
Qed.
(** The style is that of all endings of the text, Lf when it has none, and
    Mixed when two of them differ. *)
Lemma detect_exact bs : len bs <= i32_max -> exists e, detect_line_ending bs = Ret e /\
  (endings bs = [] -> e = LineEnding.Lf) /\ (e <> LineEnding.Mixed <-> Forall (fun x => x = e) (endings bs)).
Proof.
  intros Hl. destruct (count_endings_exact bs 0 0 0) as [E Hm]; [lia..|]. unfold detect_line_ending. rewrite E. simpl.
  pose proof (occurrences_pos LineEnding.CrLf (endings bs)) as H1. pose proof (occurrences_pos LineEnding.Lf (endings bs)) as H2. pose proof (occurrences_pos LineEnding.Cr (endings bs)) as H3.
  pose proof (occurrences_nonneg LineEnding.CrLf (endings bs)). pose proof (occurrences_nonneg LineEnding.Lf (endings bs)). pose proof (occurrences_nonneg LineEnding.Cr (endings bs)).
  eexists. split; [reflexivity|]. split; [intros Ee; rewrite Ee; done|]. rewrite Forall_forall.
  repeat match goal with |- context [?x <? ?y] => destruct (Z.ltb_spec x y) | |- context [?x =? ?y] => destruct (Z.eqb_spec x y) end; simpl.
  all: try lia. all: split; [|try done].
  all: try (intros Hne [] Hx; try done; exfalso; first [by apply Hm|apply H1 in Hx; lia|apply H2 in Hx; lia|apply H3 in Hx; lia]).
  all: intros Hall; exfalso.
  all: repeat match goal with H : 0 < 0 + occurrences ?e ?l |- _ => assert (e ∈ l) by (apply occurrences_pos; lia); clear H end.
  all: match goal with H : ?e ∈ endings _ |- _ => by specialize (Hall e H) end.
Qed.

(** ** Laws of the mapper *)

(** The character that an offset falls in, or the end of the text. *)
Definition floor_byte (cs : list Z) (o : Z) : list Z := floor_by len_utf8 cs o.
Lemma floor_min cs o : blen (floor_byte cs (Z.min o (blen cs))) = blen (floor_byte cs o).
Proof. unfold floor_byte. destruct (Z.le_gt_cases (blen cs) o); [rewrite !(floor_by_all len_utf8) by lia|rewrite Z.min_l by lia]; done. Qed.
Lemma floor_len cs o : len (floor_byte cs (Z.min o (blen cs))) = len (floor_byte cs o).
Proof. unfold floor_byte. destruct (Z.le_gt_cases (blen cs) o); [rewrite !(floor_by_all len_utf8) by lia|rewrite Z.min_l by lia]; done. Qed.
Lemma floor_bound cs o : len (floor_byte cs o) <= len cs /\ cs = floor_byte cs o ++ zdrop (len (floor_byte cs o)) cs.
Proof.
  unfold floor_byte. destruct (floor_by_split len_utf8 cs o) as [k Ek]. revert Ek. generalize (floor_by len_utf8 cs o). intros w ->.
  rewrite len_app, zdrop_app_len. pose proof (len_nonneg k). split; [lia|done].
Qed.

Section mapper_theorems.
Context {Rope : Type} `{!RopeText Rope} (content_of : Rope -> list Z) `{!RopeTextLaws Rope content_of}.
Implicit Type m : PositionMapper Rope.
Notation cs m := (content_of (rope m)).

(** C34. Every byte offset has a position on a line of the rope, and the position
    leads back to the start of the character that the offset falls in; every
    position on a line leads to a character boundary, any other to none. *)
Theorem mapper_round_trip m : u32_sized (cs m) ->
  (forall o, 0 <= o -> exists p, byte_to_lsp_pos m o = Ret p /\ 0 <= line p < len_lines m /\
    lsp_pos_to_byte m p = Ret (Some (blen (floor_byte (cs m) o)))) /\
  (forall p, 0 <= line p -> 0 <= character p ->
    (lsp_pos_to_byte m p = Ret None /\ len_lines m <= line p) \/
    exists b, lsp_pos_to_byte m p = Ret (Some b) /\ line p < len_lines m /\ 0 <= b <= len_bytes m /\ is_char_boundary (text m) b = true).
Proof using RopeTextLaws0.
  intros Hu. unfold len_lines, len_bytes, text. rewrite (rl_lines (content_of := content_of)), (rl_bytes (content_of := content_of)), (rl_to_string (content_of := content_of)). split.
  - intros o Ho. destruct (position_at content_of m o Hu Ho) as (rs1 & r & rs2 & E & Hle & Hlt & Hp). eexists. split; [exact Hp|]. split.
    { simpl. rewrite E, len_app, len_cons. pose proof (len_nonneg rs1). pose proof (len_nonneg rs2). lia. }
    rewrite (byte_at content_of m rs1 r rs2) by done. do 2 f_equal. rewrite <- floor_min. destruct (row_bounds _ _ _ _ E) as (Ec & _ & _ & Hend). unfold floor_byte. set (k := Z.min o _) in *. rewrite Ec.
    destruct (floor_by_split len_utf8 r (k - blen (concat rs1))) as [t Et]. rewrite Et at 1. rewrite (floor_by_prefix len_utf16). rewrite (floor_by_app len_utf8), blen_app by done. f_equal.
    destruct Hlt as [->|Hlt]; [by rewrite app_nil_r|]. by rewrite (floor_by_app_l len_utf8) by lia.
  - intros p Hl Hc. destruct (Z.le_gt_cases (len (rope_rows (cs m))) (line p)) as [Hge|Hlt]; [left; split; [by apply (no_line content_of)|done]|right].
    destruct (zget_lt_Some (rope_rows (cs m)) (line p)) as [r Hr]; [lia|]. apply zget_split in Hr as (rs1 & rs2 & E & El). destruct p as [l c]. simpl in *. subst l.
    rewrite (byte_at content_of m rs1 r rs2) by done. eexists. split; [done|]. split; [done|]. destruct (row_bounds _ _ _ _ E) as (Ec & Hb & _).
    destruct (floor_by_split len_utf16 r c) as [t Et]. pose proof (f_equal blen Et) as Eb. rewrite blen_app in Eb. pose proof (blen_nonneg t). pose proof (blen_nonneg (concat rs1)). pose proof (blen_nonneg (floor_by len_utf16 r c)). split; [lia|].
    pose proof (rl_scalars (content_of := content_of) (rope m)) as Hs. rewrite Ec in Hs |- *. clear Ec E Hb. set (w := floor_by len_utf16 r c) in *. clearbody w. subst r. rewrite <- blen_app.
    replace (concat rs1 ++ (w ++ t) ++ concat rs2) with ((concat rs1 ++ w) ++ t ++ concat rs2) in Hs |- * by (by rewrite <- !app_assoc). by apply boundary_prefix.
Qed.

(** C35. An edit replaces the characters between those that its two offsets fall
    in, or inserts before the first when the offsets are reversed; offsets
    behind the text are its end.  The style of line endings is the one
    detected in the new text, and nothing panics. *)
Theorem mapper_edit_splices m s e new_cs : 0 <= s -> 0 <= e -> scalars new_cs -> blen (cs m) + blen new_cs <= i32_max ->
  exists m', apply_edit m s e (encode new_cs) = Ret m' /\
    cs m' = floor_byte (cs m) s ++ new_cs ++ zdrop (Z.max (len (floor_byte (cs m) s)) (len (floor_byte (cs m) e))) (cs m) /\
    detect_line_ending (text m') = Ret (line_ending m').
Proof using RopeTextLaws0.
  intros Hs He Hn Hsize. unfold apply_edit, text. rewrite (rl_bytes (content_of := content_of)). pose proof (blen_nonneg (cs m)).
  rewrite !(rl_byte_to_char (content_of := content_of)) by lia. simpl. fold (floor_byte (cs m) (Z.min s (blen (cs m)))) (floor_byte (cs m) (Z.min e (blen (cs m)))). rewrite !floor_len.
  destruct (floor_bound (cs m) s) as [Hsl Hsd], (floor_bound (cs m) e) as [Hel Hed]. set (ls := len (floor_byte (cs m) s)) in *. set (le := len (floor_byte (cs m) e)) in *.
  assert (Hls : 0 <= ls) by apply len_nonneg. assert (Hta : ztake ls (cs m) = floor_byte (cs m) s) by (rewrite Hsd at 1; apply ztake_app_len).
  assert (Hr : exists r1, (if ls <? le then rope_remove (rope m) ls le else mret (rope m)) = Ret r1 /\ content_of r1 = floor_byte (cs m) s ++ zdrop (Z.max ls le) (cs m)).
  { destruct (Z.ltb_spec ls le) as [Hlt|Hge].
    - destruct (rl_remove (content_of := content_of) (rope m) ls le) as (r1 & E1 & E2); [lia..|]. exists r1. split; [done|]. rewrite E2, Hta. do 2 f_equal. lia.
    - exists (rope m). split; [done|]. rewrite Z.max_l by lia. exact Hsd. }
  destruct Hr as (r1 & -> & Er1). simpl. rewrite len_encode.
  assert (Hr : exists r2, (if blen new_cs =? 0 then mret r1 else rope_insert r1 ls (encode new_cs)) = Ret r2 /\ content_of r2 = floor_byte (cs m) s ++ new_cs ++ zdrop (Z.max ls le) (cs m)).
  { destruct (Z.eqb_spec (blen new_cs) 0) as [E0|]; [apply blen_zero_nil in E0 as ->; by exists r1|].
    destruct (rl_insert (content_of := content_of) r1 ls new_cs) as (r2 & E1 & E2); [rewrite Er1, len_app; fold ls; pose proof (len_nonneg (zdrop (Z.max ls le) (cs m))); lia|done|].
    exists r2. split; [done|]. rewrite E2, Er1. unfold ls. by rewrite ztake_app_len, zdrop_app_len. }
  destruct Hr as (r2 & -> & Er2). simpl. rewrite (rl_to_string (content_of := content_of)).
  destruct (detect_exact (encode (content_of r2))) as (ending & Ee & _).
  { rewrite len_encode, Er2, !blen_app. pose proof (f_equal blen Hsd) as Hb. rewrite blen_app in Hb. fold ls in Hb.
    assert (blen (zdrop (Z.max ls le) (cs m)) <= blen (zdrop ls (cs m))); [|lia].
    pose proof (f_equal blen (ztake_zdrop (zdrop ls (cs m)) (Z.max ls le - ls))) as Hd. rewrite blen_app in Hd. unfold zdrop at 2 in Hd. unfold zdrop at 2 in Hd.
    rewrite drop_drop in Hd. replace (Z.to_nat ls + Z.to_nat (Z.max ls le - ls))%nat with (Z.to_nat (Z.max ls le)) in Hd by lia. fold (zdrop (Z.max ls le) (cs m)) in Hd.
    pose proof (blen_nonneg (ztake (Z.max ls le - ls) (zdrop ls (cs m)))). lia. }
  rewrite Ee. simpl. exists (mkMapper r2 ending). split; [done|]. split; [done|]. simpl. by rewrite (rl_to_string (content_of := content_of)), Ee.
Qed.
End mapper_theorems.

(** ** The rows of a rope and the rows of the specification *)

(** Every line of the text ends at LF or CRLF. *)
Definition lf_lines (cs : list Z) : Prop :=
  Forall (fun c => c ∉ [11; 12; 133; 8232; 8233]) cs /\ forall c1 c2, cs = c1 ++ CR :: c2 -> head c2 = Some LF.
Lemma rope_rows_lf cs : lf_lines cs -> rope_rows cs = rows cs.
Proof.
  induction cs as [|c cs IH]; intros [Hn Hcr]; [done|]. inversion Hn as [|? ? Hc Hn']; subst. simpl.
  rewrite IH by (split; [done|intros c1 c2 ->; by apply (Hcr (c :: c1))]).
  assert (ends_line c (head cs) = (c =? LF)) as ->; [|by destruct (Z.eqb_spec c LF) as [->|]]. rewrite !not_elem_of_cons in Hc. unfold ends_line.
  rewrite (proj2 (Z.eqb_neq c 11)), (proj2 (Z.eqb_neq c 12)), (proj2 (Z.eqb_neq c 133)), (proj2 (Z.eqb_neq c 8232)), (proj2 (Z.eqb_neq c 8233)) by tauto. rewrite !orb_false_r. destruct (Z.eqb_spec c CR) as [->|]; [|by rewrite orb_false_r].
  rewrite bool_decide_eq_true_2 by (by apply (Hcr [])). by rewrite orb_false_r.
Qed.
Lemma row_list_terminated rs1 r rs2 : row_list (rs1 ++ r :: rs2) -> Forall terminated rs1.
Proof. induction rs1 as [|r1 rs1 IH]; intros H; [done|]. inversion H as [? ? E|]; subst; [by destruct rs1|]. constructor; auto. Qed.
(** Flooring within the content of a row is flooring in the row. *)
Lemma floor_in_content w `{!Width w} r k : wlen w (floor_by w (content r) k) = k -> floor_by w r k = floor_by w (content r) k.
Proof.
  intros Hk. destruct (content_prefix r) as [t Et], (floor_by_split w (content r) k) as [u Eu].
  revert Hk Eu. generalize (floor_by w (content r) k). intros v Hk Eu. rewrite Et, Eu, <- app_assoc, <- Hk. apply (floor_by_prefix w).
Qed.

Section agreement.
Context {Rope : Type} `{!RopeText Rope} (content_of : Rope -> list Z) `{!RopeTextLaws Rope content_of}.
Implicit Type m : PositionMapper Rope.
Notation cs m := (content_of (rope m)).

(** On a text whose lines end at LF or CRLF the mapper agrees with the free
    conversions: in both directions at every offset that is a character
    boundary and not between a CR and its LF. *)
Theorem mapper_agrees_with_convert m c1 c2 : lf_lines (cs m) -> u32_sized (cs m) -> cs m = c1 ++ c2 ->
  ~ (last c1 = Some CR /\ head c2 = Some LF) ->
  exists l c, byte_to_lsp_pos m (blen c1) = Ret (mkPosition l c) /\ offset_to_utf16_line_col (text m) (blen c1) = Ret (l, c) /\
    lsp_pos_to_byte m (mkPosition l c) = Ret (Some (blen c1)) /\ utf16_line_col_to_offset (text m) l c = Ret (blen c1).
Proof using RopeTextLaws0.
  intros Hlf Hu Ec Hadd. unfold text. rewrite (rl_to_string (content_of := content_of)). pose proof (blen_nonneg c1) as Hn.
  pose proof (rl_scalars (content_of := content_of) (rope m)) as Hs.
  assert (Hmin : Z.min (blen c1) (blen (cs m)) = blen c1) by (rewrite Ec, blen_app; pose proof (blen_nonneg c2); lia).
  destruct (position_at content_of m (blen c1) Hu Hn) as (rs1 & r & rs2 & E & Hle & Hlt & Hp). rewrite Hmin in *. rewrite rope_rows_lf in E by done.
  pose proof (snap_addressable c1 c2 Hadd) as Hsnap. rewrite <- Ec, E in Hsnap. pose proof (rows_row_list (cs m)) as Hrl. rewrite E in Hrl.
  pose proof (row_list_terminated _ _ _ Hrl) as Ht. rewrite snap_split in Hsnap by done.
  rewrite (floor_in_content len_utf8) in Hp by lia. eexists _, _. split; [exact Hp|].
  rewrite convert_offset_to_position by done. unfold position_of. rewrite E, locate_split by done. split; [done|].
  destruct (floor_by_split len_utf8 (content r) (blen c1 - blen (concat rs1))) as [t Et]. set (w := floor_by len_utf8 (content r) (blen c1 - blen (concat rs1))) in *.
  assert (Hw : floor_by len_utf16 (content r) (u16len w) = w) by (rewrite Et; apply (floor_by_prefix len_utf16)).
  rewrite (byte_at content_of m rs1 r rs2) by (done || by rewrite rope_rows_lf). rewrite (floor_in_content len_utf16), Hw by (by rewrite Hw). split; [do 2 f_equal; lia|].
  pose proof (u16len_nonneg w). pose proof (len_nonneg rs1). pose proof (u16len_le_blen w). pose proof (blen_nonneg w).
  rewrite convert_position_to_offset; [|done|done| |lia].
  - unfold offset_of. rewrite E, place_split, Hw. f_equal. lia.
  - split; [done|]. destruct (row_bounds (cs m) rs1 r rs2) as (_ & Hb & Hl & _); [by rewrite rope_rows_lf|]. unfold u32_sized in Hu. pose proof (blen_nonneg r). lia.
Qed.
End agreement.

(** ** The splice of [apply_edit_utf8] *)

Lemma snap_forward_interior c1 c c2 fuel k : scalars (c1 ++ c :: c2) -> 0 < k <= len_utf8 c -> len_utf8 c - k <= Z.of_nat fuel ->
  snap_forward fuel (encode (c1 ++ c :: c2)) (blen c1 + k) = blen c1 + len_utf8 c.
Proof.
  intros Hs. revert k. induction fuel as [|fuel IH]; intros k Hk Hf; simpl; [lia|].
  pose proof (blen_nonneg c2). destruct (Z.eq_dec k (len_utf8 c)) as [->|Hne].
  - replace (c1 ++ c :: c2) with ((c1 ++ [c]) ++ c2) in Hs |- * by (by rewrite <- app_assoc).
    replace (blen c1 + len_utf8 c) with (blen (c1 ++ [c])) by (rewrite blen_app; simpl; lia). rewrite boundary_prefix by done. by rewrite andb_false_r.
  - apply scalars_app in Hs as [Hs1 Hs]. inversion Hs as [|? ? Hc Hs2]; subst. rewrite boundary_interior by (done || lia).
    rewrite len_encode, blen_app. simpl. rewrite (proj2 (Z.ltb_lt _ _)) by lia. simpl. rewrite <- Z.add_assoc. apply IH; lia.
Qed.
Lemma snap_backward_interior c1 c c2 fuel start k : scalars (c1 ++ c :: c2) -> start <= blen c1 -> 0 <= k < len_utf8 c -> k <= Z.of_nat fuel ->
  snap_backward fuel (encode (c1 ++ c :: c2)) start (blen c1 + k) = blen c1.
Proof.
  intros Hs Hst. revert k. induction fuel as [|fuel IH]; intros k Hk Hf; simpl; [lia|].
  destruct (Z.eq_dec k 0) as [->|Hne]; [rewrite Z.add_0_r, boundary_prefix by done; by rewrite andb_false_r|].
  pose proof Hs as [_ Hs2]%scalars_app. inversion Hs2; subst. rewrite boundary_interior by (done || lia). rewrite (proj2 (Z.ltb_lt _ _)) by lia. simpl.
  replace (blen c1 + k - 1) with (blen c1 + (k - 1)) by lia. apply IH; lia.
Qed.
(** An end inside a character is moved inwards, so that the character stays,
    when the other end is a boundary; ends inside one character change
    nothing; ends inside two different characters panic. *)
Lemma apply_edit_utf8_start_inside c1 c mid c3 k replacement : scalars (c1 ++ c :: mid ++ c3) -> 0 < k < len_utf8 c ->
  apply_edit_utf8 (encode (c1 ++ c :: mid ++ c3)) (blen c1 + k) (blen c1 + len_utf8 c + blen mid) (encode replacement) = Ret (encode ((c1 ++ [c]) ++ replacement ++ c3)).
Proof.
  intros Hs Hk. unfold apply_edit_utf8. pose proof Hs as [_ Hs2]%scalars_app. inversion Hs2 as [|? ? Hc Hs3]; subst. pose proof (blen_nonneg mid). pose proof (blen_nonneg c3).
  rewrite boundary_interior by done. simpl. rewrite snap_forward_interior by (done || lia || (rewrite len_encode, blen_app; simpl; rewrite blen_app; lia)).
  rewrite (proj2 (Z.ltb_ge _ _)) by lia.
  replace (c1 ++ c :: mid ++ c3) with ((c1 ++ [c]) ++ mid ++ c3) in Hs |- * by (by rewrite <- app_assoc).
  replace (blen c1 + len_utf8 c) with (blen (c1 ++ [c])) by (rewrite blen_app; simpl; lia). by rewrite replace_range_mid.
Qed.
Lemma apply_edit_utf8_end_inside c1 mid c c3 k replacement : scalars (c1 ++ mid ++ c :: c3) -> 0 < k < len_utf8 c ->
  apply_edit_utf8 (encode (c1 ++ mid ++ c :: c3)) (blen c1) (blen c1 + blen mid + k) (encode replacement) = Ret (encode (c1 ++ replacement ++ c :: c3)).
Proof.
  intros Hs Hk. unfold apply_edit_utf8. pose proof (blen_nonneg mid). rewrite boundary_prefix by done. cbn [negb].
  assert (Hs' : scalars ((c1 ++ mid) ++ c :: c3)) by (by rewrite <- app_assoc). rewrite <- blen_app. rewrite app_assoc. pose proof Hs' as [_ Hs2]%scalars_app. inversion Hs2; subst.
  rewrite boundary_interior by done. cbn [negb]. rewrite snap_backward_interior by (done || (rewrite ?blen_app; lia)). rewrite <- app_assoc, blen_app. by rewrite replace_range_mid.
Qed.
Lemma apply_edit_utf8_both_inside c1 c mid d c3 j k replacement : scalars (c1 ++ c :: mid ++ d :: c3) -> 0 < j < len_utf8 c -> 0 < k < len_utf8 d ->
  apply_edit_utf8 (encode (c1 ++ c :: mid ++ d :: c3)) (blen c1 + j) (blen c1 + len_utf8 c + blen mid + k) replacement = Panic.
Proof.
  intros Hs Hj Hk. unfold apply_edit_utf8. pose proof Hs as [Hs1 Hs2]%scalars_app. inversion Hs2 as [|? ? Hc Hs3]; subst. apply scalars_app in Hs3 as [Hs3 Hs4]. inversion Hs4; subst.
  pose proof (blen_nonneg mid). pose proof (blen_nonneg c3). rewrite boundary_interior by done. simpl.
  rewrite snap_forward_interior by (done || lia || (rewrite len_encode, blen_app; simpl; rewrite blen_app; simpl; lia)). rewrite (proj2 (Z.ltb_ge _ _)) by lia.
  unfold replace_range. replace (c1 ++ c :: mid ++ d :: c3) with ((c1 ++ c :: mid) ++ d :: c3) by (by rewrite <- app_assoc).
  replace (blen c1 + len_utf8 c + blen mid + k) with (blen (c1 ++ c :: mid) + k) by (rewrite blen_app; simpl; lia). rewrite boundary_interior by done. by rewrite !andb_false_r.
Qed.

(** ** A concrete rope: its characters *)

Definition clean (cs : list Z) : list Z := filter (fun c => is_scalar c = true) cs.
Lemma clean_scalars cs : scalars (clean cs).
Proof. apply Forall_forall. by intros c [Hc _]%list_elem_of_filter. Qed.
Lemma clean_id cs : scalars cs -> clean cs = cs.
Proof. unfold clean. induction 1 as [|c cs Hc _ IH]; [done|]. by rewrite filter_cons_True, IH. Qed.
#[export] Instance plain_rope : RopeText (list Z) := {|
  rope_from_str s := chars s;
  rope_to_string r := encode (clean r);
  rope_bytes r := blen (clean r);
  rope_lines r := len (rope_rows (clean r));
  rope_byte_to_char r b := if b <=? blen (clean r) then Ret (len (floor_by len_utf8 (clean r) b)) else Panic;
  rope_char_to_byte r i := if i <=? len (clean r) then Ret (blen (ztake i (clean r))) else Panic;
  rope_byte_to_line r b := if b <=? blen (clean r) then Ret (row_index (rope_rows (clean r)) b) else Panic;
  rope_line_to_byte r l := if l <=? len (rope_rows (clean r)) then Ret (blen (concat (ztake l (rope_rows (clean r))))) else Panic;
  rope_line r l := expect (encode <$> zget (rope_rows (clean r)) l);
  rope_slice r a b := if (a <=? b) && (b <=? len (clean r)) then Ret (encode (zslice (clean r) a b)) else Panic;
  rope_remove r a b := if (a <=? b) && (b <=? len (clean r)) then Ret (ztake a (clean r) ++ zdrop b (clean r)) else Panic;
  rope_insert r i s := if i <=? len (clean r) then Ret (ztake i (clean r) ++ chars s ++ zdrop i (clean r)) else Panic;
|}.
#[export] Instance plain_rope_laws : RopeTextLaws (list Z) clean.
Proof.
  assert (Ht : forall i r, scalars (ztake i (clean r))) by (intros; apply Forall_take, clean_scalars).
  assert (Hd : forall i r, scalars (zdrop i (clean r))) by (intros; apply Forall_drop, clean_scalars).
  constructor; intros; simpl; rewrite ?(proj2 (Z.leb_le _ _)) by lia; try done.
  - apply clean_scalars.
  - rewrite chars_encode by done. by apply clean_id.
  - rewrite (proj2 (Z.leb_le b _)) by lia. by rewrite andb_true_r.
  - eexists. split; [done|]. apply clean_id, scalars_app. done.
  - eexists. split; [done|]. rewrite chars_encode by done. apply clean_id, scalars_app_3. done.
Qed.

Definition demo_mapper : PositionMapper (list Z) := mkMapper sample LineEnding.CrLf.
Lemma mapper_round_trip_witness : exists p, byte_to_lsp_pos demo_mapper 6 = Ret p /\ 0 <= line p < len_lines demo_mapper /\
  lsp_pos_to_byte demo_mapper p = Ret (Some (blen (floor_byte (clean (rope demo_mapper)) 6))).
Proof. apply (mapper_round_trip clean demo_mapper); [by vm_compute|lia]. Defined.
Lemma mapper_edit_splices_witness : exists m', apply_edit demo_mapper 2 8 (encode [233]) = Ret m' /\
  clean (rope m') = floor_byte sample 2 ++ [233] ++ zdrop 4 sample /\ detect_line_ending (text m') = Ret (line_ending m').
Proof. apply (mapper_edit_splices clean demo_mapper 2 8 [233]); [lia|lia|by repeat constructor|by vm_compute]. Defined.
Lemma mapper_agrees_with_convert_witness : exists l c, byte_to_lsp_pos demo_mapper 5 = Ret (mkPosition l c) /\ offset_to_utf16_line_col (text demo_mapper) 5 = Ret (l, c) /\
  lsp_pos_to_byte demo_mapper (mkPosition l c) = Ret (Some 5) /\ utf16_line_col_to_offset (text demo_mapper) l c = Ret 5.
Proof.
  apply (mapper_agrees_with_convert clean demo_mapper [97; 233; CR; LF] [128512; 98]); [|by vm_compute|done|by intros [? ?]].
  change (lf_lines sample). split; [by repeat (constructor; [set_solver by lia|])|]. intros c1 c2 E. unfold sample, CR in E. destruct c1 as [|x1 [|x2 [|x3 [|x4 [|x5 [|x6 c1]]]]]]; simplify_eq/=; [done|by destruct c1].
Defined.

(** Bare CR starts a line of the rope but no row of the other components, and
    the position behind a row's end is clamped behind its LF. *)
Example mapper_breaks_at_cr : byte_to_lsp_pos (mkMapper [97; CR; 98] LineEnding.Cr) 2 = Ret (mkPosition 1 0) /\ offset_to_utf16_line_col [97; CR; 98] 2 = Ret (0, 2).
Proof. by vm_compute. Qed.
Example mapper_clamps_behind_lf : lsp_pos_to_byte (mkMapper [97; LF; 98] LineEnding.Lf) (mkPosition 0 9) = Ret (Some 2) /\ utf16_line_col_to_offset [97; LF; 98] 0 9 = Ret 1.
Proof. by vm_compute. Qed.
(** Both ends inside characters: an edit of the four bytes of two letters. *)
Example apply_edit_utf8_panics : apply_edit_utf8 (encode [233; 233]) 1 3 [] = Panic.
Proof. by vm_compute. Qed.
