(* ===== verification/Strict.v ===== *)
(** * Strict position conversion (perl-position-tracking/src/strict.rs)

    Encoding-aware conversions between wire positions and byte offsets that
    return a typed disposition instead of a clamped offset.  Proved: on exact
    coordinates the two directions are inverse bijections, for both position
    encodings; normalized positions are at the end of their line; the
    [InstrumentFailure] disposition is never produced; an admitted range is
    ordered.  This module separates lines at CR, LF and CRLF, unlike the
    LF-only rows of SourceRows: [crows] below is its own row specification. *)

From stdpp Require Import base numbers sets list.
From S2P Require Import Prelude Utf8 SourceRows LineIndex Convert.

(** ** Encodings and dispositions *)

Inductive PositionEncoding := EncUtf8 | EncUtf16.

Definition code_units (self : PositionEncoding) (c : Z) : Z :=
  match self with EncUtf8 => len_utf8 c | EncUtf16 => len_utf16 c end.

#[export] Instance code_units_width enc : Width (code_units enc).
Proof. destruct enc; apply _. Qed.

Inductive PositionMappingDisposition :=
| Exact
| LineEndNormalized
| InvalidLine
| InvalidCodeUnitBoundary
| InvalidRangeOrder
| InvalidNewlineBoundary
| OverflowOrResourceBoundary
| InstrumentFailure.
#[export] Instance PositionMappingDisposition_eq_dec : EqDecision PositionMappingDisposition.
Proof. solve_decision. Defined.

Definition admits_incoming_mutation (d : PositionMappingDisposition) : bool :=
  match d with Exact | LineEndNormalized => true | _ => false end.
Definition is_exact (d : PositionMappingDisposition) : bool :=
  match d with Exact => true | _ => false end.

Record PositionMapping := mkPositionMapping {
  requested : Wire.WirePosition;
  normalized : option Wire.WirePosition;
  byte_offset : option Z;
  char_offset : option Z;
  encoding : PositionEncoding;
  disposition : PositionMappingDisposition;
}.

Record RangeMapping := mkRangeMapping {
  range_start : PositionMapping;
  range_end : PositionMapping;
  range_disposition : PositionMappingDisposition;
}.

Definition byte_range (self : RangeMapping) : option (Z * Z) :=
  match byte_offset (range_start self), byte_offset (range_end self) with
  | Some a, Some b =>
    if admits_incoming_mutation (range_disposition self) then Some (a, b) else None
  | _, _ => None
  end.

Record BytePositionMapping := mkByteMapping {
  b_byte_offset : Z;
  b_char_offset : option Z;
  wire_position : option Wire.WirePosition;
  b_encoding : PositionEncoding;
  b_disposition : PositionMappingDisposition;
}.

Record ByteRangeMapping := mkByteRangeMapping {
  br_start : BytePositionMapping;
  br_end : BytePositionMapping;
  wire_range : option Wire.WireRange;
  br_disposition : PositionMappingDisposition;
}.

(** ** The line scan *)

Record LineBounds := mkBounds { lb_line : Z; lb_start : Z; lb_content_end : Z }.
Record ScannedLine := mkScanned { bounds : LineBounds; separator_end : Z }.

Inductive ByteLineLookup :=
| LookupContent (b : LineBounds)
| NewlineInterior
| OutOfBounds
| Overflow.

Record LineScan := mkScan {
  scan_bytes : list Z;
  scan_line : Z;
  scan_start : Z;
  scan_index : Z;
  exhausted : bool;
  overflowed : bool;
}.

Definition scan_new (source : list Z) : LineScan := mkScan source 0 0 0 false false.

Definition is_eol (b : Z) : bool := (b =? CR) || (b =? LF).

(** [while index < len && !matches!(bytes[index], CR | LF) { index += 1 }] *)
Fixpoint scan_eol (l : list Z) (index : Z) : Z :=
  match l with
  | [] => index
  | b :: l => if is_eol b then index else scan_eol l (index + 1)
  end.

Definition next_line (self : LineScan) : option ScannedLine * LineScan :=
  if exhausted self then (None, self)
  else
    let bytes := scan_bytes self in
    let index := scan_eol (zdrop (scan_index self) bytes) (scan_index self) in
    let is_final := index =? len bytes in
    let separator_end :=
      if is_final then index
      else if byte_is bytes index CR && (index + 1 <? len bytes) && byte_is bytes (index + 1) LF
      then index + 2 else index + 1 in
    let b := mkBounds (scan_line self) (scan_start self) index in
    let self' :=
      if is_final then
        mkScan bytes (scan_line self) (scan_start self) (scan_index self) true (overflowed self)
      else match checked_add_u32 (scan_line self) 1 with
      | Some next => mkScan bytes next separator_end separator_end false (overflowed self)
      | None => mkScan bytes (scan_line self) (scan_start self) (scan_index self) true true
      end in
    (Some (mkScanned b separator_end), self').

(** [line_bounds] and [lookup_byte_line] loop while the scan yields lines;
    every line but the last consumes a byte, so [len + 1] iterations suffice. *)
Fixpoint line_bounds_loop (fuel : nat) (scan : LineScan) (target_line : Z) : option LineBounds :=
  match fuel with
  | O => None
  | S fuel =>
    match next_line scan with
    | (None, _) => None
    | (Some line, scan) =>
      if lb_line (bounds line) =? target_line then Some (bounds line)
      else line_bounds_loop fuel scan target_line
    end
  end.
Definition line_bounds (source : list Z) (target_line : Z) : option LineBounds :=
  line_bounds_loop (S (S (length source))) (scan_new source) target_line.

Fixpoint lookup_loop (fuel : nat) (scan : LineScan) (target_byte : Z) : ByteLineLookup :=
  match fuel with
  | O => OutOfBounds
  | S fuel =>
    match next_line scan with
    | (None, scan) => if overflowed scan then Overflow else OutOfBounds
    | (Some line, scan) =>
      let b := bounds line in
      if (lb_start b <=? target_byte) && (target_byte <=? lb_content_end b) then LookupContent b
      else if (lb_content_end b <? target_byte) && (target_byte <? separator_end line)
      then NewlineInterior
      else lookup_loop fuel scan target_byte
    end
  end.
Definition lookup_byte_line (source : list Z) (target_byte : Z) : ByteLineLookup :=
  if len source <? target_byte then OutOfBounds
  else lookup_loop (S (S (length source))) (scan_new source) target_byte.

(** ** The conversions *)

Definition invalid_wire_mapping (req : Wire.WirePosition) (enc : PositionEncoding)
    (d : PositionMappingDisposition) : PositionMapping :=
  mkPositionMapping req None None None enc d.

Definition mapped_wire_position (source : list Z) (req norm : Wire.WirePosition) (byte : Z)
    (enc : PositionEncoding) (d : PositionMappingDisposition) : PositionMapping :=
  let char := (fun prefix => len (chars prefix)) <$> str_get source 0 byte in
  let d := match char with Some _ => d | None => InstrumentFailure end in
  mkPositionMapping req ((fun _ => norm) <$> char) ((fun _ => byte) <$> char) char enc d.

Definition invalid_byte_mapping (byte : Z) (enc : PositionEncoding)
    (d : PositionMappingDisposition) : BytePositionMapping :=
  mkByteMapping byte None None enc d.

(** The loop over the line's characters. *)
Inductive walk_result :=
| WalkAt (line_bytes : Z)
| WalkOverflow
| WalkInside
| WalkEnd (code_units : Z).

Fixpoint wire_walk (cs : list Z) (enc : PositionEncoding) (character units line_bytes : Z)
    : walk_result :=
  match cs with
  | [] => WalkEnd units
  | c :: cs =>
    if units =? character then WalkAt line_bytes
    else match checked_add_u32 units (code_units enc c) with
    | None => WalkOverflow
    | Some next_units =>
      if character <? next_units then WalkInside
      else wire_walk cs enc character next_units (line_bytes + len_utf8 c)
    end
  end.

Definition wire_position_to_byte (source : list Z) (position : Wire.WirePosition)
    (enc : PositionEncoding) : PositionMapping :=
  match line_bounds source (Wire.line position) with
  | None => invalid_wire_mapping position enc InvalidLine
  | Some b =>
    match str_get source (lb_start b) (lb_content_end b) with
    | None => invalid_wire_mapping position enc InstrumentFailure
    | Some line_text =>
      match wire_walk (chars line_text) enc (Wire.character position) 0 0 with
      | WalkAt line_bytes =>
        mapped_wire_position source position position (lb_start b + line_bytes) enc Exact
      | WalkOverflow => invalid_wire_mapping position enc OverflowOrResourceBoundary
      | WalkInside => invalid_wire_mapping position enc InvalidCodeUnitBoundary
      | WalkEnd units =>
        let d := if Wire.character position =? units then Exact else LineEndNormalized in
        mapped_wire_position source position (Wire.mkPosition (Wire.line position) units)
          (lb_content_end b) enc d
      end
    end
  end.

(** [Option]'s derived order: [None] is below every [Some]. *)
Definition option_gt (a b : option Z) : bool :=
  match a, b with
  | Some a, Some b => b <? a
  | Some _, None => true
  | None, _ => false
  end.

(** [(a.line, a.character) > (b.line, b.character)] *)
Definition position_gt (a b : Wire.WirePosition) : bool :=
  (Wire.line b <? Wire.line a) ||
  ((Wire.line a =? Wire.line b) && (Wire.character b <? Wire.character a)).

Definition wire_range_to_bytes (source : list Z) (range : Wire.WireRange) (enc : PositionEncoding)
    : RangeMapping :=
  let s := wire_position_to_byte source (Wire.start range) enc in
  let e := wire_position_to_byte source (Wire.end_ range) enc in
  let d :=
    if position_gt (Wire.start range) (Wire.end_ range) then InvalidRangeOrder
    else if negb (admits_incoming_mutation (disposition s)) then disposition s
    else if negb (admits_incoming_mutation (disposition e)) then disposition e
    else if option_gt (byte_offset s) (byte_offset e) then InvalidRangeOrder
    else match disposition s, disposition e with
    | LineEndNormalized, _ | _, LineEndNormalized => LineEndNormalized
    | _, _ => Exact
    end in
  mkRangeMapping s e d.

(** The column loop of [byte_to_wire_position]. *)
Fixpoint sum_units (cs : list Z) (enc : PositionEncoding) (character : Z) : option Z :=
  match cs with
  | [] => Some character
  | c :: cs =>
    next ← checked_add_u32 character (code_units enc c);
    sum_units cs enc next
  end.

Definition byte_to_wire_position (source : list Z) (byte : Z) (enc : PositionEncoding)
    : BytePositionMapping :=
  if len source <? byte then invalid_byte_mapping byte enc OverflowOrResourceBoundary
  else if negb (is_char_boundary source byte) then
    invalid_byte_mapping byte enc InvalidCodeUnitBoundary
  else match lookup_byte_line source byte with
  | NewlineInterior => invalid_byte_mapping byte enc InvalidNewlineBoundary
  | OutOfBounds | Overflow => invalid_byte_mapping byte enc OverflowOrResourceBoundary
  | LookupContent b =>
    match str_get source (lb_start b) byte with
    | None => invalid_byte_mapping byte enc InstrumentFailure
    | Some line_prefix =>
      match sum_units (chars line_prefix) enc 0 with
      | None => invalid_byte_mapping byte enc OverflowOrResourceBoundary
      | Some character =>
        match str_get source 0 byte with
        | None => invalid_byte_mapping byte enc InstrumentFailure
        | Some prefix =>
          mkByteMapping byte (Some (len (chars prefix)))
            (Some (Wire.mkPosition (lb_line b) character)) enc Exact
        end
      end
    end
  end.

Definition byte_range_to_wire_range (source : list Z) (range : Z * Z) (enc : PositionEncoding)
    : ByteRangeMapping :=
  let s := byte_to_wire_position source (fst range) enc in
  let e := byte_to_wire_position source (snd range) enc in
  let d :=
    if snd range <? fst range then InvalidRangeOrder
    else if negb (is_exact (b_disposition s)) then b_disposition s
    else if negb (is_exact (b_disposition e)) then b_disposition e
    else Exact in
  let w :=
    if is_exact d then
      match wire_position s, wire_position e with
      | Some s, Some e => Some (Wire.mkRange s e)
      | _, _ => None
      end
    else None in
  let d := if is_exact d && match w with None => true | Some _ => false end
           then InstrumentFailure else d in
  mkByteRangeMapping s e w d.

(** ** The rows of the scan *)

(** A text cut at CR, LF and CRLF: each row with its separator, the last row
    with none. *)
Fixpoint crows (cs : list Z) : list (list Z * list Z) :=
  match cs with
  | [] => [([], [])]
  | c :: cs' =>
    if c =? LF then ([], [LF]) :: crows cs'
    else if c =? CR then
      match cs' with
      | d :: cs'' => if d =? LF then ([], [CR; LF]) :: crows cs'' else ([], [CR]) :: crows cs'
      | [] => ([], [CR]) :: crows cs'
      end
    else match crows cs' with
    | [] => [([c], [])]
    | (r, s) :: rs => (c :: r, s) :: rs
    end
  end.

Definition ctext (rs : list (list Z * list Z)) : list Z := concat ((fun p => p.1 ++ p.2) <$> rs).

Definition no_eol (r : list Z) : Prop := Forall (fun c => is_eol c = false) r.
Definition separator (s rest : list Z) : Prop :=
  s = [LF] \/ s = [CR; LF] \/ s = [CR] /\ head rest <> Some LF.

Inductive crow_list : list (list Z * list Z) -> Prop :=
| crow_last r : no_eol r -> crow_list [(r, [])]
| crow_cons r s rs :
    no_eol r -> separator s (ctext rs) -> crow_list rs -> crow_list ((r, s) :: rs).

Lemma ctext_cons r s rs : ctext ((r, s) :: rs) = r ++ s ++ ctext rs.
Proof. unfold ctext. simpl. by rewrite <- app_assoc. Qed.

Lemma ctext_last r : ctext [(r, [])] = r.
Proof. unfold ctext. simpl. by rewrite !app_nil_r. Qed.

Lemma ctext_app rs1 rs2 : ctext (rs1 ++ rs2) = ctext rs1 ++ ctext rs2.
Proof. unfold ctext. by rewrite fmap_app, concat_app. Qed.

Lemma separator_pos s rest : separator s rest -> 1 <= blen s <= 2.
Proof. intros [->|[->|[-> _]]]; simpl; unfold len_utf8, CR, LF; simpl; lia. Qed.

(** Both facts by induction on the length: CRLF consumes two characters. *)
Lemma crows_spec cs : ctext (crows cs) = cs /\ crow_list (crows cs).
Proof.
  remember (length cs) as n eqn:Hn. revert cs Hn.
  induction n as [n IH] using lt_wf_ind. intros cs ->.
  destruct cs as [|c cs]; [by repeat constructor|]. cbn [crows].
  destruct (IH (length cs)) with cs as [Ec Hl]; [simpl; lia|done|].
  destruct (Z.eqb_spec c LF) as [->|Hlf].
  { rewrite ctext_cons, Ec. split; [done|]. constructor; [constructor| |done]. by left. }
  destruct (Z.eqb_spec c CR) as [->|Hcr].
  - destruct cs as [|d cs].
    { split; [done|]. by repeat constructor. }
    destruct (Z.eqb_spec d LF) as [->|Hd].
    + destruct (IH (length cs)) with cs as [Ec' Hl']; [simpl; lia|done|].
      rewrite ctext_cons, Ec'. split; [done|]. constructor; [constructor| |done].
      right. by left.
    + rewrite ctext_cons, Ec. split; [done|]. constructor; [constructor| |done].
      right. right. rewrite Ec. split; [done|]. simpl. congruence.
  - assert (is_eol c = false) as He by (unfold is_eol; bcase; done).
    destruct (crows cs) as [|[r s] rs]; [by inversion Hl|].
    rewrite ctext_cons in *. simpl. rewrite Ec. split; [done|].
    inversion Hl; subst; repeat (constructor; try done).
Qed.

Lemma ctext_crows cs : ctext (crows cs) = cs.
Proof. apply crows_spec. Qed.
Lemma crow_list_crows cs : crow_list (crows cs).
Proof. apply crows_spec. Qed.

(** ** One step of the scan *)

Lemma encode_no_eol r : scalars r -> no_eol r -> Forall (fun b => is_eol b = false) (encode r).
Proof.
  intros Hs Hn. induction Hs as [|c r Hc Hs IH]; simpl; [constructor|].
  inversion Hn as [|? ? Hcn Hrn]; subst. apply Forall_app. split; [|by apply IH].
  destruct (Z_lt_le_dec c 128).
  - rewrite encode_char_ascii by done. by repeat constructor.
  - eapply Forall_impl; [by apply encode_char_high|]. simpl. intros b Hb.
    unfold is_eol, CR, LF. bcase; done.
Qed.

Lemma scan_eol_skip l rest i :
  Forall (fun b => is_eol b = false) l -> scan_eol (l ++ rest) i = scan_eol rest (i + len l).
Proof.
  intros H. revert i. induction H as [|b l Hb _ IH]; intros i; simpl; [by rewrite Z.add_0_r|].
  rewrite Hb, IH, len_cons. f_equal. lia.
Qed.

(** The byte at the head of the rest of a text. *)
Lemma byte_is_head p q x :
  scalars q -> 0 <= x < 128 ->
  byte_is (encode (p ++ q)) (blen p) x = match q with c :: _ => c =? x | [] => false end.
Proof.
  intros Hs Hx. unfold byte_is. rewrite encode_app, zget_app_r by (rewrite len_encode; lia).
  rewrite len_encode, Z.sub_diag. destruct q as [|c q]; [done|].
  inversion Hs as [|? ? Hc _]; subst. simpl.
  destruct (Z_lt_le_dec c 128).
  - by rewrite encode_char_ascii.
  - destruct (encode_char_shape c Hc) as (b & t & E & _).
    pose proof (encode_char_high c Hc l) as Hh. rewrite E in *. inversion Hh; subst.
    simpl. by bcase.
Qed.

Definition scan_at (pre rest : list Z) (line : Z) : LineScan :=
  mkScan (encode (pre ++ rest)) line (blen pre) (blen pre) false false.

Section scan.
Context (pre : list Z) (r : list Z) (line : Z).

Lemma scan_eol_row rest :
  scalars (pre ++ r ++ rest) -> no_eol r ->
  match rest with c :: _ => is_eol c = true | [] => True end ->
  scan_eol (zdrop (blen pre) (encode (pre ++ r ++ rest))) (blen pre) = blen pre + blen r.
Proof using Type.
  intros Hs Hn Hr. rewrite !scalars_app in Hs. destruct Hs as (_ & Hsr & Hs).
  rewrite encode_app, <- (len_encode pre), zdrop_app_len, encode_app.
  rewrite scan_eol_skip by (by apply encode_no_eol). rewrite !len_encode.
  destruct rest as [|c rest]; [done|]. simpl.
  rewrite encode_char_ascii; [simpl; by rewrite Hr|].
  unfold is_eol, CR, LF in Hr. bcase_all; done.
Qed.

Lemma next_line_last :
  scalars (pre ++ r) -> no_eol r ->
  next_line (scan_at pre r line) =
    (Some (mkScanned (mkBounds line (blen pre) (blen pre + blen r)) (blen pre + blen r)),
     mkScan (encode (pre ++ r)) line (blen pre) (blen pre) true false).
Proof using Type.
  intros Hs Hn. unfold next_line, scan_at. cbn [exhausted scan_bytes scan_index scan_line scan_start overflowed].
  pose proof (scan_eol_row []) as E. rewrite !app_nil_r in E. rewrite E by done. clear E.
  rewrite len_encode, blen_app, Z.eqb_refl. done.
Qed.

Lemma next_line_row s rest :
  scalars (pre ++ r ++ s ++ rest) -> no_eol r -> separator s rest -> line + 1 <= u32_max ->
  next_line (scan_at pre (r ++ s ++ rest) line) =
    (Some (mkScanned (mkBounds line (blen pre) (blen pre + blen r))
                     (blen pre + blen r + blen s)),
     scan_at (pre ++ r ++ s) rest (line + 1)).
Proof using Type.
  intros Hs Hn Hsep Hl. unfold next_line, scan_at.
  cbn [exhausted scan_bytes scan_index scan_line scan_start overflowed].
  rewrite (scan_eol_row (s ++ rest)); [|done|done|by destruct Hsep as [->|[->|[-> _]]]].
  rewrite checked_add_u32_Some by done.
  pose proof (separator_pos _ _ Hsep). pose proof (blen_nonneg rest).
  rewrite len_encode, !blen_app. destruct (Z.eqb_spec (blen pre + blen r) (blen pre + (blen r + (blen s + blen rest)))); [lia|].
  assert (Hs' := Hs). rewrite app_assoc, scalars_app in Hs'. destruct Hs' as [_ Hs2].
  assert ((if byte_is (encode (pre ++ r ++ s ++ rest)) (blen pre + blen r) CR &&
              (blen pre + blen r + 1 <? blen pre + (blen r + (blen s + blen rest))) &&
              byte_is (encode (pre ++ r ++ s ++ rest)) (blen pre + blen r + 1) LF
           then blen pre + blen r + 2 else blen pre + blen r + 1) = blen pre + blen r + blen s) as ->.
  { rewrite app_assoc, <- blen_app. rewrite byte_is_head by (done || unfold CR; lia).
    destruct Hsep as [->|[->|[-> Hh]]]; simpl; [done| |].
    - change (CR :: LF :: rest) with ([CR] ++ LF :: rest). rewrite (app_assoc (pre ++ r)).
      replace (blen (pre ++ r) + 1) with (blen ((pre ++ r) ++ [CR])) by (by rewrite blen_app).
      rewrite byte_is_head; [|by inversion Hs2|unfold LF; lia].
      change (len_utf8 CR) with 1. change (len_utf8 LF) with 1. rewrite !blen_app. simpl.
      change (len_utf8 CR) with 1. bcase. simpl. lia.
    - change (CR :: rest) with ([CR] ++ rest). rewrite (app_assoc (pre ++ r)).
      replace (blen (pre ++ r) + 1) with (blen ((pre ++ r) ++ [CR])) by (by rewrite blen_app).
      rewrite byte_is_head; [|by inversion Hs2|unfold LF; lia].
      destruct rest as [|d rest]; [by rewrite andb_false_r, blen_app|].
      destruct (Z.eqb_spec d LF) as [->|]; [by destruct Hh|]. by rewrite andb_false_r, blen_app. }
  rewrite <- !app_assoc, !Z.add_assoc. done.
Qed.
End scan.

(** ** The lookups, row by row *)

Fixpoint row_bounds (rs : list (list Z * list Z)) (line start target : Z) : option LineBounds :=
  match rs with
  | [] => None
  | (r, s) :: rs =>
    if line =? target then Some (mkBounds line start (start + blen r))
    else row_bounds rs (line + 1) (start + blen r + blen s) target
  end.

Fixpoint row_lookup (rs : list (list Z * list Z)) (line start o : Z) : ByteLineLookup :=
  match rs with
  | [] => OutOfBounds
  | (r, s) :: rs =>
    if (start <=? o) && (o <=? start + blen r)
    then LookupContent (mkBounds line start (start + blen r))
    else if (start + blen r <? o) && (o <? start + blen r + blen s) then NewlineInterior
    else row_lookup rs (line + 1) (start + blen r + blen s) o
  end.

Lemma crow_list_len rs : crow_list rs -> len rs <= 1 + blen (ctext rs).
Proof.
  induction 1 as [r Hr|r s rs Hr Hsep Hrs IH].
  - rewrite len_cons, len_nil. pose proof (blen_nonneg (ctext [(r, [])])). lia.
  - rewrite len_cons, ctext_cons, !blen_app. pose proof (separator_pos _ _ Hsep).
    pose proof (blen_nonneg r). lia.
Qed.

Lemma line_bounds_loop_rows rs pre line fuel target :
  crow_list rs -> (length rs < fuel)%nat -> scalars (pre ++ ctext rs) ->
  line + blen (ctext rs) <= u32_max ->
  line_bounds_loop fuel (scan_at pre (ctext rs) line) target =
    row_bounds rs line (blen pre) target.
Proof.
  intros Hrs. revert pre line fuel.
  induction Hrs as [r Hr|r s rs Hr Hsep Hrs IH]; intros pre line fuel Hf Hs Hl;
    (destruct fuel as [|fuel]; [simpl in Hf; lia|]); simpl in Hf; cbn [line_bounds_loop].
  - rewrite ctext_last in *.
    rewrite next_line_last by done. simpl. destruct (line =? target); [done|]. by destruct fuel.
  - rewrite ctext_cons in *. rewrite !blen_app in Hl.
    pose proof (separator_pos _ _ Hsep). pose proof (blen_nonneg r).
    pose proof (blen_nonneg (ctext rs)).
    rewrite next_line_row by (done || lia). simpl. destruct (line =? target); [done|].
    rewrite IH; [by rewrite !blen_app, Z.add_assoc|lia|by rewrite <- !app_assoc|lia].
Qed.

Lemma lookup_loop_rows rs pre line fuel o :
  crow_list rs -> (length rs < fuel)%nat -> scalars (pre ++ ctext rs) ->
  line + blen (ctext rs) <= u32_max ->
  lookup_loop fuel (scan_at pre (ctext rs) line) o = row_lookup rs line (blen pre) o.
Proof.
  intros Hrs. revert pre line fuel.
  induction Hrs as [r Hr|r s rs Hr Hsep Hrs IH]; intros pre line fuel Hf Hs Hl;
    (destruct fuel as [|fuel]; [simpl in Hf; lia|]); simpl in Hf; cbn [lookup_loop].
  - rewrite ctext_last in *.
    rewrite next_line_last by done. simpl. rewrite Z.add_0_r.
    repeat case_match; try done; by destruct fuel.
  - rewrite ctext_cons in *. rewrite !blen_app in Hl.
    pose proof (separator_pos _ _ Hsep). pose proof (blen_nonneg r).
    pose proof (blen_nonneg (ctext rs)).
    rewrite next_line_row by (done || lia). simpl.
    rewrite IH; [by rewrite !blen_app, Z.add_assoc|lia|by rewrite <- !app_assoc|lia].
Qed.

Section lookups.
Context (cs : list Z).
Hypothesis Hs : scalars cs.
Hypothesis Hu : u32_sized cs.

Lemma scan_new_at : scan_new (encode cs) = scan_at [] (ctext (crows cs)) 0.
Proof using Type. by rewrite ctext_crows. Qed.

Lemma crows_fuel : (length (crows cs) < S (S (length (encode cs))))%nat.
Proof using Type.
  pose proof (crow_list_len _ (crow_list_crows cs)) as H. rewrite ctext_crows in H.
  rewrite <- len_encode in H. unfold len in H. lia.
Qed.

Lemma line_bounds_rows target :
  line_bounds (encode cs) target = row_bounds (crows cs) 0 0 target.
Proof using Hs Hu.
  unfold line_bounds. rewrite scan_new_at.
  apply line_bounds_loop_rows; rewrite ?ctext_crows; auto using crow_list_crows, crows_fuel.
Qed.

Lemma lookup_byte_line_rows o :
  lookup_byte_line (encode cs) o =
    if blen cs <? o then OutOfBounds else row_lookup (crows cs) 0 0 o.
Proof using Hs Hu.
  unfold lookup_byte_line. rewrite len_encode, scan_new_at. destruct (blen cs <? o); [done|].
  apply lookup_loop_rows; rewrite ?ctext_crows; auto using crow_list_crows, crows_fuel.
Qed.
End lookups.

(** ** Exact coordinates *)

(** [o] is the byte offset, and [(line, col)] the position, of a character
    boundary of the content of one row. *)
Definition at_coordinate (enc : PositionEncoding) (cs : list Z) (o line col : Z) : Prop :=
  exists rs1 m t s rs2,
    crows cs = rs1 ++ (m ++ t, s) :: rs2 /\ line = len rs1 /\
    col = wlen (code_units enc) m /\ o = blen (ctext rs1) + blen m.

Lemma row_bounds_pick rs line start target b :
  row_bounds rs line start target = Some b <->
  exists rs1 r s rs2, rs = rs1 ++ (r, s) :: rs2 /\ target = line + len rs1 /\
    b = mkBounds target (start + blen (ctext rs1)) (start + blen (ctext rs1) + blen r).
Proof.
  revert line start. induction rs as [|[r s] rs IH]; intros line start; cbn [row_bounds].
  - split; [done|]. by intros ([|] & ? & ? & ? & ? & _).
  - destruct (Z.eqb_spec line target) as [->|Hne].
    + split.
      * intros [= <-]. exists [], r, s, rs. simpl. rewrite len_nil, !Z.add_0_r. done.
      * intros (rs1 & r' & s' & rs2 & E & El & ->). destruct rs1 as [|p rs1].
        { simpl in *. simplify_eq. by rewrite !Z.add_0_r. }
        rewrite len_cons in El. pose proof (len_nonneg rs1). lia.
    + rewrite IH. split.
      * intros (rs1 & r' & s' & rs2 & -> & -> & ->). exists ((r, s) :: rs1), r', s', rs2.
        rewrite len_cons, ctext_cons, !blen_app. split; [done|]. split; [lia|]. f_equal; lia.
      * intros (rs1 & r' & s' & rs2 & E & -> & ->). destruct rs1 as [|[r1 s1] rs1].
        { rewrite len_nil in Hne. lia. }
        simpl in E. simplify_eq. exists rs1, r', s', rs2.
        rewrite len_cons, ctext_cons, !blen_app. split; [done|]. split; [lia|]. f_equal; lia.
Qed.

Lemma row_lookup_content rs line start o b :
  crow_list rs -> start <= o ->
  row_lookup rs line start o = LookupContent b <->
  exists rs1 r s rs2, rs = rs1 ++ (r, s) :: rs2 /\
    b = mkBounds (line + len rs1) (start + blen (ctext rs1)) (start + blen (ctext rs1) + blen r) /\
    start + blen (ctext rs1) <= o <= start + blen (ctext rs1) + blen r.
Proof.
  intros Hrs. revert line start. induction Hrs as [r Hr|r s rs Hr Hsep Hrs IH];
    intros line start Ho; cbn [row_lookup].
  - change (blen []) with 0. rewrite Z.add_0_r.
    destruct (Z.leb_spec start o); [|lia]. destruct (Z.leb_spec o (start + blen r)); simpl.
    + split.
      * intros [= <-]. exists [], r, [], []. simpl. rewrite len_nil, !Z.add_0_r. done.
      * intros (rs1 & r' & s' & rs2 & E & -> & Hin). destruct rs1 as [|p rs1]; [|by destruct rs1].
        simpl in *. simplify_eq. by rewrite !Z.add_0_r.
    + split; [by case_match|].
      intros (rs1 & r' & s' & rs2 & E & -> & Hin). destruct rs1 as [|p rs1]; [|by destruct rs1].
      simpl in *. simplify_eq. lia.
  - pose proof (separator_pos _ _ Hsep). pose proof (blen_nonneg r).
    destruct (Z.leb_spec start o); [|lia]. destruct (Z.leb_spec o (start + blen r)); simpl.
    + split.
      * intros [= <-]. exists [], r, s, rs. simpl. rewrite len_nil, !Z.add_0_r. done.
      * intros (rs1 & r' & s' & rs2 & E & -> & Hin). destruct rs1 as [|[r1 s1] rs1].
        { simpl in *. simplify_eq. by rewrite !Z.add_0_r. }
        simpl in E. simplify_eq. rewrite ctext_cons, !blen_app in Hin.
        pose proof (blen_nonneg (ctext rs1)). lia.
    + destruct (Z.ltb_spec (start + blen r) o), (Z.ltb_spec o (start + blen r + blen s)); simpl; try lia.
      * split; [done|]. intros (rs1 & r' & s' & rs2 & E & -> & Hin).
        destruct rs1 as [|[r1 s1] rs1]; simpl in E; simplify_eq; [simpl in Hin; lia|].
        rewrite ctext_cons, !blen_app in Hin. pose proof (blen_nonneg (ctext rs1)). lia.
      * rewrite IH by lia. split.
        { intros (rs1 & r' & s' & rs2 & -> & -> & Hin). exists ((r, s) :: rs1), r', s', rs2.
          rewrite len_cons, ctext_cons, !blen_app. split; [done|]. split; [f_equal; lia|lia]. }
        { intros (rs1 & r' & s' & rs2 & E & -> & Hin).
          destruct rs1 as [|[r1 s1] rs1]; simpl in E; simplify_eq; [simpl in Hin; lia|].
          exists rs1, r', s', rs2. rewrite len_cons, ctext_cons, !blen_app in *.
          split; [done|]. split; [f_equal; lia|lia]. }
Qed.

(** ** The column walks *)

Lemma code_units_le enc c : code_units enc c <= len_utf8 c.
Proof. destruct enc; simpl; [done|apply len_utf16_le_utf8]. Qed.

Lemma wlen_code_units_le enc r : wlen (code_units enc) r <= blen r.
Proof. induction r as [|c r IH]; simpl; [done|]. pose proof (code_units_le enc c). lia. Qed.

Lemma wire_walk_floor r enc character units lb :
  units <= character -> units + wlen (code_units enc) r <= u32_max ->
  wire_walk r enc character units lb =
    let p := floor_by (code_units enc) r (character - units) in
    if units + wlen (code_units enc) r <=? character then WalkEnd (units + wlen (code_units enc) r)
    else if units + wlen (code_units enc) p =? character then WalkAt (lb + blen p)
    else WalkInside.
Proof.
  revert units lb. induction r as [|c r IH]; intros units lb Hc Hu; simpl in *; [by bcase; f_equal; lia|].
  pose proof (width_pos (w := code_units enc) c). pose proof (wlen_nonneg (code_units enc) r).
  destruct (Z.eqb_spec units character) as [->|].
  { destruct (Z.leb_spec (code_units enc c) (character - character)); [lia|]. simpl.
    bcase. by rewrite Z.add_0_r. }
  rewrite checked_add_u32_Some by lia.
  destruct (Z.ltb_spec character (units + code_units enc c)).
  - destruct (Z.leb_spec (code_units enc c) (character - units)); [lia|]. simpl. by bcase.
  - destruct (Z.leb_spec (code_units enc c) (character - units)); [|lia]. simpl.
    rewrite IH by lia. cbv zeta.
    replace (character - (units + code_units enc c)) with (character - units - code_units enc c) by lia.
    rewrite !Z.add_assoc. done.
Qed.

Lemma sum_units_wlen m enc k :
  k + wlen (code_units enc) m <= u32_max ->
  sum_units m enc k = Some (k + wlen (code_units enc) m).
Proof.
  revert k. induction m as [|c m IH]; intros k Hk; simpl in *; [by rewrite Z.add_0_r|].
  pose proof (wlen_nonneg (code_units enc) m).
  rewrite checked_add_u32_Some by lia. simpl. rewrite IH by lia. f_equal. lia.
Qed.

(** ** The specification of a wire position *)

(** The row with a number, and the text before it. *)
Fixpoint crow_at (rs : list (list Z * list Z)) (line : Z) : option (list Z * list Z) :=
  match rs with
  | [] => None
  | (r, s) :: rs =>
    if line =? 0 then Some ([], r)
    else '(pre, r') ← crow_at rs (line - 1); Some (r ++ s ++ pre, r')
  end.

(** The longest prefix of the row that fits in the column names the offset; a
    column past the row is normalized to the row's end, a column inside a
    character is refused. *)
Definition strict_mapping (cs : list Z) (pos : Wire.WirePosition) (enc : PositionEncoding)
    : PositionMapping :=
  match crow_at (crows cs) (Wire.line pos) with
  | None => invalid_wire_mapping pos enc InvalidLine
  | Some (pre, r) =>
    let p := floor_by (code_units enc) r (Wire.character pos) in
    let col := wlen (code_units enc) p in
    if (col =? Wire.character pos) || (wlen (code_units enc) r <? Wire.character pos)
    then mkPositionMapping pos (Some (Wire.mkPosition (Wire.line pos) col))
           (Some (blen pre + blen p)) (Some (len pre + len p)) enc
           (if col =? Wire.character pos then Exact else LineEndNormalized)
    else invalid_wire_mapping pos enc InvalidCodeUnitBoundary
  end.

Lemma crow_at_pick rs line :
  0 <= line ->
  match crow_at rs line with
  | Some (pre, r) => exists rs1 s rs2,
      rs = rs1 ++ (r, s) :: rs2 /\ line = len rs1 /\ pre = ctext rs1
  | None => len rs <= line
  end.
Proof.
  revert line. induction rs as [|[r s] rs IH]; intros line Hl; cbn [crow_at]; [done|].
  destruct (Z.eqb_spec line 0) as [->|]; [by exists [], s, rs|].
  specialize (IH (line - 1) ltac:(lia)).
  destruct (crow_at rs (line - 1)) as [[pre r']|]; simpl.
  - destruct IH as (rs1 & s' & rs2 & -> & El & ->). exists ((r, s) :: rs1), s', rs2.
    rewrite len_cons, ctext_cons. split; [done|]. split; [lia|done].
  - rewrite len_cons. lia.
Qed.

Lemma crow_at_split rs1 r s rs2 :
  crow_at (rs1 ++ (r, s) :: rs2) (len rs1) = Some (ctext rs1, r).
Proof.
  induction rs1 as [|[r1 s1] rs1 IH]; cbn [crow_at app]; [done|].
  rewrite len_cons. pose proof (len_nonneg rs1). bcase.
  replace (1 + len rs1 - 1) with (len rs1) by lia. rewrite IH. simpl. by rewrite ctext_cons.
Qed.

Lemma row_bounds_at rs line start target :
  line <= target ->
  row_bounds rs line start target =
    '(pre, r) ← crow_at rs (target - line);
    Some (mkBounds target (start + blen pre) (start + blen pre + blen r)).
Proof.
  revert line start. induction rs as [|[r s] rs IH]; intros line start Hl; cbn [row_bounds crow_at]; [done|].
  destruct (Z.eqb_spec line target) as [->|].
  - rewrite Z.sub_diag. simpl. by rewrite !Z.add_0_r.
  - bcase. rewrite IH by lia. replace (target - (line + 1)) with (target - line - 1) by lia.
    destruct (crow_at rs (target - line - 1)) as [[pre r']|]; simpl; [|done].
    rewrite !blen_app. do 2 f_equal; lia.
Qed.

Section strict.
Context (cs : list Z).
Hypothesis Hs : scalars cs.
Hypothesis Hu : u32_sized cs.

(** A prefix of the text maps to its byte and character counts. *)
Lemma mapped_prefix req norm p q enc d :
  cs = p ++ q ->
  mapped_wire_position (encode cs) req norm (blen p) enc d =
    mkPositionMapping req (Some norm) (Some (blen p)) (Some (len p)) enc d.
Proof using Hs.
  clear Hu. intros ->. unfold mapped_wire_position.
  pose proof (str_get_mid [] p q Hs) as E. simpl in E. rewrite Z.add_0_l in E. rewrite E. simpl.
  apply scalars_app in Hs as [Hp _]. by rewrite chars_len_encode.
Qed.

Lemma strict_wire_to_byte pos enc :
  0 <= Wire.line pos -> 0 <= Wire.character pos ->
  wire_position_to_byte (encode cs) pos enc = strict_mapping cs pos enc.
Proof using Hs Hu.
  intros Hl Hc. unfold wire_position_to_byte, strict_mapping.
  rewrite line_bounds_rows, row_bounds_at, Z.sub_0_r by done.
  pose proof (crow_at_pick (crows cs) (Wire.line pos) Hl) as Hp.
  destruct (crow_at (crows cs) (Wire.line pos)) as [[pre r]|]; simpl; [|done].
  destruct Hp as (rs1 & s & rs2 & E & _ & ->).
  assert (cs = ctext rs1 ++ r ++ (s ++ ctext rs2)) as Ecs
    by (rewrite <- (ctext_crows cs), E, ctext_app, ctext_cons; done).
  assert (Hs' := Hs). rewrite Ecs in Hs'. rewrite Ecs at 1. rewrite str_get_mid by done.
  rewrite !scalars_app in Hs'. destruct Hs' as (_ & Hr & _).
  assert (blen r <= u32_max) as Hru.
  { unfold u32_sized in Hu. rewrite Ecs, !blen_app in Hu.
    pose proof (blen_nonneg (ctext rs1)). pose proof (blen_nonneg s).
    pose proof (blen_nonneg (ctext rs2)). lia. }
  pose proof (wlen_code_units_le enc r).
  rewrite chars_encode, wire_walk_floor, Z.sub_0_r by (done || lia). cbv zeta. rewrite !Z.add_0_l.
  destruct (Z.leb_spec (wlen (code_units enc) r) (Wire.character pos)) as [Hle|Hlt].
  - rewrite (floor_by_all (code_units enc)) by done. rewrite <- blen_app.
    rewrite (mapped_prefix _ _ (ctext rs1 ++ r) (s ++ ctext rs2)) by (by rewrite <- app_assoc).
    rewrite len_app, blen_app, (Z.eqb_sym (Wire.character pos)).
    bcase; reflexivity.
  - pose proof (floor_by_le (code_units enc) r (Wire.character pos) Hc).
    destruct (Z.eqb_spec (wlen (code_units enc) (floor_by (code_units enc) r (Wire.character pos)))
                (Wire.character pos)) as [Ec|]; simpl; [|by bcase].
    destruct (floor_by_split (code_units enc) r (Wire.character pos)) as [t Et].
    set (p := floor_by _ _ _) in *. rewrite <- blen_app.
    rewrite (mapped_prefix _ _ (ctext rs1 ++ p) (t ++ s ++ ctext rs2))
      by (rewrite Ecs, Et, <- !app_assoc; done).
    rewrite len_app, Ec, blen_app. by destruct pos.
Qed.

(** The exact mappings are the coordinates of the text, in both directions. *)
Lemma strict_wire_exact pos enc o :
  0 <= Wire.line pos -> 0 <= Wire.character pos ->
  disposition (wire_position_to_byte (encode cs) pos enc) = Exact /\
    byte_offset (wire_position_to_byte (encode cs) pos enc) = Some o <->
  at_coordinate enc cs o (Wire.line pos) (Wire.character pos).
Proof using Hs Hu.
  intros Hl Hc. rewrite strict_wire_to_byte by done. unfold strict_mapping.
  pose proof (crow_at_pick (crows cs) (Wire.line pos) Hl) as Hp. split.
  - destruct (crow_at (crows cs) (Wire.line pos)) as [[pre r]|]; [|by intros [? ?]].
    destruct Hp as (rs1 & s & rs2 & E & El & ->).
    destruct (Z.eqb_spec (wlen (code_units enc) (floor_by (code_units enc) r (Wire.character pos)))
                (Wire.character pos)) as [Ec|]; simpl; [|case_match; by intros [? ?]].
    intros [_ [= <-]].
    destruct (floor_by_split (code_units enc) r (Wire.character pos)) as [t Et].
    exists rs1, (floor_by (code_units enc) r (Wire.character pos)), t, s, rs2.
    by rewrite <- Et.
  - intros (rs1 & m & t & s & rs2 & E & El & Ec & ->).
    rewrite E, El, crow_at_split, Ec, (floor_by_prefix (code_units enc)), Z.eqb_refl. done.
Qed.

Lemma strict_byte_exact pos enc o :
  0 <= o ->
  b_disposition (byte_to_wire_position (encode cs) o enc) = Exact /\
    wire_position (byte_to_wire_position (encode cs) o enc) = Some pos <->
  at_coordinate enc cs o (Wire.line pos) (Wire.character pos).
Proof using Hs Hu.
  intros Ho. unfold byte_to_wire_position. rewrite len_encode, lookup_byte_line_rows by done.
  split.
  - destruct (Z.ltb_spec (blen cs) o); [by intros [? ?]|].
    destruct (is_char_boundary (encode cs) o) eqn:Hb; simpl; [|by intros [? ?]].
    destruct (row_lookup (crows cs) 0 0 o) as [b| | |] eqn:Hrow; try by intros [? ?].
    apply row_lookup_content in Hrow as (rs1 & r & s & rs2 & E & -> & Hin);
      [|apply crow_list_crows|done]. cbn [lb_start lb_line].
    destruct (str_get (encode cs) _ o) as [prefix|] eqn:Hg; [|by intros [? ?]].
    apply str_get_inv in Hg as (c1 & m & c3 & Ecs & E1 & -> & ->); [|done].
    assert (cs = ctext rs1 ++ r ++ (s ++ ctext rs2)) as Ecs'
      by (rewrite <- (ctext_crows cs), E, ctext_app, ctext_cons; done).
    rewrite Ecs in Ecs'. rewrite Z.add_0_l in *.
    apply blen_prefix_inj in Ecs' as [-> Er]; [|done].
    destruct (prefix_le_split m c3 r (s ++ ctext rs2) Er) as (t & -> & _); [lia|].
    assert (blen m <= u32_max) as Hm.
    { unfold u32_sized in Hu. rewrite Ecs, !blen_app in Hu. pose proof (blen_nonneg c3).
      pose proof (blen_nonneg (ctext rs1)). lia. }
    pose proof (wlen_code_units_le enc m).
    rewrite chars_encode by (rewrite Ecs, !scalars_app in Hs; tauto).
    rewrite sum_units_wlen, Z.add_0_l by lia.
    destruct (str_get (encode cs) 0 (blen (ctext rs1) + blen m)); [|by intros [? ?]]. simpl. intros [_ [= <-]]. simpl.
    by exists rs1, m, t, s, rs2.
  - intros (rs1 & m & t & s & rs2 & E & El & Ec & ->).
    assert (cs = (ctext rs1 ++ m) ++ (t ++ s ++ ctext rs2)) as Ecs
      by (rewrite <- (ctext_crows cs), E, ctext_app, ctext_cons, <- !app_assoc; done).
    assert (Hu' := Hu). unfold u32_sized in Hu'. rewrite Ecs, !blen_app in Hu'.
    pose proof (blen_nonneg (ctext rs1)). pose proof (blen_nonneg m).
    pose proof (blen_nonneg t). pose proof (blen_nonneg s). pose proof (blen_nonneg (ctext rs2)).
    pose proof (wlen_code_units_le enc m).
    assert (is_char_boundary (encode cs) (blen (ctext rs1) + blen m) = true) as ->.
    { rewrite Ecs, <- blen_app. apply boundary_prefix. by rewrite <- Ecs. }
    rewrite (proj2 (row_lookup_content (crows cs) 0 0 (blen (ctext rs1) + blen m)
      (mkBounds (len rs1) (blen (ctext rs1)) (blen (ctext rs1) + blen (m ++ t)))
      (crow_list_crows cs) Ho))
      by (exists rs1, (m ++ t), s, rs2; rewrite !Z.add_0_l, blen_app; repeat split; [done|lia|lia]).
    destruct (Z.ltb_spec (blen cs) (blen (ctext rs1) + blen m)) as [Hlt|_];
      [rewrite Ecs, !blen_app in Hlt; lia|]. cbn [negb lb_start lb_line].
    assert (str_get (encode cs) (blen (ctext rs1)) (blen (ctext rs1) + blen m) = Some (encode m)) as ->.
    { rewrite Ecs, <- app_assoc. apply str_get_mid. by rewrite app_assoc, <- Ecs. }
    assert (str_get (encode cs) 0 (blen (ctext rs1) + blen m) = Some (encode (ctext rs1 ++ m))) as ->.
    { rewrite Ecs, <- blen_app, <- (Z.add_0_l (blen (ctext rs1 ++ m))). apply (str_get_mid []).
      simpl. by rewrite <- Ecs. }
    rewrite Ecs, !scalars_app in Hs. destruct Hs as ((_ & Hm) & _).
    rewrite chars_encode, sum_units_wlen by (done || lia). simpl.
    split; [done|]. destruct pos as [l c]. simpl in *. by subst.
Qed.
End strict.

(** ** Which byte offsets are refused *)

(** A character boundary that is not between a CR and its LF is a coordinate. *)
Lemma crow_addressable rs c1 c2 :
  crow_list rs -> ctext rs = c1 ++ c2 -> ~ (last c1 = Some CR /\ head c2 = Some LF) ->
  exists rs1 m t s rs2, rs = rs1 ++ (m ++ t, s) :: rs2 /\ c1 = ctext rs1 ++ m.
Proof.
  intros Hrs. revert c1. induction Hrs as [r Hr|r s rs Hr Hsep Hrs IH]; intros c1 E Ha.
  - rewrite ctext_last in E. subst. by exists [], c1, c2, [], [].
  - rewrite ctext_cons in E.
    destruct (Z_le_gt_dec (blen c1) (blen r)) as [Hle|Hgt].
    { destruct (prefix_le_split c1 c2 r (s ++ ctext rs)) as (t & -> & _); [done|lia|].
      by exists [], c1, t, s, rs. }
    destruct (prefix_le_split r (s ++ ctext rs) c1 c2 E) as (m & -> & Em); [lia|].
    rewrite blen_app in Hgt.
    destruct (Z_le_gt_dec (blen s) (blen m)) as [Hle|Hlt].
    + destruct (prefix_le_split s (ctext rs) m c2 Em Hle) as (m' & -> & Em').
      destruct (IH m' Em') as (rs1 & n & t & s' & rs2 & -> & ->).
      { intros [Hl Hh]. apply Ha. rewrite app_assoc, last_app, Hl. done. }
      exists ((r, s) :: rs1), n, t, s', rs2. rewrite ctext_cons. by rewrite <- !app_assoc.
    + destruct (prefix_le_split m c2 s (ctext rs)) as (t & -> & ->); [done|lia|].
      rewrite blen_app in Hlt. destruct m as [|x m]; [simpl in *; lia|].
      destruct t as [|y t]; [simpl in *; lia|].
      destruct Hsep as [Es|[Es|[Es _]]]; simplify_list_eq;
        [by destruct m| |by destruct m].
      destruct m as [|? m]; simplify_list_eq; [|by destruct m].
      exfalso. apply Ha. by rewrite last_snoc.
Qed.

(** The offset between a CR and its LF is inside the separator. *)
Lemma crow_newline_interior rs line start c1 c2 :
  crow_list rs -> ctext rs = (c1 ++ [CR]) ++ LF :: c2 ->
  row_lookup rs line start (start + blen (c1 ++ [CR])) = NewlineInterior.
Proof.
  intros Hrs. revert line start c1. induction Hrs as [r Hr|r s rs Hr Hsep Hrs IH]; intros line start c1 E.
  - rewrite ctext_last in E. subst r. apply Forall_app in Hr as [_ Hr]. by inversion Hr.
  - rewrite ctext_cons in E. cbn [row_lookup].
    destruct (Z_le_gt_dec (blen (c1 ++ [CR])) (blen r)) as [Hle|Hgt].
    { destruct (prefix_le_split (c1 ++ [CR]) (LF :: c2) r (s ++ ctext rs)) as (t & -> & _); [done|lia|].
      apply Forall_app in Hr as [Hr _]. apply Forall_app in Hr as [_ Hr]. by inversion Hr. }
    pose proof (blen_nonneg r). pose proof (blen_nonneg (c1 ++ [CR])).
    destruct (Z.leb_spec start (start + blen (c1 ++ [CR]))); [|lia].
    destruct (Z.leb_spec (start + blen (c1 ++ [CR])) (start + blen r)); [lia|].
    destruct (Z.ltb_spec (start + blen r) (start + blen (c1 ++ [CR]))); [|lia]. cbn [andb].
    destruct (Z.ltb_spec (start + blen (c1 ++ [CR])) (start + blen r + blen s)) as [|Hge]; [done|].
    destruct (prefix_le_split (r ++ s) (ctext rs) (c1 ++ [CR]) (LF :: c2)) as (m & E1 & E2);
      [by rewrite <- app_assoc|rewrite blen_app; lia|].
    destruct m as [|x m _] using rev_ind.
    + rewrite app_nil_r in E1. destruct Hsep as [->|[->|[-> Hh]]].
      * apply app_inj_tail in E1 as [_ E1]. discriminate.
      * change [CR; LF] with ([CR] ++ [LF]) in E1. rewrite app_assoc in E1.
        apply app_inj_tail in E1 as [_ E1]. discriminate.
      * rewrite E2 in Hh. by destruct Hh.
    + rewrite app_assoc in E1. apply app_inj_tail in E1 as [E1 <-].
      rewrite E1, <- app_assoc, blen_app, Z.add_assoc, blen_app, Z.add_assoc.
      apply IH. done.
Qed.

(** ** Order *)

Lemma crow_at_lt rs l1 l2 p1 r1 p2 r2 :
  0 <= l1 < l2 -> crow_at rs l1 = Some (p1, r1) -> crow_at rs l2 = Some (p2, r2) ->
  blen p1 + blen r1 <= blen p2.
Proof.
  revert l1 l2 p1 p2. induction rs as [|[r s] rs IH]; intros l1 l2 p1 p2 Hl E1 E2; [done|].
  cbn [crow_at] in *. destruct (Z.eqb_spec l2 0); [lia|].
  destruct (crow_at rs (l2 - 1)) as [[q2 r2']|] eqn:F2; simpl in E2; [|done]. simplify_eq.
  rewrite !blen_app. pose proof (blen_nonneg s). pose proof (blen_nonneg q2).
  destruct (Z.eqb_spec l1 0).
  - simplify_eq. simpl. lia.
  - destruct (crow_at rs (l1 - 1)) as [[q1 r1']|] eqn:F1; simpl in E1; [|done]. simplify_eq.
    rewrite !blen_app. pose proof (IH (l1 - 1) (l2 - 1) q1 q2 ltac:(lia) F1 F2). lia.
Qed.

Lemma strict_mapping_offset cs p enc a :
  byte_offset (strict_mapping cs p enc) = Some a ->
  exists pre r, crow_at (crows cs) (Wire.line p) = Some (pre, r) /\
    a = blen pre + blen (floor_by (code_units enc) r (Wire.character p)).
Proof.
  unfold strict_mapping. destruct (crow_at _ _) as [[pre r]|]; [|done].
  destruct (_ || _); [|done]. simpl. intros [= <-]. by exists pre, r.
Qed.

Lemma strict_mapping_mono cs p q enc a b :
  0 <= Wire.line p -> position_gt p q = false ->
  byte_offset (strict_mapping cs p enc) = Some a ->
  byte_offset (strict_mapping cs q enc) = Some b -> a <= b.
Proof.
  unfold position_gt. intros Hl Hgt (pre1 & r1 & E1 & ->)%strict_mapping_offset
    (pre2 & r2 & E2 & ->)%strict_mapping_offset.
  apply orb_false_iff in Hgt as [G1 G2]. apply Z.ltb_ge in G1.
  destruct (Z.eqb_spec (Wire.line p) (Wire.line q)) as [El|].
  - rewrite El in E1. simplify_eq. simpl in G2. apply Z.ltb_ge in G2.
    destruct (floor_by_mono (code_units enc) r1 _ _ G2) as [m ->].
    rewrite blen_app. pose proof (blen_nonneg m). lia.
  - assert (0 <= Wire.line p < Wire.line q) as Hlt by lia.
    pose proof (crow_at_lt _ _ _ _ _ _ _ Hlt E1 E2).
    destruct (floor_by_split (code_units enc) r1 (Wire.character p)) as [m Em].
    apply (f_equal blen) in Em. rewrite blen_app in Em. pose proof (blen_nonneg m).
    pose proof (blen_nonneg (floor_by (code_units enc) r2 (Wire.character q))). lia.
Qed.

(** A mapping is admitted exactly when it carries offsets. *)
Lemma strict_mapping_admitted cs p enc :
  admits_incoming_mutation (disposition (strict_mapping cs p enc)) =
    bool_decide (is_Some (byte_offset (strict_mapping cs p enc))).
Proof.
  unfold strict_mapping. destruct (crow_at _ _) as [[pre r]|]; [|done].
  destruct (_ || _); [|done]. simpl. by destruct (_ =? _).
Qed.

Lemma strict_mapping_not_order cs p enc :
  disposition (strict_mapping cs p enc) <> InvalidRangeOrder.
Proof.
  unfold strict_mapping. destruct (crow_at _ _) as [[pre r]|]; [|done].
  destruct (_ || _); [|done]. simpl. by destruct (_ =? _).
Qed.

(** ** Theorems *)

Definition strict_sample : list Z := [97; CR; LF; 128512; CR; 98].

(** Exact mappings are inverse to each other: for both encodings, a wire
    position maps exactly to a byte offset if and only if that byte offset
    maps exactly to that position; so the two directions are partial
    bijections between the same coordinates. *)
Theorem strict_inverse cs pos enc o :
  scalars cs -> u32_sized cs -> 0 <= Wire.line pos -> 0 <= Wire.character pos -> 0 <= o ->
  (disposition (wire_position_to_byte (encode cs) pos enc) = Exact /\
     byte_offset (wire_position_to_byte (encode cs) pos enc) = Some o) <->
  (b_disposition (byte_to_wire_position (encode cs) o enc) = Exact /\
     wire_position (byte_to_wire_position (encode cs) o enc) = Some pos).
Proof. intros Hs Hu Hl Hc Ho. by rewrite strict_wire_exact, strict_byte_exact. Qed.

Example strict_inverse_witness :
  b_disposition (byte_to_wire_position (encode strict_sample) 7 EncUtf16) = Exact /\
  wire_position (byte_to_wire_position (encode strict_sample) 7 EncUtf16) = Some (Wire.mkPosition 1 2).
Proof.
  apply (strict_inverse strict_sample (Wire.mkPosition 1 2) EncUtf16 7);
    [by repeat constructor|done|simpl; lia|simpl; lia|lia|]. done.
Defined.

(** The wire-to-byte conversion is total and has four outcomes: a missing
    row is [InvalidLine]; a column inside a character is
    [InvalidCodeUnitBoundary]; a column past the row's content is normalized to
    the content's end; every other column is exact, with its byte and
    character offset.  [InstrumentFailure] and [OverflowOrResourceBoundary]
    are never produced. *)
Theorem strict_wire_outcomes cs pos enc :
  scalars cs -> u32_sized cs -> 0 <= Wire.line pos -> 0 <= Wire.character pos ->
  let m := wire_position_to_byte (encode cs) pos enc in
  match crow_at (crows cs) (Wire.line pos) with
  | None => m = invalid_wire_mapping pos enc InvalidLine
  | Some (pre, r) =>
    let p := floor_by (code_units enc) r (Wire.character pos) in
    let at_p := mkPositionMapping pos
      (Some (Wire.mkPosition (Wire.line pos) (wlen (code_units enc) p)))
      (Some (blen pre + blen p)) (Some (len pre + len p)) enc in
    (wlen (code_units enc) p = Wire.character pos /\ m = at_p Exact) \/
    (wlen (code_units enc) r < Wire.character pos /\ p = r /\ m = at_p LineEndNormalized) \/
    (wlen (code_units enc) p < Wire.character pos < wlen (code_units enc) r /\
       m = invalid_wire_mapping pos enc InvalidCodeUnitBoundary)
  end.
Proof.
  intros Hs Hu Hl Hc m. unfold m. rewrite strict_wire_to_byte by done. unfold strict_mapping.
  destruct (crow_at (crows cs) (Wire.line pos)) as [[pre r]|]; [|done]. cbv zeta.
  pose proof (floor_by_le (code_units enc) r (Wire.character pos) Hc) as Hle.
  destruct (Z.eqb_spec (wlen (code_units enc) (floor_by (code_units enc) r (Wire.character pos)))
              (Wire.character pos)) as [E|Hne]; [by left|].
  right. destruct (Z.ltb_spec (wlen (code_units enc) r) (Wire.character pos)); simpl.
  - left. rewrite (floor_by_all (code_units enc)) by lia. done.
  - right. split; [|done]. split; [lia|].
    destruct (Z.eq_dec (wlen (code_units enc) r) (Wire.character pos)) as [E|]; [|lia].
    rewrite (floor_by_all (code_units enc)) in Hne by lia. done.
Qed.

Example strict_wire_outcomes_witness :
  wire_position_to_byte (encode strict_sample) (Wire.mkPosition 1 9) EncUtf16 =
    mkPositionMapping (Wire.mkPosition 1 9) (Some (Wire.mkPosition 1 2)) (Some 7) (Some 4)
      EncUtf16 LineEndNormalized.
Proof.
  assert (scalars strict_sample) as Hs by (by repeat constructor).
  destruct (strict_wire_outcomes strict_sample (Wire.mkPosition 1 9) EncUtf16 Hs
    ltac:(done) ltac:(simpl; lia) ltac:(simpl; lia)) as [[E _]|[(_ & _ & E)|[[_ E] _]]];
    [discriminate E|exact E|discriminate E].
Defined.

(** The byte-to-wire conversion refuses exactly the offsets that have no
    position, each with its own disposition: past the end, inside a
    character, between a CR and its LF; every other offset maps exactly. *)
Theorem strict_byte_outcomes cs o enc :
  scalars cs -> u32_sized cs -> 0 <= o ->
  let d := b_disposition (byte_to_wire_position (encode cs) o enc) in
  (blen cs < o -> d = OverflowOrResourceBoundary) /\
  (forall c1 c c2 k, cs = c1 ++ c :: c2 -> o = blen c1 + k -> 0 < k < len_utf8 c ->
     d = InvalidCodeUnitBoundary) /\
  (forall c1 c2, cs = (c1 ++ [CR]) ++ LF :: c2 -> o = blen (c1 ++ [CR]) ->
     d = InvalidNewlineBoundary) /\
  (forall c1 c2, cs = c1 ++ c2 -> o = blen c1 -> ~ (last c1 = Some CR /\ head c2 = Some LF) ->
     d = Exact).
Proof.
  intros Hs Hu Ho d. unfold d. split; [|split; [|split]].
  - intros Hlt. unfold byte_to_wire_position. rewrite len_encode. by bcase.
  - intros c1 c c2 k -> -> Hk. unfold byte_to_wire_position.
    rewrite len_encode, blen_app. simpl. pose proof (blen_nonneg c2). bcase.
    rewrite boundary_interior; [done| |done]. rewrite !scalars_app in Hs. destruct Hs as [_ Hs].
    by inversion Hs.
  - intros c1 c2 E ->. unfold byte_to_wire_position.
    rewrite len_encode, lookup_byte_line_rows by done.
    pose proof (crow_newline_interior (crows cs) 0 0 c1 c2 (crow_list_crows cs)) as Hi.
    rewrite ctext_crows, Z.add_0_l in Hi. rewrite (Hi E).
    rewrite E, boundary_prefix by (by rewrite <- E). rewrite blen_app. pose proof (blen_nonneg (LF :: c2)).
    by bcase.
  - intros c1 c2 E -> Ha.
    destruct (crow_addressable (crows cs) c1 c2) as (rs1 & m & t & s & rs2 & Er & Ec);
      [apply crow_list_crows|by rewrite ctext_crows|done|].
    apply (strict_byte_exact cs Hs Hu (Wire.mkPosition (len rs1) (wlen (code_units enc) m)) enc); [done|].
    exists rs1, m, t, s, rs2. rewrite Ec, blen_app. done.
Qed.

Example strict_byte_outcomes_witness :
  b_disposition (byte_to_wire_position (encode strict_sample) 2 EncUtf8) = InvalidNewlineBoundary.
Proof.
  apply (strict_byte_outcomes strict_sample 2 EncUtf8) with (c1 := [97]) (c2 := [128512; CR; 98]);
    [by repeat constructor|done|lia|done|done].
Defined.

(** An admitted wire range yields an ordered byte range: it is refused as
    reversed exactly when the requested positions are reversed (the second
    order check, on the byte offsets, never fires), and it is admitted exactly
    when the request is ordered and both ends are. *)
Theorem strict_range_order cs range enc :
  scalars cs -> u32_sized cs ->
  0 <= Wire.line (Wire.start range) -> 0 <= Wire.character (Wire.start range) ->
  0 <= Wire.line (Wire.end_ range) -> 0 <= Wire.character (Wire.end_ range) ->
  let m := wire_range_to_bytes (encode cs) range enc in
  (range_disposition m = InvalidRangeOrder <-> position_gt (Wire.start range) (Wire.end_ range) = true) /\
  match byte_range m with
  | Some (a, b) => a <= b /\ byte_offset (range_start m) = Some a /\ byte_offset (range_end m) = Some b
  | None => position_gt (Wire.start range) (Wire.end_ range) = true \/
      byte_offset (range_start m) = None \/ byte_offset (range_end m) = None
  end.
Proof.
  intros Hs Hu H1 H2 H3 H4 m. unfold m, wire_range_to_bytes, byte_range.
  rewrite !strict_wire_to_byte by done. cbn [range_disposition range_start range_end].
  pose proof (strict_mapping_admitted cs (Wire.start range) enc) as As.
  pose proof (strict_mapping_admitted cs (Wire.end_ range) enc) as Ae.
  pose proof (strict_mapping_mono cs (Wire.start range) (Wire.end_ range) enc) as Hmono.
  pose proof (strict_mapping_not_order cs (Wire.start range) enc) as Ns.
  pose proof (strict_mapping_not_order cs (Wire.end_ range) enc) as Ne.
  set (s := strict_mapping cs (Wire.start range) enc) in *.
  set (e := strict_mapping cs (Wire.end_ range) enc) in *.
  destruct (position_gt (Wire.start range) (Wire.end_ range)).
  { split; [done|]. destruct (byte_offset s), (byte_offset e); simpl; auto. }
  destruct (byte_offset s) as [a|], (byte_offset e) as [b|]; simpl in *;
    destruct (disposition s), (disposition e); simpl in *; try discriminate; try done;
    try (split; [by split|by auto]);
    specialize (Hmono a b H1 eq_refl eq_refl eq_refl);
    destruct (Z.ltb_spec b a); try lia; done.
Qed.

Example strict_range_order_witness :
  let m := wire_range_to_bytes (encode strict_sample)
    (Wire.mkRange (Wire.mkPosition 0 1) (Wire.mkPosition 1 2)) EncUtf16 in
  1 <= 7 /\ byte_offset (range_start m) = Some 1 /\ byte_offset (range_end m) = Some 7.
Proof.
  apply (strict_range_order strict_sample
    (Wire.mkRange (Wire.mkPosition 0 1) (Wire.mkPosition 1 2)) EncUtf16);
    [by repeat constructor|done|simpl; lia|simpl; lia|simpl; lia|simpl; lia].
Defined.
