(* ===== verification/SourceIdentity.v ===== *)
(** * Source identity (perl-source-identity: field_length.rs, digest.rs,
      ids.rs, logical_path.rs, generation.rs)

    Durable identities: length-prefixed fields hashed under a domain tag and
    printed as a tagged hex string; the validated root-relative logical path;
    the generation label.  The hash function is the third-party SHA-256: a
    parameter.  Proved: the encoding that is hashed is injective, over all
    domains and field lists, so equal identities come from equal inputs or
    exhibit a collision of the hash; every derived identity parses back; the
    path validator accepts exactly the paths of ordinary segments. *)

From Stdlib Require Import String Ascii.
From stdpp Require Import base numbers list.
From S2P Require Import Prelude Utf8.

(** ** Field lengths *)

Definition SOURCE_IDENTITY_V1_MAX_FIELD_BYTES : Z := u32_max.

Record FieldLengthError := mkFieldLengthError { actual_bytes : Z }.

(** [u32::try_from(len)] *)
Definition field_length_u32 (n : Z) : result FieldLengthError Z :=
  if n <=? u32_max then Ok n else Err (mkFieldLengthError n).

(** ** Digests *)

Definition SHA256_PREFIX : list Z := bytes_of "sha256:".
Definition SHA256_HEX_LEN : Z := 64.

(** [matches!(b, b'0'..=b'9' | b'a'..=b'f')] *)
Definition is_lower_hex (b : Z) : bool :=
  ((48 <=? b) && (b <=? 57)) || ((97 <=? b) && (b <=? 102)).

Definition is_sha256_hex_body (s : list Z) : bool :=
  (len s =? SHA256_HEX_LEN) && forallb is_lower_hex s.

(** [str::strip_prefix] on the bytes. *)
Fixpoint strip_prefix (prefix s : list Z) : option (list Z) :=
  match prefix, s with
  | [], _ => Some s
  | p :: prefix, b :: s => if p =? b then strip_prefix prefix s else None
  | _ :: _, [] => None
  end.

Definition validate_prefixed_wire (s prefix : list Z) : bool :=
  match strip_prefix prefix s with Some body => is_sha256_hex_body body | None => false end.

(** [format!("{byte:02x}")] *)
Definition hex_digit (d : Z) : Z := if d <? 10 then 48 + d else 87 + d.
Definition hex_byte (b : Z) : list Z := [hex_digit (b `div` 16); hex_digit (b `mod` 16)].
(** [bytes_to_wire_hex], and the loop of [sha256_to_wire]. *)
Definition bytes_to_wire_hex (bytes : list Z) : list Z := concat (hex_byte <$> bytes).
Definition sha256_to_wire (bytes : list Z) : list Z := SHA256_PREFIX ++ bytes_to_wire_hex bytes.

Definition u32_be (n : Z) : list Z :=
  [n `div` 16777216; n `div` 65536 `mod` 256; n `div` 256 `mod` 256; n `mod` 256].

Definition try_length_prefixed (data : list Z) : result FieldLengthError (list Z) :=
  n ← field_length_u32 (len data);
  mret (u32_be n ++ data).

Record ContentDigest := mkDigest { digest_wire : list Z }.
#[export] Instance ContentDigest_eq_dec : EqDecision ContentDigest.
Proof. solve_decision. Defined.
Definition CONTENT_DIGEST_DOMAIN : list Z := bytes_of "perl-lsp:content-digest:v1" ++ [0].

Definition digest_from_wire (s : list Z) : option ContentDigest :=
  if validate_prefixed_wire s SHA256_PREFIX then Some (mkDigest s) else None.

(** [DomainHasher]: the domain and the prefixed fields pushed so far. *)
Record DomainHasher := mkHasher { domain : list Z; parts : list (list Z) }.
Definition hasher_new (domain : list Z) : DomainHasher := mkHasher domain [].
Definition try_push_field (self : DomainHasher) (field : list Z) : result FieldLengthError DomainHasher :=
  p ← try_length_prefixed field;
  mret (mkHasher (domain self) (parts self ++ [p])).

(** ** Logical paths *)

Inductive LogicalPathError :=
| PathEmpty
| LeadingSeparator
| BackslashSeparator
| WindowsDrivePrefix
| CurrentDirectorySegment
| ParentDirectorySegment
| EmptySegment
| ControlCharacter.

(** [char::is_control]: the category Cc. *)
Definition is_control (c : Z) : bool := (c <? 32) || ((127 <=? c) && (c <? 160)).
Definition is_ascii_alphabetic (c : Z) : bool :=
  ((65 <=? c) && (c <=? 90)) || ((97 <=? c) && (c <=? 122)).

Definition SLASH : Z := 47.
Definition BACKSLASH : Z := 92.
Definition DOT : Z := 46.
Definition COLON : Z := 58.

(** [str::split(char)] *)
Fixpoint split_on (sep : Z) (cs : list Z) : list (list Z) :=
  match cs with
  | [] => [[]]
  | c :: cs =>
    if c =? sep then [] :: split_on sep cs
    else match split_on sep cs with [] => [[c]] | s :: ss => (c :: s) :: ss end
  end.

Definition has_windows_drive_prefix (candidate : list Z) : bool :=
  match candidate with
  | drive :: c :: _ => (c =? COLON) && is_ascii_alphabetic drive
  | _ => false
  end.

(** The loop over the segments. *)
Fixpoint check_segments (segments : list (list Z)) : option LogicalPathError :=
  match segments with
  | [] => None
  | segment :: segments =>
    match segment with
    | [] => Some EmptySegment
    | [a] => if a =? DOT then Some CurrentDirectorySegment else check_segments segments
    | [a; b] =>
      if (a =? DOT) && (b =? DOT) then Some ParentDirectorySegment else check_segments segments
    | _ => check_segments segments
    end
  end.

(** [RootRelativeLogicalPath::parse], on the characters of the candidate. *)
Record RootRelativeLogicalPath := mkLogicalPath { logical_path : list Z }.

Definition parse (candidate : list Z) : result LogicalPathError RootRelativeLogicalPath :=
  if bool_decide (candidate = []) then Err PathEmpty
  else if bool_decide (head candidate = Some SLASH) then Err LeadingSeparator
  else if existsb (fun c => c =? BACKSLASH) candidate then Err BackslashSeparator
  else if existsb is_control candidate then Err ControlCharacter
  else if has_windows_drive_prefix candidate then Err WindowsDrivePrefix
  else match check_segments (split_on SLASH candidate) with
  | Some e => Err e
  | None => Ok (mkLogicalPath candidate)
  end.

(** ** Generations *)

Inductive SourceGeneration := Known (value : list Z) | Unknown.
#[export] Instance SourceGeneration_eq_dec : EqDecision SourceGeneration.
Proof. solve_decision. Defined.

Definition is_known (self : SourceGeneration) : bool :=
  match self with Known v => negb (len v =? 0) | Unknown => false end.
Definition is_unknown (self : SourceGeneration) : bool :=
  match self with Known _ => false | Unknown => true end.
Definition as_label (self : SourceGeneration) : option (list Z) :=
  match self with Known v => if negb (len v =? 0) then Some v else None | Unknown => None end.

(** ** Identities *)

Definition PROJECT_DOMAIN : list Z := bytes_of "perl-lsp:project-id:v1" ++ [0].
Definition WORKSPACE_ROOT_DOMAIN : list Z := bytes_of "perl-lsp:workspace-root-id:v1" ++ [0].
Definition LOGICAL_SOURCE_DOMAIN : list Z := bytes_of "perl-lsp:logical-source-id:v1" ++ [0].

Record ProjectId := mkProjectId { project_wire : list Z }.
Record WorkspaceRootId := mkRootId { root_wire : list Z }.
Record LogicalSourceId := mkSourceId { source_wire : list Z }.
#[export] Instance LogicalSourceId_eq_dec : EqDecision LogicalSourceId.
Proof. solve_decision. Defined.

Definition PROJECT_PREFIX : list Z := bytes_of "project:sha256:".
Definition ROOT_PREFIX : list Z := bytes_of "root:sha256:".
Definition SOURCE_PREFIX : list Z := bytes_of "src:sha256:".

Definition project_from_wire (s : list Z) : option ProjectId :=
  if validate_prefixed_wire s PROJECT_PREFIX then Some (mkProjectId s) else None.
Definition root_from_wire (s : list Z) : option WorkspaceRootId :=
  if validate_prefixed_wire s ROOT_PREFIX then Some (mkRootId s) else None.
Definition source_from_wire (s : list Z) : option LogicalSourceId :=
  if validate_prefixed_wire s SOURCE_PREFIX then Some (mkSourceId s) else None.

Section hash.
(** SHA-256 of the byte sequence fed to the hasher. *)
Variable sha256 : list Z -> list Z.

(** [sha256_raw]: the hash of the concatenated parts. *)
Definition sha256_raw (ps : list (list Z)) : list Z := sha256 (concat ps).

Definition try_of_bytes (content : list Z) : result FieldLengthError ContentDigest :=
  p ← try_length_prefixed content;
  mret (mkDigest (sha256_to_wire (sha256_raw [CONTENT_DIGEST_DOMAIN; p]))).

(** [infallible_precondition_violation] panics. *)
Definition or_panic {A} (r : result FieldLengthError A) : outcome A :=
  match r with Ok a => Ret a | Err _ => Panic end.
Definition of_bytes (content : list Z) : outcome ContentDigest := or_panic (try_of_bytes content).

Definition finish (self : DomainHasher) : list Z := sha256 (domain self ++ concat (parts self)).

Definition try_from_canonical_name (canonical_name : list Z) : result FieldLengthError ProjectId :=
  h ← try_push_field (hasher_new PROJECT_DOMAIN) canonical_name;
  mret (mkProjectId (PROJECT_PREFIX ++ bytes_to_wire_hex (finish h))).

Definition try_from_project_and_root_key (project_id : ProjectId) (root_key : list Z)
    : result FieldLengthError WorkspaceRootId :=
  h ← try_push_field (hasher_new WORKSPACE_ROOT_DOMAIN) (project_wire project_id);
  h ← try_push_field h root_key;
  mret (mkRootId (ROOT_PREFIX ++ bytes_to_wire_hex (finish h))).

Definition try_from_root_and_path (root_id : WorkspaceRootId) (root_relative_path : list Z)
    : result FieldLengthError LogicalSourceId :=
  h ← try_push_field (hasher_new LOGICAL_SOURCE_DOMAIN) (root_wire root_id);
  h ← try_push_field h root_relative_path;
  mret (mkSourceId (SOURCE_PREFIX ++ bytes_to_wire_hex (finish h))).

Definition try_from_root_and_logical_path (root_id : WorkspaceRootId)
    (path : RootRelativeLogicalPath) : result FieldLengthError LogicalSourceId :=
  try_from_root_and_path root_id (encode (logical_path path)).
End hash.

(** ** The encoding is injective *)

Definition bytes_ok (bs : list Z) : Prop := Forall (fun b => 0 <= b < 256) bs.

Lemma field_length_inv n m : field_length_u32 n = Ok m -> m = n /\ n <= u32_max.
Proof. unfold field_length_u32. destruct (Z.leb_spec n u32_max); [|done]. by intros [= <-]. Qed.

Lemma u32_be_inj n m : 0 <= n <= u32_max -> 0 <= m <= u32_max -> u32_be n = u32_be m -> n = m.
Proof. unfold u32_be, u32_max. intros Hn Hm [= E1 E2 E3 E4]. dlia. Qed.

Lemma length_prefixed_inv data p :
  try_length_prefixed data = Ok p -> p = u32_be (len data) ++ data /\ len data <= u32_max.
Proof.
  unfold try_length_prefixed. destruct (field_length_u32 (len data)) eqn:E; [|done].
  apply field_length_inv in E as [-> H]. by intros [= <-].
Qed.

(** A prefixed field can be told apart from whatever follows it. *)
Lemma length_prefixed_code d1 d2 p1 p2 r1 r2 :
  try_length_prefixed d1 = Ok p1 -> try_length_prefixed d2 = Ok p2 ->
  p1 ++ r1 = p2 ++ r2 -> d1 = d2 /\ r1 = r2.
Proof.
  intros [-> H1]%length_prefixed_inv [-> H2]%length_prefixed_inv E.
  rewrite <- !app_assoc in E. apply app_inj_1 in E as [En Er]; [|done].
  pose proof (len_nonneg d1). pose proof (len_nonneg d2).
  apply u32_be_inj in En; [|lia|lia]. apply app_inj_1 in Er; [done|]. unfold len in En. lia.
Qed.

(** The bytes hashed for a list of fields. *)
Inductive encodes : list (list Z) -> list (list Z) -> Prop :=
| encodes_nil : encodes [] []
| encodes_cons f p fs ps :
    try_length_prefixed f = Ok p -> encodes fs ps -> encodes (f :: fs) (p :: ps).

Lemma encodes_inj fs1 fs2 ps1 ps2 :
  encodes fs1 ps1 -> encodes fs2 ps2 -> concat ps1 = concat ps2 -> fs1 = fs2.
Proof.
  intros H1. revert fs2 ps2. induction H1 as [|f p fs ps Hp _ IH]; intros fs2 ps2 H2 E.
  - destruct H2 as [|g q gs qs Hq _]; [done|]. simpl in E.
    apply length_prefixed_inv in Hq as [-> _]. done.
  - destruct H2 as [|g q gs qs Hq H2]; simpl in E.
    + apply length_prefixed_inv in Hp as [-> _]. done.
    + destruct (length_prefixed_code f g p q _ _ Hp Hq E) as [-> E'].
      f_equal. by eapply IH.
Qed.

(** Domain tags end at their only zero byte. *)
Lemma zero_terminated_inj s1 s2 r1 r2 :
  0 ∉ s1 -> 0 ∉ s2 -> (s1 ++ [0]) ++ r1 = (s2 ++ [0]) ++ r2 -> s1 = s2 /\ r1 = r2.
Proof.
  rewrite <- !app_assoc. revert s2. induction s1 as [|b s1 IH]; intros [|c s2] H1 H2 E; simpl in *.
  - by injection E as ->.
  - injection E as <- _. exfalso. apply H2. by left.
  - injection E as -> _. exfalso. apply H1. by left.
  - injection E as -> E. destruct (IH s2) as [-> ->]; [| |done|done].
    + intros H. apply H1. by right.
    + intros H. apply H2. by right.
Qed.

Definition domain_name (d : list Z) : Prop :=
  exists s, d = s ++ [0] /\ 0 ∉ s.

Ltac domain_tac :=
  eexists; split; [reflexivity|]; vm_compute; intros H;
  repeat (apply elem_of_cons in H as [H|H]; [discriminate H|]); by apply elem_of_nil in H.

Lemma content_domain_name : domain_name CONTENT_DIGEST_DOMAIN.
Proof. domain_tac. Qed.
Lemma project_domain_name : domain_name PROJECT_DOMAIN.
Proof. domain_tac. Qed.
Lemma root_domain_name : domain_name WORKSPACE_ROOT_DOMAIN.
Proof. domain_tac. Qed.
Lemma source_domain_name : domain_name LOGICAL_SOURCE_DOMAIN.
Proof. domain_tac. Qed.

(** What a hasher feeds to the hash determines the domain and the fields. *)
Lemma preimage_inj d1 d2 fs1 fs2 ps1 ps2 :
  domain_name d1 -> domain_name d2 -> encodes fs1 ps1 -> encodes fs2 ps2 ->
  d1 ++ concat ps1 = d2 ++ concat ps2 -> d1 = d2 /\ fs1 = fs2.
Proof.
  intros (s1 & -> & H1) (s2 & -> & H2) E1 E2 E.
  destruct (zero_terminated_inj s1 s2 _ _ H1 H2 E) as [-> Ep].
  split; [done|]. by eapply encodes_inj.
Qed.

(** ** Hex *)

Lemma hex_byte_inj b c : 0 <= b < 256 -> 0 <= c < 256 -> hex_byte b = hex_byte c -> b = c.
Proof.
  unfold hex_byte, hex_digit. intros Hb Hc [= E1 E2].
  revert E1 E2. bcase; intros; dlia.
Qed.

Lemma hex_inj bs cs : bytes_ok bs -> bytes_ok cs ->
  bytes_to_wire_hex bs = bytes_to_wire_hex cs -> bs = cs.
Proof.
  intros H. revert cs. induction H as [|b bs Hb _ IH]; intros cs Hcs E.
  - by destruct cs.
  - destruct Hcs as [|c cs Hc Hcs]; [done|].
    change (hex_byte b ++ bytes_to_wire_hex bs = hex_byte c ++ bytes_to_wire_hex cs) in E.
    apply app_inj_1 in E as [E1 E2]; [|done].
    f_equal; [by apply hex_byte_inj|by apply IH].
Qed.

Lemma hex_body bs : bytes_ok bs -> len bs = 32 -> is_sha256_hex_body (bytes_to_wire_hex bs) = true.
Proof.
  intros Hb Hl. unfold is_sha256_hex_body. apply andb_true_iff. split.
  - apply Z.eqb_eq. enough (len (bytes_to_wire_hex bs) = 2 * len bs) by (unfold SHA256_HEX_LEN; lia).
    clear. induction bs as [|b bs IH]; [done|].
    change (len (hex_byte b ++ bytes_to_wire_hex bs) = 2 * len (b :: bs)).
    rewrite len_app, len_cons, IH. change (len (hex_byte b)) with 2. lia.
  - clear Hl. induction Hb as [|b bs Hb _ IH]; [done|].
    change (forallb is_lower_hex (hex_byte b ++ bytes_to_wire_hex bs) = true).
    rewrite forallb_app, IH, andb_true_r. simpl. rewrite andb_true_r.
    unfold is_lower_hex, hex_digit. apply andb_true_iff. split; dbcase; done.
Qed.

Lemma strip_prefix_app p s : strip_prefix p (p ++ s) = Some s.
Proof. induction p as [|b p IH]; simpl; [done|]. by rewrite Z.eqb_refl. Qed.

Lemma validate_derived p bs :
  bytes_ok bs -> len bs = 32 -> validate_prefixed_wire (p ++ bytes_to_wire_hex bs) p = true.
Proof. intros Hb Hl. unfold validate_prefixed_wire. rewrite strip_prefix_app. by apply hex_body. Qed.

(** ** Hashers *)

Section identity.
Context (sha256 : list Z -> list Z).
(** SHA-256 yields 32 bytes. *)
Hypothesis sha256_bytes : forall x, bytes_ok (sha256 x) /\ len (sha256 x) = 32.

Definition collision : Prop := exists x y, x <> y /\ sha256 x = sha256 y.

(** Two hashes that print the same come from the same domain and fields. *)
Lemma hashed_inj d1 d2 fs1 fs2 ps1 ps2 :
  domain_name d1 -> domain_name d2 -> encodes fs1 ps1 -> encodes fs2 ps2 ->
  bytes_to_wire_hex (sha256 (d1 ++ concat ps1)) = bytes_to_wire_hex (sha256 (d2 ++ concat ps2)) ->
  (d1 = d2 /\ fs1 = fs2) \/ collision.
Proof using sha256_bytes.
  intros H1 H2 E1 E2 E.
  apply hex_inj in E; [|apply sha256_bytes|apply sha256_bytes].
  destruct (decide (d1 ++ concat ps1 = d2 ++ concat ps2)) as [Ep|Hne].
  - left. by eapply preimage_inj.
  - right. by exists (d1 ++ concat ps1), (d2 ++ concat ps2).
Qed.

Lemma one_field d f h :
  try_push_field (hasher_new d) f = Ok h ->
  exists ps, encodes [f] ps /\ finish sha256 h = sha256 (d ++ concat ps).
Proof using Type.
  unfold try_push_field. destruct (try_length_prefixed f) as [p|] eqn:E; [|done].
  intros [= <-]. exists [p]. split; [by repeat constructor|done].
Qed.

Lemma two_fields d f g h1 h2 :
  try_push_field (hasher_new d) f = Ok h1 -> try_push_field h1 g = Ok h2 ->
  exists ps, encodes [f; g] ps /\ finish sha256 h2 = sha256 (d ++ concat ps).
Proof using Type.
  unfold try_push_field. destruct (try_length_prefixed f) as [p|] eqn:E; [|done].
  intros [= <-]. destruct (try_length_prefixed g) as [q|] eqn:E2; [|done].
  intros [= <-]. exists [p; q]. split; [by repeat constructor|done].
Qed.

Lemma project_id_inv n i :
  try_from_canonical_name sha256 n = Ok i ->
  exists ps, encodes [n] ps /\
    i = mkProjectId (PROJECT_PREFIX ++ bytes_to_wire_hex (sha256 (PROJECT_DOMAIN ++ concat ps))).
Proof using Type.
  unfold try_from_canonical_name. destruct (try_push_field _ n) as [h|] eqn:E; [|done].
  intros [= <-]. apply one_field in E as (ps & Hps & ->). by exists ps.
Qed.

Lemma root_id_inv p k i :
  try_from_project_and_root_key sha256 p k = Ok i ->
  exists ps, encodes [project_wire p; k] ps /\
    i = mkRootId (ROOT_PREFIX ++ bytes_to_wire_hex (sha256 (WORKSPACE_ROOT_DOMAIN ++ concat ps))).
Proof using Type.
  unfold try_from_project_and_root_key.
  destruct (try_push_field _ (project_wire p)) as [h|] eqn:E; [|done]. simpl.
  destruct (try_push_field h k) as [h'|] eqn:E'; [|done].
  intros [= <-]. destruct (two_fields _ _ _ _ _ E E') as (ps & Hps & ->). by exists ps.
Qed.

Lemma source_id_inv r p i :
  try_from_root_and_path sha256 r p = Ok i ->
  exists ps, encodes [root_wire r; p] ps /\
    i = mkSourceId (SOURCE_PREFIX ++ bytes_to_wire_hex (sha256 (LOGICAL_SOURCE_DOMAIN ++ concat ps))).
Proof using Type.
  unfold try_from_root_and_path.
  destruct (try_push_field _ (root_wire r)) as [h|] eqn:E; [|done]. simpl.
  destruct (try_push_field h p) as [h'|] eqn:E'; [|done].
  intros [= <-]. destruct (two_fields _ _ _ _ _ E E') as (ps & Hps & ->). by exists ps.
Qed.

(** Equal content digests come from equal bytes. *)
Lemma of_bytes_inj a b d :
  of_bytes sha256 a = Ret d -> of_bytes sha256 b = Ret d -> a = b \/ collision.
Proof using sha256_bytes.
  unfold of_bytes, try_of_bytes, sha256_to_wire, sha256_raw.
  pose proof content_domain_name as Hd. revert Hd. generalize CONTENT_DIGEST_DOMAIN as D. intros D Hd.
  destruct (try_length_prefixed a) as [p|] eqn:Ea; [|done].
  destruct (try_length_prefixed b) as [q|] eqn:Eb; [|done]. simpl.
  intros [= <-] [= E].
  destruct (hashed_inj D D [a] [b] [p] [q]) as [[_ ?]|?]; try done; try by repeat constructor; eauto.
  all: naive_solver.
Qed.

Lemma of_bytes_short a : len a <= u32_max -> exists d, of_bytes sha256 a = Ret d.
Proof using Type.
  intros H. unfold of_bytes, try_of_bytes, try_length_prefixed, field_length_u32.
  rewrite (proj2 (Z.leb_le _ _) H). by eexists.
Qed.
End identity.

(** ** Segments *)

Fixpoint join (sep : Z) (ss : list (list Z)) : list Z :=
  match ss with
  | [] => []
  | [s] => s
  | s :: ss => s ++ sep :: join sep ss
  end.

Lemma split_on_ne sep cs : split_on sep cs <> [].
Proof. destruct cs as [|c cs]; simpl; [done|]. destruct (c =? sep); [done|]. by destruct (split_on sep cs). Qed.

Lemma join_split sep cs : join sep (split_on sep cs) = cs.
Proof.
  induction cs as [|c cs IH]; [done|]. simpl. pose proof (split_on_ne sep cs) as Hne.
  destruct (Z.eqb_spec c sep) as [->|]; destruct (split_on sep cs) as [|s ss]; try done.
  - simpl. by rewrite <- IH.
  - destruct ss; simpl in *; by rewrite <- IH.
Qed.

Lemma split_on_clean sep cs : Forall (fun s => sep ∉ s) (split_on sep cs).
Proof.
  induction cs as [|c cs IH]; simpl.
  { constructor; [|done]. by intros ?%elem_of_nil. }
  destruct (Z.eqb_spec c sep) as [->|Hne].
  - constructor; [|done]. by intros ?%elem_of_nil.
  - destruct (split_on sep cs) as [|s ss].
    + constructor; [|done]. by intros ->%list_elem_of_singleton.
    + inversion IH; subst. constructor; [|done]. by intros [->|?]%elem_of_cons.
Qed.

Lemma split_segment sep s : sep ∉ s -> split_on sep s = [s].
Proof.
  induction s as [|c s IH]; intros H; simpl; [done|].
  destruct (Z.eqb_spec c sep) as [->|]; [exfalso; apply H; by left|].
  rewrite IH; [done|]. intros ?. apply H. by right.
Qed.

Lemma split_segment_app sep s cs : sep ∉ s -> split_on sep (s ++ sep :: cs) = s :: split_on sep cs.
Proof.
  induction s as [|c s IH]; intros H; simpl; [by rewrite Z.eqb_refl|].
  destruct (Z.eqb_spec c sep) as [->|]; [exfalso; apply H; by left|].
  rewrite IH; [done|]. intros ?. apply H. by right.
Qed.

Lemma split_join sep ss :
  ss <> [] -> Forall (fun s => sep ∉ s) ss -> split_on sep (join sep ss) = ss.
Proof.
  intros Hne H. induction H as [|s ss Hs H IH]; [done|].
  destruct ss as [|t ss]; [by apply split_segment|].
  change (split_on sep (s ++ sep :: join sep (t :: ss)) = s :: t :: ss).
  rewrite split_segment_app by done. by rewrite IH.
Qed.

(** A segment that names something below its directory. *)
Definition ordinary (s : list Z) : Prop := s <> [] /\ s <> [DOT] /\ s <> [DOT; DOT] /\ SLASH ∉ s.

Lemma check_segments_ok ss :
  Forall (fun s => SLASH ∉ s) ss -> check_segments ss = None <-> Forall ordinary ss.
Proof.
  induction 1 as [|s ss Hs _ IH]; [by split|]. cbn [check_segments].
  assert (forall P, (P -> ordinary s) -> (ordinary s -> P) ->
    (P /\ check_segments ss = None) <-> Forall ordinary (s :: ss)) as Hcons.
  { intros P H1 H2. rewrite Forall_cons, IH. naive_solver. }
  destruct s as [|a [|b [|c s]]].
  - split; [done|]. intros Hf. inversion Hf as [|? ? Ho]; subst. by destruct Ho as [Ho _].
  - destruct (Z.eqb_spec a DOT) as [->|Hne].
    + split; [done|]. intros Hf. inversion Hf as [|? ? Ho]; subst. by destruct Ho as (_ & Ho & _).
    + rewrite <- (Hcons True); [naive_solver| |done]. intros _. repeat split; try done. congruence.
  - destruct (Z.eqb_spec a DOT) as [->|Hne], (Z.eqb_spec b DOT) as [->|Hne']; simpl.
    + split; [done|]. intros Hf. inversion Hf as [|? ? Ho]; subst. by destruct Ho as (_ & _ & Ho & _).
    + rewrite <- (Hcons True); [naive_solver| |done]. intros _. repeat split; try done. congruence.
    + rewrite <- (Hcons True); [naive_solver| |done]. intros _. repeat split; try done. congruence.
    + rewrite <- (Hcons True); [naive_solver| |done]. intros _. repeat split; try done. congruence.
  - rewrite <- (Hcons True); [naive_solver| |done]. intros _. by repeat split.
Qed.

Lemma existsb_false {A} (p : A -> bool) l : existsb p l = false <-> Forall (fun x => p x = false) l.
Proof.
  induction l as [|x l IH]; simpl; [by split|].
  rewrite orb_false_iff, Forall_cons, IH. done.
Qed.

Lemma head_slash_segments candidate :
  head candidate = Some SLASH -> ~ Forall ordinary (split_on SLASH candidate).
Proof.
  destruct candidate as [|c cs]; [done|]. intros [= ->]. simpl. intros H.
  inversion H as [|? ? [Ho _]]. done.
Qed.

(** ** Theorems *)

(** Identities are injective up to a collision of the hash: if two logical
    source identities derived from a project name, a root key and a logical
    path are equal, then the three inputs are equal, or two different byte
    strings with the same SHA-256 exist. *)
Theorem source_identity_injective (sha256 : list Z -> list Z) n1 k1 p1 n2 k2 p2 pr1 r1 pr2 r2 i :
  (forall x, bytes_ok (sha256 x) /\ len (sha256 x) = 32) ->
  try_from_canonical_name sha256 n1 = Ok pr1 ->
  try_from_project_and_root_key sha256 pr1 k1 = Ok r1 ->
  try_from_root_and_path sha256 r1 p1 = Ok i ->
  try_from_canonical_name sha256 n2 = Ok pr2 ->
  try_from_project_and_root_key sha256 pr2 k2 = Ok r2 ->
  try_from_root_and_path sha256 r2 p2 = Ok i ->
  (n1 = n2 /\ k1 = k2 /\ p1 = p2) \/ collision sha256.
Proof.
  intros Hh (a1 & A1 & ->)%project_id_inv (b1 & B1 & ->)%root_id_inv (c1 & C1 & ->)%source_id_inv
    (a2 & A2 & ->)%project_id_inv (b2 & B2 & ->)%root_id_inv (c2 & C2 & E)%source_id_inv.
  injection E as E.
  destruct (hashed_inj sha256 Hh _ _ _ _ _ _ source_domain_name source_domain_name C1 C2 E)
    as [[_ [= Er Ep]]|]; [|by right].
  destruct (hashed_inj sha256 Hh _ _ _ _ _ _ root_domain_name root_domain_name B1 B2 Er)
    as [[_ [= En Ek]]|]; [|by right].
  destruct (hashed_inj sha256 Hh _ _ _ _ _ _ project_domain_name project_domain_name A1 A2 En)
    as [[_ [= E1]]|]; [|by right].
  by left.
Qed.

(** A hash of the required shape, for the examples. *)
Definition sample_hash (x : list Z) : list Z := replicate 32 (sum_Z x `mod` 256).
Lemma sample_hash_ok x : bytes_ok (sample_hash x) /\ len (sample_hash x) = 32.
Proof.
  split; [|by unfold len, sample_hash; rewrite length_replicate].
  apply Forall_replicate. apply Z.mod_pos_bound. lia.
Qed.

Example source_identity_injective_witness :
  exists pr r i,
    try_from_canonical_name sample_hash [97] = Ok pr /\
    try_from_project_and_root_key sample_hash pr [98] = Ok r /\
    try_from_root_and_path sample_hash r [99] = Ok i /\
    (([97] = [97] :> list Z /\ [98] = [98] :> list Z /\ [99] = [99] :> list Z) \/ collision sample_hash).
Proof.
  do 3 eexists. split; [reflexivity|]. split; [reflexivity|]. split; [reflexivity|].
  by eapply (source_identity_injective sample_hash); [apply sample_hash_ok|..].
Defined.

(** Domain separation: the byte strings hashed for content digests,
    project, root and source identities never coincide across kinds, and
    within one kind they determine the fields. *)
Theorem hashed_bytes_separate d1 d2 fs1 fs2 ps1 ps2 :
  In d1 [CONTENT_DIGEST_DOMAIN; PROJECT_DOMAIN; WORKSPACE_ROOT_DOMAIN; LOGICAL_SOURCE_DOMAIN] ->
  In d2 [CONTENT_DIGEST_DOMAIN; PROJECT_DOMAIN; WORKSPACE_ROOT_DOMAIN; LOGICAL_SOURCE_DOMAIN] ->
  encodes fs1 ps1 -> encodes fs2 ps2 ->
  d1 ++ concat ps1 = d2 ++ concat ps2 -> d1 = d2 /\ fs1 = fs2.
Proof.
  intros H1 H2. apply preimage_inj.
  - destruct H1 as [<-|[<-|[<-|[<-|[]]]]];
      auto using content_domain_name, project_domain_name, root_domain_name, source_domain_name.
  - destruct H2 as [<-|[<-|[<-|[<-|[]]]]];
      auto using content_domain_name, project_domain_name, root_domain_name, source_domain_name.
Qed.

Example hashed_bytes_separate_witness :
  PROJECT_DOMAIN = PROJECT_DOMAIN /\ [[97]; []] = [[97]; []] :> list (list Z).
Proof.
  apply (hashed_bytes_separate PROJECT_DOMAIN PROJECT_DOMAIN [[97]; []] [[97]; []]
    [[0; 0; 0; 1; 97]; [0; 0; 0; 0]] [[0; 0; 0; 1; 97]; [0; 0; 0; 0]]);
    [right; by left|right; by left|by repeat constructor|by repeat constructor|reflexivity].
Defined.

(** Every derived identity parses back: the wire form of a content digest,
    a project, root or source identity is accepted by its validating parser,
    which returns the identity; derivation fails only on a field longer than
    the length prefix can hold. *)
Theorem derived_identities_parse (sha256 : list Z -> list Z) content name pr key r path :
  (forall x, bytes_ok (sha256 x) /\ len (sha256 x) = 32) ->
  match try_of_bytes sha256 content with
  | Ok d => digest_from_wire (digest_wire d) = Some d
  | Err e => actual_bytes e = len content /\ u32_max < len content
  end /\
  (forall i, try_from_canonical_name sha256 name = Ok i -> project_from_wire (project_wire i) = Some i) /\
  (forall i, try_from_project_and_root_key sha256 pr key = Ok i -> root_from_wire (root_wire i) = Some i) /\
  (forall i, try_from_root_and_path sha256 r path = Ok i -> source_from_wire (source_wire i) = Some i).
Proof.
  intros Hh. assert (forall p x, validate_prefixed_wire (p ++ bytes_to_wire_hex (sha256 x)) p = true) as Hv.
  { intros p x. apply validate_derived; apply Hh. }
  split; [|split; [|split]].
  - unfold try_of_bytes, try_length_prefixed, field_length_u32.
    destruct (Z.leb_spec (len content) u32_max); cbn [mbind result_bind mret result_ret]; [|done].
    unfold digest_from_wire. cbn [digest_wire]. unfold sha256_to_wire, sha256_raw. by rewrite Hv.
  - intros i (ps & _ & ->)%project_id_inv. unfold project_from_wire. cbn [project_wire]. by rewrite Hv.
  - intros i (ps & _ & ->)%root_id_inv. unfold root_from_wire. cbn [root_wire]. by rewrite Hv.
  - intros i (ps & _ & ->)%source_id_inv. unfold source_from_wire. cbn [source_wire]. by rewrite Hv.
Qed.

Example derived_identities_parse_witness :
  exists d, try_of_bytes sample_hash [112] = Ok d /\ digest_from_wire (digest_wire d) = Some d.
Proof.
  eexists. split; [reflexivity|].
  exact (proj1 (derived_identities_parse sample_hash [112] [] (mkProjectId []) [] (mkRootId []) []
    sample_hash_ok)).
Defined.

(** The path validator accepts exactly the canonical root-relative paths,
    and returns them unchanged: one or more segments joined by slashes, none
    empty, [.] or [..], with no backslash, no control character and no drive
    prefix; so no accepted path is absolute or climbs out of its root. *)
Theorem logical_path_canonical candidate p :
  parse candidate = Ok p <->
  p = mkLogicalPath candidate /\
  (exists ss, ss <> [] /\ candidate = join SLASH ss /\ Forall ordinary ss) /\
  Forall (fun c => c <> BACKSLASH /\ is_control c = false) candidate /\
  has_windows_drive_prefix candidate = false.
Proof.
  unfold parse. split.
  - case_bool_decide as H0; [done|]. case_bool_decide as H1; [done|].
    destruct (existsb _ candidate) eqn:H2; [done|]. destruct (existsb is_control candidate) eqn:H3; [done|].
    destruct (has_windows_drive_prefix candidate) eqn:H4; [done|].
    destruct (check_segments (split_on SLASH candidate)) eqn:H5; [done|]. intros [= <-].
    apply check_segments_ok in H5; [|apply split_on_clean].
    apply existsb_false in H2. apply existsb_false in H3.
    split; [done|]. split; [|split; [|done]].
    + exists (split_on SLASH candidate). by rewrite join_split; auto using split_on_ne.
    + rewrite Forall_forall in *. intros c Hc. split; [|by apply H3].
      apply H2 in Hc. by apply Z.eqb_neq.
  - intros (-> & (ss & Hne & E & Ho) & Hc & Hd).
    assert (split_on SLASH candidate = ss) as Es.
    { rewrite E. apply split_join; [done|]. eapply Forall_impl; [exact Ho|]. by intros s (_ & _ & _ & ?). }
    rewrite <- Es in Ho. rewrite bool_decide_eq_false_2.
    2: { intros ->. simpl in Ho. inversion Ho as [|? ? [Hx _]]. by destruct Hx. }
    rewrite bool_decide_eq_false_2 by (intros Hh; by apply (head_slash_segments candidate)).
    rewrite (proj2 (existsb_false (fun c => c =? BACKSLASH) candidate)), (proj2 (existsb_false is_control candidate)), Hd.
    + by rewrite (proj2 (check_segments_ok _ (split_on_clean _ _))).
    + eapply Forall_impl; [exact Hc|]. by intros c [_ ?].
    + eapply Forall_impl; [exact Hc|]. intros c [? _]. by apply Z.eqb_neq.
Qed.
