(* ===== verification/ReferenceEdit.v ===== *)
(** * The reference edit transaction
      (perl-tdd-support/src/reference_edit.rs)

    The independent model of edit application: a transaction of edits in the
    predecessor's byte coordinates is validated (shape, order, declared ends)
    and applied in one left-to-right pass that also builds the old-to-new byte
    map.  Proved: an accepted transaction yields the splice of its
    replacements, with the next generation and the line table and digest of
    the new bytes; acceptance is exactly well-formedness; the map tiles both
    texts and translates every surviving byte to an equal byte.  The edit
    pipeline of TextEdits is proved against this model. *)

From Stdlib Require Import String.
From stdpp Require Import base numbers sets list.
From S2P Require Import Prelude Utf8 Spans SourceRows LineIndex SourceLines SourceIdentity.

Definition REFERENCE_EDIT_COORDINATE_MODEL_ID : list Z := bytes_of "old-generation-utf8-bytes/v1".

(** ** Edits and transactions *)

Record ReferenceEdit := mkEdit {
  start_byte : Z;
  old_end_byte : Z;
  replacement : list Z;
  expected_new_end_byte : option Z;
}.

Definition replace (s e : Z) (r : list Z) : ReferenceEdit := mkEdit s e r None.
Definition insert (at_byte : Z) (text : list Z) : ReferenceEdit := replace at_byte at_byte text.
Definition delete (s e : Z) : ReferenceEdit := replace s e [].
Definition with_expected_new_end (self : ReferenceEdit) (e : Z) : ReferenceEdit :=
  mkEdit (start_byte self) (old_end_byte self) (replacement self) (Some e).

Record ReferenceEditTransaction := mkTransaction {
  edits : list ReferenceEdit;
  coordinate_model : list Z;
}.
Definition transaction (es : list ReferenceEdit) : ReferenceEditTransaction :=
  mkTransaction es REFERENCE_EDIT_COORDINATE_MODEL_ID.

Inductive ReferenceByteMapSegment :=
| Unchanged (old new : ByteSpan.t)
| Replaced (old new : ByteSpan.t).

Definition segment_old (s : ReferenceByteMapSegment) : ByteSpan.t :=
  match s with Unchanged old _ => old | Replaced old _ => old end.
Definition segment_new (s : ReferenceByteMapSegment) : ByteSpan.t :=
  match s with Unchanged _ new => new | Replaced _ new => new end.

Inductive ReferenceEditError :=
| OutOfBounds (index start_byte old_end_byte source_len : Z)
| SplitUtf8Scalar (index byte_offset : Z)
| ReversedRange (index start_byte old_end_byte : Z)
| NoncanonicalOrder (earlier_index later_index earlier_start later_start : Z)
| Overlap (earlier_index later_index earlier_old_end later_start : Z)
| DuplicateStart (earlier_index later_index start_byte : Z)
| NewEndMismatch (index expected_new_end_byte actual_new_end_byte : Z)
| UnsupportedCoordinateModel (requested : list Z)
| InvalidSourceGeometry (e : SourceLineError)
| GenerationOverflow (generation : Z).

(** ** States *)

Record ReferenceSourceState := mkState {
  source : list Z;
  digest : ContentDigest;
  generation : Z;
  lines : LineRecordTable;
}.

Record ReferenceEditResult := mkResult {
  predecessor_digest : ContentDigest;
  predecessor_generation : Z;
  applied : ReferenceEditTransaction;
  successor : ReferenceSourceState;
  mapping : list ReferenceByteMapSegment;
  changed_old : list ByteSpan.t;
  changed_new : list ByteSpan.t;
}.

(** ** Validation *)

(** The first loop of [apply]: the shape of each edit. *)
Fixpoint check_shapes (src : list Z) (index : Z) (es : list ReferenceEdit)
    : option ReferenceEditError :=
  match es with
  | [] => None
  | e :: es =>
    if old_end_byte e <? start_byte e then
      Some (ReversedRange index (start_byte e) (old_end_byte e))
    else if len src <? old_end_byte e then
      Some (OutOfBounds index (start_byte e) (old_end_byte e) (len src))
    else if negb (is_char_boundary src (start_byte e)) then
      Some (SplitUtf8Scalar index (start_byte e))
    else if negb (is_char_boundary src (old_end_byte e)) then
      Some (SplitUtf8Scalar index (old_end_byte e))
    else check_shapes src (index + 1) es
  end.

(** The second loop: adjacent pairs, [later] at [later_index]. *)
Fixpoint check_order (later_index : Z) (earlier : ReferenceEdit) (es : list ReferenceEdit)
    : option ReferenceEditError :=
  match es with
  | [] => None
  | later :: es =>
    if start_byte later =? start_byte earlier then
      Some (DuplicateStart (later_index - 1) later_index (start_byte later))
    else if start_byte later <? start_byte earlier then
      Some (NoncanonicalOrder (later_index - 1) later_index (start_byte earlier) (start_byte later))
    else if start_byte later <? old_end_byte earlier then
      Some (Overlap (later_index - 1) later_index (old_end_byte earlier) (start_byte later))
    else check_order (later_index + 1) later es
  end.

Definition check_pairs (es : list ReferenceEdit) : option ReferenceEditError :=
  match es with [] => None | e :: es => check_order 1 e es end.

(** ** The pass *)

Record Build := mkBuild {
  b_successor : list Z;
  b_mapping : list ReferenceByteMapSegment;
  b_changed_old : list ByteSpan.t;
  b_changed_new : list ByteSpan.t;
  b_cursor : Z;
}.
Definition build_start : Build := mkBuild [] [] [] [] 0.

(** Carry the unchanged bytes up to [upto]. *)
Definition carry (src : list Z) (b : Build) (upto : Z) : outcome Build :=
  if b_cursor b <? upto then
    carried ← str_index src (b_cursor b) upto;
    let new_start := len (b_successor b) in
    let successor := b_successor b ++ carried in
    old ← ByteSpan.new (b_cursor b) upto;
    new ← ByteSpan.new new_start (len successor);
    mret (mkBuild successor (b_mapping b ++ [Unchanged old new]) (b_changed_old b)
            (b_changed_new b) (b_cursor b))
  else mret b.

Definition apply_edit (src : list Z) (index : Z) (b : Build) (e : ReferenceEdit)
    : outcome (result ReferenceEditError Build) :=
  b ← carry src b (start_byte e);
  let new_start := len (b_successor b) in
  let successor := b_successor b ++ replacement e in
  let new_end := len successor in
  match expected_new_end_byte e with
  | Some expected =>
    if negb (expected =? new_end) then Ret (Err (NewEndMismatch index expected new_end))
    else
      old ← ByteSpan.new (start_byte e) (old_end_byte e);
      new ← ByteSpan.new new_start new_end;
      mret (Ok (mkBuild successor (b_mapping b ++ [Replaced old new]) (b_changed_old b ++ [old])
                  (b_changed_new b ++ [new]) (old_end_byte e)))
  | None =>
    old ← ByteSpan.new (start_byte e) (old_end_byte e);
    new ← ByteSpan.new new_start new_end;
    mret (Ok (mkBuild successor (b_mapping b ++ [Replaced old new]) (b_changed_old b ++ [old])
                (b_changed_new b ++ [new]) (old_end_byte e)))
  end.

Fixpoint apply_loop (src : list Z) (index : Z) (es : list ReferenceEdit) (b : Build)
    : outcome (result ReferenceEditError Build) :=
  match es with
  | [] => Ret (Ok b)
  | e :: es => b ←? apply_edit src index b e; apply_loop src (index + 1) es b
  end.

Section apply.
Variable sha256 : list Z -> list Z.

Definition with_generation (src : list Z) (generation : Z)
    : outcome (result ReferenceEditError ReferenceSourceState) :=
  digest ← of_bytes sha256 src;
  match from_str src with
  | Err e => mret (Err (InvalidSourceGeometry e))
  | Ok lines => mret (Ok (mkState src digest generation lines))
  end.
Definition new (src : list Z) : outcome (result ReferenceEditError ReferenceSourceState) :=
  with_generation src 0.

Definition apply (self : ReferenceSourceState) (t : ReferenceEditTransaction)
    : outcome (result ReferenceEditError ReferenceEditResult) :=
  if negb (bool_decide (coordinate_model t = REFERENCE_EDIT_COORDINATE_MODEL_ID)) then
    Ret (Err (UnsupportedCoordinateModel (coordinate_model t)))
  else match check_shapes (source self) 0 (edits t) with
  | Some e => Ret (Err e)
  | None => match check_pairs (edits t) with
  | Some e => Ret (Err e)
  | None => match checked_add (generation self) 1 with
  | None => Ret (Err (GenerationOverflow (generation self)))
  | Some next =>
    b ←? apply_loop (source self) 0 (edits t) build_start;
    b ← carry (source self) b (len (source self));
    s ←? with_generation (b_successor b) next;
    Ret (Ok (mkResult (digest self) (generation self) t s (b_mapping b) (b_changed_old b)
               (b_changed_new b)))
  end end end.
End apply.

(** ** The old-to-new map *)

Definition predecessor_len (self : ReferenceEditResult) : Z :=
  match last (mapping self) with Some s => ByteSpan.end_ (segment_old s) | None => 0 end.

(** [find_map] over the segments. *)
Fixpoint find_segment (segments : list ReferenceByteMapSegment) (old_byte : Z) : option Z :=
  match segments with
  | [] => None
  | s :: segments =>
    match s with
    | Unchanged old new =>
      if ByteSpan.contains old old_byte
      then Some (ByteSpan.start new + (old_byte - ByteSpan.start old))
      else find_segment segments old_byte
    | Replaced old new =>
      if negb (ByteSpan.is_empty old) && (old_byte =? ByteSpan.start old)
      then Some (ByteSpan.start new)
      else find_segment segments old_byte
    end
  end.

Definition map_old_to_new (self : ReferenceEditResult) (old_byte : Z) : option Z :=
  if old_byte =? predecessor_len self then Some (len (source (successor self)))
  else find_segment (mapping self) old_byte.

(** ** The specification *)

(** The new text: the bytes between the edits, with the replacements. *)
Fixpoint splice (src : list Z) (cursor : Z) (es : list ReferenceEdit) : list Z :=
  match es with
  | [] => zdrop cursor src
  | e :: es => zslice src cursor (start_byte e) ++ replacement e ++ splice src (old_end_byte e) es
  end.

Definition in_shape (src : list Z) (e : ReferenceEdit) : Prop :=
  start_byte e <= old_end_byte e <= len src /\
  is_char_boundary src (start_byte e) = true /\ is_char_boundary src (old_end_byte e) = true.

(** Strictly ascending and not overlapping. *)
Definition before (e f : ReferenceEdit) : Prop :=
  start_byte e < start_byte f /\ old_end_byte e <= start_byte f.
Fixpoint ascending (es : list ReferenceEdit) : Prop :=
  match es with
  | [] => True
  | e :: es => match es with [] => True | f :: _ => before e f end /\ ascending es
  end.

(** The declared ends, with [n] bytes written when the cursor is at [c]. *)
Fixpoint ends_declared (n c : Z) (es : list ReferenceEdit) : Prop :=
  match es with
  | [] => True
  | e :: es =>
    let n := n + (start_byte e - c) + len (replacement e) in
    match expected_new_end_byte e with Some x => x = n | None => True end /\
    ends_declared n (old_end_byte e) es
  end.

Definition well_formed (src : list Z) (es : list ReferenceEdit) : Prop :=
  Forall (in_shape src) es /\ ascending es /\ ends_declared 0 0 es.

(** The segments of the map. *)
Fixpoint segments_of (c n total : Z) (es : list ReferenceEdit) : list ReferenceByteMapSegment :=
  match es with
  | [] => if c <? total then [Unchanged (ByteSpan.mk c total) (ByteSpan.mk n (n + (total - c)))] else []
  | e :: es =>
    let n1 := n + (start_byte e - c) in
    let n2 := n1 + len (replacement e) in
    (if c <? start_byte e then [Unchanged (ByteSpan.mk c (start_byte e)) (ByteSpan.mk n n1)] else []) ++
    Replaced (ByteSpan.mk (start_byte e) (old_end_byte e)) (ByteSpan.mk n1 n2) ::
    segments_of (old_end_byte e) n2 total es
  end.

(** The spans the replacements occupy. *)
Fixpoint new_spans (c n : Z) (es : list ReferenceEdit) : list ByteSpan.t :=
  match es with
  | [] => []
  | e :: es =>
    let n1 := n + (start_byte e - c) in
    ByteSpan.mk n1 (n1 + len (replacement e)) ::
    new_spans (old_end_byte e) (n1 + len (replacement e)) es
  end.

(** ** Validation is well-formedness *)

Lemma check_shapes_ok src i es : check_shapes src i es = None <-> Forall (in_shape src) es.
Proof.
  revert i. induction es as [|e es IH]; intros i; [by split|]. cbn [check_shapes].
  rewrite Forall_cons, <- (IH (i + 1)). unfold in_shape.
  destruct (Z.ltb_spec (old_end_byte e) (start_byte e)).
  { split; [done|]. intros [[? _] _]. lia. }
  destruct (Z.ltb_spec (len src) (old_end_byte e)).
  { split; [done|]. intros [[? _] _]. lia. }
  destruct (is_char_boundary src (start_byte e)); simpl; [|split; [done|by intros [(_ & ? & _) _]]].
  destruct (is_char_boundary src (old_end_byte e)); simpl; [|split; [done|by intros [(_ & _ & ?) _]]].
  split; [intros E; split; [|done]; repeat split; lia|by intros [_ E]].
Qed.

Lemma check_order_ok i e es : check_order i e es = None <-> ascending (e :: es).
Proof.
  revert i e. induction es as [|f es IH]; intros i e; [by split|].
  cbn [check_order]. change (ascending (e :: f :: es)) with (before e f /\ ascending (f :: es)).
  rewrite <- (IH (i + 1) f). unfold before.
  destruct (Z.eqb_spec (start_byte f) (start_byte e)); [split; [done|intros [? _]; lia]|].
  destruct (Z.ltb_spec (start_byte f) (start_byte e)); [split; [done|intros [? _]; lia]|].
  destruct (Z.ltb_spec (start_byte f) (old_end_byte e)); [split; [done|intros [? _]; lia]|].
  split; [intros ?; split; [lia|done]|by intros [_ ?]].
Qed.

Lemma check_pairs_ok es : check_pairs es = None <-> ascending es.
Proof. destruct es as [|e es]; [by split|]. apply check_order_ok. Qed.

(** ** The pass computes the splice *)

(** The edits cut the characters [rest] that start at byte [c]. *)
Inductive cuts : list Z -> Z -> list ReferenceEdit -> list Z -> Prop :=
| cuts_nil rest c : cuts rest c [] rest
| cuts_cons p o rest c e r es out :
    start_byte e = c + blen p -> old_end_byte e = c + blen p + blen o ->
    replacement e = encode r -> scalars r ->
    cuts rest (old_end_byte e) es out ->
    cuts (p ++ o ++ rest) c (e :: es) (p ++ r ++ out).

Lemma cuts_exist pre rest es :
  scalars (pre ++ rest) -> Forall (in_shape (encode (pre ++ rest))) es -> ascending es ->
  match es with e :: _ => blen pre <= start_byte e | [] => True end ->
  Forall (fun e => valid_utf8 (replacement e)) es ->
  exists out, cuts rest (blen pre) es out.
Proof.
  intros Hs Hes. revert pre rest Hs Hes.
  induction es as [|e es IH]; intros pre rest Hs Hes Ha Hc Hv; [by exists rest; constructor|].
  inversion Hes as [|? ? [Hr [Hb1 Hb2]] Hes']; subst. inversion Hv as [|? ? (r & Hsr & Er) Hv']; subst.
  destruct (range_split (pre ++ rest) (start_byte e) (old_end_byte e) Hs (proj1 Hr) Hb1 Hb2)
    as (c1 & o & c3 & E & E1 & E2).
  destruct (prefix_le_split pre rest c1 (o ++ c3) E) as (p & -> & ->); [lia|].
  rewrite blen_app in *.
  destruct (IH ((pre ++ p) ++ o) c3) as [out Hout].
  - by rewrite <- app_assoc, <- E.
  - by rewrite <- app_assoc, <- E.
  - by destruct Ha.
  - destruct es as [|f es]; [done|]. destruct Ha as [[_ Hf] _]. rewrite !blen_app. lia.
  - done.
  - exists (p ++ r ++ out). econstructor; try done. rewrite !blen_app in Hout.
    by rewrite E2.
Qed.

Lemma cuts_scalars rest c es out : cuts rest c es out -> scalars rest -> scalars out.
Proof.
  induction 1 as [|p o rest c e r es out E1 E2 Er Hr H IH]; [done|].
  rewrite !scalars_app. intros (? & ? & ?). auto.
Qed.

Lemma cuts_splice pre rest es out :
  cuts rest (blen pre) es out -> splice (encode (pre ++ rest)) (blen pre) es = encode out.
Proof.
  intros H. remember (blen pre) as c eqn:Hc. revert pre Hc.
  induction H as [rest c|p o rest c e r es out E1 E2 Er Hr H IH]; intros pre ->; cbn [splice].
  - by rewrite encode_app, <- len_encode, zdrop_app_len.
  - rewrite E1, (encode_app pre), (encode_app p), <- !len_encode, zslice_mid.
    rewrite Er, !encode_app. do 2 f_equal.
    rewrite <- (IH ((pre ++ p) ++ o)) by (rewrite !blen_app; lia).
    by rewrite !encode_app, <- !app_assoc.
Qed.

(** One carry. *)
Lemma carry_mid src pre p rest b :
  src = encode (pre ++ p ++ rest) -> scalars (pre ++ p ++ rest) -> b_cursor b = blen pre ->
  carry src b (blen pre + blen p) =
    Ret (mkBuild (b_successor b ++ encode p)
      (b_mapping b ++ (if blen pre <? blen pre + blen p
        then [Unchanged (ByteSpan.mk (blen pre) (blen pre + blen p))
                (ByteSpan.mk (len (b_successor b)) (len (b_successor b) + blen p))] else []))
      (b_changed_old b) (b_changed_new b) (blen pre)).
Proof.
  intros -> Hs Hc. unfold carry. rewrite Hc.
  destruct (Z.ltb_spec (blen pre) (blen pre + blen p)).
  - rewrite str_index_mid by done. cbn [mbind outcome_bind]. unfold ByteSpan.new.
    rewrite len_app, len_encode. by bcase.
  - pose proof (blen_nonneg p). assert (p = []) as -> by (apply blen_zero_nil; lia).
    simpl. rewrite !app_nil_r. destruct b; simpl in *; by subst.
Qed.

(** The state after the edits and the last carry. *)
Definition built (b : Build) (c total : Z) (es : list ReferenceEdit) (out : list Z) (b' : Build) : Prop :=
  b_successor b' = b_successor b ++ encode out /\
  b_mapping b' = b_mapping b ++ segments_of c (len (b_successor b)) total es /\
  b_changed_old b' = b_changed_old b ++ ((fun e => ByteSpan.mk (start_byte e) (old_end_byte e)) <$> es) /\
  b_changed_new b' = b_changed_new b ++ new_spans c (len (b_successor b)) es.

Lemma built_nil pre rest b src :
  src = encode (pre ++ rest) -> scalars (pre ++ rest) -> b_cursor b = blen pre ->
  exists b', carry src b (len src) = Ret b' /\ built b (blen pre) (len src) [] rest b'.
Proof.
  intros -> Hs Hc. rewrite len_encode, blen_app.
  pose proof (carry_mid (encode (pre ++ rest)) pre rest [] b) as E. rewrite app_nil_r in E.
  rewrite E by done. eexists. split; [reflexivity|]. unfold built.
  cbn [b_successor b_mapping b_changed_old b_changed_new segments_of new_spans fmap list_fmap].
  rewrite !app_nil_r. replace (blen pre + blen rest - blen pre) with (blen rest) by lia. done.
Qed.

(** One edit. *)
Lemma apply_edit_mid src pre p o rest i b e r :
  src = encode (pre ++ p ++ o ++ rest) -> scalars (pre ++ p ++ o ++ rest) ->
  b_cursor b = blen pre -> start_byte e = blen pre + blen p ->
  old_end_byte e = blen pre + blen p + blen o -> replacement e = encode r ->
  let n1 := len (b_successor b) + blen p in
  let n2 := n1 + len (replacement e) in
  apply_edit src i b e = Ret (
    if match expected_new_end_byte e with Some x => x =? n2 | None => true end then
      Ok (mkBuild (b_successor b ++ encode p ++ encode r)
        (b_mapping b ++
          (if blen pre <? start_byte e
           then [Unchanged (ByteSpan.mk (blen pre) (start_byte e)) (ByteSpan.mk (len (b_successor b)) n1)]
           else []) ++
          [Replaced (ByteSpan.mk (start_byte e) (old_end_byte e)) (ByteSpan.mk n1 n2)])
        (b_changed_old b ++ [ByteSpan.mk (start_byte e) (old_end_byte e)])
        (b_changed_new b ++ [ByteSpan.mk n1 n2]) (old_end_byte e))
    else Err (NewEndMismatch i (default 0 (expected_new_end_byte e)) n2)).
Proof.
  intros -> Hs Hc E1 E2 Er n1 n2. unfold apply_edit.
  rewrite E1, (carry_mid _ pre p (o ++ rest)) by done. cbn [mbind outcome_bind b_successor].
  cbn [b_mapping b_changed_old b_changed_new].
  rewrite !len_app, len_encode. fold n1 n2.
  pose proof (blen_nonneg o). pose proof (len_nonneg (replacement e)).
  assert (ByteSpan.new (blen pre + blen p) (old_end_byte e) =
    Ret (ByteSpan.mk (blen pre + blen p) (old_end_byte e))) as -> by (unfold ByteSpan.new; by bcase).
  assert (ByteSpan.new n1 n2 = Ret (ByteSpan.mk n1 n2)) as -> by (unfold ByteSpan.new, n2; by bcase).
  cbn [mbind outcome_bind]. rewrite Er, <- !app_assoc.
  destruct (expected_new_end_byte e) as [x|]; [|done].
  by destruct (x =? n2).
Qed.

Lemma apply_loop_built src es :
  forall pre rest i b out,
  src = encode (pre ++ rest) -> scalars (pre ++ rest) -> cuts rest (blen pre) es out ->
  b_cursor b = blen pre ->
  match apply_loop src i es b with
  | Ret (Ok b1) => ends_declared (len (b_successor b)) (blen pre) es /\
      exists b2, carry src b1 (len src) = Ret b2 /\ built b (blen pre) (len src) es out b2
  | Ret (Err _) => ~ ends_declared (len (b_successor b)) (blen pre) es
  | Panic => False
  end.
Proof.
  induction es as [|e es IH]; intros pre rest i b out Hsrc Hs Hcut Hc; subst src.
  { inversion Hcut; subst. split; [done|]. by apply built_nil. }
  inversion Hcut as [|p o rest0 ? ? r ? out0 E1 E2 Er Hr Hcut']; subst; cbn [apply_loop ends_declared].
  rewrite (apply_edit_mid _ pre p o rest0 i b e r) by done.
  cbn [try_bind].
  replace (len (b_successor b) + (start_byte e - blen pre) + len (replacement e)) with
    (len (b_successor b) + blen p + len (replacement e)) by lia.
  set (n2 := len (b_successor b) + blen p + len (replacement e)).
  destruct (match expected_new_end_byte e with Some x => x =? n2 | None => true end) eqn:Ex;
    cbn [try_bind].
  2: { destruct (expected_new_end_byte e) as [x|]; [|done]. apply Z.eqb_neq in Ex. by intros [? _]. }
  set (b1 := mkBuild _ _ _ _ _).
  assert (len (b_successor b1) = n2) as En.
  { unfold b1, n2. cbn [b_successor]. rewrite !len_app, Er, !len_encode. lia. }
  assert (old_end_byte e = blen ((pre ++ p) ++ o)) as Ee by (rewrite !blen_app; lia).
  specialize (IH ((pre ++ p) ++ o) rest0 (i + 1) b1 out0).
  rewrite <- Ee, En in IH. rewrite <- !app_assoc in IH. specialize (IH eq_refl Hs Hcut' eq_refl).
  assert (match expected_new_end_byte e with Some x => x = n2 | None => True end) as Hx.
  { destruct (expected_new_end_byte e); [by apply Z.eqb_eq|done]. }
  destruct (apply_loop _ (i + 1) es b1) as [[b2|]|]; [|by intros [_ ?]|done].
  destruct IH as (Hd & b3 & Hcar & Hb1 & Hb2 & Hb3 & Hb4). split; [done|].
  exists b3. split; [done|]. unfold built. rewrite Hb1, Hb2, Hb3, Hb4, En. unfold b1.
  cbn [b_successor b_mapping b_changed_old b_changed_new segments_of new_spans fmap list_fmap].
  replace (len (b_successor b) + (start_byte e - blen pre)) with (len (b_successor b) + blen p) by lia.
  fold n2. rewrite !encode_app, <- !app_assoc. done.
Qed.

(** ** The transaction *)

Lemma with_generation_ok sha256 cs g :
  scalars cs -> blen cs <= u32_max ->
  exists d, of_bytes sha256 (encode cs) = Ret d /\
    with_generation sha256 (encode cs) g = Ret (Ok (mkState (encode cs) d g (table_of cs))).
Proof.
  intros Hs Hu. unfold with_generation.
  assert (exists d, of_bytes sha256 (encode cs) = Ret d) as [d E].
  { unfold of_bytes, try_of_bytes, try_length_prefixed, field_length_u32. rewrite len_encode.
    rewrite (proj2 (Z.leb_le _ _) Hu). by eexists. }
  exists d. split; [done|]. rewrite E. cbn [mbind outcome_bind].
  rewrite from_str_rows; [done|done|]. unfold allocatable, isize_max, u32_max in *. lia.
Qed.

Definition acceptable (st : ReferenceSourceState) (cs : list Z) (es : list ReferenceEdit) : Prop :=
  scalars cs /\ source st = encode cs /\ Forall (fun e => valid_utf8 (replacement e)) es /\
  len (splice (encode cs) 0 es) <= u32_max /\ generation st < usize_max.

Lemma apply_spec sha256 cs st es :
  acceptable st cs es ->
  match apply sha256 st (transaction es) with
  | Ret (Ok r) => well_formed (encode cs) es /\
      exists out d, cuts cs 0 es out /\ of_bytes sha256 (encode out) = Ret d /\
        r = mkResult (digest st) (generation st) (transaction es)
              (mkState (encode out) d (generation st + 1) (table_of out))
              (segments_of 0 0 (blen cs) es)
              ((fun e => ByteSpan.mk (start_byte e) (old_end_byte e)) <$> es) (new_spans 0 0 es)
  | Ret (Err _) => ~ well_formed (encode cs) es
  | Panic => False
  end.
Proof.
  intros (Hs & Esrc & Hv & Hu & Hg). unfold apply. cbn [coordinate_model transaction edits].
  rewrite bool_decide_eq_true_2 by done. cbn [negb]. rewrite Esrc.
  destruct (check_shapes (encode cs) 0 es) as [err|] eqn:E1.
  { intros (H & _). by apply (check_shapes_ok _ 0) in H; congruence. }
  apply check_shapes_ok in E1.
  destruct (check_pairs es) as [err|] eqn:E2.
  { intros (_ & H & _). by apply check_pairs_ok in H; congruence. }
  apply check_pairs_ok in E2. unfold checked_add.
  rewrite (proj2 (Z.leb_le _ _)) by lia.
  destruct (cuts_exist [] cs es) as [out Hout]; [done|done|done| |done|].
  { destruct es as [|e es]; [done|]. inversion E1 as [|? ? [? [Hb _]] ?]; subst.
    apply boundary_inv in Hb as (c1 & c2 & _ & ->); [|done]. simpl. apply blen_nonneg. }
  simpl in Hout. pose proof (cuts_splice [] cs es out Hout) as Esp. simpl in Esp.
  pose proof (apply_loop_built (encode cs) es [] cs 0 build_start out eq_refl Hs Hout eq_refl) as Hl.
  simpl in Hl. change (len []) with 0 in Hl.
  destruct (apply_loop (encode cs) 0 es build_start) as [[b1|]|]; cbn [try_bind]; [|by intros (_ & _ & ?)|done].
  destruct Hl as (Hd & b2 & Hcar & Hb1 & Hb2 & Hb3 & Hb4). rewrite Hcar. cbn [mbind outcome_bind].
  rewrite Hb1. simpl (b_successor build_start ++ _).
  assert (scalars out) as Hso by (by eapply cuts_scalars).
  destruct (with_generation_ok sha256 out (generation st + 1) Hso) as (d & Hdig & Hw).
  { rewrite <- len_encode, <- Esp. done. }
  rewrite Hw. cbn [try_bind]. split; [done|]. exists out, d. split; [done|]. split; [done|].
  rewrite Hb2, Hb3, Hb4, len_encode. done.
Qed.

(** ** The map *)

(** Segments that follow each other without gap or overlap on both sides. *)
Inductive tiles : Z -> Z -> list ReferenceByteMapSegment -> Z -> Z -> Prop :=
| tiles_nil o n : tiles o n [] o n
| tiles_cons o n s segments o' n' :
    ByteSpan.start (segment_old s) = o -> ByteSpan.start (segment_new s) = n ->
    o <= ByteSpan.end_ (segment_old s) -> n <= ByteSpan.end_ (segment_new s) ->
    tiles (ByteSpan.end_ (segment_old s)) (ByteSpan.end_ (segment_new s)) segments o' n' ->
    tiles o n (s :: segments) o' n'.

Lemma segments_tile rest c es out n :
  cuts rest c es out ->
  tiles c n (segments_of c n (c + blen rest) es) (c + blen rest) (n + blen out).
Proof.
  intros H. revert n. induction H as [rest c|p o rest c e r es out E1 E2 Er Hr H IH]; intros n;
    cbn [segments_of].
  - pose proof (blen_nonneg rest). destruct (Z.ltb_spec c (c + blen rest)).
    + replace (c + blen rest - c) with (blen rest) by lia.
      constructor; cbn [segment_old segment_new ByteSpan.start ByteSpan.end_]; try lia. constructor.
    + replace (blen rest) with 0 by lia. rewrite !Z.add_0_r. constructor.
  - rewrite !blen_app. specialize (IH (n + blen p + blen r)).
    replace (start_byte e - c) with (blen p) by lia. rewrite Er, len_encode.
    pose proof (blen_nonneg p). pose proof (blen_nonneg o). pose proof (blen_nonneg r).
    replace (c + (blen p + (blen o + blen rest))) with (old_end_byte e + blen rest) by lia.
    replace (n + (blen p + (blen r + blen out))) with (n + blen p + blen r + blen out) by lia.
    destruct (Z.ltb_spec c (start_byte e)); simpl.
    + constructor; cbn [segment_old segment_new ByteSpan.start ByteSpan.end_]; try lia.
      constructor; cbn [segment_old segment_new ByteSpan.start ByteSpan.end_]; try lia. exact IH.
    + replace (blen p) with 0 in * by lia. rewrite !Z.add_0_r in *.
      constructor; cbn [segment_old segment_new ByteSpan.start ByteSpan.end_]; try lia. exact IH.
Qed.

(** Segments that start after an offset do not translate it. *)
Lemma find_segment_before c n segs c' n' k :
  tiles c n segs c' n' -> k < c -> find_segment segs k = None.
Proof.
  induction 1 as [|c n s segs c' n' Ho Hn Hoe Hne Ht IH]; intros Hk; [done|].
  destruct s as [old new|old new]; cbn [find_segment segment_old segment_new] in *.
  - unfold ByteSpan.contains. rewrite (proj2 (Z.leb_gt (ByteSpan.start old) k)) by lia.
    apply IH. lia.
  - rewrite (proj2 (Z.eqb_neq k (ByteSpan.start old))), andb_false_r by lia. apply IH. lia.
Qed.

(** An offset strictly inside a replaced span. *)
Definition interior (es : list ReferenceEdit) (o : Z) : Prop :=
  Exists (fun e => start_byte e < o < old_end_byte e) es.
(** An offset whose byte survives. *)
Definition survives (es : list ReferenceEdit) (o : Z) : Prop :=
  Forall (fun e => o < start_byte e \/ old_end_byte e <= o) es.

Lemma cuts_start rest c es out :
  cuts rest c es out -> Forall (fun e => c <= start_byte e /\ start_byte e <= old_end_byte e) es.
Proof.
  induction 1 as [|p o rest c e r es out E1 E2 Er Hr H IH]; constructor.
  - pose proof (blen_nonneg p). pose proof (blen_nonneg o). lia.
  - pose proof (blen_nonneg p). pose proof (blen_nonneg o).
    eapply Forall_impl; [exact IH|]. simpl. intros f. lia.
Qed.

Lemma interior_cons e es k :
  interior (e :: es) k <-> start_byte e < k < old_end_byte e \/ interior es k.
Proof. unfold interior. by rewrite Exists_cons. Qed.

Lemma interior_after rest c es out k : cuts rest c es out -> k <= c -> ~ interior es k.
Proof.
  intros H Hk Hi. apply Exists_exists in Hi as (f & Hf & ?).
  pose proof (cuts_start _ _ _ _ H) as Hst. rewrite Forall_forall in Hst. specialize (Hst f Hf). lia.
Qed.

(** What [find_segment] says of the offset [k] of the characters [rest] at [c]. *)
Definition translated (es : list ReferenceEdit) (rest out : list Z) (c n k : Z) (r : option Z) : Prop :=
  match r with
  | Some k' => ~ interior es k /\ n <= k' <= n + blen out /\
      (survives es k -> zget (encode out) (k' - n) = zget (encode rest) (k - c))
  | None => interior es k
  end.

(** The segments of the first edit, and those after it. *)
Lemma translated_edit p o rest e r es out c n k tail :
  start_byte e = c + blen p -> old_end_byte e = c + blen p + blen o -> replacement e = encode r ->
  cuts rest (old_end_byte e) es out -> c <= k ->
  (old_end_byte e <= k ->
     translated es rest out (old_end_byte e) (n + blen p + blen r) k (find_segment tail k)) ->
  (k < old_end_byte e -> find_segment tail k = None) ->
  translated (e :: es) (p ++ o ++ rest) (p ++ r ++ out) c n k
    (find_segment ((if c <? start_byte e
        then [Unchanged (ByteSpan.mk c (start_byte e)) (ByteSpan.mk n (n + blen p))] else []) ++
      Replaced (ByteSpan.mk (start_byte e) (old_end_byte e))
        (ByteSpan.mk (n + blen p) (n + blen p + blen r)) :: tail) k).
Proof.
  intros E1 E2 Er H Hk Hpast Hbefore.
  pose proof (blen_nonneg p). pose proof (blen_nonneg o). pose proof (blen_nonneg r).
  pose proof (blen_nonneg out).
  destruct (Z_lt_le_dec k (start_byte e)) as [Hlt|Hge].
  { destruct (Z.ltb_spec c (start_byte e)); [|lia]. cbn [app find_segment].
    unfold ByteSpan.contains. cbn [ByteSpan.start ByteSpan.end_].
    rewrite (proj2 (Z.leb_le c k)), (proj2 (Z.ltb_lt k (start_byte e))) by lia. simpl.
    unfold translated. rewrite !blen_app, interior_cons. split.
    { intros [?|Hi]; [lia|]. eapply (interior_after _ _ _ _ k H); [lia|done]. }
    split; [lia|]. intros _. rewrite !encode_app, !zget_app_l by (rewrite len_encode; lia).
    f_equal. lia. }
  assert (forall t, find_segment ((if c <? start_byte e
      then [Unchanged (ByteSpan.mk c (start_byte e)) (ByteSpan.mk n (n + blen p))] else []) ++ t) k =
    find_segment t k) as ->.
  { intros t. destruct (Z.ltb_spec c (start_byte e)); [|done]. cbn [app find_segment].
    unfold ByteSpan.contains. cbn [ByteSpan.start ByteSpan.end_].
    by rewrite (proj2 (Z.ltb_ge k (start_byte e))), andb_false_r by lia. }
  cbn [find_segment]. unfold ByteSpan.is_empty. cbn [ByteSpan.start ByteSpan.end_].
  destruct (Z_lt_le_dec k (old_end_byte e)) as [Hin|Hpst].
  - rewrite (proj2 (Z.eqb_neq (start_byte e) (old_end_byte e))) by lia. cbn [negb andb].
    unfold translated. destruct (Z.eqb_spec k (start_byte e)) as [->|].
    + rewrite !blen_app, interior_cons. split; [intros [?|Hi]; [lia|]; eapply (interior_after _ _ _ _ _ H); [|done]; lia|].
      split; [lia|]. intros Hsv. inversion Hsv; subst. lia.
    + rewrite Hbefore, interior_cons by done. left. lia.
  - assert (negb (start_byte e =? old_end_byte e) && (k =? start_byte e) = false) as ->.
    { destruct (Z.eqb_spec (start_byte e) (old_end_byte e)); [done|]. simpl. by bcase. }
    specialize (Hpast Hpst). unfold translated in *.
    destruct (find_segment tail k) as [k'|]; rewrite interior_cons; [|by right].
    rewrite !blen_app. destruct Hpast as (Hi & Hb & Hg).
    split; [intros [?|?]; [lia|done]|]. split; [lia|]. intros Hsv.
    inversion Hsv as [|? ? _ Hsv']; subst. specialize (Hg Hsv').
    rewrite (app_assoc p r), (app_assoc p o), (encode_app (p ++ r)), (encode_app (p ++ o)).
    rewrite !zget_app_r by (rewrite len_encode, blen_app; lia).
    rewrite !len_encode, !blen_app.
    replace (k' - n - (blen p + blen r)) with (k' - (n + blen p + blen r)) by lia.
    rewrite Hg. f_equal. lia.
Qed.

Lemma find_segment_cuts rest c es out n k :
  cuts rest c es out -> c <= k < c + blen rest ->
  translated es rest out c n k (find_segment (segments_of c n (c + blen rest) es) k).
Proof.
  intros H. revert n. induction H as [rest c|p o rest c e r es out E1 E2 Er Hr H IH]; intros n Hk;
    cbn [segments_of].
  - destruct (Z.ltb_spec c (c + blen rest)); [|lia]. cbn [find_segment].
    unfold ByteSpan.contains. cbn [ByteSpan.start ByteSpan.end_].
    rewrite (proj2 (Z.leb_le c k)), (proj2 (Z.ltb_lt k (c + blen rest))) by lia. simpl.
    split; [by intros ?%Exists_nil|]. split; [lia|]. intros _. f_equal. lia.
  - rewrite !blen_app in *. rewrite Er, len_encode.
    replace (start_byte e - c) with (blen p) by lia.
    replace (c + (blen p + (blen o + blen rest))) with (old_end_byte e + blen rest) by lia.
    apply translated_edit; [done|done|done|done|lia| |].
    + intros Hpast. apply IH. lia.
    + intros Hb. eapply find_segment_before; [by apply segments_tile|done].
Qed.

Lemma tiles_last o n segs o' n' :
  tiles o n segs o' n' ->
  match last segs with Some s => ByteSpan.end_ (segment_old s) = o' | None => o = o' end.
Proof.
  induction 1 as [|o n s segs o' n' Ho Hn Hoe Hne Ht IH]; [done|].
  destruct segs as [|s' segs]; [by inversion Ht|].
  change (last (s :: s' :: segs)) with (last (s' :: segs)).
  destruct (last (s' :: segs)) eqn:E; [done|]. by apply last_None in E.
Qed.

(** ** Theorems *)

Definition demo_digest : list Z -> list Z := fun _ => replicate 32 0.
Definition demo_state : ReferenceSourceState :=
  mkState [97; 195; 169; 10; 98] (mkDigest []) 3 (mkTable 0 []).
Definition demo_edits : list ReferenceEdit :=
  [with_expected_new_end (replace 0 1 [120; 121]) 2; delete 1 3; insert 5 [10]].

Lemma demo_acceptable : acceptable demo_state [97; 233; 10; 98] demo_edits.
Proof.
  split; [by repeat constructor|]. split; [done|]. split; [|done].
  constructor; [|constructor; [|constructor; [|constructor]]].
  - exists [120; 121]. by split; [repeat constructor|].
  - exists []. by split; [constructor|].
  - exists [10]. by split; [repeat constructor|].
Qed.

(** A transaction is accepted exactly when it is well formed (every edit
    ordered, inside the text and on character boundaries; edits strictly
    ascending without overlap; declared ends correct), application never
    panics, and the accepted result is the splice of the replacements into
    the predecessor: still UTF-8, with the next generation, and with the line
    table and the digest computed from the new bytes. *)
Theorem reference_apply_is_splice sha256 st cs es :
  acceptable st cs es ->
  match apply sha256 st (transaction es) with
  | Ret (Ok r) =>
      well_formed (source st) es /\
      source (successor r) = splice (source st) 0 es /\
      valid_utf8 (source (successor r)) /\
      generation (successor r) = generation st + 1 /\
      from_str (source (successor r)) = Ok (lines (successor r)) /\
      of_bytes sha256 (source (successor r)) = Ret (digest (successor r))
  | Ret (Err _) => ~ well_formed (source st) es
  | Panic => False
  end.
Proof.
  intros Ha. pose proof (apply_spec sha256 cs st es Ha) as H.
  destruct Ha as (Hs & Esrc & Hv & Hu & Hg). rewrite Esrc.
  destruct (apply sha256 st (transaction es)) as [[r|]|]; [|done|done].
  destruct H as (Hw & out & d & Hout & Hd & ->). cbn [successor source generation lines digest].
  pose proof (cuts_splice [] cs es out Hout) as Esp. simpl in Esp.
  assert (scalars out) as Hso by (by eapply cuts_scalars).
  rewrite Esp. split; [done|]. split; [done|]. split; [by exists out|]. split; [done|]. split; [|done].
  apply from_str_rows; [done|]. unfold allocatable, isize_max. rewrite <- len_encode, <- Esp.
  unfold u32_max in Hu. lia.
Qed.

Example reference_apply_is_splice_witness :
  match apply demo_digest demo_state (transaction demo_edits) with
  | Ret (Ok r) =>
      well_formed (source demo_state) demo_edits /\
      source (successor r) = [120; 121; 10; 98; 10] /\
      valid_utf8 (source (successor r)) /\ generation (successor r) = 4 /\
      from_str (source (successor r)) = Ok (lines (successor r)) /\
      of_bytes demo_digest (source (successor r)) = Ret (digest (successor r))
  | Ret (Err _) => ~ well_formed (source demo_state) demo_edits
  | Panic => False
  end.
Proof. exact (reference_apply_is_splice demo_digest demo_state _ demo_edits demo_acceptable). Defined.

(** C37. The byte map of an accepted transaction tiles the predecessor and the
    successor completely and in order, and translates offsets truthfully: an
    offset has no image exactly when it is strictly inside a replaced span;
    every surviving byte is found, unchanged, at its image; the end maps to
    the end. *)
Theorem reference_map_is_faithful sha256 st cs es r k :
  acceptable st cs es -> apply sha256 st (transaction es) = Ret (Ok r) ->
  0 <= k <= len (source st) ->
  tiles 0 0 (mapping r) (len (source st)) (len (source (successor r))) /\
  match map_old_to_new r k with
  | Some k' =>
      ~ interior es k /\ 0 <= k' <= len (source (successor r)) /\
      (k < len (source st) -> survives es k ->
         zget (source (successor r)) k' = zget (source st) k) /\
      (k = len (source st) -> k' = len (source (successor r)))
  | None => interior es k
  end.
Proof.
  intros Ha Happ Hk. pose proof (apply_spec sha256 cs st es Ha) as H. rewrite Happ in H.
  destruct Ha as (Hs & Esrc & Hv & _ & _). rewrite Esrc, len_encode in *.
  destruct H as ((Hshape & Hasc & _) & out & d & Hout & _ & ->). cbn [successor source mapping].
  rewrite len_encode.
  pose proof (segments_tile cs 0 es out 0 Hout) as Ht. rewrite !Z.add_0_l in Ht.
  split; [done|]. unfold map_old_to_new, predecessor_len. cbn [mapping successor source].
  pose proof (tiles_last _ _ _ _ _ Ht) as Hl.
  assert (match last (segments_of 0 0 (blen cs) es) with
          | Some s => ByteSpan.end_ (segment_old s) | None => 0 end = blen cs) as ->
    by (by destruct (last (segments_of 0 0 (blen cs) es))).
  pose proof (blen_nonneg out). rewrite len_encode.
  destruct (Z.eqb_spec k (blen cs)) as [->|Hne].
  - split; [|split; [lia|split; [lia|done]]]. intros Hi.
    apply Exists_exists in Hi as (f & Hf & Hf').
    rewrite Forall_forall in Hshape. destruct (Hshape f Hf) as [Hb _]. rewrite len_encode in Hb. lia.
  - pose proof (find_segment_cuts cs 0 es out 0 k Hout ltac:(lia)) as Hfind.
    rewrite Z.add_0_l in Hfind. unfold translated in Hfind.
    destruct (find_segment (segments_of 0 0 (blen cs) es) k) as [k'|]; [|done].
    destruct Hfind as (Hi & Hb & Hg). rewrite !Z.sub_0_r in Hg.
    split; [done|]. split; [lia|]. split; [by intros _|lia].
Qed.

Example reference_map_is_faithful_witness :
  exists r, apply demo_digest demo_state (transaction demo_edits) = Ret (Ok r) /\
    tiles 0 0 (mapping r) 5 5 /\ map_old_to_new r 2 = None /\ interior demo_edits 2.
Proof.
  eexists. split; [reflexivity|].
  destruct (reference_map_is_faithful demo_digest demo_state _ demo_edits _ 2 demo_acceptable eq_refl
    ltac:(done)) as [Ht Hm].
  split; [exact Ht|]. split; [reflexivity|exact Hm].
Defined.
