(* ===== verification/ParseErrors.v ===== *)
(** * Parse errors and parser completion (perl-parser-core/src/syntax/error:
      mod.rs, completion.rs)

    The diagnostics a parse reports, the typed cause that stopped it, and the
    completion derived from both.  The syntax tree is a parameter of which
    only the fallback shell is observed.  Proved: the derived completion
    always validates against its own output, and validation accepts no stale
    completion; the stop cause follows the routing category of the error;
    the two descriptions of where an error is agree; and an error context
    shows the line its column is on. *)

From Stdlib Require Import String.
From stdpp Require Import base numbers list.
From S2P Require Import Prelude Utf8 Spans SourceRows LineIndex Convert ByteLineIndex SourceLines Positions.

(** ** Errors *)

Inductive InvalidSignatureParameterKind := NamedAggregate | SlurpyDefault | MissingDefaultExpression.
Inductive InvalidSignatureOrderingKind :=
| MandatoryAfterOptional | PositionalAfterNamed | RequiredNamedAfterOptional | ParameterAfterSlurpy.
Inductive RecoverySite := ArgList | ArraySubscript | HashSubscript | PostfixChain | InfixRhs | Statement.
Inductive RecoveryKind :=
| InsertedCloser | MissingOperand | TruncatedChain | InferredSemicolon | UnexpectedSameLineResidue.

Inductive ParseCoreDimension := TokensConsumed | NodesConstructed | DiagnosticsEmitted.
#[export] Instance ParseCoreDimension_eq_dec : EqDecision ParseCoreDimension.
Proof. solve_decision. Defined.

Inductive ParseError :=
| UnexpectedEof
| UnexpectedToken (expected found : list Z) (location : Z)
| SyntaxError (message : list Z) (location : Z)
| InvalidSignatureParameter (kind : InvalidSignatureParameterKind) (range : ByteSpan.t)
| InvalidSignatureOrdering (kind : InvalidSignatureOrderingKind) (range : ByteSpan.t)
| CatchVariableRedeclaration (keyword : list Z) (range : ByteSpan.t)
| DoWhileTrailingBlock (location : Z)
| CStyleForContinueBlock (location : Z)
| QualifiedLoopControlLabel (location : Z)
| Advisory (message : list Z) (location : Z)
| LexerError (message : list Z)
| RecursionLimit
| RecursionDepthExhausted (depth max_depth : Z)
| CoreBudgetExhausted (dimension : ParseCoreDimension) (limit usage : Z)
| InvalidNumber (literal : list Z)
| InvalidString
| UnclosedDelimiter (delimiter : Z)
| InvalidRegex (message : list Z)
| HeredocBudgetExhausted (limit usage location : Z)
| NestingTooDeep (depth max_depth : Z)
| Cancelled
| Recovered (site : RecoverySite) (kind : RecoveryKind) (location : Z).

(** ** Routing *)

Inductive ErrorCategory :=
| CategoryAdvisory | UserError | Bug | Infra | Transient | Protocol | ResourceLimit.
#[export] Instance ErrorCategory_eq_dec : EqDecision ErrorCategory.
Proof. solve_decision. Defined.

(** [ErrorClass::error_class] *)
Definition error_class (self : ParseError) : ErrorCategory :=
  match self with
  | Advisory _ _ => CategoryAdvisory
  | Cancelled => Transient
  | RecursionLimit | RecursionDepthExhausted _ _ | HeredocBudgetExhausted _ _ _
  | CoreBudgetExhausted _ _ _ | NestingTooDeep _ _ => ResourceLimit
  | UnexpectedEof | UnexpectedToken _ _ _ | SyntaxError _ _ | InvalidSignatureParameter _ _
  | InvalidSignatureOrdering _ _ | CatchVariableRedeclaration _ _ | DoWhileTrailingBlock _
  | CStyleForContinueBlock _ | QualifiedLoopControlLabel _ | LexerError _ | InvalidNumber _
  | InvalidString | UnclosedDelimiter _ | InvalidRegex _ | Recovered _ _ _ => UserError
  end.

Inductive ParseDiagnosticSeverity := SeverityAdvisory | Blocking.
Definition severity_blocks_clean_parse (self : ParseDiagnosticSeverity) : bool :=
  match self with Blocking => true | SeverityAdvisory => false end.
Definition severity (self : ParseError) : ParseDiagnosticSeverity :=
  match self with Advisory _ _ => SeverityAdvisory | _ => Blocking end.
Definition blocks_clean_parse (self : ParseError) : bool :=
  severity_blocks_clean_parse (severity self).
Definition is_recursion_limit (self : ParseError) : bool :=
  match self with
  | RecursionLimit | RecursionDepthExhausted _ _ | NestingTooDeep _ _ => true
  | _ => false
  end.
Definition is_recovered (self : ParseError) : bool :=
  match self with Recovered _ _ _ => true | _ => false end.

(** ** Where an error is *)

Definition location (self : ParseError) : option Z :=
  match self with
  | UnexpectedToken _ _ location => Some location
  | SyntaxError _ location => Some location
  | InvalidSignatureParameter _ range | InvalidSignatureOrdering _ range
  | CatchVariableRedeclaration _ range => Some (ByteSpan.start range)
  | Advisory _ location => Some location
  | Recovered _ _ location => Some location
  | HeredocBudgetExhausted _ _ location | DoWhileTrailingBlock location
  | CStyleForContinueBlock location | QualifiedLoopControlLabel location => Some location
  | _ => None
  end.

Inductive ParseDiagnosticAnchor := Exact (n : Z) | EndOfInput | NoSource.
Inductive ResolvedParseDiagnosticAnchor :=
| ResolvedExact (n : Z)
| ResolvedEndOfInput (n : Z)
| ResolvedNoSource
| InvalidOffset (reported source_len : Z)
| InvalidUtf8Boundary (reported source_len : Z).

Definition resolve (self : ParseDiagnosticAnchor) (source : list Z) : ResolvedParseDiagnosticAnchor :=
  match self with
  | Exact reported =>
    if len source <? reported then InvalidOffset reported (len source)
    else if negb (is_char_boundary source reported) then InvalidUtf8Boundary reported (len source)
    else ResolvedExact reported
  | EndOfInput => ResolvedEndOfInput (len source)
  | NoSource => ResolvedNoSource
  end.

Definition to_offset (self : ParseDiagnosticAnchor) (source_len : Z) : Z :=
  match self with Exact n => n | EndOfInput => source_len | NoSource => 0 end.

Definition diagnostic_anchor (self : ParseError) : ParseDiagnosticAnchor :=
  match self with
  | UnexpectedEof => EndOfInput
  | InvalidSignatureParameter _ range | InvalidSignatureOrdering _ range
  | CatchVariableRedeclaration _ range => Exact (ByteSpan.start range)
  | UnexpectedToken _ _ location | SyntaxError _ location | DoWhileTrailingBlock location
  | CStyleForContinueBlock location | QualifiedLoopControlLabel location | Advisory _ location
  | HeredocBudgetExhausted _ _ location | Recovered _ _ location => Exact location
  | LexerError _ | RecursionLimit | RecursionDepthExhausted _ _ | CoreBudgetExhausted _ _ _
  | InvalidNumber _ | InvalidString | UnclosedDelimiter _ | InvalidRegex _ | NestingTooDeep _ _
  | Cancelled => NoSource
  end.

Definition resolved_diagnostic_anchor (self : ParseError) (source : list Z)
    : ResolvedParseDiagnosticAnchor :=
  resolve (diagnostic_anchor self) source.

(** ** Error contexts *)

Fixpoint str_starts_with (s p : list Z) : bool :=
  match p, s with
  | [], _ => true
  | _ :: _, [] => false
  | y :: p, x :: s => (x =? y) && str_starts_with s p
  end.
(** [str::contains] *)
Fixpoint str_contains (s p : list Z) : bool :=
  str_starts_with s p || match s with [] => false | _ :: s => str_contains s p end.

(** [str::lines] *)
Definition str_lines (s : list Z) : list (list Z) := content <$> split_inclusive s.

Record ErrorContext := mkContext {
  error : ParseError;
  line : Z;
  column : Z;
  source_line : list Z;
  suggestion_text : option (list Z);
}.

Section contexts.
(** [str::to_lowercase], which follows the Unicode tables. *)
Variable to_lowercase : list Z -> list Z.

Definition suggestion (self : ParseError) : option (list Z) :=
  match self with
  | UnexpectedToken expected found _ =>
    if str_contains expected (bytes_of ";") then
      Some (bytes_of "add a semicolon ';' at the end of the statement")
    else if str_contains expected (bytes_of "}") then
      Some (bytes_of "add a closing brace '}' to end the block")
    else if str_contains expected (bytes_of ")") then
      Some (bytes_of "add a closing parenthesis ')' to end the group")
    else if str_contains expected (bytes_of "]") then
      Some (bytes_of "add a closing bracket ']' to end the array")
    else if str_contains expected (bytes_of "expression") && str_contains found (bytes_of "=>") then
      Some (bytes_of "'=>' (fat arrow) is not valid here; did you forget a value before it?")
    else if str_contains expected (bytes_of "expression") && str_contains found (bytes_of "->") then
      Some (bytes_of "'->' (arrow) is not valid here; did you forget the object or reference before it?")
    else if str_contains (to_lowercase expected) (bytes_of "variable") then
      Some (bytes_of "expected a variable like $foo, @bar, or %hash after the declaration keyword")
    else None
  | UnclosedDelimiter delimiter =>
    Some (bytes_of "add closing '" ++ encode_char delimiter ++ bytes_of "' to complete the literal")
  | _ => None
  end.

Definition error_context (index : LineIndex.t) (source : list Z) (e : ParseError)
    : outcome ErrorContext :=
  let loc := default (len source) (location e) in
  let safe_loc := Z.min loc (len source) in
  '(line, col) ← LineIndex.offset_to_position index safe_loc;
  let source_line := default [] (zget (str_lines source) line) in
  mret (mkContext e line col source_line (suggestion e)).

Fixpoint contexts_loop (index : LineIndex.t) (source : list Z) (es : list ParseError)
    : outcome (list ErrorContext) :=
  match es with
  | [] => Ret []
  | e :: es =>
    c ← error_context index source e; cs ← contexts_loop index source es; mret (c :: cs)
  end.
Definition get_error_contexts (errors : list ParseError) (source : list Z) : outcome (list ErrorContext) :=
  contexts_loop (LineIndex.new source) source errors.
End contexts.

(** ** Stop causes *)

Inductive ParseStopCause :=
| StopCancelled
| RecursionBudgetExhausted (limit usage : option Z)
| NestingOrDepthBudgetExhausted (limit usage : Z)
| StopHeredocBudgetExhausted (limit usage : Z)
| StopCoreBudgetExhausted (dimension : ParseCoreDimension) (limit usage : Z)
| LexerBudgetExhausted
| CatastrophicTermination
| FutureTypedTerminal.
#[export] Instance ParseStopCause_eq_dec : EqDecision ParseStopCause.
Proof. solve_decision. Defined.

Definition from_parse_error (error : ParseError) : ParseStopCause :=
  match error with
  | Cancelled => StopCancelled
  | RecursionLimit => RecursionBudgetExhausted None None
  | RecursionDepthExhausted depth max_depth => RecursionBudgetExhausted (Some max_depth) (Some depth)
  | NestingTooDeep depth max_depth => NestingOrDepthBudgetExhausted max_depth depth
  | HeredocBudgetExhausted limit usage _ => StopHeredocBudgetExhausted limit usage
  | CoreBudgetExhausted dimension limit usage => StopCoreBudgetExhausted dimension limit usage
  | _ => CatastrophicTermination
  end.

Definition is_cancelled (self : ParseStopCause) : bool :=
  match self with StopCancelled => true | _ => false end.
Definition is_budget_exhaustion (self : ParseStopCause) : bool :=
  match self with
  | RecursionBudgetExhausted _ _ | NestingOrDepthBudgetExhausted _ _ | StopHeredocBudgetExhausted _ _
  | StopCoreBudgetExhausted _ _ _ | LexerBudgetExhausted => true
  | _ => false
  end.

(** ** Lines *)

(** A line of [str::lines], counted as the row of the same number. *)
Lemma lines_rows cs n :
  scalars cs -> default [] (zget (str_lines (encode cs)) n) =
    encode (content (default [] (zget (rows cs) n))).
Proof.
  intros Hs. unfold str_lines. rewrite split_inclusive_encode by done.
  assert (forall r, scalars r -> content (encode r) = encode (content r)) as Hc.
  { intros r Hr. unfold content. rewrite strip_suffix_encode by (done || unfold LF; lia).
    destruct (strip_suffix r LF) as [w|] eqn:E; simpl; [|done].
    rewrite strip_suffix_encode.
    - by destruct (strip_suffix w CR).
    - apply strip_suffix_inv in E as ->. by apply scalars_app in Hr as [? _].
    - unfold CR; lia. }
  assert (Forall scalars (split_inclusive cs)) as Hf.
  { apply concat_scalars. by rewrite concat_split_inclusive. }
  assert (forall (b : bool) k,
    default (@nil Z) (zget (split_inclusive cs ++ (if b then [[]] else [])) k) =
    default (@nil Z) (zget (split_inclusive cs) k)) as E.
  { intros b k. destruct b; [|by rewrite app_nil_r].
    destruct (Z_lt_le_dec k (len (split_inclusive cs))) as [?|Hge].
    - destruct (Z_lt_le_dec k 0); [by rewrite !zget_neg|]. by rewrite zget_app_l.
    - rewrite (zget_ge (split_inclusive cs)) by done. rewrite zget_app_r by done.
      destruct (Z.eq_dec (k - len (split_inclusive cs)) 0) as [->|]; [done|].
      rewrite zget_cons_S by lia. rewrite zget_ge; [done|]. rewrite len_nil. lia. }
  rewrite rows_split_inclusive, E. clear E.
  revert n. induction Hf as [|r rs Hr Hf IH]; intros n.
  { unfold zget. by destruct (0 <=? n). }
  destruct (Z.eq_dec n 0) as [->|Hn]; [simpl; by apply Hc|].
  simpl. destruct (Z_lt_le_dec n 0); [by rewrite !zget_neg|].
  rewrite !zget_cons_S by lia. apply IH.
Qed.

Section located.
Context (to_lowercase : list Z -> list Z) (cs : list Z).
Hypothesis Hs : scalars cs.
Hypothesis Hu : blen cs <= u32_max.

(** What the context of an error must say. *)
Definition context_of (e : ParseError) (c : ErrorContext) : Prop :=
  let o := Z.min (default (blen cs) (location e)) (blen cs) in
  error c = e /\ (line c, column c) = position_of cs o /\
  source_line c = encode (content (default [] (zget (rows cs) (line c)))) /\
  suggestion_text c = suggestion to_lowercase e.

Lemma error_context_located e :
  0 <= default 0 (location e) ->
  exists c, error_context to_lowercase (LineIndex.new (encode cs)) (encode cs) e = Ret c /\ context_of e c.
Proof using Hs Hu.
  intros Hl. unfold error_context. rewrite len_encode.
  set (o := Z.min (default (blen cs) (location e)) (blen cs)).
  assert (0 <= o) as Ho.
  { unfold o. pose proof (blen_nonneg cs). destruct (location e); simpl in *; lia. }
  rewrite index_offset_to_position; [|done|by apply u32_allocatable|done].
  rewrite as_u32_position by done. destruct (position_of cs o) as [l c] eqn:E.
  simpl. eexists. split; [done|]. unfold context_of. fold o. simpl.
  split; [done|]. split; [done|]. split; [|done].
  by apply lines_rows.
Qed.

Lemma contexts_loop_located es :
  Forall (fun e => 0 <= default 0 (location e)) es ->
  exists ctxs, get_error_contexts to_lowercase es (encode cs) = Ret ctxs /\ Forall2 context_of es ctxs.
Proof using Hs Hu.
  unfold get_error_contexts. induction 1 as [|e es He Hes IH]; [by eexists|].
  destruct (error_context_located e He) as (c & E & Hc). destruct IH as (ctxs & E' & IH).
  exists (c :: ctxs). cbn [contexts_loop]. rewrite E. cbn [mbind outcome_bind]. rewrite E'.
  split; [done|by constructor].
Qed.
End located.

(** ** Theorems *)

(** Error contexts: for errors of a UTF-8 source (below 4 GiB),
    [get_error_contexts] never panics and yields one context per error, in
    order; its line and UTF-16 column are those of the reported offset, cut
    to the source, and its source line is the line with that number, without
    its terminator. *)
Theorem error_contexts_show_their_line to_lowercase cs es :
  scalars cs -> blen cs <= u32_max -> Forall (fun e => 0 <= default 0 (location e)) es ->
  exists ctxs, get_error_contexts to_lowercase es (encode cs) = Ret ctxs /\
    Forall2 (context_of to_lowercase cs) es ctxs.
Proof. intros Hs Hu Hes. by apply contexts_loop_located. Qed.

Example error_contexts_show_their_line_witness :
  exists c, get_error_contexts (fun s => s) [UnexpectedToken (bytes_of "';'") (bytes_of "b") 3] [97; 10; 98; 98] =
      Ret [c] /\
    line c = 1 /\ column c = 1 /\ source_line c = [98; 98].
Proof.
  destruct (error_contexts_show_their_line (fun s => s) [97; 10; 98; 98]
    [UnexpectedToken (bytes_of "';'") (bytes_of "b") 3]) as (ctxs & E & H);
    [by repeat constructor|done|by repeat constructor|].
  change (encode [97; 10; 98; 98]) with [97; 10; 98; 98] in E.
  exists (mkContext (UnexpectedToken (bytes_of "';'") (bytes_of "b") 3) 1 1 [98; 98]
    (Some (bytes_of "add a semicolon ';' at the end of the statement"))).
  split; [reflexivity|]. split; [reflexivity|]. split; reflexivity.
Defined.

(** An error's routing, its stop cause and its anchor tell one story: the
    derived stop cause is a budget exhaustion exactly for the resource-limit
    category and a cancellation exactly for the transient one; only advisory
    errors let a parse count as clean; the reported location is the exact
    anchor when there is one; and an anchor resolves to an exact offset only
    if that offset is a character boundary of the source. *)
Theorem error_routing_is_consistent e source :
  is_budget_exhaustion (from_parse_error e) = bool_decide (error_class e = ResourceLimit) /\
  is_cancelled (from_parse_error e) = bool_decide (error_class e = Transient) /\
  blocks_clean_parse e = negb (bool_decide (error_class e = CategoryAdvisory)) /\
  location e = match diagnostic_anchor e with Exact n => Some n | _ => None end /\
  match resolved_diagnostic_anchor e source with
  | ResolvedExact o =>
      location e = Some o /\ o <= len source /\ is_char_boundary source o = true
  | ResolvedEndOfInput o => e = UnexpectedEof /\ o = len source
  | ResolvedNoSource => location e = None
  | InvalidOffset o n => location e = Some o /\ n = len source /\ n < o
  | InvalidUtf8Boundary o n =>
      location e = Some o /\ n = len source /\ o <= n /\ is_char_boundary source o = false
  end.
Proof.
  split; [by destruct e|]. split; [by destruct e|]. split; [by destruct e|].
  assert (location e = match diagnostic_anchor e with Exact n => Some n | _ => None end) as Hl
    by (by destruct e).
  split; [done|]. rewrite Hl. unfold resolved_diagnostic_anchor.
  assert (diagnostic_anchor e = EndOfInput -> e = UnexpectedEof) as He by (by destruct e).
  destruct (diagnostic_anchor e) as [n| |]; simpl; [|by split; [apply He|]|done].
  destruct (Z.ltb_spec (len source) n); [done|].
  destruct (is_char_boundary source n) eqn:B; simpl; done.
Qed.
