(* ===== verification/Framing.v ===== *)
(** * Message framing (perl-lsp-rs-core/src/transport/framing.rs)

    The [Content-Length] framer of the LSP base protocol: it buffers
    transport bytes, skips what is not a frame, and extracts one body after
    another.  The state is the buffer; [try_next] returns its result together
    with the buffer it leaves.  Proved in this file: what the framer finds
    and consumes; the reader on top of it is in Incoming.v. *)

From Stdlib Require Import String.
From stdpp Require Import base numbers list.
From S2P Require Import Prelude Utf8 StdText SourceRows ParseErrors.

(** ** Constants *)

Definition HEADER_SENTINEL : list Z := bytes_of "Content-Length:".
Definition HEADER_END_CRLF : list Z := [13; 10; 13; 10].
Definition HEADER_END_LF : list Z := [10; 10].
Definition RESYNC_TAIL_BYTES : Z := 8 * 1024.
Definition MAX_DESYNC_BUFFER_BYTES : Z := 64 * 1024.
Definition MAX_HEADER_BYTES : Z := 4 * 1024.
Definition MAX_FRAME_SIZE : Z := 16 * 1024 * 1024.

Inductive FramingError :=
| InvalidHeader | InvalidHeaderUtf8 | MissingContentLength | InvalidContentLength
| FrameTooLarge (length : Z).

Definition framing_error_class (self : FramingError) : ErrorCategory :=
  match self with
  | InvalidHeader | InvalidHeaderUtf8 | MissingContentLength | InvalidContentLength => Protocol
  | FrameTooLarge _ => ResourceLimit
  end.

(** ** Searching the buffer *)

(** [hay.windows(n).position(p)] *)
Fixpoint windows_position (n : Z) (p : list Z -> bool) (hay : list Z) : option Z :=
  match hay with
  | [] => None
  | _ :: rest =>
    let window := ztake n hay in
    if len window <? n then None
    else if p window then Some 0
    else Z.succ <$> windows_position n p rest
  end.

Definition find_header_start (hay : list Z) : option Z :=
  windows_position (len HEADER_SENTINEL) (fun window => eq_ignore_ascii_case window HEADER_SENTINEL) hay.
Definition find_subslice (hay needle : list Z) : option Z :=
  if len needle =? 0 then Some 0
  else windows_position (len needle) (fun window => bool_decide (window = needle)) hay.
Definition find_header_end (hay : list Z) : option (Z * Z) :=
  let crlf_end := (fun idx => (idx, len HEADER_END_CRLF)) <$> find_subslice hay HEADER_END_CRLF in
  let lf_end := (fun idx => (idx, len HEADER_END_LF)) <$> find_subslice hay HEADER_END_LF in
  match crlf_end, lf_end with
  | Some crlf, Some lf => Some (if crlf.1 <=? lf.1 then crlf else lf)
  | Some crlf, None => Some crlf
  | None, Some lf => Some lf
  | None, None => None
  end.

(** ** Header lines *)

Inductive ContentLengthParse := Found (length : Z) | Missing | Invalid | MalformedHeader.

(** The loop over the lines, [found] being the last length seen. *)
Fixpoint parse_lines (found : option Z) (lines : list (list Z)) : ContentLengthParse :=
  match lines with
  | [] => match found with Some length => Found length | None => Missing end
  | raw_line :: lines =>
    let line := trim_end_matches 13 raw_line in
    if len line =? 0 then parse_lines found lines
    else match split_once 58 line with
    | None => MalformedHeader
    | Some (name, value) =>
      if eq_ignore_ascii_case (trim name) (bytes_of "Content-Length") then
        match parse_usize (trim value) with
        | Some length => parse_lines (Some length) lines
        | None => Invalid
        end
      else parse_lines found lines
    end
  end.
Definition parse_content_length (header : list Z) : ContentLengthParse := parse_lines None (str_lines header).

(** [header.lines().any(|line| !line.trim().is_empty() && line.contains(':'))] *)
Definition has_header_shape (header : list Z) : bool :=
  existsb (fun line => negb (len (trim line) =? 0) && str_contains line [58]) (str_lines header).

(** ** The framer *)

Definition resync_if_needed (buf : list Z) : list Z :=
  match find_header_start buf with
  | Some prefix_len => if prefix_len =? 0 then buf else zdrop prefix_len buf
  | None =>
    if MAX_DESYNC_BUFFER_BYTES <? len buf then zdrop (len buf - Z.min RESYNC_TAIL_BYTES (len buf)) buf else buf
  end.
Definition consume_header_block (buf : list Z) (header_end header_len : Z) : list Z :=
  resync_if_needed (zdrop (Z.min (header_end + header_len) (len buf)) buf).

Definition framer_new : list Z := [].
Definition push (buf bytes : list Z) : list Z := resync_if_needed (buf ++ bytes).

(** The part of [try_next] after the header block is known to be complete. *)
Definition try_frame (buf : list Z) (header_end header_len : Z) : result FramingError (option (list Z)) * list Z :=
  let refuse e := (Err e, consume_header_block buf header_end header_len) in
  let header := ztake header_end buf in
  if negb (from_utf8 header) then refuse InvalidHeaderUtf8
  else match parse_content_length header with
  | Missing => refuse MissingContentLength
  | Invalid => refuse InvalidContentLength
  | MalformedHeader => refuse InvalidHeader
  | Found length =>
    if MAX_FRAME_SIZE <? length then refuse (FrameTooLarge length)
    else match checked_add header_end header_len with
    | None => refuse InvalidContentLength
    | Some body_start =>
      match checked_add body_start length with
      | None => refuse InvalidContentLength
      | Some body_end =>
        if len buf <? body_end then (Ok None, buf)
        else (Ok (Some (zslice buf body_start body_end)), resync_if_needed (zdrop body_end buf))
      end
    end
  end.

Definition try_next (self : list Z) : result FramingError (option (list Z)) * list Z :=
  let buf := resync_if_needed self in
  match find_header_start buf with
  | None =>
    match find_header_end buf with
    | Some (header_end, header_len) =>
      let header := ztake header_end buf in
      let rest := consume_header_block buf header_end header_len in
      if from_utf8 header then
        (Err (if has_header_shape header then MissingContentLength else InvalidHeader), rest)
      else (Err InvalidHeaderUtf8, rest)
    | None => (Ok None, buf)
    end
  | Some start =>
    let buf := if 0 <? start then zdrop start buf else buf in
    match find_header_end buf with
    | None => if MAX_HEADER_BYTES <? len buf then (Err InvalidHeader, []) else (Ok None, buf)
    | Some (header_end, header_len) => try_frame buf header_end header_len
    end
  end.

(** A complete framed message. *)
Definition frame (body : list Z) : list Z :=
  bytes_of "Content-Length: " ++ decimal (len body) ++ [13; 10; 13; 10] ++ body.

(** ** Lemmas: windows *)

(** [p] accepts the window of [n] bytes at [i]. *)
Definition at_window (n : Z) (p : list Z -> bool) (hay : list Z) (i : Z) : Prop :=
  0 <= i /\ i + n <= len hay /\ p (ztake n (zdrop i hay)) = true.

Section windows.
Context (n : Z) (p : list Z -> bool) (Hn : 0 < n).

Lemma at_window_cons x hay i : 0 <= i -> at_window n p (x :: hay) (i + 1) <-> at_window n p hay i.
Proof.
  intros Hi. unfold at_window. rewrite len_cons.
  assert (zdrop (i + 1) (x :: hay) = zdrop i hay) as ->.
  { unfold zdrop. by replace (Z.to_nat (i + 1)) with (S (Z.to_nat i)) by lia. }
  naive_solver lia.
Qed.

Lemma windows_position_spec hay :
  match windows_position n p hay with
  | Some i => at_window n p hay i /\ forall j, j < i -> ~ at_window n p hay j
  | None => forall j, ~ at_window n p hay j
  end.
Proof.
  induction hay as [|x hay IH]; cbn [windows_position].
  { intros j (? & H & _). rewrite len_nil in H. lia. }
  pose proof (len_nonneg hay) as Hh.
  assert (len (ztake n (x :: hay)) = Z.min n (len (x :: hay))) as Hl.
  { unfold len, ztake. rewrite length_take. lia. }
  destruct (Z.ltb_spec (len (ztake n (x :: hay))) n) as [Hs|Hs].
  { intros j (? & H & _). lia. }
  destruct (p (ztake n (x :: hay))) eqn:E.
  { split; [|intros j ? [? _]; lia]. split_and!; [lia| |by rewrite zdrop_0 by lia]. lia. }
  destruct (windows_position n p hay) as [i|]; simpl.
  - destruct IH as [IH Hj]. split; [apply at_window_cons; [by destruct IH|done]|].
    intros j Hlt Hw. destruct (decide (j = 0)) as [->|Hne].
    + destruct Hw as (_ & _ & Hw). rewrite zdrop_0 in Hw by lia. by rewrite E in Hw.
    + assert (0 <= j) by (by destruct Hw). apply (Hj (j - 1)); [lia|].
      apply (at_window_cons x); [lia|]. by replace (j - 1 + 1) with j by lia.
  - intros j Hw. destruct (decide (j = 0)) as [->|Hne].
    + destruct Hw as (_ & _ & Hw). rewrite zdrop_0 in Hw by lia. by rewrite E in Hw.
    + assert (0 <= j) by (by destruct Hw). apply (IH (j - 1)).
      apply (at_window_cons x); [lia|]. by replace (j - 1 + 1) with j by lia.
Qed.

End windows.

(** A window inside the text is the same window of every extension. *)
Lemma at_window_app n p hay rest i : 0 <= n -> i + n <= len hay -> at_window n p (hay ++ rest) i <-> at_window n p hay i.
Proof.
  intros Hn Hi. unfold at_window. rewrite len_app. pose proof (len_nonneg rest).
  destruct (decide (0 <= i)) as [H0|]; [|naive_solver lia].
  assert (ztake n (zdrop i (hay ++ rest)) = ztake n (zdrop i hay)) as ->; [|naive_solver lia].
  unfold ztake, zdrop, len in *. rewrite drop_app_le by lia. rewrite take_app_le; [done|]. rewrite length_drop. lia.
Qed.
Lemma at_window_drop n p hay k i : 0 <= k <= len hay -> 0 <= i -> at_window n p (zdrop k hay) i <-> at_window n p hay (k + i).
Proof.
  intros Hk Hi. unfold at_window. rewrite len_zdrop by lia.
  assert (zdrop i (zdrop k hay) = zdrop (k + i) hay) as ->; [|naive_solver lia].
  unfold zdrop. rewrite drop_drop. f_equal. lia.
Qed.

Lemma zget_window {A} (n i k : Z) (hay : list A) : 0 <= i -> 0 <= k < n -> zget (ztake n (zdrop i hay)) k = zget hay (i + k).
Proof.
  intros Hi Hk. unfold zget, ztake, zdrop. rewrite (proj2 (Z.leb_le 0 k)), (proj2 (Z.leb_le 0 (i + k))) by lia.
  rewrite lookup_take_lt by lia. rewrite lookup_drop.
  by replace (Z.to_nat (i + k)) with (Z.to_nat i + Z.to_nat k)%nat by lia.
Qed.

(** ** Lemmas: sentinels and terminators *)

Definition sentinel_at (hay : list Z) (i : Z) : Prop :=
  at_window (len HEADER_SENTINEL) (fun window => eq_ignore_ascii_case window HEADER_SENTINEL) hay i.
Definition marker_at (needle hay : list Z) (i : Z) : Prop :=
  at_window (len needle) (fun window => bool_decide (window = needle)) hay i.
(** Text in which no frame header can start. *)
Definition sentinel_free (hay : list Z) : Prop := forall i, ~ sentinel_at hay i.

Lemma find_header_start_spec hay :
  match find_header_start hay with
  | Some i => sentinel_at hay i /\ forall j, j < i -> ~ sentinel_at hay j
  | None => sentinel_free hay
  end.
Proof. by apply windows_position_spec. Qed.
Lemma find_subslice_spec needle hay :
  needle <> [] ->
  match find_subslice hay needle with
  | Some i => marker_at needle hay i /\ forall j, j < i -> ~ marker_at needle hay j
  | None => forall j, ~ marker_at needle hay j
  end.
Proof.
  intros Hn. unfold find_subslice. destruct (Z.eqb_spec (len needle) 0) as [H%len_zero_nil|H]; [done|].
  apply windows_position_spec. pose proof (len_nonneg needle). lia.
Qed.

Lemma marker_bytes needle hay i k : marker_at needle hay i -> 0 <= k < len needle -> zget hay (i + k) = zget needle k.
Proof.
  intros (H0 & H1 & H2%bool_decide_eq_true) Hk. rewrite <- (zget_window (len needle) i k hay) by done. by rewrite H2.
Qed.
Lemma lowercase_unchanged c x : to_ascii_lowercase c = x -> ~ (97 <= x <= 122) -> c = x.
Proof. unfold to_ascii_lowercase. bcase; simpl; lia. Qed.
Lemma sentinel_bytes hay i k :
  sentinel_at hay i -> 0 <= k < 15 ->
  exists c, zget hay (i + k) = Some c /\ zget (to_ascii_lowercase <$> HEADER_SENTINEL) k = Some (to_ascii_lowercase c).
Proof.
  intros (H0 & H1 & H2%bool_decide_eq_true) Hk.
  assert (len HEADER_SENTINEL = 15) as Hl by reflexivity. rewrite Hl in *.
  rewrite <- (zget_window 15 i k hay) by done. rewrite <- H2.
  destruct (zget_lt_Some (ztake 15 (zdrop i hay)) k) as [c Hc].
  { rewrite len_ztake; [lia|]. rewrite len_zdrop by lia. lia. }
  exists c. split; [done|]. unfold zget in *. destruct (0 <=? k); [|done]. by rewrite list_lookup_fmap, Hc.
Qed.
(** A sentinel ends with its only colon, and holds no line end. *)
Lemma sentinel_colon hay i : sentinel_at hay i -> zget hay (i + 14) = Some 58.
Proof.
  intros H. destruct (sentinel_bytes hay i 14 H ltac:(lia)) as (c & Hc & E).
  assert (zget (to_ascii_lowercase <$> HEADER_SENTINEL) 14 = Some 58) as E' by reflexivity.
  rewrite E' in E. injection E as E. by rewrite Hc, (lowercase_unchanged c 58) by (congruence || lia).
Qed.
Lemma sentinel_letter hay i k c : sentinel_at hay i -> 0 <= k < 14 -> zget hay (i + k) = Some c -> c <> 58 /\ c <> 10.
Proof.
  intros H Hk Hc. destruct (sentinel_bytes hay i k H ltac:(lia)) as (c' & Hc' & E).
  assert (Forall (fun x => x <> 58 /\ x <> 10) (take 14 (to_ascii_lowercase <$> HEADER_SENTINEL))) as Hf.
  { apply (bool_decide_unpack _). vm_compute. done. }
  rewrite Hc in Hc'. injection Hc' as <-.
  unfold zget in E. destruct (Z.leb_spec 0 k); [|done].
  rewrite <- (lookup_take_lt _ 14) in E by lia. eapply Forall_lookup in Hf; [|exact E]. simpl in Hf.
  split; intros ->; by destruct Hf as [? ?].
Qed.
(** Two sentinels do not overlap. *)
Lemma sentinel_apart hay i j : sentinel_at hay i -> sentinel_at hay j -> i < j -> i + 15 <= j.
Proof.
  intros Hi Hj Hlt. destruct (decide (i + 15 <= j)); [done|]. exfalso.
  pose proof (sentinel_colon hay i Hi) as Hc. replace (i + 14) with (j + (i + 14 - j)) in Hc by lia.
  destruct (sentinel_letter hay j (i + 14 - j) 58 Hj ltac:(lia) Hc). done.
Qed.
Lemma sentinel_app hay rest i : i + 15 <= len hay -> sentinel_at (hay ++ rest) i <-> sentinel_at hay i.
Proof. apply at_window_app, len_nonneg. Qed.
Lemma sentinel_drop hay k i : 0 <= k <= len hay -> 0 <= i -> sentinel_at (zdrop k hay) i <-> sentinel_at hay (k + i).
Proof. by apply at_window_drop. Qed.
Lemma sentinel_fits hay i : sentinel_at hay i -> 0 <= i /\ i + 15 <= len hay.
Proof. intros (? & ? & _). by split. Qed.

Lemma sentinel_free_nil : sentinel_free [].
Proof. intros i Hi. destruct (sentinel_fits _ _ Hi) as [H0 H1]. change (len (@nil Z)) with 0 in H1. lia. Qed.

(** The header end that is found is the end of every extension. *)
Lemma find_header_end_bytes hay e l :
  find_header_end hay = Some (e, l) ->
  0 <= e /\ e + l <= len hay /\ (l = 2 \/ l = 4) /\ zget hay (e + l - 1) = Some 10.
Proof.
  unfold find_header_end.
  pose proof (find_subslice_spec HEADER_END_CRLF hay ltac:(done)) as Hc.
  pose proof (find_subslice_spec HEADER_END_LF hay ltac:(done)) as Hl.
  assert (forall i, marker_at HEADER_END_CRLF hay i -> 0 <= i /\ i + 4 <= len hay /\ zget hay (i + 4 - 1) = Some 10) as Mc.
  { intros i Hm. pose proof (marker_bytes _ _ _ 3 Hm ltac:(done)) as E. replace (i + 4 - 1) with (i + 3) by lia.
    rewrite E. by destruct Hm as (? & ? & _). }
  assert (forall i, marker_at HEADER_END_LF hay i -> 0 <= i /\ i + 2 <= len hay /\ zget hay (i + 2 - 1) = Some 10) as Ml.
  { intros i Hm. pose proof (marker_bytes _ _ _ 1 Hm ltac:(done)) as E. replace (i + 2 - 1) with (i + 1) by lia.
    rewrite E. by destruct Hm as (? & ? & _). }
  destruct (find_subslice hay HEADER_END_CRLF) as [c|], (find_subslice hay HEADER_END_LF) as [f|]; simpl; try done.
  - destruct (c <=? f); intros [= <- <-]; [destruct (Mc c) as (? & ? & ?)|destruct (Ml f) as (? & ? & ?)]; naive_solver.
  - intros [= <- <-]. destruct (Mc c) as (? & ? & ?); naive_solver.
  - intros [= <- <-]. destruct (Ml f) as (? & ? & ?); naive_solver.
Qed.

Lemma marker_app needle hay rest i : i + len needle <= len hay -> marker_at needle (hay ++ rest) i <-> marker_at needle hay i.
Proof. apply at_window_app, len_nonneg. Qed.
Lemma find_subslice_app needle hay rest :
  needle <> [] ->
  match find_subslice hay needle with
  | Some i => find_subslice (hay ++ rest) needle = Some i
  | None => forall i, find_subslice (hay ++ rest) needle = Some i -> len hay < i + len needle
  end.
Proof.
  intros Hn. pose proof (find_subslice_spec needle hay Hn) as H.
  pose proof (find_subslice_spec needle (hay ++ rest) Hn) as H'.
  destruct (find_subslice hay needle) as [i|].
  - destruct H as [Hi Hj]. assert (i + len needle <= len hay) as Hl by (by destruct Hi as (_ & ? & _)).
    destruct (find_subslice (hay ++ rest) needle) as [i'|].
    + destruct H' as [Hi' Hj']. f_equal. destruct (Z.lt_trichotomy i' i) as [Hlt|[->|Hlt]]; [|done|].
      * destruct (Hj i' Hlt). apply (marker_app _ _ rest); [lia|done].
      * destruct (Hj' i Hlt). apply (marker_app _ _ rest); [lia|done].
    + destruct (H' i). apply (marker_app _ _ rest); [lia|done].
  - intros i E. rewrite E in H'. destruct H' as [Hi _]. apply Z.nle_gt. intros Hle.
    apply (H i). by apply (marker_app _ _ rest i Hle).
Qed.

Lemma find_header_end_app hay rest e l :
  find_header_end hay = Some (e, l) -> find_header_end (hay ++ rest) = Some (e, l).
Proof.
  pose proof (find_subslice_spec HEADER_END_CRLF (hay ++ rest) ltac:(done)) as Mc.
  pose proof (find_subslice_spec HEADER_END_LF (hay ++ rest) ltac:(done)) as Ml.
  pose proof (find_subslice_spec HEADER_END_CRLF hay ltac:(done)) as Mc0.
  pose proof (find_subslice_spec HEADER_END_LF hay ltac:(done)) as Ml0.
  pose proof (find_subslice_app HEADER_END_CRLF hay rest ltac:(done)) as Hc.
  pose proof (find_subslice_app HEADER_END_LF hay rest ltac:(done)) as Hl.
  assert (len HEADER_END_CRLF = 4) as L4 by reflexivity. assert (len HEADER_END_LF = 2) as L2 by reflexivity.
  unfold find_header_end.
  destruct (find_subslice hay HEADER_END_CRLF) as [c|], (find_subslice hay HEADER_END_LF) as [f|]; simpl; [| | |done].
  - by rewrite Hc, Hl.
  - rewrite Hc. simpl. destruct Mc0 as [(_ & ? & _) _]. intros <-.
    destruct (find_subslice (hay ++ rest) HEADER_END_LF) as [f'|]; simpl; [|done].
    specialize (Hl f' eq_refl). destruct (Z.leb_spec c f'); [done|lia].
  - rewrite Hl in *. simpl. destruct Ml0 as [(_ & Hfit & _) _]. destruct Ml as [Ml _]. intros <-.
    destruct (find_subslice (hay ++ rest) HEADER_END_CRLF) as [c'|]; simpl; [|done].
    specialize (Hc c' eq_refl). destruct Mc as [Mc _].
    destruct (Z.leb_spec c' f) as [Hle|]; [|done]. exfalso.
    pose proof (marker_bytes _ _ _ 0 Ml ltac:(done)) as B0. pose proof (marker_bytes _ _ _ 1 Ml ltac:(done)) as B1.
    assert (c' = f \/ c' = f - 1) as [->| ->] by lia.
    + pose proof (marker_bytes _ _ _ 0 Mc ltac:(done)) as B. by rewrite B0 in B.
    + pose proof (marker_bytes _ _ _ 2 Mc ltac:(done)) as B. replace (f - 1 + 2) with (f + 1) in B by lia.
      by rewrite B1 in B.
Qed.

(** ** What a stream of frames is *)

(** A header block and its body: the block starts with the sentinel, ends
    where the framer finds its end, is short, and announces the length. *)
Inductive message : list Z -> list Z -> Prop :=
| message_intro header terminator body :
    sentinel_at (header ++ terminator) 0 ->
    find_header_end (header ++ terminator) = Some (len header, len terminator) ->
    len (header ++ terminator) <= MAX_HEADER_BYTES ->
    from_utf8 header = true ->
    parse_content_length header = Found (len body) ->
    len body <= MAX_FRAME_SIZE ->
    message (header ++ terminator ++ body) body.

(** [s] is frames with these bodies, between text without a sentinel. *)
Inductive carries : list Z -> list (list Z) -> Prop :=
| carries_end g : sentinel_free g -> carries g []
| carries_message g m body s bodies :
    sentinel_free g -> message m body -> carries s bodies -> carries (g ++ m ++ s) (body :: bodies).

(** ** Lemmas: buffers that carry frames *)

Lemma sentinel_free_drop g k : 0 <= k <= len g -> sentinel_free g -> sentinel_free (zdrop k g).
Proof. intros Hk Hf i Hi. apply (Hf (k + i)). apply sentinel_drop; [done|by destruct (sentinel_fits _ _ Hi)|done]. Qed.

Lemma message_at_start m body s : message m body -> sentinel_at (m ++ s) 0.
Proof.
  intros [header terminator b Hs _ _ _ _ _]. pose proof (sentinel_fits _ _ Hs) as [_ Hl].
  rewrite app_assoc, <- app_assoc. apply sentinel_app; [lia|done].
Qed.
Lemma message_sentinel g m body s : message m body -> sentinel_at (g ++ m ++ s) (len g).
Proof.
  intros Hm. pose proof (len_nonneg g). pose proof (len_nonneg (m ++ s)).
  rewrite <- (Z.add_0_r (len g)). apply sentinel_drop; [rewrite len_app; lia|lia|].
  rewrite zdrop_app_len. by eapply message_at_start.
Qed.
(** After text without a sentinel, the first sentinel is the message's. *)
Lemma first_sentinel g m body s i : sentinel_free g -> message m body -> i < len g -> ~ sentinel_at (g ++ m ++ s) i.
Proof.
  intros Hg Hm Hi Hs. pose proof (message_sentinel g m body s Hm) as Hs'.
  pose proof (sentinel_apart _ _ _ Hs Hs' Hi). apply (Hg i). apply (sentinel_app g (m ++ s)); [lia|done].
Qed.

Lemma carries_first s bodies i :
  carries s bodies -> sentinel_at s i -> (forall j, j < i -> ~ sentinel_at s j) ->
  exists m body s' bodies', bodies = body :: bodies' /\ zdrop i s = m ++ s' /\ message m body /\ carries s' bodies'.
Proof.
  intros [g Hg|g m body s' bodies' Hg Hm Hc] Hi Hj; [by destruct (Hg i)|].
  assert (i = len g) as ->.
  { destruct (Z.lt_trichotomy i (len g)) as [H|[H|H]]; [|done|].
    - by destruct (first_sentinel g m body s' i Hg Hm H).
    - destruct (Hj (len g) H). by eapply message_sentinel. }
  exists m, body, s', bodies'. by rewrite zdrop_app_len.
Qed.
Lemma carries_none s bodies : carries s bodies -> sentinel_free s -> bodies = [].
Proof.
  intros [g Hg|g m body s' bodies' Hg Hm Hc] Hs; [done|]. destruct (Hs (len g)). by eapply message_sentinel.
Qed.
(** Bytes before the first sentinel may be dropped. *)
Lemma carries_drop s bodies k :
  carries s bodies -> 0 <= k <= len s -> (forall j, j < k -> ~ sentinel_at s j) -> carries (zdrop k s) bodies.
Proof.
  intros [g Hg|g m body s' bodies' Hg Hm Hc] Hk Hj.
  - apply carries_end. by apply sentinel_free_drop.
  - assert (k <= len g) as Hle.
    { destruct (decide (k <= len g)); [done|]. destruct (Hj (len g)); [lia|]. by eapply message_sentinel. }
    assert (zdrop k (g ++ m ++ s') = zdrop k g ++ m ++ s') as ->.
    { unfold zdrop, len in *. by rewrite drop_app_le by lia. }
    apply (carries_message _ m body); [|done..]. apply sentinel_free_drop; [lia|done].
Qed.

Lemma zdrop_app_in {A} k (l rest : list A) : 0 <= k <= len l -> zdrop k (l ++ rest) = zdrop k l ++ rest.
Proof. intros Hk. unfold zdrop, len in *. by rewrite drop_app_le by lia. Qed.

(** What resynchronisation drops holds no sentinel, and what it leaves
    starts with one or has none. *)
Lemma resync_spec buf :
  exists k, resync_if_needed buf = zdrop k buf /\ 0 <= k <= len buf /\
    (forall rest j, j < k -> ~ sentinel_at (buf ++ rest) j) /\
    (find_header_start (zdrop k buf) = Some 0 \/
     find_header_start (zdrop k buf) = None /\ len (zdrop k buf) <= MAX_DESYNC_BUFFER_BYTES).
Proof.
  pose proof (len_nonneg buf) as Hb. unfold resync_if_needed.
  pose proof (find_header_start_spec buf) as Hs. destruct (find_header_start buf) as [i|] eqn:E.
  - destruct Hs as [Hi Hj]. pose proof (sentinel_fits _ _ Hi) as [H0 Hl]. exists i.
    split; [destruct (Z.eqb_spec i 0) as [->|]; [by rewrite zdrop_0 by lia|done]|]. split; [lia|]. split.
    + intros rest j Hlt Ha. apply (Hj j Hlt). apply (sentinel_app _ rest); [lia|done].
    + left. pose proof (find_header_start_spec (zdrop i buf)) as Hd.
      assert (sentinel_at (zdrop i buf) 0) as H00 by (apply sentinel_drop; [lia|lia|by rewrite Z.add_0_r]).
      destruct (find_header_start (zdrop i buf)) as [k|]; [|by destruct (Hd 0)]. f_equal.
      destruct Hd as [Hk Hd]. pose proof (sentinel_fits _ _ Hk) as [Hk0 _].
      destruct (decide (k = 0)); [done|]. destruct (Hd 0); [lia|done].
  - assert (MAX_DESYNC_BUFFER_BYTES = 65536 /\ RESYNC_TAIL_BYTES = 8192) as [-> ->] by done.
    destruct (Z.ltb_spec 65536 (len buf)) as [Hlt|Hle].
    + rewrite Z.min_l by lia. exists (len buf - 8192). split_and!; [done|lia|lia| |].
      * intros rest j Hj Ha. apply (Hs j). apply (sentinel_app _ rest); [lia|done].
      * right. assert (sentinel_free (zdrop (len buf - 8192) buf)) as Hf by (apply sentinel_free_drop; [lia|done]).
        split; [|rewrite len_zdrop; lia]. pose proof (find_header_start_spec (zdrop (len buf - 8192) buf)) as Hd.
        destruct (find_header_start (zdrop (len buf - 8192) buf)) as [z|]; [|done].
        destruct Hd as [Hd _]. by destruct (Hf z).
    + exists 0. rewrite zdrop_0 by lia. split_and!; [done|lia|lia|intros; intros []%sentinel_fits; lia|by right].
Qed.

Lemma resync_carries buf rest bodies :
  carries (buf ++ rest) bodies -> carries (resync_if_needed buf ++ rest) bodies.
Proof.
  intros Hc. destruct (resync_spec buf) as (k & -> & Hk & Hj & _). rewrite <- zdrop_app_in by done.
  apply carries_drop; [done| |apply Hj]. rewrite len_app. pose proof (len_nonneg rest). lia.
Qed.
Lemma resync_shrinks buf : len (resync_if_needed buf) <= len buf.
Proof. destruct (resync_spec buf) as (k & -> & Hk & _). rewrite len_zdrop; lia. Qed.

(** A header block of the buffer is consumed without touching a frame that
    starts after it. *)
Lemma consume_carries buf rest bodies e l :
  sentinel_free buf -> find_header_end buf = Some (e, l) ->
  carries (buf ++ rest) bodies -> carries (consume_header_block buf e l ++ rest) bodies.
Proof.
  intros Hf He Hc. apply find_header_end_bytes in He as (H0 & H1 & Hl & Hb). unfold consume_header_block.
  rewrite Z.min_l by lia. apply resync_carries. rewrite <- zdrop_app_in by lia. pose proof (len_nonneg rest).
  apply carries_drop; [done|rewrite len_app; lia|]. intros j Hj Ha.
  destruct (decide (j + 15 <= len buf)) as [Hin|Hout].
  - apply (Hf j). by apply (sentinel_app _ rest j Hin).
  - destruct (sentinel_letter (buf ++ rest) j (e + l - 1 - j) 10 Ha ltac:(lia)) as [_ Hne]; [|done].
    replace (j + (e + l - 1 - j)) with (e + l - 1) by lia. rewrite zget_app_l by lia. done.
Qed.

(** At a message, the framer waits for its bytes or takes its body. *)
Lemma try_frame_message buf rest m body s e l :
  message m body -> buf ++ rest = m ++ s -> find_header_end buf = Some (e, l) ->
  try_frame buf e l =
    (if len buf <? len m then (Ok None, buf) else (Ok (Some body), resync_if_needed (zdrop (len m) buf))).
Proof.
  intros Hm Hs He. destruct Hm as [header terminator body Hst Hend Hshort Htext Hlen Hsize].
  assert ((header ++ terminator ++ body) ++ s = (header ++ terminator) ++ body ++ s) as Ha by (by rewrite <- !app_assoc).
  rewrite Ha in Hs. pose proof (find_header_end_app buf rest e l He) as He'. rewrite Hs in He'.
  pose proof (find_header_end_app _ (body ++ s) _ _ Hend) as Hend'.
  rewrite Hend' in He'. injection He' as <- <-.
  pose proof (find_header_end_bytes _ _ _ He) as (H0 & Hfit & _ & _).
  assert (ztake (len header) buf = header) as Eh.
  { transitivity (ztake (len header) (buf ++ rest)).
    - unfold ztake, len in *. by rewrite take_app_le by lia.
    - rewrite Hs, <- app_assoc. apply ztake_app_len. }
  unfold try_frame. rewrite Eh, Htext, Hlen. simpl.
  destruct (Z.ltb_spec MAX_FRAME_SIZE (len body)); [lia|].
  assert (MAX_FRAME_SIZE = 16777216 /\ MAX_HEADER_BYTES = 4096) as [E1 E2] by done. rewrite E1, E2, len_app in *.
  pose proof (len_nonneg header). pose proof (len_nonneg terminator). pose proof (len_nonneg body).
  rewrite !checked_add_Some by (unfold usize_max; lia). rewrite !len_app, Z.add_assoc.
  destruct (Z.ltb_spec (len buf) (len header + len terminator + len body)) as [Hlt|Hle]; [done|].
  assert (zslice buf (len header + len terminator) (len header + len terminator + len body) = body) as ->; [|done].
  unfold zslice.
  transitivity (ztake (len body) (zdrop (len (header ++ terminator)) (buf ++ rest))).
  - rewrite len_app, zdrop_app_in by lia.
    replace (len header + len terminator + len body - (len header + len terminator)) with (len body) by lia.
    unfold ztake. rewrite take_app_le; [done|]. pose proof (len_zdrop buf (len header + len terminator)) as Hz.
    unfold len in *. lia.
  - rewrite Hs, zdrop_app_len. apply ztake_app_len.
Qed.

(** A complete header block is recognised as soon as it is in the buffer. *)
Lemma message_header_end buf rest m body s :
  message m body -> buf ++ rest = m ++ s -> find_header_end buf = None -> len buf <= MAX_HEADER_BYTES /\ len buf < len m.
Proof.
  intros Hm Hs He. destruct Hm as [header terminator body Hst Hend Hshort Htext Hlen Hsize].
  assert (len buf < len (header ++ terminator)) as Hlt.
  { apply Z.nle_gt. intros Hle. assert (exists x, buf = (header ++ terminator) ++ x) as [x ->].
    - exists (zdrop (len (header ++ terminator)) buf). rewrite <- (ztake_zdrop buf (len (header ++ terminator))) at 1.
      f_equal. transitivity (ztake (len (header ++ terminator)) (buf ++ rest)).
      + unfold ztake, len in *. by rewrite take_app_le by lia.
      + rewrite Hs, <- app_assoc, <- app_assoc, app_assoc. apply ztake_app_len.
    - by rewrite (find_header_end_app _ x _ _ Hend) in He. }
  rewrite !len_app in *. pose proof (len_nonneg body). lia.
Qed.

(** One step of the framer on a buffer that carries frames. *)
Lemma try_next_carries buf rest bodies :
  carries (buf ++ rest) bodies ->
  match try_next buf with
  | (Ok (Some body), buf') => exists bodies', bodies = body :: bodies' /\ carries (buf' ++ rest) bodies'
  | (Err _, buf') => carries (buf' ++ rest) bodies
  | (Ok None, buf') => carries (buf' ++ rest) bodies /\ (rest = [] -> bodies = [])
  end.
Proof.
  intros Hc%resync_carries. unfold try_next. set (b := resync_if_needed buf) in *. clearbody b.
  pose proof (find_header_start_spec b) as Hst. destruct (find_header_start b) as [start|] eqn:Est.
  - destruct Hst as [Hst Hj]. pose proof (sentinel_fits _ _ Hst) as [H0 Hl].
    assert (sentinel_at (b ++ rest) start) as Hst' by (apply sentinel_app; [lia|done]).
    assert (forall j, j < start -> ~ sentinel_at (b ++ rest) j) as Hj'.
    { intros j Hlt Ha. apply (Hj j Hlt). by apply (sentinel_app b rest j); [lia|]. }
    destruct (carries_first _ _ start Hc Hst' Hj') as (m & body & s & bodies' & -> & Ed & Hm & Hc').
    rewrite zdrop_app_in in Ed by lia.
    assert ((if 0 <? start then zdrop start b else b) = zdrop start b) as ->.
    { destruct (Z.ltb_spec 0 start); [done|]. by rewrite zdrop_0. }
    set (b2 := zdrop start b) in *. clearbody b2.
    assert (carries (b2 ++ rest) (body :: bodies')) as Hc2.
    { rewrite Ed. change (m ++ s) with ([] ++ m ++ s). apply carries_message; [apply sentinel_free_nil|done..]. }
    destruct (find_header_end b2) as [[e l]|] eqn:He.
    + rewrite (try_frame_message b2 rest m body s e l Hm Ed He). destruct (Z.ltb_spec (len b2) (len m)) as [Hlt|Hle].
      * split; [done|]. intros ->. rewrite app_nil_r in Ed. rewrite Ed, len_app in Hlt. pose proof (len_nonneg s). lia.
      * exists bodies'. split; [done|]. apply resync_carries. rewrite <- zdrop_app_in, Ed, zdrop_app_len; [done|].
        pose proof (len_nonneg m). lia.
    + destruct (message_header_end b2 rest m body s Hm Ed He) as [Hsh Hlt].
      destruct (Z.ltb_spec MAX_HEADER_BYTES (len b2)); [lia|]. split; [done|].
      intros ->. rewrite app_nil_r in Ed. rewrite Ed, len_app in Hlt. pose proof (len_nonneg s). lia.
  - destruct (find_header_end b) as [[e l]|] eqn:He.
    + pose proof (consume_carries b rest bodies e l Hst He Hc). by destruct (from_utf8 _).
    + split; [done|]. intros ->. rewrite app_nil_r in Hc. by eapply carries_none.
Qed.

(** ** Lemmas: the frames that are written *)

Lemma header_end_crlf h :
  Forall (fun c => c <> 13 /\ c <> 10) h -> find_header_end (h ++ HEADER_END_CRLF) = Some (len h, len HEADER_END_CRLF).
Proof.
  intros Hh. pose proof (len_nonneg h) as H0.
  assert (forall needle i, zget needle 0 = Some 13 \/ zget needle 0 = Some 10 ->
    marker_at needle (h ++ HEADER_END_CRLF) i -> len h <= i) as Hge.
  { intros needle i Hn Hm. apply Z.nlt_ge. intros Hlt.
    assert (0 < len needle) as Hl by (destruct Hn as [Hn%zget_Some_lt|Hn%zget_Some_lt]; lia).
    pose proof (marker_bytes _ _ _ 0 Hm ltac:(lia)) as E. rewrite Z.add_0_r, zget_app_l in E by done.
    assert (exists c, zget h i = Some c) as [c Hc] by (apply zget_lt_Some; destruct Hm; lia).
    assert (c <> 13 /\ c <> 10) as [? ?].
    { unfold zget in Hc. destruct (0 <=? i); [|done]. eapply Forall_lookup in Hh; [|exact Hc]. exact Hh. }
    rewrite Hc in E. destruct Hn as [Hn|Hn]; rewrite Hn in E; congruence. }
  assert (marker_at HEADER_END_CRLF (h ++ HEADER_END_CRLF) (len h)) as Hm.
  { split_and!; [lia|by rewrite len_app|]. apply bool_decide_eq_true. by rewrite zdrop_app_len. }
  unfold find_header_end.
  pose proof (find_subslice_spec HEADER_END_CRLF (h ++ HEADER_END_CRLF) ltac:(done)) as Mc.
  pose proof (find_subslice_spec HEADER_END_LF (h ++ HEADER_END_CRLF) ltac:(done)) as Ml.
  destruct (find_subslice _ HEADER_END_CRLF) as [c|]; [|by destruct (Mc (len h))].
  destruct Mc as [Mc Hc]. assert (c = len h) as ->.
  { pose proof (Hge HEADER_END_CRLF c (or_introl eq_refl) Mc). destruct (decide (c = len h)); [done|].
    destruct (Hc (len h)); [lia|done]. }
  simpl. destruct (find_subslice _ HEADER_END_LF) as [f|]; simpl; [|done].
  destruct Ml as [Ml _]. pose proof (Hge HEADER_END_LF f (or_intror eq_refl) Ml) as Hf.
  destruct (Z.leb_spec (len h) f); [done|lia].
Qed.

Definition plain (s : list Z) : Prop := Forall (fun c => c <> 13 /\ c <> 10) s.
Lemma split_inclusive_plain s : s <> [] -> plain s -> split_inclusive s = [s].
Proof.
  intros Hne Hs. induction Hs as [|x l [_ Hx] Hl IH]; [done|]. simpl. unfold LF.
  destruct (Z.eqb_spec x 10); [done|]. destruct l; [done|]. by rewrite IH.
Qed.
Lemma str_lines_plain s : s <> [] -> plain s -> str_lines s = [s].
Proof.
  intros Hne Hs. unfold str_lines. rewrite split_inclusive_plain by done. simpl. f_equal. unfold content.
  destruct s as [|x l] using rev_ind; [done|]. apply Forall_app in Hs as [_ Hx].
  rewrite strip_suffix_snoc_ne; [done|]. by inversion Hx as [|? ? [_ ?] _].
Qed.
Lemma trim_end_plain s : plain s -> trim_end_matches 13 s = s.
Proof.
  intros Hs. unfold trim_end_matches, drop_while_end. destruct s as [|x l] using rev_ind; [done|].
  apply Forall_app in Hs as [_ Hx]. rewrite reverse_app. simpl.
  assert (x <> 13) by (by inversion Hx as [|? ? [? _] _]). destruct (Z.eqb_spec x 13); [done|].
  by rewrite reverse_cons, reverse_involutive.
Qed.

Definition CONTENT_LENGTH_NAME : list Z := bytes_of "Content-Length".
Definition content_length_line (n : Z) : list Z := bytes_of "Content-Length: " ++ decimal n.
Lemma content_length_fields n :
  0 <= n <= usize_max ->
  split_once 58 (content_length_line n) = Some (CONTENT_LENGTH_NAME, [32] ++ decimal n) /\
  eq_ignore_ascii_case (trim CONTENT_LENGTH_NAME) (bytes_of "Content-Length") = true /\
  parse_usize (trim ([32] ++ decimal n)) = Some n.
Proof.
  intros Hn. destruct (decimal_ascii n Hn) as (Ha & Hs & Hd). split_and!.
  - change (content_length_line n) with (CONTENT_LENGTH_NAME ++ 58 :: [32] ++ decimal n). apply split_once_app.
    apply (bool_decide_unpack _). by vm_compute.
  - by vm_compute.
  - rewrite trim_blank_solid; [by apply parse_decimal| |by repeat constructor|done]. by constructor.
Qed.
Lemma content_length_plain n : 0 <= n <= usize_max -> plain (content_length_line n) /\ ascii (content_length_line n).
Proof.
  intros Hn. destruct (decimal_ascii n Hn) as (Ha & _ & Hd). split; apply Forall_app; split; [| |..|done].
  1,3: apply (bool_decide_unpack _); by vm_compute.
  eapply Forall_impl; [exact Hd|]. intros c Hc. unfold is_digit in Hc. simpl. bcase_all; try done; lia.
Qed.
Lemma content_length_size n : 16 <= len (content_length_line n) <= 36.
Proof.
  unfold content_length_line. rewrite len_app. pose proof (decimal_length n). pose proof (len_nonneg (decimal n)).
  change (len (bytes_of "Content-Length: ")) with 16. lia.
Qed.
Lemma content_length_header n : 0 <= n <= usize_max -> parse_content_length (content_length_line n) = Found n.
Proof.
  intros Hn. destruct (content_length_plain n Hn) as [Hp _]. pose proof (content_length_size n) as Hs.
  destruct (content_length_fields n Hn) as (E1 & E2 & E3). unfold parse_content_length.
  rewrite str_lines_plain; [|by intros E; rewrite E, len_nil in Hs; lia|done]. cbn [parse_lines].
  rewrite trim_end_plain, E1, E2, E3 by done. destruct (Z.eqb_spec (len (content_length_line n)) 0); [lia|done].
Qed.

(** What [frame] writes is a message, whatever the body. *)
Lemma frame_parts body : frame body = content_length_line (len body) ++ HEADER_END_CRLF ++ body.
Proof. unfold frame, content_length_line. by rewrite <- app_assoc. Qed.
Lemma frame_message body : len body <= MAX_FRAME_SIZE -> message (frame body) body.
Proof.
  intros Hl. pose proof (len_nonneg body) as H0.
  assert (0 <= len body <= usize_max) as Hn by (unfold MAX_FRAME_SIZE, usize_max in *; lia).
  destruct (content_length_plain (len body) Hn) as [Hpl Ha]. pose proof (content_length_size (len body)) as Hs.
  rewrite frame_parts.
  apply (message_intro _ HEADER_END_CRLF body);
    [|by apply header_end_crlf| |by apply from_utf8_ascii|by apply content_length_header|done].
  - split_and!; [lia| |by vm_compute].
    rewrite len_app. change (len HEADER_SENTINEL) with 15. change (len HEADER_END_CRLF) with 4. lia.
  - rewrite len_app. change (len HEADER_END_CRLF) with 4. unfold MAX_HEADER_BYTES. lia.
Qed.

(** ** Lemmas: what each step leaves *)

(** The announced length of a header block that the framer accepts. *)
Definition announces (buf : list Z) (e n : Z) : Prop :=
  from_utf8 (ztake e buf) = true /\ parse_content_length (ztake e buf) = Found n /\ n <= MAX_FRAME_SIZE.

Lemma consume_shrinks buf e l : 0 <= e + l <= len buf -> len (consume_header_block buf e l) <= len buf - (e + l).
Proof.
  intros H. unfold consume_header_block. rewrite Z.min_l by lia.
  pose proof (resync_shrinks (zdrop (e + l) buf)) as Hr. rewrite len_zdrop in Hr by lia. lia.
Qed.
Lemma parse_lines_nonneg lines found n :
  (forall m, found = Some m -> 0 <= m) -> parse_lines found lines = Found n -> 0 <= n.
Proof.
  assert (forall s acc m, 0 <= acc -> parse_digits acc s = Some m -> 0 <= m) as Hd.
  { induction s as [|c s IH]; intros acc m Ha; simpl; [by intros [= <-]|]. unfold is_digit.
    destruct ((48 <=? c) && (c <=? 57)) eqn:E; [|done]. apply andb_true_iff in E as [E1%Z.leb_le E2%Z.leb_le].
    destruct (_ <=? usize_max); [|done]. apply IH. lia. }
  assert (forall s m, parse_usize s = Some m -> 0 <= m) as Hu.
  { intros s m. unfold parse_usize. destruct s as [|c s]; [done|]. repeat case_match; try done; by apply Hd. }
  revert found. induction lines as [|raw lines IH]; intros found Hf; cbn [parse_lines].
  { destruct found as [m|]; [|done]. intros [= <-]. by apply Hf. }
  destruct (_ =? 0); [by apply IH|]. destruct (split_once _ _) as [[name value]|]; [|done].
  destruct (eq_ignore_ascii_case _ _); [|by apply IH].
  destruct (parse_usize (trim value)) as [k|] eqn:E; [|done]. apply IH. intros m [= <-]. by apply Hu in E.
Qed.
Lemma announces_nonneg buf e n : announces buf e n -> 0 <= n.
Proof. intros (_ & H & _). by eapply parse_lines_nonneg in H. Qed.

Lemma try_frame_cases buf e l :
  find_header_end buf = Some (e, l) -> len buf <= isize_max ->
  match try_frame buf e l with
  | (Ok None, buf') => buf' = buf /\ exists n, announces buf e n /\ len buf < e + l + n
  | (Ok (Some body), buf') => exists n, announces buf e n /\ e + l + n <= len buf /\ len buf' <= len buf - (e + l + n)
  | (Err _, buf') => len buf' <= len buf - (e + l) /\ forall n, ~ announces buf e n
  end.
Proof.
  intros He Hb. apply find_header_end_bytes in He as (H0 & H1 & Hl & _).
  pose proof (consume_shrinks buf e l ltac:(lia)) as Hc.
  unfold try_frame. destruct (from_utf8 (ztake e buf)) eqn:Eu; simpl; [|split; [done|]; by intros n [? _]; congruence].
  destruct (parse_content_length (ztake e buf)) as [n| | |] eqn:Ep;
    [|split; [done|]; by intros n (_ & ? & _); congruence..].
  destruct (Z.ltb_spec MAX_FRAME_SIZE n) as [Hbig|Hn]; [split; [done|]; intros n' (_ & ? & ?); assert (n' = n) by congruence; lia|].
  assert (announces buf e n) as Ha by done. pose proof (announces_nonneg _ _ _ Ha).
  assert (MAX_FRAME_SIZE = 16777216 /\ isize_max = 9223372036854775807) as [E1 E2] by done. rewrite E1, E2 in *.
  rewrite !checked_add_Some by (unfold usize_max; lia).
  destruct (Z.ltb_spec (len buf) (e + l + n)); [by eauto|]. exists n. split; [done|]. split; [done|].
  pose proof (resync_shrinks (zdrop (e + l + n) buf)) as Hr. rewrite len_zdrop in Hr by lia. lia.
Qed.

(** The cases of one step, on the resynchronised buffer. *)
Lemma try_next_cases self :
  len self <= isize_max ->
  let buf := resync_if_needed self in
  match try_next self with
  | (Ok None, buf') => buf' = buf /\
      ((find_header_start buf = None /\ find_header_end buf = None /\ len buf <= MAX_DESYNC_BUFFER_BYTES) \/
       (find_header_start buf = Some 0 /\ find_header_end buf = None /\ len buf <= MAX_HEADER_BYTES) \/
       (find_header_start buf = Some 0 /\ exists e l n, find_header_end buf = Some (e, l) /\ announces buf e n /\
          len buf < e + l + n))
  | (Ok (Some body), buf') => find_header_start buf = Some 0 /\ exists e l n, find_header_end buf = Some (e, l) /\
      announces buf e n /\ e + l + n <= len buf /\ len buf' <= len buf - (e + l + n)
  | (Err _, buf') =>
      (find_header_start buf = Some 0 /\ find_header_end buf = None /\ MAX_HEADER_BYTES < len buf /\ buf' = []) \/
      exists e l, find_header_end buf = Some (e, l) /\ len buf' <= len buf - (e + l) /\
        (find_header_start buf = Some 0 -> forall n, ~ announces buf e n)
  end.
Proof.
  intros Hs buf. pose proof (resync_shrinks self) as Hsh. fold buf in Hsh.
  assert (find_header_start buf = Some 0 \/ find_header_start buf = None /\ len buf <= MAX_DESYNC_BUFFER_BYTES) as Hcase.
  { unfold buf. destruct (resync_spec self) as (k & -> & _ & _ & H). exact H. }
  unfold try_next. fold buf. destruct Hcase as [E|[E Hd]]; rewrite E; simpl.
  - destruct (find_header_end buf) as [[e l]|] eqn:He.
    + pose proof (try_frame_cases buf e l He ltac:(lia)) as Hf.
      destruct (try_frame buf e l) as [[[body|]|err] buf']; simpl.
      * split; [done|]. destruct Hf as (n & ? & ? & ?). by exists e, l, n.
      * destruct Hf as [-> (n & ? & ?)]. split; [done|]. right. right. split; [done|]. by exists e, l, n.
      * right. destruct Hf as [Hf Hn]. by exists e, l.
    + destruct (Z.ltb_spec MAX_HEADER_BYTES (len buf)); [by left|]. split; [done|]. right. by left.
  - destruct (find_header_end buf) as [[e l]|] eqn:He.
    + apply find_header_end_bytes in He as Hb. pose proof (consume_shrinks buf e l ltac:(lia)).
      destruct (from_utf8 _); simpl; right; by exists e, l.
    + split; [done|]. by left.
Qed.

(** Every result that is not a request for more bytes takes some away. *)
Lemma try_next_shrinks self :
  len self <= isize_max ->
  match try_next self with
  | (Ok None, buf') => len buf' <= len self
  | (_, buf') => len buf' < len self
  end.
Proof.
  intros Hs. pose proof (try_next_cases self Hs) as H. pose proof (resync_shrinks self) as Hr. simpl in H.
  destruct (try_next self) as [[[body|]|err] buf'].
  - destruct H as (_ & e & l & n & He & Ha & H1 & H2). apply find_header_end_bytes in He as (? & ? & Hl & _).
    apply announces_nonneg in Ha. lia.
  - destruct H as [-> _]. lia.
  - destruct H as [(_ & _ & Hm & ->)|(e & l & He & H2 & _)].
    + change (len (@nil Z)) with 0. unfold MAX_HEADER_BYTES in Hm. lia.
    + apply find_header_end_bytes in He as (? & ? & Hl & _). lia.
Qed.

(** ** Lemmas: how much the buffer holds *)

Lemma resync_push buf c : exists k, push buf c = zdrop k (buf ++ c) /\ 0 <= k <= len (buf ++ c) /\
  (find_header_start (push buf c) = Some 0 \/ find_header_start (push buf c) = None /\ len (push buf c) <= MAX_DESYNC_BUFFER_BYTES).
Proof. unfold push. destruct (resync_spec (buf ++ c)) as (k & -> & ? & _ & ?). by exists k. Qed.

Lemma marker_header_end buf needle i : needle = HEADER_END_CRLF \/ needle = HEADER_END_LF -> marker_at needle buf i ->
  find_header_end buf <> None.
Proof.
  intros Hn Hm. unfold find_header_end.
  pose proof (find_subslice_spec HEADER_END_CRLF buf ltac:(done)) as Mc.
  pose proof (find_subslice_spec HEADER_END_LF buf ltac:(done)) as Ml.
  destruct (find_subslice buf HEADER_END_CRLF), (find_subslice buf HEADER_END_LF); simpl; try done.
  destruct Hn as [->| ->]; [by destruct (Mc i)|by destruct (Ml i)].
Qed.
Lemma header_end_marker buf e l : find_header_end buf = Some (e, l) ->
  exists needle, (needle = HEADER_END_CRLF \/ needle = HEADER_END_LF) /\ marker_at needle buf e /\ l = len needle.
Proof.
  unfold find_header_end.
  pose proof (find_subslice_spec HEADER_END_CRLF buf ltac:(done)) as Mc.
  pose proof (find_subslice_spec HEADER_END_LF buf ltac:(done)) as Ml.
  destruct (find_subslice buf HEADER_END_CRLF) as [i|], (find_subslice buf HEADER_END_LF) as [j|]; simpl; try done.
  - destruct (i <=? j); intros [= <- <-]; [exists HEADER_END_CRLF|exists HEADER_END_LF]; naive_solver.
  - intros [= <- <-]. exists HEADER_END_CRLF. naive_solver.
  - intros [= <- <-]. exists HEADER_END_LF. naive_solver.
Qed.

Section memory.
Context (chunk : Z) (Hchunk : 0 <= chunk <= MAX_FRAME_SIZE).

(** The buffer when more bytes are needed, reads being of [chunk] bytes. *)
Definition quiet (buf : list Z) : Prop :=
  (find_header_start buf = None /\ find_header_end buf = None /\ len buf <= MAX_DESYNC_BUFFER_BYTES) \/
  (find_header_start buf = Some 0 /\ find_header_end buf = None /\ len buf <= MAX_HEADER_BYTES) \/
  (find_header_start buf = Some 0 /\ exists e l n, find_header_end buf = Some (e, l) /\ announces buf e n /\
     len buf < e + l + n /\ e + l <= MAX_HEADER_BYTES + chunk).
(** The buffer after a result: what is left of the last read. *)
Definition small (buf : list Z) : Prop := len buf <= chunk + 15.

Lemma limits : MAX_DESYNC_BUFFER_BYTES = 65536 /\ MAX_HEADER_BYTES = 4096 /\ MAX_FRAME_SIZE = 16777216 /\ isize_max = 9223372036854775807.
Proof using Type. done. Qed.

Lemma quiet_bound buf : quiet buf -> len buf <= MAX_HEADER_BYTES + chunk + MAX_FRAME_SIZE.
Proof using Hchunk.
  pose proof limits as (E1 & E2 & E3 & _). intros [H|[H|(_ & e & l & n & _ & Ha & H)]]; [lia|lia|].
  destruct Ha as (_ & _ & Ha). lia.
Qed.
Lemma try_next_small self :
  small self -> match try_next self with (Ok None, buf') => quiet buf' | (_, buf') => small buf' end.
Proof using Hchunk.
  pose proof limits as (E1 & E2 & E3 & E4). unfold small. intros Hs.
  assert (len self <= isize_max) as Hi by lia. pose proof (try_next_cases self Hi) as H. simpl in H.
  pose proof (try_next_shrinks self Hi) as Hsh. pose proof (resync_shrinks self) as Hr.
  destruct (try_next self) as [[[body|]|err] buf']; [lia| |lia].
  destruct H as [-> [H|[H|(H & e & l & n & He & Ha & Hn)]]]; [by left|by right; left|right; right].
  split; [done|]. exists e, l, n. split_and!; try done. apply find_header_end_bytes in He. lia.
Qed.

Lemma header_start_zero buf rest : find_header_start buf = Some 0 -> find_header_start (buf ++ rest) = Some 0.
Proof using Type.
  intros E. pose proof (find_header_start_spec buf) as H. rewrite E in H. destruct H as [H _].
  pose proof (find_header_start_spec (buf ++ rest)) as H'. pose proof (sentinel_fits _ _ H) as [_ Hl].
  assert (sentinel_at (buf ++ rest) 0) as H0 by (apply sentinel_app; [lia|done]).
  destruct (find_header_start (buf ++ rest)) as [k|]; [|by destruct (H' 0)].
  destruct H' as [Hk Hj]. f_equal. pose proof (sentinel_fits _ _ Hk). destruct (decide (k = 0)); [done|].
  destruct (Hj 0); [lia|done].
Qed.
Lemma resync_zero buf : find_header_start buf = Some 0 -> resync_if_needed buf = buf.
Proof using Type. unfold resync_if_needed. by intros ->. Qed.
Lemma try_next_headed buf :
  find_header_start buf = Some 0 ->
  try_next buf = match find_header_end buf with
                 | None => if MAX_HEADER_BYTES <? len buf then (Err InvalidHeader, []) else (Ok None, buf)
                 | Some (e, l) => try_frame buf e l
                 end.
Proof using Type. intros E. unfold try_next. rewrite (resync_zero _ E), E. reflexivity. Qed.
Lemma header_end_crosses buf c e l :
  find_header_end buf = None -> find_header_end (buf ++ c) = Some (e, l) -> len buf < e + l.
Proof using Type.
  intros Hn Hs. apply Z.nle_gt. intros Hle. pose proof (find_header_end_bytes _ _ _ Hs) as (H0 & _ & _ & _).
  unfold find_header_end in Hn, Hs.
  pose proof (find_subslice_app HEADER_END_CRLF buf c ltac:(done)) as Hc.
  pose proof (find_subslice_app HEADER_END_LF buf c ltac:(done)) as Hl.
  assert (len HEADER_END_CRLF = 4 /\ len HEADER_END_LF = 2) as [L4 L2] by done. rewrite L4, L2 in *.
  destruct (find_subslice buf HEADER_END_CRLF), (find_subslice buf HEADER_END_LF); simpl in Hn; try done.
  destruct (find_subslice (buf ++ c) HEADER_END_CRLF) as [i|], (find_subslice (buf ++ c) HEADER_END_LF) as [j|]; simpl in Hs; try done.
  - specialize (Hc i eq_refl). specialize (Hl j eq_refl). destruct (i <=? j); injection Hs as <- <-; lia.
  - specialize (Hc i eq_refl). injection Hs as <- <-. lia.
  - specialize (Hl j eq_refl). injection Hs as <- <-. lia.
Qed.
Lemma announces_app buf rest e n : 0 <= e <= len buf -> announces (buf ++ rest) e n <-> announces buf e n.
Proof using Type. intros He. unfold announces, ztake, len in *. by rewrite take_app_le by lia. Qed.
Lemma announces_unique buf e n n' : announces buf e n -> announces buf e n' -> n = n'.
Proof using Type. intros (_ & H & _) (_ & H' & _). congruence. Qed.

(** A read after a request for more bytes. *)
Lemma quiet_push_headed buf c :
  quiet buf -> find_header_start buf = Some 0 -> len c <= chunk ->
  match try_next (push buf c) with (Ok None, buf') => quiet buf' | (_, buf') => small buf' end.
Proof using Hchunk.
  pose proof limits as (E1 & E2 & E3 & E4). intros Hq Hz Hc. pose proof (quiet_bound buf Hq) as Hb.
  pose proof (header_start_zero buf c Hz) as Hz'. pose proof (resync_zero _ Hz') as Hr. unfold push. rewrite Hr.
  pose proof (len_app buf c) as Hl. assert (len (buf ++ c) <= isize_max) as Hi by lia.
  pose proof (try_next_cases (buf ++ c) Hi) as H. simpl in H. rewrite Hr, Hz' in H.
  destruct (try_next (buf ++ c)) as [r buf']. unfold small.
  destruct Hq as [(H1 & _)|[(_ & Hn & Hle)|(_ & e0 & l0 & n0 & He0 & Ha0 & Hlt & Hel)]]; [congruence| |].
  - assert (forall e l, find_header_end (buf ++ c) = Some (e, l) -> len buf < e + l /\ e + l <= len (buf ++ c)) as Hx.
    { intros e l He. split; [by eapply header_end_crosses|]. apply find_header_end_bytes in He. lia. }
    destruct r as [[body|]|err].
    + destruct H as (_ & e & l & n & He & Ha & ? & ?). apply announces_nonneg in Ha. apply Hx in He. lia.
    + destruct H as [-> [(? & _)|[H|(_ & e & l & n & He & Ha & ?)]]]; [done|right; left; naive_solver|right; right].
      split; [done|]. exists e, l, n. split_and!; try done. apply Hx in He. lia.
    + destruct H as [(_ & _ & _ & ->)|(e & l & He & ? & _)]; [change (len (@nil Z)) with 0; lia|].
      apply Hx in He. lia.
  - pose proof (find_header_end_app buf c _ _ He0) as He. pose proof (find_header_end_bytes _ _ _ He0) as (? & ? & ? & _).
    assert (announces (buf ++ c) e0 n0) as Ha by (apply announces_app; [lia|done]).
    destruct r as [[body|]|err].
    + destruct H as (_ & e & l & n & He' & Ha' & ? & ?). rewrite He in He'. injection He' as <- <-.
      pose proof (announces_unique _ _ _ _ Ha Ha'). lia.
    + destruct H as [-> [(? & _)|[(_ & ? & _)|(_ & e & l & n & He' & Ha' & ?)]]]; [done|congruence|right; right].
      split; [done|]. exists e, l, n. rewrite He in He'. injection He' as <- <-. done.
    + destruct H as [(_ & ? & _)|(e & l & He' & _ & Hno)]; [congruence|].
      rewrite He in He'. injection He' as <- <-. by destruct (Hno eq_refl n0).
Qed.
Lemma quiet_push_headless buf c :
  quiet buf -> find_header_start buf = None -> len c <= chunk ->
  match try_next (push buf c) with (Ok None, buf') => quiet buf' | (_, buf') => small buf' end.
Proof using Hchunk.
  pose proof limits as (E1 & E2 & E3 & E4). intros Hq Hz Hc. pose proof (quiet_bound buf Hq) as Hb.
  assert (find_header_end buf = None) as Hn by (destruct Hq as [(_ & ? & _)|[(? & _)|(? & _)]]; congruence).
  pose proof (len_app buf c) as Hl. pose proof (len_nonneg c) as Hc0. destruct (resync_push buf c) as (k & Ep & Hk & [Hs|[Hs Hd]]).
  - apply try_next_small. unfold small. rewrite Ep, len_zdrop by lia.
    assert (len buf < k + 15); [|lia]. apply Z.nle_gt. intros Hle.
    pose proof (find_header_start_spec (push buf c)) as H. rewrite Hs in H. destruct H as [H _]. rewrite Ep in H.
    apply (proj1 (sentinel_drop (buf ++ c) k 0 Hk ltac:(lia))) in H. rewrite Z.add_0_r in H.
    apply (proj1 (sentinel_app buf c k ltac:(lia))) in H.
    pose proof (find_header_start_spec buf) as Hf. rewrite Hz in Hf. by destruct (Hf k).
  - assert (len (push buf c) <= isize_max) as Hi by (rewrite Ep, len_zdrop by lia; lia).
    pose proof (try_next_cases (push buf c) Hi) as H. simpl in H.
    assert (resync_if_needed (push buf c) = push buf c) as Hr.
    { unfold resync_if_needed. rewrite Hs. destruct (Z.ltb_spec MAX_DESYNC_BUFFER_BYTES (len (push buf c))); [lia|done]. }
    rewrite Hr, Hs in H. destruct (try_next (push buf c)) as [[[body|]|err] buf'].
    + by destruct H as [? _].
    + destruct H as [-> [H|[(? & _)|(? & _)]]]; [left; naive_solver|done|done].
    + destruct H as [(? & _)|(e & l & He & Hle & _)]; [done|]. unfold small.
      destruct (header_end_marker _ _ _ He) as (needle & Hnd & Hm & ->).
      assert (len buf < k + e + len needle); [|rewrite Ep, len_zdrop in Hle by lia; lia].
      apply Z.nle_gt. intros Hin. rewrite Ep in Hm.
      assert (0 <= e) as He0 by (by destruct Hm).
      apply (proj1 (at_window_drop _ _ (buf ++ c) k e Hk He0)) in Hm.
      apply (proj1 (at_window_app _ _ buf c (k + e) (len_nonneg needle) Hin)) in Hm.
      by apply (marker_header_end buf needle (k + e)).
Qed.
End memory.
