(* ===== verification/Incoming.v ===== *)
(** * Incoming messages (perl-lsp-rs-core/src/transport/incoming.rs)

    The stages above the framer: one frame body becomes a request or one
    typed error, and the readers report one outcome per frame.  JSON is third
    party and an interface ([Json]): its parser, the shape of its values and
    the derived deserialiser of requests.  A transport is the list of the
    results its reads return. *)

From Stdlib Require Import String.
From stdpp Require Import base numbers list.
From S2P Require Import Prelude Utf8 StdText ParseErrors Framing.

(** ** JSON *)

(** [JsonRpcId] and [JsonRpcRequest] (protocol/jsonrpc.rs) *)
Inductive JsonRpcId := IdInteger (n : Z) | IdString (s : list Z).
Record JsonRpcRequest (Value : Type) := mkRequest {
  jsonrpc : list Z;
  id : option JsonRpcId;
  method : list Z;
  params : option Value;
}.
Arguments mkRequest {Value}.
Arguments jsonrpc {Value}.
Arguments id {Value}.
Arguments method {Value}.
Arguments params {Value}.

(** The variant of a [serde_json::Value], a number with its [as_i64]. *)
Inductive JsonShape := ShapeNull | ShapeBool | ShapeNumber (as_i64 : option Z) | ShapeString (s : list Z) | ShapeArray | ShapeObject.
Class Json := {
  Value : Type;
  from_str : list Z -> result (Z * Z) Value;
  shape : Value -> JsonShape;
  get : Value -> list Z -> option Value;
  null : Value;
  json_object : list (list Z * Value) -> Value;
  request_from_value : Value -> option (JsonRpcRequest Value);
}.

Definition JSONRPC_VERSION : list Z := bytes_of "2.0".
Definition CLIENT_RESPONSE_METHOD : list Z := bytes_of "$/perl-lsp/clientResponse".
Definition READ_CHUNK_BYTES : Z := 8 * 1024.

(** ** Errors *)

Inductive IncomingMessageStage := StageFraming | StageEncoding | StageJson | StageJsonRpcShape.
Inductive IncomingMessageError :=
| IncomingFraming (error : FramingError)
| InvalidUtf8 (payload_bytes valid_up_to : Z)
| MalformedJson (payload_bytes line column : Z)
| InvalidMessageShape (payload_bytes : Z) (recoverable_id : option JsonRpcId)
| UnsupportedBatch (payload_bytes : Z)
| InvalidJsonRpc (payload_bytes : Z) (recoverable_id : option JsonRpcId).

Definition stage (self : IncomingMessageError) : IncomingMessageStage :=
  match self with
  | IncomingFraming _ => StageFraming
  | InvalidUtf8 _ _ => StageEncoding
  | MalformedJson _ _ _ => StageJson
  | InvalidMessageShape _ _ | UnsupportedBatch _ | InvalidJsonRpc _ _ => StageJsonRpcShape
  end.
Definition payload_bytes_of (self : IncomingMessageError) : option Z :=
  match self with
  | IncomingFraming (FrameTooLarge length) => Some length
  | IncomingFraming _ => None
  | InvalidUtf8 n _ | MalformedJson n _ _ | InvalidMessageShape n _ | UnsupportedBatch n | InvalidJsonRpc n _ => Some n
  end.
Definition recoverable_id_of (self : IncomingMessageError) : option JsonRpcId :=
  match self with
  | InvalidMessageShape _ i | InvalidJsonRpc _ i => i
  | IncomingFraming _ | InvalidUtf8 _ _ | MalformedJson _ _ _ | UnsupportedBatch _ => None
  end.
Definition incoming_error_class (self : IncomingMessageError) : ErrorCategory :=
  match self with
  | IncomingFraming error => framing_error_class error
  | InvalidUtf8 _ _ | MalformedJson _ _ _ | InvalidMessageShape _ _ | UnsupportedBatch _ | InvalidJsonRpc _ _ => Protocol
  end.

Section incoming.
Context `{Json}.
Notation request := (JsonRpcRequest Value).

(** ** Decoding one body *)

(** [JsonRpcId::from_value] *)
Definition id_from_value (value : Value) : option JsonRpcId :=
  match shape value with
  | ShapeNumber as_i64 => IdInteger <$> as_i64
  | ShapeString s => Some (IdString s)
  | _ => None
  end.
Definition jsonrpc_field_is_string (value : Value) : bool :=
  match get value (bytes_of "jsonrpc") with
  | Some v => match shape v with ShapeString _ => true | _ => false end
  | None => false
  end.
Definition decode_jsonrpc_object (value : Value) (payload_bytes : Z) : result IncomingMessageError request :=
  let recoverable_id := get value (bytes_of "id") ≫= id_from_value in
  match get value (bytes_of "method") with
  | Some _ =>
    if negb (jsonrpc_field_is_string value) then Err (InvalidJsonRpc payload_bytes recoverable_id)
    else match request_from_value value with
    | Some r => Ok r
    | None => Err (InvalidMessageShape payload_bytes recoverable_id)
    end
  | None =>
    match get value (bytes_of "id") with
    | Some i =>
      Ok (mkRequest JSONRPC_VERSION None CLIENT_RESPONSE_METHOD
        (Some (json_object [(bytes_of "id", i);
                            (bytes_of "result", default null (get value (bytes_of "result")));
                            (bytes_of "error", default null (get value (bytes_of "error")))])))
    | None => Err (InvalidMessageShape payload_bytes None)
    end
  end.
Definition decode_jsonrpc_value (value : Value) (payload_bytes : Z) : result IncomingMessageError request :=
  match shape value with
  | ShapeArray => Err (UnsupportedBatch payload_bytes)
  | ShapeObject => decode_jsonrpc_object value payload_bytes
  | _ => Err (InvalidMessageShape payload_bytes None)
  end.
Definition decode_incoming_body (body : list Z) : result IncomingMessageError request :=
  if negb (from_utf8 body) then Err (InvalidUtf8 (len body) (valid_up_to body))
  else match from_str body with
  | Err (line, column) => Err (MalformedJson (len body) line column)
  | Ok value => decode_jsonrpc_value value (len body)
  end.

(** ** The stateful reader *)

Context {io_error : Type} (is_unexpected_eof : io_error -> bool).

Inductive read_result := ReadBytes (bytes : list Z) | ReadFailed (error : io_error).
Notation outcome_of := (option (result IncomingMessageError request)).

(** One loop iteration per read; the end of the list is the end of the file. *)
Fixpoint read_next_outcome (framer : list Z) (reads : list read_result)
    : result io_error outcome_of * list Z * list read_result :=
  match try_next framer with
  | (Ok (Some body), framer) => (Ok (Some (decode_incoming_body body)), framer, reads)
  | (Err error, framer) => (Ok (Some (Err (IncomingFraming error))), framer, reads)
  | (Ok None, framer) =>
    match reads with
    | [] => (Ok None, framer, [])
    | ReadFailed error :: reads => (Err error, framer, reads)
    | ReadBytes bytes :: reads =>
      if len bytes =? 0 then (Ok None, framer, reads) else read_next_outcome (push framer bytes) reads
    end
  end.

(** [read_next] skips the frames that failed.  The fuel counts outcomes;
    [read_fuel] is enough because each outcome takes bytes away. *)
Definition read_size (r : read_result) : Z := match r with ReadBytes bytes => len bytes | ReadFailed _ => 0 end.
Definition bytes_left (framer : list Z) (reads : list read_result) : Z :=
  len framer + sum_Z (read_size <$> reads).
Definition read_fuel (framer : list Z) (reads : list read_result) : nat := S (Z.to_nat (bytes_left framer reads)).
Fixpoint read_next_loop (fuel : nat) (framer : list Z) (reads : list read_result)
    : outcome (result io_error (option request) * list Z * list read_result) :=
  match fuel with
  | O => Panic
  | S fuel =>
    match read_next_outcome framer reads with
    | (Err e, framer, reads) => mret (Err e, framer, reads)
    | (Ok (Some (Ok r)), framer, reads) => mret (Ok (Some r), framer, reads)
    | (Ok (Some (Err _)), framer, reads) => read_next_loop fuel framer reads
    | (Ok None, framer, reads) => mret (Ok None, framer, reads)
    end
  end.
Definition read_next (framer : list Z) (reads : list read_result) :=
  read_next_loop (read_fuel framer reads) framer reads.

(** ** One-shot reading from a buffered reader *)

(** The pieces the reader will buffer, none of them empty, and how the input
    ends after them. *)
Record BufReader := mkBufReader { pieces : list (list Z); failure : option io_error }.
Definition with_pieces (self : BufReader) (ps : list (list Z)) : BufReader := mkBufReader ps (failure self).
Definition cons_piece (p : list Z) (ps : list (list Z)) : list (list Z) := match p with [] => ps | _ => p :: ps end.
(** What a read past the last piece returns. *)
Definition at_end {A} (self : BufReader) (a : A) : result io_error A :=
  match failure self with Some e => Err e | None => Ok a end.

Definition fill_buf (self : BufReader) : result io_error (list Z) :=
  match pieces self with p :: _ => Ok p | [] => at_end self [] end.

(** [read_until(b'\n')] appended to [line]: stops after the first LF. *)
Fixpoint until_lf (line : list Z) (ps : list (list Z)) : list Z * list (list Z) * bool :=
  match ps with
  | [] => (line, [], false)
  | p :: ps =>
    match split_once LF p with
    | Some (a, b) => (line ++ a ++ [LF], cons_piece b ps, true)
    | None => until_lf (line ++ p) ps
    end
  end.
Definition read_until_lf (self : BufReader) : result io_error (list Z) * BufReader :=
  let '(line, ps, found) := until_lf [] (pieces self) in
  (if found then Ok line else at_end self line, with_pieces self ps).

(** The first [n] bytes of the pieces, or all of them. *)
Fixpoint take_bytes (n : Z) (ps : list (list Z)) : list Z * list (list Z) :=
  match ps with
  | [] => ([], [])
  | p :: ps' =>
    if n <=? 0 then ([], ps)
    else if n <? len p then (ztake n p, zdrop n p :: ps')
    else let '(bytes, rest) := take_bytes (n - len p) ps' in (p ++ bytes, rest)
  end.
(** [read_exact]; [None] is the [UnexpectedEof] of a short input. *)
Definition read_exact (self : BufReader) (n : Z) : result io_error (option (list Z)) * BufReader :=
  let '(bytes, ps) := take_bytes n (pieces self) in
  (if len bytes =? n then Ok (Some bytes) else at_end self None, with_pieces self ps).
(** [io::copy(&mut reader.take(n), &mut io::sink())] *)
Definition skip_bytes (self : BufReader) (n : Z) : result io_error unit * BufReader :=
  let '(bytes, ps) := take_bytes n (pieces self) in
  (if len bytes =? n then Ok tt else at_end self tt, with_pieces self ps).

Definition is_header_terminator (line : list Z) : bool :=
  bool_decide (line = [13; 10]) || bool_decide (line = [10]).
Definition strip_last (b : Z) (line : list Z) : list Z := default line (strip_suffix line b).
Definition trim_header_crlf (line : list Z) : list Z := strip_last 13 (strip_last 10 line).

Definition pieces_size (self : BufReader) : Z := sum_Z (len <$> pieces self).
Definition line_fuel (self : BufReader) : nat := S (Z.to_nat (pieces_size self)).
Fixpoint drain_loop (fuel : nat) (self : BufReader) : outcome (result io_error unit * BufReader) :=
  match fuel with
  | O => Panic
  | S fuel =>
    match read_until_lf self with
    | (Err e, self) => mret (Err e, self)
    | (Ok line, self) =>
      if (len line =? 0) || is_header_terminator line then mret (Ok tt, self) else drain_loop fuel self
    end
  end.
Definition drain_to_header_end (self : BufReader) := drain_loop (line_fuel self) self.

Definition starts_with_ascii_prefix (bytes sentinel : list Z) : bool :=
  if len bytes =? 0 then false
  else
    let prefix_len := Z.min (len bytes) (len sentinel) in
    eq_ignore_ascii_case (ztake prefix_len bytes) (ztake prefix_len sentinel).
Definition looks_like_lsp_header_prefix (bytes : list Z) : bool :=
  starts_with_ascii_prefix bytes (bytes_of "content-length:") ||
  starts_with_ascii_prefix bytes (bytes_of "content-type:").
Definition recover_after_malformed_header (self : BufReader) (claimed_length : option Z)
    : result io_error unit * BufReader :=
  match claimed_length with
  | Some length =>
    if (0 <? length) && (length <=? MAX_FRAME_SIZE) then
      match fill_buf self with
      | Err e => (Err e, self)
      | Ok available =>
        if (len available =? 0) || looks_like_lsp_header_prefix available then (Ok tt, self)
        else skip_bytes self length
      end
    else (Ok tt, self)
  | None => (Ok tt, self)
  end.

(** The header loop: either the announced length at the end of the header,
    or the outcome of the whole call. *)
Inductive header_outcome :=
| HeaderEnd (content_length : option Z)
| HeaderDone (r : result io_error outcome_of).
Fixpoint header_loop (fuel : nat) (content_length : option Z) (self : BufReader)
    : outcome (header_outcome * BufReader) :=
  match fuel with
  | O => Panic
  | S fuel =>
    match read_until_lf self with
    | (Err e, self) => mret (HeaderDone (Err e), self)
    | (Ok line, self) =>
      if len line =? 0 then mret (HeaderDone (Ok None), self)
      else if is_header_terminator line then mret (HeaderEnd content_length, self)
      else
        let header := trim_header_crlf line in
        if negb (from_utf8 header) then
          '(r, self) ← drain_to_header_end self;
          match r with
          | Err e => mret (HeaderDone (Err e), self)
          | Ok _ =>
            let '(r, self) := recover_after_malformed_header self content_length in
            mret (HeaderDone (match r with
                              | Err e => Err e
                              | Ok _ => Ok (Some (Err (IncomingFraming InvalidHeaderUtf8)))
                              end), self)
          end
        else
          match split_once 58 header with
          | Some (name, value) =>
            if eq_ignore_ascii_case (trim name) (bytes_of "Content-Length") then
              match parse_usize (trim value) with
              | Some length => header_loop fuel (Some length) self
              | None => mret (HeaderDone (Ok (Some (Err (IncomingFraming InvalidContentLength)))), self)
              end
            else header_loop fuel content_length self
          | None => header_loop fuel content_length self
          end
    end
  end.
Definition read_message_outcome (self : BufReader) : outcome (result io_error outcome_of * BufReader) :=
  '(h, self) ← header_loop (line_fuel self) None self;
  match h with
  | HeaderDone r => mret (r, self)
  | HeaderEnd None => mret (Ok (Some (Err (IncomingFraming MissingContentLength))), self)
  | HeaderEnd (Some length) =>
    if MAX_FRAME_SIZE <? length then mret (Ok (Some (Err (IncomingFraming (FrameTooLarge length)))), self)
    else
      let '(r, self) := read_exact self length in
      mret (match r with
            | Err e => if is_unexpected_eof e then Ok None else Err e
            | Ok None => Ok None
            | Ok (Some body) => Ok (Some (decode_incoming_body body))
            end, self)
  end.
(** [read_message]: a failed frame and the end of the file look the same. *)
Definition read_message (self : BufReader) : outcome (result io_error (option request) * BufReader) :=
  '(r, self) ← read_message_outcome self;
  mret (match r with
        | Ok (Some (Ok r)) => Ok (Some r)
        | Ok (Some (Err _)) | Ok None => Ok None
        | Err e => Err e
        end, self).
End incoming.

(** ** Lemmas: the buffer between reads *)

Lemma chunk_limit : 0 <= READ_CHUNK_BYTES <= MAX_FRAME_SIZE.
Proof. done. Qed.

(** The next result leaves the buffer quiet or small. *)
Definition settles (buf : list Z) : Prop :=
  len buf <= isize_max /\
  match try_next buf with (Ok None, buf') => quiet READ_CHUNK_BYTES buf' | (_, buf') => small READ_CHUNK_BYTES buf' end.

Lemma small_settles buf : small READ_CHUNK_BYTES buf -> settles buf.
Proof.
  intros Hs. split; [unfold small, READ_CHUNK_BYTES, isize_max in *; lia|]. by apply try_next_small; [apply chunk_limit|].
Qed.
Lemma push_shrinks buf c : len (push buf c) <= len buf + len c.
Proof. unfold push. rewrite resync_shrinks, len_app. done. Qed.
Lemma quiet_push_settles buf c :
  quiet READ_CHUNK_BYTES buf -> len c <= READ_CHUNK_BYTES -> settles (push buf c).
Proof.
  intros Hq Hc. split.
  - pose proof (quiet_bound _ chunk_limit buf Hq) as Hb. pose proof (push_shrinks buf c).
    unfold READ_CHUNK_BYTES, MAX_HEADER_BYTES, MAX_FRAME_SIZE, isize_max in *. lia.
  - destruct (find_header_start buf) as [i|] eqn:E.
    + assert (find_header_start buf = Some 0) by (destruct Hq as [(? & _)|[(? & _)|(? & _)]]; congruence).
      by apply quiet_push_headed; [apply chunk_limit|..].
    + by apply quiet_push_headless; [apply chunk_limit|..].
Qed.
Lemma resync_idempotent buf : resync_if_needed (resync_if_needed buf) = resync_if_needed buf.
Proof.
  destruct (resync_spec buf) as (k & -> & _ & _ & [E|[E Hl]]); unfold resync_if_needed; rewrite E; [done|].
  destruct (Z.ltb_spec MAX_DESYNC_BUFFER_BYTES (len (zdrop k buf))); [lia|done].
Qed.
Lemma quiet_settles buf : quiet READ_CHUNK_BYTES buf -> settles buf.
Proof.
  intros Hq. assert (try_next (push buf []) = try_next buf) as E.
  { unfold push. rewrite app_nil_r. unfold try_next. by rewrite resync_idempotent. }
  destruct (quiet_push_settles buf [] Hq) as [_ H]; [done|]. rewrite E in H. split; [|done].
  pose proof (quiet_bound _ chunk_limit buf Hq). unfold READ_CHUNK_BYTES, MAX_HEADER_BYTES, MAX_FRAME_SIZE, isize_max in *. lia.
Qed.

(** The states of the framer when it is driven as the reader drives it: more
    bytes are pushed, a chunk at a time, only after a request for them. *)
Inductive driven : bool -> list Z -> Prop :=
| driven_new : driven false framer_new
| driven_result q buf r buf' :
    driven q buf -> try_next buf = (r, buf') -> driven (match r with Ok None => true | _ => false end) buf'
| driven_bytes buf bytes :
    driven true buf -> len bytes <= READ_CHUNK_BYTES -> driven false (push buf bytes).

Lemma driven_settles q buf : driven q buf -> settles buf /\ (q = true -> quiet READ_CHUNK_BYTES buf).
Proof.
  induction 1 as [|q buf r buf' Hd [[_ IH] _] E|buf bytes Hd [_ IH] Hb].
  - split; [|done]. apply small_settles. unfold small. done.
  - rewrite E in IH. destruct r as [[body|]|err].
    + split; [|done]. by apply small_settles.
    + split; [|done]. by apply quiet_settles.
    + split; [|done]. by apply small_settles.
  - split; [|done]. apply quiet_push_settles; auto.
Qed.

Section reader_lemmas.
Context `{Json} {io_error : Type}.
Notation read_result := (@read_result io_error).
Implicit Types reads : list read_result.

(** Reads that succeed, of one chunk at most. *)
Definition sized (r : read_result) : Prop := match r with ReadBytes bytes => len bytes <= READ_CHUNK_BYTES | ReadFailed _ => True end.
Definition healthy (r : read_result) : Prop :=
  match r with ReadBytes bytes => bytes <> [] /\ len bytes <= READ_CHUNK_BYTES | ReadFailed _ => False end.
Definition bytes_of_reads reads : list Z :=
  concat ((fun r => match r with ReadBytes bytes => bytes | ReadFailed _ => [] end) <$> reads).

Lemma sum_reads_nonneg reads : 0 <= sum_Z (read_size <$> reads).
Proof.
  induction reads as [|r reads IH]; [done|]. rewrite fmap_cons. cbn [sum_Z].
  assert (0 <= read_size r) by (destruct r; [apply len_nonneg|done]). lia.
Qed.
Lemma bytes_left_cons framer bytes reads :
  bytes_left framer (ReadBytes bytes :: reads) = len framer + (len bytes + sum_Z (read_size <$> reads)).
Proof. reflexivity. Qed.
Lemma bytes_left_nonneg framer reads : 0 <= bytes_left framer reads.
Proof. unfold bytes_left. pose proof (len_nonneg framer). pose proof (sum_reads_nonneg reads). lia. Qed.

Lemma bytes_of_chunks chunks : bytes_of_reads (ReadBytes <$> chunks) = concat chunks.
Proof. unfold bytes_of_reads. induction chunks as [|c chunks IH]; [done|]. simpl. by rewrite <- IH. Qed.

(** One outcome takes bytes away, whatever the transport does. *)
Lemma outcome_shrinks reads : forall framer,
  settles framer -> Forall sized reads ->
  match read_next_outcome framer reads with
  | (Ok (Some _), framer', reads') => small READ_CHUNK_BYTES framer' /\ Forall sized reads' /\
      bytes_left framer' reads' < bytes_left framer reads
  | _ => True
  end.
Proof.
  induction reads as [|r reads IH]; intros framer [Hi Ht] Hz; cbn [read_next_outcome];
    pose proof (try_next_shrinks framer Hi) as Hs; destruct (try_next framer) as [[[body|]|err] framer']; try done.
  - split_and!; [done..|]. unfold bytes_left. lia.
  - split_and!; [done..|]. unfold bytes_left. lia.
  - split_and!; [done..|]. unfold bytes_left. lia.
  - apply Forall_cons in Hz as [Hr Hz]. destruct r as [bytes|e]; [|done]. destruct (len bytes =? 0); [done|].
    specialize (IH (push framer' bytes) (quiet_push_settles _ _ Ht Hr) Hz).
    destruct (read_next_outcome (push framer' bytes) reads) as [[[[o|]|e] f] rs]; try done.
    destruct IH as (? & ? & Hlt). split_and!; [done..|]. pose proof (push_shrinks framer' bytes).
    rewrite bytes_left_cons. unfold bytes_left in *. lia.
  - split_and!; [done..|]. unfold bytes_left. lia.
Qed.

(** One outcome of a transport that carries frames. *)
Lemma outcome_carries reads : forall framer bodies,
  settles framer -> Forall healthy reads -> carries (framer ++ bytes_of_reads reads) bodies ->
  match read_next_outcome framer reads with
  | (Ok (Some o), framer', reads') => Forall healthy reads' /\
      ((exists body bodies', bodies = body :: bodies' /\ o = decode_incoming_body body /\
         carries (framer' ++ bytes_of_reads reads') bodies') \/
       (exists e, o = Err (IncomingFraming e) /\ carries (framer' ++ bytes_of_reads reads') bodies))
  | (Ok None, _, _) => bodies = []
  | (Err _, _, _) => False
  end.
Proof.
  induction reads as [|r reads IH]; intros framer bodies [Hi Ht] Hh Hc; cbn [read_next_outcome];
    pose proof (try_next_carries framer _ bodies Hc) as Hn; destruct (try_next framer) as [[[body|]|err] framer'].
  - split; [done|]. left. destruct Hn as (bodies' & -> & Hn). by exists body, bodies'.
  - by apply Hn.
  - split; [done|]. right. by exists err.
  - split; [done|]. left. destruct Hn as (bodies' & -> & Hn). by exists body, bodies'.
  - apply Forall_cons in Hh as [Hr Hh]. destruct r as [bytes|e]; [|done]. destruct Hr as [Hne Hr].
    destruct (Z.eqb_spec (len bytes) 0) as [Hz%len_zero_nil|Hz]; [done|]. destruct Hn as [Hn _].
    apply IH; [by apply quiet_push_settles|done|]. unfold push. apply resync_carries.
    by rewrite <- app_assoc.
  - split; [done|]. right. by exists err.
Qed.
End reader_lemmas.

(** ** What a caller of the reader sees *)

Section callers.
Context `{Json} {io_error : Type}.
Notation read_result := (@read_result io_error).
Implicit Types reads : list read_result.

(** Every outcome until the end of the input. *)
Fixpoint read_all (fuel : nat) (framer : list Z) reads : outcome (list (result IncomingMessageError (JsonRpcRequest Value))) :=
  match fuel with
  | O => Panic
  | S fuel =>
    match read_next_outcome framer reads with
    | (Ok (Some o), framer, reads) => l ← read_all fuel framer reads; mret (o :: l)
    | _ => mret []
    end
  end.
(** Every request until the end of the input. *)
Fixpoint read_requests (fuel : nat) (framer : list Z) reads : outcome (list (JsonRpcRequest Value)) :=
  match fuel with
  | O => Panic
  | S fuel =>
    '(r, framer, reads) ← read_next framer reads;
    match r with
    | Ok (Some request) => l ← read_requests fuel framer reads; mret (request :: l)
    | _ => mret []
    end
  end.

Definition is_framing (o : result IncomingMessageError (JsonRpcRequest Value)) : bool :=
  match o with Err (IncomingFraming _) => true | _ => false end.
Definition decoded (body : list Z) : option (JsonRpcRequest Value) :=
  match decode_incoming_body body with Ok r => Some r | Err _ => None end.

Lemma decode_not_framing body : is_framing (decode_incoming_body body) = false.
Proof.
  unfold decode_incoming_body. destruct (negb _); [done|]. destruct (from_str body) as [v|[line col]]; [|done].
  unfold decode_jsonrpc_value, decode_jsonrpc_object. by repeat (case_match; try done).
Qed.

Lemma healthy_sized reads : Forall healthy reads -> Forall sized reads.
Proof. intros Hh. eapply Forall_impl; [exact Hh|]. by intros [b|e]; [intros [_ ?]|]. Qed.

Lemma read_all_carries fuel : forall framer reads bodies,
  settles framer -> Forall healthy reads -> carries (framer ++ bytes_of_reads reads) bodies ->
  bytes_left framer reads < Z.of_nat fuel ->
  exists outs, read_all fuel framer reads = Ret outs /\
    filter (fun o => is_framing o = false) outs = decode_incoming_body <$> bodies.
Proof.
  induction fuel as [|fuel IH]; intros framer reads bodies Hs Hh Hc Hf.
  { pose proof (bytes_left_nonneg framer reads). lia. }
  pose proof (outcome_shrinks reads framer Hs (healthy_sized _ Hh)) as Hsh.
  pose proof (outcome_carries reads framer bodies Hs Hh Hc) as Ho. cbn [read_all].
  destruct (read_next_outcome framer reads) as [[[[o|]|e] framer'] reads']; [| |done].
  - destruct Hsh as (Hsm & _ & Hlt). destruct Ho as [Hh' Ho].
    assert (bytes_left framer' reads' < Z.of_nat fuel) as Hf' by lia.
    destruct Ho as [(body & bodies' & -> & -> & Hc')|(e & -> & Hc')].
    + destruct (IH framer' reads' bodies' (small_settles _ Hsm) Hh' Hc' Hf') as (outs & -> & Eo).
      eexists. split; [done|]. rewrite filter_cons_True by apply decode_not_framing. by rewrite Eo.
    + destruct (IH framer' reads' bodies (small_settles _ Hsm) Hh' Hc' Hf') as (outs & -> & Eo).
      eexists. split; [done|]. by rewrite filter_cons_False.
  - subst bodies. by exists [].
Qed.

Lemma read_next_total fuel : forall framer reads,
  settles framer -> Forall sized reads -> bytes_left framer reads < Z.of_nat fuel ->
  exists r, read_next_loop fuel framer reads = Ret r.
Proof.
  induction fuel as [|fuel IH]; intros framer reads Hs Hz Hf.
  { pose proof (bytes_left_nonneg framer reads). lia. }
  pose proof (outcome_shrinks reads framer Hs Hz) as Hsh. cbn [read_next_loop].
  destruct (read_next_outcome framer reads) as [[[[[r|e]|]|e] framer'] reads']; try by eexists.
  destruct Hsh as (Hsm & Hz' & Hlt). apply IH; [by apply small_settles|done|lia].
Qed.

(** [read_next] returns the first body that decodes. *)
Lemma read_next_carries fuel : forall framer reads bodies,
  settles framer -> Forall healthy reads -> carries (framer ++ bytes_of_reads reads) bodies ->
  bytes_left framer reads < Z.of_nat fuel ->
  exists r framer' reads', read_next_loop fuel framer reads = Ret (Ok r, framer', reads') /\
    match r with
    | Some request => exists bodies', omap decoded bodies = request :: omap decoded bodies' /\
        Forall healthy reads' /\ settles framer' /\ carries (framer' ++ bytes_of_reads reads') bodies' /\
        bytes_left framer' reads' < bytes_left framer reads
    | None => omap decoded bodies = []
    end.
Proof.
  induction fuel as [|fuel IH]; intros framer reads bodies Hs Hh Hc Hf.
  { pose proof (bytes_left_nonneg framer reads). lia. }
  pose proof (outcome_shrinks reads framer Hs (healthy_sized _ Hh)) as Hsh.
  pose proof (outcome_carries reads framer bodies Hs Hh Hc) as Ho. cbn [read_next_loop].
  destruct (read_next_outcome framer reads) as [[[[o|]|e] framer'] reads']; [| |done].
  2:{ subst bodies. by eexists None, _, _. }
  destruct Hsh as (Hsm & _ & Hlt). destruct Ho as [Hh' Ho]. apply small_settles in Hsm.
  destruct Ho as [(body & bodies' & -> & Eo & Hc')|(e & -> & Hc')].
  - destruct o as [request|e].
    + eexists (Some request), _, _. split; [done|]. exists bodies'.
      split; [|done]. simpl. unfold decoded at 1. by rewrite <- Eo.
    + destruct (IH framer' reads' bodies' Hsm Hh' Hc') as (r & f & rs & -> & Hr); [lia|].
      eexists r, f, rs. split; [done|]. assert (omap decoded (body :: bodies') = omap decoded bodies') as ->.
      { simpl. unfold decoded at 1. by rewrite <- Eo. }
      destruct r; [|done]. destruct Hr as (b & ? & ? & ? & ? & ?). exists b. split_and!; try done. lia.
  - destruct (IH framer' reads' bodies Hsm Hh' Hc') as (r & f & rs & -> & Hr); [lia|].
    eexists r, f, rs. split; [done|]. destruct r; [|done]. destruct Hr as (b & ? & ? & ? & ? & ?).
    exists b. split_and!; try done. lia.
Qed.

Lemma read_requests_carries fuel : forall framer reads bodies,
  settles framer -> Forall healthy reads -> carries (framer ++ bytes_of_reads reads) bodies ->
  bytes_left framer reads < Z.of_nat fuel -> read_requests fuel framer reads = Ret (omap decoded bodies).
Proof.
  induction fuel as [|fuel IH]; intros framer reads bodies Hs Hh Hc Hf.
  { pose proof (bytes_left_nonneg framer reads). lia. }
  cbn [read_requests]. unfold read_next.
  destruct (read_next_carries (read_fuel framer reads) framer reads bodies Hs Hh Hc) as (r & f & rs & -> & Hr).
  { unfold read_fuel. pose proof (bytes_left_nonneg framer reads). lia. }
  simpl. destruct r as [request|]; [|by rewrite Hr].
  destruct Hr as (bodies' & -> & Hh' & Hs' & Hc' & Hlt). by rewrite (IH f rs bodies') by (done || lia).
Qed.

Lemma outcome_driven reads : forall q framer r framer' reads',
  driven q framer -> Forall sized reads -> read_next_outcome framer reads = (r, framer', reads') ->
  exists q', driven q' framer'.
Proof.
  induction reads as [|rd reads IH]; intros q framer r framer' reads' Hd Hz E; cbn [read_next_outcome] in E;
    destruct (try_next framer) as [[[body|]|err] f] eqn:Et; pose proof (driven_result _ _ _ _ Hd Et) as Hd';
    try (injection E as <- <- <-; by eexists).
  apply Forall_cons in Hz as [Hr Hz]. destruct rd as [bytes|e]; [|injection E as <- <- <-; by eexists].
  destruct (len bytes =? 0); [injection E as <- <- <-; by eexists|].
  eapply IH; [|done..]. by apply driven_bytes.
Qed.
End callers.

(** ** Lemmas: reading pieces *)

Section pieces_lemmas.
Context {io_error : Type}.
Notation BufReader := (@BufReader io_error).

Lemma concat_cons_piece p ps : concat (cons_piece p ps) = p ++ concat ps.
Proof. by destruct p. Qed.

Lemma split_once_inv sep s a b : split_once sep s = Some (a, b) -> s = a ++ sep :: b /\ Forall (fun x => x <> sep) a.
Proof.
  revert a b. induction s as [|x s IH]; intros a b; simpl; [done|].
  destruct (Z.eqb_spec x sep) as [->|Hne]; [by intros [= <- <-]|].
  destruct (split_once sep s) as [[a' b']|]; [|done]. intros [= <- <-].
  destruct (IH a' b' eq_refl) as [-> Hf]. split; [done|by constructor].
Qed.
Lemma split_once_none sep s : split_once sep s = None -> Forall (fun x => x <> sep) s.
Proof.
  induction s as [|x s IH]; simpl; [done|]. destruct (Z.eqb_spec x sep); [done|].
  destruct (split_once sep s) as [[]|]; [done|]. constructor; auto.
Qed.
Lemma split_first sep (a b a' b' : list Z) :
  Forall (fun x => x <> sep) a -> Forall (fun x => x <> sep) a' -> a ++ sep :: b = a' ++ sep :: b' -> a = a' /\ b = b'.
Proof.
  intros Ha Ha' E. pose proof (split_once_app sep a b Ha) as E1. rewrite E, split_once_app in E1 by done. by simplify_eq.
Qed.

(** A line is read whole, however the input is cut into pieces. *)
Lemma until_lf_line ps : forall line a b,
  Forall (fun x => x <> LF) a -> concat ps = a ++ LF :: b ->
  exists ps', until_lf line ps = (line ++ a ++ [LF], ps', true) /\ concat ps' = b.
Proof.
  induction ps as [|p ps IH]; intros line a b Ha E; simpl in *; [by destruct a|].
  destruct (split_once LF p) as [[x y]|] eqn:Es.
  - apply split_once_inv in Es as [-> Hx]. rewrite <- app_assoc in E. simpl in E.
    apply split_first in E as [-> <-]; [|done..]. eexists. by rewrite concat_cons_piece.
  - apply split_once_none in Es. assert (exists a', a = p ++ a' /\ concat ps = a' ++ LF :: b) as (a' & -> & E').
    { clear IH. revert a Ha E. induction Es as [|x p Hx _ IHp]; intros a Ha E; [by exists a|].
      destruct a as [|y a]; simpl in E; injection E as -> E; [done|]. inversion Ha as [|? ? Hy Ha']; subst.
      destruct (IHp a Ha' E) as (a' & -> & E'). by exists a'. }
    apply Forall_app in Ha as [_ Ha]. destruct (IH (line ++ p) a' b Ha E') as (ps' & -> & Ec).
    exists ps'. by rewrite <- !app_assoc.
Qed.
Lemma take_bytes_spec ps : forall x y,
  concat ps = x ++ y -> exists ps', take_bytes (len x) ps = (x, ps') /\ concat ps' = y.
Proof.
  induction ps as [|p ps IH]; intros x y E; simpl in *.
  { symmetry in E. apply app_nil in E as [-> ->]. by exists []. }
  destruct (Z.leb_spec (len x) 0) as [Hz|Hz].
  { pose proof (len_nonneg x). assert (x = []) as -> by (apply len_zero_nil; lia). by exists (p :: ps). }
  destruct (Z.ltb_spec (len x) (len p)) as [Hlt|Hge].
  - exists (zdrop (len x) p :: ps). simpl. split.
    + f_equal. transitivity (ztake (len x) (p ++ concat ps)); [|by rewrite E, ztake_app_len].
      unfold ztake, len in *. by rewrite take_app_le by lia.
    + rewrite <- zdrop_app_in by lia. by rewrite E, zdrop_app_len.
  - assert (exists x', x = p ++ x' /\ concat ps = x' ++ y) as (x' & -> & E').
    { clear IH Hz. revert x E Hge. induction p as [|c p IHp]; intros x E Hge; [by exists x|].
      rewrite len_cons in Hge. destruct x as [|c' x].
      { rewrite len_nil in Hge. pose proof (len_nonneg p). lia. }
      simpl in E. injection E as -> E. destruct (IHp x E) as (x' & -> & E'); [rewrite len_cons in Hge; lia|]. by exists x'. }
    rewrite len_app. replace (len p + len x' - len p) with (len x') by lia.
    destruct (IH x' y E') as (ps' & -> & Ec). by exists ps'.
Qed.

Lemma read_line (reader : BufReader) a b :
  Forall (fun x => x <> LF) a -> concat (pieces reader) = a ++ LF :: b ->
  exists reader', read_until_lf reader = (Ok (a ++ [LF]), reader') /\ concat (pieces reader') = b /\
    failure reader' = failure reader.
Proof.
  intros Ha E. unfold read_until_lf. destruct (until_lf_line (pieces reader) [] a b Ha E) as (ps' & -> & Ec).
  by eexists.
Qed.
Lemma read_body (reader : BufReader) x y :
  concat (pieces reader) = x ++ y ->
  exists reader', read_exact reader (len x) = (Ok (Some x), reader') /\ concat (pieces reader') = y.
Proof.
  intros E. unfold read_exact. destruct (take_bytes_spec _ x y E) as (ps' & -> & Ec).
  rewrite Z.eqb_refl. by eexists.
Qed.
Lemma pieces_size_concat (reader : BufReader) : pieces_size reader = len (concat (pieces reader)).
Proof.
  unfold pieces_size. induction (pieces reader) as [|p ps IH]; [done|]. simpl. rewrite len_app, <- IH. done.
Qed.
End pieces_lemmas.

(** ** Lemmas: one frame from a buffered reader *)

Section one_shot.
Context `{Json} {io_error : Type} (is_unexpected_eof : io_error -> bool).
Notation BufReader := (@BufReader io_error).

Lemma snoc_terminator (l : list Z) : l <> [] -> is_header_terminator ((l ++ [13]) ++ [10]) = false.
Proof.
  intros Hl. unfold is_header_terminator. rewrite <- app_assoc.
  rewrite !bool_decide_eq_false_2; [done|..]; intros E; apply (f_equal length) in E;
    rewrite length_app in E; simpl in E; (destruct l; [done|]); simpl in E; lia.
Qed.
Lemma trim_header_line (l : list Z) : trim_header_crlf ((l ++ [13]) ++ [10]) = l.
Proof. unfold trim_header_crlf, strip_last. rewrite strip_suffix_snoc. simpl. by rewrite strip_suffix_snoc. Qed.

(** The header of a frame announces the length of its body. *)
Lemma header_of_frame fuel (reader : BufReader) body rest :
  len body <= MAX_FRAME_SIZE -> concat (pieces reader) = frame body ++ rest -> (2 <= fuel)%nat ->
  exists reader', header_loop fuel None reader = Ret (HeaderEnd (Some (len body)), reader') /\
    concat (pieces reader') = body ++ rest.
Proof.
  intros Hl E Hf. pose proof (len_nonneg body) as H0.
  assert (0 <= len body <= usize_max) as Hn by (unfold MAX_FRAME_SIZE, usize_max in *; lia).
  destruct (content_length_plain (len body) Hn) as [Hp Ha]. pose proof (content_length_size (len body)) as Hs.
  destruct (content_length_fields (len body) Hn) as (E1 & E2 & E3).
  rewrite frame_parts in E. set (header := content_length_line (len body)) in *. clearbody header.
  assert (header <> []) as Hne by (intros ->; rewrite len_nil in Hs; lia).
  destruct fuel as [|[|fuel]]; [lia|lia|]. cbn [header_loop].
  destruct (read_line reader (header ++ [13]) ([13] ++ LF :: body ++ rest)) as (r1 & -> & Ec1 & _).
  { apply Forall_app. split; [|by repeat constructor]. eapply Forall_impl; [exact Hp|]. by intros c [_ Hc]. }
  { rewrite E. unfold HEADER_END_CRLF, LF. by rewrite <- !app_assoc. }
  assert (len ((header ++ [13]) ++ [LF]) =? 0 = false) as ->.
  { rewrite !len_app. change (len [13]) with 1. change (len [LF]) with 1. destruct (Z.eqb_spec (len header + 1 + 1) 0); [lia|done]. }
  rewrite snoc_terminator, trim_header_line, (from_utf8_ascii _ Ha), E1, E2, E3 by done. simpl negb. cbn [header_loop].
  destruct (read_line r1 [13] (body ++ rest)) as (r2 & -> & Ec2 & _); [by repeat constructor|exact Ec1|].
  by exists r2.
Qed.

Lemma one_shot_frame (reader : BufReader) body rest :
  len body <= MAX_FRAME_SIZE -> concat (pieces reader) = frame body ++ rest ->
  exists reader', read_message_outcome is_unexpected_eof reader = Ret (Ok (Some (decode_incoming_body body)), reader') /\
    concat (pieces reader') = rest.
Proof.
  intros Hl E. unfold read_message_outcome.
  destruct (header_of_frame (line_fuel reader) reader body rest Hl E) as (r1 & -> & E1).
  { unfold line_fuel. rewrite pieces_size_concat, E, frame_parts, !len_app.
    pose proof (content_length_size (len body)). pose proof (len_nonneg body). pose proof (len_nonneg rest).
    change (len HEADER_END_CRLF) with 4. lia. }
  simpl. destruct (Z.ltb_spec MAX_FRAME_SIZE (len body)); [lia|].
  destruct (read_body r1 body rest E1) as (r2 & -> & E2). by exists r2.
Qed.
End one_shot.

(** ** Theorems *)

(** C25. Frames survive any transport: however the bytes of a stream of frames
    (with other text, free of the header sentinel, before, between and after
    them) are cut into reads, the reader reports exactly the decoded bodies,
    in order and once each, besides framing errors; and reading to the end
    terminates. *)
Theorem frames_survive_chunking `{Json} {io_error : Type} chunks bodies :
  Forall (fun c => c <> [] /\ len c <= READ_CHUNK_BYTES) chunks -> carries (concat chunks) bodies ->
  let reads := @ReadBytes io_error <$> chunks in
  exists outs, read_all (read_fuel framer_new reads) framer_new reads = Ret outs /\
    filter (fun o => is_framing o = false) outs = decode_incoming_body <$> bodies.
Proof.
  intros Hc Hb reads. apply read_all_carries.
  - by apply small_settles.
  - unfold reads. apply Forall_fmap. eapply Forall_impl; [exact Hc|]. done.
  - simpl. unfold reads. by rewrite bytes_of_chunks.
  - unfold read_fuel. pose proof (bytes_left_nonneg framer_new reads). lia.
Qed.

(** The skipping reader answers as if every request had arrived whole:
    repeated [read_next] calls return exactly the requests among the bodies
    of the stream, in order, whatever the reads. *)
Theorem read_next_returns_requests `{Json} {io_error : Type} chunks bodies :
  Forall (fun c => c <> [] /\ len c <= READ_CHUNK_BYTES) chunks -> carries (concat chunks) bodies ->
  let reads := @ReadBytes io_error <$> chunks in
  read_requests (read_fuel framer_new reads) framer_new reads = Ret (omap decoded bodies).
Proof.
  intros Hc Hb reads. apply read_requests_carries.
  - by apply small_settles.
  - unfold reads. apply Forall_fmap. eapply Forall_impl; [exact Hc|]. done.
  - simpl. unfold reads. by rewrite bytes_of_chunks.
  - unfold read_fuel. pose proof (bytes_left_nonneg framer_new reads). lia.
Qed.

(** C26. The transport buffer is bounded: driven as the reader drives it, the
    framer never holds more than one maximal body, its header block and two
    reads, whatever bytes arrive, and one read less when it asks for more. *)
Theorem framer_memory_bound `{Json} {io_error : Type} q buf (reads : list (@read_result io_error)) :
  driven q buf -> Forall sized reads ->
  len buf <= MAX_FRAME_SIZE + MAX_HEADER_BYTES + (if q then 1 else 2) * READ_CHUNK_BYTES /\
  forall r buf' reads', read_next_outcome buf reads = (r, buf', reads') ->
    len buf' <= MAX_FRAME_SIZE + MAX_HEADER_BYTES + 2 * READ_CHUNK_BYTES.
Proof.
  assert (forall q buf, driven q buf ->
    len buf <= MAX_FRAME_SIZE + MAX_HEADER_BYTES + (if q then 1 else 2) * READ_CHUNK_BYTES) as Hb.
  { intros q0 b Hd. destruct (driven_settles q0 b Hd) as [_ Hq]. destruct q0.
    - pose proof (quiet_bound _ chunk_limit b (Hq eq_refl)). lia.
    - inversion Hd as [|q1 b1 r b2 Hd1 Et|b1 bytes Hd1 Hl]; subst.
      + change (len framer_new) with 0. unfold MAX_FRAME_SIZE, MAX_HEADER_BYTES, READ_CHUNK_BYTES. lia.
      + destruct (driven_settles _ _ Hd1) as [[_ H1] _]. rewrite Et in H1. destruct r as [[?|]|?]; [|done|];
          unfold small, MAX_FRAME_SIZE, MAX_HEADER_BYTES, READ_CHUNK_BYTES in *; lia.
      + destruct (driven_settles _ _ Hd1) as [_ H1]. pose proof (quiet_bound _ chunk_limit b1 (H1 eq_refl)).
        pose proof (push_shrinks b1 bytes). lia. }
  intros Hd Hz. split; [by apply Hb|]. intros r buf' reads' E.
  destruct (outcome_driven reads q buf r buf' reads' Hd Hz E) as (q' & Hd'). apply Hb in Hd'.
  destruct q'; unfold READ_CHUNK_BYTES in *; lia.
Qed.

(** C27. The skipping reader terminates on every transport: each result of the
    framer that is not a request for more bytes takes bytes away, so the
    loop over failed frames ends, with a request, the end of the input or
    the transport's own error. *)
Theorem read_next_terminates `{Json} {io_error : Type} q framer (reads : list (@read_result io_error)) :
  driven q framer -> Forall sized reads ->
  (exists r, read_next framer reads = Ret r) /\
  (forall r framer', try_next framer = (r, framer') -> r <> Ok None -> len framer' < len framer).
Proof.
  intros Hd Hz. destruct (driven_settles q framer Hd) as [Hs _]. split.
  - apply read_next_total; [done|done|]. unfold read_fuel. pose proof (bytes_left_nonneg framer reads). lia.
  - intros r framer' E Hr. destruct Hs as [Hi _]. pose proof (try_next_shrinks framer Hi) as Hsh.
    rewrite E in Hsh. by destruct r as [[?|]|?].
Qed.

(** A written frame is read back by both readers: the framer extracts the
    body from the head of its buffer and keeps what follows, and the
    one-shot reader decodes it and leaves exactly what follows, however the
    input is cut into pieces. *)
Theorem frame_round_trip `{Json} {io_error : Type} (is_unexpected_eof : io_error -> bool) body rest reader :
  len body <= MAX_FRAME_SIZE -> concat (pieces reader) = frame body ++ rest ->
  try_next (frame body ++ rest) = (Ok (Some body), resync_if_needed rest) /\
  exists reader', read_message_outcome is_unexpected_eof reader = Ret (Ok (Some (decode_incoming_body body)), reader') /\
    concat (pieces reader') = rest.
Proof.
  intros Hl E. split; [|by apply one_shot_frame]. pose proof (frame_message body Hl) as Hm.
  assert (find_header_start (frame body ++ rest) = Some 0) as Hst.
  { pose proof (message_at_start (frame body) body rest Hm) as H0.
    pose proof (find_header_start_spec (frame body ++ rest)) as H1.
    destruct (find_header_start (frame body ++ rest)) as [k|]; [|by destruct (H1 0)].
    destruct H1 as [H1 H2]. pose proof (sentinel_fits _ _ H1). destruct (decide (k = 0)) as [->|]; [done|].
    destruct (H2 0); [lia|done]. }
  rewrite (try_next_headed _ Hst).
  pose proof (len_app (frame body) rest) as Hlen. pose proof (len_nonneg rest) as Hr.
  destruct (find_header_end (frame body ++ rest)) as [[e l]|] eqn:He.
  - rewrite (try_frame_message _ [] (frame body) body rest e l Hm); [|by rewrite app_nil_r|done].
    destruct (Z.ltb_spec (len (frame body ++ rest)) (len (frame body))); [lia|]. by rewrite zdrop_app_len.
  - destruct (message_header_end (frame body ++ rest) [] (frame body) body rest Hm) as [_ Hlt];
      [by rewrite app_nil_r|done|lia].
Qed.

(** A body is decoded through its stages in order, and the first stage that
    rejects it is the one reported: invalid UTF-8 with the length of the
    longest valid prefix, then JSON syntax, then the message shape.  Every
    error carries the body's length and is a protocol error, and an id is
    offered for recovery only when the message's own id is legal.  What is
    accepted is an object, either a request with a method and a version
    string or a response turned into the client-response notification. *)
Theorem decode_reports_first_stage `{Json} body :
  match decode_incoming_body body with
  | Ok r => valid_utf8 body /\ exists v, from_str body = Ok v /\ shape v = ShapeObject /\
      (get v (bytes_of "method") <> None /\ jsonrpc_field_is_string v = true /\ request_from_value v = Some r \/
       get v (bytes_of "method") = None /\ get v (bytes_of "id") <> None /\ id r = None /\ method r = CLIENT_RESPONSE_METHOD)
  | Err e => payload_bytes_of e = Some (len body) /\ incoming_error_class e = Protocol /\
      (stage e = StageEncoding <-> ~ valid_utf8 body) /\
      (forall n k, e = InvalidUtf8 n k -> valid_utf8 (ztake k body) /\
         forall j, k < j <= len body -> ~ valid_utf8 (ztake j body)) /\
      (stage e = StageJson <-> valid_utf8 body /\ exists err, from_str body = Err err) /\
      (forall i, recoverable_id_of e = Some i ->
         exists v, from_str body = Ok v /\ (get v (bytes_of "id") ≫= id_from_value) = Some i)
  end.
Proof.
  unfold decode_incoming_body. pose proof (from_utf8_spec body) as Hu.
  pose proof (longest_valid_spec (length body) body) as (_ & Hv1 & Hv2).
  destruct (from_utf8 body); simpl.
  2:{ assert (~ valid_utf8 body) by (intros Hv; by apply Hu in Hv). split_and!; try done; [|naive_solver].
      intros n k [= <- <-]. split; [exact Hv1|exact Hv2]. }
  assert (valid_utf8 body) as Hv by (by apply Hu).
  destruct (from_str body) as [v|[line col]] eqn:Ef; [|split_and!; naive_solver].
  unfold decode_jsonrpc_value. destruct (shape v) eqn:Es; try (split_and!; naive_solver).
  unfold decode_jsonrpc_object. destruct (get v (bytes_of "method")) eqn:Em.
  - destruct (jsonrpc_field_is_string v) eqn:Ej; simpl; [|split_and!; naive_solver].
    destruct (request_from_value v) eqn:Er; [|split_and!; naive_solver].
    split; [done|]. exists v. naive_solver.
  - destruct (get v (bytes_of "id")) eqn:Ei; [|split_and!; naive_solver].
    split; [done|]. exists v. naive_solver.
Qed.

(** ** Witnesses *)

(** JSON in which the bytes are the value, recognised by their first byte. *)
#[export] Instance demo_json : Json := {
  Value := list Z;
  from_str s := match s with [] => Err (1, 0) | _ => Ok s end;
  shape v := match v with 91 :: _ => ShapeArray | 123 :: _ => ShapeObject | 34 :: s => ShapeString s | _ => ShapeNull end;
  get v key := if str_contains v key then Some [34; 34] else None;
  null := bytes_of "null";
  json_object _ := [];
  request_from_value v := Some (mkRequest JSONRPC_VERSION None v None);
}.
Definition demo_bodies : list (list Z) := [bytes_of "{method,jsonrpc}"; bytes_of "[]"].
(** Two frames behind a stray line, cut in the middle of a header. *)
Definition demo_chunks : list (list Z) :=
  [bytes_of "noise" ++ [10; 10] ++ bytes_of "Content-Le"; bytes_of "ngth: 16" ++ [13; 10; 13; 10] ++ bytes_of "{method,jsonrpc}" ++ frame (bytes_of "[]")].

Lemma demo_gap_free : sentinel_free (bytes_of "noise" ++ [10; 10]).
Proof. pose proof (find_header_start_spec (bytes_of "noise" ++ [10; 10])) as H. exact H. Qed.
Lemma demo_carries : carries (concat demo_chunks) demo_bodies.
Proof.
  change (concat demo_chunks) with
    ((bytes_of "noise" ++ [10; 10]) ++ frame (bytes_of "{method,jsonrpc}") ++ ([] ++ frame (bytes_of "[]") ++ [])).
  apply carries_message; [apply demo_gap_free|by apply frame_message|].
  apply carries_message; [apply sentinel_free_nil|by apply frame_message|].
  apply carries_end, sentinel_free_nil.
Qed.

Definition demo_reads : list (@read_result unit) := ReadBytes <$> demo_chunks.
Lemma frames_survive_chunking_witness : exists outs,
  read_all (io_error := unit) (read_fuel framer_new demo_reads) framer_new demo_reads = Ret outs /\
  filter (fun o => is_framing o = false) outs = decode_incoming_body <$> demo_bodies.
Proof.
  apply (frames_survive_chunking (io_error := unit) demo_chunks demo_bodies); [|exact demo_carries].
  repeat constructor; try discriminate; vm_compute; discriminate.
Defined.
Lemma read_next_returns_requests_witness :
  read_requests (io_error := unit) (read_fuel framer_new demo_reads) framer_new demo_reads =
    Ret [mkRequest JSONRPC_VERSION None (bytes_of "{method,jsonrpc}") None].
Proof.
  rewrite (read_next_returns_requests (io_error := unit) demo_chunks demo_bodies); [| |exact demo_carries].
  - vm_compute. (* the batch is refused *) reflexivity.
  - repeat constructor; try discriminate; vm_compute; discriminate.
Defined.
Lemma framer_memory_bound_witness :
  len (push framer_new (bytes_of "Content-Le")) <= MAX_FRAME_SIZE + MAX_HEADER_BYTES + 2 * READ_CHUNK_BYTES.
Proof.
  apply (framer_memory_bound (io_error := unit) false (push framer_new (bytes_of "Content-Le")) []); [|constructor].
  apply driven_bytes; [|vm_compute; discriminate].
  apply (driven_result false framer_new (Ok None) framer_new driven_new). vm_compute. reflexivity.
Defined.
Lemma read_next_terminates_witness :
  (exists r, read_next (io_error := unit) framer_new [ReadBytes (bytes_of "junk"); ReadFailed tt] = Ret r).
Proof.
  destruct (read_next_terminates (io_error := unit) false framer_new [ReadBytes (bytes_of "junk"); ReadFailed tt]) as [H _];
    [exact driven_new| |exact H].
  repeat constructor; vm_compute; discriminate.
Defined.
Lemma frame_round_trip_witness : exists reader',
  read_message_outcome (io_error := unit) (fun _ => false) (mkBufReader [frame (bytes_of "[]"); [65]] None) =
    Ret (Ok (Some (decode_incoming_body (bytes_of "[]"))), reader') /\ concat (pieces reader') = [65].
Proof.
  apply (frame_round_trip (io_error := unit) (fun _ => false) (bytes_of "[]") [65]); vm_compute; [discriminate|reflexivity].
Defined.
