(* ===== verification/Budget.v ===== *)
(** * Parser budgets (perl-parser-core: syntax/error/mod.rs [ParseBudget],
      [BudgetTracker]; engine/parser/operation.rs)

    The limits of one parse operation and the counters charged against them.
    Counters saturate at [usize::MAX].  Proved: an authorized charge is
    counted exactly once and never passes its limit; a refusal charges
    nothing; the recursion depth is bounded and unwinds; a nested parse that
    is given the remaining budget can always be adopted; and the first
    terminal cause of an operation wins. *)

From stdpp Require Import base numbers list.
From S2P Require Import Prelude Utf8 Spans ParseErrors.

(** ** Limits *)

Record ParseBudget := mkBudget {
  max_errors : Z;
  max_depth : Z;
  max_tokens_skipped : Z;
  max_recoveries : Z;
  max_heredoc_scan_bytes : Z;
  max_tokens_consumed : Z;
  max_nodes_constructed : Z;
}.

Definition budget_default : ParseBudget :=
  mkBudget 100 256 1000 500 (64 * 1024 * 1024) (16 * 1024 * 1024) (16 * 1024 * 1024).
Definition for_ide : ParseBudget := budget_default.
Definition strict : ParseBudget :=
  mkBudget 10 64 100 50 (4 * 1024 * 1024) (1024 * 1024) (1024 * 1024).
Definition unlimited : ParseBudget :=
  mkBudget usize_max usize_max usize_max usize_max usize_max usize_max usize_max.

Definition core_limit (self : ParseBudget) (dimension : ParseCoreDimension) : Z :=
  match dimension with
  | TokensConsumed => max_tokens_consumed self
  | NodesConstructed => max_nodes_constructed self
  | DiagnosticsEmitted => max_errors self
  end.

(** ** Counters *)

Record BudgetTracker := mkTracker {
  errors_emitted : Z;
  current_depth : Z;
  max_depth_reached : Z;
  tokens_skipped : Z;
  recoveries_attempted : Z;
  heredoc_scan_bytes : Z;
  tokens_consumed : Z;
  nodes_constructed : Z;
}.
Definition tracker_new : BudgetTracker := mkTracker 0 0 0 0 0 0 0 0.

Definition errors_exhausted (self : BudgetTracker) (budget : ParseBudget) : bool :=
  max_errors budget <=? errors_emitted self.
Definition depth_would_exceed (self : BudgetTracker) (budget : ParseBudget) : bool :=
  max_depth budget <=? current_depth self.
Definition skip_would_exceed (self : BudgetTracker) (budget : ParseBudget) (count : Z) : bool :=
  max_tokens_skipped budget <? saturating_add (tokens_skipped self) count.
Definition recoveries_exhausted (self : BudgetTracker) (budget : ParseBudget) : bool :=
  max_recoveries budget <=? recoveries_attempted self.
Definition can_skip_more (self : BudgetTracker) (budget : ParseBudget) (additional : Z) : bool :=
  saturating_add (tokens_skipped self) additional <=? max_tokens_skipped budget.
Definition heredoc_scan_exhausted (self : BudgetTracker) (budget : ParseBudget) : bool :=
  max_heredoc_scan_bytes budget <=? heredoc_scan_bytes self.

Definition record_recovery (self : BudgetTracker) : BudgetTracker :=
  mkTracker (errors_emitted self) (current_depth self) (max_depth_reached self) (tokens_skipped self)
    (saturating_add (recoveries_attempted self) 1) (heredoc_scan_bytes self) (tokens_consumed self)
    (nodes_constructed self).
Definition begin_recovery (self : BudgetTracker) (budget : ParseBudget) : bool * BudgetTracker :=
  if max_recoveries budget <=? recoveries_attempted self then (false, self)
  else (true, record_recovery self).
Definition record_error (self : BudgetTracker) : BudgetTracker :=
  mkTracker (saturating_add (errors_emitted self) 1) (current_depth self) (max_depth_reached self)
    (tokens_skipped self) (recoveries_attempted self) (heredoc_scan_bytes self) (tokens_consumed self)
    (nodes_constructed self).
Definition enter_depth (self : BudgetTracker) : BudgetTracker :=
  let current_depth := saturating_add (current_depth self) 1 in
  let max_depth_reached :=
    if max_depth_reached self <? current_depth then current_depth else max_depth_reached self in
  mkTracker (errors_emitted self) current_depth max_depth_reached (tokens_skipped self)
    (recoveries_attempted self) (heredoc_scan_bytes self) (tokens_consumed self)
    (nodes_constructed self).
Definition exit_depth (self : BudgetTracker) : BudgetTracker :=
  mkTracker (errors_emitted self) (saturating_sub (current_depth self) 1) (max_depth_reached self)
    (tokens_skipped self) (recoveries_attempted self) (heredoc_scan_bytes self) (tokens_consumed self)
    (nodes_constructed self).
Definition record_skip (self : BudgetTracker) (count : Z) : BudgetTracker :=
  mkTracker (errors_emitted self) (current_depth self) (max_depth_reached self)
    (saturating_add (tokens_skipped self) count) (recoveries_attempted self) (heredoc_scan_bytes self)
    (tokens_consumed self) (nodes_constructed self).
Definition record_heredoc_scan (self : BudgetTracker) (bytes : Z) : BudgetTracker :=
  mkTracker (errors_emitted self) (current_depth self) (max_depth_reached self) (tokens_skipped self)
    (recoveries_attempted self) (saturating_add (heredoc_scan_bytes self) bytes) (tokens_consumed self)
    (nodes_constructed self).

Definition core_usage (self : BudgetTracker) (dimension : ParseCoreDimension) : Z :=
  match dimension with
  | TokensConsumed => tokens_consumed self
  | NodesConstructed => nodes_constructed self
  | DiagnosticsEmitted => errors_emitted self
  end.

Definition charge_core_batch (self : BudgetTracker) (dimension : ParseCoreDimension) (count : Z)
    : BudgetTracker :=
  let charge d slot := if bool_decide (d = dimension) then saturating_add slot count else slot in
  mkTracker (charge DiagnosticsEmitted (errors_emitted self)) (current_depth self)
    (max_depth_reached self) (tokens_skipped self) (recoveries_attempted self)
    (heredoc_scan_bytes self) (charge TokensConsumed (tokens_consumed self))
    (charge NodesConstructed (nodes_constructed self)).
Definition charge_core (self : BudgetTracker) (dimension : ParseCoreDimension) : BudgetTracker :=
  charge_core_batch self dimension 1.
Definition record_core_batch (self : BudgetTracker) (dimension : ParseCoreDimension) (count : Z)
    : BudgetTracker :=
  charge_core_batch self dimension count.

Definition authorize_core_batch (self : BudgetTracker) (budget : ParseBudget)
    (dimension : ParseCoreDimension) (count : Z) : result ParseError unit * BudgetTracker :=
  if count =? 0 then (Ok tt, self)
  else
    let limit := core_limit budget dimension in
    let usage := core_usage self dimension in
    if saturating_sub limit usage <? count
    then (Err (CoreBudgetExhausted dimension limit usage), self)
    else (Ok tt, charge_core_batch self dimension count).

Definition authorize_core (self : BudgetTracker) (budget : ParseBudget)
    (dimension : ParseCoreDimension) : result ParseError unit * BudgetTracker :=
  let limit := core_limit budget dimension in
  let usage := core_usage self dimension in
  if limit <=? usage then (Err (CoreBudgetExhausted dimension limit usage), self)
  else (Ok tt, charge_core self dimension).

(** ** The parse operation *)

Definition MAX_RECURSION_DEPTH : Z := 128.
Definition MAX_BLOCK_NESTING_DEPTH : Z := 512.

Record ParserConfigIdentity := mkConfig {
  config_budget : ParseBudget;
  max_recursion_depth : Z;
  max_block_nesting_depth : Z;
}.
Definition production_default : ParserConfigIdentity :=
  mkConfig budget_default MAX_RECURSION_DEPTH MAX_BLOCK_NESTING_DEPTH.
Definition with_budget (self : ParserConfigIdentity) (budget : ParseBudget) : ParserConfigIdentity :=
  mkConfig budget (max_recursion_depth self) (max_block_nesting_depth self).

Record NestedCoreUsage := mkUsage { usage_tokens : Z; usage_nodes : Z }.

Module Operation.

(** [cancellation] says whether the operation holds a cancellation flag; the
    value of the flag is loaded by the operations that read it. *)
Record t := mk {
  config : ParserConfigIdentity;
  tracker : BudgetTracker;
  cancellation : bool;
  cancellation_check_counter : Z;
  operation_id : Z;
  terminal : option ParseStopCause;
  diagnostics_observed : Z;
}.

(** [ParserOperationId::next]: the id, and the counter after [fetch_add]. *)
Definition next_id (counter : Z) : Z * Z := (counter, as_usize (counter + 1)).

Definition new (config : ParserConfigIdentity) (cancellation : bool) (counter : Z) : t * Z :=
  let '(id, counter) := next_id counter in
  (mk config tracker_new cancellation 0 id None 0, counter).
Definition begin (self : t) (counter : Z) : t * Z :=
  let '(id, counter) := next_id counter in
  (mk (config self) tracker_new (cancellation self) 0 id None 0, counter).

Definition with_tracker (self : t) (tracker : BudgetTracker) : t :=
  mk (config self) tracker (cancellation self) (cancellation_check_counter self) (operation_id self)
    (terminal self) (diagnostics_observed self).
Definition with_terminal (self : t) (terminal : option ParseStopCause) : t :=
  mk (config self) (tracker self) (cancellation self) (cancellation_check_counter self)
    (operation_id self) terminal (diagnostics_observed self).

Definition take_tracker (self : t) : BudgetTracker * t := (tracker self, with_tracker self tracker_new).
Definition record_terminal (self : t) (cause : ParseStopCause) : t :=
  match terminal self with Some _ => self | None => with_terminal self (Some cause) end.
Definition take_terminal (self : t) : option ParseStopCause * t :=
  (terminal self, with_terminal self None).
Definition heredoc_budget_terminal_recorded (self : t) : bool :=
  match terminal self with Some (StopHeredocBudgetExhausted _ _) => true | _ => false end.

Definition is_pre_cancelled (self : t) (flag : bool) : bool := cancellation self && flag.
Definition probe_cancellation (self : t) (flag : bool) : result ParseError unit * t :=
  let counter := as_usize (cancellation_check_counter self + 1) in
  let self := mk (config self) (tracker self) (cancellation self) counter (operation_id self)
                (terminal self) (diagnostics_observed self) in
  if (Z.land counter 63 =? 0) && (cancellation self && flag) then (Err Cancelled, self)
  else (Ok tt, self).

Definition enter_recursion (self : t) : result ParseError unit * t :=
  let next := saturating_add (current_depth (tracker self)) 1 in
  if max_recursion_depth (config self) <? next
  then (Err (RecursionDepthExhausted next (max_recursion_depth (config self))), self)
  else (Ok tt, with_tracker self (enter_depth (tracker self))).
Definition exit_recursion (self : t) : t := with_tracker self (exit_depth (tracker self)).

Definition heredoc_scan_state (self : t) : Z * Z :=
  (max_heredoc_scan_bytes (config_budget (config self)), heredoc_scan_bytes (tracker self)).
Definition heredoc_scan_overrun (self : t) : bool :=
  let '(limit, usage) := heredoc_scan_state self in limit <? usage.
Definition operation_record_heredoc_scan (self : t) (bytes : Z) : t :=
  with_tracker self (record_heredoc_scan (tracker self) bytes).

Definition operation_authorize (self : t) (dimension : ParseCoreDimension)
    : result ParseError unit * t :=
  let '(r, tr) := authorize_core (tracker self) (config_budget (config self)) dimension in
  (r, with_tracker self tr).
Definition authorize_token_consume (self : t) := operation_authorize self TokensConsumed.
Definition authorize_node_construct (self : t) := operation_authorize self NodesConstructed.
Definition authorize_diagnostic_emit (self : t) := operation_authorize self DiagnosticsEmitted.

Definition authorize_adopted (self : t) (dimension : ParseCoreDimension) (count : Z)
    : result ParseError unit * t :=
  let '(r, tr) := authorize_core_batch (tracker self) (config_budget (config self)) dimension count in
  (r, with_tracker self tr).
Definition authorize_adopted_tokens (self : t) (count : Z) := authorize_adopted self TokensConsumed count.
Definition authorize_adopted_nodes (self : t) (count : Z) := authorize_adopted self NodesConstructed count.

Definition remaining_core_budget (self : t) : ParseBudget :=
  let b := config_budget (config self) in
  mkBudget (saturating_sub (max_errors b) (core_usage (tracker self) DiagnosticsEmitted))
    (max_depth b) (max_tokens_skipped b) (max_recoveries b) (max_heredoc_scan_bytes b)
    (saturating_sub (max_tokens_consumed b) (core_usage (tracker self) TokensConsumed))
    (saturating_sub (max_nodes_constructed b) (core_usage (tracker self) NodesConstructed)).

Definition core_usage_snapshot (self : t) : NestedCoreUsage :=
  mkUsage (core_usage (tracker self) TokensConsumed) (core_usage (tracker self) NodesConstructed).

Definition adopt_nested_failure (self : t) (error : ParseError) (nested : NestedCoreUsage)
    : ParseError * t :=
  let tr := record_core_batch (tracker self) TokensConsumed (usage_tokens nested) in
  let tr := record_core_batch tr NodesConstructed (usage_nodes nested) in
  let self := with_tracker self tr in
  match error with
  | CoreBudgetExhausted dimension _ _ =>
    (CoreBudgetExhausted dimension (core_limit (config_budget (config self)) dimension)
       (core_usage (tracker self) dimension), self)
  | other => (other, self)
  end.

Definition note_diagnostic_observed (self : t) : t :=
  mk (config self) (tracker self) (cancellation self) (cancellation_check_counter self)
    (operation_id self) (terminal self) (saturating_add (diagnostics_observed self) 1).

(** ** A parse as a sequence of operations *)

Inductive op :=
| Enter | Exit | Authorize (d : ParseCoreDimension) | Adopt (d : ParseCoreDimension) (count : Z)
| Scan (bytes : Z) | Terminal (cause : ParseStopCause) | Probe (flag : bool) | Observe.

Definition exec (self : t) (o : op) : result ParseError unit * t :=
  match o with
  | Enter => enter_recursion self
  | Exit => (Ok tt, exit_recursion self)
  | Authorize d => operation_authorize self d
  | Adopt d count => authorize_adopted self d count
  | Scan bytes => (Ok tt, operation_record_heredoc_scan self bytes)
  | Terminal cause => (Ok tt, record_terminal self cause)
  | Probe flag => probe_cancellation self flag
  | Observe => (Ok tt, note_diagnostic_observed self)
  end.

(** The operations of a parse, refused or not, and what they answered. *)
Fixpoint exec_all (self : t) (ops : list op) : list (result ParseError unit) * t :=
  match ops with
  | [] => ([], self)
  | o :: ops =>
    let '(r, self) := exec self o in
    let '(rs, self) := exec_all self ops in
    (r :: rs, self)
  end.

End Operation.

(** ** Accounting *)

Import Operation.

Definition width_limits (cfg : ParserConfigIdentity) : Prop :=
  (forall d, 0 <= core_limit (config_budget cfg) d <= usize_max) /\
  0 <= max_recursion_depth cfg < usize_max.

Definition op_ok (o : op) : Prop := match o with Adopt _ n => 0 <= n | _ => True end.

(** What one answered operation charged to a dimension. *)
Definition charged (d : ParseCoreDimension) (o : op) (r : result ParseError unit) : Z :=
  match o, r with
  | Authorize d', Ok _ => if bool_decide (d' = d) then 1 else 0
  | Adopt d' n, Ok _ => if bool_decide (d' = d) then n else 0
  | _, _ => 0
  end.
Fixpoint granted (d : ParseCoreDimension) (ops : list op) (rs : list (result ParseError unit)) : Z :=
  match ops, rs with
  | o :: ops, r :: rs => charged d o r + granted d ops rs
  | _, _ => 0
  end.

(** The depth the answered operations leave. *)
Definition moved (depth : Z) (o : op) (r : result ParseError unit) : Z :=
  match o, r with
  | Enter, Ok _ => depth + 1
  | Exit, _ => Z.max 0 (depth - 1)
  | _, _ => depth
  end.
Fixpoint depth_after (depth : Z) (ops : list op) (rs : list (result ParseError unit)) : Z :=
  match ops, rs with
  | o :: ops, r :: rs => depth_after (moved depth o r) ops rs
  | _, _ => depth
  end.

Fixpoint first_terminal (ops : list op) : option ParseStopCause :=
  match ops with
  | [] => None
  | Terminal cause :: _ => Some cause
  | _ :: ops => first_terminal ops
  end.

(** The invariant of an operation whose budget is [cfg]. *)
Definition within (cfg : ParserConfigIdentity) (self : t) : Prop :=
  config self = cfg /\
  (forall d, 0 <= core_usage (tracker self) d <= core_limit (config_budget cfg) d) /\
  0 <= current_depth (tracker self) <= max_depth_reached (tracker self) /\
  max_depth_reached (tracker self) <= max_recursion_depth cfg.

Lemma charge_usage tr d n d' :
  core_usage (charge_core_batch tr d n) d' =
    if bool_decide (d' = d) then saturating_add (core_usage tr d') n else core_usage tr d'.
Proof. by destruct d', d. Qed.

Lemma charge_depth tr d n :
  current_depth (charge_core_batch tr d n) = current_depth tr /\
  max_depth_reached (charge_core_batch tr d n) = max_depth_reached tr.
Proof. done. Qed.

(** The batch authorization is exact; the single one is the batch of one. *)
Lemma authorize_batch_spec tr b d n :
  0 <= n -> 0 <= core_usage tr d <= core_limit b d ->
  authorize_core_batch tr b d n =
    if core_limit b d <? core_usage tr d + n
    then (Err (CoreBudgetExhausted d (core_limit b d) (core_usage tr d)), tr)
    else (Ok tt, if n =? 0 then tr else charge_core_batch tr d n).
Proof.
  intros Hn Hu. unfold authorize_core_batch, saturating_sub.
  destruct (Z.eqb_spec n 0) as [->|].
  - by rewrite Z.add_0_r, (proj2 (Z.ltb_ge _ _)) by lia.
  - bcase; done.
Qed.

Lemma authorize_single tr b d :
  0 <= core_usage tr d <= core_limit b d ->
  authorize_core tr b d = authorize_core_batch tr b d 1.
Proof.
  intros Hu. rewrite authorize_batch_spec by lia. unfold authorize_core, charge_core. bcase; done.
Qed.

Lemma batch_within cfg self d n :
  width_limits cfg -> within cfg self -> 0 <= n ->
  let '(r, tr) := authorize_core_batch (tracker self) (config_budget (config self)) d n in
  within cfg (with_tracker self tr) /\
  (forall d', core_usage tr d' = core_usage (tracker self) d' + charged d' (Adopt d n) r) /\
  current_depth tr = current_depth (tracker self) /\
  (r = Ok tt <-> core_usage (tracker self) d + n <= core_limit (config_budget cfg) d).
Proof.
  intros [Hw _] (Hc & Hu & Hd & Hm) Hn. rewrite Hc.
  rewrite authorize_batch_spec by auto. pose proof (Hu d) as Hud. pose proof (Hw d).
  destruct (Z.ltb_spec (core_limit (config_budget cfg) d) (core_usage (tracker self) d + n)) as [Hlt|Hge].
  { split; [by repeat split; try apply Hu; try apply Hd|].
    split; [intros d'; simpl; lia|]. split; [done|]. split; [done|lia]. }
  assert (forall d', core_usage (if n =? 0 then tracker self else charge_core_batch (tracker self) d n) d' =
    core_usage (tracker self) d' + charged d' (Adopt d n) (Ok tt)) as Hus.
  { intros d'. destruct (Z.eqb_spec n 0) as [->|].
    - simpl. destruct (bool_decide _); lia.
    - rewrite charge_usage. simpl. destruct (decide (d' = d)) as [->|Hne].
      + rewrite !bool_decide_eq_true_2 by done. unfold saturating_add. lia.
      + rewrite !bool_decide_eq_false_2 by congruence. lia. }
  split; [|split; [exact Hus|split; [by destruct (n =? 0)|done]]].
  split; [done|]. split.
  - intros d'. simpl. rewrite Hus. simpl. pose proof (Hu d').
    destruct (decide (d = d')) as [->|Hne].
    + rewrite bool_decide_eq_true_2 by done. lia.
    + rewrite bool_decide_eq_false_2 by done. lia.
  - simpl. by destruct (n =? 0).
Qed.

Lemma with_tracker_within cfg self tr :
  within cfg self ->
  (forall d, core_usage tr d = core_usage (tracker self) d) ->
  0 <= current_depth tr <= max_depth_reached tr -> max_depth_reached tr <= max_recursion_depth cfg ->
  within cfg (with_tracker self tr).
Proof.
  intros (Hc & Hu & _ & _) Heq Hd Hm. split; [done|]. split; [|done].
  intros d. simpl. rewrite Heq. apply Hu.
Qed.

(** One operation keeps the invariant and is accounted for. *)
Lemma exec_within cfg self o :
  width_limits cfg -> within cfg self -> op_ok o ->
  let '(r, self') := exec self o in
  within cfg self' /\
  (forall d, core_usage (tracker self') d = core_usage (tracker self) d + charged d o r) /\
  current_depth (tracker self') = moved (current_depth (tracker self)) o r /\
  terminal self' = match terminal self with Some c => Some c | None =>
    match o with Terminal c => Some c | _ => None end end.
Proof.
  intros Hw Hin Ho. pose proof Hin as (Hc & Hu & Hd & Hm). pose proof (proj2 Hw) as Hmax.
  destruct o as [| |d|d n|bytes|cause|flag|]; simpl.
  - unfold enter_recursion. rewrite Hc. unfold saturating_add.
    destruct (Z.ltb_spec (max_recursion_depth cfg) (Z.min usize_max (current_depth (tracker self) + 1))).
    + split; [done|]. split; [intros; lia|]. by simpl; destruct (terminal self).
    + assert (Z.min usize_max (current_depth (tracker self) + 1) = current_depth (tracker self) + 1) as E by lia.
      split; [|split; [intros d; destruct d; simpl; lia|split; [simpl; unfold saturating_add; lia|by simpl; destruct (terminal self)]]].
      apply with_tracker_within; [done|by intros []|simpl; unfold saturating_add; rewrite E; bcase; simpl; lia|].
      simpl; unfold saturating_add; rewrite E; bcase; simpl; lia.
  - unfold exit_recursion.
    split; [|split; [intros d; destruct d; simpl; lia|split; [simpl; unfold saturating_sub; lia|by simpl; destruct (terminal self)]]].
    apply with_tracker_within; [done|by intros []|simpl; unfold saturating_sub; lia|done].
  - unfold operation_authorize. rewrite authorize_single.
    + pose proof (batch_within cfg self d 1 Hw Hin ltac:(lia)) as Hb.
      destruct (authorize_core_batch _ _ d 1) as [r tr]. destruct Hb as (H1 & H2 & H3 & H4).
      split; [done|]. split; [by intros d'; simpl; rewrite H2|]. split; [done|by simpl; destruct (terminal self)].
    + rewrite Hc. apply Hu.
  - unfold authorize_adopted.
    pose proof (batch_within cfg self d n Hw Hin Ho) as Hb.
    destruct (authorize_core_batch _ _ d n) as [r tr]. destruct Hb as (H1 & H2 & H3 & H4).
    split; [done|]. split; [by intros d'; simpl; rewrite H2|]. split; [done|by simpl; destruct (terminal self)].
  - unfold operation_record_heredoc_scan.
    split; [|split; [intros d; destruct d; simpl; lia|split; [done|by simpl; destruct (terminal self)]]].
    apply with_tracker_within; [done|by intros []|done|done].
  - unfold record_terminal. destruct (terminal self) eqn:E.
    + rewrite E. split; [done|]. split; [intros; lia|done].
    + split; [done|]. split; [intros; simpl; lia|done].
  - unfold probe_cancellation. destruct (_ && _); (split; [done|]; split; [intros; simpl; lia|]; split; [done|by simpl; destruct (terminal self)]).
  - split; [done|]. split; [intros; lia|]. split; [done|by simpl; destruct (terminal self)].
Qed.

Lemma exec_all_within cfg ops : forall self,
  width_limits cfg -> within cfg self -> Forall op_ok ops ->
  let '(rs, self') := exec_all self ops in
  within cfg self' /\
  (forall d, core_usage (tracker self') d = core_usage (tracker self) d + granted d ops rs) /\
  current_depth (tracker self') = depth_after (current_depth (tracker self)) ops rs /\
  terminal self' = match terminal self with Some c => Some c | None => first_terminal ops end.
Proof.
  induction ops as [|o ops IH]; intros self Hw Hin Hops; simpl.
  { split; [done|]. split; [intros; lia|]. split; [done|by simpl; destruct (terminal self)]. }
  inversion Hops as [|? ? Ho Hops']; subst.
  pose proof (exec_within cfg self o Hw Hin Ho) as H1. destruct (exec self o) as [r self1].
  destruct H1 as (W1 & U1 & D1 & T1). specialize (IH self1 Hw W1 Hops').
  destruct (exec_all self1 ops) as [rs self2]. destruct IH as (W2 & U2 & D2 & T2).
  split; [done|]. split; [intros d; rewrite U2, U1; lia|]. split; [by rewrite D2, D1|].
  rewrite T2, T1. destruct (terminal self); [done|]. by destruct o.
Qed.

Lemma new_within cfg flag n : width_limits cfg -> within cfg (fst (new cfg flag n)).
Proof.
  intros [Hw Hm]. unfold new. destruct (next_id n) as [id c]. simpl. split; [done|]. split.
  - intros d. specialize (Hw d). destruct d; simpl in *; lia.
  - simpl. lia.
Qed.

(** ** Nested operations and cancellation *)

Lemma remaining_limits cfg self :
  width_limits cfg -> within cfg self ->
  width_limits (with_budget (config self) (remaining_core_budget self)) /\
  forall d, core_limit (remaining_core_budget self) d = core_limit (config_budget cfg) d - core_usage (tracker self) d.
Proof.
  intros [Hw Hm] (Hc & Hu & _).
  assert (forall d, core_limit (remaining_core_budget self) d =
    core_limit (config_budget cfg) d - core_usage (tracker self) d) as Hr.
  { intros d. specialize (Hu d). unfold remaining_core_budget. rewrite Hc.
    destruct d; simpl in *; unfold saturating_sub; lia. }
  split; [|done]. split; [|by rewrite Hc].
  intros d. simpl. rewrite Hr. specialize (Hu d). specialize (Hw d). lia.
Qed.

Lemma nested_usage cfg parent flag n ops d :
  width_limits cfg -> within cfg parent -> Forall op_ok ops ->
  0 <= core_usage (tracker (snd (exec_all
    (fst (new (with_budget (config parent) (remaining_core_budget parent)) flag n)) ops))) d <=
    core_limit (config_budget cfg) d - core_usage (tracker parent) d.
Proof.
  intros Hw Hin Hops. destruct (remaining_limits cfg parent Hw Hin) as [Hw' Hr].
  pose proof (exec_all_within _ ops _ Hw' (new_within _ flag n Hw') Hops) as H.
  destruct (exec_all _ ops) as [rs child]. destruct H as ((_ & Hu & _) & _). simpl in *.
  rewrite <- Hr. apply Hu.
Qed.

Lemma adopt_fits cfg self d count :
  width_limits cfg -> within cfg self -> 0 <= count ->
  core_usage (tracker self) d + count <= core_limit (config_budget cfg) d ->
  exists self', authorize_adopted self d count = (Ok tt, self') /\ within cfg self' /\
    forall d', core_usage (tracker self') d' = core_usage (tracker self) d' +
      (if bool_decide (d = d') then count else 0).
Proof.
  intros Hw Hin Hn Hfit. pose proof (batch_within cfg self d count Hw Hin Hn) as H.
  unfold authorize_adopted. destruct (authorize_core_batch _ _ d count) as [r tr].
  destruct H as (H1 & H2 & _ & H4). apply H4 in Hfit as ->. by eexists.
Qed.

(** The unchecked record of a batch that fits is the granted one. *)
Lemma record_fits cfg self d count :
  width_limits cfg -> within cfg self -> 0 <= count ->
  core_usage (tracker self) d + count <= core_limit (config_budget cfg) d ->
  within cfg (with_tracker self (record_core_batch (tracker self) d count)) /\
  forall d', core_usage (record_core_batch (tracker self) d count) d' = core_usage (tracker self) d' +
      (if bool_decide (d = d') then count else 0).
Proof.
  intros [Hw _] (Hc & Hu & Hd & Hm) Hn Hfit.
  assert (forall d', core_usage (record_core_batch (tracker self) d count) d' = core_usage (tracker self) d' +
      (if bool_decide (d = d') then count else 0)) as Hus.
  { intros d'. unfold record_core_batch. rewrite charge_usage. pose proof (Hw d).
    destruct (decide (d' = d)) as [->|Hne].
    - rewrite !bool_decide_eq_true_2 by done. unfold saturating_add. lia.
    - rewrite !bool_decide_eq_false_2 by congruence. lia. }
  split; [|done]. split; [done|]. split; [|done]. intros d'. simpl. rewrite Hus.
  pose proof (Hu d'). destruct (decide (d = d')) as [->|Hne].
  - rewrite bool_decide_eq_true_2 by done. lia.
  - rewrite bool_decide_eq_false_2 by done. lia.
Qed.

Definition is_probe (o : op) : bool := match o with Probe _ => true | _ => false end.
Definition probes (ops : list op) : Z := len (filter (fun o => is_probe o = true) ops).

Lemma land_63 c : Z.land c 63 = c mod 64.
Proof. change 63 with (Z.ones 6). by rewrite Z.land_ones by lia. Qed.

Lemma exec_counter self o :
  cancellation (snd (exec self o)) = cancellation self /\
  match o with
  | Probe flag => fst (exec self o) = (if (Z.land (as_usize (cancellation_check_counter self + 1)) 63 =? 0) &&
      (cancellation self && flag) then Err Cancelled else Ok tt) /\
      cancellation_check_counter (snd (exec self o)) = as_usize (cancellation_check_counter self + 1)
  | _ => cancellation_check_counter (snd (exec self o)) = cancellation_check_counter self
  end.
Proof.
  destruct o; simpl; try done.
  - unfold enter_recursion. by destruct (_ <? _).
  - unfold operation_authorize. by destruct (authorize_core _ _ _).
  - unfold authorize_adopted. by destruct (authorize_core_batch _ _ _ _).
  - unfold record_terminal. by destruct (terminal self).
  - unfold probe_cancellation. by destruct (_ && _).
Qed.

Lemma cancellation_loop ops : forall self,
  cancellation self = true -> 0 <= cancellation_check_counter self ->
  Forall (fun o => match o with Probe flag => flag = true | _ => True end) ops ->
  64 - cancellation_check_counter self mod 64 <= probes ops ->
  Err Cancelled ∈ fst (exec_all self ops).
Proof.
  induction ops as [|o ops IH]; intros self Hc Hn Hops Hp; simpl.
  { unfold probes in Hp. change (len (filter (fun o => is_probe o = true) [])) with 0 in Hp. dlia. }
  inversion Hops as [|? ? Ho Hops']; subst. pose proof (exec_counter self o) as [Hc' Hk].
  destruct (exec self o) as [r self1]. simpl in *.
  specialize (IH self1). destruct (exec_all self1 ops) as [rs self2]. simpl in *.
  apply elem_of_cons. unfold probes in *. rewrite filter_cons in Hp.
  destruct o as [| |d|d n|bytes|cause|flag|];
    try (right; apply IH; [congruence|lia|done|]; rewrite Hk; rewrite decide_False in Hp by done; lia).
  rewrite decide_True in Hp by done. rewrite len_cons in Hp. destruct Hk as [Hr Hk]. subst flag.
  rewrite land_63, Hc in Hr. set (c := cancellation_check_counter self) in *.
  assert (as_usize (c + 1) mod 64 = (c + 1) mod 64) as Hmod.
  { unfold as_usize. dlia. }
  rewrite Hmod in Hr. destruct (Z.eqb_spec ((c + 1) mod 64) 0) as [E|E]; [by left|].
  right. apply IH; [congruence| |done|].
  - rewrite Hk. unfold as_usize. apply Z.mod_pos_bound. lia.
  - rewrite Hk, Hmod. dlia.
Qed.

(** ** Theorems *)

(** C39. Over every sequence of operations of a parse (recursion entered and
    left, tokens, nodes and diagnostics authorized, nested work adopted,
    terminals recorded, cancellation probed), each counter equals exactly the
    charges that were granted and never passes its limit, the recursion depth
    is the one the granted entries and the exits leave and stays within its
    limit, and the terminal kept is the first one recorded. *)
Theorem operation_accounts_exactly cfg flag n ops :
  width_limits cfg -> Forall op_ok ops ->
  let '(rs, self) := exec_all (fst (new cfg flag n)) ops in
  (forall d, core_usage (tracker self) d = granted d ops rs /\
     granted d ops rs <= core_limit (config_budget cfg) d) /\
  current_depth (tracker self) = depth_after 0 ops rs /\
  0 <= current_depth (tracker self) <= max_depth_reached (tracker self) /\
  max_depth_reached (tracker self) <= max_recursion_depth cfg /\
  terminal self = first_terminal ops.
Proof.
  intros Hw Hops. pose proof (exec_all_within cfg ops (fst (new cfg flag n)) Hw (new_within cfg flag n Hw) Hops) as H.
  destruct (exec_all _ ops) as [rs self]. destruct H as ((_ & Hl & Hd & Hm) & Hu & Hdep & Ht).
  assert (forall d, core_usage (tracker self) d = granted d ops rs) as Hg.
  { intros d. rewrite Hu. by destruct d. }
  split; [|done]. intros d. specialize (Hl d). rewrite Hg in *. lia.
Qed.

Definition tiny : ParserConfigIdentity := mkConfig (mkBudget 1 8 8 8 8 2 2) 2 8.
Lemma tiny_limits : width_limits tiny.
Proof. split; [by intros []|done]. Qed.

Example operation_accounts_exactly_witness :
  let ops := [Enter; Enter; Enter; Authorize TokensConsumed; Adopt TokensConsumed 2; Adopt TokensConsumed 1; Exit] in
  let '(rs, self) := exec_all (fst (new tiny false 0)) ops in
  granted TokensConsumed ops rs = 2 /\ core_usage (tracker self) TokensConsumed = 2 /\
  current_depth (tracker self) = depth_after 0 ops rs /\ depth_after 0 ops rs = 1.
Proof.
  pose proof (operation_accounts_exactly tiny false 0
    [Enter; Enter; Enter; Authorize TokensConsumed; Adopt TokensConsumed 2; Adopt TokensConsumed 1; Exit]
    tiny_limits ltac:(by repeat constructor)) as (Hu & Hd & _).
  destruct (Hu TokensConsumed) as [Hu' _].
  split; [reflexivity|]. split; [exact Hu'|]. split; [exact Hd|reflexivity].
Defined.

(** Authorization is exact: under a budget not yet overspent, a charge of
    [count] is granted precisely when it still fits, a grant adds [count] to
    that counter only, and a refusal reports the true limit and usage and
    changes nothing. *)
Theorem authorization_is_exact cfg self d count :
  width_limits cfg -> within cfg self -> 0 <= count ->
  let '(r, self') := authorize_adopted self d count in
  if core_usage (tracker self) d + count <=? core_limit (config_budget cfg) d
  then r = Ok tt /\ forall d', core_usage (tracker self') d' =
      core_usage (tracker self) d' + (if bool_decide (d = d') then count else 0)
  else r = Err (CoreBudgetExhausted d (core_limit (config_budget cfg) d) (core_usage (tracker self) d)) /\
      tracker self' = tracker self.
Proof.
  intros Hw Hin Hn. pose proof Hin as (Hc & Hu & _). pose proof (batch_within cfg self d count Hw Hin Hn) as H.
  unfold authorize_adopted. rewrite authorize_batch_spec in * by (rewrite ?Hc; auto). rewrite Hc in *.
  destruct (Z.ltb_spec (core_limit (config_budget cfg) d) (core_usage (tracker self) d + count)).
  - by rewrite (proj2 (Z.leb_gt _ _)) by lia.
  - rewrite (proj2 (Z.leb_le _ _)) by lia. by destruct H as (_ & H & _).
Qed.

Example authorization_is_exact_witness :
  let self := fst (new tiny false 0) in
  fst (authorize_adopted self NodesConstructed 3) =
    Err (CoreBudgetExhausted NodesConstructed 2 0) /\
  tracker (snd (authorize_adopted self NodesConstructed 3)) = tracker_new.
Proof.
  exact (authorization_is_exact tiny (fst (new tiny false 0)) NodesConstructed 3 tiny_limits
    (new_within tiny false 0 tiny_limits) ltac:(lia)).
Defined.

(** A nested parse given the remaining budget always fits its parent:
    whatever it does, the tokens and nodes it used can be adopted and are
    granted in full; if it fails, recording its use keeps every counter
    within its limit, and a budget failure is reported with the parent's
    limit and the parent's true usage. *)
Theorem nested_operation_fits cfg parent flag n ops error :
  width_limits cfg -> within cfg parent -> Forall op_ok ops ->
  let child := snd (exec_all
    (fst (new (with_budget (config parent) (remaining_core_budget parent)) flag n)) ops) in
  let nested := core_usage_snapshot child in
  (exists p1 p2, authorize_adopted_tokens parent (usage_tokens nested) = (Ok tt, p1) /\
     authorize_adopted_nodes p1 (usage_nodes nested) = (Ok tt, p2) /\ within cfg p2) /\
  let '(error', p) := adopt_nested_failure parent error nested in
  within cfg p /\
  core_usage (tracker p) TokensConsumed = core_usage (tracker parent) TokensConsumed + usage_tokens nested /\
  core_usage (tracker p) NodesConstructed = core_usage (tracker parent) NodesConstructed + usage_nodes nested /\
  error' = match error with
    | CoreBudgetExhausted d _ _ =>
        CoreBudgetExhausted d (core_limit (config_budget cfg) d) (core_usage (tracker p) d)
    | e => e end.
Proof.
  intros Hw Hin Hops child nested.
  pose proof (nested_usage cfg parent flag n ops TokensConsumed Hw Hin Hops) as Ht.
  pose proof (nested_usage cfg parent flag n ops NodesConstructed Hw Hin Hops) as Hn.
  fold child in Ht, Hn. change (core_usage (tracker child) TokensConsumed) with (usage_tokens nested) in Ht.
  change (core_usage (tracker child) NodesConstructed) with (usage_nodes nested) in Hn.
  clearbody nested. clear child. split.
  - destruct (adopt_fits cfg parent TokensConsumed (usage_tokens nested)) as (p1 & E1 & W1 & U1); [done|done|lia|lia|].
    destruct (adopt_fits cfg p1 NodesConstructed (usage_nodes nested)) as (p2 & E2 & W2 & _); [done|done|lia| |].
    { rewrite U1, bool_decide_eq_false_2 by done. lia. }
    by exists p1, p2.
  - unfold adopt_nested_failure.
    destruct (record_fits cfg parent TokensConsumed (usage_tokens nested)) as [W1 U1]; [done|done|lia|lia|].
    set (p1 := with_tracker parent (record_core_batch (tracker parent) TokensConsumed (usage_tokens nested))) in *.
    destruct (record_fits cfg p1 NodesConstructed (usage_nodes nested)) as [W2 U2]; [done|done|lia| |].
    { assert (core_usage (tracker p1) NodesConstructed = core_usage (tracker parent) NodesConstructed + 0) as ->
        by exact (U1 NodesConstructed). lia. }
    set (p := with_tracker parent _). assert (within cfg p) as W by exact W2.
    assert (forall d, core_usage (tracker p) d = core_usage (tracker parent) d +
      (if bool_decide (TokensConsumed = d) then usage_tokens nested else 0) +
      (if bool_decide (NodesConstructed = d) then usage_nodes nested else 0)) as U.
    { intros d. transitivity (core_usage (record_core_batch (tracker p1) NodesConstructed (usage_nodes nested)) d);
        [done|]. rewrite U2. f_equal. apply (U1 d). }
    pose proof (U TokensConsumed) as U3. pose proof (U NodesConstructed) as U4. simpl in U3, U4.
    assert (config p = cfg) as Hc by apply W.
    destruct error; (split; [done|]; split; [simpl; lia|]; split; [simpl; lia|]); try done.
    by rewrite Hc.
Qed.

Example nested_operation_fits_witness :
  let nested := core_usage_snapshot (snd (exec_all
    (fst (new (with_budget (config (fst (new tiny false 0))) (remaining_core_budget (fst (new tiny false 0)))) false 1))
    [Authorize TokensConsumed; Authorize TokensConsumed; Authorize TokensConsumed])) in
  usage_tokens nested = 2 /\
  fst (adopt_nested_failure (fst (new tiny false 0)) (CoreBudgetExhausted TokensConsumed 2 2) nested) =
    CoreBudgetExhausted TokensConsumed 2 2.
Proof.
  destruct (nested_operation_fits tiny (fst (new tiny false 0)) false 1
    [Authorize TokensConsumed; Authorize TokensConsumed; Authorize TokensConsumed]
    (CoreBudgetExhausted TokensConsumed 2 2) tiny_limits (new_within tiny false 0 tiny_limits)
    ltac:(by repeat constructor)) as (_ & _ & _ & _ & H).
  split; [reflexivity|exact H].
Defined.

(** Cancellation is noticed: while the flag is set, an operation that
    probes sixty-four times, in between whatever else it does, is cancelled
    by one of those probes, also where the probe counter wraps around. *)
Theorem cancellation_is_noticed self ops :
  cancellation self = true -> 0 <= cancellation_check_counter self ->
  Forall (fun o => match o with Probe flag => flag = true | _ => True end) ops ->
  64 <= probes ops ->
  Err Cancelled ∈ fst (exec_all self ops).
Proof. intros Hc Hn Hops Hp. apply cancellation_loop; try done. dlia. Qed.

Example cancellation_is_noticed_witness :
  Err Cancelled ∈ fst (exec_all (fst (new tiny true 0)) (replicate 64 (Probe true))).
Proof.
  apply cancellation_is_noticed; [reflexivity|done| |done].
  by apply Forall_replicate.
Defined.
