(* ===== verification/Completion.v ===== *)
(** * Parser completion (perl-parser-core/src/syntax/error: mod.rs
      [ParseOutput], completion.rs)

    The typed result class of one parse, derived from the stop cause and the
    number of structured recoveries, and its validation against an output.
    The syntax tree is seen through the interface [Ast].  Proved: every
    output validates against its own completion, and validation accepts
    exactly the completions that agree with it. *)

From stdpp Require Import base numbers list.
From S2P Require Import Prelude Utf8 Spans ParseErrors Budget.

(** What the completion reads of a syntax tree. *)
Class Ast (Node : Type) := {
  node_location : Node -> ByteSpan.t;
  (** [Some statements] for [NodeKind::Program]. *)
  program_statements : Node -> option (list Node);
}.

Definition is_terminal_fallback_shell `{Ast Node} (ast : Node) : bool :=
  match program_statements ast with
  | Some [] => (ByteSpan.start (node_location ast) =? 0) && (ByteSpan.end_ (node_location ast) =? 0)
  | _ => false
  end.

(** ** Completion *)

Inductive ParseCompletionClass :=
| ClassClean | ClassRecovered | ClassCatastrophic | ClassCancelled | ClassBudgetExhausted.
Inductive ParseCompletionStage :=
| Unspecified | BeforeParse | OrdinaryParsing | StageRecovery | BeforePublication.
Inductive ParseCancellationIdentity := CooperativeToken.
Inductive ParseBudgetExhaustionDimension :=
| Recursion | NestingOrDepth | HeredocScanBytes | Core (d : ParseCoreDimension) | Lexer.
Inductive ParseCatastrophicCause := UnrecoverableParserOrLexerFailure | CauseFutureTypedTerminal.

#[export] Instance ParseCompletionStage_eq_dec : EqDecision ParseCompletionStage.
Proof. solve_decision. Defined.
#[export] Instance ParseCancellationIdentity_eq_dec : EqDecision ParseCancellationIdentity.
Proof. solve_decision. Defined.
#[export] Instance ParseBudgetExhaustionDimension_eq_dec : EqDecision ParseBudgetExhaustionDimension.
Proof. solve_decision. Defined.
#[export] Instance ParseCatastrophicCause_eq_dec : EqDecision ParseCatastrophicCause.
Proof. solve_decision. Defined.

Inductive ParseCompletion :=
| CompletedClean
| CompletedWithRecovery (recovered_count : Z)
| CompletionCancelled (stage : ParseCompletionStage) (identity : ParseCancellationIdentity)
| BudgetExhausted (dimension : ParseBudgetExhaustionDimension) (limit usage : option Z)
    (stage : ParseCompletionStage) (range : option (Z * Z))
| Catastrophic (cause : ParseCatastrophicCause) (safe_partial : bool).
#[export] Instance ParseCompletion_eq_dec : EqDecision ParseCompletion.
Proof. solve_decision. Defined.

Inductive ParseCompletionValidationError :=
| CleanWithRecovery (recovered_count : Z)
| CleanWithStopCause (cause : ParseStopCause)
| RecoveredWithoutRecovery
| RecoveredWithStopCause (cause : ParseStopCause)
| CancelledWithoutCancelledCause
| BudgetWithoutBudgetCause
| CatastrophicWithoutCatastrophicCause
| CatastrophicSafePartialMissingAst
| RecoveredCountMismatch (recorded actual : Z)
| BudgetPayloadMismatch (recorded_dimension : ParseBudgetExhaustionDimension)
    (recorded_limit recorded_usage : option Z) (cause : ParseStopCause)
| CatastrophicCauseMismatch (recorded : ParseCatastrophicCause) (cause : ParseStopCause).

Definition class (self : ParseCompletion) : ParseCompletionClass :=
  match self with
  | CompletedClean => ClassClean
  | CompletedWithRecovery _ => ClassRecovered
  | CompletionCancelled _ _ => ClassCancelled
  | BudgetExhausted _ _ _ _ _ => ClassBudgetExhausted
  | Catastrophic _ _ => ClassCatastrophic
  end.

Definition budget_from_cause (cause : ParseStopCause) : ParseCompletion :=
  match cause with
  | RecursionBudgetExhausted limit usage => BudgetExhausted Recursion limit usage Unspecified None
  | NestingOrDepthBudgetExhausted limit usage =>
    BudgetExhausted NestingOrDepth (Some limit) (Some usage) Unspecified None
  | StopHeredocBudgetExhausted limit usage =>
    BudgetExhausted HeredocScanBytes (Some limit) (Some usage) Unspecified None
  | StopCoreBudgetExhausted dimension limit usage =>
    BudgetExhausted (Core dimension) (Some limit) (Some usage) Unspecified None
  | LexerBudgetExhausted => BudgetExhausted Lexer None None Unspecified None
  | StopCancelled | CatastrophicTermination | FutureTypedTerminal =>
    Catastrophic CauseFutureTypedTerminal false
  end.

(** ** Output *)

Record ParseOutput (Node : Type) := mkOutput {
  ast : Node;
  diagnostics : list ParseError;
  budget_usage : BudgetTracker;
  recovered_count : Z;
  stop_cause : option ParseStopCause;
}.
Arguments mkOutput {Node}.
Arguments ast {Node}.
Arguments diagnostics {Node}.
Arguments budget_usage {Node}.
Arguments recovered_count {Node}.
Arguments stop_cause {Node}.

Definition count_recovered (diagnostics : list ParseError) : Z :=
  len (filter (fun e => is_recovered e = true) diagnostics).
Definition count_blocking_non_recovered (diagnostics : list ParseError) : Z :=
  len (filter (fun e => blocks_clean_parse e && negb (is_recovered e) = true) diagnostics).

Section output.
Context `{Ast Node}.
Notation Output := (ParseOutput Node).

Definition from_parser_terminal (stop_cause : option ParseStopCause) (recovered_count : Z) (ast : Node)
    : ParseCompletion :=
  match stop_cause with
  | Some StopCancelled => CompletionCancelled Unspecified CooperativeToken
  | Some cause =>
    if is_budget_exhaustion cause then budget_from_cause cause
    else match cause with
    | CatastrophicTermination =>
      Catastrophic UnrecoverableParserOrLexerFailure (negb (is_terminal_fallback_shell ast))
    | _ => Catastrophic CauseFutureTypedTerminal false
    end
  | None => if 0 <? recovered_count then CompletedWithRecovery recovered_count else CompletedClean
  end.

Definition terminated_early (self : Output) : bool := bool_decide (is_Some (stop_cause self)).
Definition completion (self : Output) : ParseCompletion :=
  from_parser_terminal (stop_cause self) (recovered_count self) (ast self).
Definition set_stop_cause (self : Output) (cause : option ParseStopCause) : Output :=
  mkOutput (ast self) (diagnostics self) (budget_usage self) (recovered_count self) cause.

Definition success (ast : Node) : Output := mkOutput ast [] tracker_new 0 None.
Definition with_errors (ast : Node) (diagnostics : list ParseError) : Output :=
  mkOutput ast diagnostics (mkTracker (len diagnostics) 0 0 0 0 0 0 0) (count_recovered diagnostics) None.
Definition finish (ast : Node) (diagnostics : list ParseError) (budget_usage : BudgetTracker)
    (stop_cause : option ParseStopCause) : Output :=
  mkOutput ast diagnostics budget_usage (count_recovered diagnostics) stop_cause.

Definition validate_against_output (self : ParseCompletion) (output : Output)
    : result ParseCompletionValidationError unit :=
  match self with
  | CompletedClean =>
    match stop_cause output with
    | Some cause => Err (CleanWithStopCause cause)
    | None =>
      if 0 <? recovered_count output then Err (CleanWithRecovery (recovered_count output)) else Ok tt
    end
  | CompletedWithRecovery n =>
    match stop_cause output with
    | Some cause => Err (RecoveredWithStopCause cause)
    | None =>
      if (n =? 0) || (recovered_count output =? 0) then Err RecoveredWithoutRecovery
      else if negb (n =? recovered_count output)
      then Err (RecoveredCountMismatch n (recovered_count output))
      else Ok tt
    end
  | CompletionCancelled _ _ =>
    match stop_cause output with
    | Some StopCancelled => Ok tt
    | _ => Err CancelledWithoutCancelledCause
    end
  | BudgetExhausted dimension limit usage _ _ =>
    match stop_cause output with
    | Some cause =>
      if is_budget_exhaustion cause then
        match budget_from_cause cause with
        | BudgetExhausted dimension' limit' usage' _ _ =>
          if bool_decide (dimension = dimension') && bool_decide (limit = limit') &&
             bool_decide (usage = usage')
          then Ok tt else Err (BudgetPayloadMismatch dimension limit usage cause)
        | _ => Err BudgetWithoutBudgetCause
        end
      else Err BudgetWithoutBudgetCause
    | None => Err BudgetWithoutBudgetCause
    end
  | Catastrophic cause safe_partial =>
    match stop_cause output with
    | Some stop =>
      match from_parser_terminal (Some stop) (recovered_count output) (ast output) with
      | Catastrophic expected_cause _ =>
        if negb (bool_decide (cause = expected_cause)) then Err (CatastrophicCauseMismatch cause stop)
        else if safe_partial && is_terminal_fallback_shell (ast output)
        then Err CatastrophicSafePartialMissingAst
        else Ok tt
      | _ => Err CatastrophicWithoutCatastrophicCause
      end
    | None => Err CatastrophicWithoutCatastrophicCause
    end
  end.
End output.

(** ** Theorems *)

(** A completion that says of an output what the output says of itself; the
    stage, the range and a missing safe partial are not recorded there. *)
Definition agrees `{Ast Node} (c : ParseCompletion) (o : ParseOutput Node) : Prop :=
  match c with
  | CompletedClean | CompletedWithRecovery _ => completion o = c
  | CompletionCancelled _ _ => completion o = CompletionCancelled Unspecified CooperativeToken
  | BudgetExhausted d limit usage _ _ => completion o = BudgetExhausted d limit usage Unspecified None
  | Catastrophic cause safe_partial =>
      (exists sp, completion o = Catastrophic cause sp) /\
      safe_partial && is_terminal_fallback_shell (ast o) = false
  end.

(** No output is born invalid. *)
Lemma completion_validates `{Ast Node} (o : ParseOutput Node) :
  0 <= recovered_count o -> validate_against_output (completion o) o = Ok tt.
Proof.
  destruct o as [a ds bu n sc]. simpl. intros Hn.
  unfold completion, validate_against_output, from_parser_terminal. simpl.
  destruct sc as [[]|]; simpl; rewrite ?bool_decide_eq_true_2 by done; try done.
  - by destruct (is_terminal_fallback_shell a).
  - destruct (Z.ltb_spec 0 n); simpl; bcase; done.
Qed.

(** Validation of a completion accepts exactly the completions that agree
    with the output: same class, same count, same budget payload, same
    catastrophic cause, and a safe partial only over a real tree.  In
    particular every output validates against the completion derived from
    it, so no snapshot is born invalid and a stale one is refused. *)
Theorem validation_is_agreement `{Ast Node} (o : ParseOutput Node) c :
  0 <= recovered_count o ->
  validate_against_output (completion o) o = Ok tt /\
  (validate_against_output c o = Ok tt <-> agrees c o).
Proof.
  intros Hn. split; [by apply completion_validates|]. revert Hn.
  destruct o as [a ds bu n sc]. simpl. intros Hn.
  unfold agrees, completion, validate_against_output, from_parser_terminal. simpl.
  destruct c as [|k|st i|d l u st r|cause sp]; destruct sc as [[]|]; simpl.
  all: repeat case_bool_decide; simpl; bcase; simplify_eq/=; try naive_solver.
  all: destruct (sp && _); naive_solver.
Qed.

(** ** Witness *)

(** A tree with no statements at an empty span: the fallback shell. *)
#[export] Instance unit_ast : Ast unit := {
  node_location _ := ByteSpan.mk 0 0;
  program_statements _ := Some [];
}.
Lemma validation_is_agreement_witness :
  validate_against_output (completion (finish tt [] tracker_new (Some CatastrophicTermination)))
    (finish tt [] tracker_new (Some CatastrophicTermination)) = Ok tt /\
  validate_against_output (Catastrophic UnrecoverableParserOrLexerFailure true)
    (finish tt [] tracker_new (Some CatastrophicTermination)) <> Ok tt.
Proof.
  split; [|vm_compute; discriminate].
  apply (validation_is_agreement (finish tt [] tracker_new (Some CatastrophicTermination)) CompletedClean).
  simpl. unfold count_recovered. simpl. vm_compute. discriminate.
Defined.
