(* ===== verification/Snapshot.v ===== *)
(** * Parse snapshots (perl-parser/src/incremental: snapshot.rs,
      geometry_attachment.rs)

    One parser result bound to the source it was parsed from, its generation,
    the strategy that produced it and the state of its source-geometry
    attachment.  Instance identities are pointers compared by address: an
    address is an integer, and the address of a fresh allocation is an
    argument.  Proved: a snapshot validates against its own source and no
    other, and a geometry payload of another parser state, generation or
    source never validates. *)

From Stdlib Require Import String Ascii.
From stdpp Require Import base numbers list.
From S2P Require Import Prelude Utf8 SourceIdentity ParseErrors Budget Completion.

(** ** Generations, dispositions, strategies *)

Record ParseGeneration := mkGeneration { generation_get : Z }.
Definition INITIAL : ParseGeneration := mkGeneration 0.
Definition checked_next (self : ParseGeneration) : option ParseGeneration :=
  mkGeneration <$> checked_add (generation_get self) 1.

Inductive ParseTerminalDisposition :=
| DispositionClean | DispositionRecovered | DispositionCatastrophic | DispositionCancelled
| DispositionBudgetExhausted.
Definition from_completion (completion : ParseCompletion) : ParseTerminalDisposition :=
  match class completion with
  | ClassClean => DispositionClean
  | ClassRecovered => DispositionRecovered
  | ClassCatastrophic => DispositionCatastrophic
  | ClassCancelled => DispositionCancelled
  | ClassBudgetExhausted => DispositionBudgetExhausted
  end.

Inductive ParseSnapshotStrategy :=
| Fresh | IncrementalTokenRestartThenFullParse | IncrementalFullFallback.

#[export] Instance ParseGeneration_eq_dec : EqDecision ParseGeneration.
Proof. solve_decision. Defined.
#[export] Instance ParseTerminalDisposition_eq_dec : EqDecision ParseTerminalDisposition.
Proof. solve_decision. Defined.
#[export] Instance ParseSnapshotStrategy_eq_dec : EqDecision ParseSnapshotStrategy.
Proof. solve_decision. Defined.

(** ** Geometry attachments *)

Definition SOURCE_GEOMETRY_ATTACHMENT_SCHEMA_VERSION : list Z := bytes_of "source_geometry_attachment.v1".

Record SourceGeometryInstanceIdentity := mkInstance { marker_address : Z }.
#[export] Instance Instance_eq_dec : EqDecision SourceGeometryInstanceIdentity.
Proof. solve_decision. Defined.

Record SourceGeometrySubject := mkSubject {
  instance_identity : SourceGeometryInstanceIdentity;
  subject_generation : ParseGeneration;
  subject_content_digest : ContentDigest;
  subject_source_len : Z;
  subject_disposition : ParseTerminalDisposition;
  subject_strategy : ParseSnapshotStrategy;
}.
#[export] Instance Subject_eq_dec : EqDecision SourceGeometrySubject.
Proof. solve_decision. Defined.

(** [SourceGeometrySubject::new] allocates the marker at [fresh]. *)
Definition subject_new (fresh : Z) := mkSubject (mkInstance fresh).
Definition next_for_same_instance (previous : SourceGeometrySubject) :=
  mkSubject (instance_identity previous).
Definition same_instance_as (self other : SourceGeometrySubject) : bool :=
  bool_decide (instance_identity self = instance_identity other).

Inductive SourceGeometryUnavailableReason := ProducerNotRun | ProducerUnavailable.
Inductive SourceGeometryLimitation := IncompleteObservations | RecoveryOrUnsupportedSyntax.
Inductive SourceGeometryInstrumentFailureReason := ProducerFailed | InvalidPayload.

Record SourceGeometryPayload := mkPayload {
  payload_subject : SourceGeometrySubject;
  producer_schema_version : list Z;
  payload_digest : ContentDigest;
  segment_count : Z;
}.

Inductive SourceGeometryAttachmentState :=
| Unavailable (reason : SourceGeometryUnavailableReason)
| Partial (payload : SourceGeometryPayload) (limitations : list SourceGeometryLimitation)
| Complete (payload : SourceGeometryPayload)
| GeometryInstrumentFailure (reason : SourceGeometryInstrumentFailureReason).

Record SourceGeometryAttachment := mkAttachment {
  schema_version : list Z;
  subject : SourceGeometrySubject;
  state : SourceGeometryAttachmentState;
}.
Definition unavailable (subject : SourceGeometrySubject) : SourceGeometryAttachment :=
  mkAttachment SOURCE_GEOMETRY_ATTACHMENT_SCHEMA_VERSION subject (Unavailable ProducerNotRun).

Inductive SourceGeometryValidationError :=
| SchemaVersion | AttachmentSubject | PartialWithoutLimitations | PayloadSubject.

Definition validate_payload_subject (payload : SourceGeometryPayload) (expected : SourceGeometrySubject)
    : result SourceGeometryValidationError unit :=
  if negb (bool_decide (payload_subject payload = expected)) then Err PayloadSubject else Ok tt.

Definition validate_for (self : SourceGeometryAttachment) (expected : SourceGeometrySubject)
    : result SourceGeometryValidationError unit :=
  if negb (bool_decide (schema_version self = SOURCE_GEOMETRY_ATTACHMENT_SCHEMA_VERSION))
  then Err SchemaVersion
  else if negb (bool_decide (subject self = expected)) then Err AttachmentSubject
  else match state self with
  | Unavailable _ | GeometryInstrumentFailure _ => Ok tt
  | Partial payload limitations =>
    if bool_decide (limitations = []) then Err PartialWithoutLimitations
    else validate_payload_subject payload expected
  | Complete payload => validate_payload_subject payload expected
  end.

(** ** Snapshots *)

Inductive ParseOperationFailure := FailureInstrument | FailureNotProven.
Inductive ParseSnapshotConstructionError := ConstructionInstrumentFailure | ConstructionNotProven.

Inductive ParseSnapshotValidationError :=
| SourceLength (recorded observed : Z)
| ContentDigestMismatch (recorded observed : ContentDigest)
| Disposition (recorded observed : ParseTerminalDisposition)
| CompletionError (e : ParseCompletionValidationError)
| InstrumentFailure
| SourceGeometry (e : SourceGeometryValidationError).

Record ParseSnapshot (Node : Type) := mkSnapshot {
  generation : ParseGeneration;
  content_digest : ContentDigest;
  source_len : Z;
  snapshot_completion : ParseCompletion;
  strategy : ParseSnapshotStrategy;
  source_geometry : SourceGeometryAttachment;
  parse_output : ParseOutput Node;
}.
Arguments mkSnapshot {Node}.
Arguments generation {Node}.
Arguments content_digest {Node}.
Arguments source_len {Node}.
Arguments snapshot_completion {Node}.
Arguments strategy {Node}.
Arguments source_geometry {Node}.
Arguments parse_output {Node}.

Section snapshot.
Context `{Ast Node}.
Variable sha256 : list Z -> list Z.
Notation Snapshot := (ParseSnapshot Node).

Definition from_operation_failure (failure : ParseOperationFailure)
    : result ParseSnapshotConstructionError Snapshot :=
  match failure with
  | FailureInstrument => Err ConstructionInstrumentFailure
  | FailureNotProven => Err ConstructionNotProven
  end.

Definition from_output_with_subject (fresh : Z) (source : list Z) (generation : ParseGeneration)
    (strategy : ParseSnapshotStrategy) (parse_output : ParseOutput Node)
    (previous_subject : option SourceGeometrySubject) : outcome Snapshot :=
  let completion := completion parse_output in
  let disposition := from_completion completion in
  content_digest ← of_bytes sha256 source;
  let source_len := len source in
  let geometry_subject :=
    match previous_subject with
    | Some previous =>
      next_for_same_instance previous generation content_digest source_len disposition strategy
    | None => subject_new fresh generation content_digest source_len disposition strategy
    end in
  mret (mkSnapshot generation content_digest source_len completion strategy
          (unavailable geometry_subject) parse_output).

Definition from_output (fresh : Z) (source : list Z) (generation : ParseGeneration)
    (strategy : ParseSnapshotStrategy) (parse_output : ParseOutput Node) : outcome Snapshot :=
  from_output_with_subject fresh source generation strategy parse_output None.
Definition from_output_for_existing_instance (source : list Z) (generation : ParseGeneration)
    (strategy : ParseSnapshotStrategy) (parse_output : ParseOutput Node)
    (previous_subject : SourceGeometrySubject) : outcome Snapshot :=
  from_output_with_subject 0 source generation strategy parse_output (Some previous_subject).

Definition disposition (self : Snapshot) : ParseTerminalDisposition :=
  from_completion (snapshot_completion self).

Definition validate_against (self : Snapshot) (source : list Z)
    : outcome (result ParseSnapshotValidationError unit) :=
  if negb (source_len self =? len source) then Ret (Err (SourceLength (source_len self) (len source)))
  else
    observed_digest ← of_bytes sha256 source;
    if negb (bool_decide (content_digest self = observed_digest))
    then mret (Err (ContentDigestMismatch (content_digest self) observed_digest))
    else
      let observed_completion := completion (parse_output self) in
      if negb (bool_decide (snapshot_completion self = observed_completion))
      then mret (Err (Disposition (from_completion (snapshot_completion self))
                                  (from_completion observed_completion)))
      else match validate_against_output (snapshot_completion self) (parse_output self) with
      | Err e => mret (Err (CompletionError e))
      | Ok _ =>
        match state (source_geometry self) with
        | GeometryInstrumentFailure _ => mret (Err InstrumentFailure)
        | _ =>
          let expected := next_for_same_instance (subject (source_geometry self)) (generation self)
            (content_digest self) (source_len self) (disposition self) (strategy self) in
          mret (map_err SourceGeometry (validate_for (source_geometry self) expected))
        end
      end.
End snapshot.

(** ** Lemmas *)

Section validation.
Context `{Ast Node} (sha256 : list Z -> list Z).
Notation Snapshot := (ParseSnapshot Node).

(** The subject every part of a snapshot has to carry. *)
Definition own_subject (self : Snapshot) : SourceGeometrySubject :=
  next_for_same_instance (subject (source_geometry self)) (generation self) (content_digest self)
    (source_len self) (disposition self) (strategy self).

(** The payload a state carries belongs to the subject. *)
Definition payload_ok (st : SourceGeometryAttachmentState) (expected : SourceGeometrySubject) : Prop :=
  match st with
  | Unavailable _ | GeometryInstrumentFailure _ => True
  | Partial payload limitations => limitations <> [] /\ payload_subject payload = expected
  | Complete payload => payload_subject payload = expected
  end.
Definition instrument_failed (st : SourceGeometryAttachmentState) : bool :=
  match st with GeometryInstrumentFailure _ => true | _ => false end.

Lemma payload_subject_ok payload expected :
  validate_payload_subject payload expected = Ok tt <-> payload_subject payload = expected.
Proof using Type. unfold validate_payload_subject. case_bool_decide; naive_solver. Qed.

Lemma validate_for_ok a expected :
  validate_for a expected = Ok tt <->
  schema_version a = SOURCE_GEOMETRY_ATTACHMENT_SCHEMA_VERSION /\ subject a = expected /\
  payload_ok (state a) expected.
Proof using Type.
  unfold validate_for.
  case_bool_decide; simpl; [|naive_solver]. case_bool_decide; simpl; [|naive_solver].
  destruct (state a) as [|p ls|p|]; simpl; try naive_solver.
  - case_bool_decide; [naive_solver|]. rewrite payload_subject_ok. naive_solver.
  - rewrite payload_subject_ok. naive_solver.
Qed.

Lemma validate_against_ok (self : Snapshot) source :
  0 <= recovered_count (parse_output self) ->
  validate_against sha256 self source = Ret (Ok tt) <->
  source_len self = len source /\ of_bytes sha256 source = Ret (content_digest self) /\
  snapshot_completion self = completion (parse_output self) /\
  instrument_failed (state (source_geometry self)) = false /\
  validate_for (source_geometry self) (own_subject self) = Ok tt.
Proof using Type.
  intros Hn. unfold validate_against.
  destruct (Z.eqb_spec (source_len self) (len source)) as [Hl|Hl]; simpl; [|naive_solver].
  destruct (of_bytes sha256 source) as [d|]; simpl; [|naive_solver].
  case_bool_decide as Hd; simpl; [|naive_solver].
  case_bool_decide as Hc; simpl; [|naive_solver].
  rewrite Hc, completion_validates by done. rewrite <- Hc. fold (own_subject self).
  destruct (state (source_geometry self)); simpl; try naive_solver.
  all: destruct (validate_for _ _) as [[]|]; naive_solver.
Qed.

(** Building a snapshot over a text that can be digested. *)
Lemma from_output_valid fresh source gen strat (output : ParseOutput Node) previous d :
  0 <= recovered_count output -> of_bytes sha256 source = Ret d ->
  exists snap, from_output_with_subject sha256 fresh source gen strat output previous = Ret snap /\
    validate_against sha256 snap source = Ret (Ok tt) /\ parse_output snap = output /\
    generation snap = gen /\ strategy snap = strat /\ content_digest snap = d /\
    instance_identity (subject (source_geometry snap)) =
      (match previous with Some p => instance_identity p | None => mkInstance fresh end).
Proof using Type.
  intros Hn Hd. unfold from_output_with_subject. rewrite Hd. eexists. split; [reflexivity|]. simpl.
  rewrite validate_against_ok by done. simpl. split_and!; try done.
  - apply validate_for_ok. simpl. split_and!; try done. by destruct previous.
  - by destruct previous.
Qed.
End validation.

(** ** Theorems *)

(** The snapshot with another geometry state attached. *)
Definition with_geometry {Node} (s : ParseSnapshot Node) (st : SourceGeometryAttachmentState) : ParseSnapshot Node :=
  mkSnapshot (generation s) (content_digest s) (source_len s) (snapshot_completion s) (strategy s)
    (mkAttachment (schema_version (source_geometry s)) (subject (source_geometry s)) st) (parse_output s).

(** A snapshot validates against the source it was built from and, short
    of a digest collision, against no other text.  Its geometry subject names
    the same generation, source and strategy, inside the parser lifetime it
    continues; a complete geometry payload validates exactly when it was
    produced for that subject, so a payload of another lifetime, generation
    or source is refused. *)
Theorem snapshot_is_bound `{Ast Node} sha256 fresh source gen strat (output : ParseOutput Node) previous snap :
  (forall x, bytes_ok (sha256 x) /\ len (sha256 x) = 32) -> 0 <= recovered_count output ->
  from_output_with_subject sha256 fresh source gen strat output previous = Ret snap ->
  validate_against sha256 snap source = Ret (Ok tt) /\
  (forall source', validate_against sha256 snap source' = Ret (Ok tt) -> source' = source \/ collision sha256) /\
  parse_output snap = output /\ generation snap = gen /\
  instance_identity (subject (source_geometry snap)) =
    (match previous with Some p => instance_identity p | None => mkInstance fresh end) /\
  (forall payload,
     validate_against sha256 (with_geometry snap (Complete payload)) source = Ret (Ok tt) <->
     payload_subject payload = subject (source_geometry snap)).
Proof.
  intros Hh Hn E. destruct (of_bytes sha256 source) as [d|] eqn:Hd;
    [|unfold from_output_with_subject in E; by rewrite Hd in E].
  destruct (from_output_valid sha256 fresh source gen strat output previous d Hn Hd)
    as (s & Es & Hv & <- & <- & _ & Hds & Hi). rewrite Es in E. injection E as ->.
  split_and!; try done.
  - intros source' Hv'%validate_against_ok; [|done]. destruct Hv' as (_ & Hd' & _). simpl in Hd'.
    rewrite Hds in Hd'. by eapply of_bytes_inj.
  - apply validate_against_ok in Hv as (V1 & V2 & V3 & _ & V5); [|done].
    apply validate_for_ok in V5 as (W1 & W2 & _).
    intros payload. rewrite validate_against_ok by done. rewrite validate_for_ok. simpl.
    rewrite W2. unfold own_subject in *. simpl. rewrite W2 at 1. naive_solver.
Qed.

Lemma snapshot_is_bound_witness : exists snap,
  from_output_with_subject sample_hash 7 [109; 121] INITIAL Fresh (success tt) None = Ret snap /\
  validate_against sample_hash snap [109; 121] = Ret (Ok tt) /\
  (forall source', validate_against sample_hash snap source' = Ret (Ok tt) ->
     source' = [109; 121] \/ collision sample_hash).
Proof.
  eexists. split; [vm_compute; reflexivity|].
  edestruct (snapshot_is_bound sample_hash 7 [109; 121] INITIAL Fresh (success tt) None)
    as (H1 & H2 & _); [exact sample_hash_ok| |vm_compute; reflexivity|split; [exact H1|exact H2]].
  vm_compute. discriminate.
Defined.
