(* ===== verification/TextEdits.v ===== *)
(** * The edit pipeline (perl-parser/src/incremental: mod.rs, edit.rs,
      reparse.rs, incremental_edit.rs, incremental_document.rs)

    How the incremental parser changes its source text.  [Batch] is the
    validated batch of [apply_edits]; [EditSet] the tolerant edit set;
    [Document] the document that refuses, rewrites and reparses.  The parser
    is a parameter here: this file is about the text, the version and what a
    refusal leaves behind.  Proved: on every transaction that the reference
    model accepts, in whatever order the edits arrive, all three produce the
    reference successor; the batch accepts exactly the well-formed batches; a
    refused edit changes nothing. *)

From Stdlib Require Import Sorted.
From stdpp Require Import base numbers sets list.
From S2P Require Import Snapshot.
From S2P Require Import Prelude Utf8 Spans LineIndex ByteLineIndex ReferenceEdit.

(** ** The validated batch of [apply_edits] *)

Module Batch.

(** [Edit] of edit.rs *)
Record Edit := mkEdit { start_byte : Z; old_end_byte : Z; new_end_byte : Z; new_text : list Z }.

Definition touched_bytes (self : Edit) : Z :=
  Z.max (saturating_sub (old_end_byte self) (start_byte self)) (len (new_text self)).

Inductive BatchError :=
| RangeInvalid (s e source_len : Z)
| NotOnBoundaries (s e : Z)
| NewRangeOverflow
| NewEndMismatch (new_end expected : Z)
| OverlappingOrAmbiguous (ps pe s e : Z)
| TotalOverflow.

(** The sort key [(start_byte, old_end_byte)]. *)
Definition key_le (a b : Edit) : bool :=
  (start_byte a <? start_byte b) ||
  ((start_byte a =? start_byte b) && (old_end_byte a <=? old_end_byte b)).

Definition collides (previous : option Edit) (e : Edit) : option Edit :=
  match previous with
  | Some p =>
    if (start_byte e <? old_end_byte p) || (start_byte e =? start_byte p) then Some p else None
  | None => None
  end.

Fixpoint validate_loop (source : list Z) (previous : option Edit) (total_changed : Z) (es : list Edit)
    : result BatchError Z :=
  match es with
  | [] => Ok total_changed
  | e :: es =>
    if (old_end_byte e <? start_byte e) || (len source <? old_end_byte e) then
      Err (RangeInvalid (start_byte e) (old_end_byte e) (len source))
    else if negb (is_char_boundary source (start_byte e)) ||
            negb (is_char_boundary source (old_end_byte e)) then
      Err (NotOnBoundaries (start_byte e) (old_end_byte e))
    else match checked_add (start_byte e) (len (new_text e)) with
    | None => Err NewRangeOverflow
    | Some expected_new_end =>
      if negb (new_end_byte e =? expected_new_end) then
        Err (NewEndMismatch (new_end_byte e) expected_new_end)
      else match collides previous e with
      | Some p => Err (OverlappingOrAmbiguous (start_byte p) (old_end_byte p) (start_byte e) (old_end_byte e))
      | None =>
        match checked_add total_changed (touched_bytes e) with
        | None => Err TotalOverflow
        | Some total_changed => validate_loop source (Some e) total_changed es
        end
      end
    end
  end.

Definition validate_edits (source : list Z) (es : list Edit) : result BatchError Z :=
  validate_loop source None 0 (sort_by key_le es).

(** The text-bearing part of the state; its rope is built from the same text. *)
Record TextState := mkTextState { source : list Z; line_index : ByteLineIndex.t }.
Definition replace_source_text (src : list Z) : TextState :=
  mkTextState src (ByteLineIndex.new src).

(** [apply_text_edit_to_state]; an error is "not on UTF-8 boundaries". *)
Definition apply_text_edit_to_state (state : TextState) (e : Edit)
    : outcome (result BatchError TextState) :=
  let old_end := Z.min (old_end_byte e) (len (source state)) in
  let start := Z.min (start_byte e) (len (source state)) in
  if negb (is_char_boundary (source state) start) || negb (is_char_boundary (source state) old_end)
  then Ret (Err (NotOnBoundaries start old_end))
  else
    (* the capacity [len - (old_end - start) + new_text.len()] *)
    d ← usize_sub old_end start;
    c ← usize_sub (len (source state)) d;
    _ ← usize_add c (len (new_text e));
    prefix ← str_index (source state) 0 start;
    suffix ← str_index (source state) old_end (len (source state));
    mret (Ok (replace_source_text (prefix ++ new_text e ++ suffix))).

Fixpoint apply_text_edits (state : TextState) (edits_descending : list Edit)
    : outcome (result BatchError TextState) :=
  match edits_descending with
  | [] => Ret (Ok state)
  | e :: es => state ←? apply_text_edit_to_state state e; apply_text_edits state es
  end.

Definition start_le (a b : Edit) : bool := start_byte a <=? start_byte b.

(** The text part of [apply_edits]: every path that commits a batch applies
    the edits sorted by start, in reverse. *)
Definition edited_text (state : TextState) (es : list Edit) : outcome (result BatchError TextState) :=
  match validate_edits (source state) es with
  | Err e => Ret (Err e)
  | Ok _ => apply_text_edits state (reverse (sort_by start_le es))
  end.

End Batch.

(** ** The edit set of incremental_edit.rs *)

Module EditSet.

Record IncrementalEdit := mkEdit { start_byte : Z; old_end_byte : Z; new_text : list Z }.
#[export] Instance IncrementalEdit_eq_dec : EqDecision IncrementalEdit.
Proof. solve_decision. Defined.

Definition new_end_byte (self : IncrementalEdit) : outcome Z :=
  usize_add (start_byte self) (len (new_text self)).
Definition byte_shift (self : IncrementalEdit) : outcome Z :=
  d ← usize_sub (old_end_byte self) (start_byte self);
  isize_op (as_isize (len (new_text self)) - as_isize d).
Definition overlaps (self : IncrementalEdit) (s e : Z) : bool :=
  (start_byte self <? e) && (s <? old_end_byte self).
Definition is_before (self : IncrementalEdit) (pos : Z) : bool := old_end_byte self <=? pos.
Definition is_after (self : IncrementalEdit) (pos : Z) : bool := pos <=? start_byte self.
Definition is_obvious_no_op (self : IncrementalEdit) : bool :=
  (start_byte self =? old_end_byte self) && (len (new_text self) =? 0).

(** The set operations of [IncrementalEditSet]. *)
Definition add (self : list IncrementalEdit) (e : IncrementalEdit) : list IncrementalEdit := self ++ [e].
Definition sort (self : list IncrementalEdit) : list IncrementalEdit :=
  sort_by (fun a b => start_byte a <=? start_byte b) self.
Definition sort_reverse (self : list IncrementalEdit) : list IncrementalEdit :=
  sort_by (fun a b => start_byte b <=? start_byte a) self.
Fixpoint total_byte_shift (self : list IncrementalEdit) : outcome Z :=
  match self with
  | [] => Ret 0
  | e :: self => d ← byte_shift e; r ← total_byte_shift self; isize_op (d + r)
  end.

Inductive BatchError :=
| BackwardRange (index start_byte old_end_byte : Z)
| OverlappingEdits (left_index right_index : Z).

(** [str::cmp]: lexicographic on the bytes. *)
Fixpoint lex_le (a b : list Z) : bool :=
  match a, b with
  | [], _ => true
  | _ :: _, [] => false
  | x :: a, y :: b => (x <? y) || ((x =? y) && lex_le a b)
  end.

(** The comparator of [sort_reverse_deterministic] and [apply_to_string]. *)
Definition reverse_le (left right : IncrementalEdit) : bool :=
  (start_byte right <? start_byte left) ||
  ((start_byte right =? start_byte left) &&
   ((old_end_byte right <? old_end_byte left) ||
    ((old_end_byte right =? old_end_byte left) && lex_le (new_text left) (new_text right)))).

(** The comparator of [normalize_for_source]. *)
Definition reverse_range_le (left right : IncrementalEdit) : bool :=
  (start_byte right <? start_byte left) ||
  ((start_byte right =? start_byte left) && (old_end_byte right <=? old_end_byte left)).

Definition sort_reverse_deterministic (es : list IncrementalEdit) : list IncrementalEdit :=
  sort_by reverse_le es.

Fixpoint first_backward (index : Z) (es : list IncrementalEdit) : option BatchError :=
  match es with
  | [] => None
  | e :: es =>
    if old_end_byte e <? start_byte e
    then Some (BackwardRange index (start_byte e) (old_end_byte e))
    else first_backward (index + 1) es
  end.

(** The inner loop over [right], then the outer loop over [left]. *)
Fixpoint first_overlap_right (l : IncrementalEdit) (left right : Z) (es : list IncrementalEdit)
    : option BatchError :=
  match es with
  | [] => None
  | r :: es =>
    if overlaps l (start_byte r) (old_end_byte r) then Some (OverlappingEdits left right)
    else first_overlap_right l left (right + 1) es
  end.
Fixpoint first_overlap (left : Z) (es : list IncrementalEdit) : option BatchError :=
  match es with
  | [] => None
  | l :: es =>
    match first_overlap_right l left (left + 1) es with
    | Some e => Some e
    | None => first_overlap (left + 1) es
    end
  end.

(** [normalize_and_validate]: the result and the edits it leaves behind. *)
Definition normalize_and_validate (es : list IncrementalEdit) (allow_overlaps filter_no_ops : bool)
    : result BatchError unit * list IncrementalEdit :=
  match first_backward 0 es with
  | Some e => (Err e, es)
  | None =>
    let es := if filter_no_ops then filter (fun e => is_obvious_no_op e = false) es else es in
    let es := sort_reverse_deterministic es in
    if allow_overlaps then (Ok tt, es)
    else match first_overlap 0 es with Some e => (Err e, es) | None => (Ok tt, es) end
  end.

Definition is_edit_mappable (source : list Z) (e : IncrementalEdit) : bool :=
  if old_end_byte e <? start_byte e then false
  else if len source <? old_end_byte e then false
  else is_char_boundary source (start_byte e) && is_char_boundary source (old_end_byte e).

Fixpoint apply_loop (result : list Z) (es : list IncrementalEdit) : outcome (list Z) :=
  match es with
  | [] => Ret result
  | e :: es =>
    if is_edit_mappable result e then
      r ← replace_range result (start_byte e) (old_end_byte e) (new_text e);
      apply_loop r es
    else apply_loop result es
  end.

Definition apply_to_string (self : list IncrementalEdit) (source : list Z) : outcome (list Z) :=
  if bool_decide (self = []) then Ret source
  else apply_loop source (sort_by reverse_le self).

(** The overlap loop of [normalize_for_source]: empty ranges are skipped. *)
Fixpoint non_empty_disjoint (previous : option IncrementalEdit) (es : list IncrementalEdit) : bool :=
  match es with
  | [] => true
  | e :: es =>
    if start_byte e =? old_end_byte e then non_empty_disjoint previous es
    else match previous with
    | Some p => if start_byte p <? old_end_byte e then false else non_empty_disjoint (Some e) es
    | None => non_empty_disjoint (Some e) es
    end
  end.

Definition normalize_for_source (self : list IncrementalEdit) (source : list Z)
    : option (list IncrementalEdit) :=
  if forallb (is_edit_mappable source) self then
    let sorted := sort_by reverse_range_le self in
    if non_empty_disjoint None sorted then Some sorted else None
  else None.

End EditSet.

(** ** The document of incremental_document.rs *)

Module Document.
Import EditSet.

Inductive IncrementalEditRefusal := RefuseBackwardRange | RefuseOutOfRange | RefuseNotCharBoundary.

Section document.
(** The parser of the edited source and the caches rebuilt from its tree. *)
Context {Node Cache ParseError : Type}.
Variable parse : list Z -> result ParseError Node.
Variable build_cache : Node -> Cache.

Inductive IncrementalDocumentError :=
| InvalidEdit (start_byte old_end_byte source_len : Z) (reason : IncrementalEditRefusal)
    (index : option Z)
| Parse (e : ParseError).

Record t := mk {
  root : Node;
  source : list Z;
  version : Z;
  subtree_cache : Cache;
  last_strategy : Snapshot.ParseSnapshotStrategy;
}.

Definition new (src : list Z) : result ParseError t :=
  r ← parse src; mret (mk r src 0 (build_cache r) Snapshot.Fresh).

Definition edit_refusal (src : list Z) (e : IncrementalEdit) : option IncrementalEditRefusal :=
  if old_end_byte e <? start_byte e then Some RefuseBackwardRange
  else if len src <? old_end_byte e then Some RefuseOutOfRange
  else if negb (is_char_boundary src (start_byte e)) || negb (is_char_boundary src (old_end_byte e))
  then Some RefuseNotCharBoundary
  else None.

Definition invalid_edit (e : IncrementalEdit) (source_len : Z) (reason : IncrementalEditRefusal)
    (index : option Z) : IncrementalDocumentError :=
  InvalidEdit (start_byte e) (old_end_byte e) source_len reason index.

Definition try_map_edit_range (src : list Z) (e : IncrementalEdit) : option (Z * Z) :=
  match edit_refusal src e with Some _ => None | None => Some (start_byte e, old_end_byte e) end.

Definition map_edit_range (src : list Z) (e : IncrementalEdit) (index : option Z)
    : result IncrementalDocumentError (Z * Z) :=
  match try_map_edit_range src e with
  | Some range => Ok range
  | None => Err (invalid_edit e (len src) (default RefuseOutOfRange (edit_refusal src e)) index)
  end.

Definition mapped_source (self : t) (e : IncrementalEdit) (index : option Z)
    : outcome (result IncrementalDocumentError (list Z)) :=
  match map_edit_range (source self) e index with
  | Err err => Ret (Err err)
  | Ok (s, e') =>
    _ ← usize_add (len (source self)) (len (new_text e));
    prefix ← str_index (source self) 0 s;
    suffix ← str_index (source self) e' (len (source self));
    mret (Ok (prefix ++ new_text e ++ suffix))
  end.

(** [apply_edit_in_place]: the new text, or [None] when the edit does not map. *)
Definition apply_edit_in_place (src : list Z) (e : IncrementalEdit) : outcome (option (list Z)) :=
  match try_map_edit_range src e with
  | None => mret None
  | Some (s, e') => r ← replace_range src s e' (new_text e); mret (Some r)
  end.

(** [commit_fresh_parse]: the parse and the version check come before any
    field is written. *)
Definition commit_fresh_parse (self : t) (new_source : list Z) (strategy : Snapshot.ParseSnapshotStrategy)
    : result IncrementalDocumentError unit * t :=
  match parse new_source with
  | Err e => (Err (Parse e), self)
  | Ok new_root =>
    match checked_add (version self) 1 with
    | None => (Err (InvalidEdit 0 0 (len new_source) RefuseOutOfRange None), self)
    | Some next_version =>
      (Ok tt, mk new_root new_source next_version (build_cache new_root) strategy)
    end
  end.

Definition apply_edit (self : t) (e : IncrementalEdit)
    : outcome (result IncrementalDocumentError unit * t) :=
  r ← mapped_source self e None;
  match r with
  | Err err => mret (Err err, self)
  | Ok new_source => mret (commit_fresh_parse self new_source Snapshot.IncrementalFullFallback)
  end.

Fixpoint first_refusal (src : list Z) (index : Z) (es : list IncrementalEdit)
    : option IncrementalDocumentError :=
  match es with
  | [] => None
  | e :: es =>
    match edit_refusal src e with
    | Some reason => Some (invalid_edit e (len src) reason (Some index))
    | None => first_refusal src (index + 1) es
    end
  end.

Fixpoint apply_sorted (new_source : list Z) (es : list IncrementalEdit)
    : outcome (result IncrementalDocumentError (list Z)) :=
  match es with
  | [] => Ret (Ok new_source)
  | e :: es =>
    r ← apply_edit_in_place new_source e;
    match r with
    | None => mret (Err (invalid_edit e (len new_source) RefuseOutOfRange None))
    | Some new_source => apply_sorted new_source es
    end
  end.

Definition edited_source (self : t) (es : list IncrementalEdit)
    : outcome (result IncrementalDocumentError (list Z)) :=
  match normalize_for_source es (source self) with
  | Some sorted => apply_sorted (source self) sorted
  | None => r ← apply_to_string es (source self); mret (Ok r)
  end.

Definition apply_edits (self : t) (es : list IncrementalEdit)
    : outcome (result IncrementalDocumentError unit * t) :=
  if bool_decide (es = []) then Ret (Ok tt, self)
  else match first_refusal (source self) 0 es with
  | Some err => Ret (Err err, self)
  | None =>
    r ← edited_source self es;
    match r with
    | Err err => mret (Err err, self)
    | Ok new_source => mret (commit_fresh_parse self new_source Snapshot.IncrementalFullFallback)
    end
  end.
End document.

End Document.

(** ** Applying a cut text from its end *)

(** Anything that replaces one range can be run over the edits in reverse. *)
Section descending.
Context {E : Type} (step : list Z -> E -> outcome (list Z)) (to_ref : E -> ReferenceEdit).
Hypothesis step_mid : forall c1 o c3 r e,
  scalars (c1 ++ o ++ c3) ->
  ReferenceEdit.start_byte (to_ref e) = blen c1 ->
  ReferenceEdit.old_end_byte (to_ref e) = blen c1 + blen o ->
  replacement (to_ref e) = encode r -> scalars r ->
  blen (c1 ++ o ++ c3) + blen r <= usize_max ->
  step (encode (c1 ++ o ++ c3)) e = Ret (encode (c1 ++ r ++ c3)).

Fixpoint run (src : list Z) (es : list E) : outcome (list Z) :=
  match es with [] => Ret src | e :: es => r ← step src e; run r es end.

Lemma run_app src es1 es2 : run src (es1 ++ es2) = (r ← run src es1; run r es2).
Proof using Type.
  revert src. induction es1 as [|e es1 IH]; intros src; [done|]. simpl.
  destruct (step src e); simpl; [apply IH|done].
Qed.

Fixpoint total_text (es : list E) : Z :=
  match es with [] => 0 | e :: es => len (replacement (to_ref e)) + total_text es end.

Lemma run_reverse pre rest es out :
  cuts rest (blen pre) (to_ref <$> es) out -> scalars (pre ++ rest) ->
  blen (pre ++ rest) + total_text es <= usize_max ->
  run (encode (pre ++ rest)) (reverse es) = Ret (encode (pre ++ out)) /\
  blen (pre ++ out) <= blen (pre ++ rest) + total_text es.
Proof using step_mid.
  revert pre rest out. induction es as [|e es IH]; intros pre rest out Hcut Hs Hu; simpl in Hcut.
  - inversion Hcut; subst. simpl. split; [done|lia].
  - inversion Hcut as [|p o rest0 ? ? r ? out0 E1 E2 Er Hr Hcut']; subst.
    cbn [total_text] in *. rewrite Er, len_encode in *. pose proof (blen_nonneg r).
    destruct (IH ((pre ++ p) ++ o) rest0 out0) as [IH1 IH2].
    + by rewrite !blen_app, <- E2.
    + by rewrite <- !app_assoc.
    + rewrite <- !app_assoc. lia.
    + rewrite <- !app_assoc in IH1. rewrite <- !app_assoc in IH2.
      rewrite reverse_cons, run_app, IH1. cbn [mbind outcome_bind run].
      rewrite (app_assoc pre p).
      rewrite (step_mid (pre ++ p) o out0 r); try done.
      * rewrite <- !app_assoc. split; [done|]. rewrite !blen_app in *.
        pose proof (blen_nonneg o). lia.
      * rewrite <- app_assoc, !scalars_app in *. destruct Hs as (? & ? & ? & ?).
        repeat split; try done. by eapply cuts_scalars.
      * by rewrite blen_app.
      * by rewrite blen_app.
      * rewrite <- app_assoc. lia.
Qed.
End descending.

(** ** Sorting edits with distinct starts *)

Lemma StronglySorted_reverse {A} (R : A -> A -> Prop) l :
  StronglySorted R l -> StronglySorted (fun x y => R y x) (reverse l).
Proof.
  induction 1 as [|x l Hl IH Hx]; [constructor|]. rewrite reverse_cons.
  assert (Forall (fun y => R x y) (reverse l)) as Hx' by (by rewrite reverse_Permutation).
  clear Hx Hl. induction IH as [|y k Hk IHk Hy]; simpl.
  - repeat constructor.
  - inversion Hx'; subst. constructor; [by apply IHk|].
    apply Forall_app. split; [done|]. by repeat constructor.
Qed.

Section by_start.
Context {A : Type} (key : A -> Z) (le : A -> A -> bool) (l : list A).
Hypothesis le_total : forall x y, le x y = false -> le y x = true.
Hypothesis le_trans : forall x y z, le x y = true -> le y z = true -> le x z = true.
Hypothesis Hl : StronglySorted (fun x y => key x < key y) l.

Lemma key_separates x y : x ∈ l -> y ∈ l -> key x = key y -> x = y.
Proof using Hl.
  clear le le_total le_trans. induction Hl as [|z k Hk IH Hz]; [by intros ?%elem_of_nil|].
  rewrite Forall_forall in Hz. intros Hx Hy E.
  apply elem_of_cons in Hx as [->|Hx]; apply elem_of_cons in Hy as [->|Hy]; auto.
  - specialize (Hz y Hy). lia.
  - specialize (Hz x Hx). lia.
Qed.

(** An order that follows the key sorts every permutation the same way. *)
Lemma sort_by_key l' :
  (forall x y, key x < key y -> le x y = true) -> (forall x y, le x y = true -> key x <= key y) ->
  l' ≡ₚ l -> sort_by le l' = l.
Proof using Hl le_total le_trans.
  intros H1 H2 Hp. apply (ordered_unique le).
  - by apply sort_by_ordered.
  - induction Hl as [|z k Hk IH Hz]; constructor; [|eapply Forall_impl; [exact Hz|]; auto].
    clear - Hk H1. induction Hk as [|w k Hk IH Hw]; constructor; [done|].
    eapply Forall_impl; [exact Hw|]; auto.
  - by rewrite sort_by_perm.
  - intros x y Hx Hy E1 E2. rewrite sort_by_perm, Hp in Hx. rewrite sort_by_perm, Hp in Hy.
    apply key_separates; [done|done|]. apply H2 in E1, E2. lia.
Qed.

(** The same for an order against the key. *)
Lemma sort_by_key_desc l' :
  (forall x y, key y < key x -> le x y = true) -> (forall x y, le x y = true -> key y <= key x) ->
  l' ≡ₚ l -> sort_by le l' = reverse l.
Proof using Hl le_total le_trans.
  intros H1 H2 Hp. apply (ordered_unique le).
  - by apply sort_by_ordered.
  - apply StronglySorted_reverse in Hl. unfold ordered. clear Hp le_total le_trans l'.
    induction Hl as [|z k Hk IH Hz]; constructor; [|eapply Forall_impl; [exact Hz|]; auto].
    clear - Hk H1. induction Hk as [|w k Hk IH Hw]; constructor; [done|].
    eapply Forall_impl; [exact Hw|]; auto.
  - by rewrite sort_by_perm, reverse_Permutation.
  - intros x y Hx Hy E1 E2. rewrite sort_by_perm, Hp in Hx. rewrite sort_by_perm, Hp in Hy.
    apply key_separates; [done|done|]. apply H2 in E1, E2. lia.
Qed.
End by_start.

Lemma lex_le_total a b : EditSet.lex_le a b = false -> EditSet.lex_le b a = true.
Proof.
  revert b. induction a as [|x a IH]; intros [|y b]; simpl; try done.
  rewrite orb_false_iff, andb_false_iff, Z.ltb_ge, Z.eqb_neq.
  intros [H1 H2]. rewrite orb_true_iff, andb_true_iff, Z.ltb_lt, Z.eqb_eq.
  destruct (Z.eq_dec y x) as [->|]; [right|left; lia].
  split; [done|]. apply IH. by destruct H2.
Qed.

Lemma lex_le_trans a b c :
  EditSet.lex_le a b = true -> EditSet.lex_le b c = true -> EditSet.lex_le a c = true.
Proof.
  revert b c. induction a as [|x a IH]; intros [|y b] [|z c]; simpl; try done.
  rewrite !orb_true_iff, !andb_true_iff, !Z.ltb_lt, !Z.eqb_eq.
  intros [?|[-> Ha]] [?|[-> Hb]]; [left; lia|left; lia|left; lia|right].
  split; [done|]. by eapply IH.
Qed.

Lemma key_le_total x y : Batch.key_le x y = false -> Batch.key_le y x = true.
Proof. unfold Batch.key_le. bcase; done. Qed.
Lemma key_le_trans x y z : Batch.key_le x y = true -> Batch.key_le y z = true -> Batch.key_le x z = true.
Proof. unfold Batch.key_le. rewrite !orb_true_iff, !andb_true_iff, !Z.ltb_lt, !Z.eqb_eq, !Z.leb_le. lia. Qed.

Lemma range_le_total x y :
  EditSet.reverse_range_le x y = false -> EditSet.reverse_range_le y x = true.
Proof. unfold EditSet.reverse_range_le. bcase; done. Qed.
Lemma range_le_trans x y z :
  EditSet.reverse_range_le x y = true -> EditSet.reverse_range_le y z = true ->
  EditSet.reverse_range_le x z = true.
Proof.
  unfold EditSet.reverse_range_le.
  rewrite !orb_true_iff, !andb_true_iff, !Z.ltb_lt, !Z.eqb_eq, !Z.leb_le. lia.
Qed.

Lemma reverse_le_total x y : EditSet.reverse_le x y = false -> EditSet.reverse_le y x = true.
Proof.
  unfold EditSet.reverse_le. pose proof (lex_le_total (EditSet.new_text x) (EditSet.new_text y)).
  destruct (EditSet.lex_le (EditSet.new_text x) (EditSet.new_text y)); bcase; simpl; try done; auto.
Qed.
Lemma reverse_le_trans x y z :
  EditSet.reverse_le x y = true -> EditSet.reverse_le y z = true -> EditSet.reverse_le x z = true.
Proof.
  unfold EditSet.reverse_le.
  rewrite !orb_true_iff, !andb_true_iff, !orb_true_iff, !andb_true_iff, !Z.ltb_lt, !Z.eqb_eq.
  pose proof (lex_le_trans (EditSet.new_text x) (EditSet.new_text y) (EditSet.new_text z)).
  intros [?|[? [?|[? ?]]]] [?|[? [?|[? ?]]]]; try (left; lia); right; (split; [lia|]);
    try (left; lia); right; split; try lia; auto.
Qed.

(** ** One edit of a well-formed batch *)

(** The same edit as each component records it. *)
Definition reference_edit (e : EditSet.IncrementalEdit) : ReferenceEdit :=
  replace (EditSet.start_byte e) (EditSet.old_end_byte e) (EditSet.new_text e).
Definition batch_edit (e : EditSet.IncrementalEdit) : Batch.Edit :=
  Batch.mkEdit (EditSet.start_byte e) (EditSet.old_end_byte e)
    (EditSet.start_byte e + len (EditSet.new_text e)) (EditSet.new_text e).

Lemma middle_boundaries c1 o c3 :
  scalars (c1 ++ o ++ c3) ->
  is_char_boundary (encode (c1 ++ o ++ c3)) (blen c1) = true /\
  is_char_boundary (encode (c1 ++ o ++ c3)) (blen c1 + blen o) = true.
Proof.
  intros Hs. split; [by apply boundary_prefix|].
  rewrite <- blen_app, app_assoc. apply boundary_prefix. by rewrite <- app_assoc.
Qed.

Lemma prefix_slice c1 o c3 :
  scalars (c1 ++ o ++ c3) ->
  str_index (encode (c1 ++ o ++ c3)) 0 (blen c1) = Ret (encode c1) /\
  str_index (encode (c1 ++ o ++ c3)) (blen c1 + blen o) (blen (c1 ++ o ++ c3)) = Ret (encode c3).
Proof.
  intros Hs. split.
  - by apply (str_index_mid [] c1 (o ++ c3)).
  - pose proof (str_index_mid (c1 ++ o) c3 []) as E. rewrite !app_nil_r, <- !app_assoc in E.
    rewrite !blen_app in *. rewrite Z.add_assoc. by apply E.
Qed.

(** [apply_text_edit_to_state] replaces the range. *)
Lemma batch_step c1 o c3 r e :
  scalars (c1 ++ o ++ c3) ->
  EditSet.start_byte e = blen c1 -> EditSet.old_end_byte e = blen c1 + blen o ->
  EditSet.new_text e = encode r -> blen (c1 ++ o ++ c3) + blen r <= usize_max ->
  Batch.apply_text_edit_to_state (Batch.replace_source_text (encode (c1 ++ o ++ c3))) (batch_edit e) =
    Ret (Ok (Batch.replace_source_text (encode (c1 ++ r ++ c3)))).
Proof.
  intros Hs E1 E2 Er Hu. unfold Batch.apply_text_edit_to_state.
  cbn [Batch.source Batch.replace_source_text Batch.start_byte Batch.old_end_byte Batch.new_text batch_edit].
  destruct (middle_boundaries c1 o c3 Hs) as [B1 B2]. destruct (prefix_slice c1 o c3 Hs) as [P1 P2].
  rewrite E1, E2, Er, !len_encode. rewrite !blen_app in *.
  pose proof (blen_nonneg c1). pose proof (blen_nonneg o). pose proof (blen_nonneg c3). pose proof (blen_nonneg r).
  rewrite !Z.min_l by lia. rewrite B1, B2. cbn [negb orb].
  unfold usize_sub, usize_add. rewrite !arith_Ret by lia. cbn [mbind outcome_bind].
  rewrite !arith_Ret by lia. cbn [mbind outcome_bind]. rewrite !arith_Ret by lia. cbn [mbind outcome_bind].
  rewrite P1, P2. cbn [mbind outcome_bind]. by rewrite !encode_app.
Qed.

Lemma mappable_mid c1 o c3 e :
  scalars (c1 ++ o ++ c3) ->
  EditSet.start_byte e = blen c1 -> EditSet.old_end_byte e = blen c1 + blen o ->
  EditSet.is_edit_mappable (encode (c1 ++ o ++ c3)) e = true /\
  Document.edit_refusal (encode (c1 ++ o ++ c3)) e = None.
Proof.
  intros Hs E1 E2. unfold EditSet.is_edit_mappable, Document.edit_refusal.
  destruct (middle_boundaries c1 o c3 Hs) as [B1 B2].
  rewrite E1, E2, len_encode, B1, B2, !blen_app.
  pose proof (blen_nonneg o). pose proof (blen_nonneg c3). by bcase.
Qed.

(** An edit in shape is mappable and not refused. *)
Lemma in_shape_mappable src e :
  in_shape src (reference_edit e) ->
  EditSet.is_edit_mappable src e = true /\ Document.edit_refusal src e = None.
Proof.
  intros (Hr & B1 & B2). simpl in *. unfold EditSet.is_edit_mappable, Document.edit_refusal.
  rewrite B1, B2. by bcase.
Qed.

(** ** The steps of each component, as functions on the text *)

Definition batch_run_step (src : list Z) (e : EditSet.IncrementalEdit) : outcome (list Z) :=
  match Batch.apply_text_edit_to_state (Batch.replace_source_text src) (batch_edit e) with
  | Ret (Ok s) => Ret (Batch.source s) | _ => Panic end.

Definition set_run_step (src : list Z) (e : EditSet.IncrementalEdit) : outcome (list Z) :=
  if EditSet.is_edit_mappable src e
  then replace_range src (EditSet.start_byte e) (EditSet.old_end_byte e) (EditSet.new_text e)
  else Ret src.

Lemma batch_text_state src e s :
  Batch.apply_text_edit_to_state (Batch.replace_source_text src) e = Ret (Ok s) ->
  s = Batch.replace_source_text (Batch.source s).
Proof.
  unfold Batch.apply_text_edit_to_state. case_match; [done|].
  repeat (let a := fresh "a" in intros (a & _ & H')%bind_Ret_inv; revert H').
  by intros [= <-].
Qed.

Lemma batch_run src es out :
  run batch_run_step src es = Ret out ->
  Batch.apply_text_edits (Batch.replace_source_text src) (batch_edit <$> es) =
    Ret (Ok (Batch.replace_source_text out)).
Proof.
  revert src. induction es as [|e es IH]; intros src H; simpl in H; [by simplify_eq|].
  apply bind_Ret_inv in H as (src' & H1 & H2). unfold batch_run_step in H1.
  cbn [Batch.apply_text_edits fmap list_fmap].
  destruct (Batch.apply_text_edit_to_state (Batch.replace_source_text src) (batch_edit e))
    as [[s|]|] eqn:E; [|done|done].
  injection H1 as <-. rewrite (batch_text_state _ _ _ E). cbn [try_bind]. by apply IH.
Qed.

Lemma set_run src es : EditSet.apply_loop src es = run set_run_step src es.
Proof.
  revert src. induction es as [|e es IH]; intros src; [done|].
  cbn [EditSet.apply_loop run].
  destruct (EditSet.is_edit_mappable src e) eqn:M.
  - assert (set_run_step src e =
      replace_range src (EditSet.start_byte e) (EditSet.old_end_byte e) (EditSet.new_text e)) as ->
      by (unfold set_run_step; by rewrite M).
    destruct (replace_range _ _ _ _); [apply IH|done].
  - assert (set_run_step src e = Ret src) as -> by (unfold set_run_step; by rewrite M). apply IH.
Qed.

Section steps.
Context (c1 o c3 r : list Z) (e : EditSet.IncrementalEdit).
Hypothesis Hs : scalars (c1 ++ o ++ c3).
Hypothesis E1 : EditSet.start_byte e = blen c1.
Hypothesis E2 : EditSet.old_end_byte e = blen c1 + blen o.
Hypothesis Er : EditSet.new_text e = encode r.

Lemma batch_run_step_mid :
  blen (c1 ++ o ++ c3) + blen r <= usize_max ->
  batch_run_step (encode (c1 ++ o ++ c3)) e = Ret (encode (c1 ++ r ++ c3)).
Proof using All. intros Hu. unfold batch_run_step. by rewrite (batch_step c1 o c3 r). Qed.

Lemma set_run_step_mid :
  set_run_step (encode (c1 ++ o ++ c3)) e = Ret (encode (c1 ++ r ++ c3)).
Proof using All.
  unfold set_run_step. destruct (mappable_mid c1 o c3 e Hs E1 E2) as [-> _].
  rewrite E1, E2, Er. by apply replace_range_mid.
Qed.

Lemma document_step_mid :
  Document.apply_edit_in_place (encode (c1 ++ o ++ c3)) e = Ret (Some (encode (c1 ++ r ++ c3))).
Proof using All.
  unfold Document.apply_edit_in_place, Document.try_map_edit_range.
  destruct (mappable_mid c1 o c3 e Hs E1 E2) as [_ ->].
  rewrite E1, E2, Er, replace_range_mid by done. done.
Qed.
End steps.

(** ** Well-formed batches *)

Definition batch_reference (e : Batch.Edit) : ReferenceEdit :=
  replace (Batch.start_byte e) (Batch.old_end_byte e) (Batch.new_text e).

Definition declared (e : Batch.Edit) : Prop :=
  Batch.new_end_byte e = Batch.start_byte e + len (Batch.new_text e) /\ Batch.new_end_byte e <= usize_max.

Fixpoint touched (es : list Batch.Edit) : Z :=
  match es with [] => 0 | e :: es => Batch.touched_bytes e + touched es end.

Lemma touched_nonneg es : 0 <= touched es.
Proof.
  induction es as [|e es IH]; simpl; [done|]. unfold Batch.touched_bytes.
  pose proof (len_nonneg (Batch.new_text e)). lia.
Qed.

Lemma collides_before p e :
  Batch.start_byte p <= Batch.start_byte e ->
  Batch.collides (Some p) e = None <-> before (batch_reference p) (batch_reference e).
Proof.
  intros Hle. unfold Batch.collides, before. simpl.
  destruct (Z.ltb_spec (Batch.start_byte e) (Batch.old_end_byte p)),
    (Z.eqb_spec (Batch.start_byte e) (Batch.start_byte p)); simpl;
    split; intros H'; try discriminate; try lia; done.
Qed.

(** The validation loop, over edits sorted by start. *)
Lemma validate_loop_ok source previous t es :
  0 <= t -> Forall (fun e => 0 <= Batch.start_byte e) es ->
  StronglySorted (fun x y => Batch.start_byte x <= Batch.start_byte y) es ->
  match previous with Some p => Forall (fun e => Batch.start_byte p <= Batch.start_byte e) es | None => True end ->
  (exists n, Batch.validate_loop source previous t es = Ok n) <->
  Forall (fun e => in_shape source (batch_reference e)) es /\
  match previous, es with Some p, e :: _ => before (batch_reference p) (batch_reference e) | _, _ => True end /\
  ascending (batch_reference <$> es) /\ Forall declared es /\ t + touched es <= usize_max \/
  es = [].
Proof.
  intros Ht Hnn Hsort. revert previous t Ht Hnn. induction Hsort as [|e es Hsort IH He];
    intros previous t Ht Hnn Hprev.
  { split; [by right|]. intros _. by exists t. }
  inversion Hnn as [|? ? He0 Hnn']; subst.
  assert (match previous with Some p => Batch.start_byte p <= Batch.start_byte e | None => True end) as Hp.
  { destruct previous; [by inversion Hprev|done]. }
  assert (Batch.collides previous e = None <->
    match previous with Some p => before (batch_reference p) (batch_reference e) | None => True end) as Hcol.
  { destruct previous as [p|]; [by apply collides_before|by split]. }
  cbn [Batch.validate_loop]. split.
  - intros [n Hn]. left.
    destruct (Z.ltb_spec (Batch.old_end_byte e) (Batch.start_byte e)); [done|].
    destruct (Z.ltb_spec (len source) (Batch.old_end_byte e)); [done|].
    destruct (is_char_boundary source (Batch.start_byte e)) eqn:B1; [|done].
    destruct (is_char_boundary source (Batch.old_end_byte e)) eqn:B2; [|done]. cbn [orb negb] in Hn.
    unfold checked_add at 1 in Hn.
    destruct (Z.leb_spec (Batch.start_byte e + len (Batch.new_text e)) usize_max); [|done].
    destruct (Z.eqb_spec (Batch.new_end_byte e) (Batch.start_byte e + len (Batch.new_text e))); [|done].
    cbn [negb] in Hn. destruct (Batch.collides previous e); [done|].
    unfold checked_add in Hn.
    destruct (Z.leb_spec (t + Batch.touched_bytes e) usize_max) as [Hle|]; [|done].
    assert (0 <= Batch.touched_bytes e).
    { unfold Batch.touched_bytes. pose proof (len_nonneg (Batch.new_text e)). lia. }
    destruct (proj1 (IH (Some e) (t + Batch.touched_bytes e) ltac:(lia) Hnn' He) (ex_intro _ n Hn))
      as [(I1 & I2 & I3 & I4 & I5)| ->].
    + split; [constructor; [repeat split; simpl; done || lia|done]|]. split; [by apply Hcol|].
      split; [|split; [constructor; [split; lia|done]|simpl; lia]].
      destruct es as [|f es]; [done|]. by split.
    + split; [constructor; [repeat split; simpl; done || lia|done]|]. split; [by apply Hcol|].
      split; [done|]. split; [constructor; [split; lia|done]|simpl; lia].
  - intros [(I1 & I2 & I3 & I4 & I5)|?]; [|done].
    inversion I1 as [|? ? [Hr [B1 B2]] I1']; subst. simpl in Hr, B1, B2.
    inversion I4 as [|? ? [D1 D2] I4']; subst. simpl in I5.
    pose proof (touched_nonneg es).
    rewrite (proj2 (Z.ltb_ge (Batch.old_end_byte e) (Batch.start_byte e))) by lia.
    rewrite (proj2 (Z.ltb_ge (len source) (Batch.old_end_byte e))) by lia.
    rewrite B1, B2. cbn [orb negb]. rewrite checked_add_Some by lia.
    rewrite D1, Z.eqb_refl. cbn [negb].
    assert (Batch.collides previous e = None) as -> by (apply Hcol; by destruct previous).
    rewrite checked_add_Some by lia.
    assert (0 <= Batch.touched_bytes e).
    { unfold Batch.touched_bytes. pose proof (len_nonneg (Batch.new_text e)). lia. }
    apply IH; [lia|done|done|]. destruct es as [|f es]; [by right|left].
    destruct I3 as [I3 I3']. split; [done|]. split; [done|]. split; [done|]. split; [done|]. lia.
Qed.

Lemma key_le_start x y : Batch.key_le x y = true -> Batch.start_byte x <= Batch.start_byte y.
Proof. unfold Batch.key_le. rewrite orb_true_iff, andb_true_iff, Z.ltb_lt, Z.eqb_eq. lia. Qed.

Lemma sort_by_start es :
  StronglySorted (fun x y => Batch.start_byte x <= Batch.start_byte y) (sort_by Batch.key_le es).
Proof.
  pose proof (sort_by_ordered Batch.key_le key_le_total key_le_trans es) as H.
  induction H as [|x l Hl IH Hx]; constructor; [done|].
  eapply Forall_impl; [exact Hx|]. intros y. apply key_le_start.
Qed.

(** ** Running a well-formed batch *)

Lemma ascending_start es :
  ascending (reference_edit <$> es) ->
  StronglySorted (fun x y => EditSet.start_byte x < EditSet.start_byte y) es.
Proof.
  intros Ha. apply Sorted_StronglySorted; [intros x y z; lia|].
  induction es as [|e es IH]; [constructor|]. destruct Ha as [Hb Ha].
  constructor; [by apply IH|]. destruct es as [|f es]; [constructor|].
  constructor. by destruct Hb.
Qed.

(** Non-overlap, between any two edits. *)
Lemma ascending_disjoint src es :
  Forall (fun e => in_shape src (reference_edit e)) es -> ascending (reference_edit <$> es) ->
  StronglySorted (fun x y => EditSet.old_end_byte x <= EditSet.start_byte y) es.
Proof.
  induction es as [|e es IH]; intros Hs Ha; [constructor|].
  inversion Hs as [|? ? _ Hs']; subst. destruct Ha as [Hb Ha].
  constructor; [by apply IH|]. destruct es as [|f es]; [constructor|].
  destruct Hb as [_ Hb]. simpl in Hb. constructor; [done|].
  pose proof (ascending_start (f :: es) Ha) as Hst. inversion Hst as [|? ? _ Hf]; subst.
  eapply Forall_impl; [exact Hf|]. simpl. lia.
Qed.

Lemma total_text_le rest c es out :
  cuts rest c (reference_edit <$> es) out -> total_text reference_edit es <= blen out.
Proof.
  revert rest c out. induction es as [|e es IH]; intros rest c out Hcut; simpl in Hcut.
  - apply blen_nonneg.
  - inversion Hcut as [|p o rest0 ? ? r ? out0 E1 E2 Er Hr Hcut']; subst.
    cbn [total_text]. rewrite Er, len_encode, !blen_app.
    pose proof (IH _ _ _ Hcut'). pose proof (blen_nonneg p). lia.
Qed.

Lemma touched_le rest c es out :
  cuts rest c (reference_edit <$> es) out ->
  touched (batch_edit <$> es) <= blen rest + total_text reference_edit es.
Proof.
  revert rest c out. induction es as [|e es IH]; intros rest c out Hcut; simpl in Hcut.
  - pose proof (blen_nonneg rest). simpl. lia.
  - inversion Hcut as [|p o rest0 ? ? r ? out0 E1 E2 Er Hr Hcut']; subst.
    pose proof (IH _ _ _ Hcut'). simpl in E1, E2, Er.
    cbn [total_text touched fmap list_fmap]. unfold Batch.touched_bytes, saturating_sub. simpl.
    rewrite Er, len_encode, !blen_app.
    pose proof (blen_nonneg p). pose proof (blen_nonneg o). pose proof (blen_nonneg r). lia.
Qed.

Lemma total_text_perm {E} (f : E -> ReferenceEdit) es es' : es ≡ₚ es' -> total_text f es = total_text f es'.
Proof. induction 1; simpl in *; lia. Qed.

Lemma total_text_nonneg es : 0 <= total_text reference_edit es.
Proof. induction es as [|e es IH]; simpl; [done|]. pose proof (len_nonneg (EditSet.new_text e)). lia. Qed.

(** The overlap loop accepts descending edits that do not overlap. *)
Lemma sorted_disjoint es :
  StronglySorted (fun x y => EditSet.old_end_byte y <= EditSet.start_byte x) es ->
  EditSet.non_empty_disjoint None es = true.
Proof.
  assert (forall previous,
    match previous with
    | Some p => Forall (fun y => EditSet.old_end_byte y <= EditSet.start_byte p) es
    | None => True end ->
    StronglySorted (fun x y => EditSet.old_end_byte y <= EditSet.start_byte x) es ->
    EditSet.non_empty_disjoint previous es = true) as H; [|by apply H].
  induction es as [|e es IH]; intros previous Hp Hs; [done|]. simpl.
  inversion Hs as [|? ? Hs' He]; subst.
  destruct (Z.eqb_spec (EditSet.start_byte e) (EditSet.old_end_byte e)).
  - apply IH; [|done]. destruct previous; [by inversion Hp|done].
  - destruct previous as [p|]; [|by apply IH]. inversion Hp; subst.
    rewrite (proj2 (Z.ltb_ge _ _)) by done. by apply IH.
Qed.

Definition document_run_step (src : list Z) (e : EditSet.IncrementalEdit) : outcome (list Z) :=
  match Document.apply_edit_in_place src e with Ret (Some s) => Ret s | _ => Panic end.

Lemma document_run PE src es out :
  run document_run_step src es = Ret out ->
  Document.apply_sorted (ParseError := PE) src es = Ret (Ok out).
Proof.
  revert src. induction es as [|e es IH]; intros src H; simpl in H; [by simplify_eq|].
  apply bind_Ret_inv in H as (src' & H1 & H2). unfold document_run_step in H1.
  cbn [Document.apply_sorted].
  destruct (Document.apply_edit_in_place src e) as [[s|]|]; [|done|done].
  injection H1 as <-. by apply IH.
Qed.

Lemma text_le_total e es :
  e ∈ es -> len (EditSet.new_text e) <= total_text reference_edit es.
Proof.
  intros He. apply list_elem_of_split in He as (l1 & l2 & ->).
  rewrite (total_text_perm _ _ (e :: l1 ++ l2)) by (by rewrite Permutation_middle). simpl.
  pose proof (total_text_nonneg (l1 ++ l2)). lia.
Qed.

(** Any arrangement of edits that cut a text. *)
Section arrangement.
Context (cs out : list Z) (es es' : list EditSet.IncrementalEdit).
Hypothesis Hs : scalars cs.
Hypothesis Hshape : Forall (fun e => in_shape (encode cs) (reference_edit e)) es.
Hypothesis Hasc : ascending (reference_edit <$> es).
Hypothesis Hcut : cuts cs 0 (reference_edit <$> es) out.
Hypothesis Hu : blen cs + total_text reference_edit es <= usize_max.
Hypothesis Hp : es' ≡ₚ es.

Lemma arrangement_batch :
  Batch.apply_text_edits (Batch.replace_source_text (encode cs))
    (reverse (sort_by Batch.start_le (batch_edit <$> es'))) =
  Ret (Ok (Batch.replace_source_text (encode out))).
Proof using All.
  assert (sort_by Batch.start_le (batch_edit <$> es') = batch_edit <$> es) as ->.
  { apply (sort_by_key Batch.start_byte).
    - intros x y. unfold Batch.start_le. bcase; done.
    - intros x y z. unfold Batch.start_le. rewrite !Z.leb_le. lia.
    - pose proof (ascending_start es Hasc) as H. clear -H.
      induction H as [|x l Hl IH Hx]; constructor; [done|]. by apply Forall_fmap.
    - intros x y ?. apply Z.leb_le. lia.
    - intros x y. unfold Batch.start_le. by rewrite Z.leb_le.
    - by rewrite Hp. }
  rewrite <- fmap_reverse. apply batch_run.
  destruct (run_reverse batch_run_step reference_edit) with (pre := @nil Z) (rest := cs) (es := es) (out := out)
    as [H _]; try done.
  intros c1 o c3 r e ? E1 E2 Er ? ?. by apply batch_run_step_mid.
Qed.

Lemma arrangement_set : EditSet.apply_to_string es' (encode cs) = Ret (encode out).
Proof using All.
  unfold EditSet.apply_to_string. case_bool_decide as Hn.
  { subst es'. apply Permutation_nil_l in Hp as <-. by inversion Hcut. }
  rewrite (sort_by_key_desc EditSet.start_byte _ es reverse_le_total reverse_le_trans
    (ascending_start es Hasc)); [| | |done].
  - rewrite set_run.
    destruct (run_reverse set_run_step reference_edit) with (pre := @nil Z) (rest := cs) (es := es) (out := out)
      as [H _]; try done.
    intros c1 o c3 r e ? E1 E2 Er ? ?. by apply set_run_step_mid.
  - intros x y Hxy. unfold EditSet.reverse_le. by rewrite (proj2 (Z.ltb_lt _ _) Hxy).
  - intros x y. unfold EditSet.reverse_le. rewrite orb_true_iff, andb_true_iff, Z.ltb_lt, Z.eqb_eq. lia.
Qed.

Lemma arrangement_normalizes :
  EditSet.normalize_for_source es' (encode cs) = Some (reverse es).
Proof using All.
  unfold EditSet.normalize_for_source.
  assert (forallb (EditSet.is_edit_mappable (encode cs)) es' = true) as ->.
  { apply forallb_forall. intros e He. apply in_shape_mappable.
    rewrite Forall_forall in Hshape. apply Hshape. rewrite <- Hp. by apply list_elem_of_In. }
  rewrite (sort_by_key_desc EditSet.start_byte _ es range_le_total range_le_trans
    (ascending_start es Hasc)); [|..|done].
  - pose proof (ascending_disjoint _ _ Hshape Hasc) as Hd. apply StronglySorted_reverse in Hd.
    by rewrite sorted_disjoint.
  - intros x y Hxy. unfold EditSet.reverse_range_le. by rewrite (proj2 (Z.ltb_lt _ _) Hxy).
  - intros x y. unfold EditSet.reverse_range_le. rewrite orb_true_iff, andb_true_iff, Z.ltb_lt, Z.eqb_eq. lia.
Qed.

Lemma arrangement_document PE :
  Document.apply_sorted (ParseError := PE) (encode cs) (reverse es) = Ret (Ok (encode out)).
Proof using All.
  apply document_run.
  destruct (run_reverse document_run_step reference_edit) with (pre := @nil Z) (rest := cs) (es := es) (out := out)
    as [H _]; try done.
  intros c1 o c3 r e ? E1 E2 Er ? ?. unfold document_run_step. by rewrite (document_step_mid c1 o c3 r).
Qed.

Lemma arrangement_not_refused PE i :
  Document.first_refusal (ParseError := PE) (encode cs) i es' = None.
Proof using All.
  assert (Forall (fun e => in_shape (encode cs) (reference_edit e)) es') as H by (by rewrite Hp).
  clear -H. revert i. induction H as [|e l He Hl IH]; intros i; [done|]. simpl.
  apply in_shape_mappable in He as [_ ->]. apply IH.
Qed.
End arrangement.

(** ** Documents *)

Lemma replace_range_valid src s e text :
  valid_utf8 src -> valid_utf8 text -> s <= e ->
  is_char_boundary src s = true -> is_char_boundary src e = true ->
  exists r, replace_range src s e text = Ret r /\ valid_utf8 r.
Proof.
  intros (cs & Hs & ->) (t & Ht & ->) Hse B1 B2.
  destruct (range_split cs s e Hs Hse B1 B2) as (c1 & c2 & c3 & -> & -> & ->).
  rewrite replace_range_mid by done. eexists. split; [done|]. eexists. split; [|done].
  rewrite !scalars_app in *. tauto.
Qed.

Lemma not_refused src e :
  Document.edit_refusal src e = None ->
  EditSet.start_byte e <= EditSet.old_end_byte e <= len src /\
  is_char_boundary src (EditSet.start_byte e) = true /\
  is_char_boundary src (EditSet.old_end_byte e) = true.
Proof.
  unfold Document.edit_refusal.
  destruct (Z.ltb_spec (EditSet.old_end_byte e) (EditSet.start_byte e)); [done|].
  destruct (Z.ltb_spec (len src) (EditSet.old_end_byte e)); [done|].
  destruct (is_char_boundary src (EditSet.start_byte e)); [|done].
  by destruct (is_char_boundary src (EditSet.old_end_byte e)).
Qed.

Lemma mappable_not_refused src e :
  EditSet.is_edit_mappable src e = true <-> Document.edit_refusal src e = None.
Proof.
  unfold EditSet.is_edit_mappable, Document.edit_refusal.
  destruct (_ <? _); [done|]. destruct (_ <? _); [done|].
  destruct (is_char_boundary src (EditSet.start_byte e)),
    (is_char_boundary src (EditSet.old_end_byte e)); done.
Qed.

Lemma apply_loop_valid src es :
  valid_utf8 src -> Forall (fun e => valid_utf8 (EditSet.new_text e)) es ->
  exists r, EditSet.apply_loop src es = Ret r /\ valid_utf8 r.
Proof.
  intros Hs H. revert src Hs. induction H as [|e es He H IH]; intros src Hs; simpl; [by eexists|].
  destruct (EditSet.is_edit_mappable src e) eqn:E; [|by apply IH].
  apply mappable_not_refused, not_refused in E as (? & ? & ?).
  destruct (replace_range_valid src (EditSet.start_byte e) (EditSet.old_end_byte e) (EditSet.new_text e))
    as (r & -> & Hr); [done|done|lia|done|done|]. by apply IH.
Qed.

Lemma apply_to_string_valid src es :
  valid_utf8 src -> Forall (fun e => valid_utf8 (EditSet.new_text e)) es ->
  exists r, EditSet.apply_to_string es src = Ret r /\ valid_utf8 r.
Proof.
  intros Hs H. unfold EditSet.apply_to_string. case_bool_decide; [by eexists|].
  apply apply_loop_valid; [done|]. by rewrite sort_by_perm.
Qed.

Lemma apply_sorted_valid PE src es :
  valid_utf8 src -> Forall (fun e => valid_utf8 (EditSet.new_text e)) es ->
  exists r, Document.apply_sorted (ParseError := PE) src es = Ret r /\
    match r with Ok s => valid_utf8 s | Err _ => True end.
Proof.
  intros Hs H. revert src Hs. induction H as [|e es He H IH]; intros src Hs; simpl; [by eexists|].
  unfold Document.apply_edit_in_place, Document.try_map_edit_range.
  destruct (Document.edit_refusal src e) eqn:E; [by eexists|].
  apply not_refused in E as (? & ? & ?).
  destruct (replace_range_valid src (EditSet.start_byte e) (EditSet.old_end_byte e) (EditSet.new_text e))
    as (r & -> & Hr); [done|done|lia|done|done|]. by apply IH.
Qed.

Lemma first_refusal_spec {PE} src index es :
  match Document.first_refusal (ParseError := PE) src index es with
  | None => Forall (fun e => Document.edit_refusal src e = None) es
  | Some err => forall k e reason, es !! k = Some e ->
      Forall (fun e => Document.edit_refusal src e = None) (take k es) ->
      Document.edit_refusal src e = Some reason ->
      err = Document.invalid_edit e (len src) reason (Some (index + Z.of_nat k))
  end.
Proof.
  revert index. induction es as [|e es IH]; intros index; simpl; [constructor|].
  destruct (Document.edit_refusal src e) as [reason|] eqn:E.
  - intros [|k] f reason' Hf Hpre Hre; simpl in *.
    + rewrite Z.add_0_r. by simplify_eq.
    + inversion Hpre. congruence.
  - specialize (IH (index + 1)). destruct (Document.first_refusal src (index + 1) es); [|by constructor].
    intros [|k] f reason' Hf Hpre Hre; simpl in *; [congruence|].
    inversion Hpre; subst. rewrite (IH k f reason') by done. do 2 f_equal. lia.
Qed.

Section document.
Context {Node Cache PE : Type} (parse : list Z -> result PE Node) (build_cache : Node -> Cache).
Notation doc := (Document.t (Node := Node) (Cache := Cache)).

Lemma edited_source_valid (d : doc) es :
  valid_utf8 (Document.source d) -> Forall (fun e => valid_utf8 (EditSet.new_text e)) es ->
  exists r, Document.edited_source (ParseError := PE) d es = Ret r /\
    match r with Ok s => valid_utf8 s | Err _ => True end.
Proof using All.
  intros Hs H. unfold Document.edited_source.
  destruct (EditSet.normalize_for_source es (Document.source d)) as [sorted|] eqn:E.
  - apply apply_sorted_valid; [done|]. unfold EditSet.normalize_for_source in E.
    repeat case_match; simplify_eq. by rewrite sort_by_perm.
  - destruct (apply_to_string_valid (Document.source d) es Hs H) as (r & -> & Hr). by eexists.
Qed.

(** What a document keeps: its text is UTF-8 and its tree, its cache and its
    version are those of that text. *)
Definition coherent (d : doc) : Prop :=
  valid_utf8 (Document.source d) /\ parse (Document.source d) = Ok (Document.root d) /\
  Document.subtree_cache d = build_cache (Document.root d) /\ 0 <= Document.version d <= usize_max.

Lemma commit_coherent d src strategy :
  coherent d -> valid_utf8 src ->
  coherent (snd (Document.commit_fresh_parse parse build_cache d src strategy)) /\
  match Document.commit_fresh_parse parse build_cache d src strategy with
  | (Ok _, d') => Document.source d' = src /\ Document.version d' = Document.version d + 1 /\
      Document.last_strategy d' = strategy
  | (Err _, d') => d' = d
  end.
Proof using All.
  intros Hd Hsrc. unfold Document.commit_fresh_parse. destruct (parse src) as [n|e] eqn:E; [|by split].
  unfold checked_add. destruct (Z.leb_spec (Document.version d + 1) usize_max); [|by split].
  destruct Hd as (_ & _ & _ & ?). split; [|done].
  repeat split; simpl; try done; lia.
Qed.

(** The documents a client can reach. *)
Inductive reachable : doc -> Prop :=
| reach_new src d :
    valid_utf8 src -> Document.new parse build_cache src = Ok d -> reachable d
| reach_edit d e r d' :
    reachable d -> valid_utf8 (EditSet.new_text e) ->
    Document.apply_edit parse build_cache d e = Ret (r, d') -> reachable d'
| reach_edits d es r d' :
    reachable d -> Forall (fun e => valid_utf8 (EditSet.new_text e)) es ->
    Document.apply_edits parse build_cache d es = Ret (r, d') -> reachable d'.

Lemma mapped_source_valid (d : doc) e i :
  valid_utf8 (Document.source d) -> valid_utf8 (EditSet.new_text e) ->
  len (Document.source d) + len (EditSet.new_text e) <= usize_max ->
  exists r, Document.mapped_source (ParseError := PE) d e i = Ret r /\
    match r with
    | Ok s => Document.edit_refusal (Document.source d) e = None /\ valid_utf8 s /\
        replace_range (Document.source d) (EditSet.start_byte e) (EditSet.old_end_byte e)
          (EditSet.new_text e) = Ret s
    | Err err => exists reason, Document.edit_refusal (Document.source d) e = Some reason /\
        err = Document.invalid_edit e (len (Document.source d)) reason i
    end.
Proof using All.
  intros (cs & Hs & E) (t & Ht & Et) Hu. unfold Document.mapped_source, Document.map_edit_range,
    Document.try_map_edit_range.
  destruct (Document.edit_refusal (Document.source d) e) as [reason|] eqn:R.
  { eexists. split; [done|]. by exists reason. }
  apply not_refused in R as (H1 & B1 & B2). rewrite E, Et in *.
  destruct (range_split cs _ _ Hs (proj1 H1) B1 B2) as (c1 & c2 & c3 & Ec & E1 & E2).
  rewrite E1, E2. subst cs. unfold usize_add. pose proof (len_nonneg (encode (c1 ++ c2 ++ c3))).
  pose proof (len_nonneg (encode t)). rewrite arith_Ret by lia. cbn [mbind outcome_bind].
  destruct (prefix_slice c1 c2 c3 Hs) as [P1 P2].
  rewrite P1, len_encode, P2. cbn [mbind outcome_bind].
  eexists. split; [done|]. split; [done|]. rewrite replace_range_mid, !encode_app by done.
  split; [|done]. exists (c1 ++ t ++ c3). rewrite !encode_app, !scalars_app in *. tauto.
Qed.

Lemma mapped_source_utf8 (d : doc) e i s :
  valid_utf8 (Document.source d) -> valid_utf8 (EditSet.new_text e) ->
  Document.mapped_source (ParseError := PE) d e i = Ret (Ok s) -> valid_utf8 s.
Proof using All.
  intros Hd He H. destruct (Z_le_gt_dec (len (Document.source d) + len (EditSet.new_text e)) usize_max).
  - destruct (mapped_source_valid d e i Hd He) as (r & E & Hr); [lia|].
    rewrite H in E. injection E as <-. tauto.
  - unfold Document.mapped_source in H. destruct (Document.map_edit_range _ e i) as [[? ?]|]; [|done].
    unfold usize_add, arith in H. rewrite (proj2 (Z.leb_gt _ usize_max)), andb_false_r in H by lia. done.
Qed.
End document.

(** ** Batches in any order *)

Definition incremental_edit (e : Batch.Edit) : EditSet.IncrementalEdit :=
  EditSet.mkEdit (Batch.start_byte e) (Batch.old_end_byte e) (Batch.new_text e).

(** A batch that has a well-formed arrangement [es]. *)
Definition batch_well_formed (src : list Z) (es : list Batch.Edit) : Prop :=
  Forall (fun e => in_shape src (batch_reference e)) es /\ ascending (batch_reference <$> es) /\
  Forall declared es /\ touched es <= usize_max.

Lemma sort_by_key_id es :
  ascending (batch_reference <$> es) -> StronglySorted (fun x y => Batch.start_byte x < Batch.start_byte y) es.
Proof.
  intros Ha. assert (ascending (reference_edit <$> (incremental_edit <$> es))) as Ha'.
  { rewrite <- list_fmap_compose. exact Ha. }
  apply ascending_start in Ha'. clear Ha. remember (incremental_edit <$> es) as l eqn:E.
  revert es E. induction Ha' as [|x l Hl IH Hx]; intros [|e es] E; simplify_list_eq; constructor; auto.
  rewrite Forall_fmap in Hx. exact Hx.
Qed.

Lemma batch_validate_iff src es :
  Forall (fun e => 0 <= Batch.start_byte e) es ->
  (exists n, Batch.validate_edits src es = Ok n) <-> exists es0, es0 ≡ₚ es /\ batch_well_formed src es0.
Proof.
  intros Hnn. unfold Batch.validate_edits.
  assert (Forall (fun e => 0 <= Batch.start_byte e) (sort_by Batch.key_le es)) as Hnn' by (by rewrite sort_by_perm).
  rewrite (validate_loop_ok src None 0 _ ltac:(lia) Hnn' (sort_by_start es) I). split.
  - intros H. exists (sort_by Batch.key_le es). split; [apply sort_by_perm|].
    destruct H as [(H1 & _ & H2 & H3 & H4)| ->]; [done|].
    repeat split; try constructor. done.
  - intros (es0 & Hp & H1 & H2 & H3 & H4). left.
    rewrite (sort_by_key Batch.start_byte _ es0 key_le_total key_le_trans (sort_by_key_id es0 H2)); try done.
    + intros x y Hxy. unfold Batch.key_le. by rewrite (proj2 (Z.ltb_lt _ _) Hxy).
    + intros x y. apply key_le_start.
Qed.

Lemma declared_batch es :
  Forall declared es -> es = batch_edit <$> (incremental_edit <$> es).
Proof.
  induction 1 as [|e es [He _] H IH]; [done|]. cbn [fmap list_fmap] in *. f_equal; [|exact IH].
  unfold batch_edit, incremental_edit. simpl. rewrite <- He. by destruct e.
Qed.

Lemma in_shape_first src e : in_shape src e -> valid_utf8 src -> 0 <= start_byte e.
Proof.
  intros (_ & B1 & _) (cs & Hs & ->). apply boundary_inv in B1 as (c1 & c2 & _ & ->); [|done].
  apply blen_nonneg.
Qed.

(** A well-formed text has its cut. *)
Lemma cut_of cs es :
  scalars cs -> Forall (in_shape (encode cs)) es -> ascending es ->
  Forall (fun e => valid_utf8 (replacement e)) es ->
  exists out, cuts cs 0 es out /\ encode out = splice (encode cs) 0 es.
Proof.
  intros Hs H1 H2 H3. destruct (cuts_exist [] cs es) as [out Hout]; [done|done|done| |done|].
  { destruct es as [|e es]; [done|]. inversion H1 as [|? ? He _]; subst.
    apply (in_shape_first _ _ He). by exists cs. }
  exists out. split; [done|]. symmetry. exact (cuts_splice [] cs es out Hout).
Qed.

Lemma StronglySorted_perm_unique (es es' : list Batch.Edit) :
  es ≡ₚ es' -> ascending (batch_reference <$> es) -> ascending (batch_reference <$> es') -> es = es'.
Proof.
  intros Hp H1 H2.
  rewrite <- (sort_by_key Batch.start_byte Batch.key_le es key_le_total key_le_trans (sort_by_key_id es H1) es').
  - rewrite (sort_by_key Batch.start_byte Batch.key_le es' key_le_total key_le_trans (sort_by_key_id es' H2) es');
      try done.
    + intros x y Hxy. unfold Batch.key_le. by rewrite (proj2 (Z.ltb_lt _ _) Hxy).
    + intros x y. apply key_le_start.
  - intros x y Hxy. unfold Batch.key_le. by rewrite (proj2 (Z.ltb_lt _ _) Hxy).
  - intros x y. apply key_le_start.
  - done.
Qed.

Lemma arrangement_validates cs out es es' :
  scalars cs -> Forall (fun e => in_shape (encode cs) (reference_edit e)) es ->
  ascending (reference_edit <$> es) -> cuts cs 0 (reference_edit <$> es) out ->
  blen cs + total_text reference_edit es <= usize_max -> es' ≡ₚ es ->
  exists n, Batch.validate_edits (encode cs) (batch_edit <$> es') = Ok n.
Proof.
  intros Hs H1 H2 Hcut Hu Hp. apply batch_validate_iff.
  - apply Forall_fmap. rewrite Hp. eapply Forall_impl; [exact H1|]. intros e He.
    apply (in_shape_first _ _ He). by exists cs.
  - exists (batch_edit <$> es). split; [by rewrite Hp|].
    assert (batch_reference <$> (batch_edit <$> es) = reference_edit <$> es) as E
      by (by rewrite <- list_fmap_compose).
    split; [by apply Forall_fmap|]. split; [by rewrite E|].
    pose proof (touched_le _ _ _ _ Hcut). split; [|lia].
    apply Forall_fmap, Forall_forall. intros e He. split; [done|]. simpl.
    rewrite Forall_forall in H1.
    destruct (H1 e He) as [[? ?] _]. simpl in *. rewrite len_encode in *.
    pose proof (text_le_total e es He). lia.
Qed.

(** ** Normalized edit sets *)

Lemma lex_le_antisym a b : EditSet.lex_le a b = true -> EditSet.lex_le b a = true -> a = b.
Proof.
  revert b. induction a as [|x a IH]; intros [|y b]; simpl; try done.
  rewrite !orb_true_iff, !andb_true_iff, !Z.ltb_lt, !Z.eqb_eq.
  intros [?|[-> Ha]] [?|[? Hb]]; try lia. f_equal. auto.
Qed.

Lemma reverse_le_antisym x y : EditSet.reverse_le x y = true -> EditSet.reverse_le y x = true -> x = y.
Proof.
  unfold EditSet.reverse_le.
  rewrite !orb_true_iff, !andb_true_iff, !orb_true_iff, !andb_true_iff, !Z.ltb_lt, !Z.eqb_eq.
  intros H1 H2. destruct x as [s e t], y as [s' e' t']; simpl in *.
  assert (s = s') as -> by lia. assert (e = e') as -> by lia.
  f_equal. apply lex_le_antisym; destruct H1 as [?|[_ [?|[_ ?]]]], H2 as [?|[_ [?|[_ ?]]]]; lia || done.
Qed.

Lemma sort_reverse_unique es es' :
  es ≡ₚ es' -> EditSet.sort_reverse_deterministic es = EditSet.sort_reverse_deterministic es'.
Proof.
  intros Hp. apply (ordered_unique EditSet.reverse_le).
  - by apply (sort_by_ordered _ reverse_le_total reverse_le_trans).
  - by apply (sort_by_ordered _ reverse_le_total reverse_le_trans).
  - unfold EditSet.sort_reverse_deterministic. by rewrite !sort_by_perm.
  - intros x y _ _. apply reverse_le_antisym.
Qed.

Lemma first_backward_spec index es :
  match EditSet.first_backward index es with
  | None => Forall (fun e => EditSet.start_byte e <= EditSet.old_end_byte e) es
  | Some err => exists k x, err = EditSet.BackwardRange (index + Z.of_nat k) (EditSet.start_byte x) (EditSet.old_end_byte x) /\
      es !! k = Some x /\ EditSet.old_end_byte x < EditSet.start_byte x
  end.
Proof.
  revert index. induction es as [|e es IH]; intros index; simpl; [constructor|].
  destruct (Z.ltb_spec (EditSet.old_end_byte e) (EditSet.start_byte e)).
  - exists 0%nat, e. rewrite Z.add_0_r. done.
  - specialize (IH (index + 1)). destruct (EditSet.first_backward (index + 1) es) as [err|]; [|by constructor].
    destruct IH as (k & x & -> & ? & ?). exists (S k), x. split; [f_equal; lia|done].
Qed.

Lemma first_overlap_right_spec l left right es :
  match EditSet.first_overlap_right l left right es with
  | None => Forall (fun r => EditSet.overlaps l (EditSet.start_byte r) (EditSet.old_end_byte r) = false) es
  | Some err => exists k r, err = EditSet.OverlappingEdits left (right + Z.of_nat k) /\ es !! k = Some r /\
      EditSet.overlaps l (EditSet.start_byte r) (EditSet.old_end_byte r) = true
  end.
Proof.
  revert right. induction es as [|r es IH]; intros right; simpl; [constructor|].
  destruct (EditSet.overlaps l (EditSet.start_byte r) (EditSet.old_end_byte r)) eqn:E.
  - exists 0%nat, r. rewrite Z.add_0_r. done.
  - specialize (IH (right + 1)). destruct (EditSet.first_overlap_right l left (right + 1) es); [|by constructor].
    destruct IH as (k & x & -> & ? & ?). exists (S k), x. split; [f_equal; lia|done].
Qed.

Lemma first_overlap_spec left es :
  match EditSet.first_overlap left es with
  | None => StronglySorted (fun l r => EditSet.overlaps l (EditSet.start_byte r) (EditSet.old_end_byte r) = false) es
  | Some err => exists i j l r, err = EditSet.OverlappingEdits (left + Z.of_nat i) (left + Z.of_nat j) /\
      (i < j)%nat /\ es !! i = Some l /\ es !! j = Some r /\
      EditSet.overlaps l (EditSet.start_byte r) (EditSet.old_end_byte r) = true
  end.
Proof.
  revert left. induction es as [|l es IH]; intros left; simpl; [constructor|].
  pose proof (first_overlap_right_spec l left (left + 1) es) as H.
  destruct (EditSet.first_overlap_right l left (left + 1) es) as [err|].
  - destruct H as (k & r & -> & ? & ?). exists 0%nat, (S k), l, r.
    split; [f_equal; lia|]. split; [lia|done].
  - specialize (IH (left + 1)). destruct (EditSet.first_overlap (left + 1) es) as [err|]; [|by constructor].
    destruct IH as (i & j & l' & r & -> & ? & ? & ? & ?). exists (S i), (S j), l', r.
    split; [f_equal; lia|]. split; [lia|done].
Qed.

Lemma StronglySorted_weaken {A} (R S : A -> A -> Prop) l :
  (forall x y, R x y -> S x y) -> StronglySorted R l -> StronglySorted S l.
Proof.
  intros H. induction 1 as [|x l Hl IH Hx]; constructor; [done|].
  eapply Forall_impl; [exact Hx|]. auto.
Qed.

Lemma StronglySorted_and {A} (R S : A -> A -> Prop) (P : A -> Prop) l :
  StronglySorted R l -> StronglySorted S l -> Forall P l ->
  StronglySorted (fun x y => R x y /\ S x y /\ P x /\ P y) l.
Proof.
  intros HR HS HP. induction HR as [|x l HR IH Hx]; [constructor|].
  inversion HS; subst. inversion HP; subst. constructor; [by apply IH|].
  rewrite !Forall_forall in *. auto.
Qed.

(** ** Theorems *)

Lemma cuts_len f rest c (es : list Batch.Edit) out :
  (forall e, replacement (f e) = Batch.new_text e) ->
  cuts rest c (f <$> es) out -> blen out <= blen rest + total_text f es.
Proof.
  intros Hf. revert rest c out. induction es as [|e es IH]; intros rest c out Hcut; csimpl in Hcut.
  - inversion Hcut; subst. simpl. lia.
  - inversion Hcut as [|p o rest0 ? ? r ? out0 E1 E2 Er Hr Hcut']; subst.
    pose proof (IH _ _ _ Hcut'). cbn [total_text]. rewrite Er, len_encode, !blen_app.
    pose proof (blen_nonneg o). lia.
Qed.

(** An accepted batch, in whatever order it arrived, applies. *)
Lemma validated_batch_applies src es n :
  valid_utf8 src -> Forall (fun e => valid_utf8 (Batch.new_text e) /\ 0 <= Batch.start_byte e) es ->
  len src + total_text batch_reference es <= usize_max -> Batch.validate_edits src es = Ok n ->
  exists es0, es0 ≡ₚ es /\ batch_well_formed src es0 /\
    valid_utf8 (splice src 0 (batch_reference <$> es0)) /\
    len (splice src 0 (batch_reference <$> es0)) <= len src + total_text batch_reference es /\
    Batch.apply_text_edits (Batch.replace_source_text src) (reverse (sort_by Batch.start_le es)) =
      Ret (Ok (Batch.replace_source_text (splice src 0 (batch_reference <$> es0)))).
Proof.
  intros (cs & Hs & ->) Hes Hu Hval. apply Forall_and in Hes as [Hv Hnn].
  destruct (proj1 (batch_validate_iff (encode cs) es Hnn) (ex_intro _ n Hval)) as (es0 & Hp & Hw).
  pose proof Hw as (H1 & H2 & H3 & H4). set (ies := incremental_edit <$> es0).
  assert (batch_reference <$> es0 = reference_edit <$> ies) as Eref.
  { unfold ies. by rewrite <- list_fmap_compose. }
  assert (declared_es : es = batch_edit <$> (incremental_edit <$> es)).
  { apply declared_batch. by rewrite <- Hp. }
  destruct (cut_of cs (batch_reference <$> es0)) as (out & Hcut & Esp); [done| |done| |].
  { by apply Forall_fmap. }
  { apply Forall_fmap. by rewrite Hp. }
  assert (total_text reference_edit ies = total_text batch_reference es) as Et.
  { rewrite <- (total_text_perm batch_reference _ _ Hp). unfold ies. clear.
    induction es0 as [|e es0 IH]; [done|]. cbn [fmap list_fmap total_text] in *. f_equal. exact IH. }
  assert (Batch.apply_text_edits (Batch.replace_source_text (encode cs))
    (reverse (sort_by Batch.start_le es)) = Ret (Ok (Batch.replace_source_text (encode out)))) as ->.
  { rewrite declared_es. rewrite len_encode in Hu. rewrite Eref in Hcut, H2.
    apply (arrangement_batch cs out ies (incremental_edit <$> es)); try done.
    - unfold ies. by apply Forall_fmap.
    - by rewrite Et.
    - unfold ies. by rewrite Hp. }
  exists es0. rewrite <- Esp. split_and!; try done.
  - exists out. split; [|done]. by eapply cuts_scalars.
  - rewrite !len_encode, <- (total_text_perm batch_reference _ _ Hp). by eapply cuts_len.
Qed.

(** The batch of [apply_edits] accepts exactly the batches that some order
    makes well formed (in range, on character boundaries, strictly ascending
    without overlap, with the declared new ends and a total within [usize]).
    An accepted batch, in whatever order it arrived, never panics or fails
    midway: the new text is the splice of the replacements into the old
    text, and the line index is that of the new text. *)
Theorem batch_decides_well_formed src es :
  valid_utf8 src -> Forall (fun e => valid_utf8 (Batch.new_text e) /\ 0 <= Batch.start_byte e) es ->
  len src + total_text batch_reference es <= usize_max ->
  match Batch.edited_text (Batch.replace_source_text src) es with
  | Ret (Ok s) => exists es0, es0 ≡ₚ es /\ batch_well_formed src es0 /\
      s = Batch.replace_source_text (splice src 0 (batch_reference <$> es0))
  | Ret (Err _) => ~ exists es0, es0 ≡ₚ es /\ batch_well_formed src es0
  | Panic => False
  end.
Proof.
  intros Hsrc Hes Hu. unfold Batch.edited_text. cbn [Batch.source Batch.replace_source_text].
  destruct (Batch.validate_edits src es) as [n|err] eqn:Hval.
  - destruct (validated_batch_applies src es n) as (es0 & Hp & Hw & _ & _ & E); [done..|].
    rewrite E. by exists es0.
  - apply Forall_and in Hes as [_ Hnn]. intros H. apply (batch_validate_iff src es Hnn) in H as [n H].
    by rewrite H in Hval.
Qed.

(** Two edits of "a\195\169\nb", in the wrong order. *)
Definition demo_source : list Z := [97; 195; 169; 10; 98].
Definition demo_set : list EditSet.IncrementalEdit :=
  [EditSet.mkEdit 5 5 [10]; EditSet.mkEdit 1 3 [120; 121]].

Lemma demo_texts : Forall (fun e => valid_utf8 (EditSet.new_text e)) demo_set.
Proof.
  repeat constructor; [exists [10]|exists [120; 121]]; (split; [repeat constructor|done]).
Qed.
Lemma demo_source_valid : valid_utf8 demo_source.
Proof. exists [97; 233; 10; 98]. by split; [repeat constructor|]. Qed.

Example batch_decides_well_formed_witness :
  match Batch.edited_text (Batch.replace_source_text demo_source) (batch_edit <$> demo_set) with
  | Ret (Ok s) =>
      Batch.source s = [97; 120; 121; 10; 98; 10] /\
      exists es0, es0 ≡ₚ batch_edit <$> demo_set /\ batch_well_formed demo_source es0 /\
      s = Batch.replace_source_text (splice demo_source 0 (batch_reference <$> es0))
  | Ret (Err _) => ~ exists es0, es0 ≡ₚ batch_edit <$> demo_set /\ batch_well_formed demo_source es0
  | Panic => False
  end.
Proof.
  assert (Forall (fun e => valid_utf8 (Batch.new_text e) /\ 0 <= Batch.start_byte e)
    (batch_edit <$> demo_set)) as H.
  { pose proof demo_texts as H. apply Forall_fmap.
    repeat (apply Forall_cons in H as [? H]). repeat (constructor; [split; [done|vm_compute; done]|]).
    constructor. }
  pose proof (batch_decides_well_formed demo_source (batch_edit <$> demo_set) demo_source_valid H
    ltac:(done)) as Hd.
  split; [reflexivity|exact Hd].
Defined.

(** C32. The whole pipeline against the independent model: on every transaction
    the reference model accepts, the validated batch, the edit set and the
    document all produce the reference successor, whatever the order in
    which the edits arrive; the document also takes the tree of the new text
    and the next version. *)
Theorem pipeline_agrees_with_reference sha256 st cs es es' r :
  acceptable st cs (reference_edit <$> es) -> len (source st) <= u32_max ->
  apply sha256 st (transaction (reference_edit <$> es)) = Ret (Ok r) -> es' ≡ₚ es ->
  let new_source := source (successor r) in
  Batch.edited_text (Batch.replace_source_text (source st)) (batch_edit <$> es') =
    Ret (Ok (Batch.replace_source_text new_source)) /\
  EditSet.apply_to_string es' (source st) = Ret new_source /\
  forall Node Cache PE (parse : list Z -> result PE Node) (build_cache : Node -> Cache) d node,
    Document.source d = source st -> Document.version d < usize_max -> es <> [] ->
    parse new_source = Ok node ->
    Document.apply_edits parse build_cache d es' =
      Ret (Ok tt, Document.mk node new_source (Document.version d + 1) (build_cache node)
        Snapshot.IncrementalFullFallback).
Proof.
  intros Ha Hlen Happ Hp. pose proof (apply_spec sha256 cs st _ Ha) as H. rewrite Happ in H.
  destruct Ha as (Hs & Esrc & Hv & Hu & _).
  destruct H as ((H1 & H2 & _) & out & dg & Hcut & _ & ->). cbn [successor source].
  rewrite Esrc in *. pose proof (cuts_splice [] cs _ out Hcut) as Esp. simpl in Esp.
  rewrite Esp, len_encode in Hu. rewrite len_encode in Hlen.
  pose proof (total_text_le _ _ _ _ Hcut) as Htot. rewrite Forall_fmap in H1.
  assert (blen cs + total_text reference_edit es <= usize_max) as Hb
    by (unfold u32_max, usize_max in *; lia).
  cbv zeta. split; [|split].
  - unfold Batch.edited_text. cbn [Batch.source Batch.replace_source_text].
    destruct (arrangement_validates cs out es es') as [n ->]; try done.
    by apply (arrangement_batch cs out es).
  - by apply (arrangement_set cs out es).
  - intros Node Cache PE parse build_cache d node Ed Hver Hne Hparse.
    unfold Document.apply_edits. rewrite bool_decide_eq_false_2.
    2: { intros ->. by apply Permutation_nil_l in Hp. }
    rewrite Ed, (arrangement_not_refused cs out es es') by done.
    unfold Document.edited_source.
    rewrite Ed, (arrangement_normalizes cs out es es'), (arrangement_document cs out es es') by done.
    cbn [mbind outcome_bind]. unfold Document.commit_fresh_parse. rewrite Hparse.
    by rewrite checked_add_Some by lia.
Qed.

(** A parser that takes the length of its text for a tree. *)
Definition demo_parse : list Z -> result unit Z := fun s => Ok (len s).
Definition demo_document : Document.t (Node := Z) (Cache := Z) :=
  Document.mk 5 demo_source 0 5 Snapshot.Fresh.

Example pipeline_agrees_with_reference_witness :
  Batch.edited_text (Batch.replace_source_text demo_source) (batch_edit <$> demo_set) =
    Ret (Ok (Batch.replace_source_text [97; 120; 121; 10; 98; 10])) /\
  Document.apply_edits demo_parse (fun n => n) demo_document demo_set =
    Ret (Ok tt, Document.mk 6 [97; 120; 121; 10; 98; 10] 1 6 Snapshot.IncrementalFullFallback).
Proof.
  assert (acceptable demo_state [97; 233; 10; 98] (reference_edit <$> reverse demo_set)) as Ha.
  { split; [by repeat constructor|]. split; [done|]. split; [|done].
    apply Forall_fmap. rewrite reverse_Permutation. exact demo_texts. }
  destruct (apply demo_digest demo_state (transaction (reference_edit <$> reverse demo_set)))
    as [[r|]|] eqn:E; [|by vm_compute in E|by vm_compute in E].
  destruct (pipeline_agrees_with_reference demo_digest demo_state _ (reverse demo_set) demo_set r
    Ha ltac:(done) E ltac:(by rewrite reverse_Permutation)) as (H1 & _ & H2).
  vm_compute in E. injection E as <-. split; [exact H1|].
  apply (H2 Z Z unit demo_parse (fun n => n) demo_document); done.
Defined.

(** Normalizing an edit set leaves exactly its edits (without the no-ops
    when they are filtered), in an order that does not depend on the order
    they were added, and is refused exactly for a backward range or for an
    overlap; a set accepted without overlaps is in reverse application
    order: each edit ends where an earlier-applied one starts, or before. *)
Theorem normalize_and_validate_spec (es : list EditSet.IncrementalEdit) (allow filter_no_ops : bool) :
  let kept := if filter_no_ops then filter (fun e => EditSet.is_obvious_no_op e = false) es else es in
  match EditSet.normalize_and_validate es allow filter_no_ops with
  | (Ok _, es') =>
      es' ≡ₚ kept /\ Forall (fun e => EditSet.start_byte e <= EditSet.old_end_byte e) es /\
      (forall es2, es2 ≡ₚ kept -> EditSet.sort_reverse_deterministic es2 = es') /\
      (allow = false -> StronglySorted (fun l r =>
         EditSet.start_byte r <= EditSet.start_byte l /\
         (EditSet.old_end_byte r <= EditSet.start_byte l \/
          EditSet.start_byte r = EditSet.start_byte l /\ EditSet.old_end_byte l = EditSet.start_byte l)) es')
  | (Err (EditSet.BackwardRange i s e), es') =>
      es' = es /\ exists x, es !! Z.to_nat i = Some x /\ EditSet.old_end_byte x < EditSet.start_byte x
  | (Err (EditSet.OverlappingEdits i j), es') =>
      allow = false /\ es' ≡ₚ kept /\ i < j /\ exists l r,
        es' !! Z.to_nat i = Some l /\ es' !! Z.to_nat j = Some r /\
        EditSet.overlaps l (EditSet.start_byte r) (EditSet.old_end_byte r) = true
  end.
Proof.
  cbv zeta. unfold EditSet.normalize_and_validate. pose proof (first_backward_spec 0 es) as Hb.
  destruct (EditSet.first_backward 0 es) as [err|].
  { destruct Hb as (k & x & -> & ? & ?). rewrite Z.add_0_l, Nat2Z.id. split; [done|]. by exists x. }
  set (kept := if filter_no_ops then _ else _).
  assert (EditSet.sort_reverse_deterministic kept ≡ₚ kept) as Hp by apply sort_by_perm.
  assert (forall es2, es2 ≡ₚ kept -> EditSet.sort_reverse_deterministic es2 = EditSet.sort_reverse_deterministic kept)
    as Hu by (intros es2; apply sort_reverse_unique).
  destruct allow; [done|].
  pose proof (first_overlap_spec 0 (EditSet.sort_reverse_deterministic kept)) as Ho.
  destruct (EditSet.first_overlap 0 (EditSet.sort_reverse_deterministic kept)) as [err|].
  { destruct Ho as (i & j & l & r & -> & ? & ? & ? & ?). rewrite !Z.add_0_l, !Nat2Z.id.
    split; [done|]. split; [done|]. split; [lia|]. by exists l, r. }
  split; [done|]. split; [done|]. split; [done|]. intros _.
  pose proof (sort_by_ordered _ reverse_le_total reverse_le_trans kept) as Hord.
  fold (EditSet.sort_reverse_deterministic kept) in Hord.
  assert (Forall (fun e => EditSet.start_byte e <= EditSet.old_end_byte e)
    (EditSet.sort_reverse_deterministic kept)) as Hf.
  { rewrite Hp. unfold kept. destruct filter_no_ops; [|done].
    rewrite Forall_forall in *. intros e [_ He]%list_elem_of_filter. auto. }
  eapply StronglySorted_weaken; [|exact (StronglySorted_and _ _ _ _ Hord Ho Hf)].
  intros l r (H1 & H2 & H3 & H4). unfold EditSet.overlaps in H2.
  rewrite andb_false_iff, !Z.ltb_ge in H2. unfold EditSet.reverse_le in H1.
  rewrite orb_true_iff, andb_true_iff, Z.ltb_lt, Z.eqb_eq in H1. simpl in *. lia.
Qed.

Example normalize_and_validate_spec_witness :
  exists es', EditSet.normalize_and_validate demo_set false true = (Ok tt, es') /\
    es' = demo_set /\ EditSet.sort_reverse_deterministic (reverse demo_set) = es'.
Proof.
  pose proof (normalize_and_validate_spec demo_set false true) as (_ & _ & H & _).
  eexists. split; [reflexivity|]. split; [reflexivity|].
  apply H. apply (reverse_Permutation demo_set).
Defined.

(** Every document a client can reach, through edits accepted or refused,
    holds UTF-8 text, the tree the parser gives for exactly that text, the
    cache of that tree and a version within [usize]. *)
Theorem document_stays_coherent Node Cache PE (parse : list Z -> result PE Node)
    (build_cache : Node -> Cache) d :
  reachable parse build_cache d -> coherent parse build_cache d.
Proof.
  induction 1 as [src d Hsrc Hnew|d e r d' Hr IH Ht Happ|d es r d' Hr IH Ht Happ].
  - unfold Document.new in Hnew. destruct (parse src) as [n|] eqn:E; [|done].
    injection Hnew as <-. repeat split; simpl; done.
  - unfold Document.apply_edit in Happ. apply bind_Ret_inv in Happ as (m & Em & Happ).
    destruct m as [src|err]; [|by injection Happ as <- <-].
    assert (valid_utf8 src) as Hsrc.
    { destruct IH as [IH _]. by eapply (mapped_source_utf8 parse build_cache d e). }
    pose proof (commit_coherent parse build_cache d src Snapshot.IncrementalFullFallback IH Hsrc) as [Hc _].
    injection Happ as E. by rewrite E in Hc.
  - unfold Document.apply_edits in Happ. case_bool_decide; [by injection Happ as <- <-|].
    destruct (Document.first_refusal _ _ _); [by injection Happ as <- <-|].
    destruct (edited_source_valid parse build_cache d es) as (m & Em & Hm); [by destruct IH|done|].
    rewrite Em in Happ. cbn [mbind outcome_bind] in Happ.
    destruct m as [src|err]; [|by injection Happ as <- <-].
    pose proof (commit_coherent parse build_cache d src Snapshot.IncrementalFullFallback IH Hm) as [Hc _].
    injection Happ as E. by rewrite E in Hc.
Qed.

Example document_stays_coherent_witness :
  exists d, Document.apply_edits demo_parse (fun n => n) demo_document demo_set = Ret (Ok tt, d) /\
    coherent demo_parse (fun n => n) d.
Proof.
  eexists. split; [reflexivity|].
  apply (document_stays_coherent _ _ unit demo_parse (fun n => n)).
  eapply (reach_edits _ _ demo_document demo_set); [|exact demo_texts|reflexivity].
  by apply (reach_new _ _ demo_source); [exact demo_source_valid|].
Defined.

(** Applying a batch to a coherent document never panics.  If it fails, the
    document is unchanged; in particular the first edit that does not map
    (backward, out of range, off a character boundary) is reported with its
    index and its reason.  If it succeeds, every edit mapped and the document
    holds exactly the edited text at the next version (an empty batch
    changes nothing). *)
Theorem document_edits_atomic Node Cache PE (parse : list Z -> result PE Node)
    (build_cache : Node -> Cache) d es :
  coherent parse build_cache d -> Forall (fun e => valid_utf8 (EditSet.new_text e)) es ->
  match Document.apply_edits parse build_cache d es with
  | Panic => False
  | Ret (Err err, d') => d' = d /\
      forall k e reason, es !! k = Some e ->
        Forall (fun e => Document.edit_refusal (Document.source d) e = None) (take k es) ->
        Document.edit_refusal (Document.source d) e = Some reason ->
        err = Document.invalid_edit e (len (Document.source d)) reason (Some (Z.of_nat k))
  | Ret (Ok _, d') =>
      Forall (fun e => Document.edit_refusal (Document.source d) e = None) es /\
      if bool_decide (es = []) then d' = d
      else Document.edited_source (ParseError := PE) d es = Ret (Ok (Document.source d')) /\
        Document.version d' = Document.version d + 1
  end.
Proof.
  intros Hd Ht. unfold Document.apply_edits. case_bool_decide as Hn; [by subst|].
  pose proof (first_refusal_spec (PE := PE) (Document.source d) 0 es) as Href.
  destruct (Document.first_refusal (Document.source d) 0 es) as [err|].
  { split; [done|]. intros k e reason Hk Hpre Hre. rewrite (Href k e reason Hk Hpre Hre).
    by rewrite Z.add_0_l. }
  destruct (edited_source_valid parse build_cache d es) as (m & Em & Hm); [by destruct Hd|done|].
  rewrite Em. cbn [mbind outcome_bind].
  assert (forall k e reason, es !! k = Some e -> Document.edit_refusal (Document.source d) e <> Some reason) as Hno.
  { intros k e reason Hk. apply list_elem_of_lookup_2 in Hk. rewrite Forall_forall in Href. by rewrite Href. }
  destruct m as [src|err]; [|split; [done|]; intros; exfalso; by eapply Hno].
  pose proof (commit_coherent parse build_cache d src Snapshot.IncrementalFullFallback Hd Hm) as [_ Hc].
  simpl. destruct (Document.commit_fresh_parse _ _ d src _) as [[[]|err] d'].
  - destruct Hc as (<- & Hv & _). done.
  - split; [done|]. intros; exfalso; by eapply Hno.
Qed.

Example document_edits_atomic_witness :
  match Document.apply_edits demo_parse (fun n => n) demo_document [EditSet.mkEdit 2 3 [120]] with
  | Ret (Err err, d') => d' = demo_document /\
      err = Document.InvalidEdit 2 3 5 Document.RefuseNotCharBoundary (Some 0)
  | _ => False
  end.
Proof.
  assert (coherent demo_parse (fun n => n) demo_document) as Hc.
  { split; [exact demo_source_valid|]. by repeat split. }
  assert (Forall (fun e => valid_utf8 (EditSet.new_text e)) [EditSet.mkEdit 2 3 [120]]) as Ht.
  { constructor; [|constructor]. exists [120]. by split; [repeat constructor|]. }
  destruct (document_edits_atomic _ _ unit demo_parse (fun n => n) demo_document _ Hc Ht) as [H1 H2].
  split; [exact H1|].
  rewrite (H2 0%nat (EditSet.mkEdit 2 3 [120]) Document.RefuseNotCharBoundary); try reflexivity.
  constructor.
Defined.

(** Applying one edit to a coherent document (text and replacement within
    [usize]) never panics: it fails exactly when the edit does not map or the
    new text does not parse or the version is exhausted, and then changes
    nothing; otherwise the range is replaced and nothing else. *)
Theorem document_edit_is_replacement Node Cache PE (parse : list Z -> result PE Node)
    (build_cache : Node -> Cache) d e :
  coherent parse build_cache d -> valid_utf8 (EditSet.new_text e) ->
  len (Document.source d) + len (EditSet.new_text e) <= usize_max ->
  match Document.apply_edit parse build_cache d e with
  | Panic => False
  | Ret (Err err, d') => d' = d /\
      match err with
      | Document.Parse pe => exists src, parse src = Err pe /\
          replace_range (Document.source d) (EditSet.start_byte e) (EditSet.old_end_byte e)
            (EditSet.new_text e) = Ret src
      | Document.InvalidEdit _ _ _ reason _ =>
          Document.edit_refusal (Document.source d) e = Some reason \/ Document.version d = usize_max
      end
  | Ret (Ok _, d') =>
      Document.edit_refusal (Document.source d) e = None /\
      replace_range (Document.source d) (EditSet.start_byte e) (EditSet.old_end_byte e)
        (EditSet.new_text e) = Ret (Document.source d') /\
      parse (Document.source d') = Ok (Document.root d') /\
      Document.version d' = Document.version d + 1
  end.
Proof.
  intros Hd Ht Hu. unfold Document.apply_edit.
  destruct (mapped_source_valid parse build_cache d e None) as (m & Em & Hm); [by destruct Hd|done|done|].
  rewrite Em. cbn [mbind outcome_bind]. destruct m as [src|err].
  2: { destruct Hm as (reason & Hre & ->). simpl. split; [done|]. by left. }
  destruct Hm as (Hno & Hv & Hrep). simpl. unfold Document.commit_fresh_parse.
  destruct (parse src) as [n|pe] eqn:Ep; [|split; [done|by exists src]].
  unfold checked_add. destruct (Z.leb_spec (Document.version d + 1) usize_max); [done|].
  split; [done|]. right. destruct Hd as (_ & _ & _ & ?). lia.
Qed.

Example document_edit_is_replacement_witness :
  exists d', Document.apply_edit demo_parse (fun n => n) demo_document (EditSet.mkEdit 1 3 [120]) =
      Ret (Ok tt, d') /\
    Ret [97; 120; 10; 98] = Ret (Document.source d') /\ Document.version d' = 1.
Proof.
  eexists. split; [reflexivity|].
  assert (coherent demo_parse (fun n => n) demo_document) as Hc.
  { split; [exact demo_source_valid|]. by repeat split. }
  assert (valid_utf8 (EditSet.new_text (EditSet.mkEdit 1 3 [120]))) as Ht.
  { exists [120]. by split; [repeat constructor|]. }
  destruct (document_edit_is_replacement _ _ unit demo_parse (fun n => n) demo_document _ Hc Ht ltac:(done))
    as (_ & H1 & _ & H2).
  split; [exact H1|exact H2].
Defined.

(** An insertion strictly inside a replaced range: [normalize_and_validate]
    calls the two edits overlapping, [normalize_for_source] accepts them, and
    the document applies the replacement with the coordinates of a text that
    is already two bytes longer, so that bytes 8 and 9, which the second edit
    deletes, survive. *)
Theorem insertion_inside_replacement_survives :
  exists es src d',
    es = [EditSet.mkEdit 5 5 [120; 120]; EditSet.mkEdit 0 10 [82]] /\
    src = [48; 49; 50; 51; 52; 53; 54; 55; 56; 57; 65; 66] /\
    EditSet.normalize_and_validate es false false = (Err (EditSet.OverlappingEdits 0 1), es) /\
    EditSet.normalize_for_source es src = Some es /\
    Document.apply_edits demo_parse (fun n => n) (Document.mk 12 src 0 12 Snapshot.Fresh) es = Ret (Ok tt, d') /\
    Document.source d' = [82; 56; 57; 65; 66].
Proof. do 3 eexists. repeat (split; [vm_compute; reflexivity|]). vm_compute; reflexivity. Qed.
