(* ===== verification/Checkpoint.v ===== *)
(** * Lexer checkpoints (perl-lexer/src: checkpoint/core.rs, checkpoint/identity.rs,
      checkpoint/diff.rs, checkpoint_impl.rs, lexer/state.rs, lexer/driver.rs)

    The mutable state of the lexer, its capture into a checkpoint bound to an
    identity (schema, content digest, source, generation, policy), the edit
    that a checkpoint survives, its rebinding to the edited text and its
    restore into a lexer.  Tokenization itself is not part of this file.
    Proved: restoring what was captured loses nothing, a restore never
    crosses sources, and exactly which edits a checkpoint survives.

    The lazily filled digest memo of the lexer ([content_digest]) is not a
    field here: its value is a function of the input, computed where it is
    read. *)

From Stdlib Require Import Sorted.
From stdpp Require Import base numbers list sets gmap.
From S2P Require Import Prelude Utf8 Spans SourceIdentity.

(** ** Modes, configuration and policy *)

Inductive LexerMode := ExpectTerm | ExpectOperator | ExpectDelimiter | InFormatBody | InDataSection.

Record LocalSymbolTable := mkSymbols {
  known_subs : gset (list Z);
  nullary_subs : gset (list Z);
}.
Definition identity_names (self : LocalSymbolTable) : gset (list Z) := known_subs self.
Definition identity_nullary_names (self : LocalSymbolTable) : gset (list Z) := nullary_subs self.

Record LexerConfig := mkConfig {
  parse_interpolation : bool;
  track_positions : bool;
  max_lookahead : Z;
  symbol_table : option LocalSymbolTable;
}.
Definition DEFAULT_MAX_LOOKAHEAD : Z := 1024.
Definition config_default : LexerConfig := mkConfig true true DEFAULT_MAX_LOOKAHEAD None.

Inductive CheckpointNewlinePolicy := SourceExact.

Record LexerPolicyIdentity := mkPolicy {
  interpolation : bool;
  lookahead_limit : Z;
  policy_qw_recovery_enabled : bool;
  policy_emit_heredoc_body_tokens : bool;
  symbol_names : option (gset (list Z));
  nullary_symbol_names : option (gset (list Z));
}.

Definition from_construction (config : LexerConfig) (qw_recovery_enabled emit_heredoc_body_tokens : bool)
    : LexerPolicyIdentity :=
  mkPolicy (parse_interpolation config) (max_lookahead config) qw_recovery_enabled
    emit_heredoc_body_tokens (identity_names <$> symbol_table config)
    (identity_nullary_names <$> symbol_table config).

Definition CHECKPOINT_SCHEMA_VERSION : Z := 1.

Record LexerCheckpointIdentity := mkIdentity {
  schema : Z;
  content : ContentDigest;
  identity_logical_source : option LogicalSourceId;
  identity_generation : SourceGeneration;
  policy : LexerPolicyIdentity;
  newline_policy : CheckpointNewlinePolicy;
}.

Inductive CheckpointRestoreError :=
| WrongSource | WrongContent | WrongGeneration | WrongConfiguration | UnknownSchema
| InvalidUtf8Boundary | UnsupportedBoundary | IncompleteState | Invalidated.

(** ** Replay state *)

Record PendingHeredocCheckpoint := mkPending {
  label : list Z;
  body_start : Z;
  allow_indent : bool;
  interpolates : bool;
}.
Record QuoteOperatorCheckpoint := mkQuote {
  operator : list Z;
  delimiter : Z;
  start_pos : Z;
}.
Inductive CheckpointContext :=
| Normal
| Heredoc (terminator : list Z) (is_interpolated : bool)
| Format (start_position : Z)
| Regex (delimiter : Z) (flags_position : option Z)
| QuoteLike (operator : list Z) (delimiter : Z) (is_paired : bool).

(** The lexer's own queue entry and quote state, with the same data. *)
Record HeredocSpec := mkHeredoc {
  spec_label : list Z;
  spec_body_start : Z;
  spec_allow_indent : bool;
  spec_interpolates : bool;
}.
Record QuoteOperatorInfo := mkQuoteInfo {
  info_operator : list Z;
  info_delimiter : Z;
  info_start_pos : Z;
}.
Record StrayCutOpen := mkStrayCut { cut_offset : Z; runs_to_eof : bool }.

Module Replay.
Record t := mk {
  position : Z;
  mode : LexerMode;
  delimiter_stack : list Z;
  in_prototype : bool;
  prototype_depth : Z;
  prototype_signature_seen : bool;
  after_sub : bool;
  after_arrow : bool;
  hash_brace_depth : Z;
  after_var_subscript : bool;
  paren_depth : Z;
  print_list_parens : list (Z * bool * bool);
  pending_print_list_paren : bool;
  current_pos : Position.t;
  after_newline : bool;
  pending_heredocs : list PendingHeredocCheckpoint;
  line_start_offset : Z;
  current_quote_op : option QuoteOperatorCheckpoint;
  eof_emitted : bool;
  context : CheckpointContext;
}.
End Replay.
Notation ReplayState := Replay.t.

Module Lexer.
Record t := mk {
  input : list Z;
  position : Z;
  mode : LexerMode;
  config : LexerConfig;
  delimiter_stack : list Z;
  in_prototype : bool;
  prototype_depth : Z;
  prototype_signature_seen : bool;
  after_sub : bool;
  after_arrow : bool;
  hash_brace_depth : Z;
  after_var_subscript : bool;
  paren_depth : Z;
  print_list_parens : list (Z * bool * bool);
  pending_print_list_paren : bool;
  current_pos : Position.t;
  after_newline : bool;
  pending_heredocs : list HeredocSpec;
  line_start_offset : Z;
  emit_heredoc_body_tokens : bool;
  current_quote_op : option QuoteOperatorInfo;
  qw_recovery_enabled : bool;
  eof_emitted : bool;
  pod_cut_cache : option (Z * option Z);
  stray_cut_opens : list StrayCutOpen;
  scan_limit : option Z;
  logical_source : option LogicalSourceId;
  generation : SourceGeneration;
}.
End Lexer.
Notation PerlLexer := Lexer.t.

Record LexerCheckpoint := mkCheckpoint {
  identity : LexerCheckpointIdentity;
  replay : ReplayState;
  invalidated : bool;
  live_boundary : bool;
}.

#[export] Instance LexerMode_eq_dec : EqDecision LexerMode.
Proof. solve_decision. Defined.
#[export] Instance LexerPolicyIdentity_eq_dec : EqDecision LexerPolicyIdentity.
Proof. solve_decision. Defined.
#[export] Instance Pending_eq_dec : EqDecision PendingHeredocCheckpoint.
Proof. solve_decision. Defined.
#[export] Instance Quote_eq_dec : EqDecision QuoteOperatorCheckpoint.
Proof. solve_decision. Defined.
#[export] Instance Context_eq_dec : EqDecision CheckpointContext.
Proof. solve_decision. Defined.
#[export] Instance Position_eq_dec : EqDecision Position.t.
Proof. solve_decision. Defined.
#[export] Instance Replay_eq_dec : EqDecision ReplayState.
Proof. solve_decision. Defined.

(** ** Lexer construction *)

Definition with_config (input : list Z) (config : LexerConfig) : PerlLexer :=
  Lexer.mk input 0 ExpectTerm config [] false 0 false false false 0 false 0 [] false
    Position.start true [] 0 false None true false None [] None None Unknown.
Definition lexer_new (input : list Z) : PerlLexer := with_config input config_default.

(** ** Checkpoint operations *)

Definition from_live (identity : LexerCheckpointIdentity) (replay : ReplayState) : LexerCheckpoint :=
  mkCheckpoint identity replay false true.

Definition position (self : LexerCheckpoint) : Z := Replay.position (replay self).
Definition is_at_start (self : LexerCheckpoint) : bool := position self =? 0.
Definition is_timeout_sensitive (self : LexerCheckpoint) : bool :=
  negb (bool_decide (Replay.pending_heredocs (replay self) = [])).
Definition behavior_state_changed (self other : LexerCheckpoint) : bool :=
  negb (bool_decide (replay self = replay other)).
Definition invalidate (self : LexerCheckpoint) : LexerCheckpoint :=
  mkCheckpoint (identity self) (replay self) true (live_boundary self).

Definition transform_offset (offset start old_len new_len : Z) : option Z :=
  let old_end := saturating_add start old_len in
  if offset <=? start then Some offset
  else if old_end <=? offset then Some (saturating_add (saturating_sub offset old_len) new_len)
  else None.

Definition offset_is_valid (input : list Z) (offset : Z) : bool :=
  (offset <=? len input) && is_char_boundary input offset.

(** The loop over the queued heredocs. *)
Fixpoint transform_pending (pending : list PendingHeredocCheckpoint) (start old_len new_len : Z)
    : option (list PendingHeredocCheckpoint) :=
  match pending with
  | [] => Some []
  | p :: ps =>
    b ← transform_offset (body_start p) start old_len new_len;
    ps ← transform_pending ps start old_len new_len;
    mret (mkPending (label p) b (allow_indent p) (interpolates p) :: ps)
  end.
Definition transform_quote (quote : option QuoteOperatorCheckpoint) (start old_len new_len : Z)
    : option (option QuoteOperatorCheckpoint) :=
  match quote with
  | None => Some None
  | Some q =>
    s ← transform_offset (start_pos q) start old_len new_len;
    mret (Some (mkQuote (operator q) (delimiter q) s))
  end.
Definition transform_context (context : CheckpointContext) (start old_len new_len : Z)
    : option CheckpointContext :=
  match context with
  | Format start_position =>
    s ← transform_offset start_position start old_len new_len; mret (Format s)
  | Regex d (Some flags) =>
    f ← transform_offset flags start old_len new_len; mret (Regex d (Some f))
  | Regex d None => Some context
  | Normal | Heredoc _ _ | QuoteLike _ _ _ => Some context
  end.

(** The offsets that the edit moves, as [try_apply_edit] writes them. *)
Definition transform_replay (r : ReplayState) (start old_len new_len : Z) : option ReplayState :=
  position ← transform_offset (Replay.position r) start old_len new_len;
  line_start_offset ← transform_offset (Replay.line_start_offset r) start old_len new_len;
  pending_heredocs ← transform_pending (Replay.pending_heredocs r) start old_len new_len;
  current_quote_op ← transform_quote (Replay.current_quote_op r) start old_len new_len;
  context ← transform_context (Replay.context r) start old_len new_len;
  mret (Replay.mk position (Replay.mode r) (Replay.delimiter_stack r) (Replay.in_prototype r)
    (Replay.prototype_depth r) (Replay.prototype_signature_seen r) (Replay.after_sub r)
    (Replay.after_arrow r) (Replay.hash_brace_depth r) (Replay.after_var_subscript r)
    (Replay.paren_depth r) (Replay.print_list_parens r) (Replay.pending_print_list_paren r)
    (Replay.current_pos r) (Replay.after_newline r) pending_heredocs line_start_offset
    current_quote_op false context).

Definition try_apply_edit (self : LexerCheckpoint) (start old_len new_len : Z) : bool * LexerCheckpoint :=
  if invalidated self then (false, self)
  else if (old_len =? 0) && (new_len =? 0) then (true, self)
  else
    let original_position := Replay.position (replay self) in
    match transform_replay (replay self) start old_len new_len with
    | None => (false, invalidate self)
    | Some r =>
      let self := mkCheckpoint (identity self) r (invalidated self) (live_boundary self) in
      if start <? original_position then (false, invalidate self) else (true, self)
    end.
Definition apply_edit (self : LexerCheckpoint) (start old_len new_len : Z) : LexerCheckpoint :=
  (try_apply_edit self start old_len new_len).2.

(** The last conjunct of [offsets_valid_for]. *)
Definition context_valid (input : list Z) (x : CheckpointContext) : bool :=
  match x with
  | Format start_position => offset_is_valid input start_position
  | Regex _ flags_position =>
    match flags_position with None => true | Some p => offset_is_valid input p end
  | Normal | Heredoc _ _ | QuoteLike _ _ _ => true
  end.
Definition offsets_valid_for (self : LexerCheckpoint) (input : list Z) : bool :=
  let r := replay self in
  offset_is_valid input (Position.byte (Replay.current_pos r)) &&
  offset_is_valid input (Replay.position r) &&
  offset_is_valid input (Replay.line_start_offset r) &&
  (Replay.line_start_offset r <=? Replay.position r) &&
  forallb (fun p => offset_is_valid input (body_start p)) (Replay.pending_heredocs r) &&
  match Replay.current_quote_op r with
  | None => true
  | Some q => offset_is_valid input (start_pos q) && (start_pos q <=? Replay.position r)
  end &&
  context_valid input (Replay.context r).
Definition is_valid_for (self : LexerCheckpoint) (input : list Z) : bool :=
  negb (invalidated self) && offsets_valid_for self input.

Definition ensure_complete (self : LexerCheckpoint) : result CheckpointRestoreError unit :=
  let r := replay self in
  if invalidated self then Err Invalidated
  else if negb (live_boundary self) then Err UnsupportedBoundary
  else if bool_decide (Replay.mode r = ExpectDelimiter) &&
          bool_decide (Replay.current_quote_op r = None) && bool_decide (Replay.delimiter_stack r = [])
  then Err IncompleteState
  else if match Replay.current_quote_op r with
          | Some q => Replay.position r <? start_pos q
          | None => false
          end
  then Err IncompleteState
  else if bool_decide (Replay.mode r = InFormatBody) &&
          negb (match Replay.context r with Format _ => true | _ => false end)
  then Err IncompleteState
  else Ok tt.

(** [diff] and [has_state_changes]. *)
Record CheckpointDiff := mkDiff {
  position_delta : Z;
  mode_changed : bool;
  delimiter_stack_changed : bool;
  prototype_state_changed : bool;
  eof_state_changed : bool;
  context_changed : bool;
}.
Definition differ {A} `{EqDecision A} (x y : A) : bool := negb (bool_decide (x = y)).
Definition diff (self other : LexerCheckpoint) : outcome CheckpointDiff :=
  let a := replay self in let b := replay other in
  delta ← isize_op (as_isize (Replay.position a) - as_isize (Replay.position b));
  mret (mkDiff delta
    (differ (Replay.mode a) (Replay.mode b))
    (differ (Replay.delimiter_stack a) (Replay.delimiter_stack b))
    (differ (Replay.in_prototype a) (Replay.in_prototype b)
      || differ (Replay.prototype_depth a) (Replay.prototype_depth b)
      || differ (Replay.prototype_signature_seen a) (Replay.prototype_signature_seen b)
      || differ (Replay.after_sub a) (Replay.after_sub b)
      || differ (Replay.after_arrow a) (Replay.after_arrow b)
      || differ (Replay.hash_brace_depth a) (Replay.hash_brace_depth b)
      || differ (Replay.after_var_subscript a) (Replay.after_var_subscript b)
      || differ (Replay.paren_depth a) (Replay.paren_depth b))
    (differ (Replay.eof_emitted a) (Replay.eof_emitted b))
    (differ (Replay.context a) (Replay.context b)
      || differ (Replay.after_newline a) (Replay.after_newline b)
      || differ (Replay.pending_heredocs a) (Replay.pending_heredocs b)
      || differ (Replay.line_start_offset a) (Replay.line_start_offset b)
      || differ (Replay.current_quote_op a) (Replay.current_quote_op b)
      || differ (policy (identity self)) (policy (identity other)))).
Definition has_state_changes (self : CheckpointDiff) : bool :=
  mode_changed self || delimiter_stack_changed self || prototype_state_changed self ||
  eof_state_changed self || context_changed self.

(** ** Capture and restore *)

Definition pending_of_spec (p : HeredocSpec) : PendingHeredocCheckpoint :=
  mkPending (spec_label p) (spec_body_start p) (spec_allow_indent p) (spec_interpolates p).
Definition spec_of_pending (p : PendingHeredocCheckpoint) : HeredocSpec :=
  mkHeredoc (label p) (body_start p) (allow_indent p) (interpolates p).
Definition quote_of_info (q : QuoteOperatorInfo) : QuoteOperatorCheckpoint :=
  mkQuote (info_operator q) (info_delimiter q) (info_start_pos q).
Definition info_of_quote (q : QuoteOperatorCheckpoint) : QuoteOperatorInfo :=
  mkQuoteInfo (operator q) (delimiter q) (start_pos q).

Definition capture_context (self : PerlLexer) : CheckpointContext :=
  if bool_decide (Lexer.mode self = InFormatBody) then Format (Lexer.position self)
  else if negb (bool_decide (Lexer.delimiter_stack self = [])) then
    QuoteLike (from_option info_operator [] (Lexer.current_quote_op self))
      (default 0 (last (Lexer.delimiter_stack self))) true
  else Normal.

Definition capture_replay (self : PerlLexer) : ReplayState :=
  Replay.mk (Lexer.position self) (Lexer.mode self) (Lexer.delimiter_stack self)
    (Lexer.in_prototype self) (Lexer.prototype_depth self) (Lexer.prototype_signature_seen self)
    (Lexer.after_sub self) (Lexer.after_arrow self) (Lexer.hash_brace_depth self)
    (Lexer.after_var_subscript self) (Lexer.paren_depth self) (Lexer.print_list_parens self)
    (Lexer.pending_print_list_paren self) (Lexer.current_pos self) (Lexer.after_newline self)
    (pending_of_spec <$> Lexer.pending_heredocs self) (Lexer.line_start_offset self)
    (quote_of_info <$> Lexer.current_quote_op self) (Lexer.eof_emitted self) (capture_context self).

Definition bind_logical_source (self : PerlLexer) (s : LogicalSourceId) : PerlLexer :=
  let '(Lexer.mk a b c d e f g h i j k l m n o p q r u v w x y z aa bb _ dd) := self in
  Lexer.mk a b c d e f g h i j k l m n o p q r u v w x y z aa bb (Some s) dd.
Definition bind_generation (self : PerlLexer) (s : SourceGeneration) : PerlLexer :=
  let '(Lexer.mk a b c d e f g h i j k l m n o p q r u v w x y z aa bb cc _) := self in
  Lexer.mk a b c d e f g h i j k l m n o p q r u v w x y z aa bb cc s.

Definition restored (self : PerlLexer) (r : ReplayState) : PerlLexer :=
  Lexer.mk (Lexer.input self) (Replay.position r)
    (match Replay.context r with Format _ => InFormatBody | _ => Replay.mode r end)
    (Lexer.config self) (Replay.delimiter_stack r) (Replay.in_prototype r) (Replay.prototype_depth r)
    (Replay.prototype_signature_seen r) (Replay.after_sub r) (Replay.after_arrow r)
    (Replay.hash_brace_depth r) (Replay.after_var_subscript r) (Replay.paren_depth r)
    (Replay.print_list_parens r) (Replay.pending_print_list_paren r) (Replay.current_pos r)
    (Replay.after_newline r) (spec_of_pending <$> Replay.pending_heredocs r)
    (Replay.line_start_offset r) (Lexer.emit_heredoc_body_tokens self)
    (info_of_quote <$> Replay.current_quote_op r) (Lexer.qw_recovery_enabled self)
    (Replay.eof_emitted r) (Lexer.pod_cut_cache self)
    (filter (fun event => cut_offset event <? Replay.position r = true) (Lexer.stray_cut_opens self))
    None (Lexer.logical_source self) (Lexer.generation self).

Section digest.
Variable sha256 : list Z -> list Z.

Definition capture (content : ContentDigest) (config : LexerConfig)
    (qw_recovery_enabled emit_heredoc_body_tokens : bool) (logical_source : option LogicalSourceId)
    (generation : SourceGeneration) : LexerCheckpointIdentity :=
  mkIdentity CHECKPOINT_SCHEMA_VERSION content logical_source generation
    (from_construction config qw_recovery_enabled emit_heredoc_body_tokens) SourceExact.

Definition checkpoint (self : PerlLexer) : outcome LexerCheckpoint :=
  content ← of_bytes sha256 (Lexer.input self);
  mret (from_live
    (capture content (Lexer.config self) (Lexer.qw_recovery_enabled self)
       (Lexer.emit_heredoc_body_tokens self) (Lexer.logical_source self) (Lexer.generation self))
    (capture_replay self)).

Definition origin (source : list Z) : outcome LexerCheckpoint := checkpoint (lexer_new source).
Definition origin_with_config (source : list Z) (config : LexerConfig) : outcome LexerCheckpoint :=
  checkpoint (with_config source config).

Definition logical_source_matches (captured target : option LogicalSourceId) : bool :=
  match captured, target with
  | None, None => true
  | Some c, Some t => bool_decide (c = t)
  | _, _ => false
  end.
Definition generation_matches (captured target : SourceGeneration) : bool :=
  match captured, target with
  | Unknown, Unknown => true
  | Known c, Known t => bool_decide (c = t) && negb (len c =? 0)
  | _, _ => false
  end.

(** The content digest is computed only when the check reaches it. *)
Definition matches_target (self : LexerCheckpointIdentity) (content_provider : outcome ContentDigest)
    (config : LexerConfig) (qw_recovery_enabled emit_heredoc_body_tokens : bool)
    (logical_source : option LogicalSourceId) (generation : SourceGeneration)
    : outcome (result CheckpointRestoreError unit) :=
  if negb (schema self =? CHECKPOINT_SCHEMA_VERSION) then Ret (Err UnknownSchema)
  else if match newline_policy self with SourceExact => false end then Ret (Err WrongConfiguration)
  else if negb (logical_source_matches (identity_logical_source self) logical_source)
  then Ret (Err WrongSource)
  else if negb (generation_matches (identity_generation self) generation)
  then Ret (Err WrongGeneration)
  else
    c ← content_provider;
    if negb (bool_decide (content self = c)) then mret (Err WrongContent)
    else if negb (bool_decide
      (policy self = from_construction config qw_recovery_enabled emit_heredoc_body_tokens))
    then mret (Err WrongConfiguration)
    else mret (Ok tt).

Definition validate_restore (self : PerlLexer) (c : LexerCheckpoint)
    : outcome (result CheckpointRestoreError unit) :=
  if negb (is_char_boundary (Lexer.input self) (position c)) then Ret (Err InvalidUtf8Boundary)
  else
    _ ←? Ret (ensure_complete c);
    _ ←? matches_target (identity c) (of_bytes sha256 (Lexer.input self)) (Lexer.config self)
           (Lexer.qw_recovery_enabled self) (Lexer.emit_heredoc_body_tokens self)
           (Lexer.logical_source self) (Lexer.generation self);
    if negb (is_valid_for c (Lexer.input self)) then Ret (Err UnsupportedBoundary) else Ret (Ok tt).

Definition restore (self : PerlLexer) (c : LexerCheckpoint)
    : outcome (result CheckpointRestoreError unit * PerlLexer) :=
  v ← validate_restore self c;
  match v with
  | Err e => mret (Err e, self)
  | Ok _ => mret (Ok tt, restored self (replay c))
  end.

(** [rebind_to_source]: a failure leaves the checkpoint as it was. *)
Definition rebind_to_source (self : LexerCheckpoint) (source : list Z) (generation : SourceGeneration)
    : outcome (result CheckpointRestoreError unit * LexerCheckpoint) :=
  if invalidated self then Ret (Err Invalidated, self)
  else match ensure_complete self with
  | Err e => Ret (Err e, self)
  | Ok _ =>
    if negb (is_char_boundary source (position self)) then Ret (Err InvalidUtf8Boundary, self)
    else if negb (offsets_valid_for self source) then Ret (Err UnsupportedBoundary, self)
    else
      content ← of_bytes sha256 source;
      let i := identity self in
      mret (Ok tt, mkCheckpoint
        (mkIdentity (schema i) content (identity_logical_source i) generation (policy i)
           (newline_policy i))
        (replay self) (invalidated self) (live_boundary self))
  end.
End digest.

(** ** Lemmas: offsets under an edit *)

(** The anchors an edit has to keep: bodies of queued heredocs and the
    context's offset.  The line start and the quote operator never lie after
    the position of a valid checkpoint. *)
Definition context_anchors (x : CheckpointContext) : list Z :=
  match x with Format s => [s] | Regex _ (Some f) => [f] | _ => [] end.
Definition anchors (r : ReplayState) : list Z :=
  (body_start <$> Replay.pending_heredocs r) ++ context_anchors (Replay.context r).

(** Every offset of the checkpoint is valid in the text ([placed]); with a
    complete state a lexer of the text can restart there ([usable]). *)
Definition placed (c : LexerCheckpoint) (input : list Z) : Prop :=
  is_valid_for c input = true /\
  Position.byte (Replay.current_pos (replay c)) <= position c.
Definition usable (c : LexerCheckpoint) (input : list Z) : Prop :=
  ensure_complete c = Ok tt /\ placed c input.

Definition is_format (x : CheckpointContext) : bool := match x with Format _ => true | _ => false end.

(** What [ensure_complete] demands. *)
Record complete (c : LexerCheckpoint) : Prop := {
  complete_fresh : invalidated c = false;
  complete_live : live_boundary c = true;
  complete_delimiter : ~ (Replay.mode (replay c) = ExpectDelimiter /\
    Replay.current_quote_op (replay c) = None /\ Replay.delimiter_stack (replay c) = []);
  complete_quote q : Replay.current_quote_op (replay c) = Some q -> start_pos q <= position c;
  complete_format : Replay.mode (replay c) = InFormatBody -> is_format (Replay.context (replay c)) = true;
}.

Lemma ensure_complete_spec c : ensure_complete c = Ok tt <-> complete c.
Proof.
  unfold ensure_complete, position in *. split.
  - intros E.
    destruct (invalidated c) eqn:?; [done|]. destruct (live_boundary c) eqn:?; [|done]. simpl in E.
    constructor; try done.
    + intros (H1 & H2 & H3). by rewrite !bool_decide_eq_true_2 in E by done.
    + intros q Hq. rewrite Hq in E. destruct (_ && _ && _); [done|]. unfold position.
      by destruct (Z.ltb_spec (Replay.position (replay c)) (start_pos q)).
    + intros Hm. destruct (_ && _ && _); [done|].
      destruct (match Replay.current_quote_op _ with Some _ => _ | None => _ end); [done|].
      rewrite bool_decide_eq_true_2 in E by done. by destruct (Replay.context (replay c)).
  - intros [-> -> H1 H2 H3]. simpl.
    rewrite <- !bool_decide_and.
    rewrite bool_decide_eq_false_2 by tauto.
    destruct (Replay.current_quote_op (replay c)) as [q|] eqn:E;
      [specialize (H2 q eq_refl); unfold position in H2; bcase|].
    all: case_bool_decide as Em; [|done]; specialize (H3 Em); by destruct (Replay.context (replay c)).
Qed.

Section edit.
Context (c1 o c3 r : list Z).
Hypothesis Ho : scalars (c1 ++ o ++ c3).
Hypothesis Hr : scalars r.
Hypothesis Lo : blen (c1 ++ o ++ c3) <= isize_max.
Hypothesis Ln : blen (c1 ++ r ++ c3) <= isize_max.
Notation old := (encode (c1 ++ o ++ c3)).
Notation new := (encode (c1 ++ r ++ c3)).
Notation moved off := (transform_offset off (blen c1) (blen o) (blen r)).

Lemma scalars_new : scalars (c1 ++ r ++ c3).
Proof using Ho Hr. rewrite !scalars_app in *. tauto. Qed.

Lemma offset_valid_bounds cs off : scalars cs -> offset_is_valid (encode cs) off = true -> 0 <= off <= blen cs.
Proof. unfold offset_is_valid. intros Hs [_ H]%andb_true_iff. by apply boundary_bounds. Qed.

Lemma blen_parts : blen (c1 ++ o ++ c3) = blen c1 + blen o + blen c3 /\
  blen (c1 ++ r ++ c3) = blen c1 + blen r + blen c3 /\
  0 <= blen c1 /\ 0 <= blen o /\ 0 <= blen r /\ 0 <= blen c3.
Proof using Type. rewrite !blen_app. pose proof blen_nonneg. repeat split; try lia; done. Qed.

(** Where a valid offset goes. *)
Lemma transform_cases off :
  offset_is_valid old off = true ->
  moved off = if off <=? blen c1 then Some off
              else if blen c1 + blen o <=? off then Some (off - blen o + blen r) else None.
Proof using Ho Lo Ln.
  intros H%offset_valid_bounds; [|done]. pose proof blen_parts.
  unfold transform_offset, saturating_add, saturating_sub, usize_max, isize_max in *.
  rewrite Z.min_r by lia. destruct (off <=? blen c1) eqn:E; [done|].
  destruct (_ <=? off) eqn:E2; [|done]. f_equal. lia.
Qed.

Lemma transform_before off : off <= blen c1 -> moved off = Some off.
Proof using Type. intros. unfold transform_offset. by bcase. Qed.

Lemma transform_valid off off' :
  offset_is_valid old off = true -> moved off = Some off' -> offset_is_valid new off' = true.
Proof using Ho Hr Lo Ln.
  intros H E. rewrite transform_cases in E by done. pose proof blen_parts.
  pose proof scalars_new as Hn.
  apply andb_true_iff in H as [Hl Hb]. unfold offset_is_valid in *. rewrite len_encode in *.
  apply andb_true_iff. destruct (Z.leb_spec off (blen c1)).
  - simplify_eq. split; [bcase; done|].
    by eapply boundary_keep; [exact Ho|exact Hn|lia|].
  - destruct (Z.leb_spec (blen c1 + blen o) off); [|done]. simplify_eq.
    split; [bcase; done|]. rewrite !app_assoc in *.
    replace (off - blen o + blen r) with (off - blen (c1 ++ o) + blen (c1 ++ r))
      by (rewrite !blen_app; lia).
    apply boundary_shift; try done. rewrite blen_app. lia.
Qed.

(** An offset is lost exactly when it lies strictly inside the edited range. *)
Lemma transform_lost off :
  offset_is_valid old off = true -> moved off = None <-> blen c1 < off < blen c1 + blen o.
Proof using Ho Lo Ln.
  intros H. rewrite transform_cases by done. bcase; split; try done; lia.
Qed.

Definition lost (a : Z) : Prop := blen c1 < a < blen c1 + blen o.

Lemma Forall_not_lost l : Forall (fun a => a <= blen c1 \/ blen c1 + blen o <= a) l <-> ~ Exists lost l.
Proof using Type.
  rewrite Forall_forall, Exists_exists. unfold lost. split.
  - intros H (a & Ha & ?). specialize (H a Ha). lia.
  - intros H a Ha. destruct (Z.le_gt_cases a (blen c1)); [by left|right].
    destruct (Z.le_gt_cases (blen c1 + blen o) a); [done|]. exfalso. apply H. by exists a.
Qed.

Lemma transform_pending_spec ps :
  forallb (fun p => offset_is_valid old (body_start p)) ps = true ->
  match transform_pending ps (blen c1) (blen o) (blen r) with
  | None => Exists lost (body_start <$> ps)
  | Some ps' => ~ Exists lost (body_start <$> ps) /\
      forallb (fun p => offset_is_valid new (body_start p)) ps' = true
  end.
Proof using Ho Hr Lo Ln.
  induction ps as [|p ps IH]; [split; [by intros []%Exists_nil|done]|]. csimpl.
  intros [Hp Hps]%andb_true_iff. specialize (IH Hps).
  pose proof (transform_lost _ Hp). unfold lost.
  destruct (moved (body_start p)) as [b|] eqn:E; simpl; [|left; by apply H].
  pose proof (transform_valid _ _ Hp E).
  destruct (transform_pending ps _ _ _) as [ps'|]; simpl; [|by right].
  destruct IH as [IH1 IH2]. rewrite andb_true_iff, Exists_cons. unfold lost. naive_solver.
Qed.

Lemma transform_context_spec x :
  context_valid old x = true ->
  match transform_context x (blen c1) (blen o) (blen r) with
  | None => Exists lost (context_anchors x)
  | Some x' => ~ Exists lost (context_anchors x) /\ context_valid new x' = true /\
      is_format x' = is_format x
  end.
Proof using Ho Hr Lo Ln.
  intros Hx. destruct x as [| |s|d [f|]|]; simpl in *; rewrite ?Exists_nil, ?Exists_cons; try naive_solver.
  all: pose proof (transform_lost _ Hx); unfold lost.
  - destruct (moved s) as [b|] eqn:E; simpl; [|left; by apply H].
    pose proof (transform_valid _ _ Hx E). rewrite Exists_cons, Exists_nil. naive_solver.
  - destruct (moved f) as [b|] eqn:E; simpl; [|left; by apply H].
    pose proof (transform_valid _ _ Hx E). rewrite Exists_cons, Exists_nil. naive_solver.
Qed.

Lemma offset_keep off : offset_is_valid old off = true -> off <= blen c1 -> offset_is_valid new off = true.
Proof using Ho Hr Lo Ln. intros H L. eapply transform_valid; [exact H|by apply transform_before]. Qed.

(** The replay state carried over an edit at or after its position. *)
Definition carried (x x' : ReplayState) : Prop :=
  exists ps ctx, x' = Replay.mk (Replay.position x) (Replay.mode x) (Replay.delimiter_stack x)
    (Replay.in_prototype x) (Replay.prototype_depth x) (Replay.prototype_signature_seen x)
    (Replay.after_sub x) (Replay.after_arrow x) (Replay.hash_brace_depth x)
    (Replay.after_var_subscript x) (Replay.paren_depth x) (Replay.print_list_parens x)
    (Replay.pending_print_list_paren x) (Replay.current_pos x) (Replay.after_newline x)
    ps (Replay.line_start_offset x) (Replay.current_quote_op x) false ctx /\
  transform_pending (Replay.pending_heredocs x) (blen c1) (blen o) (blen r) = Some ps /\
  transform_context (Replay.context x) (blen c1) (blen o) (blen r) = Some ctx.

Lemma valid_offsets c input :
  is_valid_for c input = true -> invalidated c = false /\
  offset_is_valid input (Position.byte (Replay.current_pos (replay c))) = true /\
  offset_is_valid input (position c) = true /\
  offset_is_valid input (Replay.line_start_offset (replay c)) = true /\
  Replay.line_start_offset (replay c) <= position c /\
  forallb (fun p => offset_is_valid input (body_start p)) (Replay.pending_heredocs (replay c)) = true /\
  match Replay.current_quote_op (replay c) with
  | None => true
  | Some q => offset_is_valid input (start_pos q) && (start_pos q <=? position c)
  end = true /\
  context_valid input (Replay.context (replay c)) = true.
Proof using Type.
  unfold is_valid_for, offsets_valid_for, position. rewrite !andb_true_iff, negb_true_iff, Z.leb_le.
  tauto.
Qed.

Lemma transform_quote_before c :
  placed c old -> position c <= blen c1 ->
  transform_quote (Replay.current_quote_op (replay c)) (blen c1) (blen o) (blen r) =
    Some (Replay.current_quote_op (replay c)).
Proof using Type.
  intros (Hv & _) Hp. apply valid_offsets in Hv as (_ & _ & _ & _ & _ & _ & Hq & _).
  destruct (Replay.current_quote_op (replay c)) as [[op d s]|]; [|done].
  apply andb_true_iff in Hq as [_ Hq%Z.leb_le]. simpl in *. by rewrite transform_before by lia.
Qed.

Lemma transform_replay_prefix c :
  placed c old -> position c <= blen c1 ->
  match transform_replay (replay c) (blen c1) (blen o) (blen r) with
  | None => Exists lost (anchors (replay c))
  | Some x => ~ Exists lost (anchors (replay c)) /\ carried (replay c) x
  end.
Proof using Ho Hr Lo Ln.
  intros Hu Hp. pose proof Hu as (Hv & Hb).
  apply valid_offsets in Hv as (_ & _ & _ & _ & Hl & Hh & _ & Hx).
  unfold transform_replay, anchors.
  rewrite (transform_before (Replay.position (replay c))) by done. simpl.
  rewrite transform_before by lia. simpl.
  pose proof (transform_pending_spec _ Hh) as Sp. pose proof (transform_context_spec _ Hx) as Sc.
  destruct (transform_pending _ _ _ _) as [ps|] eqn:Ep; simpl; [|rewrite Exists_app; by left].
  rewrite transform_quote_before by done. simpl.
  destruct (transform_context _ _ _ _) as [x|] eqn:Ex; simpl; [|rewrite Exists_app; by right].
  rewrite Exists_app. split; [naive_solver|]. by exists ps, x.
Qed.

(** The carried checkpoint is placed in the new text, and usable there if it
    was usable in the old. *)
Lemma carried_placed c x :
  placed c old -> position c <= blen c1 -> carried (replay c) x ->
  placed (mkCheckpoint (identity c) x (invalidated c) (live_boundary c)) new.
Proof using Ho Hr Lo Ln.
  intros (Hv & Hb) Hp (ps & ctx & -> & Eps & Ectx).
  apply valid_offsets in Hv as (Hi & H1 & H2 & H3 & H4 & H5 & H6 & H7).
  pose proof (transform_pending_spec _ H5) as Sp. rewrite Eps in Sp.
  pose proof (transform_context_spec _ H7) as Sc. rewrite Ectx in Sc. split.
  - unfold is_valid_for, offsets_valid_for. simpl. rewrite Hi. simpl.
    unfold position in *.
    rewrite !offset_keep by (done || lia). rewrite (proj2 (Z.leb_le _ _) H4). simpl.
    destruct Sp as [_ ->]. destruct Sc as (_ & -> & _). rewrite andb_true_r. simpl.
    destruct (Replay.current_quote_op (replay c)) as [q|]; [|done].
    apply andb_true_iff in H6 as [Hq Hqp]. rewrite Hqp.
    rewrite offset_keep; [done|done|]. apply Z.leb_le in Hqp. lia.
  - simpl. unfold position in *. simpl. lia.
Qed.

Lemma carried_usable c x :
  usable c old -> position c <= blen c1 -> carried (replay c) x ->
  usable (mkCheckpoint (identity c) x (invalidated c) (live_boundary c)) new.
Proof using Ho Hr Lo Ln.
  intros (Hc%ensure_complete_spec & Hu) Hp Hx. split; [|by apply carried_placed].
  destruct Hx as (ps & ctx & -> & Eps & Ectx). destruct Hu as (Hv & _).
  apply valid_offsets in Hv as (_ & _ & _ & _ & _ & _ & _ & H7).
  pose proof (transform_context_spec _ H7) as Sc. rewrite Ectx in Sc.
  destruct Hc as [C1 C2 C3 C4 C5]. apply ensure_complete_spec. constructor; simpl; try done.
  intros Hm. destruct Sc as (_ & _ & ->). by apply C5.
Qed.

(** An edit at or after the position of a placed checkpoint that loses no
    anchor keeps it. *)
Lemma try_apply_edit_placed c :
  placed c old -> position c <= blen c1 -> ~ Exists lost (anchors (replay c)) ->
  exists c', try_apply_edit c (blen c1) (blen o) (blen r) = (true, c') /\ placed c' new /\
    position c' = position c /\ identity c' = identity c /\ live_boundary c' = live_boundary c /\
    (replay c' = replay c \/ carried (replay c) (replay c')).
Proof using Ho Hr Lo Ln.
  intros Hu Hp Hl. pose proof Hu as [Hv _].
  apply valid_offsets in Hv as [Hi _]. unfold try_apply_edit. rewrite Hi.
  destruct ((blen o =? 0) && (blen r =? 0)) eqn:Ez.
  - apply andb_true_iff in Ez as [->%Z.eqb_eq%blen_zero_nil ->%Z.eqb_eq%blen_zero_nil].
    exists c. split_and!; try done. by left.
  - pose proof (transform_replay_prefix c Hu Hp) as Ht.
    destruct (transform_replay _ _ _ _) as [x|]; [|done]. destruct Ht as [_ Hx].
    pose proof (carried_placed c x Hu Hp Hx) as Hc.
    destruct (Z.ltb_spec (blen c1) (Replay.position (replay c))); [unfold position in Hp; lia|].
    eexists. split; [done|]. rewrite Hi in *. split_and!; try done; [|by right].
    by destruct Hx as (ps & ctx & -> & _).
Qed.
End edit.

(** ** Lemmas: rebinding and restoring *)

Section restore_lemmas.
Context (sha256 : list Z -> list Z).

Lemma rebind_usable c source generation :
  usable c source -> len source <= u32_max ->
  exists content, of_bytes sha256 source = Ret content /\
    rebind_to_source sha256 c source generation =
      Ret (Ok tt, mkCheckpoint
        (mkIdentity (schema (identity c)) content (identity_logical_source (identity c)) generation
           (policy (identity c)) (newline_policy (identity c)))
        (replay c) (invalidated c) (live_boundary c)).
Proof.
  intros (Hc & Hv & _) Hl. destruct (of_bytes_short sha256 source Hl) as [d Hd].
  exists d. split; [done|]. unfold rebind_to_source.
  apply andb_true_iff in Hv as [Hi Hv]. apply negb_true_iff in Hi. rewrite Hi, Hc, Hv.
  unfold offsets_valid_for in Hv. rewrite !andb_true_iff in Hv.
  destruct Hv as [[[[[[_ Hp] _] _] _] _] _]. apply andb_true_iff in Hp as [_ Hp].
  unfold position. rewrite Hp. simpl. by rewrite Hd.
Qed.

(** Rebinding returns; on success only the content and the generation change. *)
Lemma rebind_cases c source generation d :
  of_bytes sha256 source = Ret d ->
  (exists e, rebind_to_source sha256 c source generation = Ret (Err e, c)) \/
  (complete c /\ is_valid_for c source = true /\
   exists i, rebind_to_source sha256 c source generation =
      Ret (Ok tt, mkCheckpoint i (replay c) (invalidated c) (live_boundary c))).
Proof.
  intros Hd. unfold rebind_to_source, is_valid_for. rewrite <- ensure_complete_spec, Hd.
  destruct (invalidated c); [left; by eexists|].
  destruct (ensure_complete c) as [[]|]; [|left; by eexists].
  destruct (is_char_boundary source (position c)); [|left; by eexists].
  destruct (offsets_valid_for c source); [|left; by eexists].
  right. split_and!; [done|done|]. by eexists.
Qed.

(** The target's construction is the one the checkpoint records. *)
Definition same_construction (i : LexerCheckpointIdentity) (t : PerlLexer) : Prop :=
  schema i = CHECKPOINT_SCHEMA_VERSION /\ newline_policy i = SourceExact /\
  logical_source_matches (identity_logical_source i) (Lexer.logical_source t) = true /\
  generation_matches (identity_generation i) (Lexer.generation t) = true /\
  policy i = from_construction (Lexer.config t) (Lexer.qw_recovery_enabled t)
               (Lexer.emit_heredoc_body_tokens t).

Lemma matches_target_spec i t d :
  matches_target i (Ret d) (Lexer.config t) (Lexer.qw_recovery_enabled t)
    (Lexer.emit_heredoc_body_tokens t) (Lexer.logical_source t) (Lexer.generation t) = Ret (Ok tt)
  <-> same_construction i t /\ content i = d.
Proof.
  unfold matches_target, same_construction. destruct (newline_policy i).
  destruct (Z.eqb_spec (schema i) CHECKPOINT_SCHEMA_VERSION); simpl; [|naive_solver].
  destruct (logical_source_matches _ _); simpl; [|naive_solver].
  destruct (generation_matches _ _); simpl; [|naive_solver].
  case_bool_decide; simpl; [|naive_solver]. case_bool_decide; naive_solver.
Qed.

Lemma validate_restore_spec t c :
  validate_restore sha256 t c = Ret (Ok tt) <->
  complete c /\ is_valid_for c (Lexer.input t) = true /\ same_construction (identity c) t /\
  of_bytes sha256 (Lexer.input t) = Ret (content (identity c)).
Proof.
  unfold validate_restore. rewrite <- ensure_complete_spec. split.
  - intros E. destruct (negb (is_char_boundary _ _)); [done|].
    destruct (ensure_complete c) as [[]|] eqn:Ec; [|done]. simpl in E.
    destruct (matches_target _ _ _ _ _ _ _) as [[[]|]|] eqn:Em; [|done|done]. simpl in E.
    destruct (is_valid_for c _); [|done].
    destruct (of_bytes sha256 (Lexer.input t)) as [d|] eqn:Ed.
    + apply matches_target_spec in Em as [? ->]. by split_and!.
    + revert Em. unfold matches_target. by repeat case_match.
  - intros (Hc & Hv & Hs & Hd).
    assert (is_char_boundary (Lexer.input t) (position c) = true) as Hb.
    { apply andb_true_iff in Hv as [_ Hv]. unfold offsets_valid_for in Hv.
      rewrite !andb_true_iff in Hv. destruct Hv as [[[[[[_ Hp] _] _] _] _] _].
      by apply andb_true_iff in Hp as [_ Hp]. }
    rewrite Hb, Hc, Hd. simpl. rewrite (proj2 (matches_target_spec _ _ _)) by done. simpl.
    by rewrite Hv.
Qed.

Lemma logical_source_matches_refl s : logical_source_matches s s = true.
Proof. destruct s; [|done]. by apply bool_decide_eq_true_2. Qed.

Lemma generation_matches_refl g : g <> Known [] -> generation_matches g g = true.
Proof.
  destruct g as [v|]; [|done]. intros H. simpl. rewrite bool_decide_eq_true_2 by done.
  destruct v; [done|]. rewrite len_cons. pose proof (len_nonneg v). by bcase.
Qed.

Lemma generation_matches_known g g' : generation_matches g g' = true -> g = g' /\ g' <> Known [].
Proof.
  destruct g as [v|], g' as [v'|]; simpl; try done.
  intros [->%bool_decide_eq_true H]%andb_true_iff. split; [done|]. by intros [= ->].
Qed.

Lemma logical_source_matches_eq s s' : logical_source_matches s s' = true -> s = s'.
Proof. destruct s, s'; simpl; try done. by intros ->%bool_decide_eq_true. Qed.

Lemma validate_restore_total t c d :
  of_bytes sha256 (Lexer.input t) = Ret d -> exists v, validate_restore sha256 t c = Ret v.
Proof.
  intros Hd. unfold validate_restore. rewrite Hd. destruct (negb _); [by eexists|].
  destruct (ensure_complete c) as [[]|]; [|by eexists]. simpl.
  destruct (matches_target _ _ _ _ _ _ _) as [[[]|]|] eqn:E.
  - simpl. case_match; by eexists.
  - by eexists.
  - exfalso. revert E. unfold matches_target. rewrite bind_Ret. unfold mret, outcome_ret.
    repeat case_match; discriminate.
Qed.

Lemma restore_cases t c r t' :
  restore sha256 t c = Ret (r, t') ->
  match r with
  | Ok _ => validate_restore sha256 t c = Ret (Ok tt) /\ t' = restored t (replay c)
  | Err e => validate_restore sha256 t c = Ret (Err e) /\ t' = t
  end.
Proof.
  unfold restore. destruct (validate_restore sha256 t c) as [[[]|e]|]; intros E;
    [by injection E as <- <-|by injection E as <- <-|done].
Qed.

Lemma restore_ok t c :
  validate_restore sha256 t c = Ret (Ok tt) -> restore sha256 t c = Ret (Ok tt, restored t (replay c)).
Proof. unfold restore. by intros ->. Qed.

Lemma checkpoint_inv l c :
  checkpoint sha256 l = Ret c ->
  of_bytes sha256 (Lexer.input l) = Ret (content (identity c)) /\
  c = from_live (capture (content (identity c)) (Lexer.config l) (Lexer.qw_recovery_enabled l)
        (Lexer.emit_heredoc_body_tokens l) (Lexer.logical_source l) (Lexer.generation l))
      (capture_replay l).
Proof.
  unfold checkpoint. destruct (of_bytes sha256 (Lexer.input l)) as [d|]; [|done].
  intros E. injection E as <-. split; reflexivity.
Qed.

(** A checkpoint usable in the target's text rebinds to it and restores. *)
Lemma usable_restarts c t :
  usable c (Lexer.input t) -> len (Lexer.input t) <= u32_max -> same_construction (identity c) t ->
  exists c'', rebind_to_source sha256 c (Lexer.input t) (Lexer.generation t) = Ret (Ok tt, c'') /\
    replay c'' = replay c /\ restore sha256 t c'' = Ret (Ok tt, restored t (replay c)).
Proof.
  intros Hu Hl (S1 & S2 & S3 & S4 & S5).
  destruct (rebind_usable c (Lexer.input t) (Lexer.generation t) Hu Hl) as (d & Hd & ->).
  destruct Hu as (Hc%ensure_complete_spec & Hv & _).
  eexists. split_and!; [done|done|].
  refine (restore_ok _ (mkCheckpoint _ _ _ _) _). apply validate_restore_spec. split_and!; [|done| |done].
  - by destruct Hc as [? ? ? ? ?]; constructor.
  - unfold same_construction. simpl. split_and!; try done.
    apply generation_matches_refl. by apply generation_matches_known in S4 as [_ ?].
Qed.

(** Restoring what was captured gives back every replayed field. *)
Lemma capture_restored t l : capture_replay (restored t (capture_replay l)) = capture_replay l.
Proof.
  destruct l as [i p m cf ds ip pd ps a1 a2 hb av pa pl pp cp an ph ls eb q qr ee pc sc sl lo ge].
  unfold capture_replay, restored, capture_context. simpl.
  assert (pending_of_spec <$> (spec_of_pending <$> (pending_of_spec <$> ph)) = pending_of_spec <$> ph) as Hp.
  { rewrite <- !list_fmap_compose. by apply list_fmap_ext. }
  rewrite Hp.
  assert (quote_of_info <$> (info_of_quote <$> (quote_of_info <$> q)) = quote_of_info <$> q) as ->
    by (by destruct q).
  assert (from_option info_operator [] (info_of_quote <$> (quote_of_info <$> q)) =
          from_option info_operator [] q) as -> by (by destruct q).
  repeat case_bool_decide; simplify_eq/=; done.
Qed.

(** The states of a lexer that its own checkpoint can restart. *)
Record restartable (l : PerlLexer) : Prop := {
  restartable_delimiter : ~ (Lexer.mode l = ExpectDelimiter /\
    Lexer.current_quote_op l = None /\ Lexer.delimiter_stack l = []);
  restartable_offsets : Forall (fun off => offset_is_valid (Lexer.input l) off = true)
    (Position.byte (Lexer.current_pos l) :: Lexer.position l :: Lexer.line_start_offset l ::
     (spec_body_start <$> Lexer.pending_heredocs l));
  restartable_line : Lexer.line_start_offset l <= Lexer.position l;
  restartable_quote q : Lexer.current_quote_op l = Some q ->
    offset_is_valid (Lexer.input l) (info_start_pos q) = true /\ info_start_pos q <= Lexer.position l;
}.

Lemma captured_complete l i : restartable l -> complete (from_live i (capture_replay l)).
Proof.
  intros [R1 R2 R3 R4]. constructor; simpl; try done.
  - intros (H1 & H2 & H3). apply R1. split_and!; try done.
    by destruct (Lexer.current_quote_op l).
  - intros q Hq. destruct (Lexer.current_quote_op l) as [q'|]; simplify_eq/=.
    by apply R4.
  - intros Hm. unfold capture_context. by rewrite bool_decide_eq_true_2.
Qed.

Lemma captured_valid l i :
  complete (from_live i (capture_replay l)) /\
  is_valid_for (from_live i (capture_replay l)) (Lexer.input l) = true <-> restartable l.
Proof.
  split.
  - intros [[C1 C2 C3 C4 C5] Hv]. unfold is_valid_for, offsets_valid_for in Hv. simpl in *.
    rewrite !andb_true_iff, Z.leb_le in Hv. destruct Hv as [[[[[[H1 H2] H3] H4] H5] H6] H7].
    constructor; try done.
    + intros (Hm & Hq & Hd). apply C3. by rewrite Hm, Hq, Hd.
    + repeat (constructor; [done|]). apply Forall_fmap. apply Forall_forall. intros p Hp. simpl.
      rewrite forallb_forall in H5. apply (H5 (pending_of_spec p)).
      apply list_elem_of_In. by apply list_elem_of_fmap_2.
    + intros q Hq. rewrite Hq in H6. simpl in H6. by apply andb_true_iff in H6 as [? ?%Z.leb_le].
  - intros R. split; [by apply captured_complete|]. destruct R as [R1 R2 R3 R4].
    unfold is_valid_for, offsets_valid_for. simpl. rewrite (proj2 (Z.leb_le _ _) R3).
    rewrite !Forall_cons, Forall_fmap, Forall_forall in R2. destruct R2 as (-> & Hp & -> & Hh).
    rewrite Hp. simpl. rewrite !andb_true_iff. split_and!.
    + apply forallb_forall. intros p Hp'%list_elem_of_In.
      apply list_elem_of_fmap in Hp' as (s & -> & Hs). by apply Hh.
    + destruct (Lexer.current_quote_op l) as [q|]; [|done]. destruct (R4 q eq_refl) as [Hq Hl].
      simpl. by rewrite Hq, (proj2 (Z.leb_le _ _) Hl).
    + unfold capture_context. case_bool_decide; [done|]. by case_bool_decide.
Qed.

(** The target [t] was built as the captured lexer [l] was. *)
Definition same_target (t l : PerlLexer) : Prop :=
  Lexer.input t = Lexer.input l /\ Lexer.logical_source t = Lexer.logical_source l /\
  Lexer.generation t = Lexer.generation l /\
  from_construction (Lexer.config t) (Lexer.qw_recovery_enabled t) (Lexer.emit_heredoc_body_tokens t) =
    from_construction (Lexer.config l) (Lexer.qw_recovery_enabled l) (Lexer.emit_heredoc_body_tokens l).

Lemma validate_captured l t c :
  checkpoint sha256 l = Ret c -> same_target t l -> Lexer.generation l <> Known [] ->
  validate_restore sha256 t c = Ret (Ok tt) <-> restartable l.
Proof.
  intros Hc (Hi & Hs & Hg & Hf) Hk. pose proof (checkpoint_inv _ _ Hc) as [Hd Ec].
  assert (same_construction (identity c) t) as Hsame.
  { rewrite Ec. unfold same_construction. simpl. rewrite Hs, Hg. split_and!; try done.
    - by apply logical_source_matches_refl.
    - by apply generation_matches_refl. }
  rewrite validate_restore_spec, Hi, <- (captured_valid l (identity c)).
  assert (from_live (identity c) (capture_replay l) = c) as -> by (by rewrite Ec). tauto.
Qed.
Lemma checkpoint_restored l t c :
  checkpoint sha256 l = Ret c -> same_target t l -> checkpoint sha256 (restored t (replay c)) = Ret c.
Proof.
  intros Hc (Hi & Hs & Hg & Hf). pose proof (checkpoint_inv _ _ Hc) as [Hd Ec].
  assert (replay c = capture_replay l) as -> by (by rewrite Ec).
  rewrite <- Hc. unfold checkpoint. rewrite capture_restored. simpl. rewrite Hi. unfold capture. by rewrite Hs, Hg, Hf.
Qed.
(** A refused restore leaves the target alone. *)
Lemma restore_captured_refused l t c :
  checkpoint sha256 l = Ret c -> same_target t l -> Lexer.generation l <> Known [] -> ~ restartable l ->
  exists e, restore sha256 t c = Ret (Err e, t).
Proof.
  intros Hc Ht Hk Hr. pose proof (checkpoint_inv _ _ Hc) as [Hd _].
  destruct (validate_restore_total t c (content (identity c))) as [v Ev]; [by destruct Ht as [-> _]|].
  unfold restore. rewrite Ev. destruct v as [[]|e]; [|by eexists].
  apply (validate_captured l t c Hc Ht Hk) in Ev. done.
Qed.
End restore_lemmas.

(** ** Theorems *)

(** C38. A lexer of the same input and construction restarts from a captured
    checkpoint exactly when the captured state is restartable (an open
    quote-like operator is known, and every recorded offset is a character
    boundary in order); the restored lexer captures the identical
    checkpoint, so restoring loses no behaviour-bearing state, and a refused
    restore leaves the target as it was. *)
Theorem restore_resumes sha256 l t c :
  checkpoint sha256 l = Ret c ->
  Lexer.input t = Lexer.input l -> Lexer.logical_source t = Lexer.logical_source l ->
  Lexer.generation t = Lexer.generation l -> Lexer.generation l <> Known [] ->
  from_construction (Lexer.config t) (Lexer.qw_recovery_enabled t) (Lexer.emit_heredoc_body_tokens t) =
    from_construction (Lexer.config l) (Lexer.qw_recovery_enabled l) (Lexer.emit_heredoc_body_tokens l) ->
  exists r t', restore sha256 t c = Ret (r, t') /\
    (r = Ok tt <-> restartable l) /\
    (r = Ok tt -> checkpoint sha256 t' = Ret c) /\
    (r <> Ok tt -> t' = t).
Proof.
  intros Hc Hi Hs Hg Hk Hf. pose proof (checkpoint_inv _ _ _ Hc) as [Hd Ec].
  assert (same_target t l) as Ht by done.
  pose proof (validate_captured _ _ _ _ Hc Ht Hk) as Hv.
  destruct (validate_restore_total sha256 t c (content (identity c))) as [v Ev]; [by rewrite Hi|].
  rewrite Ev in Hv. destruct v as [[]|e].
  - exists (Ok tt), (restored t (replay c)).
    split_and!; [by apply restore_ok|naive_solver|intros _; by apply (checkpoint_restored _ l)|done].
  - exists (Err e), t. unfold restore. rewrite Ev. split_and!; [done| |done|done].
    split; [done|]. intros R%Hv. done.
Qed.

(** A checkpoint restores only into the source it was captured from: when
    the restore succeeds, the target's text is the captured text (or the
    digest collided), the policy, logical source and generation agree, and
    the target resumes at the captured position of its own text. *)
Theorem restore_is_bound_to_source sha256 l t c t' :
  (forall x, bytes_ok (sha256 x) /\ len (sha256 x) = 32) ->
  checkpoint sha256 l = Ret c -> restore sha256 t c = Ret (Ok tt, t') ->
  (Lexer.input t = Lexer.input l \/ collision sha256) /\
  Lexer.logical_source t = Lexer.logical_source l /\ Lexer.generation t = Lexer.generation l /\
  from_construction (Lexer.config t) (Lexer.qw_recovery_enabled t) (Lexer.emit_heredoc_body_tokens t) =
    from_construction (Lexer.config l) (Lexer.qw_recovery_enabled l) (Lexer.emit_heredoc_body_tokens l) /\
  Lexer.input t' = Lexer.input t /\ Lexer.position t' = Lexer.position l /\
  is_char_boundary (Lexer.input t) (Lexer.position t') = true.
Proof.
  intros Hh Hc Hr. pose proof (checkpoint_inv _ _ _ Hc) as [Hd Ec].
  apply restore_cases in Hr as [Hv ->]. apply validate_restore_spec in Hv as (_ & Hv & Hs & Ht).
  destruct Hs as (_ & _ & Hl & Hg & Hp). rewrite Ec in Hl, Hg, Hp. simpl in *.
  split_and!; try done.
  - by eapply of_bytes_inj.
  - symmetry. by apply logical_source_matches_eq.
  - symmetry. by apply generation_matches_known.
  - by rewrite Ec.
  - apply valid_offsets in Hv as (_ & _ & Hv & _). by apply andb_true_iff in Hv as [_ Hv].
Qed.

(** A usable checkpoint survives an edit of its text exactly when the edit
    is empty, or begins at or after the checkpoint's position and no queued
    heredoc body or context anchor lies strictly inside the replaced range.
    A survivor keeps its position over an unchanged prefix, is usable in the
    edited text, rebinds to it, and a lexer of the edited text and the same
    construction then restores from it. *)
Theorem edited_checkpoint_restarts sha256 c1 o c3 r c ok c' :
  scalars (c1 ++ o ++ c3) -> scalars r ->
  blen (c1 ++ o ++ c3) <= isize_max -> blen (c1 ++ r ++ c3) <= u32_max ->
  usable c (encode (c1 ++ o ++ c3)) ->
  try_apply_edit c (blen c1) (blen o) (blen r) = (ok, c') ->
  (ok = true <->
     (o = [] /\ r = []) \/
     (position c <= blen c1 /\
      Forall (fun a => a <= blen c1 \/ blen c1 + blen o <= a) (anchors (replay c)))) /\
  (ok = true ->
     position c' = position c /\
     (o = [] /\ r = [] \/ position c <= blen c1) /\
     usable c' (encode (c1 ++ r ++ c3)) /\
     forall t, Lexer.input t = encode (c1 ++ r ++ c3) -> same_construction (identity c) t ->
       exists c'', rebind_to_source sha256 c' (Lexer.input t) (Lexer.generation t) = Ret (Ok tt, c'') /\
         replay c'' = replay c' /\
         restore sha256 t c'' = Ret (Ok tt, restored t (replay c'))) /\
  (ok = false -> ensure_complete c' = Err Invalidated).
Proof.
  intros Ho Hr Lo Ln Hu E.
  assert (blen (c1 ++ r ++ c3) <= isize_max) as Ln' by (unfold u32_max, isize_max in *; lia).
  pose proof Hu as (Hc & _ & _). pose proof Hc as Hc'. apply ensure_complete_spec in Hc' as [Hi _ _ _ _].
  unfold try_apply_edit in E. rewrite Hi in E.
  destruct ((blen o =? 0) && (blen r =? 0)) eqn:Ez.
  - apply andb_true_iff in Ez as [->%Z.eqb_eq%blen_zero_nil ->%Z.eqb_eq%blen_zero_nil]. simplify_eq.
    split_and!; [split; [by left|done]| |done]. intros _. split_and!; [done|by left|done|].
    intros t Ht Hs. rewrite <- Ht in Hu. apply (usable_restarts sha256 _ _ Hu); [|done].
    rewrite Ht, len_encode. lia.
  - assert (~ (o = [] /\ r = [])) as Hne by (intros [-> ->]; done).
    revert E. destruct (Z.ltb_spec (blen c1) (Replay.position (replay c))) as [Hlt|Hle]; intros E.
    { assert (ok = false /\ ensure_complete c' = Err Invalidated) as [-> Hbad]
        by (destruct (transform_replay _ _ _ _); injection E as <- <-; split; reflexivity).
      split_and!; [|done|done]. split; [done|]. intros [?|[? _]]; [done|]. unfold position in *. lia. }
    pose proof (transform_replay_prefix _ _ _ _ Ho Hr Lo Ln' c (proj2 Hu) Hle) as Ht.
    destruct (transform_replay _ _ _ _) as [x|]; injection E as <- <-.
    + destruct Ht as [Hl Hx]. split_and!; [| |done].
      * split; [|done]. intros _. right. split; [done|]. by apply Forall_not_lost.
      * intros _. pose proof (carried_usable _ _ _ _ Ho Hr Lo Ln' c x Hu Hle Hx) as Hux.
        rewrite Hi in *. split_and!; [|by right|done|].
        -- by destruct Hx as (ps & ctx & -> & _).
        -- intros t Ht Hs. rewrite <- Ht in Hux. apply (usable_restarts sha256 _ _ Hux); [|done].
           rewrite Ht, len_encode. lia.
    + split_and!; [|done|done]. split; [done|]. intros [?|[_ Hf]]; [done|].
      by apply Forall_not_lost in Hf.
Qed.

(** ** Witnesses *)

(** The lexer of [my $x = 1;] after [my ]. *)
Definition demo_input : list Z := encode [109; 121; 32; 36; 120; 32; 61; 32; 49; 59].
Definition demo_lexer : PerlLexer :=
  Lexer.mk demo_input 3 ExpectTerm config_default [] false 0 false false false 0 false 0 [] false
    Position.start false [] 0 false None true false None [] None None Unknown.
Definition demo_identity : LexerCheckpointIdentity :=
  capture (mkDigest []) config_default true false None Unknown.
Definition demo_at (pos : Z) : LexerCheckpoint :=
  from_live demo_identity (Replay.mk pos ExpectTerm [] false 0 false false false 0 false 0 [] false
    Position.start false [] 0 None false Normal).

Lemma restore_resumes_witness : exists c, checkpoint sample_hash demo_lexer = Ret c /\
  exists r t', restore sample_hash (lexer_new demo_input) c = Ret (r, t') /\
    (r = Ok tt <-> restartable demo_lexer) /\
    (r = Ok tt -> checkpoint sample_hash t' = Ret c) /\ (r <> Ok tt -> t' = lexer_new demo_input).
Proof.
  eexists. split; [vm_compute; reflexivity|].
  apply (restore_resumes sample_hash demo_lexer (lexer_new demo_input)); try reflexivity; done.
Defined.

Lemma restore_is_bound_to_source_witness : exists c t',
  checkpoint sample_hash demo_lexer = Ret c /\ restore sample_hash (lexer_new demo_input) c = Ret (Ok tt, t') /\
  Lexer.position t' = 3 /\
  (Lexer.input (lexer_new demo_input) = Lexer.input demo_lexer \/ collision sample_hash).
Proof.
  eexists _, _. split; [vm_compute; reflexivity|]. split; [vm_compute; reflexivity|].
  split; [reflexivity|].
  eapply (restore_is_bound_to_source sample_hash demo_lexer (lexer_new demo_input));
    [exact sample_hash_ok|vm_compute; reflexivity|vm_compute; reflexivity].
Defined.

Lemma edited_checkpoint_restarts_witness : exists ok c',
  try_apply_edit (demo_at 3) 4 1 2 = (ok, c') /\
  (ok = true -> position c' = 3 /\
     usable c' (encode [109; 121; 32; 36; 121; 122; 32; 61; 32; 49; 59])).
Proof.
  eexists _, _. split; [vm_compute; reflexivity|]. intros _.
  pose proof (edited_checkpoint_restarts sample_hash [109; 121; 32; 36] [120] [32; 61; 32; 49; 59]
    [121; 122] (demo_at 3) true) as W.
  edestruct W as (_ & H & _); [..|destruct (H eq_refl) as (Hp & _ & Hu & _); split; [exact Hp|exact Hu]].
  - repeat constructor.
  - repeat constructor.
  - vm_compute. discriminate.
  - vm_compute. discriminate.
  - split; [reflexivity|split; [vm_compute; reflexivity|vm_compute; discriminate]].
  - vm_compute. reflexivity.
Defined.

