(* ===== verification/CheckpointCache.v ===== *)
(** * The checkpoint cache (perl-lexer/src/checkpoint/cache.rs)

    A sorted, bounded window of lexer checkpoints with binary-search lookups
    and an eviction that samples the window evenly.  The binary search and
    the unstable sort of the standard library are an interface, because their
    result among equal keys is unspecified.  Proved: the window invariant, the
    nearest-neighbour meaning of the lookups, the absence of panics, and that
    eviction keeps the ends. *)

From Stdlib Require Import Sorted.
From stdpp Require Import base numbers list sets.
From S2P Require Import Prelude Spans SourceIdentity Checkpoint.

(** ** The checkpoint cache *)

(** The searches and sorts of the standard library whose result among equal
    keys is unspecified. *)
Class SliceOps := {
  binary_search_keys : list Z -> Z -> Z + Z;
  sort_unstable : list (Z * LexerCheckpoint) -> list (Z * LexerCheckpoint);
}.
Class SliceLaws `{SliceOps} : Prop := {
  (** On an ordered slice: some index of the key, or the insertion index. *)
  binary_search_spec l x : StronglySorted Z.le l ->
    match binary_search_keys l x with
    | inl i => zget l i = Some x
    | inr i => x ∉ l /\ i = partition_point (fun y => y <=? x) l
    end;
  sort_unstable_perm l : sort_unstable l ≡ₚ l;
  sort_unstable_sorted l : StronglySorted Z.le (sort_unstable l).*1;
}.

Module Cache.
Record t := mk { checkpoints : list (Z * LexerCheckpoint); max_checkpoints : Z }.

Definition new (max_checkpoints : Z) : t := mk [] max_checkpoints.
Definition length (self : t) : Z := len (checkpoints self).
Definition is_empty (self : t) : bool := bool_decide (checkpoints self = []).
Definition clear (self : t) : t := mk [] (max_checkpoints self).

Definition usize_mul (x y : Z) : outcome Z := arith 0 usize_max (x * y).

(** The loop of the eviction, over the indices [i ..]. *)
Fixpoint kept (l : list (Z * LexerCheckpoint)) (total denominator : Z) (i : list Z)
    : outcome (list (Z * LexerCheckpoint)) :=
  match i with
  | [] => mret []
  | i :: is_ =>
    p ← usize_mul i (total - 1);
    c ← expect (zget l (p `div` denominator));
    cs ← kept l total denominator is_;
    mret (c :: cs)
  end.
Definition evict (l : list (Z * LexerCheckpoint)) (max_checkpoints : Z)
    : outcome (list (Z * LexerCheckpoint)) :=
  if max_checkpoints <? len l then
    if max_checkpoints =? 1 then
      mret (match last l with Some c => [c] | None => l end)
    else kept l (len l) (max_checkpoints - 1) (seqZ 0 max_checkpoints)
  else mret l.

Section ops.
Context `{SliceOps}.

Definition add (self : t) (c : LexerCheckpoint) : outcome t :=
  if max_checkpoints self =? 0 then mret self
  else
    let l := checkpoints self in
    let e := (position c, c) in
    let l :=
      match binary_search_keys l.*1 (position c) with
      | inl idx => <[Z.to_nat idx := e]> l
      | inr idx => ztake idx l ++ e :: zdrop idx l
      end in
    l ← evict l (max_checkpoints self);
    mret (mk l (max_checkpoints self)).

Definition find_before (self : t) (pos : Z) : option LexerCheckpoint :=
  let idx := partition_point (fun e : Z * LexerCheckpoint => e.1 <=? pos) (checkpoints self) in
  if idx =? 0 then None else snd <$> zget (checkpoints self) (idx - 1).
Definition find_after (self : t) (pos : Z) : option LexerCheckpoint :=
  let idx := partition_point (fun e : Z * LexerCheckpoint => e.1 <? pos) (checkpoints self) in
  snd <$> zget (checkpoints self) idx.

Definition apply_edit (self : t) (start old_len new_len : Z) : t :=
  mk (sort_unstable
        ((fun e : Z * LexerCheckpoint =>
            let c := apply_edit e.2 start old_len new_len in (position c, c))
         <$> checkpoints self))
     (max_checkpoints self).
End ops.
End Cache.

(** ** Lemmas: the cache *)

Section sorted_keys.
Implicit Types l : list Z.

Lemma sorted_zget l i j x y :
  StronglySorted Z.le l -> zget l i = Some x -> zget l j = Some y -> i <= j -> x <= y.
Proof.
  intros Hl. revert i j. induction Hl as [|z l Hl IH Hz]; intros i j Hx Hy Hij;
    [apply zget_Some_lt in Hx; unfold len in Hx; simpl in Hx; lia|].
  pose proof (zget_Some_lt _ _ _ Hx). pose proof (zget_Some_lt _ _ _ Hy).
  destruct (Z.eq_dec i 0) as [->|]; [|rewrite zget_cons_S in Hx, Hy by lia; apply (IH (i - 1) (j - 1)); done || lia].
  rewrite zget_cons_0 in Hx. simplify_eq.
  destruct (Z.eq_dec j 0) as [->|]; [rewrite zget_cons_0 in Hy; simplify_eq; lia|].
  rewrite zget_cons_S in Hy by lia. apply zget_split in Hy as (l1 & l2 & -> & _).
  apply Forall_app in Hz as [_ Hz]. by inversion Hz.
Qed.

Lemma zget_fmap {A B} (f : A -> B) (l : list A) i : zget (f <$> l) i = f <$> zget l i.
Proof. unfold zget. destruct (0 <=? i); [|done]. apply list_lookup_fmap. Qed.

Lemma sorted_app l1 l2 :
  StronglySorted Z.le (l1 ++ l2) <->
  StronglySorted Z.le l1 /\ StronglySorted Z.le l2 /\ Forall (fun x => Forall (Z.le x) l2) l1.
Proof.
  induction l1 as [|x l1 IH]; simpl.
  - split; [intros H; split_and!; [constructor|exact H|constructor]|by intros (_ & ? & _)].
  - split.
    + intros H. inversion H as [|? ? H1 H2]; subst. apply IH in H1 as (A & B & C).
      apply Forall_app in H2 as [D E]. split_and!; [by constructor|done|by constructor].
    + intros (A & B & C). inversion A; subst. inversion C; subst.
      constructor; [by apply IH|by apply Forall_app].
Qed.

(** Where an ordered slice splits at a bound. *)
Lemma partition_point_split (p : Z -> bool) l :
  StronglySorted Z.le l -> (forall x y, x <= y -> p y = true -> p x = true) ->
  exists l1 l2, l = l1 ++ l2 /\ len l1 = partition_point p l /\
    Forall (fun x => p x = true) l1 /\ Forall (fun x => p x = false) l2.
Proof.
  intros Hl Hp. induction Hl as [|x l Hl IH Hx]; simpl; [by exists [], []|].
  destruct (p x) eqn:E.
  - destruct IH as (l1 & l2 & -> & Hn & H1 & H2). exists (x :: l1), l2.
    split_and!; [done|rewrite len_cons; lia|by constructor|done].
  - exists [], (x :: l). split_and!; [done|done|done|]. constructor; [done|].
    eapply Forall_impl; [exact Hx|]. intros y Hy. simpl in Hy.
    destruct (p y) eqn:Ey; [|done]. by rewrite (Hp _ _ Hy Ey) in E.
Qed.

Lemma partition_point_fmap {A} (f : A -> Z) (p : Z -> bool) (l : list A) :
  partition_point (fun a => p (f a)) l = partition_point p (f <$> l).
Proof. induction l as [|x l IH]; csimpl; [done|]. by rewrite IH. Qed.
End sorted_keys.

Module CacheLemmas.
Import Cache.

(** The window the lookups rely on. *)
Record inv (self : t) : Prop := {
  inv_sorted : StronglySorted Z.le (checkpoints self).*1;
  inv_keyed : Forall (fun e => e.1 = position e.2) (checkpoints self);
  inv_bounded : len (checkpoints self) <= max_checkpoints self;
}.

Lemma kept_total l total d is_ :
  Forall (fun i => 0 <= i * (total - 1) <= usize_max /\ 0 <= (i * (total - 1)) `div` d < len l) is_ ->
  exists cs, kept l total d is_ = Ret cs /\
    Forall2 (fun i c => zget l ((i * (total - 1)) `div` d) = Some c) is_ cs.
Proof.
  induction 1 as [|i is_ [Hi Hb] _ (cs & E & IH)]; [by exists []|]. simpl.
  unfold usize_mul. rewrite arith_Ret by done. simpl.
  destruct (zget_lt_Some l _ Hb) as [c Hc]. rewrite Hc. simpl. rewrite E. simpl.
  exists (c :: cs). split; [done|]. by constructor.
Qed.

Lemma evict_indices n total :
  1 <= n -> total = n + 2 -> total <= u32_max + 1 ->
  Forall (fun i => 0 <= i * (total - 1) <= usize_max /\ 0 <= (i * (total - 1)) `div` n < total)
    (seqZ 0 (n + 1)).
Proof.
  intros Hn -> Hm. apply Forall_forall. intros i Hi%elem_of_seqZ.
  unfold u32_max, usize_max in *. split; [nia|]. split; [apply Z.div_pos; nia|].
  apply Z.div_lt_upper_bound; nia.
Qed.

Lemma Forall2_transfer {A B} (P : A -> B -> Prop) (Q : A -> Prop) (R : B -> Prop) l k :
  Forall2 P l k -> Forall Q l -> (forall a b, Q a -> P a b -> R b) -> Forall R k.
Proof. intros H. induction H; intros HQ HR; inversion HQ; subst; constructor; eauto. Qed.

Lemma seqZ_sorted m n : StronglySorted Z.lt (seqZ m n).
Proof.
  destruct (Z.lt_ge_cases n 0) as [?|Hn]; [rewrite seqZ_nil by lia; constructor|].
  revert m. pattern n. apply natlike_ind; [|clear n Hn|done].
  - intros m. rewrite seqZ_nil by lia. constructor.
  - intros n Hn IH m. rewrite seqZ_cons by lia. replace (Z.pred (Z.succ n)) with n by lia.
    constructor; [apply IH|]. apply Forall_forall. intros x Hx%elem_of_seqZ. lia.
Qed.

Lemma sorted_select (l : list (Z * LexerCheckpoint)) (f : Z -> Z) is_ cs :
  StronglySorted Z.le l.*1 -> StronglySorted Z.lt is_ -> (forall i j, i < j -> f i <= f j) ->
  Forall2 (fun i c => zget l (f i) = Some c) is_ cs -> StronglySorted Z.le cs.*1.
Proof.
  intros Hl Hi Hf H. induction H as [|i c is_ cs Hc H IH]; csimpl; [constructor|].
  inversion Hi as [|? ? Hi1 Hi2]; subst. constructor; [by apply IH|].
  apply Forall_fmap. eapply Forall2_transfer; [exact H|exact Hi2|].
  intros j c' Hj Hc'. simpl in *.
  eapply (sorted_zget l.*1 (f i) (f j)); [done| | |by apply Hf]; rewrite zget_fmap.
  - by rewrite Hc.
  - by rewrite Hc'.
Qed.

Lemma seqZ_snoc m n : 0 <= n -> seqZ m (n + 1) = seqZ m n ++ [m + n].
Proof.
  intros Hn. revert m. pattern n. apply natlike_ind; [| |done].
  - intros m. rewrite seqZ_cons, !seqZ_nil by lia. simpl. f_equal. lia.
  - clear n Hn. intros n Hn IH m. rewrite seqZ_cons by lia.
    rewrite (seqZ_cons m (Z.succ n)) by lia. simpl. f_equal.
    replace (Z.pred (Z.succ n + 1)) with (n + 1) by lia. replace (Z.pred (Z.succ n)) with n by lia.
    replace (m + Z.succ n) with (Z.succ m + n) by lia. apply IH.
Qed.

Lemma head_zget {A} (l : list A) : head l = zget l 0.
Proof. by destruct l. Qed.
Lemma last_zget {A} (l : list A) : last l = zget l (len l - 1).
Proof.
  rewrite last_lookup. unfold zget, len. destruct l as [|x l]; [done|].
  rewrite (proj2 (Z.leb_le _ _)) by (simpl; lia). f_equal. simpl. lia.
Qed.

(** What eviction keeps of an ordered window that grew by one entry. *)
Record evicts (l : list (Z * LexerCheckpoint)) (m : Z) (k : list (Z * LexerCheckpoint)) : Prop := {
  evicts_sorted : StronglySorted Z.le k.*1;
  evicts_bounded : len k <= m;
  evicts_subset : k ⊆ l;
  evicts_ends : 2 <= m -> head k = head l /\ last k = last l;
  evicts_last : last k = last l;
  evicts_small : len l <= m -> k = l;
}.

Lemma evict_many l n :
  StronglySorted Z.le l.*1 -> 1 <= n -> len l = n + 2 -> n + 1 <= u32_max ->
  exists k, kept l (len l) n (seqZ 0 (n + 1)) = Ret k /\ evicts l (n + 1) k.
Proof.
  intros Hl Hn Hlen Hm.
  destruct (kept_total l (len l) n (seqZ 0 (n + 1))) as (k & Hk & H).
  { apply evict_indices; lia. }
  exists k. split; [done|].
  assert (head k = head l) as Hh.
  { rewrite seqZ_cons in H by lia. inversion H as [|? c ? ? Hc]; subst. simpl.
    by rewrite head_zget, <- Hc. }
  assert (last k = last l) as Hla.
  { rewrite seqZ_snoc in H by lia. apply Forall2_app_inv_l in H as (k1 & k2 & _ & H & ->).
    inversion H as [|? c ? ? Hc H2]; subst. inversion H2; subst. rewrite last_snoc, last_zget, <- Hc.
    rewrite Hlen. f_equal. rewrite Z.mul_comm, Z.div_mul; lia. }
  constructor; try done.
  - eapply (sorted_select l (fun i => (i * (len l - 1)) `div` n)); [done|apply seqZ_sorted| |exact H].
    intros i j Hij. simpl. apply Z.div_le_mono; nia.
  - apply Forall2_length in H. unfold len. rewrite <- H, length_seqZ. lia.
  - intros c Hc. assert (Forall (fun c => c ∈ l) k) as Hf.
    { eapply Forall2_transfer; [exact H|apply (Forall_true (fun _ => True)); done|].
      intros i d _ (l1 & l2 & -> & _)%zget_split. set_solver. }
    rewrite Forall_forall in Hf. by apply Hf.
  - lia.
Qed.

Lemma evict_spec l m :
  StronglySorted Z.le l.*1 -> 0 < m <= u32_max -> len l <= m + 1 ->
  exists k, evict l m = Ret k /\ evicts l m k.
Proof.
  intros Hl Hm Hlen. unfold evict. destruct (Z.ltb_spec m (len l)) as [Hlt|Hle].
  - destruct (Z.eqb_spec m 1) as [->|Hne].
    + destruct (last l) as [c|] eqn:E.
      * exists [c]. split; [done|]. constructor; try done.
        -- repeat constructor.
        -- intros x Hx. apply list_elem_of_singleton in Hx as ->. by apply last_Some_elem_of.
        -- lia.
      * apply last_None in E as ->. done.
    + destruct (evict_many l (m - 1) Hl) as (k & Hk & He); [lia|lia|lia|].
      replace (m - 1 + 1) with m in * by lia. by exists k.
  - exists l. split; [done|]. constructor; done || lia.
Qed.

Local Notation entry := (Z * LexerCheckpoint)%type.
(** The split of the window at a bound, on the entries. *)
Lemma window_split self (p : Z -> bool) :
  inv self -> (forall x y, x <= y -> p y = true -> p x = true) ->
  exists l1 l2, checkpoints self = l1 ++ l2 /\
    len l1 = partition_point (fun e : entry => p e.1) (checkpoints self) /\
    Forall (fun e => p (position e.2) = true) l1 /\ Forall (fun e => p (position e.2) = false) l2.
Proof.
  intros [I1 I2 _] Hp. rewrite (partition_point_fmap fst p).
  destruct (partition_point_split p _ I1 Hp) as (k1 & k2 & Ek & Hk & H1 & H2).
  change (fst <$> checkpoints self) with (checkpoints self).*1 in *.
  apply fmap_app_inv in Ek as (l1 & l2 & -> & -> & Ec). rewrite Ec in *.
  apply Forall_app in I2 as [K1 K2]. exists l1, l2. rewrite len_map in Hk. split_and!; [done|done| |].
  all: rewrite Forall_fmap in *; rewrite Forall_forall in *; intros e He; simpl in *.
  - rewrite <- K1 by done. by apply H1.
  - rewrite <- K2 by done. by apply H2.
Qed.

Lemma find_before_spec self pos :
  inv self ->
  match find_before self pos with
  | Some c => position c <= pos /\ c ∈ (checkpoints self).*2 /\
      forall d, d ∈ (checkpoints self).*2 -> position d <= pos -> position d <= position c
  | None => forall d, d ∈ (checkpoints self).*2 -> pos < position d
  end.
Proof.
  intros I. destruct (window_split self (fun y => y <=? pos) I) as (l1 & l2 & El & Hl & H1 & H2).
  { intros x y ? ?%Z.leb_le. apply Z.leb_le. lia. }
  destruct I as [I1 I2 _]. unfold find_before. rewrite <- Hl, El in *.
  rewrite Forall_forall in H1, H2.
  destruct (Z.eqb_spec (len l1) 0) as [->%len_zero_nil|Hne].
  { intros d (e & -> & He)%list_elem_of_fmap. specialize (H2 _ He). bcase_all; done || lia. }
  destruct (exists_last (l := l1)) as (m & e & ->); [by intros ->|].
  rewrite len_app, <- app_assoc. change (len [e]) with 1. replace (len m + 1 - 1) with (len m) by lia.
  simpl. rewrite zget_app_len. simpl.
  split_and!.
  - assert (e ∈ m ++ [e]) as He by set_solver. specialize (H1 _ He). bcase_all; done || lia.
  - rewrite fmap_app. csimpl. set_solver.
  - intros d (x & -> & Hx)%list_elem_of_fmap Hd.
    apply elem_of_app in Hx as [Hx|Hx].
    + rewrite <- app_assoc in I1, I2. simpl in *. rewrite Forall_app in I2. destruct I2 as [K1 K2].
      rewrite Forall_forall in K1. inversion K2 as [|? ? Ke _]; subst.
      rewrite fmap_app in I1. csimpl. apply sorted_app in I1 as (_ & _ & I1).
      rewrite Forall_forall in I1. specialize (I1 x.1). rewrite <- K1 by done. rewrite <- Ke.
      assert (x.1 ∈ m.*1) as Hm by (by apply list_elem_of_fmap_2).
      specialize (I1 Hm). by inversion I1.
    + apply elem_of_cons in Hx as [->|Hx]; [done|]. specialize (H2 _ Hx). bcase_all; done || lia.
Qed.

Lemma find_after_spec self pos :
  inv self ->
  match find_after self pos with
  | Some c => pos <= position c /\ c ∈ (checkpoints self).*2 /\
      forall d, d ∈ (checkpoints self).*2 -> pos <= position d -> position c <= position d
  | None => forall d, d ∈ (checkpoints self).*2 -> position d < pos
  end.
Proof.
  intros I. destruct (window_split self (fun y => y <? pos) I) as (l1 & l2 & El & Hl & H1 & H2).
  { intros x y ? ?%Z.ltb_lt. apply Z.ltb_lt. lia. }
  destruct I as [I1 I2 _]. unfold find_after. rewrite <- Hl, El in *.
  rewrite Forall_forall in H1, H2.
  destruct l2 as [|e l2].
  { rewrite zget_ge by (rewrite app_nil_r; lia). simpl. rewrite app_nil_r.
    intros d (x & -> & Hx)%list_elem_of_fmap. specialize (H1 _ Hx). bcase_all; done || lia. }
  rewrite zget_app_len. simpl. split_and!.
  - assert (e ∈ e :: l2) as He by set_solver. specialize (H2 _ He). bcase_all; done || lia.
  - rewrite fmap_app. csimpl. set_solver.
  - intros d (x & -> & Hx)%list_elem_of_fmap Hd. apply elem_of_app in Hx as [Hx|Hx].
    { specialize (H1 _ Hx). bcase_all; done || lia. }
    rewrite Forall_app in I2. destruct I2 as [_ K2]. rewrite Forall_forall in K2.
    rewrite fmap_app in I1. csimpl. apply sorted_app in I1 as (_ & I1 & _).
    apply elem_of_cons in Hx as [->|Hx]; [done|].
    inversion I1 as [|? ? _ Hf]; subst. rewrite Forall_fmap, Forall_forall in Hf.
    specialize (Hf _ Hx). simpl in Hf. rewrite <- !K2 by set_solver. done.
Qed.

(** Eviction keeps the ends, so the window spans what it spanned. *)
Lemma evicts_span l m k x :
  evicts l m k -> StronglySorted Z.le l.*1 -> 2 <= m -> x ∈ l.*1 ->
  exists a b, a ∈ k.*1 /\ b ∈ k.*1 /\ a <= x <= b.
Proof.
  intros E Hl Hm (e & -> & He)%list_elem_of_fmap.
  destruct (evicts_ends _ _ _ E Hm) as [Hh Ht].
  apply list_elem_of_lookup in He as (i & Hi).
  assert (zget l (Z.of_nat i) = Some e) as Hz.
  { unfold zget. rewrite (proj2 (Z.leb_le _ _)) by lia. by rewrite Nat2Z.id. }
  pose proof (zget_Some_lt _ _ _ Hz) as Hb.
  destruct (zget_lt_Some l 0) as [a Ha]; [lia|].
  destruct (zget_lt_Some l (len l - 1)) as [b Hbb]; [lia|].
  rewrite head_zget, (head_zget l), Ha in Hh. rewrite (last_zget l), Hbb in Ht.
  exists a.1, b.1. split_and!.
  - apply list_elem_of_fmap_2. apply zget_split in Hh as (? & ? & -> & _). set_solver.
  - apply list_elem_of_fmap_2. by apply last_Some_elem_of.
  - eapply (sorted_zget l.*1 0 (Z.of_nat i)); [done| | |lia]; rewrite zget_fmap; [by rewrite Ha|by rewrite Hz].
  - eapply (sorted_zget l.*1 (Z.of_nat i) (len l - 1)); [done| | |lia];
      rewrite zget_fmap; [by rewrite Hz|by rewrite Hbb].
Qed.

Section cache_ops.
Context `{SliceLaws}.

(** The window after the insertion, before any eviction. *)
Definition inserted (l : list entry) (c : LexerCheckpoint) : list entry :=
  match binary_search_keys l.*1 (position c) with
  | inl idx => <[Z.to_nat idx := (position c, c)]> l
  | inr idx => ztake idx l ++ (position c, c) :: zdrop idx l
  end.

Record grows (l : list entry) (c : LexerCheckpoint) (k : list entry) : Prop := {
  grows_sorted : StronglySorted Z.le k.*1;
  grows_new : (position c, c) ∈ k;
  grows_from e : e ∈ k -> e = (position c, c) \/ e ∈ l;
  grows_keys x : x ∈ l.*1 -> x ∈ k.*1;
  grows_len : len k <= len l + 1;
}.

Lemma inserted_grows l c : StronglySorted Z.le l.*1 -> grows l c (inserted l c).
Proof using Type*.
  intros Hl. unfold inserted. pose proof (binary_search_spec _ (position c) Hl) as Hb.
  destruct (binary_search_keys l.*1 (position c)) as [i|i].
  - rewrite zget_fmap in Hb. destruct (zget l i) as [[k d]|] eqn:Ei; [|done]. simpl in Hb. simplify_eq.
    apply zget_split in Ei as (l1 & l2 & -> & Hi).
    assert (<[Z.to_nat i:=(position c, c)]> (l1 ++ (position c, d) :: l2) =
            l1 ++ (position c, c) :: l2) as ->.
    { rewrite insert_app_r_alt by (unfold len in Hi; lia).
      replace (Z.to_nat i - Datatypes.length l1)%nat with 0%nat by (unfold len in Hi; lia). done. }
    constructor.
    + by rewrite fmap_app in *.
    + set_solver.
    + set_solver.
    + rewrite !fmap_app. done.
    + rewrite !len_app, !len_cons. lia.
  - destruct Hb as [_ Hi].
    destruct (partition_point_split (fun y => y <=? position c) _ Hl) as (k1 & k2 & Ek & Hk & H1 & H2).
    { intros x y ? ?%Z.leb_le. apply Z.leb_le. lia. }
    apply fmap_app_inv in Ek as (l1 & l2 & -> & -> & ->).
    rewrite len_map in Hk. assert (i = len l1) as -> by congruence.
    rewrite ztake_app_len, zdrop_app_len.
    constructor.
    + rewrite fmap_app in *. csimpl. apply sorted_app in Hl as (S1 & S2 & S3).
      apply sorted_app. split_and!; [done| |].
      * constructor; [done|]. eapply Forall_impl; [exact H2|]. simpl. intros x Hx. bcase_all; done || lia.
      * rewrite Forall_forall in *. intros x Hx. constructor; [apply Z.leb_le; by apply H1|by apply S3].
    + set_solver.
    + set_solver.
    + intros x. rewrite !fmap_app. csimpl. set_solver.
    + rewrite !len_app, !len_cons. lia.
Qed.

Lemma add_spec self c :
  inv self -> 0 < max_checkpoints self <= u32_max ->
  exists k, add self c = Ret (mk k (max_checkpoints self)) /\
    evicts (inserted (checkpoints self) c) (max_checkpoints self) k.
Proof using Type*.
  intros [I1 I2 I3] Hm. pose proof (inserted_grows _ c I1) as G.
  destruct (evict_spec (inserted (checkpoints self) c) (max_checkpoints self)) as (k & Hk & He);
    [apply G|done|pose proof (grows_len _ _ _ G); lia|].
  exists k. split; [|done]. unfold add. destruct (Z.eqb_spec (max_checkpoints self) 0); [lia|].
  cbv zeta. change (match binary_search_keys _ _ with inl idx => _ | inr idx => _ end)
    with (inserted (checkpoints self) c). by rewrite Hk.
Qed.

Lemma add_inv self c k :
  inv self -> evicts (inserted (checkpoints self) c) (max_checkpoints self) k ->
  inv (mk k (max_checkpoints self)).
Proof using Type*.
  intros [I1 I2 I3] E. pose proof (inserted_grows _ c I1) as G. destruct E. constructor; simpl; try done.
  rewrite Forall_forall in *. intros e He%evicts_subset0.
  apply (grows_from _ _ _ G) in He as [->|He]; [done|by apply I2].
Qed.

Inductive reachable (max_checkpoints : Z) : t -> Prop :=
| reachable_new : reachable max_checkpoints (new max_checkpoints)
| reachable_add self c self' :
    reachable max_checkpoints self -> add self c = Ret self' -> reachable max_checkpoints self'
| reachable_edit self start old_len new_len :
    reachable max_checkpoints self -> reachable max_checkpoints (apply_edit self start old_len new_len)
| reachable_clear self : reachable max_checkpoints self -> reachable max_checkpoints (clear self).

Lemma edit_inv self start old_len new_len : inv self -> inv (apply_edit self start old_len new_len).
Proof using Type*.
  intros [_ _ I3]. constructor; simpl.
  - apply sort_unstable_sorted.
  - rewrite sort_unstable_perm. apply Forall_fmap, Forall_forall. by intros.
  - unfold len in *. by rewrite sort_unstable_perm, length_fmap.
Qed.

Lemma reachable_inv m self :
  0 <= m <= u32_max -> reachable m self -> inv self /\ max_checkpoints self = m.
Proof using Type*.
  intros Hm. induction 1 as [|self c self' _ [I E] Ha|self s o n _ [I E]|self _ [I E]].
  - split; [|done]. constructor; simpl; [constructor|constructor|unfold len; simpl; lia].
  - destruct (Z.eq_dec m 0) as [->|].
    + unfold add in Ha. rewrite E in Ha. simpl in Ha. by injection Ha as <-.
    + destruct (add_spec self c) as (k & Hk & He); [done|lia|]. rewrite Hk in Ha. injection Ha as <-.
      split; [by apply add_inv with c|done].
  - split; [by apply edit_inv|done].
  - split; [|done]. constructor; simpl; [constructor|constructor|unfold len; simpl; lia].
Qed.

End cache_ops.
End CacheLemmas.

(** The searches and sorts of a concrete library. *)
Definition first_match (l : list Z) (x : Z) : Z + Z :=
  let i := partition_point (fun y => y <? x) l in
  match zget l i with
  | Some y => if y =? x then inl i else inr (partition_point (fun y => y <=? x) l)
  | None => inr (partition_point (fun y => y <=? x) l)
  end.
#[export] Instance insertion_slices : SliceOps := {
  binary_search_keys := first_match;
  sort_unstable := sort_by (fun a b : Z * LexerCheckpoint => a.1 <=? b.1);
}.

Lemma first_match_spec l x : StronglySorted Z.le l ->
  match first_match l x with
  | inl i => zget l i = Some x
  | inr i => x ∉ l /\ i = partition_point (fun y => y <=? x) l
  end.
Proof.
  intros Hl. unfold first_match.
  destruct (partition_point_split (fun y => y <? x) l Hl) as (l1 & l2 & -> & <- & H1 & H2).
  { intros a b ? ?%Z.ltb_lt. apply Z.ltb_lt. lia. }
  assert (x ∉ l1) as N1.
  { intros Hx. rewrite Forall_forall in H1. specialize (H1 _ Hx). bcase_all; done || lia. }
  destruct l2 as [|y l2]; [rewrite zget_ge by (rewrite app_nil_r; lia); rewrite app_nil_r; by split|].
  rewrite zget_app_len. destruct (Z.eqb_spec y x) as [->|Hne]; [by rewrite zget_app_len|].
  split; [|done]. intros Hx. apply elem_of_app in Hx as [Hx|Hx]; [done|].
  apply sorted_app in Hl as (_ & Hl & _). inversion Hl as [|? ? _ Hf]; subst.
  inversion H2 as [|? ? Hy _]; subst.
  apply elem_of_cons in Hx as [->|Hx]; [done|]. rewrite Forall_forall in Hf. specialize (Hf _ Hx).
  bcase_all; done || lia.
Qed.

#[export] Instance insertion_slice_laws : SliceLaws.
Proof.
  constructor.
  - apply first_match_spec.
  - apply sort_by_perm.
  - intros l. simpl.
    assert (ordered (fun a b : Z * LexerCheckpoint => a.1 <=? b.1)
      (sort_by (fun a b : Z * LexerCheckpoint => a.1 <=? b.1) l)) as Ho.
    { apply sort_by_ordered; intros; bcase_all; done || lia. }
    induction Ho as [|x k Hk IH Hx]; csimpl; [constructor|]. constructor; [done|].
    apply Forall_fmap. eapply Forall_impl; [exact Hx|]. intros e He. simpl in *. by apply Z.leb_le.
Qed.

(** ** Theorems *)

(** The checkpoint cache, however it was built from insertions, edits and
    clears: it stays ordered by position and within its capacity, an
    insertion never panics, the lookups return the nearest checkpoint at or
    before (after) a position, and an insertion that has to evict keeps a
    window spanning every position spanned before and the inserted one. *)
Theorem cache_window `{SliceLaws} m self :
  0 <= m <= u32_max -> CacheLemmas.reachable m self ->
  CacheLemmas.inv self /\ Cache.max_checkpoints self = m /\
  (forall pos,
     match Cache.find_before self pos with
     | Some c => position c <= pos /\ c ∈ (Cache.checkpoints self).*2 /\
         forall d, d ∈ (Cache.checkpoints self).*2 -> position d <= pos -> position d <= position c
     | None => forall d, d ∈ (Cache.checkpoints self).*2 -> pos < position d
     end) /\
  (forall pos,
     match Cache.find_after self pos with
     | Some c => pos <= position c /\ c ∈ (Cache.checkpoints self).*2 /\
         forall d, d ∈ (Cache.checkpoints self).*2 -> pos <= position d -> position c <= position d
     | None => forall d, d ∈ (Cache.checkpoints self).*2 -> position d < pos
     end) /\
  (forall c, exists self', Cache.add self c = Ret self' /\
     (0 < m -> Cache.length self < m -> (position c, c) ∈ Cache.checkpoints self') /\
     (2 <= m -> forall x, x = position c \/ x ∈ (Cache.checkpoints self).*1 ->
        exists a b, a ∈ (Cache.checkpoints self').*1 /\ b ∈ (Cache.checkpoints self').*1 /\ a <= x <= b)).
Proof.
  intros Hm Hr. destruct (CacheLemmas.reachable_inv m self Hm Hr) as [I E].
  split_and!; [done|done|by intros; apply CacheLemmas.find_before_spec
    |by intros; apply CacheLemmas.find_after_spec|].
  intros c. destruct (Z.eq_dec m 0) as [->|Hne].
  { exists self. unfold Cache.add. rewrite E. split_and!; [done|lia|lia]. }
  destruct (CacheLemmas.add_spec self c I) as (k & Hk & He); [lia|].
  pose proof (CacheLemmas.inserted_grows (Cache.checkpoints self) c (CacheLemmas.inv_sorted _ I)) as G.
  rewrite E in *. exists (Cache.mk k m). split_and!; [done| |].
  - intros _ Hl. unfold Cache.length in Hl.
    rewrite (CacheLemmas.evicts_small _ _ _ He); [apply G|].
    pose proof (CacheLemmas.grows_len _ _ _ G). lia.
  - intros H2 x Hx. eapply CacheLemmas.evicts_span; [exact He|apply G|done|].
    destruct Hx as [->|Hx]; [|by apply G].
    apply list_elem_of_fmap. exists (position c, c). split; [done|apply G].
Qed.

(** ** Witness *)

Definition demo_cache : Cache.t :=
  Cache.mk [(0, demo_at 0); (9, demo_at 9)] 2.
Lemma cache_window_witness : CacheLemmas.reachable 2 demo_cache /\
  CacheLemmas.inv demo_cache /\ Cache.find_before demo_cache 8 = Some (demo_at 0).
Proof.
  assert (CacheLemmas.reachable 2 demo_cache) as R.
  { eapply (CacheLemmas.reachable_add 2 (Cache.mk [(0, demo_at 0); (5, demo_at 5)] 2) (demo_at 9));
      [|vm_compute; reflexivity].
    eapply (CacheLemmas.reachable_add 2 (Cache.mk [(5, demo_at 5)] 2) (demo_at 0)); [|vm_compute; reflexivity].
    eapply (CacheLemmas.reachable_add 2 (Cache.new 2) (demo_at 5)); [|vm_compute; reflexivity].
    constructor. }
  split; [exact R|]. split; [|vm_compute; reflexivity].
  apply (cache_window 2 demo_cache); [split; vm_compute; discriminate|exact R].
Defined.
