(* ===== verification/LexerTokens.v ===== *)
(** * Lexer tokens (perl-lexer/src/token.rs) and the tokenizer interface

    The token types and tokens that the lexer emits, and the interface
    through which the incremental state and the token stream call it: one
    step [next_token] on the lexer state, with the laws that both rely on. *)

From stdpp Require Import base numbers list.
From S2P Require Import Prelude Checkpoint.

(** ** Token types *)

Inductive StringPart :=
| PartLiteral (s : list Z)
| PartVariable (s : list Z)
| PartExpression (s : list Z)
| PartMethodCall (s : list Z)
| PartArraySlice (s : list Z).

Inductive TokenType :=
| TDivision | TRegexMatch | TSubstitution | TTransliteration | TQuoteRegex
| TStringLiteral | TQuoteSingle | TQuoteDouble (parts : list StringPart) | TQuoteWords | TQuoteCommand
| TInterpolatedString (parts : list StringPart)
| THeredocStart | THeredocBody (s : list Z) | TInterpolatedHeredocBody (parts : list StringPart)
| TFormatBody (s : list Z)
| TVersion (s : list Z)
| TPod
| TDataMarker (s : list Z) | TDataBody (s : list Z)
| TUnknownRest
| TIdentifier (s : list Z) | TNumber (s : list Z) | TOperator (s : list Z) | TKeyword (s : list Z)
| TLeftParen | TRightParen | TLeftBracket | TRightBracket | TLeftBrace | TRightBrace
| TSemicolon | TComma | TColon | TArrow | TFatComma
| TWhitespace | TNewline | TComment (s : list Z)
| TEOF
| TError (message : list Z).

(** [TokenType::is_trivia] and [TokenType::is_recovery_token] *)
Definition is_trivia (self : TokenType) : bool :=
  match self with TWhitespace | TNewline | TComment _ => true | _ => false end.
Definition is_recovery_token (self : TokenType) : bool :=
  match self with TUnknownRest | TError _ => true | _ => false end.
(** [token_type == TokenType::EOF] *)
Definition is_eof (self : TokenType) : bool := match self with TEOF => true | _ => false end.

Record Token := mkToken {
  token_type : TokenType;
  text : list Z;
  start : Z;
  end_ : Z;
}.

(** ** The tokenizer *)

(** One call of [next_token], and a bound [progress] on the tokens still to
    come before the end of the input. *)
Class Tokenize := {
  next_token : PerlLexer -> option Token * PerlLexer;
  progress : PerlLexer -> nat;
}.

(** What [next_token] leaves alone: what construction and restoring set. *)
Definition same_lexer (l l' : PerlLexer) : Prop :=
  Lexer.input l' = Lexer.input l /\ Lexer.config l' = Lexer.config l /\
  Lexer.emit_heredoc_body_tokens l' = Lexer.emit_heredoc_body_tokens l /\
  Lexer.qw_recovery_enabled l' = Lexer.qw_recovery_enabled l /\
  Lexer.logical_source l' = Lexer.logical_source l /\ Lexer.generation l' = Lexer.generation l /\
  Lexer.current_pos l' = Lexer.current_pos l.

Class TokenizeLaws `{Tokenize} : Prop := {
  next_token_same l : same_lexer l (next_token l).2;
  next_token_start l t : (next_token l).1 = Some t -> 0 <= start t;
  next_token_progress l t : (next_token l).1 = Some t -> is_eof (token_type t) = false ->
    (progress (next_token l).2 < progress l)%nat;
}.

(** ** A tokenizer of single bytes, for the witnesses *)

Definition demo_advance (l : PerlLexer) (position : Z) (eof : bool) : PerlLexer :=
  Lexer.mk (Lexer.input l) position (Lexer.mode l) (Lexer.config l) (Lexer.delimiter_stack l)
    (Lexer.in_prototype l) (Lexer.prototype_depth l) (Lexer.prototype_signature_seen l) (Lexer.after_sub l)
    (Lexer.after_arrow l) (Lexer.hash_brace_depth l) (Lexer.after_var_subscript l) (Lexer.paren_depth l)
    (Lexer.print_list_parens l) (Lexer.pending_print_list_paren l) (Lexer.current_pos l)
    (Lexer.after_newline l) (Lexer.pending_heredocs l) (Lexer.line_start_offset l)
    (Lexer.emit_heredoc_body_tokens l) (Lexer.current_quote_op l) (Lexer.qw_recovery_enabled l) eof
    (Lexer.pod_cut_cache l) (Lexer.stray_cut_opens l) (Lexer.scan_limit l) (Lexer.logical_source l)
    (Lexer.generation l).
Definition demo_left (l : PerlLexer) : nat := Z.to_nat (len (Lexer.input l) - Lexer.position l).
#[export] Instance demo_tokenize : Tokenize := {
  next_token l :=
    let p := Z.max 0 (Lexer.position l) in
    if Lexer.eof_emitted l then (None, l)
    else if p <? len (Lexer.input l) then
      (Some (mkToken (TIdentifier (zslice (Lexer.input l) p (p + 1))) (zslice (Lexer.input l) p (p + 1)) p (p + 1)),
       demo_advance l (p + 1) false)
    else (Some (mkToken TEOF [] p p), demo_advance l p true);
  progress := demo_left;
}.
#[export] Instance demo_laws : TokenizeLaws.
Proof.
  constructor.
  - intros l. unfold next_token, demo_tokenize. repeat case_match; by split_and!.
  - intros l t. unfold next_token, demo_tokenize. repeat case_match; simpl; try done; intros [= <-]; simpl; lia.
  - intros l t. unfold next_token, demo_tokenize. simpl. unfold demo_left.
    destruct (Lexer.eof_emitted l); [done|].
    destruct (Z.ltb_spec (Z.max 0 (Lexer.position l)) (len (Lexer.input l))); simpl; intros [= <-];
      simpl; [|done]. intros _. lia.
Qed.

