(* ===== verification/LexerCursor.v ===== *)
(** * The cursor of the lexer (perl-lexer/src/lexer/helpers: cursor.rs,
      line_scanning.rs, file_normalization.rs; unicode.rs)

    How the lexer reads its input: a byte position in a UTF-8 string, moved
    by whole characters, with a lookahead bounded by the configuration and an
    optional end ([scan_limit]).  A routine of the lexer is a computation
    [scan A] on the lexer state that may panic.  Proved: on a coherent state
    the cursor is a cursor over the characters that are left ([view]), and
    the byte-level fast paths agree with the characters. *)

From stdpp Require Import base numbers list.
From S2P Require Import Prelude Utf8 Checkpoint.

(** ** Computations on the lexer *)

Definition scan (A : Type) : Type := PerlLexer -> outcome (A * PerlLexer).
#[export] Instance scan_ret : MRet scan := fun A a l => Ret (a, l).
#[export] Instance scan_bind : MBind scan :=
  fun A B f m l => match m l with Ret (a, l) => f a l | Panic => Panic end.
(** A field, an operation of [&self], an operation that may panic, a write. *)
Definition look {A} (f : PerlLexer -> A) : scan A := fun l => Ret (f l, l).
Definition asks {A} (f : PerlLexer -> outcome A) : scan A :=
  fun l => match f l with Ret a => Ret (a, l) | Panic => Panic end.
Definition write (f : PerlLexer -> PerlLexer) : scan unit := fun l => Ret (tt, f l).
(** A loop with locals [S]: the body goes on with new locals or leaves with a
    result.  The fuel is one more than the bytes of the input. *)
Fixpoint scan_loop {S R : Type} (fuel : nat) (body : S -> scan (S + R)) (s : S) : scan R :=
  match fuel with
  | O => fun _ => Panic
  | Datatypes.S fuel => r ← body s; match r with inl s => scan_loop fuel body s | inr r => mret r end
  end.
Definition looping {S R : Type} (body : S -> scan (S + R)) (s : S) : scan R :=
  fun l => scan_loop (Datatypes.S (length (Lexer.input l))) body s l.

(** ** Writes of single fields *)

Definition at_position (p : Z) (l : PerlLexer) : PerlLexer :=
  Lexer.mk (Lexer.input l) p (Lexer.mode l) (Lexer.config l) (Lexer.delimiter_stack l)
    (Lexer.in_prototype l) (Lexer.prototype_depth l) (Lexer.prototype_signature_seen l) (Lexer.after_sub l)
    (Lexer.after_arrow l) (Lexer.hash_brace_depth l) (Lexer.after_var_subscript l) (Lexer.paren_depth l)
    (Lexer.print_list_parens l) (Lexer.pending_print_list_paren l) (Lexer.current_pos l)
    (Lexer.after_newline l) (Lexer.pending_heredocs l) (Lexer.line_start_offset l)
    (Lexer.emit_heredoc_body_tokens l) (Lexer.current_quote_op l) (Lexer.qw_recovery_enabled l)
    (Lexer.eof_emitted l) (Lexer.pod_cut_cache l) (Lexer.stray_cut_opens l) (Lexer.scan_limit l)
    (Lexer.logical_source l) (Lexer.generation l).
Definition with_mode (m : LexerMode) (l : PerlLexer) : PerlLexer :=
  Lexer.mk (Lexer.input l) (Lexer.position l) m (Lexer.config l) (Lexer.delimiter_stack l)
    (Lexer.in_prototype l) (Lexer.prototype_depth l) (Lexer.prototype_signature_seen l) (Lexer.after_sub l)
    (Lexer.after_arrow l) (Lexer.hash_brace_depth l) (Lexer.after_var_subscript l) (Lexer.paren_depth l)
    (Lexer.print_list_parens l) (Lexer.pending_print_list_paren l) (Lexer.current_pos l)
    (Lexer.after_newline l) (Lexer.pending_heredocs l) (Lexer.line_start_offset l)
    (Lexer.emit_heredoc_body_tokens l) (Lexer.current_quote_op l) (Lexer.qw_recovery_enabled l)
    (Lexer.eof_emitted l) (Lexer.pod_cut_cache l) (Lexer.stray_cut_opens l) (Lexer.scan_limit l)
    (Lexer.logical_source l) (Lexer.generation l).
Definition at_line_start (newline : bool) (start : Z) (l : PerlLexer) : PerlLexer :=
  Lexer.mk (Lexer.input l) (Lexer.position l) (Lexer.mode l) (Lexer.config l) (Lexer.delimiter_stack l)
    (Lexer.in_prototype l) (Lexer.prototype_depth l) (Lexer.prototype_signature_seen l) (Lexer.after_sub l)
    (Lexer.after_arrow l) (Lexer.hash_brace_depth l) (Lexer.after_var_subscript l) (Lexer.paren_depth l)
    (Lexer.print_list_parens l) (Lexer.pending_print_list_paren l) (Lexer.current_pos l)
    newline (Lexer.pending_heredocs l) start
    (Lexer.emit_heredoc_body_tokens l) (Lexer.current_quote_op l) (Lexer.qw_recovery_enabled l)
    (Lexer.eof_emitted l) (Lexer.pod_cut_cache l) (Lexer.stray_cut_opens l) (Lexer.scan_limit l)
    (Lexer.logical_source l) (Lexer.generation l).

(** ** Characters *)

(** The Unicode tables: [char::is_alphabetic], [is_alphanumeric],
    [is_whitespace] and the [unicode_ident] crate. *)
Class Unicode := {
  is_xid_start : Z -> bool;
  is_xid_continue : Z -> bool;
  is_alphanumeric : Z -> bool;
  is_whitespace : Z -> bool;
}.
Definition between (a b c : Z) : bool := (a <=? c) && (c <=? b).
Definition is_ascii_digit (c : Z) : bool := between 48 57 c.
Definition is_ascii_alphabetic (c : Z) : bool := between 65 90 c || between 97 122 c.
Definition is_ascii_alphanumeric (c : Z) : bool := is_ascii_digit c || is_ascii_alphabetic c.
Definition is_ascii_hexdigit (c : Z) : bool := is_ascii_digit c || between 65 70 c || between 97 102 c.
(** Space, tab, LF, FF and CR. *)
Definition is_ascii_whitespace (c : Z) : bool := (c =? 32) || (c =? 9) || (c =? 10) || (c =? 12) || (c =? 13).

Definition is_emoji_codepoint (c : Z) : bool :=
  between 0x1F000 0x1F02F c || between 0x1F0A0 0x1F0FF c || between 0x1F100 0x1F1FF c || between 0x1F200 0x1F2FF c ||
  between 0x1F300 0x1F6FF c || between 0x1F700 0x1F77F c || between 0x1F780 0x1F7FF c || between 0x1F800 0x1F8FF c ||
  between 0x1F900 0x1F9FF c || between 0x1FA00 0x1FA6F c || between 0x1FA70 0x1FAFF c || between 0x2600 0x26FF c ||
  between 0x2700 0x27BF c.
Section unicode.
Context `{Unicode}.
Definition is_perl_identifier_start (c : Z) : bool := (c =? 95) || is_xid_start c || is_emoji_codepoint c.
Definition is_perl_package_segment_start (c : Z) : bool := is_perl_identifier_start c || is_ascii_digit c.
Definition is_perl_identifier_continue (c : Z) : bool :=
  is_perl_identifier_start c || is_xid_continue c || (c =? 39) ||
  ((c =? 0x200C) || (c =? 0x200D) || (c =? 0x20E3) || between 0xFE00 0xFE0F c || between 0xE0100 0xE01EF c ||
   between 0x1F3FB 0x1F3FF c || between 0xE0020 0xE007F c).
End unicode.

(** ** The cursor *)

Section cursor.
Implicit Types self : PerlLexer.

(** [scan_limit.unwrap_or(input.len())] *)
Definition limit self : Z := default (len (Lexer.input self)) (Lexer.scan_limit self).
(** [Self::byte_at]: the index is asserted to be in bounds. *)
Definition byte_at (bytes : list Z) (index : Z) : outcome Z := expect (zget bytes index).
(** [bytes[index]] *)
Definition index (bytes : list Z) (i : Z) : outcome Z := expect (zget bytes i).

(** [normalize_char_boundary] *)
Definition normalize_char_boundary : scan unit :=
  looping (fun _ : unit =>
    p ← look Lexer.position; input ← look Lexer.input;
    if (p <? len input) && negb (is_char_boundary input p) then
      p ← asks (fun _ => usize_add p 1); _ ← write (at_position p); mret (inl tt)
    else mret (inr tt)) tt.

Definition current_char self : outcome (option Z) :=
  if Lexer.position self <? limit self then
    if negb (is_char_boundary (Lexer.input self) (Lexer.position self)) then mret None
    else
      byte ← byte_at (Lexer.input self) (Lexer.position self);
      if byte <? 128 then mret (Some byte)
      else mret (str_get (Lexer.input self) (Lexer.position self) (limit self) ≫= fun s => head (chars s))
  else mret None.

Definition is_ascii (bs : list Z) : bool := forallb (fun b => b <? 128) bs.
Definition peek_char self (offset : Z) : outcome (option Z) :=
  if max_lookahead (Lexer.config self) <? offset then mret None
  else if negb (is_char_boundary (Lexer.input self) (Lexer.position self)) then mret None
  else match str_get (Lexer.input self) (Lexer.position self) (limit self), checked_add offset 1 with
  | Some rest, Some prefix_len =>
    if (prefix_len <=? len rest) && is_ascii (ztake prefix_len rest) then mret (zget rest offset)
    else match zget (chars rest) offset with
    | None => mret None
    | Some ch =>
      e ← usize_add (Lexer.position self) (blen (ztake (offset + 1) (chars rest)));
      mret (if e <=? limit self then Some ch else None)
    end
  | _, _ => mret None
  end.

Definition advance : scan unit :=
  self ← look id;
  if Lexer.position self <? limit self then
    if negb (is_char_boundary (Lexer.input self) (Lexer.position self)) then normalize_char_boundary
    else
      byte ← asks (fun _ => byte_at (Lexer.input self) (Lexer.position self));
      if byte <? 128 then
        p ← asks (fun _ => usize_add (Lexer.position self) 1); write (at_position p)
      else match str_get (Lexer.input self) (Lexer.position self) (limit self) ≫= fun s => head (chars s) with
      | Some ch =>
        p ← asks (fun _ => usize_add (Lexer.position self) (len_utf8 ch));
        if p <=? limit self then write (at_position p) else mret tt
      | None => mret tt
      end
  else mret tt.

Definition peek_byte self (offset : Z) : outcome (option Z) :=
  if max_lookahead (Lexer.config self) <? offset then mret None
  else match checked_add (Lexer.position self) offset with
  | None => mret None
  | Some pos =>
    if pos <? limit self then b ← index (Lexer.input self) pos; mret (Some b) else mret None
  end.

(** [bytes[a..b]] *)
Definition slice (bytes : list Z) (a b : Z) : outcome (list Z) :=
  if (0 <=? a) && (a <=? b) && (b <=? len bytes) then Ret (zslice bytes a b) else Panic.
Definition matches_bytes self (pattern : list Z) : outcome bool :=
  if len pattern =? 0 then mret false
  else match checked_add (Lexer.position self) (len pattern) with
  | None => mret false
  | Some e =>
    if limit self <? e then mret false
    else if max_lookahead (Lexer.config self) <? len pattern - 1 then mret false
    else if e <=? len (Lexer.input self) then
      s ← slice (Lexer.input self) (Lexer.position self) e; mret (bool_decide (s = pattern))
    else mret false
  end.

(** ** Lines *)

(** [trailing_ws_only], on the bytes from [p] on *)
Fixpoint trailing_ws_only (rest : list Z) : bool :=
  match rest with
  | [] => true
  | b :: rest =>
    if (b =? 10) || (b =? 13) then true
    else if (b =? 32) || (b =? 9) then trailing_ws_only rest else false
  end.

Definition consume_newline : scan unit :=
  self ← look id;
  if len (Lexer.input self) <=? Lexer.position self then mret tt
  else
    b ← asks (fun _ => index (Lexer.input self) (Lexer.position self));
    let finish := p ← look Lexer.position; write (at_line_start true p) in
    if b =? 13 then
      p ← asks (fun _ => usize_add (Lexer.position self) 1); _ ← write (at_position p);
      _ ← (if p <? len (Lexer.input self) then
             b ← asks (fun _ => index (Lexer.input self) p);
             if b =? 10 then p ← asks (fun _ => usize_add p 1); write (at_position p) else mret tt
           else mret tt);
      finish
    else if b =? 10 then _ ← advance; finish
    else mret tt.

(** [iter().position(|&byte| byte == b'\n' || byte == b'\r')] *)
Fixpoint newline_offset (bytes : list Z) : option Z :=
  match bytes with
  | [] => None
  | b :: bytes => if (b =? 10) || (b =? 13) then Some 0 else Z.succ <$> newline_offset bytes
  end.
Definition find_line_end (bytes : list Z) (start : Z) : Z :=
  if len bytes <=? start then start
  else match newline_offset (zdrop start bytes) with Some offset => start + offset | None => len bytes end.

(** [line_bounded_unclosed_end] *)
Fixpoint find_byte (b : Z) (bytes : list Z) : option Z :=
  match bytes with [] => None | x :: bytes => if x =? b then Some 0 else Z.succ <$> find_byte b bytes end.
Definition line_bounded_unclosed_end self (start : Z) : Z :=
  match str_get (Lexer.input self) start (len (Lexer.input self)) with
  | None => len (Lexer.input self)
  | Some remaining =>
    match find_byte 10 remaining with Some nl => saturating_add start nl | None => len (Lexer.input self) end
  end.

(** ** The start of a file *)

Definition UTF8_BOM : list Z := [239; 187; 191].
Definition normalize_file_start : scan unit :=
  self ← look id;
  if Lexer.position self =? 0 then
    m ← asks (fun l => matches_bytes l UTF8_BOM);
    if (m : bool) then
      _ ← write (at_position (len UTF8_BOM)); write (fun l => at_line_start (Lexer.after_newline l) (len UTF8_BOM) l)
    else mret tt
  else mret tt.
End cursor.

(** ** The characters before the cursor, those left, and those past the limit *)

Record view (l : PerlLexer) (b r a : list Z) : Prop := mkView {
  view_scalars : scalars (b ++ r ++ a);
  view_input : Lexer.input l = encode (b ++ r ++ a);
  view_position : Lexer.position l = blen b;
  view_limit : limit l = blen (b ++ r);
  view_small : blen (b ++ r ++ a) <= isize_max;
}.
(** The lexer after these characters. *)
Definition consume (cs : list Z) (l : PerlLexer) : PerlLexer := at_position (Lexer.position l + blen cs) l.

Lemma at_position_eq l : at_position (Lexer.position l) l = l.
Proof. by destruct l. Qed.
Lemma consume_nil l : consume [] l = l.
Proof. unfold consume. simpl. rewrite Z.add_0_r. apply at_position_eq. Qed.
Lemma consume_app cs ds l : consume ds (consume cs l) = consume (cs ++ ds) l.
Proof. unfold consume, at_position. simpl. rewrite blen_app. by rewrite Z.add_assoc. Qed.

Lemma view_consume l b cs r a : view l b (cs ++ r) a -> view (consume cs l) (b ++ cs) r a.
Proof.
  intros [H1 H2 H3 H4 H5]. split; simpl; rewrite <-?(assoc_L (++)) in *; try done.
  rewrite H3, blen_app. lia.
Qed.
Lemma view_scalars_rest l b r a : view l b r a -> scalars r.
Proof. intros [H _ _ _ _]. by apply scalars_app in H as [_ [H _]%scalars_app]. Qed.
Lemma view_head l b c r a : view l b (c :: r) a -> is_scalar c = true.
Proof. intros Hv%view_scalars_rest. by inversion Hv. Qed.
Lemma view_lt l b r a : view l b r a -> (Lexer.position l <? limit l) = match r with [] => false | _ => true end.
Proof.
  intros [_ _ -> -> _]. rewrite blen_app. destruct r as [|c r]; simpl; [apply Z.ltb_ge; lia|].
  apply Z.ltb_lt. pose proof (len_utf8_pos c). pose proof (blen_nonneg r). lia.
Qed.
Lemma view_boundary l b r a : view l b r a -> is_char_boundary (Lexer.input l) (Lexer.position l) = true.
Proof. intros [H1 -> -> _ _]. by apply boundary_prefix. Qed.
Lemma view_rest l b r a : view l b r a -> str_get (Lexer.input l) (Lexer.position l) (limit l) = Some (encode r).
Proof. intros [H1 -> -> -> _]. rewrite blen_app. by apply str_get_mid. Qed.
Lemma view_len l b r a : view l b r a -> len (Lexer.input l) = blen b + blen r + blen a.
Proof. intros [_ -> _ _ _]. rewrite len_encode, !blen_app. lia. Qed.

(** The byte under the cursor tells an ASCII character from another. *)
Lemma view_byte l b c r a : view l b (c :: r) a ->
  exists x, zget (Lexer.input l) (Lexer.position l) = Some x /\ (x <? 128) = (c <? 128) /\ (c < 128 -> x = c).
Proof.
  intros Hv. pose proof (view_scalars_rest _ _ _ _ Hv) as Hs. inversion Hs as [|? ? Hc _]; subst.
  destruct Hv as [_ -> -> _ _]. destruct (encode_char_shape c Hc) as (x & t & E & _ & _). exists x.
  rewrite encode_app. simpl. rewrite E. simpl. rewrite <-len_encode, zget_app_len. split; [done|].
  destruct (Z.ltb_spec c 128) as [Hlt|Hge].
  - rewrite encode_char_ascii in E by done. injection E as <- <-. split; [by apply Z.ltb_lt|done].
  - pose proof (encode_char_high c Hc Hge) as Hh. rewrite E in Hh. inversion Hh; subst. split; [by apply Z.ltb_ge|lia].
Qed.

Lemma current_char_view l b r a : view l b r a -> current_char l = Ret (head r).
Proof.
  intros Hv. unfold current_char. rewrite (view_lt _ _ _ _ Hv). destruct r as [|c r]; [done|].
  rewrite (view_boundary _ _ _ _ Hv). simpl. unfold byte_at.
  destruct (view_byte _ _ _ _ _ Hv) as (x & -> & Hx & Hc). simpl. rewrite Hx. destruct (Z.ltb_spec c 128); [by rewrite Hc|].
  rewrite (view_rest _ _ _ _ Hv). cbn [mbind option_bind]. by rewrite chars_encode by (by eapply view_scalars_rest).
Qed.
Lemma usize_small x y : 0 <= x + y <= isize_max -> usize_add x y = Ret (x + y).
Proof. intros H. unfold usize_add. apply arith_Ret. unfold isize_max, usize_max in *. lia. Qed.

Lemma advance_view l b r a : view l b r a -> advance l = Ret (tt, consume (take 1 r) l).
Proof.
  intros Hv. unfold advance, mbind, scan_bind, look, asks, id. rewrite (view_lt _ _ _ _ Hv).
  destruct r as [|c r]; [by rewrite consume_nil|]. simpl take. rewrite (view_boundary _ _ _ _ Hv). simpl.
  destruct (view_byte _ _ _ _ _ Hv) as (x & E & Hx & Hc). unfold byte_at. rewrite E. simpl. rewrite Hx.
  pose proof (blen_nonneg b). pose proof (blen_nonneg r). pose proof (blen_nonneg a). pose proof (len_utf8_pos c).
  pose proof (view_small _ _ _ _ Hv) as Hsm. rewrite !blen_app in Hsm. simpl in Hsm.
  assert (Hadd : usize_add (Lexer.position l) (len_utf8 c) = Ret (Lexer.position l + len_utf8 c))
    by (apply usize_small; rewrite (view_position _ _ _ _ Hv); lia).
  destruct (Z.ltb_spec c 128) as [Hlt|Hge].
  - assert (Hw : len_utf8 c = 1) by (unfold len_utf8; bcase). rewrite Hw in Hadd. rewrite Hadd. unfold write, consume. simpl. by rewrite Hw.
  - rewrite (view_rest _ _ _ _ Hv). simpl. rewrite chars_encode_char by (by eapply view_head). simpl.
    rewrite Hadd. rewrite (proj2 (Z.leb_le _ _)); [unfold write, consume; simpl; by rewrite Z.add_0_r|].
    rewrite (view_position _ _ _ _ Hv), (view_limit _ _ _ _ Hv), blen_app. simpl. lia.
Qed.

(** While the bytes are ASCII they are the characters. *)
Lemma ascii_take n r : scalars r -> (n <= length (encode r))%nat -> forallb (fun b => b <? 128) (take n (encode r)) = true ->
  take n (encode r) = take n r /\ (n <= length r)%nat.
Proof.
  revert n. induction r as [|c r IH]; intros n Hs Hn Ha; simpl in *; [split; [done|lia]|].
  destruct n as [|n]; [split; [done|lia]|]. apply Forall_cons in Hs as [Hc Hs].
  destruct (Z.ltb_spec c 128) as [Hlt|Hge].
  - rewrite encode_char_ascii in * by done. simpl in *. apply andb_true_iff in Ha as [_ Ha].
    destruct (IH n Hs) as [-> ?]; [lia|done|]. split; [done|lia].
  - pose proof (encode_char_high c Hc Hge) as Hh. destruct (encode_char_shape c Hc) as (x & t & E & _ & _).
    rewrite E in *. simpl in Ha. inversion Hh; subst. apply andb_true_iff in Ha as [Hx%Z.ltb_lt _]. lia.
Qed.
Lemma take_lookup {A} (l1 l2 : list A) n i : take n l1 = take n l2 -> (i < n)%nat -> l1 !! i = l2 !! i.
Proof. intros E Hi. by rewrite <-(lookup_take_lt l1 n i), <-(lookup_take_lt l2 n i), E. Qed.

Lemma blen_ztake i r : blen (ztake i r) <= blen r.
Proof. rewrite <-(ztake_zdrop r i) at 2. rewrite blen_app. pose proof (blen_nonneg (zdrop i r)). lia. Qed.
Lemma view_bounds l b r a : view l b r a -> 0 <= Lexer.position l <= limit l /\ Lexer.position l + blen r = limit l /\ limit l <= isize_max.
Proof.
  intros [_ _ -> -> H]. rewrite !blen_app in *. pose proof (blen_nonneg a). pose proof (blen_nonneg b).
  pose proof (blen_nonneg r). lia.
Qed.

(** [peek_char] reads the character at that distance, within the lookahead. *)
Lemma peek_char_view l b r a offset : view l b r a -> 0 <= offset < usize_max ->
  peek_char l offset = Ret (if max_lookahead (Lexer.config l) <? offset then None else zget r offset).
Proof.
  intros Hv Ho. unfold peek_char. destruct (_ <? offset); [done|]. rewrite (view_boundary _ _ _ _ Hv), (view_rest _ _ _ _ Hv). simpl.
  rewrite checked_add_Some by lia. pose proof (view_scalars_rest _ _ _ _ Hv) as Hs.
  destruct ((offset + 1 <=? len (encode r)) && is_ascii (ztake (offset + 1) (encode r))) eqn:Ea.
  - apply andb_true_iff in Ea as [Hle%Z.leb_le Ha]. unfold is_ascii, ztake in Ha. apply ascii_take in Ha as [E _]; [|done|unfold len in Hle; lia].
    unfold mret, outcome_ret. f_equal. unfold zget. rewrite (proj2 (Z.leb_le _ _)) by lia. eapply take_lookup; [exact E|lia].
  - rewrite chars_encode by done. destruct (zget r offset) as [c|]; [|done].
    destruct (view_bounds _ _ _ _ Hv) as (Hp & Hl & Hm). pose proof (blen_ztake (offset + 1) r).
    pose proof (blen_nonneg (ztake (offset + 1) r)). rewrite usize_small by lia. simpl.
    rewrite (proj2 (Z.leb_le _ _)) by lia. done.
Qed.
Lemma view_bytes l b r a : view l b r a -> zdrop (Lexer.position l) (Lexer.input l) = encode (r ++ a).
Proof. intros [_ -> -> _ _]. rewrite encode_app, <-len_encode. apply zdrop_app_len. Qed.
Lemma zget_zdrop {A} (l : list A) i j : 0 <= i -> 0 <= j -> zget (zdrop i l) j = zget l (i + j).
Proof.
  intros Hi Hj. unfold zget, zdrop. rewrite !(proj2 (Z.leb_le _ _)) by lia. rewrite lookup_drop. f_equal. lia.
Qed.
Lemma peek_byte_view l b r a offset : view l b r a -> 0 <= offset <= usize_max - isize_max ->
  peek_byte l offset = Ret (if max_lookahead (Lexer.config l) <? offset then None else zget (encode r) offset).
Proof.
  intros Hv Ho. unfold peek_byte. destruct (_ <? offset); [done|]. destruct (view_bounds _ _ _ _ Hv) as (Hp & Hl & Hm).
  rewrite checked_add_Some by (unfold usize_max, isize_max in *; lia).
  assert (Hz : zget (Lexer.input l) (Lexer.position l + offset) = zget (encode r ++ encode a) offset)
    by (rewrite <-encode_app, <-(view_bytes _ _ _ _ Hv), zget_zdrop by lia; done).
  destruct (Z.ltb_spec (Lexer.position l + offset) (limit l)).
  - unfold index. rewrite Hz, zget_app_l by (rewrite len_encode; lia).
    destruct (zget_lt_Some (encode r) offset) as [x Hx]; [rewrite len_encode; lia|]. by rewrite Hx.
  - rewrite zget_ge; [done|]. rewrite len_encode. lia.
Qed.
(** [bytes.starts_with(pattern)] *)
Definition starts_with (pattern bytes : list Z) : bool := bool_decide (ztake (len pattern) bytes = pattern).
Lemma matches_bytes_view l b r a pattern : view l b r a -> 0 < len pattern <= 1 + max_lookahead (Lexer.config l) ->
  len pattern <= isize_max ->
  matches_bytes l pattern = Ret (starts_with pattern (encode r)).
Proof.
  intros Hv Hp Hi. unfold matches_bytes, starts_with. destruct (Z.eqb_spec (len pattern) 0); [lia|].
  destruct (view_bounds _ _ _ _ Hv) as (H0 & Hl & Hm). rewrite checked_add_Some by (unfold usize_max, isize_max in *; lia).
  pose proof (view_len _ _ _ _ Hv) as Hn. pose proof (blen_nonneg a). pose proof (blen_nonneg b).
  pose proof (view_position _ _ _ _ Hv) as Hpos.
  destruct (Z.ltb_spec (limit l) (Lexer.position l + len pattern)).
  - rewrite bool_decide_false; [done|]. intros E. apply (f_equal len) in E. rewrite ztake_all in E by (rewrite len_encode; lia).
    rewrite len_encode in E. lia.
  - destruct (Z.ltb_spec (max_lookahead (Lexer.config l)) (len pattern - 1)); [lia|]. rewrite (proj2 (Z.leb_le _ _)) by lia.
    unfold slice. rewrite !(proj2 (Z.leb_le _ _)) by lia. simpl. do 2 f_equal. unfold zslice.
    rewrite (view_bytes _ _ _ _ Hv), encode_app. replace (_ + _ - _) with (len pattern) by lia.
    unfold ztake. rewrite take_app_le; [done|]. pose proof (len_encode r) as E. unfold len in *. lia.
Qed.
Lemma normalize_view l b r a : view l b r a -> normalize_char_boundary l = Ret (tt, l).
Proof.
  intros Hv. unfold normalize_char_boundary, looping. simpl. unfold mbind, scan_bind, look. rewrite (view_boundary _ _ _ _ Hv).
  by rewrite andb_false_r.
Qed.
