(* ===== verification/LexerStringLaws.v ===== *)
(** * Laws of the string scanners

    The proof rules for scanning routines (a routine consumes a prefix of the
    characters left and cannot panic), and the theorems about LexerStrings. *)

From stdpp Require Import base numbers list strings.
From S2P Require Import Prelude Utf8 Checkpoint LexerTokens LexerCursor LexerStrings.

(** ** Routines that only move the cursor *)

(** From [l], with [r] left, the routine returns a value after consuming [cs]. *)
Definition reads {A} (m : scan A) (l : PerlLexer) (r : list Z) (Post : A -> list Z -> Prop) : Prop :=
  exists x cs r', r = cs ++ r' /\ m l = Ret (x, consume cs l) /\ Post x cs.

Lemma reads_mono {A} (m : scan A) l r (P Q : A -> list Z -> Prop) :
  (forall x cs, P x cs -> Q x cs) -> reads m l r P -> reads m l r Q.
Proof. intros H (x & cs & r' & E1 & E2 & HP). exists x, cs, r'. auto. Qed.
Lemma reads_ret {A} (x : A) l r (P : A -> list Z -> Prop) : P x [] -> reads (mret x) l r P.
Proof. intros H. exists x, [], r. rewrite consume_nil. done. Qed.
Lemma reads_bind {A B} (m : scan A) (f : A -> scan B) l b r a (Q : A -> list Z -> Prop) (P : B -> list Z -> Prop) :
  view l b r a -> reads m l r Q ->
  (forall x cs r', r = cs ++ r' -> view (consume cs l) (b ++ cs) r' a -> Q x cs ->
     reads (f x) (consume cs l) r' (fun y ds => P y (cs ++ ds))) ->
  reads (m ≫= f) l r P.
Proof.
  intros Hv (x & cs & r' & -> & E & HQ) Hf.
  destruct (Hf x cs r' eq_refl (view_consume _ _ _ _ _ Hv) HQ) as (y & ds & r'' & -> & E' & HP).
  exists y, (cs ++ ds), r''. rewrite <-(assoc_L (++)), <-consume_app. split; [done|]. split; [|done].
  unfold mbind, scan_bind. by rewrite E.
Qed.
Lemma reads_assoc {A B C} (m : scan A) (f : A -> scan B) (g : B -> scan C) l r P :
  reads (m ≫= fun x => f x ≫= g) l r P -> reads ((m ≫= f) ≫= g) l r P.
Proof.
  intros (x & cs & r' & E1 & E2 & HP). exists x, cs, r'. split; [done|]. split; [|done]. rewrite <-E2.
  unfold mbind, scan_bind. by destruct (m l) as [[y l']|].
Qed.
Lemma reads_ret_bind {A B} (x : A) (k : A -> scan B) l r P : reads (k x) l r P -> reads (mret x ≫= k) l r P.
Proof. done. Qed.
Lemma reads_asks {A B} (f : PerlLexer -> outcome A) x (k : A -> scan B) l r P :
  f l = Ret x -> reads (k x) l r P -> reads (asks f ≫= k) l r P.
Proof. intros E (y & cs & r' & -> & E' & HP). exists y, cs, r'. unfold mbind, scan_bind, asks. rewrite E. done. Qed.
Lemma reads_step {A B} (m : scan A) x (k : A -> scan B) l r P : m l = Ret (x, l) -> reads (k x) l r P -> reads (m ≫= k) l r P.
Proof. intros E (y & cs & r' & -> & E' & HP). exists y, cs, r'. unfold mbind, scan_bind. rewrite E. done. Qed.
Lemma reads_look {A B} (f : PerlLexer -> A) (k : A -> scan B) l r P : reads (k (f l)) l r P -> reads (look f ≫= k) l r P.
Proof. done. Qed.
Lemma reads_current {B} (k : option Z -> scan B) l b r a P :
  view l b r a -> reads (k (head r)) l r P -> reads (asks current_char ≫= k) l r P.
Proof. intros Hv. apply reads_asks. by eapply current_char_view. Qed.
Lemma reads_advance {B} (k : unit -> scan B) l b c r a P :
  view l b (c :: r) a -> (view (consume [c] l) (b ++ [c]) r a -> reads (k tt) (consume [c] l) r (fun y ds => P y (c :: ds))) ->
  reads (advance ≫= k) l (c :: r) P.
Proof.
  intros Hv Hk. assert (Hv' : view (consume [c] l) (b ++ [c]) r a) by (by apply (view_consume _ _ [c])).
  destruct (Hk Hv') as (y & ds & r' & -> & E & HP).
  exists y, (c :: ds), r'. split; [done|]. split; [|done]. unfold mbind, scan_bind. rewrite (advance_view _ _ _ _ Hv).
  change (take 1 (c :: ds ++ r')) with [c]. cbv beta iota. by rewrite E, consume_app.
Qed.
Lemma reads_advance_end {B} (k : unit -> scan B) l b a P :
  view l b [] a -> reads (k tt) l [] P -> reads (advance ≫= k) l [] P.
Proof.
  intros Hv (y & cs & r' & E1 & E2 & HP). exists y, cs, r'. split; [done|]. split; [|done].
  unfold mbind, scan_bind. rewrite (advance_view _ _ _ _ Hv). simpl. by rewrite consume_nil.
Qed.

(** A scan limit inside the input stands behind a line end. *)
Definition fenced (r a : list Z) : Prop := a = [] \/ forall c, last r = Some c -> c = 10 \/ c = 13.
Lemma fenced_suffix cs r a : fenced (cs ++ r) a -> fenced r a.
Proof.
  intros [?|H]; [by left|right]. intros c Hc. apply H. rewrite last_app. by rewrite Hc.
Qed.

(** A routine that never panics and only consumes characters. *)
Definition glides {A} (m : scan A) : Prop :=
  forall l b r a, view l b r a -> fenced r a -> reads m l r (fun _ _ => True).
Lemma glides_ret {A} (x : A) : glides (mret x).
Proof. intros l b r a _ _. by apply reads_ret. Qed.
Lemma glides_bind {A B} (m : scan A) (f : A -> scan B) : glides m -> (forall x, glides (f x)) -> glides (m ≫= f).
Proof.
  intros Hm Hf l b r a Hv Hr. eapply reads_bind; [exact Hv|by eapply Hm|].
  intros x cs r' -> Hv' _. eapply Hf; [exact Hv'|by eapply fenced_suffix].
Qed.
Lemma glides_look {A} (f : PerlLexer -> A) : glides (look f).
Proof. intros l b r a _ _. exists (f l), [], r. by rewrite consume_nil. Qed.
Lemma glides_asks {A} (f : PerlLexer -> outcome A) :
  (forall l b r a, view l b r a -> exists x, f l = Ret x) -> glides (asks f).
Proof. intros H l b r a Hv _. destruct (H _ _ _ _ Hv) as [x E]. exists x, [], r. unfold asks. by rewrite E, consume_nil. Qed.
Lemma glides_current : glides (asks current_char).
Proof. apply glides_asks. intros l b r a Hv. by rewrite (current_char_view _ _ _ _ Hv); eauto. Qed.
Lemma glides_peek n : 0 <= n < usize_max -> glides (asks (fun l => peek_char l n)).
Proof. intros Hn. apply glides_asks. intros l b r a Hv. rewrite (peek_char_view _ _ _ _ _ Hv) by done. eauto. Qed.
Lemma glides_peek_byte n : 0 <= n <= usize_max - isize_max -> glides (asks (fun l => peek_byte l n)).
Proof. intros Hn. apply glides_asks. intros l b r a Hv. rewrite (peek_byte_view _ _ _ _ _ Hv) by done. eauto. Qed.
Lemma glides_advance : glides advance.
Proof. intros l b r a Hv _. exists tt, (take 1 r), (drop 1 r). by rewrite take_drop, (advance_view _ _ _ _ Hv). Qed.
Lemma glides_matches p : 0 < len p <= isize_max -> glides (asks (fun l => matches_bytes l p)).
Proof.
  intros Hp. apply glides_asks. intros l b r a Hv. destruct (Z.leb_spec (len p) (1 + max_lookahead (Lexer.config l))).
  - rewrite (matches_bytes_view _ _ _ _ p Hv) by lia. eauto.
  - unfold matches_bytes. rewrite (proj2 (Z.eqb_neq _ _)) by lia. destruct (view_bounds _ _ _ _ Hv) as (Hp0 & Hl & Hm).
    rewrite checked_add_Some by (unfold usize_max, isize_max in *; lia). destruct (_ <? _); [eauto|].
    rewrite (proj2 (Z.ltb_lt _ _)) by lia. eauto.
Qed.

(** Loops: every round that goes on consumes something.  [I] is what the
    rounds know of the locals and of the characters left. *)
Lemma reads_looping_inv {S R} (I : PerlLexer -> S -> list Z -> Prop) (body : S -> scan (S + R))
    (P : PerlLexer -> S -> list Z -> R -> list Z -> Prop) (a : list Z) :
  (forall s l b r, view l b r a -> I l s r -> reads (body s) l r (fun x cs =>
     match x with
     | inr res => P l s r res cs
     | inl s' => cs <> [] /\ (forall r', r = cs ++ r' -> I (consume cs l) s' r') /\
         forall res ds r', r = cs ++ ds ++ r' -> P (consume cs l) s' (ds ++ r') res ds -> P l s r res (cs ++ ds)
     end)) ->
  forall s l b r, view l b r a -> I l s r -> reads (looping body s) l r (P l s r).
Proof.
  intros Hbody.
  assert (H : forall n s l b r, (length (encode r) < n)%nat -> view l b r a -> I l s r -> reads (scan_loop n body s) l r (P l s r)).
  { induction n as [|n IH]; intros s l b r Hn Hv Hi; [lia|]. simpl. eapply reads_bind; [exact Hv|by eapply Hbody|].
    intros [s'|res] cs r' -> Hv' HP; simpl in HP.
    - destruct HP as (Hcs & Hi' & HP).
      destruct (IH s' (consume cs l) (b ++ cs) r') as (res & ds & r'' & -> & E & HP'); [|exact Hv'|by apply Hi'|].
      + rewrite encode_app, length_app in Hn. destruct cs as [|c cs]; [done|]. simpl in Hn. rewrite length_app in Hn.
        pose proof (len_encode_char c) as E. pose proof (len_utf8_pos c). unfold len in E. lia.
      + exists res, ds, r''. split; [done|]. split; [done|]. by eapply HP.
    - apply reads_ret. by rewrite app_nil_r. }
  intros s l b r Hv Hi.
  assert (E : reads (scan_loop (Datatypes.S (length (Lexer.input l))) body s) l r (P l s r)); [|exact E].
  eapply H; [|exact Hv|exact Hi]. rewrite (view_input _ _ _ _ Hv), !encode_app, !length_app. lia.
Qed.
Lemma reads_looping {S R} (F : list Z -> Prop) (I : S -> Prop) (body : S -> scan (S + R))
    (P : PerlLexer -> S -> list Z -> R -> list Z -> Prop) (a : list Z) :
  (forall cs r, F (cs ++ r) -> F r) ->
  (forall s l b r, view l b r a -> F r -> I s -> reads (body s) l r (fun x cs =>
     match x with
     | inr res => P l s r res cs
     | inl s' => cs <> [] /\ I s' /\ forall res ds r', r = cs ++ ds ++ r' -> P (consume cs l) s' (ds ++ r') res ds -> P l s r res (cs ++ ds)
     end)) ->
  forall s l b r, view l b r a -> F r -> I s -> reads (looping body s) l r (P l s r).
Proof.
  intros HF Hbody s l b r Hv Hf Hi. eapply (reads_looping_inv (fun _ s r => F r /\ I s)); [|exact Hv|done].
  clear -HF Hbody. intros s l b r Hv [Hf Hi]. destruct (Hbody s l b r Hv Hf Hi) as (x & cs & r' & -> & E & HP).
  exists x, cs, r'. split; [done|]. split; [done|]. destruct x as [s'|res]; [|done].
  destruct HP as (H1 & H2 & H3). split; [done|]. split; [|done]. intros r'' E'. apply app_inv_head in E' as <-. eauto.
Qed.
(** ... and then the loop glides. *)
Lemma glides_looping {S R} (body : S -> scan (S + R)) :
  (forall s l b r a, view l b r a -> fenced r a ->
     reads (body s) l r (fun x cs => match x with inl _ => cs <> [] | inr _ => True end)) ->
  forall s, glides (looping body s).
Proof.
  intros Hb s l b r a Hv Hf.
  eapply reads_mono; [|eapply (reads_looping (fun r => fenced r a) (fun _ => True) body (fun _ _ _ _ _ => True) a); [|..|exact Hv|exact Hf|done]];
    [done|intros cs r'; apply fenced_suffix|].
  intros s' l' b' r' Hv' Hf' _. eapply reads_mono; [|by eapply Hb]. intros [?|?] cs; auto.
Qed.

#[export] Hint Resolve glides_ret glides_look glides_current glides_advance : glide.
Ltac glide := repeat (first [ progress eauto with glide | apply glides_bind; [|intros ?] | case_match; try done ]).

(** ** Balanced segments *)

Section segments.
Variables (open close : Z) (terminator : option Z).

(** The text inside a segment at nesting depth [d]: escapes, plain characters
    and nested segments, down to the nesting budget. *)
Inductive enclosed : Z -> list Z -> Prop :=
| enclosed_nil d : enclosed d []
| enclosed_plain d c s : c <> c_backslash -> c <> open -> c <> close -> terminator <> Some c ->
    enclosed d s -> enclosed d (c :: s)
| enclosed_escape d c s : enclosed d s -> enclosed d (c_backslash :: c :: s)
| enclosed_nested d s t : d < MAX_DELIM_NEST -> enclosed (d + 1) s -> enclosed d t ->
    enclosed d (open :: s ++ close :: t).
(** The same with a counter: the text up to the close of depth [d]. *)
Inductive closes : Z -> list Z -> Prop :=
| closes_last : closes 1 [close]
| closes_close d s : 1 < d -> closes (d - 1) s -> closes d (close :: s)
| closes_open d s : d < MAX_DELIM_NEST -> closes (d + 1) s -> closes d (open :: s)
| closes_escape d c s : closes d s -> closes d (c_backslash :: c :: s)
| closes_plain d c s : c <> c_backslash -> c <> open -> c <> close -> terminator <> Some c ->
    closes d s -> closes d (c :: s).

Lemma enclosed_closes d s : enclosed d s -> 1 <= d -> forall t, closes d t -> closes d (s ++ t).
Proof using Type.
  induction 1 as [d|d c s Hb Ho Hc Ht _ IH|d c s _ IH|d s t Hd _ IH1 _ IH2]; intros H1 u Hu; simpl; [done|..].
  - apply closes_plain; auto.
  - apply closes_escape; auto.
  - rewrite <-(assoc_L (++)). simpl. apply closes_open; [done|]. apply IH1; [lia|]. apply closes_close; [lia|].
    replace (d + 1 - 1) with d by lia. auto.
Qed.
Lemma closes_enclosed cs : forall d, 1 <= d -> closes d cs -> exists s t, cs = s ++ close :: t /\ enclosed d s /\
  (d = 1 -> t = []) /\ (1 < d -> closes (d - 1) t).
Proof using Type.
  induction cs as [cs IH] using (induction_ltof1 _ (@length Z)). unfold ltof in IH. intros d Hpos Hd.
  destruct Hd as [|d s H1 Hs|d s Hd Hs|d c s Hs|d c s Hb Ho Hc Ht Hs].
  - exists [], []. split; [done|]. split; [constructor|]. split; [done|lia].
  - exists [], s. split; [done|]. split; [constructor|]. split; [lia|done].
  - destruct (IH s) with (d + 1) as (s1 & t1 & -> & E1 & _ & Ht1); [simpl; lia|lia|done|].
    destruct (IH t1) with d as (s2 & t2 & -> & E2 & H); [simpl; rewrite length_app; simpl; lia|done| |].
    { replace d with (d + 1 - 1) by lia. apply Ht1. lia. }
    exists (open :: s1 ++ close :: s2), t2. simpl. rewrite <-(assoc_L (++)). split; [done|]. split; [by constructor|done].
  - destruct (IH s) with d as (s1 & t1 & -> & E1 & H); [simpl; lia|done|done|].
    exists (c_backslash :: c :: s1), t1. split; [done|]. split; [by constructor|done].
  - destruct (IH s) with d as (s1 & t1 & -> & E1 & H); [simpl; lia|done|done|].
    exists (c :: s1), t1. split; [done|]. split; [by constructor|done].
Qed.

Hypothesis Hoc : open <> close.
Hypothesis Hob : open <> c_backslash.
Hypothesis Hcb : close <> c_backslash.

(** What the loop promises: a segment's end, or that none starts here. *)
Definition segment_spec (l : PerlLexer) (d : Z) (r : list Z) (res : option Z) (cs : list Z) : Prop :=
  match res with
  | Some p => closes d cs /\ p = Lexer.position l + blen cs
  | None => forall ds t, r = ds ++ t -> ~ closes d ds
  end.
Lemma closes_cons_inv d c s : closes d (c :: s) ->
  if c =? c_backslash then exists x s', s = x :: s' /\ closes d s'
  else if c =? open then d < MAX_DELIM_NEST /\ closes (d + 1) s
  else if c =? close then (d = 1 /\ s = []) \/ (1 < d /\ closes (d - 1) s)
  else terminator <> Some c /\ closes d s.
Proof using Hcb Hob Hoc.
  intros H. inversion H; subst; repeat case_match; try done;
    repeat match goal with H : (_ =? _) = true |- _ => apply Z.eqb_eq in H | H : (_ =? _) = false |- _ => apply Z.eqb_neq in H end;
    subst; try congruence; try done; eauto.
Qed.
Lemma closes_nonempty d : ~ closes d [].
Proof using Type. inversion 1. Qed.
Lemma segment_spec_cons l d d' c r res ds :
  (forall s, closes d (c :: s) <-> closes d' s) ->
  segment_spec (consume [c] l) d' r res ds -> segment_spec l d (c :: r) res (c :: ds).
Proof using Type.
  intros Hc. unfold segment_spec. destruct res as [p|].
  - intros [H ->]. split; [by apply Hc|]. simpl. lia.
  - intros H [|x us] t E Hcl; [by apply closes_nonempty in Hcl|]. simpl in E. injection E as <- ->.
    apply (H us t eq_refl). by apply Hc.
Qed.

(** A round of the loop that goes on at depth [d']. *)
Lemma segment_go_on l d d' cs r :
  cs <> [] -> 1 <= d' <= MAX_DELIM_NEST ->
  (forall us t, us ++ t = cs ++ r -> closes d us <-> exists s, us = cs ++ s /\ closes d' s) ->
  cs <> [] /\ 1 <= d' <= MAX_DELIM_NEST /\ forall res ds r', cs ++ r = cs ++ ds ++ r' ->
    segment_spec (consume cs l) d' (ds ++ r') res ds -> segment_spec l d (cs ++ r) res (cs ++ ds).
Proof using Type.
  intros Hcs Hd' Hc. split; [done|]. split; [done|]. intros res ds r' E. apply app_inv_head in E. subst r.
  unfold segment_spec. destruct res as [p|].
  - intros [H ->]. split; [|simpl; rewrite blen_app; lia]. apply (Hc (cs ++ ds) r'); [by rewrite <-(assoc_L (++))|eauto].
  - intros H us t E Hcl. destruct (proj1 (Hc us t (eq_sym E)) Hcl) as (s & -> & Hs).
    rewrite <-(assoc_L (++)) in E. apply app_inv_head in E. by apply (H s t).
Qed.
Lemma closes_head d d' c r : (forall s, closes d (c :: s) <-> closes d' s) ->
  forall us t, us ++ t = [c] ++ r -> closes d us <-> exists s, us = [c] ++ s /\ closes d' s.
Proof using Type.
  intros H us t E. destruct us as [|x us]; simpl in E.
  - split; [by intros ?%closes_nonempty|by intros (s & ? & _)].
  - injection E as -> _. rewrite H. split; [eauto|]. by intros (s & [= <-] & ?).
Qed.
Lemma closes_escape_head d x r us t : us ++ t = [c_backslash; x] ++ r ->
  closes d us <-> exists s, us = [c_backslash; x] ++ s /\ closes d s.
Proof using Hcb Hob Hoc.
  intros E. split.
  - intros H. destruct us as [|y us]; [by apply closes_nonempty in H|]. injection E as -> E.
    apply closes_cons_inv in H as (x' & s & -> & Hs). injection E as -> _. eauto.
  - intros (s & -> & Hs). by apply closes_escape.
Qed.

Ltac eqb_cases := repeat match goal with
  | |- context [?x =? ?x] => rewrite Z.eqb_refl
  | H : ?x <> ?y |- context [?x =? ?y] => rewrite (proj2 (Z.eqb_neq x y) H)
  | H : ?y <> ?x |- context [?x =? ?y] => rewrite (proj2 (Z.eqb_neq x y) (not_eq_sym H))
  end.
Lemma segment_step_reads l d b r a : view l b r a -> 1 <= d <= MAX_DELIM_NEST ->
  reads (segment_step open close terminator d) l r (fun x cs =>
    match x with
    | inr res => segment_spec l d r res cs
    | inl d' => cs <> [] /\ 1 <= d' <= MAX_DELIM_NEST /\ forall res ds r', r = cs ++ ds ++ r' ->
        segment_spec (consume cs l) d' (ds ++ r') res ds -> segment_spec l d r res (cs ++ ds)
    end).
Proof using Hcb Hob Hoc.
  intros Hv Hd. unfold segment_step. eapply reads_current; [exact Hv|]. destruct r as [|c r]; simpl.
  { apply reads_ret. intros ds t E. destruct ds; [|done]. intros H. by apply closes_nonempty in H. }
  assert (Hinv := closes_cons_inv d c).
  destruct (Z.eqb_spec c c_backslash) as [->|Hb]; [|destruct (Z.eqb_spec c open) as [->|Ho];
    [|destruct (Z.eqb_spec c close) as [->|Hc]; [|destruct (is_char terminator c) eqn:Ht]]].
  - eapply reads_advance; [exact Hv|]. intros Hv1. eapply reads_current; [exact Hv1|]. destruct r as [|x r]; simpl.
    + apply reads_ret_bind, reads_ret. apply (segment_go_on l d d [c_backslash] []); [done|done|]. intros us t E. split.
      * intros H. destruct us as [|y us]; [by apply closes_nonempty in H|]. injection E as -> E.
        apply Hinv in H as (x & s & -> & _). done.
      * intros (s & -> & Hs). simpl in E. injection E as E. destruct s; [by apply closes_nonempty in Hs|done].
    + eapply reads_advance; [exact Hv1|]. intros _. apply reads_ret.
      apply (segment_go_on l d d [c_backslash; x] r); [done|done|]. apply closes_escape_head.
  - unfold consume_nested_opener. destruct (Z.leb_spec MAX_DELIM_NEST d).
    + apply reads_ret. intros [|x ds] t E Hcl; [by apply closes_nonempty in Hcl|]. injection E as <- _. apply Hinv in Hcl as [? _]. lia.
    + apply reads_assoc. eapply reads_advance; [exact Hv|]. intros _. apply reads_ret_bind, reads_ret.
      apply (segment_go_on l d (d + 1) [open] r); [done|lia|]. apply closes_head. intros s.
      split; [by intros [_ ?]%Hinv|intros ?; by apply closes_open].
  - eapply reads_advance; [exact Hv|]. intros _.
    eapply reads_asks; [unfold usize_sub; apply arith_Ret; unfold MAX_DELIM_NEST, usize_max in *; lia|].
    destruct (Z.eqb_spec (d - 1) 0).
    + apply reads_look, reads_ret. assert (d = 1) as -> by lia. split; [constructor|]. simpl. lia.
    + apply reads_ret. apply (segment_go_on l d (d - 1) [close] r); [done|lia|]. apply closes_head. intros s.
      split; [intros [[? _]|[_ ?]]%Hinv; [lia|done]|intros ?; apply closes_close; [lia|done]].
  - apply reads_ret. intros [|x ds] t E Hcl; [by apply closes_nonempty in Hcl|]. injection E as <- _. apply Hinv in Hcl as [Hn _].
    apply Hn. unfold is_char, is_some_and in Ht. destruct terminator as [y|]; [|done]. apply Z.eqb_eq in Ht. by subst.
  - eapply reads_advance; [exact Hv|]. intros _. apply reads_ret.
    apply (segment_go_on l d d [c] r); [done|done|]. apply closes_head. intros s. split; [by intros [_ ?]%Hinv|].
    intros Hs. apply closes_plain; try done. intros E. unfold is_char, is_some_and in Ht. rewrite E, Z.eqb_refl in Ht. done.
Qed.

Lemma consume_balanced_reads l b r a : view l b r a ->
  reads (consume_balanced_segment_in_string_with_terminator open close terminator) l r (fun res cs =>
    match res with
    | Some p => p = Lexer.position l + blen cs /\ exists s, cs = open :: s ++ [close] /\ enclosed 1 s
    | None => forall s t, r = open :: s ++ close :: t -> ~ enclosed 1 s
    end).
Proof using Hcb Hob Hoc.
  intros Hv. unfold consume_balanced_segment_in_string_with_terminator. eapply reads_current; [exact Hv|].
  destruct r as [|c r]; simpl; [by apply reads_ret; intros s t E|].
  destruct (Z.eqb_spec open c) as [<-|Hc]; simpl; [|by apply reads_ret; intros s t [= ->]].
  eapply reads_advance; [exact Hv|]. intros Hv1.
  eapply reads_mono; [|apply (reads_looping (fun _ => True) (fun d => 1 <= d <= MAX_DELIM_NEST)
    (segment_step open close terminator) segment_spec a) with (b := b ++ [open]); [done| |exact Hv1|done|unfold MAX_DELIM_NEST; lia]].
  - intros [p|] cs H; simpl in H.
    + destruct H as [H ->]. split; [simpl; lia|]. apply closes_enclosed in H as (s & t & -> & Hs & Ht & _); [|lia].
      rewrite Ht by done. eauto.
    + intros s t [= ->] Hs. apply (H (s ++ [close]) t); [by rewrite <-(assoc_L (++))|].
      apply enclosed_closes; [done|lia|constructor].
  - intros d l' b' r' Hv' _ Hd. by eapply segment_step_reads.
Qed.
End segments.

(** ** Names and runs *)

(** The tables agree with ASCII: a name starts with a letter. *)
Class UnicodeLaws `{Unicode} : Prop := xid_start_ascii : forall c, c < 128 -> is_xid_start c = is_ascii_alphabetic c.

Section names.
Context `{UnicodeLaws}.

Lemma qualified_glides terminator : glides (consume_qualified_identifier_in_string terminator).
Proof using Type.
  apply glides_looping. intros [] l b r a Hv Hf. unfold qualified_step. eapply reads_current; [exact Hv|].
  destruct r as [|c r]; simpl; [by apply reads_ret|].
  assert (Hpk : peek_char l 1 = Ret (if max_lookahead (Lexer.config l) <? 1 then None else zget (c :: r) 1))
    by (apply (peek_char_view _ _ _ _ _ Hv); unfold usize_max; lia).
  assert (Hone : forall k : unit -> scan (unit + unit), (forall x, k x = mret (inl tt)) ->
    reads (advance ≫= k) l (c :: r) (fun x cs => match x with inl _ => cs <> [] | inr _ => True end)).
  { intros k Hk. eapply reads_advance; [exact Hv|]. intros _. rewrite Hk. by apply reads_ret. }
  destruct (c =? c_apostrophe).
  - destruct (negb (is_char terminator c)); [eapply reads_asks; [exact Hpk|]|apply reads_ret_bind];
      (destruct (is_some_and _ _); [by apply Hone|by apply reads_ret]).
  - destruct (is_perl_identifier_continue c); [by apply Hone|].
    destruct (c =? c_colon); [eapply reads_asks; [exact Hpk|]|apply reads_ret_bind; by apply reads_ret]. simpl.
    destruct (_ && _); [|by apply reads_ret]. eapply reads_advance; [exact Hv|]. intros Hv1.
    destruct r as [|d r]; [eapply reads_advance_end|eapply reads_advance]; [exact Hv1|by apply reads_ret|exact Hv1|].
    intros _. by apply reads_ret.
Qed.
Lemma skip_while_glides p : glides (skip_while p).
Proof using Type.
  apply glides_looping. intros [] l b r a Hv Hf. eapply reads_current; [exact Hv|].
  destruct r as [|c r]; simpl; [by apply reads_ret|]. destruct (p c); [|by apply reads_ret].
  eapply reads_advance; [exact Hv|]. intros _. by apply reads_ret.
Qed.
Lemma advance_times_glides n : glides (advance_times n).
Proof using Type. induction n; simpl; [apply glides_ret|]. by apply glides_bind; [apply glides_advance|]. Qed.
Lemma balanced_glides open close terminator : open <> close -> open <> c_backslash -> close <> c_backslash ->
  glides (consume_balanced_segment_in_string_with_terminator open close terminator).
Proof using Type. intros H1 H2 H3 l b r a Hv _. eapply reads_mono; [|by eapply consume_balanced_reads]. done. Qed.

(** The byte loop stays inside the characters left: a limit is behind a line
    end, which no identifier contains. *)
Definition stops (r a : list Z) : Prop := a = [] \/ exists c, c ∈ r /\ (c = 10 \/ c = 13).
Lemma fenced_stops c r a : fenced (c :: r) a -> stops (c :: r) a.
Proof using Type.
  intros [?|Hl]; [by left|right]. destruct (last (c :: r)) as [x|] eqn:E; [|by apply last_None in E].
  exists x. split; [|auto]. apply last_Some in E as [r' ->]. apply elem_of_app. right. apply list_elem_of_here.
Qed.
Lemma identifier_bytes_reads l b r a : view l b r a -> stops r a ->
  reads identifier_bytes l r (fun _ cs => forall c, head r = Some c -> is_perl_identifier_start c = true -> cs <> []).
Proof using Type*.
  intros Hv Hs. apply (reads_looping_inv (fun _ _ r => stops r a) identifier_step
    (fun _ _ r _ cs => forall c, head r = Some c -> is_perl_identifier_start c = true -> cs <> []) a) with (b := b); [|done|done].
  clear l b r Hv Hs. intros [] l b r Hv Hs. unfold identifier_step. apply reads_look. simpl.
  destruct r as [|c r].
  - destruct Hs as [->|(c & Hc & _)]; [|by apply elem_of_nil in Hc].
    destruct (view_bounds _ _ _ _ Hv) as (_ & Hl & _). pose proof (view_limit _ _ _ _ Hv) as E.
    rewrite (view_len _ _ _ _ Hv), (view_position _ _ _ _ Hv). simpl. rewrite (proj2 (Z.ltb_ge _ _)) by lia. by apply reads_ret.
  - pose proof (view_lt _ _ _ _ Hv) as Hlt. simpl in Hlt. destruct (view_bounds _ _ _ _ Hv) as (Hp0 & Hl & Hm).
    destruct (view_byte _ _ _ _ _ Hv) as (x & E & Hx & Hcx). pose proof (zget_Some_lt _ _ _ E) as Hb.
    unfold id. rewrite (proj2 (Z.ltb_lt _ _)) by lia. eapply reads_asks; [unfold index; by rewrite E|].
    assert (Hnl : c = 10 \/ c = 13 -> is_ascii_alphanumeric x = false /\ (x =? c_underscore) = false /\ (128 <=? x) = false).
    { intros Hc. rewrite (Hcx ltac:(lia)). destruct Hc as [->| ->]; done. }
    assert (Hst : forall r', r = r' -> ~ (c = 10 \/ c = 13) -> stops r' a).
    { intros r' <- Hn. destruct Hs as [?|(y & Hy & Hyn)]; [by left|right]. exists y. split; [|done].
      apply elem_of_cons in Hy as [->|?]; done. }
    destruct (is_ascii_alphanumeric x || (x =? c_underscore)) eqn:Ea.
    + assert (Hxs : x < 128).
      { apply orb_true_iff in Ea as [Ea|Ea]; [|apply Z.eqb_eq in Ea; unfold c_underscore in Ea; lia].
        unfold is_ascii_alphanumeric, is_ascii_digit, is_ascii_alphabetic, between in Ea. bcase_all; lia. }
      assert (Hc : c < 128) by (apply Z.ltb_lt; rewrite <-Hx; by apply Z.ltb_lt).
      assert (Hw : len_utf8 c = 1) by (unfold len_utf8; bcase).
      eapply reads_asks; [apply usize_small; destruct Hb; unfold isize_max in *; pose proof (view_small _ _ _ _ Hv) as Hsm;
        rewrite <-len_encode, <-(view_input _ _ _ _ Hv) in Hsm; unfold isize_max in Hsm; lia|].
      exists (inl tt), [c], r. split; [done|]. split; [unfold consume; simpl; by rewrite Hw|]. split; [done|]. split; [|done].
      intros r' [= Er]. apply Hst; [done|]. intros Hn. destruct (Hnl Hn) as (H1 & H2 & _). by rewrite H1, H2 in Ea.
    + destruct (128 <=? x) eqn:Ex.
      * eapply reads_current; [exact Hv|]. simpl. destruct (is_perl_identifier_continue c) eqn:Ec.
        -- eapply reads_advance; [exact Hv|]. intros _. apply reads_ret. split; [done|]. split; [|done].
           intros r' [= Er]. apply Hst; [done|]. intros Hn. destruct (Hnl Hn) as (_ & _ & H3). congruence.
        -- apply reads_ret. intros d [= <-] Hid. unfold is_perl_identifier_continue in Ec. by rewrite Hid in Ec.
      * apply reads_ret. intros d [= <-] Hid. exfalso. apply Z.leb_gt in Ex.
        assert (Hc : c < 128) by (apply Z.ltb_lt; rewrite <-Hx; by apply Z.ltb_lt). rewrite (Hcx Hc) in Ea.
        unfold is_perl_identifier_start in Hid. rewrite xid_start_ascii in Hid by done.
        unfold is_ascii_alphanumeric in Ea. apply orb_false_iff in Ea as [Ea1 Ea2]. apply orb_false_iff in Ea1 as [_ Ea1].
        unfold c_underscore in Ea2. rewrite Ea1, Ea2 in Hid. simpl in Hid. unfold is_emoji_codepoint, between in Hid. bcase_all; lia.
Qed.
End names.

(** ** The parts spell the text *)

Definition part_text (p : StringPart) : list Z :=
  match p with PartLiteral s | PartVariable s | PartExpression s | PartMethodCall s | PartArraySlice s => s end.
Definition spelled (bk : bucket) : list Z := concat (part_text <$> bk.1) ++ bk.2.

Lemma spelled_part bk k s : bk.2 = [] -> part_text (k s) = s -> spelled (bk.1 ++ [k s], bk.2) = spelled bk ++ s.
Proof. intros E Hk. unfold spelled. simpl. rewrite E, fmap_app, concat_app. simpl. rewrite Hk, !app_nil_r. done. Qed.
Lemma spelled_literal bk s : spelled (push_literal s bk) = spelled bk ++ s.
Proof. unfold spelled, push_literal. simpl. by rewrite (assoc_L (++)). Qed.
Lemma spelled_flush bk : spelled (flush_literal bk) = spelled bk /\ (flush_literal bk).2 = [].
Proof.
  destruct bk as [ps s]. unfold flush_literal. simpl. destruct s as [|x s]; [done|]. split; [|done].
  unfold spelled. simpl. rewrite fmap_app, concat_app. simpl. by rewrite !app_nil_r.
Qed.
Lemma concat_flush bk : concat (part_text <$> (flush_literal bk).1) = spelled bk.
Proof. destruct (spelled_flush bk) as [<- E]. unfold spelled. by rewrite E, app_nil_r. Qed.

Lemma text_from_view l b0 mid r a : view l (b0 ++ mid) r a -> text_from (blen b0) l = Ret (encode mid, l).
Proof.
  intros [H1 H2 H3 _ _]. unfold text_from, asks. rewrite H2, H3, blen_app, <-(assoc_L (++)) in *.
  by rewrite str_index_mid.
Qed.
(** A sub-scan and the part of its text. *)
Definition spells (m : scan bucket) (l : PerlLexer) (r : list Z) (bk : bucket) (mid : list Z) : Prop :=
  reads m l r (fun bk' cs => spelled bk' = spelled bk ++ encode (mid ++ cs)).
Lemma push_part_reads {B} k (f : bucket -> scan B) l b0 mid r a bk P : view l (b0 ++ mid) r a ->
  reads (f (bk.1 ++ [k (encode mid)], bk.2)) l r P -> reads (push_part k (blen b0) bk ≫= f) l r P.
Proof.
  intros Hv (x & cs & r' & E1 & E2 & HP). exists x, cs, r'. split; [done|]. split; [|done].
  unfold push_part, mbind, scan_bind. by rewrite (text_from_view _ _ _ _ _ Hv).
Qed.
Lemma spells_push k l b0 mid r a bk : view l (b0 ++ mid) r a -> bk.2 = [] -> (forall s, part_text (k s) = s) ->
  spells (push_part k (blen b0) bk) l r bk mid.
Proof.
  intros Hv Hb Hk. exists (bk.1 ++ [k (encode mid)], bk.2), [], r. split; [done|]. rewrite consume_nil. split.
  - unfold push_part, mbind, scan_bind. by rewrite (text_from_view _ _ _ _ _ Hv).
  - rewrite app_nil_r. by apply spelled_part.
Qed.
Lemma spells_glide {A} (m : scan A) (f : A -> scan bucket) l b0 mid r a bk :
  glides m -> view l (b0 ++ mid) r a -> fenced r a ->
  (forall x cs r', r = cs ++ r' -> view (consume cs l) (b0 ++ mid ++ cs) r' a -> fenced r' a ->
     spells (f x) (consume cs l) r' bk (mid ++ cs)) ->
  spells (m ≫= f) l r bk mid.
Proof.
  intros Hm Hv Hf H. unfold spells. eapply reads_bind; [exact Hv|by eapply Hm|]. intros x cs r' -> Hv' _.
  rewrite <-(assoc_L (++)) in Hv'. eapply reads_mono; [|apply H; [done|exact Hv'|by eapply fenced_suffix]].
  intros bk' ds. by rewrite (assoc_L (++)).
Qed.
(** A part, and what the rest adds. *)
Lemma spells_part k (f : bucket -> scan bucket) l b0 mid r a bk :
  view l (b0 ++ mid) r a -> bk.2 = [] -> (forall s, part_text (k s) = s) ->
  (forall bk', bk'.2 = [] -> spells (f bk') l r bk' []) ->
  spells (push_part k (blen b0) bk ≫= f) l r bk mid.
Proof.
  intros Hv Hb Hk Hf. eapply push_part_reads; [exact Hv|]. eapply reads_mono; [|apply (Hf (bk.1 ++ [k (encode mid)], bk.2)); done].
  intros bk' cs ->. change ([] ++ cs) with cs. by rewrite (spelled_part bk k _ Hb (Hk _)), encode_app, (assoc_L (++)).
Qed.
Lemma spells_ret_part l r bk : spells (mret bk) l r bk [].
Proof. apply reads_ret. by rewrite app_nil_r. Qed.
Lemma spells_literal l r bk mid : spells (mret (push_literal (encode mid) bk)) l r bk mid.
Proof. apply reads_ret. by rewrite spelled_literal, app_nil_r. Qed.
Lemma spells_char c l r bk : spells (mret (push_literal (encode_char c) bk)) l r bk [c].
Proof. apply reads_ret. rewrite spelled_literal. simpl. by rewrite app_nil_r. Qed.
Lemma spells_current (k : option Z -> scan bucket) l b r a bk mid :
  view l b r a -> spells (k (head r)) l r bk mid -> spells (asks current_char ≫= k) l r bk mid.
Proof. apply reads_current. Qed.
Lemma spells_look {A} (f : PerlLexer -> A) (k : A -> scan bucket) l r bk mid :
  spells (k (f l)) l r bk mid -> spells (look f ≫= k) l r bk mid.
Proof. done. Qed.
Lemma spells_asks {A} (f : PerlLexer -> outcome A) (k : A -> scan bucket) l b r a bk mid :
  view l b r a -> fenced r a -> glides (asks f) -> (forall x, f l = Ret x -> spells (k x) l r bk mid) -> spells (asks f ≫= k) l r bk mid.
Proof.
  intros Hv Hf Hg Hk. destruct (Hg _ _ _ _ Hv Hf) as (x & cs & r' & _ & E & _). unfold asks in E. destruct (f l) as [y|] eqn:Ef; [|done].
  eapply reads_asks; [exact Ef|]. by apply Hk.
Qed.
Lemma spells_if_asks {A} (c : bool) (f : PerlLexer -> outcome A) (d : A) (k : A -> scan bucket) l b r a bk mid :
  view l b r a -> fenced r a -> glides (asks f) -> (forall x, spells (k x) l r bk mid) ->
  spells ((if c then asks f else mret d) ≫= k) l r bk mid.
Proof. intros Hv Hf Hg Hk. destruct c; [by eapply spells_asks|]. apply reads_ret_bind, Hk. Qed.

Lemma brace_glides t : glides (consume_balanced_segment_in_string_with_terminator c_lbrace c_rbrace t).
Proof. by apply balanced_glides. Qed.
Lemma bracket_glides t : glides (consume_balanced_segment_in_string_with_terminator c_lbracket c_rbracket t).
Proof. by apply balanced_glides. Qed.
Lemma paren_glides t : glides (consume_balanced_segment_in_string_with_terminator c_lparen c_rparen t).
Proof. by apply balanced_glides. Qed.
Lemma arrow_glides : glides (asks (fun l => matches_bytes l [45; 62])).
Proof. by apply glides_matches. Qed.
Lemma peek_1_glides : glides (asks (fun l => peek_char l 1)).
Proof. by apply glides_peek. Qed.
Lemma peek_byte_2_glides : glides (asks (fun l => peek_byte l 2)).
Proof. by apply glides_peek_byte. Qed.
#[export] Hint Resolve brace_glides bracket_glides paren_glides arrow_glides peek_1_glides peek_byte_2_glides
  qualified_glides skip_while_glides advance_times_glides : glide.

(** One step of a scan whose parts are to spell its text. *)
Ltac spell_step :=
  match goal with
  | |- spells (push_part _ (Lexer.position ?l) _ ≫= _) _ _ _ _ => idtac
  | |- spells (push_part _ _ _) _ _ _ _ => eapply spells_push; [eassumption|assumption|reflexivity]
  | |- spells (push_part _ _ _ ≫= _) _ _ _ _ => eapply spells_part; [eassumption|assumption|reflexivity|intros ? ?]
  | |- spells (if ?b then _ else _) _ _ _ _ => destruct b eqn:?
  | |- spells (_ ≫= _) _ _ _ _ => eapply spells_glide; [solve [glide]|eassumption|assumption|intros ? ? ? -> ? ?]
  end.

Section spelling.
Context `{UnicodeLaws}.

Lemma view_nil l b r a : view l b r a -> view l (b ++ []) r a.
Proof using Type. by rewrite app_nil_r. Qed.

Lemma subscript_tail_spells t l b r a bk : view l b r a -> fenced r a -> bk.2 = [] -> spells (subscript_tail t bk) l r bk [].
Proof using Type*.
  intros Hv%view_nil Hf Hb. unfold subscript_tail. eapply spells_current; [exact Hv|].
  assert (Hp : Lexer.position l = blen b) by (rewrite (view_position _ _ _ _ Hv), app_nil_r; done).
  repeat (first [apply spells_look; rewrite Hp | spell_step]). apply spells_ret_part.
Qed.
Lemma scan_at_spells t l b0 mid r a bk : mid = [c_at] -> view l (b0 ++ mid) r a -> fenced r a -> bk.2 = [] ->
  spells (scan_at_island_tail (blen b0) t bk) l r bk mid.
Proof using Type*.
  intros Hm Hv Hf Hb. unfold scan_at_island_tail. eapply spells_current; [exact Hv|].
  eapply spells_if_asks; [exact Hv|exact Hf|apply peek_1_glides|intros next].
  repeat spell_step; try (eapply subscript_tail_spells; eassumption).
  subst mid. apply spells_char.
Qed.

(** Behind [->]: the part, or the literal text, starts at the arrow. *)
Lemma position_view l b r a : view l b r a -> Lexer.position l = blen b.
Proof using Type. by intros []. Qed.
Lemma spells_text l b0 mid r a bk : view l (b0 ++ mid) r a ->
  spells (tail ← text_from (blen b0); mret (push_literal tail bk)) l r bk mid.
Proof using Type.
  intros Hv. exists (push_literal (encode mid) bk), [], r. split; [done|]. rewrite consume_nil. split.
  - unfold mbind, scan_bind. by rewrite (text_from_view _ _ _ _ _ Hv).
  - by rewrite spelled_literal, app_nil_r.
Qed.
Lemma spells_identifier (f : unit -> scan bucket) l b0 mid r a bk :
  view l (b0 ++ mid) r a -> fenced r a -> is_some_and (head r) is_perl_identifier_start = true ->
  (forall cs r', cs <> [] -> r = cs ++ r' -> view (consume cs l) (b0 ++ mid ++ cs) r' a -> fenced r' a ->
     spells (f tt) (consume cs l) r' bk (mid ++ cs)) ->
  spells (identifier_bytes ≫= f) l r bk mid.
Proof using Type*.
  intros Hv Hf Hc Hk. destruct r as [|c r]; [done|]. eapply reads_bind; [exact Hv|eapply identifier_bytes_reads; [exact Hv|by apply fenced_stops]|].
  intros [] cs r' E Hv' Hn. rewrite <-(assoc_L (++)) in Hv'.
  eapply reads_mono; [|apply (Hk cs r'); [by apply (Hn c)|exact E|exact Hv'|rewrite E in Hf; by eapply fenced_suffix]].
  intros bk' ds. by rewrite (assoc_L (++)).
Qed.
Lemma arrow_tail_spells t l b r a bk : view l b r a -> fenced r a -> bk.2 = [] -> spells (arrow_tail t bk) l r bk [].
Proof using Type*.
  intros Hv%view_nil Hf Hb. unfold arrow_tail. apply spells_look. rewrite (position_view _ _ _ _ Hv), app_nil_r.
  spell_step. spell_step. eapply spells_current; [eassumption|]. repeat spell_step; try (eapply spells_text; eassumption).
  eapply spells_identifier; [eassumption..|]. intros ds r' _ _ Hv1 _. by eapply spells_text.
Qed.
Lemma scan_variable_spells t l b0 mid r a bk : view l (b0 ++ mid) r a -> fenced r a -> bk.2 = [] ->
  is_some_and (head r) is_perl_identifier_start = true -> spells (scan_variable_with_tails (blen b0) t bk) l r bk mid.
Proof using Type*.
  intros Hv Hf Hb Hc. unfold scan_variable_with_tails. apply spells_look. eapply spells_identifier; [eassumption..|].
  intros cs r' Hcs -> Hv' Hf'. apply spells_look. simpl.
  destruct (Z.eqb_spec (Lexer.position l + blen cs) (Lexer.position l)) as [E|_].
  { destruct cs as [|c cs]; [done|]. simpl in E. pose proof (len_utf8_pos c). pose proof (blen_nonneg cs). lia. }
  spell_step. eapply spells_part; [eassumption|assumption|reflexivity|intros bk' Hb'].
  eapply spells_asks; [eassumption|assumption|apply arrow_glides|intros [] _];
    [eapply arrow_tail_spells|eapply subscript_tail_spells]; eassumption.
Qed.

(** A run of sigils is made of dollars. *)
Lemma dollar_run_reads l b r a : view l b r a -> exists n, dollar_run_length l = Ret (Z.of_nat n, l) /\
  take n r = replicate n c_dollar /\ (n <= length r)%nat.
Proof using Type.
  intros Hv. unfold dollar_run_length.
  assert (Hrun : forall fuel n, (length r < n + fuel)%nat -> take n r = replicate n c_dollar -> (n <= length r)%nat ->
    exists m, dollar_run fuel (Z.of_nat n) l = Ret (Z.of_nat m, l) /\ take m r = replicate m c_dollar /\ (m <= length r)%nat).
  { pose proof (view_small _ _ _ _ Hv) as Hsm. rewrite !blen_app in Hsm.
    pose proof (len_le_blen r) as Hlen.
    pose proof (blen_nonneg b). pose proof (blen_nonneg a).
    induction fuel as [|fuel IH]; intros n Hn Ht Hle; simpl; [lia|]. unfold mbind, scan_bind, asks.
    rewrite (peek_char_view _ _ _ _ _ Hv) by (unfold len, isize_max, usize_max in *; lia).
    destruct (is_char _ _) eqn:Ec; [|eauto]. destruct (_ <? _); [done|].
    unfold is_char, is_some_and, zget in Ec. rewrite (proj2 (Z.leb_le _ _)), Nat2Z.id in Ec by lia.
    destruct (r !! n) as [c|] eqn:E; [|done]. apply Z.eqb_eq in Ec as <-.
    replace (Z.of_nat n + 1) with (Z.of_nat (S n)) by lia. pose proof (lookup_lt_Some _ _ _ E). apply IH; [lia| |lia].
    rewrite (take_S_r _ _ _ E), Ht. by rewrite replicate_S_end. }
  apply (Hrun (S (length (Lexer.input l))) 0%nat); [|done|lia].
  rewrite (view_input _ _ _ _ Hv), !encode_app, !length_app. pose proof (len_encode r) as E.
  pose proof (len_le_blen r) as Hlen.
  unfold len in *. lia.
Qed.
Lemma dollar_run_peek l b r a n : view l b r a -> (n <= length r)%nat -> glides (asks (fun l => peek_char l (Z.of_nat n))).
Proof using Type.
  intros Hv Hn. apply glides_peek. pose proof (view_small _ _ _ _ Hv) as Hsm. rewrite !blen_app in Hsm.
  pose proof (len_le_blen r). pose proof (blen_nonneg b). pose proof (blen_nonneg a). unfold len, isize_max, usize_max in *. lia.
Qed.
Lemma scan_dereference_spells t l b0 mid r a bk : view l (b0 ++ mid) r a -> fenced r a -> bk.2 = [] ->
  spells (scan_dereference (blen b0) t bk) l r bk mid.
Proof using Type*.
  intros Hv Hf Hb. unfold scan_dereference. destruct (dollar_run_reads _ _ _ _ Hv) as (n & En & _ & Hn).
  assert (Hpk := dollar_run_peek _ _ _ _ _ Hv Hn).
  unfold spells. eapply reads_step; [exact En|]. fold (spells (scan_dereference (blen b0) t bk) l r bk mid).
  eapply spells_asks; [exact Hv|exact Hf|exact Hpk|intros after_run _]. rewrite Nat2Z.id.
  spell_step; [repeat spell_step|]. spell_step; [|repeat spell_step].
  spell_step. spell_step. eapply spells_part; [eassumption|assumption|reflexivity|intros bk' Hb'].
  match goal with Hv' : view (consume _ _) _ _ _ |- _ => rename Hv' into Hw end.
  eapply spells_asks; [exact Hw|assumption|apply arrow_glides|intros arrow _].
  eapply spells_if_asks; [exact Hw|assumption|apply peek_byte_2_glides|intros b2].
  spell_step; [|eapply subscript_tail_spells; [exact Hw|assumption..]].
  apply spells_look. rewrite (position_view _ _ _ _ Hw). apply view_nil in Hw.
  do 2 spell_step. eapply spells_current; [eassumption|]. repeat spell_step.
Qed.

Lemma scan_dollar_spells t l b0 mid r a bk : mid = [c_dollar] -> view l (b0 ++ mid) r a -> fenced r a -> bk.2 = [] ->
  spells (scan_dollar_island_tail (blen b0) t bk) l r bk mid.
Proof using Type*.
  intros Hm Hv Hf Hb. unfold scan_dollar_island_tail. eapply spells_current; [exact Hv|].
  eapply spells_if_asks; [exact Hv|exact Hf|apply peek_1_glides|intros next].
  repeat spell_step; subst mid; try apply spells_char.
  all: first [eapply scan_variable_spells; eassumption | eapply scan_dereference_spells; eassumption].
Qed.

Definition is_sigil (c : Z) : bool := (c =? c_dollar) || (c =? c_at).
(** An island is consumed, sigil and all, and its parts spell it. *)
Lemma island_spells t l b c r a bk : view l b (c :: r) a -> fenced (c :: r) a -> is_sigil c = true -> bk.2 = [] ->
  reads (scan_interpolation_island c t bk) l (c :: r) (fun bk' cs => cs <> [] /\ spelled bk' = spelled bk ++ encode cs).
Proof using Type*.
  intros Hv Hf Hc Hb. unfold scan_interpolation_island. apply reads_look. rewrite (position_view _ _ _ _ Hv).
  eapply reads_advance; [exact Hv|]. intros Hv'. apply (fenced_suffix [c]) in Hf.
  assert (Hs : spells (if c =? c_at then scan_at_island_tail (blen b) t bk else scan_dollar_island_tail (blen b) t bk)
            (consume [c] l) r bk [c]).
  { destruct (Z.eqb_spec c c_at) as [->|Hne]; [by eapply scan_at_spells|]. eapply scan_dollar_spells; [|eassumption..].
    unfold is_sigil in Hc. destruct (Z.eqb_spec c c_dollar) as [->|]; [done|]. by rewrite (proj2 (Z.eqb_neq _ _)) in Hc. }
  eapply reads_mono; [|exact Hs]. intros bk' cs E. done.
Qed.

(** ** Bodies in delimiters *)

(** What the body's scan promises from a state: the parts spell what was read
    up to the close, or all that was left. *)
Definition body_spec (close : Z) (bk : bucket) (r : list Z) (res : list StringPart * bool) (cs : list Z) : Prop :=
  exists body, concat (part_text <$> res.1) = spelled bk ++ encode body /\
    cs = body ++ (if res.2 then [close] else []) /\ (res.2 = false -> cs = r).
Lemma body_go_on close bk bk' cs ds r res :
  spelled bk' = spelled bk ++ encode cs -> body_spec close bk' (ds ++ r) res ds ->
  body_spec close bk (cs ++ ds ++ r) res (cs ++ ds).
Proof using Type.
  intros E (body & E1 & E2 & E3). exists (cs ++ body). rewrite encode_app, (assoc_L (++)), <-E. split; [done|].
  split; [by rewrite E2, (assoc_L (++))|]. intros Hc. rewrite <-(E3 Hc). done.
Qed.
Lemma body_end close bk r (b : bool) cs : cs = (if b then [close] else []) -> (b = false -> r = []) -> body_spec close bk r ((flush_literal bk).1, b) cs.
Proof using Type.
  intros -> Hr. exists []. simpl. rewrite concat_flush, app_nil_r. split; [done|]. split; [done|]. intros ->. by rewrite Hr.
Qed.

(** The nesting is an [i32], and a body of fewer characters cannot wrap it. *)
Definition first_depth (delim : Z) : Z := match paired_close delim with Some _ => 1 | None => 0 end.
Definition depth_fits (delim : Z) (st : bucket * Z) (r : list Z) : Prop := first_depth delim <= st.2 /\ st.2 + len r <= i32_max.
(** A round over [cs]: the parts spell it, or the body has ended. *)
Definition round (delim : Z) (bk : bucket) (r : list Z) (x : bucket * Z + list StringPart * bool) (cs : list Z) : Prop :=
  match x with
  | inr res => body_spec (default delim (paired_close delim)) bk r res cs
  | inl st => cs <> [] /\ spelled st.1 = spelled bk ++ encode cs /\ forall r', r = cs ++ r' -> depth_fits delim st r'
  end.
Lemma round_literal delim bk depth d l b ch r a : view l b (ch :: r) a -> depth_fits delim (bk, depth) (ch :: r) ->
  first_depth delim <= d <= depth + 1 ->
  reads (advance ≫= fun _ => mret (inl (push_literal (encode_char ch) bk, d))) l (ch :: r) (round delim bk (ch :: r)).
Proof using Type.
  intros Hv [_ Hfit] Hd. eapply reads_advance; [exact Hv|]. intros _. apply reads_ret. split; [done|]. split.
  - simpl. rewrite spelled_literal. simpl. by rewrite app_nil_r.
  - intros r' [= <-]. unfold depth_fits. rewrite len_cons in Hfit. simpl in *. lia.
Qed.
Lemma round_end delim bk l b ch r a : view l b (ch :: r) a -> ch = default delim (paired_close delim) ->
  reads (advance ≫= fun _ => mret (inr ((flush_literal bk).1, true))) l (ch :: r) (round delim bk (ch :: r)).
Proof using Type.
  intros Hv ->. eapply reads_advance; [exact Hv|]. intros _. apply reads_ret. by apply body_end.
Qed.
Lemma round_escape delim bk depth l b ch r a : view l b (ch :: r) a -> depth_fits delim (bk, depth) (ch :: r) ->
  reads (advance ≫= fun _ => c ← asks current_char; match c with
    | Some next => _ ← advance; mret (inl (push_literal (encode_char next) (push_literal (encode_char ch) bk), depth))
    | None => mret (inl (push_literal (encode_char ch) bk, depth))
    end) l (ch :: r) (round delim bk (ch :: r)).
Proof using Type.
  intros Hv Hfit. pose proof Hfit as [Hd Hd']. simpl in Hd, Hd'. eapply reads_advance; [exact Hv|]. intros Hv1.
  eapply reads_current; [exact Hv1|]. rewrite len_cons in Hd'. destruct r as [|x r]; simpl.
  - apply reads_ret. split; [done|]. split; [simpl; rewrite spelled_literal; simpl; by rewrite app_nil_r|].
    intros r' [= <-]. unfold depth_fits, len in *. simpl in *. lia.
  - eapply reads_advance; [exact Hv1|]. intros _. apply reads_ret. split; [done|]. split.
    + simpl. rewrite !spelled_literal. simpl. by rewrite app_nil_r, (assoc_L (++)).
    + intros r' [= <-]. unfold depth_fits. rewrite len_cons in *. simpl. lia.
Qed.
Lemma round_island delim bk depth t l b ch r a : view l b (ch :: r) a -> fenced (ch :: r) a -> is_sigil ch = true ->
  depth_fits delim (bk, depth) (ch :: r) ->
  reads (scan_interpolation_island ch t (flush_literal bk) ≫= fun bk => mret (inl (bk, depth))) l (ch :: r) (round delim bk (ch :: r)).
Proof using Type*.
  intros Hv Hf Hs [Hd Hd']. destruct (spelled_flush bk) as [E1 E2].
  eapply reads_bind; [exact Hv|eapply island_spells; [exact Hv|exact Hf|exact Hs|exact E2]|].
  intros bk' cs r' E Hv' [Hcs Hsp]. apply reads_ret. rewrite app_nil_r. split; [done|]. split; [by rewrite <-E1|].
  intros r'' Er. unfold depth_fits. apply (f_equal len) in Er. rewrite len_app in Er. pose proof (len_nonneg cs). simpl in *. lia.
Qed.
Lemma delimited_step_reads delim bk depth l b r a : view l b r a -> fenced r a -> depth_fits delim (bk, depth) r ->
  reads (delimited_parts_step delim (bk, depth)) l r (round delim bk r).
Proof using Type*.
  intros Hv Hf Hfit. unfold delimited_parts_step. eapply reads_current; [exact Hv|].
  destruct r as [|ch r]; simpl; [apply reads_ret; by apply body_end|].
  pose proof Hfit as [Hd Hd']. rewrite len_cons in Hd'. simpl in Hd, Hd'. pose proof (len_nonneg r).
  assert (0 <= first_depth delim) by (unfold first_depth; case_match; lia).
  destruct (_ && _); [by eapply round_escape|].
  destruct (_ && _).
  { eapply reads_asks; [apply arith_Ret; unfold i32_max in Hd'; lia|]. eapply round_literal; [exact Hv|exact Hfit|lia]. }
  destruct (Z.eqb_spec ch (default delim (paired_close delim))) as [Hc|_].
  { destruct (bool_decide (is_Some _)) eqn:Hp; [|by eapply round_end]. apply bool_decide_eq_true in Hp as [x Hp].
    eapply reads_asks; [apply arith_Ret; unfold i32_max in Hd'; lia|].
    destruct (Z.eqb_spec (depth - 1) 0); [by eapply round_end|]. eapply round_literal; [exact Hv|exact Hfit|].
    unfold first_depth in *. rewrite Hp in *. lia. }
  apply reads_look. destruct (_ && _) eqn:Es; [|eapply round_literal; [exact Hv|exact Hfit|lia]].
  apply andb_true_iff in Es as [Es _]. by eapply round_island.
Qed.
Lemma read_delimited_reads delim l b r a : view l b r a -> fenced r a -> 1 + len r <= i32_max ->
  reads (read_delimited_body_with_parts delim) l r (body_spec (default delim (paired_close delim)) ([], []) r).
Proof using Type*.
  intros Hv Hf Hn. unfold read_delimited_body_with_parts.
  eapply (reads_looping_inv (fun _ st r => fenced r a /\ depth_fits delim st r) (delimited_parts_step delim)
    (fun _ st r => body_spec (default delim (paired_close delim)) st.1 r) a); [|exact Hv|].
  - clear l b r Hv Hf Hn. intros [bk depth] l b r Hv [Hf Hfit].
    destruct (delimited_step_reads delim bk depth l b r a Hv Hf Hfit) as (x & cs & r' & -> & E & HP).
    exists x, cs, r'. split; [done|]. split; [done|]. destruct x as [st|res]; [|done]. destruct HP as (H1 & H2 & H3). split; [done|]. split.
    + intros r'' E'. apply app_inv_head in E' as <-. split; [by eapply fenced_suffix|by apply H3].
    + intros res ds r'' ->%app_inv_head Hres. by eapply body_go_on.
  - split; [done|]. unfold depth_fits, first_depth. simpl. case_match; unfold i32_max in *; lia.
Qed.

(** ** The bodies of heredocs *)

Lemma body_left l b r a : view l b r a -> (Lexer.position l <? limit l) = bool_decide (r <> []).
Proof using Type. intros Hv. rewrite (view_lt _ _ _ _ Hv). by destruct r. Qed.
Definition heredoc_spec (bk : bucket) (r : list Z) (x : bucket + bucket) (cs : list Z) : Prop :=
  match x with
  | inr bk' => bk' = bk /\ r = [] /\ cs = []
  | inl bk' => cs <> [] /\ spelled bk' = spelled bk ++ encode cs
  end.
Lemma heredoc_step_reads bk l b r a : view l b r a -> fenced r a -> reads (heredoc_step (limit l) bk) l r (heredoc_spec bk r).
Proof using Type*.
  intros Hv Hf. unfold heredoc_step. apply reads_look. rewrite (body_left _ _ _ _ Hv).
  destruct r as [|ch r]; simpl; [by apply reads_ret|]. eapply reads_current; [exact Hv|]. simpl.
  assert (Hlit : forall c, encode [c] = encode_char c) by (intros c; simpl; by rewrite app_nil_r).
  destruct (ch =? c_backslash).
  - eapply reads_advance; [exact Hv|]. intros Hv1. apply reads_look.
    change (limit l) with (limit (consume [ch] l)). rewrite (body_left _ _ _ _ Hv1). destruct r as [|x r]; simpl.
    + apply reads_ret_bind, reads_ret. split; [done|]. by rewrite spelled_literal, Hlit.
    + eapply reads_current; [exact Hv1|]. simpl. eapply reads_advance; [exact Hv1|]. intros _. apply reads_ret.
      split; [done|]. rewrite !spelled_literal. simpl. by rewrite app_nil_r, (assoc_L (++)).
  - apply reads_look. destruct (_ && _) eqn:Es.
    + apply andb_true_iff in Es as [Es _]. destruct (spelled_flush bk) as [E1 E2].
      eapply reads_bind; [exact Hv|eapply island_spells; [exact Hv|exact Hf|exact Es|exact E2]|].
      intros bk' cs r' E Hv' [Hcs Hsp]. apply reads_ret. rewrite app_nil_r. split; [done|]. by rewrite <-E1.
    + eapply reads_advance; [exact Hv|]. intros _. apply reads_ret. split; [done|]. by rewrite spelled_literal, Hlit.
Qed.
Lemma heredoc_loop_reads e bk l b r a : view l b r a -> fenced r a -> limit l = e ->
  reads (looping (heredoc_step e) bk) l r (fun bk' cs => spelled bk' = spelled bk ++ encode cs /\ cs = r).
Proof using Type*.
  intros Hv Hf He. eapply (reads_looping_inv (fun l _ r => limit l = e /\ fenced r a) (heredoc_step e)
    (fun _ bk r bk' cs => spelled bk' = spelled bk ++ encode cs /\ cs = r) a); [|exact Hv|done].
  clear l b r bk Hv Hf He. intros bk l b r Hv [<- Hf].
  destruct (heredoc_step_reads bk l b r a Hv Hf) as (x & cs & r' & -> & E & HP).
  exists x, cs, r'. split; [done|]. split; [done|]. destruct x as [bk'|bk'].
  - destruct HP as [Hcs Hsp]. split; [done|]. split.
    + intros r'' E'. apply app_inv_head in E' as <-. split; [done|by eapply fenced_suffix].
    + intros res ds r'' ->%app_inv_head [-> <-]. by rewrite Hsp, encode_app, (assoc_L (++)).
  - destruct HP as (-> & E' & ->). simpl in *. subst. by rewrite app_nil_r.
Qed.
(** The body between two offsets, whatever the cursor. *)
Lemma heredoc_body_view l b body a : scalars (b ++ body ++ a) -> Lexer.input l = encode (b ++ body ++ a) ->
  blen (b ++ body ++ a) <= isize_max ->
  view (at_position (blen b) (with_scan_limit (Some (blen (b ++ body))) l)) b body a.
Proof using Type. intros H1 H2 H3. split; done. Qed.
(** Segmenting a heredoc body leaves the lexer as it was, wherever the
    cursor stands, and its parts spell the body, which ends with a line end
    or with the input. *)
Theorem heredoc_body_spells l b body a :
  scalars (b ++ body ++ a) -> Lexer.input l = encode (b ++ body ++ a) -> blen (b ++ body ++ a) <= isize_max -> fenced body a ->
  exists parts, segment_heredoc_body (blen b) (blen (b ++ body)) l = Ret (parts, l) /\ concat (part_text <$> parts) = encode body.
Proof using Type*.
  intros H1 H2 H3 Hf. unfold segment_heredoc_body, mbind, scan_bind, look, id, write.
  rewrite H2, len_encode, (blen_app b), (blen_app b (body ++ a)), (blen_app body).
  pose proof (blen_nonneg a). rewrite Z.min_l, <-blen_app by lia.
  destruct (parse_interpolation _); simpl.
  - pose proof (heredoc_body_view l b body a H1 H2 H3) as Hv.
    destruct (heredoc_loop_reads _ ([], []) _ _ _ _ Hv Hf eq_refl) as (bk & cs & r' & E1 & E2 & Hsp & ->).
    change (limit _) with (blen (b ++ body)) in E2. rewrite E2. exists (flush_literal bk).1.
    split; [|by rewrite concat_flush, Hsp]. by destruct l.
  - exists [PartLiteral (encode body)]. unfold asks. simpl. rewrite H2, at_position_eq, blen_app.
    rewrite str_index_mid by done. simpl. by rewrite app_nil_r.
Qed.

(** ** The properties *)

(** A balanced segment is consumed exactly when the text starts with one:
    an opener, escaped, plain and nested text within the nesting budget and
    without the terminator, and a closer; otherwise nothing that starts here
    is one.  The scan ends either way and cannot panic. *)
Theorem balanced_segment_exact open close t l b r a :
  open <> close -> open <> c_backslash -> close <> c_backslash -> view l b r a ->
  match consume_balanced_segment_in_string_with_terminator open close t l with
  | Ret (Some p, l') => exists s r', r = open :: s ++ close :: r' /\ enclosed open close t 1 s /\
      l' = consume (open :: s ++ [close]) l /\ p = Lexer.position l'
  | Ret (None, l') => (forall s r', r = open :: s ++ close :: r' -> ~ enclosed open close t 1 s) /\
      exists cs r', r = cs ++ r' /\ l' = consume cs l
  | Panic => False
  end.
Proof using Type.
  intros Ho Hb Hc Hv. destruct (consume_balanced_reads open close t Ho Hb Hc l b r a Hv) as ([p|] & cs & r' & -> & -> & Hres); [|eauto].
  destruct Hres as [-> (s & -> & Hs)]. exists s, r'. split; [simpl; by rewrite <-(assoc_L (++))|]. done.
Qed.
(** The body of a delimited string is scanned to its close, or to the end
    of what is left when it has none, and the parts spell it: literals and
    islands together are the body's text, byte for byte, in order.  The scan
    ends and cannot panic on a body of fewer than 2^31 - 1 characters. *)
Theorem delimited_body_spells delim l b r a : view l b r a -> fenced r a -> 1 + len r <= i32_max ->
  exists parts (closed : bool) body r', concat (part_text <$> parts) = encode body /\
    r = body ++ (if closed then default delim (paired_close delim) :: r' else []) /\
    read_delimited_body_with_parts delim l =
      Ret ((parts, closed), consume (body ++ if closed then [default delim (paired_close delim)] else []) l).
Proof using Type*.
  intros Hv Hf Hn. destruct (read_delimited_reads delim l b r a Hv Hf Hn) as ([parts closed] & cs & r' & -> & E & body & H1 & -> & H3).
  exists parts, closed, body, r'. split; [exact H1|]. split; [|exact E]. destruct closed; [by rewrite <-(assoc_L (++))|].
  rewrite app_nil_r in *. rewrite <-(app_nil_r body) in H3 at 1. simpl in H3. specialize (H3 eq_refl). by apply app_inv_head in H3 as <-.
Qed.
End spelling.

(** ** On concrete text *)

Lemma lexer_new_view cs : scalars cs -> blen cs <= isize_max -> view (lexer_new (encode cs)) [] cs [].
Proof. intros H1 H2. split; rewrite ?app_nil_r; try done. unfold limit. simpl. by rewrite len_encode. Qed.

(** ASCII tables. *)
Definition ascii_unicode : Unicode := {|
  is_xid_start := is_ascii_alphabetic;
  is_xid_continue c := is_ascii_alphanumeric c || (c =? 95);
  is_alphanumeric := is_ascii_alphanumeric;
  LexerCursor.is_whitespace := is_ascii_whitespace |}.
Lemma ascii_unicode_laws : @UnicodeLaws ascii_unicode.
Proof. done. Qed.

Definition demo_segment : list Z := bytes_of "{a{b}\}}c"%string.
Lemma demo_segment_view : view (lexer_new (encode demo_segment)) [] demo_segment [].
Proof. apply lexer_new_view; [repeat constructor|done]. Qed.
Theorem balanced_segment_exact_witness :
  let run := consume_balanced_segment_in_string_with_terminator c_lbrace c_rbrace (Some c_quote) (lexer_new (encode demo_segment)) in
  match run with Ret (Some p, _) => p = 8 | _ => False end /\
  match run with
  | Ret (Some p, l') => exists s r', demo_segment = c_lbrace :: s ++ c_rbrace :: r' /\ enclosed c_lbrace c_rbrace (Some c_quote) 1 s /\
      l' = consume (c_lbrace :: s ++ [c_rbrace]) (lexer_new (encode demo_segment)) /\ p = Lexer.position l'
  | _ => True
  end.
Proof.
  pose proof (balanced_segment_exact c_lbrace c_rbrace (Some c_quote) _ _ _ _ ltac:(done) ltac:(done) ltac:(done) demo_segment_view) as H.
  split; [vm_compute; reflexivity|]. destruct (consume_balanced_segment_in_string_with_terminator _ _ _ _) as [[[p|] l']|]; [exact H|done|done].
Defined.

(** A body in parentheses, and one that a heredoc ends. *)
Definition demo_body : list Z := bytes_of "a $x->[0] (@{y}) $$z{k}\) ) tail"%string.
Lemma demo_body_view : view (lexer_new (encode demo_body)) [] demo_body [].
Proof. apply lexer_new_view; [repeat constructor|done]. Qed.
Theorem delimited_body_spells_witness :
  match @read_delimited_body_with_parts ascii_unicode c_lparen (lexer_new (encode demo_body)) with
  | Ret ((parts, closed), l') => (length parts, closed, Lexer.position l') = (9%nat, true, 27)
  | Panic => False
  end /\
  exists parts (closed : bool) body r', concat (part_text <$> parts) = encode body /\
    demo_body = body ++ (if closed then c_rparen :: r' else []) /\
    @read_delimited_body_with_parts ascii_unicode c_lparen (lexer_new (encode demo_body)) =
      Ret ((parts, closed), consume (body ++ if closed then [c_rparen] else []) (lexer_new (encode demo_body))).
Proof.
  split; [vm_compute; reflexivity|].
  apply (@delimited_body_spells ascii_unicode ascii_unicode_laws c_lparen _ _ _ _ demo_body_view ltac:(by left) ltac:(done)).
Defined.
Definition demo_heredoc : list Z := bytes_of "Dear $name,"%string ++ [10].
Theorem heredoc_body_spells_witness :
  exists parts, @segment_heredoc_body ascii_unicode 2 14 (lexer_new (encode (bytes_of "ab"%string ++ demo_heredoc ++ bytes_of "END"%string)))
    = Ret (parts, lexer_new (encode (bytes_of "ab"%string ++ demo_heredoc ++ bytes_of "END"%string))) /\ concat (part_text <$> parts) = encode demo_heredoc.
Proof.
  apply (@heredoc_body_spells ascii_unicode ascii_unicode_laws _ (bytes_of "ab"%string) demo_heredoc (bytes_of "END"%string));
    [repeat constructor|done|done|right; intros c [= <-]; by left].
Defined.
