(* ===== verification/LexerStringParity.v ===== *)
(** * Double-quoted strings, and the two scanners that read them

    The scanner of ["..."] and the mirror that scans [qq] bodies and heredocs
    are written out twice.  Here: every arm of the one is the arm of the
    other with the double quote as terminator, so [parse_double_quoted_string]
    is [read_delimited_body_with_parts] with that delimiter; and a body is
    walked over stride by stride ([walk]: plain characters, escapes, whole
    islands), which says what quote ends a string, what its parts are, and
    when there is no end. *)

From stdpp Require Import base numbers list strings.
From S2P Require Import Prelude Utf8 Checkpoint LexerTokens LexerCursor LexerStrings LexerStringLaws.

(** ** Computations that agree from a state *)

Definition agree {A} (l : PerlLexer) (m1 m2 : scan A) : Prop := m1 l = m2 l.
Lemma agree_refl {A} l (m : scan A) : agree l m m.
Proof. done. Qed.
Lemma agree_asks {A B} (f : PerlLexer -> outcome A) (k1 k2 : A -> scan B) l :
  (forall x, f l = Ret x -> agree l (k1 x) (k2 x)) -> agree l (asks f ≫= k1) (asks f ≫= k2).
Proof. unfold agree, mbind, scan_bind, asks. destruct (f l) as [x|]; [|done]. intros H. by apply H. Qed.
Lemma agree_lookahead {A B} (c : bool) (f : PerlLexer -> outcome A) d (k1 k2 : A -> scan B) l :
  (forall x, agree l (k1 x) (k2 x)) -> agree l ((if c then asks f else mret d) ≫= k1) ((if c then asks f else mret d) ≫= k2).
Proof. intros H. destruct c; [by apply agree_asks|]. apply H. Qed.
Lemma agree_bind {A B} (m : scan A) (k1 k2 : A -> scan B) l :
  (forall x l', m l = Ret (x, l') -> agree l' (k1 x) (k2 x)) -> agree l (m ≫= k1) (m ≫= k2).
Proof. unfold agree, mbind, scan_bind. destruct (m l) as [[x l']|]; [|done]. intros H. by apply H. Qed.

(** ** The arms *)

Section parity.
Context `{UnicodeLaws}.

(** The terminator guards nothing that the arms accept. *)
Lemma sign_guard c : is_some_and c (fun ch => ((ch =? c_plus) || (ch =? c_minus)) && negb (is_char (Some c_quote) ch)) = is_char c c_plus || is_char c c_minus.
Proof using Type. destruct c as [c|]; [|done]. unfold is_char, is_some_and, c_plus, c_minus, c_quote. bcase_all; simpl; lia. Qed.
Lemma punctuation_guard c : is_some_and c (fun ch => is_perl_punctuation_variable ch && negb (is_char (Some c_quote) ch)) = is_some_and c is_perl_punctuation_variable.
Proof using Type.
  destruct c as [c|]; [|done]. simpl. unfold is_char, is_some_and. destruct (Z.eqb_spec c c_quote) as [->|Hne]; [done|]. by rewrite andb_true_r.
Qed.

Lemma at_parity s bk l : agree l (quoted_at_tail s bk) (scan_at_island_tail s (Some c_quote) bk).
Proof using Type.
  unfold quoted_at_tail, scan_at_island_tail. apply agree_asks. intros c _. apply agree_lookahead. intros next. by rewrite sign_guard.
Qed.
Lemma variable_parity s bk l b c r a : view l b (c :: r) a -> fenced (c :: r) a ->
  agree l (quoted_variable s bk) (scan_variable_with_tails s (Some c_quote) bk).
Proof using Type*.
  intros Hv Hf. unfold quoted_variable, scan_variable_with_tails. change (agree l (look Lexer.position ≫= ?f) (look Lexer.position ≫= ?g))
    with (agree l (f (Lexer.position l)) (g (Lexer.position l))). cbv beta.
  apply agree_bind. intros [] l' E. destruct (identifier_bytes_reads l b (c :: r) a Hv (fenced_stops _ _ _ Hf)) as (x & cs & r' & _ & E' & _).
  rewrite E in E'. injection E' as _ ->. unfold agree, mbind, scan_bind, look. simpl. pose proof (blen_nonneg cs).
  destruct (Z.eqb_spec (Lexer.position l + blen cs) (Lexer.position l)); [by rewrite (proj2 (Z.ltb_ge _ _)) by lia|].
  by rewrite (proj2 (Z.ltb_lt _ _)) by lia.
Qed.
Lemma dollar_parity s bk l b r a : view l b r a -> fenced r a ->
  agree l (quoted_dollar_tail s bk) (scan_dollar_island_tail s (Some c_quote) bk).
Proof using Type*.
  intros Hv Hf. unfold quoted_dollar_tail, scan_dollar_island_tail. apply agree_asks. intros c Ec. rewrite (current_char_view _ _ _ _ Hv) in Ec. injection Ec as <-.
  apply agree_lookahead. intros next. rewrite punctuation_guard. replace (negb (is_char (Some c_quote) c_quote)) with false by done. rewrite (andb_false_r (is_char _ c_quote)).
  repeat (match goal with |- agree l (if ?b then _ else _) _ => destruct b eqn:? end; [first [done|destruct r; [done|by eapply variable_parity]]|]).
  done.
Qed.

(** ** The loops *)

Definition exit_of (res : list StringPart * bool) : string_exit := if res.2 then Closed res.1 else Unterminated.
Definition unless_stuck (last_pos : Z) (bk : bucket) (l : PerlLexer) : bucket * Z + string_exit :=
  if Lexer.position l =? last_pos then inr Unterminated else inl (bk, Lexer.position l).
(** A round of the ordinary scanner against one of the mirror: the same exit,
    or the same parts, except behind a last lone backslash. *)
Definition rounds_agree (last_pos : Z) (x : bucket * Z + list StringPart * bool) (r : list Z) (l' : PerlLexer) (y : outcome ((bucket * Z + string_exit) * PerlLexer)) : Prop :=
  match x with
  | inr res => y = Ret (inr (exit_of res), l')
  | inl (bk, d) => d = 0 /\ exists bk', (bk' = bk \/ r = []) /\ y = Ret (unless_stuck last_pos bk' l', l')
  end.
Lemma island_parity ch bk l b r a : view l b (ch :: r) a -> fenced (ch :: r) a -> is_sigil ch = true ->
  (if ch =? c_at then (part_start ← look Lexer.position; _ ← advance; quoted_at_tail part_start bk)
   else (part_start ← look Lexer.position; _ ← advance; quoted_dollar_tail part_start bk)) l
  = scan_interpolation_island ch (Some c_quote) bk l.
Proof using Type*.
  intros Hv Hf Hs. unfold scan_interpolation_island. pose proof (view_consume l b [ch] r a Hv) as Hv1. apply (fenced_suffix [ch]) in Hf.
  unfold mbind, scan_bind, look. destruct (ch =? c_at); rewrite (advance_view _ _ _ _ Hv); simpl;
    [apply at_parity|by eapply dollar_parity].
Qed.
Lemma run_current {B} (k : option Z -> scan B) l b r a : view l b r a -> (asks current_char ≫= k) l = k (head r) l.
Proof using Type. intros Hv. unfold mbind, scan_bind, asks. by rewrite (current_char_view _ _ _ _ Hv). Qed.
Lemma run_advance {B} (k : unit -> scan B) l b r a : view l b r a -> (advance ≫= k) l = k tt (consume (take 1 r) l).
Proof using Type. intros Hv. unfold mbind, scan_bind. by rewrite (advance_view _ _ _ _ Hv). Qed.
Lemma run_bind {A B} (m : scan A) (k : A -> scan B) l x l' : m l = Ret (x, l') -> (m ≫= k) l = k x l'.
Proof using Type. intros E. unfold mbind, scan_bind. by rewrite E. Qed.
Lemma run_bind_inv {A B} (m : scan A) (k : A -> scan B) l y : (m ≫= k) l = Ret y -> exists x l', m l = Ret (x, l') /\ k x l' = Ret y.
Proof using Type. unfold mbind, scan_bind. destruct (m l) as [[x l']|]; [eauto|done]. Qed.

Lemma run_assoc {A B C} (m : scan A) (f : A -> scan B) (g : B -> scan C) l : ((m ≫= f) ≫= g) l = (m ≫= fun x => f x ≫= g) l.
Proof using Type. unfold mbind, scan_bind. by destruct (m l) as [[x l']|]. Qed.
Lemma run_cong {A B} (m1 m2 : scan A) (k1 k2 : A -> scan B) l :
  m1 l = m2 l -> (forall x l', k1 x l' = k2 x l') -> (m1 ≫= k1) l = (m2 ≫= k2) l.
Proof using Type. intros Hm Hk. unfold mbind, scan_bind. rewrite Hm. destruct (m2 l) as [[x l']|]; [apply Hk|done]. Qed.
Lemma run_ret {A B} (x : A) (k : A -> scan B) l : (mret x ≫= k) l = k x l.
Proof using Type. done. Qed.

(** The mirror's round on a double quote, cleared of its pairing. *)
Lemma mirror_round bk l b r a : view l b r a -> delimited_parts_step c_quote (bk, 0) l =
  match r with
  | [] => Ret (inr ((flush_literal bk).1, false), l)
  | ch :: _ =>
    if ch =? c_quote then Ret (inr ((flush_literal bk).1, true), consume [ch] l)
    else if ch =? c_backslash then
      match drop 1 r with
      | [] => Ret (inl (push_literal (encode_char ch) bk, 0), consume [ch] l)
      | x :: _ => Ret (inl (push_literal (encode_char x) (push_literal (encode_char ch) bk), 0), consume [ch; x] l)
      end
    else if is_sigil ch && parse_interpolation (Lexer.config l)
    then (bk ← scan_interpolation_island ch (Some c_quote) (flush_literal bk); mret (inl (bk, 0))) l
    else Ret (inl (push_literal (encode_char ch) bk, 0), consume [ch] l)
  end.
Proof using Type*.
  intros Hv. unfold delimited_parts_step. rewrite (run_current _ _ _ _ _ Hv). destruct r as [|ch r]; simpl; [done|].
  pose proof (view_consume l b [ch] r a Hv) as Hv1.
  change (paired_close c_quote) with (@None Z). change (bool_decide (is_Some (@None Z))) with false. simpl.
  change (c_quote =? c_backslash) with false. rewrite andb_true_r.
  destruct (Z.eqb_spec ch c_quote) as [->|Hq].
  { change (c_quote =? c_backslash) with false. cbv iota. by rewrite (run_advance _ _ _ _ _ Hv). }
  destruct (ch =? c_backslash).
  { rewrite (run_advance _ _ _ _ _ Hv). simpl. rewrite (run_current _ _ _ _ _ Hv1). destruct r as [|x r]; [done|]. simpl.
    rewrite (run_advance _ _ _ _ _ Hv1). simpl. by rewrite consume_app. }
  unfold mbind at 1, scan_bind at 1, look. unfold is_sigil. destruct (_ && _); [done|]. by rewrite (run_advance _ _ _ _ _ Hv).
Qed.
(** ** Walking over a body *)

(** What is never a part of its own: a sigil starts an island only where the
    lexer interpolates. *)
Definition live (l : PerlLexer) (c : Z) : bool := is_sigil c && parse_interpolation (Lexer.config l).
(** One stride over a body, and what it adds to the parts: a plain character,
    a backslash with the character behind it, or a whole island. *)
Inductive strides (l : PerlLexer) (bk : bucket) : list Z -> bucket -> Prop :=
| stride_char c : c <> c_quote -> c <> c_backslash -> live l c = false -> strides l bk [c] (push_literal (encode_char c) bk)
| stride_escape c : strides l bk [c_backslash; c] (push_literal (encode [c_backslash; c]) bk)
| stride_island c us bk' : live l c = true ->
    scan_interpolation_island c (Some c_quote) (flush_literal bk) l = Ret (bk', consume (c :: us) l) -> strides l bk (c :: us) bk'.
Inductive walk : PerlLexer -> bucket -> list Z -> bucket -> Prop :=
| walk_done l bk : walk l bk [] bk
| walk_stride l bk cs bk' s bk'' : strides l bk cs bk' -> walk (consume cs l) bk' s bk'' -> walk l bk (cs ++ s) bk''.

Lemma live_not_quote l c : live l c = true -> c <> c_quote /\ c <> c_backslash /\ is_sigil c = true.
Proof using Type.
  unfold live. intros [Hs _]%andb_true_iff. split; [|split; [|done]]; intros ->; by vm_compute in Hs.
Qed.
Lemma same_length_prefix (cs ds r r' : list Z) : cs ++ r = ds ++ r' -> blen cs = blen ds -> cs = ds.
Proof using Type.
  revert ds. induction cs as [|c cs IH]; intros [|d ds] E Hl; simpl in Hl; [done| | |].
  - pose proof (len_utf8_pos d). pose proof (blen_nonneg ds). lia.
  - pose proof (len_utf8_pos c). pose proof (blen_nonneg cs). lia.
  - injection E as -> E. f_equal. apply (IH ds E). lia.
Qed.
Lemma consume_length l cs ds : consume cs l = consume ds l -> blen cs = blen ds.
Proof using Type. intros E%(f_equal Lexer.position). simpl in E. lia. Qed.
(** A stride is never empty and never starts at the quote; from one place
    there is one. *)
Lemma stride_head l bk cs bk' : strides l bk cs bk' -> exists c us, cs = c :: us /\ c <> c_quote.
Proof using Type. intros [c ? ? ?|c|c us ? Hl _]; eexists _, _; (split; [done|]); [done|done|by destruct (live_not_quote l c)]. Qed.
Lemma stride_unique l bk cs ds bk1 bk2 r r' : strides l bk cs bk1 -> strides l bk ds bk2 -> cs ++ r = ds ++ r' -> cs = ds /\ bk1 = bk2.
Proof using Type.
  intros Hs Hd E. destruct Hs as [c H1 H2 H3|c|c us bk1 Hl E1], Hd as [d G1 G2 G3|d|d vs bk2 Gl E2]; injection E as Eh E;
    try (pose proof (live_not_quote _ _ Hl) as (? & ? & ?)); try (pose proof (live_not_quote _ _ Gl) as (? & ? & ?)); try congruence.
  - by subst d.
  - by subst d.
  - subst d. rewrite E1 in E2. assert (E3 : consume (c :: us) l = consume (c :: vs) l) by congruence. split; [|congruence].
    apply consume_length in E3. eapply (same_length_prefix _ _ r r'); [simpl; by rewrite E|done].
Qed.
Lemma walk_unique l bk body bk1 : walk l bk body bk1 -> forall body' bk2 rest rest', walk l bk body' bk2 ->
  body ++ c_quote :: rest = body' ++ c_quote :: rest' -> body = body' /\ bk1 = bk2.
Proof using Type.
  induction 1 as [l bk|l bk cs bk' s bk'' Hs Hw IH]; intros body' bk2 rest rest' Hw' E; inversion Hw' as [|? ? ds bk3 t ? Gs Gw]; subst; [done| | |].
  - destruct (stride_head _ _ _ _ Gs) as (c & us & -> & Hc). by injection E.
  - destruct (stride_head _ _ _ _ Hs) as (c & us & -> & Hc). by injection E.
  - rewrite <-!(assoc_L (++)) in E. destruct (stride_unique _ _ _ _ _ _ _ _ Hs Gs E) as [-> ->]. apply app_inv_head in E.
    destruct (IH _ _ _ _ Gw E) as [-> ->]. done.
Qed.
(** The parts after a walk spell what was walked over. *)
Lemma stride_spells l bk cs bk' b r a : strides l bk cs bk' -> view l b (cs ++ r) a -> fenced (cs ++ r) a ->
  spelled bk' = spelled bk ++ encode cs.
Proof using Type*.
  intros [c _ _ _|c|c us bk'0 Hl E] Hv Hf; [rewrite spelled_literal; simpl; by rewrite app_nil_r|by rewrite spelled_literal|].
  apply live_not_quote in Hl as (_ & _ & Hs). destruct (spelled_flush bk) as [E1 E2].
  destruct (island_spells (Some c_quote) l b c (us ++ r) a _ Hv Hf Hs E2) as (bk2 & ds & r' & Er & E' & _ & Hsp).
  rewrite E in E'. assert (E3 : consume (c :: us) l = consume ds l) by congruence. assert (bk'0 = bk2) as -> by congruence.
  apply consume_length in E3. rewrite Hsp, E1. do 2 f_equal. symmetry. by eapply (same_length_prefix (c :: us) ds r r').
Qed.
Lemma walk_spells l bk body bk' : walk l bk body bk' -> forall b r a, view l b (body ++ r) a -> fenced (body ++ r) a ->
  spelled bk' = spelled bk ++ encode body.
Proof using Type*.
  induction 1 as [l bk|l bk cs bk' s bk'' Hs Hw IH]; intros b r a Hv Hf; [by rewrite app_nil_r|].
  rewrite <-(assoc_L (++)) in *. rewrite (IH (b ++ cs) r a (view_consume _ _ _ _ _ Hv) (fenced_suffix _ _ _ Hf)), (stride_spells _ _ _ _ _ _ _ Hs Hv Hf).
  by rewrite encode_app, (assoc_L (++)).
Qed.
(** Text without islands: any characters but the quote, the backslash and live
    sigils, and escapes of any character.  It is one literal. *)
Inductive literal_text (l : PerlLexer) : list Z -> Prop :=
| literal_nil : literal_text l []
| literal_char c s : c <> c_quote -> c <> c_backslash -> live l c = false -> literal_text l s -> literal_text l (c :: s)
| literal_escape c s : literal_text l s -> literal_text l (c_backslash :: c :: s).
Lemma literal_consume l cs s : literal_text l s -> literal_text (consume cs l) s.
Proof using Type. induction 1; constructor; done. Qed.
Lemma push_literal_push s t bk : push_literal t (push_literal s bk) = push_literal (s ++ t) bk.
Proof using Type. unfold push_literal. simpl. by rewrite <-(assoc_L (++)). Qed.
Lemma literal_walk l body : literal_text l body -> forall l' bk, Lexer.config l' = Lexer.config l -> walk l' bk body (push_literal (encode body) bk).
Proof using Type.
  assert (Hlive : forall l' c, Lexer.config l' = Lexer.config l -> live l' c = live l c) by (unfold live; by intros l' c ->).
  induction 1 as [|c s H1 H2 H3 Hs IH|c s Hs IH]; intros l' bk E.
  - replace (push_literal (encode []) bk) with bk; [constructor|]. destruct bk. unfold push_literal. simpl. by rewrite app_nil_r.
  - change (c :: s) with ([c] ++ s) at 1. eapply walk_stride; [apply stride_char; [done|done|by rewrite Hlive]|].
    change (encode (c :: s)) with (encode_char c ++ encode s). rewrite <-push_literal_push. by apply IH.
  - change (c_backslash :: c :: s) with ([c_backslash; c] ++ s). eapply walk_stride; [apply stride_escape|].
    rewrite encode_app, <-push_literal_push. by apply IH.
Qed.
(** A round of the mirror is a stride, or the end. *)
Lemma quote_round bk l b r a : view l b r a -> fenced r a -> exists x l', delimited_parts_step c_quote (bk, 0) l = Ret (x, l') /\
  match x with
  | inl (bk', d) => d = 0 /\ exists cs r', r = cs ++ r' /\ l' = consume cs l /\ cs <> [] /\ (strides l bk cs bk' \/ r' = [] /\ c_quote ∉ cs)
  | inr (parts, true) => parts = (flush_literal bk).1 /\ exists rest, r = c_quote :: rest /\ l' = consume [c_quote] l
  | inr (_, false) => r = [] /\ l' = l
  end.
Proof using Type*.
  intros Hv Hf. rewrite (mirror_round _ _ _ _ _ Hv). destruct r as [|ch r]; [by eexists _, _|].
  destruct (Z.eqb_spec ch c_quote) as [->|Hq]; [by eexists _, _; split; [done|]; split; [done|]; exists r|].
  destruct (Z.eqb_spec ch c_backslash) as [->|Hb].
  { destruct r as [|x r]; simpl; eexists _, _; (split; [done|]); (split; [done|]).
    - exists [c_backslash], []. split; [done|]. split; [done|]. split; [done|]. right. split; [done|]. by rewrite list_elem_of_singleton.
    - exists [c_backslash; x], r. split; [done|]. split; [done|]. split; [done|]. left.
      rewrite push_literal_push. replace (encode_char c_backslash ++ encode_char x) with (encode [c_backslash; x]); [constructor|].
      simpl. by rewrite app_nil_r. }
  fold (live l ch). destruct (live l ch) eqn:Hl.
  - pose proof (live_not_quote _ _ Hl) as (_ & _ & Hs). destruct (spelled_flush bk) as [_ E2].
    destruct (island_spells (Some c_quote) l b ch r a _ Hv Hf Hs E2) as (bk2 & ds & r' & Er & E' & Hd & _).
    rewrite (run_bind _ _ _ _ _ E'). eexists _, _; split; [done|]. split; [done|]. exists ds, r'. split; [done|]. split; [done|]. split; [done|].
    left. destruct ds as [|d ds]; [done|]. injection Er as -> Er. by apply stride_island.
  - eexists _, _; split; [done|]. split; [done|]. exists [ch], r. split; [done|]. split; [done|]. split; [done|]. left. by constructor.
Qed.
(** The mirror's loop returns, and tells how far a walk gets. *)
Definition walked (l : PerlLexer) (bk : bucket) (r : list Z) (res : list StringPart * bool) (l' : PerlLexer) : Prop :=
  if res.2 then exists body rest bk', r = body ++ c_quote :: rest /\ walk l bk body bk' /\
    res.1 = (flush_literal bk').1 /\ l' = consume (body ++ [c_quote]) l
  else l' = consume r l /\ forall body rest bk', r = body ++ c_quote :: rest -> ~ walk l bk body bk'.
Lemma walked_on l bk cs bk' r' res l' : strides l bk cs bk' -> walked (consume cs l) bk' r' res l' -> walked l bk (cs ++ r') res l'.
Proof using Type.
  intros Hs. unfold walked. destruct res as [parts []]; simpl.
  - intros (body & rest & bk2 & -> & Hw & -> & ->). exists (cs ++ body), rest, bk2. rewrite <-!(assoc_L (++)), consume_app. split; [done|]. split; [by eapply walk_stride|done].
  - intros [-> Hno]. rewrite consume_app. split; [done|]. intros body rest bk2 E Hw. inversion Hw as [|? ? ds bk3 t ? Gs Gw]; subst.
    + destruct (stride_head _ _ _ _ Hs) as (c & us & -> & Hc). by injection E.
    + rewrite <-!(assoc_L (++)) in E. destruct (stride_unique _ _ _ _ _ _ _ _ Hs Gs E) as [-> ->]. apply app_inv_head in E. by eapply Hno.
Qed.
Lemma mirror_walks l b r a : view l b r a -> fenced r a -> exists res l', read_delimited_body_with_parts c_quote l = Ret (res, l') /\ walked l ([], []) r res l'.
Proof using Type*.
  intros Hv Hf. unfold read_delimited_body_with_parts. change (paired_close c_quote) with (@None Z).
  destruct (reads_looping_inv (fun _ st r => fenced r a /\ st.2 = 0) (delimited_parts_step c_quote)
    (fun l st r res cs => walked l st.1 r res (consume cs l)) a) with (s := (([], []) : bucket, 0)) (l := l) (b := b) (r := r) as (res & cs & r' & _ & E & HP); [|done|done|eauto].
  clear l b r Hv Hf. intros [bk depth] l b r Hv [Hf Hd]. simpl in Hd. subst depth.
  destruct (quote_round bk l b r a Hv Hf) as (x & l' & E & HP). destruct x as [[bk' d]|[parts []]].
  - destruct HP as (-> & cs & r' & -> & -> & Hcs & HP). exists (inl (bk', 0)), cs, r'. split; [done|]. split; [done|]. split; [done|]. split.
    + intros r'' E'%app_inv_head. subst r''. split; [by eapply fenced_suffix|done].
    + intros res ds r'' E' HW. apply app_inv_head in E' as ->. rewrite <-consume_app. destruct HP as [Hs|[Hn Hq]]; [by eapply walked_on|].
      apply app_eq_nil in Hn as [-> ->]. simpl in HW |- *. unfold walked in *. destruct res as [parts []]; simpl in *.
      * destruct HW as (body & rest & ? & E' & _). by destruct body.
      * rewrite consume_nil, app_nil_r in *. split; [done|]. intros body rest ? -> _. apply Hq. rewrite elem_of_app. right. constructor.
  - destruct HP as (-> & rest & -> & ->). exists (inr ((flush_literal bk).1, true)), [c_quote], rest. split; [done|]. split; [done|].
    unfold walked. exists [], rest, bk. split; [done|]. split; [constructor|done].
  - destruct HP as [-> ->]. exists (inr (parts, false)), [], []. rewrite consume_nil. split; [done|]. split; [done|].
    unfold walked. simpl. rewrite consume_nil. split; [done|]. intros body rest ? E'. by destruct body.
Qed.

(** ** Round against round *)

Definition close_round (last_pos : Z) (bk : bucket) : scan (bucket * Z + string_exit) := fun l => Ret (unless_stuck last_pos bk l, l).
Lemma ordinary_round last_pos bk l b r a : view l b r a -> fenced r a -> double_quoted_step (bk, last_pos) l =
  match r with
  | [] => Ret (inr Unterminated, l)
  | ch :: _ =>
    if ch =? c_quote then Ret (inr (Closed (flush_literal bk).1), consume [ch] l)
    else if ch =? c_backslash then
      match drop 1 r with
      | [] => Ret (unless_stuck last_pos bk (consume [ch] l), consume [ch] l)
      | x :: _ => Ret (unless_stuck last_pos (push_literal (encode_char x) (push_literal (encode_char ch) bk)) (consume [ch; x] l), consume [ch; x] l)
      end
    else if is_sigil ch && parse_interpolation (Lexer.config l)
    then ((bk ← scan_interpolation_island ch (Some c_quote) (flush_literal bk); close_round last_pos bk) : scan _) l
    else Ret (unless_stuck last_pos (push_literal (encode_char ch) bk) (consume [ch] l), consume [ch] l)
  end.
Proof using Type*.
  intros Hv Hf. unfold double_quoted_step. rewrite (run_current _ _ _ _ _ Hv). destruct r as [|ch r]; simpl; [done|].
  pose proof (view_consume l b [ch] r a Hv) as Hv1.
  destruct (ch =? c_quote); [by rewrite (run_advance _ _ _ _ _ Hv)|].
  assert (Hk : forall l bk, (p ← look Lexer.position; if p =? last_pos then mret (inr Unterminated) else mret (inl (bk, p))) l = close_round last_pos bk l).
  { intros l' bk'. unfold mbind, scan_bind, look, close_round, unless_stuck. by destruct (_ =? last_pos). }
  unfold mbind at 1, scan_bind at 1, look at 1.
  destruct (ch =? c_backslash) eqn:Eb.
  { apply Z.eqb_eq in Eb as ->. rewrite run_assoc, (run_advance _ _ _ _ _ Hv). simpl. rewrite run_assoc, (run_current _ _ _ _ _ Hv1).
    destruct r as [|x r]; simpl; [by rewrite run_ret, Hk|].
    rewrite run_assoc, (run_advance _ _ _ _ _ Hv1), run_ret, Hk. simpl. rewrite consume_app.
    unfold close_round, push_literal. simpl. by rewrite <-(assoc_L (++)). }
  unfold is_sigil. destruct (parse_interpolation _) eqn:Ei; rewrite ?andb_true_r, ?andb_false_r.
  - destruct (is_sigil ch) eqn:Es.
    + unfold is_sigil in Es. rewrite Es. apply run_cong; [|intros; apply Hk].
      rewrite <-(island_parity ch _ l b r a Hv Hf Es). destruct (ch =? c_at); [done|].
      apply orb_true_iff in Es as [->|?]; done.
    + unfold is_sigil in Es. rewrite Es. apply orb_false_iff in Es as [-> ->].
      rewrite run_assoc, (run_advance _ _ _ _ _ Hv), run_ret. apply Hk.
  - rewrite run_assoc, (run_advance _ _ _ _ _ Hv), run_ret. apply Hk.
Qed.
Lemma step_parity last_pos bk l b r a x l' : view l b r a -> fenced r a ->
  delimited_parts_step c_quote (bk, 0) l = Ret (x, l') ->
  forall r', (forall st, x = inl st -> exists cs, r = cs ++ r' /\ l' = consume cs l) -> rounds_agree last_pos x r' l' (double_quoted_step (bk, last_pos) l).
Proof using Type*.
  intros Hv Hf E r' Hr. rewrite (mirror_round _ _ _ _ _ Hv) in E. rewrite (ordinary_round _ _ _ _ _ _ Hv Hf).
  destruct r as [|ch r]; [by injection E as <- <-|].
  destruct (ch =? c_quote); [by injection E as <- <-|].
  destruct (ch =? c_backslash).
  { destruct r as [|y r]; simpl in E |- *; injection E as <- E; rewrite <-E in *; (split; [done|]); [|eauto].
    exists bk. split; [right|done]. destruct (Hr _ eq_refl) as (cs & Er & El).
    destruct cs as [|c cs]; [|by destruct cs, r']. apply (f_equal Lexer.position) in El. simpl in El.
    pose proof (len_utf8_pos ch). lia. }
  destruct (_ && _); [|injection E as <- <-; split; [done|eauto]].
  apply run_bind_inv in E as (bk' & l1 & E & [= <- <-]). rewrite (run_bind _ _ _ _ _ E). split; [done|eauto].
Qed.

Definition exit_at (res : outcome (list StringPart * bool * PerlLexer)) : outcome (string_exit * PerlLexer) :=
  match res with Ret (res, l) => Ret (exit_of res, l) | Panic => Panic end.
(** Rounds against rounds: as long as something is left the buckets are equal. *)
Lemma loop_parity n : forall bk bk' l b r a, view l b r a -> fenced r a -> (bk' = bk \/ r = []) ->
  scan_loop n double_quoted_step (bk', Lexer.position l) l = exit_at (scan_loop n (delimited_parts_step c_quote) (bk, 0) l).
Proof using Type*.
  induction n as [|n IH]; intros bk bk' l b r a Hv Hf Hbk; [done|].
  destruct (decide (r = [])) as [->|Hr].
  { cbn [scan_loop]. rewrite (run_bind _ _ _ _ _ (mirror_round _ _ _ _ _ Hv)), (run_bind _ _ _ _ _ (ordinary_round _ _ _ _ _ _ Hv Hf)). done. }
  destruct Hbk as [->|?]; [|done].
  destruct (quote_round bk l b r a Hv Hf) as (x & l' & E & HP).
  destruct x as [[bk2 d]|[parts closed]].
  2: { cbn [scan_loop]. rewrite (run_bind _ _ _ _ _ E), (run_bind _ _ _ _ _ (step_parity (Lexer.position l) bk l b r a _ l' Hv Hf E r ltac:(done))). done. }
  destruct HP as (-> & cs & r' & -> & -> & Hcs & _).
  pose proof (step_parity (Lexer.position l) bk l b _ a _ _ Hv Hf E r' ltac:(eauto)) as (_ & bk3 & Hbk & Hx).
  cbn [scan_loop]. rewrite (run_bind _ _ _ _ _ E), (run_bind _ _ _ _ _ Hx). unfold unless_stuck. simpl.
  destruct (Z.eqb_spec (Lexer.position l + blen cs) (Lexer.position l)) as [Hp|_].
  { destruct cs as [|c cs]; [done|]. simpl in Hp. pose proof (len_utf8_pos c). pose proof (blen_nonneg cs). lia. }
  apply (IH bk2 bk3 (consume cs l) (b ++ cs) r' a); [by apply view_consume|by eapply fenced_suffix|exact Hbk].
Qed.
Lemma body_parity l b r a : view l b r a -> fenced r a ->
  looping double_quoted_step (([], []), Lexer.position l) l = exit_at (read_delimited_body_with_parts c_quote l).
Proof using Type*. intros Hv Hf. unfold looping, read_delimited_body_with_parts. eapply loop_parity; eauto. Qed.

(** ** The token *)

(** The token of a closed string from [start]. *)
Definition quoted_token (parts : list StringPart) (text : list Z) (start : Z) : Token :=
  mkToken match parts with [] => TStringLiteral | _ => TInterpolatedString parts end text start (start + len text).
Lemma find_byte_app x s t : x ∉ s -> find_byte x (s ++ x :: t) = Some (len s).
Proof using Type.
  induction s as [|y s IH]; simpl; intros Hx; [by rewrite Z.eqb_refl|]. apply not_elem_of_cons in Hx as [Hxy Hx].
  rewrite (proj2 (Z.eqb_neq _ _)) by done. rewrite IH by done. simpl. rewrite len_cons. f_equal. lia.
Qed.
Lemma find_byte_None x s : x ∉ s -> find_byte x s = None.
Proof using Type.
  induction s as [|y s IH]; simpl; intros Hx; [done|]. apply not_elem_of_cons in Hx as [Hxy Hx].
  rewrite (proj2 (Z.eqb_neq _ _)) by done. by rewrite IH.
Qed.
Lemma newline_encode s : scalars s -> 10 ∉ s -> 10 ∉ encode s.
Proof using Type.
  induction 1 as [|c s Hc Hs IH]; [done|]. intros [Hne H10]%not_elem_of_cons. simpl. rewrite elem_of_app. intros [Hin|Hin]; [|by apply IH].
  destruct (Z.ltb_spec c 128) as [Hlt|Hge].
  - rewrite encode_char_ascii in Hin by done. by apply list_elem_of_singleton in Hin.
  - pose proof (encode_char_high c Hc Hge) as Hh. rewrite Forall_forall in Hh. apply Hh in Hin. lia.
Qed.
(** The text up to the first line end. *)
Lemma line_split (s : list Z) : exists line rest, s = line ++ rest /\ 10 ∉ line /\ (rest = [] \/ head rest = Some 10).
Proof using Type.
  induction s as [|c s (line & rest & -> & Hl & Hr)]; [exists [], []; split; [done|]; split; [apply not_elem_of_nil|by left]|].
  destruct (decide (c = 10)) as [->|Hc].
  - exists [], (10 :: line ++ rest). split; [done|]. split; [apply not_elem_of_nil|by right].
  - exists (c :: line), rest. split; [done|]. split; [|done]. by apply not_elem_of_cons.
Qed.
Lemma unclosed_end l b line rest : scalars (b ++ line ++ rest) -> Lexer.input l = encode (b ++ line ++ rest) ->
  blen (b ++ line ++ rest) <= isize_max -> 10 ∉ line -> (rest = [] \/ head rest = Some 10) ->
  line_bounded_unclosed_end l (blen b) = blen (b ++ line).
Proof using Type.
  intros Hs Hi Hsm Hl Hr. unfold line_bounded_unclosed_end. rewrite Hi.
  assert (Eg : str_get (encode (b ++ line ++ rest)) (blen b) (len (encode (b ++ line ++ rest))) = Some (encode (line ++ rest))).
  { rewrite len_encode, blen_app. rewrite <-(app_nil_r (line ++ rest)) at 1. apply str_get_mid. by rewrite app_nil_r. }
  rewrite Eg, encode_app. apply scalars_app_3 in Hs as (_ & Hs & _). destruct Hr as [->|Hr].
  - simpl. rewrite app_nil_r, find_byte_None by (by apply newline_encode). by rewrite len_encode, app_nil_r.
  - destruct rest as [|x rest]; [done|]. injection Hr as ->. simpl. change (encode_char 10) with [10]. simpl.
    rewrite find_byte_app by (by apply newline_encode). rewrite !blen_app in *. rewrite len_encode. unfold saturating_add.
    pose proof (blen_nonneg (10 :: rest)). unfold usize_max, isize_max in *. lia.
Qed.

Lemma closed_token parts l b body r a : view l b (c_quote :: body ++ c_quote :: r) a ->
  (text ← text_from (blen b); _ ← write (with_mode ExpectOperator); e ← look Lexer.position;
   mret (mkToken match parts with [] => TStringLiteral | _ => TInterpolatedString parts end text (blen b) e))
    (consume (body ++ [c_quote]) (consume [c_quote] l))
  = Ret (quoted_token parts (encode (c_quote :: body ++ [c_quote])) (blen b),
         with_mode ExpectOperator (consume (c_quote :: body ++ [c_quote]) l)).
Proof using Type.
  intros Hv. rewrite consume_app. change ([c_quote] ++ body ++ [c_quote]) with (c_quote :: body ++ [c_quote]).
  assert (E : c_quote :: body ++ c_quote :: r = (c_quote :: body ++ [c_quote]) ++ r) by (simpl; by rewrite <-(assoc_L (++))).
  rewrite E in Hv. pose proof (view_position _ _ _ _ Hv) as Hp. apply view_consume in Hv.
  rewrite (run_bind _ _ _ _ _ (text_from_view _ _ _ _ _ Hv)). unfold quoted_token. rewrite len_encode.
  unfold mbind, scan_bind, write, look, mret, scan_ret. do 3 f_equal. simpl. by rewrite Hp.
Qed.
Lemma unclosed_token l l0 p b line rest : scalars (b ++ line ++ rest) -> Lexer.input l = encode (b ++ line ++ rest) ->
  blen (b ++ line ++ rest) <= isize_max -> 10 ∉ line -> (rest = [] \/ head rest = Some 10) -> l = at_position p l0 ->
  unterminated_string_error (blen b) l =
    Ret (mkToken (TError (bytes_of "unterminated string"%string)) (encode line) (blen b) (blen (b ++ line)), at_position (blen (b ++ line)) l0).
Proof using Type.
  intros Hs Hi Hsm Hl Hr ->. unfold unterminated_string_error, mbind, scan_bind, look, write, asks.
  rewrite (unclosed_end _ _ _ _ Hs Hi Hsm Hl Hr). cbn [Lexer.input at_position] in *. simpl in Hi |- *. rewrite Hi, blen_app, str_index_mid by done. done.
Qed.

(** Behind the quote. *)
Definition string_token (start : Z) (parts : list StringPart) : scan Token :=
  text ← text_from start; _ ← write (with_mode ExpectOperator); e ← look Lexer.position;
  mret (mkToken match parts with [] => TStringLiteral | _ => TInterpolatedString parts end text start e).
Lemma parse_run l b r a : view l b (c_quote :: r) a -> fenced r a ->
  parse_double_quoted_string (blen b) l =
  match read_delimited_body_with_parts c_quote (consume [c_quote] l) with
  | Ret ((parts, true), l') => string_token (blen b) parts l'
  | Ret ((_, false), l') => unterminated_string_error (blen b) l'
  | Panic => Panic
  end.
Proof using Type*.
  intros Hv Hf. unfold parse_double_quoted_string. rewrite (run_advance _ _ _ _ _ Hv). change (take 1 (c_quote :: r)) with [c_quote].
  pose proof (view_consume l b [c_quote] r a Hv) as Hv1. unfold mbind at 1, scan_bind at 1, look at 1.
  unfold mbind at 1, scan_bind at 1. rewrite (body_parity _ _ _ _ Hv1 Hf).
  by destruct (read_delimited_body_with_parts _ _) as [[[parts []] l']|].
Qed.

(** C31. The two scanners agree: a double-quoted string is what the scanner of
    delimited bodies reads behind the quote, with the same parts and the same
    end; the token spans from the quote to the cursor and an operator is
    expected next, or the string has no end and the error token is made. *)
Theorem double_quoted_parity l b r a : view l b (c_quote :: r) a -> fenced r a ->
  parse_double_quoted_string (blen b) l =
  match (advance ≫= fun _ => read_delimited_body_with_parts c_quote) l with
  | Ret ((parts, true), l') => string_token (blen b) parts l'
  | Ret ((_, false), l') => unterminated_string_error (blen b) l'
  | Panic => Panic
  end.
Proof using Type*. intros Hv Hf. rewrite (run_advance _ _ _ _ _ Hv). by eapply parse_run. Qed.
Lemma string_token_closed parts l b body r a : view l b (c_quote :: body ++ c_quote :: r) a ->
  string_token (blen b) parts (consume (body ++ [c_quote]) (consume [c_quote] l)) =
    Ret (quoted_token parts (encode (c_quote :: body ++ [c_quote])) (blen b), with_mode ExpectOperator (consume (c_quote :: body ++ [c_quote]) l)).
Proof using Type. apply closed_token. Qed.
(** What a walk to a quote makes of the string. *)
Lemma walked_token l b body rest a bk : view l b (c_quote :: body ++ c_quote :: rest) a -> fenced (body ++ c_quote :: rest) a ->
  walk (consume [c_quote] l) ([], []) body bk ->
  parse_double_quoted_string (blen b) l =
    Ret (quoted_token (flush_literal bk).1 (encode (c_quote :: body ++ [c_quote])) (blen b),
         with_mode ExpectOperator (consume (c_quote :: body ++ [c_quote]) l)).
Proof using Type*.
  intros Hv Hf Hw. rewrite (parse_run _ _ _ _ Hv Hf). pose proof (view_consume l b [c_quote] _ a Hv) as Hv1.
  destruct (mirror_walks _ _ _ _ Hv1 Hf) as ([parts []] & l' & -> & HW); [|by destruct (proj2 HW body rest bk eq_refl)].
  destruct HW as (body' & rest' & bk' & E & Hw' & Hp & ->). simpl in Hp. subst parts.
  destruct (walk_unique _ _ _ _ Hw _ _ _ _ Hw' E) as [<- <-]. by eapply string_token_closed.
Qed.
(** C30. A double-quoted string is read exactly.  Its body is walked over in
    strides, a plain character, a backslash with the character behind it, or
    an interpolation island as the island's own scanner takes it.  The
    quote that ends it is the one a walk arrives at: the token's text is the
    source from quote to quote, its parts are those of the walk and spell the
    body.  When no walk arrives at a quote, and only then, an error token
    covers the rest of the line and scanning resumes behind it.  A body
    without live sigils ends at the first quote that is not escaped and is one
    literal, escapes as they are written. *)
Theorem double_quoted_token l b r a : view l b (c_quote :: r) a -> fenced r a ->
  (forall body rest bk, r = body ++ c_quote :: rest -> walk (consume [c_quote] l) ([], []) body bk ->
     concat (part_text <$> (flush_literal bk).1) = encode body /\
     parse_double_quoted_string (blen b) l =
       Ret (quoted_token (flush_literal bk).1 (encode (c_quote :: body ++ [c_quote])) (blen b),
            with_mode ExpectOperator (consume (c_quote :: body ++ [c_quote]) l))) /\
  ((forall body rest bk, r = body ++ c_quote :: rest -> ~ walk (consume [c_quote] l) ([], []) body bk) ->
   exists line rest, c_quote :: r ++ a = line ++ rest /\ 10 ∉ line /\ (rest = [] \/ head rest = Some 10) /\
     parse_double_quoted_string (blen b) l =
       Ret (mkToken (TError (bytes_of "unterminated string"%string)) (encode line) (blen b) (blen (b ++ line)),
            at_position (blen (b ++ line)) l)) /\
  (forall body rest, r = body ++ c_quote :: rest -> literal_text l body ->
     parse_double_quoted_string (blen b) l =
       Ret (quoted_token (if decide (body = []) then [] else [PartLiteral (encode body)]) (encode (c_quote :: body ++ [c_quote])) (blen b),
            with_mode ExpectOperator (consume (c_quote :: body ++ [c_quote]) l))).
Proof using Type*.
  intros Hv Hf. pose proof (view_consume l b [c_quote] r a Hv) as Hv1. split; [|split].
  - intros body rest bk -> Hw. split; [|by eapply walked_token]. by rewrite concat_flush, (walk_spells _ _ _ _ Hw _ _ _ Hv1 Hf).
  - intros Hno. rewrite (parse_run _ _ _ _ Hv Hf). destruct (mirror_walks _ _ _ _ Hv1 Hf) as ([parts []] & l' & -> & HW).
    { destruct HW as (body & rest & bk & E & Hw & _). by destruct (Hno body rest bk). }
    destruct HW as [-> _]. destruct (line_split (c_quote :: r ++ a)) as (line & rest & E & Hl & Hr).
    exists line, rest. split; [done|]. split; [done|]. split; [done|]. destruct Hv as [V1 V2 _ _ V5].
    change (b ++ (c_quote :: r) ++ a) with (b ++ c_quote :: r ++ a) in *. rewrite E in *. by eapply unclosed_token.
  - intros body rest -> Hb. rewrite (walked_token l b body rest a _ Hv Hf (literal_walk l body Hb (consume [c_quote] l) _ eq_refl)). do 3 f_equal.
    destruct (decide (body = [])) as [->|Hne]; [done|]. unfold flush_literal, push_literal. simpl.
    destruct (encode body) as [|x t] eqn:E; [|done]. destruct body as [|c body]; [done|].
    apply (f_equal len) in E. rewrite len_encode in E. change (len_utf8 c + blen body = 0) in E. pose proof (len_utf8_pos c). pose proof (blen_nonneg body). lia.
Qed.
End parity.

(** A quoted [a] with an escaped quote and [$b], and more. *)
Definition demo_quoted_body : list Z := bytes_of "a "%string ++ [c_backslash; c_quote] ++ bytes_of "$b"%string.
Definition demo_quoted_rest : list Z := demo_quoted_body ++ c_quote :: bytes_of "y"%string.
Definition demo_quoted : list Z := c_quote :: demo_quoted_rest.
Lemma demo_quoted_view : view (lexer_new (encode demo_quoted)) [] demo_quoted [].
Proof. apply lexer_new_view; [repeat constructor|done]. Qed.
Lemma demo_quoted_walk : @walk ascii_unicode (consume [c_quote] (lexer_new (encode demo_quoted))) ([], []) demo_quoted_body
  ([PartLiteral (bytes_of "a "%string ++ [c_backslash; c_quote]); PartVariable (bytes_of "$b"%string)], []).
Proof.
  eapply (walk_stride _ _ [97]); [by apply stride_char|]. eapply (walk_stride _ _ [32]); [by apply stride_char|].
  eapply (walk_stride _ _ [_; _]); [apply stride_escape|]. change (bytes_of "$b"%string) with (c_dollar :: [98]) at 1.
  rewrite <-(app_nil_r (c_dollar :: [98])) at 1. eapply walk_stride; [apply stride_island; [done|vm_compute; reflexivity]|constructor].
Qed.
Theorem double_quoted_parity_witness :
  @parse_double_quoted_string ascii_unicode 0 (lexer_new (encode demo_quoted)) =
  match (advance ≫= fun _ => @read_delimited_body_with_parts ascii_unicode c_quote) (lexer_new (encode demo_quoted)) with
  | Ret ((parts, true), l') => string_token 0 parts l'
  | Ret ((_, false), l') => unterminated_string_error 0 l'
  | Panic => Panic
  end.
Proof. apply (@double_quoted_parity ascii_unicode ascii_unicode_laws (lexer_new (encode demo_quoted)) [] demo_quoted_rest []); [apply demo_quoted_view|by left]. Defined.
Theorem double_quoted_token_witness :
  @parse_double_quoted_string ascii_unicode 0 (lexer_new (encode demo_quoted)) =
    Ret (mkToken (TInterpolatedString [PartLiteral (bytes_of "a "%string ++ [c_backslash; c_quote]); PartVariable (bytes_of "$b"%string)])
           (encode (c_quote :: demo_quoted_body ++ [c_quote])) 0 8,
         with_mode ExpectOperator (at_position 8 (lexer_new (encode demo_quoted)))).
Proof.
  exact (proj2 (proj1 (@double_quoted_token ascii_unicode ascii_unicode_laws (lexer_new (encode demo_quoted)) [] demo_quoted_rest [] demo_quoted_view ltac:(by left))
    demo_quoted_body (bytes_of "y"%string) _ eq_refl demo_quoted_walk)).
Defined.
