(* ===== verification/LexerNumbers.v ===== *)
(** * Numeric literals (perl-lexer/src: lib.rs [try_number],
      [parse_decimal_number]; numeric.rs)

    The lexer's rule for numbers reads bytes behind the cursor: prefixed
    hexadecimal, binary and octal literals, and decimal ones with a fraction
    and an exponent.  [parse_perl_integer] gives the value of the text of such
    a token.  Proved: an integer written in any base, with separators, lexes to
    one token of exactly its text, and that text has its value back; and the
    texts that have a value are exactly the spellings of integers. *)

From Stdlib Require Import String.
From stdpp Require Import base numbers list.
From S2P Require Import Prelude Utf8 StdText Checkpoint LexerTokens LexerCursor LexerStrings.

(** ** Bytes *)

(** [while pos < bytes.len() && p(bytes[pos]) { pos += 1 }] *)
Fixpoint run (p : Z -> bool) (bytes : list Z) : list Z :=
  match bytes with b :: bytes => if p b then b :: run p bytes else [] | [] => [] end.
Definition skip_run (p : Z -> bool) (bytes : list Z) (pos : Z) : Z := pos + len (run p (zdrop pos bytes)).
(** [pos < bytes.len() && p(bytes[pos])] *)
Definition byte_satisfies (p : Z -> bool) (bytes : list Z) (pos : Z) : bool := is_some_and (zget bytes pos) p.
Definition or_underscore (p : Z -> bool) (b : Z) : bool := p b || (b =? 95).
Definition is_either (x y b : Z) : bool := (b =? x) || (b =? y).
Definition is_binary_digit (b : Z) : bool := (b =? 48) || (b =? 49).
Definition is_octal_digit (b : Z) : bool := between 48 55 b.
Definition is_exponent_mark (b : Z) : bool := is_either 101 69 b.
Definition is_sign (b : Z) : bool := is_either 43 45 b.

(** ** Tokens *)

Definition immediately_after_double_colon (self : PerlLexer) : outcome bool :=
  let start := Lexer.position self in
  if 2 <=? start then
    x ← index (Lexer.input self) (start - 2);
    if x =? 58 then y ← index (Lexer.input self) (start - 1); mret (y =? 58) else mret false
  else mret false.
(** The token of the bytes from [start] to [pos], which are a number. *)
Definition number_token (start pos : Z) : scan Token :=
  _ ← write (at_position pos);
  text ← text_from start;
  _ ← write (with_mode ExpectOperator);
  mret (mkToken (TNumber text) text start pos).
(** A literal with a prefix of two bytes. *)
Definition prefixed_number (start : Z) (digit : Z -> bool) (kind : string) : scan Token :=
  bytes ← look Lexer.input;
  let digit_start := start + 2 in
  let pos := skip_run (or_underscore digit) bytes digit_start in
  let saw_digit := existsb digit (run (or_underscore digit) (zdrop digit_start bytes)) in
  if (digit_start <? pos) && saw_digit then number_token start pos
  else
    _ ← write (at_position pos);
    text ← asks (fun l => str_index (Lexer.input l) start pos);
    mret (mkToken (TError (bytes_of ("No digits found for " ++ kind ++ " literal"))) text start pos).

(** What may follow a dot that ends a number. *)
Definition dot_terminator (next_byte : Z) : bool :=
  (next_byte <=? 32) || bool_decide (next_byte ∈ bytes_of ";,)}]+-*/%=<>!&|^~eE").
(** The fraction at [pos], if its dot belongs to the number. *)
Definition fraction_end (bytes : list Z) (pos : Z) : Z :=
  if byte_satisfies (Z.eqb 46) bytes pos then
    let has_following_digit := byte_satisfies is_ascii_digit bytes (pos + 1) in
    let should_consume_dot := has_following_digit || match zget bytes (pos + 1) with None => true | Some next_byte => dot_terminator next_byte end in
    if should_consume_dot then skip_run (or_underscore is_ascii_digit) bytes (pos + 1) else pos
  else pos.
(** The digits of an exponent whose mark is at [pos]; none, and it is no exponent. *)
Definition exponent_digits (bytes : list Z) (exp_start : Z) : Z :=
  let pos := exp_start + 1 in
  let pos := if byte_satisfies is_sign bytes pos then pos + 1 else pos in
  let saw_digit := existsb is_ascii_digit (run (or_underscore is_ascii_digit) (zdrop pos bytes)) in
  if saw_digit then skip_run (or_underscore is_ascii_digit) bytes pos else exp_start.
Definition exponent_end (bytes : list Z) (pos : Z) : Z :=
  if byte_satisfies is_exponent_mark bytes pos then exponent_digits bytes pos else pos.

Definition some_token (m : scan Token) : scan (option Token) := t ← m; mret (Some t).
Definition try_number : scan (option Token) :=
  after_colons ← asks immediately_after_double_colon;
  if (after_colons : bool) then mret None
  else
    start ← look Lexer.position;
    bytes ← look Lexer.input;
    if negb (byte_satisfies is_ascii_digit bytes start) then mret None
    else
      let zero := byte_satisfies (Z.eqb 48) bytes start in
      if zero && byte_satisfies (is_either 120 88) bytes (start + 1) then some_token (prefixed_number start is_ascii_hexdigit "hexadecimal")
      else if zero && byte_satisfies (is_either 98 66) bytes (start + 1) then some_token (prefixed_number start is_binary_digit "binary")
      else if zero && byte_satisfies (is_either 111 79) bytes (start + 1) then some_token (prefixed_number start is_octal_digit "octal")
      else
        let pos := skip_run (or_underscore is_ascii_digit) bytes start in
        let pos := fraction_end bytes pos in
        let pos := exponent_end bytes pos in
        some_token (number_token start pos).

(** A number that starts with a dot, which is under the cursor. *)
Definition parse_decimal_number (start : Z) : scan Token :=
  _ ← advance;
  pos ← look Lexer.position;
  bytes ← look Lexer.input;
  let e_pos := skip_run (or_underscore is_ascii_digit) bytes pos in
  _ ← write (at_position e_pos);
  _ ← (if byte_satisfies is_exponent_mark bytes e_pos then
         _ ← advance;
         p ← look Lexer.position;
         _ ← (if byte_satisfies is_sign bytes p then advance else mret tt);
         p ← look Lexer.position;
         let saw_digit := existsb is_ascii_digit (run (or_underscore is_ascii_digit) (zdrop p bytes)) in
         write (at_position (if saw_digit then skip_run (or_underscore is_ascii_digit) bytes p else e_pos))
       else mret tt);
  pos ← look Lexer.position;
  number_token start pos.

(** ** Values (numeric.rs) *)

Module NumericBase.
Inductive t := Decimal | LegacyOctal | ExplicitOctal | Binary | Hexadecimal.
#[export] Instance t_dec : EqDecision t.
Proof. solve_decision. Defined.
End NumericBase.
Export (hints) NumericBase.

Definition u64_max : Z := usize_max.
(** [char::to_digit(radix)] *)
Definition digit_value (radix c : Z) : option Z :=
  let v := if is_ascii_digit c then Some (c - 48) else if between 97 122 c then Some (c - 87) else if between 65 90 c then Some (c - 55) else None in
  match v with Some v => if v <? radix then Some v else None | None => None end.
(** [u64::from_str_radix], on the digits behind an optional plus sign *)
Fixpoint from_digits (radix acc : Z) (s : list Z) : option Z :=
  match s with
  | [] => Some acc
  | c :: s =>
    v ← digit_value radix c;
    let acc := acc * radix + v in
    if acc <=? u64_max then from_digits radix acc s else None
  end.
Definition from_str_radix (s : list Z) (radix : Z) : option Z :=
  match s with
  | [] => None
  | c :: rest => if is_sign c && bool_decide (rest = []) then None else if c =? 43 then from_digits radix 0 rest else from_digits radix 0 s
  end.
Definition starts_signed (s : list Z) : bool := is_some_and (head s) is_sign.
Definition parse_prefixed (digits : list Z) (radix : Z) (base : NumericBase.t) : option (Z * NumericBase.t) :=
  if bool_decide (digits = []) || starts_signed digits then None
  else v ← from_str_radix digits radix; Some (v, base).
Definition without_underscores (s : list Z) : list Z := filter (fun c => c <> 95) s.
Definition parse_perl_integer (s : list Z) : option (Z * NumericBase.t) :=
  if bool_decide (s = []) || bool_decide (head s = Some 95) then None
  else
    let s := without_underscores s in
    match s with
    | z :: x :: digits =>
      if (z =? 48) && is_either 120 88 x then parse_prefixed digits 16 NumericBase.Hexadecimal
      else if (z =? 48) && is_either 98 66 x then parse_prefixed digits 2 NumericBase.Binary
      else if (z =? 48) && is_either 111 79 x then parse_prefixed digits 8 NumericBase.ExplicitOctal
      else if z =? 48 then parse_prefixed (x :: digits) 8 NumericBase.LegacyOctal
      else if starts_signed s then None
      else v ← from_str_radix s 10; Some (v, NumericBase.Decimal)
    | _ => if starts_signed s then None else v ← from_str_radix s 10; Some (v, NumericBase.Decimal)
    end.
Example integer_values :
  parse_perl_integer (bytes_of "017") = Some (15, NumericBase.LegacyOctal) /\ parse_perl_integer (bytes_of "018") = None /\ parse_perl_integer (bytes_of "0") = Some (0, NumericBase.Decimal) /\
  parse_perl_integer (bytes_of "0x1F") = Some (31, NumericBase.Hexadecimal) /\ parse_perl_integer (bytes_of "0b101") = Some (5, NumericBase.Binary) /\ parse_perl_integer (bytes_of "0o17") = Some (15, NumericBase.ExplicitOctal) /\
  parse_perl_integer (bytes_of "1_000") = Some (1000, NumericBase.Decimal) /\ parse_perl_integer (bytes_of "0_17") = Some (15, NumericBase.LegacyOctal) /\ parse_perl_integer (bytes_of "1.5") = None.
Proof. by vm_compute. Qed.
(** The separators are gone before the prefix is looked for. *)
Example separator_in_prefix : parse_perl_integer (bytes_of "0_x1F") = Some (31, NumericBase.Hexadecimal).
Proof. by vm_compute. Qed.

(** ** Spellings of integers *)

(** The number that digits stand for, behind [acc]. *)
Fixpoint place_value (radix acc : Z) (s : list Z) : option Z :=
  match s with [] => Some acc | c :: s => v ← digit_value radix c; place_value radix (acc * radix + v) s end.
Definition radix_of (base : NumericBase.t) : Z :=
  match base with NumericBase.Decimal => 10 | NumericBase.LegacyOctal | NumericBase.ExplicitOctal => 8 | NumericBase.Binary => 2 | NumericBase.Hexadecimal => 16 end.
Definition prefixes (base : NumericBase.t) : list (list Z) :=
  match base with
  | NumericBase.Decimal => [[]]
  | NumericBase.LegacyOctal => [[48]]
  | NumericBase.ExplicitOctal => [[48; 111]; [48; 79]]
  | NumericBase.Binary => [[48; 98]; [48; 66]]
  | NumericBase.Hexadecimal => [[48; 120]; [48; 88]]
  end.
(** A prefix and digits of its base; decimal digits do not start with zero
    unless they are zero. *)
Definition spells (base : NumericBase.t) (v : Z) (s : list Z) : Prop :=
  exists p ds, s = p ++ ds /\ p ∈ prefixes base /\ ds <> [] /\ place_value (radix_of base) 0 ds = Some v /\
    (base = NumericBase.Decimal -> head ds <> Some 48 \/ ds = [48]).

Lemma digit_value_range radix c v : digit_value radix c = Some v -> 0 <= v < radix.
Proof.
  unfold digit_value, is_ascii_digit, between. intros E.
  repeat match type of E with context [if ?b then _ else _] => destruct b eqn:? end; simplify_eq; rewrite ?andb_true_iff, ?Z.leb_le, ?Z.ltb_lt in *; lia.
Qed.
Lemma place_value_ge radix acc s v : 1 <= radix -> 0 <= acc -> place_value radix acc s = Some v -> acc <= v.
Proof.
  intros Hr. revert acc. induction s as [|c s IH]; intros acc Ha; simpl; [intros [= <-]; lia|].
  destruct (digit_value radix c) as [d|] eqn:Ed; simpl; [|done]. apply digit_value_range in Ed. intros Hv. apply IH in Hv; nia.
Qed.
Lemma from_digits_value radix acc s : 1 <= radix -> 0 <= acc <= u64_max ->
  from_digits radix acc s = match place_value radix acc s with Some v => if v <=? u64_max then Some v else None | None => None end.
Proof.
  intros Hr. revert acc. induction s as [|c s IH]; intros acc Ha; simpl; [by rewrite (proj2 (Z.leb_le _ _)) by lia|].
  destruct (digit_value radix c) as [d|] eqn:Ed; simpl; [|done]. apply digit_value_range in Ed.
  destruct (Z.leb_spec (acc * radix + d) u64_max) as [Hle|Hgt]; [apply IH; nia|].
  destruct (place_value radix (acc * radix + d) s) as [v|] eqn:Ev; [|done]. apply place_value_ge in Ev; [|done|nia]. by rewrite (proj2 (Z.leb_gt _ _)) by lia.
Qed.
Lemma place_value_unsigned radix s v : place_value radix 0 s = Some v -> starts_signed s = false.
Proof.
  destruct s as [|c s]; [done|]. simpl. destruct (digit_value radix c) eqn:E; [|done]. intros _. unfold starts_signed, is_sign, is_either. simpl.
  destruct (Z.eqb_spec c 43) as [->|]; [done|]. by destruct (Z.eqb_spec c 45) as [->|].
Qed.
Lemma unsigned_radix s radix : s <> [] -> starts_signed s = false -> 1 <= radix ->
  from_str_radix s radix = match place_value radix 0 s with Some v => if v <=? u64_max then Some v else None | None => None end.
Proof.
  intros Hn Hs Hr. destruct s as [|c s]; [done|]. unfold starts_signed, is_sign, is_either in Hs. simpl in Hs. apply orb_false_iff in Hs as [H1 H2].
  unfold from_str_radix, is_sign, is_either. rewrite H1, H2. simpl orb. cbv iota. by rewrite from_digits_value by (unfold u64_max, usize_max; lia).
Qed.
Lemma radix_value s radix v : 1 <= radix -> s <> [] -> starts_signed s = false ->
  from_str_radix s radix = Some v <-> place_value radix 0 s = Some v /\ v <= u64_max.
Proof.
  intros Hr Hn Hs. rewrite unsigned_radix by done. destruct (place_value radix 0 s) as [x|]; [|naive_solver].
  destruct (Z.leb_spec x u64_max); split; [intros [= ->]; done|intros [[= ->] ?]; done|done|intros [[= ->] ?]; lia].
Qed.
Lemma parse_prefixed_value digits radix base v b : 1 <= radix ->
  parse_prefixed digits radix base = Some (v, b) <-> b = base /\ digits <> [] /\ place_value radix 0 digits = Some v /\ v <= u64_max.
Proof.
  intros Hr. unfold parse_prefixed. case_bool_decide as Hd; simpl; [naive_solver|]. destruct (starts_signed digits) eqn:Hs.
  - split; [done|]. intros (_ & _ & Hv & _). by rewrite (place_value_unsigned _ _ _ Hv) in Hs.
  - pose proof (radix_value digits radix) as Hx. destruct (from_str_radix digits radix) as [x|]; simpl.
    + split; [intros [= -> ->]; split; [done|]; split; [done|]; by apply Hx|]. intros (-> & _ & Hv). apply Hx in Hv as [= ->]; done.
    + split; [done|]. intros (_ & _ & Hv). by apply Hx in Hv.
Qed.

Definition prefix_bytes (base : NumericBase.t) (x : Z) : Prop :=
  match base with
  | NumericBase.ExplicitOctal => x = 111 \/ x = 79
  | NumericBase.Binary => x = 98 \/ x = 66
  | NumericBase.Hexadecimal => x = 120 \/ x = 88
  | _ => False
  end.
(** A spelling, by its first bytes. *)
Lemma spells_prefixed base v x ds : prefix_bytes base x -> ds <> [] -> place_value (radix_of base) 0 ds = Some v -> spells base v (48 :: x :: ds).
Proof. intros Hx Hn Hv. exists [48; x], ds. split; [done|]. split; [destruct base; simpl in *; try done; destruct Hx as [-> | ->]; [by left|by right; left|by left|by right; left|by left|by right; left]|]. split; [done|]. split; [done|]. by destruct base. Qed.
Lemma spells_cases base v t : spells base v t ->
  (exists x ds, t = 48 :: x :: ds /\ prefix_bytes base x /\ ds <> [] /\ place_value (radix_of base) 0 ds = Some v) \/
  (base = NumericBase.LegacyOctal /\ exists ds, t = 48 :: ds /\ ds <> [] /\ place_value 8 0 ds = Some v) \/
  (base = NumericBase.Decimal /\ t <> [] /\ place_value 10 0 t = Some v /\ (head t <> Some 48 \/ t = [48])).
Proof.
  intros (p & ds & -> & Hp & Hn & Hv & Hd). destruct base; simpl in Hp.
  - apply list_elem_of_singleton in Hp as ->. right. right. simpl. split; [done|]. split; [done|]. split; [done|]. by apply Hd.
  - apply list_elem_of_singleton in Hp as ->. right. left. split; [done|]. by exists ds.
  - left. apply elem_of_cons in Hp as [->|Hp%list_elem_of_singleton]; [exists 111, ds; split_and!; [done|by left|done|done]|subst p; exists 79, ds; split_and!; [done|by right|done|done]].
  - left. apply elem_of_cons in Hp as [->|Hp%list_elem_of_singleton]; [exists 98, ds; split_and!; [done|by left|done|done]|subst p; exists 66, ds; split_and!; [done|by right|done|done]].
  - left. apply elem_of_cons in Hp as [->|Hp%list_elem_of_singleton]; [exists 120, ds; split_and!; [done|by left|done|done]|subst p; exists 88, ds; split_and!; [done|by right|done|done]].
Qed.
Lemma is_either_iff x y b : is_either x y b = true <-> b = x \/ b = y.
Proof. unfold is_either. rewrite orb_true_iff, !Z.eqb_eq. done. Qed.
Lemma letter_is_no_octal x ds : 56 <= x -> place_value 8 0 (x :: ds) = None.
Proof.
  intros Hx. simpl. destruct (digit_value 8 x) as [v|] eqn:E; [|done]. exfalso. revert E. unfold digit_value, is_ascii_digit, between.
  repeat match goal with |- context [if ?b then _ else _] => destruct b eqn:? end; intros; simplify_eq; rewrite ?andb_true_iff, ?Z.leb_le, ?Z.ltb_lt in *; lia.
Qed.
Lemma decimal_value t v b : (if starts_signed t then None else v ← from_str_radix t 10; Some (v, NumericBase.Decimal)) = Some (v, b) <->
  b = NumericBase.Decimal /\ t <> [] /\ place_value 10 0 t = Some v /\ v <= u64_max.
Proof.
  destruct (starts_signed t) eqn:Hs; [split; [done|]; intros (_ & _ & Hv & _); by rewrite (place_value_unsigned _ _ _ Hv) in Hs|].
  destruct t as [|c t]; [split; [done|naive_solver]|]. pose proof (fun x => radix_value (c :: t) 10 x ltac:(lia) ltac:(done) Hs) as Hx. destruct (from_str_radix (c :: t) 10) as [x|]; cbn [mbind option_bind].
  - split; [intros [= -> <-]; split; [done|]; split; [done|]; by apply Hx|]. intros (-> & _ & Hv). apply Hx in Hv as [= ->]. done.
  - split; [done|]. intros (_ & _ & Hv). by apply Hx in Hv.
Qed.

(** The texts that have a value are exactly those that do not start with a
    separator and, without their separators, spell an integer of 64 bits. *)
Lemma parse_perl_integer_exact s v base : parse_perl_integer s = Some (v, base) <->
  s <> [] /\ head s <> Some 95 /\ spells base v (without_underscores s) /\ v <= u64_max.
Proof.
  unfold parse_perl_integer. case_bool_decide as Hs; [naive_solver|]. case_bool_decide as Hu; [naive_solver|]. simpl orb. cbv iota. generalize (without_underscores s). intros t.
  transitivity (spells base v t /\ v <= u64_max); [|tauto]. clear s Hs Hu.
  destruct t as [|z [|x ds]].
  - rewrite decimal_value. split; [tauto|]. intros [H%spells_cases _]. naive_solver.
  - rewrite decimal_value. split.
    + intros (-> & _ & Hv & Hm). split; [|done]. exists [], [z]. split; [done|]. split; [by left|]. split; [done|]. split; [done|]. intros _. destruct (Z.eq_dec z 48) as [->|]; [by right|left; simpl; congruence].
    + intros [H%spells_cases Hm]. destruct H as [(? & ? & ? & _)|[(_ & ds & [= -> <-] & ? & _)|(-> & ? & ? & _)]]; done.
  - destruct (Z.eqb_spec z 48) as [->|Hz]; simpl andb; cbv iota.
    + destruct (is_either 120 88 x) eqn:E1; [|destruct (is_either 98 66 x) eqn:E2; [|destruct (is_either 111 79 x) eqn:E3]].
      1,2,3: rewrite parse_prefixed_value by lia; rewrite is_either_iff in *; split;
        [intros (-> & Hn & Hv & Hm); split; [by apply spells_prefixed|done]|].
      1,2,3: intros [H%spells_cases Hm]; destruct H as [(y & ds' & [= <- <-] & Hp & Hn & Hv)|[(_ & ds' & [= <-] & _ & Hv)|(_ & _ & _ & [?|?])]]; [|rewrite letter_is_no_octal in Hv by lia; done|done|done].
      1,2,3: destruct base; simpl in Hp; try done; try lia; naive_solver.
      rewrite parse_prefixed_value by lia. rewrite <-not_true_iff_false, is_either_iff in E1, E2, E3. split.
      * intros (-> & Hn & Hv & Hm). split; [|done]. exists [48], (x :: ds). split; [done|]. split; [by left|]. split; [done|]. split; [done|]. done.
      * intros [H%spells_cases Hm]. destruct H as [(y & ds' & [= <- <-] & Hp & Hn & Hv)|[(-> & ds' & [= <-] & ? & Hv)|(_ & _ & _ & [?|?])]]; [destruct base; simpl in Hp; tauto|done|done|done].
    + rewrite decimal_value. split.
      * intros (-> & Hn & Hv & Hm). split; [|done]. exists [], (z :: x :: ds). split; [done|]. split; [by left|]. split; [done|]. split; [done|]. intros _. left. simpl. congruence.
      * intros [H%spells_cases Hm]. destruct H as [(y & ds' & [= -> _ _] & _)|[(_ & ds' & [= -> _] & _)|(-> & ? & ? & _)]]; done.
Qed.

(** ** Integers as tokens *)

(** The text of an integer in a program: a prefix, then digits with separators
    among them; a decimal one starts with a digit. *)
Definition integer_literal (base : NumericBase.t) (v : Z) (w : list Z) : Prop :=
  exists p body, w = p ++ body /\ p ∈ prefixes base /\ without_underscores body <> [] /\ place_value (radix_of base) 0 (without_underscores body) = Some v /\
    (base = NumericBase.Decimal -> head body <> Some 95 /\ (head body <> Some 48 \/ without_underscores body = [48])).
(** What may follow it: no letter, digit, separator or dot. *)
Definition ends_number (rest : list Z) : Prop := is_some_and (head rest) (fun x => is_ascii_alphanumeric x || (x =? 95) || (x =? 46)) = false.

Definition is_digit_of (radix c : Z) : bool := match digit_value radix c with Some _ => true | None => false end.
Lemma digit_value_byte radix c v : digit_value radix c = Some v -> is_ascii_alphanumeric c = true /\ c <> 95 /\ 0 <= c < 128.
Proof.
  unfold digit_value, is_ascii_alphanumeric, is_ascii_alphabetic, is_ascii_digit, between. intros E.
  repeat match type of E with context [if ?b then _ else _] => destruct b eqn:? end; simplify_eq; rewrite ?andb_true_iff, ?Z.leb_le, ?Z.ltb_lt in *; split_and!; try lia.
  all: rewrite !orb_true_iff, !andb_true_iff, !Z.leb_le; lia.
Qed.
Lemma place_value_digits radix acc s v : place_value radix acc s = Some v -> Forall (fun c => is_digit_of radix c = true) s.
Proof.
  revert acc. induction s as [|c s IH]; intros acc; simpl; [constructor|]. unfold is_digit_of at 1. destruct (digit_value radix c) eqn:E; simpl; [|done].
  intros Hv. constructor; [unfold is_digit_of; by rewrite E|by eapply IH].
Qed.
Lemma digits_of_body radix body v : place_value radix 0 (without_underscores body) = Some v -> Forall (fun c => or_underscore (is_digit_of radix) c = true) body.
Proof.
  intros Hv%place_value_digits. apply Forall_forall. intros c Hc. unfold or_underscore. destruct (Z.eqb_spec c 95); [by rewrite orb_true_r|]. rewrite orb_false_r.
  rewrite Forall_forall in Hv. apply Hv. by apply list_elem_of_filter.
Qed.
Ltac byte_ranges :=
  repeat match goal with H : context [if ?b then _ else _] |- _ => destruct b eqn:? | |- context [if ?b then _ else _] => destruct b eqn:? end;
  rewrite ?andb_true_iff, ?orb_true_iff, ?andb_false_iff, ?Z.leb_le, ?Z.leb_gt, ?Z.ltb_lt, ?Z.ltb_ge, ?Z.eqb_eq in *; try done; try lia.
(** The digits that the lexer takes are those of the base. *)
Lemma lexer_digit base c : is_digit_of (radix_of base) c = true ->
  match base with NumericBase.Decimal | NumericBase.LegacyOctal => is_ascii_digit c | NumericBase.ExplicitOctal => is_octal_digit c | NumericBase.Binary => is_binary_digit c | NumericBase.Hexadecimal => is_ascii_hexdigit c end = true.
Proof.
  unfold is_digit_of, digit_value. destruct base; unfold is_octal_digit, is_binary_digit, is_ascii_hexdigit, is_ascii_digit, between; simpl radix_of; intros E; byte_ranges.
Qed.
Lemma run_of_app p w rest : Forall (fun c => p c = true) w -> is_some_and (head rest) p = false -> run p (w ++ rest) = w.
Proof.
  intros Hw Hr. induction Hw as [|c w Hc _ IH]; simpl; [destruct rest as [|c rest]; [done|]; simpl in *; by rewrite Hr|]. by rewrite Hc, IH.
Qed.
Lemma ends_no_digit rest p : ends_number rest -> (forall c, p c = true -> is_ascii_alphanumeric c = true \/ c = 95 \/ c = 46) -> is_some_and (head rest) p = false.
Proof.
  unfold ends_number. destruct rest as [|c rest]; [done|]. simpl. intros He Hp. destruct (p c) eqn:E; [|done]. exfalso. rewrite !orb_false_iff in He. destruct He as [[Ha Hu] Hd].
  destruct (Hp c E) as [H|[->| ->]]; [congruence|done|done].
Qed.

Section token.
Context (l : PerlLexer) (b rest a w : list Z) (Hv : view l b (w ++ rest) a) (Hascii : ascii w).
Let tail := encode (rest ++ a).
Hypothesis Hends : ends_number tail.

Lemma tail_bytes : zdrop (Lexer.position l) (Lexer.input l) = w ++ tail.
Proof using Hv Hascii. rewrite (view_bytes _ _ _ _ Hv). rewrite <-app_assoc, encode_app. by rewrite (encode_ascii w). Qed.
Lemma position_pos : 0 <= Lexer.position l.
Proof using Hv. rewrite (view_position _ _ _ _ Hv). apply blen_nonneg. Qed.
Lemma byte_ahead i : 0 <= i -> zget (Lexer.input l) (Lexer.position l + i) = zget (w ++ tail) i.
Proof using Hv Hascii. intros Hi. rewrite <-tail_bytes. symmetry. apply zget_zdrop; [apply position_pos|done]. Qed.
Lemma bytes_ahead i : 0 <= i -> zdrop (Lexer.position l + i) (Lexer.input l) = zdrop i (w ++ tail).
Proof using Hv Hascii.
  intros Hi. rewrite <-tail_bytes. unfold zdrop. rewrite drop_drop. f_equal. pose proof position_pos. lia.
Qed.
Lemma token_of_text : number_token (Lexer.position l) (Lexer.position l + len w) l =
  Ret (mkToken (TNumber w) w (Lexer.position l) (Lexer.position l + len w), with_mode ExpectOperator (at_position (Lexer.position l + len w) l)).
Proof using Hv Hascii.
  unfold number_token, write, text_from, asks, mbind, scan_bind. simpl.
  assert (str_index (Lexer.input l) (Lexer.position l) (Lexer.position l + len w) = Ret w) as ->; [|done].
  destruct Hv as [Hs Hi Hp _ _]. rewrite Hi, Hp. replace (len w) with (blen w) by (rewrite <-len_encode; by rewrite encode_ascii).
  replace (b ++ (w ++ rest) ++ a) with (b ++ w ++ (rest ++ a)) in Hs |- * by (by rewrite <-!app_assoc). rewrite str_index_mid by done. by rewrite encode_ascii.
Qed.

Lemma prefixed_token digit kind x body : w = 48 :: x :: body -> Forall (fun c => or_underscore digit c = true) body -> existsb digit body = true ->
  is_some_and (head tail) (or_underscore digit) = false ->
  prefixed_number (Lexer.position l) digit kind l =
    Ret (mkToken (TNumber w) w (Lexer.position l) (Lexer.position l + len w), with_mode ExpectOperator (at_position (Lexer.position l + len w) l)).
Proof using Hv Hascii.
  intros Ew Hb He Ht. unfold prefixed_number, look, mbind, scan_bind. cbv zeta.
  assert (Hrun : run (or_underscore digit) (zdrop (Lexer.position l + 2) (Lexer.input l)) = body) by (rewrite bytes_ahead by lia; rewrite Ew; by apply run_of_app).
  assert (Hlen : len w = 2 + len body) by (rewrite Ew, !len_cons; lia).
  unfold skip_run. rewrite Hrun, He, <-Z.add_assoc, <-Hlen. pose proof (len_nonneg body). destruct body as [|c body]; [done|]. rewrite len_cons in *. pose proof (len_nonneg body).
  rewrite (proj2 (Z.ltb_lt _ _)) by lia. simpl andb. cbv iota. apply token_of_text.
Qed.
Lemma decimal_token : Forall (fun c => or_underscore is_ascii_digit c = true) w ->
  exponent_end (Lexer.input l) (fraction_end (Lexer.input l) (skip_run (or_underscore is_ascii_digit) (Lexer.input l) (Lexer.position l))) = Lexer.position l + len w.
Proof using Hv Hascii Hends.
  intros Hw. unfold skip_run. rewrite <-(Z.add_0_r (Lexer.position l)) at 2. rewrite bytes_ahead by lia. rewrite zdrop_0 by lia.
  rewrite run_of_app; [|done|apply ends_no_digit; [done|]].
  - assert (Hat : forall p, (forall c, p c = true -> is_ascii_alphanumeric c = true \/ c = 95 \/ c = 46) -> byte_satisfies p (Lexer.input l) (Lexer.position l + len w) = false).
    { intros p Hp. unfold byte_satisfies. rewrite byte_ahead by apply len_nonneg. rewrite zget_app_r by lia. rewrite Z.sub_diag.
      rewrite <-(ends_no_digit tail p Hends Hp). by destruct tail. }
    unfold fraction_end. rewrite Hat by (intros c Hc%Z.eqb_eq; auto). unfold exponent_end. rewrite Hat; [done|]. intros c [-> | ->]%is_either_iff; by left.
  - unfold or_underscore. intros c [Hc|Hc%Z.eqb_eq]%orb_true_iff; [left; unfold is_ascii_alphanumeric; by rewrite Hc|auto].
Qed.
Lemma no_colons : ~ (exists q, encode b = q ++ [58; 58]) -> immediately_after_double_colon l = Ret false.
Proof using Hv.
  intros Hq. unfold immediately_after_double_colon, index. rewrite (view_position _ _ _ _ Hv), (view_input _ _ _ _ Hv), encode_app, <-(len_encode b). revert Hq. generalize (encode b). intros s Hq.
  destruct (Z.leb_spec 2 (len s)) as [H2|]; [|done]. destruct s as [|y s _] using rev_ind; [by rewrite len_nil in H2|]. destruct s as [|x s _] using rev_ind; [by rewrite len_app, len_nil in H2|].
  rewrite <-!app_assoc, !len_app, !len_cons, len_nil. simpl. replace (len s + (1 + 0 + (1 + 0)) - 2) with (len s) by lia. rewrite zget_app_len. simpl.
  destruct (Z.eqb_spec x 58) as [->|]; [|done]. replace (len s + (1 + 0 + (1 + 0)) - 1) with (len (s ++ [58])) by (rewrite len_app, len_cons, len_nil; lia).
  rewrite (cons_middle 58 s), app_assoc, zget_app_len. simpl.
  destruct (Z.eqb_spec y 58) as [->|]; [|done]. destruct Hq. exists s. by rewrite <-app_assoc.
Qed.
End token.

Lemma literal_shape base v w : integer_literal base v w -> ascii w /\
  ((exists x body, w = 48 :: x :: body /\ prefix_bytes base x /\ Forall (fun c => or_underscore (is_digit_of (radix_of base)) c = true) body /\ existsb (is_digit_of (radix_of base)) body = true) \/
   ((base = NumericBase.Decimal \/ base = NumericBase.LegacyOctal) /\ Forall (fun c => or_underscore is_ascii_digit c = true) w /\
    exists c w', w = c :: w' /\ is_ascii_digit c = true /\ (c = 48 -> is_some_and (head w') (fun x => negb (or_underscore is_ascii_digit x)) = false))).
Proof.
  intros (p & body & -> & Hp & Hn & Hval & Hd). pose proof (digits_of_body _ _ _ Hval) as Hb. split.
  - apply Forall_app. split.
    + destruct base; simpl in Hp; repeat (apply elem_of_cons in Hp as [->|Hp]); try (by apply elem_of_nil in Hp); repeat constructor; lia.
    + eapply Forall_impl; [exact Hb|]. simpl. intros c [Hc|Hc%Z.eqb_eq]%orb_true_iff; [|lia]. unfold is_digit_of in Hc. destruct (digit_value _ c) eqn:E; [|done]. by apply digit_value_byte in E as (_ & _ & ?).
  - assert (He : existsb (is_digit_of (radix_of base)) body = true).
    { apply existsb_exists. destruct (without_underscores body) as [|c ds] eqn:E; [done|]. assert (Hc : c ∈ without_underscores body) by (rewrite E; by left). apply list_elem_of_filter in Hc as [Hc Hin].
      exists c. split; [by apply list_elem_of_In|]. rewrite Forall_forall in Hb. specialize (Hb c Hin). unfold or_underscore in Hb. apply orb_true_iff in Hb as [?|?%Z.eqb_eq]; done. }
    assert (Hdig : base = NumericBase.Decimal \/ base = NumericBase.LegacyOctal -> Forall (fun c => or_underscore is_ascii_digit c = true) body).
    { intros Hbase. eapply Forall_impl; [exact Hb|]. simpl. unfold or_underscore. intros c [Hc| ->]%orb_true_iff; [|by rewrite orb_true_r]. apply lexer_digit in Hc. destruct Hbase as [-> | ->]; by rewrite Hc. }
    destruct base; simpl in Hp.
    + apply list_elem_of_singleton in Hp as ->. right. split; [by left|]. split; [by apply Hdig; left|]. destruct (Hd eq_refl) as [Hu H0]. destruct body as [|c body]; [done|]. exists c, body. split; [done|].
      specialize (Hdig (or_introl eq_refl)). apply Forall_cons in Hdig as [Hc Hbody]. apply orb_true_iff in Hc as [Hc|Hc%Z.eqb_eq]; [|by subst c]. split; [done|]. intros _.
      destruct body as [|x body]; [done|]. apply Forall_cons in Hbody as [Hx _]. simpl. by rewrite Hx.
    + apply list_elem_of_singleton in Hp as ->. right. split; [by right|]. specialize (Hdig (or_intror eq_refl)). split; [by constructor|]. exists 48, body. split; [done|]. split; [done|]. intros _.
      destruct body as [|x body]; [done|]. apply Forall_cons in Hdig as [Hx _]. simpl. by rewrite Hx.
    + left. apply elem_of_cons in Hp as [->|Hp%list_elem_of_singleton]; [exists 111, body; split_and!; [done|by left|done|done]|subst p; exists 79, body; split_and!; [done|by right|done|done]].
    + left. apply elem_of_cons in Hp as [->|Hp%list_elem_of_singleton]; [exists 98, body; split_and!; [done|by left|done|done]|subst p; exists 66, body; split_and!; [done|by right|done|done]].
    + left. apply elem_of_cons in Hp as [->|Hp%list_elem_of_singleton]; [exists 120, body; split_and!; [done|by left|done|done]|subst p; exists 88, body; split_and!; [done|by right|done|done]].
Qed.

Lemma spells_unique base base' v v' s : spells base v s -> spells base' v' s -> base = base' /\ v = v'.
Proof.
  intros [(x & ds & -> & Hx & Hn & Hv)|[(-> & ds & -> & Hn & Hv)|(-> & Hn & Hv & Hh)]]%spells_cases [(x' & ds' & E & Hx' & Hn' & Hv')|[(-> & ds' & E & Hn' & Hv')|(-> & Hn' & Hv' & Hh')]]%spells_cases; simplify_eq.
  - assert (base = base') as -> by (destruct base, base'; simpl in *; try done; lia). split; [done|congruence].
  - exfalso. rewrite letter_is_no_octal in Hv' by (destruct base; simpl in Hx; lia). done.
  - exfalso. naive_solver.
  - exfalso. rewrite letter_is_no_octal in Hv by (destruct base'; simpl in Hx'; lia). done.
  - split; [done|congruence].
  - exfalso. naive_solver.
  - exfalso. naive_solver.
  - exfalso. naive_solver.
  - split; [done|congruence].
Qed.

Lemma literal_value base v w : integer_literal base v w -> parse_perl_integer w = if v <=? u64_max then Some (v, base) else None.
Proof.
  intros Hlit.
  destruct Hlit as (p & body & -> & Hp & Hn & Hval & Hd).
  assert (Hstrip : without_underscores (p ++ body) = p ++ without_underscores body).
  { unfold without_underscores. rewrite filter_app. f_equal. destruct base; simpl in Hp; repeat (apply elem_of_cons in Hp as [->|Hp]); try (by apply elem_of_nil in Hp); done. }
  assert (Hspell : spells base v (without_underscores (p ++ body))).
  { rewrite Hstrip. exists p, (without_underscores body). split_and!; try done. intros Hb. destruct (Hd Hb) as [Hu [H0|H0]]; [left|by right]. destruct body as [|c body]; [done|].
    unfold without_underscores. rewrite filter_cons_True; [done|]. intros ->. by apply Hu. }
  assert (Hstart : p ++ body <> [] /\ head (p ++ body) <> Some 95).
  { destruct base; simpl in Hp; repeat (apply elem_of_cons in Hp as [->|Hp]); try (by apply elem_of_nil in Hp); try done. simpl. split; [by intros ->|]. by apply Hd. }
  destruct (Z.leb_spec v u64_max) as [Hle|Hgt]; [by apply parse_perl_integer_exact; destruct Hstart|].
  destruct (parse_perl_integer (p ++ body)) as [[v' base']|] eqn:E; [|done]. apply parse_perl_integer_exact in E as (_ & _ & Hs & Hle). destruct (spells_unique _ _ _ _ _ Hspell Hs) as [_ ->]. lia.
Qed.
Lemma literal_lexes base v w rest l b a : integer_literal base v w -> view l b (w ++ rest) a -> ends_number (encode (rest ++ a)) ->
  ~ (exists q, encode b = q ++ [58; 58]) ->
  try_number l = Ret (Some (mkToken (TNumber w) w (Lexer.position l) (Lexer.position l + len w)), with_mode ExpectOperator (at_position (Lexer.position l + len w) l)).
Proof.
  intros Hlit Hv Hends Hcolons. destruct (literal_shape base v w Hlit) as [Hascii Hshape].
  unfold try_number, asks, look, mbind, scan_bind. rewrite (no_colons l b rest a w Hv Hcolons).
  assert (Hsat : forall p i, 0 <= i -> byte_satisfies p (Lexer.input l) (Lexer.position l + i) = is_some_and (zget (w ++ encode (rest ++ a)) i) p).
  { intros p i Hi. unfold byte_satisfies. by rewrite (byte_ahead l b rest a w Hv Hascii) by done. }
  pose proof (fun p => Hsat p 0 ltac:(lia)) as H0. rewrite Z.add_0_r in H0. pose proof (fun p => Hsat p 1 ltac:(lia)) as H1. cbv zeta. rewrite !H0, !H1. clear H0 H1 Hsat.
  unfold some_token, mbind, scan_bind, mret, scan_ret. destruct Hshape as [(x & body & Ew & Hx & Hb & He)|(Hbase & Hw & c & w' & Ew & Hc & Hz)].
  + assert (Hdigit : forall d, (forall c, is_digit_of (radix_of base) c = true -> d c = true) -> (forall c, d c = true -> is_ascii_alphanumeric c = true) -> forall kind,
      prefixed_number (Lexer.position l) d kind l = Ret (mkToken (TNumber w) w (Lexer.position l) (Lexer.position l + len w), with_mode ExpectOperator (at_position (Lexer.position l + len w) l))).
    { intros d Hd Hal kind. apply (prefixed_token l b rest a w Hv Hascii d kind x body Ew).
      - eapply Forall_impl; [exact Hb|]. simpl. unfold or_underscore. intros c [Hc| ->]%orb_true_iff; [by rewrite (Hd c Hc)|by rewrite orb_true_r].
      - apply existsb_exists in He as (c & Hin & Hc). apply existsb_exists. exists c. auto.
      - apply ends_no_digit; [done|]. intros c [Hc|Hc%Z.eqb_eq]%orb_true_iff; [left; by apply Hal|auto]. }
    assert (H0 : zget (w ++ encode (rest ++ a)) 0 = Some 48) by (by rewrite Ew). assert (H1 : zget (w ++ encode (rest ++ a)) 1 = Some x) by (by rewrite Ew).
    rewrite H0, H1. destruct base; simpl in Hx; try done; destruct Hx as [-> | ->]; simpl; rewrite Hdigit; try done; intros d;
      try exact (lexer_digit NumericBase.ExplicitOctal d); try exact (lexer_digit NumericBase.Binary d); try exact (lexer_digit NumericBase.Hexadecimal d).
    all: unfold is_octal_digit, is_binary_digit, is_ascii_hexdigit, is_ascii_alphanumeric, is_ascii_alphabetic, is_ascii_digit, between; rewrite ?orb_true_iff, ?andb_true_iff, ?Z.leb_le, ?Z.eqb_eq; lia.
  + assert (H0 : zget (w ++ encode (rest ++ a)) 0 = Some c) by (by rewrite Ew). rewrite H0. simpl. rewrite Hc. simpl.
    assert (H1 : c = 48 -> is_some_and (zget (w ++ encode (rest ++ a)) 1) (fun x => negb (or_underscore is_ascii_digit x) && is_ascii_alphanumeric x) = false).
    { intros E. specialize (Hz E). rewrite Ew. replace (zget ((c :: w') ++ encode (rest ++ a)) 1) with (head (w' ++ encode (rest ++ a))) by (destruct w'; simpl; [by destruct (encode (rest ++ a))|done]). destruct w' as [|x w']; simpl in *; [|by rewrite Hz].
      unfold ends_number in Hends. destruct (head (encode (rest ++ a))) as [x|]; [|done]. simpl in *. rewrite !orb_false_iff in Hends. destruct Hends as [[-> _] _]. by rewrite andb_false_r. }
    assert (Hn : forall x y, is_either x y 0 = false -> is_ascii_alphanumeric x && is_ascii_alphanumeric y = true -> or_underscore is_ascii_digit x || or_underscore is_ascii_digit y = false ->
      (48 =? c) && is_some_and (zget (w ++ encode (rest ++ a)) 1) (is_either x y) = false).
    { intros x y _ Hxy Hno. destruct (Z.eqb_spec 48 c) as [E|]; [|done]. simpl. specialize (H1 (eq_sym E)). destruct (zget (w ++ encode (rest ++ a)) 1) as [z|]; [|done]. simpl in *.
      destruct (is_either x y z) eqn:Ez; [|done]. apply is_either_iff in Ez. apply andb_true_iff in Hxy as [Hx Hy]. apply orb_false_iff in Hno as [Hnx Hny].
      destruct Ez as [-> | ->]; [rewrite Hx, Hnx in H1|rewrite Hy, Hny in H1]; done. }
    rewrite !Hn by done. rewrite (decimal_token l b rest a w Hv Hascii Hends Hw). by rewrite (token_of_text l b rest a w Hv Hascii).
Qed.

(** C16. An integer written in any base, with separators among its digits, and
    followed by nothing that could go on with it, lexes to one number token of
    exactly its text, behind which the lexer expects an operator; and the text
    of the token has the value of the integer, when 64 bits hold it. *)
Theorem integer_literal_round_trip base v w rest l b a : integer_literal base v w -> view l b (w ++ rest) a -> ends_number (encode (rest ++ a)) ->
  ~ (exists q, encode b = q ++ [58; 58]) ->
  try_number l = Ret (Some (mkToken (TNumber w) w (Lexer.position l) (Lexer.position l + len w)), with_mode ExpectOperator (at_position (Lexer.position l + len w) l)) /\
  parse_perl_integer w = if v <=? u64_max then Some (v, base) else None.
Proof. intros Hlit Hv Hends Hcolons. split; [by eapply literal_lexes|by apply literal_value]. Qed.

Definition number_lexer : PerlLexer := at_position 2 (lexer_new (bytes_of "$ 0x_1F;")).
Lemma integer_literal_round_trip_witness :
  try_number number_lexer = Ret (Some (mkToken (TNumber (bytes_of "0x_1F")) (bytes_of "0x_1F") 2 7), with_mode ExpectOperator (at_position 7 number_lexer)) /\
  parse_perl_integer (bytes_of "0x_1F") = Some (31, NumericBase.Hexadecimal).
Proof.
  apply (integer_literal_round_trip NumericBase.Hexadecimal 31 (bytes_of "0x_1F") [59] number_lexer (bytes_of "$ ") []).
  - exists (bytes_of "0x"), (bytes_of "_1F"). split_and!; [done|by left|by vm_compute|by vm_compute|done].
  - split; [by repeat constructor|done..].
  - done.
  - intros [q E]. apply (f_equal reverse) in E. rewrite reverse_app in E. done.
Defined.
(** Whatever follows the digits decides where a decimal number ends. *)
Example number_dots : (fun s => option_map text ∘ fst <$> try_number (lexer_new (bytes_of s))) <$> ["1..5"; "1.5.2"; "1.e"; "1.foo"; "2e+"; "3_0E-1x"]%string =
  Ret ∘ Some ∘ bytes_of <$> ["1"; "1.5"; "1."; "1"; "2"; "3_0E-1"]%string.
Proof. by vm_compute. Qed.
