(* ===== verification/LexerQuotes.v ===== *)
(** * Quote-like literals of the lexer (perl-lexer/src: lib.rs; quote_handler.rs;
      lexer/helpers: regex_literal.rs, heredoc_delimiter.rs)

    Single-quoted and backtick strings, regex literals under their budgets,
    delimited bodies with nested and escaped delimiters, substitutions and
    transliterations with their two bodies and modifiers, the bodies of data
    sections and formats, quoted heredoc delimiters, and the table of the
    quote operators with their modifiers.  The laws are in LexerQuoteLaws. *)

From Stdlib Require Import String.
From stdpp Require Import base numbers list strings.
From S2P Require Import Prelude Utf8 StdText Checkpoint LexerTokens LexerCursor LexerStrings LexerStringLaws LexerNumbers.

(** ** Operators (quote_handler.rs) *)

Record ModSpec := mkModSpec { spec_run : list Z; allow_charset : bool }.
Definition QR_SPEC : ModSpec := mkModSpec (bytes_of "imsxpno") true.
Definition M_SPEC : ModSpec := mkModSpec (bytes_of "imsxpngco") true.
Definition S_SPEC : ModSpec := mkModSpec (bytes_of "imsxpnergoc") true.
Definition TR_SPEC : ModSpec := mkModSpec (bytes_of "cdsr") false.
Definition canon_run (r : list Z) (spec : ModSpec) : list Z := filter (fun c => c ∈ r) (spec_run spec).
Definition all_in (run : list Z) (s : list Z) : bool := forallb (fun c => bool_decide (c ∈ run)) s.
(** The charset suffix of a tail of flags, the longest one first. *)
Definition charset_suffix (tail : list Z) : list Z * option (list Z) :=
  let n := length tail in
  if (2 <=? len tail) && bool_decide (drop (n - 2) tail = bytes_of "aa") then (take (n - 2) tail, Some (bytes_of "aa"))
  else match last tail with
  | Some c => if bool_decide (c ∈ bytes_of "adlu") then (take (n - 1) tail, Some [c]) else (tail, None)
  | None => (tail, None)
  end.
Definition split_tail_for_spec (tail : list Z) (spec : ModSpec) : option (list Z * option (list Z)) :=
  if negb (forallb is_ascii_alphabetic (chars tail)) then None
  else if negb (allow_charset spec) then if all_in (spec_run spec) tail then Some (canon_run tail spec, None) else None
  else
    let '(run_part, charset) := charset_suffix tail in
    if negb (all_in (spec_run spec) run_part) then None else Some (canon_run run_part spec, charset).
Definition is_word (w : list Z) (ws : list string) : bool := existsb (fun x => bool_decide (bytes_of x = w)) ws.
Definition is_quote_operator (word : list Z) : bool := is_word word ["q"; "qq"; "qw"; "qr"; "qx"; "m"; "s"; "tr"; "y"].
Definition get_quote_token_type (operator : list Z) : TokenType :=
  if is_word operator ["q"] then TQuoteSingle
  else if is_word operator ["qq"] then TQuoteDouble []
  else if is_word operator ["qw"] then TQuoteWords
  else if is_word operator ["qr"] then TQuoteRegex
  else if is_word operator ["qx"] then TQuoteCommand
  else if is_word operator ["m"] then TRegexMatch
  else if is_word operator ["s"] then TSubstitution
  else if is_word operator ["tr"; "y"] then TTransliteration
  else TError (bytes_of "Unknown quote operator: " ++ operator).
Definition get_mod_spec (operator : list Z) : option ModSpec :=
  if is_word operator ["qr"] then Some QR_SPEC
  else if is_word operator ["m"] then Some M_SPEC
  else if is_word operator ["s"] then Some S_SPEC
  else if is_word operator ["tr"; "y"] then Some TR_SPEC
  else None.

(** ** Tokens *)

(** The token of the text from [start] to the cursor, behind which an operator
    is expected. *)
Definition literal_token (token_type : TokenType) (start : Z) : scan Token :=
  text ← text_from start;
  _ ← write (with_mode ExpectOperator);
  e ← look Lexer.position;
  mret (mkToken token_type text start e).

(** ** Plain strings *)

(** A round of the scan of a string that ends at [quote]; [escapes] says which
    characters a backslash takes along.  The scan also stops when a round does
    not move. *)
Definition plain_string_step (quote : Z) (escapes : Z -> bool) (last_pos : Z) : scan (Z + bool) :=
  c ← asks current_char;
  match c with
  | None => mret (inr false)
  | Some ch =>
    if ch =? quote then _ ← advance; mret (inr true)
    else
      _ ← (if ch =? c_backslash then
             _ ← advance; c ← asks current_char;
             if is_some_and c escapes then advance else mret tt
           else advance);
      p ← look Lexer.position;
      if p =? last_pos then mret (inr false) else mret (inl p)
  end.
Definition plain_string (quote : Z) (escapes : Z -> bool) (token_type : TokenType) (start : Z) : scan Token :=
  _ ← advance;
  last_pos ← look Lexer.position;
  closed ← looping (plain_string_step quote escapes) last_pos;
  if (closed : bool) then literal_token token_type start else unterminated_string_error start.
Definition parse_single_quoted_string : Z -> scan Token := plain_string c_apostrophe (fun c => (c =? c_apostrophe) || (c =? c_backslash)) TStringLiteral.
Definition parse_backtick_string : Z -> scan Token := plain_string 96 (fun _ => true) TQuoteCommand.

(** ** Delimited bodies *)

(** The text read and the nesting depth; [should_recover] may stop the scan. *)
Definition delimited_step (delim : Z) (should_recover : PerlLexer -> Z -> bool) (st : list Z * Z) : scan (list Z * Z + list Z * bool) :=
  let '(body, depth) := st in
  let paired := paired_close delim in
  let close := default delim paired in
  c ← asks current_char;
  match c with
  | None => mret (inr (body, false))
  | Some ch =>
    self ← look id;
    if should_recover self (Lexer.position self) then mret (inr (body, false))
    else
      let body' := body ++ encode_char ch in
      if (ch =? c_backslash) && negb (delim =? c_backslash) then
        _ ← advance; c ← asks current_char;
        match c with
        | Some next => _ ← advance; mret (inl (body' ++ encode_char next, depth))
        | None => mret (inl (body', depth))
        end
      else if bool_decide (is_Some paired) && (ch =? delim) then
        _ ← advance; depth ← asks (fun _ => i32_op (depth + 1)); mret (inl (body', depth))
      else if ch =? close then
        if bool_decide (is_Some paired) then
          depth ← asks (fun _ => i32_op (depth - 1));
          if depth =? 0 then _ ← advance; mret (inr (body, true))
          else _ ← advance; mret (inl (body', depth))
        else _ ← advance; mret (inr (body, true))
      else _ ← advance; mret (inl (body', depth))
  end.
Definition read_delimited_body_with_recovery (delim : Z) (should_recover : PerlLexer -> Z -> bool) : scan (list Z * bool) :=
  looping (delimited_step delim should_recover) ([], match paired_close delim with Some _ => 1 | None => 0 end).
Definition read_delimited_body (delim : Z) : scan (list Z * bool) := read_delimited_body_with_recovery delim (fun _ _ => false).

(** ** Gaps, modifiers *)

Definition comment_step (_ : unit) : scan (unit + unit) :=
  c ← asks current_char;
  match c with
  | None => mret (inr tt)
  | Some ch => _ ← advance; if (ch =? 10) || (ch =? 13) then mret (inr tt) else mret (inl tt)
  end.
Definition gap_step (comment_eligible : bool) : scan (bool + unit) :=
  c ← asks current_char;
  let saw_whitespace := is_some_and c is_ascii_whitespace in
  _ ← skip_while is_ascii_whitespace;
  c ← asks current_char;
  if (comment_eligible || saw_whitespace) && is_char c c_hash then _ ← looping comment_step tt; mret (inl true) else mret (inr tt).
Definition skip_comment_gap_after_whitespace : scan unit := looping gap_step false.
Definition skip_two_body_quote_like_gap : scan unit := skip_comment_gap_after_whitespace.
Definition skip_quote_operator_delimiter_gap : scan unit :=
  c ← asks current_char;
  if is_some_and c is_ascii_whitespace then skip_comment_gap_after_whitespace else mret tt.
Definition parse_regex_modifiers (_spec : ModSpec) : scan unit := skip_while is_ascii_alphanumeric.

(** ** Two bodies *)

Definition is_quote_delim (c : Z) : bool := negb (is_ascii_alphanumeric c) && negb (StdText.is_whitespace c).
Definition char_before (input : list Z) (pos : Z) : option Z :=
  match str_get input 0 pos with Some text => last (chars text) | None => None end.
Definition is_word_apostrophe (input : list Z) (pos quote : Z) : bool :=
  (quote =? c_apostrophe) && is_some_and (char_before input pos) (fun ch => is_ascii_alphanumeric ch || (ch =? c_underscore)).
(** Behind one of these, a quote in a replacement starts a string. *)
Definition opens_expression (ch : Z) : bool := bool_decide (ch ∈ bytes_of "([{,=:?!~+-*%&|^<>").
Definition can_start_replacement_expression_quote (input : list Z) (pos : Z) : bool :=
  match str_get input 0 pos with
  | Some text => is_some_and (head (filter (fun ch => StdText.is_whitespace ch = false) (reverse (chars text)))) opens_expression
  | None => false
  end.
(** The end of a string inside a replacement and whether the delimiter occurs
    in it, from the characters behind its opening quote. *)
Fixpoint inner_string_end (quote delim : Z) (expression_quote : bool) (cs : list Z) (pos : Z) (escaped contains_delim : bool) : option (Z * bool) :=
  match cs with
  | [] => None
  | ch :: cs =>
    if (ch =? 10) || (ch =? 13) then None
    else if negb expression_quote && ((ch =? 59) || (ch =? c_hash)) then None
    else
      let pos' := pos + len_utf8 ch in
      if escaped then inner_string_end quote delim expression_quote cs pos' false (contains_delim || (ch =? delim))
      else if ch =? c_backslash then inner_string_end quote delim expression_quote cs pos' true contains_delim
      else if ch =? quote then Some (pos', contains_delim)
      else inner_string_end quote delim expression_quote cs pos' false (contains_delim || (ch =? delim))
  end.
Definition scan_inner_string_for_delimiter (self : PerlLexer) (start quote delim : Z) : option (Z * bool) :=
  let input := Lexer.input self in
  if is_word_apostrophe input start quote then None
  else if bool_decide (char_before input start = Some quote) then None
  else
    pos ← checked_add start (len_utf8 quote);
    let expression_quote := can_start_replacement_expression_quote input start in
    let text := str_get input pos (len input) in
    let first := text ≫= fun s => head (chars s) in
    if negb expression_quote && is_char first delim then None
    else if is_char first quote then None
    else cs ← chars <$> text; inner_string_end quote delim expression_quote cs pos false false.

Definition replacement_step (delim : Z) (st : list Z * bool) : scan (list Z * bool + list Z * bool) :=
  let '(body, escaped) := st in
  c ← asks current_char;
  match c with
  | None => mret (inr (body, false))
  | Some ch =>
    let push escaped := _ ← advance; mret (inl (body ++ encode_char ch, escaped)) in
    if (escaped : bool) then push false
    else if ch =? c_backslash then push true
    else if is_either c_quote c_apostrophe ch && negb (ch =? delim) then
      inner ← look (fun l => scan_inner_string_for_delimiter l (Lexer.position l) ch delim);
      match inner with
      | Some (string_end, true) =>
        string_text ← look (fun l => str_get (Lexer.input l) (Lexer.position l) string_end);
        match string_text with
        | Some string_text => _ ← write (at_position string_end); mret (inl (body ++ string_text, false))
        | None => push false
        end
      | _ => push false
      end
    else if ch =? delim then _ ← advance; mret (inr (body, true))
    else push false
  end.
Definition read_unpaired_substitution_replacement_body (delim : Z) : scan (list Z * bool) := looping (replacement_step delim) ([], false).
Definition read_substitution_replacement_body (delim : Z) : scan (list Z * bool) :=
  if bool_decide (is_Some (paired_close delim)) then read_delimited_body delim else read_unpaired_substitution_replacement_body delim.

(** The two bodies of an operator and its modifiers; [replacement] reads the
    second body.  The result: are both closed? *)
Definition two_bodies (delimiter : Z) (replacement : Z -> scan (list Z * bool)) : scan bool :=
  pattern ← read_delimited_body delimiter;
  replacement_closed ← (
    if bool_decide (is_Some (paired_close delimiter)) then
      _ ← skip_two_body_quote_like_gap;
      c ← asks current_char;
      match c with
      | Some repl_delim => if is_quote_delim repl_delim then _ ← advance; body ← replacement repl_delim; mret body.2 else mret false
      | None => mret false
      end
    else body ← replacement delimiter; mret body.2);
  _ ← skip_while is_ascii_alphanumeric;
  mret (pattern.2 && replacement_closed).
Definition unclosed_message (operator : list Z) (delimiter : Z) : list Z :=
  bytes_of "unclosed quote-like operator '" ++ operator ++ bytes_of "' delimiter '" ++ encode_char delimiter ++ bytes_of "'".
Definition parse_substitution_with_delimiter (start delimiter : Z) : scan Token :=
  closed ← two_bodies delimiter read_substitution_replacement_body;
  literal_token (if (closed : bool) then TSubstitution else TError (unclosed_message (bytes_of "s") delimiter)) start.
Definition parse_transliteration_with_delimiter (start delimiter : Z) : scan Token :=
  closed ← two_bodies delimiter read_delimited_body;
  token_type ← (
    if (closed : bool) then mret TTransliteration
    else
      rest ← asks (fun l => str_index (Lexer.input l) start (len (Lexer.input l)));
      mret (TError (unclosed_message (if starts_with (bytes_of "tr") rest then bytes_of "tr" else bytes_of "y") delimiter)));
  literal_token token_type start.
(** Behind the operator itself. *)
Definition behind_operator (with_delimiter : Z -> Z -> scan Token) (start : Z) : scan (option Token) :=
  _ ← skip_quote_operator_delimiter_gap;
  c ← asks current_char;
  match c with
  | None => mret None
  | Some delimiter => _ ← advance; t ← with_delimiter start delimiter; mret (Some t)
  end.
Definition parse_substitution : Z -> scan (option Token) := behind_operator parse_substitution_with_delimiter.
Definition parse_transliteration : Z -> scan (option Token) := behind_operator parse_transliteration_with_delimiter.

(** ** Regex literals *)

Definition MAX_REGEX_BYTES : Z := 64 * 1024.
Definition MAX_REGEX_PARSE_STEPS : Z := 32 * 1024.
(** The rest of the input, unread. *)
Definition unknown_rest (start : Z) : scan Token :=
  e ← look (fun l => len (Lexer.input l));
  _ ← write (at_position e);
  mret (mkToken TUnknownRest [] start e).
Definition budget_guard (start : Z) : scan (option Token) :=
  bytes_consumed ← asks (fun l => usize_sub (Lexer.position l) start);
  if bytes_consumed <=? MAX_REGEX_BYTES then mret None else t ← unknown_rest start; mret (Some t).
Definition unterminated_regex_error (start : Z) : scan Token :=
  e ← look (fun l => line_bounded_unclosed_end l start);
  _ ← write (at_position e);
  _ ← write (with_mode ExpectTerm);
  s ← asks (fun l => str_index (Lexer.input l) start e);
  mret (mkToken (TError (bytes_of "unterminated regex")) s start e).
Definition regex_step (start : Z) (st : Z * bool) : scan (Z * bool + Token) :=
  let '(regex_parse_steps, in_character_class) := st in
  c ← asks current_char;
  match c with
  | None => t ← unterminated_regex_error start; mret (inr t)
  | Some ch =>
    regex_parse_steps ← asks (fun _ => usize_add regex_parse_steps 1);
    if MAX_REGEX_PARSE_STEPS <? regex_parse_steps then t ← unknown_rest start; mret (inr t)
    else
      over ← budget_guard start;
      match over with
      | Some token => mret (inr token)
      | None =>
        let go_on in_class := _ ← advance; mret (inl (regex_parse_steps, in_class)) in
        if (ch =? 47) && negb in_character_class then
          _ ← advance; _ ← parse_regex_modifiers M_SPEC;
          t ← literal_token TRegexMatch start; mret (inr t)
        else if ch =? c_backslash then
          _ ← advance; c ← asks current_char;
          _ ← (if bool_decide (is_Some c) then advance else mret tt);
          mret (inl (regex_parse_steps, in_character_class))
        else if ch =? c_lbracket then go_on true
        else if (ch =? c_rbracket) && in_character_class then go_on false
        else go_on in_character_class
      end
  end.
Definition parse_regex (start : Z) : scan Token :=
  _ ← advance;
  looping (regex_step start) (0, false).

(** ** Bodies of data sections, formats; quoted heredoc delimiters *)

Definition parse_data_body : scan Token :=
  start ← look Lexer.position;
  e ← look (fun l => len (Lexer.input l));
  if e <=? start then _ ← write (with_mode ExpectTerm); mret (mkToken TEOF [] start start)
  else
    body ← asks (fun l => str_index (Lexer.input l) start e);
    _ ← write (at_position e);
    _ ← write (with_mode ExpectTerm);
    mret (mkToken (TDataBody body) body start e).

(** The end of a line that has nothing but blanks from [pos] on. *)
Fixpoint blank_line_end (bytes : list Z) (pos : Z) : option Z :=
  match bytes with
  | [] => Some pos
  | b :: bytes => if (b =? 32) || (b =? 9) || (b =? 13) then blank_line_end bytes (pos + 1) else if b =? 10 then Some pos else None
  end.
Definition format_step (start : Z) (st : list Z * bool) : scan (list Z * bool + Token) :=
  let '(body, line_start) := st in
  self ← look id;
  let unterminated :=
    _ ← write (with_mode ExpectTerm);
    e ← look Lexer.position;
    mret (inr (mkToken (TError (bytes_of "Unterminated format body")) body start e)) in
  if Lexer.position self <? len (Lexer.input self) then
    c ← asks current_char;
    let peek_pos := Lexer.position self + 1 in
    match (if line_start && is_char c 46 then blank_line_end (zdrop peek_pos (Lexer.input self)) peek_pos else None) with
    | Some peek_pos =>
      _ ← write (at_position (if bool_decide (zget (Lexer.input self) peek_pos = Some 10) then peek_pos + 1 else peek_pos));
      _ ← write (with_mode ExpectTerm);
      e ← look Lexer.position;
      mret (inr (mkToken (TFormatBody body) body start e))
    | None =>
      match c with
      | Some ch => _ ← advance; mret (inl (body ++ encode_char ch, ch =? 10))
      | None => unterminated
      end
    end
  else unterminated.
Definition parse_format_body : scan Token :=
  start ← look Lexer.position;
  looping (format_step start) ([], true).

(** The text of the heredoc operator so far and the delimiter so far. *)
Definition heredoc_delimiter_step (quote : Z) (st : list Z * list Z) : scan (list Z * list Z + list Z * option (list Z)) :=
  let '(text, delim) := st in
  p ← look Lexer.position;
  e ← look (fun l => len (Lexer.input l));
  if p <? e then
    c ← asks current_char;
    match c with
    | None => mret (inr (text, None))
    | Some ch =>
      if ch =? quote then _ ← advance; mret (inr (text ++ encode_char ch, Some delim))
      else if (ch =? 10) || (ch =? 13) then mret (inr (text, None))
      else _ ← advance; mret (inl (text ++ encode_char ch, delim ++ encode_char ch))
    end
  else mret (inr (text, None)).
Definition parse_quoted_heredoc_delimiter (quote : Z) (text : list Z) : scan (list Z * option (list Z)) :=
  _ ← advance;
  looping (heredoc_delimiter_step quote) (text ++ encode_char quote, []).

(** ** Values *)

Definition kinds {A} (m : scan A) (skip : Z) (s : string) : outcome A :=
  match m (at_position skip (lexer_new (bytes_of s))) with Ret (t, _) => Ret t | Panic => Panic end.
(** A backslash can close a search list but not a replacement. *)
Example backslash_delimiters :
  kinds (parse_transliteration 0) 2 "tr\a\b\" = Ret (Some (mkToken TTransliteration (bytes_of "tr\a\b\") 0 7)) /\
  kinds (parse_substitution 0) 1 "s\a\b\" = Ret (Some (mkToken (TError (unclosed_message (bytes_of "s") c_backslash)) (bytes_of "s\a\b\") 0 6)).
Proof. by vm_compute. Qed.
(** A quote behind an operator of the replacement hides the delimiter. *)
Example replacement_strings :
  kinds (parse_substitution 0) 1 "s/a/f('/')/e;" = Ret (Some (mkToken TSubstitution (bytes_of "s/a/f('/')/e") 0 12)) /\
  kinds (parse_substitution 0) 1 "s/a/don't/g;" = Ret (Some (mkToken TSubstitution (bytes_of "s/a/don't/g") 0 11)).
Proof. by vm_compute. Qed.
Example modifier_tails :
  split_tail_for_spec (bytes_of "xia") M_SPEC = Some (bytes_of "ix", Some (bytes_of "a")) /\ split_tail_for_spec (bytes_of "gaa") M_SPEC = Some (bytes_of "g", Some (bytes_of "aa")) /\
  split_tail_for_spec (bytes_of "rd") TR_SPEC = Some (bytes_of "dr", None) /\ split_tail_for_spec (bytes_of "g") TR_SPEC = None.
Proof. by vm_compute. Qed.
