(* ===== verification/LexerQuoteLaws.v ===== *)
(** * Laws of the quote-like literals

    What LexerQuotes reads, against the grammar of quoted text: the bodies of
    operators with nested and escaped delimiters, the strings in single quotes
    and backticks, and the operators with two bodies. *)

From Stdlib Require Import String.
From stdpp Require Import base numbers list strings.
From S2P Require Import Prelude Utf8 StdText Checkpoint LexerTokens LexerCursor LexerStrings LexerStringLaws LexerStringParity LexerNumbers LexerQuotes.

(** ** Bodies *)

Section body.
Variable delim : Z.
Definition closer : Z := default delim (paired_close delim).
Definition is_paired : bool := bool_decide (is_Some (paired_close delim)).
(** A character that stands for itself. *)
Definition plain (c : Z) : Prop := (c = c_backslash -> delim = c_backslash) /\ c <> closer /\ c <> delim.
(** The text between delimiters: plain characters, escaped ones and, inside
    brackets, nested bodies. *)
Inductive balanced : list Z -> Prop :=
| balanced_nil : balanced []
| balanced_plain c s : plain c -> balanced s -> balanced (c :: s)
| balanced_escape c s : delim <> c_backslash -> balanced s -> balanced (c_backslash :: c :: s)
| balanced_nested s t : is_paired = true -> balanced s -> balanced t -> balanced (delim :: s ++ closer :: t).

(** The same with a counter: the text up to the close of depth [d]. *)
Fixpoint body_end (d : Z) (r : list Z) : option (list Z) :=
  match r with
  | [] => None
  | ch :: r =>
    if (ch =? c_backslash) && negb (delim =? c_backslash) then
      match r with x :: r => (fun w => ch :: x :: w) <$> body_end d r | [] => None end
    else if is_paired && (ch =? delim) then cons ch <$> body_end (d + 1) r
    else if ch =? closer then if is_paired && negb (d - 1 =? 0) then cons ch <$> body_end (d - 1) r else Some []
    else cons ch <$> body_end d r
  end.

Lemma closer_cases : (is_paired = false /\ closer = delim) \/ (is_paired = true /\ closer <> delim /\ closer <> c_backslash /\ delim <> c_backslash).
Proof using Type.
  unfold is_paired, closer, paired_close. repeat (match goal with |- context [delim =? ?c] => destruct (Z.eqb_spec delim c) as [E|] end; [right; rewrite E; by split_and!|]). by left.
Qed.
Lemma first_depth_eq : first_depth delim = if is_paired then 1 else 0.
Proof using Type. unfold first_depth, is_paired. by destruct (paired_close delim). Qed.

Lemma body_end_app w d t : balanced w -> (is_paired = true -> 1 <= d) -> body_end d (w ++ t) = app w <$> body_end d t.
Proof using Type.
  intros Hw. revert d t. induction Hw as [|c s (Hb & Hc & Hd) _ IH|c s Hb _ IH|s u Hp _ IHs _ IHu]; intros d t H1; simpl.
  - by rewrite option_fmap_id.
  - rewrite (proj2 (Z.eqb_neq c delim)), (proj2 (Z.eqb_neq c closer)), andb_false_r by done. rewrite IH by done.
    replace ((c =? c_backslash) && negb (delim =? c_backslash)) with false; [by rewrite <-option_fmap_compose|].
    destruct (Z.eqb_spec c c_backslash) as [->|]; [|done]. by rewrite (Hb eq_refl).
  - rewrite (proj2 (Z.eqb_neq delim _)) by done. simpl. rewrite IH by done. by rewrite <-option_fmap_compose.
  - destruct closer_cases as [[? _]|(_ & Hc & Hcb & Hdb)]; [congruence|]. rewrite (proj2 (Z.eqb_neq delim c_backslash)) by done. rewrite Hp, Z.eqb_refl. simpl.
    specialize (H1 Hp). rewrite <-app_assoc, IHs by (intros; lia). simpl. rewrite (proj2 (Z.eqb_neq closer c_backslash)), (proj2 (Z.eqb_neq closer delim)) by done. rewrite Hp, Z.eqb_refl. simpl.
    rewrite (proj2 (Z.eqb_neq (d + 1 - 1) 0)) by lia. simpl. replace (d + 1 - 1) with d by lia. rewrite IHu by (intros; lia).
    destruct (body_end d t); [|done]. simpl. by rewrite <-app_assoc.
Qed.
Lemma body_end_close t : body_end (first_depth delim) (closer :: t) = Some [].
Proof using Type.
  simpl. rewrite Z.eqb_refl, first_depth_eq. destruct closer_cases as [(Hp & ->)|(Hp & Hc & Hcb & _)].
  - rewrite Hp. simpl. by destruct (delim =? c_backslash).
  - rewrite Hp, (proj2 (Z.eqb_neq closer c_backslash)), (proj2 (Z.eqb_neq closer delim)) by done. done.
Qed.

(** Text that ends [n] nested bodies. *)
Fixpoint levels (n : nat) (w : list Z) : Prop :=
  match n with O => balanced w | S n => exists s t, w = s ++ closer :: t /\ balanced s /\ levels n t end.
Lemma levels_prepend p n w : (forall s, balanced s -> balanced (p ++ s)) -> levels n w -> levels n (p ++ w).
Proof using Type. destruct n as [|n]; simpl; [auto|]. intros Hp (s & t & -> & Hs & Ht). exists (p ++ s), t. rewrite <-app_assoc. auto. Qed.
Lemma levels_nest n w : is_paired = true -> levels (S n) w -> levels n (delim :: w).
Proof using Type.
  intros Hp (s & t & -> & Hs & Ht). destruct n as [|n]; simpl in *; [by apply balanced_nested|].
  destruct Ht as (s' & t' & -> & Hs' & Ht'). exists (delim :: s ++ closer :: s'), t'. split; [by simpl; rewrite <-app_assoc|]. split; [by apply balanced_nested|done].
Qed.
Lemma body_end_levels r : forall n w, body_end (first_depth delim + Z.of_nat n) r = Some w -> (is_paired = false -> n = O) ->
  levels n w /\ exists rest, r = w ++ closer :: rest.
Proof using Type.
  induction r as [r IH] using (induction_ltof1 _ (@length Z)). unfold ltof in IH. intros n w. destruct r as [|ch r]; [done|]. simpl.
  destruct (_ && negb _) eqn:Eb.
  { apply andb_true_iff in Eb as [->%Z.eqb_eq Hd%negb_true_iff%Z.eqb_neq]. destruct r as [|x r]; [done|].
    destruct (body_end _ r) as [w'|] eqn:E; [|done]. intros [= <-] Hn. apply IH in E as [Hl [rest ->]]; [|simpl; lia|done].
    split; [|by exists rest]. apply (levels_prepend [c_backslash; x]); [|done]. intros s Hs. by apply balanced_escape. }
  assert (Hplain : ch = c_backslash -> delim = c_backslash).
  { intros ->. destruct (Z.eqb_spec delim c_backslash); [done|]. by rewrite Z.eqb_refl in Eb. }
  clear Eb. destruct (is_paired && (ch =? delim)) eqn:Eo.
  { apply andb_true_iff in Eo as [Hp ->%Z.eqb_eq]. destruct (body_end _ r) as [w'|] eqn:E; [|done]. intros [= <-] _.
    replace (first_depth delim + Z.of_nat n + 1) with (first_depth delim + Z.of_nat (S n)) in E by lia.
    apply IH in E as [Hl [rest ->]]; [|simpl; lia|congruence]. split; [by apply levels_nest|by exists rest]. }
  destruct (Z.eqb_spec ch closer) as [->|Hc].
  - destruct (is_paired) eqn:Hp; simpl.
    + rewrite first_depth_eq, Hp. destruct (Z.eqb_spec (1 + Z.of_nat n - 1) 0) as [H0|H0]; simpl.
      * intros [= <-] _. replace n with O by lia. split; [constructor|by exists r].
      * destruct n as [|n]; [lia|]. destruct (body_end _ r) as [w'|] eqn:E; [|done]. intros [= <-] _.
        replace (1 + Z.of_nat (S n) - 1) with (first_depth delim + Z.of_nat n) in E by (rewrite first_depth_eq, Hp; lia).
        apply IH in E as [Hl [rest ->]]; [|simpl; lia|done]. split; [|by exists rest]. exists [], w'. split; [done|]. split; [constructor|done].
    + intros [= <-] Hn. rewrite (Hn eq_refl). split; [constructor|by exists r].
  - destruct (body_end _ r) as [w'|] eqn:E; [|done]. intros [= <-] Hn. apply IH in E as [Hl [rest ->]]; [|simpl; lia|done].
    split; [|by exists rest]. apply (levels_prepend [ch]); [|done]. intros s Hs. apply balanced_plain; [|done]. split; [done|]. split; [done|].
    intros ->. destruct closer_cases as [[_ ?]|[Hp _]]; [congruence|]. by rewrite Hp, Z.eqb_refl in Eo.
Qed.
Lemma body_end_iff r w : body_end (first_depth delim) r = Some w <-> balanced w /\ exists rest, r = w ++ closer :: rest.
Proof using Type.
  split.
  - intros E. apply (body_end_levels r 0 w); [by rewrite Z.add_0_r|done].
  - intros [Hw [rest ->]]. rewrite body_end_app, body_end_close; [simpl; by rewrite app_nil_r|done|]. intros Hp. by rewrite first_depth_eq, Hp.
Qed.

(** What the scan of a body gives from a state with this text left. *)
Definition delimited_spec (st : list Z * Z) (r : list Z) (res : list Z * bool) (cs : list Z) : Prop :=
  match body_end st.2 r with
  | Some w => res = (st.1 ++ encode w, true) /\ cs = w ++ [closer]
  | None => res = (st.1 ++ encode r, false) /\ cs = r
  end.
Definition body_fits (st : list Z * Z) (r : list Z) : Prop := first_depth delim <= st.2 /\ st.2 + len r <= i32_max.
Definition delimited_round (st : list Z * Z) (r : list Z) (x : list Z * Z + list Z * bool) (cs : list Z) : Prop :=
  match x with
  | inr res => delimited_spec st r res cs
  | inl st' => cs <> [] /\ st'.1 = st.1 ++ encode cs /\ st'.2 <= st.2 + 1 /\ first_depth delim <= st'.2 /\
      forall r', r = cs ++ r' -> body_end st.2 r = app cs <$> body_end st'.2 r'
  end.
Lemma round_go_on body d d' ch r l b a : view l b (ch :: r) a -> d' <= d + 1 -> first_depth delim <= d' -> body_end d (ch :: r) = cons ch <$> body_end d' r ->
  reads (advance ≫= fun _ => mret (inl (body ++ encode_char ch, d'))) l (ch :: r) (delimited_round (body, d) (ch :: r)).
Proof using Type.
  intros Hv Hd Hd' E. eapply reads_advance; [exact Hv|]. intros _. apply reads_ret. split; [done|]. split; [simpl; by rewrite app_nil_r|]. split; [done|]. split; [done|].
  by intros r' [= <-].
Qed.
Lemma round_stop body d r l b a : view l b (closer :: r) a -> body_end d (closer :: r) = Some [] ->
  reads (advance ≫= fun _ => mret (inr (body, true))) l (closer :: r) (delimited_round (body, d) (closer :: r)).
Proof using Type.
  intros Hv E. eapply reads_advance; [exact Hv|]. intros _. apply reads_ret. unfold delimited_round, delimited_spec. simpl fst. simpl snd. rewrite E. simpl. by rewrite app_nil_r.
Qed.
Lemma delimited_step_exact body d l b r a : view l b r a -> body_fits (body, d) r ->
  reads (delimited_step delim (fun _ _ => false) (body, d)) l r (delimited_round (body, d) r).
Proof using Type.
  intros Hv [Hd Hfit]. simpl in Hd, Hfit. unfold delimited_step. fold closer. fold is_paired. eapply reads_current; [exact Hv|].
  destruct r as [|ch r]; simpl head; cbv iota beta; [apply reads_ret; split; simpl; by rewrite ?app_nil_r|]. apply reads_look. rewrite len_cons in Hfit. pose proof (len_nonneg r). pose proof first_depth_eq as Hf.
  destruct (_ && negb _) eqn:Eb.
  { eapply reads_advance; [exact Hv|]. intros Hv1. eapply reads_current; [exact Hv1|]. destruct r as [|x r]; simpl head; cbv iota beta.
    - apply reads_ret. split; [done|]. split; [simpl; by rewrite app_nil_r|]. split; [simpl; lia|]. split; [done|]. intros r' [= <-]. simpl. by rewrite Eb.
    - eapply reads_advance; [exact Hv1|]. intros _. apply reads_ret. split; [done|]. split; [simpl; by rewrite app_nil_r, app_assoc|]. split; [simpl; lia|]. split; [done|].
      intros r' [= <-]. simpl. by rewrite Eb. }
  destruct (is_paired && (ch =? delim)) eqn:Eo.
  { eapply reads_advance; [exact Hv|]. intros _. eapply reads_asks; [apply arith_Ret; unfold i32_max in *; case_match; lia|]. apply reads_ret.
    split; [done|]. split; [simpl; by rewrite app_nil_r|]. split; [done|]. split; [simpl; lia|]. intros r' [= <-]. simpl. by rewrite Eb, Eo. }
  destruct (Z.eqb_spec ch closer) as [->|Hc].
  - destruct is_paired eqn:Hp; [|eapply round_stop; [exact Hv|]; simpl; by rewrite Eb, Z.eqb_refl, Hp].
    eapply reads_asks; [apply arith_Ret; unfold i32_max in *; lia|]. destruct (Z.eqb_spec (d - 1) 0) as [H0|H0].
    + eapply round_stop; [exact Hv|]. simpl. rewrite Eb, Hp. simpl in *. by rewrite Eo, Z.eqb_refl, H0.
    + eapply round_go_on; [exact Hv|lia|lia|]. simpl. rewrite Eb, Hp. simpl in *. rewrite Eo, Z.eqb_refl. by rewrite (proj2 (Z.eqb_neq _ _)) by done.
  - eapply round_go_on; [exact Hv|lia|done|]. simpl. rewrite Eb, Eo. by rewrite (proj2 (Z.eqb_neq _ _)) by done.
Qed.
Lemma delimited_exact l b r a : view l b r a -> 1 + len r <= i32_max -> reads (read_delimited_body delim) l r (delimited_spec ([], first_depth delim) r).
Proof using Type.
  intros Hv Hn. unfold read_delimited_body, read_delimited_body_with_recovery. fold (first_depth delim).
  eapply (reads_looping_inv (fun _ => body_fits) _ (fun _ => delimited_spec) a); [|exact Hv|].
  - clear. intros [body d] l b r Hv Hfit. destruct (delimited_step_exact body d l b r a Hv Hfit) as (x & cs & r' & -> & E & HP).
    exists x, cs, r'. split; [done|]. split; [done|]. destruct x as [[body' d']|res]; [|done]. simpl in HP. destruct HP as (H1 & -> & H2 & H3 & H4). split; [done|]. split.
    + intros r'' <-%app_inv_head. destruct Hfit as [_ Hfit]. unfold body_fits. simpl in *. rewrite len_app in Hfit. destruct cs as [|c cs]; [done|]. rewrite len_cons in Hfit. pose proof (len_nonneg cs). lia.
    + intros res ds r'' ->%app_inv_head. unfold delimited_spec. simpl fst. simpl snd. rewrite (H4 _ eq_refl). destruct (body_end d' _) as [w|]; simpl.
      * intros [-> ->]. by rewrite encode_app, !app_assoc.
      * intros [-> E']. split; [by rewrite !encode_app, !app_assoc|by rewrite <-E'].
  - unfold body_fits. simpl. rewrite first_depth_eq. case_match; lia.
Qed.
End body.

(** A body with its delimiter is read exactly: up to the first delimiter that
    closes a balanced text, or everything when there is none. *)
Theorem delimited_body_exact delim l b r a : view l b r a -> 1 + len r <= i32_max ->
  (forall w rest, r = w ++ closer delim :: rest -> balanced delim w ->
     read_delimited_body delim l = Ret ((encode w, true), consume (w ++ [closer delim]) l)) /\
  ((forall w rest, r = w ++ closer delim :: rest -> ~ balanced delim w) ->
     read_delimited_body delim l = Ret ((encode r, false), consume r l)).
Proof.
  intros Hv Hn. destruct (delimited_exact delim l b r a Hv Hn) as (res & cs & r' & E & -> & HP). unfold delimited_spec in HP. simpl in HP. split.
  - intros w rest Er Hw. rewrite (proj2 (body_end_iff delim r w)) in HP by eauto. by destruct HP as [-> ->].
  - intros Hno. destruct (body_end delim (first_depth delim) r) as [w|] eqn:Ew.
    + apply body_end_iff in Ew as [Hw [rest Er]]. by destruct (Hno w rest Er).
    + by destruct HP as [-> ->].
Qed.

(** ** Gaps and modifiers *)

Lemma skip_while_exact p l b r a : view l b r a -> reads (skip_while p) l r (fun _ cs => cs = run p r).
Proof.
  intros Hv. unfold skip_while. eapply (reads_looping_inv (fun _ _ _ => True) _ (fun _ _ r _ cs => cs = run p r) a); [|exact Hv|done].
  clear. intros [] l b r Hv _. eapply reads_current; [exact Hv|]. destruct r as [|c r]; simpl; [by apply reads_ret|]. destruct (p c) eqn:Hp; [|by apply reads_ret].
  eapply reads_advance; [exact Hv|]. intros _. apply reads_ret. split; [done|]. split; [done|]. intros _ ds r' [= ->] E. simpl. by rewrite <-E.
Qed.
Definition is_newline (c : Z) : bool := (c =? 10) || (c =? 13).
(** The gap at the head of a text: blanks, and comments when something eligible
    came before; [inside] a comment, up to its line end. *)
Fixpoint gap_of (eligible inside : bool) (r : list Z) : list Z :=
  match r with
  | [] => []
  | c :: r =>
    if inside then c :: gap_of true (negb (is_newline c)) r
    else if is_ascii_whitespace c then c :: gap_of true false r
    else if eligible && (c =? c_hash) then c :: gap_of true true r
    else []
  end.
Fixpoint comment_of (r : list Z) : list Z := match r with [] => [] | c :: r => c :: if is_newline c then [] else comment_of r end.
Lemma comment_exact l b r a : view l b r a -> reads (looping comment_step tt) l r (fun _ cs => cs = comment_of r).
Proof.
  intros Hv. eapply (reads_looping_inv (fun _ _ _ => True) _ (fun _ _ r _ cs => cs = comment_of r) a); [|exact Hv|done].
  clear. intros [] l b r Hv _. unfold comment_step. eapply reads_current; [exact Hv|]. destruct r as [|c r]; simpl; [by apply reads_ret|].
  eapply reads_advance; [exact Hv|]. intros _. fold (is_newline c). destruct (is_newline c) eqn:Hn; apply reads_ret; [done|].
  split; [done|]. split; [done|]. intros _ ds r' [= ->] E. simpl. by rewrite <-E.
Qed.
Lemma gap_blanks e r : gap_of e false r = run is_ascii_whitespace r ++ gap_of (e || is_some_and (head r) is_ascii_whitespace) false (drop (length (run is_ascii_whitespace r)) r).
Proof.
  revert e. induction r as [|c r IH]; intros e; [done|]. simpl. destruct (is_ascii_whitespace c) eqn:Hc; simpl.
  - rewrite orb_true_r. f_equal. apply IH.
  - by rewrite orb_false_r, Hc.
Qed.
Lemma gap_comment r : gap_of true true r = comment_of r ++ gap_of true false (drop (length (comment_of r)) r).
Proof. induction r as [|c r IH]; [done|]. simpl. f_equal. by destruct (is_newline c). Qed.
Lemma run_drop p (r : list Z) : r = run p r ++ drop (length (run p r)) r.
Proof. induction r as [|c r IH]; [done|]. simpl. destruct (p c); simpl; [by f_equal|done]. Qed.
Lemma skip_gap_exact l b r a : view l b r a -> reads skip_comment_gap_after_whitespace l r (fun _ cs => cs = gap_of false false r).
Proof.
  intros Hv. unfold skip_comment_gap_after_whitespace. eapply (reads_looping_inv (fun _ _ _ => True) _ (fun _ e r _ cs => cs = gap_of e false r) a); [|exact Hv|done].
  clear. intros e l b r Hv _. unfold gap_step. eapply reads_current; [exact Hv|]. rewrite gap_blanks. eapply reads_bind; [exact Hv|by eapply skip_while_exact|].
  intros [] cs r' E Hv1 ->. assert (Er : r' = drop (length (run is_ascii_whitespace r)) r) by (rewrite (run_drop is_ascii_whitespace r) in E at 1; by apply app_inv_head in E). rewrite <-Er. clear Er.
  eapply reads_current; [exact Hv1|]. set (e' := e || _). destruct r' as [|c r'].
  - simpl is_char. rewrite andb_false_r. apply reads_ret. done.
  - change (is_char (head (c :: r')) c_hash) with (c_hash =? c). destruct (e' && (c_hash =? c)) eqn:Hh.
    + apply andb_true_iff in Hh as [He <-%Z.eqb_eq].
      eapply reads_bind; [exact Hv1|by eapply comment_exact|]. intros [] cs r'' E' Hv2 ->.
      apply reads_ret. rewrite app_nil_r. simpl in *. injection E' as E'. split; [by destruct (run _ _)|]. split; [done|].
      intros _ ds r3 E3 ->. rewrite He. simpl. rewrite gap_comment, <-!app_assoc. simpl. do 2 f_equal. f_equal.
      pose proof (eq_trans (eq_sym E) E3) as E4. rewrite <-!app_assoc in E4. apply app_inv_head in E4. injection E4 as E4. rewrite E4 at 2. by rewrite drop_app_length.
    + apply reads_ret. rewrite app_nil_r. rewrite Z.eqb_sym in Hh. cbn [gap_of]. rewrite Hh. assert (Hw : is_ascii_whitespace c = false).
      { clear -E. induction r as [|x r IH]; [done|]. simpl in E. destruct (is_ascii_whitespace x) eqn:Hx; [injection E; auto|]. by injection E as <- _. }
      by rewrite Hw, app_nil_r.
Qed.

(** The gaps that may stand between the parts of an operator: blanks, and after
    a blank also whole lines of comment. *)
Inductive gap_text : bool -> list Z -> Prop :=
| gap_nil e : gap_text e []
| gap_blank e c g : is_ascii_whitespace c = true -> gap_text true g -> gap_text e (c :: g)
| gap_line s c g : Forall (fun x => is_newline x = false) s -> is_newline c = true -> gap_text true g -> gap_text true (c_hash :: s ++ c :: g).
(** The character behind a gap. *)
Definition ends_gap (e : bool) (c : Z) : Prop := is_ascii_whitespace c = false /\ (e = true -> c <> c_hash).
Lemma gap_of_text e g c r : gap_text e g -> ends_gap (e || negb (bool_decide (g = []))) c -> gap_of e false (g ++ c :: r) = g.
Proof.
  intros Hg. revert c r. induction Hg as [e|e x g Hx _ IH|s x g Hs Hx _ IH]; intros c r [Hw Hc].
  - simpl. rewrite Hw. rewrite orb_false_r in Hc. destruct e; [|done]. simpl. by rewrite (proj2 (Z.eqb_neq c c_hash)) by auto.
  - simpl. rewrite Hx. f_equal. apply IH. split; [done|]. intros _. apply Hc. by rewrite orb_true_r.
  - simpl. f_equal. rewrite <-app_assoc. simpl. induction s as [|y s IHs]; simpl.
    + rewrite Hx. simpl. f_equal. apply IH. split; [done|]. intros _. by apply Hc.
    + apply Forall_cons in Hs as [Hy Hs]. rewrite Hy. simpl. f_equal. by apply IHs.
Qed.
Lemma gap_of_split r : forall e inside c rest, r = gap_of e inside r ++ c :: rest ->
  (if inside then exists s x g, gap_of e true r = s ++ x :: g /\ Forall (fun x => is_newline x = false) s /\ is_newline x = true /\ gap_text true g
   else gap_text e (gap_of e false r)) /\ ends_gap (e || inside || negb (bool_decide (gap_of e inside r = []))) c.
Proof.
  induction r as [|x r IH]; intros e inside c rest; [by destruct inside|]. destruct inside; simpl.
  - intros [= E]. apply IH in E as [Hg [Hw Hc]]. destruct (is_newline x) eqn:Hx; simpl in *.
    + split; [exists [], x, (gap_of true false r); by repeat constructor|]. split; [done|auto].
    + destruct Hg as (s & y & g & -> & Hs & Hy & Hg). split; [exists (x :: s), y, g; by repeat constructor|]. split; [done|auto].
  - destruct (is_ascii_whitespace x) eqn:Hx.
    + intros [= E]. apply IH in E as [Hg [Hw Hc]]. split; [by constructor|]. split; [done|auto].
    + destruct e; simpl; [destruct (Z.eqb_spec x c_hash) as [->|Hne]|].
      * intros [= E]. apply IH in E as [(s & y & g & -> & Hs & Hy & Hg) [Hw Hc]]. split; [by constructor|]. split; [done|auto].
      * intros [= -> _]. split; [constructor|]. done.
      * intros [= -> _]. split; [constructor|]. done.
Qed.
Lemma gap_of_prefix r : forall e inside, exists rest, r = gap_of e inside r ++ rest.
Proof.
  induction r as [|c r IH]; intros e inside; [by exists []|]. simpl.
  destruct inside; [destruct (IH true (negb (is_newline c))) as [rest E]; exists rest; simpl; by rewrite <-E|].
  destruct (is_ascii_whitespace c); [destruct (IH true false) as [rest E]; exists rest; simpl; by rewrite <-E|].
  destruct (_ && _); [destruct (IH true true) as [rest E]; exists rest; simpl; by rewrite <-E|by exists (c :: r)].
Qed.

(** ** Two bodies *)

Inductive bodies (delim : Z) : list Z -> Prop :=
| bodies_unpaired w1 w2 : is_paired delim = false -> balanced delim w1 -> balanced delim w2 -> bodies delim (w1 ++ closer delim :: w2 ++ [closer delim])
| bodies_paired w1 g delim2 w2 : is_paired delim = true -> balanced delim w1 -> gap_text false g -> ends_gap (negb (bool_decide (g = []))) delim2 ->
    is_quote_delim delim2 = true -> balanced delim2 w2 -> bodies delim (w1 ++ closer delim :: g ++ delim2 :: w2 ++ [closer delim2]).
(** The text of both bodies at the head of a text. *)
Definition first_body (delim : Z) (r : list Z) : option (list Z) := (fun w => w ++ [closer delim]) <$> body_end delim (first_depth delim) r.
Definition two_end (delim : Z) (r : list Z) : option (list Z) :=
  w1 ← first_body delim r;
  let r1 := drop (length w1) r in
  if is_paired delim then
    let g := gap_of false false r1 in
    match drop (length g) r1 with
    | delim2 :: r2 => if is_quote_delim delim2 then w2 ← first_body delim2 r2; Some (w1 ++ g ++ delim2 :: w2) else None
    | [] => None
    end
  else w2 ← first_body delim r1; Some (w1 ++ w2).
Lemma first_body_iff delim r w : first_body delim r = Some w <-> exists v rest, w = v ++ [closer delim] /\ balanced delim v /\ r = w ++ rest.
Proof.
  unfold first_body. rewrite fmap_Some. split.
  - intros (v & [Hv [rest ->]]%body_end_iff & ->). exists v, rest. by rewrite <-app_assoc.
  - intros (v & rest & -> & Hv & ->). exists v. split; [|done]. apply body_end_iff. split; [done|]. exists rest. by rewrite <-app_assoc.
Qed.
Lemma first_body_app delim v rest : balanced delim v -> first_body delim ((v ++ [closer delim]) ++ rest) = Some (v ++ [closer delim]).
Proof. intros Hv. apply first_body_iff. eauto. Qed.
Lemma two_end_iff delim r ws : two_end delim r = Some ws <-> bodies delim ws /\ exists rest, r = ws ++ rest.
Proof.
  unfold two_end. split.
  - destruct (first_body delim r) as [w1|] eqn:E1; [|done]. simpl. apply first_body_iff in E1 as (v1 & r1 & -> & Hv1 & ->). rewrite drop_app_length.
    destruct (is_paired delim) eqn:Hp.
    + destruct (gap_of_prefix r1 false false) as [r2 E2]. rewrite E2 at 2. rewrite drop_app_length. destruct r2 as [|delim2 r2]; [done|].
      destruct (is_quote_delim delim2) eqn:Hq; [|done]. destruct (first_body delim2 r2) as [w2|] eqn:E3; [|done]. intros [= <-].
      apply first_body_iff in E3 as (v2 & rest & -> & Hv2 & ->). apply gap_of_split in E2 as E4. destruct E4 as [Hg He]. rewrite <-app_assoc.
      split; [by apply bodies_paired|]. exists rest. rewrite <-!app_assoc. simpl. do 2 f_equal. exact E2.
    + destruct (first_body delim r1) as [w2|] eqn:E3; [|done]. intros [= <-]. apply first_body_iff in E3 as (v2 & rest & -> & Hv2 & ->). rewrite <-app_assoc.
      split; [by apply bodies_unpaired|]. exists rest. by rewrite <-!app_assoc.
  - intros [[w1 w2 Hp H1 H2|w1 g delim2 w2 Hp H1 Hg He Hq H2] [rest ->]].
    + rewrite (cons_middle (closer delim)), app_assoc, <-(app_assoc _ (w2 ++ _)), first_body_app by done. simpl. by rewrite drop_app_length, Hp, first_body_app.
    + rewrite (cons_middle (closer delim)), app_assoc, <-(app_assoc (w1 ++ _)), first_body_app by done. simpl. rewrite drop_app_length, Hp, <-app_assoc. simpl.
      rewrite gap_of_text by done. rewrite drop_app_length, Hq, first_body_app by done. done.
Qed.

(** What is left behind a prefix. *)
Lemma drop_prefix (r g r1 : list Z) : r = g ++ r1 -> drop (length g) r = r1.
Proof. intros ->. by rewrite drop_app_length. Qed.
Lemma drop_behind (w rest : list Z) c : drop (S (length w)) (w ++ c :: rest) = rest.
Proof. rewrite (cons_middle c), app_assoc. replace (S (length w)) with (length (w ++ [c])) by (rewrite length_app; simpl; lia). apply drop_app_length. Qed.
Lemma first_body_reads delim l b r a : view l b r a -> 1 + len r <= i32_max ->
  reads (read_delimited_body delim) l r (fun res cs => match first_body delim r with Some w => res.2 = true /\ cs = w | None => res.2 = false end).
Proof.
  intros Hv Hn. eapply reads_mono; [|by eapply delimited_exact]. unfold delimited_spec, first_body. simpl. intros res cs. by destruct (body_end _ _ r); intros [-> ->].
Qed.
Definition two_spec (delim : Z) (r : list Z) (closed : bool) (cs : list Z) : Prop :=
  match two_end delim r with Some ws => closed = true /\ cs = ws ++ run is_ascii_alphanumeric (drop (length ws) r) | None => closed = false end.
(** The second body, behind the first one. *)
Definition second_spec (delim : Z) (r : list Z) (closed : bool) (cs : list Z) : Prop :=
  match (if is_paired delim then
           match drop (length (gap_of false false r)) r with
           | delim2 :: r2 => if is_quote_delim delim2 then (fun w => gap_of false false r ++ delim2 :: w) <$> first_body delim2 r2 else None
           | [] => None
           end
         else first_body delim r) with
  | Some w => closed = true /\ cs = w
  | None => closed = false
  end.
Lemma second_body_reads delim l b r a : view l b r a -> 1 + len r <= i32_max ->
  reads (if is_paired delim then
           _ ← skip_two_body_quote_like_gap; c ← asks current_char;
           match c with
           | Some repl_delim => if is_quote_delim repl_delim then _ ← advance; body ← read_delimited_body repl_delim; mret body.2 else mret false
           | None => mret false
           end
         else body ← read_delimited_body delim; mret body.2) l r (second_spec delim r).
Proof.
  intros Hv Hn. unfold second_spec. destruct (is_paired delim).
  - eapply reads_bind; [exact Hv|by eapply skip_gap_exact|]. intros [] cs r1 Er Hv1 ->. rewrite (drop_prefix _ _ _ Er).
    assert (len r1 <= len r) by (rewrite Er, len_app; pose proof (len_nonneg (gap_of false false r)); lia). clear Er.
    eapply reads_current; [exact Hv1|]. destruct r1 as [|d r1]; simpl; [by apply reads_ret|]. destruct (is_quote_delim d); [|by apply reads_ret].
    eapply reads_advance; [exact Hv1|]. intros Hv2. rewrite len_cons in *. eapply reads_bind; [exact Hv2|eapply first_body_reads; [exact Hv2|lia]|].
    intros [body closed] cs r2 _ _ Hs. apply reads_ret. rewrite app_nil_r. simpl in *. destruct (first_body d r1); simpl; [|done]. by destruct Hs as [-> ->].
  - eapply reads_bind; [exact Hv|by eapply first_body_reads|]. intros [body closed] cs r1 _ _ Hs. apply reads_ret. by rewrite app_nil_r.
Qed.
Lemma two_bodies_reads delim l b r a : view l b r a -> 1 + len r <= i32_max -> reads (two_bodies delim read_delimited_body) l r (two_spec delim r).
Proof.
  intros Hv Hn. unfold two_bodies. fold (is_paired delim). eapply reads_bind; [exact Hv|by eapply first_body_reads|].
  intros [w closed1] cs1 r1 E1 Hv1 H1. assert (len r1 <= len r) by (rewrite E1, len_app; pose proof (len_nonneg cs1); lia).
  eapply reads_bind; [exact Hv1|eapply second_body_reads; [exact Hv1|lia]|]. intros closed2 cs2 r2 E2 Hv2 H2.
  eapply reads_bind; [exact Hv2|by eapply skip_while_exact|]. intros [] cs3 r3 _ _ ->. apply reads_ret. rewrite app_nil_r.
  unfold two_spec, two_end. simpl in *. destruct (first_body delim r) as [w1|]; simpl; [|by rewrite H1]. destruct H1 as [-> ->].
  rewrite (drop_prefix _ _ _ E1). unfold second_spec in H2. simpl.
  assert (Hend : forall w, closed2 = true /\ cs2 = w -> closed2 = true /\ w1 ++ cs2 ++ run is_ascii_alphanumeric r2 = (w1 ++ w) ++ run is_ascii_alphanumeric (drop (length (w1 ++ w)) r)).
  { intros w0 [-> ->]. split; [done|]. rewrite <-app_assoc. do 3 f_equal. symmetry. apply drop_prefix. by rewrite <-app_assoc, <-E2. }
  destruct (is_paired delim).
  - destruct (drop _ r1) as [|d r4]; [done|]. destruct (is_quote_delim d); [|done]. destruct (first_body d r4) as [w2|]; [|done]. simpl in *. by apply Hend.
  - destruct (first_body delim r1) as [w2|]; [|done]. by apply Hend.
Qed.

(** The text behind the name of an operator with two bodies, and what follows:
    a gap, the delimiter, both bodies and all letters and digits behind them. *)
Inductive two_body_text : list Z -> list Z -> Prop :=
| two_body g delim ws m rest : gap_text false g -> ends_gap (negb (bool_decide (g = []))) delim -> bodies delim ws ->
    m = run is_ascii_alphanumeric (m ++ rest) -> two_body_text (g ++ delim :: ws ++ m) rest.
Lemma operator_gap_reads l b r a : view l b r a -> reads skip_quote_operator_delimiter_gap l r (fun _ cs => cs = gap_of false false r).
Proof.
  intros Hv. unfold skip_quote_operator_delimiter_gap. eapply reads_current; [exact Hv|]. destruct (is_some_and (head r) is_ascii_whitespace) eqn:E; [by eapply skip_gap_exact|].
  apply reads_ret. destruct r as [|c r]; [done|]. simpl in *. by rewrite E.
Qed.
Lemma run_of_drop p (r : list Z) : run p r = run p (run p r ++ drop (length (run p r)) r).
Proof. by rewrite <-run_drop. Qed.
(** A text has an operator's text at its head exactly when the gap, the
    delimiter and both bodies can be split off. *)
Lemma two_body_split r cs rest : r = cs ++ rest -> two_body_text cs rest <->
  exists delim r1 ws, drop (length (gap_of false false r)) r = delim :: r1 /\ two_end delim r1 = Some ws /\
    cs = gap_of false false r ++ delim :: ws ++ run is_ascii_alphanumeric (drop (length ws) r1).
Proof.
  intros Er. split.
  - intros Ht. destruct Ht as [g delim ws m rest Hg He Hws Hm]. rewrite <-!app_assoc in Er. simpl in Er. rewrite <-!app_assoc in Er.
    assert (Hgap : gap_of false false r = g) by (rewrite Er; by apply gap_of_text). rewrite Hgap. exists delim, (ws ++ m ++ rest), ws.
    rewrite Er, !drop_app_length, <-Hm. split; [done|]. split; [|done]. apply two_end_iff. eauto.
  - intros (delim & r1 & ws & Ed & Hws & Ec). apply two_end_iff in Hws as [Hb [rest1 ->]]. rewrite drop_app_length in Ec.
    destruct (gap_of_prefix r false false) as [r2 E2]. rewrite (drop_prefix _ _ _ E2) in Ed. subst r2. destruct (gap_of_split _ _ _ _ _ E2) as [Hg He].
    rewrite Ec. apply two_body; [done..|]. assert (E3 : rest1 = run is_ascii_alphanumeric rest1 ++ rest).
    { rewrite E2, Ec, <-!app_assoc in Er. simpl in Er. rewrite <-!app_assoc in Er. apply app_inv_head in Er. injection Er as Er. by apply app_inv_head in Er. }
    by rewrite <-E3.
Qed.
Lemma literal_token_view ty l b mid r a : view l (b ++ mid) r a ->
  literal_token ty (blen b) l = Ret (mkToken ty (encode mid) (blen b) (blen (b ++ mid)), with_mode ExpectOperator l).
Proof.
  intros Hv. unfold literal_token. unfold mbind, scan_bind. rewrite (text_from_view _ _ _ _ _ Hv). unfold write, look, mret, scan_ret. simpl.
  by rewrite (position_view _ _ _ _ Hv).
Qed.

Lemma behind_operator_view f start l b r a : view l b r a ->
  let g := gap_of false false r in
  behind_operator f start l = match drop (length g) r with
  | [] => Ret (None, consume g l)
  | delim :: _ => match f start delim (consume (g ++ [delim]) l) with Ret (t, l') => Ret (Some t, l') | Panic => Panic end
  end.
Proof.
  intros Hv g. destruct (operator_gap_reads l _ r a Hv) as ([] & g' & r1 & Er & Eg & Hg). fold g in Hg. subst g'. rewrite (drop_prefix _ _ _ Er).
  rewrite Er in Hv. apply view_consume in Hv. unfold behind_operator, asks, mbind, scan_bind. rewrite Eg, (current_char_view _ _ _ _ Hv).
  destruct r1 as [|delim r1]; [done|]. simpl. rewrite (advance_view _ _ _ _ Hv). change (take 1 (delim :: r1)) with [delim]. by rewrite consume_app.
Qed.
Lemma transliteration_view delim l b mid r a : view l (b ++ mid) r a -> 1 + len r <= i32_max ->
  exists t l', parse_transliteration_with_delimiter (blen b) delim l = Ret (t, l') /\
  match two_end delim r with
  | Some ws => let cs := ws ++ run is_ascii_alphanumeric (drop (length ws) r) in
    t = mkToken TTransliteration (encode (mid ++ cs)) (blen b) (blen (b ++ mid ++ cs)) /\ l' = with_mode ExpectOperator (consume cs l)
  | None => exists msg, token_type t = TError msg
  end.
Proof.
  intros Hv Hn. destruct (two_bodies_reads delim _ _ r a Hv Hn) as (closed & cs & r' & Er & E & Hs). rewrite Er in Hv. apply view_consume in Hv. rewrite <-app_assoc in Hv.
  unfold parse_transliteration_with_delimiter, mbind, scan_bind. rewrite E. unfold two_spec in Hs. destruct (two_end delim r) as [ws|].
  - destruct Hs as [-> ->]. unfold mret at 1, scan_ret at 1. rewrite (literal_token_view _ _ _ _ _ _ Hv). by eexists _, _.
  - subst closed. unfold asks. replace (str_index _ _ _) with (Ret (encode (mid ++ cs ++ r' ++ a))); [|symmetry].
    + unfold mret at 1, scan_ret at 1. rewrite (literal_token_view _ _ _ _ _ _ Hv). eexists _, _. split; [done|]. by eexists.
    + rewrite (view_len _ _ _ _ Hv), (view_input _ _ _ _ Hv). rewrite <-!app_assoc. rewrite <-(app_nil_r (mid ++ cs ++ r' ++ a)) at 1. pose proof (str_index_mid b (mid ++ cs ++ r' ++ a) []) as Hm.
      rewrite !app_nil_r, !blen_app in *. rewrite !Z.add_assoc in *. apply Hm. pose proof (view_scalars _ _ _ _ Hv) as Hsc. by rewrite <-!app_assoc in Hsc.
Qed.

(** C40. Behind its name, a transliteration is read to its end exactly when the text
    goes on with a gap, a delimiter, two balanced bodies and modifiers, and the
    token is all of that; any other text gives an error token, or none when no
    delimiter is left; and nothing panics. *)
Theorem transliteration_exact l b op r a : view l (b ++ op) r a -> 1 + len r <= i32_max ->
  exists res l', parse_transliteration (blen b) l = Ret (res, l') /\
    (forall cs rest, r = cs ++ rest -> two_body_text cs rest ->
       res = Some (mkToken TTransliteration (encode (op ++ cs)) (blen b) (blen (b ++ op ++ cs))) /\ l' = with_mode ExpectOperator (consume cs l)) /\
    ((forall cs rest, r = cs ++ rest -> ~ two_body_text cs rest) -> forall t, res = Some t -> exists msg, token_type t = TError msg).
Proof.
  intros Hv Hn. unfold parse_transliteration. rewrite (behind_operator_view _ _ _ _ _ _ Hv). cbv zeta. destruct (gap_of_prefix r false false) as [r1 Er]. rewrite (drop_prefix _ _ _ Er).
  destruct r1 as [|delim r1].
  { exists None, (consume (gap_of false false r) l). split; [done|]. split; [|done]. intros cs rest E (d & r2 & ws & Ed & _)%(two_body_split _ _ _ E). by rewrite (drop_prefix _ _ _ Er) in Ed. }
  assert (Hv1 : view (consume (gap_of false false r ++ [delim]) l) (b ++ op ++ gap_of false false r ++ [delim]) r1 a).
  { rewrite (app_assoc b). apply view_consume. rewrite <-app_assoc. simpl. by rewrite <-Er. }
  assert (Hr1 : len r1 + 1 <= len r) by (rewrite Er, len_app, len_cons; pose proof (len_nonneg (gap_of false false r)); lia).
  destruct (transliteration_view delim _ _ _ _ _ Hv1 ltac:(lia)) as (t & l' & -> & Ht). exists (Some t), l'. split; [done|].
  assert (Hsplit : forall cs rest, r = cs ++ rest -> two_body_text cs rest <-> exists ws, two_end delim r1 = Some ws /\ cs = (gap_of false false r ++ [delim]) ++ ws ++ run is_ascii_alphanumeric (drop (length ws) r1)).
  { intros cs rest E. rewrite (two_body_split _ _ _ E), (drop_prefix _ _ _ Er). split; [intros (d & r2 & ws & [= <- <-] & Hws & ->)|intros (ws & Hws & ->)]; [exists ws|exists delim, r1, ws]; by rewrite <-app_assoc. }
  destruct (two_end delim r1) as [ws|] eqn:Ews; split.
  - intros cs rest E (ws' & [= <-] & ->)%(Hsplit _ _ E). destruct Ht as [-> ->]. rewrite consume_app. by rewrite <-!app_assoc.
  - intros Hno. exfalso. apply two_end_iff in Ews as Hws. destruct Hws as [_ [rest Er1]]. eapply (Hno _ (drop (length (run is_ascii_alphanumeric rest)) rest)); [|apply Hsplit; [|by eexists]].
    all: rewrite Er at 1; rewrite Er1 at 1; rewrite (drop_prefix _ _ _ Er1), (run_drop is_ascii_alphanumeric rest) at 1; by rewrite <-!app_assoc.
  - intros cs rest E (ws' & ? & _)%(Hsplit _ _ E). done.
  - intros _ t' [= <-]. done.
Qed.

(** ** Plain strings *)

Section plain_strings.
Variables (quote : Z) (escapes : Z -> bool) (ty : TokenType).
Hypothesis Hquote : paired_close quote = None.
Hypothesis Hbackslash : quote <> c_backslash.
Hypothesis Hescapes : escapes quote = true /\ escapes c_backslash = true.

Lemma plain_closer : closer quote = quote.
Proof using Hquote. unfold closer. by rewrite Hquote. Qed.
Lemma plain_end ch r : body_end quote 0 (ch :: r) =
  if ch =? c_backslash then match r with x :: r => (fun w => ch :: x :: w) <$> body_end quote 0 r | [] => None end
  else if ch =? quote then Some [] else cons ch <$> body_end quote 0 r.
Proof using Hquote Hbackslash. simpl. unfold is_paired. rewrite Hquote, plain_closer, (proj2 (Z.eqb_neq quote c_backslash)) by done. simpl. by rewrite andb_true_r. Qed.
Definition plain_spec (r : list Z) (closed : bool) (cs : list Z) : Prop :=
  match body_end quote 0 r with Some w => closed = true /\ cs = w ++ [quote] | None => closed = false end.
Definition plain_round (l : PerlLexer) (r : list Z) (x : Z + bool) (cs : list Z) : Prop :=
  match x with
  | inr closed => plain_spec r closed cs
  | inl p => cs <> [] /\ p = Lexer.position (consume cs l) /\ forall r', r = cs ++ r' -> body_end quote 0 r = app cs <$> body_end quote 0 r'
  end.
(** A round that consumed something goes on. *)
Lemma progress_reads cs l r r' : cs <> [] -> (forall r', r = cs ++ r' -> body_end quote 0 r = app cs <$> body_end quote 0 r') ->
  reads (p ← look Lexer.position; if p =? Lexer.position l then mret (inr false) else mret (inl p)) (consume cs l) r' (fun x ds => plain_round l r x (cs ++ ds)).
Proof using Type.
  intros Hcs E. apply reads_look. rewrite (proj2 (Z.eqb_neq _ _)).
  - apply reads_ret. rewrite app_nil_r. done.
  - unfold consume, at_position. simpl. destruct cs as [|c cs]; [done|]. simpl. pose proof (len_utf8_pos c). pose proof (blen_nonneg cs). lia.
Qed.
Lemma plain_step_reads l b r a : view l b r a -> reads (plain_string_step quote escapes (Lexer.position l)) l r (plain_round l r).
Proof using Hquote Hbackslash Hescapes.
  intros Hv. unfold plain_string_step. eapply reads_current; [exact Hv|]. destruct r as [|ch r]; [by apply reads_ret|]. change (head (ch :: r)) with (Some ch). cbv iota beta.
  destruct (Z.eqb_spec ch quote) as [->|Hq].
  { eapply reads_advance; [exact Hv|]. intros _. apply reads_ret. simpl. unfold plain_spec. rewrite plain_end, Z.eqb_refl. by rewrite (proj2 (Z.eqb_neq _ _)) by done. }
  destruct (Z.eqb_spec ch c_backslash) as [->|Hb].
  - apply reads_assoc. eapply reads_advance; [exact Hv|]. intros Hv1. apply reads_assoc. eapply reads_current; [exact Hv1|]. destruct r as [|x r]; [change (is_some_and (head []) escapes) with false|change (is_some_and (head (x :: r)) escapes) with (escapes x)]; cbv iota.
    + eapply reads_ret_bind. apply (progress_reads [c_backslash]); [done|]. intros r' [= <-]. by rewrite plain_end.
    + destruct (escapes x) eqn:Hx.
      * eapply reads_advance; [exact Hv1|]. intros _. rewrite consume_app. apply (progress_reads [c_backslash; x]); [done|]. intros r' [= <-]. by rewrite plain_end.
      * eapply reads_ret_bind. apply (progress_reads [c_backslash]); [done|]. intros r' [= <-]. rewrite !plain_end. simpl. destruct Hescapes as [H1 H2].
        rewrite (proj2 (Z.eqb_neq x c_backslash)) by congruence. rewrite (proj2 (Z.eqb_neq x quote)) by congruence. by rewrite <-option_fmap_compose.
  - eapply reads_advance; [exact Hv|]. intros _. apply (progress_reads [ch]); [done|]. intros r' [= <-]. rewrite plain_end. by rewrite (proj2 (Z.eqb_neq _ _)), (proj2 (Z.eqb_neq ch quote)) by done.
Qed.
Lemma plain_loop_reads l b r a : view l b r a -> reads (looping (plain_string_step quote escapes) (Lexer.position l)) l r (plain_spec r).
Proof using Hquote Hbackslash Hescapes.
  intros Hv. eapply (reads_looping_inv (fun l p _ => p = Lexer.position l) _ (fun _ _ => plain_spec) a); [|exact Hv|done].
  clear l b r Hv. intros p l b r Hv ->. eapply reads_mono; [|by eapply plain_step_reads]. intros [p|closed] cs; [|done]. intros (H1 & -> & H2). split; [done|]. split; [done|].
  intros closed ds r' Er. unfold plain_spec. rewrite (H2 _ Er). destruct (body_end quote 0 (ds ++ r')); [|done]. intros [-> ->]. simpl. by rewrite app_assoc.
Qed.
(** A string is closed at its first quote that no backslash escapes, and its
    token spans it; unclosed, it is an error up to the end of its first line. *)
Lemma plain_string_exact l b r a : view l b (quote :: r) a ->
  (forall w rest, r = w ++ quote :: rest -> balanced quote w ->
     plain_string quote escapes ty (blen b) l =
       Ret (mkToken ty (encode (quote :: w ++ [quote])) (blen b) (blen (b ++ quote :: w ++ [quote])), with_mode ExpectOperator (consume (quote :: w ++ [quote]) l))) /\
  ((forall w rest, r = w ++ quote :: rest -> ~ balanced quote w) -> exists line rest, quote :: r ++ a = line ++ rest /\ 10 ∉ line /\ (rest = [] \/ head rest = Some 10) /\
     plain_string quote escapes ty (blen b) l =
       Ret (mkToken (TError (bytes_of "unterminated string")) (encode line) (blen b) (blen (b ++ line)), at_position (blen (b ++ line)) l)).
Proof using Hquote Hbackslash Hescapes.
  intros Hv. pose proof (view_consume _ _ [quote] _ _ Hv) as Hv1. destruct (plain_loop_reads _ _ _ _ Hv1) as (closed & cs & r' & Er & E & Hs).
  unfold plain_string, mbind, scan_bind, look. rewrite (advance_view _ _ _ _ Hv). change (take 1 (quote :: r)) with [quote]. rewrite E. unfold plain_spec in Hs.
  pose proof (body_end_iff quote r) as Hiff. unfold first_depth in Hiff. rewrite Hquote, plain_closer in Hiff. split.
  - intros w rest Ew Hw. rewrite (proj2 (Hiff w)) in Hs by eauto. destruct Hs as [-> ->]. subst r. rewrite consume_app.
    assert (Hvc : view (consume ([quote] ++ w ++ [quote]) l) (b ++ [quote] ++ w ++ [quote]) r' a) by (apply view_consume; exact Hv).
    apply (literal_token_view ty _ _ _ _ _ Hvc).
  - intros Hno. destruct (body_end quote 0 r) as [w|]; [by destruct (proj1 (Hiff w) eq_refl) as [Hw [rest Ew]]; destruct (Hno w rest Ew)|]. subst closed.
    destruct (line_split (quote :: r ++ a)) as (line & rest & El & Hl & Hr). exists line, rest. split; [done|]. split; [done|]. split; [done|].
    destruct Hv as [V1 V2 _ _ V5]. change (b ++ (quote :: r) ++ a) with (b ++ quote :: r ++ a) in *. rewrite El in *. rewrite consume_app. by eapply unclosed_token.
Qed.
End plain_strings.

(** A string in single quotes is read exactly: up to its first quote that is
    not escaped, as one token with its source text; and without one, as an error
    token that ends with the first line. *)
Theorem single_quoted_exact l b r a : view l b (c_apostrophe :: r) a ->
  (forall w rest, r = w ++ c_apostrophe :: rest -> balanced c_apostrophe w ->
     let text := c_apostrophe :: w ++ [c_apostrophe] in
     parse_single_quoted_string (blen b) l = Ret (mkToken TStringLiteral (encode text) (blen b) (blen (b ++ text)), with_mode ExpectOperator (consume text l))) /\
  ((forall w rest, r = w ++ c_apostrophe :: rest -> ~ balanced c_apostrophe w) ->
     exists line rest, c_apostrophe :: r ++ a = line ++ rest /\ 10 ∉ line /\ (rest = [] \/ head rest = Some 10) /\
       parse_single_quoted_string (blen b) l =
         Ret (mkToken (TError (bytes_of "unterminated string")) (encode line) (blen b) (blen (b ++ line)), at_position (blen (b ++ line)) l)).
Proof. by apply plain_string_exact. Qed.
Lemma backtick_exact l b w rest a : view l b (96 :: w ++ 96 :: rest) a -> balanced 96 w ->
  let text := 96 :: w ++ [96] in
  parse_backtick_string (blen b) l = Ret (mkToken TQuoteCommand (encode text) (blen b) (blen (b ++ text)), with_mode ExpectOperator (consume text l)).
Proof. intros Hv Hw. by eapply plain_string_exact. Qed.

(** ** Regex literals *)

(** The text of a pattern, inside a character class or not: a slash ends it
    outside of classes only. *)
Inductive pattern : bool -> list Z -> Prop :=
| pattern_nil : pattern false []
| pattern_escape k c w : pattern k w -> pattern k (c_backslash :: c :: w)
| pattern_class k w : pattern true w -> pattern k (c_lbracket :: w)
| pattern_class_end w : pattern false w -> pattern true (c_rbracket :: w)
| pattern_plain k c w : c <> c_backslash -> c <> c_lbracket -> (k = true -> c <> c_rbracket) -> (k = false -> c <> 47) -> pattern k w -> pattern k (c :: w).
(** Inside a class behind this character? *)
Definition class_after (k : bool) (c : Z) : bool := if c =? c_lbracket then true else if (c =? c_rbracket) && k then false else k.
Fixpoint regex_end (k : bool) (r : list Z) : option (list Z) :=
  match r with
  | [] => None
  | ch :: r =>
    if (ch =? 47) && negb k then Some []
    else if ch =? c_backslash then match r with x :: r => (fun w => ch :: x :: w) <$> regex_end k r | [] => None end
    else cons ch <$> regex_end (class_after k ch) r
  end.
Lemma regex_end_app k w rest : pattern k w -> regex_end k (w ++ 47 :: rest) = Some w.
Proof.
  induction 1 as [|k c w _ IH|k w _ IH|w _ IH|k c w Hb Hl Hr Hs _ IH]; [done|by simpl; rewrite IH|..].
  1-2: cbn [regex_end app]; unfold class_after; simpl; by rewrite IH.
  simpl. rewrite (proj2 (Z.eqb_neq c c_backslash)) by done. unfold class_after. rewrite (proj2 (Z.eqb_neq c c_lbracket)) by done.
  replace ((c =? 47) && negb k) with false by (destruct k; [by rewrite andb_false_r|]; by rewrite (proj2 (Z.eqb_neq c 47)) by auto).
  replace ((c =? c_rbracket) && k) with false by (destruct k; [by rewrite (proj2 (Z.eqb_neq c c_rbracket)) by auto|by rewrite andb_false_r]). by rewrite IH.
Qed.
Lemma regex_end_inv r : forall k w, regex_end k r = Some w -> pattern k w /\ exists rest, r = w ++ 47 :: rest.
Proof.
  induction r as [r IH] using (induction_ltof1 _ (@length Z)). unfold ltof in IH. intros k w. destruct r as [|ch r]; [done|]. simpl.
  destruct (_ && _) eqn:Es.
  { apply andb_true_iff in Es as [->%Z.eqb_eq Hk]. destruct k; [done|]. intros [= <-]. split; [constructor|by exists r]. }
  destruct (Z.eqb_spec ch c_backslash) as [->|Hb].
  { destruct r as [|x r]; [done|]. destruct (regex_end k r) as [w'|] eqn:E; [|done]. intros [= <-]. apply IH in E as [Hp [rest ->]]; [|simpl; lia]. split; [by constructor|by exists rest]. }
  destruct (regex_end _ r) as [w'|] eqn:E; [|done]. intros [= <-]. apply IH in E as [Hp [rest ->]]; [|simpl; lia]. split; [|by exists rest].
  unfold class_after in Hp. destruct (Z.eqb_spec ch c_lbracket) as [->|Hl]; [by constructor|]. destruct k.
  - destruct (Z.eqb_spec ch c_rbracket) as [->|]; simpl in Hp; by constructor.
  - rewrite andb_false_r in Hp. apply pattern_plain; [done|done|done| |done]. intros _ ->. done.
Qed.

(** The scan goes on in rounds of one character, or of an escape with the
    character behind it.  Each round is one step, and before each the bytes
    since the opening slash are looked at. *)
Fixpoint rounds (w : list Z) : list (list Z) :=
  match w with
  | [] => []
  | ch :: w => if ch =? c_backslash then match w with x :: w => [ch; x] :: rounds w | [] => [[ch]] end else [ch] :: rounds w
  end.
(** At most so many rounds, and the last starts at most so many bytes behind
    the start of the literal. *)
Definition within_budget (w : list Z) : Prop := len (rounds w) <= MAX_REGEX_PARSE_STEPS /\ 1 + blen (concat (removelast (rounds w))) <= MAX_REGEX_BYTES.
(** The same check, one round after the other. *)
Fixpoint affordable (steps bytes : Z) (w : list Z) : bool :=
  match w with
  | [] => true
  | ch :: w =>
    (steps <? MAX_REGEX_PARSE_STEPS) && (bytes <=? MAX_REGEX_BYTES) &&
    (if ch =? c_backslash then match w with x :: w => affordable (steps + 1) (bytes + blen [ch; x]) w | [] => true end else affordable (steps + 1) (bytes + blen [ch]) w)
  end.
Lemma affordable_rounds w : forall steps bytes, steps <= MAX_REGEX_PARSE_STEPS -> bytes <= MAX_REGEX_BYTES ->
  affordable steps bytes w = true <-> steps + len (rounds w) <= MAX_REGEX_PARSE_STEPS /\ bytes + blen (concat (removelast (rounds w))) <= MAX_REGEX_BYTES.
Proof.
  induction w as [w IH] using (induction_ltof1 _ (@length Z)). unfold ltof in IH. intros steps bytes Hs Hb.
  assert (Hgo : forall cs w', (length w' < length w)%nat -> steps < MAX_REGEX_PARSE_STEPS -> bytes <= MAX_REGEX_BYTES ->
    affordable (steps + 1) (bytes + blen cs) w' = true <->
    steps + len (cs :: rounds w') <= MAX_REGEX_PARSE_STEPS /\ bytes + blen (concat (removelast (cs :: rounds w'))) <= MAX_REGEX_BYTES).
  { intros cs w' Hlen Hs' _. pose proof (blen_nonneg cs). rewrite len_cons. destruct (decide (bytes + blen cs <= MAX_REGEX_BYTES)) as [Hle|Hgt].
    - rewrite (IH w' Hlen) by lia. destruct (rounds w') as [|y ys] eqn:Ey; [simpl; lia|]. cbn [removelast]. simpl concat. rewrite blen_app. fold (removelast (y :: ys)). lia.
    - destruct w' as [|ch w']; [simpl; unfold len; simpl; split; intros; [|done]; split; lia|]. cbn [affordable]. rewrite (proj2 (Z.leb_gt _ _)) by lia. rewrite andb_false_r. split; [done|].
      intros [_ Hb']. exfalso. destruct (rounds (ch :: w')) as [|y ys] eqn:Ey; [by simpl in Ey; destruct (ch =? c_backslash), w'|]. cbn [removelast] in Hb'. simpl concat in Hb'. rewrite blen_app in Hb'.
      match type of Hb' with context [blen (concat ?x)] => pose proof (blen_nonneg (concat x)) end. lia. }
  destruct w as [|ch w]; [unfold len; simpl; split; [intros _; split; lia|done]|]. cbn [affordable rounds]. rewrite (proj2 (Z.leb_le bytes _)) by done.
  destruct (Z.ltb_spec steps MAX_REGEX_PARSE_STEPS) as [Hlt|Hge]; cbn [andb].
  2:{ split; [done|]. destruct (ch =? c_backslash); [destruct w|]; rewrite len_cons; match goal with |- context [len ?l] => pose proof (len_nonneg l) end; lia. }
  destruct (ch =? c_backslash); [destruct w as [|x w]|]; [|apply Hgo; [simpl; lia|done..]..]. unfold len. simpl. split; [intros _; split; lia|done].
Qed.
Lemma within_affordable w : affordable 0 1 w = true <-> within_budget w.
Proof. unfold within_budget. by rewrite affordable_rounds. Qed.

Definition closed_regex (l : PerlLexer) (b text : list Z) : outcome (Token * PerlLexer) :=
  Ret (mkToken TRegexMatch (encode text) (blen b) (blen (b ++ text)), with_mode ExpectOperator l).
(** The rest of the input, given up. *)
Definition given_up (l : PerlLexer) (b : list Z) : Token * PerlLexer := let e := len (Lexer.input l) in (mkToken TUnknownRest [] (blen b) e, at_position e l).
Lemma regex_round_over k steps l b mid ch r a : view l (b ++ mid) (ch :: r) a -> 0 <= steps <= MAX_REGEX_PARSE_STEPS ->
  (steps <? MAX_REGEX_PARSE_STEPS) && (blen mid <=? MAX_REGEX_BYTES) = false ->
  regex_step (blen b) (steps, k) l = Ret (inr (given_up l b).1, (given_up l b).2).
Proof.
  intros Hv Hs Hover. unfold regex_step, asks, look, mbind, scan_bind. rewrite (current_char_view _ _ _ _ Hv).
  change (head (ch :: r)) with (Some ch). cbv iota beta. rewrite usize_small by (unfold MAX_REGEX_PARSE_STEPS, isize_max in *; lia).
  destruct (Z.ltb_spec MAX_REGEX_PARSE_STEPS (steps + 1)) as [Hlt|Hge]; [done|]. rewrite (proj2 (Z.ltb_lt _ _)) in Hover by lia. apply Z.leb_gt in Hover.
  unfold budget_guard, asks, look, mbind, scan_bind. rewrite (view_position _ _ _ _ Hv), blen_app. unfold usize_sub. pose proof (blen_nonneg mid). pose proof (view_small _ _ _ _ Hv) as Hsm. rewrite !blen_app in Hsm.
  pose proof (blen_nonneg b). pose proof (blen_nonneg (ch :: r)). pose proof (blen_nonneg a).
  rewrite arith_Ret by (unfold usize_max, isize_max in *; lia). rewrite (proj2 (Z.leb_gt _ _)) by lia. done.
Qed.
Lemma regex_round k steps l b mid ch r a : view l (b ++ mid) (ch :: r) a -> 0 <= steps < MAX_REGEX_PARSE_STEPS -> blen mid <= MAX_REGEX_BYTES ->
  let m := run is_ascii_alphanumeric r in
  regex_step (blen b) (steps, k) l =
    if (ch =? 47) && negb k then match closed_regex (consume (ch :: m) l) b (mid ++ ch :: m) with Ret (t, l') => Ret (inr t, l') | Panic => Panic end
    else if ch =? c_backslash then Ret (inl (steps + 1, k), consume (take 2 (ch :: r)) l)
    else Ret (inl (steps + 1, class_after k ch), consume [ch] l).
Proof.
  intros Hv Hs Hb m. pose proof (view_consume _ _ [ch] _ _ Hv) as Hv1. unfold regex_step, asks, look, mbind, scan_bind. rewrite (current_char_view _ _ _ _ Hv).
  change (head (ch :: r)) with (Some ch). cbv iota beta. rewrite usize_small by (unfold MAX_REGEX_PARSE_STEPS, isize_max in *; lia).
  rewrite (proj2 (Z.ltb_ge _ _)) by lia. unfold budget_guard, asks, look, mbind, scan_bind. rewrite (view_position _ _ _ _ Hv), blen_app.
  unfold usize_sub. pose proof (blen_nonneg mid). rewrite arith_Ret by (unfold usize_max, MAX_REGEX_BYTES in *; lia). rewrite (proj2 (Z.leb_le _ _)) by lia. unfold mret at 1, scan_ret at 1. cbv iota beta.
  pose proof (advance_view _ _ _ _ Hv) as Ha. change (take 1 (ch :: r)) with [ch] in Ha. destruct (_ && negb k).
  { rewrite Ha. destruct (skip_while_exact is_ascii_alphanumeric _ _ _ _ Hv1) as ([] & cs & r' & Er & E & ->). unfold parse_regex_modifiers. rewrite E, consume_app. change ([ch] ++ run is_ascii_alphanumeric r) with (ch :: m).
    rewrite Er in Hv. fold m in Hv. rewrite app_comm_cons in Hv. apply view_consume in Hv. rewrite <-app_assoc in Hv. rewrite (literal_token_view TRegexMatch _ _ _ _ _ Hv). done. }
  destruct (ch =? c_backslash).
  { rewrite Ha, (current_char_view _ _ _ _ Hv1). destruct r as [|x r]; simpl; [done|].
    rewrite (advance_view _ _ _ _ Hv1). by rewrite consume_app. }
  unfold class_after. destruct (ch =? c_lbracket); [by rewrite Ha|]. by destruct ((ch =? c_rbracket) && k); rewrite Ha.
Qed.

(** How the scan ends: over its budget, without a closing slash, or with it. *)
Fixpoint regex_verdict (k : bool) (steps bytes : Z) (r : list Z) : option (option (list Z)) :=
  match r with
  | [] => Some None
  | ch :: r =>
    if (steps <? MAX_REGEX_PARSE_STEPS) && (bytes <=? MAX_REGEX_BYTES) then
      if (ch =? 47) && negb k then Some (Some [])
      else if ch =? c_backslash then
        match r with x :: r => option_map (option_map (fun w => ch :: x :: w)) (regex_verdict k (steps + 1) (bytes + blen [ch; x]) r) | [] => Some None end
      else option_map (option_map (cons ch)) (regex_verdict (class_after k ch) (steps + 1) (bytes + blen [ch]) r)
    else None
  end.
Lemma regex_rounds n k steps l b mid r a : (length r < n)%nat -> view l (b ++ mid) r a -> 0 <= steps <= MAX_REGEX_PARSE_STEPS ->
  scan_loop n (regex_step (blen b)) (steps, k) l =
  match regex_verdict k steps (blen mid) r with
  | None => Ret (given_up l b)
  | Some None => unterminated_regex_error (blen b) (consume r l)
  | Some (Some w) =>
    let text := w ++ 47 :: run is_ascii_alphanumeric (drop (S (length w)) r) in closed_regex (consume text l) b (mid ++ text)
  end.
Proof.
  revert k steps l mid r. induction n as [|n IH]; intros k steps l mid r Hn Hv Hs; [lia|]. destruct r as [|ch r].
  { cbn [scan_loop regex_verdict]. rewrite consume_nil. unfold regex_step, asks, mbind, scan_bind. rewrite (current_char_view _ _ _ _ Hv). simpl. destruct (unterminated_regex_error _ _) as [[t l']|]; done. }
  cbn [scan_loop regex_verdict]. destruct ((steps <? MAX_REGEX_PARSE_STEPS) && _) eqn:Ea.
  2:{ unfold mbind at 1, scan_bind at 1. by rewrite (regex_round_over k steps l b mid ch r a). }
  apply andb_true_iff in Ea as [Hlt%Z.ltb_lt Hle%Z.leb_le].
  assert (Hgo : forall k' cs r', ch :: r = cs ++ r' -> cs <> [] -> scan_loop n (regex_step (blen b)) (steps + 1, k') (consume cs l) =
    match regex_verdict k' (steps + 1) (blen mid + blen cs) r' with
    | None => Ret (given_up l b)
    | Some None => unterminated_regex_error (blen b) (consume r' (consume cs l))
    | Some (Some w) => let text := w ++ 47 :: run is_ascii_alphanumeric (drop (S (length w)) r') in closed_regex (consume text (consume cs l)) b ((mid ++ cs) ++ text)
    end).
  { intros k' cs r' Er Hcs. rewrite Er in Hv. apply view_consume in Hv. rewrite <-app_assoc in Hv. destruct cs as [|c cs]; [done|]. injection Er as <- ->.
    simpl in Hn. rewrite length_app in Hn. rewrite (IH k' (steps + 1) _ (mid ++ ch :: cs) r'); [|lia|exact Hv|lia]. by rewrite blen_app. }
  unfold mbind at 1, scan_bind at 1. rewrite (regex_round k steps l b mid ch r a) by (done || lia). destruct (_ && negb k) eqn:Es.
  { apply andb_true_iff in Es as [->%Z.eqb_eq _]. cbv zeta. simpl drop. rewrite drop_0. by unfold closed_regex. }
  destruct (ch =? c_backslash).
  - destruct r as [|x r]; simpl take; rewrite ?firstn_O; [rewrite (Hgo k [ch] []) by done; simpl; by rewrite consume_nil|]. rewrite (Hgo k [ch; x] r) by done.
    destruct (regex_verdict k _ _ r) as [[w|]|]; simpl; rewrite ?consume_app; [|done..]. by rewrite <-app_assoc.
  - rewrite (Hgo _ [ch] r) by done. destruct (regex_verdict _ _ _ r) as [[w|]|]; simpl; rewrite ?consume_app; [|done..]. by rewrite <-app_assoc.
Qed.
Lemma verdict_spec r : forall k steps bytes, regex_verdict k steps bytes r =
  match regex_end k r with
  | Some w => if affordable steps bytes (w ++ [47]) then Some (Some w) else None
  | None => if affordable steps bytes r then Some None else None
  end.
Proof.
  induction r as [r IH] using (induction_ltof1 _ (@length Z)). unfold ltof in IH. intros k steps bytes. destruct r as [|ch r]; [done|]. cbn [regex_verdict regex_end].
  destruct ((ch =? 47) && negb k) eqn:Es.
  { apply andb_true_iff in Es as [->%Z.eqb_eq _]. simpl. destruct (_ && _); done. }
  destruct (Z.eqb_spec ch c_backslash) as [->|Hne].
  - destruct r as [|x r]; [cbn [affordable]; by rewrite Z.eqb_refl, andb_true_r|]. rewrite IH by (simpl; lia). destruct (regex_end k r) as [w|]; simpl fmap; cbn [app affordable]; rewrite Z.eqb_refl; destruct (affordable _ _ _); rewrite ?andb_true_r, ?andb_false_r; by destruct ((steps <? MAX_REGEX_PARSE_STEPS) && (bytes <=? MAX_REGEX_BYTES)).
  - rewrite IH by (simpl; lia). destruct (regex_end _ r) as [w|]; simpl fmap; cbn [app affordable]; rewrite (proj2 (Z.eqb_neq ch c_backslash)) by done; destruct (affordable _ _ _); rewrite ?andb_true_r, ?andb_false_r; by destruct ((steps <? MAX_REGEX_PARSE_STEPS) && (bytes <=? MAX_REGEX_BYTES)).
Qed.
Lemma unterminated_regex l p b line rest : scalars (b ++ line ++ rest) -> Lexer.input l = encode (b ++ line ++ rest) ->
  blen (b ++ line ++ rest) <= isize_max -> 10 ∉ line -> (rest = [] \/ head rest = Some 10) ->
  unterminated_regex_error (blen b) (at_position p l) =
    Ret (mkToken (TError (bytes_of "unterminated regex")) (encode line) (blen b) (blen (b ++ line)), with_mode ExpectTerm (at_position (blen (b ++ line)) l)).
Proof.
  intros Hs Hi Hsm Hl Hr. unfold unterminated_regex_error, mbind, scan_bind, look, write, asks.
  rewrite (unclosed_end (at_position p l) b line rest Hs Hi Hsm Hl Hr). simpl. rewrite Hi, blen_app, str_index_mid by done. done.
Qed.
(** C19. A regex literal is read exactly.  It ends at the first slash that is
    neither escaped nor inside a character class; with the modifiers behind it
    it is one token, and without such a slash an error token that ends with the
    first line, as long as the scan keeps within its budgets: at most
    [MAX_REGEX_PARSE_STEPS] rounds (a round is a character, or a backslash with
    the character behind it) up to and with the closing slash, or up to the end
    of the source when there is none, of which the last starts at most
    [MAX_REGEX_BYTES] bytes behind the start of the literal.  What comes behind
    the closing slash does not count.  Beyond a budget the rest of the source is
    one empty token of unknown kind. *)
Theorem regex_literal_exact l b r a : view l b (47 :: r) a ->
  (forall w rest, r = w ++ 47 :: rest -> pattern false w ->
     (within_budget (w ++ [47]) ->
        let text := 47 :: w ++ 47 :: run is_ascii_alphanumeric rest in
        parse_regex (blen b) l = Ret (mkToken TRegexMatch (encode text) (blen b) (blen (b ++ text)), with_mode ExpectOperator (consume text l))) /\
     (~ within_budget (w ++ [47]) -> parse_regex (blen b) l = Ret (given_up l b))) /\
  ((forall w rest, r = w ++ 47 :: rest -> ~ pattern false w) ->
     (within_budget r -> exists line rest, 47 :: r ++ a = line ++ rest /\ 10 ∉ line /\ (rest = [] \/ head rest = Some 10) /\
       parse_regex (blen b) l =
         Ret (mkToken (TError (bytes_of "unterminated regex")) (encode line) (blen b) (blen (b ++ line)), with_mode ExpectTerm (at_position (blen (b ++ line)) l))) /\
     (~ within_budget r -> parse_regex (blen b) l = Ret (given_up l b))).
Proof.
  intros Hv. pose proof (view_consume _ _ [47] _ _ Hv) as Hv1.
  assert (E : parse_regex (blen b) l = scan_loop (S (length (Lexer.input l))) (regex_step (blen b)) (0, false) (consume [47] l)).
  { unfold parse_regex, mbind, scan_bind. rewrite (advance_view _ _ _ _ Hv). done. }
  rewrite E. rewrite (regex_rounds _ false 0 _ b [47] r a); [|rewrite (view_input _ _ _ _ Hv), !encode_app, !length_app|exact Hv1|unfold MAX_REGEX_PARSE_STEPS; lia].
  2:{ pose proof (len_le_blen (47 :: r)) as Hle. rewrite <-len_encode in Hle. unfold len in Hle. simpl length in Hle at 1. lia. }
  change (blen [47]) with 1. rewrite verdict_spec. split.
  - intros w rest -> Hw. rewrite regex_end_app by done. rewrite <-within_affordable. destruct (affordable 0 1 (w ++ [47])); (split; [|by intros ?]).
    + intros _. cbv zeta. by rewrite drop_behind, consume_app.
    + done.
  - intros Hno. destruct (regex_end false r) as [w|] eqn:Ew; [by apply regex_end_inv in Ew as [Hw [rest Er]]; destruct (Hno w rest Er)|].
    rewrite <-within_affordable. destruct (affordable 0 1 r); (split; [|by intros ?]); [intros _|done].
    destruct (line_split (47 :: r ++ a)) as (line & rest & El & Hl & Hr). exists line, rest. split; [done|]. split; [done|]. split; [done|].
    destruct Hv as [V1 V2 _ _ V5]. change (b ++ (47 :: r) ++ a) with (b ++ 47 :: r ++ a) in *. rewrite El in *. rewrite consume_app. by eapply unterminated_regex.
Qed.

Lemma data_body_exact l b r : view l b r [] ->
  parse_data_body l = Ret (match r with [] => mkToken TEOF [] (blen b) (blen b) | _ => mkToken (TDataBody (encode r)) (encode r) (blen b) (blen (b ++ r)) end, with_mode ExpectTerm (consume r l)).
Proof.
  intros Hv. unfold parse_data_body, asks, look, write, mbind, scan_bind. rewrite (view_len _ _ _ _ Hv), (view_position _ _ _ _ Hv), Z.add_0_r. destruct r as [|c r].
  - rewrite (proj2 (Z.leb_le _ _)) by (simpl; lia). by rewrite consume_nil.
  - pose proof (len_utf8_pos c). pose proof (blen_nonneg r). rewrite (proj2 (Z.leb_gt _ _)) by (simpl; lia). rewrite (view_input _ _ _ _ Hv). rewrite str_index_mid by apply (view_scalars _ _ _ _ Hv).
    unfold consume. rewrite (view_position _ _ _ _ Hv), blen_app. done.
Qed.

(** ** Concrete literals *)

Definition demo_transliteration : list Z := bytes_of "tr {a{b}} # c" ++ [10] ++ bytes_of "[c]r;".
Definition demo_transliteration_rest : list Z := drop 2 demo_transliteration.
Lemma demo_transliteration_view : view (consume (bytes_of "tr") (lexer_new (encode demo_transliteration))) ([] ++ bytes_of "tr") demo_transliteration_rest [].
Proof. apply (view_consume _ [] (bytes_of "tr")). apply (lexer_new_view demo_transliteration); [repeat constructor|done]. Qed.
Lemma transliteration_exact_witness :
  exists l', parse_transliteration 0 (consume (bytes_of "tr") (lexer_new (encode demo_transliteration))) =
    Ret (Some (mkToken TTransliteration (take 18 demo_transliteration) 0 18), l').
Proof.
  destruct (transliteration_exact _ [] (bytes_of "tr") _ _ demo_transliteration_view ltac:(done)) as (res & l' & E & Hyes & _). change (blen []) with 0 in E. exists l'. rewrite E.
  destruct (Hyes (take 16 demo_transliteration_rest) [59] eq_refl) as [-> _]; [|done].
  apply (two_body_split demo_transliteration_rest (take 16 demo_transliteration_rest) [59] eq_refl). eexists _, _, _. split_and!; vm_compute; reflexivity.
Defined.

Definition demo_regex : list Z := bytes_of "/a[/\]]\/b/gx;".
Lemma demo_regex_view : view (lexer_new (encode demo_regex)) [] demo_regex [].
Proof. apply lexer_new_view; [repeat constructor|done]. Qed.
Lemma regex_literal_exact_witness :
  exists l', parse_regex 0 (lexer_new (encode demo_regex)) = Ret (mkToken TRegexMatch (bytes_of "/a[/\]]\/b/gx") 0 13, l').
Proof.
  eexists. apply (proj1 (regex_literal_exact _ [] (tail demo_regex) [] demo_regex_view) (bytes_of "a[/\]]\/b") (bytes_of "gx;") eq_refl).
  - apply (regex_end_inv (tail demo_regex)). done.
  - by apply within_affordable.
Defined.
