(* ===== verification/Tokens.v ===== *)
(** * Parser tokens (perl-token/src: kind.rs, span.rs, token.rs)

    The token kinds with their spellings, categories and display names, the
    checked spans, and the constructors of parser tokens, which accept only
    ordered geometry whose width is the width of the text.

    A [match] on a string literal is written as the association list of its
    arms, searched in order ([match_str]). *)

From Stdlib Require Import String.
From stdpp Require Import base numbers list.
From S2P Require Import Prelude Utf8.

(** ** Kinds *)

Inductive TokenKind :=
| KMy | KOur | KLocal | KState | KSub | KIf | KElsif | KElse | KUnless | KWhile | KUntil | KFor | KForeach
| KReturn | KPackage | KUse | KNo | KBegin | KEnd | KCheck | KInit | KUnitcheck | KEval | KDo | KGiven
| KWhen | KDefault | KTry | KCatch | KFinally | KContinue | KNext | KLast | KRedo | KGoto | KClass
| KMethod | KField | KFormat | KUndef | KDefer | KAssign | KPlus | KMinus | KStar | KSlash | KPercent
| KPower | KLeftShift | KRightShift | KBitwiseAnd | KBitwiseOr | KBitwiseXor | KBitwiseNot | KPlusAssign
| KMinusAssign | KStarAssign | KSlashAssign | KPercentAssign | KDotAssign | KAndAssign | KOrAssign
| KXorAssign | KPowerAssign | KLeftShiftAssign | KRightShiftAssign | KLogicalAndAssign | KLogicalOrAssign
| KDefinedOrAssign | KEqual | KNotEqual | KMatch | KNotMatch | KSmartMatch | KLess | KGreater | KLessEqual
| KGreaterEqual | KSpaceship | KStringCompare | KAnd | KOr | KNot | KDefinedOr | KWordAnd | KWordOr
| KWordNot | KWordXor | KArrow | KFatArrow | KDot | KRange | KEllipsis | KIncrement | KDecrement
| KDoubleColon | KQuestion | KColon | KBackslash | KLeftParen | KRightParen | KLeftBrace | KRightBrace
| KLeftBracket | KRightBracket | KSemicolon | KComma | KNumber | KString | KRegex | KSubstitution
| KTransliteration | KQuoteSingle | KQuoteDouble | KQuoteWords | KQuoteCommand | KHeredocStart
| KHeredocBody | KFormatBody | KDataMarker | KDataBody | KVString | KUnknownRest | KHeredocDepthLimit
| KIdentifier | KScalarSigil | KArraySigil | KHashSigil | KSubSigil | KGlobSigil | KEof | KUnknown.

(** [TOKEN_KIND_ALL] *)
Definition all_kinds : list TokenKind := [
  KMy; KOur; KLocal; KState; KSub; KIf; KElsif; KElse; KUnless; KWhile; KUntil; KFor; KForeach; KReturn;
  KPackage; KUse; KNo; KBegin; KEnd; KCheck; KInit; KUnitcheck; KEval; KDo; KGiven; KWhen; KDefault; KTry;
  KCatch; KFinally; KContinue; KNext; KLast; KRedo; KGoto; KClass; KMethod; KField; KFormat; KUndef;
  KDefer; KAssign; KPlus; KMinus; KStar; KSlash; KPercent; KPower; KLeftShift; KRightShift; KBitwiseAnd;
  KBitwiseOr; KBitwiseXor; KBitwiseNot; KPlusAssign; KMinusAssign; KStarAssign; KSlashAssign;
  KPercentAssign; KDotAssign; KAndAssign; KOrAssign; KXorAssign; KPowerAssign; KLeftShiftAssign;
  KRightShiftAssign; KLogicalAndAssign; KLogicalOrAssign; KDefinedOrAssign; KEqual; KNotEqual; KMatch;
  KNotMatch; KSmartMatch; KLess; KGreater; KLessEqual; KGreaterEqual; KSpaceship; KStringCompare; KAnd;
  KOr; KNot; KDefinedOr; KWordAnd; KWordOr; KWordNot; KWordXor; KArrow; KFatArrow; KDot; KRange; KEllipsis;
  KIncrement; KDecrement; KDoubleColon; KQuestion; KColon; KBackslash; KLeftParen; KRightParen; KLeftBrace;
  KRightBrace; KLeftBracket; KRightBracket; KSemicolon; KComma; KNumber; KString; KRegex; KSubstitution;
  KTransliteration; KQuoteSingle; KQuoteDouble; KQuoteWords; KQuoteCommand; KHeredocStart; KHeredocBody;
  KFormatBody; KDataMarker; KDataBody; KVString; KUnknownRest; KHeredocDepthLimit; KIdentifier;
  KScalarSigil; KArraySigil; KHashSigil; KSubSigil; KGlobSigil; KEof; KUnknown].

(** The discriminant; kinds are compared by it. *)
Definition kind_index (self : TokenKind) : nat :=
  match self with
  | KMy => 0 | KOur => 1 | KLocal => 2 | KState => 3 | KSub => 4 | KIf => 5 | KElsif => 6 | KElse => 7
  | KUnless => 8 | KWhile => 9 | KUntil => 10 | KFor => 11 | KForeach => 12 | KReturn => 13
  | KPackage => 14 | KUse => 15 | KNo => 16 | KBegin => 17 | KEnd => 18 | KCheck => 19 | KInit => 20
  | KUnitcheck => 21 | KEval => 22 | KDo => 23 | KGiven => 24 | KWhen => 25 | KDefault => 26 | KTry => 27
  | KCatch => 28 | KFinally => 29 | KContinue => 30 | KNext => 31 | KLast => 32 | KRedo => 33 | KGoto => 34
  | KClass => 35 | KMethod => 36 | KField => 37 | KFormat => 38 | KUndef => 39 | KDefer => 40
  | KAssign => 41 | KPlus => 42 | KMinus => 43 | KStar => 44 | KSlash => 45 | KPercent => 46 | KPower => 47
  | KLeftShift => 48 | KRightShift => 49 | KBitwiseAnd => 50 | KBitwiseOr => 51 | KBitwiseXor => 52
  | KBitwiseNot => 53 | KPlusAssign => 54 | KMinusAssign => 55 | KStarAssign => 56 | KSlashAssign => 57
  | KPercentAssign => 58 | KDotAssign => 59 | KAndAssign => 60 | KOrAssign => 61 | KXorAssign => 62
  | KPowerAssign => 63 | KLeftShiftAssign => 64 | KRightShiftAssign => 65 | KLogicalAndAssign => 66
  | KLogicalOrAssign => 67 | KDefinedOrAssign => 68 | KEqual => 69 | KNotEqual => 70 | KMatch => 71
  | KNotMatch => 72 | KSmartMatch => 73 | KLess => 74 | KGreater => 75 | KLessEqual => 76
  | KGreaterEqual => 77 | KSpaceship => 78 | KStringCompare => 79 | KAnd => 80 | KOr => 81 | KNot => 82
  | KDefinedOr => 83 | KWordAnd => 84 | KWordOr => 85 | KWordNot => 86 | KWordXor => 87 | KArrow => 88
  | KFatArrow => 89 | KDot => 90 | KRange => 91 | KEllipsis => 92 | KIncrement => 93 | KDecrement => 94
  | KDoubleColon => 95 | KQuestion => 96 | KColon => 97 | KBackslash => 98 | KLeftParen => 99
  | KRightParen => 100 | KLeftBrace => 101 | KRightBrace => 102 | KLeftBracket => 103
  | KRightBracket => 104 | KSemicolon => 105 | KComma => 106 | KNumber => 107 | KString => 108
  | KRegex => 109 | KSubstitution => 110 | KTransliteration => 111 | KQuoteSingle => 112
  | KQuoteDouble => 113 | KQuoteWords => 114 | KQuoteCommand => 115 | KHeredocStart => 116
  | KHeredocBody => 117 | KFormatBody => 118 | KDataMarker => 119 | KDataBody => 120 | KVString => 121
  | KUnknownRest => 122 | KHeredocDepthLimit => 123 | KIdentifier => 124 | KScalarSigil => 125
  | KArraySigil => 126 | KHashSigil => 127 | KSubSigil => 128 | KGlobSigil => 129 | KEof => 130
  | KUnknown => 131
  end%nat.
Lemma all_kinds_index k : all_kinds !! kind_index k = Some k.
Proof. by destruct k. Qed.
Lemma kind_index_inj x y : kind_index x = kind_index y -> x = y.
Proof.
  intros E. pose proof (all_kinds_index x) as Hx. rewrite E, all_kinds_index in Hx. by injection Hx.
Qed.
#[export] Instance TokenKind_eq_dec : EqDecision TokenKind.
Proof.
  refine (fun x y => cast_if (decide (kind_index x = kind_index y))).
  - by apply kind_index_inj.
  - by intros ->.
Defined.

Inductive TokenCategory := CategoryKeyword | CategoryOperator | CategoryDelimiter | CategoryLiteral | CategoryIdentifier | CategorySpecial.
#[export] Instance TokenCategory_eq_dec : EqDecision TokenCategory.
Proof. solve_decision. Defined.

Definition category (self : TokenKind) : TokenCategory :=
  match self with
  | KMy | KOur | KLocal | KState | KSub | KIf | KElsif | KElse | KUnless | KWhile | KUntil | KFor
  | KForeach | KReturn | KPackage | KUse | KNo | KBegin | KEnd | KCheck | KInit | KUnitcheck | KEval | KDo
  | KGiven | KWhen | KDefault | KTry | KCatch | KFinally | KContinue | KNext | KLast | KRedo | KGoto
  | KClass | KMethod | KField | KFormat | KUndef | KDefer => CategoryKeyword
  | KAssign | KPlus | KMinus | KStar | KSlash | KPercent | KPower | KLeftShift | KRightShift | KBitwiseAnd
  | KBitwiseOr | KBitwiseXor | KBitwiseNot | KPlusAssign | KMinusAssign | KStarAssign | KSlashAssign
  | KPercentAssign | KDotAssign | KAndAssign | KOrAssign | KXorAssign | KPowerAssign | KLeftShiftAssign
  | KRightShiftAssign | KLogicalAndAssign | KLogicalOrAssign | KDefinedOrAssign | KEqual | KNotEqual
  | KMatch | KNotMatch | KSmartMatch | KLess | KGreater | KLessEqual | KGreaterEqual | KSpaceship
  | KStringCompare | KAnd | KOr | KNot | KDefinedOr | KWordAnd | KWordOr | KWordNot | KWordXor | KArrow
  | KFatArrow | KDot | KRange | KEllipsis | KIncrement | KDecrement | KDoubleColon | KQuestion | KColon
  | KBackslash => CategoryOperator
  | KLeftParen | KRightParen | KLeftBrace | KRightBrace | KLeftBracket | KRightBracket | KSemicolon
  | KComma => CategoryDelimiter
  | KNumber | KString | KRegex | KSubstitution | KTransliteration | KQuoteSingle | KQuoteDouble
  | KQuoteWords | KQuoteCommand | KHeredocStart | KHeredocBody | KFormatBody | KDataMarker | KDataBody
  | KVString | KUnknownRest | KHeredocDepthLimit => CategoryLiteral
  | KIdentifier | KScalarSigil | KArraySigil | KHashSigil | KSubSigil | KGlobSigil => CategoryIdentifier
  | KEof | KUnknown => CategorySpecial
  end.

Definition is_keyword (self : TokenKind) : bool := bool_decide (category self = CategoryKeyword).

Definition is_operator (self : TokenKind) : bool := bool_decide (category self = CategoryOperator).

Definition is_literal (self : TokenKind) : bool := bool_decide (category self = CategoryLiteral).

Definition is_delimiter (self : TokenKind) : bool := bool_decide (category self = CategoryDelimiter).

Definition is_identifier (self : TokenKind) : bool := bool_decide (category self = CategoryIdentifier).

Definition is_special (self : TokenKind) : bool := bool_decide (category self = CategorySpecial).

Definition is_assignment_operator (self : TokenKind) : bool :=
  match self with
  | KAssign | KPlusAssign | KMinusAssign | KStarAssign | KSlashAssign | KPercentAssign | KDotAssign
  | KAndAssign | KOrAssign | KXorAssign | KPowerAssign | KLeftShiftAssign | KRightShiftAssign
  | KLogicalAndAssign | KLogicalOrAssign | KDefinedOrAssign => true
  | _ => false
  end.

Definition is_comparison_operator (self : TokenKind) : bool :=
  match self with
  | KEqual | KNotEqual | KLess | KGreater | KLessEqual | KGreaterEqual | KSpaceship | KStringCompare
  | KMatch | KNotMatch | KSmartMatch => true
  | _ => false
  end.

Definition is_logical_operator (self : TokenKind) : bool :=
  match self with
  | KAnd | KOr | KNot | KDefinedOr | KWordAnd | KWordOr | KWordNot | KWordXor => true
  | _ => false
  end.

Definition is_word_operator (self : TokenKind) : bool :=
  match self with
  | KStringCompare | KWordAnd | KWordOr | KWordNot | KWordXor => true
  | _ => false
  end.

Definition is_low_precedence_word_operator (self : TokenKind) : bool :=
  match self with
  | KWordAnd | KWordOr | KWordNot | KWordXor => true
  | _ => false
  end.

Definition is_open_delimiter (self : TokenKind) : bool :=
  match self with
  | KLeftParen | KLeftBrace | KLeftBracket => true
  | _ => false
  end.

Definition is_close_delimiter (self : TokenKind) : bool :=
  match self with
  | KRightParen | KRightBrace | KRightBracket => true
  | _ => false
  end.

Definition is_quote_like (self : TokenKind) : bool :=
  match self with
  | KRegex | KSubstitution | KTransliteration | KQuoteSingle | KQuoteDouble | KQuoteWords | KQuoteCommand
  | KHeredocStart => true
  | _ => false
  end.

Definition matching_delimiter (self : TokenKind) : option TokenKind :=
  match self with
  | KLeftParen => Some KRightParen
  | KRightParen => Some KLeftParen
  | KLeftBrace => Some KRightBrace
  | KRightBrace => Some KLeftBrace
  | KLeftBracket => Some KRightBracket
  | KRightBracket => Some KLeftBracket
  | _ => None
  end.

Definition is_recovery_boundary (self : TokenKind) : bool :=
  bool_decide (self = KSemicolon) || is_close_delimiter self || bool_decide (self = KEof).

(** ** Spellings *)

Definition spellings (rows : list (string * TokenKind)) : list (list Z * TokenKind) :=
  (fun r => (bytes_of r.1, r.2)) <$> rows.

Definition KEYWORD_SPELLINGS : list (list Z * TokenKind) := spellings [
  ("my", KMy); ("our", KOur); ("local", KLocal); ("state", KState); ("sub", KSub); ("if", KIf);
  ("elsif", KElsif); ("else", KElse); ("unless", KUnless); ("while", KWhile); ("until", KUntil);
  ("for", KFor); ("foreach", KForeach); ("return", KReturn); ("package", KPackage); ("use", KUse);
  ("no", KNo); ("BEGIN", KBegin); ("END", KEnd); ("CHECK", KCheck); ("INIT", KInit);
  ("UNITCHECK", KUnitcheck); ("eval", KEval); ("do", KDo); ("given", KGiven); ("when", KWhen);
  ("default", KDefault); ("try", KTry); ("catch", KCatch); ("finally", KFinally); ("continue", KContinue);
  ("next", KNext); ("last", KLast); ("redo", KRedo); ("goto", KGoto); ("class", KClass);
  ("method", KMethod); ("field", KField); ("format", KFormat); ("undef", KUndef); ("defer", KDefer);
  ("and", KWordAnd); ("or", KWordOr); ("not", KWordNot); ("xor", KWordXor); ("cmp", KStringCompare)]%string.

Definition OPERATOR_SPELLINGS : list (list Z * TokenKind) := spellings [
  ("=", KAssign); ("+", KPlus); ("-", KMinus); ("*", KStar); ("/", KSlash); ("%", KPercent);
  ("**", KPower); ("<<", KLeftShift); (">>", KRightShift); ("&", KBitwiseAnd); ("|", KBitwiseOr);
  ("^", KBitwiseXor); ("~", KBitwiseNot); ("+=", KPlusAssign); ("-=", KMinusAssign); ("*=", KStarAssign);
  ("/=", KSlashAssign); ("%=", KPercentAssign); (".=", KDotAssign); ("&=", KAndAssign); ("|=", KOrAssign);
  ("^=", KXorAssign); ("**=", KPowerAssign); ("<<=", KLeftShiftAssign); (">>=", KRightShiftAssign);
  ("&&=", KLogicalAndAssign); ("||=", KLogicalOrAssign); ("//=", KDefinedOrAssign); ("==", KEqual);
  ("!=", KNotEqual); ("=~", KMatch); ("!~", KNotMatch); ("~~", KSmartMatch); ("<", KLess); (">", KGreater);
  ("<=", KLessEqual); (">=", KGreaterEqual); ("<=>", KSpaceship); ("&&", KAnd); ("||", KOr); ("!", KNot);
  ("//", KDefinedOr); ("->", KArrow); ("=>", KFatArrow); (".", KDot); ("..", KRange); ("...", KEllipsis);
  ("++", KIncrement); ("--", KDecrement); ("::", KDoubleColon); ("?", KQuestion); (":", KColon);
  ("\", KBackslash)]%string.

Definition DELIMITER_SPELLINGS : list (list Z * TokenKind) := spellings [
  ("(", KLeftParen); (")", KRightParen); ("{", KLeftBrace); ("}", KRightBrace); ("[", KLeftBracket);
  ("]", KRightBracket); (";", KSemicolon); (",", KComma)]%string.

Definition SIGIL_SPELLINGS : list (list Z * TokenKind) := spellings [
  ("$", KScalarSigil); ("@", KArraySigil); ("%", KHashSigil); ("&", KSubSigil); ("*", KGlobSigil)]%string.

(** The first arm that equals the string. *)
Definition match_str (s : list Z) (arms : list (list Z * TokenKind)) : option TokenKind :=
  snd ∘ snd <$> list_find (fun r => r.1 = s) arms.

Definition from_keyword (spelling : list Z) : option TokenKind :=
  match_str spelling (spellings [
  ("my", KMy); ("our", KOur); ("local", KLocal); ("state", KState); ("sub", KSub); ("if", KIf);
  ("elsif", KElsif); ("else", KElse); ("unless", KUnless); ("while", KWhile); ("until", KUntil);
  ("for", KFor); ("foreach", KForeach); ("return", KReturn); ("package", KPackage); ("use", KUse);
  ("no", KNo); ("BEGIN", KBegin); ("END", KEnd); ("CHECK", KCheck); ("INIT", KInit);
  ("UNITCHECK", KUnitcheck); ("eval", KEval); ("do", KDo); ("given", KGiven); ("when", KWhen);
  ("default", KDefault); ("try", KTry); ("catch", KCatch); ("finally", KFinally); ("continue", KContinue);
  ("next", KNext); ("last", KLast); ("redo", KRedo); ("goto", KGoto); ("class", KClass);
  ("method", KMethod); ("field", KField); ("format", KFormat); ("undef", KUndef); ("defer", KDefer);
  ("and", KWordAnd); ("or", KWordOr); ("not", KWordNot); ("xor", KWordXor); ("cmp", KStringCompare)]%string).

Definition from_operator (spelling : list Z) : option TokenKind :=
  match_str spelling (spellings [
  ("=", KAssign); ("+", KPlus); ("-", KMinus); ("*", KStar); ("/", KSlash); ("%", KPercent);
  ("**", KPower); ("<<", KLeftShift); (">>", KRightShift); ("&", KBitwiseAnd); ("|", KBitwiseOr);
  ("^", KBitwiseXor); ("~", KBitwiseNot); ("+=", KPlusAssign); ("-=", KMinusAssign); ("*=", KStarAssign);
  ("/=", KSlashAssign); ("%=", KPercentAssign); (".=", KDotAssign); ("&=", KAndAssign); ("|=", KOrAssign);
  ("^=", KXorAssign); ("**=", KPowerAssign); ("<<=", KLeftShiftAssign); (">>=", KRightShiftAssign);
  ("&&=", KLogicalAndAssign); ("||=", KLogicalOrAssign); ("//=", KDefinedOrAssign); ("==", KEqual);
  ("!=", KNotEqual); ("=~", KMatch); ("!~", KNotMatch); ("~~", KSmartMatch); ("<", KLess); (">", KGreater);
  ("<=", KLessEqual); (">=", KGreaterEqual); ("<=>", KSpaceship); ("&&", KAnd); ("||", KOr); ("!", KNot);
  ("//", KDefinedOr); ("->", KArrow); ("=>", KFatArrow); (".", KDot); ("..", KRange); ("...", KEllipsis);
  ("++", KIncrement); ("--", KDecrement); ("::", KDoubleColon); ("?", KQuestion); (":", KColon);
  ("\", KBackslash)]%string).

Definition from_delimiter (spelling : list Z) : option TokenKind :=
  match_str spelling (spellings [
  ("(", KLeftParen); (")", KRightParen); ("{", KLeftBrace); ("}", KRightBrace); ("[", KLeftBracket);
  ("]", KRightBracket); (";", KSemicolon); (",", KComma)]%string).

Definition from_sigil (spelling : list Z) : option TokenKind :=
  match_str spelling (spellings [
  ("$", KScalarSigil); ("@", KArraySigil); ("%", KHashSigil); ("&", KSubSigil); ("*", KGlobSigil)]%string).

Definition spelling_for_kind (kind : TokenKind) (rows : list (list Z * TokenKind)) : option (list Z) :=
  fst ∘ snd <$> list_find (fun r => r.2 = kind) rows.
Definition or_else {A} (x y : option A) : option A := match x with Some a => Some a | None => y end.
Definition canonical_spelling (self : TokenKind) : option (list Z) :=
  or_else (or_else (or_else (spelling_for_kind self KEYWORD_SPELLINGS)
    (spelling_for_kind self OPERATOR_SPELLINGS))
    (spelling_for_kind self DELIMITER_SPELLINGS))
    (spelling_for_kind self SIGIL_SPELLINGS).

Definition display_name (self : TokenKind) : string :=
  match self with
  | KMy => "'my'"
  | KOur => "'our'"
  | KLocal => "'local'"
  | KState => "'state'"
  | KSub => "'sub'"
  | KIf => "'if'"
  | KElsif => "'elsif'"
  | KElse => "'else'"
  | KUnless => "'unless'"
  | KWhile => "'while'"
  | KUntil => "'until'"
  | KFor => "'for'"
  | KForeach => "'foreach'"
  | KReturn => "'return'"
  | KPackage => "'package'"
  | KUse => "'use'"
  | KNo => "'no'"
  | KBegin => "'BEGIN'"
  | KEnd => "'END'"
  | KCheck => "'CHECK'"
  | KInit => "'INIT'"
  | KUnitcheck => "'UNITCHECK'"
  | KEval => "'eval'"
  | KDo => "'do'"
  | KGiven => "'given'"
  | KWhen => "'when'"
  | KDefault => "'default'"
  | KTry => "'try'"
  | KCatch => "'catch'"
  | KFinally => "'finally'"
  | KContinue => "'continue'"
  | KNext => "'next'"
  | KLast => "'last'"
  | KRedo => "'redo'"
  | KGoto => "'goto'"
  | KClass => "'class'"
  | KMethod => "'method'"
  | KField => "'field'"
  | KFormat => "'format'"
  | KUndef => "'undef'"
  | KDefer => "'defer'"
  | KAssign => "'='"
  | KPlus => "'+'"
  | KMinus => "'-'"
  | KStar => "'*'"
  | KSlash => "'/'"
  | KPercent => "'%'"
  | KPower => "'**'"
  | KLeftShift => "'<<'"
  | KRightShift => "'>>'"
  | KBitwiseAnd => "'&'"
  | KBitwiseOr => "'|'"
  | KBitwiseXor => "'^'"
  | KBitwiseNot => "'~'"
  | KPlusAssign => "'+='"
  | KMinusAssign => "'-='"
  | KStarAssign => "'*='"
  | KSlashAssign => "'/='"
  | KPercentAssign => "'%='"
  | KDotAssign => "'.='"
  | KAndAssign => "'&='"
  | KOrAssign => "'|='"
  | KXorAssign => "'^='"
  | KPowerAssign => "'**='"
  | KLeftShiftAssign => "'<<='"
  | KRightShiftAssign => "'>>='"
  | KLogicalAndAssign => "'&&='"
  | KLogicalOrAssign => "'||='"
  | KDefinedOrAssign => "'//='"
  | KEqual => "'=='"
  | KNotEqual => "'!='"
  | KMatch => "'=~'"
  | KNotMatch => "'!~'"
  | KSmartMatch => "'~~'"
  | KLess => "'<'"
  | KGreater => "'>'"
  | KLessEqual => "'<='"
  | KGreaterEqual => "'>='"
  | KSpaceship => "'<=>'"
  | KStringCompare => "'cmp'"
  | KAnd => "'&&'"
  | KOr => "'||'"
  | KNot => "'!'"
  | KDefinedOr => "'//'"
  | KWordAnd => "'and'"
  | KWordOr => "'or'"
  | KWordNot => "'not'"
  | KWordXor => "'xor'"
  | KArrow => "'->'"
  | KFatArrow => "'=>'"
  | KDot => "'.'"
  | KRange => "'..'"
  | KEllipsis => "'...'"
  | KIncrement => "'++'"
  | KDecrement => "'--'"
  | KDoubleColon => "'::'"
  | KQuestion => "'?'"
  | KColon => "':'"
  | KBackslash => "'\'"
  | KLeftParen => "'('"
  | KRightParen => "')'"
  | KLeftBrace => "'{'"
  | KRightBrace => "'}'"
  | KLeftBracket => "'['"
  | KRightBracket => "']'"
  | KSemicolon => "';'"
  | KComma => "','"
  | KNumber => "number"
  | KString => "string"
  | KRegex => "regex"
  | KSubstitution => "substitution (s///)"
  | KTransliteration => "transliteration (tr///)"
  | KQuoteSingle => "q// string"
  | KQuoteDouble => "qq// string"
  | KQuoteWords => "qw() word list"
  | KQuoteCommand => "qx// command"
  | KHeredocStart => "heredoc (<<)"
  | KHeredocBody => "heredoc body"
  | KFormatBody => "format body"
  | KDataMarker => "data marker (__DATA__ or __END__)"
  | KDataBody => "data section body"
  | KVString => "version string"
  | KUnknownRest => "unparsed remainder"
  | KHeredocDepthLimit => "heredoc depth limit exceeded"
  | KIdentifier => "identifier"
  | KScalarSigil => "'$'"
  | KArraySigil => "'@'"
  | KHashSigil => "'%'"
  | KSubSigil => "'&'"
  | KGlobSigil => "'*'"
  | KEof => "end of input"
  | KUnknown => "unknown token"
  end.
(** ** Spans *)

Inductive TokenSpanError :=
| EndBeforeStart (start end_ : Z)
| EmptySpanNotAllowed (kind : TokenKind) (at_byte : Z)
| TextLengthMismatch (text_len span_len start end_ : Z).

Module TokenSpan.
Record t := mk { start : Z; end_ : Z }.

Definition try_new (start end_ : Z) : result TokenSpanError t :=
  if end_ <? start then Err (EndBeforeStart start end_) else Ok (mk start end_).
Definition length (self : t) : Z := end_ self - start self.
Definition is_empty (self : t) : bool := start self =? end_ self.
Definition contains (self : t) (offset : Z) : bool := (start self <=? offset) && (offset <? end_ self).
Definition touches (self : t) (offset : Z) : bool := (start self <=? offset) && (offset <=? end_ self).
Definition overlaps (self other : t) : bool :=
  negb (is_empty self) && negb (is_empty other) && (start self <? end_ other) && (start other <? end_ self).
Definition cover (self other : t) : t := mk (Z.min (start self) (start other)) (Z.max (end_ self) (end_ other)).
End TokenSpan.

Definition allows_empty_span (kind : TokenKind) : bool :=
  match kind with KEof | KUnknown => true | _ => false end.
Definition validate_non_empty_span (kind : TokenKind) (start : Z) (is_empty : bool) : result TokenSpanError unit :=
  if is_empty && negb (allows_empty_span kind) then Err (EmptySpanNotAllowed kind start) else Ok tt.
Definition validate_text_span_width (text_len : Z) (span : TokenSpan.t) : result TokenSpanError unit :=
  if negb (text_len =? TokenSpan.length span)
  then Err (TextLengthMismatch text_len (TokenSpan.length span) (TokenSpan.start span) (TokenSpan.end_ span))
  else Ok tt.

(** ** Tokens *)

Module ParserToken.
Record t := mk { kind : TokenKind; text : list Z; start : Z; end_ : Z }.

(** The text may be left out only for an unparsed remainder. *)
Definition geometry_only (kind : TokenKind) (text : list Z) (span : TokenSpan.t) : bool :=
  bool_decide (kind = KUnknownRest) && (len text =? 0) && negb (TokenSpan.is_empty span).

Definition new_checked (kind : TokenKind) (text : list Z) (start end_ : Z) : result TokenSpanError t :=
  span ← TokenSpan.try_new start end_;
  _ ← validate_non_empty_span kind (TokenSpan.start span) (TokenSpan.is_empty span);
  _ ← (if negb (geometry_only kind text span) then validate_text_span_width (len text) span else Ok tt);
  Ok (mk kind text (TokenSpan.start span) (TokenSpan.end_ span)).
Definition eof_at (pos : Z) : t := mk KEof [] pos pos.
Definition unknown_at (text : list Z) (start end_ : Z) : result TokenSpanError t :=
  new_checked KUnknown text start end_.
Definition unknown_rest_at (start end_ : Z) : result TokenSpanError t := new_checked KUnknownRest [] start end_.
Definition with_span (self : t) (start end_ : Z) : result TokenSpanError t :=
  new_checked (kind self) (text self) start end_.
Definition with_kind (self : t) (kind : TokenKind) : result TokenSpanError t :=
  new_checked kind (text self) (start self) (end_ self).
Definition is_empty (self : t) : bool := start self =? end_ self.
Definition is_geometry_only (self : t) : bool :=
  bool_decide (kind self = KUnknownRest) && (len (text self) =? 0) && (start self <? end_ self).
End ParserToken.

(** ** Lemmas *)

(** The constructors' contract, which the [debug_assert]s of
    [from_valid_parts] repeat. *)
Record token_ok (t : ParserToken.t) : Prop := {
  ok_ordered : ParserToken.start t <= ParserToken.end_ t;
  ok_empty : ParserToken.start t = ParserToken.end_ t -> allows_empty_span (ParserToken.kind t) = true;
  ok_width : len (ParserToken.text t) = ParserToken.end_ t - ParserToken.start t \/
    ParserToken.is_geometry_only t = true;
}.

Lemma geometry_only_mk kind text start end_ :
  start <= end_ ->
  ParserToken.geometry_only kind text (TokenSpan.mk start end_) =
    ParserToken.is_geometry_only (ParserToken.mk kind text start end_).
Proof.
  intros Hle. unfold ParserToken.geometry_only, ParserToken.is_geometry_only, TokenSpan.is_empty. simpl.
  f_equal. bcase; try done.
Qed.

(** [new_checked] accepts exactly the geometry of a well-formed token. *)
Lemma new_checked_spec kind text start end_ t :
  ParserToken.new_checked kind text start end_ = Ok t <->
  t = ParserToken.mk kind text start end_ /\ token_ok t.
Proof.
  unfold ParserToken.new_checked, TokenSpan.try_new.
  destruct (Z.ltb_spec end_ start) as [Hlt|Hle]; simpl.
  { split; [done|]. intros [-> [H _ _]]. simpl in H. lia. }
  rewrite geometry_only_mk by done. unfold validate_non_empty_span, TokenSpan.is_empty. simpl.
  set (tok := ParserToken.mk kind text start end_).
  destruct ((start =? end_) && negb (allows_empty_span kind)) eqn:E1; simpl.
  { apply andb_true_iff in E1 as [He%Z.eqb_eq Ha]. split; [done|]. intros [-> [_ H _]].
    simpl in H. rewrite H in Ha; done. }
  assert (start = end_ -> allows_empty_span kind = true) as Ha.
  { intros ->. rewrite Z.eqb_refl in E1. by destruct (allows_empty_span kind). }
  unfold validate_text_span_width, TokenSpan.length. simpl.
  destruct (ParserToken.is_geometry_only tok) eqn:Eg; simpl.
  { split; [intros [= <-]; split; [done|]; by constructor; [| |right]|by intros [-> _]]. }
  destruct (Z.eqb_spec (len text) (end_ - start)) as [Hw|Hw]; simpl.
  - split; [intros [= <-]; split; [done|]; by constructor; [| |left]|by intros [-> _]].
  - split; [done|]. intros [-> [_ _ [H|H]]]; [done|by rewrite H in Eg].
Qed.

Lemma match_str_in s rows k : match_str s rows = Some k -> (s, k) ∈ rows.
Proof.
  unfold match_str. destruct (list_find _ rows) as [[i [s' k']]|] eqn:E; [|done]. simpl. intros [= <-].
  apply list_find_Some in E as (E & Hs & _). simpl in Hs. subst. by eapply list_elem_of_lookup_2.
Qed.
Lemma match_str_find s k rows : NoDup rows.*1 -> (s, k) ∈ rows -> match_str s rows = Some k.
Proof.
  intros Hn Hin. unfold match_str. destruct (list_find _ rows) as [[i [s' k']]|] eqn:E; simpl.
  - apply list_find_Some in E as (E & Hs & _). simpl in Hs. subst s'.
    apply list_elem_of_lookup in Hin as [j Hj].
    assert (i = j) as ->; [|by simplify_eq].
    eapply NoDup_lookup; [exact Hn| |]; rewrite list_lookup_fmap; [by rewrite E|by rewrite Hj].
  - apply list_find_None in E. rewrite Forall_forall in E. by destruct (E _ Hin).
Qed.

(** What the four matchers recognise. *)
Definition spells (s : list Z) (k : TokenKind) : Prop :=
  from_keyword s = Some k \/ from_operator s = Some k \/ from_delimiter s = Some k \/ from_sigil s = Some k.

Lemma spells_tables s k :
  spells s k <-> (s, k) ∈ KEYWORD_SPELLINGS ++ OPERATOR_SPELLINGS ++ DELIMITER_SPELLINGS ++ SIGIL_SPELLINGS.
Proof.
  rewrite !elem_of_app. unfold spells, from_keyword, from_operator, from_delimiter, from_sigil.
  assert (forall rows, NoDup rows.*1 -> match_str s rows = Some k <-> (s, k) ∈ rows) as H.
  { intros rows Hn. split; [apply match_str_in|by apply match_str_find]. }
  rewrite !H; [done|..]; by apply (bool_decide_unpack _); vm_compute.
Qed.

(** ** Theorems *)

(** Spellings and kinds correspond: a kind has a canonical spelling exactly
    when some matcher (keyword, operator, delimiter or sigil) produces it,
    the canonical spelling is then recognised as that very kind, and no
    other spelling is; the display name is the spelling in quotes.  Only
    the three characters that are both operator and sigil are ambiguous
    between matchers. *)
Theorem spelling_round_trip s k :
  (canonical_spelling k = Some s <-> spells s k) /\
  (canonical_spelling k = Some s -> bytes_of (display_name k) = [39] ++ s ++ [39]) /\
  (forall k', spells s k -> spells s k' -> k <> k' ->
    s = bytes_of "%" \/ s = bytes_of "&" \/ s = bytes_of "*").
Proof.
  rewrite spells_tables. set (rows := KEYWORD_SPELLINGS ++ _).
  assert (Forall (fun r => canonical_spelling r.2 = Some r.1) rows) as Hr
    by (apply (bool_decide_unpack _); by vm_compute).
  assert (Forall (fun k => from_option (fun s => bool_decide ((s, k) ∈ rows /\
    bytes_of (display_name k) = [39] ++ s ++ [39])) true (canonical_spelling k) = true) all_kinds) as Hk
    by (apply (bool_decide_unpack _); by vm_compute).
  assert (canonical_spelling k = Some s -> (s, k) ∈ rows /\ bytes_of (display_name k) = [39] ++ s ++ [39]) as Hc.
  { intros E. rewrite Forall_forall in Hk. specialize (Hk k). rewrite E in Hk.
    eapply bool_decide_eq_true_1, Hk. by eapply list_elem_of_lookup_2, all_kinds_index. }
  split_and!.
  - split; [by intros []%Hc|]. rewrite Forall_forall in Hr. by intros H%Hr.
  - by intros []%Hc.
  - intros k' Hs Hs' Hne.
    apply spells_tables in Hs, Hs'. fold rows in Hs, Hs'.
    assert (Forall (fun r => Forall (fun r' => r.1 = r'.1 -> r.2 = r'.2 \/ r.1 = bytes_of "%" \/
      r.1 = bytes_of "&" \/ r.1 = bytes_of "*") rows) rows) as Ha
      by (apply (bool_decide_unpack _); by vm_compute).
    rewrite Forall_forall in Ha. specialize (Ha _ Hs). rewrite Forall_forall in Ha.
    destruct (Ha _ Hs' eq_refl) as [E|E]; [by destruct Hne|exact E].
Qed.
