(* ===== verification/TokenStream.v ===== *)
(** * The parser's token stream (perl-parser-core/src/tokens/token_stream.rs)

    The adapter between the lexer and the parser: trivia skipping, conversion
    of lexer tokens, three tokens of lookahead with the lexer boundary of
    each, sticky end of file, and the contextual operations that rewind the
    lexer.  The lexer step is the interface of LexerTokens.v; the boundaries
    are the checkpoints of Checkpoint.v.

    Every operation may panic only where the checkpoint does (the content
    digest of an input of 4 GiB).  The trivia loop runs on the fuel
    [S (progress lexer)]; running out of it is a [Panic] of the model. *)

From Stdlib Require Import String.
From stdpp Require Import base numbers list.
From S2P Require Import Prelude Utf8 SourceIdentity ParseErrors.
From S2P Require Import Checkpoint LexerTokens Tokens.

(** ** Operations and their outcomes *)

Inductive ContextualTokenOp :=
| StatementBoundaryReset
| ReclassifyFromBoundary (expected_context : LexerMode)
| EnterFormatBody
| InvalidateLookahead.
Inductive ContextualFallbackReason := NoBufferedSource | NoCheckpointAuthority.
Inductive ContextualOpResult :=
| AppliedLive | AppliedReplay | NotRequired
| FallbackRequired (reason : ContextualFallbackReason)
| Unsupported.
Inductive TokenStreamBacking := BackingLive | BackingBuffered (source_retained : bool).

(** ** The stream *)

Record BufferedTokens := mkBuffered {
  buffered_tokens : list ParserToken.t;
  buffered_source : option (list Z);
}.
Inductive TokenStreamInner :=
| InnerLexer (lexer : PerlLexer)
| InnerBuffered (buffer : BufferedTokens).
Record TokenStream := mkStream {
  inner : TokenStreamInner;
  buffered_eof_pos : Z;
  peeked : option ParserToken.t;
  peeked_second : option ParserToken.t;
  peeked_third : option ParserToken.t;
  peek_boundary : option LexerCheckpoint;
  peek_second_boundary : option LexerCheckpoint;
  peek_third_boundary : option LexerCheckpoint;
  last_boundary : option LexerCheckpoint;
}.

Definition stream_new (input : list Z) : TokenStream :=
  mkStream (InnerLexer (lexer_new input)) (len input) None None None None None None None.
(** The position of the end of file after this token. *)
Definition eof_position (token : ParserToken.t) : Z :=
  if bool_decide (ParserToken.kind token = KEof) then ParserToken.start token else ParserToken.end_ token.
Definition buffered (tokens : list ParserToken.t) (source : option (list Z)) : TokenStream :=
  mkStream (InnerBuffered (mkBuffered tokens source)) (default 0 (eof_position <$> last tokens))
    None None None None None None None.
Definition from_vec (tokens : list ParserToken.t) : TokenStream := buffered tokens None.
Definition from_vec_with_source (tokens : list ParserToken.t) (source : list Z) : TokenStream :=
  buffered tokens (Some source).

Definition backing (self : TokenStream) : TokenStreamBacking :=
  match inner self with
  | InnerLexer _ => BackingLive
  | InnerBuffered b => BackingBuffered (bool_decide (is_Some (buffered_source b)))
  end.
Definition is_buffered (self : TokenStream) : bool :=
  match inner self with InnerBuffered _ => true | InnerLexer _ => false end.

(** ** Token conversion *)

Definition unknown_or_eof (text : list Z) (start end_ : Z) : ParserToken.t :=
  let ordered_start := Z.min start end_ in
  let ordered_end := Z.max start end_ in
  match ParserToken.unknown_at text ordered_start ordered_end with
  | Ok token => token
  | Err _ => ParserToken.eof_at ordered_start
  end.
Definition token_from_lexer_parts (kind : TokenKind) (text : list Z) (start end_ : Z) : ParserToken.t :=
  match ParserToken.new_checked kind text start end_ with
  | Ok token => token
  | Err (TextLengthMismatch text_len span_len _ _) =>
    if (start <=? end_) && (text_len <? span_len) then
      match ParserToken.new_checked kind text start (saturating_add start text_len) with
      | Ok token => token
      | Err _ => unknown_or_eof text start end_
      end
    else unknown_or_eof text start end_
  | Err _ => unknown_or_eof text start end_
  end.

(** [text.strip_prefix(p).and_then(|rest| rest.chars().next()).is_some_and(..)]:
    the operator name is followed by a delimiter. *)
Definition is_ascii_alphanumeric (c : Z) : bool :=
  ((48 <=? c) && (c <=? 57)) || ((65 <=? c) && (c <=? 90)) || ((97 <=? c) && (c <=? 122)).
Definition followed_by_delimiter (p text : list Z) : bool :=
  str_starts_with text p &&
  match chars (zdrop (len p) text) with
  | c :: _ => negb (is_ascii_alphanumeric c) && negb (c =? 95)
  | [] => false
  end.

Definition convert_kind (token : Token) : TokenKind :=
  match token_type token with
  | TKeyword kw =>
    if bool_decide (kw = bytes_of "qw") then KIdentifier else default KIdentifier (from_keyword kw)
  | TOperator op => default KUnknown (or_else (from_operator op) (from_sigil op))
  | TArrow => KArrow
  | TFatComma => KFatArrow
  | TLeftParen => KLeftParen
  | TRightParen => KRightParen
  | TLeftBrace => KLeftBrace
  | TRightBrace => KRightBrace
  | TLeftBracket => KLeftBracket
  | TRightBracket => KRightBracket
  | TSemicolon => KSemicolon
  | TComma => KComma
  | TDivision => KSlash
  | TNumber _ => KNumber
  | TStringLiteral | TInterpolatedString _ => KString
  | TRegexMatch | TQuoteRegex => KRegex
  | TSubstitution => KSubstitution
  | TTransliteration => KTransliteration
  | TQuoteSingle => KQuoteSingle
  | TQuoteDouble _ => KQuoteDouble
  | TQuoteWords => KQuoteWords
  | TQuoteCommand => KQuoteCommand
  | THeredocStart => KHeredocStart
  | THeredocBody _ | TInterpolatedHeredocBody _ => KHeredocBody
  | TFormatBody _ => KFormatBody
  | TVersion _ => KVString
  | TDataMarker _ => KDataMarker
  | TDataBody _ => KDataBody
  | TUnknownRest => KUnknownRest
  | TIdentifier text =>
    if bool_decide (text = bytes_of "%") then KHashSigil
    else if bool_decide (text = bytes_of "&") then KSubSigil
    else default KIdentifier (or_else (or_else (from_keyword text) (from_operator text)) (from_sigil text))
  | TError msg =>
    let text := text token in
    if bool_decide (msg = bytes_of "Heredoc nesting too deep") then KHeredocDepthLimit
    else if str_starts_with msg (bytes_of "unclosed ") then
      if str_starts_with text (bytes_of "qq") then KQuoteDouble
      else if str_starts_with text (bytes_of "qw") then KQuoteWords
      else if followed_by_delimiter (bytes_of "s") text then KSubstitution
      else if followed_by_delimiter (bytes_of "tr") text || followed_by_delimiter (bytes_of "y") text
      then KTransliteration
      else if followed_by_delimiter (bytes_of "q") text then KQuoteSingle
      else KUnknown
    else default KUnknown (from_delimiter text)
  | _ => KUnknown
  end.
Definition convert_lexer_token (token : Token) : ParserToken.t :=
  token_from_lexer_parts (convert_kind token) (text token) (start token) (end_ token).

Definition lexer_tokens_to_parser_tokens (tokens : list Token) : list ParserToken.t :=
  convert_lexer_token <$>
    filter (fun t => negb (is_trivia (token_type t)) && negb (is_eof (token_type t)) = true) tokens.

(** [PerlLexer::set_mode] *)
Definition set_mode (l : PerlLexer) (mode : LexerMode) : PerlLexer :=
  Lexer.mk (Lexer.input l) (Lexer.position l) mode (Lexer.config l) (Lexer.delimiter_stack l)
    (Lexer.in_prototype l) (Lexer.prototype_depth l) (Lexer.prototype_signature_seen l) (Lexer.after_sub l)
    (Lexer.after_arrow l) (Lexer.hash_brace_depth l) (Lexer.after_var_subscript l) (Lexer.paren_depth l)
    (Lexer.print_list_parens l) (Lexer.pending_print_list_paren l) (Lexer.current_pos l)
    (Lexer.after_newline l) (Lexer.pending_heredocs l) (Lexer.line_start_offset l)
    (Lexer.emit_heredoc_body_tokens l) (Lexer.current_quote_op l) (Lexer.qw_recovery_enabled l)
    (Lexer.eof_emitted l) (Lexer.pod_cut_cache l) (Lexer.stray_cut_opens l) (Lexer.scan_limit l)
    (Lexer.logical_source l) (Lexer.generation l).
(** [PerlLexer::enter_format_mode] *)
Definition enter_format_mode (l : PerlLexer) : PerlLexer := set_mode l InFormatBody.

(** ** Producing tokens *)

Section stream.
Context `{Tokenize} (sha256 : list Z -> list Z).

Fixpoint lexer_loop (fuel : nat) (lexer : PerlLexer) : outcome (result ParseError ParserToken.t * PerlLexer) :=
  match fuel with
  | O => Panic
  | S fuel =>
    match LexerTokens.next_token lexer with
    | (None, lexer) => mret (Err UnexpectedEof, lexer)
    | (Some token, lexer) =>
      match token_type token with
      | TWhitespace | TNewline | TComment _ => lexer_loop fuel lexer
      | TEOF => mret (Ok (token_from_lexer_parts KEof [] (start token) (end_ token)), lexer)
      | _ => mret (Ok (convert_lexer_token token), lexer)
      end
    end
  end.
Definition next_token_from_lexer (lexer : PerlLexer) : outcome (result ParseError ParserToken.t * PerlLexer) :=
  lexer_loop (S (progress lexer)) lexer.

Definition next_token_from_buf (buf : list ParserToken.t) (eof_pos : Z)
    : ParserToken.t * list ParserToken.t * Z :=
  match buf with
  | token :: buf => (token, buf, eof_position token)
  | [] => (ParserToken.eof_at eof_pos, [], eof_pos)
  end.

Definition next_token (self : TokenStream) (capture_boundary : bool)
    : outcome (result ParseError ParserToken.t * TokenStream) :=
  match inner self with
  | InnerLexer lexer =>
    boundary ← (if capture_boundary then c ← checkpoint sha256 lexer; mret (Some c) else mret None);
    '(r, lexer) ← next_token_from_lexer lexer;
    mret (r, mkStream (InnerLexer lexer) (buffered_eof_pos self) (peeked self) (peeked_second self)
      (peeked_third self) (peek_boundary self) (peek_second_boundary self) (peek_third_boundary self)
      (match r with Ok _ => boundary | Err _ => last_boundary self end))
  | InnerBuffered buffer =>
    let '(token, buf, eof_pos) := next_token_from_buf (buffered_tokens buffer) (buffered_eof_pos self) in
    mret (Ok token, mkStream (InnerBuffered (mkBuffered buf (buffered_source buffer))) eof_pos (peeked self)
      (peeked_second self) (peeked_third self) (peek_boundary self) (peek_second_boundary self)
      (peek_third_boundary self) (last_boundary self))
  end.

(** ** Lookahead *)

(** [peek], [peek_second] and [peek_third] fill their slot when it is empty,
    moving the last boundary into it. *)
Definition peek (self : TokenStream) : outcome (result ParseError ParserToken.t * TokenStream) :=
  match peeked self with
  | Some token => mret (Ok token, self)
  | None =>
    '(r, s) ← next_token self true;
    mret match r with
    | Err e => (Err e, s)
    | Ok token => (Ok token, mkStream (inner s) (buffered_eof_pos s) (Some token) (peeked_second s)
        (peeked_third s) (last_boundary s) (peek_second_boundary s) (peek_third_boundary s) None)
    end
  end.
Definition peek_second (self : TokenStream) : outcome (result ParseError ParserToken.t * TokenStream) :=
  '(r, s) ← peek self;
  match r with
  | Err e => mret (Err e, s)
  | Ok _ =>
    match peeked_second s with
    | Some token => mret (Ok token, s)
    | None =>
      '(r, s) ← next_token s true;
      mret match r with
      | Err e => (Err e, s)
      | Ok token => (Ok token, mkStream (inner s) (buffered_eof_pos s) (peeked s) (Some token)
          (peeked_third s) (peek_boundary s) (last_boundary s) (peek_third_boundary s) None)
      end
    end
  end.
Definition peek_third (self : TokenStream) : outcome (result ParseError ParserToken.t * TokenStream) :=
  '(r, s) ← peek_second self;
  match r with
  | Err e => mret (Err e, s)
  | Ok _ =>
    match peeked_third s with
    | Some token => mret (Ok token, s)
    | None =>
      '(r, s) ← next_token s true;
      mret match r with
      | Err e => (Err e, s)
      | Ok token => (Ok token, mkStream (inner s) (buffered_eof_pos s) (peeked s) (peeked_second s)
          (Some token) (peek_boundary s) (peek_second_boundary s) (last_boundary s) None)
      end
    end
  end.

Definition is_eof_kind (token : ParserToken.t) : bool := bool_decide (ParserToken.kind token = KEof).

Definition next (self : TokenStream) : outcome (result ParseError ParserToken.t * TokenStream) :=
  match peeked self with
  | Some token =>
    mret (Ok token,
      if is_eof_kind token then self
      else mkStream (inner self) (buffered_eof_pos self) (peeked_second self) (peeked_third self) None
        (peek_second_boundary self) (peek_third_boundary self) None (last_boundary self))
  | None =>
    '(r, s) ← next_token self false;
    mret match r with
    | Err e => (Err e, s)
    | Ok token => (Ok token, mkStream (inner s) (buffered_eof_pos s)
        (if is_eof_kind token then Some token else peeked s) (peeked_second s) (peeked_third s)
        (peek_boundary s) (peek_second_boundary s) (peek_third_boundary s) None)
    end
  end.

Definition peeked_is_sticky_eof (self : TokenStream) : bool := from_option is_eof_kind false (peeked self).
Definition stream_is_eof (self : TokenStream) : outcome (bool * TokenStream) :=
  '(r, s) ← peek self; mret (match r with Ok token => is_eof_kind token | Err _ => false end, s).

(** ** Contextual operations *)

Definition lookahead_cached (self : TokenStream) : bool :=
  bool_decide (is_Some (peeked self) \/ is_Some (peeked_second self) \/ is_Some (peeked_third self)).
Definition clear_lookahead (self : TokenStream) : TokenStream :=
  mkStream (inner self) (buffered_eof_pos self) None None None None None None (last_boundary self).
Definition invalidate_peek : TokenStream -> TokenStream := clear_lookahead.
Definition peek_fresh_kind (self : TokenStream) : outcome (option TokenKind * TokenStream) :=
  '(r, s) ← peek (invalidate_peek self);
  mret (match r with Ok token => Some (ParserToken.kind token) | Err _ => None end, s).
Definition with_lexer (self : TokenStream) (lexer : PerlLexer) : TokenStream :=
  mkStream (InnerLexer lexer) (buffered_eof_pos self) (peeked self) (peeked_second self) (peeked_third self)
    (peek_boundary self) (peek_second_boundary self) (peek_third_boundary self) (last_boundary self).

Definition buffered_fallback_reason (self : TokenStream) : ContextualFallbackReason :=
  match inner self with
  | InnerBuffered b => match buffered_source b with Some _ => NoCheckpointAuthority | None => NoBufferedSource end
  | InnerLexer _ => NoBufferedSource
  end.
Definition head_kind (self : TokenStream) : option TokenKind :=
  match peeked self with
  | Some token => Some (ParserToken.kind token)
  | None =>
    match inner self with
    | InnerLexer _ => None
    | InnerBuffered b => ParserToken.kind <$> head (buffered_tokens b)
    end
  end.

Definition restore_live_lookahead_boundary (self : TokenStream)
    : outcome (result ContextualFallbackReason unit * TokenStream) :=
  match peek_boundary self, inner self with
  | Some boundary, InnerLexer lexer =>
    '(r, lexer) ← restore sha256 lexer boundary;
    mret (match r with Ok _ => Ok tt | Err _ => Err NoCheckpointAuthority end, with_lexer self lexer)
  | _, _ => mret (Ok tt, self)
  end.

Definition on_lexer (self : TokenStream) (f : PerlLexer -> PerlLexer) : TokenStream :=
  match inner self with InnerLexer lexer => with_lexer self (f lexer) | InnerBuffered _ => self end.

Definition apply_statement_boundary_reset (self : TokenStream) : outcome (ContextualOpResult * TokenStream) :=
  if is_buffered self then mret (FallbackRequired (buffered_fallback_reason self), self)
  else
    '(r, s) ← restore_live_lookahead_boundary self;
    mret match r with
    | Err reason => (FallbackRequired reason, s)
    | Ok _ => (AppliedLive, clear_lookahead (on_lexer s (fun l => set_mode l ExpectTerm)))
    end.

Definition apply_reclassify_from_boundary (self : TokenStream) (expected_context : LexerMode)
    : outcome (ContextualOpResult * TokenStream) :=
  match expected_context with
  | ExpectTerm | ExpectOperator | ExpectDelimiter =>
    if negb (from_option (fun t => negb (is_eof_kind t)) false (peeked self)) then mret (NotRequired, self)
    else if is_buffered self then mret (FallbackRequired (buffered_fallback_reason self), self)
    else match inner self, peek_boundary self with
    | InnerLexer lexer, Some boundary =>
      '(r, lexer) ← restore sha256 lexer boundary;
      mret match r with
      | Err _ => (FallbackRequired NoCheckpointAuthority, with_lexer self lexer)
      | Ok _ => (AppliedLive, clear_lookahead (with_lexer self (set_mode lexer expected_context)))
      end
    | _, _ => mret (FallbackRequired NoCheckpointAuthority, self)
    end
  | _ => mret (Unsupported, self)
  end.

Definition apply_enter_format_body (self : TokenStream) : outcome (ContextualOpResult * TokenStream) :=
  if is_buffered self then
    mret (if bool_decide (head_kind self = Some KFormatBody) then NotRequired
          else FallbackRequired (buffered_fallback_reason self), self)
  else
    '(r, s) ← restore_live_lookahead_boundary self;
    mret match r with
    | Err reason => (FallbackRequired reason, s)
    | Ok _ => (AppliedLive, clear_lookahead (on_lexer s enter_format_mode))
    end.

Definition apply_contextual (self : TokenStream) (operation : ContextualTokenOp)
    : outcome (ContextualOpResult * TokenStream) :=
  match operation with
  | InvalidateLookahead =>
    mret (match inner self, lookahead_cached self with
          | InnerLexer _, true => AppliedLive
          | InnerBuffered _, true => AppliedReplay
          | _, false => NotRequired
          end, clear_lookahead self)
  | StatementBoundaryReset => apply_statement_boundary_reset self
  | ReclassifyFromBoundary expected_context => apply_reclassify_from_boundary self expected_context
  | EnterFormatBody => apply_enter_format_body self
  end.
Definition on_stmt_boundary (self : TokenStream) : outcome TokenStream :=
  snd <$> apply_contextual self StatementBoundaryReset.
Definition relex_as_term (self : TokenStream) : outcome TokenStream :=
  snd <$> apply_contextual self (ReclassifyFromBoundary ExpectTerm).
End stream.

(** [PerlLexer::collect_tokens], with the tokens of [fuel] calls at most. *)
Fixpoint collect_loop `{Tokenize} (fuel : nat) (l : PerlLexer) (tokens : list Token) : outcome (list Token) :=
  match fuel with
  | O => Panic
  | S fuel =>
    match LexerTokens.next_token l with
    | (None, _) => mret tokens
    | (Some token, l) =>
      if is_eof (token_type token) then mret (tokens ++ [token]) else collect_loop fuel l (tokens ++ [token])
    end
  end.
Definition collect_tokens `{Tokenize} (l : PerlLexer) : outcome (list Token) :=
  collect_loop (S (progress l)) l [].

(** ** What a stream promises: a cursor over a fixed sequence *)

Inductive StreamCall := CallPeek | CallPeekSecond | CallPeekThird | CallNext | CallIsEof.
Definition answer : Type := result ParseError ParserToken.t + bool.

Definition call `{Tokenize} sha256 (s : TokenStream) (c : StreamCall) : outcome (answer * TokenStream) :=
  match c with
  | CallPeek => '(r, s) ← peek sha256 s; mret (inl r, s)
  | CallPeekSecond => '(r, s) ← peek_second sha256 s; mret (inl r, s)
  | CallPeekThird => '(r, s) ← peek_third sha256 s; mret (inl r, s)
  | CallNext => '(r, s) ← next sha256 s; mret (inl r, s)
  | CallIsEof => '(b, s) ← stream_is_eof sha256 s; mret (inr b, s)
  end.
Fixpoint calls `{Tokenize} sha256 (s : TokenStream) (cs : list StreamCall) : outcome (list answer) :=
  match cs with
  | [] => mret []
  | c :: cs => '(a, s) ← call sha256 s c; l ← calls sha256 s cs; mret (a :: l)
  end.

Definition is_eof_result (r : result ParseError ParserToken.t) : bool :=
  match r with Ok token => is_eof_kind token | Err _ => false end.
(** The cursor steps over every token but the end of the file. *)
Definition steps (r : result ParseError ParserToken.t) : nat :=
  match r with Ok token => if is_eof_kind token then 0 else 1 | Err _ => 0 end.
Definition cursor_call (tokens : nat -> result ParseError ParserToken.t) (n : nat) (c : StreamCall)
    : answer * nat :=
  match c with
  | CallPeek => (inl (tokens n), n)
  | CallPeekSecond => (inl (tokens (n + 1)%nat), n)
  | CallPeekThird => (inl (tokens (n + 2)%nat), n)
  | CallIsEof => (inr (is_eof_result (tokens n)), n)
  | CallNext => (inl (tokens n), (steps (tokens n) + n)%nat)
  end.
Fixpoint cursor_calls (tokens : nat -> result ParseError ParserToken.t) (n : nat) (cs : list StreamCall)
    : list answer :=
  match cs with
  | [] => []
  | c :: cs => let '(a, n) := cursor_call tokens n c in a :: cursor_calls tokens n cs
  end.

(** What backs a stream, and the tokens that it yields one after another. *)
Definition backing_state : Type := TokenStreamInner * Z.
Definition pull `{Tokenize} (x : backing_state) : outcome (result ParseError ParserToken.t * backing_state) :=
  match x with
  | (InnerLexer lexer, eof_pos) =>
    '(r, lexer) ← next_token_from_lexer lexer; mret (r, (InnerLexer lexer, eof_pos))
  | (InnerBuffered buffer, eof_pos) =>
    let '(token, buf, eof_pos) := next_token_from_buf (buffered_tokens buffer) eof_pos in
    mret (Ok token, (InnerBuffered (mkBuffered buf (buffered_source buffer)), eof_pos))
  end.
Fixpoint pulls `{Tokenize} (n : nat) (x : backing_state) : outcome (result ParseError ParserToken.t * backing_state) :=
  '(r, x) ← pull x;
  match n with O => mret (r, x) | S n => pulls n x end.
(** The [n]th token; [pulls_total] shows that the other case does not arise. *)
Definition token_at `{Tokenize} (x : backing_state) (n : nat) : result ParseError ParserToken.t :=
  match pulls n x with Ret (r, _) => r | Panic => Err UnexpectedEof end.

(** The tokenizer stays at its end: a call after the last token returns
    nothing, and so does every later one. *)
Class FusedTokenize `{Tokenize} : Prop :=
  next_token_fused l : (LexerTokens.next_token l).1 = None ->
    (LexerTokens.next_token (LexerTokens.next_token l).2).1 = None.
#[export] Instance demo_fused : FusedTokenize.
Proof.
  intros l. unfold LexerTokens.next_token, demo_tokenize.
  destruct (Lexer.eof_emitted l) eqn:E; simpl; [by rewrite E|]. by destruct (_ <? _).
Qed.

(** ** Lemmas: tokens from lexer parts *)

Lemma new_checked_ok kind text start end_ :
  token_ok (ParserToken.mk kind text start end_) ->
  ParserToken.new_checked kind text start end_ = Ok (ParserToken.mk kind text start end_).
Proof. intros H. by apply new_checked_spec. Qed.
Lemma new_checked_reversed kind text start end_ :
  end_ < start -> ParserToken.new_checked kind text start end_ = Err (EndBeforeStart start end_).
Proof. intros H. unfold ParserToken.new_checked, TokenSpan.try_new. by destruct (Z.ltb_spec end_ start); [|lia]. Qed.
Lemma new_checked_empty kind text start :
  allows_empty_span kind = false ->
  ParserToken.new_checked kind text start start = Err (EmptySpanNotAllowed kind start).
Proof.
  intros H. unfold ParserToken.new_checked, TokenSpan.try_new, validate_non_empty_span, TokenSpan.is_empty.
  rewrite Z.ltb_irrefl. simpl. by rewrite Z.eqb_refl, H.
Qed.
Lemma new_checked_width kind text start end_ :
  start <= end_ -> len text <> end_ - start -> (start = end_ -> allows_empty_span kind = true) ->
  (kind = KUnknownRest -> text <> []) ->
  ParserToken.new_checked kind text start end_ = Err (TextLengthMismatch (len text) (end_ - start) start end_).
Proof.
  intros Hle Hw He Hu. unfold ParserToken.new_checked, TokenSpan.try_new. destruct (Z.ltb_spec end_ start); [lia|].
  unfold validate_non_empty_span, TokenSpan.is_empty. simpl.
  assert ((start =? end_) && negb (allows_empty_span kind) = false) as ->.
  { destruct (Z.eqb_spec start end_); [|done]. by rewrite He. }
  simpl. assert (ParserToken.geometry_only kind text (TokenSpan.mk start end_) = false) as ->.
  { unfold ParserToken.geometry_only. case_bool_decide as Hk; [|done].
    destruct (Z.eqb_spec (len text) 0) as [Hz%len_zero_nil|]; [by destruct (Hu Hk)|done]. }
  unfold validate_text_span_width, TokenSpan.length. simpl. destruct (Z.eqb_spec (len text) (end_ - start)); done.
Qed.
Lemma unknown_or_eof_width text start end_ :
  len text <> Z.abs (end_ - start) -> unknown_or_eof text start end_ = ParserToken.eof_at (Z.min start end_).
Proof. intros H. unfold unknown_or_eof, ParserToken.unknown_at. by rewrite new_checked_width by (done || lia). Qed.
Lemma unknown_or_eof_exact text start end_ :
  len text = Z.abs (end_ - start) ->
  unknown_or_eof text start end_ = ParserToken.mk KUnknown text (Z.min start end_) (Z.max start end_).
Proof.
  intros H. unfold unknown_or_eof, ParserToken.unknown_at. rewrite new_checked_ok; [done|].
  constructor; simpl; [lia|done|left; lia].
Qed.
Lemma unknown_or_eof_ok text start end_ : token_ok (unknown_or_eof text start end_).
Proof.
  unfold unknown_or_eof, ParserToken.unknown_at.
  destruct (ParserToken.new_checked _ _ _ _) eqn:E; [by apply new_checked_spec in E as [-> ?]|].
  constructor; simpl; [lia|done|left; rewrite len_nil; lia].
Qed.
Lemma token_ok_sized kind text start :
  (text = [] -> allows_empty_span kind = true) ->
  token_ok (ParserToken.mk kind text start (start + len text)).
Proof.
  intros H. pose proof (len_nonneg text). constructor; simpl; [lia| |left; lia].
  intros E. apply H, len_zero_nil. lia.
Qed.

Lemma token_ok_empty kind start :
  allows_empty_span kind = true -> token_ok (ParserToken.mk kind [] start start).
Proof.
  intros H. pose proof (token_ok_sized kind [] start (fun _ => H)) as E. by rewrite len_nil, Z.add_0_r in E.
Qed.

(** ** Lemmas: the parts of a token, by geometry *)

Section parts.
Context (kind : TokenKind) (text : list Z) (start end_ : Z) (Hs : 0 <= start) (He : end_ <= usize_max).

Lemma parts_exact :
  token_ok (ParserToken.mk kind text start end_) ->
  token_from_lexer_parts kind text start end_ = ParserToken.mk kind text start end_.
Proof. intros H. unfold token_from_lexer_parts. by rewrite new_checked_ok. Qed.
Lemma parts_reversed :
  end_ < start -> token_from_lexer_parts kind text start end_ = unknown_or_eof text start end_.
Proof. intros H. unfold token_from_lexer_parts. by rewrite new_checked_reversed. Qed.
Lemma parts_long :
  start <= end_ -> end_ - start < len text ->
  token_from_lexer_parts kind text start end_ = ParserToken.eof_at start.
Proof.
  intros Hle Hw. assert (len text <> Z.abs (end_ - start)) as Hn by lia.
  assert (text <> []) as Ht by (intros ->; rewrite len_nil in Hw; lia).
  apply unknown_or_eof_width in Hn. rewrite Z.min_l in Hn by done. unfold token_from_lexer_parts.
  destruct (decide (start = end_ /\ allows_empty_span kind = false)) as [[<- Hf]|Hf].
  - by rewrite new_checked_empty.
  - rewrite new_checked_width; [| done | lia | | done].
    + destruct (Z.ltb_spec (len text) (end_ - start)); [lia|]. by rewrite andb_false_r.
    + intros ->. destruct (allows_empty_span kind); [done|]. by destruct Hf.
Qed.
Lemma parts_short :
  len text < end_ - start -> (kind = KUnknownRest -> text <> []) ->
  token_from_lexer_parts kind text start end_ =
    if bool_decide (text = []) && negb (allows_empty_span kind) then ParserToken.eof_at start
    else ParserToken.mk kind text start (start + len text).
Proof.
  intros Hw Hu. pose proof (len_nonneg text). unfold token_from_lexer_parts.
  rewrite new_checked_width by (done || lia).
  rewrite (proj2 (Z.leb_le start end_)), (proj2 (Z.ltb_lt _ _)) by lia. simpl.
  unfold saturating_add. rewrite Z.min_r by lia. case_bool_decide as Ht; simpl.
  - subst text. rewrite len_nil, Z.add_0_r in *. destruct (allows_empty_span kind) eqn:Ea; simpl.
    + by rewrite new_checked_ok by (by apply token_ok_empty).
    + rewrite new_checked_empty, unknown_or_eof_width by (done || (rewrite len_nil; lia)).
      by rewrite Z.min_l by lia.
  - by rewrite new_checked_ok by (by apply token_ok_sized).
Qed.
Lemma parts_empty :
  start = end_ -> text = [] -> allows_empty_span kind = false ->
  token_from_lexer_parts kind text start end_ = ParserToken.mk KUnknown [] start start.
Proof.
  intros Hse Ht Ha. rewrite <- Hse, Ht. unfold token_from_lexer_parts. rewrite new_checked_empty by done.
  rewrite unknown_or_eof_exact by (rewrite len_nil; lia). by rewrite Z.min_id, Z.max_id.
Qed.
End parts.

Lemma eof_parts start end_ : is_eof_kind (token_from_lexer_parts KEof [] start end_) = true.
Proof.
  destruct (Z.lt_trichotomy start end_) as [H|[<-|H]].
  - unfold token_from_lexer_parts. rewrite new_checked_width by (rewrite ?len_nil; done || lia).
    destruct (_ && _); [|by rewrite unknown_or_eof_width by (rewrite len_nil; lia)].
    destruct (ParserToken.new_checked _ _ _ _) eqn:E; [by apply new_checked_spec in E as [-> _]|].
    by rewrite unknown_or_eof_width by (rewrite len_nil; lia).
  - by rewrite parts_exact by (by apply token_ok_empty).
  - rewrite parts_reversed by done. by rewrite unknown_or_eof_width by (rewrite len_nil; lia).
Qed.

(** ** Lemmas: pulling *)

Section pulling.
Context `{TokenizeLaws} `{!FusedTokenize} (sha256 : list Z -> list Z).

(** Nothing more comes out of it. *)
Definition dry (x : backing_state) : Prop := exists y, pull x = Ret (Err UnexpectedEof, y).
(** What pulling leaves alone. *)
Definition kin (x y : backing_state) : Prop :=
  match x.1, y.1 with
  | InnerLexer l, InnerLexer l' => same_lexer l l'
  | InnerBuffered _, InnerBuffered _ => True
  | _, _ => False
  end.
(** A live input that the content digest accepts. *)
Definition digestible (x : backing_state) : Prop :=
  match x.1 with InnerLexer l => len (Lexer.input l) <= u32_max | InnerBuffered _ => True end.

Lemma same_lexer_refl l : same_lexer l l.
Proof. by split_and!. Qed.
Lemma same_lexer_trans l1 l2 l3 : same_lexer l1 l2 -> same_lexer l2 l3 -> same_lexer l1 l3.
Proof. unfold same_lexer. naive_solver congruence. Qed.
Lemma kin_refl x : kin x x.
Proof. unfold kin. case_match; [by split_and!|done]. Qed.
Lemma kin_trans x y z : kin x y -> kin y z -> kin x z.
Proof. unfold kin. repeat case_match; try done. apply same_lexer_trans. Qed.
Lemma kin_digestible x y : kin x y -> digestible x -> digestible y.
Proof. unfold kin, digestible. repeat case_match; try done. by intros [-> _]. Qed.

Lemma lexer_loop_total fuel l :
  (progress l < fuel)%nat -> exists r l', lexer_loop fuel l = Ret (r, l') /\ same_lexer l l' /\
    match r with Ok _ => True | Err e => e = UnexpectedEof /\ (LexerTokens.next_token l').1 = None end.
Proof using Type*.
  revert l. induction fuel as [|fuel IH]; intros l Hf; [lia|]. simpl.
  pose proof (next_token_same l) as Hi. pose proof (next_token_progress l) as Hp.
  pose proof (next_token_fused l) as Hz.
  destruct (LexerTokens.next_token l) as [[t|] l'] eqn:E; simpl in *;
    [|eexists _, _; split; [done|]; by auto].
  specialize (Hp t eq_refl).
  destruct (token_type t) eqn:Et; try (eexists _, _; split; [done|]; by auto).
  all: destruct (IH l') as (r & l2 & -> & Hi' & Hr); [specialize (Hp eq_refl); lia|].
  all: eexists _, _; split; [done|]; split; [by eapply same_lexer_trans|done].
Qed.

Lemma next_token_from_lexer_total l :
  exists r l', next_token_from_lexer l = Ret (r, l') /\ same_lexer l l' /\
    match r with Ok _ => True | Err e => e = UnexpectedEof /\ (LexerTokens.next_token l').1 = None end.
Proof using Type*. apply lexer_loop_total. lia. Qed.

Lemma pull_total x :
  exists r y, pull x = Ret (r, y) /\ kin x y /\
    match r with Ok _ => True | Err e => e = UnexpectedEof /\ dry y end.
Proof using Type*.
  destruct x as [[l|b] p]; simpl.
  - destruct (next_token_from_lexer_total l) as (r & l' & -> & Hi & Hr). simpl.
    eexists _, _. split; [done|]. split; [done|].
    destruct r; [done|]. destruct Hr as [-> Hr]. split; [done|].
    unfold dry. simpl. unfold next_token_from_lexer. simpl.
    destruct (LexerTokens.next_token l') as [[t|] l2]; [done|]. by eexists.
  - destruct (next_token_from_buf _ _) as [[t buf] q]. by eexists _, _.
Qed.

Lemma pull_dry x : dry x -> exists y, pull x = Ret (Err UnexpectedEof, y) /\ dry y.
Proof using Type*.
  intros [y Hy]. exists y. split; [done|].
  destruct (pull_total x) as (r & y' & E & _ & Hr). rewrite Hy in E. injection E as <- <-. by apply Hr.
Qed.

Lemma pulls_total n x : exists r y, pulls n x = Ret (r, y).
Proof using Type*.
  revert x. induction n as [|n IH]; intros x; simpl; destruct (pull_total x) as (r & y & -> & _); simpl;
    [by eexists _, _|apply IH].
Qed.

Lemma pulls_dry n x : dry x -> exists y, pulls n x = Ret (Err UnexpectedEof, y) /\ dry y.
Proof using Type*.
  revert x. induction n as [|n IH]; intros x Hd; simpl; destruct (pull_dry x Hd) as (y & -> & Hy); simpl;
    [by eexists|by apply IH].
Qed.

Lemma token_at_dry x n : dry x -> token_at x n = Err UnexpectedEof.
Proof using Type*. intros Hd. unfold token_at. by destruct (pulls_dry n x Hd) as (y & -> & _). Qed.
Lemma pull_error x e y : pull x = Ret (Err e, y) -> e = UnexpectedEof /\ dry x /\ dry y /\ kin x y.
Proof using Type*.
  intros Hy. destruct (pull_total x) as (r & y' & E & Hk & Hr). rewrite Hy in E. injection E as <- <-.
  destruct Hr as [-> Hr]. split_and!; [done|by exists y|done..].
Qed.
Lemma token_at_0 x r y : pull x = Ret (r, y) -> token_at x 0 = r.
Proof. unfold token_at. simpl. by intros ->. Qed.
Lemma token_at_S x r y n : pull x = Ret (r, y) -> token_at x (S n) = token_at y n.
Proof. unfold token_at. simpl. by intros ->. Qed.

(** ** Lemmas: the lookahead window *)

Definition backing_of (s : TokenStream) : backing_state := (inner s, buffered_eof_pos s).
(** A token pulled ahead, and the boundary captured before it. *)
Definition slot : Type := ParserToken.t * option LexerCheckpoint.
Definition boundary_of (x : backing_state) (w : slot) : Prop :=
  match x.1, w.2 with
  | InnerLexer l, Some c => checkpoint sha256 l = Ret c
  | InnerLexer _, None => is_eof_kind w.1 = true
  | InnerBuffered _, b => b = None
  end.

Inductive window : backing_state -> list slot -> backing_state -> Prop :=
| window_nil x y : x = y \/ (dry x /\ dry y /\ kin x y) -> window x [] y
| window_cons x w y ws z :
    pull x = Ret (Ok w.1, y) -> boundary_of x w -> window y ws z -> window x (w :: ws) z.

(** The stream [s] stands at [x] of its backing, having pulled [ws] ahead. *)
Record shows (x : backing_state) (ws : list slot) (s : TokenStream) : Prop := {
  shows_window : window x ws (backing_of s);
  shows_length : (length ws <= 3)%nat;
  shows_peeked : peeked s = fst <$> ws !! 0%nat;
  shows_second : peeked_second s = fst <$> ws !! 1%nat;
  shows_third : peeked_third s = fst <$> ws !! 2%nat;
  shows_boundary : peek_boundary s = ws !! 0%nat ≫= snd;
  shows_second_boundary : peek_second_boundary s = ws !! 1%nat ≫= snd;
  shows_third_boundary : peek_third_boundary s = ws !! 2%nat ≫= snd;
  shows_last : last_boundary s = None;
  shows_digest : digestible x;
}.

Lemma window_token x ws y n :
  window x ws y -> token_at x (length ws + n) = token_at y n.
Proof using Type*.
  induction 1 as [x y [->|(Hx & Hy & _)]|x w y ws z Hp Hb Hw IH]; [done| |]; simpl.
  - by rewrite !token_at_dry.
  - by erewrite token_at_S.
Qed.
Lemma window_lookup x ws y k w : window x ws y -> ws !! k = Some w -> token_at x k = Ok w.1.
Proof.
  intros Hw. revert k. induction Hw as [x y|x v y ws z Hp Hb Hw IH]; intros [|k] E; simplify_eq/=; try done.
  - by eapply token_at_0.
  - erewrite token_at_S by done. by apply IH.
Qed.
Lemma window_snoc x ws y w z :
  window x ws y -> pull y = Ret (Ok w.1, z) -> boundary_of y w -> window x (ws ++ [w]) z.
Proof using Type*.
  intros Hw Hp Hb. induction Hw as [x y [->|(_ & Hy & _)]|x v y ws y' Hpx Hbx Hw IH]; simpl.
  - eapply window_cons; [done..|]. apply window_nil. by left.
  - destruct (pull_dry y Hy) as (? & E & _). by rewrite E in Hp.
  - eapply window_cons; [done..|]. by apply IH.
Qed.
Lemma window_stall x ws y e z : window x ws y -> pull y = Ret (Err e, z) -> window x ws z.
Proof using Type*.
  intros Hw Hp. apply pull_error in Hp as (_ & Hy & Hz & Hk).
  induction Hw as [x y [->|(Hx & _ & Hk')]|x v y ws y' Hpx Hbx Hw IH].
  - apply window_nil. by right.
  - apply window_nil. right. split_and!; [done..|]. by eapply kin_trans.
  - eapply window_cons; [done..|]. by apply IH.
Qed.
Lemma pull_kin x r y : pull x = Ret (r, y) -> kin x y.
Proof using Type*. destruct (pull_total x) as (r' & y' & -> & Hk & _). by intros [= <- <-]. Qed.
Lemma window_kin x ws y : window x ws y -> kin x y.
Proof using Type*.
  induction 1 as [x y [->|(_ & _ & Hk)]|x w y ws z Hp Hb Hw IH]; [by apply kin_refl|done|].
  eapply kin_trans; [by eapply pull_kin|done].
Qed.

(** One more token from the backing, with its boundary. *)
Lemma next_token_pulls x ws s capture_boundary :
  shows x ws s -> exists r y b, pull (backing_of s) = Ret (r, y) /\ r = token_at x (length ws) /\
    next_token sha256 s capture_boundary = Ret (r, mkStream y.1 y.2 (peeked s) (peeked_second s) (peeked_third s)
      (peek_boundary s) (peek_second_boundary s) (peek_third_boundary s) b) /\
    match r with
    | Ok t => if capture_boundary then window x (ws ++ [(t, b)]) y else True
    | Err _ => b = None /\ window x ws y
    end.
Proof using Type*.
  intros [Hw _ _ _ _ _ _ _ Hl Hd].
  destruct (pull_total (backing_of s)) as (r & y & Hp & _ & Hr).
  assert (r = token_at x (length ws)) as Et.
  { rewrite <- (Nat.add_0_r (length ws)), (window_token x ws _ 0 Hw). symmetry. by eapply token_at_0. }
  exists r, y. apply (kin_digestible _ _ (window_kin _ _ _ Hw)) in Hd.
  pose proof (window_stall x ws _ UnexpectedEof y Hw) as Hstall.
  unfold next_token. unfold backing_of, digestible in *. destruct (inner s) as [l|b] eqn:Ei; simpl in *.
  - destruct (next_token_from_lexer l) as [[r' l']|] eqn:E; [|done]. injection Hp as -> <-.
    destruct (of_bytes_short sha256 (Lexer.input l) Hd) as [d Hdg].
    assert (exists c, checkpoint sha256 l = Ret c) as [c Hc] by (unfold checkpoint; rewrite Hdg; by eexists).
    rewrite Hc. exists (match r with Ok _ => if capture_boundary then Some c else None | Err _ => None end).
    split_and!; [done|done| |].
    + destruct capture_boundary; simpl; by rewrite ?Hl; destruct r.
    + destruct r as [t|e]; [|destruct Hr as [-> _]; by auto]. destruct capture_boundary; [|done].
      eapply window_snoc; [done| |done]. simpl. by rewrite E.
  - destruct (next_token_from_buf (buffered_tokens b) (buffered_eof_pos s)) as [[t buf] q] eqn:E.
    injection Hp as <- <-. exists None. split_and!; [done|done|by rewrite Hl|].
    destruct capture_boundary; [|done]. eapply window_snoc; [done| |done]. simpl. by rewrite E.
Qed.

Lemma token_at_error x n e : token_at x n = Err e -> e = UnexpectedEof /\ token_at x (S n) = Err e.
Proof using Type*.
  revert x. induction n as [|n IH]; intros x E.
  - destruct (pull_total x) as (r & y & Hp & _ & Hr). rewrite (token_at_0 x r y Hp) in E. subst r.
    destruct Hr as [-> Hy]. rewrite (token_at_S _ _ _ _ Hp). by rewrite token_at_dry.
  - destruct (pull_total x) as (r & y & Hp & _ & Hr). rewrite (token_at_S _ _ _ n Hp) in E.
    rewrite (token_at_S _ _ _ (S n) Hp). by apply IH.
Qed.

Lemma window_of x ws s k w : shows x ws s -> ws !! k = Some w -> token_at x k = Ok w.1.
Proof. intros Hs. by apply window_lookup with (backing_of s), Hs. Qed.

#[local] Ltac shown y := constructor; simpl; try done; try lia; by destruct y.

(** The three peeks fill the window up to the token they return. *)
Definition peeks (f : TokenStream -> outcome (result ParseError ParserToken.t * TokenStream)) (k : nat) : Prop :=
  forall x ws s, shows x ws s -> exists s' ws', f s = Ret (token_at x k, s') /\ shows x ws' s' /\
    (forall t, token_at x k = Ok t -> (k < length ws')%nat).

Lemma peek_shows : peeks (peek sha256) 0.
Proof using Type*.
  intros x ws s Hs. unfold peek. rewrite (shows_peeked _ _ _ Hs). destruct ws as [|w ws]; simpl.
  - destruct (next_token_pulls x _ s true Hs) as (r & y & b & Hp & Hr & -> & Hb). simpl.
    destruct Hs as [? ? -> -> -> -> -> -> ? ?]. simpl in *. rewrite <- Hr. destruct r as [t|e].
    + eexists _, [(t, b)]. split; [done|]. split; [shown y|simpl; lia].
    + destruct Hb as [-> Hb]. eexists _, []. split; [done|]. split; [shown y|done].
  - rewrite (window_of x _ s 0 w Hs eq_refl). exists s, (w :: ws). split; [done|]. split; [done|]. simpl. lia.
Qed.

Lemma peek_second_shows : peeks (peek_second sha256) 1.
Proof using Type*.
  intros x ws s Hs. unfold peek_second. destruct (peek_shows x ws s Hs) as (s' & ws' & -> & Hs' & Hl). simpl.
  destruct (token_at x 0) as [t0|e] eqn:E0.
  2:{ apply token_at_error in E0 as [_ E1]. exists s', ws'. rewrite E1. by split_and!. }
  specialize (Hl t0 eq_refl). rewrite (shows_second _ _ _ Hs').
  destruct ws' as [|w0 [|w ws']]; simpl in *; [lia| |].
  - destruct (next_token_pulls x _ s' true Hs') as (r & y & b & Hp & Hr & -> & Hb). simpl in *.
    destruct Hs' as [? ? -> -> -> -> -> -> ? ?]. rewrite <- Hr. destruct r as [t|e].
    + eexists _, [w0; (t, b)]. split; [done|]. split; [shown y|simpl; lia].
    + destruct Hb as [-> Hb]. eexists _, [w0]. split; [done|]. split; [shown y|done].
  - rewrite (window_of x _ s' 1 w Hs' eq_refl). exists s', (w0 :: w :: ws'). split; [done|]. split; [done|]. simpl. lia.
Qed.

Lemma peek_third_shows : peeks (peek_third sha256) 2.
Proof using Type*.
  intros x ws s Hs. unfold peek_third. destruct (peek_second_shows x ws s Hs) as (s' & ws' & -> & Hs' & Hl). simpl.
  destruct (token_at x 1) as [t1|e] eqn:E1.
  2:{ apply token_at_error in E1 as [_ E2]. exists s', ws'. rewrite E2. by split_and!. }
  specialize (Hl t1 eq_refl). rewrite (shows_third _ _ _ Hs').
  destruct ws' as [|w0 [|w1 [|w ws']]]; simpl in *; [lia|lia| |].
  - destruct (next_token_pulls x _ s' true Hs') as (r & y & b & Hp & Hr & -> & Hb). simpl in *.
    destruct Hs' as [? ? -> -> -> -> -> -> ? ?]. rewrite <- Hr. destruct r as [t|e].
    + eexists _, [w0; w1; (t, b)]. split; [done|]. split; [shown y|simpl; lia].
    + destruct Hb as [-> Hb]. eexists _, [w0; w1]. split; [done|]. split; [shown y|done].
  - rewrite (window_of x _ s' 2 w Hs' eq_refl). exists s', (w0 :: w1 :: w :: ws'). split; [done|]. split; [done|]. simpl. lia.
Qed.

(** [next] steps over the first token unless it is the end of the file. *)
Lemma next_shows x ws s :
  shows x ws s -> exists s' x' ws', next sha256 s = Ret (token_at x 0, s') /\ shows x' ws' s' /\
    forall n, token_at x' n = token_at x (steps (token_at x 0) + n).
Proof using Type*.
  intros Hs. unfold next. rewrite (shows_peeked _ _ _ Hs). destruct ws as [|w ws]; simpl.
  - destruct (next_token_pulls x _ s false Hs) as (r & y & b & Hp & Hr & -> & Hb). simpl in Hr, Hb |- *.
    rewrite <- Hr. destruct Hs as [Hw ? -> -> -> -> -> -> ? Hd]. destruct r as [t|e]; simpl.
    + inversion Hw as [? ? [->|(_ & Hy & _)]|]; subst.
      2:{ destruct (pull_dry _ Hy) as (? & E & _). rewrite Hp in E. done. }
      destruct (is_eof_kind t) eqn:Et.
      * eexists _, (backing_of s), [(t, None)]. split; [done|]. split; [|done].
        constructor; simpl; try done; try lia. apply window_cons with y; [done| |].
        -- unfold boundary_of. simpl. by case_match.
        -- apply window_nil. left. by destruct y.
      * eexists _, y, []. split; [done|]. split; [|intros n; simpl; by rewrite (token_at_S _ _ _ n Hp)].
        assert (digestible y) by (by eapply kin_digestible, Hd; eapply pull_kin).
        constructor; simpl; try done; try lia. apply window_nil. left. by destruct y.
    + destruct Hb as [-> Hb]. eexists _, x, []. split; [done|]. split; [shown y|done].
  - rewrite (window_of x _ s 0 w Hs eq_refl). simpl.
    destruct Hs as [Hw Hl ? ? ? ? ? ? ? Hd]. inversion Hw as [|? ? y ? ? Hp Hb Hw']; subst.
    destruct (is_eof_kind w.1) eqn:Ee.
    + eexists s, x, (w :: ws). split; [done|]. split; [by constructor|done].
    + eexists _, y, ws. split; [done|]. split; [|intros n; simpl; by rewrite (token_at_S _ _ _ n Hp)].
      assert (digestible y) by (by eapply kin_digestible, Hd; eapply pull_kin).
      constructor; simpl in *; try done; try lia;
        by destruct ws as [|? [|? [|]]]; simpl in *; try lia.
Qed.

(** Every call answers as the cursor does, and the stream still shows where
    the cursor stands. *)
Lemma call_shows x ws s c tokens n :
  shows x ws s -> (forall k, token_at x k = tokens (n + k)%nat) ->
  exists s' x' ws', call sha256 s c = Ret ((cursor_call tokens n c).1, s') /\ shows x' ws' s' /\
    forall k, token_at x' k = tokens ((cursor_call tokens n c).2 + k)%nat.
Proof using Type*.
  intros Hs Ht. assert (tokens n = token_at x 0) as E0 by (by rewrite Ht, Nat.add_0_r).
  destruct c; simpl.
  - destruct (peek_shows x ws s Hs) as (s' & ws' & -> & Hs' & _). simpl. rewrite E0. by eexists _, x, ws'.
  - destruct (peek_second_shows x ws s Hs) as (s' & ws' & -> & Hs' & _). simpl. rewrite <- Ht. by eexists _, x, ws'.
  - destruct (peek_third_shows x ws s Hs) as (s' & ws' & -> & Hs' & _). simpl. rewrite <- Ht. by eexists _, x, ws'.
  - destruct (next_shows x ws s Hs) as (s' & x' & ws' & -> & Hs' & Hn). simpl. rewrite E0.
    eexists _, x', ws'. split; [done|]. split; [done|]. intros k. rewrite Hn, Ht. f_equal. lia.
  - unfold stream_is_eof. destruct (peek_shows x ws s Hs) as (s' & ws' & -> & Hs' & _). simpl. rewrite E0.
    by eexists _, x, ws'.
Qed.

Lemma calls_show cs : forall x ws s tokens n,
  shows x ws s -> (forall k, token_at x k = tokens (n + k)%nat) ->
  calls sha256 s cs = Ret (cursor_calls tokens n cs).
Proof using Type*.
  induction cs as [|c cs IH]; intros x ws s tokens n Hs Ht; [done|]. simpl.
  destruct (call_shows x ws s c tokens n Hs Ht) as (s' & x' & ws' & -> & Hs' & Ht'). simpl.
  destruct (cursor_call tokens n c) as [a m]. simpl in *. by rewrite (IH x' ws' s' tokens m Hs' Ht').
Qed.

Lemma stream_new_shows input : len input <= u32_max -> shows (InnerLexer (lexer_new input), len input) [] (stream_new input).
Proof. intros Hl. constructor; simpl; try done; try lia. apply window_nil. by left. Qed.
Lemma buffered_shows tokens source :
  shows (backing_of (buffered tokens source)) [] (buffered tokens source).
Proof. constructor; simpl; try done; try lia. apply window_nil. by left. Qed.

(** What a buffer yields: its tokens, then the end of the file for ever. *)
Definition buffer_token (tokens : list ParserToken.t) (eof_pos : Z) (n : nat) : result ParseError ParserToken.t :=
  Ok (default (ParserToken.eof_at (default eof_pos (eof_position <$> last tokens))) (tokens !! n)).
Lemma token_at_buffer tokens source eof_pos n :
  token_at (InnerBuffered (mkBuffered tokens source), eof_pos) n = buffer_token tokens eof_pos n.
Proof.
  revert tokens eof_pos. induction n as [|n IH]; intros [|t tokens] eof_pos; try done.
  - rewrite (token_at_S _ (Ok (ParserToken.eof_at eof_pos)) (InnerBuffered (mkBuffered [] source), eof_pos)) by done.
    by rewrite IH.
  - rewrite (token_at_S _ (Ok t) (InnerBuffered (mkBuffered tokens source), eof_position t)) by done.
    rewrite IH. unfold buffer_token. rewrite last_cons. simpl. destruct (last tokens); done.
Qed.

(** ** Lemmas: the lexer's own token list *)

Inductive lexes : PerlLexer -> list Token -> Prop :=
| lexes_end l : (LexerTokens.next_token l).1 = None -> lexes l []
| lexes_eof l t l' : LexerTokens.next_token l = (Some t, l') -> is_eof (token_type t) = true -> lexes l [t]
| lexes_more l t l' ts : LexerTokens.next_token l = (Some t, l') -> is_eof (token_type t) = false ->
    lexes l' ts -> lexes l (t :: ts).

Lemma collect_loop_lexes fuel l acc :
  (progress l < fuel)%nat -> exists ts, collect_loop fuel l acc = Ret (acc ++ ts) /\ lexes l ts.
Proof using Type*.
  revert l acc. induction fuel as [|fuel IH]; intros l acc Hf; [lia|]. simpl.
  pose proof (next_token_progress l) as Hp.
  destruct (LexerTokens.next_token l) as [[t|] l'] eqn:E; simpl in *.
  - specialize (Hp t eq_refl). destruct (is_eof (token_type t)) eqn:Et.
    + exists [t]. split; [done|]. by eapply lexes_eof.
    + destruct (IH l' (acc ++ [t])) as (ts & -> & Hl); [specialize (Hp eq_refl); lia|].
      exists (t :: ts). split; [by rewrite <- app_assoc|]. by eapply lexes_more.
  - exists []. rewrite app_nil_r. split; [done|]. apply lexes_end. by rewrite E.
Qed.

Definition ends_with_eof (ts : list Token) : bool :=
  match last ts with Some t => is_eof (token_type t) | None => false end.

Lemma lexes_loop l ts fuel :
  lexes l ts -> (progress l < fuel)%nat ->
  match lexer_tokens_to_parser_tokens ts with
  | p :: ps => exists l' ts', lexer_loop fuel l = Ret (Ok p, l') /\ lexes l' ts' /\
      lexer_tokens_to_parser_tokens ts' = ps /\ ends_with_eof ts' = ends_with_eof ts
  | [] => exists r l', lexer_loop fuel l = Ret (r, l') /\ is_eof_result r = ends_with_eof ts
  end.
Proof using Type*.
  intros Hl. revert fuel. induction Hl as [l E|l t l' E Et|l t l' ts E Et Hl IH]; intros [|fuel] Hf; try lia.
  - simpl. destruct (LexerTokens.next_token l) as [[t|] l']; [done|]. by eexists _, _.
  - unfold lexer_tokens_to_parser_tokens. rewrite filter_cons, Et, andb_false_r. simpl. rewrite E.
    destruct (token_type t) eqn:Ett; try done. eexists _, _. split; [done|].
    unfold ends_with_eof. simpl. rewrite Ett. apply eof_parts.
  - pose proof (next_token_progress l t) as Hp. rewrite E in Hp. specialize (Hp eq_refl Et). simpl in Hp.
    assert (ends_with_eof ts = ends_with_eof (t :: ts)) as He.
    { unfold ends_with_eof. rewrite last_cons. destruct (last ts); [done|]. by rewrite Et. }
    unfold lexer_tokens_to_parser_tokens in *. rewrite filter_cons, Et, <- He. simpl. rewrite E.
    destruct (is_trivia (token_type t)) eqn:Etr; simpl.
    + assert (lexer_loop fuel l' = match token_type t with
        | TWhitespace | TNewline | TComment _ => lexer_loop fuel l' | TEOF => mret (Ok (token_from_lexer_parts KEof [] (start t) (end_ t)), l')
        | _ => mret (Ok (convert_lexer_token t), l') end) as <- by (by destruct (token_type t)).
      apply IH. lia.
    + eexists l', ts. split; [|done]. by destruct (token_type t).
Qed.

Lemma live_tokens ts : forall l eof_pos n,
  lexes l ts ->
  match lexer_tokens_to_parser_tokens ts !! n with
  | Some p => token_at (InnerLexer l, eof_pos) n = Ok p
  | None => n = length (lexer_tokens_to_parser_tokens ts) ->
      is_eof_result (token_at (InnerLexer l, eof_pos) n) = ends_with_eof ts
  end.
Proof using Type*.
  remember (lexer_tokens_to_parser_tokens ts) as ps eqn:Eps. revert ts Eps.
  induction ps as [|p ps IH]; intros ts Eps l eof_pos n Hl;
    pose proof (lexes_loop l ts (S (progress l)) Hl (Nat.lt_succ_diag_r _)) as Hn; rewrite <- Eps in Hn.
  - intros ->. destruct Hn as (r & l' & E & Hr).
    rewrite (token_at_0 _ r (InnerLexer l', eof_pos)); [done|]. simpl. unfold next_token_from_lexer. by rewrite E.
  - destruct Hn as (l' & ts' & E & Hl' & Hps & He).
    assert (pull (InnerLexer l, eof_pos) = Ret (Ok p, (InnerLexer l', eof_pos))) as Hp.
    { simpl. unfold next_token_from_lexer. by rewrite E. }
    destruct n as [|n]; simpl; [by eapply token_at_0|].
    rewrite (token_at_S _ _ _ n Hp). specialize (IH ts' (eq_sym Hps) l' eof_pos n Hl').
    destruct (ps !! n); [done|]. intros [= Hlen]. rewrite <- He. by apply IH.
Qed.

(** ** Lemmas: rewinding to the head boundary *)

(** The operations that rewind a live stream, and the mode they force. *)
Inductive rewinds (s : TokenStream) : ContextualTokenOp -> LexerMode -> Prop :=
| rewinds_reset : rewinds s StatementBoundaryReset ExpectTerm
| rewinds_format : rewinds s EnterFormatBody InFormatBody
| rewinds_reclassify m :
    m = ExpectTerm \/ m = ExpectOperator \/ m = ExpectDelimiter ->
    from_option (fun t => negb (is_eof_kind t)) false (peeked s) = true -> rewinds s (ReclassifyFromBoundary m) m.

(** What they do with the result of restoring the boundary [c]. *)
Lemma rewind_boundary s op m l c :
  rewinds s op m -> inner s = InnerLexer l -> peek_boundary s = Some c ->
  apply_contextual sha256 s op =
    '(r, l) ← restore sha256 l c;
    mret match r with
    | Err _ => (FallbackRequired NoCheckpointAuthority, with_lexer s l)
    | Ok _ => (AppliedLive, clear_lookahead (with_lexer s (set_mode l m)))
    end.
Proof.
  intros Hr Hi Hb. destruct Hr as [| |m Hm Hh]; simpl;
    unfold apply_statement_boundary_reset, apply_enter_format_body, apply_reclassify_from_boundary,
      restore_live_lookahead_boundary, is_buffered; rewrite Hi, Hb.
  - by destruct (restore sha256 l c) as [[[[]|e] l']|].
  - by destruct (restore sha256 l c) as [[[[]|e] l']|].
  - rewrite Hh. by destruct Hm as [->|[->| ->]].
Qed.

Lemma same_lexer_target l l' : same_lexer l l' -> same_target l' l.
Proof. unfold same_lexer, same_target. naive_solver congruence. Qed.

Lemma cleared_shows s l :
  last_boundary s = None -> len (Lexer.input l) <= u32_max ->
  shows (InnerLexer l, buffered_eof_pos s) [] (clear_lookahead (with_lexer s l)).
Proof. intros Hl Hd. constructor; simpl; try done; try lia. apply window_nil. by left. Qed.
Lemma with_lexer_same s l : inner s = InnerLexer l -> with_lexer s l = s.
Proof. intros Hi. destruct s. simpl in *. by subst. Qed.
End pulling.

(** ** Theorems *)

(** C28. Lookahead is invisible: whatever sequence of [peek], [peek_second],
    [peek_third], [next] and [is_eof] calls is made, a stream answers as a
    cursor over one fixed sequence of tokens does, [peek] at distance [k]
    with the token [k] places on and [next] stepping over every token but
    the end of the file.  No call panics or loops; a buffered stream is the
    cursor over its buffer followed by the end of the file for ever. *)
Theorem stream_is_a_cursor `{TokenizeLaws} `{!FusedTokenize} sha256 input tokens source cs :
  len input <= u32_max ->
  calls sha256 (stream_new input) cs =
    Ret (cursor_calls (token_at (backing_of (stream_new input))) 0 cs) /\
  calls sha256 (buffered tokens source) cs = Ret (cursor_calls (buffer_token tokens 0) 0 cs) /\
  (forall n, exists r x, pulls n (backing_of (stream_new input)) = Ret (r, x)).
Proof.
  intros Hl. split_and!; [| |intros n; apply pulls_total].
  - eapply calls_show; [by apply stream_new_shows|done].
  - eapply calls_show; [apply buffered_shows|]. intros k. unfold backing_of. simpl.
    rewrite token_at_buffer. unfold buffer_token. by destruct (last tokens).
Qed.

(** A live stream and a buffered stream over the same text agree: the
    lexer's own token list, converted and buffered, is what the live stream
    yields token by token, and where the buffer runs out the live stream is
    at the end of the file (or, when the lexer stopped without an end token,
    at an error). *)
Theorem live_and_buffered_agree `{TokenizeLaws} `{!FusedTokenize} l eof_pos :
  exists ts, collect_tokens l = Ret ts /\
    let tokens := lexer_tokens_to_parser_tokens ts in
    (forall n, (n < length tokens)%nat -> token_at (InnerLexer l, eof_pos) n = buffer_token tokens 0 n) /\
    is_eof_result (token_at (InnerLexer l, eof_pos) (length tokens)) =
      from_option (fun t => is_eof (token_type t)) false (last ts) /\
    is_eof_result (buffer_token tokens 0 (length tokens)) = true.
Proof.
  destruct (collect_loop_lexes (S (progress l)) l [] (Nat.lt_succ_diag_r _)) as (ts & E & Hl).
  exists ts. split; [exact E|]. simpl. split_and!.
  - intros n [p Hp]%lookup_lt_is_Some. pose proof (live_tokens ts l eof_pos n Hl) as Hn.
    rewrite Hp in Hn. rewrite Hn. unfold buffer_token. by rewrite Hp.
  - pose proof (live_tokens ts l eof_pos (length (lexer_tokens_to_parser_tokens ts)) Hl) as Hn.
    rewrite lookup_ge_None_2 in Hn by lia. rewrite (Hn eq_refl). unfold ends_with_eof. by destruct (last ts).
  - unfold buffer_token. by rewrite lookup_ge_None_2 by lia.
Qed.

(** A lexer token always converts into a well-formed parser token, on each
    geometry: a well-formed one is kept as it is; a text shorter than its
    span ends the token where the text does; an empty span that the kind
    does not allow makes an unknown token; a reversed span makes an unknown
    token over the text when the widths match; every other geometry ends
    the token sequence, with an end of file at the smaller offset. *)
Theorem lexer_parts_conversion kind text start end_ :
  0 <= start -> end_ <= usize_max ->
  let t := token_from_lexer_parts kind text start end_ in
  token_ok t /\
  (token_ok (ParserToken.mk kind text start end_) -> t = ParserToken.mk kind text start end_) /\
  (len text < end_ - start -> (kind = KUnknownRest -> text <> []) ->
     t = if bool_decide (text = []) && negb (allows_empty_span kind) then ParserToken.eof_at start
         else ParserToken.mk kind text start (start + len text)) /\
  (start = end_ -> text = [] -> allows_empty_span kind = false -> t = ParserToken.mk KUnknown [] start start) /\
  (end_ < start -> t = if len text =? start - end_ then ParserToken.mk KUnknown text end_ start
                       else ParserToken.eof_at end_) /\
  (start <= end_ < start + len text -> t = ParserToken.eof_at start).
Proof.
  intros Hs He t.
  assert (end_ < start -> t = unknown_or_eof text start end_) as Hrev by apply parts_reversed.
  split_and!.
  - unfold t, token_from_lexer_parts. destruct (ParserToken.new_checked _ _ _ _) as [x|[]] eqn:E;
      [by apply new_checked_spec in E as [-> ?]|by apply unknown_or_eof_ok..|].
    destruct (_ && _); [|by apply unknown_or_eof_ok].
    destruct (ParserToken.new_checked _ _ _ (saturating_add _ _)) eqn:E2; [|by apply unknown_or_eof_ok].
    by apply new_checked_spec in E2 as [-> ?].
  - apply parts_exact.
  - by apply parts_short.
  - by apply parts_empty.
  - intros H. rewrite Hrev by done. destruct (Z.eqb_spec (len text) (start - end_)).
    + rewrite unknown_or_eof_exact by lia. by rewrite Z.min_r, Z.max_l by lia.
    + rewrite unknown_or_eof_width by lia. by rewrite Z.min_r by lia.
  - intros [? ?]. apply parts_long; lia.
Qed.

(** C29. Rewinding a live stream: a statement reset, a format entry and a
    reclassification drop the lookahead window and lose no token.  The
    lexer goes back to the state captured before the first token of the
    window (it would capture the identical checkpoint) with only the mode
    changed, exactly when that state is restartable; otherwise the operation
    is refused and the stream is as it was.  Without a boundary the two
    unconditional operations change the mode where the lexer stands. *)
Theorem rewind_loses_no_token `{TokenizeLaws} `{!FusedTokenize} sha256 l eof_pos ws s op m :
  shows sha256 (InnerLexer l, eof_pos) ws s -> Lexer.generation l <> Known [] -> rewinds s op m ->
  match peek_boundary s with
  | Some _ =>
    (restartable l -> exists s' l', apply_contextual sha256 s op = Ret (AppliedLive, s') /\
       checkpoint sha256 l' = checkpoint sha256 l /\
       shows sha256 (InnerLexer (set_mode l' m), buffered_eof_pos s) [] s') /\
    (~ restartable l -> apply_contextual sha256 s op = Ret (FallbackRequired NoCheckpointAuthority, s))
  | None =>
    exists l', inner s = InnerLexer l' /\
      apply_contextual sha256 s op =
        match op with
        | ReclassifyFromBoundary _ => Ret (FallbackRequired NoCheckpointAuthority, s)
        | _ => Ret (AppliedLive, clear_lookahead (with_lexer s (set_mode l' m)))
        end
  end.
Proof.
  intros Hs Hg Hr. pose proof (window_kin _ _ _ _ (shows_window _ _ _ _ Hs)) as Hk.
  unfold kin, backing_of in Hk. simpl in Hk. destruct (inner s) as [l1|b] eqn:Hi; [|done].
  pose proof (shows_digest _ _ _ _ Hs) as Hd. unfold digestible in Hd. simpl in Hd.
  destruct (peek_boundary s) as [c|] eqn:Hb.
  - rewrite (rewind_boundary sha256 s op m l1 c Hr Hi Hb).
    pose proof (same_lexer_target _ _ Hk) as Ht.
    assert (checkpoint sha256 l = Ret c) as Hc.
    { pose proof (shows_boundary _ _ _ _ Hs) as Hb'. rewrite Hb in Hb'. destruct ws as [|w ws]; [done|].
      simpl in Hb'. pose proof (shows_window _ _ _ _ Hs) as Hw. inversion Hw as [|? ? ? ? ? _ Hbo _]; subst.
      unfold boundary_of in Hbo. simpl in Hbo. by rewrite <- Hb' in Hbo. }
    split.
    + intros R. apply (validate_captured sha256 l l1 c Hc Ht Hg) in R. rewrite (restore_ok _ _ _ R). simpl.
      eexists _, (restored l1 (replay c)). split; [done|].
      split; [by rewrite (checkpoint_restored sha256 l l1 c), Hc|].
      apply cleared_shows; [by apply (shows_last _ _ _ _ Hs)|]. simpl. by destruct Hk as [-> _].
    + intros R. destruct (restore_captured_refused sha256 l l1 c Hc Ht Hg R) as [e ->]. simpl.
      by rewrite with_lexer_same.
  - exists l1. split; [done|]. destruct Hr as [| |m Hm Hh]; simpl;
      unfold apply_statement_boundary_reset, apply_enter_format_body, apply_reclassify_from_boundary,
        restore_live_lookahead_boundary, is_buffered, on_lexer; rewrite ?Hi, Hb; simpl; rewrite ?Hi; try done.
    rewrite Hh. by destruct Hm as [->|[->| ->]].
Qed.

(** On a pre-lexed buffer no contextual operation changes which tokens
    follow: each is refused for want of a source or of a checkpoint, or is
    not needed (the head is already a format body, or there is no token to
    reclassify), or asks for a context that cannot be reclassified, and the
    stream is as it was.  Invalidation is the exception: on either backing
    it drops exactly the tokens already pulled ahead. *)
Theorem contextual_refusals `{TokenizeLaws} `{!FusedTokenize} sha256 x ws s op :
  shows sha256 x ws s ->
  (op <> InvalidateLookahead -> is_buffered s = true ->
     exists r, apply_contextual sha256 s op = Ret (r, s) /\ r <> AppliedLive /\ r <> AppliedReplay /\
       (forall reason, r = FallbackRequired reason ->
          reason = match backing s with BackingBuffered true => NoCheckpointAuthority | _ => NoBufferedSource end)) /\
  (op = InvalidateLookahead ->
     exists r s', apply_contextual sha256 s op = Ret (r, s') /\ (r = NotRequired <-> ws = []) /\
       shows sha256 (backing_of s) [] s' /\
       forall n, token_at (backing_of s) n = token_at x (length ws + n)).
Proof.
  intros Hs. split.
  - intros Hop Hb. assert (buffered_fallback_reason s = match backing s with
      | BackingBuffered true => NoCheckpointAuthority | _ => NoBufferedSource end) as Hf.
    { unfold buffered_fallback_reason, backing. by destruct (inner s) as [|[? []]]. }
    destruct op as [|m| |]; simpl; try done;
      unfold apply_statement_boundary_reset, apply_enter_format_body, apply_reclassify_from_boundary;
      rewrite Hb, Hf.
    + eexists. split_and!; try done. by intros ? [= <-].
    + destruct m; try (eexists; split_and!; done); (destruct (negb _); [by eexists|]);
        eexists; split_and!; try done; by intros ? [= <-].
    + case_bool_decide; eexists; split_and!; try done; by intros ? [= <-].
  - intros ->. simpl. eexists _, _. split; [done|].
    pose proof Hs as [Hw Hl Hp H2 H3 _ _ _ Hla Hd]. split_and!.
    + unfold lookahead_cached. rewrite Hp, H2, H3. by destruct ws as [|w ws]; simpl; destruct (inner s).
    + apply (kin_digestible _ _ (window_kin _ _ _ _ Hw)) in Hd.
      constructor; simpl; try done; try lia. apply window_nil. by left.
    + intros n. symmetry. by apply (window_token sha256 _ ws).
Qed.

(** ** Witnesses *)

Definition demo_token (kind : TokenKind) (text : list Z) (start : Z) : ParserToken.t :=
  ParserToken.mk kind text start (start + len text).

Lemma stream_is_a_cursor_witness :
  calls sample_hash (stream_new demo_input) [CallPeekThird; CallNext; CallPeek] =
    Ret [inl (Ok (demo_token KIdentifier [32] 2)); inl (Ok (demo_token KIdentifier [109] 0));
         inl (Ok (demo_token KIdentifier [121] 1))].
Proof.
  destruct (stream_is_a_cursor sample_hash demo_input [] None [CallPeekThird; CallNext; CallPeek]) as (-> & _);
    vm_compute; first [reflexivity|discriminate].
Defined.

Lemma live_and_buffered_agree_witness : exists ts, collect_tokens (lexer_new demo_input) = Ret ts /\
  length ts = 11%nat /\
  is_eof_result (token_at (InnerLexer (lexer_new demo_input), 0) (length (lexer_tokens_to_parser_tokens ts))) = true.
Proof.
  destruct (live_and_buffered_agree (lexer_new demo_input) 0) as (ts & E & _ & He & _).
  exists ts. split; [exact E|]. rewrite He. vm_compute in E. injection E as <-. by split.
Defined.

Lemma lexer_parts_conversion_witness :
  token_ok (token_from_lexer_parts KIdentifier [120; 121] 4 9) /\
  token_from_lexer_parts KIdentifier [120; 121] 4 9 = ParserToken.mk KIdentifier [120; 121] 4 6.
Proof.
  edestruct (lexer_parts_conversion KIdentifier [120; 121] 4 9) as (Hok & _ & Hs & _); [lia|done|].
  split; [exact Hok|]. apply Hs; done.
Defined.

(** A stream that has looked at the first token of [my $x = 1;]. *)
Definition demo_head : slot :=
  (demo_token KIdentifier [109] 0,
   Some (match checkpoint sample_hash (lexer_new demo_input) with Ret c => c | Panic => demo_at 0 end)).
Definition demo_stream : TokenStream :=
  match peek sample_hash (stream_new demo_input) with Ret (_, s) => s | Panic => stream_new demo_input end.
Lemma demo_shows : shows sample_hash (backing_of (stream_new demo_input)) [demo_head] demo_stream.
Proof.
  constructor; try (vm_compute; reflexivity); simpl; [|lia|vm_compute; discriminate].
  eapply window_cons; [vm_compute; reflexivity|vm_compute; reflexivity|].
  apply window_nil. left. vm_compute. reflexivity.
Qed.

Lemma rewind_loses_no_token_witness : exists s' l',
  apply_contextual sample_hash demo_stream StatementBoundaryReset = Ret (AppliedLive, s') /\
  checkpoint sample_hash l' = checkpoint sample_hash (lexer_new demo_input) /\
  shows sample_hash (InnerLexer (set_mode l' ExpectTerm), 10) [] s'.
Proof.
  destruct (rewind_loses_no_token sample_hash _ _ _ _ _ _ demo_shows ltac:(discriminate) (rewinds_reset _))
    as [Hr _]; apply Hr.
  constructor; simpl; [by intros (? & _)|repeat constructor|lia|done].
Defined.

Lemma contextual_refusals_witness : exists r s',
  apply_contextual sample_hash demo_stream InvalidateLookahead = Ret (r, s') /\
  (r = NotRequired <-> [demo_head] = []) /\
  token_at (backing_of demo_stream) 0 = token_at (backing_of (stream_new demo_input)) 1.
Proof.
  destruct (contextual_refusals sample_hash _ _ _ InvalidateLookahead demo_shows) as [_ H].
  destruct (H eq_refl) as (r & s' & E & Hr & _ & Ht). exists r, s'. split; [exact E|]. split; [exact Hr|].
  apply (Ht 0%nat).
Defined.
