(* ===== verification/Incremental.v ===== *)
(** * The incremental parser state (perl-parser/src/incremental: lex.rs,
      reparse.rs, state.rs, mod.rs, checkpoint.rs, diagnostics.rs, strategy.rs)

    One committed generation: source, line index, tokens, compact and complete
    lexer checkpoints, and the parser snapshot; the batch entry point
    [apply_edits] with its restart path and its full-reparse fallback.  The
    tokenizer, the parser, the AST walk that lists parse checkpoints and the
    rope constructor are parameters.  A loop of the lexer that runs out of
    fuel is a [Panic] of the model, so that a theorem excluding panics also
    states termination. *)

From stdpp Require Import base numbers list sets.
From S2P Require Import ReferenceEdit Snapshot Completion SourceIdentity.
From S2P Require Import Prelude Utf8 ByteLineIndex TextEdits Checkpoint LexerTokens.
Import Batch.

(** ** Data *)

Record LexCheckpoint := mkLexCheckpoint { byte : Z; checkpoint_mode : LexerMode; line : Z; column : Z }.

Record StoredLexCheckpoint := mkStored {
  summary : LexCheckpoint;
  live : LexerCheckpoint;
  source_digest : ContentDigest;
}.

Inductive LexRestartStrategy := Unchanged | FullRelex | LiveCheckpointToEof | StoredCheckpointToEof.
Record LexRestartReport := mkReport {
  report_strategy : LexRestartStrategy;
  restart_byte : Z;
  old_prefix_bytes_replayed : Z;
  relexed_bytes : Z;
  reused_prefix_tokens : Z;
  reused_suffix_tokens : Z;
  stored_checkpoint_count : Z;
}.
Definition reused_tokens_of (self : LexRestartReport) : Z :=
  saturating_add (reused_prefix_tokens self) (reused_suffix_tokens self).

(** The errors, one per [bail!]; all are [anyhow::Error] in the source. *)
Inductive IncrementalError :=
| InvalidBatch (e : BatchError)
| NoRestartBoundary
| CannotReproduceLexerState
| EditEndPrecedesStart
| EditInvalidatedLexerState
| CheckpointNotValid
| LexerDidNotAdvance (at_byte : Z)
| GenerationExhausted.

Definition MAX_STORED_LEX_CHECKPOINTS : Z := 4096.
Definition INITIAL_CHECKPOINT_SPACING : Z := 128.
Definition MAX_EDIT_SIZE : Z := 64 * 1024.

(** ** Checkpoints bound to one source *)

Definition summarize_checkpoint (checkpoint : LexerCheckpoint) (line_index : ByteLineIndex.t)
    : outcome LexCheckpoint :=
  '(line, column) ← ByteLineIndex.byte_to_position line_index (position checkpoint);
  mret (mkLexCheckpoint (position checkpoint) (Replay.mode (replay checkpoint)) line column).

Definition capture_stored (source_digest : ContentDigest) (live : LexerCheckpoint)
    (line_index : ByteLineIndex.t) : outcome StoredLexCheckpoint :=
  summary ← summarize_checkpoint live line_index;
  mret (mkStored summary live source_digest).

Definition belongs_to_source (self : StoredLexCheckpoint) (source : list Z) (observed : ContentDigest) : bool :=
  if (len source <? position (live self)) || negb (is_char_boundary source (position (live self)))
  then false
  else bool_decide (source_digest self = observed) && is_valid_for (live self) source.

Definition checked_sub (x y : Z) : option Z := if y <=? x then Some (x - y) else None.

Definition prepare_for_edit (self : StoredLexCheckpoint) (old_source : list Z) (observed : ContentDigest)
    (edit : Edit) : option LexerCheckpoint :=
  if (start_byte edit <? byte (summary self)) || is_timeout_sensitive (live self) then None
  else if negb (belongs_to_source self old_source observed) then None
  else
    old_len ← checked_sub (old_end_byte edit) (start_byte edit);
    let '(ok, live) := try_apply_edit (live self) (start_byte edit) old_len (len (new_text edit)) in
    if ok then Some live else None.

Definition transform_for_generation (self : StoredLexCheckpoint) (old_source new_source : list Z)
    (observed new_digest : ContentDigest) (edit : Edit) : option StoredLexCheckpoint :=
  if (start_byte edit <=? byte (summary self)) || negb (belongs_to_source self old_source observed)
  then None
  else
    old_len ← checked_sub (old_end_byte edit) (start_byte edit);
    let '(ok, live) := try_apply_edit (live self) (start_byte edit) old_len (len (new_text edit)) in
    if negb ok || negb (is_valid_for live new_source) then None
    else Some (mkStored (summary self) live new_digest).

Definition push_summary (summaries : list LexCheckpoint) (checkpoint : LexerCheckpoint)
    (line_index : ByteLineIndex.t) : outcome (list LexCheckpoint) :=
  if from_option (fun s => negb (byte s =? position checkpoint)) true (last summaries) then
    s ← summarize_checkpoint checkpoint line_index; mret (summaries ++ [s])
  else mret summaries.

(** [compact_stored_checkpoints]: the origin, every second entry, the last. *)
Fixpoint compact_from {A} (index original_len : Z) (l : list A) : list A :=
  match l with
  | [] => []
  | c :: l =>
    if (index =? 0) || (index `mod` 2 =? 0) || (index + 1 =? original_len)
    then c :: compact_from (index + 1) original_len l
    else compact_from (index + 1) original_len l
  end.
Definition compact_stored_checkpoints (checkpoints : list StoredLexCheckpoint) : list StoredLexCheckpoint :=
  compact_from 0 (len checkpoints) checkpoints.

Definition retain (checkpoints : list StoredLexCheckpoint) (spacing : Z) (l : LexerCheckpoint) : bool :=
  match last checkpoints with
  | None => true
  | Some previous =>
    (spacing <=? saturating_sub (position l) (position (live previous))) ||
    behavior_state_changed (live previous) l
  end.

Definition push_stored_checkpoint (source_digest : ContentDigest) (line_index : ByteLineIndex.t)
    (checkpoints : list StoredLexCheckpoint) (spacing : Z) (l : LexerCheckpoint)
    : outcome (list StoredLexCheckpoint * Z) :=
  if from_option (fun stored => position (live stored) =? position l) false (last checkpoints)
  then mret (checkpoints, spacing)
  else if negb (retain checkpoints spacing l) then mret (checkpoints, spacing)
  else
    let '(checkpoints, spacing) :=
      if MAX_STORED_LEX_CHECKPOINTS <=? len checkpoints
      then (compact_stored_checkpoints checkpoints, Z.max 1 (Z.min usize_max (spacing * 2)))
      else (checkpoints, spacing) in
    s ← capture_stored source_digest l line_index;
    mret (checkpoints ++ [s], spacing).

Section incremental.
Context `{Tokenize} `{Ast Node} {Rope ParseCheckpoint : Type}.
Variable sha256 : list Z -> list Z.
(** [Parser::new(source).parse_with_recovery()]. *)
Variable parse : list Z -> ParseOutput Node.
(** [Self::create_parse_checkpoints]: the walk of the tree. *)
Variable create_parse_checkpoints : Node -> list ParseCheckpoint.
(** [Rope::from_str]. *)
Variable rope_from_str : list Z -> Rope.

(** ** Lexing *)

Record LexedSource := mkLexed {
  lexed_tokens : list Token;
  lexed_checkpoints : list LexCheckpoint;
  lexed_stored : list StoredLexCheckpoint;
}.
(** The accumulators of the loops: the output so far and the spacing. *)
Definition observe (digest : ContentDigest) (line_index : ByteLineIndex.t) (lexer : PerlLexer)
    (acc : LexedSource * Z) : outcome (LexedSource * Z) :=
  l ← checkpoint sha256 lexer;
  summaries ← push_summary (lexed_checkpoints acc.1) l line_index;
  '(stored, spacing) ← push_stored_checkpoint digest line_index (lexed_stored acc.1) acc.2 l;
  mret (mkLexed (lexed_tokens acc.1) summaries stored, spacing).

(** The loop of [lex_source_with_checkpoints] ([last_position = None]) and of
    [lex_from_live_checkpoint], which also requires every token to end after
    the last position: the second component is the byte of its [bail!]. *)
Fixpoint lex_loop (fuel : nat) (digest : ContentDigest) (line_index : ByteLineIndex.t)
    (lexer : PerlLexer) (last_position : option Z) (acc : LexedSource * Z)
    : outcome (LexedSource * option Z) :=
  match fuel with
  | O => Panic
  | S fuel =>
    acc ← observe digest line_index lexer acc;
    match next_token lexer with
    | (None, _) => mret (acc.1, None)
    | (Some token, lexer) =>
      if is_eof (token_type token) then
        acc ← observe digest line_index lexer acc; mret (acc.1, None)
      else if from_option (fun p => end_ token <=? p) false last_position
      then mret (acc.1, Some (start token))
      else
        let acc := (mkLexed (lexed_tokens acc.1 ++ [token]) (lexed_checkpoints acc.1)
                      (lexed_stored acc.1), acc.2) in
        lex_loop fuel digest line_index lexer (last_position ≫= fun _ => Some (end_ token)) acc
    end
  end.
Definition lex_fuel (lexer : PerlLexer) : nat := S (progress lexer).

Definition lex_source_with_checkpoints (source : list Z) (line_index : ByteLineIndex.t)
    : outcome LexedSource :=
  digest ← of_bytes sha256 source;
  let lexer := lexer_new source in
  '(lexed, _) ← lex_loop (lex_fuel lexer) digest line_index lexer None
                  (mkLexed [] [] [], INITIAL_CHECKPOINT_SPACING);
  mret lexed.

Fixpoint capture_loop (fuel : nat) (lexer : PerlLexer) (boundary : Z) : outcome (option LexerCheckpoint) :=
  match fuel with
  | O => Panic
  | S fuel =>
    c ← checkpoint sha256 lexer;
    if position c =? boundary then mret (if is_timeout_sensitive c then None else Some c)
    else if boundary <? position c then mret None
    else match next_token lexer with
    | (Some token, lexer) => if is_eof (token_type token) then mret None else capture_loop fuel lexer boundary
    | (None, _) => mret None
    end
  end.
Definition capture_live_checkpoint (source : list Z) (boundary : Z) : outcome (option LexerCheckpoint) :=
  capture_loop (lex_fuel (lexer_new source)) (lexer_new source) boundary.

Definition lex_from_live_checkpoint (source : list Z) (line_index : ByteLineIndex.t) (c : LexerCheckpoint)
    : outcome (result IncrementalError LexedSource) :=
  '(r, c) ← rebind_to_source sha256 c source Unknown;
  match r with
  | Err _ => mret (Err CheckpointNotValid)
  | Ok _ =>
    '(r, lexer) ← restore sha256 (lexer_new source) c;
    match r with
    | Err _ => mret (Err CheckpointNotValid)
    | Ok _ =>
      digest ← of_bytes sha256 source;
      '(lexed, stuck) ← lex_loop (lex_fuel lexer) digest line_index lexer (Some (position c))
                          (mkLexed [] [] [], INITIAL_CHECKPOINT_SPACING);
      match stuck with
      | Some at_byte => mret (Err (LexerDidNotAdvance at_byte))
      | None => mret (Ok lexed)
      end
    end
  end.

(** ** The committed state *)

Record IncrementalState := mkState {
  source : list Z;
  rope : Rope;
  line_index : ByteLineIndex.t;
  lex_checkpoints : list LexCheckpoint;
  parse_checkpoints : list ParseCheckpoint;
  snapshot : ParseSnapshot Node;
  tokens : list Token;
  stored_lex_checkpoints : list StoredLexCheckpoint;
}.

Definition new (fresh : Z) (source : list Z) : outcome IncrementalState :=
  let line_index := ByteLineIndex.new source in
  let parse_output := parse source in
  snapshot ← from_output sha256 fresh source INITIAL Fresh parse_output;
  lexed ← lex_source_with_checkpoints source line_index;
  mret (mkState source (rope_from_str source) line_index (lexed_checkpoints lexed)
          (create_parse_checkpoints (ast (Snapshot.parse_output snapshot))) snapshot
          (lexed_tokens lexed) (lexed_stored lexed)).

Definition find_lex_checkpoint (self : IncrementalState) (b : Z) : option LexCheckpoint :=
  snd <$> list_find (fun cp => byte cp <= b) (reverse (lex_checkpoints self)).

Definition replace_source_text (self : IncrementalState) (src : list Z) : IncrementalState :=
  mkState src (rope_from_str src) (ByteLineIndex.new src) (lex_checkpoints self)
    (parse_checkpoints self) (snapshot self) (tokens self) (stored_lex_checkpoints self).
Definition replace_lex_state (self : IncrementalState) (tokens : list Token)
    (lex_checkpoints : list LexCheckpoint) (stored_lex_checkpoints : list StoredLexCheckpoint)
    : IncrementalState :=
  mkState (source self) (rope self) (line_index self) lex_checkpoints (parse_checkpoints self)
    (snapshot self) tokens stored_lex_checkpoints.

Definition refresh_parse_output (self : IncrementalState) (strategy : ParseSnapshotStrategy)
    : outcome (result IncrementalError IncrementalState) :=
  match checked_next (generation (snapshot self)) with
  | None => mret (Err GenerationExhausted)
  | Some generation =>
    let previous_geometry_subject := subject (source_geometry (snapshot self)) in
    let parse_output := parse (source self) in
    snapshot ← from_output_for_existing_instance sha256 (source self) generation strategy parse_output
                 previous_geometry_subject;
    mret (Ok (mkState (source self) (rope self) (line_index self) (lex_checkpoints self)
      (create_parse_checkpoints (ast (Snapshot.parse_output snapshot))) snapshot (tokens self)
      (stored_lex_checkpoints self)))
  end.

(** ** Reparsing *)

Record ReparseResult := mkReparse {
  changed_ranges : list (Z * Z);
  result_snapshot : ParseSnapshot Node;
  lex_restart : LexRestartReport;
  reparsed_bytes : Z;
  reused_tokens : Z;
  token_count : Z;
}.
Record SingleEditReparse := mkSingle {
  single_range : Z * Z;
  single_lex_restart : LexRestartReport;
  single_token_count : Z;
}.
Record SelectedRestart := mkSelected {
  live_checkpoint : LexerCheckpoint;
  prefix_bytes_replayed : Z;
}.

(** [apply_text_edit_to_state] on the whole state: the text part is the one
    of the batch, and [replace_source_text] rebuilds what derives from it. *)
Definition apply_text_edit (state : IncrementalState) (edit : Edit)
    : outcome (result IncrementalError IncrementalState) :=
  r ← apply_text_edit_to_state (mkTextState (source state) (line_index state)) edit;
  mret (match r with
        | Ok t => Ok (replace_source_text state (Batch.source t))
        | Err e => Err (InvalidBatch e)
        end).
Fixpoint apply_text_edits_to (state : IncrementalState) (edits_descending : list Edit)
    : outcome (result IncrementalError IncrementalState) :=
  match edits_descending with
  | [] => mret (Ok state)
  | e :: es => state ←? apply_text_edit state e; apply_text_edits_to state es
  end.

Definition restart_boundary (state : IncrementalState) (edit : Edit) : Z :=
  match list_find (fun token => start_byte edit <= end_ token) (tokens state) with
  | Some (_, token) => start token
  | None => start_byte edit
  end.

(** [iter().rev().filter(..).find_map(..)] *)
Fixpoint find_stored (stored_reversed : list StoredLexCheckpoint) (boundary : Z)
    (old_source : list Z) (old_digest : ContentDigest) (edit : Edit) : option LexerCheckpoint :=
  match stored_reversed with
  | [] => None
  | stored :: rest =>
    if byte (summary stored) <=? boundary then
      match prepare_for_edit stored old_source old_digest edit with
      | Some l => Some l
      | None => find_stored rest boundary old_source old_digest edit
      end
    else find_stored rest boundary old_source old_digest edit
  end.

Definition select_restart (old_source : list Z) (old_digest : ContentDigest) (state : IncrementalState)
    (edit : Edit) : outcome (result IncrementalError SelectedRestart) :=
  let boundary := restart_boundary state edit in
  match find_stored (reverse (stored_lex_checkpoints state)) boundary old_source old_digest edit with
  | Some l => mret (Ok (mkSelected l 0))
  | None =>
    match find_lex_checkpoint state boundary with
    | None => mret (Err NoRestartBoundary)
    | Some summary =>
      l ← capture_live_checkpoint old_source (byte summary);
      match l with
      | None => mret (Err CannotReproduceLexerState)
      | Some l =>
        match checked_sub (old_end_byte edit) (start_byte edit) with
        | None => mret (Err EditEndPrecedesStart)
        | Some old_len =>
          let '(ok, l) := try_apply_edit l (start_byte edit) old_len (len (new_text edit)) in
          if ok then mret (Ok (mkSelected l (position l))) else mret (Err EditInvalidatedLexerState)
        end
      end
    end
  end.

(** [iter().take_while(p)] *)
Fixpoint take_while {A} (p : A -> bool) (l : list A) : list A :=
  match l with [] => [] | x :: l => if p x then x :: take_while p l else [] end.

Definition apply_single_edit (state : IncrementalState) (edit : Edit)
    : outcome (result IncrementalError (SingleEditReparse * IncrementalState)) :=
  let old := state in
  let old_source := source state in
  old_digest ← of_bytes sha256 old_source;
  selected ←? select_restart old_source old_digest state edit;
  let restart_byte := position (live_checkpoint selected) in
  let reused_prefix_tokens := len (take_while (fun token => start token <? restart_byte) (tokens state)) in
  state ←? apply_text_edit state edit;
  new_digest ← of_bytes sha256 (source state);
  lexed ←? lex_from_live_checkpoint (source state) (line_index state) (live_checkpoint selected);
  let carried := omap (fun c => transform_for_generation c old_source (source state) old_digest new_digest edit)
                   (take_while (fun c => byte (summary c) <? restart_byte) (stored_lex_checkpoints old)) in
  let stored_checkpoints := carried ++ lexed_stored lexed in
  let new_tokens := ztake reused_prefix_tokens (tokens old) ++ lexed_tokens lexed in
  let checkpoints := take_while (fun c => byte c <? restart_byte) (lex_checkpoints old)
                       ++ lexed_checkpoints lexed in
  let state := replace_lex_state state new_tokens checkpoints stored_checkpoints in
  let strategy := if prefix_bytes_replayed selected =? 0 then StoredCheckpointToEof
                  else LiveCheckpointToEof in
  let lex_restart := mkReport strategy restart_byte (prefix_bytes_replayed selected)
    (saturating_sub (len (source state)) restart_byte) reused_prefix_tokens 0
    (len (stored_lex_checkpoints state)) in
  mret (Ok (mkSingle (restart_byte, len (source state)) lex_restart
              (len (tokens state)), state)).

Definition full_reparse (state : IncrementalState)
    : outcome (result IncrementalError (ReparseResult * IncrementalState)) :=
  state ←? refresh_parse_output state IncrementalFullFallback;
  let source_len := len (source state) in
  lexed ← lex_source_with_checkpoints (source state) (line_index state);
  let state := replace_lex_state state (lexed_tokens lexed) (lexed_checkpoints lexed) (lexed_stored lexed) in
  let lex_restart := mkReport FullRelex 0 0 source_len 0 0 (len (stored_lex_checkpoints state)) in
  mret (Ok (mkReparse [(0, source_len)] (snapshot state) lex_restart source_len
              (reused_tokens_of lex_restart) (len (tokens state)), state)).

Definition unchanged_result (state : IncrementalState) : ReparseResult :=
  let lex_restart := mkReport Unchanged (len (source state)) 0 0 (len (tokens state)) 0
    (len (stored_lex_checkpoints state)) in
  mkReparse [] (snapshot state) lex_restart 0 (reused_tokens_of lex_restart) (len (tokens state)).

(** The result and the state afterwards: the candidate is published only on
    success. *)
Definition full_reparse_after_edits (state : IncrementalState) (edits_descending : list Edit)
    : outcome (result IncrementalError ReparseResult * IncrementalState) :=
  r ← (candidate ←? apply_text_edits_to state edits_descending; full_reparse candidate);
  mret (match r with
        | Ok (result, candidate) => (Ok result, candidate)
        | Err e => (Err e, state)
        end).

Definition newline_count (s : list Z) : Z := len (filter (fun b => b = LF) s).

Definition apply_one (state : IncrementalState) (edit : Edit) (sorted_edits : list Edit)
    : outcome (result IncrementalError ReparseResult * IncrementalState) :=
  if (1024 <? touched_bytes edit) || (10 <? newline_count (new_text edit))
  then full_reparse_after_edits state sorted_edits
  else
    r ← apply_single_edit state edit;
    match r with
    | Err _ => full_reparse_after_edits state sorted_edits
    | Ok (reparse, candidate) =>
      r ← refresh_parse_output candidate IncrementalTokenRestartThenFullParse;
      mret (match r with
            | Err e => (Err e, state)
            | Ok candidate =>
              (Ok (mkReparse [single_range reparse] (snapshot candidate) (single_lex_restart reparse)
                     (len (source candidate)) (reused_tokens_of (single_lex_restart reparse))
                     (single_token_count reparse)), candidate)
            end)
    end.

Definition apply_edits (state : IncrementalState) (edits : list Edit)
    : outcome (result IncrementalError ReparseResult * IncrementalState) :=
  match validate_edits (source state) edits with
  | Err e => mret (Err (InvalidBatch e), state)
  | Ok total_changed =>
    if bool_decide (edits = []) then mret (Ok (unchanged_result state), state)
    else
      let sorted_edits := reverse (sort_by start_le edits) in
      if MAX_EDIT_SIZE <? total_changed then full_reparse_after_edits state sorted_edits
      else match sorted_edits with
      | [edit] => apply_one state edit sorted_edits
      | _ => full_reparse_after_edits state sorted_edits
      end
  end.
End incremental.

(** ** Lemmas: compaction and retention *)

(** Every second entry from an even index, and the last. *)
Lemma compact_from_len {A} index n (l : list A) :
  0 <= index -> n = index + len l ->
  2 * len (compact_from index n l) <= len l + 2 + (1 - index `mod` 2).
Proof.
  revert index. induction l as [|c l IH]; intros index Hi Hn; simpl.
  - change (len (@nil A)) with 0. dlia.
  - rewrite len_cons in *. specialize (IH (index + 1)). pose proof (len_nonneg l).
    destruct (Z.eqb_spec index 0) as [->|H0]; simpl.
    { rewrite len_cons. specialize (IH ltac:(lia) ltac:(lia)). dlia. }
    destruct (Z.eqb_spec (index `mod` 2) 0) as [He|Ho]; simpl.
    { rewrite len_cons. specialize (IH ltac:(lia) ltac:(lia)). dlia. }
    destruct (Z.eqb_spec (index + 1) n) as [E|Hne].
    + assert (l = []) as -> by (apply len_zero_nil; lia). rewrite len_cons. simpl. change (len (@nil A)) with 0 in *. dlia.
    + specialize (IH ltac:(lia) ltac:(lia)). dlia.
Qed.

Lemma compact_from_subset {A} index n (l : list A) : compact_from index n l ⊆ l.
Proof.
  revert index. induction l as [|c l IH]; intros index; simpl; [done|].
  specialize (IH (index + 1)). case_match; set_solver.
Qed.

Lemma compact_len l : 2 * len (compact_stored_checkpoints l) <= len l + 3.
Proof.
  unfold compact_stored_checkpoints. pose proof (compact_from_len 0 (len l) l). 
  change (0 `mod` 2) with 0 in *. lia.
Qed.
Lemma compact_head s l : exists l', compact_stored_checkpoints (s :: l) = s :: l'.
Proof. unfold compact_stored_checkpoints. simpl. by eexists. Qed.

(** A checkpoint is retained whenever it moved: the replay states compared by
    [behavior_state_changed] include the position. *)
Lemma retain_moved l spacing c :
  from_option (fun s => negb (position (live s) =? position c)) true (last l) = true ->
  retain l spacing c = true.
Proof.
  unfold retain. destruct (last l) as [s|]; [|done]. simpl. intros H.
  apply orb_true_iff. right. unfold behavior_state_changed. case_bool_decide as E; [|done].
  unfold position in H. rewrite E in H. by rewrite Z.eqb_refl in H.
Qed.

Lemma byte_to_position_total t b :
  exists p, ByteLineIndex.byte_to_position (ByteLineIndex.new t) b = Ret p.
Proof.
  unfold ByteLineIndex.byte_to_position. set (ls := ByteLineIndex.line_starts _).
  assert (1 <= len ls) as Hl.
  { unfold ls, ByteLineIndex.new. simpl. rewrite len_cons.
    pose proof (len_nonneg (ByteLineIndex.new_loop (char_indices t))). lia. }
  set (b' := Z.min b _).
  destruct (zget_lt_Some ls (Z.min (LineIndex.line_of ls b') (saturating_sub (len ls) 1))) as [x Hx].
  - assert (0 <= LineIndex.line_of ls b') as Hn.
    { unfold LineIndex.line_of, binary_search, saturating_sub.
      pose proof (partition_point_bounds (fun y => y <? b') ls).
      destruct (zget ls _); [destruct (_ =? _)|]; lia. }
    unfold saturating_sub. lia.
  - rewrite Hx. by eexists.
Qed.

(** A stored checkpoint of the source with this digest, captured from a lexer
    of the default construction. *)
Definition native (c : LexerCheckpoint) : Prop :=
  same_construction (identity c) (lexer_new []) /\ invalidated c = false /\ live_boundary c = true /\
  Replay.current_pos (replay c) = Spans.Position.start.
Definition stored_ok (d : ContentDigest) (s : StoredLexCheckpoint) : Prop :=
  source_digest s = d /\ byte (summary s) = position (live s) /\ native (live s).

Lemma push_stored_spec t d stored spacing c :
  Forall (stored_ok d) stored -> len stored <= MAX_STORED_LEX_CHECKPOINTS -> native c ->
  exists stored' spacing',
    push_stored_checkpoint d (ByteLineIndex.new t) stored spacing c = Ret (stored', spacing') /\
    Forall (stored_ok d) stored' /\ len stored' <= MAX_STORED_LEX_CHECKPOINTS /\
    match stored with
    | s :: _ => exists rest, stored' = s :: rest
    | [] => exists s, stored' = [s] /\ live s = c
    end.
Proof.
  intros Hs Hl Hc. unfold push_stored_checkpoint.
  destruct (from_option (fun s => position (live s) =? position c) false (last stored)) eqn:El.
  { exists stored, spacing. split_and!; try done. destruct stored; [done|]. by eexists. }
  rewrite retain_moved; [|by destruct (last stored); simpl in *; [rewrite El|]]. simpl.
  set (k := if _ <=? len stored then _ else _).
  assert (Forall (stored_ok d) k.1 /\ len k.1 < MAX_STORED_LEX_CHECKPOINTS /\
    match stored with s :: _ => exists rest, k.1 = s :: rest | [] => k.1 = [] end) as (K1 & K2 & K3).
  { unfold k, MAX_STORED_LEX_CHECKPOINTS in *. destruct (Z.leb_spec 4096 (len stored)); simpl.
    - pose proof (compact_len stored). split_and!; [|lia|].
      + rewrite Forall_forall in *. intros s Hs'%compact_from_subset. by apply Hs.
      + destruct stored as [|s rest]; [done|]. apply compact_head.
    - split_and!; [done|lia|]. destruct stored; [done|]. by eexists. }
  destruct k as [stored' spacing']. simpl in *.
  unfold capture_stored, summarize_checkpoint.
  destruct (byte_to_position_total t (position c)) as [[ln col] ->]. simpl.
  eexists _, _. split; [done|]. split_and!.
  - apply Forall_app. split; [done|]. apply Forall_singleton. split_and!; [done|done|exact Hc].
  - rewrite len_app. change (len [_]) with 1. lia.
  - destruct stored as [|s rest]; [subst; by eexists|]. destruct K3 as [rest' ->]. by eexists.
Qed.

(** ** Lemmas: lexing *)

Definition native_lexer (l : PerlLexer) : Prop :=
  Lexer.config l = config_default /\ Lexer.emit_heredoc_body_tokens l = false /\
  Lexer.qw_recovery_enabled l = true /\ Lexer.logical_source l = None /\
  Lexer.generation l = Unknown /\ Lexer.current_pos l = Spans.Position.start.

Lemma native_new src : native_lexer (lexer_new src).
Proof. done. Qed.

Lemma native_same l l' : same_lexer l l' -> native_lexer l -> native_lexer l'.
Proof. intros (_ & ? & ? & ? & ? & ? & ?). unfold native_lexer. intuition congruence. Qed.

Lemma native_restored src r : Replay.current_pos r = Spans.Position.start -> native_lexer (restored (lexer_new src) r).
Proof. by intros. Qed.

Section lexing.
Context `{TokenizeLaws} (sha256 : list Z -> list Z).

Lemma native_checkpoint l c : native_lexer l -> checkpoint sha256 l = Ret c -> native c.
Proof.
  intros (N1 & N2 & N3 & N4 & N5 & N6) Hc. apply checkpoint_inv in Hc as [_ ->].
  split; [|done]. unfold same_construction. simpl. rewrite N1, N2, N3, N4, N5. by split_and!.
Qed.

Lemma checkpoint_total l d : of_bytes sha256 (Lexer.input l) = Ret d -> exists c, checkpoint sha256 l = Ret c.
Proof. unfold checkpoint. intros ->. by eexists. Qed.

Lemma push_summary_total t summaries c :
  exists k, push_summary summaries c (ByteLineIndex.new t) = Ret k.
Proof.
  unfold push_summary, summarize_checkpoint. case_match; [|by eexists].
  destruct (byte_to_position_total t (position c)) as [[ln col] ->]. by eexists.
Qed.

(** What the loops keep of their accumulator. *)
Record acc_ok (d : ContentDigest) (x : LexedSource) : Prop := {
  acc_stored : Forall (stored_ok d) (lexed_stored x);
  acc_bounded : len (lexed_stored x) <= MAX_STORED_LEX_CHECKPOINTS;
  acc_tokens : Forall (fun tok => 0 <= start tok) (lexed_tokens x);
}.
(** The first stored checkpoint: the accumulator's, or the one the lexer is at. *)
Definition first_stored (l : PerlLexer) (x y : LexedSource) : Prop :=
  match lexed_stored x with
  | s :: _ => exists rest, lexed_stored y = s :: rest
  | [] => exists s rest, lexed_stored y = s :: rest /\ checkpoint sha256 l = Ret (live s)
  end.

Lemma observe_spec t d d' l acc :
  native_lexer l -> of_bytes sha256 (Lexer.input l) = Ret d' -> acc_ok d acc.1 ->
  exists acc', observe sha256 d (ByteLineIndex.new t) l acc = Ret acc' /\
    acc_ok d acc'.1 /\ first_stored l acc.1 acc'.1 /\ lexed_stored acc'.1 <> [] /\
    lexed_tokens acc'.1 = lexed_tokens acc.1.
Proof.
  intros Hl Hd [A1 A2 A3]. unfold observe, first_stored.
  destruct (checkpoint_total l d' Hd) as [c Hc]. rewrite Hc. simpl.
  destruct (push_summary_total t (lexed_checkpoints acc.1) c) as [k ->]. simpl.
  destruct (push_stored_spec t d (lexed_stored acc.1) acc.2 c A1 A2 (native_checkpoint l c Hl Hc))
    as (stored' & spacing' & -> & B1 & B2 & B3). simpl.
  eexists. split; [done|]. split; [by constructor|]. simpl. split_and!; [| |done].
  - destruct (lexed_stored acc.1) as [|s rest]; [|done].
    destruct B3 as (s & -> & Es). exists s, []. by rewrite Es.
  - destruct (lexed_stored acc.1); [destruct B3 as (? & -> & _)|destruct B3 as (? & ->)]; done.
Qed.

Lemma first_stored_trans l l' x y z :
  first_stored l x y -> lexed_stored y <> [] -> first_stored l' y z -> first_stored l x z.
Proof.
  unfold first_stored. intros Hxy Hy Hyz. destruct (lexed_stored y) as [|s' rest']; [done|].
  destruct (lexed_stored x) as [|s rest].
  - destruct Hxy as (s0 & r0 & E & Hc). injection E as -> ->. destruct Hyz as [r ->]. by eexists _, _.
  - destruct Hxy as (r0 & E). injection E as -> ->. done.
Qed.

Lemma lex_loop_spec t d d' fuel l last_position acc :
  (progress l < fuel)%nat -> native_lexer l -> of_bytes sha256 (Lexer.input l) = Ret d' -> acc_ok d acc.1 ->
  exists lexed stuck, lex_loop sha256 fuel d (ByteLineIndex.new t) l last_position acc = Ret (lexed, stuck) /\
    acc_ok d lexed /\ first_stored l acc.1 lexed /\ (last_position = None -> stuck = None) /\
    (exists new, lexed_tokens lexed = lexed_tokens acc.1 ++ new).
Proof using Type*.
  revert l last_position acc. induction fuel as [|fuel IH]; intros l last_position acc Hf Hl Hd Ha; [lia|].
  simpl. destruct (observe_spec t d d' l acc Hl Hd Ha) as (acc' & -> & Ha' & Hfirst & Hne & Etok). simpl.
  pose proof (next_token_same l) as Hsame. pose proof (next_token_progress l) as Hprog.
  pose proof (next_token_start l) as Hstart.
  destruct (next_token l) as [[tok|] l']; simpl in *.
  2: { exists acc'.1, None. split_and!; try done. exists []. by rewrite app_nil_r. }
  pose proof (native_same _ _ Hsame Hl) as Hl'.
  assert (of_bytes sha256 (Lexer.input l') = Ret d') as Hd' by (by destruct Hsame as [-> _]).
  destruct (is_eof (token_type tok)) eqn:Eeof.
  - destruct (observe_spec t d d' l' acc' Hl' Hd' Ha') as (acc2 & -> & Ha2 & Hf2 & _ & Etok2). simpl.
    exists acc2.1, None. split_and!; try done; [by eapply first_stored_trans|].
    exists []. by rewrite app_nil_r, Etok2.
  - destruct (from_option (fun p => end_ tok <=? p) false last_position) eqn:Est.
    + exists acc'.1, (Some (start tok)). split_and!; try done; [by intros ->|].
      exists []. by rewrite app_nil_r.
    + destruct (IH l' (last_position ≫= fun _ => Some (end_ tok))
        (mkLexed (lexed_tokens acc'.1 ++ [tok]) (lexed_checkpoints acc'.1) (lexed_stored acc'.1), acc'.2))
        as (lexed & stuck & -> & R1 & R2 & R3 & new & R4).
      * specialize (Hprog _ eq_refl Eeof). lia.
      * done.
      * done.
      * destruct Ha' as [B1 B2 B3]. constructor; simpl; try done.
        apply Forall_app. split; [done|]. apply Forall_singleton. by apply Hstart.
      * exists lexed, stuck. split_and!; try done.
        -- eapply first_stored_trans; [exact Hfirst|done|exact R2].
        -- intros ->. by apply R3.
        -- exists (tok :: new). rewrite R4. simpl. by rewrite <- app_assoc, Etok.
Qed.

Lemma acc_ok_empty d : acc_ok d (mkLexed [] [] []).
Proof. constructor; simpl; [constructor|by vm_compute|constructor]. Qed.

(** A complete lex: it returns, and its first stored checkpoint is the origin. *)
Lemma lex_source_spec src d :
  of_bytes sha256 src = Ret d ->
  exists lexed, lex_source_with_checkpoints sha256 src (ByteLineIndex.new src) = Ret lexed /\
    acc_ok d lexed /\
    (exists s rest, lexed_stored lexed = s :: rest /\ checkpoint sha256 (lexer_new src) = Ret (live s)).
Proof using Type*.
  intros Hd. unfold lex_source_with_checkpoints, lex_fuel. rewrite Hd. simpl.
  destruct (lex_loop_spec src d d (S (progress (lexer_new src))) (lexer_new src) None
    (mkLexed [] [] [], INITIAL_CHECKPOINT_SPACING)) as (lexed & stuck & E & Ha & Hf & _);
    [lia|apply native_new|done|apply acc_ok_empty|].
  simpl in E. rewrite E. simpl. by exists lexed.
Qed.

Lemma capture_loop_total fuel l boundary d :
  (progress l < fuel)%nat -> of_bytes sha256 (Lexer.input l) = Ret d ->
  exists r, capture_loop sha256 fuel l boundary = Ret r.
Proof using Type*.
  revert l. induction fuel as [|fuel IH]; intros l Hf Hd; [lia|]. simpl.
  destruct (checkpoint_total l d Hd) as [c ->]. simpl.
  destruct (position c =? boundary); [by eexists|]. destruct (boundary <? position c); [by eexists|].
  pose proof (next_token_same l) as Hsame. pose proof (next_token_progress l) as Hprog.
  destruct (next_token l) as [[tok|] l']; simpl in *; [|by eexists].
  destruct (is_eof (token_type tok)) eqn:Eeof; [by eexists|].
  apply IH; [specialize (Hprog _ eq_refl Eeof); lia|]. by destruct Hsame as [-> _].
Qed.
End lexing.

(** ** Lemmas: checkpoints that always restart *)

(** A checkpoint at byte 0 that every edit survives. *)
Record origin_like (c : LexerCheckpoint) (src : list Z) : Prop := {
  origin_usable : usable c src;
  origin_position : position c = 0;
  origin_pending : Replay.pending_heredocs (replay c) = [];
  origin_context : Forall (fun a => a <= 0) (context_anchors (Replay.context (replay c)));
}.

Lemma restored_restartable t c :
  complete c -> is_valid_for c (Lexer.input t) = true -> restartable (restored t (replay c)).
Proof.
  intros [C1 C2 C3 C4 C5] Hv. apply valid_offsets in Hv as (_ & H1 & H2 & H3 & H4 & H5 & H6 & _).
  constructor; simpl.
  - intros (Hm & Hq & Hd). apply C3. split_and!; [|by destruct (Replay.current_quote_op _)|done].
    by destruct (Replay.context (replay c)).
  - rewrite !Forall_cons. split_and!; [done|done|done|].
    apply Forall_fmap, Forall_fmap, Forall_forall. intros p Hp. simpl.
    rewrite forallb_forall in H5. apply H5. by apply list_elem_of_In.
  - done.
  - intros q Hq. destruct (Replay.current_quote_op (replay c)) as [q'|]; simplify_eq/=.
    by apply andb_true_iff in H6 as [? ?%Z.leb_le].
Qed.

Lemma captured_origin sha256 l c :
  restartable l -> Lexer.position l = 0 -> Lexer.pending_heredocs l = [] ->
  Lexer.current_pos l = Spans.Position.start -> checkpoint sha256 l = Ret c ->
  origin_like c (Lexer.input l).
Proof.
  intros R Hp Hh Hc Ec. apply checkpoint_inv in Ec as [_ ->].
  match goal with |- origin_like (from_live ?i _) _ =>
    destruct (proj2 (captured_valid l i) R) as [K1 K2] end.
  constructor; simpl; try done.
  - split; [by apply ensure_complete_spec|]. split; [done|]. unfold position. simpl. by rewrite Hc, Hp.
  - by rewrite Hh.
  - unfold capture_context. rewrite Hp. repeat case_bool_decide; by repeat constructor.
Qed.

Lemma new_restartable src : valid_utf8 src -> restartable (lexer_new src).
Proof.
  intros (cs & Hs & ->). assert (offset_is_valid (encode cs) 0 = true) as H0.
  { unfold offset_is_valid. pose proof (len_nonneg (encode cs)). by bcase. }
  constructor; simpl; try done; [naive_solver|by repeat constructor].
Qed.

Section one_edit.
Context (c1 o c3 r : list Z) (e : Edit).
Hypothesis Ho : scalars (c1 ++ o ++ c3).
Hypothesis Hr : scalars r.
Hypothesis Lo : blen (c1 ++ o ++ c3) <= isize_max.
Hypothesis Ln : blen (c1 ++ r ++ c3) <= isize_max.
Hypothesis Es : start_byte e = blen c1.
Hypothesis Ee : old_end_byte e = blen c1 + blen o.
Hypothesis Et : new_text e = encode r.
Notation old := (encode (c1 ++ o ++ c3)).
Notation new := (encode (c1 ++ r ++ c3)).

Lemma edit_old_len : checked_sub (old_end_byte e) (start_byte e) = Some (blen o).
Proof using Es Ee.
  unfold checked_sub. rewrite Es, Ee. pose proof (blen_nonneg o). bcase. f_equal. lia.
Qed.

Lemma stored_placed s d :
  stored_ok d s -> belongs_to_source s old d = true -> placed (live s) old.
Proof using Ho.
  intros (_ & _ & _ & _ & _ & Hc) Hb. unfold belongs_to_source in Hb.
  destruct (_ || _) eqn:E; [done|]. apply orb_false_iff in E as [_ E%negb_false_iff].
  apply andb_true_iff in Hb as [_ Hv]. split; [done|]. rewrite Hc. simpl.
  apply boundary_bounds in E; [lia|done].
Qed.

(** An edit that a placed checkpoint accepts leaves it placed. *)
Lemma accepted_edit c c' :
  placed c old -> position c <= blen c1 ->
  try_apply_edit c (blen c1) (blen o) (blen r) = (true, c') ->
  placed c' new /\ position c' = position c /\ identity c' = identity c /\
  live_boundary c' = live_boundary c /\ (replay c' = replay c \/ carried c1 o r (replay c) (replay c')).
Proof using Ho Hr Lo Ln.
  intros Hp Hle E. destruct (decide (Exists (lost c1 o) (anchors (replay c)))) as [Hl|Hl].
  - exfalso. pose proof (transform_replay_prefix c1 o c3 r Ho Hr Lo Ln c Hp Hle) as Ht.
    unfold try_apply_edit in E. destruct (invalidated c); [done|].
    destruct (Z.eqb_spec (blen o) 0) as [Ez|].
    + apply Exists_exists in Hl as (a & _ & Ha). unfold lost in Ha. lia.
    + simpl in E. destruct (transform_replay _ _ _ _); [by destruct Ht|done].
  - destruct (try_apply_edit_placed c1 o c3 r Ho Hr Lo Ln c Hp Hle Hl) as (k & Ek & Hk).
    rewrite Ek in E. by injection E as <-.
Qed.

Lemma accepted_native c c' :
  placed c old -> position c <= blen c1 -> native c ->
  try_apply_edit c (blen c1) (blen o) (blen r) = (true, c') -> native c'.
Proof using Ho Hr Lo Ln.
  intros Hp Hle (N1 & N2 & N3 & N4) E.
  destruct (accepted_edit c c' Hp Hle E) as ((Hv & _) & _ & Ei & El & Er).
  split_and!; [by rewrite Ei|by apply valid_offsets in Hv as [? _]|by rewrite El|].
  destruct Er as [->|(ps & ctx & -> & _)]; done.
Qed.

Lemma accepted_pending c c' :
  placed c old -> position c <= blen c1 -> Replay.pending_heredocs (replay c) = [] ->
  try_apply_edit c (blen c1) (blen o) (blen r) = (true, c') -> Replay.pending_heredocs (replay c') = [].
Proof using Ho Hr Lo Ln.
  intros Hp Hle Hn E. destruct (accepted_edit c c' Hp Hle E) as (_ & _ & _ & _ & Er).
  destruct Er as [->|(ps & ctx & -> & Eps & _)]; [done|]. rewrite Hn in Eps. by injection Eps as <-.
Qed.

(** The origin survives every edit, as an origin of the new text. *)
Lemma origin_survives c :
  origin_like c old -> exists c', try_apply_edit c (blen c1) (blen o) (blen r) = (true, c') /\ origin_like c' new.
Proof using Ho Hr Lo Ln.
  intros [Hu Hp Hn Hx]. pose proof (blen_nonneg c1) as Hc1.
  assert (~ Exists (lost c1 o) (anchors (replay c))) as Hl.
  { unfold anchors. rewrite Hn. simpl. intros (a & Ha & ?)%Exists_exists.
    rewrite Forall_forall in Hx. specialize (Hx a Ha). unfold lost in *. lia. }
  destruct (try_apply_edit_placed c1 o c3 r Ho Hr Lo Ln c (proj2 Hu)) as (c' & E & Hc' & Ep & Ei & El & Er);
    [lia|done|].
  exists c'. split; [done|]. constructor; [|by rewrite Ep| |].
  - split; [|done]. destruct Hc' as [Hv _]. apply valid_offsets in Hv as [Hi _].
    destruct Er as [Er|Er].
    + destruct Hu as [Hc%ensure_complete_spec _]. apply ensure_complete_spec.
      destruct Hc as [? ? ? ? ?]. constructor; rewrite ?Er, ?El, ?Ep; done.
    + destruct (carried_usable c1 o c3 r Ho Hr Lo Ln c (replay c') Hu) as [Hk _]; [lia|done|].
      apply ensure_complete_spec in Hk as [? ? ? ? ?]. apply ensure_complete_spec.
      constructor; rewrite ?El; done.
  - by apply (accepted_pending c c'); [apply Hu|lia|..].
  - destruct Er as [->|(ps & ctx & -> & _ & Ec)]; [done|]. simpl.
    assert (ctx = Replay.context (replay c)) as ->; [|done].
    destruct (Replay.context (replay c)) as [| |s|dl [f|]|]; simpl in *; try (by simplify_eq).
    all: rewrite Forall_singleton in Hx; rewrite (transform_before c1 o r) in Ec by lia; by injection Ec.
Qed.

(** *** Stored checkpoints under the edit *)

Lemma belongs_bounds s d :
  belongs_to_source s old d = true -> source_digest s = d.
Proof using Type.
  unfold belongs_to_source. destruct (_ || _); [done|]. by intros [?%bool_decide_eq_true _]%andb_true_iff.
Qed.

Lemma origin_belongs s d :
  stored_ok d s -> origin_like (live s) old -> belongs_to_source s old d = true.
Proof using Type.
  intros (Hd & _) [[_ [Hv _]] Hp _ _]. unfold belongs_to_source. rewrite Hp.
  pose proof (len_nonneg old). rewrite (proj2 (Z.ltb_ge _ _)) by lia. simpl.
  by rewrite bool_decide_eq_true_2.
Qed.

(** What [prepare_for_edit] yields: a checkpoint at or before the edit, placed
    in the new text, with no heredoc pending. *)
Record prepared (l : LexerCheckpoint) : Prop := {
  prepared_native : native l;
  prepared_placed : placed l new;
  prepared_before : position l <= start_byte e;
  prepared_pending : Replay.pending_heredocs (replay l) = [];
}.

Lemma prepare_spec s d l : stored_ok d s -> prepare_for_edit s old d e = Some l ->
  prepared l /\ position l = position (live s).
Proof using Ho Hr Lo Ln Es Ee Et.
  intros Hs. pose proof Hs as (_ & Hb & Hn). unfold prepare_for_edit.
  destruct (Z.ltb_spec (start_byte e) (byte (summary s))) as [|Hle]; [done|]. simpl.
  destruct (is_timeout_sensitive (live s)) eqn:Ep; [done|].
  destruct (belongs_to_source s old d) eqn:Ebs; [|done]. simpl.
  rewrite edit_old_len. simpl. rewrite Es, Et, len_encode.
  pose proof (stored_placed s d Hs Ebs) as Hp. rewrite Hb, Es in Hle.
  destruct (try_apply_edit _ _ _ _) as [[|] c'] eqn:Ea; [|done]. intros E. injection E as ->.
  destruct (accepted_edit _ _ Hp Hle Ea) as (Hp' & Epos & _).
  assert (Replay.pending_heredocs (replay (live s)) = []) as Hh.
  { unfold is_timeout_sensitive in Ep. apply negb_false_iff in Ep. by apply bool_decide_eq_true in Ep. }
  split; [|done]. constructor; [|done|rewrite Epos, Es; done|].
  - by eapply (accepted_native).
  - by eapply (accepted_pending).
Qed.

Lemma prepare_origin s d : stored_ok d s -> origin_like (live s) old -> exists l, prepare_for_edit s old d e = Some l.
Proof using Ho Hr Lo Ln Es Ee Et.
  intros Hs Hor. pose proof Hs as (_ & Hb & _). pose proof (origin_belongs s d Hs Hor) as Hbs.
  pose proof (origin_position _ _ Hor) as Hp. pose proof (blen_nonneg c1).
  destruct (origin_survives _ Hor) as (c' & Ec & _).
  unfold prepare_for_edit. rewrite Hb, Hp, Es. bcase. simpl.
  unfold is_timeout_sensitive. rewrite (origin_pending _ _ Hor). simpl. rewrite Hbs. simpl.
  rewrite <- Es, edit_old_len, Es. simpl. rewrite Et, len_encode, Ec. by eexists.
Qed.

(** The first stored checkpoint is an origin. *)
Definition anchored (stored : list StoredLexCheckpoint) (src : list Z) : Prop :=
  exists s rest, stored = s :: rest /\ origin_like (live s) src.

Lemma find_stored_spec stored boundary d :
  Forall (stored_ok d) stored ->
  match find_stored stored boundary old d e with
  | Some l => prepared l /\ position l <= boundary
  | None => Forall (fun s => boundary < byte (summary s) \/ prepare_for_edit s old d e = None) stored
  end.
Proof using Ho Hr Lo Ln Es Ee Et.
  induction 1 as [|s stored Hs H IH]; simpl; [constructor|].
  destruct (Z.leb_spec (byte (summary s)) boundary) as [Hle|Hlt].
  - destruct (prepare_for_edit s old d e) as [l|] eqn:El.
    + destruct (prepare_spec s d l Hs El) as [Hl Ep]. split; [done|].
      destruct Hs as (_ & Hb & _). lia.
    + destruct (find_stored stored boundary old d e); [done|]. constructor; [by right|done].
  - destruct (find_stored stored boundary old d e); [done|]. constructor; [by left|done].
Qed.

Lemma anchored_restart stored boundary d :
  Forall (stored_ok d) stored -> anchored stored old -> 0 <= boundary ->
  exists l, find_stored (reverse stored) boundary old d e = Some l /\ prepared l /\ position l <= boundary.
Proof using Ho Hr Lo Ln Es Ee Et.
  intros Hs (s & rest & -> & Hor) Hb.
  pose proof (find_stored_spec (reverse (s :: rest)) boundary d) as H.
  destruct (find_stored _ _ _ _ _) as [l|].
  - exists l. split; [done|]. apply H. by apply Forall_reverse.
  - exfalso. apply Forall_reverse in H; [|by apply Forall_reverse]. rewrite reverse_involutive in H.
    apply Forall_cons in H as [H _]. apply Forall_cons in Hs as [Hs _].
    destruct (prepare_origin s d Hs Hor) as [l El]. rewrite El in H.
    destruct Hs as (_ & Hby & _). rewrite Hby, (origin_position _ _ Hor) in H. destruct H; [lia|done].
Qed.

Lemma transform_spec s d d' s' :
  stored_ok d s -> transform_for_generation s old new d d' e = Some s' ->
  stored_ok d' s' /\ position (live s') = position (live s).
Proof using Ho Hr Lo Ln Es Ee Et.
  intros Hs. pose proof Hs as (_ & Hb & Hn). unfold transform_for_generation.
  destruct (Z.leb_spec (start_byte e) (byte (summary s))) as [|Hlt]; [done|]. simpl.
  destruct (belongs_to_source s old d) eqn:Ebs; [|done]. simpl.
  rewrite edit_old_len. simpl. rewrite Es, Et, len_encode.
  pose proof (stored_placed s d Hs Ebs) as Hp. rewrite Hb, Es in Hlt.
  destruct (try_apply_edit _ _ _ _) as [[|] c'] eqn:Ea; [|done]. simpl.
  destruct (is_valid_for c' new); [|done]. intros E. injection E as <-.
  destruct (accepted_edit _ _ Hp (Z.lt_le_incl _ _ Hlt) Ea) as (_ & Epos & _).
  split; [|done]. split_and!; [done|simpl; congruence|]. simpl.
  eapply (accepted_native); [exact Hp|lia|done|exact Ea].
Qed.

Lemma transform_origin s d d' :
  stored_ok d s -> origin_like (live s) old -> 0 < start_byte e ->
  exists s', transform_for_generation s old new d d' e = Some s' /\ origin_like (live s') new.
Proof using Ho Hr Lo Ln Es Ee Et.
  intros Hs Hor H0. pose proof Hs as (_ & Hb & _). pose proof (origin_belongs s d Hs Hor) as Hbs.
  pose proof (origin_position _ _ Hor) as Hp.
  destruct (origin_survives _ Hor) as (c' & Ec & Hc').
  unfold transform_for_generation. rewrite Hbs, Hb, Hp. bcase. simpl.
  rewrite edit_old_len. simpl. rewrite Es, Et, len_encode, Ec. simpl.
  rewrite (proj1 (proj2 (origin_usable _ _ Hc'))). simpl. by eexists.
Qed.
End one_edit.

(** ** Lemmas: one generation *)

#[local] Opaque lex_loop.

Section generation.
Context `{TokenizeLaws} `{Ast Node} {Rope ParseCheckpoint : Type}.
Context (sha256 : list Z -> list Z) (parse : list Z -> ParseOutput Node).
Context (create_parse_checkpoints : Node -> list ParseCheckpoint) (rope_from_str : list Z -> Rope).
(** A count of recoveries is unsigned. *)
Hypothesis parse_counts : forall s, 0 <= recovered_count (parse s).
Notation State := (IncrementalState (Node := Node) (Rope := Rope) (ParseCheckpoint := ParseCheckpoint)).
Notation apply_edits := (apply_edits sha256 parse create_parse_checkpoints rope_from_str).
Notation full_reparse := (full_reparse sha256 parse create_parse_checkpoints).
Notation refresh := (refresh_parse_output sha256 parse create_parse_checkpoints).

Lemma lex_from_live_spec src d c :
  valid_utf8 src -> of_bytes sha256 src = Ret d -> native c ->
  exists r, lex_from_live_checkpoint sha256 src (ByteLineIndex.new src) c = Ret r /\
    match r with
    | Err _ => True
    | Ok lexed => acc_ok d lexed /\ exists s rest, lexed_stored lexed = s :: rest /\
        (position c = 0 -> Replay.pending_heredocs (replay c) = [] -> origin_like (live s) src)
    end.
Proof using H0.
  intros Hsrc Hd (_ & _ & _ & Hcur). unfold lex_from_live_checkpoint.
  destruct (rebind_cases sha256 c src Unknown d Hd) as [[err ->]|(Hc & Hv & i & ->)];
    [by eexists|]. simpl.
  match goal with |- context [restore _ _ ?k] => set (c' := k) end.
  destruct (validate_restore_total sha256 (lexer_new src) c' d Hd) as [v Ev].
  unfold restore. rewrite Ev. simpl. destruct v as [[]|err]; simpl; [|by eexists].
  set (l := restored (lexer_new src) (replay c)).
  assert (native_lexer l) as Hl by (by apply native_restored).
  rewrite Hd. simpl.
  destruct (lex_loop_spec sha256 src d d (lex_fuel l) l (Some (position c'))
    (mkLexed [] [] [], INITIAL_CHECKPOINT_SPACING)) as (lexed & stuck & -> & Ha & Hf & _);
    [unfold lex_fuel; lia|done|done|apply acc_ok_empty|]. simpl.
  destruct stuck; [by eexists|]. eexists. split; [done|]. split; [done|].
  destruct Hf as (s & rest & Es & Ec). exists s, rest. split; [done|]. intros Hp Hh.
  apply (captured_origin sha256 l (live s)); try done.
  - by apply restored_restartable.
  - unfold l. simpl. by rewrite Hh.
Qed.

(** The state invariant. *)
Record coherent (st : State) : Prop := {
  co_text : valid_utf8 (source st);
  co_index : line_index st = ByteLineIndex.new (source st);
  co_rope : rope st = rope_from_str (source st);
  co_snapshot : validate_against sha256 (snapshot st) (source st) = Ret (Ok tt);
  co_output : Snapshot.parse_output (snapshot st) = parse (source st);
  co_scopes : parse_checkpoints st = create_parse_checkpoints (ast (parse (source st)));
  co_stored : Forall (fun s => of_bytes sha256 (source st) = Ret (source_digest s) /\
      byte (summary s) = position (live s) /\ native (live s)) (stored_lex_checkpoints st);
  co_anchored : anchored (stored_lex_checkpoints st) (source st);
  co_tokens : Forall (fun tok => 0 <= start tok) (tokens st);
}.

Lemma co_digest st : coherent st -> exists d, of_bytes sha256 (source st) = Ret d /\
  Forall (stored_ok d) (stored_lex_checkpoints st).
Proof using Type.
  intros Hco. pose proof (co_anchored _ Hco) as (s & rest & E & _). pose proof (co_stored _ Hco) as Hs.
  rewrite E in *. pose proof Hs as Hs'. apply Forall_cons in Hs' as [(Hd & _) _]. exists (source_digest s).
  split; [done|]. eapply Forall_impl; [exact Hs|]. intros x (Hx & Hb & Hn). split_and!; try done.
  congruence.
Qed.

Lemma stored_of_digest src d l :
  of_bytes sha256 src = Ret d -> Forall (stored_ok d) l ->
  Forall (fun s => of_bytes sha256 src = Ret (source_digest s) /\ byte (summary s) = position (live s) /\
    native (live s)) l.
Proof using Type.
  intros Hd Hl. eapply Forall_impl; [exact Hl|]. by intros x (-> & ? & ?).
Qed.

Lemma lexed_anchored src d :
  valid_utf8 src -> of_bytes sha256 src = Ret d ->
  exists lexed, lex_source_with_checkpoints sha256 src (ByteLineIndex.new src) = Ret lexed /\
    acc_ok d lexed /\ anchored (lexed_stored lexed) src.
Proof using H0.
  intros Hs Hd. destruct (lex_source_spec sha256 src d Hd) as (lexed & E & Ha & s & rest & Es & Ec).
  exists lexed. split_and!; [done|done|]. exists s, rest. split; [done|].
  apply (captured_origin sha256 (lexer_new src) (live s)); try done. by apply new_restartable.
Qed.

Lemma new_spec fresh src :
  valid_utf8 src -> len src <= u32_max ->
  exists st, new sha256 parse create_parse_checkpoints rope_from_str fresh src = Ret st /\ coherent st /\
    source st = src /\ generation (snapshot st) = INITIAL /\
    instance_identity (subject (source_geometry (snapshot st))) = mkInstance fresh /\
    len (stored_lex_checkpoints st) <= MAX_STORED_LEX_CHECKPOINTS.
Proof using H0 parse_counts.
  intros Hs Hl. destruct (of_bytes_short sha256 src Hl) as [d Hd].
  destruct (from_output_valid sha256 fresh src INITIAL Fresh (parse src) None d) as
    (snap & E & Hv & Ho & Hg & _ & _ & Hi); [done|done|].
  destruct (lexed_anchored src d Hs Hd) as (lexed & El & [A1 A2 A3] & Han).
  unfold new, from_output. rewrite E. simpl. rewrite El. simpl.
  eexists. split; [done|]. split; [|done].
  constructor; simpl; try done.
  - by rewrite Ho.
  - by eapply stored_of_digest.
Qed.

Lemma refresh_spec (st : State) strat :
  len (source st) <= u32_max ->
  exists r, refresh st strat = Ret r /\
    match r with
    | Err e => e = GenerationExhausted /\ checked_next (generation (snapshot st)) = None
    | Ok st' =>
      source st' = source st /\ rope st' = rope st /\ line_index st' = line_index st /\
      lex_checkpoints st' = lex_checkpoints st /\ tokens st' = tokens st /\
      stored_lex_checkpoints st' = stored_lex_checkpoints st /\
      validate_against sha256 (snapshot st') (source st) = Ret (Ok tt) /\
      Snapshot.parse_output (snapshot st') = parse (source st) /\
      parse_checkpoints st' = create_parse_checkpoints (ast (parse (source st))) /\
      checked_next (generation (snapshot st)) = Some (generation (snapshot st')) /\
      instance_identity (subject (source_geometry (snapshot st'))) =
        instance_identity (subject (source_geometry (snapshot st))) /\
      strategy (snapshot st') = strat
    end.
Proof using parse_counts.
  intros Hl. unfold refresh_parse_output.
  destruct (checked_next (generation (snapshot st))) as [g|] eqn:Eg; [|by eexists].
  destruct (of_bytes_short sha256 (source st) Hl) as [d Hd].
  destruct (from_output_valid sha256 0 (source st) g strat (parse (source st))
    (Some (subject (source_geometry (snapshot st)))) d) as (snap & E & Hv & Ho & Hg & Hst & _ & Hi); [done|done|].
  unfold from_output_for_existing_instance. rewrite E. simpl. eexists. split; [done|]. simpl.
  split_and!; try done; by rewrite ?Ho, ?Hg.
Qed.

(** A state whose text-bearing fields agree, whatever its lexer and parser
    fields are: what [replace_source_text] leaves. *)
Definition staged (st : State) : Prop :=
  valid_utf8 (source st) /\ line_index st = ByteLineIndex.new (source st) /\
  rope st = rope_from_str (source st) /\ len (source st) <= u32_max.

(** What a batch has published: [st'] is the next generation over [src]. *)
Record committed (st st' : State) (src : list Z) (res : ReparseResult) : Prop := {
  cm_coherent : coherent st';
  cm_source : source st' = src;
  cm_generation : checked_next (generation (snapshot st)) = Some (generation (snapshot st'));
  cm_instance : instance_identity (subject (source_geometry (snapshot st'))) =
    instance_identity (subject (source_geometry (snapshot st)));
  cm_snapshot : result_snapshot res = snapshot st';
  cm_token_count : token_count res = len (tokens st');
  cm_stored_count : stored_checkpoint_count (lex_restart res) = len (stored_lex_checkpoints st');
  cm_relexed : 0 <= restart_byte (lex_restart res) /\
    restart_byte (lex_restart res) + relexed_bytes (lex_restart res) = len src;
  cm_replayed : old_prefix_bytes_replayed (lex_restart res) = 0;
  cm_reused : reused_tokens res = reused_tokens_of (lex_restart res) /\
    reused_suffix_tokens (lex_restart res) = 0 /\
    exists fresh, tokens st' = ztake (reused_prefix_tokens (lex_restart res)) (tokens st) ++ fresh;
}.

Lemma full_reparse_spec (st : State) :
  staged st ->
  exists r, full_reparse st = Ret r /\
    match r with
    | Err e => e = GenerationExhausted /\ checked_next (generation (snapshot st)) = None
    | Ok (res, st') => committed st st' (source st) res /\
        len (stored_lex_checkpoints st') <= MAX_STORED_LEX_CHECKPOINTS
    end.
Proof using H0 parse_counts.
  intros (Hs & Hi & Hr & Hl). unfold full_reparse.
  destruct (refresh_spec st IncrementalFullFallback Hl) as (r & -> & Hspec). simpl.
  destruct r as [st'|e]; [|by exists (Err e)].
  destruct Hspec as (E1 & E2 & E3 & E4 & E5 & E6 & Hv & Ho & Hp & Hg & Hin & _). simpl.
  destruct (of_bytes_short sha256 (source st) Hl) as [d Hd].
  destruct (lexed_anchored (source st) d Hs Hd) as (lexed & El & [A1 A2 A3] & Han).
  rewrite E1, E3, Hi, El. simpl. eexists. split; [done|]. simpl. split; [|done].
  constructor; simpl; try done.
  - constructor; simpl; rewrite ?E1; try done; [by rewrite E3|by rewrite E2|by eapply stored_of_digest].
  - split_and!; [done|done|]. by exists (lexed_tokens lexed).
Qed.

Lemma apply_text_edits_batch (st : State) es t :
  line_index st = ByteLineIndex.new (source st) ->
  Batch.apply_text_edits (Batch.replace_source_text (source st)) es = Ret (Ok t) ->
  t = Batch.replace_source_text (Batch.source t) ->
  rope st = rope_from_str (source st) ->
  apply_text_edits_to rope_from_str st es = Ret (Ok (replace_source_text rope_from_str st (Batch.source t))).
Proof using Type.
  revert st. induction es as [|e es IH]; intros st Hi He Ht Hr.
  - simpl in He. injection He as <-. simpl. unfold replace_source_text. by destruct st; simpl in *; subst.
  - cbn [Batch.apply_text_edits] in He. cbn [apply_text_edits_to]. unfold apply_text_edit.
    rewrite Hi. change (mkTextState (source st) (ByteLineIndex.new (source st)))
      with (Batch.replace_source_text (source st)).
    destruct (apply_text_edit_to_state (Batch.replace_source_text (source st)) e) as [[s|]|] eqn:E; [|done|done].
    simpl in *. rewrite (batch_text_state _ _ _ E) in He.
    by rewrite (IH (replace_source_text rope_from_str st (Batch.source s))).
Qed.

(** The whole batch over the text, then a full parse and lex. *)
Lemma full_after_spec (st : State) es n es0 src :
  coherent st -> len src <= u32_max -> valid_utf8 src ->
  Batch.validate_edits (source st) es = Ok n ->
  Batch.apply_text_edits (Batch.replace_source_text (source st)) es0 = Ret (Ok (Batch.replace_source_text src)) ->
  exists r st', full_reparse_after_edits sha256 parse create_parse_checkpoints rope_from_str st es0 = Ret (r, st') /\
    match r with
    | Err e => e = GenerationExhausted /\ checked_next (generation (snapshot st)) = None /\ st' = st
    | Ok res => committed st st' src res /\ len (stored_lex_checkpoints st') <= MAX_STORED_LEX_CHECKPOINTS
    end.
Proof using H0 parse_counts.
  intros Hco Hl Hs Hval He. unfold full_reparse_after_edits.
  rewrite (apply_text_edits_batch st es0 _ (co_index _ Hco) He eq_refl (co_rope _ Hco)). simpl.
  destruct (full_reparse_spec (replace_source_text rope_from_str st src)) as (r & E & Hspec); [done|].
  rewrite E. simpl. destruct r as [[res st']|e].
  - exists (Ok res), st'. split; [done|]. destruct Hspec as [[C1 C2 C3 C4 C5 C6 C7 C8 C9 C10] Hm].
    split; [|done]. by constructor.
  - exists (Err e), st. split; [done|]. simpl in Hspec. by destruct Hspec.
Qed.

(** *** The restart path *)

Section restart.
Context (c1 o c3 r : list Z) (e : Edit) (st : State).
Hypothesis Ho : scalars (c1 ++ o ++ c3).
Hypothesis Hr : scalars r.
Hypothesis Lo : blen (c1 ++ o ++ c3) <= u32_max.
Hypothesis Ln : blen (c1 ++ r ++ c3) <= u32_max.
Hypothesis Es : start_byte e = blen c1.
Hypothesis Ee : old_end_byte e = blen c1 + blen o.
Hypothesis Et : new_text e = encode r.
Hypothesis En : new_end_byte e = start_byte e + len (new_text e).
Hypothesis Hco : coherent st.
Hypothesis Esrc : source st = encode (c1 ++ o ++ c3).
Notation old := (encode (c1 ++ o ++ c3)).
Notation new := (encode (c1 ++ r ++ c3)).

Lemma small_isize x : x <= u32_max -> x <= isize_max.
Proof using Type. unfold u32_max, isize_max. lia. Qed.

Lemma restart_boundary_nonneg : 0 <= restart_boundary st e.
Proof using Hco Es.
  unfold restart_boundary. destruct (list_find _ _) as [[i tok]|] eqn:E.
  - apply list_find_Some in E as (E & _ & _). pose proof (co_tokens _ Hco) as Ht.
    rewrite Forall_forall in Ht. apply Ht. by eapply list_elem_of_lookup_2.
  - rewrite Es. apply blen_nonneg.
Qed.

Lemma select_spec d :
  of_bytes sha256 old = Ret d ->
  exists l, select_restart sha256 old d st e = Ret (Ok (mkSelected l 0)) /\
    prepared c1 c3 r e l /\ position l <= restart_boundary st e.
Proof using Ho Hr Lo Ln Es Ee Et Hco Esrc.
  intros Hd. destruct (co_digest _ Hco) as (d' & Hd' & Hs). rewrite Esrc in Hd'.
  rewrite Hd in Hd'. injection Hd' as <-. pose proof (co_anchored _ Hco) as Han. rewrite Esrc in Han.
  destruct (anchored_restart c1 o c3 r e Ho Hr (small_isize _ Lo) (small_isize _ Ln) Es Ee Et
    _ _ d Hs Han restart_boundary_nonneg) as (l & El & Hl & Hb).
  exists l. unfold select_restart. by rewrite El.
Qed.

Lemma carried_stored d d' l :
  of_bytes sha256 new = Ret d' -> Forall (stored_ok d) l ->
  Forall (stored_ok d') (omap (fun c => transform_for_generation c old new d d' e) l).
Proof using Ho Hr Lo Ln Es Ee Et.
  intros Hd' Hl. apply Forall_forall. intros s' Hs'.
  apply list_elem_of_omap in Hs' as (s & Hs & Es').
  rewrite Forall_forall in Hl.
  by apply (transform_spec c1 o c3 r e Ho Hr (small_isize _ Lo) (small_isize _ Ln) Es Ee Et s d d' s' (Hl s Hs)).
Qed.

(** The carried prefix starts with the origin unless the restart is at 0. *)
Lemma carried_anchored d d' p :
  Forall (stored_ok d) (stored_lex_checkpoints st) -> 0 < p -> p <= start_byte e ->
  anchored (omap (fun c => transform_for_generation c old new d d' e)
    (take_while (fun c => byte (summary c) <? p) (stored_lex_checkpoints st))) new.
Proof using Ho Hr Lo Ln Es Ee Et Hco Esrc.
  intros Hs Hp Hle. pose proof (co_anchored _ Hco) as (s & rest & E & Hor). rewrite E, Esrc in *.
  apply Forall_cons in Hs as [Hs _]. pose proof Hs as (_ & Hb & _).
  rewrite (origin_position _ _ Hor) in Hb. simpl. rewrite Hb, (proj2 (Z.ltb_lt _ _) Hp). csimpl.
  destruct (transform_origin c1 o c3 r e Ho Hr (small_isize _ Lo) (small_isize _ Ln) Es Ee Et s d d' Hs Hor)
    as (s' & -> & Hs'); [lia|]. by eexists _, _.
Qed.

Lemma apply_text_edit_spec :
  apply_text_edit rope_from_str st e = Ret (Ok (replace_source_text rope_from_str st new)).
Proof using Ho Hr Lo Ln Es Ee Et En Hco Esrc.
  unfold apply_text_edit. rewrite (co_index _ Hco), Esrc.
  change (mkTextState old (ByteLineIndex.new old)) with (Batch.replace_source_text old).
  replace e with (batch_edit (incremental_edit e)).
  2: { destruct e as [s oe ne t]. unfold batch_edit, incremental_edit. simpl in *. by rewrite En. }
  rewrite (batch_step c1 o c3 r (incremental_edit e)); try done.
  pose proof (blen_nonneg c1). pose proof (blen_nonneg c3).
  rewrite !blen_app in *. unfold u32_max, usize_max in *. lia.
Qed.

Lemma take_while_ztake {A} (p : A -> bool) (l : list A) : ztake (len (take_while p l)) l = take_while p l.
Proof using Type.
  induction l as [|x l IH]; simpl; [done|]. destruct (p x); [|done].
  rewrite len_cons. unfold ztake in *. pose proof (len_nonneg (take_while p l)).
  replace (Z.to_nat (1 + len (take_while p l))) with (S (Z.to_nat (len (take_while p l)))) by lia.
  simpl. by rewrite IH.
Qed.
Lemma take_while_len {A} (p : A -> bool) (l : list A) : len (take_while p l) <= len l.
Proof using Type.
  induction l as [|x l IH]; simpl; [done|]. destruct (p x); rewrite !len_cons in *; [lia|].
  pose proof (len_nonneg l). rewrite len_nil. lia.
Qed.
Lemma omap_len {A B} (f : A -> option B) (l : list A) : len (omap f l) <= len l.
Proof using Type.
  induction l as [|x l IH]; csimpl; [done|]. destruct (f x); rewrite !len_cons in *; lia.
Qed.

Lemma Forall_take_while {A} (P : A -> Prop) (p : A -> bool) (l : list A) :
  Forall P l -> Forall P (take_while p l).
Proof using Type. induction 1 as [|x l Hx Hl IH]; simpl; [done|]. destruct (p x); by constructor. Qed.

(** Nothing is carried over a restart at byte 0. *)
Lemma take_while_none d (l : list StoredLexCheckpoint) :
  anchored l old -> Forall (stored_ok d) l -> take_while (fun c => byte (summary c) <? 0) l = [].
Proof using Type.
  intros (s & rest & -> & Hor) [(_ & Hb & _) _]%Forall_cons. simpl.
  by rewrite Hb, (origin_position _ _ Hor).
Qed.

(** What the restart path hands to the parser refresh. *)
Record relexed (st' : State) (rep : SingleEditReparse) : Prop := {
  rl_source : source st' = new;
  rl_index : line_index st' = ByteLineIndex.new new;
  rl_rope : rope st' = rope_from_str new;
  rl_snapshot : snapshot st' = snapshot st;
  rl_stored : Forall (fun s => of_bytes sha256 new = Ret (source_digest s) /\
      byte (summary s) = position (live s) /\ native (live s)) (stored_lex_checkpoints st');
  rl_anchored : anchored (stored_lex_checkpoints st') new;
  rl_tokens : Forall (fun tok => 0 <= start tok) (tokens st');
  rl_bounded : len (stored_lex_checkpoints st') <=
    len (stored_lex_checkpoints st) + MAX_STORED_LEX_CHECKPOINTS;
  rl_token_count : single_token_count rep = len (tokens st');
  rl_stored_count : stored_checkpoint_count (single_lex_restart rep) = len (stored_lex_checkpoints st');
  rl_restart : 0 <= restart_byte (single_lex_restart rep) <= start_byte e;
  rl_relexed : restart_byte (single_lex_restart rep) + relexed_bytes (single_lex_restart rep) = len new;
  rl_replayed : old_prefix_bytes_replayed (single_lex_restart rep) = 0;
  rl_reused : reused_suffix_tokens (single_lex_restart rep) = 0 /\
    exists fresh, tokens st' = ztake (reused_prefix_tokens (single_lex_restart rep)) (tokens st) ++ fresh;
}.

Lemma single_edit_spec :
  exists r, apply_single_edit sha256 rope_from_str st e = Ret r /\
    match r with Err _ => True | Ok (rep, st') => relexed st' rep end.
Proof using All.
  assert (len old <= u32_max) as Lo' by (by rewrite len_encode).
  assert (len new <= u32_max) as Ln' by (by rewrite len_encode).
  destruct (of_bytes_short sha256 old Lo') as [d Hd].
  destruct (of_bytes_short sha256 new Ln') as [d' Hd'].
  assert (scalars (c1 ++ r ++ c3)) as Hn by (by apply (scalars_new c1 o)).
  destruct (co_digest _ Hco) as (d0 & Hd0 & Hs). rewrite Esrc in Hd0.
  assert (d0 = d) as -> by congruence.
  destruct (select_spec d Hd) as (l & El & [P1 P2 P3 P4] & _).
  assert (0 <= position l <= len new) as Hpos.
  { destruct P2 as [Hv _]. apply valid_offsets in Hv as (_ & _ & Hv & _).
    rewrite len_encode. by apply (offset_valid_bounds _ _ Hn). }
  destruct (lex_from_live_spec new d' l) as (x & Ex & Hx); [by exists (c1 ++ r ++ c3)|done|done|].
  unfold apply_single_edit. rewrite Esrc, Hd. cbn [mbind outcome_bind]. rewrite El.
  cbn [try_bind live_checkpoint prefix_bytes_replayed]. rewrite apply_text_edit_spec. cbn [try_bind].
  cbn [replace_source_text source line_index]. rewrite Hd'. cbn [mbind outcome_bind].
  rewrite Ex. destruct x as [lexed|err]; cbn [try_bind]; [|by exists (Err err)].
  destruct Hx as ([A1 A2 A3] & s & rest & Est & Hor).
  set (carried := omap _ _).
  assert (Forall (stored_ok d') (carried ++ lexed_stored lexed)) as Hst.
  { apply Forall_app. split; [|done]. apply (carried_stored d); [done|].
    eapply Forall_take_while. exact Hs. }
  assert (anchored (carried ++ lexed_stored lexed) new) as Han.
  { destruct (Z.eq_dec (position l) 0) as [E0|E0].
    - pose proof (co_anchored _ Hco) as Hanc. rewrite Esrc in Hanc.
      unfold carried. rewrite E0. rewrite (take_while_none d (stored_lex_checkpoints st)) by done.
      rewrite Est. eexists _, _. split; [done|]. by apply Hor.
    - destruct (carried_anchored d d' (position l) Hs) as (s1 & r1 & E1 & H1'); [lia|done|].
      fold carried in E1. rewrite E1. by eexists _, _. }
  eexists. split; [reflexivity|]. cbn zeta match. rewrite take_while_ztake.
  constructor; simpl; try done.
  - by eapply stored_of_digest.
  - apply Forall_app. split; [|done]. apply Forall_take_while. apply Hco.
  - rewrite len_app. unfold carried. pose proof (omap_len (fun c => transform_for_generation c old new d d' e)
      (take_while (fun c => byte (summary c) <? position l) (stored_lex_checkpoints st))).
    pose proof (take_while_len (fun c => byte (summary c) <? position l) (stored_lex_checkpoints st)). lia.
  - lia.
  - unfold saturating_sub. lia.
  - split; [done|]. rewrite take_while_ztake. by eexists.
Qed.
End restart.

(** ** The batch *)

(** The texts and numbers of an edit batch as Rust has them. *)
Definition typed_edits (es : list Edit) : Prop :=
  Forall (fun e => valid_utf8 (new_text e) /\ 0 <= start_byte e) es.

(** One accepted edit cuts the text in three. *)
Lemma one_edit_cut (src : list Z) e0 es0 :
  valid_utf8 src -> valid_utf8 (new_text e0) -> es0 ≡ₚ [e0] -> batch_well_formed src es0 ->
  exists c1 o c3 r, src = encode (c1 ++ o ++ c3) /\ scalars (c1 ++ o ++ c3) /\ scalars r /\
    start_byte e0 = blen c1 /\ old_end_byte e0 = blen c1 + blen o /\ new_text e0 = encode r /\
    new_end_byte e0 = start_byte e0 + len (new_text e0) /\
    splice src 0 (batch_reference <$> es0) = encode (c1 ++ r ++ c3).
Proof using Type.
  intros (cs & Hs & ->) (r & Hr & Er) Hp (Hsh & _ & Hd & _).
  apply Permutation_singleton_r in Hp as ->.
  apply Forall_singleton in Hsh as ([Hab Hbl] & B1 & B2). apply Forall_singleton in Hd as [Hne _].
  simpl in *. destruct (range_split cs _ _ Hs Hab B1 B2) as (c1 & o & c3 & -> & Ea & Eb).
  exists c1, o, c3, r. split_and!; try done.
  apply (cuts_splice [] (c1 ++ o ++ c3) [batch_reference e0]).
  apply cuts_cons; [simpl; lia|simpl; lia|done|done|constructor].
Qed.

(** The outcome of a non-empty accepted batch. *)
Definition batch_outcome (st : State) (src : list Z) (r : result IncrementalError ReparseResult) (st' : State) : Prop :=
  match r with
  | Err err => err = GenerationExhausted /\ checked_next (generation (snapshot st)) = None /\ st' = st
  | Ok res => committed st st' src res /\
      len (stored_lex_checkpoints st') <= len (stored_lex_checkpoints st) + MAX_STORED_LEX_CHECKPOINTS
  end.

Lemma full_outcome (st : State) es n es0 src :
  coherent st -> len src <= u32_max -> valid_utf8 src -> Batch.validate_edits (source st) es = Ok n ->
  Batch.apply_text_edits (Batch.replace_source_text (source st)) es0 = Ret (Ok (Batch.replace_source_text src)) ->
  exists r st', full_reparse_after_edits sha256 parse create_parse_checkpoints rope_from_str st es0 = Ret (r, st') /\
    batch_outcome st src r st'.
Proof using H0 parse_counts.
  intros Hco Hl Hs Hv He. destruct (full_after_spec st es n es0 src Hco Hl Hs Hv He) as (r & st' & E & Hr).
  exists r, st'. split; [done|]. destruct r as [res|err]; [|done]. destruct Hr as [Hc Hm].
  split; [done|]. pose proof (len_nonneg (stored_lex_checkpoints st)). lia.
Qed.

(** Refreshing the parser output of a relexed candidate commits it. *)
Lemma relexed_commits c1 r c3 e (st cand : State) rep :
  scalars (c1 ++ r ++ c3) -> blen (c1 ++ r ++ c3) <= u32_max ->
  relexed c1 c3 r e st cand rep ->
  exists x, refresh cand IncrementalTokenRestartThenFullParse = Ret x /\
    match x with
    | Err err => err = GenerationExhausted /\ checked_next (generation (snapshot st)) = None
    | Ok st' => batch_outcome st (encode (c1 ++ r ++ c3))
        (Ok (mkReparse [single_range rep] (snapshot st') (single_lex_restart rep) (len (source st'))
               (reused_tokens_of (single_lex_restart rep)) (single_token_count rep))) st'
    end.
Proof using parse_counts.
  intros Hn Hl [R1 R2 R3 R4 R5 R6 R7 R8 R9 R10 R11 R12 R13 R14].
  destruct (refresh_spec cand IncrementalTokenRestartThenFullParse) as (x & -> & Hx);
    [rewrite R1, len_encode; done|].
  exists x. split; [done|]. rewrite R4 in Hx. destruct x as [st'|err]; [|done].
  destruct Hx as (E1 & E2 & E3 & E4 & E5 & E6 & Hv & Ho & Hp & Hg & Hin & _).
  rewrite R1 in *. split; [|by rewrite E6].
  constructor; simpl; rewrite ?E5, ?E6; try done.
  - constructor; rewrite ?E1, ?E2, ?E3, ?E5, ?E6; try done. by exists (c1 ++ r ++ c3).
  - split; [lia|done].
Qed.

Lemma one_outcome (st : State) e n es0 :
  coherent st -> typed_edits [e] -> len (source st) + total_text batch_reference [e] <= u32_max ->
  Batch.validate_edits (source st) [e] = Ok n -> es0 ≡ₚ [e] -> batch_well_formed (source st) es0 ->
  len (splice (source st) 0 (batch_reference <$> es0)) <= u32_max ->
  valid_utf8 (splice (source st) 0 (batch_reference <$> es0)) ->
  Batch.apply_text_edits (Batch.replace_source_text (source st)) [e] =
    Ret (Ok (Batch.replace_source_text (splice (source st) 0 (batch_reference <$> es0)))) ->
  exists r st', apply_one sha256 parse create_parse_checkpoints rope_from_str st e [e] = Ret (r, st') /\
    batch_outcome st (splice (source st) 0 (batch_reference <$> es0)) r st'.
Proof using H0 parse_counts.
  intros Hco Ht Hl Hval Hp Hw Hl' Hv' He.
  destruct (full_outcome st [e] n [e] _ Hco Hl' Hv' Hval He) as (rf & sf & Ef & Hf).
  unfold apply_one. destruct (_ || _); [by exists rf, sf|].
  apply Forall_singleton in Ht as [Htxt _].
  destruct (one_edit_cut (source st) e es0 (co_text _ Hco) Htxt Hp Hw)
    as (c1 & o & c3 & r & Esrc & Ho & Hr & Es & Ee & Et & En & Esp).
  rewrite Esp in *.
  assert (blen (c1 ++ o ++ c3) <= u32_max) as Lo.
  { rewrite <- len_encode, <- Esrc. simpl in Hl. pose proof (len_nonneg (new_text e)). lia. }
  assert (blen (c1 ++ r ++ c3) <= u32_max) as Ln by (by rewrite <- len_encode).
  destruct (single_edit_spec c1 o c3 r e st Ho Hr Lo Ln Es Ee Et En Hco Esrc) as (x & -> & Hx). simpl.
  destruct x as [[rep cand]|err]; [|by exists rf, sf].
  assert (scalars (c1 ++ r ++ c3)) as Hn by (by apply (scalars_new c1 o)).
  destruct (relexed_commits c1 r c3 e st cand rep Hn Ln Hx) as (y & -> & Hy). simpl.
  destruct y as [st'|err].
  - by eexists _, st'.
  - exists (Err err), st. split; [done|]. by destruct Hy.
Qed.

Lemma apply_edits_spec (st : State) edits :
  coherent st -> typed_edits edits -> len (source st) + total_text batch_reference edits <= u32_max ->
  exists r st', apply_edits st edits = Ret (r, st') /\
    match Batch.validate_edits (source st) edits with
    | Err err => r = Err (InvalidBatch err) /\ st' = st
    | Ok _ => exists es0, es0 ≡ₚ edits /\ batch_well_formed (source st) es0 /\
        if bool_decide (edits = []) then r = Ok (unchanged_result st) /\ st' = st
        else batch_outcome st (splice (source st) 0 (batch_reference <$> es0)) r st'
    end.
Proof using H0 parse_counts.
  intros Hco Ht Hl. unfold Incremental.apply_edits.
  destruct (Batch.validate_edits (source st) edits) as [n|err] eqn:Hval; [|by eexists _, _].
  destruct (validated_batch_applies (source st) edits n (co_text _ Hco) Ht) as (es0 & Hp & Hw & Hv & Hlen & He);
    [unfold u32_max, usize_max in *; lia|done|].
  case_bool_decide as Hne; [by eexists _, _; split; [done|]; exists es0|].
  assert (exists r st', (let sorted_edits := reverse (sort_by start_le edits) in
      if MAX_EDIT_SIZE <? n
      then full_reparse_after_edits sha256 parse create_parse_checkpoints rope_from_str st sorted_edits
      else match sorted_edits with
           | [edit] => apply_one sha256 parse create_parse_checkpoints rope_from_str st edit sorted_edits
           | _ => full_reparse_after_edits sha256 parse create_parse_checkpoints rope_from_str st sorted_edits
           end) = Ret (r, st') /\ batch_outcome st (splice (source st) 0 (batch_reference <$> es0)) r st')
    as (r & st' & E & Hr); [|exists r, st'; split; [exact E|by exists es0]].
  cbv zeta. destruct (full_outcome st edits n (reverse (sort_by start_le edits))
    (splice (source st) 0 (batch_reference <$> es0)) Hco) as (rf & sf & Ef & Hf); [lia|done|done|done|].
  destruct (MAX_EDIT_SIZE <? n); [by exists rf, sf|].
  destruct (reverse (sort_by start_le edits)) as [|e [|e2 rest]] eqn:Er; [by exists rf, sf| |by exists rf, sf].
  assert (edits = [e]) as ->.
  { apply Permutation_singleton_r. rewrite <- Er. by rewrite reverse_Permutation, sort_by_perm. }
  apply (one_outcome st e n es0); try done. lia.
Qed.
End generation.

(** ** Lemmas: the spacing of stored checkpoints *)

(** Two runs that differ in the spacing only. *)
Definition same_output {A} (x y : outcome (A * Z)) : Prop :=
  match x, y with Ret (a, _), Ret (b, _) => a = b | Panic, Panic => True | _, _ => False end.

Lemma push_stored_spacing d i stored s1 s2 c :
  same_output (push_stored_checkpoint d i stored s1 c) (push_stored_checkpoint d i stored s2 c).
Proof.
  unfold push_stored_checkpoint.
  destruct (from_option (fun x => position (live x) =? position c) false (last stored)) eqn:El; [done|].
  assert (forall s, retain stored s c = true) as Hr
    by (intros s; apply retain_moved; destruct (last stored); simpl in *; [by rewrite El|done]).
  rewrite !Hr. simpl. destruct (_ <=? _); by destruct (capture_stored d c i).
Qed.

Section spacing.
Context `{Tokenize} (sha256 : list Z -> list Z).

Lemma observe_spacing d i l x s1 s2 :
  same_output (observe sha256 d i l (x, s1)) (observe sha256 d i l (x, s2)).
Proof.
  unfold observe. destruct (checkpoint sha256 l) as [c|]; [|done]. simpl.
  destruct (push_summary _ c i); [|done]. simpl.
  pose proof (push_stored_spacing d i (lexed_stored x) s1 s2 c) as Hp.
  destruct (push_stored_checkpoint d i _ s1 c) as [[]|], (push_stored_checkpoint d i _ s2 c) as [[]|];
    simpl in *; by subst.
Qed.

Lemma lex_loop_spacing fuel d i l p x s1 s2 :
  lex_loop sha256 fuel d i l p (x, s1) = lex_loop sha256 fuel d i l p (x, s2).
Proof.
  revert l p x s1 s2. induction fuel as [|fuel IH]; intros l p x s1 s2; [done|]. cbn [lex_loop].
  pose proof (observe_spacing d i l x s1 s2) as Ho.
  destruct (observe sha256 d i l (x, s1)) as [[x1 t1]|], (observe sha256 d i l (x, s2)) as [[x2 t2]|];
    simpl in *; try done. subst x2. destruct (next_token l) as [[tok|] l']; [|done].
  destruct (is_eof (token_type tok)).
  - pose proof (observe_spacing d i l' x1 t1 t2) as Ho.
    destruct (observe sha256 d i l' (x1, t1)) as [[y1 u1]|], (observe sha256 d i l' (x1, t2)) as [[y2 u2]|];
      simpl in *; try done; by subst.
  - destruct (from_option _ _ _); [done|]. apply IH.
Qed.
End spacing.

(** ** Theorems *)

(** C33. The incremental state stays one coherent generation.  From a state
    whose text, line index, snapshot, parse checkpoints and stored lexer
    checkpoints agree, [apply_edits] terminates without panicking on every
    batch of UTF-8 texts whose result fits the digest's 4 GiB.  It rejects
    exactly the batches that no order makes well formed, or when the
    generation counter is exhausted, and then publishes nothing.  Otherwise
    it publishes the spliced text as the next generation of the same parser
    lifetime, coherent again, with a receipt that accounts for the restart:
    relexed bytes reach the end of the new text, no old byte was replayed,
    and the reused tokens are a prefix of the old ones. *)
Theorem apply_edits_commits `{TokenizeLaws} `{Ast Node} {Rope ParseCheckpoint} sha256
    (parse : list Z -> ParseOutput Node) (walk : Node -> list ParseCheckpoint) (rope_of : list Z -> Rope)
    (st : IncrementalState (Node := Node)) edits :
  (forall s, 0 <= recovered_count (parse s)) ->
  coherent sha256 parse walk rope_of st -> typed_edits edits ->
  len (source st) + total_text batch_reference edits <= u32_max ->
  exists r st', apply_edits sha256 parse walk rope_of st edits = Ret (r, st') /\
    match r with
    | Err err => st' = st /\
        ((exists e, err = InvalidBatch e /\ ~ exists es0, es0 ≡ₚ edits /\ batch_well_formed (source st) es0) \/
         (err = GenerationExhausted /\ checked_next (generation (snapshot st)) = None))
    | Ok res => exists es0, es0 ≡ₚ edits /\ batch_well_formed (source st) es0 /\
        ((edits = [] /\ st' = st /\ res = unchanged_result st) \/
         committed sha256 parse walk rope_of st st' (splice (source st) 0 (batch_reference <$> es0)) res)
    end.
Proof.
  intros Hn Hco Ht Hl.
  destruct (apply_edits_spec sha256 parse walk rope_of Hn st edits Hco Ht Hl) as (r & st' & E & Hr).
  exists r, st'. split; [done|].
  destruct (Batch.validate_edits (source st) edits) as [n|err] eqn:Hval.
  - destruct Hr as (es0 & Hp & Hw & Hr). case_bool_decide as Hne.
    + destruct Hr as [-> ->]. exists es0. split_and!; [done|done|by left].
    + destruct r as [res|err]; [|destruct Hr as (-> & ? & ->); split; [done|by right]].
      exists es0. split_and!; [done|done|]. right. apply Hr.
  - destruct Hr as [-> ->]. split; [done|]. left. exists err. split; [done|].
    assert (Forall (fun e => 0 <= start_byte e) edits) as Hnn
      by (eapply Forall_impl; [exact Ht|]; by intros e [_ ?]).
    intros [n Hv]%(batch_validate_iff (source st) edits Hnn). by rewrite Hv in Hval.
Qed.

(** Restarting never replays old text: in a coherent state, for an edit
    whose range cuts the text at character boundaries, the restart is a
    stored checkpoint at or before both the edit and the token it touches,
    whose every offset is valid in the edited text and which has no heredoc
    pending.  The replay fallback and its errors are never taken. *)
Theorem restart_uses_stored_checkpoint `{TokenizeLaws} `{Ast Node} {Rope ParseCheckpoint} sha256
    (parse : list Z -> ParseOutput Node) (walk : Node -> list ParseCheckpoint) (rope_of : list Z -> Rope)
    (st : IncrementalState (Node := Node)) c1 o c3 r e d :
  coherent sha256 parse walk rope_of st -> source st = encode (c1 ++ o ++ c3) ->
  scalars (c1 ++ o ++ c3) -> scalars r -> of_bytes sha256 (source st) = Ret d ->
  blen (c1 ++ o ++ c3) <= u32_max -> blen (c1 ++ r ++ c3) <= u32_max ->
  start_byte e = blen c1 -> old_end_byte e = blen c1 + blen o -> new_text e = encode r ->
  exists l, select_restart sha256 (source st) d st e = Ret (Ok (mkSelected l 0)) /\
    position l <= start_byte e /\ position l <= restart_boundary st e /\
    placed l (encode (c1 ++ r ++ c3)) /\ Replay.pending_heredocs (replay l) = [].
Proof.
  intros Hco Esrc Ho Hr Hd Lo Ln Es Ee Et. rewrite Esrc in Hd.
  destruct (select_spec sha256 parse walk rope_of c1 o c3 r e st Ho Hr Lo Ln Es Ee Et Hco Esrc d Hd)
    as (l & El & [P1 P2 P3 P4] & Hb).
  rewrite Esrc. by exists l.
Qed.

(** A new state is the coherent initial generation of its source, and the
    stored checkpoints stay bounded: at most 4096 after a complete lex, and
    at most 4096 more than before after any batch. *)
Theorem stored_checkpoints_bounded `{TokenizeLaws} `{Ast Node} {Rope ParseCheckpoint} sha256
    (parse : list Z -> ParseOutput Node) (walk : Node -> list ParseCheckpoint) (rope_of : list Z -> Rope)
    fresh src :
  (forall s, 0 <= recovered_count (parse s)) -> valid_utf8 src -> len src <= u32_max ->
  exists st, new sha256 parse walk rope_of fresh src = Ret st /\
    coherent sha256 parse walk rope_of st /\ source st = src /\ generation (snapshot st) = INITIAL /\
    len (stored_lex_checkpoints st) <= MAX_STORED_LEX_CHECKPOINTS /\
    forall edits st' res, typed_edits edits -> len src + total_text batch_reference edits <= u32_max ->
      apply_edits sha256 parse walk rope_of st edits = Ret (Ok res, st') ->
      len (stored_lex_checkpoints st') <= 2 * MAX_STORED_LEX_CHECKPOINTS.
Proof.
  intros Hn Hs Hl.
  destruct (new_spec sha256 parse walk rope_of Hn fresh src Hs Hl) as (st & E & Hco & Esrc & Hg & _ & Hb).
  exists st. split_and!; try done. intros edits st' res Ht Hle Ea.
  rewrite <- Esrc in Hle.
  destruct (apply_edits_spec sha256 parse walk rope_of Hn st edits Hco Ht Hle) as (r & st2 & E2 & Hr).
  rewrite E2 in Ea. injection Ea as -> ->.
  destruct (Batch.validate_edits (source st) edits); [|by destruct Hr].
  destruct Hr as (es0 & _ & _ & Hr). case_bool_decide.
  - destruct Hr as [_ ->]. unfold MAX_STORED_LEX_CHECKPOINTS in *. lia.
  - destruct Hr as [_ Hr]. lia.
Qed.

(** The spacing between stored checkpoints, which starts at 128 bytes and
    doubles whenever the list is compacted, never decides anything: a
    complete lex and a restart return the same tokens, summaries and stored
    checkpoints for every initial spacing, because a checkpoint that moved
    always differs from the last stored one in its replay state. *)
Theorem checkpoint_spacing_is_inert `{Tokenize} sha256 source spacing c digest line_index :
  lex_source_with_checkpoints sha256 source line_index =
    (digest ← of_bytes sha256 source;
     '(lexed, _) ← lex_loop sha256 (lex_fuel (lexer_new source)) digest line_index (lexer_new source) None
                     (mkLexed [] [] [], spacing);
     mret lexed) /\
  lex_loop sha256 (lex_fuel (lexer_new source)) digest line_index (lexer_new source) (Some c)
      (mkLexed [] [] [], INITIAL_CHECKPOINT_SPACING) =
    lex_loop sha256 (lex_fuel (lexer_new source)) digest line_index (lexer_new source) (Some c)
      (mkLexed [] [] [], spacing).
Proof.
  split; [|apply lex_loop_spacing]. unfold lex_source_with_checkpoints.
  destruct (of_bytes sha256 source) as [d|]; [|done]. simpl.
  by rewrite (lex_loop_spacing _ _ _ _ _ _ _ _ spacing).
Qed.

(** ** Witnesses *)

Definition demo_output (_ : list Z) : ParseOutput unit := success tt.
Lemma demo_output_counts s : 0 <= recovered_count (demo_output s).
Proof. vm_compute. discriminate. Qed.
Definition demo_edit : Edit := mkEdit 1 2 2 [120].
Lemma demo_edit_typed : typed_edits [demo_edit].
Proof. repeat constructor; [exists [120]; split; [by repeat constructor|done]|simpl; lia]. Qed.
Lemma demo_abc : valid_utf8 [97; 98; 99].
Proof. exists [97; 98; 99]. split; [by repeat constructor|done]. Qed.

Lemma apply_edits_commits_witness : exists st r st',
  new sample_hash demo_output (fun _ => @nil unit) id 0 [97; 98; 99] = Ret st /\
  apply_edits sample_hash demo_output (fun _ => @nil unit) id st [demo_edit] = Ret (r, st') /\
  match r with
  | Ok res => source st' = [97; 120; 99] /\ generation (snapshot st') = mkGeneration 1 /\
      report_strategy (lex_restart res) = StoredCheckpointToEof
  | Err _ => False
  end.
Proof.
  destruct (new_spec sample_hash demo_output (fun _ => @nil unit) id demo_output_counts 0 [97; 98; 99] demo_abc)
    as (st & E & Hco & Esrc & _); [vm_compute; discriminate|].
  destruct (apply_edits_commits sample_hash demo_output (fun _ => @nil unit) id st [demo_edit]
    demo_output_counts Hco demo_edit_typed) as (r & st' & Ea & _).
  { rewrite Esrc. vm_compute. discriminate. }
  exists st, r, st'. split; [exact E|]. split; [exact Ea|].
  clear Hco Esrc. vm_compute in E. injection E as <-. vm_compute in Ea. injection Ea as <- <-.
  vm_compute. repeat split.
Defined.

Lemma restart_uses_stored_checkpoint_witness : exists st d l,
  new sample_hash demo_output (fun _ => @nil unit) id 0 [97; 98; 99] = Ret st /\
  of_bytes sample_hash (source st) = Ret d /\
  select_restart sample_hash (source st) d st demo_edit = Ret (Ok (mkSelected l 0)) /\
  position l <= restart_boundary st demo_edit.
Proof.
  destruct (new_spec sample_hash demo_output (fun _ => @nil unit) id demo_output_counts 0 [97; 98; 99] demo_abc)
    as (st & E & Hco & Esrc & _); [vm_compute; discriminate|].
  destruct (of_bytes_short sample_hash (source st)) as [d Hd]; [rewrite Esrc; vm_compute; discriminate|].
  destruct (restart_uses_stored_checkpoint sample_hash demo_output (fun _ => @nil unit) id st
    [97] [98] [99] [120] demo_edit d Hco) as (l & El & _ & Hb & _);
    [exact Esrc|by repeat constructor|by repeat constructor|exact Hd| | |reflexivity|reflexivity|reflexivity|].
  - vm_compute. discriminate.
  - vm_compute. discriminate.
  - exists st, d, l. split; [exact E|]. split; [exact Hd|]. split; [exact El|exact Hb].
Defined.

Lemma stored_checkpoints_bounded_witness : exists st,
  new sample_hash demo_output (fun _ => @nil unit) id 0 [97; 98; 99] = Ret st /\
  len (stored_lex_checkpoints st) <= MAX_STORED_LEX_CHECKPOINTS.
Proof.
  destruct (stored_checkpoints_bounded sample_hash demo_output (fun _ => @nil unit) id 0 [97; 98; 99]
    demo_output_counts demo_abc) as (st & E & _ & _ & _ & Hb & _); [vm_compute; discriminate|].
  exists st. split; [exact E|exact Hb].
Defined.
