(* ===== verification/Runtime.v ===== *)
(** * Workspace root generations (perl-workspace/src/workspace/
      runtime_generation.rs and runtime_generation/core.rs)

    The process-local authority that decides whether root-scoped work still
    belongs to the current generation of its root.  The controller is shared
    by all threads; its state is one record, and every operation is the
    sequence of its critical sections (an atomic counter, the root map and
    one root entry, the observation window).  A task's cancellation flag is a
    shared cell of its own, kept by task identity.  The concurrent behaviour
    is in RuntimeSteps.v; here are the sections, the whole operations, and
    what a single operation does. *)

From stdpp Require Import base numbers list gmap.
From S2P Require Import Prelude.

(** ** Identities and inputs *)

(** [WorkspaceRuntimeSessionId::mint] from the clock, the process id and the
    process-local counter. *)
Definition as_u64 (x : Z) : Z := x `mod` 18446744073709551616.
Definition mint (nanos process counter : Z) : Z :=
  Z.lor (Z.lor (Z.shiftl (as_u64 nanos) 64) (Z.shiftl process 32)) counter.

Record WorkspaceRuntimeInputs := mkInputs {
  workspace_id : Z;
  workspace_folder_generation : Z;
  configuration_generation : Z;
  trust_generation : Z;
  environment_identity : Z;
  host_profile : Z;
  source_authority_version : Z;
}.
Record WorkspaceRuntimeGeneration := mkGeneration { session_id : Z; root_id : Z; sequence : Z }.
#[export] Instance generation_eq_dec : EqDecision WorkspaceRuntimeGeneration.
Proof. solve_decision. Defined.

(** ** Lifecycle *)

Inductive WorkspaceRuntimeLifecycleState :=
| Creating | InitializingLocalAuthority | LoadingSnapshotCandidate | IndexingOrRecomputing | ActiveCurrent
| Reconfiguring | TrustTransition | Removing | Detached | Shutdown | FailedOrLimited.
#[export] Instance lifecycle_eq_dec : EqDecision WorkspaceRuntimeLifecycleState.
Proof. solve_decision. Defined.
Definition accepts_task_registration (self : WorkspaceRuntimeLifecycleState) : bool :=
  match self with Removing | Detached | Shutdown => false | _ => true end.
Definition accepts_publication (self : WorkspaceRuntimeLifecycleState) : bool :=
  match self with Creating | Removing | Detached | Shutdown => false | _ => true end.
Definition state_exact_use_available (self : WorkspaceRuntimeLifecycleState) : bool :=
  match self with ActiveCurrent => true | _ => false end.
Definition is_terminal (self : WorkspaceRuntimeLifecycleState) : bool :=
  match self with Detached | Shutdown => true | _ => false end.

Inductive WorkspaceRuntimeTransitionReason :=
| AddRoot | WorkspaceFoldersChanged | ConfigurationChanged | TrustChanged | EnvironmentChanged
| ReplaceRoot | RemoveRoot | Restart | Recover.
Definition initial_state (self : WorkspaceRuntimeTransitionReason) : WorkspaceRuntimeLifecycleState :=
  match self with
  | AddRoot | Restart | Recover => Creating
  | WorkspaceFoldersChanged | ConfigurationChanged | EnvironmentChanged | ReplaceRoot => Reconfiguring
  | TrustChanged => TrustTransition
  | RemoveRoot => Removing
  end.
Inductive WorkspaceRuntimePublicationKind :=
| WorkspaceFacts | Readiness | Configuration | WatcherRegistration | ReloadReplacement | HydrationAdoption
| CheckpointCurrentPointer | OperationalCache | ProviderResult.
Inductive WorkspaceRuntimeTerminalReason :=
| ReasonSuperseded | ReasonRemoved | ReasonReplaced | ReasonShutdown | ReasonFailed.

(** ** Observations *)

Definition MAX_OBSERVATIONS : Z := 128.
Inductive WorkspaceRuntimeObservationKind :=
| TransitionStarted | GenerationSuperseded | TaskRegistered | TaskCompleted | PublicationAccepted
| PublicationRejectedKind | StateChanged | DetachedKind | ShutdownKind.
Inductive WorkspaceRuntimeObservationDetail :=
| DetailTransition (reason : WorkspaceRuntimeTransitionReason)
| DetailTask (task_id operation_id : Z)
| DetailPublication (publication : WorkspaceRuntimePublicationKind)
| DetailState (state : WorkspaceRuntimeLifecycleState)
| DetailTerminal (reason : WorkspaceRuntimeTerminalReason).
Record WorkspaceRuntimeObservation := mkObservation {
  observation_sequence : Z;
  observation_generation : WorkspaceRuntimeGeneration;
  observation_kind : WorkspaceRuntimeObservationKind;
  observation_detail : WorkspaceRuntimeObservationDetail;
}.

(** ** Roots, tasks and the controller *)

Record WorkspaceRuntimeContext := mkContext { generation : WorkspaceRuntimeGeneration; inputs : WorkspaceRuntimeInputs }.
Record WorkspaceRuntimeView := mkView {
  view_context : WorkspaceRuntimeContext;
  view_lifecycle_state : WorkspaceRuntimeLifecycleState;
  view_terminal_reason : option WorkspaceRuntimeTerminalReason;
  active_task_count : Z;
}.
Record WorkspaceRuntimeTaskHandle := mkHandle {
  handle_id : Z;
  handle_operation : Z;
  handle_generation : WorkspaceRuntimeGeneration;
}.
Inductive WorkspaceRuntimeError :=
| UnknownRoot (root : Z)
| StaleGeneration (current attempted : WorkspaceRuntimeGeneration)
| WrongSession (current attempted : Z)
| TaskRegistrationRejected (state : WorkspaceRuntimeLifecycleState)
| PublicationRejected (state : WorkspaceRuntimeLifecycleState)
| UnknownTask (id : Z)
| GenerationExhausted
| TaskIdentityExhausted
| ControllerShutdown
| TerminalStateRequiresExplicitDisposition (state : WorkspaceRuntimeLifecycleState).

(** [tasks] keeps the operation of each task; the flag is in [flags]. *)
Record RootEntry := mkEntry {
  context : WorkspaceRuntimeContext;
  lifecycle_state : WorkspaceRuntimeLifecycleState;
  terminal_reason : option WorkspaceRuntimeTerminalReason;
  tasks : gmap Z Z;
}.
Record Controller := mkController {
  controller_session : Z;
  next_generation : Z;
  next_task_id : Z;
  next_observation : Z;
  is_shutdown : bool;
  roots : gmap Z RootEntry;
  observations : list WorkspaceRuntimeObservation;
  dropped : Z;
  flags : gmap Z bool;
}.

Definition controller_new (session : Z) : Controller := mkController session 1 1 1 false ∅ [] 0 ∅.
(** [handle.is_cancelled()] *)
Definition is_cancelled (self : Controller) (handle : WorkspaceRuntimeTaskHandle) : bool :=
  default false (flags self !! handle_id handle).
Definition view (self : RootEntry) : WorkspaceRuntimeView :=
  mkView (context self) (lifecycle_state self) (terminal_reason self) (Z.of_nat (size (tasks self))).
(** [cancel_all_tasks]: the entry without tasks, and the flags raised. *)
Definition cancel_all_tasks (self : RootEntry) (fl : gmap Z bool) : RootEntry * gmap Z bool :=
  (mkEntry (context self) (lifecycle_state self) (terminal_reason self) ∅, ((fun _ => true) <$> tasks self) ∪ fl).
Definition with_state (self : RootEntry) (state : WorkspaceRuntimeLifecycleState)
    (reason : option WorkspaceRuntimeTerminalReason) : RootEntry :=
  mkEntry (context self) state reason (tasks self).
(** An entry and the flags written back. *)
Definition set_entry (self : Controller) (root : Z) (e : RootEntry) (fl : gmap Z bool) : Controller :=
  mkController (controller_session self) (next_generation self) (next_task_id self) (next_observation self)
    (is_shutdown self) (<[root := e]> (roots self)) (observations self) (dropped self) fl.

(** ** Sections *)

(** [counter.fetch_update(.., checked_add(1))] *)
Definition allocate_sequence (counter : Z) (exhausted : WorkspaceRuntimeError) : result WorkspaceRuntimeError Z * Z :=
  match checked_add counter 1 with Some next => (Ok counter, next) | None => (Err exhausted, counter) end.
Definition ensure_not_shutdown (self : Controller) : result WorkspaceRuntimeError unit :=
  if is_shutdown self then Err ControllerShutdown else Ok tt.

(** The section of [begin_transition] under the root-map write guard. *)
Definition install (self : Controller) (root : Z) (reason : WorkspaceRuntimeTransitionReason)
    (inputs : WorkspaceRuntimeInputs)
    : result WorkspaceRuntimeError (option RootEntry * WorkspaceRuntimeContext) * Controller :=
  if is_shutdown self then (Err ControllerShutdown, self)
  else match allocate_sequence (next_generation self) GenerationExhausted with
  | (Err e, _) => (Err e, self)
  | (Ok seq, next) =>
    let context := mkContext (mkGeneration (controller_session self) root seq) inputs in
    let replacement := mkEntry context (initial_state reason) None ∅ in
    (Ok (roots self !! root, context),
     mkController (controller_session self) next (next_task_id self) (next_observation self) (is_shutdown self)
       (<[root := replacement]> (roots self)) (observations self) (dropped self) (flags self))
  end.
(** The section on the replaced entry, which only this transition holds. *)
Definition retire (self : Controller) (prior : RootEntry) : WorkspaceRuntimeGeneration * Controller :=
  let '(prior, fl) := cancel_all_tasks prior (flags self) in
  let prior := with_state prior Detached (Some ReasonSuperseded) in
  (generation (context prior),
   mkController (controller_session self) (next_generation self) (next_task_id self) (next_observation self)
     (is_shutdown self) (roots self) (observations self) (dropped self) fl).

Definition allocate_task_id (self : Controller) : result WorkspaceRuntimeError Z * Controller :=
  let '(r, next) := allocate_sequence (next_task_id self) TaskIdentityExhausted in
  (r, mkController (controller_session self) (next_generation self) next (next_observation self) (is_shutdown self)
        (roots self) (observations self) (dropped self) (flags self)).

(** [with_current_entry]: the operation runs on the entry of exactly this
    generation. *)
Definition with_current_entry {T} (self : Controller) (g : WorkspaceRuntimeGeneration)
    (operation : RootEntry -> gmap Z bool -> result WorkspaceRuntimeError T * RootEntry * gmap Z bool)
    : result WorkspaceRuntimeError T * Controller :=
  if negb (session_id g =? controller_session self)
  then (Err (WrongSession (controller_session self) (session_id g)), self)
  else match roots self !! root_id g with
  | None => (Err (UnknownRoot (root_id g)), self)
  | Some entry =>
    if bool_decide (generation (context entry) = g) then
      let '(r, entry, fl) := operation entry (flags self) in
      (r, set_entry self (root_id g) entry fl)
    else (Err (StaleGeneration (generation (context entry)) g), self)
  end.

Definition register_section (task_id operation_id : Z) (e : RootEntry) (fl : gmap Z bool)
    : result WorkspaceRuntimeError unit * RootEntry * gmap Z bool :=
  if negb (accepts_task_registration (lifecycle_state e))
  then (Err (TaskRegistrationRejected (lifecycle_state e)), e, fl)
  else (Ok tt,
        mkEntry (context e) (lifecycle_state e) (terminal_reason e) (<[task_id := operation_id]> (tasks e)),
        <[task_id := false]> fl).
Definition complete_section (handle : WorkspaceRuntimeTaskHandle) (e : RootEntry) (fl : gmap Z bool)
    : result WorkspaceRuntimeError unit * RootEntry * gmap Z bool :=
  match tasks e !! handle_id handle with
  | None => (Err (UnknownTask (handle_id handle)), e, fl)
  | Some operation =>
    if negb (operation =? handle_operation handle) then (Err (UnknownTask (handle_id handle)), e, fl)
    else (Ok tt,
          mkEntry (context e) (lifecycle_state e) (terminal_reason e) (delete (handle_id handle) (tasks e)), fl)
  end.
Definition publication_section (e : RootEntry) (fl : gmap Z bool)
    : result WorkspaceRuntimeError unit * RootEntry * gmap Z bool :=
  if negb (accepts_publication (lifecycle_state e)) then (Err (PublicationRejected (lifecycle_state e)), e, fl)
  else (Ok tt, e, fl).
Definition state_section (resulting_state : WorkspaceRuntimeLifecycleState) (e : RootEntry) (fl : gmap Z bool)
    : result WorkspaceRuntimeError WorkspaceRuntimeView * RootEntry * gmap Z bool :=
  let e := with_state e resulting_state None in (Ok (view e), e, fl).
Definition detach_section (reason : WorkspaceRuntimeTerminalReason) (e : RootEntry) (fl : gmap Z bool)
    : result WorkspaceRuntimeError WorkspaceRuntimeView * RootEntry * gmap Z bool :=
  let '(e, fl) := cancel_all_tasks e fl in
  let e := with_state e Detached (Some reason) in
  (Ok (view e), e, fl).

(** [push_observation]: the number is drawn first, the window is locked
    after; an exhausted counter only counts a drop. *)
Definition with_observations (self : Controller) (next : Z) (os : list WorkspaceRuntimeObservation) (d : Z) : Controller :=
  mkController (controller_session self) (next_generation self) (next_task_id self) next (is_shutdown self)
    (roots self) os d (flags self).
Definition draw_observation (self : Controller) : option Z * Controller :=
  match checked_add (next_observation self) 1 with
  | Some next => (Some (next_observation self), with_observations self next (observations self) (dropped self))
  | None => (None, with_observations self (next_observation self) (observations self) (saturating_add (dropped self) 1))
  end.
Definition store_observation (self : Controller) (o : WorkspaceRuntimeObservation) : Controller :=
  if len (observations self) =? MAX_OBSERVATIONS
  then with_observations self (next_observation self) (tail (observations self) ++ [o]) (saturating_add (dropped self) 1)
  else with_observations self (next_observation self) (observations self ++ [o]) (dropped self).
Definition push_observation (self : Controller) (g : WorkspaceRuntimeGeneration)
    (kind : WorkspaceRuntimeObservationKind) (detail : WorkspaceRuntimeObservationDetail) : Controller :=
  match draw_observation self with
  | (None, self) => self
  | (Some seq, self) => store_observation self (mkObservation seq g kind detail)
  end.

(** ** The operations *)

Definition begin_transition (self : Controller) (root : Z) (reason : WorkspaceRuntimeTransitionReason)
    (inputs : WorkspaceRuntimeInputs) : result WorkspaceRuntimeError WorkspaceRuntimeContext * Controller :=
  match install self root reason inputs with
  | (Err e, self) => (Err e, self)
  | (Ok (prior, context), self) =>
    let self :=
      match prior with
      | Some prior =>
        let '(g, self) := retire self prior in
        push_observation self g GenerationSuperseded (DetailTerminal ReasonSuperseded)
      | None => self
      end in
    (Ok context, push_observation self (generation context) TransitionStarted (DetailTransition reason))
  end.
Definition current_root_context (self : Controller) (root : Z) : option WorkspaceRuntimeView :=
  view <$> roots self !! root.
Definition is_current (self : Controller) (g : WorkspaceRuntimeGeneration) : bool :=
  match current_root_context self (root_id g) with
  | None => false
  | Some v =>
    bool_decide (generation (view_context v) = g) &&
    match view_lifecycle_state v with Detached | Shutdown => false | _ => true end
  end.
Definition register_root_task (self : Controller) (g : WorkspaceRuntimeGeneration) (operation_id : Z)
    : result WorkspaceRuntimeError WorkspaceRuntimeTaskHandle * Controller :=
  match ensure_not_shutdown self with
  | Err e => (Err e, self)
  | Ok _ =>
    match allocate_task_id self with
    | (Err e, self) => (Err e, self)
    | (Ok task_id, self) =>
      match with_current_entry self g (register_section task_id operation_id) with
      | (Err e, self) => (Err e, self)
      | (Ok _, self) =>
        (Ok (mkHandle task_id operation_id g),
         push_observation self g TaskRegistered (DetailTask task_id operation_id))
      end
    end
  end.
Definition complete_task (self : Controller) (handle : WorkspaceRuntimeTaskHandle)
    : result WorkspaceRuntimeError unit * Controller :=
  match with_current_entry self (handle_generation handle) (complete_section handle) with
  | (Err e, self) => (Err e, self)
  | (Ok _, self) =>
    (Ok tt, push_observation self (handle_generation handle) TaskCompleted
              (DetailTask (handle_id handle) (handle_operation handle)))
  end.
Definition check_publication (self : Controller) (g : WorkspaceRuntimeGeneration)
    : result WorkspaceRuntimeError unit * Controller :=
  match ensure_not_shutdown self with
  | Err e => (Err e, self)
  | Ok _ => with_current_entry self g publication_section
  end.
Definition publication_kind (r : result WorkspaceRuntimeError unit) : WorkspaceRuntimeObservationKind :=
  match r with Ok _ => PublicationAccepted | Err _ => PublicationRejectedKind end.
Definition accept_publication (self : Controller) (g : WorkspaceRuntimeGeneration)
    (publication : WorkspaceRuntimePublicationKind) : result WorkspaceRuntimeError unit * Controller :=
  let '(r, self) := check_publication self g in
  (r, push_observation self g (publication_kind r) (DetailPublication publication)).
Definition complete_transition (self : Controller) (g : WorkspaceRuntimeGeneration)
    (resulting_state : WorkspaceRuntimeLifecycleState) : result WorkspaceRuntimeError WorkspaceRuntimeView * Controller :=
  match ensure_not_shutdown self with
  | Err e => (Err e, self)
  | Ok _ =>
    if is_terminal resulting_state || bool_decide (resulting_state = Removing)
    then (Err (TerminalStateRequiresExplicitDisposition resulting_state), self)
    else match with_current_entry self g (state_section resulting_state) with
    | (Err e, self) => (Err e, self)
    | (Ok v, self) => (Ok v, push_observation self g StateChanged (DetailState resulting_state))
    end
  end.
Definition exact_use_available (self : Controller) (g : WorkspaceRuntimeGeneration)
    : result WorkspaceRuntimeError bool * Controller :=
  match ensure_not_shutdown self with
  | Err e => (Err e, self)
  | Ok _ => with_current_entry self g (fun e fl => (Ok (state_exact_use_available (lifecycle_state e)), e, fl))
  end.
Definition detach_root (self : Controller) (g : WorkspaceRuntimeGeneration) (reason : WorkspaceRuntimeTerminalReason)
    : result WorkspaceRuntimeError WorkspaceRuntimeView * Controller :=
  match ensure_not_shutdown self with
  | Err e => (Err e, self)
  | Ok _ =>
    match with_current_entry self g (detach_section reason) with
    | (Err e, self) => (Err e, self)
    | (Ok v, self) => (Ok v, push_observation self g DetachedKind (DetailTerminal reason))
    end
  end.

(** [shutdown] visits the roots in the order of their identities. *)
Definition shutdown_root (self : Controller) (root : Z) : Controller :=
  match roots self !! root with
  | Some e =>
    let '(e, fl) := cancel_all_tasks e (flags self) in
    set_entry self root (with_state e Shutdown (Some ReasonShutdown)) fl
  | None => self
  end.
Definition root_order (self : Controller) : list Z := sort_by Z.leb (map_to_list (roots self)).*1.
Definition close (self : Controller) : Controller :=
  mkController (controller_session self) (next_generation self) (next_task_id self) (next_observation self) true
    (roots self) (observations self) (dropped self) (flags self).
Definition shutdown (self : Controller) : Controller :=
  if is_shutdown self then self
  else
    let order := root_order self in
    let self := foldl shutdown_root (close self) order in
    foldl (fun self root =>
      match roots self !! root with
      | Some e => push_observation self (generation (context e)) ShutdownKind (DetailTerminal ReasonShutdown)
      | None => self
      end) self order.

(** ** Lemmas: one section *)

(** The entry on which an operation of this generation runs. *)
Definition current (self : Controller) (g : WorkspaceRuntimeGeneration) (e : RootEntry) : Prop :=
  session_id g = controller_session self /\ roots self !! root_id g = Some e /\ generation (context e) = g.

Lemma with_current_entry_spec {T} self g (operation : RootEntry -> gmap Z bool -> result WorkspaceRuntimeError T * RootEntry * gmap Z bool) :
  (exists e, current self g e /\
     with_current_entry self g operation =
       ((operation e (flags self)).1.1, set_entry self (root_id g) (operation e (flags self)).1.2 (operation e (flags self)).2)) \/
  ((forall e, ~ current self g e) /\ exists err, with_current_entry self g operation = (Err err, self)).
Proof.
  unfold with_current_entry, current. destruct (Z.eqb_spec (session_id g) (controller_session self)) as [Hs|Hs]; simpl.
  2:{ right. split; [by intros e (? & _)|by eexists]. }
  destruct (roots self !! root_id g) as [e|] eqn:E; [|right; split; [by intros e (_ & ? & _)|by eexists]].
  case_bool_decide as Hg.
  - left. exists e. split; [done|]. by destruct (operation e (flags self)) as [[r e'] fl].
  - right. split; [intros e' (_ & ? & ?); by simplify_eq|by eexists].
Qed.

(** What the observation window does not touch. *)
Definition same_roots (self self' : Controller) : Prop :=
  controller_session self' = controller_session self /\ next_generation self' = next_generation self /\
  next_task_id self' = next_task_id self /\ is_shutdown self' = is_shutdown self /\
  roots self' = roots self /\ flags self' = flags self.
Lemma same_roots_refl self : same_roots self self.
Proof. done. Qed.
Lemma same_roots_trans a b c : same_roots a b -> same_roots b c -> same_roots a c.
Proof. unfold same_roots. naive_solver congruence. Qed.
Lemma draw_same_roots self : same_roots self (draw_observation self).2.
Proof. unfold draw_observation. by case_match. Qed.
Lemma store_same_roots self o : same_roots self (store_observation self o).
Proof. unfold store_observation. by case_match. Qed.
Lemma push_same_roots self g kind detail : same_roots self (push_observation self g kind detail).
Proof.
  unfold push_observation. pose proof (draw_same_roots self) as H. destruct (draw_observation self) as [[seq|] s']; [|done].
  eapply same_roots_trans; [exact H|apply store_same_roots].
Qed.

Lemma as_u64_range x : 0 <= as_u64 x < 2 ^ 64.
Proof. unfold as_u64. change (2 ^ 64) with 18446744073709551616. apply Z.mod_pos_bound. lia. Qed.

(** Sessions minted by processes alive at the same time, or by one process
    at most 2^32 times, are distinct: the identity determines the process
    and the counter. *)
Lemma lor_shift a b n : 0 <= n -> 0 <= b < 2 ^ n -> Z.lor (Z.shiftl a n) b = a * 2 ^ n + b.
Proof.
  intros Hn Hb. rewrite Z.shiftl_mul_pow2 by done. symmetry. apply Z.add_nocarry_lor. apply Z.bits_inj'. intros i Hi.
  rewrite Z.land_spec, Z.bits_0. destruct (Z.ltb_spec i n); [by rewrite Z.mul_pow2_bits_low by lia|].
  replace b with (b `mod` 2 ^ n) by (apply Z.mod_small; lia). rewrite Z.mod_pow2_bits_high by lia. apply andb_false_r.
Qed.
Lemma mint_value nanos process counter : 0 <= process < 2 ^ 32 -> 0 <= counter < 2 ^ 32 ->
  mint nanos process counter = as_u64 nanos * 2 ^ 64 + process * 2 ^ 32 + counter.
Proof.
  intros Hp Hc. unfold mint. rewrite <-Z.lor_assoc, (lor_shift process) by lia. rewrite lor_shift; lia.
Qed.
Lemma mint_injective nanos process counter nanos' process' counter' :
  0 <= process < 2 ^ 32 -> 0 <= process' < 2 ^ 32 -> 0 <= counter < 2 ^ 32 -> 0 <= counter' < 2 ^ 32 ->
  mint nanos process counter = mint nanos' process' counter' ->
  as_u64 nanos = as_u64 nanos' /\ process = process' /\ counter = counter'.
Proof. intros Hp Hp' Hc Hc'. rewrite !mint_value by done. lia. Qed.
