(* ===== verification/RuntimeSteps.v ===== *)
(** * Concurrent use of the workspace root authority (perl-workspace/src/
      workspace/runtime_generation.rs)

    Threads call the controller's operations at the same time; each runs as
    its critical sections, and other threads run between them.  A
    configuration is the shared controller and the operations in flight, each
    with the sections it still has to run.  [shutdown] holds the lifecycle
    gate alone: it runs when nothing is in flight.  Two histories are kept
    for the statements: the handles issued, and the tasks completed.

    Proved: a superseded generation never regains authority; every task not
    completed is cancelled or owned by the current live generation of its
    root, or its transition is about to cancel it; shutdown is final; and
    the observation window is bounded and counts what it drops. *)

From stdpp Require Import base numbers list gmap.
From S2P Require Import Prelude Runtime.

(** ** Operations in flight *)

Definition note : Type :=
  WorkspaceRuntimeGeneration * WorkspaceRuntimeObservationKind * WorkspaceRuntimeObservationDetail.
Inductive pending :=
| AfterTaskId (g : WorkspaceRuntimeGeneration) (operation_id task_id : Z)
| ToRetire (prior : RootEntry) (context : WorkspaceRuntimeContext) (reason : WorkspaceRuntimeTransitionReason)
| ToDraw (todo : list note)
| ToStore (o : WorkspaceRuntimeObservation) (todo : list note).

Record config := mkConfig {
  controller : Controller;
  running : list pending;
  issued : gmap Z WorkspaceRuntimeTaskHandle;
  completed : gset Z;
}.
Definition config_new (session : Z) : config := mkConfig (controller_new session) [] ∅ ∅.

Definition transition_started (c : WorkspaceRuntimeContext) (reason : WorkspaceRuntimeTransitionReason) : note :=
  (generation c, TransitionStarted, DetailTransition reason).

(** ** Steps *)

(** The first section of an operation: the state it leaves, what the
    operation still has to do, and the task it completed, if any. *)
Inductive starts (s : Controller) : Controller -> pending -> option Z -> Prop :=
| starts_transition root reason inputs prior context s' :
    install s root reason inputs = (Ok (prior, context), s') ->
    starts s s' (match prior with
                 | Some prior => ToRetire prior context reason
                 | None => ToDraw [transition_started context reason]
                 end) None
| starts_register g operation_id task_id s' :
    ensure_not_shutdown s = Ok tt -> allocate_task_id s = (Ok task_id, s') ->
    starts s s' (AfterTaskId g operation_id task_id) None
| starts_complete handle s' :
    with_current_entry s (handle_generation handle) (complete_section handle) = (Ok tt, s') ->
    starts s s' (ToDraw [(handle_generation handle, TaskCompleted, DetailTask (handle_id handle) (handle_operation handle))])
      (Some (handle_id handle))
| starts_publication g publication r s' :
    check_publication s g = (r, s') ->
    starts s s' (ToDraw [(g, publication_kind r, DetailPublication publication)]) None
| starts_state g resulting_state v s' :
    ensure_not_shutdown s = Ok tt -> is_terminal resulting_state = false -> resulting_state <> Removing ->
    with_current_entry s g (state_section resulting_state) = (Ok v, s') ->
    starts s s' (ToDraw [(g, StateChanged, DetailState resulting_state)]) None
| starts_detach g reason v s' :
    ensure_not_shutdown s = Ok tt -> with_current_entry s g (detach_section reason) = (Ok v, s') ->
    starts s s' (ToDraw [(g, DetachedKind, DetailTerminal reason)]) None.

(** The next section of an operation in flight: the handle it issued, if
    any, and what is left of the operation. *)
Inductive continues (s : Controller) : pending -> Controller -> option WorkspaceRuntimeTaskHandle -> list pending -> Prop :=
| continues_register g operation_id task_id s' :
    with_current_entry s g (register_section task_id operation_id) = (Ok tt, s') ->
    continues s (AfterTaskId g operation_id task_id) s' (Some (mkHandle task_id operation_id g))
      [ToDraw [(g, TaskRegistered, DetailTask task_id operation_id)]]
| continues_refused g operation_id task_id e s' :
    with_current_entry s g (register_section task_id operation_id) = (Err e, s') ->
    continues s (AfterTaskId g operation_id task_id) s' None []
| continues_retire prior context reason g s' :
    retire s prior = (g, s') ->
    continues s (ToRetire prior context reason) s' None
      [ToDraw [(g, GenerationSuperseded, DetailTerminal ReasonSuperseded); transition_started context reason]]
| continues_draw g kind detail todo seq s' :
    draw_observation s = (Some seq, s') ->
    continues s (ToDraw ((g, kind, detail) :: todo)) s' None [ToStore (mkObservation seq g kind detail) todo]
| continues_exhausted n todo s' :
    draw_observation s = (None, s') -> continues s (ToDraw (n :: todo)) s' None [ToDraw todo]
| continues_store o todo : continues s (ToStore o todo) (store_observation s o) None [ToDraw todo]
| continues_done : continues s (ToDraw []) s None [].

Inductive step : config -> config -> Prop :=
| step_start s s' p done ps hs cs :
    starts s s' p done ->
    step (mkConfig s ps hs cs)
         (mkConfig s' (p :: ps) hs (match done with Some id => {[id]} ∪ cs | None => cs end))
| step_continue s s' p handle rest ps1 ps2 hs cs :
    continues s p s' handle rest ->
    step (mkConfig s (ps1 ++ p :: ps2) hs cs)
         (mkConfig s' (ps1 ++ rest ++ ps2)
            (match handle with Some h => <[handle_id h := h]> hs | None => hs end) cs)
| step_shutdown s hs cs : step (mkConfig s [] hs cs) (mkConfig (shutdown s) [] hs cs).

Notation steps := (rtc step).
Definition reachable (session : Z) (c : config) : Prop := steps (config_new session) c.

(** The operations called one at a time. *)
Inductive call :=
| CallBegin (root : Z) (reason : WorkspaceRuntimeTransitionReason) (i : WorkspaceRuntimeInputs)
| CallRegister (g : WorkspaceRuntimeGeneration) (operation_id : Z)
| CallComplete (handle : WorkspaceRuntimeTaskHandle)
| CallPublish (g : WorkspaceRuntimeGeneration) (publication : WorkspaceRuntimePublicationKind)
| CallState (g : WorkspaceRuntimeGeneration) (resulting_state : WorkspaceRuntimeLifecycleState)
| CallDetach (g : WorkspaceRuntimeGeneration) (reason : WorkspaceRuntimeTerminalReason)
| CallShutdown.
Definition perform (c : config) (op : call) : config :=
  let s := controller c in
  match op with
  | CallBegin root reason i => mkConfig (begin_transition s root reason i).2 (running c) (issued c) (completed c)
  | CallRegister g operation_id =>
    match register_root_task s g operation_id with
    | (Ok h, s) => mkConfig s (running c) (<[handle_id h := h]> (issued c)) (completed c)
    | (Err _, s) => mkConfig s (running c) (issued c) (completed c)
    end
  | CallComplete h =>
    match complete_task s h with
    | (Ok _, s) => mkConfig s (running c) (issued c) ({[handle_id h]} ∪ completed c)
    | (Err _, s) => mkConfig s (running c) (issued c) (completed c)
    end
  | CallPublish g publication => mkConfig (accept_publication s g publication).2 (running c) (issued c) (completed c)
  | CallState g st => mkConfig (complete_transition s g st).2 (running c) (issued c) (completed c)
  | CallDetach g reason => mkConfig (detach_root s g reason).2 (running c) (issued c) (completed c)
  | CallShutdown => mkConfig (shutdown s) (running c) (issued c) (completed c)
  end.

(** ** What a section does *)

Lemma current_functional s g e e' : current s g e -> current s g e' -> e = e'.
Proof. intros (_ & H & _) (_ & H' & _). congruence. Qed.

Lemma with_entry_ok {T} s g (op : RootEntry -> gmap Z bool -> result WorkspaceRuntimeError T * RootEntry * gmap Z bool) v s' :
  with_current_entry s g op = (Ok v, s') ->
  exists e, current s g e /\ (op e (flags s)).1.1 = Ok v /\
    s' = set_entry s (root_id g) (op e (flags s)).1.2 (op e (flags s)).2.
Proof.
  intros H. destruct (with_current_entry_spec s g op) as [(e & He & E)|(_ & err & E)]; rewrite E in H; [|done].
  exists e. by simplify_eq.
Qed.
(** A section that fails leaves the entry and the flags alone. *)
Lemma with_entry_err {T} s g (op : RootEntry -> gmap Z bool -> result WorkspaceRuntimeError T * RootEntry * gmap Z bool) err s' :
  (forall e fl err, (op e fl).1.1 = Err err -> (op e fl).1.2 = e /\ (op e fl).2 = fl) ->
  with_current_entry s g op = (Err err, s') -> s' = s.
Proof.
  intros Hop H. destruct (with_current_entry_spec s g op) as [(e & He & E)|(_ & err' & E)]; rewrite E in H; [|by simplify_eq].
  injection H as Hr <-. destruct (Hop _ _ _ Hr) as [-> ->]. destruct He as (_ & Hl & _).
  unfold set_entry. destruct s; simpl in *. by rewrite insert_id.
Qed.
Lemma register_refused s g id op err s' :
  with_current_entry s g (register_section id op) = (Err err, s') -> s' = s.
Proof. apply with_entry_err. intros e fl err'. unfold register_section. by case_match. Qed.
Lemma register_accepted s g id op s' :
  with_current_entry s g (register_section id op) = (Ok tt, s') ->
  exists e, current s g e /\ accepts_task_registration (lifecycle_state e) = true /\
    s' = set_entry s (root_id g)
           (mkEntry (context e) (lifecycle_state e) (terminal_reason e) (<[id := op]> (tasks e))) (<[id := false]> (flags s)).
Proof.
  intros (e & He & Hr & ->)%with_entry_ok. exists e. unfold register_section in *.
  by destruct (accepts_task_registration (lifecycle_state e)).
Qed.
Lemma publication_quiet s g r s' : check_publication s g = (r, s') -> s' = s.
Proof.
  unfold check_publication, ensure_not_shutdown. destruct (is_shutdown s); [by intros [= _ <-]|].
  intros H. destruct (with_current_entry_spec s g publication_section) as [(e & He & E)|(_ & err' & E)];
    rewrite E in H; injection H as _ <-; [|done].
  destruct He as (_ & Hl & _). unfold publication_section, set_entry. destruct s; simpl in *. case_match; simpl; by rewrite insert_id.
Qed.
(** A publication passes when the generation is current and its state accepts it. *)
Lemma publication_passes s g :
  (check_publication s g).1 = Ok tt <->
  is_shutdown s = false /\ exists e, current s g e /\ accepts_publication (lifecycle_state e) = true.
Proof.
  unfold check_publication, ensure_not_shutdown. destruct (is_shutdown s); [split; [done|by intros [? _]]|].
  destruct (with_current_entry_spec s g publication_section) as [(e & He & E)|(Hno & err & E)]; rewrite E.
  - split.
    + intros H. split; [done|]. exists e. split; [done|]. simpl in H. unfold publication_section in H.
      by destruct (accepts_publication (lifecycle_state e)).
    + intros (_ & e' & He' & Ha). rewrite (current_functional _ _ _ _ He' He) in Ha. simpl. unfold publication_section. by rewrite Ha.
  - split; [done|]. intros (_ & e & He & _). by destruct (Hno e).
Qed.

(** The entry left by a section that keeps the context. *)
Lemma completed_accepted s h s' :
  with_current_entry s (handle_generation h) (complete_section h) = (Ok tt, s') ->
  exists e, current s (handle_generation h) e /\ tasks e !! handle_id h = Some (handle_operation h) /\
    s' = set_entry s (root_id (handle_generation h))
           (mkEntry (context e) (lifecycle_state e) (terminal_reason e) (delete (handle_id h) (tasks e))) (flags s).
Proof.
  intros (e & He & Hr & ->)%with_entry_ok. exists e. unfold complete_section in *.
  destruct (tasks e !! handle_id h) as [o|]; [|done].
  destruct (Z.eqb_spec o (handle_operation h)) as [E|E]; simpl in *; [by rewrite E|done].
Qed.

(** ** Ownership: the invariant of the shared state *)

Definition retiring (ps : list pending) (e : RootEntry) : Prop :=
  exists context reason, ToRetire e context reason ∈ ps.
(** An entry some thread can still reach: a root's, or one being retired. *)
Definition held (s : Controller) (ps : list pending) (e : RootEntry) : Prop :=
  (exists root, roots s !! root = Some e) \/ retiring ps e.
Definition drawn_ids (ps : list pending) : list Z :=
  omap (fun p => match p with AfterTaskId _ _ id => Some id | _ => None end) ps.
Definition observing (p : pending) : bool := match p with ToDraw _ | ToStore _ _ => true | _ => false end.
Definition placed (s : Controller) (root : Z) (g : WorkspaceRuntimeGeneration) : Prop :=
  session_id g = controller_session s /\ root_id g = root /\ 1 <= sequence g < next_generation s.

Record owned (s : Controller) (ps : list pending) (hs : gmap Z WorkspaceRuntimeTaskHandle) (cs : gset Z) : Prop := mkOwned {
  owned_roots : forall root e, roots s !! root = Some e -> placed s root (generation (context e));
  owned_counter : 1 <= next_generation s;
  owned_tasks : forall e id op, held s ps e -> tasks e !! id = Some op ->
    hs !! id = Some (mkHandle id op (generation (context e)));
  owned_issued : forall id h, hs !! id = Some h -> handle_id h = id /\ id < next_task_id s /\ is_Some (flags s !! id);
  owned_drawn : NoDup (drawn_ids ps) /\ forall id, id ∈ drawn_ids ps -> id < next_task_id s /\ hs !! id = None;
  owned_live : forall id h, hs !! id = Some h -> id ∉ cs -> flags s !! id = Some false ->
    exists e, held s ps e /\ generation (context e) = handle_generation h /\ tasks e !! id = Some (handle_operation h);
  owned_terminal : forall root e, roots s !! root = Some e -> is_terminal (lifecycle_state e) = true -> tasks e = ∅;
  owned_shutdown : is_shutdown s = true ->
    Forall (fun p => observing p = true) ps /\ forall root e, roots s !! root = Some e -> lifecycle_state e = Shutdown;
}.

(** The invariant looks at the operations in flight as a multiset, and not
    at what only observes. *)
Lemma owned_perm s ps ps' hs cs : ps ≡ₚ ps' -> owned s ps hs cs -> owned s ps' hs cs.
Proof.
  intros Hp [H1 H2 H3 H4 H5 H6 H7 H8].
  assert (Hr : forall e, retiring ps e <-> retiring ps' e) by (intros e; unfold retiring; by setoid_rewrite Hp).
  assert (Hh : forall e, held s ps e <-> held s ps' e) by (intros e; unfold held; by rewrite Hr).
  assert (Hd : drawn_ids ps ≡ₚ drawn_ids ps') by (unfold drawn_ids; by rewrite Hp).
  split; try done.
  - intros e id op He. apply H3. by apply Hh.
  - by setoid_rewrite <-Hd.
  - intros id h Hi Hc Hf. destruct (H6 id h Hi Hc Hf) as (e & He & R). exists e. by rewrite <-Hh.
  - intros Hs. destruct (H8 Hs) as [Ha Hb]. by rewrite <-Hp.
Qed.
Lemma held_observing s p ps e : observing p = true -> held s (p :: ps) e <-> held s ps e.
Proof.
  intros Hp. unfold held, retiring. setoid_rewrite elem_of_cons.
  split; intros [?|(c & r & H)]; [by left| |by left|right; naive_solver].
  right. exists c, r. destruct H as [<-|H]; done.
Qed.
Lemma drawn_observing p ps : observing p = true -> drawn_ids (p :: ps) = drawn_ids ps.
Proof. by destruct p. Qed.
Lemma owned_observing s p ps hs cs : observing p = true -> owned s (p :: ps) hs cs <-> owned s ps hs cs.
Proof.
  intros Hp. split; intros [H1 H2 H3 H4 H5 H6 H7 H8].
  all: rewrite ?(drawn_observing p ps Hp) in *; split; try done.
  - intros e id op He. apply H3. by apply held_observing.
  - intros id h Hi Hc Hf. destruct (H6 id h Hi Hc Hf) as (e & He & R). exists e. by rewrite <-(held_observing s p ps e Hp).
  - intros Hs. destruct (H8 Hs) as [Ha Hb]. by apply Forall_cons in Ha as [_ Ha].
  - intros e id op He. apply H3. by eapply held_observing.
  - by rewrite drawn_observing.
  - intros id h Hi Hc Hf. destruct (H6 id h Hi Hc Hf) as (e & He & R). exists e. by rewrite (held_observing s p ps e Hp).
  - intros Hs. destruct (H8 Hs) as [Ha Hb]. by split; [constructor|].
Qed.
Lemma owned_same_roots s s' ps hs cs : same_roots s s' -> owned s ps hs cs -> owned s' ps hs cs.
Proof.
  intros (E1 & E2 & E3 & E4 & E5 & E6) [H1 H2 H3 H4 H5 H6 H7 H8].
  split; unfold held, placed in *; rewrite ?E1, ?E2, ?E3, ?E4, ?E5, ?E6 in *; done.
Qed.

(** ** Each section preserves the invariant *)

Lemma owned_new session : owned (controller_new session) [] ∅ ∅.
Proof.
  split; simpl; try done; try lia.
  - intros e id op [(root & H)|(? & ? & H)]; [done|by apply elem_of_nil in H].
  - by split; [constructor|intros ? ?%elem_of_nil].
Qed.

Lemma checked_add_1 x y : checked_add x 1 = Some y -> y = x + 1.
Proof. unfold checked_add. case_match; naive_solver. Qed.
Lemma allocate_sequence_ok counter exhausted n next : allocate_sequence counter exhausted = (Ok n, next) -> n = counter /\ next = counter + 1.
Proof. unfold allocate_sequence. destruct (checked_add counter 1) eqn:E; [|done]. intros [= -> ->]. by apply checked_add_1 in E. Qed.

Lemma install_accepted s root reason inputs prior ctx s' :
  install s root reason inputs = (Ok (prior, ctx), s') ->
  is_shutdown s = false /\ prior = roots s !! root /\
  ctx = mkContext (mkGeneration (controller_session s) root (next_generation s)) inputs /\
  s' = mkController (controller_session s) (next_generation s + 1) (next_task_id s) (next_observation s) (is_shutdown s)
         (<[root := mkEntry ctx (initial_state reason) None ∅]> (roots s)) (observations s) (dropped s) (flags s).
Proof.
  unfold install. destruct (is_shutdown s); [done|]. destruct (allocate_sequence _ _) as [[n|] next] eqn:E; [|done].
  apply allocate_sequence_ok in E as [-> ->]. intros [= <- <- <-]. done.
Qed.

(** Replacing a root's entry keeps every other reachable entry, and the
    replaced one when a transition keeps it. *)
Lemma held_insert s ps root e' fl e :
  held (set_entry s root e' fl) ps e -> held s ps e \/ e = e'.
Proof.
  intros [(r & H)|H]; [|by left; right]. simpl in H. destruct (decide (r = root)) as [->|Hr].
  - rewrite lookup_insert_eq in H. by simplify_eq; right.
  - rewrite lookup_insert_ne in H by done. left. left. by exists r.
Qed.
Lemma held_insert_keeps s ps root e0 e' fl e :
  roots s !! root = Some e0 -> held s ps e -> held (set_entry s root e' fl) ps e \/ e = e0.
Proof.
  intros H0 [(r & H)|H]; [|by left; right]. destruct (decide (r = root)) as [->|Hr]; [right; congruence|].
  left. left. exists r. simpl. by rewrite lookup_insert_ne.
Qed.

Lemma owned_install s root reason inputs prior ctx s' ps hs cs :
  install s root reason inputs = (Ok (prior, ctx), s') -> owned s ps hs cs ->
  owned s' (match prior with Some prior => [ToRetire prior ctx reason] | None => [] end ++ ps) hs cs.
Proof.
  intros (Hs & Hp & Hc & ->)%install_accepted [H1 H2 H3 H4 H5 H6 H7 H8]. set (e' := mkEntry ctx (initial_state reason) None ∅).
  set (s' := mkController _ _ _ _ _ _ _ _ _). set (ps' := _ ++ ps).
  assert (Hroots : forall r e, roots s' !! r = Some e -> (r = root /\ e = e') \/ (r <> root /\ roots s !! r = Some e)).
  { intros r e. simpl. destruct (decide (r = root)) as [->|Hr]; [rewrite lookup_insert_eq|rewrite lookup_insert_ne by done]; naive_solver. }
  assert (Hret : forall e, retiring ps' e <-> prior = Some e \/ retiring ps e).
  { intros e. subst ps'. unfold retiring. destruct prior as [p|]; simpl; [setoid_rewrite elem_of_cons|]; naive_solver. }
  assert (Hheld : forall e, held s' ps' e -> e = e' \/ held s ps e).
  { intros e [(r & [[-> ->]|[Hr H]]%Hroots)|[H|H]%Hret]; [by left|right; left; by exists r| |by right; right].
    right. left. exists root. congruence. }
  assert (Hkeep : forall e, held s ps e -> held s' ps' e).
  { intros e [(r & H)|H]; [|right; apply Hret; by right]. destruct (decide (r = root)) as [->|Hr].
    - right. apply Hret. left. congruence.
    - left. exists r. simpl. by rewrite lookup_insert_ne. }
  assert (Hd : drawn_ids ps' = drawn_ids ps) by (subst ps'; by destruct prior).
  split; rewrite ?Hd; try done.
  - intros r e [[-> ->]|[Hr H]]%Hroots; unfold placed; simpl; rewrite ?Hc; simpl; [lia|].
    destruct (H1 r e H) as (E1 & E2 & E3). simpl. repeat split; try done; lia.
  - simpl. lia.
  - intros e id op [->|He]%Hheld Ht; [by simpl in Ht|by apply H3].
  - intros id h Hi Hcs Hf. destruct (H6 id h Hi Hcs Hf) as (e & He & R). exists e. split; [by apply Hkeep|done].
  - intros r e [[-> ->]|[Hr H]]%Hroots Ht; [done|by apply (H7 r)].
  - simpl. rewrite Hs. done.
Qed.

Lemma owned_allocate s g op id s' ps hs cs :
  allocate_task_id s = (Ok id, s') -> is_shutdown s = false -> owned s ps hs cs -> owned s' (AfterTaskId g op id :: ps) hs cs.
Proof.
  unfold allocate_task_id. intros H Hs [H1 H2 H3 H4 H5 H6 H7 H8].
  destruct (allocate_sequence _ _) as [r next] eqn:E. injection H as -> <-. apply allocate_sequence_ok in E as [-> ->].
  assert (Hr : forall e, retiring (AfterTaskId g op (next_task_id s) :: ps) e <-> retiring ps e).
  { intros e. unfold retiring. setoid_rewrite elem_of_cons. naive_solver. }
  split; try done; simpl; try (unfold held in *; setoid_rewrite Hr; done).
  - intros i h Hi. destruct (H4 i h Hi) as (? & ? & ?). repeat split; [done|lia|done].
  - destruct H5 as [Hn Hd]. split.
    + constructor; [|done]. intros Hin. destruct (Hd _ Hin). lia.
    + intros i [->|Hin]%elem_of_cons.
      * split; [lia|]. destruct (hs !! next_task_id s) as [h|] eqn:Eh; [|done]. destruct (H4 _ _ Eh) as (_ & ? & _). lia.
      * destruct (Hd _ Hin). split; [lia|done].
  - by rewrite Hs.
Qed.

(** A section of the current generation that issues no task: it may take
    tasks out, if it cancels or completes them. *)
Lemma owned_entry s g e e' fl ps hs cs cs' :
  current s g e -> context e' = context e -> tasks e' ⊆ tasks e -> cs ⊆ cs' ->
  (is_terminal (lifecycle_state e') = true -> tasks e' = ∅) ->
  (is_shutdown s = true -> lifecycle_state e = Shutdown -> lifecycle_state e' = Shutdown) ->
  (forall id, is_Some (flags s !! id) -> is_Some (fl !! id)) ->
  (forall id, fl !! id = Some false -> flags s !! id = Some false) ->
  (forall id op, tasks e !! id = Some op -> fl !! id = Some false -> id ∉ cs' -> tasks e' !! id = Some op) ->
  owned s ps hs cs -> owned (set_entry s (root_id g) e' fl) ps hs cs'.
Proof.
  intros (Hg1 & Hg2 & Hg3) Hc Ht Hcs Hterm Hsh Hf1 Hf2 Hf3 [H1 H2 H3 H4 H5 H6 H7 H8].
  assert (Hroots : forall r x, roots (set_entry s (root_id g) e' fl) !! r = Some x ->
            (r = root_id g /\ x = e') \/ (r <> root_id g /\ roots s !! r = Some x)).
  { intros r x. simpl. destruct (decide (r = root_id g)) as [->|Hr];
      [rewrite lookup_insert_eq|rewrite lookup_insert_ne by done]; naive_solver. }
  split; try done.
  - intros r x [[-> ->]|[Hr H]]%Hroots; unfold placed; simpl; [rewrite Hc|]; by apply H1.
  - intros x id op [He| ->]%held_insert Hx; [by apply H3|]. rewrite Hc. apply H3; [left; by eexists|].
    by eapply lookup_weaken.
  - intros id h Hi. destruct (H4 id h Hi) as (? & ? & ?). repeat split; [done|done|by apply Hf1].
  - intros id h Hi Hn Hf. simpl in Hf. destruct (H6 id h Hi) as (x & Hx & Hxg & Hxt); [set_solver|by apply Hf2|].
    destruct (held_insert_keeps s ps (root_id g) e e' fl x Hg2 Hx) as [Hk| ->]; [by exists x|].
    exists e'. split; [left; exists (root_id g); simpl; by rewrite lookup_insert_eq|]. split; [by rewrite Hc|]. by apply Hf3.
  - intros r x [[-> ->]|[Hr H]]%Hroots; [done|by apply (H7 r)].
  - intros Hs. destruct (H8 Hs) as [Ha Hb]. split; [done|].
    intros r x [[-> ->]|[Hr H]]%Hroots; [apply (Hsh Hs)|]; by eapply Hb.
Qed.

Lemma owned_register s g op id s' ps hs cs :
  with_current_entry s g (register_section id op) = (Ok tt, s') ->
  owned s (AfterTaskId g op id :: ps) hs cs -> owned s' ps (<[id := mkHandle id op g]> hs) cs.
Proof.
  intros (e & He & Ha & ->)%register_accepted [H1 H2 H3 H4 [Hn Hd] H6 H7 H8].
  pose proof He as (Hg1 & Hg2 & Hg3). apply NoDup_cons in Hn as [Hnin Hn].
  set (e' := mkEntry _ _ _ _). set (s' := set_entry _ _ _ _).
  destruct (Hd id (list_elem_of_here _ _)) as [Hlt Hnone].
  assert (Hret : forall x, retiring (AfterTaskId g op id :: ps) x <-> retiring ps x).
  { intros x. unfold retiring. setoid_rewrite elem_of_cons. naive_solver. }
  assert (Hheld : forall x, held s (AfterTaskId g op id :: ps) x <-> held s ps x) by (intros x; unfold held; by rewrite Hret).
  assert (Hroots : forall r x, roots s' !! r = Some x -> (r = root_id g /\ x = e') \/ (r <> root_id g /\ roots s !! r = Some x)).
  { intros r x. simpl. destruct (decide (r = root_id g)) as [->|Hr];
      [rewrite lookup_insert_eq|rewrite lookup_insert_ne by done]; naive_solver. }
  assert (Hnew : forall x, held s ps x -> tasks x !! id = None).
  { intros x Hx. destruct (tasks x !! id) as [o|] eqn:E; [|done]. apply Hheld in Hx. by rewrite (H3 x id o Hx E) in Hnone. }
  split; try done.
  - intros r x [[-> ->]|[Hr H]]%Hroots; unfold placed; simpl; by apply H1.
  - intros x i o Hx Ht. destruct (held_insert _ _ _ _ _ _ Hx) as [Hx'| ->].
    + rewrite lookup_insert_ne by (intros ->; by rewrite (Hnew x Hx') in Ht). apply H3; [by apply Hheld|done].
    + change (<[id := op]> (tasks e) !! i = Some o) in Ht. change (context e') with (context e).
      destruct (decide (i = id)) as [->|Hi].
      * rewrite lookup_insert_eq in Ht. rewrite lookup_insert_eq. injection Ht as ->. by rewrite Hg3.
      * rewrite lookup_insert_ne in Ht by done. rewrite lookup_insert_ne by done. apply H3; [left; by eexists|done].
  - intros i h Hi. simpl. destruct (decide (i = id)) as [->|Hii].
    + rewrite lookup_insert_eq in Hi. rewrite lookup_insert_eq. injection Hi as <-. simpl. eauto.
    + rewrite lookup_insert_ne in Hi by done. rewrite lookup_insert_ne by done. by apply H4.
  - split; [done|]. intros i Hi. destruct (Hd i) as [? ?]; [by apply elem_of_cons; right|].
    split; [done|]. rewrite lookup_insert_ne; [done|]. intros ->. done.
  - intros i h Hi Hni Hf. simpl in Hf. destruct (decide (i = id)) as [->|Hii].
    + rewrite lookup_insert_eq in Hi. injection Hi as <-. exists e'. split; [left; exists (root_id g); simpl; by rewrite lookup_insert_eq|].
      split; [done|]. simpl. by rewrite lookup_insert_eq.
    + rewrite lookup_insert_ne in Hi by done. rewrite lookup_insert_ne in Hf by done. destruct (H6 i h Hi Hni Hf) as (x & Hx & Hxg & Hxt). apply Hheld in Hx.
      destruct (held_insert_keeps s ps (root_id g) e e' (<[id:=false]> (flags s)) x Hg2 Hx) as [Hk| ->]; [by exists x|].
      exists e'. split; [left; exists (root_id g); simpl; by rewrite lookup_insert_eq|]. split; [done|]. simpl. by rewrite lookup_insert_ne.
  - intros r x [[-> ->]|[Hr H]]%Hroots; [|by apply (H7 r)]. simpl. intros Hterm. exfalso.
    by destruct (lifecycle_state e).
  - intros Hs. destruct (H8 Hs) as [Ha' _]. by apply Forall_cons in Ha' as [? _].
Qed.

(** Flags only go up. *)
Lemma cancelled_flags (ts : gmap Z Z) (fl : gmap Z bool) id :
  (((fun _ => true) <$> ts) ∪ fl) !! id = match ts !! id with Some _ => Some true | None => fl !! id end.
Proof.
  destruct (ts !! id) as [o|] eqn:E.
  - apply lookup_union_Some_l. by rewrite lookup_fmap, E.
  - rewrite lookup_union_r; [done|]. by rewrite lookup_fmap, E.
Qed.

Lemma owned_retire s prior ctx reason g s' ps hs cs :
  retire s prior = (g, s') -> owned s (ToRetire prior ctx reason :: ps) hs cs -> owned s' ps hs cs.
Proof.
  unfold retire, cancel_all_tasks. intros [= <- <-] [H1 H2 H3 H4 H5 H6 H7 H8]. set (s' := mkController _ _ _ _ _ _ _ _ _).
  assert (Hheld : forall x, held s (ToRetire prior ctx reason :: ps) x <-> x = prior \/ held s' ps x).
  { intros x. unfold held, retiring. simpl. setoid_rewrite elem_of_cons. naive_solver. }
  split; try done.
  - intros x id op Hx. apply H3. apply Hheld. by right.
  - intros id h Hi. destruct (H4 id h Hi) as (? & ? & ?). repeat split; [done..|]. simpl. rewrite cancelled_flags. by case_match.
  - intros id h Hi Hn Hf. simpl in Hf. rewrite cancelled_flags in Hf. destruct (tasks prior !! id) eqn:Et; [done|].
    destruct (H6 id h Hi Hn Hf) as (x & [->|Hx]%Hheld & Hxg & Hxt); [congruence|]. by exists x.
  - intros Hs. destruct (H8 Hs) as [Ha _]. by apply Forall_cons in Ha as [? _].
Qed.

(** ** Shutdown closes every root *)

Lemma shutdown_root_close s r : shutdown_root (close s) r = close (shutdown_root s r).
Proof. unfold shutdown_root. simpl. by destruct (roots s !! r). Qed.
Lemma shutdown_roots_close l s : foldl shutdown_root (close s) l = close (foldl shutdown_root s l).
Proof. revert s. induction l as [|r l IH]; intros s; simpl; [done|]. by rewrite shutdown_root_close, IH. Qed.

Lemma owned_shutdown_root s r ps hs cs : owned s ps hs cs -> owned (shutdown_root s r) ps hs cs.
Proof.
  intros Ho. unfold shutdown_root, cancel_all_tasks. destruct (roots s !! r) as [e|] eqn:E; [|done].
  destruct (owned_roots _ _ _ _ Ho r e E) as (Hs & <- & _).
  apply (owned_entry s (generation (context e)) e _ _ ps hs cs cs); simpl; try done.
  - apply map_empty_subseteq.
  - intros id. rewrite cancelled_flags. by case_match.
  - intros id. rewrite cancelled_flags. by case_match.
  - intros id op Ht. rewrite cancelled_flags, Ht. done.
Qed.
Lemma owned_shutdown_roots l : forall s ps hs cs, owned s ps hs cs -> owned (foldl shutdown_root s l) ps hs cs.
Proof. induction l as [|r l IH]; intros s ps hs cs Ho; simpl; [done|]. apply IH. by apply owned_shutdown_root. Qed.
Lemma shutdown_root_entries s r : forall r' e, roots (shutdown_root s r) !! r' = Some e ->
  (r' = r /\ lifecycle_state e = Shutdown) \/ (r' <> r /\ roots s !! r' = Some e).
Proof.
  intros r' e. unfold shutdown_root, cancel_all_tasks. destruct (roots s !! r) as [x|] eqn:E; simpl.
  - destruct (decide (r' = r)) as [->|Hr]; [rewrite lookup_insert_eq|rewrite lookup_insert_ne by done]; [|by right].
    intros [= <-]. by left.
  - intros H. right. split; [congruence|done].
Qed.
Lemma shutdown_roots_entries l : forall s r e, roots (foldl shutdown_root s l) !! r = Some e ->
  lifecycle_state e = Shutdown \/ (r ∉ l /\ roots s !! r = Some e).
Proof.
  induction l as [|r0 l IH]; intros s r e; simpl; [intros H; right; split; [apply not_elem_of_nil|done]|].
  intros [?|[Hn H]]%IH; [by left|]. apply shutdown_root_entries in H as [[-> ?]|[Hne H]]; [by left|right].
  by rewrite not_elem_of_cons.
Qed.
Lemma root_order_complete s r e : roots s !! r = Some e -> r ∈ root_order s.
Proof. intros H. unfold root_order. rewrite sort_by_perm. apply list_elem_of_fmap. exists (r, e). split; [done|by apply elem_of_map_to_list]. Qed.

Lemma foldl_same_roots {A} (f : Controller -> A -> Controller) l : (forall s a, same_roots s (f s a)) -> forall s, same_roots s (foldl f s l).
Proof. intros Hf. induction l as [|a l IH]; intros s; simpl; [done|]. eapply same_roots_trans; [apply Hf|apply IH]. Qed.

Lemma owned_shutdown_step s hs cs : owned s [] hs cs -> owned (shutdown s) [] hs cs.
Proof.
  intros Ho. unfold shutdown. destruct (is_shutdown s); [done|]. rewrite shutdown_roots_close.
  set (s1 := foldl shutdown_root s (root_order s)).
  eapply owned_same_roots; [apply foldl_same_roots; intros s2 r; destruct (roots s2 !! r); [apply push_same_roots|done]|].
  assert (Ho1 : owned s1 [] hs cs) by (by apply owned_shutdown_roots).
  destruct Ho1 as [H1 H2 H3 H4 H5 H6 H7 H8]. split; try done.
  intros _. split; [constructor|]. intros r e Hr. destruct (shutdown_roots_entries _ _ _ _ Hr) as [?|[Hn H]]; [done|].
  by apply root_order_complete in H.
Qed.

(** ** The invariant of every reachable configuration *)

Definition good (c : config) : Prop := owned (controller c) (running c) (issued c) (completed c).

Lemma not_shutdown s : ensure_not_shutdown s = Ok tt -> is_shutdown s = false.
Proof. unfold ensure_not_shutdown. by destruct (is_shutdown s). Qed.
(** A registration that was refused drops its identity. *)
Lemma owned_dropped s g op id ps hs cs : owned s (AfterTaskId g op id :: ps) hs cs -> owned s ps hs cs.
Proof.
  intros [H1 H2 H3 H4 [Hn Hd] H6 H7 H8].
  assert (Hh : forall x, held s (AfterTaskId g op id :: ps) x <-> held s ps x).
  { intros x. unfold held, retiring. setoid_rewrite elem_of_cons. naive_solver. }
  split; try done.
  - intros x i o Hx. apply H3. by apply Hh.
  - apply NoDup_cons in Hn as [_ Hn]. split; [done|]. intros i Hi. apply Hd. by apply elem_of_cons; right.
  - intros i h Hi Hn' Hf. destruct (H6 i h Hi Hn' Hf) as (x & Hx & R). exists x. by rewrite <-Hh.
  - intros Hs. destruct (H8 Hs) as [Ha _]. by apply Forall_cons in Ha as [? _].
Qed.
Lemma owned_starts s s' p done ps hs cs :
  starts s s' p done -> owned s ps hs cs ->
  owned s' (p :: ps) hs (match done with Some id => {[id]} ∪ cs | None => cs end).
Proof.
  intros Hst Ho. destruct Hst as [root reason inputs prior ctx s' Hi|g op id s' Hsh Ha|h s' Hc|g pub r s' Hp|g st v s' Hsh Ht Hr Hs|g reason v s' Hsh Hd].
  - apply (owned_install _ _ _ _ _ _ _ _ _ _ Hi) in Ho. destruct prior; [done|]. by apply owned_observing.
  - eapply owned_allocate; try done. unfold ensure_not_shutdown in Hsh. by destruct (is_shutdown s).
  - apply owned_observing; [done|]. apply completed_accepted in Hc as (e & He & Ht & ->).
    apply (owned_entry s _ e _ _ _ _ cs); try done; simpl; [apply delete_subseteq|set_solver|..].
    + intros Hterm. destruct He as (_ & He & _). rewrite (owned_terminal _ _ _ _ Ho _ _ He Hterm). apply delete_empty.
    + intros id op Hid Hf Hn. rewrite lookup_delete_ne; [done|set_solver].
  - apply owned_observing; [done|]. by apply publication_quiet in Hp as ->.
  - apply owned_observing; [done|]. apply with_entry_ok in Hs as (e & He & _ & ->).
    apply (owned_entry s g e _ _ _ _ cs); try done; simpl; [by rewrite Ht|]. intros Hd. by rewrite (not_shutdown _ Hsh) in Hd.
  - apply owned_observing; [done|]. apply with_entry_ok in Hd as (e & He & _ & ->).
    apply (owned_entry s g e _ _ _ _ cs); try done; simpl; [apply map_empty_subseteq|..].
    + intros Hd. by rewrite (not_shutdown _ Hsh) in Hd.
    + intros id. rewrite cancelled_flags. by case_match.
    + intros id. rewrite cancelled_flags. by case_match.
    + intros id op Hid. by rewrite cancelled_flags, Hid.
Qed.

Lemma owned_continues s p s' handle rest ps hs cs :
  continues s p s' handle rest -> owned s (p :: ps) hs cs ->
  owned s' (rest ++ ps) (match handle with Some h => <[handle_id h := h]> hs | None => hs end) cs.
Proof.
  intros Hc Ho. destruct Hc as [g op id s' Hr|g op id e s' Hr|prior ctx reason g s' Hr|g kind detail todo n s' Hd|n todo s' Hd|o todo|];
    simpl; try (apply owned_observing in Ho; [|done]); try (apply owned_observing; [done|]); try done.
  - by eapply owned_register.
  - apply register_refused in Hr as ->. by eapply owned_dropped.
  - by eapply owned_retire.
  - eapply owned_same_roots; [|done]. change s' with (Some n, s').2. rewrite <-Hd. apply draw_same_roots.
  - eapply owned_same_roots; [|done]. change s' with (@None Z, s').2. rewrite <-Hd. apply draw_same_roots.
  - eapply owned_same_roots; [apply store_same_roots|done].
Qed.

Lemma step_good c c' : step c c' -> good c -> good c'.
Proof.
  unfold good. destruct 1 as [s s' p done ps hs cs Hst|s s' p handle rest ps1 ps2 hs cs Hc|s hs cs]; simpl; intros Ho.
  - by eapply owned_starts.
  - eapply (owned_perm _ (rest ++ ps1 ++ ps2)); [solve_Permutation|]. eapply owned_continues; [exact Hc|].
    eapply owned_perm; [|exact Ho]. solve_Permutation.
  - by apply owned_shutdown_step.
Qed.
Lemma steps_good c c' : steps c c' -> good c -> good c'.
Proof. induction 1; [done|]. eauto using step_good. Qed.
Lemma reachable_good session c : reachable session c -> good c.
Proof. intros H. eapply steps_good; [exact H|]. apply owned_new. Qed.

(** ** Generations only advance *)

Record advances (s s' : Controller) : Prop := mkAdvances {
  advances_session : controller_session s' = controller_session s;
  advances_counter : next_generation s <= next_generation s';
  advances_shutdown : is_shutdown s = true -> is_shutdown s' = true;
  advances_fresh : forall g e', current s' g e' -> (exists e, current s g e) \/ next_generation s <= sequence g;
  advances_roots : forall r e, roots s !! r = Some e -> exists e', roots s' !! r = Some e' /\
    (context e' = context e \/ sequence (generation (context e')) >= next_generation s);
}.
Lemma advances_trans a b c : advances a b -> advances b c -> advances a c.
Proof.
  intros [A1 A2 A3 A4 A5] [B1 B2 B3 B4 B5]. split; [congruence|lia|naive_solver|..].
  - intros g e' [[e He]|?]%B4; [|right; lia]. by eapply A4.
  - intros r e (e1 & H1 & E1)%A5. destruct (B5 r e1 H1) as (e2 & H2 & E2). exists e2. split; [done|].
    destruct E2 as [E2|?]; [rewrite E2; by destruct E1; [left|right; congruence]|right; lia].
Qed.
Lemma advances_same_roots s s' : same_roots s s' -> advances s s'.
Proof.
  intros (E1 & E2 & E3 & E4 & E5 & E6). split; [done|lia|congruence|..].
  - intros g e'. unfold current. rewrite E1, E5. left. eauto.
  - intros r e H. exists e. rewrite E5. auto.
Qed.
Lemma advances_set_entry s root e e' fl :
  roots s !! root = Some e -> context e' = context e -> advances s (set_entry s root e' fl).
Proof.
  intros He Hc. split; simpl; [done|lia|done|..].
  - intros g x (Hs & Hx & Hg). simpl in *. left. destruct (decide (root_id g = root)) as [<-|Hr].
    + rewrite lookup_insert_eq in Hx. injection Hx as <-. exists e. split; [done|]. split; [done|]. by rewrite <-Hc.
    + rewrite lookup_insert_ne in Hx by done. by exists x.
  - intros r x Hx. destruct (decide (r = root)) as [->|Hr].
    + rewrite lookup_insert_eq. exists e'. split; [done|]. left. congruence.
    + rewrite lookup_insert_ne by done. eauto.
Qed.
Lemma advances_install s root reason inputs r s' : install s root reason inputs = (Ok r, s') -> advances s s'.
Proof.
  destruct r as [prior ctx]. intros (Hs & -> & -> & ->)%install_accepted. split; simpl; [done|lia|done|..].
  - intros g e' (Hg & He & Heq). simpl in *. destruct (decide (root_id g = root)) as [<-|Hr].
    + rewrite lookup_insert_eq in He. injection He as <-. right. rewrite <-Heq. simpl. lia.
    + rewrite lookup_insert_ne in He by done. left. by exists e'.
  - intros r x Hx. destruct (decide (r = root)) as [->|Hr].
    + rewrite lookup_insert_eq. eexists. split; [done|]. simpl. right. lia.
    + rewrite lookup_insert_ne by done. eauto.
Qed.
Lemma advances_section {T} s g (op : RootEntry -> gmap Z bool -> result WorkspaceRuntimeError T * RootEntry * gmap Z bool) v s' :
  (forall e fl, context (op e fl).1.2 = context e) -> with_current_entry s g op = (Ok v, s') -> advances s s'.
Proof. intros Hop (e & (_ & He & _) & _ & ->)%with_entry_ok. by eapply advances_set_entry. Qed.
Lemma register_context id op e fl : context (register_section id op e fl).1.2 = context e.
Proof. unfold register_section. by case_match. Qed.
Lemma complete_context h e fl : context (complete_section h e fl).1.2 = context e.
Proof. unfold complete_section. repeat case_match; done. Qed.
Lemma advances_allocate s id s' : allocate_task_id s = (Ok id, s') -> advances s s'.
Proof.
  unfold allocate_task_id. destruct (allocate_sequence _ _) as [r next]. intros [= _ <-].
  split; simpl; [done|lia|done| |eauto]. intros g e He. left. by exists e.
Qed.
Lemma advances_shutdown_root s r : advances s (shutdown_root s r).
Proof.
  unfold shutdown_root, cancel_all_tasks. destruct (roots s !! r) as [e|] eqn:E; [by eapply advances_set_entry|].
  by apply advances_same_roots.
Qed.
Lemma advances_foldl {A} (f : Controller -> A -> Controller) l : (forall s a, advances s (f s a)) -> forall s, advances s (foldl f s l).
Proof.
  intros Hf. induction l as [|a l IH]; intros s; simpl; [by apply advances_same_roots|]. eapply advances_trans; [apply Hf|apply IH].
Qed.
Lemma advances_close s : advances s (close s).
Proof. split; simpl; [done|lia|done|left; eauto|eauto]. Qed.
Lemma shutdown_advances s : advances s (shutdown s).
Proof.
  unfold shutdown. destruct (is_shutdown s); [by apply advances_same_roots|].
  eapply advances_trans; [apply advances_close|]. eapply advances_trans; [apply (advances_foldl shutdown_root), advances_shutdown_root|].
  apply advances_foldl. intros s' r. apply advances_same_roots. destruct (roots s' !! r); [apply push_same_roots|done].
Qed.

Lemma step_advances c c' : step c c' -> advances (controller c) (controller c').
Proof.
  destruct 1 as [s s' p done ps hs cs Hst|s s' p handle rest ps1 ps2 hs cs Hc|s hs cs]; simpl; [| |apply shutdown_advances].
  - destruct Hst as [root reason inputs prior ctx s' Hi|g op id s' Hsh Ha|h s' Hc|g pub r s' Hp|g st v s' Hsh Ht Hr Hs|g reason v s' Hsh Hd].
    + by eapply advances_install.
    + by eapply advances_allocate.
    + eapply advances_section; [apply complete_context|done].
    + apply publication_quiet in Hp as ->. by apply advances_same_roots.
    + eapply advances_section; [|done]. done.
    + eapply advances_section; [|done]. done.
  - destruct Hc as [g op id s' Hr|g op id e s' Hr|prior ctx reason g s' Hr|g kind detail todo n s' Hd|n todo s' Hd|o todo|].
    + eapply advances_section; [apply register_context|done].
    + apply register_refused in Hr as ->. by apply advances_same_roots.
    + unfold retire, cancel_all_tasks in Hr. injection Hr as _ <-. split; simpl; [done|lia|done|left; eauto|eauto].
    + apply advances_same_roots. change s' with (Some n, s').2. rewrite <-Hd. apply draw_same_roots.
    + apply advances_same_roots. change s' with (@None Z, s').2. rewrite <-Hd. apply draw_same_roots.
    + apply advances_same_roots, store_same_roots.
    + by apply advances_same_roots.
Qed.
Lemma steps_advances c c' : steps c c' -> advances (controller c) (controller c').
Proof. induction 1; [by apply advances_same_roots|]. eapply advances_trans; [by apply step_advances|done]. Qed.

(** ** The observation window *)

Definition to_store (ps : list pending) : list WorkspaceRuntimeObservation :=
  omap (fun p => match p with ToStore o _ => Some o | _ => None end) ps.
Definition window_of (s : Controller) (ps : list pending) : list Z :=
  observation_sequence <$> (observations s ++ to_store ps).
Record windowed (s : Controller) (ps : list pending) : Prop := mkWindowed {
  windowed_len : len (observations s) <= MAX_OBSERVATIONS;
  windowed_dropped : 0 <= dropped s;
  windowed_next : 1 <= next_observation s <= usize_max;
  windowed_distinct : NoDup (window_of s ps);
  windowed_drawn : Forall (fun seq => 1 <= seq < next_observation s) (window_of s ps);
  windowed_count : next_observation s < usize_max ->
    next_observation s - 1 = len (observations s) + dropped s + len (to_store ps);
}.

Lemma windowed_new session : windowed (controller_new session) [].
Proof. split; simpl; unfold usize_max, len, MAX_OBSERVATIONS; simpl; try lia; constructor. Qed.
Lemma windowed_perm s ps ps' : ps ≡ₚ ps' -> windowed s ps -> windowed s ps'.
Proof.
  intros Hp [H1 H2 H3 H4 H5 H6].
  assert (Hs : to_store ps ≡ₚ to_store ps') by (unfold to_store; by rewrite Hp).
  assert (Hw : window_of s ps ≡ₚ window_of s ps') by (unfold window_of; by rewrite Hs).
  split; try done; [by rewrite <-Hw..|]. intros H. rewrite (H6 H). unfold len. by rewrite Hs.
Qed.
(** Only the counter, the window and what is still to be stored matter. *)
Lemma windowed_ext s s' ps ps' :
  observations s' = observations s -> dropped s' = dropped s -> next_observation s' = next_observation s ->
  to_store ps' = to_store ps -> windowed s ps -> windowed s' ps'.
Proof.
  intros E1 E2 E3 E4 [H1 H2 H3 H4 H5 H6]. split; unfold window_of in *; by rewrite ?E1, ?E2, ?E3, ?E4.
Qed.
Lemma windowed_draw s seq s' g kind detail todo ps :
  draw_observation s = (Some seq, s') -> windowed s ps ->
  windowed s' (ToStore (mkObservation seq g kind detail) todo :: ps).
Proof.
  unfold draw_observation, checked_add. destruct (Z.leb_spec (next_observation s + 1) usize_max) as [Hlt|]; [|done].
  intros [= <- <-] [H1 H2 H3 H4 H5 H6].
  assert (Hw : forall x, window_of s (ToStore (mkObservation (next_observation s) g kind detail) x :: ps) ≡ₚ next_observation s :: window_of s ps).
  { intros x. unfold window_of. rewrite !fmap_app. simpl. by rewrite Permutation_middle. }
  split; simpl; try done; try lia.
  - change (NoDup (window_of s (ToStore (mkObservation (next_observation s) g kind detail) todo :: ps))). rewrite Hw.
    constructor; [|done]. intros Hin. rewrite Forall_forall in H5. specialize (H5 _ Hin). lia.
  - change (Forall (fun seq => 1 <= seq < next_observation s + 1) (window_of s (ToStore (mkObservation (next_observation s) g kind detail) todo :: ps))).
    rewrite Hw. constructor; [lia|]. eapply Forall_impl; [exact H5|]. simpl. lia.
  - intros Hn. rewrite len_cons. assert (next_observation s < usize_max) as Hm by lia. specialize (H6 Hm). lia.
Qed.
Lemma windowed_exhausted s s' ps : draw_observation s = (None, s') -> windowed s ps -> windowed s' ps.
Proof.
  unfold draw_observation, checked_add. destruct (Z.leb_spec (next_observation s + 1) usize_max) as [|Hge]; [done|].
  intros [= <-] [H1 H2 H3 H4 H5 H6]. split; simpl; try done; [unfold saturating_add, usize_max; lia|lia].
Qed.
Lemma windowed_store s o todo ps : windowed s (ToStore o todo :: ps) -> windowed (store_observation s o) ps.
Proof.
  intros [H1 H2 H3 H4 H5 H6]. unfold window_of in *. simpl in *.
  rewrite fmap_app, fmap_cons in H4, H5. rewrite len_cons in H6. unfold store_observation.
  destruct (Z.eqb_spec (len (observations s)) MAX_OBSERVATIONS) as [Hl|Hl]; split; unfold window_of; simpl.
  all: rewrite <-?(assoc_L (++)), ?fmap_app, ?fmap_cons, ?len_app, ?len_cons, ?len_nil; try done.
  all: try (destruct (observations s) as [|o' os]; [done|]; simpl in *; rewrite ?len_cons in *).
  all: try (unfold saturating_add, usize_max, MAX_OBSERVATIONS in *; lia).
  - by apply NoDup_cons in H4 as [_ ?].
  - by apply Forall_cons in H5 as [_ ?].
  - intros Hn. specialize (H6 Hn). pose proof (len_nonneg os). pose proof (len_nonneg (to_store ps)).
    unfold saturating_add, usize_max in *. lia.
Qed.

Lemma starts_window s s' p done ps : starts s s' p done -> windowed s ps -> windowed s' (p :: ps).
Proof.
  intros Hst. destruct Hst as [root reason inputs prior ctx s' Hi|g op id s' Hsh Ha|h s' Hc|g pub r s' Hp|g st v s' Hsh Ht Hr Hs|g reason v s' Hsh Hd];
    apply windowed_ext; try done.
  all: try (apply with_entry_ok in Hc as (e & _ & _ & ->)); try (apply with_entry_ok in Hs as (e & _ & _ & ->));
    try (apply with_entry_ok in Hd as (e & _ & _ & ->)); try (apply publication_quiet in Hp as ->);
    try (apply install_accepted in Hi as (_ & _ & _ & ->)); try done.
  all: try (by destruct prior).
  all: unfold allocate_task_id in Ha; destruct (allocate_sequence _ _); by injection Ha as _ <-.
Qed.
Lemma continues_window s p s' handle rest ps : continues s p s' handle rest -> windowed s (p :: ps) -> windowed s' (rest ++ ps).
Proof.
  intros Hc. destruct Hc as [g op id s' Hr|g op id e s' Hr|prior ctx reason g s' Hr|g kind detail todo n s' Hd|n todo s' Hd|o todo|]; simpl.
  - apply register_accepted in Hr as (e & _ & _ & ->). by apply windowed_ext.
  - apply register_refused in Hr as ->. by apply windowed_ext.
  - unfold retire, cancel_all_tasks in Hr. injection Hr as _ <-. by apply windowed_ext.
  - intros H. eapply windowed_draw; [done|]. by eapply windowed_ext; [..|exact H].
  - intros H. apply (windowed_exhausted _ _ _ Hd). by eapply windowed_ext; [..|exact H].
  - intros H%windowed_store. by eapply windowed_ext; [..|exact H].
  - by apply windowed_ext.
Qed.
Lemma push_window s g kind detail ps : windowed s ps -> windowed (push_observation s g kind detail) ps.
Proof.
  intros H. unfold push_observation. destruct (draw_observation s) as [[seq|] s'] eqn:E.
  - eapply windowed_store, (windowed_draw _ _ _ _ _ _ []); done.
  - by eapply windowed_exhausted.
Qed.
Lemma shutdown_window s ps : windowed s ps -> windowed (shutdown s) ps.
Proof.
  intros H. unfold shutdown. destruct (is_shutdown s); [done|]. rewrite shutdown_roots_close.
  assert (H1 : windowed (close (foldl shutdown_root s (root_order s))) ps).
  { revert s H. intros s. generalize (root_order s). intros l. revert s. induction l as [|r l IH]; intros s H; simpl.
    - by eapply windowed_ext; [..|exact H].
    - apply IH. unfold shutdown_root, cancel_all_tasks. destruct (roots s !! r); [|done]. by eapply windowed_ext; [..|exact H]. }
  revert H1. generalize (close (foldl shutdown_root s (root_order s))). induction (root_order s) as [|r l IH]; intros s1 H1; simpl; [done|].
  apply IH. destruct (roots s1 !! r); [by apply push_window|done].
Qed.
Lemma step_windowed c c' : step c c' -> windowed (controller c) (running c) -> windowed (controller c') (running c').
Proof.
  destruct 1 as [s s' p done ps hs cs Hst|s s' p handle rest ps1 ps2 hs cs Hc|s hs cs]; simpl; intros Hw.
  - by eapply starts_window.
  - eapply (windowed_perm _ (rest ++ ps1 ++ ps2)); [solve_Permutation|]. eapply continues_window; [exact Hc|].
    eapply windowed_perm; [|exact Hw]. solve_Permutation.
  - by apply shutdown_window.
Qed.
Lemma reachable_windowed session c : reachable session c -> windowed (controller c) (running c).
Proof.
  assert (H : forall c c', steps c c' -> windowed (controller c) (running c) -> windowed (controller c') (running c'))
    by (induction 1; eauto using step_windowed).
  intros Hr. eapply H; [exact Hr|]. apply windowed_new.
Qed.

Lemma live_task_held s ps hs cs : owned s ps hs cs -> forall h, hs !! handle_id h = Some h -> handle_id h ∉ cs ->
  is_cancelled s h = false ->
  exists e, held s ps e /\ generation (context e) = handle_generation h /\ tasks e !! handle_id h = Some (handle_operation h).
Proof.
  intros Ho h Hi Hc Hf. apply (owned_live _ _ _ _ Ho _ _ Hi Hc). destruct (owned_issued _ _ _ _ Ho _ _ Hi) as (_ & _ & [b Hb]).
  unfold is_cancelled in Hf. rewrite Hb in Hf. simpl in Hf. by subst b.
Qed.

(** ** An operation called alone is a run of its sections *)

Definition push_all (s : Controller) (todo : list note) : Controller :=
  foldl (fun s (n : note) => push_observation s n.1.1 n.1.2 n.2) s todo.
Lemma run_section s s' p handle rest ps hs cs :
  continues s p s' handle rest ->
  step (mkConfig s (p :: ps) hs cs)
       (mkConfig s' (rest ++ ps) (match handle with Some h => <[handle_id h := h]> hs | None => hs end) cs).
Proof. intros H. by apply (step_continue _ _ _ _ _ []). Qed.
Lemma run_notes todo : forall s ps hs cs, steps (mkConfig s (ToDraw todo :: ps) hs cs) (mkConfig (push_all s todo) ps hs cs).
Proof.
  induction todo as [|[[g kind] detail] todo IH]; intros s ps hs cs; [apply rtc_once, (run_section _ _ _ _ _ _ _ _ (continues_done s))|].
  simpl. unfold push_observation. simpl. destruct (draw_observation s) as [[seq|] s'] eqn:E.
  - eapply rtc_l; [apply (run_section _ _ _ _ _ _ _ _ (continues_draw _ _ _ _ _ _ _ E))|]. simpl.
    eapply rtc_l; [apply (run_section _ _ _ _ _ _ _ _ (continues_store _ _ _))|]. apply IH.
  - eapply rtc_l; [apply (run_section _ _ _ _ _ _ _ _ (continues_exhausted _ _ _ _ E))|]. apply IH.
Qed.
(** An operation of one section and its observations. *)
Lemma run_call s s' todo done ps hs cs :
  starts s s' (ToDraw todo) done ->
  steps (mkConfig s ps hs cs)
        (mkConfig (push_all s' todo) ps hs (match done with Some id => {[id]} ∪ cs | None => cs end)).
Proof. intros H. eapply rtc_l; [by apply step_start|]. apply run_notes. Qed.
Lemma allocate_refused s e s' : allocate_task_id s = (Err e, s') -> s' = s.
Proof.
  unfold allocate_task_id, allocate_sequence. destruct (checked_add _ _); [done|]. intros [= _ <-]. by destruct s.
Qed.
Lemma section_refused {T} s g (op : RootEntry -> gmap Z bool -> result WorkspaceRuntimeError T * RootEntry * gmap Z bool) err s' :
  (forall e fl, exists v, (op e fl).1.1 = Ok v) -> with_current_entry s g op = (Err err, s') -> s' = s.
Proof. intros Hop. apply with_entry_err. intros e fl err' H. destruct (Hop e fl). congruence. Qed.
Lemma complete_refused s h err s' :
  with_current_entry s (handle_generation h) (complete_section h) = (Err err, s') -> s' = s.
Proof. apply with_entry_err. intros e fl err'. unfold complete_section. repeat case_match; done. Qed.

Lemma run_begin s root reason i ps hs cs :
  steps (mkConfig s ps hs cs) (mkConfig (begin_transition s root reason i).2 ps hs cs).
Proof.
  unfold begin_transition. destruct (install s root reason i) as [[[prior ctx]|err] s'] eqn:E.
  - pose proof (starts_transition _ _ _ _ _ _ _ E) as Hst. destruct prior as [prior|].
    + destruct (retire s' prior) as [g s2] eqn:Er. simpl. eapply rtc_l; [by apply step_start|].
      eapply rtc_l; [apply (run_section _ _ _ _ _ _ _ _ (continues_retire _ _ _ reason _ _ Er))|]. apply run_notes.
    + apply (run_call _ _ _ _ _ _ _ Hst).
  - unfold install in E. destruct (is_shutdown s); [by simplify_eq|]. by destruct (allocate_sequence _ _) as [[|] ?]; simplify_eq.
Qed.

(** Every operation, called with others in flight or alone, is a run of
    steps that ends in what the whole operation returns. *)
Lemma perform_runs c op : (op = CallShutdown -> running c = []) -> steps c (perform c op).
Proof.
  destruct c as [s ps hs cs]. intros Hop.
  destruct op as [root reason i|g o|h|g k|g st|g reason|]; simpl in *.
  - apply run_begin.
  - unfold register_root_task. destruct (ensure_not_shutdown s) as [[]|] eqn:Hs; [|done].
    destruct (allocate_task_id s) as [[id|] s1] eqn:Ha; [|by apply allocate_refused in Ha as ->].
    eapply rtc_l; [by apply step_start, (starts_register s g o)|].
    destruct (with_current_entry s1 g (register_section id o)) as [[[]|] s2] eqn:Hr.
    + eapply rtc_l; [apply (run_section _ _ _ _ _ _ _ _ (continues_register _ _ _ _ _ Hr))|]. apply run_notes.
    + apply rtc_once, (run_section _ _ _ _ _ _ _ _ (continues_refused _ _ _ _ _ _ Hr)).
  - unfold complete_task. destruct (with_current_entry s _ _) as [[[]|] s1] eqn:Hc; [|by apply complete_refused in Hc as ->].
    apply (run_call _ _ _ _ _ _ _ (starts_complete _ _ _ Hc)).
  - unfold accept_publication. destruct (check_publication s g) as [r s1] eqn:Hp.
    apply (run_call _ _ _ _ _ _ _ (starts_publication _ _ k _ _ Hp)).
  - unfold complete_transition. destruct (ensure_not_shutdown s) as [[]|] eqn:Hs; [|done].
    destruct (is_terminal st) eqn:Ht; [done|]. simpl. case_bool_decide as Hr; [done|].
    destruct (with_current_entry s g _) as [[v|] s1] eqn:E; [|by apply section_refused in E as ->; eauto].
    apply (run_call _ _ _ _ _ _ _ (starts_state _ _ _ _ _ Hs Ht Hr E)).
  - unfold detach_root. destruct (ensure_not_shutdown s) as [[]|] eqn:Hs; [|done].
    destruct (with_current_entry s g _) as [[v|] s1] eqn:E; [|by apply section_refused in E as ->; eauto].
    apply (run_call _ _ _ _ _ _ _ (starts_detach _ _ _ _ _ Hs E)).
  - rewrite (Hop eq_refl). apply rtc_once, step_shutdown.
Qed.
Lemma calls_run ops : forall c, Forall (fun op => op <> CallShutdown) ops -> steps c (foldl perform c ops).
Proof.
  induction ops as [|op ops IH]; intros c Hops; simpl; [done|]. apply Forall_cons in Hops as [Hop Hops].
  eapply rtc_trans; [by apply (perform_runs c op)|by apply IH].
Qed.

(** ** What the authority promises *)

(** No operation accepts the generation. *)
Definition refused (s : Controller) (g : WorkspaceRuntimeGeneration) : Prop :=
  is_current s g = false /\
  (forall publication, exists err, (accept_publication s g publication).1 = Err err) /\
  (forall operation_id, exists err, (register_root_task s g operation_id).1 = Err err) /\
  (forall handle, handle_generation handle = g -> exists err, complete_task s handle = (Err err, s)) /\
  (forall state, exists err, complete_transition s g state = (Err err, s)) /\
  (forall reason, exists err, detach_root s g reason = (Err err, s)).

Lemma not_current_section {T} s g (op : RootEntry -> gmap Z bool -> result WorkspaceRuntimeError T * RootEntry * gmap Z bool) :
  (forall e, ~ current s g e) -> exists err, with_current_entry s g op = (Err err, s).
Proof. intros Hno. destruct (with_current_entry_spec s g op) as [(e & He & _)|(_ & err & E)]; [by destruct (Hno e)|eauto]. Qed.

Lemma not_current_refused s g : session_id g = controller_session s -> (forall e, ~ current s g e) -> refused s g.
Proof.
  intros Hs Hno. split; [|repeat split].
  - unfold is_current, current_root_context. destruct (roots s !! root_id g) as [e|] eqn:E; simpl; [|done].
    case_bool_decide as Hg; [|done]. destruct (Hno e). done.
  - intros publication. unfold accept_publication, check_publication. destruct (ensure_not_shutdown s); simpl; [|eauto].
    destruct (not_current_section s g publication_section Hno) as [err ->]. simpl. eauto.
  - intros op. unfold register_root_task. destruct (ensure_not_shutdown s); simpl; [|eauto].
    destruct (allocate_task_id s) as [[id|] s'] eqn:E; simpl; [|eauto].
    destruct (not_current_section s' g (register_section id op)) as [err ->]; [|simpl; eauto].
    intros e He. apply (Hno e). unfold allocate_task_id in E. destruct (allocate_sequence _ _). by injection E as _ <-.
  - intros h <-. unfold complete_task. destruct (not_current_section s (handle_generation h) (complete_section h) Hno) as [err ->]. eauto.
  - intros st. unfold complete_transition. destruct (ensure_not_shutdown s); [|eauto].
    destruct (is_terminal st || bool_decide (st = Removing)); [eauto|].
    destruct (not_current_section s g (state_section st) Hno) as [err ->]. eauto.
  - intros reason. unfold detach_root. destruct (ensure_not_shutdown s); [|eauto].
    destruct (not_current_section s g (detach_section reason) Hno) as [err ->]. eauto.
Qed.

(** C23. Once a generation of this session that was already minted is not its
    root's current one, no later interleaving of any operations makes it
    current again: publication, registration, completion, transition and
    detach with it all fail, and [is_current] is false. *)
Theorem superseded_is_final session c c' g :
  reachable session c -> steps c c' -> session_id g = session -> sequence g < next_generation (controller c) ->
  (forall e, ~ current (controller c) g e) -> refused (controller c') g.
Proof.
  intros Hr Hst Hs Hg Hno. pose proof (steps_advances _ _ Hst) as Ha. pose proof (steps_advances _ _ Hr) as Hi.
  apply not_current_refused.
  - by rewrite (advances_session _ _ Ha), (advances_session _ _ Hi).
  - intros e He. destruct (advances_fresh _ _ Ha g e He) as [[e0 He0]|?]; [by destruct (Hno e0)|lia].
Qed.

(** C24. Whatever the interleaving, a task that was issued, not completed and
    not cancelled is owned: by the current generation of its root, which is
    not detached or shut down, or by a replaced entry that its transition
    has still to retire.  So a task whose generation lost the root is
    cancelled as soon as no transition is in flight. *)
Theorem live_tasks_are_owned session c h :
  reachable session c -> issued c !! handle_id h = Some h -> handle_id h ∉ completed c ->
  is_cancelled (controller c) h = false ->
  (exists e, current (controller c) (handle_generation h) e /\ is_terminal (lifecycle_state e) = false /\
     tasks e !! handle_id h = Some (handle_operation h)) \/
  (exists prior, retiring (running c) prior /\ generation (context prior) = handle_generation h /\
     tasks prior !! handle_id h = Some (handle_operation h)).
Proof.
  intros Hr Hi Hc Hf. pose proof (reachable_good _ _ Hr) as Ho.
  destruct (live_task_held _ _ _ _ Ho h Hi Hc Hf) as (e & [[r He]|He] & Hg & Ht); [left|right; eauto].
  exists e. destruct (owned_roots _ _ _ _ Ho _ _ He) as (E1 & E2 & _). rewrite Hg in E1, E2. subst r. repeat split; try done.
  destruct (is_terminal (lifecycle_state e)) eqn:Et; [|done]. by rewrite (owned_terminal _ _ _ _ Ho _ _ He Et) in Ht.
Qed.

(** Accepted transitions linearize: the current generation of a root is
    only ever replaced by a later one, and a root never disappears. *)
Theorem transitions_linearize session c c' root e :
  reachable session c -> steps c c' -> roots (controller c) !! root = Some e ->
  exists e', roots (controller c') !! root = Some e' /\
    (context e' = context e \/ sequence (generation (context e)) < sequence (generation (context e'))).
Proof.
  intros Hr Hst He. destruct (advances_roots _ _ (steps_advances _ _ Hst) root e He) as (e' & He' & [?|Hlt]); [eauto|].
  exists e'. split; [done|right]. destruct (owned_roots _ _ _ _ (reachable_good _ _ Hr) _ _ He) as (_ & _ & ?). lia.
Qed.

(** Shutdown is final: afterwards every root is shut down without tasks,
    no transition starts, every generation is refused, and every task not
    completed is cancelled. *)
Theorem shutdown_is_final session c c' :
  reachable session c -> is_shutdown (controller c) = true -> steps c c' ->
  (forall root reason i, begin_transition (controller c') root reason i = (Err ControllerShutdown, controller c')) /\
  (forall root e, roots (controller c') !! root = Some e -> lifecycle_state e = Shutdown /\ tasks e = ∅) /\
  (forall g, (check_publication (controller c') g).1 = Err ControllerShutdown /\ is_current (controller c') g = false) /\
  (forall h, issued c' !! handle_id h = Some h -> handle_id h ∉ completed c' -> is_cancelled (controller c') h = true).
Proof.
  intros Hr Hsh Hst. assert (Hr' : reachable session c') by (by eapply rtc_trans).
  pose proof (advances_shutdown _ _ (steps_advances _ _ Hst) Hsh) as Hs. pose proof (reachable_good _ _ Hr') as Ho.
  destruct (owned_shutdown _ _ _ _ Ho Hs) as [Hobs Hroots]. repeat split.
  - intros root reason i. unfold begin_transition, install. by rewrite Hs.
  - by eapply Hroots.
  - eapply (owned_terminal _ _ _ _ Ho); [done|]. by erewrite Hroots.
  - unfold check_publication, ensure_not_shutdown. by rewrite Hs.
  - unfold is_current, current_root_context. destruct (roots _ !! root_id g) as [e|] eqn:E; [|done]. simpl.
    by rewrite (Hroots _ _ E), andb_false_r.
  - intros h Hi Hc. destruct (is_cancelled (controller c') h) eqn:Hf; [done|].
    destruct (live_task_held _ _ _ _ Ho h Hi Hc Hf) as (e & [[r He]|(x & y & Hin)] & _ & Ht).
    + rewrite (owned_terminal _ _ _ _ Ho _ _ He) in Ht; [done|]. by rewrite (Hroots _ _ He).
    + rewrite Forall_forall in Hobs. by specialize (Hobs _ Hin).
Qed.

(** The observation window holds at most 128 observations with distinct
    numbers, and until the counter is exhausted every number drawn is in the
    window, dropped from it and counted, or about to be stored. *)
Theorem observations_are_accounted session c :
  reachable session c ->
  len (observations (controller c)) <= MAX_OBSERVATIONS /\
  NoDup (observation_sequence <$> observations (controller c)) /\
  (next_observation (controller c) < usize_max ->
   next_observation (controller c) - 1 =
   len (observations (controller c)) + dropped (controller c) + len (to_store (running c))).
Proof.
  intros Hr. destruct (reachable_windowed _ _ Hr) as [H1 H2 H3 H4 H5 H6]. repeat split; try done.
  unfold window_of in H4. rewrite fmap_app in H4. by apply NoDup_app in H4 as (? & _).
Qed.

(** ** Boundaries of the promises *)

(** [complete_transition] does not look at the state it leaves: a detached
    generation that is still its root's current one can be made active
    again, and publishes. *)
Theorem detached_generation_resumes s g e st :
  is_shutdown s = false -> current s g e -> lifecycle_state e = Detached ->
  is_terminal st = false -> st <> Removing -> accepts_publication st = true ->
  exists v s', complete_transition s g st = (Ok v, s') /\ (check_publication s' g).1 = Ok tt.
Proof.
  intros Hs He Hd Ht Hr Ha. unfold complete_transition, ensure_not_shutdown. rewrite Hs, Ht. simpl.
  rewrite bool_decide_false by done.
  destruct (with_current_entry_spec s g (state_section st)) as [(e' & He' & E)|(Hno & _)]; [|by destruct (Hno e)].
  rewrite E. simpl. eexists _, _. split; [done|]. apply publication_passes.
  set (s1 := set_entry _ _ _ _). destruct (push_same_roots s1 g StateChanged (DetailState st)) as (E1 & _ & _ & E4 & E5 & _).
  rewrite E4. split; [done|]. exists (with_state e' st None). destruct He' as (H1 & H2 & H3).
  unfold current. rewrite E1, E5. simpl. by rewrite lookup_insert_eq.
Qed.

(** Two threads that observe at the same time can store their observations
    in the other order than their numbers. *)
Example observations_out_of_order :
  exists c, reachable 7 c /\ running c = [] /\ (observation_sequence <$> observations (controller c)) = [2; 1].
Proof.
  pose (g := mkGeneration 7 1 1).
  eexists. split; [|split].
  - eapply rtc_l; [apply (step_start _ _ _ _ [] ∅ ∅ (starts_publication _ g WorkspaceFacts _ _ (surjective_pairing _)))|].
    eapply rtc_l; [eapply (step_continue _ _ _ _ _ [] []), continues_draw; reflexivity|].
    eapply rtc_l; [apply (step_start _ _ _ _ _ _ _ (starts_publication _ g Readiness _ _ (surjective_pairing _)))|].
    eapply rtc_l; [eapply (step_continue _ _ _ _ _ [] _), continues_draw; reflexivity|].
    eapply rtc_l; [eapply (step_continue _ _ _ _ _ [] _), continues_store|].
    eapply rtc_l; [eapply (step_continue _ _ _ _ _ [_] []), continues_store|].
    eapply rtc_l; [eapply (step_continue _ _ _ _ _ [] _), continues_done|].
    eapply rtc_l; [eapply (step_continue _ _ _ _ _ [] []), continues_done|]. apply rtc_refl.
  - done.
  - vm_compute. done.
Qed.

(** ** A root added, given a task, and replaced *)

Definition demo_inputs : WorkspaceRuntimeInputs := mkInputs 1 1 1 1 1 1 1.
Definition demo_first : WorkspaceRuntimeGeneration := mkGeneration 7 1 1.
Definition demo_task : WorkspaceRuntimeTaskHandle := mkHandle 1 50 demo_first.
Definition demo_owned : config :=
  foldl perform (config_new 7) [CallBegin 1 AddRoot demo_inputs; CallRegister demo_first 50].
Definition demo_replaced : config := perform demo_owned (CallBegin 1 TrustChanged demo_inputs).
Definition demo_closed : config := perform demo_owned CallShutdown.

Lemma demo_owned_reachable : reachable 7 demo_owned.
Proof. apply calls_run. by repeat constructor. Qed.
Lemma demo_replaces : steps demo_owned demo_replaced.
Proof. by apply perform_runs. Qed.
Lemma demo_closes : reachable 7 demo_closed.
Proof. eapply rtc_trans; [apply demo_owned_reachable|]. by apply perform_runs. Qed.

Lemma superseded_is_final_witness : refused (controller (perform demo_replaced (CallPublish demo_first WorkspaceFacts))) demo_first.
Proof.
  apply (superseded_is_final 7 demo_replaced).
  - eapply rtc_trans; [apply demo_owned_reachable|apply demo_replaces].
  - by apply perform_runs.
  - reflexivity.
  - vm_compute. reflexivity.
  - intros e (_ & He & Hg). vm_compute in He. injection He as <-. done.
Defined.
Lemma live_tasks_are_owned_witness :
  (exists e, current (controller demo_owned) demo_first e /\ is_terminal (lifecycle_state e) = false /\ tasks e !! 1 = Some 50) \/
  (exists prior, retiring (running demo_owned) prior /\ generation (context prior) = demo_first /\ tasks prior !! 1 = Some 50).
Proof. apply (live_tasks_are_owned 7 demo_owned demo_task); [apply demo_owned_reachable|reflexivity|by apply not_elem_of_empty|reflexivity]. Defined.
Lemma transitions_linearize_witness : exists e', roots (controller demo_replaced) !! 1 = Some e' /\
  (context e' = mkContext demo_first demo_inputs \/ 1 < sequence (generation (context e'))).
Proof.
  apply (transitions_linearize 7 demo_owned demo_replaced 1 (mkEntry (mkContext demo_first demo_inputs) Creating None {[1 := 50]}));
    [apply demo_owned_reachable|apply demo_replaces|reflexivity].
Defined.
Lemma shutdown_is_final_witness :
  begin_transition (controller demo_closed) 2 Restart demo_inputs = (Err ControllerShutdown, controller demo_closed) /\
  is_cancelled (controller demo_closed) demo_task = true.
Proof.
  split; eapply (shutdown_is_final 7 demo_closed demo_closed);
    first [apply demo_closes|reflexivity|apply rtc_refl|by apply not_elem_of_empty].
Defined.
Lemma observations_are_accounted_witness : len (observations (controller demo_replaced)) <= MAX_OBSERVATIONS.
Proof.
  apply (observations_are_accounted 7 demo_replaced). eapply rtc_trans; [apply demo_owned_reachable|apply demo_replaces].
Defined.
Lemma detached_generation_resumes_witness : exists v s',
  complete_transition (controller (perform demo_owned (CallDetach demo_first ReasonRemoved))) demo_first ActiveCurrent = (Ok v, s') /\
  (check_publication s' demo_first).1 = Ok tt.
Proof.
  apply (detached_generation_resumes _ _ (mkEntry (mkContext demo_first demo_inputs) Detached (Some ReasonRemoved) ∅));
    [reflexivity|split; [reflexivity|split; reflexivity]|reflexivity..|done|reflexivity].
Defined.
