(* ===== verification/PackageGraph.v ===== *)
(** * The package graph of the workspace (perl-workspace/src/semantic/package_graph.rs)

    The inheritance, role and dependency edges that the files of a workspace
    contribute, kept by file so that one file can be replaced, and the two
    depth-first traversals over them.  Names and URIs are byte lists.  The
    recursion of a traversal runs on fuel, one more than the edges of the
    graph.  Proved in [PackageGraphLaws]: the index is the union of the files'
    current edges, and the traversals compute the transitive closure and
    report a cycle exactly when one is reachable. *)

From stdpp Require Import base numbers list gmap sets.
From S2P Require Import Prelude.

(** ** Facts (perl-semantic-facts/src/lib.rs) *)

Definition str : Type := list Z.

Inductive Provenance :=
  ExactAst | DesugaredAst | SemanticAnalyzer | FrameworkSynthesis | ImportExportInference | PragmaInference
| NameHeuristic | SearchFallback | DynamicBoundary | LiteralRequireImport.
Inductive Confidence := High | Medium | Low.
Inductive PackageKind := Package | Class_ | Role | External.
Inductive PackageEdgeKind := Inherits | ComposesRole | DependsOn.
#[export] Instance Provenance_dec : EqDecision Provenance.
Proof. solve_decision. Defined.
#[export] Instance Confidence_dec : EqDecision Confidence.
Proof. solve_decision. Defined.
#[export] Instance PackageKind_dec : EqDecision PackageKind.
Proof. solve_decision. Defined.
#[export] Instance PackageEdgeKind_dec : EqDecision PackageEdgeKind.
Proof. solve_decision. Defined.

Record PackageNode := mkNode {
  entity_id : Z;
  name : str;
  node_kind : PackageKind;
  node_anchor_id : option Z;
  node_file_id : option Z;
}.
Record PackageEdge := mkEdge {
  from_package : str;
  to_package : str;
  kind : PackageEdgeKind;
  anchor_id : option Z;
  provenance : Provenance;
  confidence : Confidence;
}.
#[export] Instance PackageEdge_dec : EqDecision PackageEdge.
Proof. solve_decision. Defined.

(** ** The index *)

Record PackageGraphIndex := mkIndex {
  nodes : gmap str PackageNode;
  outgoing_edges : gmap str (list PackageEdge);
  outgoing_edge_sources : gmap str (list str);
  file_edges : gmap str (list PackageEdge);
  file_edge_ids : gmap str Z;
}.
Definition new : PackageGraphIndex := mkIndex ∅ ∅ ∅ ∅ ∅.

(** [map.entry(key).or_default().push(value)] *)
Definition push_at {K} `{Countable K} {A} (k : K) (x : A) (m : gmap K (list A)) : gmap K (list A) :=
  <[k := default [] (m !! k) ++ [x]]> m.
(** [map.entry(key).or_insert_with(value)] *)
Definition or_insert {A} (k : str) (x : A) (m : gmap str A) : gmap str A :=
  match m !! k with Some _ => m | None => <[k := x]> m end.

(** The kind that an edge gives the package it leaves, or the one it enters. *)
Definition source_kind (e : PackageEdge) : PackageKind :=
  match kind e with ComposesRole => Class_ | _ => Package end.
Definition target_kind (e : PackageEdge) : PackageKind :=
  match kind e with ComposesRole => Role | _ => External end.

Definition ensure_node_from_edge_source (e : PackageEdge) (file_id : Z) : gmap str PackageNode -> gmap str PackageNode :=
  or_insert (from_package e) (mkNode 0 (from_package e) (source_kind e) (anchor_id e) (Some file_id)).
Definition ensure_node_from_edge_target (e : PackageEdge) : gmap str PackageNode -> gmap str PackageNode :=
  or_insert (to_package e) (mkNode 0 (to_package e) (target_kind e) None None).
Definition record_edge (source_uri : str) (file_id : Z) (self : PackageGraphIndex) (e : PackageEdge) : PackageGraphIndex :=
  mkIndex (ensure_node_from_edge_target e (ensure_node_from_edge_source e file_id (nodes self)))
    (push_at (from_package e) e (outgoing_edges self))
    (push_at (from_package e) source_uri (outgoing_edge_sources self))
    (file_edges self) (file_edge_ids self).
Definition add_edges (self : PackageGraphIndex) (source_uri : str) (file_id : Z) (edges : list PackageEdge) : PackageGraphIndex :=
  foldl (record_edge source_uri file_id)
    (mkIndex (nodes self) (outgoing_edges self) (outgoing_edge_sources self)
       (<[source_uri := edges]> (file_edges self)) (<[source_uri := file_id]> (file_edge_ids self))) edges.

(** ** Metadata of the packages *)

(** What is known of a package as a source: its kind, anchor and owner. *)
Definition source_entry : Type := PackageKind * option Z * Z.
Definition merge_source (e : PackageEdge) (file_id : Z) (known : option source_entry) : source_entry :=
  match known with
  | None => (source_kind e, anchor_id e, file_id)
  | Some (k, anchor, owner) =>
    let k := if bool_decide (source_kind e = Class_) then Class_ else k in
    if file_id <? owner then (k, anchor_id e, file_id)
    else if (file_id =? owner) && bool_decide (anchor = None) then (k, anchor_id e, owner)
    else (k, anchor, owner)
  end.
Definition merge_target (e : PackageEdge) (known : option PackageKind) : PackageKind :=
  match known with
  | None => target_kind e
  | Some k => if bool_decide (target_kind e = Role) then Role else k
  end.
Definition metadata : Type := gmap str source_entry * gmap str PackageKind.
Definition merge_edge (file_id : Z) (m : metadata) (e : PackageEdge) : metadata :=
  (<[from_package e := merge_source e file_id (m.1 !! from_package e)]> m.1,
   <[to_package e := merge_target e (m.2 !! to_package e)]> m.2).
Definition merge_file (ids : gmap str Z) (m : metadata) (file : str * list PackageEdge) : metadata :=
  match ids !! file.1 with None => m | Some file_id => foldl (merge_edge file_id) m file.2 end.
Definition node_of_source (n : str) (x : source_entry) : PackageNode := mkNode 0 n x.1.1 x.1.2 (Some x.2).
Definition node_of_target (n : str) (k : PackageKind) : PackageNode := mkNode 0 n k None None.
Definition nodes_of (m : metadata) : gmap str PackageNode :=
  map_imap (fun n x => Some (node_of_source n x)) m.1 ∪ map_imap (fun n k => Some (node_of_target n k)) m.2.
(** [rebuild_node_metadata], its hash map of files visited in the given order *)
Definition rebuild_node_metadata (order : list (str * list PackageEdge)) (self : PackageGraphIndex) : PackageGraphIndex :=
  mkIndex (nodes_of (foldl (merge_file (file_edge_ids self)) (∅, ∅) order))
    (outgoing_edges self) (outgoing_edge_sources self) (file_edges self) (file_edge_ids self).

(** ** Removal of a file *)

(** One bucket without the entries of a file; the two vectors of a bucket are
    asserted to have one length. *)
Definition prune_bucket (source_uri pkg : str) (self : PackageGraphIndex) : outcome PackageGraphIndex :=
  match outgoing_edges self !! pkg, outgoing_edge_sources self !! pkg with
  | Some edges, Some sources =>
    if bool_decide (length edges = length sources) then
      let kept := filter (fun x : PackageEdge * str => x.2 <> source_uri) (zip edges sources) in
      Ret (mkIndex (nodes self) (<[pkg := kept.*1]> (outgoing_edges self)) (<[pkg := kept.*2]> (outgoing_edge_sources self))
             (file_edges self) (file_edge_ids self))
    else Panic
  | _, _ => Ret self
  end.
Fixpoint prune_buckets (source_uri : str) (affected : list str) (self : PackageGraphIndex) : outcome PackageGraphIndex :=
  match affected with
  | [] => Ret self
  | pkg :: affected => self ← prune_bucket source_uri pkg self; prune_buckets source_uri affected self
  end.
Definition nonempty_buckets {A} (m : gmap str (list A)) : gmap str (list A) := filter (fun x => x.2 <> []) m.
Definition remove_edges_for_file (self : PackageGraphIndex) (source_uri : str) : outcome PackageGraphIndex :=
  match file_edges self !! source_uri with
  | None => Ret self
  | Some removed_edges =>
    let self := mkIndex (nodes self) (outgoing_edges self) (outgoing_edge_sources self)
                  (delete source_uri (file_edges self)) (delete source_uri (file_edge_ids self)) in
    let affected : gset str := list_to_set (from_package <$> removed_edges) in
    self ← prune_buckets source_uri (elements affected) self;
    let self := mkIndex (nodes self) (nonempty_buckets (outgoing_edges self)) (nonempty_buckets (outgoing_edge_sources self))
                  (file_edges self) (file_edge_ids self) in
    mret (rebuild_node_metadata (map_to_list (file_edges self)) self)
  end.

(** ** Queries *)

Definition get_edges (self : PackageGraphIndex) (pkg : str) : list PackageEdge := default [] (outgoing_edges self !! pkg).
Definition targets (k : PackageEdgeKind) (self : PackageGraphIndex) (pkg : str) : list str :=
  to_package <$> filter (fun e => kind e = k) (get_edges self pkg).
Definition direct_parents : PackageGraphIndex -> str -> list str := targets Inherits.
Definition composed_roles : PackageGraphIndex -> str -> list str := targets ComposesRole.
Definition dependencies : PackageGraphIndex -> str -> list str := targets DependsOn.
Definition get_node (self : PackageGraphIndex) (pkg : str) : option PackageNode := nodes self !! pkg.
Definition node_count (self : PackageGraphIndex) : Z := Z.of_nat (size (nodes self)).
Definition edge_count (self : PackageGraphIndex) : nat :=
  sum_list (length <$> (map_to_list (outgoing_edges self)).*2).

(** ** Traversals *)

(** The ancestors: the path of the traversal, what it has collected, and
    whether it met its own path, in which case everything returns. *)
Record Ancestry := mkAncestry { on_path : gset str; collected_ancestors : list str; cycle_found : bool }.
(** The loop over the parents of a package, [call] being the recursion. *)
Fixpoint visit_parents (call : str -> Ancestry -> outcome Ancestry) (ps : list str) (w : Ancestry) : outcome Ancestry :=
  match ps with
  | [] => Ret w
  | parent :: ps =>
    if bool_decide (parent ∈ on_path w) then Ret (mkAncestry (on_path w) (collected_ancestors w) true)
    else if bool_decide (parent ∈ collected_ancestors w) then visit_parents call ps w
    else
      w ← call parent (mkAncestry ({[parent]} ∪ on_path w) (collected_ancestors w ++ [parent]) (cycle_found w));
      let w := mkAncestry (on_path w ∖ {[parent]}) (collected_ancestors w) (cycle_found w) in
      if cycle_found w then Ret w else visit_parents call ps w
  end.
Fixpoint collect_ancestors (parents : str -> list str) (fuel : nat) (package_name : str) (w : Ancestry) : outcome Ancestry :=
  match fuel with
  | O => Panic
  | S fuel => if cycle_found w then Ret w else visit_parents (collect_ancestors parents fuel) (parents package_name) w
  end.
Record AncestorResult := mkAncestorResult { ancestors_of : list str; ancestors_cycle : bool }.
Definition ancestors (self : PackageGraphIndex) (package_name : str) : outcome AncestorResult :=
  w ← collect_ancestors (direct_parents self) (S (edge_count self)) package_name (mkAncestry {[package_name]} [] false);
  mret (mkAncestorResult (collected_ancestors w) (cycle_found w)).

(** The roles: a cycle only ends its branch, and the roles collected are also
    kept as a set. *)
Record Composition := mkComposition { on_stack : gset str; collected : gset str; roles : list str; cycle_detected : bool }.
Fixpoint visit_roles (call : str -> Composition -> outcome Composition) (rs : list str) (w : Composition) : outcome Composition :=
  match rs with
  | [] => Ret w
  | role :: rs =>
    if bool_decide (role ∈ on_stack w) then visit_roles call rs (mkComposition (on_stack w) (collected w) (roles w) true)
    else if bool_decide (role ∈ collected w) then visit_roles call rs w
    else
      w ← call role (mkComposition ({[role]} ∪ on_stack w) ({[role]} ∪ collected w) (roles w ++ [role]) (cycle_detected w));
      visit_roles call rs (mkComposition (on_stack w ∖ {[role]}) (collected w) (roles w) (cycle_detected w))
  end.
Fixpoint collect_composed_roles (composed : str -> list str) (fuel : nat) (package_name : str) (w : Composition) : outcome Composition :=
  match fuel with
  | O => Panic
  | S fuel => visit_roles (collect_composed_roles composed fuel) (composed package_name) w
  end.
Record RoleCompositionResult := mkRoleResult { roles_of : list str; roles_cycle : bool }.
Definition transitive_composed_roles (self : PackageGraphIndex) (package_name : str) : outcome RoleCompositionResult :=
  w ← collect_composed_roles (composed_roles self) (S (edge_count self)) package_name (mkComposition {[package_name]} ∅ [] false);
  mret (mkRoleResult (roles w) (cycle_detected w)).

(** ** Where a method is looked for (queries.rs [method_candidates]) *)

(** [retain(|pkg| seen.insert(pkg.clone()))] *)
Fixpoint retain_first (seen : gset str) (l : list str) : list str :=
  match l with
  | [] => []
  | x :: l => if bool_decide (x ∈ seen) then retain_first seen l else x :: retain_first ({[x]} ∪ seen) l
  end.
Fixpoint with_roles (self : PackageGraphIndex) (ancestors : list str) : outcome (list str) :=
  match ancestors with
  | [] => Ret []
  | a :: ancestors => r ← transitive_composed_roles self a; rest ← with_roles self ancestors; mret (a :: roles_of r ++ rest)
  end.
Definition packages_to_search (self : PackageGraphIndex) (receiver_package : str) : outcome (list str) :=
  r ← transitive_composed_roles self receiver_package;
  a ← ancestors self receiver_package;
  rest ← with_roles self (ancestors_of a);
  mret (retain_first ∅ (receiver_package :: roles_of r ++ rest)).
