(* ===== verification/PackageGraphLaws.v ===== *)
(** * Laws of the package graph

    The two traversals compute the transitive closure of their edges, without
    repetition, and report a cycle exactly when one can be reached; the index
    represents the current edges of every file, whatever was replaced before. *)

From stdpp Require Import base numbers list gmap sets relations.
From S2P Require Import Prelude PackageGraph.

(** ** Depth-first search *)

Lemma tc_first {A} (R : relation A) x z : tc R x z -> exists y, R x y /\ rtc R y z.
Proof. destruct 1 as [x y H|x y z H Ht]; exists y; split; try done. by apply tc_rtc. Qed.

Section traversal.
Variable next : str -> list str.
Variable start : str.
Variable universe : gset str.
Definition edge (x y : str) : Prop := y ∈ next x.
Hypothesis next_bounded : forall x y, edge x y -> y ∈ universe.

(** The packages whose branches are done. *)
Definition finished (w : Composition) : gset str := collected w ∖ on_stack w.
Record sound (w : Composition) : Prop := mkSound {
  collected_roles : forall x, x ∈ collected w <-> x ∈ roles w;
  roles_distinct : NoDup (roles w);
  start_on_stack : start ∈ on_stack w;
  stack_collected : forall x, x ∈ on_stack w -> x = start \/ x ∈ collected w;
  start_not_collected : start ∉ collected w;
  collected_reachable : forall x, x ∈ collected w -> tc edge start x;
  finished_next : forall x y, x ∈ finished w -> edge x y -> y = start \/ y ∈ collected w;
  finished_acyclic : cycle_detected w = false -> forall x, x ∈ finished w -> ~ tc edge x x /\ forall y, edge x y -> y ∈ finished w;
  cycle_reachable : cycle_detected w = true -> exists x, rtc edge start x /\ tc edge x x;
}.
(** The stack is a path to the package. *)
Definition path_to (pkg : str) (w : Composition) : Prop :=
  pkg ∈ on_stack w /\ forall x, x ∈ on_stack w -> rtc edge x pkg.
(** What visiting [rs] does. *)
Record visited (rs : list str) (w w' : Composition) : Prop := mkVisited {
  visited_sound : sound w';
  visited_stack : on_stack w' = on_stack w;
  visited_more : collected w ⊆ collected w';
  visited_all : forall y, y ∈ rs -> y = start \/ y ∈ collected w';
  visited_flag : cycle_detected w' = false -> cycle_detected w = false /\ forall y, y ∈ rs -> y ∈ finished w';
}.

Lemma finished_mono w w' : on_stack w' = on_stack w -> collected w ⊆ collected w' -> finished w ⊆ finished w'.
Proof using All. unfold finished. set_solver. Qed.
Lemma back_edge_cycle pkg role w : sound w -> path_to pkg w -> edge pkg role -> role ∈ on_stack w ->
  exists x, rtc edge start x /\ tc edge x x.
Proof using All.
  intros Hw [_ Hp] He Hin. exists role. split.
  - destruct (stack_collected _ Hw role Hin) as [->|Hc]; [done|]. by apply tc_rtc, Hw.
  - eapply tc_rtc_l; [by apply Hp|by apply tc_once].
Qed.
Lemma sound_flag pkg role w : sound w -> path_to pkg w -> edge pkg role -> role ∈ on_stack w ->
  sound (mkComposition (on_stack w) (collected w) (roles w) true).
Proof using All.
  intros Hw Hp He Hin. pose proof (back_edge_cycle _ _ _ Hw Hp He Hin). by destruct Hw; split.
Qed.
Lemma sound_push pkg role w : sound w -> path_to pkg w -> edge pkg role -> role ∉ on_stack w -> role ∉ collected w ->
  let w' := mkComposition ({[role]} ∪ on_stack w) ({[role]} ∪ collected w) (roles w ++ [role]) (cycle_detected w) in
  sound w' /\ path_to role w'.
Proof using All.
  intros Hw [Hin Hp] He Hs Hc w'.
  assert (Hf : finished w' = finished w) by (unfold finished; simpl; apply set_eq; set_solver).
  assert (Hr : rtc edge start pkg) by apply Hp, Hw.
  destruct Hw as [H1 H2 H3 H4 H5 H6 H7 H8 H9]. split; split; rewrite ?Hf; simpl; try done.
  - intros x. rewrite elem_of_app, elem_of_union, H1, elem_of_singleton, list_elem_of_singleton. tauto.
  - apply NoDup_app. split; [done|]. split; [|apply NoDup_singleton]. intros x Hx ->%list_elem_of_singleton. by apply Hc, H1.
  - set_solver.
  - set_solver.
  - set_solver.
  - intros x [->%elem_of_singleton|Hx]%elem_of_union; [|by apply H6]. eapply tc_rtc_l; [exact Hr|by apply tc_once].
  - intros x y Hx Hxy. destruct (H7 x y Hx Hxy) as [->|?]; [by left|right; set_solver].
  - set_solver.
  - intros x [->%elem_of_singleton|Hx]%elem_of_union; [done|]. eapply rtc_r; [by apply Hp|done].
Qed.
Lemma closed_reach (F : gset str) x y : (forall x y, x ∈ F -> edge x y -> y ∈ F) -> rtc edge x y -> x ∈ F -> y ∈ F.
Proof using All. intros HF. induction 1; eauto. Qed.
Lemma sound_pop role w w' : sound w -> role ∈ on_stack w -> role <> start -> visited (next role) w w' ->
  let w2 := mkComposition (on_stack w' ∖ {[role]}) (collected w') (roles w') (cycle_detected w') in
  sound w2 /\ (cycle_detected w' = false -> role ∈ finished w2).
Proof using All.
  intros Hw Hr Hne Hv w2. pose proof (visited_sound _ _ _ Hv) as Hw'. pose proof (visited_stack _ _ _ Hv) as Hst.
  assert (Hrc : role ∈ collected w').
  { destruct (stack_collected _ Hw role Hr); [done|]. by apply (visited_more _ _ _ Hv). }
  assert (Hf : forall x, x ∈ finished w2 <-> x = role \/ x ∈ finished w').
  { intros x. unfold finished, w2. simpl. destruct (decide (x = role)); set_solver. }
  split; [|intros _; apply Hf; by left].
  pose proof (visited_all _ _ _ Hv) as Hall. pose proof (visited_flag _ _ _ Hv) as Hflag.
  destruct Hw' as [H1 H2 H3 H4 H5 H6 H7 H8 H9]. split; simpl; try done.
  - set_solver.
  - set_solver.
  - intros x y [->|Hx]%Hf He; [by apply Hall|by eapply H7].
  - intros Hc. specialize (H8 Hc). destruct (Hflag Hc) as [_ Hn].
    assert (Hcl : forall x y, x ∈ finished w' -> edge x y -> y ∈ finished w') by (intros x y Hx; by apply H8).
    intros x [->|Hx]%Hf.
    + split; [|intros y Hy; apply Hf; right; by apply Hn]. intros Ht.
      destruct (tc_first _ _ _ Ht) as (y & He & Hy). apply (closed_reach _ _ _ Hcl Hy) in Hn; [|done].
      unfold finished in Hn. rewrite Hst in Hn. set_solver.
    + destruct (H8 x Hx) as [Ha Hs]. split; [done|]. intros y Hy. apply Hf. right. by apply Hs.
Qed.

(** *** The loop and the recursion *)

Lemma visited_refl w : sound w -> visited [] w w.
Proof using All. intros Hw. split; try done. - intros y Hy. by apply elem_of_nil in Hy. - intros Hc. split; [done|]. intros y Hy. by apply elem_of_nil in Hy. Qed.
(** One role dealt with, then the others. *)
Lemma visited_cons role rs w w1 w2 : on_stack w1 = on_stack w -> collected w ⊆ collected w1 -> (role = start \/ role ∈ collected w1) ->
  (cycle_detected w1 = false -> cycle_detected w = false /\ role ∈ finished w1) ->
  visited rs w1 w2 -> visited (role :: rs) w w2.
Proof using All.
  intros Hs Hm Hr Hf Hv. pose proof (finished_mono _ _ (visited_stack _ _ _ Hv) (visited_more _ _ _ Hv)) as Hfm.
  destruct Hv as [H1 H2 H3 H4 H5]. split; [done|by rewrite H2|set_solver| |].
  - intros y [->|Hy]%elem_of_cons; [|by apply H4]. destruct Hr; [by left|right; set_solver].
  - intros Hc. destruct (H5 Hc) as [Hc1 Hn]. destruct (Hf Hc1) as [Hc0 Hf1]. split; [done|].
    intros y [->|Hy]%elem_of_cons; [|by apply Hn]. set_solver.
Qed.
Lemma visit_roles_spec call pkg fuel :
  (forall role w, (size (universe ∖ collected w) < fuel)%nat -> sound w -> path_to role w -> exists w', call role w = Ret w' /\ visited (next role) w w') ->
  forall rs w, (forall role, role ∈ rs -> edge pkg role) -> (size (universe ∖ collected w) < S fuel)%nat -> sound w -> path_to pkg w ->
  exists w', visit_roles call rs w = Ret w' /\ visited rs w w'.
Proof using All.
  intros Hcall. induction rs as [|role rs IH]; intros w Hrs Hn Hw Hp; simpl; [exists w; split; [done|by apply visited_refl]|].
  assert (He : edge pkg role) by (apply Hrs; left). assert (Hrs' : forall role, role ∈ rs -> edge pkg role) by (intros; apply Hrs; by right).
  case_bool_decide as Hin.
  { destruct (IH (mkComposition (on_stack w) (collected w) (roles w) true)) as (w' & -> & Hv); [done|done|by eapply sound_flag|done|].
    exists w'. split; [done|]. eapply visited_cons; [..|exact Hv]; simpl; try done. by apply stack_collected. }
  case_bool_decide as Hc.
  { destruct (IH w) as (w' & -> & Hv); [done..|]. exists w'. split; [done|]. eapply visited_cons; [..|exact Hv]; try done; [by right|].
    intros. split; [done|]. unfold finished. set_solver. }
  destruct (sound_push pkg role w Hw Hp He Hin Hc) as [Hw1 Hp1]. set (w1 := mkComposition _ _ _ _) in *.
  destruct (Hcall role w1) as (w2 & -> & Hv); [|done|done|].
  { enough (size (universe ∖ collected w1) < size (universe ∖ collected w))%nat by lia. apply subset_size. simpl.
    assert (role ∈ universe) by by eapply next_bounded. set_solver. }
  simpl. assert (Hne : role <> start) by (intros ->; by apply Hin, Hw).
  destruct (sound_pop role w1 w2 Hw1) as [Hw3 Hf3]; [simpl; set_solver|done|done|]. set (w3 := mkComposition (_ ∖ _) _ _ _) in *.
  assert (Hs3 : on_stack w3 = on_stack w) by (simpl; rewrite (visited_stack _ _ _ Hv); apply set_eq; simpl; set_solver).
  assert (Hm3 : {[role]} ∪ collected w ⊆ collected w3) by apply (visited_more _ _ _ Hv).
  destruct (IH w3) as (w4 & -> & Hv4); [done| |done| |].
  - enough (size (universe ∖ collected w3) <= size (universe ∖ collected w))%nat by lia. apply subseteq_size. set_solver.
  - destruct Hp as [Hp Hp']. split; rewrite Hs3; done.
  - exists w4. split; [done|]. eapply visited_cons; [exact Hs3|set_solver|right; set_solver| |exact Hv4].
    intros Hc3. split; [|by apply Hf3]. by destruct (visited_flag _ _ _ Hv Hc3).
Qed.
Lemma collect_roles_spec fuel : forall pkg w, (size (universe ∖ collected w) < fuel)%nat -> sound w -> path_to pkg w ->
  exists w', collect_composed_roles next fuel pkg w = Ret w' /\ visited (next pkg) w w'.
Proof using All.
  induction fuel as [|fuel IH]; intros pkg w Hn Hw Hp; [lia|]. simpl.
  eapply visit_roles_spec; [exact IH|done|exact Hn|exact Hw|exact Hp].
Qed.
Definition at_start : Composition := mkComposition {[start]} ∅ [] false.
Lemma sound_start : sound at_start /\ path_to start at_start.
Proof using All.
  assert (Hf : finished at_start = ∅) by (unfold finished; apply set_eq; set_solver). split.
  - split; rewrite ?Hf; simpl; try set_solver; constructor.
  - split; simpl; [set_solver|]. intros x ->%elem_of_singleton. constructor.
Qed.
(** The whole search. *)
Lemma search_spec fuel : (size universe < fuel)%nat -> exists w, collect_composed_roles next fuel start at_start = Ret w /\
  NoDup (roles w) /\ (forall x, x ∈ roles w <-> tc edge start x /\ x <> start) /\
  (cycle_detected w = true <-> exists x, rtc edge start x /\ tc edge x x).
Proof using All.
  intros Hn. destruct sound_start as [Hs Hp]. destruct (collect_roles_spec fuel start at_start) as (w & E & Hv); [|done|done|].
  { simpl. replace (universe ∖ ∅) with universe; [done|]. apply set_eq. set_solver. }
  exists w. split; [exact E|]. pose proof (visited_sound _ _ _ Hv) as Hw. pose proof (visited_stack _ _ _ Hv) as Hst. simpl in Hst.
  assert (Hfin : forall x, x ∈ finished w <-> x ∈ collected w).
  { intros x. unfold finished. rewrite Hst. pose proof (start_not_collected _ Hw). set_solver. }
  assert (Hall : forall x y, (x = start \/ x ∈ collected w) -> edge x y -> y = start \/ y ∈ collected w).
  { intros x y [->|Hx] He; [by apply (visited_all _ _ _ Hv)|]. eapply finished_next; [exact Hw| |exact He]. by apply Hfin. }
  assert (Hreach : forall x y, rtc edge x y -> (x = start \/ x ∈ collected w) -> y = start \/ y ∈ collected w).
  { induction 1; eauto. }
  split; [apply Hw|]. split.
  - intros x. rewrite <-(collected_roles _ Hw). split.
    + intros Hx. split; [by apply Hw|]. intros ->. by apply (start_not_collected _ Hw).
    + intros [Ht%tc_rtc Hne]. destruct (Hreach _ _ Ht) as [?|?]; [by left|done|done].
  - split; [apply Hw|]. intros (x & Hx & Ht). destruct (cycle_detected w) eqn:Ec; [done|]. exfalso.
    destruct (visited_flag _ _ _ Hv Ec) as [_ Hnext].
    destruct (Hreach _ _ Hx) as [->|Hc]; [by left| |].
    + destruct (tc_first _ _ _ Ht) as (y & He & Hy). apply Hnext in He.
      apply (closed_reach (finished w)) in Hy; [|intros a b' Ha; by apply (finished_acyclic _ Hw Ec a Ha)|done].
      apply Hfin in Hy. by apply (start_not_collected _ Hw).
    + apply Hfin in Hc. by apply (finished_acyclic _ Hw Ec x Hc).
Qed.
End traversal.

(** ** The ancestors, by comparison with the roles *)

(** Until the first cycle the two traversals are in step; then the ancestors
    stop with what they have. *)
Section comparison.
Variable next : str -> list str.

Definition as_ancestry (w : Composition) : Ancestry := mkAncestry (on_stack w) (roles w) (cycle_detected w).
Definition mirrored (w : Composition) : Prop := forall x, x ∈ collected w <-> x ∈ roles w.
Record grown (w w' : Composition) : Prop := mkGrown {
  grown_mirrored : mirrored w';
  grown_roles : roles w `prefix_of` roles w';
  grown_cycle : cycle_detected w = true -> cycle_detected w' = true;
}.
Lemma grown_trans w1 w2 w3 : grown w1 w2 -> grown w2 w3 -> grown w1 w3.
Proof. intros [_ H2 H3] [H4 H5 H6]. split; [done|by etrans|auto]. Qed.
Lemma grown_refl w : mirrored w -> grown w w.
Proof. by split. Qed.
Lemma grown_push s role w : mirrored w -> grown w (mkComposition s ({[role]} ∪ collected w) (roles w ++ [role]) (cycle_detected w)).
Proof.
  intros Hm. split; simpl; [|by eexists|done]. intros x. simpl.
  rewrite elem_of_union, elem_of_app, (Hm x), elem_of_singleton, list_elem_of_singleton. tauto.
Qed.
Lemma grown_restack s w w' : grown w w' -> grown w (mkComposition s (collected w') (roles w') (cycle_detected w')).
Proof. by intros [H1 H2 H3]; split. Qed.
Lemma visit_grown call rs : (forall role w w', mirrored w -> call role w = Ret w' -> grown w w') ->
  forall w w', mirrored w -> visit_roles call rs w = Ret w' -> grown w w'.
Proof.
  intros Hcall. induction rs as [|role rs IH]; intros w w' Hm E; simpl in E; [injection E as <-; by apply grown_refl|].
  case_bool_decide.
  { apply IH in E; [|done]. eapply grown_trans; [|exact E]. by split; simpl. }
  case_bool_decide; [by apply IH|].
  apply bind_Ret_inv in E as (w1 & E1 & E). apply Hcall in E1; [|by apply grown_push].
  eapply grown_trans; [by apply grown_push|]. eapply grown_trans; [apply grown_restack; exact E1|].
  apply IH in E; [exact E|apply E1].
Qed.
Lemma collect_grown fuel : forall pkg w w', mirrored w -> collect_composed_roles next fuel pkg w = Ret w' -> grown w w'.
Proof. induction fuel as [|fuel IH]; intros pkg w w' Hm E; [done|]. by eapply visit_grown. Qed.

Definition in_step (w' : Composition) (a : outcome Ancestry) : Prop :=
  if cycle_detected w' then exists a', a = Ret a' /\ cycle_found a' = true /\ collected_ancestors a' `prefix_of` roles w'
  else a = Ret (as_ancestry w').
Lemma visit_in_step call call' rs : (forall role w w', mirrored w -> call role w = Ret w' -> grown w w') ->
  (forall role w w', mirrored w -> cycle_detected w = false -> call role w = Ret w' -> in_step w' (call' role (as_ancestry w))) ->
  forall w w', mirrored w -> cycle_detected w = false -> visit_roles call rs w = Ret w' -> in_step w' (visit_parents call' rs (as_ancestry w)).
Proof.
  intros Hg Hcall. induction rs as [|role rs IH]; intros w w' Hm Hc E; simpl in E |- *.
  { injection E as <-. unfold in_step. by rewrite Hc. }
  case_bool_decide as Hin.
  { apply visit_grown in E; [|done|done]. unfold in_step. rewrite (grown_cycle _ _ E) by done. eexists. split; [done|].
    split; [done|]. apply (grown_roles _ _ E). }
  rewrite (bool_decide_ext _ _ (Hm role)) in E.
  case_bool_decide as Hin2; [by apply IH|].
  apply bind_Ret_inv in E as (w1 & E1 & E). set (w0 := mkComposition _ _ _ _) in E1.
  assert (Hm0 : mirrored w0) by apply grown_push, Hm. pose proof (Hg _ _ _ Hm0 E1) as G1.
  pose proof (Hcall _ _ _ Hm0 Hc E1) as S1. change (mkAncestry ({[role]} ∪ on_stack w) (roles w ++ [role]) (cycle_detected w)) with (as_ancestry w0). unfold in_step in S1.
  set (w2 := mkComposition _ _ _ _) in E. assert (Hm2 : mirrored w2) by apply G1.
  destruct (cycle_detected w1) eqn:Ec1.
  - destruct S1 as (a1 & -> & Hf & Hp). simpl. rewrite Hf. pose proof (visit_grown _ _ Hg _ _ Hm2 E) as G2.
    unfold in_step. rewrite (grown_cycle _ _ G2) by done. eexists. split; [done|]. split; [done|]. simpl. etrans; [exact Hp|]. apply (grown_roles _ _ G2).
  - rewrite S1. simpl. rewrite Ec1. change (mkAncestry _ _ false) with (mkAncestry (on_stack w2) (roles w2) false).
    replace (mkAncestry (on_stack w2) (roles w2) false) with (as_ancestry w2) by done.
    by apply IH.
Qed.
Lemma collect_in_step fuel : forall pkg w w', mirrored w -> cycle_detected w = false ->
  collect_composed_roles next fuel pkg w = Ret w' -> in_step w' (collect_ancestors next fuel pkg (as_ancestry w)).
Proof.
  induction fuel as [|fuel IH]; intros pkg w w' Hm Hc E; [done|]. simpl. rewrite Hc.
  by eapply visit_in_step; [apply collect_grown|exact IH|..].
Qed.
End comparison.

(** ** The traversals of an index *)

Definition all_edges (self : PackageGraphIndex) : list PackageEdge := concat (map_to_list (outgoing_edges self)).*2.
Lemma edge_count_all self : edge_count self = length (all_edges self).
Proof. unfold edge_count, all_edges. induction (_.*2) as [|l ls IH]; [done|]. rewrite fmap_cons. simpl. rewrite length_app, <-IH. done. Qed.
Lemma targets_all k self x y : y ∈ targets k self x <-> exists e, e ∈ get_edges self x /\ kind e = k /\ to_package e = y.
Proof.
  unfold targets. rewrite list_elem_of_fmap. split; intros (e & H1 & H2).
  - apply list_elem_of_filter in H2 as [H2 H3]. eauto.
  - destruct H2 as [H2 <-]. exists e. rewrite list_elem_of_filter. eauto.
Qed.
Definition targets_bound (self : PackageGraphIndex) : gset str := list_to_set (to_package <$> all_edges self).
Lemma targets_bounded k self x y : y ∈ targets k self x -> y ∈ targets_bound self.
Proof.
  intros (e & He & _ & <-)%targets_all. apply elem_of_list_to_set, list_elem_of_fmap. exists e. split; [done|].
  unfold get_edges in He. destruct (outgoing_edges self !! x) as [es|] eqn:E; [|by apply elem_of_nil in He]. simpl in He.
  unfold all_edges. apply list_elem_of_In, in_concat. exists es. split; [|by apply list_elem_of_In].
  apply list_elem_of_In, list_elem_of_fmap. exists (x, es). split; [done|]. by apply elem_of_map_to_list.
Qed.
Lemma size_list_set (l : list str) : (size (list_to_set l : gset str) <= length l)%nat.
Proof.
  induction l as [|x l IH]; [done|]. simpl. rewrite size_union_alt.
  pose proof (subseteq_size (list_to_set l ∖ {[x]} : gset str) (list_to_set l) ltac:(set_solver)). rewrite size_singleton. lia.
Qed.
Lemma fuel_enough self : (size (targets_bound self) < S (edge_count self))%nat.
Proof. rewrite edge_count_all. pose proof (size_list_set (to_package <$> all_edges self)) as H. rewrite length_fmap in H. unfold targets_bound. lia. Qed.

(** [y] is a direct parent, or a role, of [x]. *)
Definition related (k : PackageEdgeKind) (self : PackageGraphIndex) (x y : str) : Prop :=
  exists e, e ∈ get_edges self x /\ kind e = k /\ to_package e = y.
Lemma tc_iff {A} (R1 R2 : relation A) : (forall x y, R1 x y <-> R2 x y) -> forall x y, tc R1 x y <-> tc R2 x y.
Proof. intros H x y. split; (induction 1; [constructor; by apply H|eapply tc_l; [by apply H|done]]). Qed.
Lemma rtc_iff {A} (R1 R2 : relation A) : (forall x y, R1 x y <-> R2 x y) -> forall x y, rtc R1 x y <-> rtc R2 x y.
Proof. intros H x y. split; (induction 1; [constructor|eapply rtc_l; [by apply H|done]]). Qed.
Definition reachable_cycle (k : PackageEdgeKind) (self : PackageGraphIndex) (x : str) : Prop :=
  exists y, rtc (related k self) x y /\ tc (related k self) y y.

Lemma search_index k self x : exists w, collect_composed_roles (targets k self) (S (edge_count self)) x (at_start x) = Ret w /\
  NoDup (roles w) /\ (forall y, y ∈ roles w <-> tc (related k self) x y /\ y <> x) /\ (cycle_detected w = true <-> reachable_cycle k self x).
Proof.
  destruct (search_spec (targets k self) x (targets_bound self) (fun a b => targets_bounded k self a b) _ (fuel_enough self)) as (w & E & H1 & H2 & H3).
  exists w. split; [exact E|]. split; [exact H1|]. split.
  - intros y. rewrite H2, (tc_iff _ (related k self)); [done|]. apply targets_all.
  - assert (Heq : forall a b, edge (targets k self) a b <-> related k self a b) by (intros a b; apply targets_all).
    rewrite H3. unfold reachable_cycle. split; intros (y & Hy1 & Hy2); exists y;
      (split; [by apply (rtc_iff _ _ Heq)|by apply (tc_iff _ _ Heq)]).
Qed.
Lemma ancestors_index self x : exists a, ancestors self x = Ret a /\
  (forall y, y ∈ ancestors_of a -> tc (related Inherits self) x y) /\
  (ancestors_cycle a = true <-> reachable_cycle Inherits self x) /\
  (ancestors_cycle a = false -> NoDup (ancestors_of a) /\ forall y, tc (related Inherits self) x y -> y ∈ ancestors_of a).
Proof.
  destruct (search_index Inherits self x) as (w & E & H1 & H2 & H3).
  assert (Hm : mirrored (at_start x)) by (intros y; set_solver).
  pose proof (collect_in_step _ _ _ _ _ Hm eq_refl E) as Hs. change (as_ancestry (at_start x)) with (mkAncestry {[x]} [] false) in Hs.
  unfold ancestors, direct_parents. unfold in_step in Hs. destruct (cycle_detected w) eqn:Ec.
  - destruct Hs as (a & -> & Hc & Hp). simpl. exists (mkAncestorResult (collected_ancestors a) (cycle_found a)). simpl. rewrite Hc.
    split; [done|]. split; [|done]. intros y Hy. apply H2. destruct Hp as [t ->]. apply elem_of_app. by left.
  - rewrite Hs. simpl. exists (mkAncestorResult (roles w) (cycle_found (as_ancestry w))). split; [done|]. simpl. rewrite Ec.
    split; [intros y Hy; by apply H2|]. split; [exact H3|]. intros _. split; [done|]. intros y Hy. apply H2. split; [done|]. intros ->.
    assert (Hcy : reachable_cycle Inherits self x) by (exists x; by split; [constructor|]). by apply H3 in Hcy.
Qed.
