(* ===== verification/PackageIndex.v ===== *)
(** * The package index represents the files

    Replacing a file keeps the index equal to what all files currently
    contribute; the metadata of a package does not depend on the order in
    which files are visited when it is rebuilt. *)

From stdpp Require Import base numbers list gmap sets relations.
From S2P Require Import Prelude PackageGraph PackageGraphLaws.

(** ** Buckets *)

(** The edges that leave a package, each with the file that owns it. *)
Definition owned (self : PackageGraphIndex) (pkg : str) : list (PackageEdge * str) :=
  zip (get_edges self pkg) (default [] (outgoing_edge_sources self !! pkg)).
(** The two vectors of every bucket have one length. *)
Definition lockstep (self : PackageGraphIndex) : Prop :=
  (forall pkg, is_Some (outgoing_edges self !! pkg) <-> is_Some (outgoing_edge_sources self !! pkg)) /\
  (forall pkg, length (get_edges self pkg) = length (default [] (outgoing_edge_sources self !! pkg))).
Lemma owned_edges self pkg : lockstep self -> (owned self pkg).*1 = get_edges self pkg.
Proof. intros [_ H]. apply fst_zip. rewrite H. lia. Qed.
Lemma push_at_default {A} (k : str) (x : A) m k' : default [] (push_at k x m !! k') = default [] (m !! k') ++ (if decide (k = k') then [x] else []).
Proof.
  unfold push_at. destruct (decide (k = k')) as [<-|Hne]; [by rewrite lookup_insert_eq|]. by rewrite lookup_insert_ne, app_nil_r.
Qed.
Lemma push_at_dom {A} (k : str) (x : A) m k' : is_Some (push_at k x m !! k') <-> k = k' \/ is_Some (m !! k').
Proof. unfold push_at. rewrite lookup_insert_is_Some. destruct (decide (k = k')); naive_solver. Qed.

Lemma or_insert_dom {A} k (x : A) m k' : is_Some (or_insert k x m !! k') <-> k' = k \/ is_Some (m !! k').
Proof.
  unfold or_insert. destruct (m !! k) as [y|] eqn:E; [|rewrite lookup_insert_is_Some; destruct (decide (k = k')); naive_solver].
  split; [by right|]. intros [->|?]; [by rewrite E|done].
Qed.

Lemma record_lockstep uri id self e : lockstep self -> lockstep (record_edge uri id self e).
Proof.
  intros [H1 H2]. split; intros pkg; simpl; [by rewrite !push_at_dom, H1|].
  unfold get_edges in *. simpl. rewrite !push_at_default, !length_app, H2. by destruct (decide _).
Qed.
Lemma record_owned uri id self e pkg : lockstep self ->
  owned (record_edge uri id self e) pkg = owned self pkg ++ (if decide (from_package e = pkg) then [(e, uri)] else []).
Proof.
  intros [_ H]. unfold owned, get_edges in *. simpl. rewrite !push_at_default, zip_with_app by apply H.
  by destruct (decide (from_package e = pkg)).
Qed.
Lemma record_all uri id es : forall self, lockstep self -> let self' := foldl (record_edge uri id) self es in
  lockstep self' /\ file_edges self' = file_edges self /\ file_edge_ids self' = file_edge_ids self /\
  (forall pkg, owned self' pkg = owned self pkg ++ ((fun e => (e, uri)) <$> filter (fun e => from_package e = pkg) es)) /\
  (forall pkg, is_Some (nodes self' !! pkg) <-> is_Some (nodes self !! pkg) \/ exists e, e ∈ es /\ (pkg = from_package e \/ pkg = to_package e)).
Proof.
  induction es as [|e es IH]; intros self Hl; simpl.
  { split; [done|]. split; [done|]. split; [done|]. split; [intros pkg; by rewrite app_nil_r|]. intros pkg.
    split; [by left|]. intros [?|(e & He & _)]; [done|]. by apply elem_of_nil in He. }
  destruct (IH (record_edge uri id self e)) as (H1 & H2 & H3 & H4 & H5); [by apply record_lockstep|].
  split; [done|]. split; [done|]. split; [done|]. split.
  - intros pkg. rewrite H4, record_owned by done. rewrite filter_cons, <-(assoc_L (++)). f_equal. by destruct (decide _).
  - intros pkg. rewrite H5. 
    assert (Hn : is_Some (nodes (record_edge uri id self e) !! pkg) <-> is_Some (nodes self !! pkg) \/ pkg = from_package e \/ pkg = to_package e).
    { simpl. unfold ensure_node_from_edge_target, ensure_node_from_edge_source. rewrite !or_insert_dom. tauto. }
    rewrite Hn. setoid_rewrite elem_of_cons. naive_solver.
Qed.

(** ** The files of a workspace *)

(** The abstract state: what every file contributes, and under which id. *)
Notation files := (gmap str (Z * list PackageEdge)).
Definition edges_of (fs : files) (uri : str) : list PackageEdge := default [] (snd <$> fs !! uri).
Definition mentioned (fs : files) (pkg : str) : Prop :=
  exists uri e, e ∈ edges_of fs uri /\ (pkg = from_package e \/ pkg = to_package e).
Record represents (fs : files) (self : PackageGraphIndex) : Prop := mkRepresents {
  rep_edges : file_edges self = snd <$> fs;
  rep_ids : file_edge_ids self = fst <$> fs;
  rep_lockstep : lockstep self;
  rep_owned : forall pkg uri, filter (fun x => x.2 = uri) (owned self pkg) =
    (fun e => (e, uri)) <$> filter (fun e => from_package e = pkg) (edges_of fs uri);
  rep_nodes : forall pkg, is_Some (nodes self !! pkg) <-> mentioned fs pkg;
}.

Lemma edges_of_insert fs uri id es uri' : edges_of (<[uri := (id, es)]> fs) uri' = if decide (uri = uri') then es else edges_of fs uri'.
Proof. unfold edges_of. destruct (decide (uri = uri')) as [<-|Hne]; [by rewrite lookup_insert_eq|by rewrite lookup_insert_ne]. Qed.
Lemma edges_of_delete fs uri uri' : edges_of (delete uri fs) uri' = if decide (uri = uri') then [] else edges_of fs uri'.
Proof. unfold edges_of. destruct (decide (uri = uri')) as [<-|Hne]; [by rewrite lookup_delete_eq|by rewrite lookup_delete_ne]. Qed.
Lemma edges_of_fresh fs uri : fs !! uri = None -> edges_of fs uri = [].
Proof. unfold edges_of. by intros ->. Qed.
Lemma filter_owner (uri uri' : str) (es : list PackageEdge) :
  filter (fun x => x.2 = uri') ((fun e => (e, uri)) <$> es) = if decide (uri = uri') then (fun e => (e, uri)) <$> es else [].
Proof.
  induction es as [|e es IH]; [by destruct (decide _)|]. rewrite fmap_cons, filter_cons, IH. simpl. by destruct (decide (uri = uri')).
Qed.

Lemma represents_new : represents ∅ new.
Proof.
  split; try done.
  - split; intros pkg; simpl; [|done]. rewrite !lookup_empty. by split; intros [? ?].
  - intros pkg. simpl. rewrite lookup_empty. split; [by intros [? ?]|]. intros (uri & e & He & _). unfold edges_of in He.
    rewrite lookup_empty in He. by apply elem_of_nil in He.
Qed.
Lemma represents_add fs self uri id es : represents fs self -> fs !! uri = None ->
  represents (<[uri := (id, es)]> fs) (add_edges self uri id es).
Proof.
  intros [H1 H2 H3 H4 H5] Hfresh. unfold add_edges. set (self0 := mkIndex _ _ _ _ _).
  destruct (record_all uri id es self0 H3) as (R1 & R2 & R3 & R4 & R5). split; [..|exact R1|idtac|idtac].
  - rewrite R2. simpl. by rewrite H1, fmap_insert.
  - rewrite R3. simpl. by rewrite H2, fmap_insert.
  - intros pkg uri'. rewrite R4, filter_app, filter_owner, edges_of_insert. change (owned self0 pkg) with (owned self pkg). rewrite H4.
    destruct (decide (uri = uri')) as [<-|Hne]; [by rewrite edges_of_fresh|by rewrite app_nil_r].
  - intros pkg. rewrite R5. simpl. rewrite H5. unfold mentioned. setoid_rewrite edges_of_insert. split.
    + intros [(uri' & e & He & Hp)|(e & He & Hp)].
      * exists uri', e. destruct (decide (uri = uri')) as [<-|]; [|done]. rewrite edges_of_fresh in He by done. by apply elem_of_nil in He.
      * exists uri, e. by rewrite decide_True.
    + intros (uri' & e & He & Hp). destruct (decide (uri = uri')); [right; eauto|left; eauto].
Qed.

(** Pruning the buckets. *)
Lemma prune_bucket_spec uri pkg self : lockstep self -> exists self', prune_bucket uri pkg self = Ret self' /\
  lockstep self' /\ file_edges self' = file_edges self /\ file_edge_ids self' = file_edge_ids self /\
  forall p, owned self' p = if decide (p = pkg) then filter (fun x => x.2 <> uri) (owned self p) else owned self p.
Proof.
  intros [H1 H2]. unfold prune_bucket. specialize (H2 pkg) as H2p. specialize (H1 pkg) as H1p. unfold get_edges in H2p.
  destruct (outgoing_edges self !! pkg) as [es|] eqn:E1, (outgoing_edge_sources self !! pkg) as [ss|] eqn:E2; simpl in H2p.
  - rewrite bool_decide_true by done. eexists. split; [done|]. simpl. split; [|split; [done|split; [done|]]].
    + split; intros p; unfold get_edges; simpl; destruct (decide (pkg = p)) as [<-|Hne];
        rewrite ?lookup_insert_eq, ?lookup_insert_ne by done; simpl; [by split; eauto|apply H1|by rewrite !length_fmap|apply H2].
    + intros p. unfold owned, get_edges. simpl. destruct (decide (p = pkg)) as [->|Hne].
      * rewrite !lookup_insert_eq, E1, E2. simpl. apply zip_fst_snd.
      * by rewrite !lookup_insert_ne.
  - by destruct (proj1 H1p ltac:(eauto)).
  - by destruct (proj2 H1p ltac:(eauto)).
  - exists self. split; [done|]. split; [done|]. split; [done|]. split; [done|]. intros p. destruct (decide (p = pkg)) as [->|]; [|done].
    unfold owned, get_edges. by rewrite E1, E2.
Qed.
Lemma prune_buckets_spec uri affected : forall self, lockstep self -> exists self', prune_buckets uri affected self = Ret self' /\
  lockstep self' /\ file_edges self' = file_edges self /\ file_edge_ids self' = file_edge_ids self /\
  forall p, owned self' p = if decide (p ∈ affected) then filter (fun x => x.2 <> uri) (owned self p) else owned self p.
Proof.
  induction affected as [|pkg affected IH]; intros self Hl; simpl; [eauto 10|].
  destruct (prune_bucket_spec uri pkg self Hl) as (self1 & -> & L1 & F1 & I1 & O1). simpl.
  destruct (IH self1 L1) as (self2 & -> & L2 & F2 & I2 & O2). exists self2. split; [done|]. split; [done|].
  split; [by rewrite F2|]. split; [by rewrite I2|]. intros p. rewrite O2, O1.
  assert (Hff : forall l : list (PackageEdge * str), filter (fun x => x.2 <> uri) (filter (fun x => x.2 <> uri) l) = filter (fun x => x.2 <> uri) l).
  { intros l. by apply list_filter_filter_l. }
  destruct (decide (p = pkg)), (decide (p ∈ affected)), (decide (p ∈ pkg :: affected)); try done; set_solver.
Qed.

(** ** Metadata *)

Definition known_in (m : metadata) (pkg : str) : Prop := is_Some (m.1 !! pkg) \/ is_Some (m.2 !! pkg).
Lemma nodes_of_dom m pkg : is_Some (nodes_of m !! pkg) <-> known_in m pkg.
Proof.
  unfold nodes_of, known_in. rewrite lookup_union_is_Some, !map_lookup_imap.
  destruct (m.1 !! pkg), (m.2 !! pkg); simpl; rewrite ?is_Some_alt; naive_solver.
Qed.
Lemma merge_edge_dom id m e pkg : known_in (merge_edge id m e) pkg <-> known_in m pkg \/ pkg = from_package e \/ pkg = to_package e.
Proof. unfold known_in, merge_edge. simpl. rewrite !lookup_insert_is_Some. destruct (decide (pkg = from_package e)), (decide (pkg = to_package e)); naive_solver. Qed.
Lemma merge_edges_dom id es : forall m pkg, known_in (foldl (merge_edge id) m es) pkg <->
  known_in m pkg \/ exists e, e ∈ es /\ (pkg = from_package e \/ pkg = to_package e).
Proof.
  induction es as [|e es IH]; intros m pkg; simpl; [split; [by left|]; intros [?|(e & He & _)]; [done|by apply elem_of_nil in He]|].
  rewrite IH, merge_edge_dom. setoid_rewrite elem_of_cons. naive_solver.
Qed.
Lemma merge_files_dom ids order : forall m pkg, (forall f, f ∈ order -> is_Some (ids !! f.1)) ->
  known_in (foldl (merge_file ids) m order) pkg <->
  known_in m pkg \/ exists f e, f ∈ order /\ e ∈ f.2 /\ (pkg = from_package e \/ pkg = to_package e).
Proof.
  induction order as [|f order IH]; intros m pkg Hids; simpl.
  { split; [by left|]. intros [?|(f & e & Hf & _)]; [done|by apply elem_of_nil in Hf]. }
  rewrite IH by (intros; apply Hids; by right). destruct (Hids f) as [id Hid]; [left|]. unfold merge_file. rewrite Hid, merge_edges_dom.
  setoid_rewrite elem_of_cons. naive_solver.
Qed.
Lemma nonempty_default {A} (m : gmap str (list A)) k : default [] (nonempty_buckets m !! k) = default [] (m !! k).
Proof.
  unfold nonempty_buckets. rewrite map_lookup_filter. destruct (m !! k) as [l|]; simpl; [|done].
  case_guard as H; simpl; [done|]. simpl in H. by destruct l; [|destruct H].
Qed.
Lemma nonempty_dom {A} (m : gmap str (list A)) k : is_Some (nonempty_buckets m !! k) <-> default [] (m !! k) <> [].
Proof.
  unfold nonempty_buckets. rewrite map_lookup_filter. destruct (m !! k) as [l|]; simpl; [|split; [by intros [? ?]|done]].
  case_guard as H; simpl in *; split; try done; by intros [? ?].
Qed.

Lemma filter_not_owned (uri : str) (l : list (PackageEdge * str)) : filter (fun x => x.2 = uri) l = [] -> filter (fun x => x.2 <> uri) l = l.
Proof.
  induction l as [|x l IH]; [done|]. rewrite !filter_cons. destruct (decide (x.2 = uri)); [done|]. intros E.
  rewrite decide_True by done. by rewrite IH.
Qed.
Lemma filter_none {A} (P : A -> Prop) `{forall x, Decision (P x)} (l : list A) : (forall x, x ∈ l -> ~ P x) -> filter P l = [].
Proof.
  induction l as [|x l IH]; intros Hl; [done|]. rewrite filter_cons, decide_False by (apply Hl; left). apply IH. intros y Hy. apply Hl. by right.
Qed.
(** Dropping the empty buckets. *)
Definition compacted (self : PackageGraphIndex) : PackageGraphIndex :=
  mkIndex (nodes self) (nonempty_buckets (outgoing_edges self)) (nonempty_buckets (outgoing_edge_sources self)) (file_edges self) (file_edge_ids self).
Lemma compacted_owned self p : owned (compacted self) p = owned self p.
Proof. unfold owned, get_edges. simpl. by rewrite !nonempty_default. Qed.
Lemma compacted_lockstep self : lockstep self -> lockstep (compacted self).
Proof.
  intros [_ H]. split; intros pkg; unfold get_edges in *; simpl; [|by rewrite !nonempty_default].
  rewrite !nonempty_dom. specialize (H pkg). by destruct (default [] (outgoing_edges _ !! _)), (default [] (outgoing_edge_sources _ !! _)).
Qed.
Lemma rebuilt_nodes fs self pkg : file_edges self = snd <$> fs -> file_edge_ids self = fst <$> fs ->
  is_Some (nodes (rebuild_node_metadata (map_to_list (file_edges self)) self) !! pkg) <-> mentioned fs pkg.
Proof.
  intros H1 H2. unfold rebuild_node_metadata. simpl. rewrite nodes_of_dom, merge_files_dom.
  - unfold known_in. simpl. rewrite lookup_empty. unfold mentioned. split.
    + intros [[[? ?]|[? ?]]|([uri es] & e & Hf & He & Hp)]; [done..|]. apply elem_of_map_to_list in Hf. exists uri, e.
      unfold edges_of. rewrite H1, lookup_fmap in Hf. rewrite Hf. done.
    + intros (uri & e & He & Hp). right. exists (uri, edges_of fs uri), e. split; [|done]. apply elem_of_map_to_list.
      unfold edges_of in *. rewrite H1, lookup_fmap. destruct (fs !! uri); [done|by apply elem_of_nil in He].
  - intros [uri es] Hf%elem_of_map_to_list. simpl. rewrite H1, lookup_fmap in Hf. rewrite H2, lookup_fmap. destruct (fs !! uri); [by eexists|done].
Qed.
Lemma represents_remove fs self uri : represents fs self -> exists self', remove_edges_for_file self uri = Ret self' /\ represents (delete uri fs) self'.
Proof.
  intros [H1 H2 H3 H4 H5]. unfold remove_edges_for_file. rewrite H1, lookup_fmap.
  destruct (fs !! uri) as [[id es]|] eqn:E; simpl; [|exists self; split; [done|by rewrite delete_id]].
  set (self0 := mkIndex _ _ _ _ _). set (affected := list_to_set _).
  destruct (prune_buckets_spec uri (elements affected) self0 H3) as (self1 & -> & L1 & F1 & I1 & O1). simpl.
  change (mkIndex (nodes self1) _ _ _ _) with (compacted self1). eexists. split; [done|].
  assert (Hes : edges_of fs uri = es) by (unfold edges_of; by rewrite E).
  assert (O : forall p, owned self1 p = filter (fun x => x.2 <> uri) (owned self p)).
  { intros p. rewrite O1. change (owned self0 p) with (owned self p). destruct (decide _) as [|Hn]; [done|].
    symmetry. apply filter_not_owned. rewrite H4, Hes. rewrite filter_none; [done|].
    intros e He Hp. apply Hn, elem_of_elements, elem_of_list_to_set, list_elem_of_fmap. eauto. }
  assert (F : file_edges (compacted self1) = snd <$> delete uri fs) by (simpl; rewrite F1, fmap_delete; done).
  assert (I : file_edge_ids (compacted self1) = fst <$> delete uri fs) by (simpl; rewrite I1, fmap_delete; simpl; by rewrite H2).
  split; [exact F|exact I|exact (compacted_lockstep _ L1)| |intros pkg; exact (rebuilt_nodes _ _ _ F I)].
  intros pkg uri'. change (owned (rebuild_node_metadata _ ?s) pkg) with (owned s pkg). rewrite compacted_owned, O, edges_of_delete.
  destruct (decide (uri = uri')) as [<-|Hne].
  - apply filter_none. intros x [? _]%list_elem_of_filter. done.
  - rewrite list_filter_filter_l; [by rewrite H4|]. by intros x ->.
Qed.

(** *** The order of the files *)

(** What the edges of one file say of a package that they leave. *)
Definition or_else (a b : option Z) : option Z := match a with Some _ => a | None => b end.
Definition class_or (a b : PackageKind) : PackageKind := if bool_decide (a = Class_) then Class_ else b.
Definition combine (x : source_entry) (known : option source_entry) : source_entry :=
  match known with
  | None => x
  | Some (k, anchor, owner) =>
    let k := class_or x.1.1 k in
    if x.2 <? owner then (k, x.1.2, x.2) else if x.2 =? owner then (k, or_else anchor x.1.2, owner) else (k, anchor, owner)
  end.
Lemma merge_source_combine e id known : merge_source e id known = combine (source_kind e, anchor_id e, id) known.
Proof.
  destruct known as [[[k anchor] owner]|]; [|done]. simpl. unfold class_or. destruct (id <? owner); [done|].
  destruct (Z.eqb_spec id owner) as [->|]; [|done]. by destruct anchor.
Qed.
Lemma combine_comm x y known : x.2 <> y.2 ->
  (x.1.1 = Class_ \/ x.1.1 = Package) -> (y.1.1 = Class_ \/ y.1.1 = Package) ->
  combine x (Some (combine y known)) = combine y (Some (combine x known)).
Proof.
  destruct x as [[kx ax] ox], y as [[ky ay] oy]. simpl. intros Hne Hx Hy.
  assert (Hkk : class_or kx ky = class_or ky kx) by (unfold class_or; by destruct Hx, Hy; subst).
  destruct known as [[[k a] o]|]; simpl.
  - assert (Hk3 : class_or kx (class_or ky k) = class_or ky (class_or kx k)).
    { unfold class_or. by repeat case_bool_decide. }
    unfold or_else.
    destruct (Z.ltb_spec oy o), (Z.ltb_spec ox o); simpl;
      repeat match goal with
      | |- context [?a <? ?b] => destruct (Z.ltb_spec a b); simpl
      | |- context [?a =? ?b] => destruct (Z.eqb_spec a b); simpl
      end; try lia; rewrite ?Hk3; try done.
  - destruct (Z.ltb_spec ox oy), (Z.ltb_spec oy ox); simpl; try lia;
      repeat match goal with |- context [?a =? ?b] => destruct (Z.eqb_spec a b); simpl end; try lia; by rewrite ?Hkk.
Qed.
Lemma source_kind_cases e : source_kind e = Class_ \/ source_kind e = Package.
Proof. unfold source_kind. destruct (kind e); auto. Qed.
Lemma merge_source_comm e1 e2 id1 id2 known : id1 <> id2 ->
  merge_source e1 id1 (Some (merge_source e2 id2 known)) = merge_source e2 id2 (Some (merge_source e1 id1 known)).
Proof. intros Hne. rewrite !merge_source_combine. apply combine_comm; [done|apply source_kind_cases..]. Qed.
Lemma merge_target_comm e1 e2 known : merge_target e1 (Some (merge_target e2 known)) = merge_target e2 (Some (merge_target e1 known)).
Proof. unfold merge_target, target_kind. destruct known, (kind e1), (kind e2); done. Qed.
Lemma insert_comm_at {A} (k1 k2 : str) (f1 f2 : option A -> A) (m : gmap str A) :
  (k1 = k2 -> forall o, f1 (Some (f2 o)) = f2 (Some (f1 o))) ->
  <[k1 := f1 (<[k2 := f2 (m !! k2)]> m !! k1)]> (<[k2 := f2 (m !! k2)]> m) =
  <[k2 := f2 (<[k1 := f1 (m !! k1)]> m !! k2)]> (<[k1 := f1 (m !! k1)]> m).
Proof.
  intros Hf. destruct (decide (k1 = k2)) as [<-|Hne].
  - rewrite !lookup_insert_eq, !insert_insert_eq. by rewrite Hf.
  - rewrite !lookup_insert_ne by done. by rewrite insert_insert_ne.
Qed.
Lemma merge_edge_comm id1 id2 m e1 e2 : id1 <> id2 -> merge_edge id1 (merge_edge id2 m e2) e1 = merge_edge id2 (merge_edge id1 m e1) e2.
Proof.
  intros Hne. unfold merge_edge. simpl. f_equal.
  - apply (insert_comm_at _ _ (merge_source e1 id1) (merge_source e2 id2)). intros _ o. by apply merge_source_comm.
  - apply (insert_comm_at _ _ (merge_target e1) (merge_target e2)). intros _ o. apply merge_target_comm.
Qed.
Lemma foldl_comm {A B C} (f : A -> B -> A) (g : A -> C -> A) : (forall a b c, f (g a c) b = g (f a b) c) ->
  forall bs cs a, foldl f (foldl g a cs) bs = foldl g (foldl f a bs) cs.
Proof.
  intros H. assert (H1 : forall cs a b, f (foldl g a cs) b = foldl g (f a b) cs).
  { induction cs as [|c cs IH]; intros a b; simpl; [done|]. by rewrite IH, H. }
  induction bs as [|b bs IH]; intros cs a; simpl; [done|]. by rewrite H1, IH.
Qed.
Lemma merge_file_comm ids m f1 f2 : (forall id, ids !! f1.1 = Some id -> ids !! f2.1 <> Some id) ->
  merge_file ids (merge_file ids m f2) f1 = merge_file ids (merge_file ids m f1) f2.
Proof.
  intros Hids. unfold merge_file. destruct (ids !! f1.1) as [id1|], (ids !! f2.1) as [id2|]; try done.
  apply foldl_comm. intros a e1 e2. apply merge_edge_comm. intros ->. by apply (Hids id2).
Qed.
Lemma merge_files_permutation ids l1 l2 : l1 ≡ₚ l2 -> NoDup l1.*1 ->
  (forall f1 f2 id, f1 ∈ l1 -> f2 ∈ l1 -> ids !! f1.1 = Some id -> ids !! f2.1 = Some id -> f1.1 = f2.1) ->
  forall m, foldl (merge_file ids) m l1 = foldl (merge_file ids) m l2.
Proof.
  induction 1 as [|f l1 l2 Hp IH|f1 f2 l|l1 l2 l3 Hp1 IH1 Hp2 IH2]; intros Hnd Hids m; simpl in *.
  - done.
  - apply NoDup_cons in Hnd as [_ Hnd]. apply IH; [done|]. intros g1 g2 id H1 H2. apply Hids; by right.
  - f_equal. apply merge_file_comm. intros id E1 E2. apply NoDup_cons in Hnd as [Hn _]. apply Hn.
    rewrite (Hids f2 f1 id); [left|left|right; left|done|done].
  - rewrite IH1 by done. apply IH2; [by rewrite <-Hp1|]. intros g1 g2 id H1 H2. apply Hids; by rewrite Hp1.
Qed.

(** ** The properties *)

(** What the workspace does to the index: a file's edges are replaced by
    removing what it contributed and adding what it contributes now. *)
Inductive update := Replace (uri : str) (file_id : Z) (edges : list PackageEdge) | Remove (uri : str) | Clear.
Definition apply_update (self : PackageGraphIndex) (u : update) : outcome PackageGraphIndex :=
  match u with
  | Replace uri id es => self ← remove_edges_for_file self uri; mret (add_edges self uri id es)
  | Remove uri => remove_edges_for_file self uri
  | Clear => Ret new
  end.
Fixpoint apply_updates (self : PackageGraphIndex) (us : list update) : outcome PackageGraphIndex :=
  match us with [] => Ret self | u :: us => self ← apply_update self u; apply_updates self us end.
Definition files_after (fs : files) (u : update) : files :=
  match u with Replace uri id es => <[uri := (id, es)]> fs | Remove uri => delete uri fs | Clear => ∅ end.

Lemma update_represents fs self u : represents fs self -> exists self', apply_update self u = Ret self' /\ represents (files_after fs u) self'.
Proof.
  intros Hrep. destruct u as [uri id es|uri|]; simpl; [|by apply represents_remove|exists new; split; [done|apply represents_new]].
  destruct (represents_remove fs self uri Hrep) as (self1 & -> & H1). simpl. eexists. split; [done|].
  rewrite <-insert_delete_eq. apply represents_add; [done|apply lookup_delete_eq].
Qed.
Lemma updates_represent us : forall fs self, represents fs self ->
  exists self', apply_updates self us = Ret self' /\ represents (foldl files_after fs us) self'.
Proof.
  induction us as [|u us IH]; intros fs self Hrep; simpl; [by exists self|].
  destruct (update_represents fs self u Hrep) as (self1 & -> & H1). simpl. by apply IH.
Qed.
Lemma represents_related fs self k x y : represents fs self ->
  related k self x y <-> exists uri e, e ∈ edges_of fs uri /\ from_package e = x /\ kind e = k /\ to_package e = y.
Proof.
  intros [_ _ H3 H4 _]. unfold related.
  assert (Hin : forall e, e ∈ get_edges self x <-> exists uri, e ∈ edges_of fs uri /\ from_package e = x).
  { intros e. rewrite <-(owned_edges self x H3), list_elem_of_fmap. split.
    - intros ([e' uri] & -> & Hin). exists uri. simpl.
      assert (Hf : (e', uri) ∈ filter (fun x => x.2 = uri) (owned self x)) by (by apply list_elem_of_filter).
      rewrite H4 in Hf. apply list_elem_of_fmap in Hf as (e'' & [= <-] & Hf). by apply list_elem_of_filter in Hf as [? ?].
    - intros (uri & He & Hx). exists (e, uri). split; [done|].
      assert (Hf : (e, uri) ∈ (fun e => (e, uri)) <$> filter (fun e => from_package e = x) (edges_of fs uri)).
      { apply list_elem_of_fmap. exists e. split; [done|]. by apply list_elem_of_filter. }
      rewrite <-H4 in Hf. by apply list_elem_of_filter in Hf as [_ ?]. }
  setoid_rewrite Hin. naive_solver.
Qed.

(** C13. However files were indexed, indexed again, removed or cleared, the
    graph is the union of what the files contribute now: an edge leads from
    one package to another exactly when some file has it, the edges of one
    file keep their order within a package, a package has a node exactly when
    an edge mentions it, and no operation panics. *)
Theorem index_follows_files us : exists self, apply_updates new us = Ret self /\
  let fs := foldl files_after ∅ us in
  (forall k x y, related k self x y <-> exists uri e, e ∈ edges_of fs uri /\ from_package e = x /\ kind e = k /\ to_package e = y) /\
  (forall pkg uri, (filter (fun x => x.2 = uri) (owned self pkg)).*1 = filter (fun e => from_package e = pkg) (edges_of fs uri)) /\
  (forall pkg, is_Some (get_node self pkg) <-> mentioned fs pkg).
Proof.
  destruct (updates_represent us ∅ new represents_new) as (self & E & Hrep). exists self. split; [exact E|].
  split; [intros k x y; by apply represents_related|]. split; [|apply Hrep].
  intros pkg uri. rewrite (rep_owned _ _ Hrep). induction (filter _ (edges_of _ _)) as [|e es IH]; [done|]. rewrite !fmap_cons. by rewrite IH.
Qed.
(** The ancestors of a package in any index: everything collected is an
    ancestor, a cycle is reported exactly when the inheritance edges from the
    package lead into one, and without a cycle every ancestor is collected
    once.  The recursion ends on every graph. *)
Theorem ancestors_exact self x : exists a, ancestors self x = Ret a /\
  (forall y, y ∈ ancestors_of a -> tc (related Inherits self) x y) /\
  (ancestors_cycle a = true <-> reachable_cycle Inherits self x) /\
  (ancestors_cycle a = false -> NoDup (ancestors_of a) /\ forall y, tc (related Inherits self) x y -> y ∈ ancestors_of a).
Proof. apply ancestors_index. Qed.
Lemma roles_index self x : exists r, transitive_composed_roles self x = Ret r /\ NoDup (roles_of r) /\
  (forall y, y ∈ roles_of r <-> tc (related ComposesRole self) x y /\ y <> x) /\
  (roles_cycle r = true <-> reachable_cycle ComposesRole self x).
Proof.
  destruct (search_index ComposesRole self x) as (w & E & H1 & H2 & H3). unfold transitive_composed_roles, composed_roles.
  change (mkComposition {[x]} ∅ [] false) with (at_start x). rewrite E. simpl. eauto 10.
Qed.
(** The roles that a package composes, in any index: exactly those that the
    composition edges reach, the package itself apart, each once; a cycle is
    reported exactly when one is reachable, and loses nothing. *)
Theorem composed_roles_exact self x : exists r, transitive_composed_roles self x = Ret r /\ NoDup (roles_of r) /\
  (forall y, y ∈ roles_of r <-> tc (related ComposesRole self) x y /\ y <> x) /\
  (roles_cycle r = true <-> reachable_cycle ComposesRole self x).
Proof. apply roles_index. Qed.

Lemma retain_first_spec l : forall seen, NoDup (retain_first seen l) /\ forall x, x ∈ retain_first seen l <-> x ∈ l /\ x ∉ seen.
Proof.
  induction l as [|x l IH]; intros seen; simpl; [split; [constructor|]; intros y; split; [intros H; by apply elem_of_nil in H|intros [H _]; by apply elem_of_nil in H]|].
  case_bool_decide as Hx.
  - destruct (IH seen) as [H1 H2]. split; [done|]. intros y. rewrite H2, elem_of_cons. naive_solver.
  - destruct (IH ({[x]} ∪ seen)) as [H1 H2]. split.
    + apply NoDup_cons. split; [|done]. rewrite H2. set_solver.
    + intros y. rewrite elem_of_cons, H2, elem_of_cons, elem_of_union, elem_of_singleton. destruct (decide (y = x)); naive_solver.
Qed.
(** The package and the roles it reaches. *)
Definition provides (self : PackageGraphIndex) (a y : str) : Prop := rtc (related ComposesRole self) a y.
Lemma provides_roles self a : exists r, transitive_composed_roles self a = Ret r /\ forall y, y = a \/ y ∈ roles_of r <-> provides self a y.
Proof.
  destruct (roles_index self a) as (r & E & _ & H & _). exists r. split; [exact E|]. intros y. unfold provides. rewrite rtc_tc, H.
  destruct (decide (y = a)); naive_solver.
Qed.
Lemma with_roles_spec self anc : exists l, with_roles self anc = Ret l /\ forall y, y ∈ l <-> exists a, a ∈ anc /\ provides self a y.
Proof.
  induction anc as [|a anc (l & E & Hl)]; simpl; [exists []; split; [done|]; intros y; split; [intros H; by apply elem_of_nil in H|intros (a & Ha & _); by apply elem_of_nil in Ha]|].
  destruct (provides_roles self a) as (r & Er & Hr). rewrite Er. simpl. rewrite E. simpl. eexists. split; [done|].
  intros y. rewrite elem_of_cons, elem_of_app, Hl, (assoc or), Hr. setoid_rewrite elem_of_cons. naive_solver.
Qed.
(** C14. The packages in which a method is looked for start with the receiver
    and have no repetition; each is the receiver, one of its ancestors, or a
    role that one of these reaches; and all of those are searched unless the
    inheritance of the receiver is cyclic. *)
Theorem method_search_exact self x : exists l, packages_to_search self x = Ret l /\ NoDup l /\ head l = Some x /\
  (forall y, y ∈ l -> exists a, rtc (related Inherits self) x a /\ provides self a y) /\
  (~ reachable_cycle Inherits self x -> forall a y, rtc (related Inherits self) x a -> provides self a y -> y ∈ l).
Proof.
  unfold packages_to_search. destruct (provides_roles self x) as (r & Er & Hr). rewrite Er. simpl.
  destruct (ancestors_index self x) as (anc & Ea & Ha & Hc & Hall). rewrite Ea. simpl.
  destruct (with_roles_spec self (ancestors_of anc)) as (l & El & Hl). rewrite El. simpl. eexists. split; [done|].
  destruct (retain_first_spec (x :: roles_of r ++ l) ∅) as [Hnd Hin].
  assert (Hin' : forall y, y ∈ retain_first ∅ (x :: roles_of r ++ l) <-> provides self x y \/ exists a, a ∈ ancestors_of anc /\ provides self a y).
  { intros y. rewrite Hin, elem_of_cons, elem_of_app, Hl, (assoc or), Hr. set_solver. }
  split; [done|]. split; [done|]. split.
  - intros y [Hy|(a & Hy & Hp)]%Hin'; [by exists x|]. exists a. split; [by apply tc_rtc, Ha|done].
  - intros Hcy a y Hx Hp. apply Hin'. apply rtc_tc in Hx as [<-|Ht]; [by left|]. right. exists a. split; [|done].
    apply Hall; [|done]. destruct (ancestors_cycle anc); [|done]. by destruct Hcy; apply Hc.
Qed.

(** Rebuilding the metadata visits the files in the order of a hash map,
    and the order does not matter: while no two files share an id, the nodes
    are the same for every order. *)
Theorem rebuild_order_irrelevant self order : order ≡ₚ map_to_list (file_edges self) ->
  (forall u1 u2 id, file_edge_ids self !! u1 = Some id -> file_edge_ids self !! u2 = Some id -> u1 = u2) ->
  rebuild_node_metadata order self = rebuild_node_metadata (map_to_list (file_edges self)) self.
Proof.
  intros Hp Hids. unfold rebuild_node_metadata. f_equal. f_equal.
  apply merge_files_permutation; [done|rewrite Hp; apply NoDup_fst_map_to_list|]. intros f1 f2 id _ _. apply Hids.
Qed.

(** ** On a small workspace *)

Definition demo_edge (from to : Z) (k : PackageEdgeKind) : PackageEdge := mkEdge [from] [to] k None ExactAst High.
Definition demo_updates : list update :=
  [Replace [1] 11 [demo_edge 65 66 Inherits; demo_edge 65 67 Inherits]; Replace [2] 12 [demo_edge 65 82 ComposesRole; demo_edge 66 68 Inherits];
   Replace [3] 13 [demo_edge 90 91 DependsOn]].
Definition demo_index : PackageGraphIndex := match apply_updates new demo_updates with Ret self => self | Panic => new end.
Example demo_ancestors : ancestors demo_index [65] = Ret (mkAncestorResult [[66]; [68]; [67]] false).
Proof. vm_compute. reflexivity. Qed.
Theorem rebuild_order_irrelevant_witness :
  rebuild_node_metadata (reverse (map_to_list (file_edges demo_index))) demo_index =
  rebuild_node_metadata (map_to_list (file_edges demo_index)) demo_index.
Proof.
  apply rebuild_order_irrelevant; [apply reverse_Permutation|]. intros u1 u2 id H1 H2.
  assert (Hids : file_edge_ids demo_index = list_to_map [([1], 11); ([2], 12); ([3], 13)]) by (vm_compute; reflexivity).
  rewrite Hids in H1, H2. simpl in H1, H2. rewrite lookup_insert_Some in H1, H2. rewrite !lookup_insert_Some in H1, H2.
  rewrite lookup_empty in H1, H2. naive_solver.
Defined.
(** The kind of a package, though, depends on what was removed before: a class
    of two files is recorded as a plain package until some other file goes. *)
Example package_kind_depends_on_history :
  node_kind <$> get_node demo_index [65] = Some Package /\
  match remove_edges_for_file demo_index [3] with Ret self => node_kind <$> get_node self [65] = Some Class_ | Panic => False end.
Proof. split; vm_compute; reflexivity. Qed.
