(* ===== verification/LruLaws.v ===== *)
(** * Laws of the bounded cache

    The specification is a list of keyed entries, the least recently used
    first; every operation of the cache is one of its operations. *)

From stdpp Require Import base numbers list gmap sets.
From Stdlib Require Import QArith.
From S2P Require Import Prelude LruCache.
Open Scope Z_scope.

Section laws.
Context {K V : Type} `{Countable K}.
Notation Cache := (BoundedLruCache K V).
Notation row := (K * CacheEntry V)%type.

(** ** The specification *)

Definition total (l : list row) : Z := sum_Z ((fun x => size_bytes x.2) <$> l).
Definition without (key : K) (l : list row) : list row := filter (fun x => x.1 <> key) l.
Definition find (key : K) (l : list row) : option (CacheEntry V) := list_to_map (M := gmap K (CacheEntry V)) l !! key.
Definition fits (c : CacheConfig) (size : Z) (l : list row) : Prop := len l < max_items c /\ total l + size <= max_bytes c.
#[local] Instance fits_dec c size l : Decision (fits c size l).
Proof. apply _. Defined.
(** The longest suffix that leaves room. *)
Fixpoint make_room (c : CacheConfig) (size : Z) (l : list row) : list row :=
  match l with [] => [] | x :: l' => if decide (fits c size l) then l else make_room c size l' end.

Definition insert_row (c : CacheConfig) (now : Z) (key : K) (v : V) (size : Z) (l : list row) : bool * list row :=
  match find key l with
  | Some e => (true, without key l ++ [(key, mkEntry v now (inserted_at e) size)])
  | None =>
    let l := make_room c size l in
    if decide (fits c size l) then (true, l ++ [(key, new_entry now v size)]) else (false, l)
  end.
Definition expired (c : CacheConfig) (now : Z) (e : CacheEntry V) : bool :=
  match ttl c with Some t => is_expired e now t | None => false end.
Definition get_row (c : CacheConfig) (now : Z) (key : K) (l : list row) : option V * list row :=
  match find key l with
  | None => (None, l)
  | Some e => if expired c now e then (None, without key l) else (Some (value e), without key l ++ [(key, touch now e)])
  end.
Definition peek_row (c : CacheConfig) (now : Z) (key : K) (l : list row) : option V * list row :=
  match find key l with
  | None => (None, l)
  | Some e => if expired c now e then (None, without key l) else (Some (value e), l)
  end.
Definition remove_row (key : K) (l : list row) : option V * list row := (value <$> find key l, without key l).

(** ** Lists of rows *)

Lemma map_without key l : list_to_map (M := gmap K (CacheEntry V)) (without key l) = delete key (list_to_map l).
Proof using Type.
  induction l as [|[k e] l IH]; [simpl; by rewrite delete_empty|]. unfold without in *. rewrite filter_cons. simpl. destruct (decide (k <> key)) as [Hne|Heq].
  - simpl. by rewrite IH, delete_insert_ne.
  - apply dec_stable in Heq as ->. by rewrite IH, delete_insert_eq.
Qed.
Lemma elem_without key x l : x ∈ without key l <-> x ∈ l /\ x.1 <> key.
Proof using Type. unfold without. rewrite list_elem_of_filter. tauto. Qed.
Lemma keys_without key l : (without key l).*1 = filter (fun k => k <> key) l.*1.
Proof using Type.
  induction l as [|[k e] l IH]; [done|]. unfold without in *. rewrite fmap_cons, !filter_cons. cbn [fst].
  destruct (decide (k <> key)); [rewrite fmap_cons; f_equal|]; exact IH.
Qed.
Lemma nodup_without key l : NoDup l.*1 -> NoDup (without key l).*1 /\ key ∉ (without key l).*1.
Proof using Type. intros Hn. rewrite keys_without. split; [by apply NoDup_filter|]. by intros [? _]%list_elem_of_filter. Qed.
Lemma remove_key_keys key (ks : list K) : NoDup ks -> remove_key key ks = filter (fun k => k <> key) ks.
Proof using Type.
  induction 1 as [|k ks Hk Hn IH]; [done|]. simpl. rewrite filter_cons. destruct (decide (k = key)) as [->|Hne].
  - rewrite decide_False by (intros ?; done). clear IH Hn. induction ks as [|k ks IH]; [done|]. apply not_elem_of_cons in Hk as [H1 H2].
    rewrite filter_cons, decide_True by congruence. by rewrite <-IH.
  - by rewrite decide_True, IH.
Qed.
Lemma find_row key e l : NoDup l.*1 -> find key l = Some e <-> (key, e) ∈ l.
Proof using Type. intros Hn. unfold find. by rewrite elem_of_list_to_map. Qed.
Lemma find_None key l : find key l = None <-> key ∉ l.*1.
Proof using Type. unfold find. symmetry. apply not_elem_of_list_to_map. Qed.
Lemma map_snoc key e l : key ∉ l.*1 -> list_to_map (M := gmap K (CacheEntry V)) (l ++ [(key, e)]) = <[key := e]> (list_to_map l).
Proof using Type.
  induction l as [|[k f] l IH]; intros Hk; [done|]. apply not_elem_of_cons in Hk as [Hne Hk]. simpl in *. rewrite IH by done.
  by rewrite insert_insert_ne.
Qed.
Lemma items_rows l : NoDup l.*1 -> items (list_to_map (M := gmap K (CacheEntry V)) l) = len l.
Proof using Type.
  unfold items, len. intros Hn. f_equal. induction l as [|[k e] l IH]; [done|]. apply NoDup_cons in Hn as [Hk Hn]. simpl in *.
  rewrite map_size_insert_None by (by apply not_elem_of_list_to_map). by rewrite IH.
Qed.
Lemma total_app l1 l2 : total (l1 ++ l2) = total l1 + total l2.
Proof using Type. unfold total. by rewrite fmap_app, sum_Z_app. Qed.
Lemma total_one key e : total [(key, e)] = size_bytes e.
Proof using Type. unfold total. simpl. lia. Qed.
Lemma without_fresh key l : key ∉ l.*1 -> without key l = l.
Proof using Type.
  induction l as [|[k e] l IH]; [done|]. intros [Hne Hk]%not_elem_of_cons. unfold without in *. simpl in *. rewrite filter_cons, decide_True by (simpl; congruence). by rewrite IH.
Qed.
Lemma total_without key e l : NoDup l.*1 -> find key l = Some e -> total (without key l) = total l - size_bytes e.
Proof using Type.
  intros Hn Hf%find_row; [|done]. induction l as [|[k f] l IH]; [by apply elem_of_nil in Hf|]. apply NoDup_cons in Hn as [Hk Hn]. simpl in *.
  unfold without in *. rewrite filter_cons. simpl. apply elem_of_cons in Hf as [[= -> ->]|Hf].
  - rewrite decide_False by (intros ?; done). change (total (without k l) = size_bytes f + total l - size_bytes f). rewrite without_fresh by done. lia.
  - rewrite decide_True.
    + change (size_bytes f + total (filter (fun x => x.1 <> key) l) = size_bytes f + total l - size_bytes e). rewrite IH by done. lia.
    + simpl. intros ->. apply Hk, list_elem_of_fmap. by exists (key, e).
Qed.

(** ** The cache against its rows *)

Record holds (c : Cache) (l : list row) : Prop := mkHolds {
  holds_entries : entries c = list_to_map l;
  holds_order : access_order c = l.*1;
  holds_distinct : NoDup l.*1;
  holds_bytes : current_bytes (stats c) = total l;
  holds_sizes : Forall (fun x => 0 <= size_bytes x.2) l;
}.
Lemma total_nonneg l : Forall (fun x => 0 <= size_bytes x.2) l -> 0 <= total l.
Proof using Type. unfold total. induction 1 as [|x l Hx _ IH]; [done|]. rewrite fmap_cons. cbn [sum_Z]. lia. Qed.
Lemma over_capacity_spec c size l : 0 <= total l -> 0 <= size -> total l + size <= usize_max ->
  over_capacity c (len l) (total l) size = Ret (negb (bool_decide (fits c size l))).
Proof using Type.
  intros Ht Hs Hu. unfold over_capacity, fits. destruct (Z.leb_spec (max_items c) (len l)).
  - by rewrite bool_decide_false by (intros [? ?]; lia).
  - unfold usize_add. rewrite arith_Ret by lia. simpl. unfold mret, outcome_ret. f_equal. destruct (Z.ltb_spec (max_bytes c) (total l + size)).
    + by rewrite bool_decide_false by (intros [? ?]; lia).
    + by rewrite bool_decide_true by (split; lia).
Qed.
Definition with_evictions (s : CacheStats) (n bytes : Z) : CacheStats :=
  mkStats (hits s) (misses s) (evictions s + n) (current_items s) bytes (hit_rate s).
Lemma make_room_suffix c size l : exists gone, l = gone ++ make_room c size l.
Proof using Type.
  induction l as [|x l [gone IH]]; [by exists []|]. simpl. destruct (decide _); [by exists []|]. exists (x :: gone). simpl. by rewrite <-IH.
Qed.
Lemma lru_evict_spec c size l : forall s, NoDup l.*1 -> Forall (fun x => 0 <= size_bytes x.2) l -> current_bytes s = total l -> 0 <= size ->
  total l + size <= usize_max -> 0 <= evictions s -> evictions s + len l <= usize_max ->
  evict c size l.*1 (list_to_map l) s =
    Ret ((make_room c size l).*1, list_to_map (make_room c size l), with_evictions s (len l - len (make_room c size l)) (total (make_room c size l))).
Proof using Type.
  induction l as [|[k e] l IH]; intros s Hn Hsz Hb Hs Hu He Hel.
  { simpl. rewrite bool_decide_true by done. unfold with_evictions. rewrite <-Hb, Z.add_0_r. by destruct s. }
  pose proof (total_nonneg _ Hsz) as Ht. pose proof Hn as Hn0. apply NoDup_cons in Hn as [Hk Hn]. apply Forall_cons in Hsz as [Hse Hsz]. pose proof (total_nonneg _ Hsz) as Ht'.
  assert (Htc : total ((k, e) :: l) = size_bytes e + total l) by done. simpl in Hse, Hk.
  cbn [evict fmap list_fmap fst]. rewrite bool_decide_false by apply insert_non_empty.
  change (k :: list_fmap _ _ fst l) with ((k, e) :: l).*1. rewrite items_rows by done. rewrite Hb, over_capacity_spec by done. cbn [mbind outcome_bind].
  change (list_to_map ((k, e) :: l)) with (<[k := e]> (list_to_map l : gmap K (CacheEntry V))). cbn [make_room]. destruct (decide (fits c size ((k, e) :: l))) as [Hf|Hf].
  - rewrite bool_decide_true by done. cbn [negb]. unfold with_evictions. rewrite Z.sub_diag, Z.add_0_r, <-Hb. by destruct s.
  - rewrite bool_decide_false by done. cbn [negb]. change (((k, e) :: l).*1) with (k :: l.*1). cbn match. rewrite lookup_insert_eq.
    unfold usize_sub, usize_add. rewrite !arith_Ret by (rewrite len_cons in Hel; pose proof (len_nonneg l); lia). cbn [mbind outcome_bind].
    rewrite delete_insert_id by (by apply not_elem_of_list_to_map).
    replace (total ((k, e) :: l) - size_bytes e) with (total l) by lia.
    rewrite IH; cbn [current_bytes evictions]; try done; try (rewrite len_cons in Hel; lia).
    do 2 f_equal. unfold with_evictions. cbn. rewrite len_cons. f_equal. lia.
Qed.

(** ** Operations *)

Lemma holds_find c l key : holds c l -> entries c !! key = find key l.
Proof using Type. intros Hh. by rewrite (holds_entries _ _ Hh). Qed.
Lemma rows_sizes_without key l : Forall (fun x => 0 <= size_bytes x.2) l -> Forall (fun x => 0 <= size_bytes x.2) (without key l).
Proof using Type. intros Hl. rewrite Forall_forall in Hl |- *. intros x [Hx _]%elem_without. by apply Hl. Qed.
Lemma find_size key e l : NoDup l.*1 -> Forall (fun x => 0 <= size_bytes x.2) l -> find key l = Some e -> 0 <= size_bytes e <= total l.
Proof using Type.
  intros Hn Hs Hf. pose proof (total_without _ _ _ Hn Hf). pose proof (total_nonneg _ (rows_sizes_without key _ Hs)).
  apply find_row in Hf; [|done]. rewrite Forall_forall in Hs. specialize (Hs _ Hf). simpl in Hs. lia.
Qed.
Lemma rows_moved key e l : NoDup l.*1 -> 0 <= size_bytes e -> Forall (fun x => 0 <= size_bytes x.2) l ->
  NoDup (without key l ++ [(key, e)]).*1 /\ Forall (fun x => 0 <= size_bytes x.2) (without key l ++ [(key, e)]).
Proof using Type.
  intros Hn He Hs. destruct (nodup_without key l Hn) as [H1 H2]. split.
  - rewrite fmap_app. apply NoDup_app. split; [done|]. split; [|by apply NoDup_singleton]. intros k Hk ->%list_elem_of_singleton. done.
  - apply Forall_app. split; [by apply rows_sizes_without|]. by repeat constructor.
Qed.
Lemma map_moved key e l : NoDup l.*1 -> list_to_map (M := gmap K (CacheEntry V)) (without key l ++ [(key, e)]) = <[key := e]> (list_to_map l).
Proof using Type. intros Hn. rewrite map_snoc by (by apply nodup_without). by rewrite map_without, insert_delete_eq. Qed.
Lemma order_moved key e l : NoDup l.*1 -> (without key l ++ [(key, e)]).*1 = remove_key key l.*1 ++ [key].
Proof using Type. intros Hn. by rewrite fmap_app, keys_without, remove_key_keys. Qed.

Definition counters (c : Cache) : CacheConfig * Z * Z * Z := (config c, hits (stats c), misses (stats c), evictions (stats c)).
Lemma drop_row c l key e : holds c l -> total l <= usize_max -> find key l = Some e ->
  exists c', drop_entry key e c = Ret c' /\ holds c' (without key l) /\ counters c' = counters c.
Proof using Type.
  intros Hh Hu Hf. destruct Hh as [He Ho Hn Hb Hs]. pose proof (find_size _ _ _ Hn Hs Hf). pose proof (total_without _ _ _ Hn Hf).
  unfold drop_entry. rewrite Hb. unfold usize_sub. rewrite arith_Ret by lia. eexists. split; [done|]. split; [|done].
  split; simpl; [by rewrite He, map_without|by rewrite Ho, keys_without, remove_key_keys| |lia|by apply rows_sizes_without]. by apply nodup_without.
Qed.
Lemma expired_entry_spec c l now key : holds c l ->
  expired_entry now key c = match find key l with Some e => if expired (config c) now e then Some e else None | None => None end.
Proof using Type.
  intros Hh. unfold expired_entry, expired. rewrite (holds_find _ _ key Hh). by destruct (ttl _), (find key l).
Qed.

Lemma remove_spec c l key : holds c l -> total l <= usize_max ->
  exists c', remove key c = Ret ((remove_row key l).1, c') /\ holds c' (remove_row key l).2 /\ counters c' = counters c.
Proof using Type.
  intros Hh Hu. unfold remove, remove_row. rewrite (holds_find _ _ key Hh). destruct (find key l) as [e|] eqn:Hf; simpl.
  - destruct (drop_row c l key e Hh Hu Hf) as (c' & -> & H1 & H2). by exists c'.
  - exists c. rewrite without_fresh by (by apply find_None). done.
Qed.
Lemma peek_spec c l now key : holds c l -> total l <= usize_max ->
  exists c', peek now key c = Ret ((peek_row (config c) now key l).1, c') /\ holds c' (peek_row (config c) now key l).2 /\ counters c' = counters c.
Proof using Type.
  intros Hh Hu. unfold peek, peek_row. rewrite (expired_entry_spec _ _ _ _ Hh), (holds_find _ _ key Hh). destruct (find key l) as [e|] eqn:Hf; simpl; [|by exists c].
  destruct (expired _ _ e); simpl; [|by exists c]. destruct (drop_row c l key e Hh Hu Hf) as (c' & -> & H1 & H2). by exists c'.
Qed.
Lemma count_spec b s : 0 <= hits s -> 0 <= misses s -> hits s + misses s < usize_max ->
  exists s', count b s = Ret s' /\ hits s' = hits s + Z.b2z b /\ misses s' = misses s + Z.b2z (negb b) /\ evictions s' = evictions s /\ current_bytes s' = current_bytes s.
Proof using Type.
  intros H1 H2 H3. unfold count, calculate_hit_rate, usize_add. destruct b; rewrite !arith_Ret by lia; cbn [mbind outcome_bind mret outcome_ret];
  rewrite arith_Ret by lia; eexists; (split; [reflexivity|]); simpl; lia.
Qed.
Definition is_hit (a : option V) : bool := match a with Some _ => true | None => false end.
Lemma get_spec c l now key : holds c l -> total l <= usize_max -> 0 <= hits (stats c) -> 0 <= misses (stats c) -> hits (stats c) + misses (stats c) < usize_max ->
  let a := get_row (config c) now key l in
  exists c', get now key c = Ret (a.1, c') /\ holds c' a.2 /\
    counters c' = (config c, hits (stats c) + Z.b2z (is_hit a.1), misses (stats c) + Z.b2z (negb (is_hit a.1)), evictions (stats c)).
Proof using Type.
  intros Hh Hu H1 H2 H3 a. subst a. unfold get, get_row. rewrite (expired_entry_spec _ _ _ _ Hh), (holds_find _ _ key Hh).
  destruct (find key l) as [e|] eqn:Hf; simpl.
  - destruct (expired _ _ e); simpl.
    + destruct (drop_row c l key e Hh Hu Hf) as (c' & -> & Hh' & [= E1 E2 E3 E4]). simpl.
      destruct (count_spec false (stats c')) as (s & -> & S1 & S2 & S3 & S4); [lia..|]. simpl. eexists. split; [done|]. split.
      * destruct Hh'. split; simpl; congruence.
      * unfold counters. simpl. rewrite E1, S1, S2, S3, E2, E3, E4. done.
    + destruct (count_spec true (stats c)) as (s & -> & S1 & S2 & S3 & S4); [lia..|]. simpl. eexists. split; [done|]. destruct Hh as [He Ho Hn Hb Hs].
      pose proof (find_size _ _ _ Hn Hs Hf) as He'. destruct (rows_moved key (touch now e) l Hn) as [Hn' Hs']; [simpl; lia|done|]. split.
      * split; simpl; [by rewrite He, map_moved| |done| |done].
        -- rewrite Ho, bool_decide_true; [by rewrite order_moved|]. apply find_row in Hf; [|done]. apply list_elem_of_fmap. by exists (key, e).
        -- rewrite S4, Hb, total_app, (total_without _ _ _ Hn Hf), total_one. simpl. lia.
      * unfold counters. simpl. by rewrite S1, S2, S3.
  - destruct (count_spec false (stats c)) as (s & -> & S1 & S2 & S3 & S4); [lia..|]. simpl. eexists. split; [done|]. split.
    + destruct Hh. split; simpl; congruence.
    + unfold counters. simpl. by rewrite S1, S2, S3.
Qed.
Lemma make_room_spec c size l : NoDup l.*1 -> Forall (fun x => 0 <= size_bytes x.2) l ->
  let kept := make_room c size l in
  NoDup kept.*1 /\ Forall (fun x => 0 <= size_bytes x.2) kept /\ total kept <= total l /\ len kept <= len l /\ (forall k, k ∈ kept.*1 -> k ∈ l.*1).
Proof using Type.
  intros Hn Hs kept. subst kept. destruct (make_room_suffix c size l) as [gone E]. set (kept := make_room c size l) in *. clearbody kept. subst l.
  rewrite fmap_app in Hn. apply NoDup_app in Hn as (_ & _ & Hn). apply Forall_app in Hs as [Hg Hs]. rewrite total_app, len_app.
  pose proof (total_nonneg _ Hg). pose proof (len_nonneg gone). repeat split; try done; try lia. intros k Hk. rewrite fmap_app. apply elem_of_app. by right.
Qed.
(** Nothing longer than what is kept leaves room. *)
Lemma make_room_longest c size l : make_room c size l = [] \/ fits c size (make_room c size l).
Proof using Type. induction l as [|x l IH]; [by left|]. simpl. destruct (decide _); [by right|done]. Qed.
Lemma insert_spec c l now key v size : holds c l -> 0 <= size -> total l + size <= usize_max -> 0 <= evictions (stats c) -> evictions (stats c) + len l <= usize_max ->
  let a := insert_row (config c) now key v size l in
  exists c', insert_with_size now key v size c = Ret (a.1, c') /\ holds c' a.2 /\ config c' = config c /\ hits (stats c') = hits (stats c) /\
    misses (stats c') = misses (stats c) /\ evictions (stats c') + len a.2 <= evictions (stats c) + len l + 1 /\ evictions (stats c) <= evictions (stats c').
Proof using Type.
  intros Hh Hsz Hu He1 He2 a. subst a. unfold insert_with_size, insert_row. rewrite (holds_find _ _ key Hh). destruct Hh as [He Ho Hn Hb Hs]. destruct (find key l) as [e|] eqn:Hf.
  - pose proof (find_size _ _ _ Hn Hs Hf) as Hse. pose proof (total_without _ _ _ Hn Hf) as Ht. rewrite Hb. unfold usize_sub, usize_add.
    rewrite !arith_Ret by lia. cbn [mbind outcome_bind fst snd]. rewrite arith_Ret by lia. eexists. split; [reflexivity|].
    set (e' := mkEntry v now (inserted_at e) size). destruct (rows_moved key e' l Hn) as [Hn' Hs']; [done..|]. split; [|simpl].
    + split; simpl; [by rewrite He, map_moved|by rewrite order_moved, Ho|done| |done]. rewrite total_app, Ht, total_one. simpl. lia.
    + repeat split; [|lia]. rewrite len_app. assert (len (without key l) <= len l) by (unfold len, without; pose proof (length_filter (fun x => x.1 <> key) l); lia).
      change (len [(key, e')]) with 1. lia.
  - rewrite He, Ho, lru_evict_spec by done. cbn [mbind outcome_bind fst snd]. set (kept := make_room (config c) size l).
    destruct (make_room_spec (config c) size l Hn Hs) as (Kn & Ks & Kt & Kl & Kk). fold kept in Kn, Ks, Kt, Kl, Kk. pose proof (total_nonneg _ Ks).
    cbn [with_evictions current_bytes]. rewrite items_rows, over_capacity_spec by (done || lia). cbn [mbind outcome_bind].
    destruct (decide (fits (config c) size kept)) as [Hfit|Hfit].
    + rewrite bool_decide_true by done. cbn [negb]. unfold usize_add. rewrite arith_Ret by lia. cbn [mbind outcome_bind fst snd]. eexists. split; [reflexivity|].
      assert (Hk : key ∉ kept.*1) by (intros ?; apply find_None in Hf; by apply Hf, Kk). split; [|simpl].
      * split; simpl; [by rewrite map_snoc|by rewrite fmap_app| | |].
        -- rewrite fmap_app. apply NoDup_app. split; [done|]. split; [|by apply NoDup_singleton]. intros k ? ->%list_elem_of_singleton. done.
        -- rewrite total_app, total_one. simpl. lia.
        -- apply Forall_app. split; [done|]. by repeat constructor.
      * rewrite len_app. change (len [_]) with 1. repeat split; lia.
    + rewrite bool_decide_false by done. cbn [negb fst snd]. eexists. split; [reflexivity|]. split; [by split|simpl; repeat split; lia].
Qed.
Lemma clear_spec c l : holds c l -> holds (clear c) [] /\ counters (clear c) = counters c.
Proof using Type. intros _. split; [|done]. split; try done; constructor. Qed.

(** ** Sequences of operations *)

Inductive op := Insert (now : Z) (key : K) (v : V) (size : Z) | Get (now : Z) (key : K) | Peek (now : Z) (key : K) | Remove (key : K) | Clear.
Inductive answer := Stored (b : bool) | Found (v : option V) | Done.
Definition op_size (o : op) : Z := match o with Insert _ _ _ size => size | _ => 0 end.
Definition run_op (o : op) (c : Cache) : outcome (answer * Cache) :=
  match o with
  | Insert now key v size => '(b, c) ← insert_with_size now key v size c; mret (Stored b, c)
  | Get now key => '(v, c) ← get now key c; mret (Found v, c)
  | Peek now key => '(v, c) ← peek now key c; mret (Found v, c)
  | Remove key => '(v, c) ← remove key c; mret (Found v, c)
  | Clear => mret (Done, clear c)
  end.
Fixpoint run (os : list op) (c : Cache) : outcome (list answer * Cache) :=
  match os with [] => mret ([], c) | o :: os => '(a, c) ← run_op o c; '(rest, c) ← run os c; mret (a :: rest, c) end.
Definition op_rows (cf : CacheConfig) (o : op) (l : list row) : answer * list row :=
  match o with
  | Insert now key v size => let a := insert_row cf now key v size l in (Stored a.1, a.2)
  | Get now key => let a := get_row cf now key l in (Found a.1, a.2)
  | Peek now key => let a := peek_row cf now key l in (Found a.1, a.2)
  | Remove key => let a := remove_row key l in (Found a.1, a.2)
  | Clear => (Done, [])
  end.
Fixpoint run_rows (cf : CacheConfig) (os : list op) (l : list row) : list answer * list row :=
  match os with [] => ([], l) | o :: os => let a := op_rows cf o l in let rest := run_rows cf os a.2 in (a.1 :: rest.1, rest.2) end.
(** The lookups that found a value, and the ones that did not. *)
Definition hit_of (o : op) (a : answer) : Z := match o, a with Get _ _, Found (Some _) => 1 | _, _ => 0 end.
Definition miss_of (o : op) (a : answer) : Z := match o, a with Get _ _, Found None => 1 | _, _ => 0 end.

Lemma total_without_le key l : Forall (fun x => 0 <= size_bytes x.2) l -> total (without key l) <= total l.
Proof using Type.
  induction 1 as [|x l Hx _ IH]; [done|]. unfold without in *. rewrite filter_cons. change (total (x :: l)) with (size_bytes x.2 + total l).
  destruct (decide _); [change (total (x :: ?k)) with (size_bytes x.2 + total k)|]; lia.
Qed.
Lemma len_without_le key l : len (without key l) <= len l.
Proof using Type. unfold len, without. pose proof (length_filter (fun x : row => x.1 <> key) l). lia. Qed.

(** Room for the counters and the byte sum of [n] more operations that bring [bytes] more. *)
Record affords (c : Cache) (l : list row) (n bytes : Z) : Prop := mkAffords {
  affords_hits : 0 <= hits (stats c);
  affords_misses : 0 <= misses (stats c);
  affords_lookups : hits (stats c) + misses (stats c) + n <= usize_max;
  affords_evictions : 0 <= evictions (stats c);
  affords_evicted : evictions (stats c) + len l + n <= usize_max;
  affords_bytes : total l + bytes <= usize_max;
}.
Lemma affords_kept c l n bytes c' l' : affords c l (1 + n) bytes -> counters c' = counters c -> len l' <= len l -> total l' <= total l -> affords c' l' n bytes.
Proof using Type. intros [] [= E1 E2 E3 E4] H1 H2. split; rewrite ?E2, ?E3, ?E4; lia. Qed.
Lemma expiry_shrinks (b : bool) key l : Forall (fun x => 0 <= size_bytes x.2) l ->
  len (if b then without key l else l) <= len l /\ total (if b then without key l else l) <= total l.
Proof using Type. intros Hs. destruct b; [|lia]. split; [apply len_without_le|by apply total_without_le]. Qed.
Lemma peek_row_rows cf now key l : exists b : bool, (peek_row cf now key l).2 = if b then without key l else l.
Proof using Type. unfold peek_row. destruct (find key l); [destruct (expired _ _ _)|]; by (exists true + exists false). Qed.
Lemma len_moved key e l : NoDup l.*1 -> find key l = Some e -> len (without key l) < len l.
Proof using Type.
  intros Hn Hf%find_row; [|done]. enough ((length (filter (fun x : row => x.1 <> key) l) < length l)%nat) by (unfold len, without; lia).
  apply (length_filter_lt _ l (key, e)); [done|]. intros Hne. by apply Hne.
Qed.
Lemma get_row_shrinks cf now key l : NoDup l.*1 -> Forall (fun x => 0 <= size_bytes x.2) l ->
  len (get_row cf now key l).2 <= len l /\ total (get_row cf now key l).2 <= total l.
Proof using Type.
  intros Hn Hs. unfold get_row. destruct (find key l) as [e|] eqn:Hf; [|simpl; lia]. destruct (expired _ _ _); cbn [snd].
  - split; [apply len_without_le|by apply total_without_le].
  - rewrite total_app, total_one, len_app, (total_without _ _ _ Hn Hf). cbn [size_bytes touch]. split; [|lia]. change (len [_]) with 1.
    pose proof (len_moved _ _ _ Hn Hf). lia.
Qed.

Lemma op_rows_items cf o l : 0 <= max_items cf -> NoDup l.*1 -> len l <= max_items cf -> len (op_rows cf o l).2 <= max_items cf.
Proof using Type.
  intros Hm Hn Hl. destruct o as [now key v size|now key|now key|key|]; cbn [op_rows snd].
  - unfold insert_row. destruct (find key l) as [e|] eqn:Hf; cbn [snd].
    + rewrite len_app. change (len [_]) with 1. pose proof (len_moved _ _ _ Hn Hf). lia.
    + destruct (decide _) as [[Hi _]|_]; cbn [snd]; [rewrite len_app; change (len [_]) with 1; lia|].
      destruct (make_room_suffix cf size l) as [g E]. apply (f_equal len) in E. rewrite len_app in E. pose proof (len_nonneg g). lia.
  - unfold get_row. destruct (find key l) as [e|] eqn:Hf; [|done]. destruct (expired _ _ _); cbn [snd]; [pose proof (len_without_le key l); lia|].
    rewrite len_app. change (len [_]) with 1. pose proof (len_moved _ _ _ Hn Hf). lia.
  - destruct (peek_row_rows cf now key l) as [b ->]. pose proof (len_without_le key l). destruct b; lia.
  - pose proof (len_without_le key l). simpl. lia.
  - done.
Qed.
Lemma run_op_spec o c l n bytes : holds c l -> 0 <= op_size o -> 0 <= bytes -> 0 <= n -> affords c l (1 + n) (op_size o + bytes) ->
  let a := op_rows (config c) o l in
  exists c', run_op o c = Ret (a.1, c') /\ holds c' a.2 /\ affords c' a.2 n bytes /\ config c' = config c /\
    hits (stats c') = hits (stats c) + hit_of o a.1 /\ misses (stats c') = misses (stats c) + miss_of o a.1.
Proof using Type.
  intros Hh Ho Hb Hn0 Ha a. subst a. pose proof (holds_distinct _ _ Hh) as Hn. pose proof (holds_sizes _ _ Hh) as Hs. pose proof (total_nonneg _ Hs).
  pose proof Ha as [A1 A2 A3 A4 A5 A6]. destruct o as [now key v size|now key|now key|key|]; cbn [op_size run_op op_rows hit_of miss_of fst snd] in *.
  - destruct (insert_spec c l now key v size) as (c' & -> & Hh' & E1 & E2 & E3 & E4 & E5); [done|lia..|]. cbn [mbind outcome_bind]. exists c'.
    split; [done|]. split; [done|]. split; [|by rewrite !Z.add_0_r]. split; rewrite ?E2, ?E3; try lia.
    unfold insert_row. destruct (find key l) as [e|] eqn:Hf; cbn [snd].
    + rewrite total_app, total_one, (total_without _ _ _ Hn Hf). cbn [size_bytes]. pose proof (find_size _ _ _ Hn Hs Hf). lia.
    + destruct (make_room_spec (config c) size l Hn Hs) as (_ & _ & Kt & _). destruct (decide _); cbn [snd]; [rewrite total_app, total_one; cbn [new_entry size_bytes]|]; lia.
  - destruct (get_spec c l now key) as (c' & -> & Hh' & E); [done|lia..|]. cbn [mbind outcome_bind]. injection E as E1 E2 E3 E4. exists c'.
    destruct (get_row_shrinks (config c) now key l Hn Hs). split; [done|]. split; [done|]. rewrite E2, E3.
    assert (Hhm : hit_of (Get now key) (Found (get_row (config c) now key l).1) = Z.b2z (is_hit (get_row (config c) now key l).1) /\
      miss_of (Get now key) (Found (get_row (config c) now key l).1) = Z.b2z (negb (is_hit (get_row (config c) now key l).1))) by (by destruct (get_row _ _ _ _).1).
    destruct Hhm as [Eh Em]. simpl in Eh, Em. rewrite Eh, Em. split; [|done]. split; rewrite ?E2, ?E3; try lia; destruct (is_hit _); simpl; lia.
  - destruct (peek_spec c l now key) as (c' & -> & Hh' & E); [done|lia..|]. cbn [mbind outcome_bind]. exists c'. split; [done|]. split; [done|].
    destruct (peek_row_rows (config c) now key l) as [b Eb]. destruct (expiry_shrinks b key l Hs). rewrite Z.add_0_l in Ha.
    split; [eapply affords_kept; rewrite ?Eb; eauto|]. injection E as E1 E2 E3 E4. rewrite !Z.add_0_r. auto.
  - destruct (remove_spec c l key) as (c' & -> & Hh' & E); [done|lia..|]. cbn [mbind outcome_bind]. exists c'. split; [done|]. split; [done|]. rewrite Z.add_0_l in Ha.
    split; [apply (affords_kept c l); [done|done|by apply len_without_le|by apply total_without_le]|]. injection E as E1 E2 E3 E4. rewrite !Z.add_0_r. auto.
  - exists (clear c). destruct (clear_spec c l Hh). split; [done|]. split; [done|]. rewrite Z.add_0_l in Ha. split; [|simpl; rewrite !Z.add_0_r; auto].
    eapply affords_kept; eauto. apply len_nonneg.
Qed.
Lemma sum_sizes_nonneg os : Forall (fun o => 0 <= op_size o) os -> 0 <= sum_Z (op_size <$> os).
Proof using Type. induction 1; [done|]. rewrite fmap_cons. cbn [sum_Z]. lia. Qed.
Lemma run_spec os n bytes : 0 <= n -> 0 <= bytes -> Forall (fun o => 0 <= op_size o) os ->
  forall c l, holds c l -> affords c l (len os + n) (sum_Z (op_size <$> os) + bytes) ->
  let a := run_rows (config c) os l in
  exists c', run os c = Ret (a.1, c') /\ holds c' a.2 /\ affords c' a.2 n bytes /\ config c' = config c /\
    (0 <= max_items (config c) -> len l <= max_items (config c) -> len a.2 <= max_items (config c)) /\
    hits (stats c') = hits (stats c) + sum_Z (zip_with hit_of os a.1) /\ misses (stats c') = misses (stats c) + sum_Z (zip_with miss_of os a.1).
Proof using Type.
  intros Hn Hbs. induction 1 as [|o os Ho Hos IH]; intros c l Hh Ha a; subst a; cbn [run run_rows fst snd].
  - exists c. simpl. rewrite !Z.add_0_r. auto 8.
  - rewrite len_cons, fmap_cons in Ha. cbn [sum_Z] in Ha. rewrite <-!Z.add_assoc in Ha. pose proof (sum_sizes_nonneg _ Hos). pose proof (len_nonneg os).
    destruct (run_op_spec o c l (len os + n) (sum_Z (op_size <$> os) + bytes) Hh Ho) as (c1 & -> & G1 & A1 & E1 & E2 & E3); [lia|lia|done|]. cbn [mbind outcome_bind].
    pose proof (fun Hm => op_rows_items (config c) o l Hm (holds_distinct _ _ Hh)) as Hi.
    destruct (IH c1 _ G1 A1) as (c2 & -> & G2 & A2 & F1 & Fi & F2 & F3). rewrite E1 in *. exists c2. cbn [mbind outcome_bind].
    rewrite F2, F3, E2, E3. cbn [zip_with sum_Z]. rewrite F1. split; [done|]. split; [done|]. split; [done|]. split; [done|]. split; [auto|lia].
Qed.
Lemma holds_new cf : holds (new cf) [].
Proof using Type. split; try done; constructor. Qed.
Lemma affords_new cf n bytes : n <= usize_max -> bytes <= usize_max -> affords (new cf) [] n bytes.
Proof using Type. intros H1 H2. split; simpl; try done; unfold total, len; simpl; lia. Qed.

(** C15. The cache is a list of entries in order of access: over any sequence of
    insertions, lookups, peeks, removals and clears whose sizes and lengths
    fit a machine word, it never overflows, answers as the list does (an
    insertion of a known key moves it to the recent end, of a new key drops
    from the oldest end until there is room, a lookup moves it, an expired
    entry is dropped by the operation that meets it), ends holding that list,
    and has counted the lookups that answered and the ones that did not. *)
Theorem cache_refines_access_list (cf : CacheConfig) (os : list op) :
  Forall (fun o => 0 <= op_size o) os -> sum_Z (op_size <$> os) <= usize_max -> len os <= usize_max ->
  exists answers rows c, run_rows cf os [] = (answers, rows) /\ run os (new cf) = Ret (answers, c) /\
    entries c = list_to_map rows /\ access_order c = rows.*1 /\ NoDup rows.*1 /\ current_bytes (stats c) = total rows /\
    hits (stats c) = sum_Z (zip_with hit_of os answers) /\ misses (stats c) = sum_Z (zip_with miss_of os answers).
Proof using Type.
  intros Hos Hb Hn. destruct (run_spec os 0 0 ltac:(done) ltac:(done) Hos (new cf) [] (holds_new cf)) as (c & Hr & [] & _ & _ & _ & Hh & Hm); [apply affords_new; lia|].
  exists (run_rows cf os []).1, (run_rows cf os []).2, c. rewrite <-surjective_pairing. auto 10.
Qed.

(** ** Bounds *)

Definition bytes_of (m : gmap K (CacheEntry V)) (ks : list K) : Z := sum_Z ((fun k => from_option size_bytes 0 (m !! k)) <$> ks).
Lemma bytes_of_rows l1 l2 : NoDup (l1 ++ l2).*1 -> bytes_of (list_to_map (l1 ++ l2)) l2.*1 = total l2.
Proof using Type.
  intros Hn. unfold bytes_of, total. rewrite <-list_fmap_compose. f_equal. apply list_fmap_ext. intros i [k e] Hi. simpl.
  erewrite (proj1 (elem_of_list_to_map _ k e Hn)); [done|]. apply elem_of_app. right. by eapply list_elem_of_lookup_2.
Qed.
Lemma make_room_minimal c size l g x : l = g ++ x ++ make_room c size l -> x <> [] -> ~ fits c size (x ++ make_room c size l).
Proof using Type.
  revert g. induction l as [|y l IH]; intros g E Hx Hf; [by destruct g, x|]. simpl in *. destruct (decide (fits c size (y :: l))) as [Hd|Hd].
  - apply (f_equal length) in E. rewrite !length_app in E. destruct x; [done|]. simpl in E. lia.
  - destruct g as [|z g]; [simpl in E; rewrite <-E in Hf; done|]. injection E as -> E. exact (IH g E Hx Hf).
Qed.
Lemma holds_len c l : holds c l -> cache_len c = len l.
Proof using Type. intros []. unfold cache_len. by rewrite holds_entries0, items_rows. Qed.
Lemma fits_alone cf size l : 0 <= size -> Forall (fun x => 0 <= size_bytes x.2) l ->
  fits cf size (make_room cf size l) <-> 0 < max_items cf /\ size <= max_bytes cf.
Proof using Type.
  intros Hs Hl. destruct (make_room_suffix cf size l) as [g E]. pose proof (make_room_longest cf size l) as Hlong.
  rewrite E in Hl. apply Forall_app in Hl as [_ Hl]. apply total_nonneg in Hl. set (k := make_room cf size l) in *. clearbody k. pose proof (len_nonneg k).
  unfold fits in *. split; [lia|]. intros [H1 H2]. destruct Hlong as [->|Hf]; [|done]. by rewrite Z.add_0_l.
Qed.
Lemma insert_fresh_bounds c l now key v size : holds c l -> affords c l 1 size -> 0 <= size -> 0 <= max_bytes (config c) -> len l <= max_items (config c) -> find key l = None ->
  exists c' gone kept, let fit := bool_decide (0 < max_items (config c) /\ size <= max_bytes (config c)) in
    insert_with_size now key v size c = Ret (fit, c') /\ cache_len c' <= max_items (config c) /\ current_bytes (stats c') <= max_bytes (config c) /\
    access_order c = gone ++ kept /\ access_order c' = kept ++ (if fit then [key] else []) /\
    (forall more, more `suffix_of` gone -> more <> [] ->
      max_items (config c) <= len (more ++ kept) \/ max_bytes (config c) < bytes_of (entries c) (more ++ kept) + size).
Proof using Type.
  intros Hh Ha Hsz Hmb Hi Hf. set (cf := config c) in *. set (k := make_room cf size l). destruct (make_room_suffix cf size l) as [g E]. fold k in E.
  destruct (insert_spec c l now key v size) as (c' & Hins & Hh' & _); [done|destruct Ha; lia..|]. fold cf in Hins, Hh'.
  pose proof (fits_alone cf size l Hsz (holds_sizes _ _ Hh)) as Hfa. fold k in Hfa.
  assert (Hop := op_rows_items cf (Insert now key v size) l). cbn [op_rows snd] in Hop. specialize (Hop ltac:(pose proof (len_nonneg l); lia) (holds_distinct _ _ Hh) Hi).
  unfold insert_row in *. rewrite Hf in *. fold k in Hins, Hh', Hop.
  exists c', g.*1, k.*1. rewrite (holds_len _ _ Hh'), (holds_bytes _ _ Hh'), (holds_order _ _ Hh), (holds_order _ _ Hh'). cbn [fst snd].
  rewrite <-(bool_decide_ext _ _ Hfa). split; [rewrite Hins; by destruct (decide _); [rewrite bool_decide_true|rewrite bool_decide_false]|]. split; [done|].
  split. { destruct (decide _) as [[_ Hb]|Hnf]; cbn [snd]; [rewrite total_app, total_one; cbn [new_entry size_bytes]; lia|].
    pose proof (make_room_longest cf size l) as Hlo. fold k in Hlo. destruct Hlo as [->|?]; [done|done]. }
  split; [by rewrite E, fmap_app|].
  split. { destruct (decide (fits cf size k)); cbn [snd]; [by rewrite bool_decide_true, fmap_app|by rewrite bool_decide_false, app_nil_r]. }
  intros more [pre Em] Hne. apply fmap_app_inv in Em as (g1 & g2 & -> & -> & ->).
  assert (Hnf : ~ fits cf size (g2 ++ k)). { unfold k. apply (make_room_minimal cf size l g1); [fold k; by rewrite app_assoc|]. by intros ->. }
  pose proof (holds_distinct _ _ Hh) as Hd. rewrite (holds_entries _ _ Hh), E, <-fmap_app. rewrite E, <-app_assoc in Hd. rewrite <-app_assoc, bytes_of_rows by done.
  unfold fits in Hnf. unfold len in *. rewrite length_fmap. lia.
Qed.

(** The bounds of the cache.  After any sequence of operations it holds at
    most [max_items] entries.  Inserting a key it does not hold succeeds
    exactly when the value would fit an empty cache, leaves at most
    [max_bytes] bytes whether it succeeds or not, and evicts a run of the
    least recently used keys that cannot be shortened: with any more of them
    kept there would have been no room. *)
Theorem insertion_respects_bounds (cf : CacheConfig) (os : list op) (now : Z) (key : K) (v : V) (size : Z) :
  0 <= max_items cf -> 0 <= max_bytes cf -> Forall (fun o => 0 <= op_size o) os -> 0 <= size ->
  sum_Z (op_size <$> os) + size <= usize_max -> len os < usize_max ->
  exists answers c, run os (new cf) = Ret (answers, c) /\ cache_len c <= max_items cf /\
    (entries c !! key = None -> exists c' gone kept, let fit := bool_decide (0 < max_items cf /\ size <= max_bytes cf) in
      insert_with_size now key v size c = Ret (fit, c') /\ cache_len c' <= max_items cf /\ current_bytes (stats c') <= max_bytes cf /\
      access_order c = gone ++ kept /\ access_order c' = kept ++ (if fit then [key] else []) /\
      (forall more, more `suffix_of` gone -> more <> [] ->
        max_items cf <= len (more ++ kept) \/ max_bytes cf < bytes_of (entries c) (more ++ kept) + size)).
Proof using Type.
  intros Hmi Hmb Hos Hsz Hb Hlen.
  destruct (run_spec os 1 size ltac:(done) Hsz Hos (new cf) [] (holds_new cf)) as (c & Hr & Hh & Ha & Ec & Hi & _); [apply affords_new; lia|].
  cbn [config new] in *. specialize (Hi Hmi Hmi). set (l := (run_rows cf os []).2) in *. exists (run_rows cf os []).1, c. split; [done|].
  rewrite (holds_len _ _ Hh). split; [done|]. intros Hk. rewrite (holds_find _ _ key Hh) in Hk. rewrite <-Ec in *. by apply (insert_fresh_bounds c l).
Qed.
End laws.

(** ** At concrete inputs *)

Definition small_config : CacheConfig := mkConfig 2 10 (Some 5).
Definition small_ops : list (op (K := Z) (V := Z)) := [Insert 0 1 10 4; Insert 0 2 20 4; Get 1 1; Insert 2 3 30 4; Get 3 2; Get 3 1; Get 20 3; Peek 3 3].
Lemma cache_refines_access_list_witness :
  exists answers rows c, run_rows small_config small_ops [] = (answers, rows) /\ run small_ops (new small_config) = Ret (answers, c) /\
    entries c = list_to_map rows /\ access_order c = rows.*1 /\ NoDup rows.*1 /\ current_bytes (stats c) = total rows /\
    hits (stats c) = sum_Z (zip_with hit_of small_ops answers) /\ misses (stats c) = sum_Z (zip_with miss_of small_ops answers).
Proof. apply cache_refines_access_list; [repeat constructor; vm_compute; discriminate|vm_compute; discriminate|vm_compute; discriminate]. Defined.
Example small_answers : (fun x => x.1) <$> run small_ops (new small_config) =
  Ret [Stored true; Stored true; Found (Some 10); Stored true; Found None; Found (Some 10); Found None; Found None].
Proof. reflexivity. Qed.
Lemma insertion_respects_bounds_witness :
  exists answers c, run small_ops (new small_config) = Ret (answers, c) /\ cache_len c <= max_items small_config /\
    (entries c !! 9 = None -> exists c' gone kept, let fit := bool_decide (0 < max_items small_config /\ 8 <= max_bytes small_config) in
      insert_with_size 30 9 90 8 c = Ret (fit, c') /\ cache_len c' <= max_items small_config /\ current_bytes (stats c') <= max_bytes small_config /\
      access_order c = gone ++ kept /\ access_order c' = kept ++ (if fit then [9] else []) /\
      (forall more, more `suffix_of` gone -> more <> [] ->
        max_items small_config <= len (more ++ kept) \/ max_bytes small_config < bytes_of (entries c) (more ++ kept) + 8)).
Proof. apply insertion_respects_bounds; try (repeat constructor; vm_compute; discriminate); vm_compute; first [discriminate|reflexivity]. Defined.

(** An insertion that fails has evicted everything, and leaves the number of
    items in the statistics as it was. *)
Example failed_insert_leaves_item_count :
  (fun x => (x.1, cache_len x.2, current_items (stats x.2))) <$> run [Insert 0 1 10 4; Insert 0 2 20 4; Insert 1 3 30 11] (new small_config)
    = Ret ([Stored true; Stored true; Stored false], 0, 2).
Proof. reflexivity. Qed.
(** Replacing a value never evicts, so it can exceed the bound on bytes. *)
Example update_exceeds_byte_bound :
  (fun x => current_bytes (stats x.2)) <$> run [Insert 0 1 10 4; Insert 0 1 11 100] (new small_config) = Ret 100.
Proof. reflexivity. Qed.
