(* ===== verification/DocumentStore.v ===== *)
(** * The document store (perl-workspace/src/workspace/document_store.rs)

    The text and version of every open document, by the key of its URI, with
    the line index that answers position queries.  The store is one map under
    a reader-writer lock, so every operation is one function on the state; a
    lock can be poisoned, and every operation says what it then answers.  The
    key of a URI ([perl_uri::uri_key]) rests on a URL library and is a
    parameter.  Proved: documents and their indexes agree, the highest version
    wins whatever order tracked updates arrive in, and a rejected candidate can
    be undone. *)

From stdpp Require Import base numbers list gmap.
From S2P Require Import Prelude Utf8 LineIndex PackageGraph.

(** ** Documents *)

Record Document := mkDocument { uri : str; version : Z; line_index : LineIndex.t }.
Definition document_new (uri : str) (version : Z) (text : list Z) : Document := mkDocument uri version (LineIndex.new text).
Definition document_update (version : Z) (text : list Z) (self : Document) : Document := mkDocument (uri self) version (LineIndex.new text).
Definition text (self : Document) : list Z := LineIndex.text (line_index self).

(** ** The store *)

Inductive DocumentCommitResult := Accepted | RejectedStale.
#[export] Instance DocumentCommitResult_dec : EqDecision DocumentCommitResult.
Proof. solve_decision. Defined.
Record DocumentStore := mkStore { documents : gmap str Document; poisoned : bool }.
Definition store_new : DocumentStore := mkStore ∅ false.

Section store.
Context (uri_key : str -> str).

(** [let Ok(mut docs) = self.documents.write() else { return otherwise }] *)
Definition with_write {A} (otherwise : A) (f : gmap str Document -> A * gmap str Document) (self : DocumentStore) : A * DocumentStore :=
  if poisoned self then (otherwise, self) else let r := f (documents self) in (r.1, mkStore r.2 false).
Definition with_read {A} (otherwise : A) (f : gmap str Document -> A) (self : DocumentStore) : A :=
  if poisoned self then otherwise else f (documents self).

Definition open (u : str) (v : Z) (t : list Z) (self : DocumentStore) : DocumentStore :=
  (with_write tt (fun docs => (tt, <[uri_key u := document_new u v t]> docs)) self).2.
Definition update (u : str) (v : Z) (t : list Z) : DocumentStore -> bool * DocumentStore :=
  with_write false (fun docs =>
    match docs !! uri_key u with
    | Some doc => if v <? version doc then (false, docs) else (true, <[uri_key u := document_update v t doc]> docs)
    | None => (false, docs)
    end).
Definition accept_candidate (u : str) (v : Z) (t : list Z) (enforce_version : bool) : DocumentStore -> DocumentCommitResult * DocumentStore :=
  with_write RejectedStale (fun docs =>
    match docs !! uri_key u with
    | Some doc =>
      if enforce_version && (v <? version doc) then (RejectedStale, docs)
      else (Accepted, <[uri_key u := document_update v t doc]> docs)
    | None => (Accepted, <[uri_key u := document_new u v t]> docs)
    end).
Definition close (u : str) : DocumentStore -> bool * DocumentStore :=
  with_write false (fun docs => (bool_decide (is_Some (docs !! uri_key u)), delete (uri_key u) docs)).
Definition restore_if_current (u : str) (expected_version : Z) (expected_text : list Z) (previous : option Document) : DocumentStore -> bool * DocumentStore :=
  with_write false (fun docs =>
    match docs !! uri_key u with
    | None => (false, docs)
    | Some current =>
      if negb (version current =? expected_version) || negb (bool_decide (text current = expected_text)) then (false, docs)
      else (true, match previous with Some document => <[uri_key u := document]> docs | None => delete (uri_key u) docs end)
    end).
Definition get (u : str) : DocumentStore -> option Document := with_read None (fun docs => docs !! uri_key u).
Definition get_text (u : str) : DocumentStore -> option (list Z) := with_read None (fun docs => text <$> docs !! uri_key u).
Definition all_documents : DocumentStore -> list Document := with_read [] (fun docs => (map_to_list docs).*2).
Definition is_open (u : str) : DocumentStore -> bool := with_read false (fun docs => bool_decide (is_Some (docs !! uri_key u))).
Definition count : DocumentStore -> Z := with_read 0 (fun docs => Z.of_nat (size docs)).
Definition total_text_bytes : DocumentStore -> Z := with_read 0 (fun docs => sum_Z ((fun d => len (text d)) <$> (map_to_list docs).*2)).

(** ** Operations as data *)

Inductive op :=
| Open (u : str) (v : Z) (t : list Z)
| Update (u : str) (v : Z) (t : list Z)
| Accept (u : str) (v : Z) (t : list Z) (enforce : bool)
| Close (u : str)
| RestoreIf (u : str) (v : Z) (t : list Z) (previous : option Document).
Definition run_op (o : op) (self : DocumentStore) : DocumentStore :=
  match o with
  | Open u v t => open u v t self
  | Update u v t => (update u v t self).2
  | Accept u v t e => (accept_candidate u v t e self).2
  | Close u => (close u self).2
  | RestoreIf u v t p => (restore_if_current u v t p self).2
  end.
Definition run_ops (os : list op) (self : DocumentStore) : DocumentStore := foldl (fun s o => run_op o s) self os.

(** ** Well-formed stores *)

Record document_wf (key : str) (d : Document) : Prop := mkWf {
  wf_key : uri_key (uri d) = key;
  wf_index : line_index d = LineIndex.new (text d);
}.
Definition store_wf (self : DocumentStore) : Prop := map_Forall document_wf (documents self).
(** A document is restored only under its own key. *)
Definition op_wf (o : op) : Prop :=
  match o with RestoreIf u _ _ (Some d) => document_wf (uri_key u) d | _ => True end.

Lemma new_wf u v t : document_wf (uri_key u) (document_new u v t).
Proof using Type. done. Qed.
Lemma update_wf key v t d : document_wf key d -> document_wf key (document_update v t d).
Proof using Type. by intros [H _]. Qed.
Lemma with_write_wf {A} (otherwise : A) f self : store_wf self -> (map_Forall document_wf (documents self) -> map_Forall document_wf (f (documents self)).2) ->
  store_wf (with_write otherwise f self).2.
Proof using Type. unfold with_write. intros Hs Hf. destruct (poisoned self); [done|exact (Hf Hs)]. Qed.
Lemma run_op_wf o self : op_wf o -> store_wf self -> store_wf (run_op o self).
Proof using Type.
  intros Ho Hs. destruct o as [u v t|u v t|u v t e|u|u v t p]; apply with_write_wf; try done; intros Hd; simpl.
  - by apply map_Forall_insert_2.
  - destruct (documents self !! uri_key u) as [d|] eqn:E; [|done]. destruct (v <? version d); [done|]. apply map_Forall_insert_2; [|done]. apply update_wf. by apply Hd.
  - destruct (documents self !! uri_key u) as [d|] eqn:E; [destruct (e && _); [done|]|]; apply map_Forall_insert_2; try done. apply update_wf. by apply Hd.
  - by apply map_Forall_delete.
  - destruct (documents self !! uri_key u) as [d|]; [|done]. destruct (_ || _); [done|]. destruct p; [by apply map_Forall_insert_2|by apply map_Forall_delete].
Qed.

(** Every document of a store that any operations produce is filed under
    the key of its own URI and owns the line index of its current text, so
    position queries never answer for a text that was replaced. *)
Theorem store_well_formed os : Forall op_wf os -> store_wf (run_ops os store_new).
Proof using Type.
  intros Hos. cut (forall self, store_wf self -> store_wf (run_ops os self)); [intros H; apply H, map_Forall_empty|].
  induction Hos as [|o os Ho _ IH]; intros self Hs; [done|]. simpl. by apply IH, run_op_wf.
Qed.

(** ** Versions *)

(** The update that counts: the last of the highest version. *)
Definition newer (best : Z * list Z) (c : Z * list Z) : Z * list Z := if c.1 <? best.1 then best else c.
Definition latest (best : Z * list Z) (cs : list (Z * list Z)) : Z * list Z := foldl newer best cs.
Lemma latest_spec cs : forall best, exists old new, best :: cs = old ++ latest best cs :: new /\
  Forall (fun c => c.1 <= (latest best cs).1) old /\ Forall (fun c => c.1 < (latest best cs).1) new.
Proof using Type.
  induction cs as [|c cs IH] using rev_ind; intros best; [by exists [], []|].
  unfold latest. rewrite foldl_app. simpl. fold (latest best cs). destruct (IH best) as (old & new & E & H1 & H2). unfold newer.
  destruct (Z.ltb_spec c.1 (latest best cs).1).
  - exists old, (new ++ [c]). split; [|split; [done|apply Forall_app; by repeat constructor]].
    rewrite app_comm_cons, E, <-app_assoc. done.
  - exists (best :: cs), []. split; [done|]. split; [|constructor]. rewrite E. apply Forall_app. split; [|constructor; [done|]].
    + eapply Forall_impl; [done|]. simpl. intros; lia.
    + eapply Forall_impl; [done|]. simpl. intros; lia.
Qed.
(** A candidate of a tracked caller, through either entry point. *)
Definition tracked (u : str) (c : bool * (Z * list Z)) : op :=
  if c.1 then Update u c.2.1 c.2.2 else Accept u c.2.1 c.2.2 true.
Lemma tracked_step u c self d : poisoned self = false -> documents self !! uri_key u = Some d ->
  let d' := if c.2.1 <? version d then d else document_update c.2.1 c.2.2 d in
  run_op (tracked u c) self = mkStore (<[uri_key u := d']> (documents self)) false.
Proof using Type.
  intros Hp Hd d'. subst d'. destruct c as [[] [v t]]; unfold tracked; cbn [fst snd run_op]; unfold update, accept_candidate, with_write; rewrite Hp, Hd; simpl;
  destruct (v <? version d); simpl; by rewrite ?(insert_id _ _ _ Hd).
Qed.

(** C21. Tracked candidates for an open document, in whatever order they arrive
    and through whichever entry point, leave the last of those of the highest
    version (the document already there counts as the first), and touch no
    other document. *)
Theorem tracked_updates_keep_latest u cs self d : poisoned self = false -> documents self !! uri_key u = Some d -> document_wf (uri_key u) d ->
  exists old best new, (version d, text d) :: cs.*2 = old ++ best :: new /\
    Forall (fun c => c.1 <= best.1) old /\ Forall (fun c => c.1 < best.1) new /\
    run_ops (tracked u <$> cs) self =
      mkStore (<[uri_key u := mkDocument (uri d) best.1 (LineIndex.new best.2)]> (documents self)) false.
Proof using Type.
  intros Hp Hd Hw. destruct (latest_spec cs.*2 (version d, text d)) as (old & new & E & H1 & H2).
  exists old, (latest (version d, text d) cs.*2), new. split; [done|]. split; [done|]. split; [done|]. clear E H1 H2. revert self d Hp Hd Hw.
  induction cs as [|c cs IH]; intros self d Hp Hd Hw; simpl.
  - rewrite insert_id; [by destruct self; simpl in Hp; subst|]. rewrite Hd. f_equal. destruct d, Hw as [_ Hi]. simpl in *. by rewrite <-Hi.
  - set (s1 := run_op (tracked u c) self). pose proof (tracked_step u c self d Hp Hd) as Es. cbv zeta in Es. fold s1 in Es.
    set (d' := if c.2.1 <? version d then d else document_update c.2.1 c.2.2 d) in *.
    change (run_ops (tracked u <$> cs) s1 = mkStore (<[uri_key u := mkDocument (uri d) (latest (newer (version d, text d) c.2) cs.*2).1
      (LineIndex.new (latest (newer (version d, text d) c.2) cs.*2).2)]> (documents self)) false). rewrite (IH s1 d').
    + rewrite Es. simpl. rewrite insert_insert_eq. unfold d', newer. destruct c as [b [v t]]. simpl. by destruct (v <? version d).
    + by rewrite Es.
    + rewrite Es. apply lookup_insert_eq.
    + unfold d'. destruct (_ <? _); [done|]. by apply update_wf.
Qed.

(** C22. Undoing a rejected publication: a candidate that was accepted and is
    still current is taken back exactly, to the document that was there before
    or to none. *)
Theorem rollback_restores u v t enforce self : poisoned self = false ->
  let r := accept_candidate u v t enforce self in
  r.1 = Accepted ->
  get_text u r.2 = Some t /\ restore_if_current u v t (get u self) r.2 = (true, self).
Proof using Type.
  intros Hp r. subst r. destruct self as [docs p]. simpl in Hp. subst p. unfold accept_candidate, restore_if_current, get_text, get, with_write, with_read. simpl.
  destruct (docs !! uri_key u) as [d|] eqn:E; simpl.
  - destruct (enforce && (v <? version d)); [done|]. intros _. simpl. rewrite !lookup_insert_eq. simpl. rewrite Z.eqb_refl, bool_decide_true by done. simpl.
    by rewrite insert_insert_eq, insert_id.
  - intros _. rewrite !lookup_insert_eq. simpl. rewrite Z.eqb_refl, bool_decide_true by done. simpl. by rewrite delete_insert_id.
Qed.
End store.

(** ** At concrete inputs *)

Lemma store_well_formed_witness : let key := fun u : str => u in
  Forall (op_wf key) [Open [97] 1 [120; 10]; RestoreIf [97] 1 [120; 10] (Some (document_new [97] 0 []))] /\
  store_wf key (run_ops key [Open [97] 1 [120; 10]; RestoreIf [97] 1 [120; 10] (Some (document_new [97] 0 []))] store_new).
Proof.
  intros key. assert (H : Forall (op_wf key) [Open [97] 1 [120; 10]; RestoreIf [97] 1 [120; 10] (Some (document_new [97] 0 []))]) by (repeat constructor).
  split; [exact H|]. exact (store_well_formed key _ H).
Defined.
Definition one_document : DocumentStore := mkStore {[ [97] := document_new [97] 3 [120] ]} false.
Lemma tracked_updates_keep_latest_witness : exists old best new,
  (3, [120]) :: [(2, [1]); (5, [2]); (4, [3]); (5, [4])] = old ++ best :: new /\
  Forall (fun c => c.1 <= best.1) old /\ Forall (fun c => c.1 < best.1) new /\
  run_ops (fun u => u) (tracked [97] <$> [(true, (2, [1])); (false, (5, [2])); (true, (4, [3])); (true, (5, [4]))]) one_document =
    mkStore (<[[97] := mkDocument [97] best.1 (LineIndex.new best.2)]> (documents one_document)) false.
Proof. apply (tracked_updates_keep_latest (fun u => u) [97] [(true, (2, [1])); (false, (5, [2])); (true, (4, [3])); (true, (5, [4]))] one_document (document_new [97] 3 [120])); [reflexivity|reflexivity|]. by constructor. Defined.
Lemma rollback_restores_witness :
  get_text (fun u => u) [97] (accept_candidate (fun u => u) [97] 4 [121] true one_document).2 = Some [121] /\
  restore_if_current (fun u => u) [97] 4 [121] (get (fun u => u) [97] one_document) (accept_candidate (fun u => u) [97] 4 [121] true one_document).2 = (true, one_document).
Proof. apply rollback_restores; reflexivity. Defined.
