(* ===== verification/Monitoring.v ===== *)
(** * Index monitoring (perl-workspace/src/monitoring/mod.rs)

    The counters that detect a parse storm and the instrumentation of the
    index lifecycle: how long each state and phase lasted, and how often each
    transition was taken.  Instants are nanoseconds; durations are whole
    milliseconds in an u64.  Every operation holds the one lock (or is one
    atomic access), so it is one function on the state. *)

From stdpp Require Import base numbers list gmap countable.
From S2P Require Import Prelude.

(** ** Kinds and records *)

Module IndexPhase.
Inductive t := Idle | Scanning | Indexing.
#[export] Instance t_dec : EqDecision t.
Proof. solve_decision. Defined.
#[export] Instance t_countable : Countable t.
Proof.
  apply (inj_countable' (fun k => match k with Idle => 0 | Scanning => 1 | Indexing => 2 end)
    (fun n => match n with 0 => Idle | 1 => Scanning | _ => Indexing end)).
  by intros [].
Defined.
End IndexPhase.
Module IndexStateKind.
Inductive t := Building | Ready | Degraded.
#[export] Instance t_dec : EqDecision t.
Proof. solve_decision. Defined.
#[export] Instance t_countable : Countable t.
Proof.
  apply (inj_countable' (fun k => match k with Building => 0 | Ready => 1 | Degraded => 2 end)
    (fun n => match n with 0 => Building | 1 => Ready | _ => Degraded end)).
  by intros [].
Defined.
End IndexStateKind.
Export (hints) IndexPhase IndexStateKind.

Definition IndexStateTransition : Type := IndexStateKind.t * IndexStateKind.t.
Definition IndexPhaseTransition : Type := IndexPhase.t * IndexPhase.t.
Inductive EarlyExitReason := Cancelled | InitialTimeBudget | IncrementalTimeBudget | FileLimit.
#[export] Instance EarlyExitReason_dec : EqDecision EarlyExitReason.
Proof. solve_decision. Defined.
#[export] Instance EarlyExitReason_countable : Countable EarlyExitReason.
Proof.
  apply (inj_countable' (fun k => match k with Cancelled => 0 | InitialTimeBudget => 1 | IncrementalTimeBudget => 2 | FileLimit => 3 end)
    (fun n => match n with 0 => Cancelled | 1 => InitialTimeBudget | 2 => IncrementalTimeBudget | _ => FileLimit end)).
  by intros [].
Defined.
Record EarlyExitRecord := mkExit { reason : EarlyExitReason; exit_elapsed_ms : Z; indexed_files : Z; total_files : Z }.
Inductive ResourceKind := MaxFiles | MaxSymbols | MaxCacheBytes.
Module DegradationReason.
Inductive t :=
| Cancelled
| ParseStorm (pending_parses : Z)
| IoError (message : list Z)
| ScanTimeout (elapsed_ms : Z)
| ResourceLimit (kind : ResourceKind).
End DegradationReason.
Record IndexResourceLimits := mkLimits {
  max_files : Z;
  max_symbols_per_file : Z;
  max_total_symbols : Z;
  max_ast_cache_bytes : Z;
  max_ast_cache_items : Z;
  max_scan_duration_ms : Z;
}.
Definition limits_default : IndexResourceLimits := mkLimits 10000 5000 500000 (256 * 1024 * 1024) 100 30000.
Record IndexPerformanceCaps := mkCaps { initial_scan_budget_ms : Z; incremental_budget_ms : Z }.
Definition caps_default : IndexPerformanceCaps := mkCaps 10000 10.

(** ** Pending parses *)

Record IndexMetrics := mkMetrics { pending_parses : Z; parse_storm_threshold : Z; last_indexed : Z }.
Definition with_threshold (threshold : Z) : IndexMetrics := mkMetrics 0 threshold 0.
Definition metrics_new : IndexMetrics := with_threshold 10.
Definition with_pending (m : IndexMetrics) (n : Z) : IndexMetrics := mkMetrics n (parse_storm_threshold m) (last_indexed m).
(** [fetch_add(1)] wraps, the [+ 1] on its result does not *)
Definition increment_pending_parses (m : IndexMetrics) : outcome (Z * IndexMetrics) :=
  n ← usize_add (pending_parses m) 1; mret (n, with_pending m (as_usize (pending_parses m + 1))).
(** [fetch_update] with [checked_sub(1)] *)
Definition decrement_pending_parses (m : IndexMetrics) : Z * IndexMetrics :=
  if 1 <=? pending_parses m then (saturating_sub (pending_parses m) 1, with_pending m (pending_parses m - 1))
  else (pending_parses m, m).
Definition is_parse_storm (m : IndexMetrics) : bool := parse_storm_threshold m <? pending_parses m.

(** ** Instrumentation *)

Record IndexInstrumentation := mkInst {
  current_state : IndexStateKind.t;
  current_phase : IndexPhase.t;
  state_started_at : Z;
  phase_started_at : Z;
  state_durations_ms : gmap IndexStateKind.t Z;
  phase_durations_ms : gmap IndexPhase.t Z;
  state_transition_counts : gmap IndexStateTransition Z;
  phase_transition_counts : gmap IndexPhaseTransition Z;
  early_exit_counts : gmap EarlyExitReason Z;
  last_early_exit : option EarlyExitRecord;
}.
Definition instrumentation_new (now : Z) : IndexInstrumentation :=
  mkInst IndexStateKind.Building IndexPhase.Idle now now ∅ ∅ ∅ ∅ ∅ None.
(** [now.duration_since(start).as_millis() as u64] *)
Definition millis_since (now start : Z) : Z := as_usize (Z.max 0 (now - start) / 1000000).
(** [*map.entry(key).or_default() += n] *)
Definition add_at {K} `{Countable K} (k : K) (n : Z) (m : gmap K Z) : outcome (gmap K Z) :=
  total ← usize_add (default 0 (m !! k)) n; mret (<[k := total]> m).

Definition record_state_transition (now : Z) (from to : IndexStateKind.t) (i : IndexInstrumentation) : outcome IndexInstrumentation :=
  durations ← add_at from (millis_since now (state_started_at i)) (state_durations_ms i);
  counts ← add_at (K := IndexStateTransition) (from, to) 1 (state_transition_counts i);
  phases ← (if bool_decide (from = IndexStateKind.Building)
            then add_at (current_phase i) (millis_since now (phase_started_at i)) (phase_durations_ms i)
            else mret (phase_durations_ms i));
  let resets := bool_decide (to = IndexStateKind.Building) || bool_decide (from = IndexStateKind.Building) in
  mret (mkInst to (if resets then IndexPhase.Idle else current_phase i) now (if resets then now else phase_started_at i)
    durations phases counts (phase_transition_counts i) (early_exit_counts i) (last_early_exit i)).
Definition record_phase_transition (now : Z) (from to : IndexPhase.t) (i : IndexInstrumentation) : outcome IndexInstrumentation :=
  durations ← add_at from (millis_since now (phase_started_at i)) (phase_durations_ms i);
  counts ← add_at (K := IndexPhaseTransition) (from, to) 1 (phase_transition_counts i);
  mret (mkInst (current_state i) to (state_started_at i) now (state_durations_ms i) durations (state_transition_counts i) counts
    (early_exit_counts i) (last_early_exit i)).
Definition record_early_exit (record : EarlyExitRecord) (i : IndexInstrumentation) : outcome IndexInstrumentation :=
  counts ← add_at (reason record) 1 (early_exit_counts i);
  mret (mkInst (current_state i) (current_phase i) (state_started_at i) (phase_started_at i) (state_durations_ms i) (phase_durations_ms i)
    (state_transition_counts i) (phase_transition_counts i) counts (Some record)).

Record IndexInstrumentationSnapshot := mkSnap {
  snap_state_durations_ms : gmap IndexStateKind.t Z;
  snap_phase_durations_ms : gmap IndexPhase.t Z;
  snap_state_transition_counts : gmap IndexStateTransition Z;
  snap_phase_transition_counts : gmap IndexPhaseTransition Z;
  snap_early_exit_counts : gmap EarlyExitReason Z;
  snap_last_early_exit : option EarlyExitRecord;
}.
Definition snapshot (now : Z) (i : IndexInstrumentation) : outcome IndexInstrumentationSnapshot :=
  states ← add_at (current_state i) (millis_since now (state_started_at i)) (state_durations_ms i);
  phases ← (if bool_decide (current_state i = IndexStateKind.Building)
            then add_at (current_phase i) (millis_since now (phase_started_at i)) (phase_durations_ms i)
            else mret (phase_durations_ms i));
  mret (mkSnap states phases (state_transition_counts i) (phase_transition_counts i) (early_exit_counts i) (last_early_exit i)).

(** ** Sums over the kinds *)

Definition kinds : list IndexStateKind.t := [IndexStateKind.Building; IndexStateKind.Ready; IndexStateKind.Degraded].
Definition phases : list IndexPhase.t := [IndexPhase.Idle; IndexPhase.Scanning; IndexPhase.Indexing].
(** What a map counts at a key, and in total over some keys. *)
Definition at_ {K} `{Countable K} (m : gmap K Z) (k : K) : Z := default 0 (m !! k).
Definition sum_at {K} `{Countable K} (m : gmap K Z) (ks : list K) : Z := sum_Z (at_ m <$> ks).
Definition inflow (i : gmap IndexStateTransition Z) (k : IndexStateKind.t) : Z := sum_at i ((fun f => (f, k)) <$> kinds).
Definition outflow (i : gmap IndexStateTransition Z) (k : IndexStateKind.t) : Z := sum_at i ((fun t => (k, t)) <$> kinds).
Definition transitions (i : gmap IndexStateTransition Z) : Z := sum_Z (outflow i <$> kinds).
(** One if the proposition holds. *)
Notation ind P := (Z.b2z (bool_decide P)).

Section maps.
Context {K : Type} `{Countable K}.
Lemma at_empty (k : K) : at_ (∅ : gmap K Z) k = 0.
Proof using Type. unfold at_. by rewrite lookup_empty. Qed.
Lemma at_insert (m : gmap K Z) k n k' : at_ (<[k := n]> m) k' = if decide (k = k') then n else at_ m k'.
Proof using Type. unfold at_. destruct (decide (k = k')) as [<-|Hne]; [by rewrite lookup_insert_eq|by rewrite lookup_insert_ne]. Qed.
Lemma add_at_spec k n (m : gmap K Z) : 0 <= at_ m k -> 0 <= n -> at_ m k + n <= usize_max ->
  exists m', add_at k n m = Ret m' /\ forall k', at_ m' k' = at_ m k' + n * ind (k = k').
Proof using Type.
  intros H1 H2 H3. unfold add_at, usize_add. fold (at_ m k). rewrite arith_Ret by lia. eexists. split; [reflexivity|]. intros k'. rewrite at_insert.
  destruct (decide (k = k')) as [<-|Hne]; [rewrite bool_decide_true by done|rewrite bool_decide_false by done]; simpl; lia.
Qed.
End maps.
Lemma millis_since_bounds now start : start <= now -> now - start <= usize_max ->
  0 <= millis_since now start /\ 1000000 * millis_since now start <= now - start < 1000000 * millis_since now start + 1000000.
Proof.
  intros H1 H2. unfold millis_since. rewrite Z.max_r by lia. rewrite as_usize_small; unfold usize_max in *; dlia.
Qed.

(** ** The account of an instrumentation *)

(** Evaluates the decisions on closed kinds. *)
Ltac eval_kinds :=
  repeat match goal with |- context [bool_decide ?P] => let v := eval vm_compute in (bool_decide P) in progress change (bool_decide P) with v end.
Lemma inflow_add (m m' : gmap IndexStateTransition Z) from to k : (forall x : IndexStateTransition, at_ m' x = at_ m x + 1 * ind ((from, to) = x)) -> inflow m' k = inflow m k + ind (to = k).
Proof. intros Hm. unfold inflow, sum_at. simpl. rewrite !Hm. destruct from, to, k; eval_kinds; simpl Z.b2z; lia. Qed.
Lemma outflow_add (m m' : gmap IndexStateTransition Z) from to k : (forall x : IndexStateTransition, at_ m' x = at_ m x + 1 * ind ((from, to) = x)) -> outflow m' k = outflow m k + ind (from = k).
Proof. intros Hm. unfold outflow, sum_at. simpl. rewrite !Hm. destruct from, to, k; eval_kinds; simpl Z.b2z; lia. Qed.
Lemma sum_kinds_add m m' k n : (forall x, at_ m' x = at_ m x + n * ind (k = x)) -> sum_at m' kinds = sum_at m kinds + n.
Proof. intros Hm. unfold sum_at. simpl. rewrite !Hm. destruct k; eval_kinds; simpl Z.b2z; lia. Qed.
Lemma sum_phases_add m m' k n : (forall x, at_ m' x = at_ m x + n * ind (k = x)) -> sum_at m' phases = sum_at m phases + n.
Proof. intros Hm. unfold sum_at. simpl. rewrite !Hm. destruct k; eval_kinds; simpl Z.b2z; lia. Qed.
Lemma nonneg_add {K} `{Countable K} (m m' : gmap K Z) k n : 0 <= n -> (forall x, at_ m' x = at_ m x + n * ind (k = x)) -> (forall x, 0 <= at_ m x) -> forall x, 0 <= at_ m' x.
Proof. intros Hn Hm H0 x. rewrite Hm. specialize (H0 x). destruct (bool_decide _); simpl; lia. Qed.
Lemma at_kind_le m k : (forall x, 0 <= at_ m x) -> at_ m k <= sum_at m kinds.
Proof.
  intros H. pose proof (H IndexStateKind.Building). pose proof (H IndexStateKind.Ready). pose proof (H IndexStateKind.Degraded).
  unfold sum_at. destruct k; simpl; lia.
Qed.
Lemma at_phase_le m k : (forall x, 0 <= at_ m x) -> at_ m k <= sum_at m phases.
Proof.
  intros H. pose proof (H IndexPhase.Idle). pose proof (H IndexPhase.Scanning). pose proof (H IndexPhase.Indexing). unfold sum_at. destruct k; simpl; lia.
Qed.
Lemma transitions_add (m m' : gmap IndexStateTransition Z) from to : (forall x : IndexStateTransition, at_ m' x = at_ m x + 1 * ind ((from, to) = x)) -> transitions m' = transitions m + 1.
Proof. intros Hm. unfold transitions. simpl. rewrite !(outflow_add m m' from to) by done. destruct from; eval_kinds; simpl Z.b2z; lia. Qed.

(** Everything counted lies between the birth of the coordinator and the last
    operation: [n] events were recorded, each transition leaves a kind that was
    entered, and the recorded milliseconds cover the time up to the last
    transition, short of one millisecond for each. *)
Record accounts (born last n : Z) (i : IndexInstrumentation) : Prop := mkAccounts {
  acc_flow : forall k, inflow (state_transition_counts i) k + ind (k = IndexStateKind.Building) =
    outflow (state_transition_counts i) k + ind (k = current_state i);
  acc_counts : forall x, 0 <= at_ (state_transition_counts i) x <= n;
  acc_phases : forall x, 0 <= at_ (phase_transition_counts i) x <= n;
  acc_exits : forall x, 0 <= at_ (early_exit_counts i) x <= n;
  acc_durations : forall k, 0 <= at_ (state_durations_ms i) k;
  acc_time : 1000000 * sum_at (state_durations_ms i) kinds <= state_started_at i - born <=
    1000000 * (sum_at (state_durations_ms i) kinds + transitions (state_transition_counts i));
  acc_started : state_started_at i <= last;
  acc_phase_durations : forall k, 0 <= at_ (phase_durations_ms i) k;
  acc_phase_time : 1000000 * sum_at (phase_durations_ms i) phases <= phase_started_at i - born;
  acc_phase_started : phase_started_at i <= last;
}.
Lemma accounts_new now : accounts now now 0 (instrumentation_new now).
Proof.
  split; simpl; try lia; try (intros x; rewrite at_empty; lia).
  - intros k. unfold inflow, outflow, sum_at. simpl. rewrite !at_empty. lia.
  - change (sum_at ∅ kinds) with 0. change (transitions ∅) with 0. lia.
  - change (sum_at ∅ phases) with 0. lia.
Qed.
Lemma accounts_later born last n i last' n' : accounts born last n i -> last <= last' -> n <= n' -> accounts born last' n' i.
Proof. intros [] Hl Hn. split; try done; try lia; intros x; [destruct (acc_counts0 x)|destruct (acc_phases0 x)|destruct (acc_exits0 x)]; lia. Qed.
Lemma bounded_add {K} `{Countable K} (m m' : gmap K Z) k n : (forall x, at_ m' x = at_ m x + 1 * ind (k = x)) -> (forall x, 0 <= at_ m x <= n) -> forall x, 0 <= at_ m' x <= n + 1.
Proof. intros Hm H0 x. rewrite Hm. specialize (H0 x). destruct (bool_decide _); simpl; lia. Qed.

Lemma phase_closed now born last n i k : accounts born last n i -> last <= now -> now - born <= usize_max ->
  exists m, add_at k (millis_since now (phase_started_at i)) (phase_durations_ms i) = Ret m /\ (forall x, 0 <= at_ m x) /\
    1000000 * sum_at m phases <= now - born.
Proof.
  intros [] Hl Hu. pose proof (at_phase_le _ k acc_phase_durations0). pose proof (acc_phase_durations0 k).
  destruct (millis_since_bounds now (phase_started_at i)) as [M1 M2]; [lia|lia|].
  destruct (add_at_spec k (millis_since now (phase_started_at i)) (phase_durations_ms i)) as (m & Em & Hm); [done..|lia|].
  exists m. split; [done|]. split; [by apply (nonneg_add _ _ _ _ M1 Hm)|]. rewrite (sum_phases_add _ _ _ _ Hm). lia.
Qed.
Lemma record_state_accounts now born last n to i : accounts born last n i -> last <= now -> now - born <= usize_max -> 0 <= n < usize_max ->
  exists i', record_state_transition now (current_state i) to i = Ret i' /\ accounts born now (n + 1) i' /\ current_state i' = to /\
    current_phase i' = (if bool_decide (to = IndexStateKind.Building) || bool_decide (current_state i = IndexStateKind.Building) then IndexPhase.Idle else current_phase i).
Proof.
  intros Ha Hl Hu Hn. pose proof Ha as []. unfold record_state_transition.
  pose proof (at_kind_le _ (current_state i) acc_durations0). pose proof (acc_durations0 (current_state i)).
  destruct (millis_since_bounds now (state_started_at i)) as [M1 M2]; [lia|lia|].
  destruct (add_at_spec (current_state i) (millis_since now (state_started_at i)) (state_durations_ms i)) as (ds & -> & Hds); [done..|lia|].
  destruct (add_at_spec (K := IndexStateTransition) (current_state i, to) 1 (state_transition_counts i)) as (cs & -> & Hcs); [apply acc_counts0|lia|destruct (acc_counts0 (current_state i, to)); lia|].
  cbn [mbind outcome_bind].
  assert (exists ps, (if bool_decide (current_state i = IndexStateKind.Building)
    then add_at (current_phase i) (millis_since now (phase_started_at i)) (phase_durations_ms i) else mret (phase_durations_ms i)) = Ret ps /\
    (forall x, 0 <= at_ ps x) /\ 1000000 * sum_at ps phases <= (if bool_decide (current_state i = IndexStateKind.Building) then now else phase_started_at i) - born) as (ps & -> & Hps1 & Hps2).
  { destruct (bool_decide (current_state i = IndexStateKind.Building)); [by apply (phase_closed now born last n)|]. by exists (phase_durations_ms i). }
  cbn [mbind outcome_bind]. eexists. split; [reflexivity|]. split; [|done]. split; simpl.
  - intros k. rewrite (inflow_add _ _ _ _ k Hcs), (outflow_add _ _ _ _ k Hcs). specialize (acc_flow0 k).
    rewrite (bool_decide_ext (k = to) (to = k)), (bool_decide_ext (current_state i = k) (k = current_state i)) by done. lia.
  - by apply (bounded_add _ _ _ _ Hcs).
  - intros x. destruct (acc_phases0 x). lia.
  - intros x. destruct (acc_exits0 x). lia.
  - by apply (nonneg_add _ _ _ _ M1 Hds).
  - rewrite (sum_kinds_add _ _ _ _ Hds), (transitions_add _ _ _ _ Hcs). lia.
  - done.
  - done.
  - destruct (bool_decide (current_state i = _)), (bool_decide (to = _)); simpl in *; lia.
  - destruct (_ || _); lia.
Qed.
Lemma record_phase_accounts now born last n from to i : accounts born last n i -> last <= now -> now - born <= usize_max -> 0 <= n < usize_max ->
  exists i', record_phase_transition now from to i = Ret i' /\ accounts born now (n + 1) i' /\ current_state i' = current_state i /\ current_phase i' = to.
Proof.
  intros Ha Hl Hu Hn. pose proof Ha as []. unfold record_phase_transition. destruct (phase_closed now born last n i from Ha Hl Hu) as (ps & -> & H1 & H2).
  destruct (add_at_spec (K := IndexPhaseTransition) (from, to) 1 (phase_transition_counts i)) as (cs & -> & Hcs); [apply acc_phases0|lia|destruct (acc_phases0 (from, to)); lia|].
  cbn [mbind outcome_bind]. eexists. split; [reflexivity|]. split; [|done]. split; simpl; try done; try lia.
  - intros x. destruct (acc_counts0 x). lia.
  - by apply (bounded_add _ _ _ _ Hcs).
  - intros x. destruct (acc_exits0 x). lia.
Qed.
Lemma record_exit_accounts r born last n i : accounts born last n i -> 0 <= n < usize_max ->
  exists i', record_early_exit r i = Ret i' /\ accounts born last (n + 1) i' /\ current_state i' = current_state i /\ current_phase i' = current_phase i.
Proof.
  intros Ha Hn. pose proof Ha as []. unfold record_early_exit.
  destruct (add_at_spec (reason r) 1 (early_exit_counts i)) as (cs & -> & Hcs); [apply acc_exits0|lia|destruct (acc_exits0 (reason r)); lia|].
  cbn [mbind outcome_bind]. eexists. split; [reflexivity|]. split; [|done]. split; simpl; try done; try lia.
  - intros x. destruct (acc_counts0 x). lia.
  - intros x. destruct (acc_phases0 x). lia.
  - by apply (bounded_add _ _ _ _ Hcs).
Qed.
(** What a snapshot reports of the states: the time since birth, short of one
    millisecond for each stretch. *)
Lemma snapshot_spec now born last n i : accounts born last n i -> last <= now -> now - born <= usize_max ->
  exists s, snapshot now i = Ret s /\ snap_state_transition_counts s = state_transition_counts i /\
    1000000 * sum_at (snap_state_durations_ms s) kinds <= now - born < 1000000 * (sum_at (snap_state_durations_ms s) kinds + transitions (state_transition_counts i) + 1).
Proof.
  intros Ha Hl Hu. pose proof Ha as []. unfold snapshot.
  pose proof (at_kind_le _ (current_state i) acc_durations0). pose proof (acc_durations0 (current_state i)).
  destruct (millis_since_bounds now (state_started_at i)) as [M1 M2]; [lia|lia|].
  destruct (add_at_spec (current_state i) (millis_since now (state_started_at i)) (state_durations_ms i)) as (ds & -> & Hds); [done..|lia|].
  cbn [mbind outcome_bind]. destruct (phase_closed now born last n i (current_phase i) Ha Hl Hu) as (ps & Eps & _).
  assert (exists ps', (if bool_decide (current_state i = IndexStateKind.Building)
    then add_at (current_phase i) (millis_since now (phase_started_at i)) (phase_durations_ms i) else mret (phase_durations_ms i)) = Ret ps') as [ps' ->].
  { destruct (bool_decide _); [by exists ps|]. by eexists. }
  cbn [mbind outcome_bind]. eexists. split; [reflexivity|]. split; [done|]. simpl. rewrite (sum_kinds_add _ _ _ _ Hds). lia.
Qed.
