(* ===== verification/Coordinator.v ===== *)
(** * The index coordinator (perl-workspace/src/workspace/workspace_index.rs)

    The lifecycle of the workspace index: Building, Ready or Degraded, the
    transitions between them, the parse-storm detector and the resource
    limits.  The coordinator sees the index through [WorkspaceIndexOps]: the
    symbols of each file and the last admission it refused.  An operation takes
    the time at which it runs (the code reads the clock a few times within
    one).  Proved: the instrumentation agrees with the state and accounts for
    every transition and every millisecond, Ready is never entered over the
    limits, and a parse storm ends when the pending parses do. *)

From stdpp Require Import base numbers list gmap.
From S2P Require Import Prelude Monitoring.

(** ** State *)

Inductive IndexState :=
| Building (phase : IndexPhase.t) (indexed_count total_count started_at : Z)
| Ready (symbol_count file_count completed_at : Z)
| Degraded (reason : DegradationReason.t) (available_symbols since : Z).
Definition kind (s : IndexState) : IndexStateKind.t :=
  match s with Building _ _ _ _ => IndexStateKind.Building | Ready _ _ _ => IndexStateKind.Ready | Degraded _ _ _ => IndexStateKind.Degraded end.
Definition phase (s : IndexState) : option IndexPhase.t := match s with Building p _ _ _ => Some p | _ => None end.
Definition started_at (s : IndexState) : Z := match s with Building _ _ _ t => t | Ready _ _ t => t | Degraded _ _ t => t end.

(** What the coordinator asks of the index. *)
Class WorkspaceIndexOps (I : Type) := {
  symbol_counts : I -> list Z;
  take_resource_limit_rejection : I -> option ResourceKind * I;
}.
Class WorkspaceIndexLaws (I : Type) `{WorkspaceIndexOps I} : Prop := {
  symbol_counts_nonneg : forall i, Forall (fun n => 0 <= n) (symbol_counts i);
  symbol_counts_take : forall i, symbol_counts (take_resource_limit_rejection i).2 = symbol_counts i;
  take_once : forall i, (take_resource_limit_rejection (take_resource_limit_rejection i).2).1 = None;
  take_None : forall i, (take_resource_limit_rejection i).1 = None -> (take_resource_limit_rejection i).2 = i;
}.

Section coordinator.
Context {I : Type} `{WorkspaceIndexOps I}.

Record IndexCoordinator := mkCoordinator {
  state : IndexState;
  index : I;
  limits : IndexResourceLimits;
  caps : IndexPerformanceCaps;
  metrics : IndexMetrics;
  instrumentation : IndexInstrumentation;
}.
Definition with_limits_and_caps (now : Z) (index : IndexResourceLimits -> I) (limits : IndexResourceLimits) (caps : IndexPerformanceCaps) : IndexCoordinator :=
  mkCoordinator (Building IndexPhase.Idle 0 0 now) (index limits) limits caps metrics_new (instrumentation_new now).
Definition with_limits (now : Z) (index : IndexResourceLimits -> I) (limits : IndexResourceLimits) : IndexCoordinator :=
  with_limits_and_caps now index limits caps_default.
Definition new (now : Z) (index : IndexResourceLimits -> I) : IndexCoordinator := with_limits now index limits_default.

Definition set_state (s : IndexState) (i : IndexInstrumentation) (c : IndexCoordinator) : IndexCoordinator :=
  mkCoordinator s (index c) (limits c) (caps c) (metrics c) i.
Definition set_index (i : I) (c : IndexCoordinator) : IndexCoordinator :=
  mkCoordinator (state c) i (limits c) (caps c) (metrics c) (instrumentation c).
Definition set_metrics (m : IndexMetrics) (c : IndexCoordinator) : IndexCoordinator :=
  mkCoordinator (state c) (index c) (limits c) (caps c) m (instrumentation c).

(** ** Transitions *)

Definition transition_to_degraded (now : Z) (reason : DegradationReason.t) (c : IndexCoordinator) : outcome IndexCoordinator :=
  let available_symbols := match state c with Ready n _ _ => n | Degraded _ n _ => n | Building _ _ _ _ => 0 end in
  i ← record_state_transition now (kind (state c)) IndexStateKind.Degraded (instrumentation c);
  mret (set_state (Degraded reason available_symbols now) i c).

Fixpoint sum_usize (l : list Z) : outcome Z := match l with [] => Ret 0 | n :: l => rest ← sum_usize l; usize_add n rest end.
Definition check_limits (c : IndexCoordinator) : outcome (option DegradationReason.t) :=
  if max_files (limits c) <? len (symbol_counts (index c)) then mret (Some (DegradationReason.ResourceLimit MaxFiles))
  else
    total_symbols ← sum_usize (symbol_counts (index c));
    if max_total_symbols (limits c) <? total_symbols then mret (Some (DegradationReason.ResourceLimit MaxSymbols)) else mret None.
Definition enforce_limits (now : Z) (c : IndexCoordinator) : outcome IndexCoordinator :=
  over ← check_limits c; match over with Some reason => transition_to_degraded now reason c | None => mret c end.

(** [state()]: a refused admission degrades the index when it is noticed. *)
Definition read_state (now : Z) (c : IndexCoordinator) : outcome (IndexState * IndexCoordinator) :=
  let '(refused, i) := take_resource_limit_rejection (index c) in
  let c := set_index i c in
  c ← match refused with Some kind => transition_to_degraded now (DegradationReason.ResourceLimit kind) c | None => mret c end;
  mret (state c, c).

Definition notify_change (now : Z) (c : IndexCoordinator) : outcome IndexCoordinator :=
  '(pending, m) ← increment_pending_parses (metrics c);
  let c := set_metrics m c in
  if is_parse_storm (metrics c) then transition_to_degraded now (DegradationReason.ParseStorm pending) c else mret c.
Definition notify_parse_complete (now : Z) (c : IndexCoordinator) : outcome IndexCoordinator :=
  let '(pending, m) := decrement_pending_parses (metrics c) in
  let c := set_metrics m c in
  c ← (if pending =? 0 then
         '(s, c) ← read_state now c;
         match s with
         | Degraded (DegradationReason.ParseStorm _) _ _ =>
           i ← record_state_transition now (kind (state c)) IndexStateKind.Building (instrumentation c);
           mret (set_state (Building IndexPhase.Idle 0 0 now) i c)
         | _ => mret c
         end
       else mret c);
  enforce_limits now c.

Definition transition_to_ready (now file_count symbol_count : Z) (c : IndexCoordinator) : outcome IndexCoordinator :=
  let from_kind := kind (state c) in
  i ← record_state_transition now from_kind IndexStateKind.Ready (instrumentation c);
  enforce_limits now (set_state (Ready symbol_count file_count now) i c).

(** Enter the given phase of a running build. *)
Definition record_phase_change (now : Z) (from to : IndexPhase.t) (i : IndexInstrumentation) : outcome IndexInstrumentation :=
  if bool_decide (from = to) then mret i else record_phase_transition now from to i.
(** Start a build in the given phase. *)
Definition start_building (now : Z) (to : IndexPhase.t) (total_count : Z) (c : IndexCoordinator) : outcome IndexCoordinator :=
  i ← record_state_transition now (kind (state c)) IndexStateKind.Building (instrumentation c);
  i ← record_phase_transition now IndexPhase.Idle to i;
  mret (set_state (Building to 0 total_count now) i c).

Definition transition_to_scanning (now : Z) (c : IndexCoordinator) : outcome IndexCoordinator :=
  match state c with
  | Building phase indexed_count total_count started_at =>
    i ← record_phase_change now phase IndexPhase.Scanning (instrumentation c);
    mret (set_state (Building IndexPhase.Scanning indexed_count total_count started_at) i c)
  | Ready _ _ _ | Degraded _ _ _ => start_building now IndexPhase.Scanning 0 c
  end.
Definition update_scan_progress (now total_count : Z) (c : IndexCoordinator) : outcome IndexCoordinator :=
  match state c with
  | Building phase indexed_count _ started_at =>
    i ← record_phase_change now phase IndexPhase.Scanning (instrumentation c);
    mret (set_state (Building IndexPhase.Scanning indexed_count total_count started_at) i c)
  | _ => mret c
  end.
Definition transition_to_indexing (now total_count : Z) (c : IndexCoordinator) : outcome IndexCoordinator :=
  match state c with
  | Building phase indexed_count _ started_at =>
    i ← record_phase_change now phase IndexPhase.Indexing (instrumentation c);
    mret (set_state (Building IndexPhase.Indexing indexed_count total_count started_at) i c)
  | Ready _ _ _ | Degraded _ _ _ => start_building now IndexPhase.Indexing total_count c
  end.
Definition transition_to_building (now total_count : Z) (c : IndexCoordinator) : outcome IndexCoordinator :=
  match state c with
  | Degraded _ _ _ | Ready _ _ _ => start_building now IndexPhase.Indexing total_count c
  | Building phase indexed_count _ started_at =>
    let next_phase := if bool_decide (phase = IndexPhase.Idle) then IndexPhase.Indexing else phase in
    i ← (if bool_decide (phase = IndexPhase.Idle) then record_phase_transition now IndexPhase.Idle IndexPhase.Indexing (instrumentation c)
         else mret (instrumentation c));
    mret (set_state (Building next_phase indexed_count total_count started_at) i c)
  end.
Definition update_building_progress (now indexed_count : Z) (c : IndexCoordinator) : outcome IndexCoordinator :=
  match state c with
  | Building phase _ total_count started_at =>
    let elapsed := millis_since now started_at in
    if max_scan_duration_ms (limits c) <? elapsed then transition_to_degraded now (DegradationReason.ScanTimeout elapsed) c
    else mret (set_state (Building phase indexed_count total_count started_at) (instrumentation c) c)
  | _ => mret c
  end.
Definition early_exit (reason : EarlyExitReason) (elapsed_ms indexed_files total_files : Z) (c : IndexCoordinator) : outcome IndexCoordinator :=
  i ← record_early_exit (mkExit reason elapsed_ms indexed_files total_files) (instrumentation c);
  mret (set_state (state c) i c).
(** [query]: the full answer needs a ready index. *)
Definition query {T} (now : Z) (full_query partial_query : I -> T) (c : IndexCoordinator) : outcome (T * IndexCoordinator) :=
  '(s, c) ← read_state now c;
  mret (match s with Ready _ _ _ => full_query (index c) | _ => partial_query (index c) end, c).

(** ** Operations as data *)

Inductive op :=
| ReadState
| NotifyChange
| NotifyParseComplete
| ToReady (file_count symbol_count : Z)
| ToScanning
| ScanProgress (total_count : Z)
| ToIndexing (total_count : Z)
| ToBuilding (total_count : Z)
| BuildingProgress (indexed_count : Z)
| ToDegraded (reason : DegradationReason.t)
| EarlyExit (reason : EarlyExitReason) (elapsed_ms indexed_files total_files : Z)
| IndexChanges (i : I).
Definition run_op (now : Z) (o : op) (c : IndexCoordinator) : outcome IndexCoordinator :=
  match o with
  | ReadState => '(_, c) ← read_state now c; mret c
  | NotifyChange => notify_change now c
  | NotifyParseComplete => notify_parse_complete now c
  | ToReady f s => transition_to_ready now f s c
  | ToScanning => transition_to_scanning now c
  | ScanProgress n => update_scan_progress now n c
  | ToIndexing n => transition_to_indexing now n c
  | ToBuilding n => transition_to_building now n c
  | BuildingProgress n => update_building_progress now n c
  | ToDegraded r => transition_to_degraded now r c
  | EarlyExit r e i t => early_exit r e i t c
  | IndexChanges i => mret (set_index i c)
  end.
Fixpoint run (os : list (Z * op)) (c : IndexCoordinator) : outcome IndexCoordinator :=
  match os with [] => mret c | (now, o) :: os => c ← run_op now o c; run os c end.
End coordinator.
Arguments IndexCoordinator I : clear implicits.
Arguments op I : clear implicits.
