(* ===== verification/CoordinatorLaws.v ===== *)
(** * Laws of the index coordinator

    The instrumentation follows the state, and the lifecycle: when the index
    is ready, and how a parse storm begins and ends. *)

From stdpp Require Import base numbers list gmap.
From S2P Require Import Prelude Monitoring Coordinator.

Section laws.
Context {I : Type} `{WorkspaceIndexOps I} `{!WorkspaceIndexLaws I}.
Notation Coord := (IndexCoordinator I).
Implicit Types (c : Coord) (i : I).

(** ** The instrumentation follows the state *)

Definition fits i : Prop := sum_Z (symbol_counts i) <= usize_max.
Record tracks (born last n : Z) c : Prop := mkTracks {
  tr_accounts : accounts born last n (instrumentation c);
  tr_state : current_state (instrumentation c) = kind (state c);
  tr_phase : current_phase (instrumentation c) = default IndexPhase.Idle (phase (state c));
  tr_pending : 0 <= pending_parses (metrics c) <= n;
  tr_fits : fits (index c);
}.
(** Nothing but the state and its instrumentation differs. *)
Definition same_env c c' : Prop := index c' = index c /\ limits c' = limits c /\ caps c' = caps c /\ metrics c' = metrics c.
Lemma same_env_refl c : same_env c c.
Proof using Type. done. Qed.
Lemma same_env_trans c1 c2 c3 : same_env c1 c2 -> same_env c2 c3 -> same_env c1 c3.
Proof using Type. unfold same_env. intros (-> & -> & -> & ->) (-> & -> & -> & ->). done. Qed.
Lemma tracks_later born last n c last' n' : tracks born last n c -> last <= last' -> n <= n' -> tracks born last' n' c.
Proof using Type. intros [] H1 H2. split; try done; [by eapply accounts_later|lia]. Qed.
Lemma tracks_set_index born last n c i : tracks born last n c -> fits i -> tracks born last n (set_index i c).
Proof using Type. intros [] H1. by split. Qed.
Lemma fits_take i : fits i -> fits (take_resource_limit_rejection i).2.
Proof using Type*. unfold fits. by rewrite symbol_counts_take. Qed.

Lemma record_state_step now born last n c (s : IndexState) :
  tracks born last n c -> last <= now -> now - born <= usize_max -> 0 <= n < usize_max ->
  exists ins, record_state_transition now (kind (state c)) (kind s) (instrumentation c) = Ret ins /\
    (default IndexPhase.Idle (phase s) = IndexPhase.Idle -> tracks born now (n + 1) (set_state s ins c)) /\
    accounts born now (n + 1) ins /\ current_state ins = kind s.
Proof using Type.
  intros [Ha Hs Hp Hpend Hfit] Hl Hu Hn. destruct (record_state_accounts now born last n (kind s) _ Ha Hl Hu Hn) as (ins & Er & Ai & Es & Ep).
  rewrite Hs in Er. exists ins. split; [done|]. split; [|done]. intros Hd. split; try done; simpl; [|lia].
  rewrite Ep, Hd, Hs, Hp. destruct s, (state c); simpl in *; try done; by eval_kinds.
Qed.
Lemma degraded_step now born last n r c : tracks born last n c -> last <= now -> now - born <= usize_max -> 0 <= n < usize_max ->
  exists c' avail, transition_to_degraded now r c = Ret c' /\ tracks born now (n + 1) c' /\ same_env c c' /\ state c' = Degraded r avail now /\
    avail = match state c with Ready k _ _ => k | Degraded _ k _ => k | Building _ _ _ _ => 0 end.
Proof using Type.
  intros Ht Hl Hu Hn. unfold transition_to_degraded. set (avail := match state c with Ready k _ _ => k | Degraded _ k _ => k | Building _ _ _ _ => 0 end).
  destruct (record_state_step now born last n c (Degraded r avail now) Ht Hl Hu Hn) as (ins & Er & Hi & _). simpl in Er. rewrite Er. cbn [mbind outcome_bind].
  eexists _, avail. split; [reflexivity|]. split; [by apply Hi|]. done.
Qed.

Lemma sum_usize_spec l : Forall (fun n => 0 <= n) l -> sum_Z l <= usize_max -> sum_usize l = Ret (sum_Z l) /\ 0 <= sum_Z l.
Proof using Type.
  induction 1 as [|n l Hn _ IH]; intros Hs; [done|]. cbn [sum_usize sum_Z] in *. assert (0 <= sum_Z l) by (clear -IH; destruct (Z.le_gt_cases (sum_Z l) usize_max); [by apply IH|unfold usize_max in *; lia]).
  destruct IH as [-> _]; [lia|]. cbn [mbind outcome_bind]. unfold usize_add. rewrite arith_Ret by lia. split; [f_equal; lia|lia].
Qed.
(** Whether the index respects its limits. *)
Definition within_limits (lim : IndexResourceLimits) i : Prop := len (symbol_counts i) <= max_files lim /\ sum_Z (symbol_counts i) <= max_total_symbols lim.
#[export] Instance within_limits_dec lim i : Decision (within_limits lim i).
Proof using Type. apply _. Defined.
Lemma check_limits_spec c : fits (index c) ->
  exists o, check_limits c = Ret o /\ (within_limits (limits c) (index c) -> o = None) /\
    (~ within_limits (limits c) (index c) -> exists k, o = Some (DegradationReason.ResourceLimit k)).
Proof using Type*.
  intros Hf. unfold check_limits, within_limits. destruct (Z.ltb_spec (max_files (limits c)) (len (symbol_counts (index c)))).
  - eexists. split; [reflexivity|]. split; [lia|]. intros _. by eexists.
  - destruct (sum_usize_spec (symbol_counts (index c)) (symbol_counts_nonneg _) Hf) as [-> _]. cbn [mbind outcome_bind].
    destruct (Z.ltb_spec (max_total_symbols (limits c)) (sum_Z (symbol_counts (index c)))); eexists; (split; [reflexivity|]); split; try done; try lia. intros _. by eexists.
Qed.
Lemma enforce_step now born last n c : tracks born last n c -> last <= now -> now - born <= usize_max -> 0 <= n < usize_max ->
  exists c', enforce_limits now c = Ret c' /\ tracks born now (n + 1) c' /\ same_env c c' /\
    (within_limits (limits c) (index c) -> c' = c) /\
    (~ within_limits (limits c) (index c) -> exists k avail, state c' = Degraded (DegradationReason.ResourceLimit k) avail now).
Proof using Type*.
  intros Ht Hl Hu Hn. unfold enforce_limits. destruct (check_limits_spec c (tr_fits _ _ _ _ Ht)) as (o & -> & H1 & H2). cbn [mbind outcome_bind].
  destruct (decide (within_limits (limits c) (index c))) as [Hw|Hw].
  - rewrite H1 by done. exists c. split; [done|]. split; [eapply tracks_later; [done|lia|lia]|]. done.
  - destruct (H2 Hw) as [k ->]. destruct (degraded_step now born last n (DegradationReason.ResourceLimit k) c Ht Hl Hu Hn) as (c' & avail & -> & T & E & S & _).
    exists c'. split; [done|]. split; [done|]. split; [done|]. split; [done|]. intros _. by exists k, avail.
Qed.
Lemma read_state_step now born last n c : tracks born last n c -> last <= now -> now - born <= usize_max -> 0 <= n < usize_max ->
  exists c', read_state now c = Ret (state c', c') /\ tracks born now (n + 1) c' /\
    index c' = (take_resource_limit_rejection (index c)).2 /\ limits c' = limits c /\ metrics c' = metrics c /\
    ((take_resource_limit_rejection (index c)).1 = None -> c' = c) /\
    (forall k, (take_resource_limit_rejection (index c)).1 = Some k -> exists avail, state c' = Degraded (DegradationReason.ResourceLimit k) avail now).
Proof using Type*.
  intros Ht Hl Hu Hn. unfold read_state. pose proof (take_None (index c)) as Hnone. pose proof (fits_take _ (tr_fits _ _ _ _ Ht)) as Hf.
  destruct (take_resource_limit_rejection (index c)) as [[k|] i] eqn:Et; simpl in *.
  - destruct (degraded_step now born last n (DegradationReason.ResourceLimit k) (set_index i c)) as (c' & avail & -> & T & (E1 & E2 & E3 & E4) & S & _); [by apply tracks_set_index|done..|].
    cbn [mbind outcome_bind]. exists c'. split; [done|]. split; [done|]. split; [done|]. split; [done|]. split; [done|]. split; [done|]. intros ? [= ->]. by exists avail.
  - rewrite Hnone by done. cbn [mbind outcome_bind]. assert (Es : set_index (index c) c = c) by (by destruct c). rewrite Es. exists c. split; [done|].
    split; [eapply tracks_later; [done|lia|lia]|]. done.
Qed.
Lemma building_step now born last n c p p' ic tc st ic' tc' (m : outcome IndexInstrumentation) :
  tracks born last n c -> last <= now -> now - born <= usize_max -> 0 <= n < usize_max -> state c = Building p ic tc st ->
  m = record_phase_change now p p' (instrumentation c) ->
  exists c', (ins ← m; mret (set_state (Building p' ic' tc' st) ins c)) = Ret c' /\ tracks born now (n + 1) c' /\ same_env c c' /\ state c' = Building p' ic' tc' st.
Proof using Type.
  intros [Ha Hs Hp Hpend Hfit] Hl Hu Hn Hst ->. rewrite Hst in Hs, Hp. simpl in Hs, Hp. unfold record_phase_change. destruct (bool_decide (p = p')) eqn:Ed.
  - apply bool_decide_eq_true in Ed as <-. cbn [mbind outcome_bind]. eexists. split; [reflexivity|]. split; [|done]. split; try done; simpl; [eapply accounts_later; [eassumption|lia|lia]|lia].
  - destruct (record_phase_accounts now born last n p p' _ Ha Hl Hu Hn) as (ins & -> & Ai & Es & Ep). cbn [mbind outcome_bind]. eexists. split; [reflexivity|]. split; [|done].
    split; try done; simpl; [by rewrite Es, Hs|lia].
Qed.
Lemma start_step now born last n c to total : tracks born last n c -> last <= now -> now - born <= usize_max -> 0 <= n -> n + 1 < usize_max ->
  exists c', start_building now to total c = Ret c' /\ tracks born now (n + 2) c' /\ same_env c c' /\ state c' = Building to 0 total now.
Proof using Type.
  intros Ht Hl Hu Hn Hn'. unfold start_building. destruct (record_state_step now born last n c (Building to 0 total now) Ht Hl Hu) as (ins & Er & _ & Ai & Es); [lia|].
  simpl in Er. rewrite Er. cbn [mbind outcome_bind]. destruct (record_phase_accounts now born now (n + 1) IndexPhase.Idle to ins Ai) as (ins' & -> & Ai' & Es' & Ep'); [lia|lia|lia|].
  cbn [mbind outcome_bind]. eexists. split; [reflexivity|]. split; [|done]. replace (n + 2) with (n + 1 + 1) by lia. destruct Ht as [_ _ _ Hpend Hfit].
  split; try done; simpl; [by rewrite Es', Es|lia].
Qed.
Lemma ready_step now born last n c fc sc : tracks born last n c -> last <= now -> now - born <= usize_max -> 0 <= n -> n + 1 < usize_max ->
  exists c', transition_to_ready now fc sc c = Ret c' /\ tracks born now (n + 2) c' /\ same_env c c' /\
    (within_limits (limits c) (index c) -> state c' = Ready sc fc now) /\
    (~ within_limits (limits c) (index c) -> exists k avail, state c' = Degraded (DegradationReason.ResourceLimit k) avail now).
Proof using Type*.
  intros Ht Hl Hu Hn Hn'. unfold transition_to_ready. destruct (record_state_step now born last n c (Ready sc fc now) Ht Hl Hu) as (ins & Er & Hi & _); [lia|].
  simpl in Er. rewrite Er. cbn [mbind outcome_bind]. destruct (enforce_step now born now (n + 1) (set_state (Ready sc fc now) ins c)) as (c' & -> & T & E & H1 & H2); [by apply Hi|lia..|].
  exists c'. split; [done|]. replace (n + 2) with (n + 1 + 1) by lia. split; [done|]. split; [done|]. split; [|done]. intros Hw. by rewrite (H1 Hw).
Qed.
Lemma pending_step born last n c m : tracks born last n c -> 0 <= pending_parses m <= n + 1 -> tracks born last (n + 1) (set_metrics m c).
Proof using Type. intros [] Hm. split; try done. eapply accounts_later; [eassumption|lia|lia]. Qed.
Lemma change_step now born last n c : tracks born last n c -> last <= now -> now - born <= usize_max -> 0 <= n -> n + 1 < usize_max ->
  exists c', notify_change now c = Ret c' /\ tracks born now (n + 2) c' /\ index c' = index c /\ limits c' = limits c /\
    metrics c' = with_pending (metrics c) (pending_parses (metrics c) + 1) /\
    (pending_parses (metrics c) < parse_storm_threshold (metrics c) -> state c' = state c) /\
    (parse_storm_threshold (metrics c) <= pending_parses (metrics c) ->
     exists avail, state c' = Degraded (DegradationReason.ParseStorm (pending_parses (metrics c) + 1)) avail now).
Proof using Type.
  intros Ht Hl Hu Hn Hn'. pose proof (tr_pending _ _ _ _ Ht). unfold notify_change, increment_pending_parses, usize_add. rewrite arith_Ret by lia. rewrite as_usize_small by lia.
  cbn [mbind outcome_bind metrics set_metrics is_parse_storm with_pending parse_storm_threshold pending_parses].
  set (m := with_pending (metrics c) (pending_parses (metrics c) + 1)). assert (Tm : tracks born last (n + 1) (set_metrics m c)) by (apply pending_step; [done|simpl; lia]).
  unfold is_parse_storm. simpl. destruct (Z.ltb_spec (parse_storm_threshold (metrics c)) (pending_parses (metrics c) + 1)).
  - destruct (degraded_step now born last (n + 1) (DegradationReason.ParseStorm (pending_parses (metrics c) + 1)) _ Tm) as (c' & avail & Ec & T & (E1 & E2 & E3 & E4) & S & _); [lia..|].
    rewrite Ec. exists c'. split; [done|]. replace (n + 2) with (n + 1 + 1) by lia. split; [done|]. split; [done|]. split; [done|]. split; [done|]. split; [lia|]. intros _. by exists avail.
  - eexists. split; [reflexivity|]. split; [eapply tracks_later; [exact Tm|lia|lia]|]. split; [done|]. split; [done|]. split; [done|]. split; [done|lia].
Qed.
(** What the last completed parse makes of a state: a storm is over. *)
Definition recovered (now : Z) (s : IndexState) : IndexState :=
  match s with Degraded (DegradationReason.ParseStorm _) _ _ => Building IndexPhase.Idle 0 0 now | _ => s end.
Lemma recover_step now born last n c : tracks born last n c -> last <= now -> now - born <= usize_max -> 0 <= n < usize_max ->
  exists c', (match state c with
    | Degraded (DegradationReason.ParseStorm _) _ _ =>
      i ← record_state_transition now (kind (state c)) IndexStateKind.Building (instrumentation c);
      mret (set_state (Building IndexPhase.Idle 0 0 now) i c)
    | _ => mret c
    end) = Ret c' /\ tracks born now (n + 1) c' /\ same_env c c' /\ state c' = recovered now (state c).
Proof using Type.
  intros Ht Hl Hu Hn. destruct (record_state_step now born last n c (Building IndexPhase.Idle 0 0 now) Ht Hl Hu Hn) as (ins & Er & Hi & _).
  assert (Hsame : tracks born now (n + 1) c) by (eapply tracks_later; [exact Ht|lia|lia]).
  destruct (state c) as [| |[] avail since] eqn:Es; try (exists c; by rewrite ?Es). simpl in Er. cbn [kind]. rewrite Er. cbn [mbind outcome_bind].
  eexists. split; [reflexivity|]. split; [by apply Hi|done].
Qed.
Lemma complete_step now born last n c : tracks born last n c -> last <= now -> now - born <= usize_max -> 0 <= n -> n + 2 < usize_max ->
  let d := decrement_pending_parses (metrics c) in
  exists c', notify_parse_complete now c = Ret c' /\ tracks born now (n + 3) c' /\ limits c' = limits c /\ metrics c' = d.2 /\
    index c' = (if d.1 =? 0 then (take_resource_limit_rejection (index c)).2 else index c) /\
    (within_limits (limits c) (index c) -> (take_resource_limit_rejection (index c)).1 = None ->
     state c' = if d.1 =? 0 then recovered now (state c) else state c).
Proof using Type*.
  intros Ht Hl Hu Hn Hn' d. pose proof (tr_pending _ _ _ _ Ht) as Hp. unfold notify_parse_complete. fold d.
  assert (Hm : 0 <= pending_parses d.2 <= n) by (unfold d, decrement_pending_parses; destruct (Z.leb_spec 1 (pending_parses (metrics c))); simpl; lia).
  clearbody d. destruct d as [pending m]. cbn [fst snd] in *.
  assert (T0 : tracks born last n (set_metrics m c)) by (by destruct Ht; split).
  match goal with |- exists c', (?x ≫= _) = _ /\ _ => assert (exists c1, x = Ret c1 /\ tracks born now (n + 2) c1 /\ limits c1 = limits c /\ metrics c1 = m /\
      index c1 = (if pending =? 0 then (take_resource_limit_rejection (index c)).2 else index c) /\
      ((take_resource_limit_rejection (index c)).1 = None -> state c1 = if pending =? 0 then recovered now (state c) else state c)) as (c1 & -> & T1 & L1 & M1 & I1 & S1) end.
  { destruct (pending =? 0).
    - destruct (read_state_step now born last n _ T0 Hl Hu) as (c1 & -> & T1 & Ei & El & Em & En & _); [lia|]. cbn [mbind outcome_bind].
      destruct (recover_step now born now (n + 1) c1 T1) as (c2 & E2 & T2 & (F1 & F2 & F3 & F4) & S2); [lia..|]. exists c2. split; [exact E2|].
      replace (n + 2) with (n + 1 + 1) by lia. split; [done|]. rewrite F1, F2, F4, S2. split; [done|]. split; [done|]. split; [done|]. intros Hno. by rewrite En.
    - eexists. split; [reflexivity|]. split; [eapply tracks_later; [exact T0|lia|lia]|]. done. }
  cbn [mbind outcome_bind]. destruct (enforce_step now born now (n + 2) c1 T1) as (c' & -> & T & (E1 & E2 & E3 & E4) & W & _); [lia..|].
  exists c'. split; [done|]. replace (n + 3) with (n + 2 + 1) by lia. split; [done|]. split; [congruence|]. split; [congruence|]. split; [congruence|].
  intros Hw Hno. rewrite W; [by apply S1|]. rewrite L1, I1. destruct (pending =? 0); [|done]. unfold within_limits in *. by rewrite symbol_counts_take.
Qed.

(** ** Runs *)

Definition op_fits (o : op I) : Prop := match o with IndexChanges i => fits i | _ => True end.
(** Takes the state that a step lemma gives, its hypotheses arithmetic. *)
Ltac by_step L :=
  let c' := fresh "c'" in let E := fresh in let T := fresh in
  destruct L as (c' & E & T & _); [first [eassumption|lia|reflexivity|done]..|exists c'; split; [exact E|eapply tracks_later; [exact T|lia|lia]]].
Lemma run_op_tracks now o born last n c : tracks born last n c -> last <= now -> now - born <= usize_max -> 0 <= n -> n + 2 < usize_max -> op_fits o ->
  exists c', run_op now o c = Ret c' /\ tracks born now (n + 3) c'.
Proof using Type*.
  intros Ht Hl Hu Hn Hn' Ho. assert (H0 : tracks born now (n + 3) c) by (eapply tracks_later; [exact Ht|lia|lia]).
  destruct o as [| | |fc sc| |total|total|total|k|r|r e f t|i]; cbn [run_op].
  - destruct (read_state_step now born last n c Ht) as (c' & -> & T & _); [lia..|]. exists c'. split; [done|]. eapply tracks_later; [exact T|lia|lia].
  - by_step (change_step now born last n c Ht).
  - by_step (complete_step now born last n c Ht).
  - by_step (ready_step now born last n c fc sc Ht).
  - unfold transition_to_scanning. destruct (state c) as [p ic tc st| |] eqn:Es.
    + by_step (building_step now born last n c p IndexPhase.Scanning ic tc st ic tc (record_phase_change now p IndexPhase.Scanning (instrumentation c)) Ht).
    + by_step (start_step now born last n c IndexPhase.Scanning 0 Ht).
    + by_step (start_step now born last n c IndexPhase.Scanning 0 Ht).
  - unfold update_scan_progress. destruct (state c) as [p ic tc st| |] eqn:Es; [|by exists c..].
    by_step (building_step now born last n c p IndexPhase.Scanning ic tc st ic total (record_phase_change now p IndexPhase.Scanning (instrumentation c)) Ht).
  - unfold transition_to_indexing. destruct (state c) as [p ic tc st| |] eqn:Es.
    + by_step (building_step now born last n c p IndexPhase.Indexing ic tc st ic total (record_phase_change now p IndexPhase.Indexing (instrumentation c)) Ht).
    + by_step (start_step now born last n c IndexPhase.Indexing total Ht).
    + by_step (start_step now born last n c IndexPhase.Indexing total Ht).
  - unfold transition_to_building. destruct (state c) as [p ic tc st| |] eqn:Es.
    + assert (Hm : (if bool_decide (p = IndexPhase.Idle) then record_phase_transition now IndexPhase.Idle IndexPhase.Indexing (instrumentation c) else mret (instrumentation c)) =
        record_phase_change now p (if bool_decide (p = IndexPhase.Idle) then IndexPhase.Indexing else p) (instrumentation c)) by (by destruct p).
      by_step (building_step now born last n c p (if bool_decide (p = IndexPhase.Idle) then IndexPhase.Indexing else p) ic tc st ic total _ Ht Hl Hu ltac:(lia) Es Hm).
    + by_step (start_step now born last n c IndexPhase.Indexing total Ht).
    + by_step (start_step now born last n c IndexPhase.Indexing total Ht).
  - unfold update_building_progress. destruct (state c) as [p ic tc st| |] eqn:Es; [|by exists c..]. destruct (_ <? _).
    + destruct (degraded_step now born last n (DegradationReason.ScanTimeout (millis_since now st)) c Ht) as (c' & a & -> & T & _); [lia..|].
      exists c'. split; [done|]. eapply tracks_later; [exact T|lia|lia].
    + eexists. split; [reflexivity|]. destruct H0 as [H1 H2 H3 H4 H5]. rewrite Es in H2, H3. by split.
  - destruct (degraded_step now born last n r c Ht) as (c' & a & -> & T & _); [lia..|]. exists c'. split; [done|]. eapply tracks_later; [exact T|lia|lia].
  - unfold early_exit. destruct Ht as [H1 H2 H3 H4 H5]. destruct (record_exit_accounts (mkExit r e f t) born last n _ H1) as (ins & -> & Ai & E1 & E2); [lia|].
    cbn [mbind outcome_bind]. eexists. split; [reflexivity|]. split; simpl; [eapply accounts_later; [exact Ai|lia|lia]|congruence|congruence|lia|done].
  - eexists. split; [reflexivity|]. by apply tracks_set_index.
Qed.
(** The operations run at times that do not decrease. *)
Fixpoint in_order (last until : Z) (ts : list Z) : Prop :=
  match ts with [] => last <= until | t :: ts => last <= t /\ in_order t until ts end.
Lemma in_order_until last until ts : in_order last until ts -> last <= until.
Proof using Type. revert last. induction ts as [|t ts IH]; intros last; simpl; [done|]. intros [? ?%IH]. lia. Qed.
Lemma in_order_app last until ts1 ts2 : in_order last until (ts1 ++ ts2) -> in_order last until ts1 /\ exists mid, in_order last mid ts1 /\ in_order mid until ts2.
Proof using Type.
  revert last. induction ts1 as [|t ts1 IH]; intros last; simpl.
  - intros Ho. split; [by eapply in_order_until|]. exists last. split; [lia|done].
  - intros [? Ho]. destruct (IH _ Ho) as (? & mid & ? & ?). split; [done|]. by exists mid.
Qed.
Lemma run_tracks born until os : forall last n c, tracks born last n c -> in_order last until os.*1 -> until - born <= usize_max ->
  0 <= n -> n + 3 * len os <= usize_max -> Forall (fun x => op_fits x.2) os ->
  exists c', run os c = Ret c' /\ tracks born until (n + 3 * len os) c'.
Proof using Type*.
  induction os as [|[t o] os IH]; intros last n c Ht Ho Hu Hn Hlen Hf; simpl in Ho.
  - exists c. split; [done|]. eapply tracks_later; [exact Ht|done|unfold len; simpl; lia].
  - destruct Ho as [Hl Ho]. apply Forall_cons in Hf as [Hf1 Hf]. rewrite len_cons in *. pose proof (len_nonneg os). pose proof (in_order_until _ _ _ Ho).
    cbn [run]. destruct (run_op_tracks t o born last n c Ht) as (c1 & -> & T1); [lia..|exact Hf1|]. cbn [mbind outcome_bind].
    destruct (IH t (n + 3) c1 T1 Ho Hu) as (c' & -> & T'); [lia|lia|done|]. exists c'. split; [done|]. replace (n + 3 * (1 + len os)) with (n + 3 + 3 * len os) by lia. done.
Qed.
Lemma with_limits_tracks now index lim cps : fits (index lim) -> tracks now now 0 (with_limits_and_caps now index lim cps).
Proof using Type. intros Hf. split; simpl; try done. apply accounts_new. Qed.

(** What a reachable coordinator is: some operations, in order, from a new one. *)
Record history (born until : Z) (lim : IndexResourceLimits) (os : list (Z * op I)) : Prop := mkHistory {
  hist_order : in_order born until os.*1;
  hist_span : until - born <= usize_max;
  hist_len : 3 * len os + 6 <= usize_max;
  hist_fits : Forall (fun x => op_fits x.2) os;
}.

(** C17. Over any history of the coordinator nothing overflows, and its
    instrumentation tells the truth: the recorded state and phase are the
    actual ones, every kind was entered as often as it was left (the first
    and the current one apart), and the milliseconds that a snapshot reports
    for the states add up to the life of the coordinator, short of at most one
    for every transition and one for the current stretch. *)
Theorem lifecycle_is_accounted born until index lim cps os : fits (index lim) -> history born until lim os ->
  exists c, run os (with_limits_and_caps born index lim cps) = Ret c /\
    current_state (instrumentation c) = kind (state c) /\
    current_phase (instrumentation c) = default IndexPhase.Idle (phase (state c)) /\
    (forall k, inflow (state_transition_counts (instrumentation c)) k + ind (k = IndexStateKind.Building) =
      outflow (state_transition_counts (instrumentation c)) k + ind (k = kind (state c))) /\
    exists s, snapshot until (instrumentation c) = Ret s /\ snap_state_transition_counts s = state_transition_counts (instrumentation c) /\
      1000000 * sum_at (snap_state_durations_ms s) kinds <= until - born <
      1000000 * (sum_at (snap_state_durations_ms s) kinds + transitions (state_transition_counts (instrumentation c)) + 1).
Proof using Type*.
  intros Hf [Ho Hu Hn Hfs]. destruct (run_tracks born until os born 0 _ (with_limits_tracks born index lim cps Hf) Ho Hu) as (c & -> & T); [lia|lia|done|].
  exists c. split; [done|]. destruct T as [Ha Hs Hp _ _]. split; [done|]. split; [done|]. split; [rewrite <-Hs; apply Ha|]. eapply snapshot_spec; [exact Ha|lia|done].
Qed.

(** A coordinator never becomes ready over its limits: whatever happened
    before, completing a scan makes it Ready with the given counts when the
    index holds at most the allowed files and symbols, and Degraded for a
    resource limit otherwise; only a ready coordinator answers full queries. *)
Theorem ready_within_limits born until index lim cps os file_count symbol_count :
  fits (index lim) -> history born until lim os ->
  exists c c', run os (with_limits_and_caps born index lim cps) = Ret c /\ transition_to_ready until file_count symbol_count c = Ret c' /\
    (within_limits (limits c) (Coordinator.index c) -> state c' = Ready symbol_count file_count until) /\
    (~ within_limits (limits c) (Coordinator.index c) -> exists k avail, state c' = Degraded (DegradationReason.ResourceLimit k) avail until) /\
    (forall (T : Type) (full partial : I -> T), exists answer c'', query until full partial c' = Ret (answer, c'') /\
      answer = match state c'' with Ready _ _ _ => full (Coordinator.index c'') | _ => partial (Coordinator.index c'') end).
Proof using Type*.
  intros Hf [Ho Hu Hn Hfs]. pose proof (len_nonneg os).
  destruct (run_tracks born until os born 0 _ (with_limits_tracks born index lim cps Hf) Ho Hu) as (c & -> & T); [lia|lia|done|].
  destruct (ready_step until born until _ c file_count symbol_count T) as (c' & Er & T' & _ & H1 & H2); [lia..|].
  exists c, c'. split; [done|]. split; [done|]. split; [done|]. split; [done|]. intros A full partial. unfold query.
  destruct (read_state_step until born until _ c' T') as (c'' & -> & _); [lia..|]. cbn [mbind outcome_bind]. eexists _, c''. split; [reflexivity|]. done.
Qed.

(** ** Parse storms *)

Lemma changes_run born until ts : forall last n c, tracks born last n c -> in_order last until ts -> until - born <= usize_max -> 0 <= n -> n + 3 * len ts <= usize_max ->
  exists c', run ((fun t => (t, NotifyChange)) <$> ts) c = Ret c' /\ tracks born until (n + 3 * len ts) c' /\ index c' = index c /\ limits c' = limits c /\
    metrics c' = with_pending (metrics c) (pending_parses (metrics c) + len ts) /\
    (ts = [] -> state c' = state c) /\
    (ts <> [] -> parse_storm_threshold (metrics c) < pending_parses (metrics c) + len ts ->
     exists avail since, state c' = Degraded (DegradationReason.ParseStorm (pending_parses (metrics c) + len ts)) avail since).
Proof using Type*.
  induction ts as [|t ts IH]; intros last n c Ht Ho Hu Hn Hlen; simpl in Ho.
  - exists c. split; [done|]. split; [eapply tracks_later; [exact Ht|done|unfold len; simpl; lia]|]. split; [done|]. split; [done|]. split; [|done].
    change (len []) with 0. rewrite Z.add_0_r. by destruct c as [? ? ? ? [? ? ?] ?].
  - destruct Ho as [Hl Ho]. rewrite len_cons in *. pose proof (len_nonneg ts). pose proof (in_order_until _ _ _ Ho). cbn [fmap list_fmap run run_op].
    destruct (change_step t born last n c Ht) as (c1 & -> & T1 & I1 & L1 & M1 & _ & S1); [lia..|]. cbn [mbind outcome_bind].
    destruct (IH t (n + 3) c1) as (c' & -> & T' & I' & L' & M' & Q' & S'); [eapply tracks_later; [exact T1|lia|lia]|done|done|lia|lia|]. exists c'. split; [done|].
    replace (n + 3 * (1 + len ts)) with (n + 3 + 3 * len ts) by lia. split; [done|]. split; [congruence|]. split; [congruence|]. rewrite M1 in *. cbn [pending_parses parse_storm_threshold with_pending] in *.
    rewrite Z.add_assoc. split; [done|]. split; [done|]. intros _ Hstorm. destruct ts as [|t' ts]; [|by apply S'].
    change (len []) with 0 in *. rewrite Z.add_0_r in *. destruct S1 as [avail S1]; [lia|]. exists avail, t. by rewrite Q'.
Qed.
Lemma completions_run born until ts : forall last n c, tracks born last n c -> in_order last until ts -> until - born <= usize_max -> 0 <= n -> n + 3 * len ts <= usize_max ->
  within_limits (limits c) (index c) -> (take_resource_limit_rejection (index c)).1 = None ->
  ts <> [] -> pending_parses (metrics c) = len ts -> forall p avail since, state c = Degraded (DegradationReason.ParseStorm p) avail since ->
  exists c' t, run ((fun t => (t, NotifyParseComplete)) <$> ts) c = Ret c' /\ list.last ts = Some t /\ state c' = Building IndexPhase.Idle 0 0 t /\
    metrics c' = with_pending (metrics c) 0 /\ index c' = index c.
Proof using Type*.
  induction ts as [|t ts IH]; intros last n c Ht Ho Hu Hn Hlen Hw Hno Hne Hp p avail since Hs; simpl in Ho; [done|].
  destruct Ho as [Hl Ho]. rewrite len_cons in *. pose proof (len_nonneg ts). pose proof (in_order_until _ _ _ Ho). cbn [fmap list_fmap run run_op].
  destruct (complete_step t born last n c Ht) as (c1 & -> & T1 & L1 & M1 & I1 & S1); [lia..|]. cbn [mbind outcome_bind].
  specialize (S1 Hw Hno). unfold decrement_pending_parses in *. rewrite Hp in *. destruct (Z.leb_spec 1 (1 + len ts)); [|lia]. cbn [fst snd] in *.
  unfold saturating_sub in *. replace (Z.max 0 (1 + len ts - 1)) with (len ts) in * by lia. replace (1 + len ts - 1) with (len ts) in * by lia.
  destruct ts as [|t' ts].
  - change (len [] =? 0) with true in *. cbn match in *. exists c1, t. split; [done|]. split; [done|]. rewrite S1, Hs. split; [done|]. split; [done|]. rewrite I1. by apply take_None.
  - destruct (Z.eqb_spec (len (t' :: ts)) 0) as [E0|E0]; [rewrite len_cons in E0; pose proof (len_nonneg ts); lia|].
    destruct (IH t (n + 3) c1) with (p := p) (avail := avail) (since := since) as (c' & t'' & -> & Hlast & S' & M' & I'); try done; try lia; [by rewrite L1, I1|by rewrite I1|by rewrite M1|by rewrite S1|].
    exists c', t''. split; [done|]. split; [done|]. split; [done|]. split; [|congruence]. by rewrite M', M1.
Qed.

(** C18. A parse storm passes.  From any history whose pending parses are all
    done, within the resource limits and with no refused admission, more
    changes than the threshold degrade the index for a parse storm, and once
    as many parses have completed the coordinator is back at the start of a
    build. *)
Theorem parse_storm_passes born mid until index lim cps os changes completions c :
  fits (index lim) -> history born mid lim os -> run os (with_limits_and_caps born index lim cps) = Ret c ->
  pending_parses (metrics c) = 0 -> within_limits (limits c) (Coordinator.index c) -> (take_resource_limit_rejection (Coordinator.index c)).1 = None ->
  in_order mid until (changes ++ completions) -> until - born <= usize_max -> 3 * (len os + len changes + len completions) + 6 <= usize_max ->
  len changes = len completions -> changes <> [] -> parse_storm_threshold (metrics c) < len changes ->
  exists c1 c2 avail since t,
    run ((fun t => (t, NotifyChange)) <$> changes) c = Ret c1 /\ state c1 = Degraded (DegradationReason.ParseStorm (len changes)) avail since /\
    run ((fun t => (t, NotifyParseComplete)) <$> completions) c1 = Ret c2 /\ list.last completions = Some t /\
    state c2 = Building IndexPhase.Idle 0 0 t /\ pending_parses (metrics c2) = 0.
Proof using Type*.
  intros Hf [Ho Hu Hn Hfs] Er Hp Hw Hno Hio Hu' Hlen Heq Hne Hth. pose proof (len_nonneg os). pose proof (len_nonneg changes).
  destruct (run_tracks born mid os born 0 _ (with_limits_tracks born index lim cps Hf) Ho Hu) as (c0 & Er' & T); [lia|lia|done|].
  rewrite Er in Er'. injection Er' as <-.
  apply in_order_app in Hio as (_ & m & Ho1 & Ho2). pose proof (in_order_until _ _ _ Ho2).
  destruct (changes_run born m changes mid _ c T Ho1) as (c1 & E1 & T1 & I1 & L1 & M1 & _ & S1); [lia..|]. rewrite Hp in *. destruct S1 as (avail & since & S1); [done|lia|].
  destruct (completions_run born until completions m _ c1 T1 Ho2) with (p := 0 + len changes) (avail := avail) (since := since) as (c2 & t & E2 & Hlast & S2 & M2 & _);
    try done; try lia; [by rewrite L1, I1|by rewrite I1|intros ->; change (len []) with 0 in *; destruct changes; [done|rewrite len_cons in *; pose proof (len_nonneg changes); lia]|by rewrite M1|].
  exists c1, c2, avail, since, t. split; [done|]. split; [done|]. split; [done|]. split; [done|]. split; [done|]. by rewrite M2.
Qed.
End laws.

(** ** At concrete inputs *)

(** An index of known file sizes. *)
Definition SizedIndex : Type := list nat * option ResourceKind.
#[local] Instance sized_ops : WorkspaceIndexOps SizedIndex :=
  {| symbol_counts i := Z.of_nat <$> i.1; take_resource_limit_rejection i := (i.2, (i.1, None)) |}.
#[local] Instance sized_laws : WorkspaceIndexLaws SizedIndex.
Proof. split; try done; [intros i; apply Forall_fmap, Forall_true; intros n; simpl; lia|]. by intros [l o] [= ->]. Qed.
Definition tiny : IndexResourceLimits := mkLimits 2 10 5 0 0 30000.
Definition tiny_history : list (Z * op SizedIndex) :=
  [(1000000, ToScanning); (2000000, ScanProgress 2); (3000000, ToIndexing 2); (4000000, IndexChanges ([2; 3]%nat, None)); (5000000, BuildingProgress 2)].
Lemma tiny_history_ok lim : history 0 6000000 lim tiny_history.
Proof. split; [repeat split; vm_compute; discriminate|vm_compute; discriminate|vm_compute; discriminate|repeat constructor; vm_compute; discriminate]. Defined.
Lemma lifecycle_is_accounted_witness : exists c, run tiny_history (with_limits_and_caps 0 (fun _ => ([], None)) tiny caps_default) = Ret c /\
  current_state (instrumentation c) = kind (state c) /\
  current_phase (instrumentation c) = default IndexPhase.Idle (phase (state c)) /\
  (forall k, inflow (state_transition_counts (instrumentation c)) k + ind (k = IndexStateKind.Building) =
    outflow (state_transition_counts (instrumentation c)) k + ind (k = kind (state c))) /\
  exists s, snapshot 6000000 (instrumentation c) = Ret s /\ snap_state_transition_counts s = state_transition_counts (instrumentation c) /\
    1000000 * sum_at (snap_state_durations_ms s) kinds <= 6000000 - 0 <
    1000000 * (sum_at (snap_state_durations_ms s) kinds + transitions (state_transition_counts (instrumentation c)) + 1).
Proof. apply lifecycle_is_accounted; [vm_compute; discriminate|apply tiny_history_ok]. Defined.
Lemma ready_within_limits_witness : exists c c', run tiny_history (with_limits_and_caps 0 (fun _ => ([], None)) tiny caps_default) = Ret c /\ transition_to_ready 6000000 2 5 c = Ret c' /\
  (within_limits (limits c) (Coordinator.index c) -> state c' = Ready 5 2 6000000) /\
  (~ within_limits (limits c) (Coordinator.index c) -> exists k avail, state c' = Degraded (DegradationReason.ResourceLimit k) avail 6000000) /\
  (forall (T : Type) (full partial : SizedIndex -> T), exists answer c'', query 6000000 full partial c' = Ret (answer, c'') /\
    answer = match state c'' with Ready _ _ _ => full (Coordinator.index c'') | _ => partial (Coordinator.index c'') end).
Proof. apply ready_within_limits; [vm_compute; discriminate|apply tiny_history_ok]. Defined.
Definition after {A} (d : A) (m : outcome A) : A := match m with Ret a => a | Panic => d end.
Definition tiny_after : IndexCoordinator SizedIndex :=
  after (with_limits_and_caps 0 (fun _ => ([], None)) tiny caps_default) (run tiny_history (with_limits_and_caps 0 (fun _ => ([], None)) tiny caps_default)).
Lemma parse_storm_passes_witness : exists c1 c2 avail since t,
  run ((fun t => (t, NotifyChange)) <$> replicate 11 6000001) tiny_after = Ret c1 /\ state c1 = Degraded (DegradationReason.ParseStorm (len (replicate 11 6000001))) avail since /\
  run ((fun t => (t, NotifyParseComplete)) <$> replicate 11 6000002) c1 = Ret c2 /\ list.last (replicate 11 6000002) = Some t /\
  state c2 = Building IndexPhase.Idle 0 0 t /\ pending_parses (metrics c2) = 0.
Proof.
  apply (parse_storm_passes 0 6000000 6000002 (fun _ => ([], None)) tiny caps_default tiny_history); try reflexivity; try (vm_compute; discriminate); try apply tiny_history_ok.
  - split; vm_compute; discriminate.
  - repeat split; vm_compute; discriminate.
Defined.

(** Progress of a scan that is already indexing takes the phase back. *)
Example scan_progress_regresses_phase :
  phase (state (after tiny_after (update_scan_progress 7000000 3 tiny_after))) = Some IndexPhase.Scanning /\ phase (state tiny_after) = Some IndexPhase.Indexing.
Proof. split; reflexivity. Qed.
(** A coordinator that was ready already counts a transition to Ready. *)
Example ready_to_ready_is_counted :
  (fun c => at_ (state_transition_counts (instrumentation c)) (IndexStateKind.Ready, IndexStateKind.Ready)) <$>
    run [(6000000, ToReady 2 5); (7000000, ToReady 2 5)] tiny_after = Ret 1.
Proof. reflexivity. Qed.
