(* ===== verification/IndexMachine.v ===== *)
(** * The extended index state machine (perl-workspace/src/state_machine/mod.rs)

    Eight states behind one lock, the guarded transitions between them and the
    progress updates.  An operation takes the instant at which it runs.
    Proved: every operation follows one transition table, a refused one leaves
    the state as it was and names the kinds it refused, and the state is the
    reading of the log of accepted operations. *)

From stdpp Require Import base numbers list gmap.
From S2P Require Import Prelude.

(** ** States *)

Inductive BuildPhase := PhaseIdle | Scanning | Indexing.
Inductive InvalidationReason := ConfigurationChanged | FileSystemChanged | ManualRequest | CacheCorruption | DependencyChanged.
Inductive ResourceKind := MaxFiles | MaxSymbols | MaxCacheBytes.
Inductive DegradationReason :=
| ParseStorm (pending_parses : Z)
| IoError (message : list Z)
| ScanTimeout (elapsed_ms : Z)
| ResourceLimit (kind : ResourceKind).
Module IndexStateKind.
Inductive t := Idle | Initializing | Building | Updating | Invalidating | Ready | Degraded | Error.
#[export] Instance t_dec : EqDecision t.
Proof. solve_decision. Defined.
End IndexStateKind.
Export (hints) IndexStateKind.
Inductive IndexState :=
| Idle (since : Z)
| Initializing (progress started_at : Z)
| Building (phase : BuildPhase) (indexed_count total_count started_at : Z)
| Updating (updating_count started_at : Z)
| Invalidating (reason : InvalidationReason) (started_at : Z)
| Ready (symbol_count file_count completed_at : Z)
| Degraded (reason : DegradationReason) (available_symbols since : Z)
| Error (message : list Z) (since : Z).
Definition kind (s : IndexState) : IndexStateKind.t :=
  match s with
  | Idle _ => IndexStateKind.Idle
  | Initializing _ _ => IndexStateKind.Initializing
  | Building _ _ _ _ => IndexStateKind.Building
  | Updating _ _ => IndexStateKind.Updating
  | Invalidating _ _ => IndexStateKind.Invalidating
  | Ready _ _ _ => IndexStateKind.Ready
  | Degraded _ _ _ => IndexStateKind.Degraded
  | Error _ _ => IndexStateKind.Error
  end.
Definition is_ready (s : IndexState) : bool := match s with Ready _ _ _ => true | _ => false end.
Definition is_error (s : IndexState) : bool := match s with Error _ _ => true | _ => false end.
Definition is_transitional (s : IndexState) : bool :=
  match s with Initializing _ _ | Building _ _ _ _ | Updating _ _ | Invalidating _ _ => true | _ => false end.
Definition state_started_at (s : IndexState) : Z :=
  match s with
  | Idle t | Initializing _ t | Building _ _ _ t | Updating _ t | Invalidating _ t | Ready _ _ t | Degraded _ _ t | Error _ t => t
  end.

Inductive TransitionResult :=
| Success
| InvalidTransition (from to : IndexStateKind.t)
| GuardFailed (condition : list Z).

(** ** Transitions *)

Definition new (now : Z) : IndexState := Idle now.
Definition transition_to_initializing (now : Z) (s : IndexState) : TransitionResult * IndexState :=
  match s with
  | Idle _ | Error _ _ => (Success, Initializing 0 now)
  | _ => (InvalidTransition (kind s) IndexStateKind.Initializing, s)
  end.
Definition transition_to_building (now total_count : Z) (s : IndexState) : TransitionResult * IndexState :=
  match s with
  | Initializing _ _ | Ready _ _ _ | Degraded _ _ _ => (Success, Building PhaseIdle 0 total_count now)
  | _ => (InvalidTransition (kind s) IndexStateKind.Building, s)
  end.
Definition transition_to_updating (now updating_count : Z) (s : IndexState) : TransitionResult * IndexState :=
  match s with
  | Ready _ _ _ | Degraded _ _ _ => (Success, Updating updating_count now)
  | _ => (InvalidTransition (kind s) IndexStateKind.Updating, s)
  end.
Definition transition_to_invalidating (now : Z) (reason : InvalidationReason) (s : IndexState) : TransitionResult * IndexState :=
  match s with
  | Initializing _ _ | Building _ _ _ _ | Updating _ _ | Invalidating _ _ => (InvalidTransition (kind s) IndexStateKind.Invalidating, s)
  | _ => (Success, Invalidating reason now)
  end.
Definition transition_to_ready (now file_count symbol_count : Z) (s : IndexState) : TransitionResult * IndexState :=
  match s with
  | Building _ _ _ _ | Updating _ _ | Invalidating _ _ | Degraded _ _ _ => (Success, Ready symbol_count file_count now)
  | Ready _ _ _ => (Success, Ready symbol_count file_count now)
  | _ => (InvalidTransition (kind s) IndexStateKind.Ready, s)
  end.
Definition transition_to_degraded (now : Z) (reason : DegradationReason) (s : IndexState) : TransitionResult * IndexState :=
  let available_symbols := match s with Ready n _ _ => n | Degraded _ n _ => n | _ => 0 end in
  match s with
  | Error _ _ => (InvalidTransition (kind s) IndexStateKind.Degraded, s)
  | _ => (Success, Degraded reason available_symbols now)
  end.
Definition transition_to_error (now : Z) (message : list Z) (s : IndexState) : TransitionResult * IndexState := (Success, Error message now).
Definition transition_to_idle (now : Z) (s : IndexState) : TransitionResult * IndexState := (Success, Idle now).
Definition update_building_progress (indexed_count : Z) (phase : BuildPhase) (s : IndexState) : TransitionResult * IndexState :=
  match s with
  | Building _ _ total_count started_at => (Success, Building phase indexed_count total_count started_at)
  | _ => (InvalidTransition (kind s) IndexStateKind.Building, s)
  end.
Definition update_initialization_progress (progress : Z) (s : IndexState) : TransitionResult * IndexState :=
  match s with
  | Initializing _ started_at => (Success, Initializing (Z.min progress 100) started_at)
  | _ => (InvalidTransition (kind s) IndexStateKind.Initializing, s)
  end.

(** ** The transition table *)

Inductive op :=
| ToInitializing
| ToBuilding (total_count : Z)
| ToUpdating (updating_count : Z)
| ToInvalidating (reason : InvalidationReason)
| ToReady (file_count symbol_count : Z)
| ToDegraded (reason : DegradationReason)
| ToError (message : list Z)
| ToIdle
| BuildingProgress (indexed_count : Z) (phase : BuildPhase)
| InitializationProgress (progress : Z).
Definition run_op (now : Z) (o : op) : IndexState -> TransitionResult * IndexState :=
  match o with
  | ToInitializing => transition_to_initializing now
  | ToBuilding n => transition_to_building now n
  | ToUpdating n => transition_to_updating now n
  | ToInvalidating r => transition_to_invalidating now r
  | ToReady f s => transition_to_ready now f s
  | ToDegraded r => transition_to_degraded now r
  | ToError m => transition_to_error now m
  | ToIdle => transition_to_idle now
  | BuildingProgress n p => update_building_progress n p
  | InitializationProgress p => update_initialization_progress p
  end.
(** Where an operation leads, and from which kinds it may start. *)
Definition target (o : op) : IndexStateKind.t :=
  match o with
  | ToInitializing | InitializationProgress _ => IndexStateKind.Initializing
  | ToBuilding _ | BuildingProgress _ _ => IndexStateKind.Building
  | ToUpdating _ => IndexStateKind.Updating
  | ToInvalidating _ => IndexStateKind.Invalidating
  | ToReady _ _ => IndexStateKind.Ready
  | ToDegraded _ => IndexStateKind.Degraded
  | ToError _ => IndexStateKind.Error
  | ToIdle => IndexStateKind.Idle
  end.
Definition sources (o : op) : list IndexStateKind.t :=
  match o with
  | ToInitializing => [IndexStateKind.Idle; IndexStateKind.Error]
  | ToBuilding _ => [IndexStateKind.Initializing; IndexStateKind.Ready; IndexStateKind.Degraded]
  | ToUpdating _ => [IndexStateKind.Ready; IndexStateKind.Degraded]
  | ToInvalidating _ => [IndexStateKind.Idle; IndexStateKind.Ready; IndexStateKind.Degraded; IndexStateKind.Error]
  | ToReady _ _ => [IndexStateKind.Building; IndexStateKind.Updating; IndexStateKind.Invalidating; IndexStateKind.Ready; IndexStateKind.Degraded]
  | ToDegraded _ => [IndexStateKind.Idle; IndexStateKind.Initializing; IndexStateKind.Building; IndexStateKind.Updating; IndexStateKind.Invalidating;
      IndexStateKind.Ready; IndexStateKind.Degraded]
  | ToError _ | ToIdle => [IndexStateKind.Idle; IndexStateKind.Initializing; IndexStateKind.Building; IndexStateKind.Updating; IndexStateKind.Invalidating;
      IndexStateKind.Ready; IndexStateKind.Degraded; IndexStateKind.Error]
  | BuildingProgress _ _ => [IndexStateKind.Building]
  | InitializationProgress _ => [IndexStateKind.Initializing]
  end.
(** An operation that enters its target, unlike a progress update. *)
Definition enters (o : op) : bool := match o with BuildingProgress _ _ | InitializationProgress _ => false | _ => true end.

(** Every operation follows one table: from the kinds it accepts it
    succeeds, ends in its target kind, and the new state began now (a progress
    update keeps the beginning of the state it updates); from any other kind
    it changes nothing and reports the kind it met and the kind it was for. *)
Theorem machine_follows_table now o s :
  if bool_decide (kind s ∈ sources o)
  then (run_op now o s).1 = Success /\ kind (run_op now o s).2 = target o /\
    state_started_at (run_op now o s).2 = (if enters o then now else state_started_at s)
  else run_op now o s = (InvalidTransition (kind s) (target o), s).
Proof. destruct o, s; vm_compute; auto. Qed.

(** ** The state is what was accepted *)

Definition run (os : list (Z * op)) (s : IndexState) : IndexState := foldl (fun s x => (run_op x.1 x.2 s).2) s os.

(** The operations that are accepted, newest first: the table alone tells,
    from the kind that the accepted ones before left. *)
Definition kind_of (log : list (Z * op)) : IndexStateKind.t :=
  match log with [] => IndexStateKind.Idle | (_, o) :: _ => target o end.
Definition admits (log : list (Z * op)) (o : op) : bool := bool_decide (kind_of log ∈ sources o).
Definition log_step (log : list (Z * op)) (x : Z * op) : list (Z * op) := if admits log x.2 then x :: log else log.
Definition accepted (os : list (Z * op)) : list (Z * op) := foldl log_step [] os.

(** What a log says.  Degradations pass on the count of the ready state they
    followed, however many there were; behind anything else nothing is
    available.  Progress updates are read back to the start they belong to. *)
Fixpoint available (log : list (Z * op)) : Z :=
  match log with
  | (_, ToReady _ n) :: _ => n
  | (_, ToDegraded _) :: log => available log
  | _ => 0
  end.
Fixpoint build_start (log : list (Z * op)) : Z * Z :=
  match log with
  | (_, BuildingProgress _ _) :: log => build_start log
  | (t, ToBuilding total) :: _ => (total, t)
  | _ => (0, 0)
  end.
Fixpoint initializing_since (log : list (Z * op)) : Z :=
  match log with
  | (_, InitializationProgress _) :: log => initializing_since log
  | (t, _) :: _ => t
  | [] => 0
  end.
Definition state_of (born : Z) (log : list (Z * op)) : IndexState :=
  match log with
  | [] => Idle born
  | (t, o) :: before =>
    match o with
    | ToIdle => Idle t
    | ToInitializing => Initializing 0 t
    | InitializationProgress p => Initializing (Z.min p 100) (initializing_since before)
    | ToBuilding total => Building PhaseIdle 0 total t
    | BuildingProgress n phase => Building phase n (build_start before).1 (build_start before).2
    | ToUpdating n => Updating n t
    | ToInvalidating reason => Invalidating reason t
    | ToReady files symbols => Ready symbols files t
    | ToDegraded reason => Degraded reason (available before) t
    | ToError message => Error message t
    end
  end.

(** A log grows by admitted operations only. *)
Inductive admitted : list (Z * op) -> Prop :=
| admitted_nil : admitted []
| admitted_cons t o log : admits log o = true -> admitted log -> admitted ((t, o) :: log).
Lemma accepted_snoc os x : accepted (os ++ [x]) = log_step (accepted os) x.
Proof. unfold accepted. by rewrite foldl_app. Qed.
Lemma accepted_admitted os : admitted (accepted os).
Proof.
  induction os as [|[t o] os IH] using rev_ind; [constructor|]. rewrite accepted_snoc. unfold log_step. simpl.
  destruct (admits _ _) eqn:E; [by constructor|done].
Qed.
Lemma kind_state_of born log : kind (state_of born log) = kind_of log.
Proof. by destruct log as [|[t []] log]. Qed.
(** An admitted operation leads from the state of a log to that of the log
    with it. *)
Lemma run_op_admitted born t o log : admitted log -> admits log o = true -> run_op t o (state_of born log) = (Success, state_of born ((t, o) :: log)).
Proof.
  intros Hlog Ho. unfold admits in Ho. apply bool_decide_eq_true in Ho.
  destruct Hlog as [|t' o' log Ho' Hlog]; [destruct o; simpl in Ho |- *; first [done|exfalso; set_solver]|].
  destruct o, o'; simpl in Ho |- *; first [done|exfalso; set_solver].
Qed.
Lemma run_op_not_admitted born t o log : admits log o = false -> run_op t o (state_of born log) = (InvalidTransition (kind_of log) (target o), state_of born log).
Proof.
  intros Ho. pose proof (machine_follows_table t o (state_of born log)) as Ht. rewrite kind_state_of in Ht. fold (admits log o) in Ht. by rewrite Ho in Ht.
Qed.
Lemma run_snoc os x s : run (os ++ [x]) s = (run_op x.1 x.2 (run os s)).2.
Proof. unfold run. by rewrite foldl_app. Qed.
Lemma run_is_state_of born os : run os (new born) = state_of born (accepted os).
Proof.
  induction os as [|[t o] os IH] using rev_ind; [done|]. rewrite run_snoc, accepted_snoc, IH. unfold log_step. simpl.
  destruct (admits _ _) eqn:E; [by rewrite (run_op_admitted _ _ _ _ (accepted_admitted os) E)|by rewrite (run_op_not_admitted _ _ _ _ E)].
Qed.


(** ** At concrete inputs *)

(** A parse storm in a degraded state keeps the count of the ready one; a
    refused ready transition leaves no count behind. *)
Example degraded_twice_keeps_count :
  run [(1, ToInitializing); (2, InitializationProgress 200); (3, ToBuilding 4); (4, BuildingProgress 2 Indexing); (5, ToReady 4 9);
       (6, ToDegraded (ParseStorm 11)); (7, ToInitializing); (8, ToDegraded (ScanTimeout 3))] (new 0) = Degraded (ScanTimeout 3) 9 8.
Proof. done. Qed.
Example refused_ready_offers_nothing : run [(1, ToReady 4 9); (2, ToDegraded (ParseStorm 11))] (new 0) = Degraded (ParseStorm 11) 0 2.
Proof. done. Qed.
(** The documented way to Ready (build, then ready, on a new machine) is
    refused at both steps. *)
Example documented_ready_example_fails :
  run_op 1 (ToBuilding 100) (new 0) = (InvalidTransition IndexStateKind.Idle IndexStateKind.Building, Idle 0) /\
  run_op 2 (ToReady 100 5000) (Idle 0) = (InvalidTransition IndexStateKind.Idle IndexStateKind.Ready, Idle 0).
Proof. done. Qed.
(** An invalidation takes a new machine to Ready with nothing built. *)
Example ready_without_build :
  run [(1, ToInvalidating ManualRequest); (2, ToReady 100 5000)] (new 0) = Ready 5000 100 2.
Proof. done. Qed.
