(* ===== verification/NameMaps.v ===== *)
(** * Maps from names to lists

    The projections of the workspace index are hash maps from a name to the
    items filed under it, kept up to date one file at a time: adding a file
    pushes its items, replacing it first filters its items out of the buckets
    of its names and drops the buckets that become empty.  Here is that pattern
    once: what a bucket holds after either, and that a map kept so always holds
    what all files contribute, up to order. *)

From stdpp Require Import base numbers list gmap.
From S2P Require Import Prelude PackageGraph.

Lemma filter_keeps {A} (P : A -> Prop) `{!forall x, Decision (P x)} (l : list A) : Forall P l -> filter P l = l.
Proof. induction 1 as [|x l Hx _ IH]; [done|]. by rewrite filter_cons_True, IH. Qed.
Lemma filter_drops {A} (P : A -> Prop) `{!forall x, Decision (P x)} (l : list A) : Forall (fun x => ~ P x) l -> filter P l = [].
Proof. induction 1 as [|x l Hx _ IH]; [done|]. by rewrite filter_cons_False, IH. Qed.
Lemma elem_concat_fmap {A B} (f : A -> list B) (l : list A) x : x ∈ concat (f <$> l) <-> exists y, y ∈ l /\ x ∈ f y.
Proof.
  rewrite list_elem_of_In, in_concat. setoid_rewrite <-list_elem_of_In. split.
  - intros (k & Hk & Hx). apply list_elem_of_fmap in Hk as (y & -> & Hy). by exists y.
  - intros (y & Hy & Hx). exists (f y). split; [|done]. apply list_elem_of_fmap. by exists y.
Qed.

Section buckets.
Context {K : Type} `{Countable K} {A : Type}.
Implicit Types (m : gmap K (list A)) (k : K).

Definition bucket m k : list A := default [] (m !! k).
(** [for (key, item) in entries { map.entry(key).or_default().push(item) }] *)
Definition push_all (es : list (K * A)) m : gmap K (list A) := foldl (fun m e => push_at e.1 e.2 m) m es.
(** [if let Some(items) = map.get_mut(key) { items.retain(keep); if items.is_empty() { map.remove(key) } }] *)
Definition retain_at (keep : A -> bool) k m : gmap K (list A) :=
  match m !! k with
  | None => m
  | Some items => let items := filter (fun x => keep x = true) items in if bool_decide (items = []) then delete k m else <[k := items]> m
  end.
Definition retain_all (keep : A -> bool) (ks : list K) m : gmap K (list A) := foldl (fun m k => retain_at keep k m) m ks.
(** [map.retain(|_, items| { items.retain(keep); !items.is_empty() })] *)
Definition sweep (keep : A -> bool) m : gmap K (list A) :=
  omap (fun items => let items := filter (fun x => keep x = true) items in if bool_decide (items = []) then None else Some items) m.
(** Every bucket holds something. *)
Definition no_empty m : Prop := forall k, m !! k <> Some [].

Lemma bucket_empty k : bucket ∅ k = [].
Proof using Type. unfold bucket. by rewrite lookup_empty. Qed.
Lemma bucket_push k x m k' : bucket (push_at k x m) k' = bucket m k' ++ (if decide (k = k') then [x] else []).
Proof using Type.
  unfold bucket, push_at. destruct (decide (k = k')) as [<-|Hne]; [by rewrite lookup_insert_eq|]. by rewrite lookup_insert_ne, app_nil_r.
Qed.
Lemma bucket_push_all es m k : bucket (push_all es m) k = bucket m k ++ (snd <$> filter (fun e => e.1 = k) es).
Proof using Type.
  unfold push_all. revert m. induction es as [|[k' x] es IH]; intros m; simpl; [by rewrite app_nil_r|]. rewrite IH, bucket_push, filter_cons. simpl.
  destruct (decide (k' = k)); by rewrite <-(assoc_L (++)).
Qed.
Lemma push_all_no_empty es m : no_empty m -> no_empty (push_all es m).
Proof using Type.
  unfold push_all. revert m. induction es as [|[k x] es IH]; intros m Hm; [done|]. simpl. apply IH. intros k'. unfold push_at.
  destruct (decide (k = k')) as [<-|Hne]; [rewrite lookup_insert_eq; by intros [= [_ ?]%app_nil]|]. by rewrite lookup_insert_ne.
Qed.
Lemma bucket_retain keep k m k' : bucket (retain_at keep k m) k' = if decide (k = k') then filter (fun x => keep x = true) (bucket m k') else bucket m k'.
Proof using Type.
  unfold bucket, retain_at. destruct (m !! k) as [l|] eqn:E.
  - destruct (bool_decide _) eqn:Ed.
    + apply bool_decide_eq_true in Ed. destruct (decide (k = k')) as [<-|Hne]; [by rewrite lookup_delete_eq, E, <-Ed|by rewrite lookup_delete_ne].
    + destruct (decide (k = k')) as [<-|Hne]; [by rewrite lookup_insert_eq, E|by rewrite lookup_insert_ne].
  - destruct (decide (k = k')) as [<-|Hne]; [by rewrite E|done].
Qed.
Lemma retain_no_empty keep k m : no_empty m -> no_empty (retain_at keep k m).
Proof using Type.
  intros Hm k'. unfold retain_at. destruct (m !! k) as [l|] eqn:E; [|done]. destruct (bool_decide _) eqn:Ed.
  - destruct (decide (k = k')) as [<-|Hne]; [by rewrite lookup_delete_eq|by rewrite lookup_delete_ne].
  - apply bool_decide_eq_false in Ed. destruct (decide (k = k')) as [<-|Hne]; [rewrite lookup_insert_eq; congruence|by rewrite lookup_insert_ne].
Qed.
Lemma bucket_retain_all keep ks m k : bucket (retain_all keep ks m) k = if decide (k ∈ ks) then filter (fun x => keep x = true) (bucket m k) else bucket m k.
Proof using Type.
  unfold retain_all. revert m. induction ks as [|k' ks IH]; intros m.
  { destruct (decide (k ∈ [])) as [Hk|]; [by apply elem_of_nil in Hk|done]. }
  simpl. rewrite IH, bucket_retain. destruct (decide (k' = k)) as [->|Hne].
  - rewrite (decide_True (P := k ∈ k :: ks)) by left. destruct (decide (k ∈ ks)); [|done]. rewrite list_filter_filter_l; naive_solver.
  - destruct (decide (k ∈ ks)) as [Hk|Hk]; [by rewrite decide_True by (by right)|]. rewrite decide_False; [done|]. intros [->|?]%elem_of_cons; done.
Qed.
Lemma retain_all_no_empty keep ks m : no_empty m -> no_empty (retain_all keep ks m).
Proof using Type. unfold retain_all. revert m. induction ks as [|k ks IH]; intros m Hm; [done|]. by apply IH, retain_no_empty. Qed.
Lemma bucket_sweep keep m k : bucket (sweep keep m) k = filter (fun x => keep x = true) (bucket m k).
Proof using Type.
  unfold bucket, sweep. rewrite lookup_omap. destruct (m !! k) as [l|]; simpl; [|done]. destruct (bool_decide _) eqn:E; [|done]. by apply bool_decide_eq_true in E as ->.
Qed.
Lemma sweep_no_empty keep m : no_empty (sweep keep m).
Proof using Type.
  intros k. unfold sweep. rewrite lookup_omap. destruct (m !! k) as [l|]; simpl; [|done]. destruct (bool_decide _) eqn:E; [done|]. apply bool_decide_eq_false in E. congruence.
Qed.
Lemma sweep_bucket keep m k : (forall x, x ∈ bucket m k -> keep x = true) -> bucket (sweep keep m) k = bucket m k.
Proof using Type. intros Hk. rewrite bucket_sweep. apply filter_keeps, Forall_forall, Hk. Qed.
Lemma bucket_None_iff m1 m2 k : no_empty m1 -> no_empty m2 -> bucket m1 k ≡ₚ bucket m2 k -> m1 !! k = None <-> m2 !! k = None.
Proof using Type.
  intros H1 H2. specialize (H1 k). specialize (H2 k). unfold bucket. destruct (m1 !! k) as [l1|], (m2 !! k) as [l2|]; simpl; try done; intros Hp; split; try done; intros _.
  - apply Permutation_nil_r in Hp. congruence.
  - apply Permutation_nil_l in Hp. congruence.
Qed.

(** ** Projections of files *)

(** The items that a file [F] contributes, each under its name. *)
Context {F : Type} (entries : F -> list (K * A)).
Definition contribution (k : K) (f : F) : list A := snd <$> filter (fun e => e.1 = k) (entries f).
Definition contributed (fs : gmap str F) (k : K) : list A := concat (contribution k <$> (map_to_list fs).*2).
(** The map holds exactly what the files contribute. *)
Definition projects (fs : gmap str F) m : Prop := (forall k, bucket m k ≡ₚ contributed fs k) /\ no_empty m.

Lemma contributed_empty k : contributed ∅ k = [].
Proof using Type. unfold contributed. by rewrite map_to_list_empty. Qed.
Lemma contributed_insert fs key f k : fs !! key = None -> contributed (<[key := f]> fs) k ≡ₚ contribution k f ++ contributed fs k.
Proof using Type. intros Hk. unfold contributed. by rewrite (map_to_list_insert _ _ _ Hk). Qed.
Lemma contributed_delete fs key f k : fs !! key = Some f -> contributed fs k ≡ₚ contribution k f ++ contributed (delete key fs) k.
Proof using Type. intros Hk. unfold contributed. by rewrite <-(map_to_list_delete _ _ _ Hk). Qed.
Lemma elem_contributed fs k x : x ∈ contributed fs k <-> exists key f, fs !! key = Some f /\ (k, x) ∈ entries f.
Proof using Type.
  unfold contributed, contribution. rewrite elem_concat_fmap. split.
  - intros (f & Hf & Hx). apply list_elem_of_fmap in Hf as ([key f'] & -> & Hf). apply elem_of_map_to_list in Hf.
    apply list_elem_of_fmap in Hx as ([k' x'] & -> & Hx). apply list_elem_of_filter in Hx as [Hk Hx]. simpl in *. subst. by exists key, f'.
  - intros (key & f & Hf & Hx). exists f. split; [apply list_elem_of_fmap; exists (key, f); split; [done|by apply elem_of_map_to_list]|].
    apply list_elem_of_fmap. exists (k, x). split; [done|]. by apply list_elem_of_filter.
Qed.
Lemma projects_empty : projects ∅ ∅.
Proof using Type. split; [intros k; by rewrite bucket_empty, contributed_empty|]. intros k. by rewrite lookup_empty. Qed.
(** Pushing the items of all files, in any order, gives a projection. *)
Lemma rebuild_projects fs values : values ≡ₚ (map_to_list fs).*2 -> projects fs (push_all (concat (entries <$> values)) ∅).
Proof using Type.
  intros Hv. split; [|apply push_all_no_empty; intros k; by rewrite lookup_empty]. intros k. rewrite bucket_push_all, bucket_empty. unfold contributed. rewrite <-Hv. clear Hv. simpl.
  induction values as [|f values IH]; [done|]. simpl. by rewrite filter_app, fmap_app, IH.
Qed.
Lemma projects_add fs m key f : projects fs m -> fs !! key = None -> projects (<[key := f]> fs) (push_all (entries f) m).
Proof using Type.
  intros [H1 H2] Hk. split; [|by apply push_all_no_empty]. intros k. rewrite bucket_push_all, contributed_insert, H1 by done. apply Permutation_app_comm.
Qed.
(** Filtering out the items of one file: everything it contributed goes, and
    nothing of the others. *)
Lemma projects_remove fs m key f keep m' : projects fs m -> fs !! key = Some f ->
  (forall k x, (k, x) ∈ entries f -> keep x = false) ->
  (forall key' g k x, key' <> key -> fs !! key' = Some g -> (k, x) ∈ entries g -> keep x = true) ->
  (forall k, bucket m' k = filter (fun x => keep x = true) (bucket m k) \/ (bucket m' k = bucket m k /\ contribution k f = [])) -> no_empty m' ->
  projects (delete key fs) m'.
Proof using Type.
  intros [H1 _] Hf Hout Hkeep Hm Hne. split; [|done]. intros k.
  assert (Hgone : filter (fun x => keep x = true) (contribution k f) = []).
  { apply filter_drops. unfold contribution. apply Forall_forall. intros x Hx. apply list_elem_of_fmap in Hx as ([k' x'] & -> & Hx). apply list_elem_of_filter in Hx as [_ Hx].
    simpl. by rewrite (Hout k' x'). }
  assert (Hstay : filter (fun x => keep x = true) (contributed (delete key fs) k) = contributed (delete key fs) k).
  { apply filter_keeps, Forall_forall. intros x Hx. apply elem_contributed in Hx as (key' & g & Hg & Hx). apply lookup_delete_Some in Hg as [Hne' Hg]. by apply (Hkeep key' g k x). }
  destruct (Hm k) as [->|[-> Hnil]]; rewrite H1, (contributed_delete _ _ _ _ Hf).
  - rewrite filter_app, Hgone, Hstay. done.
  - by rewrite Hnil.
Qed.
(** A file replaced by one that contributes the same. *)
Lemma contributed_same fs key f f' k : fs !! key = Some f -> entries f' = entries f -> contributed (<[key := f']> fs) k ≡ₚ contributed fs k.
Proof using Type.
  intros E Ee. rewrite (contributed_delete fs key f k E), <-insert_delete_eq, contributed_insert by apply lookup_delete_eq. unfold contribution. by rewrite Ee.
Qed.
Lemma projects_same fs m key f f' : projects fs m -> fs !! key = Some f -> entries f' = entries f -> projects (<[key := f']> fs) m.
Proof using Type. intros [H1 H2] E Ee. split; [|done]. intros k. by rewrite (contributed_same fs key f f' k E Ee). Qed.
(** A sweep that finds nothing to drop. *)
Lemma sweep_projects fs m keep : projects fs m -> (forall key f k x, fs !! key = Some f -> (k, x) ∈ entries f -> keep x = true) -> projects fs (sweep keep m).
Proof using Type.
  intros [H1 H2] Hk. split; [|apply sweep_no_empty]. intros k. rewrite sweep_bucket; [apply H1|]. intros x Hx. rewrite H1 in Hx.
  apply elem_contributed in Hx as (key & f & Hf & Hx). by eapply Hk.
Qed.
(** A sweep that drops what one file contributed. *)
Lemma projects_sweep fs m key f keep : projects fs m -> fs !! key = Some f -> (forall k x, (k, x) ∈ entries f -> keep x = false) ->
  (forall key' g k x, key' <> key -> fs !! key' = Some g -> (k, x) ∈ entries g -> keep x = true) -> projects (delete key fs) (sweep keep m).
Proof using Type. intros Hp Hf Hout Hkeep. apply (projects_remove fs m key f keep); try done; [intros k; left; apply bucket_sweep|apply sweep_no_empty]. Qed.
End buckets.
