(* ===== verification/WorkspaceSymbols.v ===== *)
(** * Symbols and references of the workspace (perl-workspace/src/workspace/workspace_index.rs)

    What one file contributes to the workspace index, the three maps from
    names that the index keeps over all files (definition candidates, the
    search index, references), the operations that keep them up to date one
    file at a time or rebuild them, and the queries that read them.  A hash map
    is iterated in the order of [map_to_list]; the answers are sorted. *)

From stdpp Require Import base numbers list gmap sets.
From S2P Require Import Prelude Utf8 StdText Spans LineIndex PackageGraph DocumentStore NameMaps.

(** ** Data *)

Export (hints) Position.
#[export] Instance Range_dec : EqDecision Range.t.
Proof. solve_decision. Defined.
Record Location := mkLocation { loc_uri : str; loc_range : Range.t }.
#[export] Instance Location_dec : EqDecision Location.
Proof. solve_decision. Defined.
Inductive VarKind := Scalar | Array | Hash.
(** [perl_symbol::SymbolKind] *)
Module SymbolKind.
Inductive t := Package | Class_ | Role | Subroutine | Method | Variable_ (kind : VarKind) | Constant | Import_ | Export_ | Label | Format.
#[export] Instance t_dec : EqDecision t.
Proof. unfold EqDecision, Decision. repeat decide equality. Defined.
End SymbolKind.
Export (hints) SymbolKind.
Definition to_lsp_kind (k : SymbolKind.t) : Z :=
  match k with
  | SymbolKind.Package => 2 | SymbolKind.Class_ => 5 | SymbolKind.Role => 11 | SymbolKind.Subroutine => 12 | SymbolKind.Method => 6
  | SymbolKind.Variable_ _ => 13 | SymbolKind.Constant => 14 | SymbolKind.Import_ => 2 | SymbolKind.Export_ => 12 | SymbolKind.Label => 20 | SymbolKind.Format => 23
  end.
Record WorkspaceSymbol := mkSymbol {
  name : str;
  symbol_kind : SymbolKind.t;
  symbol_uri : str;
  symbol_range : Range.t;
  qualified_name : option str;
  documentation : option str;
  container_name : option str;
  has_body : bool;
  workspace_folder_uri : option str;
  is_lexical : bool;
}.
Module ReferenceKind.
Inductive t := Definition_ | Usage | Coderef | MethodCall | Import_ | Read | Write.
#[export] Instance t_dec : EqDecision t.
Proof. solve_decision. Defined.
End ReferenceKind.
Export (hints) ReferenceKind.
Record SymbolReference := mkReference {
  ref_uri : str;
  ref_range : Range.t;
  ref_kind : ReferenceKind.t;
  package : option str;
}.
Record FileIndex := mkFile {
  source_uri : str;
  file_symbols : list WorkspaceSymbol;
  references : gmap str (list SymbolReference);
  dependencies : gset str;
  content_hash : Z;
  generation : Z;
  pending_generation : Z;
  folder_uri : option str;
}.
Record DefinitionCandidate := mkCandidate { location : Location; candidate_kind : SymbolKind.t }.
#[export] Instance DefinitionCandidate_dec : EqDecision DefinitionCandidate.
Proof. solve_decision. Defined.

(** ** Deterministic order *)

(** The comparison of tuples: the first difference decides. *)
Definition then_cmp (c d : comparison) : comparison := match c with Eq => d | _ => c end.
Fixpoint str_cmp (a b : str) : comparison :=
  match a, b with
  | [], [] => Eq
  | [], _ :: _ => Lt
  | _ :: _, [] => Gt
  | x :: a, y :: b => then_cmp (x ?= y) (str_cmp a b)
  end.
Definition range_cmp (a b : Range.t) : comparison :=
  then_cmp (Position.line (Range.start a) ?= Position.line (Range.start b))
 (then_cmp (Position.column (Range.start a) ?= Position.column (Range.start b))
 (then_cmp (Position.line (Range.end_ a) ?= Position.line (Range.end_ b))
           (Position.column (Range.end_ a) ?= Position.column (Range.end_ b)))).
Definition location_cmp (a b : Location) : comparison := then_cmp (str_cmp (loc_uri a) (loc_uri b)) (range_cmp (loc_range a) (loc_range b)).
Definition rank (k : SymbolKind.t) : Z :=
  match k with SymbolKind.Subroutine | SymbolKind.Method => 0 | SymbolKind.Constant => 1 | _ => 2 end.
Definition candidate_cmp (a b : DefinitionCandidate) : comparison :=
  then_cmp (rank (candidate_kind a) ?= rank (candidate_kind b)) (location_cmp (location a) (location b)).
Definition not_after {A} (cmp : A -> A -> comparison) (a b : A) : bool := match cmp a b with Gt => false | _ => true end.
Definition sort_locations_deterministically (l : list Location) : list Location := sort_by (not_after location_cmp) l.
(** [Vec::dedup]: consecutive equal elements *)
Fixpoint dedup {A} `{EqDecision A} (l : list A) : list A :=
  match l with
  | [] => []
  | x :: l => match dedup l with y :: l' => if decide (x = y) then y :: l' else x :: y :: l' | [] => [x] end
  end.
Definition sort_and_dedup_definition_candidates (l : list DefinitionCandidate) : list DefinitionCandidate := dedup (sort_by (not_after candidate_cmp) l).

(** ** The definition cache *)

(** A symbol is filed under its qualified name, when it has one, and its name. *)
Definition under_names {A} (x : WorkspaceSymbol -> A) (s : WorkspaceSymbol) : list (str * A) :=
  match qualified_name s with Some q => [(q, x s); (name s, x s)] | None => [(name s, x s)] end.
Definition candidate_of (s : WorkspaceSymbol) : DefinitionCandidate := mkCandidate (mkLocation (symbol_uri s) (symbol_range s)) (symbol_kind s).
Definition candidate_entries (f : FileIndex) : list (str * DefinitionCandidate) := concat (under_names candidate_of <$> file_symbols f).
Definition rebuild_symbol_cache (values : list FileIndex) : gmap str (list DefinitionCandidate) :=
  sort_and_dedup_definition_candidates <$> push_all (concat (candidate_entries <$> values)) ∅.
Definition elsewhere (uri : str) (c : DefinitionCandidate) : bool := bool_decide (loc_uri (location c) <> uri).
Definition incremental_remove_symbols (symbols : gmap str (list DefinitionCandidate)) (old : FileIndex) : gmap str (list DefinitionCandidate) :=
  foldl (fun m s => retain_all (elsewhere (symbol_uri s)) (under_names candidate_of s).*1 m) symbols (file_symbols old).
Definition incremental_add_symbols (symbols : gmap str (list DefinitionCandidate)) (f : FileIndex) : gmap str (list DefinitionCandidate) :=
  let touched_keys : gset str := list_to_set (candidate_entries f).*1 in
  foldr (alter sort_and_dedup_definition_candidates) (push_all (candidate_entries f) symbols) (elements touched_keys).

(** ** The search index *)

(** A symbol is filed under its name, then under its qualified name. *)
Definition search_entries_of (s : WorkspaceSymbol) : list (str * WorkspaceSymbol) :=
  (name s, s) :: match qualified_name s with Some q => [(q, s)] | None => [] end.
Definition search_entries (f : FileIndex) : list (str * WorkspaceSymbol) := concat (search_entries_of <$> file_symbols f).
Definition rebuild_search_index (values : list FileIndex) : gmap str (list WorkspaceSymbol) := push_all (concat (search_entries <$> values)) ∅.
Definition incremental_add_search (m : gmap str (list WorkspaceSymbol)) (f : FileIndex) : gmap str (list WorkspaceSymbol) := push_all (search_entries f) m.
Definition symbol_elsewhere (uri : str) (s : WorkspaceSymbol) : bool := bool_decide (symbol_uri s <> uri).
Definition incremental_remove_search (m : gmap str (list WorkspaceSymbol)) (old : FileIndex) : gmap str (list WorkspaceSymbol) :=
  foldl (fun m s => retain_all (symbol_elsewhere (symbol_uri s)) (under_names candidate_of s).*1 m) m (file_symbols old).

(** ** References *)

Definition reference_entries (f : FileIndex) : list (str * SymbolReference) :=
  concat ((fun x : str * list SymbolReference => (fun r => (x.1, r)) <$> x.2) <$> map_to_list (references f)).
Definition ref_elsewhere (uri : str) (r : SymbolReference) : bool := bool_decide (ref_uri r <> uri).
Definition add_file_global_refs (m : gmap str (list SymbolReference)) (f : FileIndex) : gmap str (list SymbolReference) := push_all (reference_entries f) m.
Definition remove_file_global_refs (m : gmap str (list SymbolReference)) (f : FileIndex) (file_uri : str) : gmap str (list SymbolReference) :=
  retain_all (ref_elsewhere file_uri) (map_to_list (references f)).*1 m.

(** ** Queries *)

Definition is_qualified_variant_of (candidate bare_symbol : str) : bool :=
  match rsplit_colons candidate with Some (_, b) => bool_decide (b = bare_symbol) | None => false end.
(** [str::split_once("->")] *)
Fixpoint split_arrow (s : str) : option (str * str) :=
  match s with
  | [] => None
  | x :: rest =>
    match s with
    | 45 :: 62 :: b => Some ([], b)
    | _ => match split_arrow rest with Some (a, b) => Some (x :: a, b) | None => None end
    end
  end.

Definition definition_candidates (symbols : gmap str (list DefinitionCandidate)) (symbol_name : str) : list Location := location <$> bucket symbols symbol_name.
Definition symbol_matches (symbol_name : str) (s : WorkspaceSymbol) : bool :=
  bool_decide (name s = symbol_name) || bool_decide (qualified_name s = Some symbol_name).
Definition find_definition_in_files (values : list FileIndex) (symbol_name : str) (uri_filter : option str) : option (Location * str) :=
  let passes f := match uri_filter, file_symbols f with Some u, s :: _ => bool_decide (symbol_uri s = u) | _, _ => true end in
  let candidates := concat ((fun f => if passes f then
      (fun s => (location (candidate_of s), symbol_uri s)) <$> filter (fun s => symbol_matches symbol_name s = true) (file_symbols f) else []) <$> values) in
  head (sort_by (fun a b => not_after location_cmp a.1 b.1) candidates).
Definition find_definitions (files : gmap str FileIndex) (symbols : gmap str (list DefinitionCandidate)) (symbol_name : str) : list Location :=
  match definition_candidates symbols symbol_name with
  | [] => match find_definition_in_files (map_to_list files).*2 symbol_name None with Some (l, _) => [l] | None => [] end
  | candidates => candidates
  end.
Definition find_definition (files : gmap str FileIndex) (symbols : gmap str (list DefinitionCandidate)) (symbol_name : str) : option Location :=
  head (find_definitions files symbols symbol_name).
Definition all_symbols (files : gmap str FileIndex) : list WorkspaceSymbol := concat (file_symbols <$> (map_to_list files).*2).

Section queries.
Context (uri_key : str -> str).

Definition method_reference_has_self_receiver (docs : DocumentStore) (r : SymbolReference) : outcome bool :=
  match get uri_key (ref_uri r) docs with
  | None => mret false
  | Some doc =>
    start ← LineIndex.position_to_offset (line_index doc) (Position.line (Range.start (ref_range r))) (Position.column (Range.start (ref_range r)));
    match start with
    | None => mret false
    | Some start =>
      end_ ← LineIndex.position_to_offset (line_index doc) (Position.line (Range.end_ (ref_range r))) (Position.column (Range.end_ (ref_range r)));
      mret match end_ with
      | None => false
      | Some end_ =>
        match str_get (text doc) start end_ with
        | None => false
        | Some expression =>
          match split_arrow expression with
          | Some (receiver, _) => bool_decide (trim receiver = [36; 115; 101; 108; 102]) || bool_decide (trim receiver = [36; 116; 104; 105; 115])
          | None => false
          end
        end
      end
    end
  end.
Definition bare_reference_matches_package (docs : DocumentStore) (r : SymbolReference) (package_name : str) : outcome bool :=
  if bool_decide (package r = Some package_name) then mret true
  else if bool_decide (ref_kind r = ReferenceKind.MethodCall) then method_reference_has_self_receiver docs r
  else mret false.

Definition place : Type := str * Z * Z * Z * Z.
Definition place_of (u : str) (r : Range.t) : place :=
  (u, Position.line (Range.start r), Position.column (Range.start r), Position.line (Range.end_ r), Position.column (Range.end_ r)).
Fixpoint filter_outcome {A} (p : A -> outcome bool) (l : list A) : outcome (list A) :=
  match l with [] => mret [] | x :: l => b ← p x; rest ← filter_outcome p l; mret (if (b : bool) then x :: rest else rest) end.
(** The references that a query looks at, in order. *)
Definition matching_references (docs : DocumentStore) (m : gmap str (list SymbolReference)) (keep : SymbolReference -> bool) (symbol_name : str) : outcome (list SymbolReference) :=
  let exact := filter (fun r => keep r = true) (bucket m symbol_name) in
  match rsplit_colons symbol_name with
  | Some (package_name, bare_name) =>
    bare ← filter_outcome (fun r => bare_reference_matches_package docs r package_name) (filter (fun r => keep r = true) (bucket m bare_name));
    mret (exact ++ bare)
  | None =>
    mret (exact ++ concat ((fun x => if is_qualified_variant_of x.1 symbol_name then filter (fun r => keep r = true) x.2 else []) <$> map_to_list m))
  end.
(** One location for each place, the first met. *)
Fixpoint distinct_places (seen : gset place) (refs : list SymbolReference) : list Location :=
  match refs with
  | [] => []
  | r :: refs =>
    if decide (place_of (ref_uri r) (ref_range r) ∈ seen) then distinct_places seen refs
    else mkLocation (ref_uri r) (ref_range r) :: distinct_places ({[place_of (ref_uri r) (ref_range r)]} ∪ seen) refs
  end.
Definition find_references_inner (docs : DocumentStore) (m : gmap str (list SymbolReference)) (symbol_name : str) (exclude_coderef : bool) : outcome (list Location) :=
  refs ← matching_references docs m (fun r => negb (exclude_coderef && bool_decide (ref_kind r = ReferenceKind.Coderef))) symbol_name;
  mret (sort_locations_deterministically (distinct_places ∅ refs)).
Definition count_usages_inner (docs : DocumentStore) (m : gmap str (list SymbolReference)) (symbol_name : str) : outcome Z :=
  refs ← matching_references docs m (fun r => negb (bool_decide (ref_kind r = ReferenceKind.Definition_))) symbol_name;
  mret (Z.of_nat (size (list_to_set ((fun r => place_of (ref_uri r) (ref_range r)) <$> refs) : gset place))).
End queries.
