(* ===== verification/WorkspaceSymbolLaws.v ===== *)
(** * Laws of the symbol and reference maps

    The orders are lawful, a bucket of the definition cache is the ordered set
    of its candidates, and each map kept up to date file by file holds what the
    indexed files contribute. *)

From stdpp Require Import base numbers list gmap sets sorting.
From S2P Require Import Prelude Spans PackageGraph NameMaps WorkspaceSymbols.

(** ** Lawful comparisons *)

Record lawful {A} (cmp : A -> A -> comparison) : Prop := mkLawful {
  cmp_sym : forall x y, cmp y x = CompOpp (cmp x y);
  cmp_eq : forall x y z, cmp x y = Eq -> cmp x z = cmp y z;
  cmp_lt : forall x y z, cmp x y = Lt -> cmp y z = Lt -> cmp x z = Lt;
}.
Lemma lawful_Z : lawful Z.compare.
Proof.
  split; intros x y; [by rewrite Z.compare_antisym|intros z ->%Z.compare_eq; done|]. intros z H1 H2. rewrite Z.compare_lt_iff in *. lia.
Qed.
Lemma lawful_refl {A} (cmp : A -> A -> comparison) x : lawful cmp -> cmp x x = Eq.
Proof. intros Hc. pose proof (cmp_sym _ Hc x x) as Hs. by destruct (cmp x x). Qed.
Lemma lawful_on {A B} (f : A -> B) cmp : lawful cmp -> lawful (fun x y => cmp (f x) (f y)).
Proof. intros [H1 H2 H3]. split; intros; eauto. Qed.
Lemma lawful_then {A} (c d : A -> A -> comparison) : lawful c -> lawful d -> lawful (fun x y => then_cmp (c x y) (d x y)).
Proof.
  intros [C1 C2 C3] [D1 D2 D3]. split.
  - intros x y. rewrite C1, D1. by destruct (c x y).
  - intros x y z. destruct (c x y) eqn:E; simpl; try done. intros Ed. by rewrite (C2 _ _ z E), (D2 _ _ z Ed).
  - intros x y z. destruct (c x y) eqn:Exy, (c y z) eqn:Eyz; simpl; try done; intros Hxy Hyz.
    + rewrite (C2 _ _ z Exy), Eyz. simpl. by eapply D3.
    + by rewrite (C2 _ _ z Exy), Eyz.
    + assert (c z x = c y x) as Ezx. { symmetry. apply C2. done. } rewrite C1, Ezx, C1, Exy. done.
    + by rewrite (C3 _ _ _ Exy Eyz).
Qed.
Lemma lawful_str : lawful str_cmp.
Proof.
  destruct lawful_Z as [Z1 Z2 Z3]. split.
  - intros x. induction x as [|a x IH]; intros [|b y]; simpl; try done. rewrite IH, Z1. by destruct (a ?= b).
  - intros x. induction x as [|a x IH]; intros [|b y] [|c z]; simpl; try done. destruct (a ?= b) eqn:E; simpl; try done. apply Z.compare_eq in E as ->. intros Hy. by rewrite (IH _ z Hy).
  - intros x. induction x as [|a x IH]; intros [|b y] [|c z]; simpl; try done. destruct (a ?= b) eqn:E1, (b ?= c) eqn:E2; simpl; try done; intros Hy Hz.
    + apply Z.compare_eq in E1 as ->. rewrite E2. simpl. by eapply IH.
    + apply Z.compare_eq in E1 as ->. by rewrite E2.
    + apply Z.compare_eq in E2 as <-. by rewrite E1.
    + by rewrite (Z3 _ _ _ E1 E2).
Qed.
Lemma lawful_range : lawful range_cmp.
Proof. unfold range_cmp. repeat apply lawful_then; exact (lawful_on _ _ lawful_Z). Qed.
Lemma lawful_location : lawful location_cmp.
Proof. unfold location_cmp. apply lawful_then; [exact (lawful_on _ _ lawful_str)|exact (lawful_on _ _ lawful_range)]. Qed.
Lemma lawful_candidate : lawful candidate_cmp.
Proof. unfold candidate_cmp. apply lawful_then; [exact (lawful_on _ _ lawful_Z)|exact (lawful_on _ _ lawful_location)]. Qed.

Section order.
Context {A : Type} (cmp : A -> A -> comparison) (Hcmp : lawful cmp).
Lemma not_after_total x y : not_after cmp x y = false -> not_after cmp y x = true.
Proof using Hcmp. unfold not_after. rewrite (cmp_sym _ Hcmp x y). by destruct (cmp x y). Qed.
Lemma not_after_trans x y z : not_after cmp x y = true -> not_after cmp y z = true -> not_after cmp x z = true.
Proof using Hcmp.
  unfold not_after. destruct Hcmp as [S E L]. destruct (cmp x y) eqn:Exy; [by rewrite (E _ _ z Exy)| |done]. destruct (cmp y z) eqn:Eyz; [| |done]; intros _ _.
  - assert (cmp z x = cmp y x) as Ezx by (symmetry; by apply E). by rewrite S, Ezx, S, Exy.
  - by rewrite (L _ _ _ Exy Eyz).
Qed.
Lemma sorted_ordered l : ordered (not_after cmp) (sort_by (not_after cmp) l).
Proof using Hcmp. apply sort_by_ordered; [exact not_after_total|exact not_after_trans]. Qed.
End order.
Lemma ordered_head {A} (le : A -> A -> bool) l x y : ordered le l -> head l = Some x -> y ∈ l -> y = x \/ le x y = true.
Proof. intros Hl Hx Hy. destruct Hl as [|z l Hl Hz]; [done|]. injection Hx as ->. apply elem_of_cons in Hy as [->|Hy]; [by left|right]. rewrite Forall_forall in Hz. by apply Hz. Qed.
(** The first places of two ordered lists with the same elements are one. *)
Lemma ordered_same_head {A} (cmp : A -> A -> comparison) l1 l2 : lawful cmp -> ordered (not_after cmp) l1 -> ordered (not_after cmp) l2 -> (forall x, x ∈ l1 <-> x ∈ l2) ->
  match head l1, head l2 with Some x, Some y => cmp x y = Eq | None, None => True | _, _ => False end.
Proof.
  intros Hc H1 H2 He. pose proof (fun x => lawful_refl cmp x Hc) as Hrefl.
  destruct l1 as [|x l1], l2 as [|y l2]; simpl; try done.
  - apply (not_elem_of_nil y), He. left.
  - apply (not_elem_of_nil x), He. left.
  - assert (Hy : y ∈ x :: l1) by (apply He; left). assert (Hx : x ∈ y :: l2) by (apply He; left).
    destruct (ordered_head _ _ x y H1 eq_refl Hy) as [->|L1]; [apply Hrefl|]. destruct (ordered_head _ _ y x H2 eq_refl Hx) as [->|L2]; [apply Hrefl|].
    unfold not_after in *. rewrite (cmp_sym _ Hc x y) in L2. by destruct (cmp x y).
Qed.

(** ** Deduplication *)

Lemma elem_dedup {A} `{EqDecision A} (l : list A) x : x ∈ dedup l <-> x ∈ l.
Proof.
  induction l as [|y l IH]; [done|]. simpl. rewrite elem_of_cons, <-IH. destruct (dedup l) as [|z l']; [by rewrite elem_of_cons|].
  destruct (decide (y = z)) as [->|]; rewrite !elem_of_cons; tauto.
Qed.
Lemma dedup_ordered {A} `{EqDecision A} (le : A -> A -> bool) l : ordered le l -> ordered le (dedup l).
Proof.
  induction 1 as [|x l _ IH Hx]; [constructor|]. simpl. assert (Hx' : Forall (fun y => le x y = true) (dedup l)).
  { rewrite Forall_forall in Hx |- *. intros y Hy. by apply Hx, elem_dedup. }
  destruct (dedup l) as [|z l']; [by repeat constructor|]. destruct (decide (x = z)); [done|]. by constructor.
Qed.
Lemma elem_sorted_candidates l x : x ∈ sort_and_dedup_definition_candidates l <-> x ∈ l.
Proof. unfold sort_and_dedup_definition_candidates. by rewrite elem_dedup, sort_by_perm. Qed.
Lemma sorted_candidates_ordered l : ordered (not_after candidate_cmp) (sort_and_dedup_definition_candidates l).
Proof. apply dedup_ordered, sorted_ordered, lawful_candidate. Qed.
Lemma sorted_candidates_nil l : sort_and_dedup_definition_candidates l = [] -> l = [].
Proof. intros E. destruct l as [|x l]; [done|]. exfalso. apply (not_elem_of_nil x). rewrite <-E. apply elem_sorted_candidates. left. Qed.

(** ** Entries *)

(** Both projections of the symbols file them under the same names. *)
Lemma elem_under_names {A} (x : WorkspaceSymbol -> A) s e : e ∈ under_names x s -> e.2 = x s.
Proof. unfold under_names. destruct (qualified_name s); rewrite ?elem_of_cons, ?elem_of_nil; intros [->|H]; try done; destruct H as [->|H]; done. Qed.
Lemma elem_candidate_entries f e : e ∈ candidate_entries f <-> exists s, s ∈ file_symbols f /\ e ∈ under_names candidate_of s.
Proof. apply elem_concat_fmap. Qed.
Lemma elem_search_entries f e : e ∈ search_entries f -> exists s, s ∈ file_symbols f /\ e.2 = s /\ e.1 ∈ (under_names candidate_of s).*1.
Proof.
  intros (s & Hs & He)%elem_concat_fmap. exists s. split; [done|].
  unfold search_entries_of, under_names in *. destruct (qualified_name s); simpl in *; rewrite ?elem_of_cons, ?elem_of_nil in *; destruct He as [->|He]; simpl; try tauto.
  destruct He as [->|He]; simpl; tauto.
Qed.
Lemma elem_reference_entries f k r : (k, r) ∈ reference_entries f <-> exists rs, references f !! k = Some rs /\ r ∈ rs.
Proof.
  unfold reference_entries. rewrite elem_concat_fmap. split.
  - intros ([k' rs] & Hs & He). apply elem_of_map_to_list in Hs. apply list_elem_of_fmap in He as (r' & [= -> ->] & Hr). by exists rs.
  - intros (rs & Hk & Hr). exists (k, rs). split; [by apply elem_of_map_to_list|]. apply list_elem_of_fmap. by exists r.
Qed.
Lemma concat_map_fmap {A B C} (g : B -> C) (h : A -> list B) (l : list A) : g <$> concat (h <$> l) = concat ((fun x => g <$> h x) <$> l).
Proof. induction l as [|x l IH]; [done|]. simpl. rewrite fmap_app. f_equal. exact IH. Qed.
Lemma retain_symbols {A} (keep : str -> A -> bool) (ss : list WorkspaceSymbol) u m : Forall (fun s => symbol_uri s = u) ss ->
  foldl (fun m s => retain_all (keep (symbol_uri s)) (under_names candidate_of s).*1 m) m ss = retain_all (keep u) (concat (under_names candidate_of <$> ss)).*1 m.
Proof.
  intros Hs. revert m. induction Hs as [|s ss Hs _ IH]; intros m; [done|]. simpl. rewrite Hs, IH, fmap_app. unfold retain_all. by rewrite foldl_app.
Qed.

(** ** The files of an index *)

Section files.
Context (uri_key : str -> str).
(** A file is indexed under the key of its URI, and everything in it carries
    that URI. *)
Record file_wf (key : str) (f : FileIndex) : Prop := mkFileWf {
  fw_key : uri_key (source_uri f) = key;
  fw_symbols : Forall (fun s => symbol_uri s = source_uri f) (file_symbols f);
  fw_references : map_Forall (fun _ rs => Forall (fun r => ref_uri r = source_uri f) rs) (references f);
}.
Definition files_wf (fs : gmap str FileIndex) : Prop := map_Forall file_wf fs.

(** ** The definition cache *)

Record cache_ok (fs : gmap str FileIndex) (m : gmap str (list DefinitionCandidate)) : Prop := mkCacheOk {
  co_elements : forall k x, x ∈ bucket m k <-> x ∈ contributed candidate_entries fs k;
  co_ordered : forall k, ordered (not_after candidate_cmp) (bucket m k);
  co_no_empty : no_empty m;
}.
Lemma cache_ok_empty : cache_ok ∅ ∅.
Proof using Type. clear uri_key. split; intros k; [intros x; by rewrite bucket_empty, contributed_empty|rewrite bucket_empty; constructor|by rewrite lookup_empty]. Qed.
Lemma other_uri fs key f key' g : files_wf fs -> fs !! key = Some f -> fs !! key' = Some g -> key' <> key -> source_uri g <> source_uri f.
Proof using Type. intros Hw Hf Hg Hne E. apply Hne. rewrite <-(fw_key _ _ (Hw _ _ Hf)), <-(fw_key _ _ (Hw _ _ Hg)). by rewrite E. Qed.
Lemma candidate_elsewhere key f u k x : file_wf key f -> (k, x) ∈ candidate_entries f -> elsewhere u x = bool_decide (source_uri f <> u).
Proof using Type.
  intros [_ Hs _] (s & Hin & He)%elem_candidate_entries. apply elem_under_names in He. simpl in He. subst x. unfold elsewhere. simpl. rewrite Forall_forall in Hs. by rewrite (Hs _ Hin).
Qed.
Lemma contribution_names {A F} (entries : F -> list (str * A)) k f : k ∉ (entries f).*1 -> contribution entries k f = [].
Proof using Type. clear uri_key.
  intros Hk. unfold contribution. rewrite filter_drops; [done|]. apply Forall_forall. intros [k' x] Hx E. simpl in E. subst k'. apply Hk, list_elem_of_fmap. by exists (k, x).
Qed.
Lemma cache_ok_remove fs m key f : files_wf fs -> cache_ok fs m -> fs !! key = Some f -> cache_ok (delete key fs) (incremental_remove_symbols m f).
Proof using Type.
  intros Hw [H1 H2 H3] Hf. unfold incremental_remove_symbols. rewrite (retain_symbols elsewhere _ (source_uri f)) by apply (Hw _ _ Hf).
  change (concat (under_names candidate_of <$> file_symbols f)) with (candidate_entries f). split.
  - intros k x. rewrite bucket_retain_all. rewrite !elem_contributed in *. assert (Hin : x ∈ bucket m k <-> exists key g, fs !! key = Some g /\ (k, x) ∈ candidate_entries g) by by rewrite H1, elem_contributed.
    setoid_rewrite lookup_delete_Some. split.
    + intros Hx. assert (Hx' : x ∈ bucket m k /\ (k ∈ (candidate_entries f).*1 -> elsewhere (source_uri f) x = true)).
      { destruct (decide _); [apply list_elem_of_filter in Hx as [? ?]; done|done]. }
      destruct Hx' as [Hb Hel]. apply Hin in Hb as (key' & g & Hg & Hgx). exists key', g. split; [|done]. split; [|done]. intros <-. rewrite Hf in Hg. injection Hg as <-.
      rewrite (candidate_elsewhere _ _ _ _ _ (Hw _ _ Hf) Hgx), bool_decide_false in Hel by tauto. enough (k ∈ (candidate_entries f).*1) by (by apply Hel in H).
      apply list_elem_of_fmap. by exists (k, x).
    + intros (key' & g & [Hne Hg] & Hgx). assert (Hb : x ∈ bucket m k) by (apply Hin; by exists key', g). destruct (decide _); [|done]. apply list_elem_of_filter. split; [|done].
      rewrite (candidate_elsewhere _ _ _ _ _ (Hw _ _ Hg) Hgx), bool_decide_true; [done|]. by apply (other_uri fs key f key' g).
  - intros k. rewrite bucket_retain_all. destruct (decide _); [by apply ordered_filter|done].
  - by apply retain_all_no_empty.
Qed.
Lemma bucket_alter (g : list DefinitionCandidate -> list DefinitionCandidate) (ks : list str) m k : NoDup ks -> g [] = [] ->
  bucket (foldr (alter g) m ks) k = if decide (k ∈ ks) then g (bucket m k) else bucket m k.
Proof using Type. clear uri_key.
  intros Hn Hg. induction Hn as [|k' ks Hk' Hn IH]; [destruct (decide (k ∈ [])) as [Hk|]; [by apply elem_of_nil in Hk|done]|]. simpl. unfold bucket in *. destruct (decide (k' = k)) as [->|Hne].
  - rewrite lookup_alter_eq, (decide_True (P := k ∈ k :: ks)) by left. rewrite decide_False in IH by done. destruct (foldr _ m ks !! k) eqn:E; simpl in *; [by rewrite IH|by rewrite <-IH].
  - rewrite lookup_alter_ne by done. rewrite IH. destruct (decide (k ∈ ks)) as [Hk|Hk]; [by rewrite decide_True by (by right)|]. rewrite decide_False; [done|]. intros [->|?]%elem_of_cons; done.
Qed.
Lemma add_symbols_bucket m f k : bucket (incremental_add_symbols m f) k =
  if decide (k ∈ (candidate_entries f).*1) then sort_and_dedup_definition_candidates (bucket m k ++ contribution candidate_entries k f) else bucket m k.
Proof using Type. clear uri_key.
  unfold incremental_add_symbols. rewrite bucket_alter; [|apply NoDup_elements|done]. rewrite bucket_push_all. fold (contribution candidate_entries k f).
  assert (He : k ∈ elements (list_to_set (candidate_entries f).*1 : gset str) <-> k ∈ (candidate_entries f).*1) by (by rewrite elem_of_elements, elem_of_list_to_set).
  destruct (decide (k ∈ elements _)) as [Hk|Hk], (decide (k ∈ (candidate_entries f).*1)) as [Hk'|Hk']; try tauto. by rewrite contribution_names, app_nil_r.
Qed.
Lemma alter_no_empty (ks : list str) m : no_empty m -> no_empty (foldr (alter sort_and_dedup_definition_candidates) m ks).
Proof using Type. clear uri_key.
  intros Hm. induction ks as [|k ks IH]; [done|]. simpl. intros k'. destruct (decide (k = k')) as [<-|Hne]; [|by rewrite lookup_alter_ne].
  rewrite lookup_alter_eq. intros E. destruct (foldr _ m ks !! k) as [l|] eqn:El; [|done]. simpl in E. injection E as E%sorted_candidates_nil. subst. by apply (IH k).
Qed.
Lemma cache_ok_add fs m key f : cache_ok fs m -> fs !! key = None -> cache_ok (<[key := f]> fs) (incremental_add_symbols m f).
Proof using Type. clear uri_key.
  intros [H1 H2 H3] Hk. split.
  - intros k x. rewrite add_symbols_bucket, (contributed_insert _ _ _ _ _ Hk), elem_of_app, <-H1. destruct (decide (k ∈ _)) as [Hin|Hin].
    + rewrite elem_sorted_candidates, elem_of_app. tauto.
    + rewrite (contribution_names _ _ _ Hin), elem_of_nil. tauto.
  - intros k. rewrite add_symbols_bucket. destruct (decide _); [apply sorted_candidates_ordered|done].
  - apply alter_no_empty, push_all_no_empty, H3.
Qed.
Lemma cache_ok_rebuild fs values : values ≡ₚ (map_to_list fs).*2 -> cache_ok fs (rebuild_symbol_cache values).
Proof using Type. clear uri_key.
  intros Hv. destruct (rebuild_projects candidate_entries fs values Hv) as [H1 H2]. unfold rebuild_symbol_cache. set (m := push_all _ ∅) in *.
  assert (Hb : forall k, bucket (sort_and_dedup_definition_candidates <$> m) k = sort_and_dedup_definition_candidates (bucket m k)).
  { intros k. unfold bucket. rewrite lookup_fmap. by destruct (m !! k). }
  split; intros k; [intros x; by rewrite Hb, elem_sorted_candidates, H1|rewrite Hb; apply sorted_candidates_ordered|].
  rewrite lookup_fmap. intros E. destruct (m !! k) as [l|] eqn:El; [|done]. simpl in E. injection E as E%sorted_candidates_nil. subst. by apply (H2 k).
Qed.
(** A cache is determined by its files, up to the order of candidates at one
    place. *)
Lemma cache_ok_same fs m1 m2 k : cache_ok fs m1 -> cache_ok fs m2 ->
  (forall x, x ∈ bucket m1 k <-> x ∈ bucket m2 k) /\ (m1 !! k = None <-> m2 !! k = None) /\
  match head (bucket m1 k), head (bucket m2 k) with Some x, Some y => candidate_cmp x y = Eq | None, None => True | _, _ => False end.
Proof using Type. clear uri_key.
  intros [A1 A2 A3] [B1 B2 B3]. assert (He : forall x, x ∈ bucket m1 k <-> x ∈ bucket m2 k) by (intros x; by rewrite A1, B1). split; [done|]. split.
  - specialize (A3 k). specialize (B3 k). unfold bucket in He. destruct (m1 !! k) as [[|x l]|], (m2 !! k) as [[|y l']|]; simpl in He; try done.
    + split; [done|]. intros _. exfalso. apply (not_elem_of_nil x), He. left.
    + split; [|done]. intros _. exfalso. apply (not_elem_of_nil y), He. left.
  - apply ordered_same_head; [exact lawful_candidate|apply A2|apply B2|done].
Qed.

(** ** The search index and the references *)

Lemma search_remove fs m key f : files_wf fs -> projects search_entries fs m -> fs !! key = Some f -> projects search_entries (delete key fs) (incremental_remove_search m f).
Proof using Type.
  intros Hw Hp Hf. unfold incremental_remove_search. rewrite (retain_symbols symbol_elsewhere _ (source_uri f)) by apply (Hw _ _ Hf).
  change (concat (under_names candidate_of <$> file_symbols f)) with (candidate_entries f).
  apply (projects_remove search_entries fs m key f (symbol_elsewhere (source_uri f))); try done.
  - intros k x (s & Hs & <- & _)%elem_search_entries. simpl in Hs |- *. destruct (Hw _ _ Hf) as [_ Hu _]. rewrite Forall_forall in Hu. unfold symbol_elsewhere. rewrite (Hu _ Hs). by rewrite bool_decide_false by tauto.
  - intros key' g k x Hne Hg (s & Hs & <- & _)%elem_search_entries. simpl in Hs |- *. destruct (Hw _ _ Hg) as [_ Hu _]. rewrite Forall_forall in Hu. unfold symbol_elsewhere. rewrite (Hu _ Hs).
    rewrite bool_decide_true; [done|]. by apply (other_uri fs key f key' g).
  - intros k. rewrite bucket_retain_all. destruct (decide (k ∈ _)) as [Hk|Hk]; [by left|right]. split; [done|]. apply contribution_names. intros Hin. apply Hk.
    apply list_elem_of_fmap in Hin as (e & -> & He). apply elem_search_entries in He as (s & Hs & _ & He). unfold candidate_entries. rewrite concat_map_fmap, elem_concat_fmap. by exists s.
  - by apply retain_all_no_empty, Hp.
Qed.
Lemma references_uri key f k r : file_wf key f -> (k, r) ∈ reference_entries f -> ref_uri r = source_uri f.
Proof using Type. intros [_ _ Hr] (rs & Hk & Hin)%elem_reference_entries. specialize (Hr _ _ Hk). rewrite Forall_forall in Hr. by apply Hr. Qed.
Lemma references_remove fs m key f : files_wf fs -> projects reference_entries fs m -> fs !! key = Some f ->
  projects reference_entries (delete key fs) (remove_file_global_refs m f (source_uri f)).
Proof using Type.
  intros Hw Hp Hf. unfold remove_file_global_refs. apply (projects_remove reference_entries fs m key f (ref_elsewhere (source_uri f))); try done.
  - intros k r Hr. unfold ref_elsewhere. rewrite (references_uri _ _ _ _ (Hw _ _ Hf) Hr). by rewrite bool_decide_false by tauto.
  - intros key' g k r Hne Hg Hr. unfold ref_elsewhere. rewrite (references_uri _ _ _ _ (Hw _ _ Hg) Hr). rewrite bool_decide_true; [done|]. by apply (other_uri fs key f key' g).
  - intros k. rewrite bucket_retain_all. destruct (decide (k ∈ _)) as [Hk|Hk]; [by left|right]. split; [done|]. apply contribution_names. intros Hin. apply Hk.
    apply list_elem_of_fmap in Hin as ([k' r] & -> & He). apply elem_reference_entries in He as (rs & Hrs & _). apply list_elem_of_fmap. exists (k', rs). split; [done|]. by apply elem_of_map_to_list.
  - by apply retain_all_no_empty, Hp.
Qed.
End files.
