(* ===== verification/WorkspaceIndex.v ===== *)
(** * The workspace index (perl-workspace/src/workspace/workspace_index.rs)

    The state of [WorkspaceIndex] and the operations that change it.  Indexing
    a file claims its generation, parses without holding the index, and
    publishes; an operation here is a sequence of critical sections, and each
    section is one function on the state, so that operations of other files
    can run between them.  The lifecycle guard of a URI keeps two operations
    of one file apart.

    Parsing and extraction are a parameter, as are the keys and normal forms of
    URIs, the hashes, and the stores of semantic facts (fact shards, reference
    and import indexes), of which only the calls are modelled. *)

From stdpp Require Import base numbers list gmap sets.
From S2P Require Import Prelude LineIndex Monitoring Coordinator PackageGraph DocumentStore NameMaps WorkspaceSymbols.

(** ** Parameters *)

(** What parsing and extraction find in one file. *)
Record Analysis (Fact : Type) := mkAnalysis {
  an_symbols : list WorkspaceSymbol;
  an_references : gmap str (list SymbolReference);
  an_dependencies : gset str;
  an_edges : list PackageEdge;
  an_facts : Fact;
}.
Arguments mkAnalysis {Fact}.
Arguments an_symbols {Fact}.
Arguments an_references {Fact}.
Arguments an_dependencies {Fact}.
Arguments an_edges {Fact}.
Arguments an_facts {Fact}.
(** The stores of semantic facts, by the key and the URI of a file. *)
Class FactStores (P Fact : Type) := {
  facts_new : P;
  facts_replace : str -> str -> Fact -> P -> P;
  facts_remove : str -> str -> P -> P;
}.

(** ** State *)

Inductive IndexError := LimitExceeded (kind : ResourceKind) (limit : Z) | ParseFailed (message : list Z) | VersionRejected.
Inductive Outcome := Accepted | NoOp | RejectedStale.
Inductive SourceCommitOutcome := CommitAccepted | CommitNoOp | CommitRejectedStale | CommitFailed (e : IndexError).

Section index.
Context {P Fact : Type} `{FactStores P Fact} (uri_key normalize_uri : str -> str) (hash_text hash_uri : str -> Z).

Record WorkspaceIndex := mkWorkspace {
  files : gmap str FileIndex;
  symbols : gmap str (list DefinitionCandidate);
  search_index : gmap str (list WorkspaceSymbol);
  global_references : gmap str (list SymbolReference);
  facts : P;
  package_graph : PackageGraphIndex;
  document_store : DocumentStore;
  workspace_folders : list str;
  limits : IndexResourceLimits;
  resource_limit_rejection : option ResourceKind;
  write_version : Z;
}.
Definition with_resource_limits (limits : IndexResourceLimits) : WorkspaceIndex :=
  mkWorkspace ∅ ∅ ∅ ∅ (facts_new (Fact := Fact)) PackageGraph.new store_new [] limits None 0.
Definition set_files (fs : gmap str FileIndex) (ws : WorkspaceIndex) : WorkspaceIndex :=
  mkWorkspace fs (symbols ws) (search_index ws) (global_references ws) (facts ws) (package_graph ws) (document_store ws) (workspace_folders ws) (limits ws)
    (resource_limit_rejection ws) (write_version ws).
Definition record_resource_limit_rejection (kind : ResourceKind) (ws : WorkspaceIndex) : WorkspaceIndex :=
  mkWorkspace (files ws) (symbols ws) (search_index ws) (global_references ws) (facts ws) (package_graph ws) (document_store ws) (workspace_folders ws) (limits ws)
    (Some kind) (write_version ws).
Definition take_rejection (ws : WorkspaceIndex) : option ResourceKind * WorkspaceIndex :=
  (resource_limit_rejection ws,
   mkWorkspace (files ws) (symbols ws) (search_index ws) (global_references ws) (facts ws) (package_graph ws) (document_store ws) (workspace_folders ws) (limits ws)
    None (write_version ws)).
Definition bump_write_version (ws : WorkspaceIndex) : WorkspaceIndex :=
  mkWorkspace (files ws) (symbols ws) (search_index ws) (global_references ws) (facts ws) (package_graph ws) (document_store ws) (workspace_folders ws) (limits ws)
    (resource_limit_rejection ws) (as_usize (write_version ws + 1)).
Definition set_workspace_folders (folders : list str) (ws : WorkspaceIndex) : WorkspaceIndex :=
  mkWorkspace (files ws) (symbols ws) (search_index ws) (global_references ws) (facts ws) (package_graph ws) (document_store ws) folders (limits ws)
    (resource_limit_rejection ws) (write_version ws).
Definition set_document_store (docs : DocumentStore) (ws : WorkspaceIndex) : WorkspaceIndex :=
  mkWorkspace (files ws) (symbols ws) (search_index ws) (global_references ws) (facts ws) (package_graph ws) docs (workspace_folders ws) (limits ws)
    (resource_limit_rejection ws) (write_version ws).
Definition limit_of (kind : ResourceKind) (l : IndexResourceLimits) : Z :=
  match kind with MaxFiles => max_files l | MaxSymbols => max_total_symbols l | MaxCacheBytes => max_ast_cache_bytes l end.
Definition resource_limit_error (kind : ResourceKind) (l : IndexResourceLimits) : IndexError := LimitExceeded kind (limit_of kind l).

(** [determine_folder_uri]: the longest folder that contains the file, the
    first among equals *)
Definition contains_uri (file_uri folder : str) : bool :=
  let with_slash := if bool_decide (list.last folder = Some 47) then folder else folder ++ [47] in
  bool_decide (with_slash `prefix_of` file_uri) || bool_decide (file_uri = folder).
Definition determine_folder_uri (file_uri : str) (ws : WorkspaceIndex) : option str :=
  foldl (fun best folder =>
    if contains_uri file_uri folder then
      match best with Some b => if len folder <=? len b then best else Some folder | None => Some folder end
    else best) None (workspace_folders ws).

(** ** Generations *)

Definition with_generations (f : FileIndex) (generation pending : Z) : FileIndex :=
  mkFile (source_uri f) (file_symbols f) (references f) (dependencies f) (content_hash f) generation pending (folder_uri f).
Definition high_water (f : FileIndex) : Z := Z.max (generation f) (pending_generation f).
(** The first critical section: nothing to do, refused, or go on, with the
    generation that was claimed. *)
Inductive Claim := Finished (r : result IndexError Outcome) | Claimed (reserved : option Z).
Definition claim (key : str) (hash gen : Z) (ws : WorkspaceIndex) : Claim * WorkspaceIndex :=
  match files ws !! key with
  | None =>
    if max_files (limits ws) <=? Z.of_nat (size (files ws))
    then (Finished (Err (resource_limit_error MaxFiles (limits ws))), record_resource_limit_rejection MaxFiles ws)
    else (Claimed None, ws)
  | Some f =>
    if content_hash f =? hash then
      (Finished (Ok NoOp), set_files (<[key := with_generations f (Z.max (generation f) gen) (Z.max (pending_generation f) gen)]> (files ws)) ws)
    else if (0 <? gen) && (0 <? high_water f) && (gen <? high_water f) then (Finished (Ok RejectedStale), ws)
    else if (0 <? gen) && (high_water f <? gen) then
      (Claimed (Some gen), set_files (<[key := with_generations f (generation f) gen]> (files ws)) ws)
    else (Claimed None, ws)
  end.
(** [ReservationGuard::drop] of a guard that was not committed *)
Definition rollback (key : str) (reserved : option Z) (ws : WorkspaceIndex) : WorkspaceIndex :=
  match reserved, files ws !! key with
  | Some r, Some f => if pending_generation f =? r then set_files (<[key := with_generations f (generation f) (generation f)]> (files ws)) ws else ws
  | _, _ => ws
  end.

(** ** Publication *)

Definition file_count (ws : WorkspaceIndex) : Z := Z.of_nat (size (files ws)).
Definition symbols_of (fs : gmap str FileIndex) : list Z := (fun f => len (file_symbols f)) <$> (map_to_list fs).*2.
Definition symbol_count (ws : WorkspaceIndex) : outcome Z := sum_usize (symbols_of (files ws)).
Definition admission_limit_for (key : str) (candidate_symbols : Z) (ws : WorkspaceIndex) : outcome (option ResourceKind) :=
  if bool_decide (files ws !! key = None) && (max_files (limits ws) <=? file_count ws) then mret (Some MaxFiles)
  else
    current ← symbol_count ws;
    let replaced := match files ws !! key with Some f => len (file_symbols f) | None => 0 end in
    let projected := saturating_add (saturating_sub current replaced) candidate_symbols in
    mret (if max_total_symbols (limits ws) <? projected then Some MaxSymbols else None).
(** Everything that is replaced with the file, once it is admitted. *)
Definition publish (key uri : str) (f : FileIndex) (a : Analysis Fact) (docs : DocumentStore) (ws : WorkspaceIndex) : outcome WorkspaceIndex :=
  let old := files ws !! key in
  let refs := match old with Some o => remove_file_global_refs (global_references ws) o uri | None => global_references ws end in
  let syms := match old with Some o => incremental_remove_symbols (symbols ws) o | None => symbols ws end in
  let search := match old with Some o => incremental_remove_search (search_index ws) o | None => search_index ws end in
  graph ← PackageGraph.remove_edges_for_file (package_graph ws) uri;
  mret (mkWorkspace (<[key := f]> (files ws)) (incremental_add_symbols syms f) (incremental_add_search search f) (add_file_global_refs refs f)
    (facts_replace key uri (an_facts a) (facts ws)) (PackageGraph.add_edges graph uri (hash_uri uri) (an_edges a)) docs (workspace_folders ws) (limits ws)
    (resource_limit_rejection ws) (write_version ws)).
Definition document_version (gen : Z) : Z := Z.max (as_i32 gen) 1.
(** The second critical section. *)
Definition commit (uri text : str) (hash gen : Z) (folder : option str) (a : Analysis Fact) (ws : WorkspaceIndex) : outcome (result IndexError Outcome * WorkspaceIndex) :=
  let key := uri_key uri in
  let stale := match files ws !! key with Some f => (0 <? gen) && (0 <? high_water f) && (gen <? high_water f) | None => false end in
  if stale then mret (Ok RejectedStale, ws)
  else
    refused ← admission_limit_for key (len (an_symbols a)) ws;
    match refused with
    | Some kind => mret (Err (resource_limit_error kind (limits ws)), record_resource_limit_rejection kind ws)
    | None =>
      let '(r, docs) := accept_candidate uri_key uri (document_version gen) text (0 <? gen) (document_store ws) in
      match r with
      | DocumentStore.RejectedStale => mret (Err VersionRejected, set_document_store docs ws)
      | DocumentStore.Accepted =>
        ws ← publish key uri (mkFile uri (an_symbols a) (an_references a) (an_dependencies a) hash gen 0 folder) a docs ws;
        mret (Ok Accepted, ws)
      end
    end.
(** The end of the operation: the guard keeps what was committed. *)
Definition settle (key : str) (reserved : option Z) (r : result IndexError Outcome) (ws : WorkspaceIndex) : WorkspaceIndex :=
  match r with Ok Accepted => ws | _ => rollback key reserved ws end.

(** ** Operations *)

Context (analyze : WorkspaceIndex -> str -> option str -> str -> result (list Z) (Analysis Fact)).

Definition index_file_with_generation_outcome (uri text : str) (gen : Z) (ws : WorkspaceIndex) : outcome (result IndexError Outcome * WorkspaceIndex) :=
  let ws := bump_write_version ws in
  let key := uri_key uri in
  let hash := hash_text text in
  let '(c, ws) := claim key hash gen ws in
  '(r, ws) ← match c with
    | Finished r => mret (r, ws)
    | Claimed reserved =>
      let folder := determine_folder_uri uri ws in
      match analyze ws uri folder text with
      | Err e => mret (Err (ParseFailed e), rollback key reserved ws)
      | Ok a => '(r, ws) ← commit uri text hash gen folder a ws; mret (r, settle key reserved r ws)
      end
    end;
  mret (r, bump_write_version ws).
Definition index_file_with_generation (uri text : str) (gen : Z) (ws : WorkspaceIndex) : outcome (result IndexError unit * WorkspaceIndex) :=
  '(r, ws) ← index_file_with_generation_outcome uri text gen ws; mret (match r with Ok _ => Ok tt | Err e => Err e end, ws).
Definition index_initial_file (uri text : str) (ws : WorkspaceIndex) : outcome (result IndexError unit * WorkspaceIndex) := index_file_with_generation uri text 0 ws.
(** The check of a live commit before it is indexed. *)
Definition live_check (key : str) (hash gen : Z) (ws : WorkspaceIndex) : option SourceCommitOutcome * WorkspaceIndex :=
  match files ws !! key with
  | None => (None, ws)
  | Some f =>
    if gen <? high_water f then (Some CommitRejectedStale, ws)
    else if content_hash f =? hash then
      (Some CommitNoOp, set_files (<[key := with_generations f gen (Z.max (pending_generation f) gen)]> (files ws)) ws)
    else (None, ws)
  end.
Definition index_live_file (uri text : str) (gen : Z) (ws : WorkspaceIndex) : outcome (SourceCommitOutcome * WorkspaceIndex) :=
  let '(early, ws) := live_check (uri_key uri) (hash_text text) gen ws in
  match early with
  | Some r => mret (r, ws)
  | None =>
    '(r, ws) ← index_file_with_generation_outcome uri text gen ws;
    mret (match r with Ok Accepted => CommitAccepted | Ok NoOp => CommitNoOp | Ok RejectedStale => CommitRejectedStale | Err e => CommitFailed e end, ws)
  end.

(** Every spelling of the URI that the file's symbols and references carry. *)
Definition removed_uris (uri : str) (f : FileIndex) : list str :=
  uri :: (symbol_uri <$> file_symbols f) ++ concat ((fun x : str * list SymbolReference => ref_uri <$> x.2) <$> map_to_list (references f)).
(** The file and all that is derived from it, under the lock on the files. *)
Definition remove_entry (uri : str) (ws : WorkspaceIndex) : outcome WorkspaceIndex :=
  let key := uri_key uri in
  match files ws !! key with
  | None => mret ws
  | Some f =>
    graph ← PackageGraph.remove_edges_for_file (package_graph ws) uri;
    let gone := removed_uris uri f in
    let syms := sweep (fun c => bool_decide (loc_uri (location c) ∉ gone)) (incremental_remove_symbols (symbols ws) f) in
    let search := sweep (fun s => bool_decide (symbol_uri s ∉ gone)) (incremental_remove_search (search_index ws) f) in
    let refs := sweep (fun r => bool_decide (ref_uri r ∉ gone)) (remove_file_global_refs (global_references ws) f uri) in
    mret (mkWorkspace (delete key (files ws)) syms search refs (facts_remove key uri (facts ws)) graph (document_store ws) (workspace_folders ws) (limits ws)
      (resource_limit_rejection ws) (write_version ws))
  end.
(** After it the document is closed, under the lock of the store alone. *)
Definition close_document (uri : str) (ws : WorkspaceIndex) : WorkspaceIndex := set_document_store (close uri_key uri (document_store ws)).2 ws.
Definition remove_file (raw : str) (ws : WorkspaceIndex) : outcome WorkspaceIndex :=
  let uri := normalize_uri raw in
  ws ← remove_entry uri (bump_write_version ws);
  mret (bump_write_version (close_document uri ws)).
Fixpoint remove_files (raws : list str) (ws : WorkspaceIndex) : outcome WorkspaceIndex :=
  match raws with [] => mret ws | raw :: raws => ws ← remove_file raw ws; remove_files raws ws end.
Definition remove_folder (folder : str) (ws : WorkspaceIndex) : outcome WorkspaceIndex :=
  remove_files (source_uri <$> filter (fun f => folder_uri f = Some folder) (map_to_list (files ws)).*2) ws.
(** [clear] takes its locks one after another. *)
Definition clear_files (ws : WorkspaceIndex) : WorkspaceIndex :=
  mkWorkspace ∅ (symbols ws) (search_index ws) (global_references ws) (facts ws) (package_graph ws) (document_store ws) (workspace_folders ws) (limits ws)
    (resource_limit_rejection ws) (write_version ws).
Definition clear_symbols (ws : WorkspaceIndex) : WorkspaceIndex :=
  mkWorkspace (files ws) ∅ (search_index ws) (global_references ws) (facts ws) (package_graph ws) (document_store ws) (workspace_folders ws) (limits ws)
    (resource_limit_rejection ws) (write_version ws).
Definition clear_search_index (ws : WorkspaceIndex) : WorkspaceIndex :=
  mkWorkspace (files ws) (symbols ws) ∅ (global_references ws) (facts ws) (package_graph ws) (document_store ws) (workspace_folders ws) (limits ws)
    (resource_limit_rejection ws) (write_version ws).
Definition clear_global_references (ws : WorkspaceIndex) : WorkspaceIndex :=
  mkWorkspace (files ws) (symbols ws) (search_index ws) ∅ (facts ws) (package_graph ws) (document_store ws) (workspace_folders ws) (limits ws)
    (resource_limit_rejection ws) (write_version ws).
Definition clear_facts (ws : WorkspaceIndex) : WorkspaceIndex :=
  mkWorkspace (files ws) (symbols ws) (search_index ws) (global_references ws) (facts_new (Fact := Fact)) (package_graph ws) (document_store ws) (workspace_folders ws) (limits ws)
    (resource_limit_rejection ws) (write_version ws).
Definition clear_package_graph (ws : WorkspaceIndex) : WorkspaceIndex :=
  mkWorkspace (files ws) (symbols ws) (search_index ws) (global_references ws) (facts ws) PackageGraph.new (document_store ws) (workspace_folders ws) (limits ws)
    (resource_limit_rejection ws) (write_version ws).
Definition clear (ws : WorkspaceIndex) : WorkspaceIndex :=
  bump_write_version (clear_package_graph (clear_facts (clear_global_references (clear_search_index (clear_symbols (clear_files (bump_write_version ws))))))).
Definition reset_generation_for_close (raw : str) (ws : WorkspaceIndex) : WorkspaceIndex :=
  let key := uri_key (normalize_uri raw) in
  match files ws !! key with
  | None => ws
  | Some f => bump_write_version (set_files (<[key := with_generations f 0 0]> (files ws)) ws)
  end.

(** ** Batches *)

(** A duplicate key keeps the place of its first item and the content of its
    last. *)
Fixpoint put_item (item : str * str) (items : list (str * str)) : list (str * str) :=
  match items with
  | [] => [item]
  | x :: items => if bool_decide (uri_key x.1 = uri_key item.1) then item :: items else x :: put_item item items
  end.
Definition deduplicate (items : list (str * str)) : list (str * str) := foldl (fun acc item => put_item item acc) [] items.
Context (analyze_batch : WorkspaceIndex -> str -> option str -> str -> result (list Z) (Analysis Fact)).
(** Phase 1, without locks: what is to be inserted, and the errors. *)
Record Parsed := mkParsed { parsed_uri : str; parsed_text : str; parsed_file : FileIndex; parsed_edges : list PackageEdge }.
Fixpoint parse_batch (items : list (str * str)) (ws : WorkspaceIndex) : list Parsed * list IndexError :=
  match items with
  | [] => ([], [])
  | (uri, text) :: items =>
    let hash := hash_text text in
    let rest := parse_batch items ws in
    if match files ws !! uri_key uri with Some f => content_hash f =? hash | None => false end then rest
    else
      let folder := determine_folder_uri uri ws in
      match analyze_batch ws uri folder text with
      | Err e => (rest.1, ParseFailed e :: rest.2)
      | Ok a => (mkParsed uri text (mkFile uri (an_symbols a) (an_references a) (an_dependencies a) hash 0 0 folder) (an_edges a) :: rest.1, rest.2)
      end
  end.
(** Phase 2: one file of the bulk insertion. *)
Definition insert_parsed (p : Parsed) (ws : WorkspaceIndex) : outcome (list IndexError * WorkspaceIndex) :=
  let key := uri_key (parsed_uri p) in
  refused ← admission_limit_for key (len (file_symbols (parsed_file p))) ws;
  match refused with
  | Some kind => mret ([resource_limit_error kind (limits ws)], record_resource_limit_rejection kind ws)
  | None =>
    let '(r, docs) := accept_candidate uri_key (parsed_uri p) 1 (parsed_text p) false (document_store ws) in
    match r with
    | DocumentStore.RejectedStale => mret ([VersionRejected], set_document_store docs ws)
    | DocumentStore.Accepted =>
      let refs := match files ws !! key with Some o => remove_file_global_refs (global_references ws) o (parsed_uri p) | None => global_references ws end in
      graph ← PackageGraph.remove_edges_for_file (package_graph ws) (parsed_uri p);
      mret ([], mkWorkspace (<[key := parsed_file p]> (files ws)) (symbols ws) (search_index ws) (add_file_global_refs refs (parsed_file p)) (facts ws)
        (PackageGraph.add_edges graph (parsed_uri p) (hash_uri (parsed_uri p)) (parsed_edges p)) docs (workspace_folders ws) (limits ws)
        (resource_limit_rejection ws) (write_version ws))
    end
  end.
Fixpoint insert_batch (ps : list Parsed) (ws : WorkspaceIndex) : outcome (list IndexError * WorkspaceIndex) :=
  match ps with [] => mret ([], ws) | p :: ps => '(e, ws) ← insert_parsed p ws; '(es, ws) ← insert_batch ps ws; mret (e ++ es, ws) end.
Definition rebuild_names (ws : WorkspaceIndex) : WorkspaceIndex :=
  let values := (map_to_list (files ws)).*2 in
  mkWorkspace (files ws) (rebuild_symbol_cache values) (rebuild_search_index values) (global_references ws) (facts ws) (package_graph ws) (document_store ws)
    (workspace_folders ws) (limits ws) (resource_limit_rejection ws) (write_version ws).
Definition index_files_batch (items : list (str * str)) (ws : WorkspaceIndex) : outcome (list IndexError * WorkspaceIndex) :=
  let ws := bump_write_version ws in
  let '(parsed, errors) := parse_batch (deduplicate items) ws in
  '(more, ws) ← insert_batch parsed ws;
  mret (errors ++ more, bump_write_version (rebuild_names ws)).

(** ** Queries *)

Definition indexed_generation (raw : str) (ws : WorkspaceIndex) : option Z := generation <$> files ws !! uri_key (normalize_uri raw).
Definition is_index_generation_stale (raw : str) (expected : Z) (ws : WorkspaceIndex) : bool :=
  match indexed_generation raw ws with Some g => g <? expected | None => false end.
Definition stale_file_count (ws : WorkspaceIndex) : Z := len (filter (fun f => generation f < pending_generation f) (map_to_list (files ws)).*2).
(** [find_references] and [count_usages] while no other operation runs *)
Definition find_references (symbol_name : str) (ws : WorkspaceIndex) : outcome (list Location) :=
  find_references_inner uri_key (document_store ws) (global_references ws) symbol_name false.
Definition count_usages (symbol_name : str) (ws : WorkspaceIndex) : outcome Z := count_usages_inner uri_key (document_store ws) (global_references ws) symbol_name.
End index.
Arguments WorkspaceIndex P : clear implicits.

(** What the coordinator sees. *)
#[export] Instance workspace_ops {P} : WorkspaceIndexOps (WorkspaceIndex P) :=
  {| symbol_counts ws := symbols_of (files ws); take_resource_limit_rejection := take_rejection |}.
