(* ===== verification/WorkspaceIndexLaws.v ===== *)
(** * Laws of the workspace index

    The invariant of the index in three layers, by what a run must respect for
    it, and that every critical section keeps each of them: what keeps
    operations from failing, which every run keeps; the files and the maps of
    their names; the references, which need one spelling for each file. *)

From stdpp Require Import base numbers list gmap sets relations.
From S2P Require Import Prelude Spans LineIndex Monitoring Coordinator CoordinatorLaws PackageGraph PackageIndex DocumentStore NameMaps WorkspaceSymbols WorkspaceSymbolLaws WorkspaceIndex.

(** ** Sizes *)

Lemma sum_Z_perm l1 l2 : l1 ≡ₚ l2 -> sum_Z l1 = sum_Z l2.
Proof. induction 1; simpl; lia. Qed.
Definition total_symbols (fs : gmap str FileIndex) : Z := sum_Z (symbols_of fs).
Definition replaced_symbols (fs : gmap str FileIndex) (key : str) : Z := match fs !! key with Some f => len (file_symbols f) | None => 0 end.
Lemma total_insert fs key f : total_symbols (<[key := f]> fs) = total_symbols fs - replaced_symbols fs key + len (file_symbols f).
Proof.
  assert (Hi : forall fs, fs !! key = None -> total_symbols (<[key := f]> fs) = total_symbols fs + len (file_symbols f)).
  { intros fs' Hk. unfold total_symbols, symbols_of. rewrite (sum_Z_perm _ (len (file_symbols f) :: ((fun f => len (file_symbols f)) <$> (map_to_list fs').*2))); [simpl; lia|]. by rewrite (map_to_list_insert _ _ _ Hk). }
  unfold replaced_symbols. destruct (fs !! key) as [g|] eqn:E; [|rewrite Hi by done; lia].
  rewrite <-insert_delete_eq, Hi by apply lookup_delete_eq. enough (total_symbols fs = len (file_symbols g) + total_symbols (delete key fs)) by lia.
  unfold total_symbols, symbols_of. rewrite (sum_Z_perm _ (len (file_symbols g) :: ((fun f => len (file_symbols f)) <$> (map_to_list (delete key fs)).*2))); [done|]. by rewrite <-(map_to_list_delete _ _ _ E).
Qed.
Lemma total_delete fs key : total_symbols (delete key fs) = total_symbols fs - replaced_symbols fs key.
Proof.
  unfold replaced_symbols. destruct (fs !! key) as [g|] eqn:E; [|rewrite delete_id by done; lia].
  enough (total_symbols fs = len (file_symbols g) + total_symbols (delete key fs)) by lia.
  unfold total_symbols, symbols_of. rewrite (sum_Z_perm _ (len (file_symbols g) :: ((fun f => len (file_symbols f)) <$> (map_to_list (delete key fs)).*2))); [done|]. by rewrite <-(map_to_list_delete _ _ _ E).
Qed.
Lemma symbols_of_nonneg fs : Forall (fun n => 0 <= n) (symbols_of fs).
Proof. unfold symbols_of. apply Forall_fmap, Forall_true. intros f. apply len_nonneg. Qed.
Lemma sum_nonneg l : Forall (fun n => 0 <= n) l -> 0 <= sum_Z l.
Proof. induction 1; simpl; lia. Qed.
Lemma replaced_le fs key : 0 <= replaced_symbols fs key <= total_symbols fs.
Proof.
  pose proof (sum_nonneg _ (symbols_of_nonneg (delete key fs))) as H. fold (total_symbols (delete key fs)) in H. rewrite total_delete in H.
  unfold replaced_symbols in *. destruct (fs !! key); [pose proof (len_nonneg (file_symbols f))|]; lia.
Qed.

(** The shape of a limit that a machine can hold. *)
Record within (l : IndexResourceLimits) (fs : gmap str FileIndex) : Prop := mkWithin {
  within_files : Z.of_nat (size fs) <= Z.max 0 (max_files l);
  within_symbols : total_symbols fs <= Z.max 0 (max_total_symbols l);
}.
Definition limits_ok (l : IndexResourceLimits) : Prop := 0 <= max_files l <= usize_max /\ 0 <= max_total_symbols l < usize_max.
Lemma within_empty l : within l ∅.
Proof. split; [rewrite map_size_empty; simpl; lia|]. unfold total_symbols, symbols_of. rewrite map_to_list_empty. simpl. lia. Qed.
Lemma within_delete l fs key : within l fs -> within l (delete key fs).
Proof.
  intros [H1 H2]. split; [|rewrite total_delete; pose proof (replaced_le fs key); lia].
  destruct (fs !! key) as [f|] eqn:E; [|by rewrite delete_id]. pose proof (map_size_delete_Some key fs) as Hd. rewrite Hd by (by eexists). lia.
Qed.
Lemma within_same l fs key f f' : within l fs -> fs !! key = Some f -> file_symbols f' = file_symbols f -> within l (<[key := f']> fs).
Proof.
  intros [H1 H2] E Es. split; [rewrite map_size_insert_Some by (by eexists); done|]. rewrite total_insert. unfold replaced_symbols. rewrite E, Es. lia.
Qed.

Lemma decide_accepted (r : result IndexError Outcome) : r = Ok Accepted \/ r <> Ok Accepted.
Proof. destruct r as [[| |]|e]; (by left) || (by right). Qed.

Section laws.
Context {P Fact : Type} `{FactStores P Fact} (uri_key normalize_uri : str -> str) (hash_text hash_uri : str -> Z).
Notation WS := (WorkspaceIndex P).
Implicit Types (ws : WS) (a : Analysis Fact).
Notation commit := (commit uri_key hash_uri).
Notation remove_file := (remove_file uri_key normalize_uri).

Lemma admission_spec key n ws : limits_ok (limits ws) -> within (limits ws) (files ws) -> 0 <= n <= usize_max ->
  exists o, admission_limit_for key n ws = Ret o /\
    (o = None -> forall f, len (file_symbols f) = n -> within (limits ws) (<[key := f]> (files ws))).
Proof using Type.
  intros [[L1 L1'] [L2 L2']] [W1 W2] Hn. unfold admission_limit_for, file_count.
  destruct (bool_decide (files ws !! key = None) && (max_files (limits ws) <=? Z.of_nat (size (files ws)))) eqn:Eb; [by eexists|].
  unfold symbol_count. destruct (sum_usize_spec _ (symbols_of_nonneg (files ws))) as [-> Hs0]; [fold (total_symbols (files ws)); lia|]. fold (total_symbols (files ws)) in *.
  cbn [mbind outcome_bind]. eexists. split; [reflexivity|]. fold (replaced_symbols (files ws) key). pose proof (replaced_le (files ws) key).
  unfold saturating_sub, saturating_add. destruct (Z.ltb_spec (max_total_symbols (limits ws)) (Z.min usize_max (Z.max 0 (total_symbols (files ws) - replaced_symbols (files ws) key) + n))); [done|].
  intros _ f Hf. split; [|rewrite total_insert, Hf; lia]. destruct (files ws !! key) as [g|] eqn:E; [rewrite map_size_insert_Some by (by eexists); done|].
  rewrite map_size_insert_None by done. rewrite bool_decide_true in Eb by done. simpl in Eb. apply Z.leb_gt in Eb. lia.
Qed.

(** ** Runs *)

(** Which runs are considered: the spellings of URIs that operations use, what
    extraction may find in a file, and whether other operations come between
    the sections of [clear]. *)
Record Regime := mkRegime { spelled : str -> Prop; finds : str -> Analysis Fact -> Prop; racing : Prop }.
Context (R : Regime).
(** One spelling for each key. *)
Definition canonical : Prop := forall u v, spelled R u -> spelled R v -> uri_key u = uri_key v -> u = v.
(** Everything found in a file carries its URI. *)
Record carries_uri (uri : str) a : Prop := mkCarriesUri {
  cu_symbols : Forall (fun s => symbol_uri s = uri) (an_symbols a);
  cu_references : map_Forall (fun _ rs => Forall (fun r => ref_uri r = uri) rs) (an_references a);
}.
(** Extraction does that, and nothing commits while [clear] runs. *)
Record tidy : Prop := mkTidy { tidy_finds : forall uri a, finds R uri a -> carries_uri uri a; tidy_clear : ~ racing R }.
(** The number of symbols of a file is the length of a vector. *)
Definition fits a : Prop := len (an_symbols a) <= usize_max.

(** ** The invariant *)

(** What keeps the operations from failing. *)
Record ws_safe ws : Prop := mkWsSafe {
  safe_graph : exists gf, represents gf (package_graph ws);
  safe_limits : limits_ok (limits ws);
  safe_within : within (limits ws) (files ws);
  safe_poison : poisoned (document_store ws) = false;
}.
(** The maps of names follow the files. *)
Record ws_named ws : Prop := mkWsNamed {
  nm_files : files_wf uri_key (files ws);
  nm_symbols : cache_ok (files ws) (symbols ws);
  nm_search : projects search_entries (files ws) (search_index ws);
}.
(** And so do the references. *)
Record ws_referenced ws : Prop := mkWsReferenced {
  rf_spelled : map_Forall (fun _ f => spelled R (source_uri f)) (files ws);
  rf_refs : projects reference_entries (files ws) (global_references ws);
}.
Lemma new_safe l : limits_ok l -> ws_safe (with_resource_limits (Fact := Fact) l).
Proof using Type. intros Hl. split; simpl; try done; [exists ∅; apply represents_new|apply within_empty]. Qed.
Lemma new_named l : ws_named (with_resource_limits (Fact := Fact) l).
Proof using Type. split; simpl; [done|apply cache_ok_empty|apply projects_empty]. Qed.
Lemma new_referenced l : ws_referenced (with_resource_limits (Fact := Fact) l).
Proof using Type. split; simpl; [done|apply projects_empty]. Qed.

(** Sections that change at most the generations of a file, and fields that
    the invariant does not speak of. *)
Record touched ws ws' : Prop := mkTouched {
  t_files : files ws' = files ws \/ exists key f g p, files ws !! key = Some f /\ files ws' = <[key := with_generations f g p]> (files ws);
  t_symbols : symbols ws' = symbols ws;
  t_search : search_index ws' = search_index ws;
  t_refs : global_references ws' = global_references ws;
  t_graph : package_graph ws' = package_graph ws;
  t_docs : document_store ws' = document_store ws;
  t_limits : limits ws' = limits ws;
}.
Lemma touched_fields ws ws' : files ws' = files ws -> symbols ws' = symbols ws -> search_index ws' = search_index ws -> global_references ws' = global_references ws ->
  package_graph ws' = package_graph ws -> document_store ws' = document_store ws -> limits ws' = limits ws -> touched ws ws'.
Proof using Type. intros. split; try done. by left. Qed.
Lemma touched_regenerate ws key f g p : files ws !! key = Some f -> touched ws (set_files (<[key := with_generations f g p]> (files ws)) ws).
Proof using Type. intros E. split; try done. right. by exists key, f, g, p. Qed.
Lemma claim_touched key hash gen ws : touched ws (claim key hash gen ws).2.
Proof using Type.
  unfold claim. destruct (files ws !! key) as [f|] eqn:E.
  - destruct (_ =? _); [by apply touched_regenerate|]. destruct (_ && _); [by apply touched_fields|]. destruct (_ && _); [by apply touched_regenerate|by apply touched_fields].
  - destruct (_ <=? _); by apply touched_fields.
Qed.
Lemma rollback_touched key r ws : touched ws (rollback key r ws).
Proof using Type.
  unfold rollback. destruct r as [r|]; [|by apply touched_fields]. destruct (files ws !! key) as [f|] eqn:E; [|by apply touched_fields].
  destruct (_ =? _); [by apply touched_regenerate|by apply touched_fields].
Qed.
Lemma live_check_touched key hash gen ws : touched ws (live_check key hash gen ws).2.
Proof using Type.
  unfold live_check. destruct (files ws !! key) as [f|] eqn:E; [|by apply touched_fields]. destruct (_ <? _); [by apply touched_fields|].
  destruct (_ =? _); [by apply touched_regenerate|by apply touched_fields].
Qed.
Lemma reset_touched raw ws : touched ws (reset_generation_for_close uri_key normalize_uri raw ws).
Proof using Type.
  unfold reset_generation_for_close. destruct (files ws !! _) as [f|] eqn:E; [|by apply touched_fields]. split; try done. right. by eexists _, f, _, _.
Qed.
Lemma touched_safe ws ws' : touched ws ws' -> ws_safe ws -> ws_safe ws'.
Proof using Type.
  intros [Hf _ _ _ E1 E2 E3] []. split; rewrite ?E1, ?E2, ?E3; try done. destruct Hf as [->|(key & f & g & p & E & ->)]; [done|]. by apply (within_same _ _ _ f).
Qed.
Lemma touched_projects {A} (entries : FileIndex -> list (str * A)) ws ws' m : (forall f g p, entries (with_generations f g p) = entries f) -> touched ws ws' ->
  projects entries (files ws) m -> projects entries (files ws') m.
Proof using Type.
  intros He [Hf _ _ _ _ _ _] [H1 H2]. split; [|done]. intros k. rewrite H1. destruct Hf as [->|(key & f & g & p & E & ->)]; [done|]. by rewrite contributed_same.
Qed.
Lemma touched_named ws ws' : touched ws ws' -> ws_named ws -> ws_named ws'.
Proof using Type.
  intros Ht []. split.
  - destruct Ht as [[->|(key & f & g & p & E & ->)] _ _ _ _ _ _]; [done|]. apply map_Forall_insert_2; [|done]. destruct (nm_files0 _ _ E). by split.
  - rewrite (t_symbols _ _ Ht). destruct nm_symbols0 as [H1 H2 H3]. split; try done. intros k x. rewrite H1.
    destruct Ht as [[->|(key & f & g & p & E & ->)] _ _ _ _ _ _]; [done|]. by rewrite contributed_same.
  - rewrite (t_search _ _ Ht). by apply (touched_projects _ ws).
Qed.
Lemma touched_referenced ws ws' : touched ws ws' -> ws_referenced ws -> ws_referenced ws'.
Proof using Type.
  intros Ht []. split.
  - destruct Ht as [[->|(key & f & g & p & E & ->)] _ _ _ _ _ _]; [done|]. apply map_Forall_insert_2; [|done]. exact (rf_spelled0 _ _ E).
  - rewrite (t_refs _ _ Ht). by apply (touched_projects _ ws).
Qed.

(** ** Replacing and removing a file *)

(** The maps after the old version of a file is taken out. *)
Definition symbols_without ws key := match files ws !! key with Some o => incremental_remove_symbols (symbols ws) o | None => symbols ws end.
Definition search_without ws key := match files ws !! key with Some o => incremental_remove_search (search_index ws) o | None => search_index ws end.
Definition refs_without ws key uri := match files ws !! key with Some o => remove_file_global_refs (global_references ws) o uri | None => global_references ws end.
Lemma names_without ws key : ws_named ws ->
  cache_ok (delete key (files ws)) (symbols_without ws key) /\ projects search_entries (delete key (files ws)) (search_without ws key).
Proof using Type.
  intros []. unfold symbols_without, search_without. destruct (files ws !! key) as [f|] eqn:E; [|by rewrite delete_id].
  split; [by apply (cache_ok_remove uri_key)|by apply (search_remove uri_key)].
Qed.
Lemma same_source ws uri f : files_wf uri_key (files ws) -> ws_referenced ws -> canonical -> spelled R uri -> files ws !! uri_key uri = Some f -> source_uri f = uri.
Proof using Type. intros Hw [Hs _] Hcan Hsp E. apply Hcan; [exact (Hs _ _ E)|done|]. apply (fw_key _ _ _ (Hw _ _ E)). Qed.
Lemma references_without ws uri : files_wf uri_key (files ws) -> ws_referenced ws -> canonical -> spelled R uri ->
  projects reference_entries (delete (uri_key uri) (files ws)) (refs_without ws (uri_key uri) uri).
Proof using Type.
  intros Hw Hrf Hcan Hsp. unfold refs_without. destruct (files ws !! uri_key uri) as [f|] eqn:E; [|rewrite delete_id by done; apply Hrf].
  pose proof (same_source _ _ _ Hw Hrf Hcan Hsp E) as Hu. rewrite <-Hu at 2. apply (references_remove uri_key); [done|apply Hrf|done].
Qed.
Lemma accept_spec u v t enforce docs r docs' : poisoned docs = false -> accept_candidate uri_key u v t enforce docs = (r, docs') ->
  poisoned docs' = false /\
  match r with
  | DocumentStore.Accepted => exists d, documents docs' = <[uri_key u := d]> (documents docs) /\ text d = t /\ version d = v
  | DocumentStore.RejectedStale => docs' = docs
  end.
Proof using Type.
  intros Hp. unfold accept_candidate, with_write. rewrite Hp. destruct docs as [m p]. simpl in *. subst p.
  destruct (m !! uri_key u) as [d|]; simpl; [destruct (enforce && _)|]; intros [= <- <-]; split; try done; by eexists.
Qed.
Lemma graph_replace graph gf uri id es : represents gf graph ->
  exists g1, PackageGraph.remove_edges_for_file graph uri = Ret g1 /\ exists gf', represents gf' (PackageGraph.add_edges g1 uri id es).
Proof using Type.
  intros Hg. destruct (represents_remove gf graph uri Hg) as (g1 & -> & H1). exists g1. split; [done|].
  exists (<[uri := (id, es)]> (delete uri gf)). apply represents_add; [done|apply lookup_delete_eq].
Qed.
Definition indexed (uri : str) (hash gen : Z) (folder : option str) a : FileIndex :=
  mkFile uri (an_symbols a) (an_references a) (an_dependencies a) hash gen 0 folder.
Lemma indexed_wf uri hash gen folder a : carries_uri uri a -> file_wf uri_key (uri_key uri) (indexed uri hash gen folder a).
Proof using Type. intros [Hs Hr]. by split. Qed.

(** *** Publication *)

(** What an accepted commit leaves. *)
Record committed uri f a ws ws' : Prop := mkCommitted {
  cm_files : files ws' = <[uri_key uri := f]> (files ws);
  cm_symbols : symbols ws' = incremental_add_symbols (symbols_without ws (uri_key uri)) f;
  cm_search : search_index ws' = incremental_add_search (search_without ws (uri_key uri)) f;
  cm_refs : global_references ws' = add_file_global_refs (refs_without ws (uri_key uri) uri) f;
  cm_facts : facts ws' = facts_replace (uri_key uri) uri (an_facts a) (facts ws);
}.
Lemma commit_safe uri t hash gen folder a ws : ws_safe ws -> fits a ->
  exists r ws', commit uri t hash gen folder a ws = Ret (r, ws') /\ ws_safe ws' /\ limits ws' = limits ws /\ r <> Ok NoOp /\
    (r = Ok Accepted -> committed uri (indexed uri hash gen folder a) a ws ws' /\
      exists d, documents (document_store ws') = <[uri_key uri := d]> (documents (document_store ws)) /\ text d = t /\ version d = document_version gen) /\
    (r <> Ok Accepted -> touched ws ws' /\ files ws' = files ws /\ facts ws' = facts ws).
Proof using Type.
  intros Hok Ha. unfold WorkspaceIndex.commit. destruct (match files ws !! uri_key uri with Some f => _ | None => false end).
  { exists (Ok RejectedStale), ws. by repeat (split; [by try apply touched_fields|]). }
  pose proof Hok as [[gf Hg] Hlim Hwin Hpo]. destruct (admission_spec (uri_key uri) (len (an_symbols a)) ws Hlim Hwin) as (o & -> & Hadm); [pose proof (len_nonneg (an_symbols a)); unfold fits in Ha; lia|].
  cbn [mbind outcome_bind]. destruct o as [kind|].
  { eexists _, _. split; [reflexivity|]. assert (Ht : touched ws (record_resource_limit_rejection kind ws)) by by apply touched_fields. split; [by apply (touched_safe ws)|]. by repeat (split; [done|]). }
  destruct (accept_candidate uri_key uri (document_version gen) t (0 <? gen) (document_store ws)) as [r docs] eqn:Ea. destruct (accept_spec _ _ _ _ _ _ _ Hpo Ea) as [Hp Hr]. destruct r.
  - destruct Hr as (d & Hd & Ht & Hv), (graph_replace _ gf uri (hash_uri uri) (an_edges a) Hg) as (g1 & Eg & Hg'). unfold publish. rewrite Eg. cbn [mbind outcome_bind].
    eexists _, _. split; [reflexivity|]. split; [split; simpl; try done; by apply Hadm|]. split; [done|]. split; [done|]. split; [|done]. intros _. split; [done|]. by exists d.
  - subst docs. assert (set_document_store (document_store ws) ws = ws) as -> by (by destruct ws). exists (Err VersionRejected), ws. by repeat (split; [by try apply touched_fields|]).
Qed.
Lemma commit_named uri t hash gen folder a ws r ws' : ws_safe ws -> fits a -> commit uri t hash gen folder a ws = Ret (r, ws') -> carries_uri uri a -> ws_named ws -> ws_named ws'.
Proof using Type.
  intros Hok Hfit E Ha Hn. destruct (commit_safe uri t hash gen folder a ws Hok Hfit) as (r' & ws2 & E' & _ & _ & _ & Hacc & Hrej). rewrite E in E'. injection E' as <- <-.
  destruct (decide_accepted r) as [->|Hr]; [|apply (touched_named ws); [by apply Hrej|done]]. destruct (Hacc eq_refl) as [[Ef Es Ei _ _] _], (names_without ws (uri_key uri) Hn).
  split; rewrite Ef, ?Es, ?Ei.
  - apply map_Forall_insert_2; [by apply indexed_wf|apply Hn].
  - rewrite <-insert_delete_eq. apply cache_ok_add; [done|apply lookup_delete_eq].
  - rewrite <-insert_delete_eq. apply projects_add; [done|apply lookup_delete_eq].
Qed.
Lemma commit_referenced uri t hash gen folder a ws r ws' : ws_safe ws -> fits a -> commit uri t hash gen folder a ws = Ret (r, ws') -> canonical -> spelled R uri ->
  files_wf uri_key (files ws) -> ws_referenced ws -> ws_referenced ws'.
Proof using Type.
  intros Hok Hfit E Hcan Hsp Hw Hn. destruct (commit_safe uri t hash gen folder a ws Hok Hfit) as (r' & ws2 & E' & _ & _ & _ & Hacc & Hrej). rewrite E in E'. injection E' as <- <-.
  destruct (decide_accepted r) as [->|Hr]; [|apply (touched_referenced ws); [by apply Hrej|done]]. destruct (Hacc eq_refl) as [[Ef _ _ Er _] _]. split.
  - rewrite Ef. apply map_Forall_insert_2; [done|apply Hn].
  - rewrite Ef, Er, <-insert_delete_eq. apply projects_add; [by apply references_without|apply lookup_delete_eq].
Qed.

(** *** Removal *)

(** The final sweep takes out the spellings of one file. *)
Lemma removed_keys uri f u : file_wf uri_key (uri_key uri) f -> u ∈ removed_uris uri f -> uri_key u = uri_key uri.
Proof using Type.
  intros [Hk Hs Hr]. unfold removed_uris. rewrite elem_of_cons, elem_of_app, elem_concat_fmap. intros [->|[Hu|([k rs] & Hin & Hu)]]; [done| |].
  - apply list_elem_of_fmap in Hu as (s & -> & Hin). rewrite Forall_forall in Hs. by rewrite (Hs _ Hin).
  - apply elem_of_map_to_list in Hin. simpl in Hu. apply list_elem_of_fmap in Hu as (r & -> & Hr'). specialize (Hr _ _ Hin). rewrite Forall_forall in Hr. by rewrite (Hr _ Hr').
Qed.
Lemma sweep_cache fs m keep : cache_ok fs m -> (forall key f k x, fs !! key = Some f -> (k, x) ∈ candidate_entries f -> keep x = true) -> cache_ok fs (sweep keep m).
Proof using Type.
  intros [H1 H2 H3] Hk. assert (Hb : forall k, bucket (sweep keep m) k = bucket m k).
  { intros k. apply sweep_bucket. intros x Hx. apply H1, elem_contributed in Hx as (key & f & Hf & Hx). by eapply Hk. }
  split; intros k; rewrite ?Hb; [apply H1|apply H2|]. apply sweep_no_empty.
Qed.
(** What a removal leaves. *)
Record removed uri f ws ws' : Prop := mkRemoved {
  rm_files : files ws' = delete (uri_key uri) (files ws);
  rm_symbols : symbols ws' = sweep (fun c => bool_decide (loc_uri (location c) ∉ removed_uris uri f)) (symbols_without ws (uri_key uri));
  rm_search : search_index ws' = sweep (fun s => bool_decide (symbol_uri s ∉ removed_uris uri f)) (search_without ws (uri_key uri));
  rm_refs : global_references ws' = sweep (fun r => bool_decide (ref_uri r ∉ removed_uris uri f)) (refs_without ws (uri_key uri) uri);
}.
Lemma remove_entry_safe uri ws : ws_safe ws -> exists ws', remove_entry uri_key uri ws = Ret ws' /\ ws_safe ws' /\ limits ws' = limits ws /\ document_store ws' = document_store ws /\
  match files ws !! uri_key uri with None => ws' = ws | Some f => removed uri f ws ws' end.
Proof using Type.
  intros Hok. unfold remove_entry. destruct (files ws !! uri_key uri) as [f|] eqn:E; [|by exists ws].
  destruct Hok as [[gf Hg] Hl Hw Hp], (represents_remove gf _ uri Hg) as (g & -> & Hg'). cbn [mbind outcome_bind]. eexists. split; [reflexivity|].
  split; [split; simpl; try done; [by eexists|by apply within_delete]|]. split; [done|]. split; [done|]. split; try done; unfold symbols_without, search_without, refs_without; by rewrite E.
Qed.
(** No other file has one of the spellings that are swept. *)
Lemma swept_elsewhere uri f ws key g : files_wf uri_key (files ws) -> files ws !! uri_key uri = Some f -> delete (uri_key uri) (files ws) !! key = Some g ->
  file_wf uri_key key g /\ bool_decide (source_uri g ∉ removed_uris uri f) = true.
Proof using Type.
  intros Hw Hf [Hne Hg]%lookup_delete_Some. pose proof (Hw _ _ Hg) as Hgw. split; [done|]. apply bool_decide_eq_true. intros Hin%removed_keys; [|by apply (Hw _ _ Hf)].
  apply Hne. by rewrite <-(fw_key _ _ _ Hgw).
Qed.
Lemma remove_entry_named uri ws ws' : ws_safe ws -> remove_entry uri_key uri ws = Ret ws' -> ws_named ws -> ws_named ws'.
Proof using Type.
  intros Hok E Hn. destruct (remove_entry_safe uri ws Hok) as (ws2 & E' & _ & _ & _ & Hr). rewrite E in E'. injection E' as <-.
  destruct (files ws !! uri_key uri) as [f|] eqn:Ef; [|by subst]. destruct (names_without ws (uri_key uri) Hn) as [H1 H2]. destruct Hn as [Hw _ _].
  split; rewrite (rm_files _ _ _ _ Hr), ?(rm_symbols _ _ _ _ Hr), ?(rm_search _ _ _ _ Hr).
  - by apply map_Forall_delete.
  - apply sweep_cache; [done|]. intros key g k c Hg (s & Hs & Hc)%elem_candidate_entries. apply elem_under_names in Hc. simpl in Hc. subst c. simpl.
    destruct (swept_elsewhere _ _ _ _ _ Hw Ef Hg) as [[_ Hsy _] Hb]. rewrite Forall_forall in Hsy. by rewrite (Hsy _ Hs).
  - apply sweep_projects; [done|]. intros key g k s Hg (s' & Hs & Ec & _)%elem_search_entries. simpl in Ec. subst s'.
    destruct (swept_elsewhere _ _ _ _ _ Hw Ef Hg) as [[_ Hsy _] Hb]. rewrite Forall_forall in Hsy. by rewrite (Hsy _ Hs).
Qed.
Lemma remove_entry_referenced uri ws ws' : ws_safe ws -> remove_entry uri_key uri ws = Ret ws' -> canonical -> spelled R uri ->
  files_wf uri_key (files ws) -> ws_referenced ws -> ws_referenced ws'.
Proof using Type.
  intros Hok E Hcan Hsp Hw Hn. destruct (remove_entry_safe uri ws Hok) as (ws2 & E' & _ & _ & _ & Hr). rewrite E in E'. injection E' as <-.
  destruct (files ws !! uri_key uri) as [f|] eqn:Ef; [|by subst]. split; rewrite (rm_files _ _ _ _ Hr), ?(rm_refs _ _ _ _ Hr).
  - apply map_Forall_delete, Hn.
  - apply sweep_projects; [by apply references_without|]. intros key g k r Hg Hin. destruct (swept_elsewhere _ _ _ _ _ Hw Ef Hg) as [Hgw Hb]. by rewrite (references_uri _ _ _ _ _ Hgw Hin).
Qed.
Lemma close_safe uri ws : ws_safe ws -> ws_safe (close_document uri_key uri ws).
Proof using Type. intros []. unfold close_document, close, with_write. rewrite safe_poison0. split; simpl; done. Qed.

(** ** Batches *)

(** What phase 1 prepares. *)
Definition parsed_ok (p : Parsed) : Prop :=
  exists folder a, spelled R (parsed_uri p) /\ finds R (parsed_uri p) a /\ fits a /\ parsed_file p = indexed (parsed_uri p) (hash_text (parsed_text p)) 0 folder a.
Lemma insert_parsed_safe p ws : ws_safe ws -> parsed_ok p ->
  exists e ws', insert_parsed uri_key hash_uri p ws = Ret (e, ws') /\ ws_safe ws' /\ limits ws' = limits ws /\
    (files ws' = files ws /\ global_references ws' = global_references ws \/
     files ws' = <[uri_key (parsed_uri p) := parsed_file p]> (files ws) /\
     global_references ws' = add_file_global_refs (refs_without ws (uri_key (parsed_uri p)) (parsed_uri p)) (parsed_file p)).
Proof using Type.
  intros [[gf Hg] Hlim Hwin Hpo] (folder & a & _ & _ & Hfit & Ep). unfold insert_parsed. rewrite Ep. simpl.
  destruct (admission_spec (uri_key (parsed_uri p)) (len (an_symbols a)) ws Hlim Hwin) as (o & -> & Hadm); [pose proof (len_nonneg (an_symbols a)); unfold fits in Hfit; lia|].
  cbn [mbind outcome_bind]. destruct o as [kind|]; [eexists _, _; split; [reflexivity|]; split; [by split; [eexists|..]|]; split; [done|by left]|].
  destruct (accept_candidate _ _ _ _ _ _) as [r docs] eqn:Ea. destruct (accept_spec _ _ _ _ _ _ _ Hpo Ea) as [Hp Hr].
  destruct r; [|subst docs; eexists _, _; split; [reflexivity|]; split; [by split; [eexists|..]|]; split; [done|by left]].
  destruct (graph_replace _ gf (parsed_uri p) (hash_uri (parsed_uri p)) (parsed_edges p) Hg) as (g1 & -> & Hg'). cbn [mbind outcome_bind]. eexists _, _. split; [reflexivity|].
  split; [split; simpl; try done; by apply Hadm|]. split; [done|]. right. split; [done|]. by rewrite <-Ep.
Qed.
Lemma insert_batch_safe ps : forall ws, ws_safe ws -> Forall parsed_ok ps ->
  exists es ws', insert_batch uri_key hash_uri ps ws = Ret (es, ws') /\ ws_safe ws' /\ limits ws' = limits ws /\
    (tidy -> files_wf uri_key (files ws) -> files_wf uri_key (files ws')) /\
    (tidy -> canonical -> files_wf uri_key (files ws) -> ws_referenced ws -> ws_referenced ws').
Proof using Type.
  induction ps as [|p ps IH]; intros ws Hok Hps; [by exists [], ws|]. apply Forall_cons in Hps as [Hp Hps].
  destruct (insert_parsed_safe p ws Hok Hp) as (e & ws1 & E1 & Hok1 & L1 & Hf1), (IH ws1 Hok1 Hps) as (es & ws2 & E2 & Hok2 & L2 & Hw2 & Hr2).
  destruct Hp as (folder & a & Hsp & Hfi & _ & Ep). simpl. rewrite E1. cbn [mbind outcome_bind]. rewrite E2. cbn [mbind outcome_bind]. eexists _, ws2. rewrite L2. split; [done|]. split; [done|].
  split; [done|]. assert (Hw1 : tidy -> files_wf uri_key (files ws) -> files_wf uri_key (files ws1)).
  { intros Ht Hw. destruct Hf1 as [[-> _]|[-> _]]; [done|]. apply map_Forall_insert_2; [|done]. rewrite Ep. by apply indexed_wf, (tidy_finds Ht). }
  split; [tauto|]. intros Ht Hcan Hw Hrf. apply Hr2; try tauto. destruct Hf1 as [[E3 E4]|[E3 E4]]; split; rewrite E3, ?E4; try by apply Hrf.
  - apply map_Forall_insert_2; [by rewrite Ep|apply Hrf].
  - rewrite <-insert_delete_eq. apply projects_add; [by apply references_without|apply lookup_delete_eq].
Qed.
Lemma rebuild_named ws : files_wf uri_key (files ws) -> ws_named (rebuild_names ws).
Proof using Type. intros Hw. split; simpl; [done|by apply cache_ok_rebuild|by apply rebuild_projects]. Qed.

(** ** Clearing *)

(** The sections of [clear], each under one lock. *)
Definition clear_sections : list (WS -> WS) := [clear_files; clear_symbols; clear_search_index; clear_global_references; clear_facts (Fact := Fact); clear_package_graph].
Lemma clear_is_sections ws : clear (Fact := Fact) ws = bump_write_version (foldl (fun ws f => f ws) (bump_write_version ws) clear_sections).
Proof using Type. done. Qed.
Lemma clear_section_safe f ws : f ∈ clear_sections -> ws_safe ws -> ws_safe (f ws) /\ limits (f ws) = limits ws.
Proof using Type.
  intros Hf []. unfold clear_sections in Hf. rewrite !elem_of_cons, elem_of_nil in Hf. destruct_or! Hf; subst f; try done; (split; [|done]); split; simpl; try done.
  - apply within_empty.
  - exists ∅. apply represents_new.
Qed.
Lemma clear_safe ws : ws_safe ws -> ws_safe (clear (Fact := Fact) ws).
Proof using Type. intros []. split; simpl; try done; [exists ∅; apply represents_new|apply within_empty]. Qed.

(** ** Critical sections as steps *)

(** What one thread does between taking and releasing the lock on the files,
    which every writer holds while it updates what is derived from them.
    [clear] alone does not hold that lock throughout: when operations race with
    it each of its sections is a step. *)
Inductive step : WS -> WS -> Prop :=
| step_bump ws : step ws (bump_write_version ws)
| step_claim key hash gen ws : step ws (claim key hash gen ws).2
| step_rollback key reserved ws : step ws (rollback key reserved ws)
| step_commit uri text gen folder a ws r ws' : spelled R uri -> finds R uri a -> fits a -> commit uri text (hash_text text) gen folder a ws = Ret (r, ws') -> step ws ws'
| step_live_check key hash gen ws : step ws (live_check key hash gen ws).2
| step_remove uri ws ws' : spelled R uri -> remove_entry uri_key uri ws = Ret ws' -> step ws ws'
| step_close uri ws : step ws (close_document uri_key uri ws)
| step_clear ws : step ws (clear (Fact := Fact) ws)
| step_clear_section f ws : racing R -> f ∈ clear_sections -> step ws (f ws)
| step_reset raw ws : step ws (reset_generation_for_close uri_key normalize_uri raw ws)
| step_folders folders ws : step ws (set_workspace_folders folders ws)
| step_take ws : step ws (take_rejection ws).2
| step_batch ps ws es ws' : Forall parsed_ok ps -> insert_batch uri_key hash_uri ps ws = Ret (es, ws') -> step ws (rebuild_names ws').
Definition reachable (l : IndexResourceLimits) ws : Prop := rtc step (with_resource_limits (Fact := Fact) l) ws.

Lemma step_safe ws ws' : step ws ws' -> ws_safe ws -> ws_safe ws' /\ limits ws' = limits ws.
Proof using Type.
  intros Hs Hok. assert (Ht : touched ws ws' -> ws_safe ws' /\ limits ws' = limits ws) by (intros Ht; split; [by apply (touched_safe ws)|by apply t_limits]).
  destruct Hs; try (apply Ht; by apply touched_fields).
  - apply Ht, claim_touched.
  - apply Ht, rollback_touched.
  - destruct (commit_safe uri text (hash_text text) gen folder a ws Hok) as (r' & ws2 & E & Hok' & L & _); [done|]. rewrite E in *. by simplify_eq.
  - apply Ht, live_check_touched.
  - destruct (remove_entry_safe uri ws Hok) as (ws2 & E & Hok' & L & _). rewrite E in *. by simplify_eq.
  - split; [by apply close_safe|done].
  - split; [by apply clear_safe|done].
  - by apply clear_section_safe.
  - apply Ht, reset_touched.
  - destruct (insert_batch_safe ps ws Hok) as (es2 & ws2 & E & Hok' & L & _); [done|]. rewrite E in *. simplify_eq. split; [|done]. by destruct Hok'.
Qed.
Lemma step_named ws ws' : tidy -> step ws ws' -> ws_safe ws -> ws_named ws -> ws_named ws'.
Proof using Type.
  intros Hti Hs Hok Hn. assert (Ht : touched ws ws' -> ws_named ws') by (intros Ht; by apply (touched_named ws)). destruct Hs; try (apply Ht; by apply touched_fields).
  - apply Ht, claim_touched.
  - apply Ht, rollback_touched.
  - eapply commit_named; try done. by apply (tidy_finds Hti).
  - apply Ht, live_check_touched.
  - by eapply remove_entry_named.
  - by destruct Hn.
  - split; simpl; [done|apply cache_ok_empty|apply projects_empty].
  - by destruct (tidy_clear Hti).
  - apply Ht, reset_touched.
  - destruct (insert_batch_safe ps ws Hok) as (es2 & ws2 & E & _ & _ & Hw & _); [done|]. rewrite E in *. simplify_eq. by apply rebuild_named, Hw, Hn.
Qed.
Lemma step_referenced ws ws' : tidy -> canonical -> step ws ws' -> ws_safe ws -> files_wf uri_key (files ws) -> ws_referenced ws -> ws_referenced ws'.
Proof using Type.
  intros Hti Hcan Hs Hok Hw Hn. assert (Ht : touched ws ws' -> ws_referenced ws') by (intros Ht; by apply (touched_referenced ws)). destruct Hs; try (apply Ht; by apply touched_fields).
  - apply Ht, claim_touched.
  - apply Ht, rollback_touched.
  - by eapply commit_referenced.
  - apply Ht, live_check_touched.
  - by eapply remove_entry_referenced.
  - by destruct Hn.
  - split; simpl; [done|apply projects_empty].
  - by destruct (tidy_clear Hti).
  - apply Ht, reset_touched.
  - destruct (insert_batch_safe ps ws Hok) as (es2 & ws2 & E & _ & _ & _ & Hr); [done|]. rewrite E in *. simplify_eq. destruct (Hr Hti Hcan Hw Hn). by split.
Qed.
Lemma steps_safe ws ws' : rtc step ws ws' -> ws_safe ws -> ws_safe ws' /\ limits ws' = limits ws.
Proof using Type.
  induction 1 as [|x y z Hs _ IH]; [done|]. intros Hok. destruct (step_safe x y Hs Hok) as [Hy Ly], (IH Hy) as [Hz Lz]. by rewrite Lz.
Qed.
Lemma reachable_safe l ws : limits_ok l -> reachable l ws -> ws_safe ws /\ limits ws = l.
Proof using Type. intros Hl Hr. by apply (steps_safe _ _ Hr), new_safe. Qed.
Lemma reachable_named l ws : tidy -> limits_ok l -> reachable l ws -> ws_named ws.
Proof using Type.
  intros Ht Hl Hr. revert ws Hr. apply rtc_ind_r; [apply new_named|]. intros ws1 ws2 Hr Hs Hn. eapply step_named; try done. by apply (reachable_safe l).
Qed.
Lemma reachable_referenced l ws : tidy -> canonical -> limits_ok l -> reachable l ws -> ws_referenced ws.
Proof using Type.
  intros Ht Hcan Hl Hr. revert ws Hr. apply rtc_ind_r; [apply new_referenced|]. intros ws1 ws2 Hr Hs Hn. eapply step_referenced; try done; [by apply (reachable_safe l)|].
  by apply (reachable_named l).
Qed.
End laws.
Arguments mkRegime {Fact}.
Arguments spelled {Fact}.
Arguments finds {Fact}.
Arguments racing {Fact}.
(** Nothing is asked of the spellings or of extraction, and operations race
    with [clear]: every run. *)
Definition any_run {Fact} : Regime (Fact := Fact) := mkRegime (fun _ => True) (fun _ _ => True) True.
