(* ===== verification/WorkspaceOperations.v ===== *)
(** * The operations of a workspace index

    Whole operations as sequences of critical sections: each returns, and what
    it publishes depends on its result.  A refused or failed commit publishes
    nothing, and an accepted one publishes its text under its generation. *)

From stdpp Require Import base numbers list gmap sets relations.
From S2P Require Import Prelude Spans Monitoring PackageGraph DocumentStore NameMaps WorkspaceSymbols WorkspaceIndex WorkspaceIndexLaws.

Section operations.
Context {P Fact : Type} `{FactStores P Fact} (uri_key normalize_uri : str -> str) (hash_text hash_uri : str -> Z) (R : Regime (Fact := Fact)).
Notation WS := (WorkspaceIndex P).
Implicit Types (ws : WS) (a : Analysis Fact).
Notation step := (step uri_key normalize_uri hash_text hash_uri R).
Notation reachable := (reachable uri_key normalize_uri hash_text hash_uri R).
Context (analyze : WS -> str -> option str -> str -> result (list Z) (Analysis Fact)).
(** What parsing and extraction answer. *)
Definition analyzes : Prop := forall ws uri folder text a, analyze ws uri folder text = Ok a -> finds R uri a /\ fits a.
Notation index_outcome := (index_file_with_generation_outcome uri_key hash_text hash_uri analyze).
Notation index_live := (index_live_file uri_key hash_text hash_uri analyze).

(** ** What is published *)

Record same_projections ws ws' : Prop := mkSameProjections {
  sp_symbols : symbols ws' = symbols ws;
  sp_search : search_index ws' = search_index ws;
  sp_refs : global_references ws' = global_references ws;
  sp_facts : facts ws' = facts ws;
  sp_graph : package_graph ws' = package_graph ws;
  sp_docs : document_store ws' = document_store ws;
}.
(** The files but for their generations, and with the generation that a new
    commit is compared to. *)
Definition contents ws : gmap str FileIndex := (fun f => with_generations f 0 0) <$> files ws.
Definition effective ws : gmap str FileIndex := (fun f => with_generations f (generation f) (high_water f)) <$> files ws.
(** No claim is under way. *)
Definition settled ws : Prop := map_Forall (fun _ f => pending_generation f <= generation f) (files ws).

Lemma same_refl ws : same_projections ws ws.
Proof using Type. done. Qed.
Lemma same_trans ws1 ws2 ws3 : same_projections ws1 ws2 -> same_projections ws2 ws3 -> same_projections ws1 ws3.
Proof using Type. intros [] []. split; congruence. Qed.
Lemma contents_regenerate (fs : gmap str FileIndex) key f g p : fs !! key = Some f -> (fun f => with_generations f 0 0) <$> <[key := with_generations f g p]> fs = (fun f => with_generations f 0 0) <$> fs.
Proof using Type.
  intros E. rewrite fmap_insert. apply insert_id. rewrite lookup_fmap, E. done.
Qed.
Lemma claim_spec key hash gen ws c ws1 : claim key hash gen ws = (c, ws1) ->
  same_projections ws ws1 /\ limits ws1 = limits ws /\ contents ws1 = contents ws /\
  match c with
  | Finished (Ok NoOp) => exists f, files ws !! key = Some f /\ content_hash f = hash
  | Finished (Ok Accepted) => False
  | Finished _ | Claimed None => files ws1 = files ws
  | Claimed (Some r) => r = gen /\ exists f, files ws !! key = Some f /\ files ws1 = <[key := with_generations f (generation f) gen]> (files ws)
  end.
Proof using Type.
  unfold claim. destruct (files ws !! key) as [f|] eqn:E.
  - destruct (Z.eqb_spec (content_hash f) hash).
    { intros [= <- <-]. split; [done|]. split; [done|]. split; [by apply contents_regenerate|by exists f]. }
    destruct (_ && _ && _); [by intros [= <- <-]|]. destruct (_ && _); [|by intros [= <- <-]].
    intros [= <- <-]. split; [done|]. split; [done|]. split; [by apply contents_regenerate|]. split; [done|]. by exists f.
  - destruct (_ <=? _); by intros [= <- <-].
Qed.
Lemma rollback_same key r ws : same_projections ws (rollback key r ws) /\ contents (rollback key r ws) = contents ws.
Proof using Type.
  unfold rollback. destruct r as [r|]; [|done]. destruct (files ws !! key) as [f|] eqn:E; [|done]. destruct (_ =? _); [|done]. split; [done|]. by apply contents_regenerate.
Qed.
(** A claim that is given up leaves no trace. *)
Lemma rollback_effective key hash gen ws reserved ws1 ws2 : settled ws -> claim key hash gen ws = (Claimed reserved, ws1) -> files ws2 = files ws1 ->
  effective (rollback key reserved ws2) = effective ws.
Proof using Type.
  intros Hset Hc E2. destruct (claim_spec _ _ _ _ _ _ Hc) as (_ & _ & _ & Hf). unfold rollback, effective. destruct reserved as [r|]; [|by rewrite E2, Hf].
  destruct Hf as (-> & f & E & Ef). rewrite E2, Ef, lookup_insert_eq. simpl. rewrite Z.eqb_refl. simpl. rewrite insert_insert_eq, fmap_insert. apply insert_id.
  rewrite lookup_fmap, E. simpl. f_equal. specialize (Hset _ _ E). simpl in Hset. unfold high_water, with_generations. simpl. f_equal. lia.
Qed.

(** ** Indexing one file *)

(** [seen] is the state that was parsed against, once the claim was made. *)
Definition accepted_file seen uri text gen ws ws' : Prop := exists a d,
  analyze seen uri (determine_folder_uri uri seen) text = Ok a /\
  committed uri_key uri (indexed uri (hash_text text) gen (determine_folder_uri uri seen) a) a ws ws' /\
  documents (document_store ws') = <[uri_key uri := d]> (documents (document_store ws)) /\ DocumentStore.text d = text /\ version d = document_version gen.
(** What one run of the indexing of a file has done, by its result. *)
Record published seen uri text gen ws (r : result IndexError Outcome) ws' : Prop := mkPublished {
  pub_steps : rtc step ws ws';
  pub_accepted : r = Ok Accepted -> accepted_file seen uri text gen ws ws';
  pub_refused : r <> Ok Accepted -> same_projections ws ws' /\ contents ws' = contents ws;
  pub_noop : r = Ok NoOp -> exists f, files ws !! uri_key uri = Some f /\ content_hash f = hash_text text;
  pub_effective : settled ws -> r <> Ok Accepted -> r <> Ok NoOp -> effective ws' = effective ws;
}.
Lemma published_bump seen uri text gen ws r ws' : published seen uri text gen (bump_write_version ws) r ws' -> published seen uri text gen ws r (bump_write_version ws').
Proof using Type.
  intros [H1 H2 H3 H4 H5]. split; try done.
  - eapply rtc_l; [constructor|]. eapply rtc_r; [exact H1|constructor].
  - intros Hr. destruct (H2 Hr) as (a & d & Ha & [] & Hd). exists a, d. split; [done|]. by split.
  - intros Hr. destruct (H3 Hr) as [[] ?]. by split.
Qed.
(** After a claim: the work is refused or fails, and the claim is given up. *)
Lemma published_given_up seen uri text gen ws reserved ws1 ws2 r : claim (uri_key uri) (hash_text text) gen ws = (Claimed reserved, ws1) ->
  rtc step ws1 ws2 -> same_projections ws1 ws2 -> files ws2 = files ws1 -> r <> Ok Accepted -> r <> Ok NoOp ->
  published seen uri text gen ws r (rollback (uri_key uri) reserved ws2).
Proof using Type.
  intros Hc Hst Hsame Hf Hr1 Hr2. destruct (claim_spec _ _ _ _ _ _ Hc) as (Hp & _ & Hcont & _). destruct (rollback_same (uri_key uri) reserved ws2) as [Hr3 Hr4]. split; try done.
  - eapply rtc_l; [|eapply rtc_r; [exact Hst|constructor]]. pose proof (step_claim uri_key normalize_uri hash_text hash_uri R (uri_key uri) (hash_text text) gen ws) as Hs. by rewrite Hc in Hs.
  - intros _. split; [by eapply same_trans; [|eapply same_trans]|]. rewrite Hr4, <-Hcont. unfold contents. by rewrite Hf.
  - intros Hset _ _. by eapply rollback_effective.
Qed.
(** A claim changes neither what is replaced nor what it replaces. *)
Lemma committed_claimed uri hash gen f a ws reserved ws1 ws2 : claim (uri_key uri) hash gen ws = (Claimed reserved, ws1) ->
  committed uri_key uri f a ws1 ws2 -> committed uri_key uri f a ws ws2.
Proof using Type.
  intros Hc [E1 E2 E3 E4 E5]. destruct (claim_spec _ _ _ _ _ _ Hc) as ([P1 P2 P3 P4 _ _] & _ & _ & Hf). unfold symbols_without, search_without, refs_without in *. destruct reserved as [r|].
  - destruct Hf as (_ & g & Eg & Ef). rewrite Ef in *. rewrite lookup_insert_eq in *.
    split; unfold symbols_without, search_without, refs_without; rewrite ?Eg, <-?P1, <-?P2, <-?P3, <-?P4; try done. by rewrite E1, insert_insert_eq.
  - rewrite Hf in *. split; unfold symbols_without, search_without, refs_without; by rewrite <-?P1, <-?P2, <-?P3, <-?P4.
Qed.
Lemma publication uri text gen a ws reserved ws1 : ws_safe ws1 -> spelled R uri -> finds R uri a -> fits a ->
  claim (uri_key uri) (hash_text text) gen ws = (Claimed reserved, ws1) -> analyze ws1 uri (determine_folder_uri uri ws1) text = Ok a ->
  exists r ws2, commit uri_key hash_uri uri text (hash_text text) gen (determine_folder_uri uri ws1) a ws1 = Ret (r, ws2) /\
    published ws1 uri text gen ws r (settle (uri_key uri) reserved r ws2).
Proof using Type.
  intros Hok Hsp Hfi Hfit Hc Ha. destruct (commit_safe uri_key hash_uri uri text (hash_text text) gen (determine_folder_uri uri ws1) a ws1 Hok Hfit) as (r & ws2 & E & _ & _ & Hnoop & Hacc & Hrej).
  exists r, ws2. split; [done|]. assert (Hst : step ws1 ws2) by by eapply step_commit. unfold settle. destruct (decide_accepted r) as [->|Hr].
  - split; try done.
    + eapply rtc_l; [|by apply rtc_once]. pose proof (step_claim uri_key normalize_uri hash_text hash_uri R (uri_key uri) (hash_text text) gen ws) as Hs. by rewrite Hc in Hs.
    + intros _. destruct (Hacc eq_refl) as (Hcm & d & Hd & Ht & Hv). exists a, d. split; [done|]. split; [by eapply committed_claimed|].
      destruct (claim_spec _ _ _ _ _ _ Hc) as (Hp & _). by rewrite Hd, (sp_docs _ _ Hp).
  - destruct (Hrej Hr) as ([_ ? ? ? ? ? _] & ? & ?). assert (Hgoal : published ws1 uri text gen ws r (rollback (uri_key uri) reserved ws2)) by (eapply published_given_up; try done; by apply rtc_once).
    by destruct r as [[| |]|e].
Qed.
(** The state that a file is parsed against. *)
Definition parsed_against uri text gen ws : WS := (claim (uri_key uri) (hash_text text) gen (bump_write_version ws)).2.
Lemma index_spec uri text gen ws : ws_safe ws -> analyzes -> spelled R uri ->
  exists r ws', index_outcome uri text gen ws = Ret (r, ws') /\ published (parsed_against uri text gen ws) uri text gen ws r ws'.
Proof using Type.
  intros Hok Han Hsp. unfold index_file_with_generation_outcome, parsed_against. set (ws0 := bump_write_version ws).
  destruct (claim (uri_key uri) (hash_text text) gen ws0) as [c ws1] eqn:Ec. assert (Hs1 : step ws0 ws1 /\ ws_safe ws1).
  { pose proof (step_claim uri_key normalize_uri hash_text hash_uri R (uri_key uri) (hash_text text) gen ws0) as Hs. rewrite Ec in Hs. split; [done|].
    apply (step_safe _ _ _ _ _ _ _ Hs). apply (touched_safe ws); [by apply touched_fields|done]. }
  destruct Hs1 as [Hs1 Hok1]. destruct c as [r|reserved].
  - cbn [mbind outcome_bind]. eexists r, _. split; [reflexivity|]. apply published_bump. destruct (claim_spec _ _ _ _ _ _ Ec) as (Hp & _ & Hcont & Hf).
    split; [by apply rtc_once|by intros ->|done|by intros ->|]. intros _ Hr1 Hr2. unfold effective. destruct r as [[| |]|e]; try done; by rewrite Hf.
  - destruct (analyze ws1 uri _ text) as [a|e] eqn:Ea; cbn [mbind outcome_bind].
    + destruct (Han _ _ _ _ _ Ea) as [Hfi Hfit]. destruct (publication uri text gen a ws0 reserved ws1) as (r & ws2 & -> & Hpub); [done..|].
      cbn [mbind outcome_bind]. eexists r, _. split; [reflexivity|]. by apply published_bump.
    + eexists _, _. split; [reflexivity|]. apply published_bump. eapply published_given_up; done.
Qed.
Lemma index_live_spec uri text gen ws : ws_safe ws -> analyzes -> spelled R uri ->
  exists r ws', index_live uri text gen ws = Ret (r, ws') /\ rtc step ws ws' /\ (r = CommitAccepted -> accepted_file (parsed_against uri text gen ws) uri text gen ws ws').
Proof using Type.
  intros Hok Han Hsp. unfold index_live_file. destruct (live_check (uri_key uri) (hash_text text) gen ws) as [early ws1] eqn:Ec.
  assert (Hs : step ws ws1) by (pose proof (step_live_check uri_key normalize_uri hash_text hash_uri R (uri_key uri) (hash_text text) gen ws) as Hs; by rewrite Ec in Hs).
  assert (He : match early with Some r => r <> CommitAccepted | None => ws1 = ws end).
  { unfold live_check in Ec. destruct (files ws !! uri_key uri); [|by injection Ec as <- <-]. destruct (_ <? _); [by injection Ec as <- <-|]. destruct (_ =? _); by injection Ec as <- <-. }
  destruct early as [r|]; [exists r, ws1; split; [done|]; split; [by apply rtc_once|done]|]. subst ws1.
  destruct (index_spec uri text gen ws Hok Han Hsp) as (r & ws' & -> & Hpub). cbn [mbind outcome_bind]. eexists _, ws'. split; [reflexivity|].
  split; [exact (pub_steps _ _ _ _ _ _ _ Hpub)|]. destruct r as [[| |]|e]; try done. intros _. by apply (pub_accepted _ _ _ _ _ _ _ Hpub).
Qed.

(** ** Removing files and batches *)

Lemma remove_file_spec raw ws : ws_safe ws -> spelled R (normalize_uri raw) -> exists ws', remove_file uri_key normalize_uri raw ws = Ret ws' /\ rtc step ws ws'.
Proof using Type.
  intros Hok Hsp. unfold remove_file. assert (Hok0 : ws_safe (bump_write_version ws)) by (apply (touched_safe ws); [by apply touched_fields|done]).
  destruct (remove_entry_safe uri_key (normalize_uri raw) _ Hok0) as (ws1 & E & _). rewrite E. cbn [mbind outcome_bind]. eexists. split; [reflexivity|].
  eapply rtc_l; [constructor|]. eapply rtc_l; [by eapply step_remove|]. eapply rtc_l; [apply step_close|apply rtc_once; constructor].
Qed.
Lemma remove_files_spec raws : forall ws, ws_safe ws -> Forall (fun raw => spelled R (normalize_uri raw)) raws ->
  exists ws', remove_files uri_key normalize_uri raws ws = Ret ws' /\ rtc step ws ws'.
Proof using Type.
  induction raws as [|raw raws IH]; intros ws Hok Hsp; [by exists ws|]. apply Forall_cons in Hsp as [Hsp Hsps]. destruct (remove_file_spec raw ws Hok Hsp) as (ws1 & E & Hs1).
  destruct (IH ws1) as (ws2 & E2 & Hs2); [by apply (steps_safe _ _ _ _ _ _ _ Hs1)|done|]. simpl. rewrite E. cbn [mbind outcome_bind]. exists ws2. split; [done|]. by etrans.
Qed.
Context (analyze_batch : WS -> str -> option str -> str -> result (list Z) (Analysis Fact)).
Definition batch_analyzes : Prop := forall ws uri folder text a, analyze_batch ws uri folder text = Ok a -> finds R uri a /\ fits a.
Lemma elem_put_item item items x : x ∈ put_item uri_key item items -> x = item \/ x ∈ items.
Proof using Type.
  clear. induction items as [|y items IH]; simpl; [by intros ->%list_elem_of_singleton; left|]. destruct (bool_decide _); rewrite !elem_of_cons; tauto.
Qed.
Lemma elem_deduplicate items x : x ∈ deduplicate uri_key items -> x ∈ items.
Proof using Type.
  clear. unfold deduplicate. enough (Hacc : forall acc, x ∈ foldl (fun acc item => put_item uri_key item acc) acc items -> x ∈ acc \/ x ∈ items).
  { intros [Hx|Hx]%Hacc; [by apply elem_of_nil in Hx|done]. }
  induction items as [|y items IH]; intros acc; simpl; [by left|]. intros [Hx|Hx]%IH; [|right; by right]. apply elem_put_item in Hx as [->|Hx]; [right; left|by left].
Qed.
Lemma parse_batch_ok items ws : batch_analyzes -> Forall (fun x => spelled R x.1) items -> Forall (parsed_ok hash_text R) (parse_batch uri_key hash_text analyze_batch items ws).1.
Proof using Type.
  intros Han. induction 1 as [|[uri text] items Hsp _ IH]; [constructor|]. simpl in *. destruct (match files ws !! uri_key uri with Some f => _ | None => false end); [done|].
  destruct (analyze_batch ws uri _ text) as [a|e] eqn:Ea; simpl; [|done]. constructor; [|done]. destruct (Han _ _ _ _ _ Ea). by eexists _, a.
Qed.
Lemma batch_spec items ws : ws_safe ws -> batch_analyzes -> Forall (fun x => spelled R x.1) items ->
  exists es ws', index_files_batch uri_key hash_text hash_uri analyze_batch items ws = Ret (es, ws') /\ rtc step ws ws'.
Proof using Type.
  intros Hok Han Hsp. unfold index_files_batch. assert (Hok0 : ws_safe (bump_write_version ws)) by (apply (touched_safe ws); [by apply touched_fields|done]).
  pose proof (parse_batch_ok (deduplicate uri_key items) (bump_write_version ws) Han) as Hps. destruct (parse_batch _ _ _ _ _) as [ps es].
  assert (Hps' : Forall (parsed_ok hash_text R) ps). { apply Hps, Forall_forall. intros x Hx%elem_deduplicate. rewrite Forall_forall in Hsp. by apply Hsp. }
  destruct (insert_batch_safe uri_key hash_text hash_uri R ps (bump_write_version ws)) as (more & ws1 & E & _); [done..|].
  rewrite E. cbn [mbind outcome_bind]. eexists _, _. split; [reflexivity|]. eapply rtc_l; [constructor|]. eapply rtc_l; [by eapply step_batch|]. apply rtc_once. constructor.
Qed.

(** ** Runs *)

Inductive op :=
| IndexFile (uri text : str) (gen : Z)
| IndexLive (uri text : str) (gen : Z)
| Batch (items : list (str * str))
| Remove (raw : str)
| RemoveFolder (folder : str)
| Clear
| ResetForClose (raw : str)
| SetFolders (folders : list str)
| TakeRejection.
Definition run_op (o : op) ws : outcome WS :=
  match o with
  | IndexFile uri text gen => snd <$> index_outcome uri text gen ws
  | IndexLive uri text gen => snd <$> index_live uri text gen ws
  | Batch items => snd <$> index_files_batch uri_key hash_text hash_uri analyze_batch items ws
  | Remove raw => remove_file uri_key normalize_uri raw ws
  | RemoveFolder folder => remove_folder uri_key normalize_uri folder ws
  | Clear => mret (clear (Fact := Fact) ws)
  | ResetForClose raw => mret (reset_generation_for_close uri_key normalize_uri raw ws)
  | SetFolders folders => mret (set_workspace_folders folders ws)
  | TakeRejection => mret (take_rejection ws).2
  end.
Fixpoint run_ops (os : list op) ws : outcome WS := match os with [] => mret ws | o :: os => ws ← run_op o ws; run_ops os ws end.
Definition op_spelled (o : op) : Prop :=
  match o with IndexFile uri _ _ | IndexLive uri _ _ => spelled R uri | Batch items => Forall (fun x => spelled R x.1) items | _ => True end.
Definition normal_forms : Prop := forall raw, spelled R (normalize_uri raw).
Lemma run_op_steps o ws : ws_safe ws -> analyzes -> batch_analyzes -> normal_forms -> op_spelled o -> exists ws', run_op o ws = Ret ws' /\ rtc step ws ws'.
Proof using Type.
  intros Hok Han Hanb Hnorm Ho. destruct o as [uri text gen|uri text gen|items|raw|folder| |raw|folders|]; simpl.
  - destruct (index_spec uri text gen ws) as (r & ws' & -> & Hp); [done..|]. exists ws'. split; [done|]. by destruct Hp.
  - destruct (index_live_spec uri text gen ws) as (r & ws' & -> & Hs & _); [done..|]. by exists ws'.
  - destruct (batch_spec items ws) as (es & ws' & -> & Hs); [done..|]. by exists ws'.
  - by apply remove_file_spec.
  - apply remove_files_spec; [done|]. apply Forall_true. intros raw. apply Hnorm.
  - eexists. split; [reflexivity|]. apply rtc_once, step_clear.
  - eexists. split; [reflexivity|]. apply rtc_once, step_reset.
  - eexists. split; [reflexivity|]. apply rtc_once, step_folders.
  - eexists. split; [reflexivity|]. apply rtc_once, step_take.
Qed.
Lemma run_ops_steps os : analyzes -> batch_analyzes -> normal_forms -> Forall op_spelled os -> forall ws, ws_safe ws -> exists ws', run_ops os ws = Ret ws' /\ rtc step ws ws'.
Proof using Type.
  intros Han Hanb Hnorm. induction 1 as [|o os Ho _ IH]; intros ws Hok; [by exists ws|]. destruct (run_op_steps o ws) as (ws1 & E1 & Hs1); [done..|].
  destruct (IH ws1) as (ws2 & E2 & Hs2); [by apply (steps_safe _ _ _ _ _ _ _ Hs1)|]. simpl. rewrite E1. cbn [mbind outcome_bind]. exists ws2. split; [done|]. by etrans.
Qed.
Lemma run_reachable l os ws : analyzes -> batch_analyzes -> normal_forms -> limits_ok l -> Forall op_spelled os ->
  run_ops os (with_resource_limits (Fact := Fact) l) = Ret ws -> reachable l ws.
Proof using Type.
  intros Han Hanb Hnorm Hl Hos E. destruct (run_ops_steps os Han Hanb Hnorm Hos (with_resource_limits (Fact := Fact) l)) as (ws' & E' & Hs); [by apply new_safe|].
  rewrite E in E'. by injection E' as <-.
Qed.

(** C3. Indexing a file that is refused by a limit, by its generation or by the
    document store, or that does not parse, leaves every map, the package
    graph, the documents, the contents of the files and the generations that
    commits are compared to as they were; when the text is the indexed one, no
    more than the generations can change.  It is so in every state that
    critical sections can reach, in any order and with any spellings of URIs,
    where no claim is under way. *)
Theorem refused_commit_publishes_nothing l ws uri text gen : analyzes -> limits_ok l -> reachable l ws -> settled ws -> spelled R uri ->
  exists r ws', index_outcome uri text gen ws = Ret (r, ws') /\
    (r <> Ok Accepted -> same_projections ws ws' /\ contents ws' = contents ws) /\
    (r = Ok NoOp -> exists f, files ws !! uri_key uri = Some f /\ content_hash f = hash_text text) /\
    (r <> Ok Accepted -> r <> Ok NoOp -> effective ws' = effective ws).
Proof using Type.
  intros Han Hl Hr Hset Hsp. destruct (reachable_safe _ _ _ _ _ _ _ Hl Hr) as [Hok _]. destruct (index_spec uri text gen ws Hok Han Hsp) as (r & ws' & E & []).
  exists r, ws'. split; [done|]. split; [done|]. split; [done|]. by apply pub_effective0.
Qed.

(** C4. An accepted live edit has published its text: the document store holds
    it under its generation; the file is the analysis of that text, made
    against the state and the folder in which the claim left the index; the
    symbols, the search index and the references are as they were, less those
    of the file that is replaced, with those of that analysis, and the facts of
    the file are its facts.  And the edit stands, since an older live edit of
    the file, with whatever text, is rejected as stale and changes nothing at
    all.  It is so in every state that critical sections can reach, in any
    order and with any spellings of URIs. *)
Theorem accepted_edit_stands l ws uri text gen ws' : analyzes -> limits_ok l -> reachable l ws -> spelled R uri -> 0 < gen < 2 ^ 31 ->
  index_live uri text gen ws = Ret (CommitAccepted, ws') ->
  (exists d, get uri_key uri (document_store ws') = Some d /\ DocumentStore.text d = text /\ version d = gen) /\
  (let seen := parsed_against uri text gen ws in let folder := determine_folder_uri uri ws in
   exists a, analyze seen uri folder text = Ok a /\
    files ws' = <[uri_key uri := indexed uri (hash_text text) gen folder a]> (files ws) /\
    committed uri_key uri (indexed uri (hash_text text) gen folder a) a ws ws') /\
  forall text' gen', gen' < gen -> index_live uri text' gen' ws' = Ret (CommitRejectedStale, ws').
Proof using Type.
  intros Han Hl Hr Hsp Hg E. destruct (reachable_safe _ _ _ _ _ _ _ Hl Hr) as [Hok _].
  destruct (index_live_spec uri text gen ws Hok Han Hsp) as (r & ws2 & E2 & Hst & Hacc). rewrite E in E2. injection E2 as <- <-.
  destruct (steps_safe _ _ _ _ _ _ _ Hst Hok) as [Hok' _]. destruct (Hacc eq_refl) as (a & d & Ha & Hcm & Hd & Ht & Hv).
  assert (Hver : document_version gen = gen). { unfold document_version. rewrite as_i32_small; lia. }
  pose proof (cm_files _ _ _ _ _ _ Hcm) as Hf. split; [|split].
  - exists d. unfold get, with_read. rewrite (safe_poison _ Hok'), Hd, lookup_insert_eq. by rewrite Hv, Hver.
  - assert (Efo : determine_folder_uri uri (parsed_against uri text gen ws) = determine_folder_uri uri ws) by (unfold determine_folder_uri, parsed_against, claim; by repeat case_match).
    rewrite Efo in *. exists a. by repeat (split; [done|]).
  - intros text' gen' Hlt. unfold index_live_file, live_check. rewrite Hf, lookup_insert_eq. unfold high_water. simpl.
    destruct (Z.ltb_spec gen' (Z.max gen 0)); [done|lia].
Qed.
End operations.

(** ** Totality *)

Section totality.
Context {P Fact : Type} `{FactStores P Fact} (uri_key normalize_uri : str -> str) (hash_text hash_uri : str -> Z).
Notation WS := (WorkspaceIndex P).
Implicit Types (ws : WS) (a : Analysis Fact).
Notation reachable := (reachable uri_key normalize_uri hash_text hash_uri any_run).
Context (analyze analyze_batch : WS -> str -> option str -> str -> result (list Z) (Analysis Fact)).
(** No analysis has more symbols than a vector can hold. *)
Definition analyses_fit : Prop :=
  (forall ws uri folder text a, analyze ws uri folder text = Ok a -> fits a) /\ (forall ws uri folder text a, analyze_batch ws uri folder text = Ok a -> fits a).
(** The critical sections that could fail. *)
Definition sections_return ws : Prop :=
  (forall uri text gen folder a, fits a -> exists r, commit uri_key hash_uri uri text (hash_text text) gen folder a ws = Ret r) /\
  (forall uri, exists ws', remove_entry uri_key uri ws = Ret ws') /\
  (forall ps, Forall (parsed_ok hash_text (any_run (Fact := Fact))) ps -> exists r, insert_batch uri_key hash_uri ps ws = Ret r).

(** C5. Nothing an index is asked to do can fail.  In every state that critical
    sections can reach from a new index, in any order, with any spellings of
    URIs and with commits between the sections of [clear]: each critical
    section of each operation returns, without overflow and without finding two
    vectors of the package graph out of step, and so does every sequence of
    whole operations, in a state that is reachable again.  All that is asked of
    parsing is that a file has no more symbols than a vector can hold. *)
Theorem operations_return l ws : analyses_fit -> limits_ok l -> reachable l ws ->
  sections_return ws /\ forall os, exists ws', run_ops uri_key normalize_uri hash_text hash_uri analyze analyze_batch os ws = Ret ws' /\ reachable l ws'.
Proof using Type.
  intros [Ha Hb] Hl Hr. destruct (reachable_safe _ _ _ _ _ _ _ Hl Hr) as [Hok _]. split.
  - split; [|split].
    + intros uri text gen folder a Hfit. destruct (commit_safe uri_key hash_uri uri text (hash_text text) gen folder a ws Hok Hfit) as (r & ws' & E & _). by eexists.
    + intros uri. destruct (remove_entry_safe uri_key uri ws Hok) as (ws' & E & _). by exists ws'.
    + intros ps Hps. destruct (insert_batch_safe uri_key hash_text hash_uri any_run ps ws Hok Hps) as (es & ws' & E & _). by eexists.
  - intros os. destruct (run_ops_steps uri_key normalize_uri hash_text hash_uri any_run analyze analyze_batch os) with (ws := ws) as (ws' & E & Hs); try done.
    + intros ws1 uri folder text a E. split; [done|by eapply Ha].
    + intros ws1 uri folder text a E. split; [done|by eapply Hb].
    + apply Forall_true. intros [| |items| | | | | |]; try done. by apply Forall_true.
    + exists ws'. split; [done|]. unfold WorkspaceIndexLaws.reachable in *. by etrans.
Qed.
End totality.

(** ** At concrete inputs *)

(** Stores that keep the last facts of every file, and a language in which a
    text [s :: u] defines the subroutine [s] and refers to [u]. *)
#[export] Instance demo_stores : FactStores (gmap str str) str := {| facts_new := ∅; facts_replace key _ f := <[key := f]>; facts_remove key _ := delete key |}.
Definition demo_range (n : Z) : Range.t := Range.mk (Position.mk 0 0 0) (Position.mk n 0 n).
Definition demo_main : str := [109; 97; 105; 110].
Definition demo_symbol (uri : str) (n : Z) : WorkspaceSymbol :=
  mkSymbol [n] SymbolKind.Subroutine uri (demo_range n) (Some (demo_main ++ [58; 58; n])) None (Some demo_main) true None false.
Definition demo_analyze {P} (_ : WorkspaceIndex P) (uri : str) (_ : option str) (text : str) : result (list Z) (Analysis str) :=
  match text with
  | [] => Err []
  | n :: used => Ok (mkAnalysis [demo_symbol uri n] {[used := [mkReference uri (demo_range (len used)) ReferenceKind.Usage (Some demo_main)]]} ∅
      [] text)
  end.
Definition demo_hash (s : str) : Z := foldl (fun h x => 257 * h + x) 7 s.
Definition demo_limits : IndexResourceLimits := mkLimits 2 10 5 0 0 30000.
Notation demo_index := (index_file_with_generation_outcome (fun u => u) demo_hash demo_hash (demo_analyze (P := gmap str str))).
Notation demo_live := (index_live_file (fun u => u) demo_hash demo_hash (demo_analyze (P := gmap str str))).
Notation demo_run := (run_ops (fun u => u) (fun u => u) demo_hash demo_hash (demo_analyze (P := gmap str str)) demo_analyze).
Notation demo_new := (with_resource_limits (P := gmap str str) demo_limits).
(** One key, one spelling: every URI is its own key.  Nothing races with
    [clear]. *)
Definition demo_regime : Regime (Fact := str) := mkRegime (fun _ => True) carries_uri False.
Notation demo_reachable := (reachable (P := gmap str str) (fun u => u) (fun u => u) demo_hash demo_hash demo_regime demo_limits).
Lemma demo_canonical : canonical (fun u => u) demo_regime.
Proof. by intros u v _ _. Qed.
Lemma demo_tidy : tidy demo_regime.
Proof. split; [by intros uri a Ha|by intros []]. Qed.
Lemma demo_analyzes : analyzes demo_regime (demo_analyze (P := gmap str str)).
Proof.
  intros ws uri folder [|n used] a; [done|]. intros [= <-]. split; [|vm_compute; discriminate]. split; simpl; [by repeat constructor|].
  intros k rs. rewrite lookup_singleton_Some. intros [_ <-]. by repeat constructor.
Qed.
Lemma demo_limits_ok : limits_ok demo_limits.
Proof. unfold limits_ok. vm_compute. repeat split; discriminate. Qed.
(** File 1 is edited and removed, file 2 comes in a batch and is edited. *)
Definition demo_ops : list op :=
  [IndexFile [1] [10; 20] 0; IndexLive [1] [11; 20] 3; Batch [([2], [12]); ([2], [12; 10])]; Remove [3]; ResetForClose [2]; IndexLive [2] [10; 10] 5].
Definition after_or {A} (d : A) (m : outcome A) : A := match m with Ret a => a | Panic => d end.
Definition demo_ws : WorkspaceIndex (gmap str str) := after_or demo_new (demo_run demo_ops demo_new).
Example demo_runs : demo_run demo_ops demo_new = Ret demo_ws.
Proof. vm_compute. reflexivity. Qed.
Lemma demo_reaches : demo_reachable demo_ws.
Proof.
  apply (run_reachable _ _ _ _ _ demo_analyze demo_analyze _ demo_ops); [exact demo_analyzes|exact demo_analyzes|done|exact demo_limits_ok|by repeat constructor|exact demo_runs].
Qed.
Lemma demo_settled : settled demo_ws.
Proof.
  assert (Hb : bool_decide (map_Forall (fun _ f => pending_generation f <= generation f) (files demo_ws)) = true) by by vm_compute. by apply bool_decide_eq_true in Hb.
Qed.
(** The file of a commit that came between two sections of [clear] keeps its
    place in the index without its names; the operations go on from there. *)
Definition raced_ws : WorkspaceIndex (gmap str str) := clear_symbols (after_or demo_new (snd <$> demo_index [1] [10; 20] 0 (clear_files demo_new))).
Lemma raced_reaches : reachable (P := gmap str str) (Fact := str) (fun u => u) (fun u => u) demo_hash demo_hash any_run demo_limits raced_ws.
Proof.
  unfold reachable. set (ws1 := clear_files demo_new). assert (Hs : step (fun u => u) (fun u => u) demo_hash demo_hash (any_run (Fact := str)) demo_new ws1).
  { apply (step_clear_section _ _ _ _ _ clear_files); [done|left]. }
  eapply rtc_l; [exact Hs|]. eapply rtc_r; [|apply (step_clear_section _ _ _ _ _ clear_symbols); [done|right; left]].
  destruct (run_ops_steps (fun u => u) (fun u => u) demo_hash demo_hash (any_run (Fact := str)) (demo_analyze (P := gmap str str)) demo_analyze [IndexFile [1] [10; 20] 0]) with (ws := ws1) as (ws2 & E & Hr).
  - intros ws uri folder text a Ea. split; [done|]. apply (demo_analyzes ws uri folder text a Ea).
  - intros ws uri folder text a Ea. split; [done|]. apply (demo_analyzes ws uri folder text a Ea).
  - done.
  - by repeat constructor.
  - apply (step_safe _ _ _ _ _ _ _ Hs), new_safe, demo_limits_ok.
  - simpl in E. unfold ws1 in *. destruct (demo_index [1] [10; 20] 0 (clear_files demo_new)) as [[r ws3]|]; [|done]. simpl in *. by injection E as <-.
Qed.
Lemma operations_return_witness : sections_return (fun u => u) demo_hash demo_hash (Fact := str) raced_ws /\
  forall os, exists ws', demo_run os raced_ws = Ret ws' /\ reachable (fun u => u) (fun u => u) demo_hash demo_hash (any_run (Fact := str)) demo_limits ws'.
Proof.
  apply operations_return; [|exact demo_limits_ok|exact raced_reaches]. split; intros ws uri folder text a E; apply (demo_analyzes ws uri folder text a E).
Defined.
(** A third file is refused, and so is text that does not parse. *)
Lemma refused_commit_publishes_nothing_witness : exists r ws', demo_index [3] [10; 10] 1 demo_ws = Ret (r, ws') /\
  (r <> Ok Accepted -> same_projections demo_ws ws' /\ contents ws' = contents demo_ws) /\
  (r = Ok NoOp -> exists f, files demo_ws !! [3] = Some f /\ content_hash f = demo_hash [10; 10]) /\
  (r <> Ok Accepted -> r <> Ok NoOp -> effective ws' = effective demo_ws).
Proof.
  apply (refused_commit_publishes_nothing (fun u => u) (fun u => u) demo_hash demo_hash demo_regime _ demo_limits);
    [exact demo_analyzes|exact demo_limits_ok|exact demo_reaches|exact demo_settled|done].
Defined.
Example demo_refused : fst <$> demo_index [3] [10; 10] 1 demo_ws = Ret (Err (LimitExceeded MaxFiles 2)) /\ fst <$> demo_index [2] [] 9 demo_ws = Ret (Err (ParseFailed [])).
Proof. split; vm_compute; reflexivity. Qed.
Definition demo_edited : WorkspaceIndex (gmap str str) := after_or demo_ws (snd <$> demo_live [1] [13; 10] 7 demo_ws).
Lemma accepted_edit_stands_witness :
  (exists d, get (fun u => u) [1] (document_store demo_edited) = Some d /\ DocumentStore.text d = [13; 10] /\ version d = 7) /\
  (let seen := parsed_against (fun u => u) demo_hash [1] [13; 10] 7 demo_ws in let folder := determine_folder_uri [1] demo_ws in
   exists a : Analysis str, demo_analyze seen [1] folder [13; 10] = Ok a /\
    files demo_edited = <[[1] := indexed [1] (demo_hash [13; 10]) 7 folder a]> (files demo_ws) /\
    committed (fun u => u) [1] (indexed [1] (demo_hash [13; 10]) 7 folder a) a demo_ws demo_edited) /\
  forall text' gen', gen' < 7 -> demo_live [1] text' gen' demo_edited = Ret (CommitRejectedStale, demo_edited).
Proof.
  apply (accepted_edit_stands (fun u => u) (fun u => u) demo_hash demo_hash demo_regime _ demo_limits demo_ws);
    [exact demo_analyzes|exact demo_limits_ok|exact demo_reaches|done|lia|vm_compute; reflexivity].
Defined.

(** *** What closing a document leaves behind *)

(** A document was edited up to generation 7 and closed; its generations were
    reset so that it can be indexed when it is opened again.  The first edit of
    the new session, which has the saved text, is accepted as no change; the
    next is refused, because the store still holds version 7. *)
Definition reopened : outcome (result IndexError Outcome) :=
  ws ← demo_run [IndexLive [1] [10; 20] 7; ResetForClose [1]] demo_new;
  '(_, ws) ← demo_index [1] [10; 20] 1 ws;
  '(r, _) ← demo_index [1] [11; 20] 2 ws;
  mret r.
Example reopened_document_is_refused : reopened = Ret (Err VersionRejected).
Proof. vm_compute. reflexivity. Qed.

(** *** Two spellings of one file *)

(** Spellings that differ after the first byte have one key.  After the file is
    indexed under another spelling its old references are still there. *)
Definition respelled : outcome (list Location) :=
  let index := index_file_with_generation_outcome (fun u => firstn 1 u) demo_hash demo_hash (demo_analyze (P := gmap str str)) in
  '(_, ws) ← index [1; 65] [10; 20] 0 demo_new;
  '(_, ws) ← index [1; 97] [11; 20] 0 ws;
  find_references (fun u => firstn 1 u) [20] ws.
Example respelled_file_keeps_old_references : respelled = Ret [mkLocation [1; 65] (demo_range 1); mkLocation [1; 97] (demo_range 1)].
Proof. vm_compute. reflexivity. Qed.

(** *** Batches and facts *)

(** A batch replaces the file but not its facts. *)
Example batch_keeps_old_facts :
  ((fun ws => (facts ws !! [1], get_text (fun u => u) [1] (document_store ws))) <$> demo_run [IndexFile [1] [10; 20] 0; Batch [([1], [11; 20])]] demo_new)
  = Ret (Some [10; 20], Some [11; 20]).
Proof. vm_compute. reflexivity. Qed.

(** *** Clearing while a file is indexed *)

(** A file that is published after [clear] has emptied the files and before it
    has emptied the references stays in the index without its references. *)
Definition raced_clear : outcome (Z * list Location) :=
  '(_, ws) ← demo_index [1] [10; 20] 0 (clear_files (bump_write_version demo_new));
  let ws := clear_package_graph (clear_facts (Fact := str) (clear_global_references (clear_search_index (clear_symbols ws)))) in
  found ← find_references (fun u => u) [20] ws;
  mret (file_count ws, found).
Example clear_loses_references : raced_clear = Ret (1, []).
Proof. vm_compute. reflexivity. Qed.
