(* ===== verification/WorkspaceProperties.v ===== *)
(** * What a workspace index answers

    In the states that the operations of an index can reach, whatever order
    their critical sections take: the limits hold; while nothing commits during
    a [clear], the answers about names are those of an index rebuilt from the
    files; and so are the answers about references, while each file goes by one
    spelling of its URI. *)

From stdpp Require Import base numbers list gmap sets sorting relations.
From S2P Require Import Prelude StdText Spans LineIndex Monitoring Coordinator CoordinatorLaws PackageGraph PackageIndex DocumentStore NameMaps WorkspaceSymbols WorkspaceSymbolLaws WorkspaceIndex WorkspaceIndexLaws WorkspaceOperations.

(** ** Definitions *)

Lemma names_of_symbol n s e : (n, e) ∈ under_names candidate_of s <-> symbol_matches n s = true /\ e = candidate_of s.
Proof.
  unfold under_names, symbol_matches. rewrite orb_true_iff, !bool_decide_eq_true. destruct (qualified_name s) as [q|]; rewrite ?elem_of_cons, ?elem_of_nil; naive_solver.
Qed.
(** The cache answers for every name that a file defines, so the scan of the
    files that follows a miss finds nothing. *)
Lemma scan_after_miss fs m n : cache_ok fs m -> bucket m n = [] -> find_definition_in_files (map_to_list fs).*2 n None = None.
Proof.
  intros [H _ _] Hn. unfold find_definition_in_files. set (l := concat _). assert (l = []) as ->; [|done].
  assert (Hl : forall x, x ∉ l); [|destruct l as [|x l']; [done|]; destruct (Hl x); left]. intros x. unfold l. rewrite elem_concat_fmap. intros (f & Hf & Hx).
  apply list_elem_of_fmap in Hx as (s & -> & Hs). apply list_elem_of_filter in Hs as [Hm Hs]. apply list_elem_of_fmap in Hf as ([key f'] & -> & Hf). apply elem_of_map_to_list in Hf.
  apply (not_elem_of_nil (candidate_of s)). rewrite <-Hn. apply H, elem_contributed. exists key, f'. split; [done|]. apply elem_candidate_entries. exists s. split; [done|]. by apply names_of_symbol.
Qed.
Lemma definitions_cached fs m n : cache_ok fs m -> find_definitions fs m n = definition_candidates m n.
Proof.
  intros H. unfold find_definitions. destruct (definition_candidates m n) eqn:E; [|done]. unfold definition_candidates in E. apply fmap_nil_inv in E. by rewrite (scan_after_miss fs m n H E).
Qed.
Lemma elem_definitions fs m n l : cache_ok fs m ->
  l ∈ find_definitions fs m n <-> exists key f s, fs !! key = Some f /\ s ∈ file_symbols f /\ symbol_matches n s = true /\ l = location (candidate_of s).
Proof.
  intros H. rewrite definitions_cached by done. unfold definition_candidates. rewrite list_elem_of_fmap. split.
  - intros (c & -> & (key & f & Hf & Hc)%(proj1 (co_elements _ _ H n c))%elem_contributed). apply elem_candidate_entries in Hc as (s & Hs & [Hm ->]%names_of_symbol). by exists key, f, s.
  - intros (key & f & s & Hf & Hs & Hm & ->). exists (candidate_of s). split; [done|]. apply (co_elements _ _ H n), elem_contributed. exists key, f. split; [done|].
    apply elem_candidate_entries. exists s. split; [done|]. by apply names_of_symbol.
Qed.

(** ** References *)

Lemma elem_places seen refs p : p ∈ ((fun l => place_of (loc_uri l) (loc_range l)) <$> distinct_places seen refs) <->
  p ∉ seen /\ exists r, r ∈ refs /\ p = place_of (ref_uri r) (ref_range r).
Proof.
  revert seen. induction refs as [|r refs IH]; intros seen; simpl; [rewrite elem_of_nil; split; [done|]; by intros (_ & r & Hr%elem_of_nil & _)|].
  destruct (decide (place_of (ref_uri r) (ref_range r) ∈ seen)) as [Hs|Hs].
  - rewrite IH. setoid_rewrite elem_of_cons. split; [naive_solver|]. intros (Hp & r' & [->|Hr] & ->); [done|]. split; [done|]. by exists r'.
  - rewrite fmap_cons, elem_of_cons, IH, not_elem_of_union, not_elem_of_singleton. simpl. setoid_rewrite elem_of_cons. split.
    + intros [->|[[Hp Hn] (r' & Hr & ->)]]; (split; [done|]); [exists r|exists r']; tauto.
    + intros (Hp & r' & Hr & ->). destruct (decide (place_of (ref_uri r') (ref_range r') = place_of (ref_uri r) (ref_range r))) as [Ep|Ep]; [by left|right].
      split; [done|]. exists r'. split; [|done]. destruct Hr as [->|]; done.
Qed.
Lemma distinct_nodup seen refs : NoDup ((fun l => place_of (loc_uri l) (loc_range l)) <$> distinct_places seen refs).
Proof.
  revert seen. induction refs as [|r refs IH]; intros seen; simpl; [constructor|]. destruct (decide _); [done|]. rewrite fmap_cons. constructor; [|done].
  rewrite elem_places, elem_of_union, elem_of_singleton. tauto.
Qed.

(** ** The interface to the coordinator *)

#[export] Instance workspace_laws {P} : WorkspaceIndexLaws (WorkspaceIndex P).
Proof. split; try done; [intros ws; apply symbols_of_nonneg|]. intros [] E. simpl in *. by subst. Qed.

Section properties.
Context {P Fact : Type} `{FactStores P Fact} (uri_key normalize_uri : str -> str) (hash_text hash_uri : str -> Z) (R : Regime (Fact := Fact)).
Notation WS := (WorkspaceIndex P).
Implicit Types (ws : WS) (a : Analysis Fact).
Notation canonical := (canonical uri_key R).
Notation reachable := (reachable uri_key normalize_uri hash_text hash_uri R).

Definition defines ws (n : str) (s : WorkspaceSymbol) : Prop := exists key f, files ws !! key = Some f /\ s ∈ file_symbols f /\ symbol_matches n s = true.
Definition refers ws (k : str) (r : SymbolReference) : Prop := exists key f rs, files ws !! key = Some f /\ references f !! k = Some rs /\ r ∈ rs.

Lemma first_definition ws n : ws_named uri_key ws ->
  match find_definition (files ws) (symbols ws) n with
  | None => forall s, ~ defines ws n s
  | Some x => exists s, defines ws n s /\ x = location (candidate_of s) /\ forall s', defines ws n s' -> not_after candidate_cmp (candidate_of s) (candidate_of s') = true
  end.
Proof using Type.
  intros Hok. pose proof (nm_symbols _ _ Hok) as Hc. assert (Hin : forall s, defines ws n s -> candidate_of s ∈ bucket (symbols ws) n).
  { intros s (key & f & Hf & Hs & Hm). apply (co_elements _ _ Hc n), elem_contributed. exists key, f. split; [done|]. apply elem_candidate_entries. exists s. split; [done|]. by apply names_of_symbol. }
  unfold find_definition. rewrite (definitions_cached _ _ _ Hc). unfold definition_candidates. pose proof (co_ordered _ _ Hc n) as Ho. destruct (bucket (symbols ws) n) as [|c cs] eqn:Eb; simpl.
  - intros s Hs%Hin. by apply elem_of_nil in Hs.
  - assert (Hb : c ∈ bucket (symbols ws) n) by (rewrite Eb; left). apply (co_elements _ _ Hc n), elem_contributed in Hb as (key & f & Hf & Hfc).
    apply elem_candidate_entries in Hfc as (s & Hs & [Hm ->]%names_of_symbol). exists s. split; [by exists key, f|]. split; [done|].
    intros s' Hs'%Hin. destruct (ordered_head _ _ _ _ Ho eq_refl Hs') as [E|Hlt]; [|done]. rewrite <-E. unfold not_after. by rewrite (lawful_refl _ _ lawful_candidate).
Qed.

(** In every state that critical sections of whatever operations lead to, when
    nothing commits while [clear] runs, [find_definitions] answers exactly the
    places of the symbols of the indexed files that have the name, bare or
    qualified, and [find_definition] answers one that comes first in the order
    of kinds and places, and nothing only if no file defines the name. *)
Theorem definitions_exact l ws n : tidy R -> limits_ok l -> reachable l ws ->
  (forall x, x ∈ find_definitions (files ws) (symbols ws) n <-> exists s, defines ws n s /\ x = location (candidate_of s)) /\
  match find_definition (files ws) (symbols ws) n with
  | None => forall s, ~ defines ws n s
  | Some x => exists s, defines ws n s /\ x = location (candidate_of s) /\ forall s', defines ws n s' -> not_after candidate_cmp (candidate_of s) (candidate_of s') = true
  end.
Proof using Type.
  intros Ht Hl Hr. pose proof (reachable_named _ _ _ _ _ _ _ Ht Hl Hr) as Hok. pose proof (nm_symbols _ _ Hok) as Hc.
  assert (Hel : forall x, x ∈ find_definitions (files ws) (symbols ws) n <-> exists s, defines ws n s /\ x = location (candidate_of s)).
  { intros x. rewrite elem_definitions by done. unfold defines. clear. naive_solver. }
  split; [done|]. by apply first_definition.
Qed.

Lemma elem_global_references ws k r : ws_referenced R ws -> r ∈ bucket (global_references ws) k <-> refers ws k r.
Proof using Type.
  intros [_ [Hp _]]. rewrite (Hp k), elem_contributed. unfold refers. setoid_rewrite elem_reference_entries. clear. naive_solver.
Qed.
Lemma elem_unqualified docs m keep n refs : rsplit_colons n = None -> matching_references uri_key docs m keep n = Ret refs ->
  forall r, r ∈ refs <-> keep r = true /\ exists k, r ∈ bucket m k /\ (k = n \/ is_qualified_variant_of k n = true).
Proof using Type.
  clear normalize_uri hash_text hash_uri R. intros Hn. unfold matching_references. rewrite Hn. intros [= <-] r. rewrite elem_of_app, list_elem_of_filter, elem_concat_fmap. split.
  - intros [[Hk Hr]|([k rs] & Hk & Hr)]; [split; [done|]; exists n; tauto|]. apply elem_of_map_to_list in Hk. simpl in Hr. destruct (is_qualified_variant_of k n) eqn:E; [|by apply elem_of_nil in Hr].
    apply list_elem_of_filter in Hr as [Hkeep Hr]. split; [done|]. exists k. unfold bucket. rewrite Hk. tauto.
  - intros (Hkeep & k & Hr & [->|Hq]); [by left|right]. unfold bucket in Hr. destruct (m !! k) as [rs|] eqn:E; [|by apply elem_of_nil in Hr].
    exists (k, rs). split; [by apply elem_of_map_to_list|]. simpl. rewrite Hq. by apply list_elem_of_filter.
Qed.
Definition named ws (n : str) (r : SymbolReference) : Prop := exists k, refers ws k r /\ (k = n \/ is_qualified_variant_of k n = true).

(** C6. For a name without a package, [find_references] answers each place of an
    indexed file that refers to the name, bare or under any package, exactly
    once and in the order of places, and [count_usages] is the number of those
    places that are not definitions.  It is so in every state reached by
    critical sections, in any order, that spell the URI of each file in one way
    (a file that comes back under another spelling of its key keeps its old
    references) and that do not commit while [clear] runs (it takes its locks
    one after another); extraction gives each symbol and reference the URI of
    its file. *)
Theorem references_exact l ws n : tidy R -> canonical -> limits_ok l -> reachable l ws -> rsplit_colons n = None ->
  exists ls, find_references uri_key n ws = Ret ls /\ ordered (not_after location_cmp) ls /\ NoDup ((fun x => place_of (loc_uri x) (loc_range x)) <$> ls) /\
    (forall p, p ∈ ((fun x => place_of (loc_uri x) (loc_range x)) <$> ls) <-> exists r, named ws n r /\ p = place_of (ref_uri r) (ref_range r)) /\
    exists places : gset place, count_usages uri_key n ws = Ret (Z.of_nat (size places)) /\
      forall p, p ∈ places <-> exists r, named ws n r /\ ref_kind r <> ReferenceKind.Definition_ /\ p = place_of (ref_uri r) (ref_range r).
Proof using Type.
  intros Ht Hcan Hl Hr Hn. pose proof (reachable_referenced _ _ _ _ _ _ _ Ht Hcan Hl Hr) as Hok. unfold find_references, count_usages, find_references_inner, count_usages_inner.
  assert (Hret : forall keep, exists refs, matching_references uri_key (document_store ws) (global_references ws) keep n = Ret refs) by (intros keep; unfold matching_references; rewrite Hn; by eexists).
  destruct (Hret (fun r => negb (false && bool_decide (ref_kind r = ReferenceKind.Coderef)))) as [refs E1]. rewrite E1. cbn [mbind outcome_bind].
  destruct (Hret (fun r => negb (bool_decide (ref_kind r = ReferenceKind.Definition_)))) as [uses E2]. rewrite E2. cbn [mbind outcome_bind].
  pose proof (elem_unqualified _ _ _ _ _ Hn E1) as H1. pose proof (elem_unqualified _ _ _ _ _ Hn E2) as H2. simpl in H1.
  setoid_rewrite (elem_global_references ws _ _ Hok) in H1. setoid_rewrite (elem_global_references ws _ _ Hok) in H2.
  eexists. split; [reflexivity|]. unfold sort_locations_deterministically. split; [apply sorted_ordered, lawful_location|].
  split; [rewrite sort_by_perm; apply distinct_nodup|]. split.
  - intros p. rewrite sort_by_perm, elem_places. unfold named. setoid_rewrite H1. split; [clear; naive_solver|]. intros (r & Hr' & ->). split; [apply not_elem_of_empty|]. by exists r.
  - eexists. split; [reflexivity|]. intros p. rewrite elem_of_list_to_set, list_elem_of_fmap. unfold named. setoid_rewrite H2. setoid_rewrite negb_true_iff. setoid_rewrite bool_decide_eq_false. clear. naive_solver.
Qed.

(** C1. Keeping the maps up to date one file at a time is as good as rebuilding
    them from all files, taken in any order: each name has the same definition
    candidates and the first are at one place, and the search index holds the
    same entries as often.  It is so in every state reached by critical
    sections, in any order and with any spellings of URIs, that do not commit
    while [clear] runs (it takes its locks one after another); extraction gives
    each symbol and reference the URI of its file.  When the run also spells the
    URI of each file in one way, the references hold the same entries as often
    (under another spelling of its key a file would keep its old references). *)
Theorem maps_are_a_rebuild l ws values n : tidy R -> limits_ok l -> reachable l ws -> values ≡ₚ (map_to_list (files ws)).*2 ->
  (forall c, c ∈ bucket (symbols ws) n <-> c ∈ bucket (rebuild_symbol_cache values) n) /\
  match find_definition (files ws) (symbols ws) n, find_definition (files ws) (rebuild_symbol_cache values) n with
  | Some x, Some y => location_cmp x y = Eq | None, None => True | _, _ => False
  end /\
  bucket (search_index ws) n ≡ₚ bucket (rebuild_search_index values) n /\ (search_index ws !! n = None <-> rebuild_search_index values !! n = None) /\
  (canonical -> bucket (global_references ws) n ≡ₚ bucket (push_all (concat (reference_entries <$> values)) ∅) n).
Proof using Type.
  intros Ht Hl Hr Hv. pose proof (reachable_named _ _ _ _ _ _ _ Ht Hl Hr) as Hok. pose proof (nm_symbols _ _ Hok) as Hc. pose proof (cache_ok_rebuild _ _ Hv) as Hc'.
  destruct (cache_ok_same _ _ _ n Hc Hc') as (H1 & _ & H3). split; [done|]. split.
  { unfold find_definition. rewrite (definitions_cached _ _ _ Hc), (definitions_cached _ _ _ Hc'). unfold definition_candidates.
    destruct (bucket (symbols ws) n) as [|x xs], (bucket (rebuild_symbol_cache values) n) as [|y ys]; simpl in *; try done. unfold candidate_cmp in H3. by destruct (_ ?= _). }
  pose proof (rebuild_projects search_entries _ _ Hv) as Hs. destruct (nm_search _ _ Hok) as [S1 S2], Hs as [T1 T2]. split; [by rewrite (S1 n), <-(T1 n)|]. split.
  - apply (bucket_None_iff _ _ n S2 T2). by rewrite (S1 n), <-(T1 n).
  - intros Hcan. destruct (reachable_referenced _ _ _ _ _ _ _ Ht Hcan Hl Hr) as [_ [R1 _]]. rewrite (R1 n). symmetry. apply (rebuild_projects reference_entries _ _ Hv).
Qed.

(** C2. The limits given to a new index hold in every state that critical
    sections can reach, in any order, with any spellings of URIs and with
    commits between the sections of [clear]: never more files than [max_files],
    never more symbols than [max_total_symbols], although files are admitted one
    critical section after they are claimed.  So the checks of the coordinator that shares the limits find nothing to
    degrade for, and counting the symbols does not overflow. *)
Theorem index_stays_within_limits l ws : limits_ok l -> reachable l ws ->
  file_count ws <= max_files l /\ (exists n, symbol_count ws = Ret n /\ n <= max_total_symbols l) /\
  forall c : IndexCoordinator WS, Coordinator.index c = ws -> Coordinator.limits c = l -> check_limits c = Ret None /\ forall now, enforce_limits now c = Ret c.
Proof using Type.
  intros Hl Hr. destruct (reachable_safe _ _ _ _ _ _ _ Hl Hr) as [Hok El]. destruct (safe_within _ Hok) as [W1 W2]. rewrite El in W1, W2. destruct Hl as [L1 L2].
  rewrite Z.max_r in W1, W2 by lia. unfold file_count, symbol_count. split; [done|].
  destruct (sum_usize_spec _ (symbols_of_nonneg (files ws))) as [Es _]; [fold (total_symbols (files ws)); lia|]. split; [eexists; by rewrite Es|].
  intros c Ec Ecl. assert (Hcheck : check_limits c = Ret None).
  { unfold check_limits. rewrite Ec, Ecl. simpl. rewrite Es. assert (len (symbols_of (files ws)) = Z.of_nat (size (files ws))) as ->.
    { unfold symbols_of, len. by rewrite !length_fmap, length_map_to_list. }
    destruct (Z.ltb_spec (max_files l) (Z.of_nat (size (files ws)))); [lia|]. cbn [mbind outcome_bind]. fold (total_symbols (files ws)).
    destruct (Z.ltb_spec (max_total_symbols l) (total_symbols (files ws))); [lia|done]. }
  split; [done|]. intros now. unfold enforce_limits. by rewrite Hcheck.
Qed.
End properties.

(** ** At concrete inputs *)

Lemma definitions_exact_witness :
  (forall x, x ∈ find_definitions (files demo_ws) (symbols demo_ws) [10] <-> exists s, defines demo_ws [10] s /\ x = location (candidate_of s)) /\
  match find_definition (files demo_ws) (symbols demo_ws) [10] with
  | None => forall s, ~ defines demo_ws [10] s
  | Some x => exists s, defines demo_ws [10] s /\ x = location (candidate_of s) /\ forall s', defines demo_ws [10] s' -> not_after candidate_cmp (candidate_of s) (candidate_of s') = true
  end.
Proof. apply (definitions_exact (fun u => u) (fun u => u) demo_hash demo_hash demo_regime demo_limits demo_ws [10]); [exact demo_tidy|exact demo_limits_ok|exact demo_reaches]. Defined.
Lemma references_exact_witness : exists ls, find_references (fun u => u) [20] demo_ws = Ret ls /\ ordered (not_after location_cmp) ls /\
  NoDup ((fun x => place_of (loc_uri x) (loc_range x)) <$> ls) /\
  (forall p, p ∈ ((fun x => place_of (loc_uri x) (loc_range x)) <$> ls) <-> exists r, named demo_ws [20] r /\ p = place_of (ref_uri r) (ref_range r)) /\
  exists places : gset place, count_usages (fun u => u) [20] demo_ws = Ret (Z.of_nat (size places)) /\
    forall p, p ∈ places <-> exists r, named demo_ws [20] r /\ ref_kind r <> ReferenceKind.Definition_ /\ p = place_of (ref_uri r) (ref_range r).
Proof.
  apply (references_exact (fun u => u) (fun u => u) demo_hash demo_hash demo_regime demo_limits demo_ws [20]); [exact demo_tidy|exact demo_canonical|exact demo_limits_ok|exact demo_reaches|reflexivity].
Defined.
Example demo_references : find_references (fun u => u) [20] demo_ws = Ret [mkLocation [1] (demo_range 1)].
Proof. vm_compute. reflexivity. Qed.
Lemma maps_are_a_rebuild_witness : let values := (map_to_list (files demo_ws)).*2 in
  (forall c, c ∈ bucket (symbols demo_ws) [10] <-> c ∈ bucket (rebuild_symbol_cache values) [10]) /\
  match find_definition (files demo_ws) (symbols demo_ws) [10], find_definition (files demo_ws) (rebuild_symbol_cache values) [10] with
  | Some x, Some y => location_cmp x y = Eq | None, None => True | _, _ => False
  end /\
  bucket (search_index demo_ws) [10] ≡ₚ bucket (rebuild_search_index values) [10] /\ (search_index demo_ws !! [10] = None <-> rebuild_search_index values !! [10] = None) /\
  (canonical (fun u => u) demo_regime -> bucket (global_references demo_ws) [10] ≡ₚ bucket (push_all (concat (reference_entries <$> values)) ∅) [10]).
Proof.
  apply (maps_are_a_rebuild (fun u => u) (fun u => u) demo_hash demo_hash demo_regime demo_limits demo_ws); [exact demo_tidy|exact demo_limits_ok|exact demo_reaches|reflexivity].
Defined.
Lemma index_stays_within_limits_witness : file_count raced_ws <= 2 /\ (exists n, symbol_count raced_ws = Ret n /\ n <= 5) /\
  forall c : IndexCoordinator (WorkspaceIndex (gmap str str)), Coordinator.index c = raced_ws -> Coordinator.limits c = demo_limits ->
    check_limits c = Ret None /\ forall now, enforce_limits now c = Ret c.
Proof. apply (index_stays_within_limits (fun u => u) (fun u => u) demo_hash demo_hash any_run demo_limits raced_ws); [exact demo_limits_ok|exact raced_reaches]. Defined.
