(* ===== verification/SymbolQueries.v ===== *)
(** * Queries about one symbol (perl-workspace/src/workspace/workspace_index.rs)

    [query_symbol_references] resolves a name to one symbol of the index and
    answers its identity, its definition and the places that refer to it, for
    the planners of renames and deletions; and the queries of one folder. *)

From stdpp Require Import base numbers list gmap sets.
From S2P Require Import Prelude StdText Spans PackageGraph NameMaps WorkspaceSymbols WorkspaceSymbolLaws WorkspaceIndex WorkspaceIndexLaws WorkspaceOperations WorkspaceProperties.

(** ** Definitions *)

Record SymbolIdentity := mkIdentity { stable_key : str; identity_name : str; identity_qualified_name : option str; identity_kind : SymbolKind.t }.
Record CrossFileReferenceQueryResult := mkQueryResult { query_symbol : SymbolIdentity; definition : Location; query_references : list Location }.

(** The least symbol at the definition, by qualified name, name and kind. *)
Definition symbol_cmp (a b : WorkspaceSymbol) : comparison :=
  then_cmp (str_cmp (default [] (qualified_name a)) (default [] (qualified_name b)))
 (then_cmp (str_cmp (name a) (name b)) (to_lsp_kind (symbol_kind a) ?= to_lsp_kind (symbol_kind b))).
Section queries.
Context {P Fact : Type}.
Implicit Types (ws : WorkspaceIndex P).

Definition find_symbol_by_definition (d : Location) (symbol_name : str) ws : option WorkspaceSymbol :=
  head (sort_by (not_after symbol_cmp)
    (filter (fun s => symbol_uri s = loc_uri d /\ symbol_range s = loc_range d /\ symbol_matches symbol_name s = true) (all_symbols (files ws)))).
Definition has_unique_symbol_name_and_kind (target : WorkspaceSymbol) ws : bool :=
  len (firstn 2 (filter (fun s => name s = name target /\ symbol_kind s = symbol_kind target) (all_symbols (files ws)))) =? 1.
Definition names_to_query (s : WorkspaceSymbol) ws : list str :=
  match qualified_name s with
  | Some q => q :: if has_unique_symbol_name_and_kind s ws then [name s] else []
  | None => [name s]
  end.
Definition collect_symbol_references (s : WorkspaceSymbol) ws : list Location :=
  sort_locations_deterministically (distinct_places ∅ (concat (bucket (global_references ws) <$> names_to_query s ws))).
Definition stable_key_of (s : WorkspaceSymbol) : str :=
  match qualified_name s with
  | Some q => q
  | None => name s ++ [64] ++ symbol_uri s ++ [58] ++ decimal (Position.line (Range.start (symbol_range s))) ++ [58] ++ decimal (Position.column (Range.start (symbol_range s)))
  end.
Definition query_symbol_references (symbol_name : str) ws : option CrossFileReferenceQueryResult :=
  match find_definition (files ws) (symbols ws) symbol_name with
  | None => None
  | Some d =>
    match find_symbol_by_definition d symbol_name ws with
    | None => None
    | Some s =>
      let refs := collect_symbol_references s ws in
      let refs := if bool_decide (d ∈ refs) then refs else sort_locations_deterministically (refs ++ [d]) in
      Some (mkQueryResult (mkIdentity (stable_key_of s) (name s) (qualified_name s) (symbol_kind s)) d refs)
    end
  end.
Definition files_in_folder (folder : str) ws : list FileIndex := filter (fun f => folder_uri f = Some folder) (map_to_list (files ws)).*2.
Definition symbols_in_folder (folder : str) ws : list WorkspaceSymbol := concat (file_symbols <$> files_in_folder folder ws).
End queries.

(** ** What they answer *)

Section answers.
Context {P Fact : Type} `{FactStores P Fact} (uri_key normalize_uri : str -> str) (hash_text hash_uri : str -> Z) (R : Regime (Fact := Fact)).
Notation WS := (WorkspaceIndex P).
Implicit Types (ws : WS).
Notation canonical := (canonical uri_key R).
Notation reachable := (reachable uri_key normalize_uri hash_text hash_uri R).

Lemma elem_all_symbols (fs : gmap str FileIndex) s : s ∈ all_symbols fs <-> exists key f, fs !! key = Some f /\ s ∈ file_symbols f.
Proof using Type.
  unfold all_symbols. rewrite elem_concat_fmap. split.
  - intros (f & Hf & Hs). apply list_elem_of_fmap in Hf as ([key f'] & -> & Hf). apply elem_of_map_to_list in Hf. by exists key, f'.
  - intros (key & f & Hf & Hs). exists f. split; [|done]. apply list_elem_of_fmap. exists (key, f). split; [done|]. by apply elem_of_map_to_list.
Qed.
Lemma symbol_found ws d n : (exists s, defines ws n s /\ d = location (candidate_of s)) ->
  exists s, find_symbol_by_definition d n ws = Some s /\ defines ws n s /\ d = location (candidate_of s).
Proof using Type.
  intros (s0 & (key & f & Hf & Hs & Hm) & ->). unfold find_symbol_by_definition. set (l := filter _ _). assert (H0 : s0 ∈ sort_by (not_after symbol_cmp) l).
  { rewrite sort_by_perm. apply list_elem_of_filter. split; [done|]. apply elem_all_symbols. by exists key, f. }
  destruct (sort_by (not_after symbol_cmp) l) as [|s ss] eqn:E; [by apply elem_of_nil in H0|]. exists s. split; [done|].
  assert (Hin : s ∈ l) by (rewrite <-(sort_by_perm (not_after symbol_cmp)), E; left). apply list_elem_of_filter in Hin as [(H1 & H2 & H3) Hin].
  apply elem_all_symbols in Hin as (key' & f' & Hf' & Hs'). split; [by exists key', f'|]. unfold candidate_of in *. simpl in *. by rewrite H1, H2.
Qed.
Lemma distinct_locations refs : NoDup (distinct_places ∅ refs).
Proof using Type. eapply NoDup_fmap_1. apply (distinct_nodup ∅ refs). Qed.
(** The names that refer to a symbol, and the places that do: its qualified
    name; its bare name when it has no other, or when it is the only symbol of
    its name and kind. *)
Definition same_name_and_kind ws (s : WorkspaceSymbol) : list WorkspaceSymbol := filter (fun s' => name s' = name s /\ symbol_kind s' = symbol_kind s) (all_symbols (files ws)).
Definition names_symbol ws (s : WorkspaceSymbol) (k : str) : Prop :=
  qualified_name s = Some k \/ k = name s /\ (qualified_name s = None \/ same_name_and_kind ws s = [s]).
Definition place_referring ws (s : WorkspaceSymbol) (p : place) : Prop := exists k r, names_symbol ws s k /\ refers ws k r /\ p = place_of (ref_uri r) (ref_range r).
Lemma unique_symbol ws s : s ∈ all_symbols (files ws) -> has_unique_symbol_name_and_kind s ws = true <-> same_name_and_kind ws s = [s].
Proof using Type.
  intros Hin. unfold has_unique_symbol_name_and_kind. fold (same_name_and_kind ws s). assert (Hs : s ∈ same_name_and_kind ws s) by by apply list_elem_of_filter.
  destruct (same_name_and_kind ws s) as [|x [|y l]]; simpl; [by apply elem_of_nil in Hs|apply list_elem_of_singleton in Hs as <-; done|]. split; [|done]. unfold len. by simpl.
Qed.
Lemma elem_names_to_query ws s k : s ∈ all_symbols (files ws) -> k ∈ names_to_query s ws <-> names_symbol ws s k.
Proof using Type.
  intros Hin. unfold names_to_query, names_symbol. rewrite <-(unique_symbol ws s Hin). destruct (qualified_name s) as [q|].
  - destruct (has_unique_symbol_name_and_kind s ws); rewrite ?elem_of_cons, ?elem_of_nil; clear; naive_solver.
  - rewrite list_elem_of_singleton. clear. naive_solver.
Qed.
Lemma elem_collected ws s p : ws_referenced R ws -> s ∈ all_symbols (files ws) ->
  p ∈ ((fun x => place_of (loc_uri x) (loc_range x)) <$> collect_symbol_references s ws) <-> place_referring ws s p.
Proof using Type.
  intros Hok Hin. unfold collect_symbol_references, sort_locations_deterministically. rewrite sort_by_perm, elem_places. setoid_rewrite elem_concat_fmap. unfold place_referring.
  setoid_rewrite (elem_names_to_query ws s _ Hin). split.
  - intros (_ & r & (k & Hk & Hr) & ->). exists k, r. split; [done|]. split; [|done]. by eapply elem_global_references.
  - intros (k & r & Hk & Hr & ->). split; [apply not_elem_of_empty|]. exists r. split; [|done]. exists k. split; [done|]. by eapply elem_global_references.
Qed.

(** C7. [query_symbol_references] answers for exactly the names that an indexed
    file defines: a symbol of that name at the place that [find_definition]
    answers, with a list of places in order, without repetition, that has that
    place.  It is so in every state reached by critical sections, in any order
    and with any spellings of URIs, that do not commit while [clear] runs;
    extraction gives each symbol and reference the URI of its file.  When the
    run also spells the URI of each file in one way, the list is exactly that
    place and every place that refers to the symbol by its qualified name, or by
    its bare name when the name has no package or no other symbol of the kind
    has it (under another spelling of its key a file would keep its old
    references). *)
Theorem symbol_query_exact l ws n : tidy R -> limits_ok l -> reachable l ws ->
  match query_symbol_references n ws with
  | None => forall s, ~ defines ws n s
  | Some q => exists s, defines ws n s /\ definition q = location (candidate_of s) /\ find_definition (files ws) (symbols ws) n = Some (definition q) /\
      query_symbol q = mkIdentity (stable_key_of s) (name s) (qualified_name s) (symbol_kind s) /\
      NoDup (query_references q) /\ ordered (not_after location_cmp) (query_references q) /\ definition q ∈ query_references q /\
      (canonical -> forall p, p ∈ ((fun x => place_of (loc_uri x) (loc_range x)) <$> query_references q) <->
        p = place_of (loc_uri (definition q)) (loc_range (definition q)) \/ place_referring ws s p)
  end.
Proof using Type.
  intros Ht Hl Hr. pose proof (reachable_named _ _ _ _ _ _ _ Ht Hl Hr) as Hok. pose proof (first_definition _ _ n Hok) as Hd. unfold query_symbol_references.
  destruct (find_definition (files ws) (symbols ws) n) as [d|]; [|done]. destruct (symbol_found ws d n) as (s & -> & Hs & ->); [destruct Hd as (s & Hs & -> & _); by exists s|].
  exists s. split; [done|]. split; [done|]. split; [done|]. split; [done|]. simpl. assert (Hin : s ∈ all_symbols (files ws)) by (apply elem_all_symbols; destruct Hs as (key & f & Hf & Hsf & _); by exists key, f).
  pose proof (fun Hcan p => elem_collected ws s p (reachable_referenced _ _ _ _ _ _ _ Ht Hcan Hl Hr) Hin) as Hc.
  assert (Hn : NoDup (collect_symbol_references s ws)) by (unfold collect_symbol_references, sort_locations_deterministically; rewrite sort_by_perm; apply distinct_locations).
  destruct (bool_decide _) eqn:Eb.
  - apply bool_decide_eq_true in Eb. split; [done|]. split; [apply sorted_ordered, lawful_location|]. split; [done|]. intros Hcan p. rewrite (Hc Hcan). split; [by right|]. intros [->|]; [|done].
    apply (proj1 (Hc Hcan _)), list_elem_of_fmap. exists (mkLocation (symbol_uri s) (symbol_range s)). done.
  - apply bool_decide_eq_false in Eb. unfold sort_locations_deterministically. split; [|split; [apply sorted_ordered, lawful_location|split]]; try rewrite sort_by_perm.
    + apply NoDup_app. split; [done|]. split; [|apply NoDup_singleton]. intros x Hx ->%list_elem_of_singleton. done.
    + apply elem_of_app. right. left.
    + intros Hcan p. rewrite sort_by_perm, fmap_app, elem_of_app, (Hc Hcan). simpl. rewrite list_elem_of_singleton. tauto.
Qed.
End answers.

(** ** At concrete inputs *)

Lemma symbol_query_exact_witness :
  match query_symbol_references [10] demo_ws with
  | None => forall s, ~ defines demo_ws [10] s
  | Some q => exists s, defines demo_ws [10] s /\ definition q = location (candidate_of s) /\ find_definition (files demo_ws) (symbols demo_ws) [10] = Some (definition q) /\
      query_symbol q = mkIdentity (stable_key_of s) (name s) (qualified_name s) (symbol_kind s) /\
      NoDup (query_references q) /\ ordered (not_after location_cmp) (query_references q) /\ definition q ∈ query_references q /\
      (canonical (fun u => u) demo_regime -> forall p, p ∈ ((fun x => place_of (loc_uri x) (loc_range x)) <$> query_references q) <->
        p = place_of (loc_uri (definition q)) (loc_range (definition q)) \/ place_referring demo_ws s p)
  end.
Proof. apply (symbol_query_exact (fun u => u) (fun u => u) demo_hash demo_hash demo_regime demo_limits demo_ws); [exact demo_tidy|exact demo_limits_ok|exact demo_reaches]. Defined.
(** The subroutine of file 2, which its own text refers to by its bare name. *)
Example demo_query : (fun q => (stable_key (query_symbol q), query_references q)) <$> query_symbol_references [10] demo_ws =
  Some (demo_main ++ [58; 58; 10], [mkLocation [2] (demo_range 1); mkLocation [2] (demo_range 10)]).
Proof. vm_compute. reflexivity. Qed.
