(* ===== verification/SemanticFacts.v ===== *)
(** * Semantic facts (perl-semantic-facts/src/lib.rs)

    The vocabulary in which one file of the workspace describes itself:
    anchors (byte ranges), entities, occurrences, edges, imports and exports,
    and the shard that holds those of one file.  Identifiers are 64-bit
    numbers, names and URIs are byte lists; provenance and confidence are
    those of [PackageGraph]. *)

From stdpp Require Import base numbers list sets.
From S2P Require Import Prelude Utf8 PackageGraph.

Module EntityKind.
Inductive t :=
  Package | Class_ | Role | Subroutine | Method | Variable_ | Constant | Field_ | Label | Format | Module_ | GeneratedMember | ExternalSymbol | Unknown.
#[export] Instance t_dec : EqDecision t.
Proof. solve_decision. Defined.
End EntityKind.
Export (hints) EntityKind.
Module OccurrenceKind.
Inductive t :=
  Definition_ | Reference | Read | Write | Call | MethodCall | StaticMethodCall | CoderefReference | TypeglobReference | Import_ | Export_ | Inheritance
| RoleComposition | GeneratedUse | DynamicBoundary.
#[export] Instance t_dec : EqDecision t.
Proof. solve_decision. Defined.
End OccurrenceKind.
Export (hints) OccurrenceKind.
Module EdgeKind.
Inductive t :=
  Defines | References | Reads | Writes | Calls | ImportsModule | ImportsSymbol | ExportsSymbol | ExportsGroup | Inherits | ComposesRole | MemberOf
| GeneratedFrom | AliasOf | DependsOn | DynamicBoundary.
#[export] Instance t_dec : EqDecision t.
Proof. solve_decision. Defined.
End EdgeKind.
Export (hints) EdgeKind.

Record AnchorFact := mkAnchor {
  anchor : Z;
  anchor_file : Z;
  span_start_byte : Z;
  span_end_byte : Z;
  anchor_scope : option Z;
  anchor_provenance : Provenance;
  anchor_confidence : Confidence;
}.
Record EntityFact := mkEntity {
  entity : Z;
  entity_kind : EntityKind.t;
  canonical_name : str;
  entity_anchor : option Z;
  entity_scope : option Z;
  entity_provenance : Provenance;
  entity_confidence : Confidence;
}.
Record OccurrenceFact := mkOccurrence {
  occurrence : Z;
  occ_kind : OccurrenceKind.t;
  occ_entity : option Z;
  occ_anchor : Z;
  occ_scope : option Z;
  occ_provenance : Provenance;
  occ_confidence : Confidence;
}.
Record EdgeFact := mkEdgeFact {
  edge : Z;
  edge_kind : EdgeKind.t;
  from_entity_id : Z;
  to_entity_id : Z;
  via_occurrence_id : option Z;
  edge_provenance : Provenance;
  edge_confidence : Confidence;
}.

(** ** Imports and exports *)

Record ExportTag := mkTag { tag_name : str; members : list str }.
Record ExportSet := mkExports {
  default_exports : list str;
  optional_exports : list str;
  tags : list ExportTag;
  export_provenance : Provenance;
  export_confidence : Confidence;
  export_module : option str;
  export_anchor : option Z;
}.
Module ImportKind.
Inductive t := Use | UseEmpty | UseExplicitList | UseTag | Require_ | RequireThenImport | UseConstant | DynamicRequire | ManualImport.
End ImportKind.
Module ImportSymbols.
Inductive t := Default | None_ | Explicit (names : list str) | Tags (tags : list str) | Mixed (tags names : list str) | Dynamic.
End ImportSymbols.
Record ImportSpec := mkImport {
  module : str;
  import_kind : ImportKind.t;
  import_symbols : ImportSymbols.t;
  import_provenance : Provenance;
  import_confidence : Confidence;
  import_file : option Z;
  import_anchor : option Z;
  import_scope : option Z;
  import_start : option Z;
}.
Record UseLibFact := mkUseLib {
  path : str;
  is_active : bool;
  lib_file : Z;
  lib_anchor : option Z;
  lib_provenance : Provenance;
  lib_confidence : Confidence;
}.

(** ** The facts of one file (workspace_index.rs) *)

Record FileFactShard := mkShard {
  source_uri : str;
  file_id : Z;
  content_hash : Z;
  producer_schema_version : Z;
  anchors_hash : option Z;
  entities_hash : option Z;
  occurrences_hash : option Z;
  edges_hash : option Z;
  anchors : list AnchorFact;
  entities : list EntityFact;
  occurrences : list OccurrenceFact;
  edges : list EdgeFact;
}.

(** ** Searching *)

(** [iter().find(p)] and [iter().find_map(f)] *)
Fixpoint find_map {A B} (f : A -> option B) (l : list A) : option B :=
  match l with [] => None | x :: l => match f x with Some y => Some y | None => find_map f l end end.
Definition find_first {A} (p : A -> bool) : list A -> option A := find_map (fun x => if p x then Some x else None).
Lemma find_map_Some {A B} (f : A -> option B) l y : find_map f l = Some y -> exists x, x ∈ l /\ f x = Some y.
Proof. induction l as [|x l IH]; simpl; [done|]. destruct (f x) eqn:E; [intros [= <-]; exists x|intros (z & ? & ?)%IH; exists z]; set_solver. Qed.
Lemma find_map_None {A B} (f : A -> option B) l : find_map f l = None <-> forall x, x ∈ l -> f x = None.
Proof. induction l as [|x l IH]; simpl; [set_solver|]. destruct (f x) eqn:E; [split; [done|intros Hx; rewrite Hx in E by left; done]|]. rewrite IH. set_solver. Qed.
Lemma find_first_Some {A} (p : A -> bool) l x : find_first p l = Some x -> x ∈ l /\ p x = true.
Proof. intros (y & Hy & E)%find_map_Some. destruct (p y) eqn:Ep; [|done]. by injection E as <-. Qed.
Lemma find_first_None {A} (p : A -> bool) l : find_first p l = None <-> forall x, x ∈ l -> p x = false.
Proof. unfold find_first. rewrite find_map_None. split; intros H x Hx; specialize (H x Hx); by destruct (p x). Qed.
Lemma find_first_exists {A} (p : A -> bool) l x : x ∈ l -> p x = true -> is_Some (find_first p l).
Proof. intros Hx Hp. destruct (find_first p l) eqn:E; [done|]. rewrite find_first_None in E. by rewrite (E x Hx) in Hp. Qed.
