(* ===== verification/ReferenceIndex.v ===== *)
(** * The reference index (perl-workspace/src/semantic/references.rs)

    The typed references of all files, under the name of the referenced
    entity, under every entity they may target, and, where no name can be
    derived, under their own occurrence.  Proved here: the edges that a shard
    contributes, and that adding and removing files keeps the three maps equal
    to what the current shards contribute. *)

From stdpp Require Import base numbers list gmap sets.
From S2P Require Import Prelude PackageGraph SemanticFacts NameMaps.

(** ** Data *)

Record UnresolvedOccurrenceKey := mkUnresolved { un_file : Z; un_occurrence : Z; un_anchor : Z }.
#[export] Instance UnresolvedOccurrenceKey_dec : EqDecision UnresolvedOccurrenceKey.
Proof. solve_decision. Defined.
#[export] Instance UnresolvedOccurrenceKey_countable : Countable UnresolvedOccurrenceKey.
Proof.
  apply (inj_countable' (fun k => (un_file k, un_occurrence k, un_anchor k)) (fun t => mkUnresolved t.1.1 t.1.2 t.2)). by intros [].
Defined.
Record ReferenceEdge := mkReferenceEdge {
  re_occurrence : Z;
  re_anchor : Z;
  re_file : Z;
  symbol_key : str;
  target_candidates : list Z;
  re_kind : OccurrenceKind.t;
  re_provenance : Provenance;
  re_confidence : Confidence;
}.
Record ReferenceIndex := mkReferences {
  references_by_name : gmap str (list ReferenceEdge);
  references_by_entity : gmap Z (list ReferenceEdge);
  unresolved_by_occurrence : gmap UnresolvedOccurrenceKey (list ReferenceEdge);
  indexed_files : gmap str Z;
}.
Definition new : ReferenceIndex := mkReferences ∅ ∅ ∅ ∅.

(** ** Adding a file *)

Definition derive_canonical_name (shard : FileFactShard) (occ : OccurrenceFact) : option str :=
  entity_id ← occ_entity occ;
  canonical_name <$> find_first (fun e => entity e =? entity_id) (entities shard).
Definition push_target (m : gmap Z (list Z)) (e : EdgeFact) : gmap Z (list Z) :=
  match edge_kind e, via_occurrence_id e with EdgeKind.References, Some occ_id => push_at occ_id (to_entity_id e) m | _, _ => m end.
Definition edge_targets (shard : FileFactShard) : gmap Z (list Z) := foldl push_target ∅ (edges shard).
Definition is_definition (occ : OccurrenceFact) : bool := bool_decide (occ_kind occ = OccurrenceKind.Definition_).
Definition count_occurrence (m : gmap Z Z) (occ : OccurrenceFact) : gmap Z Z :=
  if is_definition occ then m else <[occurrence occ := default 0 (m !! occurrence occ) + 1]> m.
Definition occurrence_counts (shard : FileFactShard) : gmap Z Z := foldl count_occurrence ∅ (occurrences shard).
(** The targets of an occurrence, and the table without those moved out. *)
Definition take_targets (counts : gmap Z Z) (occ : OccurrenceFact) (targets : gmap Z (list Z)) : list Z * gmap Z (list Z) :=
  let found := default (option_list (occ_entity occ)) (targets !! occurrence occ) in
  (found, if bool_decide (counts !! occurrence occ = Some 1) then delete (occurrence occ) targets else targets).
Definition edge_of (shard : FileFactShard) (occ : OccurrenceFact) (targets : list Z) : ReferenceEdge :=
  mkReferenceEdge (occurrence occ) (occ_anchor occ) (file_id shard) (default [] (derive_canonical_name shard occ)) targets
    (occ_kind occ) (occ_provenance occ) (occ_confidence occ).
Definition insert_edge (shard : FileFactShard) (occ : OccurrenceFact) (e : ReferenceEdge) (self : ReferenceIndex) : ReferenceIndex :=
  let by_entity := foldl (fun m entity_id => push_at entity_id e m) (references_by_entity self) (target_candidates e) in
  match derive_canonical_name shard occ with
  | Some name => mkReferences (push_at name e (references_by_name self)) by_entity (unresolved_by_occurrence self) (indexed_files self)
  | None =>
    mkReferences (references_by_name self) by_entity
      (push_at (mkUnresolved (file_id shard) (occurrence occ) (occ_anchor occ)) e (unresolved_by_occurrence self)) (indexed_files self)
  end.
Definition add_occurrence (shard : FileFactShard) (counts : gmap Z Z) (st : gmap Z (list Z) * ReferenceIndex) (occ : OccurrenceFact) : gmap Z (list Z) * ReferenceIndex :=
  if is_definition occ then st
  else let '(targets, rest) := take_targets counts occ st.1 in (rest, insert_edge shard occ (edge_of shard occ targets) st.2).
Definition add_file (shard : FileFactShard) (self : ReferenceIndex) : ReferenceIndex :=
  let self := mkReferences (references_by_name self) (references_by_entity self) (unresolved_by_occurrence self) (<[source_uri shard := file_id shard]> (indexed_files self)) in
  (foldl (add_occurrence shard (occurrence_counts shard)) (edge_targets shard, self) (occurrences shard)).2.

(** ** Removing a file *)

Definition of_other_file (file_id : Z) (r : ReferenceEdge) : bool := negb (re_file r =? file_id).
Definition remove_file (source_uri : str) (self : ReferenceIndex) : ReferenceIndex :=
  match indexed_files self !! source_uri with
  | None => self
  | Some file_id =>
    mkReferences (sweep (of_other_file file_id) (references_by_name self)) (sweep (of_other_file file_id) (references_by_entity self))
      (filter (fun kv => un_file kv.1 <> file_id) (unresolved_by_occurrence self)) (delete source_uri (indexed_files self))
  end.

(** ** Lookups *)

Definition get_by_name (symbol_key : str) (self : ReferenceIndex) : list ReferenceEdge := bucket (references_by_name self) symbol_key.
Definition get_by_entity (entity_id : Z) (self : ReferenceIndex) : list ReferenceEdge := bucket (references_by_entity self) entity_id.
Definition get_unresolved (key : UnresolvedOccurrenceKey) (self : ReferenceIndex) : list ReferenceEdge := bucket (unresolved_by_occurrence self) key.
Definition name_count (self : ReferenceIndex) : Z := Z.of_nat (size (references_by_name self)).
Definition unresolved_count (self : ReferenceIndex) : Z := Z.of_nat (size (unresolved_by_occurrence self)).
Definition entity_count (self : ReferenceIndex) : Z := Z.of_nat (size (references_by_entity self)).

(** ** What a file contributes *)

(** The targets of an occurrence: those of its reference edges, or else its
    own entity. *)
Definition edge_targets_of (shard : FileFactShard) (id : Z) : list Z :=
  to_entity_id <$> filter (fun e => edge_kind e = EdgeKind.References /\ via_occurrence_id e = Some id) (edges shard).
Definition targets_of (shard : FileFactShard) (occ : OccurrenceFact) : list Z :=
  match edge_targets_of shard (occurrence occ) with [] => option_list (occ_entity occ) | l => l end.
Definition uses (shard : FileFactShard) : list OccurrenceFact := filter (fun occ => is_definition occ = false) (occurrences shard).
Definition reference_edge (shard : FileFactShard) (occ : OccurrenceFact) : ReferenceEdge := edge_of shard occ (targets_of shard occ).
Definition named_entries (shard : FileFactShard) : list (str * ReferenceEdge) :=
  concat ((fun occ => match derive_canonical_name shard occ with Some name => [(name, reference_edge shard occ)] | None => [] end) <$> uses shard).
Definition entity_entries (shard : FileFactShard) : list (Z * ReferenceEdge) :=
  concat ((fun occ => (fun id => (id, reference_edge shard occ)) <$> targets_of shard occ) <$> uses shard).
Definition unresolved_entries (shard : FileFactShard) : list (UnresolvedOccurrenceKey * ReferenceEdge) :=
  concat ((fun occ => match derive_canonical_name shard occ with
                      | Some _ => []
                      | None => [(mkUnresolved (file_id shard) (occurrence occ) (occ_anchor occ), reference_edge shard occ)]
                      end) <$> uses shard).

Lemma edge_targets_lookup shard id : edge_targets shard !! id = match edge_targets_of shard id with [] => None | l => Some l end.
Proof.
  set (es := omap (fun e => match edge_kind e, via_occurrence_id e with EdgeKind.References, Some i => Some (i, to_entity_id e) | _, _ => None end) (edges shard)).
  assert (E : edge_targets shard = push_all es ∅).
  { unfold edge_targets, push_all, es. generalize (∅ : gmap Z (list Z)). induction (edges shard) as [|e l IH]; intros m; [done|]. simpl. rewrite IH. unfold push_target.
    destruct (edge_kind e), (via_occurrence_id e); done. }
  assert (Eb : bucket (edge_targets shard) id = edge_targets_of shard id).
  { rewrite E, bucket_push_all, bucket_empty. unfold edge_targets_of, es. simpl. clear. induction (edges shard) as [|e l IH]; [done|]. simpl. rewrite (filter_cons (fun e => _ /\ _)).
    destruct (decide (edge_kind e = EdgeKind.References /\ via_occurrence_id e = Some id)) as [[-> ->]|Hn].
    - rewrite filter_cons_True by done. rewrite !fmap_cons. f_equal. exact IH.
    - destruct (edge_kind e), (via_occurrence_id e) as [i|]; try exact IH. rewrite filter_cons_False; [exact IH|]. simpl. intros ->. by apply Hn. }
  assert (Hne : no_empty (edge_targets shard)) by (rewrite E; apply push_all_no_empty; intros k; by rewrite lookup_empty).
  rewrite <-Eb. specialize (Hne id). unfold bucket. destruct (_ !! id) as [[|x l]|]; done.
Qed.
Lemma occurrence_counts_lookup shard id :
  default 0 (occurrence_counts shard !! id) = len (filter (fun occ => occurrence occ = id) (uses shard)).
Proof.
  unfold occurrence_counts, uses. enough (Hg : forall l m, default 0 (foldl count_occurrence m l !! id) = default 0 (m !! id) + len (filter (fun occ => occurrence occ = id) (filter (fun occ => is_definition occ = false) l))).
  { rewrite Hg, lookup_empty. simpl. lia. }
  unfold len. induction l as [|occ l IH]; intros m; simpl; [lia|]. rewrite IH. unfold count_occurrence. rewrite (filter_cons (fun o => is_definition o = false)).
  destruct (is_definition occ) eqn:Ed; simpl; [done|]. rewrite filter_cons. destruct (decide (occurrence occ = id)) as [<-|Hne].
  - rewrite lookup_insert_eq. simpl. lia.
  - by rewrite lookup_insert_ne.
Qed.
(** The moves out of the table of targets are invisible. *)
Lemma add_file_edges shard self : add_file shard self =
  foldl (fun self occ => insert_edge shard occ (reference_edge shard occ) self)
    (mkReferences (references_by_name self) (references_by_entity self) (unresolved_by_occurrence self) (<[source_uri shard := file_id shard]> (indexed_files self))) (uses shard).
Proof.
  unfold add_file. set (self' := mkReferences _ _ _ _). clearbody self'.
  enough (Hg : forall l2 l1 m st, occurrences shard = l1 ++ l2 ->
    (forall occ, occ ∈ l2 -> is_definition occ = false -> m !! occurrence occ = edge_targets shard !! occurrence occ) ->
    (foldl (add_occurrence shard (occurrence_counts shard)) (m, st) l2).2 =
    foldl (fun self occ => insert_edge shard occ (reference_edge shard occ) self) st (filter (fun occ => is_definition occ = false) l2)).
  { by apply (Hg _ []). }
  induction l2 as [|occ l2 IH]; intros l1 m st El Hm; [done|]. simpl. unfold add_occurrence at 2. rewrite filter_cons.
  destruct (is_definition occ) eqn:Ed; simpl; [apply (IH (l1 ++ [occ])); [by rewrite El, <-(assoc_L (++))|intros o Ho; apply Hm; by right]|].
  replace (default (option_list (occ_entity occ)) (m !! occurrence occ)) with (targets_of shard occ).
  2:{ rewrite (Hm occ) by (done || by left). rewrite edge_targets_lookup. unfold targets_of. by destruct (edge_targets_of _ _). }
  apply (IH (l1 ++ [occ])); [by rewrite El, <-(assoc_L (++))|]. intros o Ho Hd. rewrite <-(Hm o) by (done || by right).
  destruct (bool_decide _) eqn:Eb; [|done]. apply bool_decide_eq_true in Eb. apply lookup_delete_ne. intros Eo.
  pose proof (occurrence_counts_lookup shard (occurrence occ)) as Hc. rewrite Eb in Hc. unfold uses in Hc. rewrite El, !filter_app, filter_cons, decide_True, filter_cons, decide_True in Hc by done.
  unfold len in Hc. rewrite length_app in Hc. simpl in Hc.
  assert (Ho' : o ∈ filter (fun x => occurrence x = occurrence occ) (filter (fun x => is_definition x = false) l2)) by (apply list_elem_of_filter; split; [done|by apply list_elem_of_filter]).
  apply list_elem_of_In in Ho'. destruct (filter _ (filter _ l2)); [done|]. simpl in Hc. lia.
Qed.
Lemma insert_edges_fields shard uses' self : let self' := foldl (fun self occ => insert_edge shard occ (reference_edge shard occ) self) self uses' in
  references_by_name self' =
    push_all (concat ((fun occ => match derive_canonical_name shard occ with Some name => [(name, reference_edge shard occ)] | None => [] end) <$> uses')) (references_by_name self) /\
  references_by_entity self' = push_all (concat ((fun occ => (fun id => (id, reference_edge shard occ)) <$> targets_of shard occ) <$> uses')) (references_by_entity self) /\
  unresolved_by_occurrence self' =
    push_all (concat ((fun occ => match derive_canonical_name shard occ with
                                  | Some _ => []
                                  | None => [(mkUnresolved (file_id shard) (occurrence occ) (occ_anchor occ), reference_edge shard occ)]
                                  end) <$> uses')) (unresolved_by_occurrence self) /\
  indexed_files self' = indexed_files self.
Proof.
  simpl. revert self. induction uses' as [|occ l IH]; intros self; [done|]. simpl. unfold push_all in *. rewrite !foldl_app.
  destruct (IH (insert_edge shard occ (reference_edge shard occ) self)) as (-> & -> & -> & ->). unfold insert_edge.
  assert (He : forall m, foldl (fun m id => push_at id (reference_edge shard occ) m) m (targets_of shard occ) =
    foldl (fun m e => push_at e.1 e.2 m) m ((fun id => (id, reference_edge shard occ)) <$> targets_of shard occ)).
  { generalize (reference_edge shard occ). intros e. induction (targets_of shard occ) as [|id ids IHt]; intros m; [done|apply IHt]. }
  unfold reference_edge at 3 6. simpl. fold (reference_edge shard occ). rewrite He. by destruct (derive_canonical_name shard occ).
Qed.
Lemma add_file_fields shard self : let self' := add_file shard self in
  references_by_name self' = push_all (named_entries shard) (references_by_name self) /\
  references_by_entity self' = push_all (entity_entries shard) (references_by_entity self) /\
  unresolved_by_occurrence self' = push_all (unresolved_entries shard) (unresolved_by_occurrence self) /\
  indexed_files self' = <[source_uri shard := file_id shard]> (indexed_files self).
Proof. simpl. rewrite add_file_edges. match goal with |- context [foldl _ ?st _] => apply (insert_edges_fields shard (uses shard) st) end. Qed.

Lemma elem_named_entries shard name e : (name, e) ∈ named_entries shard <->
  exists occ, occ ∈ occurrences shard /\ occ_kind occ <> OccurrenceKind.Definition_ /\ derive_canonical_name shard occ = Some name /\ e = reference_edge shard occ.
Proof.
  unfold named_entries, uses. rewrite elem_concat_fmap. setoid_rewrite list_elem_of_filter. unfold is_definition. setoid_rewrite bool_decide_eq_false. split.
  - intros (occ & [? ?] & He). exists occ. destruct (derive_canonical_name shard occ); set_solver.
  - intros (occ & ? & ? & En & ->). exists occ. rewrite En. set_solver.
Qed.
Lemma elem_entity_entries shard id e : (id, e) ∈ entity_entries shard <->
  exists occ, occ ∈ occurrences shard /\ occ_kind occ <> OccurrenceKind.Definition_ /\ id ∈ targets_of shard occ /\ e = reference_edge shard occ.
Proof.
  unfold entity_entries, uses. rewrite elem_concat_fmap. setoid_rewrite list_elem_of_filter. unfold is_definition. setoid_rewrite bool_decide_eq_false.
  setoid_rewrite list_elem_of_fmap. naive_solver.
Qed.
Lemma elem_unresolved_entries shard k e : (k, e) ∈ unresolved_entries shard <->
  exists occ, occ ∈ occurrences shard /\ occ_kind occ <> OccurrenceKind.Definition_ /\ derive_canonical_name shard occ = None /\
    k = mkUnresolved (file_id shard) (occurrence occ) (occ_anchor occ) /\ e = reference_edge shard occ.
Proof.
  unfold unresolved_entries, uses. rewrite elem_concat_fmap. setoid_rewrite list_elem_of_filter. unfold is_definition. setoid_rewrite bool_decide_eq_false. split.
  - intros (occ & [? ?] & He). exists occ. destruct (derive_canonical_name shard occ); set_solver.
  - intros (occ & ? & ? & En & -> & ->). exists occ. rewrite En. set_solver.
Qed.

(** ** The index follows the shards *)

(** No two shards share a URI or a file id. *)
Definition identified (shards : gmap str FileFactShard) : Prop :=
  forall k1 s1 k2 s2, shards !! k1 = Some s1 -> shards !! k2 = Some s2 -> source_uri s1 = source_uri s2 \/ file_id s1 = file_id s2 -> k1 = k2.
Record follows (shards : gmap str FileFactShard) (idx : ReferenceIndex) : Prop := mkFollows {
  fo_names : projects named_entries shards (references_by_name idx);
  fo_entities : projects entity_entries shards (references_by_entity idx);
  fo_unresolved : projects unresolved_entries shards (unresolved_by_occurrence idx);
  fo_files : forall uri id, indexed_files idx !! uri = Some id <-> exists key s, shards !! key = Some s /\ source_uri s = uri /\ file_id s = id;
}.
Lemma follows_new : follows ∅ new.
Proof. split; try apply projects_empty. intros uri id. simpl. rewrite lookup_empty. split; [done|]. intros (key & s & Hs & _). by rewrite lookup_empty in Hs. Qed.
Lemma follows_add shards idx key s : follows shards idx -> shards !! key = None -> identified (<[key := s]> shards) -> follows (<[key := s]> shards) (add_file s idx).
Proof.
  intros [H1 H2 H3 H4] Hk Hid. destruct (add_file_fields s idx) as (E1 & E2 & E3 & E4). split; rewrite ?E1, ?E2, ?E3; try by apply projects_add.
  intros uri id. rewrite E4. rewrite lookup_insert_Some, H4. split.
  - intros [[<- <-]|(Hne & key' & s' & Hs & <- & <-)]; [exists key, s; by rewrite lookup_insert_eq|]. exists key', s'. rewrite lookup_insert_ne; [done|]. intros ->. congruence.
  - intros (key' & s' & Hs & <- & <-). apply lookup_insert_Some in Hs as [[<- <-]|[Hne Hs]]; [by left|]. right. split; [|by exists key', s'].
    intros Eu. apply Hne. apply (Hid key s key' s'); [apply lookup_insert_eq|by rewrite lookup_insert_ne|by left].
Qed.
Lemma bucket_filter_file fid (m : gmap UnresolvedOccurrenceKey (list ReferenceEdge)) k :
  bucket (filter (fun kv => un_file kv.1 <> fid) m) k = if decide (un_file k = fid) then [] else bucket m k.
Proof.
  unfold bucket. destruct (decide (un_file k = fid)) as [E|E].
  - rewrite (proj2 (map_lookup_filter_None _ _ _)); [done|]. right. intros x _. simpl. auto.
  - f_equal. destruct (m !! k) as [l|] eqn:El; [by apply map_lookup_filter_Some|]. apply map_lookup_filter_None. by left.
Qed.
Lemma follows_remove shards idx key s : follows shards idx -> shards !! key = Some s -> identified shards -> follows (delete key shards) (remove_file (source_uri s) idx).
Proof.
  intros [H1 H2 H3 H4] Hs Hid. unfold remove_file. rewrite (proj2 (H4 (source_uri s) (file_id s))) by eauto.
  assert (Hother : forall key' g, key' <> key -> shards !! key' = Some g -> negb (file_id g =? file_id s) = true).
  { intros key' g Hne Hg. apply negb_true_iff, Z.eqb_neq. intros E. apply Hne, (Hid key' g key s); auto. }
  unfold of_other_file. split; simpl.
  - apply (projects_sweep _ _ _ key s); try done.
    + intros k x (occ & _ & _ & _ & ->)%elem_named_entries. simpl. by rewrite Z.eqb_refl.
    + intros key' g k x Hne Hg (occ & _ & _ & _ & ->)%elem_named_entries. by apply (Hother key').
  - apply (projects_sweep _ _ _ key s); try done.
    + intros k x (occ & _ & _ & _ & ->)%elem_entity_entries. simpl. by rewrite Z.eqb_refl.
    + intros key' g k x Hne Hg (occ & _ & _ & _ & ->)%elem_entity_entries. by apply (Hother key').
  - apply (projects_remove _ shards (unresolved_by_occurrence idx) key s (fun r => negb (re_file r =? file_id s))); try done.
    + intros k x (occ & _ & _ & _ & _ & ->)%elem_unresolved_entries. simpl. by rewrite Z.eqb_refl.
    + intros key' g k x Hne Hg (occ & _ & _ & _ & _ & ->)%elem_unresolved_entries. by apply (Hother key').
    + intros k. left. rewrite bucket_filter_file. symmetry.
      assert (Hre : forall x, x ∈ bucket (unresolved_by_occurrence idx) k -> re_file x = un_file k).
      { intros x Hx. rewrite (proj1 H3 k) in Hx. apply elem_contributed in Hx as (key' & g & Hg & Hx). apply elem_unresolved_entries in Hx as (occ & _ & _ & _ & -> & ->). done. }
      destruct (decide _) as [E|E]; [apply filter_drops|apply filter_keeps]; apply Forall_forall; intros x Hx; rewrite (Hre x Hx); [rewrite E, Z.eqb_refl; done|].
      by apply negb_true_iff, Z.eqb_neq.
    + intros k. rewrite map_lookup_filter_Some. intros [Hk _]. by apply (proj2 H3 k).
  - intros uri id. rewrite lookup_delete_Some, H4. split.
    + intros (Hne & key' & g & Hg & <- & <-). exists key', g. rewrite lookup_delete_ne; [done|]. intros <-. congruence.
    + intros (key' & g & Hg & <- & <-). apply lookup_delete_Some in Hg as [Hne Hg]. split; [|by exists key', g]. intros E. apply Hne, (Hid key s key' g); auto.
Qed.
(** A shard replaced by one that contributes the same. *)
Lemma follows_same shards idx key s s' : follows shards idx -> shards !! key = Some s -> source_uri s' = source_uri s -> file_id s' = file_id s ->
  entities s' = entities s -> occurrences s' = occurrences s -> edges s' = edges s -> follows (<[key := s']> shards) idx.
Proof.
  intros [H1 H2 H3 H4] Hs Eu Ef Een Eo Eed.
  assert (Ed : derive_canonical_name s' = derive_canonical_name s) by (unfold derive_canonical_name; by rewrite Een).
  assert (Et : targets_of s' = targets_of s) by (unfold targets_of, edge_targets_of; by rewrite Eed).
  split; [..|intros uri id; rewrite H4; split].
  - apply (projects_same _ _ _ _ s); try done. unfold named_entries, uses, reference_edge, edge_of. by rewrite Ed, Et, Eo, Ef.
  - apply (projects_same _ _ _ _ s); try done. unfold entity_entries, uses, reference_edge, edge_of. by rewrite Ed, Et, Eo, Ef.
  - apply (projects_same _ _ _ _ s); try done. unfold unresolved_entries, uses, reference_edge, edge_of. by rewrite Ed, Et, Eo, Ef.
  - intros (k & g & Hg & <- & <-). destruct (decide (key = k)) as [<-|Hne]; [exists key, s'; rewrite lookup_insert_eq; split; [done|]; split; congruence|]. exists k, g. by rewrite lookup_insert_ne.
  - intros (k & g & Hg & <- & <-). apply lookup_insert_Some in Hg as [[<- <-]|[Hne Hg]]; [by exists key, s|by exists k, g].
Qed.

(** ** Indexes that answer alike *)

(** The same edges under every key, in any order. *)
Record same_answers (a b : ReferenceIndex) : Prop := mkSameAnswers {
  sa_names : forall n, get_by_name n a ≡ₚ get_by_name n b;
  sa_entities : forall id, get_by_entity id a ≡ₚ get_by_entity id b;
  sa_unresolved : forall k, get_unresolved k a ≡ₚ get_unresolved k b;
  sa_name_count : name_count a = name_count b;
  sa_entity_count : entity_count a = entity_count b;
  sa_unresolved_count : unresolved_count a = unresolved_count b;
}.
#[export] Instance ReferenceIndex_equiv : Equiv ReferenceIndex := same_answers.
#[export] Instance same_answers_equivalence : Equivalence (≡@{ReferenceIndex}).
Proof.
  split; [by split|intros a b []; by split|]. intros a b c [] []. split; intros; by etrans; eauto.
Qed.
Lemma size_of_buckets {K} `{Countable K} {A} (m1 m2 : gmap K (list A)) : no_empty m1 -> no_empty m2 -> (forall k, bucket m1 k ≡ₚ bucket m2 k) -> size m1 = size m2.
Proof.
  intros H1 H2 Hb. rewrite <-!size_dom. f_equal. apply set_eq. intros k. rewrite !elem_of_dom, <-!not_eq_None_Some. by rewrite (bucket_None_iff m1 m2 k H1 H2 (Hb k)).
Qed.
Lemma projections_agree {K} `{Countable K} {A F} (entries : F -> list (K * A)) fs m1 m2 : projects entries fs m1 -> projects entries fs m2 ->
  (forall k, bucket m1 k ≡ₚ bucket m2 k) /\ size m1 = size m2.
Proof. intros [H1 N1] [H2 N2]. assert (Hb : forall k, bucket m1 k ≡ₚ bucket m2 k) by (intros k; by rewrite H1, H2). split; [done|by apply size_of_buckets]. Qed.
(** All shards added to an empty index, in the order of [values]. *)
Definition build (values : list FileFactShard) : ReferenceIndex := foldl (fun idx s => add_file s idx) new values.
Lemma build_fields values : references_by_name (build values) = push_all (concat (named_entries <$> values)) ∅ /\
  references_by_entity (build values) = push_all (concat (entity_entries <$> values)) ∅ /\
  unresolved_by_occurrence (build values) = push_all (concat (unresolved_entries <$> values)) ∅.
Proof.
  enough (Hg : forall idx, let idx' := foldl (fun idx s => add_file s idx) idx values in
    references_by_name idx' = push_all (concat (named_entries <$> values)) (references_by_name idx) /\
    references_by_entity idx' = push_all (concat (entity_entries <$> values)) (references_by_entity idx) /\
    unresolved_by_occurrence idx' = push_all (concat (unresolved_entries <$> values)) (unresolved_by_occurrence idx)) by exact (Hg new).
  induction values as [|s values IH]; intros idx; simpl; [done|]. unfold push_all. rewrite !foldl_app. destruct (IH (add_file s idx)) as (-> & -> & ->).
  by destruct (add_file_fields s idx) as (-> & -> & -> & _).
Qed.
Lemma follows_build shards idx values : follows shards idx -> values ≡ₚ (map_to_list shards).*2 -> idx ≡ build values.
Proof.
  intros [A1 A2 A3 _] Hv. destruct (build_fields values) as (E1 & E2 & E3).
  assert (B1 : projects named_entries shards (references_by_name (build values))) by (rewrite E1; by apply rebuild_projects).
  assert (B2 : projects entity_entries shards (references_by_entity (build values))) by (rewrite E2; by apply rebuild_projects).
  assert (B3 : projects unresolved_entries shards (unresolved_by_occurrence (build values))) by (rewrite E3; by apply rebuild_projects).
  destruct (projections_agree _ _ _ _ A1 B1) as [? S1], (projections_agree _ _ _ _ A2 B2) as [? S2], (projections_agree _ _ _ _ A3 B3) as [? S3].
  split; try done; unfold name_count, entity_count, unresolved_count; congruence.
Qed.
