(* ===== verification/ImportExports.v ===== *)
(** * Imports and exports (perl-workspace/src/semantic/imports.rs)

    The import statements and library paths of every file and the export set
    of every module, with the tables that find them by the URI of their file.
    A hash map is iterated in the order of [map_to_list]. *)

From stdpp Require Import base numbers list gmap.
From S2P Require Import Prelude PackageGraph SemanticFacts.

Record ImportExportIndex := mkImportExports {
  imports_by_file : gmap Z (list ImportSpec);
  exports_by_module : gmap str ExportSet;
  file_uri_to_id : gmap str Z;
  module_to_source_uri : gmap str str;
  use_lib_by_file : gmap Z (list UseLibFact);
  use_lib_uri_to_id : gmap str Z;
}.
Definition new : ImportExportIndex := mkImportExports ∅ ∅ ∅ ∅ ∅ ∅.

(** ** Imports *)

Definition add_file_imports (source_uri : str) (file_id : Z) (imports : list ImportSpec) (self : ImportExportIndex) : ImportExportIndex :=
  mkImportExports (<[file_id := imports]> (imports_by_file self)) (exports_by_module self) (<[source_uri := file_id]> (file_uri_to_id self)) (module_to_source_uri self)
    (use_lib_by_file self) (use_lib_uri_to_id self).
Definition remove_file_imports (source_uri : str) (self : ImportExportIndex) : ImportExportIndex :=
  match file_uri_to_id self !! source_uri with
  | None => self
  | Some file_id =>
    mkImportExports (delete file_id (imports_by_file self)) (exports_by_module self) (delete source_uri (file_uri_to_id self)) (module_to_source_uri self)
      (use_lib_by_file self) (use_lib_uri_to_id self)
  end.
Definition get_imports_for_file (file_id : Z) (self : ImportExportIndex) : list ImportSpec := default [] (imports_by_file self !! file_id).

(** ** Library paths *)

Definition add_file_use_lib (source_uri : str) (file_id : Z) (facts : list UseLibFact) (self : ImportExportIndex) : ImportExportIndex :=
  mkImportExports (imports_by_file self) (exports_by_module self) (file_uri_to_id self) (module_to_source_uri self)
    (<[file_id := facts]> (use_lib_by_file self)) (<[source_uri := file_id]> (use_lib_uri_to_id self)).
Definition remove_file_use_lib (source_uri : str) (self : ImportExportIndex) : ImportExportIndex :=
  match use_lib_uri_to_id self !! source_uri with
  | None => self
  | Some file_id =>
    mkImportExports (imports_by_file self) (exports_by_module self) (file_uri_to_id self) (module_to_source_uri self)
      (delete file_id (use_lib_by_file self)) (delete source_uri (use_lib_uri_to_id self))
  end.
Definition get_use_lib_for_file (file_id : Z) (self : ImportExportIndex) : list UseLibFact := default [] (use_lib_by_file self !! file_id).

(** ** Exports *)

Definition add_module_exports (source_uri module_name : str) (exports : ExportSet) (self : ImportExportIndex) : ImportExportIndex :=
  mkImportExports (imports_by_file self) (<[module_name := exports]> (exports_by_module self)) (file_uri_to_id self) (<[module_name := source_uri]> (module_to_source_uri self))
    (use_lib_by_file self) (use_lib_uri_to_id self).
Definition modules_to_remove (source_uri : str) (self : ImportExportIndex) : list str :=
  (filter (fun kv => kv.2 = source_uri) (map_to_list (module_to_source_uri self))).*1.
Definition remove_module (self : ImportExportIndex) (module_name : str) : ImportExportIndex :=
  mkImportExports (imports_by_file self) (delete module_name (exports_by_module self)) (file_uri_to_id self) (delete module_name (module_to_source_uri self))
    (use_lib_by_file self) (use_lib_uri_to_id self).
Definition remove_module_exports (source_uri : str) (self : ImportExportIndex) : ImportExportIndex :=
  foldl remove_module self (modules_to_remove source_uri self).
Definition get_exports_for_module (module_name : str) (self : ImportExportIndex) : option ExportSet := exports_by_module self !! module_name.

(** ** Queries *)

Definition import_file_count (self : ImportExportIndex) : Z := Z.of_nat (size (imports_by_file self)).
Definition export_module_count (self : ImportExportIndex) : Z := Z.of_nat (size (exports_by_module self)).
Definition exports_symbol (symbol_name : str) (exports : ExportSet) : bool :=
  existsb (fun s => bool_decide (s = symbol_name)) (default_exports exports) || existsb (fun s => bool_decide (s = symbol_name)) (optional_exports exports).
Definition find_exporting_module (symbol_name : str) (self : ImportExportIndex) : option str :=
  fst <$> find_first (fun kv => exports_symbol symbol_name kv.2) (map_to_list (exports_by_module self)).
Definition import_spec_names_symbol (symbol_name : str) (spec : ImportSpec) : bool :=
  match import_symbols spec with
  | ImportSymbols.Explicit names | ImportSymbols.Mixed _ names => existsb (fun n => bool_decide (n = symbol_name)) names
  | _ => false
  end.
Definition is_imported_by_other_file (symbol_name : str) (exclude_file_id : Z) (self : ImportExportIndex) : bool :=
  existsb (fun kv => negb (kv.1 =? exclude_file_id) && existsb (import_spec_names_symbol symbol_name) kv.2) (map_to_list (imports_by_file self)).
Definition all_imports (self : ImportExportIndex) : list (Z * list ImportSpec) := map_to_list (imports_by_file self).

(** ** Laws *)

Lemma existsb_elem (x : str) l : existsb (fun s => bool_decide (s = x)) l = true <-> x ∈ l.
Proof.
  rewrite existsb_exists. setoid_rewrite bool_decide_eq_true. split; [intros (y & Hy & ->)|intros Hx; exists x; split; [|done]]; by apply list_elem_of_In.
Qed.
(** A symbol has an exporting module exactly when some module exports it. *)
Lemma exporting_module_some symbol_name self : is_Some (find_exporting_module symbol_name self) <->
  exists m e, exports_by_module self !! m = Some e /\ (symbol_name ∈ default_exports e \/ symbol_name ∈ optional_exports e).
Proof.
  unfold find_exporting_module. rewrite fmap_is_Some. setoid_rewrite <-existsb_elem. setoid_rewrite <-orb_true_iff. split.
  - intros [[m e] [Hm He]%find_first_Some]. apply elem_of_map_to_list in Hm. by exists m, e.
  - intros (m & e & Hm & He). by apply (find_first_exists _ _ (m, e)); [apply elem_of_map_to_list|].
Qed.
Lemma exporting_module_exact symbol_name self m : find_exporting_module symbol_name self = Some m ->
  exists e, exports_by_module self !! m = Some e /\ (symbol_name ∈ default_exports e \/ symbol_name ∈ optional_exports e).
Proof.
  unfold find_exporting_module. intros ([m' e] & [Hm He]%find_first_Some & ->)%fmap_Some. apply elem_of_map_to_list in Hm. exists e. split; [done|].
  by rewrite <-!existsb_elem, <-orb_true_iff.
Qed.
(** The import names a symbol. *)
Definition names_symbol (symbol_name : str) (spec : ImportSpec) : Prop :=
  match import_symbols spec with ImportSymbols.Explicit names | ImportSymbols.Mixed _ names => symbol_name ∈ names | _ => False end.
Lemma import_names symbol_name spec : import_spec_names_symbol symbol_name spec = true <-> names_symbol symbol_name spec.
Proof. unfold import_spec_names_symbol, names_symbol. destruct (import_symbols spec); rewrite ?existsb_elem; done. Qed.
Lemma imported_elsewhere symbol_name id self : is_imported_by_other_file symbol_name id self = true <->
  exists other specs spec, imports_by_file self !! other = Some specs /\ other <> id /\ spec ∈ specs /\ names_symbol symbol_name spec.
Proof.
  unfold is_imported_by_other_file. rewrite existsb_exists. setoid_rewrite <-list_elem_of_In. setoid_rewrite andb_true_iff. setoid_rewrite negb_true_iff. setoid_rewrite Z.eqb_neq.
  setoid_rewrite existsb_exists. setoid_rewrite <-list_elem_of_In. setoid_rewrite import_names. split.
  - intros ([other specs] & Hm & Hne & spec & Hs & Hn). apply elem_of_map_to_list in Hm. by exists other, specs, spec.
  - intros (other & specs & spec & Hm & Hne & Hs & Hn). exists (other, specs). split; [by apply elem_of_map_to_list|]. eauto.
Qed.
Lemma remove_modules_fields ms self : let self' := foldl remove_module self ms in
  imports_by_file self' = imports_by_file self /\ file_uri_to_id self' = file_uri_to_id self /\ use_lib_by_file self' = use_lib_by_file self /\
  use_lib_uri_to_id self' = use_lib_uri_to_id self /\
  (forall m, exports_by_module self' !! m = if decide (m ∈ ms) then None else exports_by_module self !! m) /\
  (forall m, module_to_source_uri self' !! m = if decide (m ∈ ms) then None else module_to_source_uri self !! m).
Proof.
  revert self. induction ms as [|m ms IH]; intros self; simpl.
  { repeat split; done. }
  destruct (IH (remove_module self m)) as (-> & -> & -> & -> & H1 & H2). repeat split; intros k; rewrite ?H1, ?H2; simpl.
  all: destruct (decide (k ∈ ms)) as [Hk|Hk]; [by rewrite decide_True by (by right)|].
  all: destruct (decide (m = k)) as [<-|Hne]; [rewrite lookup_delete_eq, decide_True; [done|by left]|rewrite lookup_delete_ne, decide_False; [done| |done]].
  all: intros [->|?]%elem_of_cons; done.
Qed.
Lemma remove_module_exports_fields uri self : let self' := remove_module_exports uri self in
  imports_by_file self' = imports_by_file self /\ file_uri_to_id self' = file_uri_to_id self /\ use_lib_by_file self' = use_lib_by_file self /\
  use_lib_uri_to_id self' = use_lib_uri_to_id self /\
  (forall m, exports_by_module self' !! m = if decide (module_to_source_uri self !! m = Some uri) then None else exports_by_module self !! m) /\
  (forall m, module_to_source_uri self' !! m = if decide (module_to_source_uri self !! m = Some uri) then None else module_to_source_uri self !! m).
Proof.
  unfold remove_module_exports. destruct (remove_modules_fields (modules_to_remove uri self) self) as (H1 & H2 & H3 & H4 & H5 & H6).
  assert (Hm : forall m, m ∈ modules_to_remove uri self <-> module_to_source_uri self !! m = Some uri).
  { intros m. unfold modules_to_remove. rewrite list_elem_of_fmap. setoid_rewrite list_elem_of_filter. split.
    - intros ([m' u] & -> & <- & Hu). by apply elem_of_map_to_list in Hu.
    - intros Hu. exists (m, uri). split; [done|]. split; [done|]. by apply elem_of_map_to_list. }
  repeat split; try done; intros m; rewrite ?H5, ?H6; by rewrite (decide_ext _ _ _ _ (Hm m)).
Qed.
