(* ===== verification/FactHashes.v ===== *)
(** * Building the facts of a file (perl-workspace/src/semantic/facts.rs)

    The shard of one file from what the extractors produce, with the hashes of
    its categories that later decide what a replacement touches.  The hasher of
    the standard library is a parameter: a function of the values it is fed. *)

From stdpp Require Import base numbers list strings.
From S2P Require Import Prelude Utf8 PackageGraph WorkspaceSymbols SemanticFacts.

(** ** Inputs (perl-symbol/src/surface/facts.rs) *)

Record UnsupportedDeclFact := mkUnsupported { unsupported_qualified_name : str; unsupported_kind : SymbolKind.t; reason : str }.
Record SymbolDeclSemanticFacts := mkDeclFacts {
  decl_anchors : list AnchorFact;
  decl_entities : list EntityFact;
  defines_edges : list EdgeFact;
  unsupported : list UnsupportedDeclFact;
}.
Record SymbolRefSemanticFacts := mkRefFacts {
  ref_anchors : list AnchorFact;
  ref_occurrences : list OccurrenceFact;
  reference_edges : list EdgeFact;
}.

(** ** Hashes *)

Definition PRODUCER_SCHEMA_VERSION : Z := 1.
(** What is fed to a hasher: numbers of a width, strings, the variants of the
    two enumerations. *)
Inductive Hashed := HUsize (n : Z) | HU64 (n : Z) | HU32 (n : Z) | HStr (s : str) | HOccurrenceKind (k : OccurrenceKind.t) | HEdgeKind (k : EdgeKind.t).
Section build.
Context (finish : list Hashed -> Z).

Definition hash_uri_to_file_id (uri : str) : Z := finish [HStr uri].
Definition import_anchor_base_id (index : Z) : Z := finish [HStr (bytes_of "import-anchor"); HUsize index].
Definition compute_anchors_hash (anchors : list AnchorFact) : Z :=
  finish (HUsize (len anchors) :: concat ((fun a => [HU64 (anchor a); HU32 (span_start_byte a); HU32 (span_end_byte a)]) <$> anchors)).
Definition compute_entities_hash (entities : list EntityFact) : Z :=
  finish (HUsize (len entities) :: concat ((fun e => [HU64 (entity e); HStr (canonical_name e)]) <$> entities)).
Definition compute_occurrences_hash (occurrences : list OccurrenceFact) : Z :=
  finish (HUsize (len occurrences) :: concat ((fun o => [HU64 (occurrence o); HOccurrenceKind (occ_kind o)]) <$> occurrences)).
Definition compute_edges_hash (edges : list EdgeFact) : Z :=
  finish (HUsize (len edges) :: concat ((fun e => [HU64 (edge e); HEdgeKind (edge_kind e)]) <$> edges)).

(** ** The shard *)

Definition import_anchors (file_id : Z) (imports : list ImportSpec) : list AnchorFact :=
  imap (fun idx _ => mkAnchor (import_anchor_base_id (Z.of_nat idx)) file_id 0 0 None ImportExportInference Medium) imports.
Definition build_canonical_fact_shard (uri : str) (content_hash : Z) (decl_facts : SymbolDeclSemanticFacts) (ref_facts : SymbolRefSemanticFacts)
    (imports : list ImportSpec) (dynamic_boundaries : list OccurrenceFact) (synthetic_entities : list EntityFact) (synthetic_anchors : list AnchorFact) : FileFactShard :=
  let file_id := hash_uri_to_file_id uri in
  let anchors := decl_anchors decl_facts ++ ref_anchors ref_facts ++ import_anchors file_id imports ++ synthetic_anchors in
  let entities := decl_entities decl_facts ++ synthetic_entities in
  let occurrences := ref_occurrences ref_facts ++ dynamic_boundaries in
  let edges := defines_edges decl_facts ++ reference_edges ref_facts in
  mkShard uri file_id content_hash PRODUCER_SCHEMA_VERSION (Some (compute_anchors_hash anchors)) (Some (compute_entities_hash entities))
    (Some (compute_occurrences_hash occurrences)) (Some (compute_edges_hash edges)) anchors entities occurrences edges.

(** A shard as it is built for a URI, and what can be told from it: its id and
    its hashes. *)
Definition built (uri : str) (shard : FileFactShard) : Prop :=
  exists content_hash decl_facts ref_facts imports dynamic_boundaries synthetic_entities synthetic_anchors,
    shard = build_canonical_fact_shard uri content_hash decl_facts ref_facts imports dynamic_boundaries synthetic_entities synthetic_anchors.
Lemma built_shard uri shard : built uri shard ->
  source_uri shard = uri /\ file_id shard = hash_uri_to_file_id uri /\ entities_hash shard = Some (compute_entities_hash (entities shard)) /\
  occurrences_hash shard = Some (compute_occurrences_hash (occurrences shard)) /\ edges_hash shard = Some (compute_edges_hash (edges shard)).
Proof using Type. by intros (? & ? & ? & ? & ? & ? & ? & ->). Qed.
End build.
