(* ===== verification/FactShards.v ===== *)
(** * The semantic fact stores (perl-workspace: workspace/workspace_index.rs, semantic/invalidation.rs)

    One shard of facts per file, with the reference index and the import and
    export index over all of them.  A shard is replaced by category: hashes of
    the old and the new facts decide which of the indexes are touched at all.
    The stores implement the interface [FactStores] of the workspace index.
    Proved here: whatever was published, published again, removed or cleared,
    the imports, exports and shards are those last published, and the reference
    index is one built from scratch from published shards whose hashes are those
    of the stored ones. *)

From stdpp Require Import base numbers list gmap relations.
From S2P Require Import Prelude PackageGraph SemanticFacts NameMaps ReferenceIndex ImportExports DocumentStore FactHashes WorkspaceIndex WorkspaceIndexLaws.

(** ** What a replacement touches (semantic/invalidation.rs) *)

Record ShardCategoryHashes := mkHashes {
  h_content : Z;
  h_anchors : option Z;
  h_entities : option Z;
  h_occurrences : option Z;
  h_edges : option Z;
}.
Record ShardReplaceResult := mkReplaceResult {
  content_unchanged : bool;
  anchors_updated : bool;
  entities_updated : bool;
  occurrences_updated : bool;
  edges_updated : bool;
}.
Definition category_hash_changed (old new : option Z) : bool :=
  match old, new with Some o, Some n => negb (o =? n) | _, _ => true end.
Definition plan_shard_replacement (old : option ShardCategoryHashes) (new : ShardCategoryHashes) : ShardReplaceResult :=
  if match old with Some o => h_content o =? h_content new | None => false end then mkReplaceResult true false false false false
  else
    mkReplaceResult false (category_hash_changed (old ≫= h_anchors) (h_anchors new)) (category_hash_changed (old ≫= h_entities) (h_entities new))
      (category_hash_changed (old ≫= h_occurrences) (h_occurrences new)) (category_hash_changed (old ≫= h_edges) (h_edges new)).
Definition shard_category_hashes (shard : FileFactShard) : ShardCategoryHashes :=
  mkHashes (content_hash shard) (anchors_hash shard) (entities_hash shard) (occurrences_hash shard) (edges_hash shard).

(** ** The stores *)

Record SemanticStores := mkStores {
  fact_shards : gmap str FileFactShard;
  reference_index : ReferenceIndex;
  import_export : ImportExportIndex;
}.
(** What is extracted from one file. *)
Record FileFacts := mkFacts {
  fact_shard : FileFactShard;
  import_specs : list ImportSpec;
  use_lib_facts : list UseLibFact;
  module_export_sets : list ExportSet;
}.
Definition replace_fact_shard_incremental (key : str) (new_shard : FileFactShard) (st : SemanticStores) : ShardReplaceResult * SemanticStores :=
  let old_shard := fact_shards st !! key in
  let replacement := plan_shard_replacement (shard_category_hashes <$> old_shard) (shard_category_hashes new_shard) in
  if content_unchanged replacement then (replacement, st)
  else
    let ref_idx :=
      if occurrences_updated replacement || edges_updated replacement || entities_updated replacement then
        ReferenceIndex.add_file new_shard
          (match old_shard with Some _ => ReferenceIndex.remove_file (source_uri new_shard) (reference_index st) | None => reference_index st end)
      else reference_index st in
    let ie_idx :=
      if entities_updated replacement then remove_module_exports (source_uri new_shard) (remove_file_imports (source_uri new_shard) (import_export st))
      else import_export st in
    (replacement, mkStores (<[key := new_shard]> (fact_shards st)) ref_idx ie_idx).
Definition add_export_set (uri : str) (self : ImportExportIndex) (e : ExportSet) : ImportExportIndex :=
  match export_module e with Some module_name => add_module_exports uri module_name e self | None => self end.
Definition publish_imports (uri : str) (file_id : Z) (f : FileFacts) (self : ImportExportIndex) : ImportExportIndex :=
  let self := add_file_imports uri file_id (import_specs f) (remove_file_imports uri self) in
  let self := add_file_use_lib uri file_id (use_lib_facts f) (remove_file_use_lib uri self) in
  foldl (add_export_set uri) (remove_module_exports uri self) (module_export_sets f).
Definition remove_facts (key uri : str) (st : SemanticStores) : SemanticStores :=
  mkStores (delete key (fact_shards st)) (ReferenceIndex.remove_file uri (reference_index st))
    (remove_file_use_lib uri (remove_module_exports uri (remove_file_imports uri (import_export st)))).
Section publication.
Context (hash_uri : str -> Z).
(** What an accepted commit does to the stores: the shard, then the imports and
    exports. *)
Definition publish_facts (key uri : str) (f : FileFacts) (st : SemanticStores) : SemanticStores :=
  let st := (replace_fact_shard_incremental key (fact_shard f) st).2 in
  mkStores (fact_shards st) (reference_index st) (publish_imports uri (hash_uri uri) f (import_export st)).
Definition semantic_stores : FactStores SemanticStores FileFacts :=
  {| facts_new := mkStores ∅ ReferenceIndex.new ImportExports.new; facts_replace := publish_facts; facts_remove := remove_facts |}.
End publication.

(** ** Sequences of operations *)

Inductive fact_op := Publish (uri : str) (f : FileFacts) | Remove (uri : str) | Clear.
Definition op_uri (o : fact_op) : option str := match o with Publish uri _ | Remove uri => Some uri | Clear => None end.
Section runs.
Context {P : Type} `{FactStores P FileFacts} (uri_key : str -> str).
Definition fact_step (st : P) (o : fact_op) : P :=
  match o with
  | Publish uri f => facts_replace (uri_key uri) uri f st
  | Remove uri => facts_remove (Fact := FileFacts) (uri_key uri) uri st
  | Clear => facts_new (Fact := FileFacts)
  end.
Definition run_facts (os : list fact_op) : P := foldl fact_step (facts_new (Fact := FileFacts)) os.
(** The facts last published for each file and not removed since. *)
Definition current_step (cur : gmap str FileFacts) (o : fact_op) : gmap str FileFacts :=
  match o with Publish uri f => <[uri_key uri := f]> cur | Remove uri => delete (uri_key uri) cur | Clear => ∅ end.
Definition current (os : list fact_op) : gmap str FileFacts := foldl current_step ∅ os.
End runs.

(** ** The stores follow what is published *)

Lemma hash_kept o n : category_hash_changed (Some o) (Some n) = false <-> o = n.
Proof. simpl. by rewrite negb_false_iff, Z.eqb_eq. Qed.

Section laws.
Context (uri_key : str -> str) (finish : list Hashed -> Z) (spelled : str -> Prop) (produced : str -> FileFacts -> Prop).
Notation hash_uri := (hash_uri_to_file_id finish).
Notation publish_facts := (publish_facts hash_uri).

(** The URIs in use have one spelling for each key and differ in their file ids. *)
Record distinct_uris : Prop := mkDistinctUris {
  du_key : forall u v, spelled u -> spelled v -> uri_key u = uri_key v -> u = v;
  du_id : forall u v, spelled u -> spelled v -> hash_uri u = hash_uri v -> u = v;
}.
Definition op_ok (o : fact_op) : Prop :=
  match o with Publish u f => spelled u /\ produced u f | Remove u => spelled u | Clear => True end.
(** Files are kept under the keys of their URIs. *)
Definition keyed (cur : gmap str FileFacts) : Prop := map_Forall (fun key f => exists u, key = uri_key u /\ spelled u /\ produced u f) cur.
Definition of_file (key : str) (s : FileFactShard) : Prop := exists u g, key = uri_key u /\ spelled u /\ produced u g /\ s = fact_shard g.
(** A stored shard is the one last published, or an earlier one of the same
    content hash. *)
Definition stored (cur : gmap str FileFacts) (shards : gmap str FileFactShard) : Prop :=
  forall key, match shards !! key, cur !! key with
    | Some s, Some f => content_hash s = content_hash (fact_shard f) /\ of_file key s
    | None, None => True
    | _, _ => False
    end.
(** What the replacement of a shard compares. *)
Record same_hashes (s r : FileFactShard) : Prop := mkSameHashes {
  sh_entities : compute_entities_hash finish (entities s) = compute_entities_hash finish (entities r);
  sh_occurrences : compute_occurrences_hash finish (occurrences s) = compute_occurrences_hash finish (occurrences r);
  sh_edges : compute_edges_hash finish (edges s) = compute_edges_hash finish (edges r);
}.
(** The shards that the reference index was last given: of the same files, with
    the hashes of those stored. *)
Definition given (shards indexed : gmap str FileFactShard) : Prop :=
  forall key, match shards !! key, indexed !! key with
    | Some s, Some r => same_hashes s r /\ of_file key s /\ of_file key r
    | None, None => True
    | _, _ => False
    end.
(** A file that is there, by its URI. *)
Definition provided (cur : gmap str FileFacts) (u : str) (f : FileFacts) : Prop := spelled u /\ cur !! uri_key u = Some f.
(** The table of one kind of fact, and the ids of its files. *)
Definition tabled {A} (get : FileFacts -> list A) (cur : gmap str FileFacts) (by_file : gmap Z (list A)) (ids : gmap str Z) : Prop :=
  (forall id l, by_file !! id = Some l <-> exists u f, provided cur u f /\ id = hash_uri u /\ l = get f) /\
  (forall u id, ids !! u = Some id <-> exists f, provided cur u f /\ id = hash_uri u).
Definition exported (m : str) (f : FileFacts) : option ExportSet := list.last (filter (fun e => export_module e = Some m) (module_export_sets f)).
(** Each module has the export set that its file last declared. *)
Definition exports_ok (cur : gmap str FileFacts) (ie : ImportExportIndex) : Prop :=
  forall m, match exports_by_module ie !! m, module_to_source_uri ie !! m with
    | Some e, Some u => exists f, provided cur u f /\ exported m f = Some e
    | None, None => True
    | _, _ => False
    end.
(** The imports, library paths and exports of three sets of files; they differ
    only within an operation. *)
Record imports_ok (c1 c2 c3 : gmap str FileFacts) (ie : ImportExportIndex) : Prop := mkImportsOk {
  io_imports : tabled import_specs c1 (imports_by_file ie) (file_uri_to_id ie);
  io_use_lib : tabled use_lib_facts c2 (use_lib_by_file ie) (use_lib_uri_to_id ie);
  io_exports : exports_ok c3 ie;
}.
Record stores_ok (cur : gmap str FileFacts) (st : SemanticStores) : Prop := mkStoresOk {
  so_keyed : keyed cur;
  so_shards : stored cur (fact_shards st);
  so_references : exists indexed, given (fact_shards st) indexed /\ follows indexed (reference_index st);
  so_imports : imports_ok cur cur cur (import_export st);
}.

Context (Hdu : distinct_uris) (Hbuilt : forall u f, produced u f -> built finish u (fact_shard f)).

Lemma of_file_uri u s : spelled u -> of_file (uri_key u) s ->
  source_uri s = u /\ file_id s = hash_uri u /\ entities_hash s = Some (compute_entities_hash finish (entities s)) /\
  occurrences_hash s = Some (compute_occurrences_hash finish (occurrences s)) /\ edges_hash s = Some (compute_edges_hash finish (edges s)).
Proof using Hdu Hbuilt.
  intros Hu (v & g & Ev & Sv & Pg & ->). apply (du_key Hdu) in Ev; [|done..]. subst v. by apply built_shard, Hbuilt.
Qed.
Lemma given_identified shards indexed : given shards indexed -> identified indexed.
Proof using Hdu Hbuilt.
  intros Hg k1 s1 k2 s2 H1 H2 Hor. pose proof (Hg k1) as G1. pose proof (Hg k2) as G2. rewrite H1 in G1. rewrite H2 in G2.
  destruct (shards !! k1), (shards !! k2); try done. destruct G1 as (_ & _ & O1), G2 as (_ & _ & O2).
  pose proof O1 as (u & h1 & -> & Su & _). pose proof O2 as (v & h2 & -> & Sv & _). destruct (of_file_uri u s1 Su O1) as (U1 & E1 & _), (of_file_uri v s2 Sv O2) as (U2 & E2 & _).
  f_equal. destruct Hor as [|Hor]; [congruence|]. apply (du_id Hdu); [done..|congruence].
Qed.

(** *** Tables by file *)

Lemma tabled_add {A} (get : FileFacts -> list A) cur by_file ids u f : tabled get cur by_file ids -> spelled u ->
  tabled get (<[uri_key u := f]> cur) (<[hash_uri u := get f]> by_file) (<[u := hash_uri u]> ids).
Proof using Hdu.
  intros [H1 H2] Hu. split.
  - intros id l. rewrite lookup_insert_Some, H1. split.
    + intros [[<- <-]|(Hne & v & g & [Hv Hg] & -> & ->)]; [exists u, f; by (unfold provided; rewrite lookup_insert_eq)|]. exists v, g. split; [|done]. split; [done|].
      rewrite lookup_insert_ne; [done|]. intros Ek. apply Hne. by rewrite (du_key Hdu u v).
    + intros (v & g & [Hv Hg] & -> & ->). apply lookup_insert_Some in Hg as [[Ek <-]|[Hne Hg]]; [left; by rewrite (du_key Hdu u v)|]. right. split; [|by exists v, g].
      intros Ei. apply Hne. by rewrite (du_id Hdu u v).
  - intros v id. rewrite lookup_insert_Some, H2. split.
    + intros [[<- <-]|(Hne & g & [Hv Hg] & ->)]; [exists f; by (unfold provided; rewrite lookup_insert_eq)|]. exists g. split; [|done]. split; [done|].
      rewrite lookup_insert_ne; [done|]. intros Ek. apply Hne. by apply (du_key Hdu).
    + intros (g & [Hv Hg] & ->). apply lookup_insert_Some in Hg as [[Ek <-]|[Hne Hg]]; [left; by rewrite (du_key Hdu u v)|]. right. split; [congruence|by exists g].
Qed.
Lemma tabled_remove {A} (get : FileFacts -> list A) cur by_file ids u id : tabled get cur by_file ids -> spelled u -> ids !! u = Some id ->
  tabled get (delete (uri_key u) cur) (delete id by_file) (delete u ids).
Proof using Hdu.
  intros [H1 H2] Hu Hid. apply H2 in Hid as (f & _ & ->). split.
  - intros id l. rewrite lookup_delete_Some, H1. split.
    + intros (Hne & v & g & [Hv Hg] & -> & ->). exists v, g. split; [|done]. split; [done|]. rewrite lookup_delete_ne; [done|]. intros Ek. apply Hne. by rewrite (du_key Hdu u v).
    + intros (v & g & [Hv Hg] & -> & ->). apply lookup_delete_Some in Hg as [Hne Hg]. split; [|by exists v, g]. intros Ei. apply Hne. by rewrite (du_id Hdu u v).
  - intros v id. rewrite lookup_delete_Some, H2. split.
    + intros (Hne & g & [Hv Hg] & ->). exists g. split; [|done]. split; [done|]. rewrite lookup_delete_ne; [done|]. intros Ek. apply Hne. by apply (du_key Hdu).
    + intros (g & [Hv Hg] & ->). apply lookup_delete_Some in Hg as [Hne Hg]. split; [congruence|by exists g].
Qed.
Lemma tabled_absent {A} (get : FileFacts -> list A) cur by_file ids u : tabled get cur by_file ids -> spelled u -> ids !! u = None -> cur !! uri_key u = None.
Proof using Type. intros [_ H2] Hu Hid. destruct (cur !! uri_key u) as [f|] eqn:E; [|done]. rewrite (proj2 (H2 u (hash_uri u))) in Hid; [done|]. by exists f. Qed.

Lemma tabled_get {A} (get : FileFacts -> list A) cur by_file ids u : tabled get cur by_file ids -> spelled u -> by_file !! hash_uri u = get <$> cur !! uri_key u.
Proof using Hdu.
  intros [H1 _] Hu. destruct (cur !! uri_key u) as [f|] eqn:E; simpl; [apply H1; by exists u, f|].
  destruct (by_file !! hash_uri u) as [l|] eqn:El; [|done]. apply H1 in El as (v & g & [Hv Hg] & Ei & _). apply (du_id Hdu) in Ei; [|done..]. subst v. congruence.
Qed.

(** *** Operations on imports and exports *)

Lemma remove_imports_ok c1 c2 c3 ie u : imports_ok c1 c2 c3 ie -> spelled u -> imports_ok (delete (uri_key u) c1) c2 c3 (remove_file_imports u ie).
Proof using Hdu.
  intros [H1 H2 H3] Hu. unfold remove_file_imports. destruct (file_uri_to_id ie !! u) as [id|] eqn:E; [split; try done; by apply tabled_remove|].
  rewrite delete_id by by eapply tabled_absent. done.
Qed.
Lemma remove_use_lib_ok c1 c2 c3 ie u : imports_ok c1 c2 c3 ie -> spelled u -> imports_ok c1 (delete (uri_key u) c2) c3 (remove_file_use_lib u ie).
Proof using Hdu.
  intros [H1 H2 H3] Hu. unfold remove_file_use_lib. destruct (use_lib_uri_to_id ie !! u) as [id|] eqn:E; [split; try done; by apply tabled_remove|].
  rewrite delete_id by by eapply tabled_absent. done.
Qed.
Lemma remove_exports_ok c1 c2 c3 ie u : imports_ok c1 c2 c3 ie -> spelled u -> imports_ok c1 c2 (delete (uri_key u) c3) (remove_module_exports u ie).
Proof using Hdu.
  intros [H1 H2 H3] Hu. destruct (remove_module_exports_fields u ie) as (E1 & E2 & E3 & E4 & E5 & E6).
  split; rewrite ?E1, ?E2, ?E3, ?E4; try done. intros m. rewrite E5, E6. specialize (H3 m). destruct (decide _) as [|Hne]; [done|].
  destruct (exports_by_module ie !! m) as [e|], (module_to_source_uri ie !! m) as [v|] eqn:Ev; try done. destruct H3 as (f & [Hv Hf] & He). exists f. split; [|done]. split; [done|].
  rewrite lookup_delete_ne; [done|]. intros Ek. apply Hne. by rewrite (du_key Hdu u v).
Qed.
Lemma add_export_sets_fields u sets ie : let ie' := foldl (add_export_set u) ie sets in
  imports_by_file ie' = imports_by_file ie /\ file_uri_to_id ie' = file_uri_to_id ie /\ use_lib_by_file ie' = use_lib_by_file ie /\ use_lib_uri_to_id ie' = use_lib_uri_to_id ie /\
  forall m, match list.last (filter (fun e => export_module e = Some m) sets) with
    | Some e => exports_by_module ie' !! m = Some e /\ module_to_source_uri ie' !! m = Some u
    | None => exports_by_module ie' !! m = exports_by_module ie !! m /\ module_to_source_uri ie' !! m = module_to_source_uri ie !! m
    end.
Proof using Type.
  simpl. clear Hdu Hbuilt. revert ie. induction sets as [|e sets IH]; intros ie; [done|]. simpl. destruct (IH (add_export_set u ie e)) as (-> & -> & -> & -> & Hm). clear IH.
  unfold add_export_set in *. destruct (export_module e) as [n|] eqn:En; simpl in *.
  2:{ do 4 (split; [done|]). intros m. rewrite filter_cons, decide_False by congruence. apply Hm. }
  do 4 (split; [done|]). intros m. specialize (Hm m). rewrite filter_cons. destruct (decide (export_module e = Some m)) as [Em|Hne].
  - rewrite last_cons. destruct (list.last _); [done|]. assert (n = m) as -> by congruence. by rewrite !lookup_insert_eq in Hm.
  - destruct (list.last _); [done|]. rewrite !lookup_insert_ne in Hm by congruence. done.
Qed.
Lemma publish_imports_ok c1 c2 c3 ie u f : imports_ok c1 c2 c3 ie -> spelled u ->
  imports_ok (<[uri_key u := f]> c1) (<[uri_key u := f]> c2) (<[uri_key u := f]> c3) (publish_imports u (hash_uri u) f ie).
Proof using Hdu.
  intros H Hu. unfold publish_imports. apply (remove_imports_ok _ _ _ _ u) in H; [|done].
  set (ie1 := remove_file_imports u ie) in *. assert (Ha : imports_ok (<[uri_key u := f]> c1) c2 c3 (add_file_imports u (hash_uri u) (import_specs f) ie1)).
  { destruct H as [H1 H2 H3]. split; try done. rewrite <-(insert_delete_eq c1). by apply tabled_add. }
  clearbody ie1. clear H. apply (remove_use_lib_ok _ _ _ _ u) in Ha; [|done]. set (ie2 := remove_file_use_lib u _) in *.
  assert (Hb : imports_ok (<[uri_key u := f]> c1) (<[uri_key u := f]> c2) c3 (add_file_use_lib u (hash_uri u) (use_lib_facts f) ie2)).
  { destruct Ha as [H1 H2 H3]. split; try done. rewrite <-(insert_delete_eq c2). by apply tabled_add. }
  clearbody ie2. clear Ha. apply (remove_exports_ok _ _ _ _ u) in Hb; [|done]. set (ie3 := remove_module_exports u _) in *. clearbody ie3.
  destruct Hb as [H1 H2 H3]. destruct (add_export_sets_fields u (module_export_sets f) ie3) as (E1 & E2 & E3 & E4 & Em).
  split; rewrite ?E1, ?E2, ?E3, ?E4; try done. intros m. specialize (Em m). destruct (list.last _) as [e|] eqn:El; destruct Em as [-> ->].
  - exists f. split; [|done]. split; [done|apply lookup_insert_eq].
  - specialize (H3 m). destruct (exports_by_module ie3 !! m) as [e|], (module_to_source_uri ie3 !! m) as [v|]; try done. destruct H3 as (g & [Hv Hg] & He). exists g.
    split; [|done]. split; [done|]. apply lookup_delete_Some in Hg as [Hne Hg]. by rewrite lookup_insert_ne.
Qed.

(** *** Operations on the stores *)

Lemma given_insert shards indexed u s r : given shards indexed -> same_hashes s r -> of_file (uri_key u) s -> of_file (uri_key u) r ->
  given (<[uri_key u := s]> shards) (<[uri_key u := r]> indexed).
Proof using Type. intros Hg Hs Os Or key. destruct (decide (uri_key u = key)) as [<-|Hne]; [by rewrite !lookup_insert_eq|]. rewrite !lookup_insert_ne by done. apply Hg. Qed.
Lemma same_hashes_refl s : same_hashes s s.
Proof using Type. done. Qed.
Lemma replaced_follows cur st u f r st' : stores_ok cur st -> spelled u -> produced u f -> replace_fact_shard_incremental (uri_key u) (fact_shard f) st = (r, st') ->
  (exists indexed, given (fact_shards st') indexed /\ follows indexed (reference_index st')) /\ stored (<[uri_key u := f]> cur) (fact_shards st').
Proof using Hdu Hbuilt.
  intros [_ Hst (indexed & Hg & Hfo) _] Hu Hf Er. assert (Of : of_file (uri_key u) (fact_shard f)) by by exists u, f.
  destruct (of_file_uri u _ Hu Of) as (Uf & If & He & Ho & Hd). assert (Hnew : stored (<[uri_key u := f]> cur) (<[uri_key u := fact_shard f]> (fact_shards st))).
  { intros key. destruct (decide (uri_key u = key)) as [<-|Hne]; [|rewrite !lookup_insert_ne by done; apply Hst]. by rewrite !lookup_insert_eq. }
  pose proof (given_insert _ _ u _ _ Hg (same_hashes_refl (fact_shard f)) Of Of) as Hnewg. pose proof (given_identified _ _ Hnewg) as Hid.
  unfold replace_fact_shard_incremental in Er. pose proof (Hg (uri_key u)) as Hgu. destruct (fact_shards st !! uri_key u) as [s|] eqn:Es.
  2:{ simpl in Er. injection Er as <- <-. simpl. split; [|done]. eexists. split; [exact Hnewg|]. apply follows_add; [done|by destruct (indexed !! uri_key u)|done]. }
  simpl in Er. unfold plan_shard_replacement in Er. simpl in Er. pose proof (Hst (uri_key u)) as Hs. rewrite Es in Hs. destruct (cur !! uri_key u) as [c|] eqn:Ec; [|done].
  destruct Hs as [Hch Os]. destruct (indexed !! uri_key u) as [s'|] eqn:Ei; [|done]. destruct Hgu as (Hsame & _ & Os').
  destruct (Z.eqb_spec (content_hash s) (content_hash (fact_shard f))) as [Eh|Eh].
  { simpl in Er. injection Er as <- <-. split; [by exists indexed|]. intros key. destruct (decide (uri_key u = key)) as [<-|Hne]; [|rewrite lookup_insert_ne by done; apply Hst].
    by rewrite lookup_insert_eq, Es. }
  simpl in Er. destruct (category_hash_changed (occurrences_hash _) _ || _ || _) eqn:Eb; injection Er as <- <-; simpl; (split; [|done]).
  - eexists. split; [exact Hnewg|]. pose proof (follows_remove _ _ _ _ Hfo Ei (given_identified _ _ Hg)) as Hr. destruct (of_file_uri u _ Hu Os') as (Us' & _). rewrite Us' in Hr. rewrite Uf, <-insert_delete_eq.
    apply follows_add; [done|apply lookup_delete_eq|by rewrite insert_delete_eq].
  - destruct (of_file_uri u _ Hu Os) as (_ & _ & Ee' & Eo' & Ed'). rewrite He, Ho, Hd, Ee', Eo', Ed' in Eb. apply orb_false_iff in Eb as [[Eo%hash_kept Ed%hash_kept]%orb_false_iff Een%hash_kept].
    destruct Hsame as [S1 S2 S3]. exists indexed. split; [|done]. rewrite <-(insert_id indexed (uri_key u) s' Ei). apply given_insert; [done|split; congruence|done..].
Qed.
Lemma replaced_imports cur st u f r st' : stores_ok cur st -> spelled u -> produced u f -> replace_fact_shard_incremental (uri_key u) (fact_shard f) st = (r, st') ->
  exists c1 c3, imports_ok c1 cur c3 (import_export st') /\ <[uri_key u := f]> c1 = <[uri_key u := f]> cur /\ <[uri_key u := f]> c3 = <[uri_key u := f]> cur.
Proof using Hdu Hbuilt.
  intros [_ _ _ Him] Hu Hf Er. destruct (of_file_uri u (fact_shard f) Hu) as (Uf & _); [by exists u, f|]. unfold replace_fact_shard_incremental in Er.
  destruct (content_unchanged _); injection Er as <- <-; [by exists cur, cur|].
  simpl. destruct (entities_updated _); [|by exists cur, cur]. exists (delete (uri_key u) cur), (delete (uri_key u) cur). rewrite insert_delete_eq, Uf. split; [|done].
  apply remove_exports_ok; [|done]. by apply remove_imports_ok.
Qed.
Lemma new_stores_ok : stores_ok ∅ (facts_new (FactStores := semantic_stores hash_uri)).
Proof using Type.
  split; simpl.
  - apply map_Forall_empty.
  - intros key. by rewrite !lookup_empty.
  - exists ∅. split; [intros key; by rewrite !lookup_empty|apply follows_new].
  - split; simpl; [split; intros *; rewrite lookup_empty; split; try done..|].
    1,3: intros (u & f & [_ Hf] & _); by rewrite lookup_empty in Hf.
    1,2: intros (f & [_ Hf] & _); by rewrite lookup_empty in Hf.
    intros m. simpl. by rewrite !lookup_empty.
Qed.
Lemma fact_step_ok cur st o : stores_ok cur st -> op_ok o -> stores_ok (current_step uri_key cur o) (fact_step (H := semantic_stores hash_uri) uri_key st o).
Proof using Hdu Hbuilt.
  intros Hok Ho. destruct o as [u f|u|]; simpl in *.
  - destruct Ho as [Hu Hf]. unfold publish_facts. destruct (replace_fact_shard_incremental (uri_key u) (fact_shard f) st) as [r st'] eqn:Er.
    destruct (replaced_follows _ _ _ _ _ _ Hok Hu Hf Er) as [Hfo Hst]. destruct (replaced_imports _ _ _ _ _ _ Hok Hu Hf Er) as (c1 & c3 & Him & E1 & E3). split; simpl; try done.
    + apply map_Forall_insert_2; [by exists u|]. by destruct Hok.
    + rewrite <-E1 at 1. rewrite <-E3 at 2. by apply publish_imports_ok.
  - destruct Hok as [Hk Hst Hfo Him]. split; simpl.
    + by apply map_Forall_delete.
    + intros key. destruct (decide (uri_key u = key)) as [<-|Hne]; [by rewrite !lookup_delete_eq|]. rewrite !lookup_delete_ne by done. apply Hst.
    + destruct Hfo as (indexed & Hg & Hfo). exists (delete (uri_key u) indexed). split.
      { intros key. destruct (decide (uri_key u = key)) as [<-|Hne]; [by rewrite !lookup_delete_eq|]. rewrite !lookup_delete_ne by done. apply Hg. }
      pose proof (Hg (uri_key u)) as Hgu. destruct (indexed !! uri_key u) as [s|] eqn:Es.
      * destruct (fact_shards st !! uri_key u); [|done]. destruct Hgu as (_ & _ & Os). destruct (of_file_uri u s Ho Os) as (Us & _).
        pose proof (follows_remove _ _ _ _ Hfo Es (given_identified _ _ Hg)) as Hr. by rewrite Us in Hr.
      * rewrite delete_id by done. unfold ReferenceIndex.remove_file. destruct (indexed_files _ !! u) as [id|] eqn:Ei; [|done].
        apply (fo_files _ _ Hfo) in Ei as (key & s & Hs & Us & _). exfalso. pose proof (Hg key) as Hk'. rewrite Hs in Hk'. destruct (fact_shards st !! key); [|done].
        destruct Hk' as (_ & _ & Os). pose proof Os as (v & h & -> & Sv & _). destruct (of_file_uri v s Sv Os) as (Us' & _). congruence.
    + apply remove_use_lib_ok; [|done]. apply remove_exports_ok; [|done]. by apply remove_imports_ok.
  - apply new_stores_ok.
Qed.
Lemma run_facts_ok os : Forall op_ok os -> stores_ok (current uri_key os) (run_facts (H := semantic_stores hash_uri) uri_key os).
Proof using Hdu Hbuilt.
  intros Hos. unfold current, run_facts. pose proof new_stores_ok as Hok. revert Hok. generalize (∅ : gmap str FileFacts), (facts_new (FactStores := semantic_stores hash_uri)).
  induction Hos as [|o os Ho _ IH]; intros cur st Hok; [done|]. simpl. by apply IH, fact_step_ok.
Qed.
End laws.

(** ** The stores of a workspace index *)

Section workspace.
Context {P : Type} `{FactStores P FileFacts} (uri_key normalize_uri : str -> str) (hash_text hash_uri : str -> Z) (R : Regime (Fact := FileFacts)).
Notation step := (step uri_key normalize_uri hash_text hash_uri R).
Implicit Types ws : WorkspaceIndex P.

Definition op_spelled (o : fact_op) : Prop := forall u, op_uri o = Some u -> spelled R u.
Definition at_most_one (ws ws' : WorkspaceIndex P) : Prop :=
  facts ws' = facts ws \/ exists o, op_spelled o /\ facts ws' = fact_step uri_key (facts ws) o.
Lemma commit_facts uri text hash gen folder (a : Analysis FileFacts) ws r ws' : spelled R uri -> commit uri_key hash_uri uri text hash gen folder a ws = Ret (r, ws') -> at_most_one ws ws'.
Proof using Type.
  intros Hu. unfold commit. destruct (match files ws !! uri_key uri with Some f => _ | None => false end); [intros [= <- <-]; by left|].
  destruct (admission_limit_for _ _ _) as [[kind|]| ]; simpl; [intros [= <- <-]; by left| |done]. destruct (accept_candidate _ _ _ _ _ _) as [[] docs]; [|intros [= <- <-]; by left].
  unfold publish. destruct (PackageGraph.remove_edges_for_file _ _); simpl; [|done]. intros [= <- <-]. right. exists (Publish uri (an_facts a)). split; [|done]. by intros u [= <-].
Qed.
Lemma remove_facts_entry uri ws ws' : spelled R uri -> remove_entry uri_key uri ws = Ret ws' -> at_most_one ws ws'.
Proof using Type.
  intros Hu. unfold remove_entry. destruct (files ws !! uri_key uri); [|intros [= <-]; by left]. destruct (PackageGraph.remove_edges_for_file _ _); simpl; [|done]. intros [= <-].
  right. exists (Remove uri). split; [|done]. by intros u [= <-].
Qed.
Lemma batch_facts ps ws es ws' : insert_batch uri_key hash_uri ps ws = Ret (es, ws') -> facts ws' = facts ws.
Proof using Type.
  revert ws es ws'. induction ps as [|p ps IH]; intros ws es ws'; simpl; [by intros [= <- <-]|].
  destruct (insert_parsed uri_key hash_uri p ws) as [[e ws1]|] eqn:E; simpl; [|done]. destruct (insert_batch uri_key hash_uri ps ws1) as [[es2 ws2]|] eqn:E2; simpl; [|done]. intros [= <- <-].
  rewrite (IH _ _ _ E2). revert E. unfold insert_parsed. destruct (admission_limit_for _ _ _) as [[kind|]|]; simpl; [by intros [= <- <-]| |done].
  destruct (accept_candidate _ _ _ _ _ _) as [[] docs]; [|by intros [= <- <-]]. destruct (PackageGraph.remove_edges_for_file _ _); simpl; [|done]. by intros [= <- <-].
Qed.
Lemma step_facts ws ws' : step ws ws' -> at_most_one ws ws'.
Proof using Type.
  intros Hs. destruct Hs; try (by left).
  - left. unfold claim. by repeat case_match.
  - left. unfold rollback. by repeat case_match.
  - by eapply commit_facts.
  - left. unfold live_check. by repeat case_match.
  - by eapply remove_facts_entry.
  - right. exists Clear. by split.
  - unfold clear_sections in *. match goal with Hf : _ ∈ _ |- _ => rewrite !elem_of_cons, elem_of_nil in Hf; destruct_or! Hf; subst f end; try done; try (by left). right. exists Clear. by split.
  - left. unfold reset_generation_for_close. by repeat case_match.
  - left. simpl. by eapply batch_facts.
Qed.
(** The stores of every reachable state come from publications and removals of
    files under their keys. *)
Lemma reachable_facts l ws : reachable (Fact := FileFacts) uri_key normalize_uri hash_text hash_uri R l ws ->
  exists os, Forall op_spelled os /\ facts ws = run_facts uri_key os.
Proof using Type.
  revert ws. apply rtc_ind_r; [by exists []|]. intros ws1 ws2 _ Hs (os & Hos & E). destruct (step_facts _ _ Hs) as [->|(o & Ho & ->)]; [by exists os|].
  exists (os ++ [o]). split; [by apply Forall_app; split; [|apply Forall_singleton]|]. unfold run_facts in *. by rewrite foldl_app, <-E.
Qed.
End workspace.

(** ** Properties *)

(** A file whose facts are published under a URI in use, in a shard as the
    workspace builds it. *)
Definition op_built (finish : list Hashed -> Z) (spelled : str -> Prop) (o : fact_op) : Prop :=
  match o with Publish u f => spelled u /\ built finish u (fact_shard f) | Remove u => spelled u | Clear => True end.


(** *** A concrete run *)

(** A hasher for examples. *)
Definition demo_feed (x : Hashed) : Z :=
  match x with HUsize n | HU64 n | HU32 n => n | HStr s => foldl (fun h b => 257 * h + b + 1) 0 s | HOccurrenceKind _ | HEdgeKind _ => 0 end.
Definition demo_finish (l : list Hashed) : Z := foldl (fun h x => 1009 * h + demo_feed x) 0 l.
Definition demo_spelled (u : str) : Prop := u = [97] \/ u = [98].
Definition demo_entity (n : Z) : EntityFact := mkEntity 7 EntityKind.Subroutine [n] (Some 1) None ExactAst High.
Definition demo_call (at_anchor : Z) : OccurrenceFact := mkOccurrence 5 OccurrenceKind.Call (Some 7) at_anchor None ExactAst High.
Definition demo_exports (n : Z) : ExportSet := mkExports [[n]] [] [] ExactAst High (Some [77]) None.
(** Facts, of the given content hash, that declare an entity under a name and
    call it at an anchor. *)
Definition demo_shard (u content n at_anchor : Z) : FileFactShard :=
  build_canonical_fact_shard demo_finish [u] content (mkDeclFacts [] [demo_entity n] [] []) (mkRefFacts [] [demo_call at_anchor] []) [] [] [] [].
Definition demo_facts (u content n at_anchor : Z) : FileFacts := mkFacts (demo_shard u content n at_anchor) [] [] [demo_exports n].
Definition demo_ops : list fact_op :=
  [Publish [97] (demo_facts 97 1 1 2); Publish [98] (demo_facts 98 1 1 2); Publish [97] (demo_facts 97 2 2 2); Remove [98]].
Lemma demo_distinct : distinct_uris (fun u => u) demo_finish demo_spelled.
Proof. split; [by intros u v _ _ ?|]. intros u v [->| ->] [->| ->]; vm_compute; done. Qed.
Lemma demo_ops_built : Forall (op_built demo_finish demo_spelled) demo_ops.
Proof.
  assert (Ha : demo_spelled [97]) by by left. assert (Hb : demo_spelled [98]) by by right.
  unfold demo_ops. repeat constructor; try done; by repeat eexists.
Qed.

(** The hashes do not cover everything that the index keeps: a call that has
    moved to another anchor, under the same id, keeps the edge to its old one. *)
Example moved_call_keeps_old_anchor :
  let st := run_facts (H := semantic_stores (hash_uri_to_file_id demo_finish)) (fun u => u) [Publish [97] (demo_facts 97 1 1 2); Publish [97] (demo_facts 97 2 1 3)] in
  re_anchor <$> get_by_name [1] (reference_index st) = [2] /\ (fun s => occ_anchor <$> occurrences s) <$> fact_shards st !! [97] = Some [3].
Proof. by vm_compute. Qed.
(** An export set belongs to the file that declared it last: when that file is
    removed, another file that declares the module as well is forgotten. *)
Example removed_exporter_hides_another :
  let os := [Publish [97] (demo_facts 97 1 1 2); Publish [98] (demo_facts 98 1 2 2); Remove [98]] in
  let st := run_facts (H := semantic_stores (hash_uri_to_file_id demo_finish)) (fun u => u) os in
  get_exports_for_module [77] (import_export st) = None /\ exported [77] (demo_facts 97 1 1 2) = Some (demo_exports 1) /\
  current (fun u => u) os !! [97] = Some (demo_facts 97 1 1 2).
Proof. by vm_compute. Qed.
