(* ===== verification/Visibility.v ===== *)
(** * Visible symbols (perl-workspace/src/semantic/visibility.rs)

    The symbols that can be seen at a byte offset of a file: its lexical
    variables, its own subroutines, methods and packages, what its imports
    bring in by name, by default or by tag, its constants and its generated
    members, in this order.  Proved here: what the imports, the constants and
    the generated members contribute, exactly, and the order. *)

From stdpp Require Import base numbers list gmap sorting.
From S2P Require Import Prelude Utf8 StdText PackageGraph SemanticFacts NameMaps ImportExports.

(** ** Data (perl-semantic-facts/src/lib.rs) *)

Module VisibleSymbolSource.
Inductive t := LocalLexical | LocalPackage | ExplicitImport | DefaultExport | ExportTag | Constant | Generated | External | DynamicUnknown.
#[export] Instance t_dec : EqDecision t.
Proof. solve_decision. Defined.
End VisibleSymbolSource.
Export (hints) VisibleSymbolSource.
Record VisibleSymbolContext := mkContext {
  source_module : option str;
  source_import_anchor_id : option Z;
  source_export_anchor_id : option Z;
}.
Record VisibleSymbol := mkVisible {
  vs_name : str;
  vs_entity : option Z;
  vs_source : VisibleSymbolSource.t;
  vs_confidence : Confidence;
  vs_context : option VisibleSymbolContext;
}.

(** ** Names *)

(** [trim_end_matches("::")], on the reversed text *)
Fixpoint drop_colons (s : str) : str := match s with 58 :: 58 :: s => drop_colons s | _ => s end.
Definition bare_name (qualified : str) : str :=
  let normalized := reverse (drop_colons (reverse qualified)) in
  if bool_decide (normalized = []) then qualified
  else match rsplit_colons normalized with Some (_, bare) => bare | None => normalized end.

(** ** The file itself *)

Definition is_kind (k : EntityKind.t) (e : EntityFact) : bool := bool_decide (entity_kind e = k).
Definition in_scope (query : option Z) (e : EntityFact) : bool :=
  match query, entity_scope e with Some q, Some s => s =? q | _, _ => true end.
Definition declared_before (shard : FileFactShard) (byte_offset : Z) (e : EntityFact) : bool :=
  match (aid ← entity_anchor e; find_first (fun a => anchor a =? aid) (anchors shard)) with
  | Some a => span_start_byte a <=? byte_offset
  | None => false
  end.
Definition local_symbol (source : VisibleSymbolSource.t) (e : EntityFact) : VisibleSymbol :=
  mkVisible (bare_name (canonical_name e)) (Some (entity e)) source (entity_confidence e) None.
Definition collect (source : VisibleSymbolSource.t) (p : EntityFact -> bool) (shard : FileFactShard) : list VisibleSymbol :=
  local_symbol source <$> filter (fun e => p e = true) (entities shard).
Definition collect_local_lexical (shard : FileFactShard) (byte_offset : Z) (scope_id : option Z) : list VisibleSymbol :=
  collect VisibleSymbolSource.LocalLexical (fun e => is_kind EntityKind.Variable_ e && in_scope scope_id e && declared_before shard byte_offset e) shard.
Definition is_package_member (e : EntityFact) : bool :=
  match entity_kind e with EntityKind.Subroutine | EntityKind.Method | EntityKind.Package => true | _ => false end.
Definition collect_local_package : FileFactShard -> list VisibleSymbol := collect VisibleSymbolSource.LocalPackage is_package_member.
Definition collect_constants : FileFactShard -> list VisibleSymbol := collect VisibleSymbolSource.Constant (is_kind EntityKind.Constant).
Definition collect_generated_members : FileFactShard -> list VisibleSymbol := collect VisibleSymbolSource.Generated (is_kind EntityKind.GeneratedMember).

(** ** Imports *)

Definition imported_symbol (source : VisibleSymbolSource.t) (confidence : Confidence) (context : VisibleSymbolContext) (name : str) : VisibleSymbol :=
  mkVisible name None source confidence (Some context).
(** [strip_prefix('-')] *)
Definition strip_dash (name : str) : option str := match name with 45 :: group => Some group | _ => None end.
Definition explicit_names (s : ImportSymbols.t) : list str :=
  match s with ImportSymbols.Explicit names | ImportSymbols.Mixed _ names => names | _ => [] end.
Definition collect_explicit_import_names (import : ImportSpec) (context : VisibleSymbolContext) : list VisibleSymbol :=
  imported_symbol VisibleSymbolSource.ExplicitImport (import_confidence import) context <$> filter (fun n => strip_dash n = None) (explicit_names (import_symbols import)).
Definition requested_tags (s : ImportSymbols.t) : option (list str) :=
  match s with
  | ImportSymbols.Tags tags | ImportSymbols.Mixed tags _ => Some tags
  | ImportSymbols.Explicit _ => Some []
  | _ => None
  end.
Definition declares_tag (exports : ExportSet) (group : str) : bool := existsb (fun t => bool_decide (tag_name t = group)) (tags exports).
(** The groups that are asked for by a dash. *)
Definition dashed_tags (exports : ExportSet) (names : list str) : list str :=
  omap (fun n => group ← strip_dash n; if declares_tag exports group then Some group else None) names.
Definition collect_import_tags (import : ImportSpec) (ie : ImportExportIndex) (context : VisibleSymbolContext) : list VisibleSymbol :=
  match get_exports_for_module (module import) ie, requested_tags (import_symbols import) with
  | Some exports, Some tag_names =>
    concat ((fun tag_name' =>
      concat ((fun tag => imported_symbol VisibleSymbolSource.ExportTag (export_confidence exports) context <$> members tag) <$>
        filter (fun tag => tag_name tag = tag_name') (tags exports))) <$>
      (tag_names ++ dashed_tags exports (explicit_names (import_symbols import))))
  | _, _ => []
  end.
Definition import_context (import : ImportSpec) (ie : ImportExportIndex) : VisibleSymbolContext :=
  mkContext (Some (module import)) (import_anchor import) (exports ← get_exports_for_module (module import) ie; export_anchor exports).
Definition starts_after (byte_offset : Z) (import : ImportSpec) : bool := match import_start import with Some start => byte_offset <? start | None => false end.
Definition collect_import (ie : ImportExportIndex) (byte_offset : Z) (import : ImportSpec) : list VisibleSymbol :=
  if starts_after byte_offset import then []
  else
    let context := import_context import ie in
    match import_kind import with
    | ImportKind.UseExplicitList | ImportKind.RequireThenImport => collect_explicit_import_names import context ++ collect_import_tags import ie context
    | ImportKind.Use =>
      match get_exports_for_module (module import) ie with
      | Some exports => imported_symbol VisibleSymbolSource.DefaultExport (export_confidence exports) context <$> default_exports exports
      | None => []
      end
    | ImportKind.UseTag => collect_import_tags import ie context
    | ImportKind.UseEmpty | ImportKind.UseConstant | ImportKind.Require_ | ImportKind.DynamicRequire | ImportKind.ManualImport => []
    end.
Definition collect_import_visibility (file_id byte_offset : Z) (ie : ImportExportIndex) : list VisibleSymbol :=
  concat (collect_import ie byte_offset <$> get_imports_for_file file_id ie).

Definition visible_symbols_at (file_id byte_offset : Z) (scope_id : option Z) (shard : FileFactShard) (ie : ImportExportIndex) : list VisibleSymbol :=
  collect_local_lexical shard byte_offset scope_id ++ collect_local_package shard ++ collect_import_visibility file_id byte_offset ie ++
  collect_constants shard ++ collect_generated_members shard.

(** ** What is visible *)

(** An import that asks for a group of its exporter, by tag or by a dash. *)
Definition asks_for (s : ImportSymbols.t) (group : str) : Prop :=
  match s with
  | ImportSymbols.Tags tags => group ∈ tags
  | ImportSymbols.Explicit names => 45 :: group ∈ names
  | ImportSymbols.Mixed tags names => group ∈ tags \/ 45 :: group ∈ names
  | _ => False
  end.
(** The shapes of import statements that bring in listed names, and groups. *)
Definition lists_names (k : ImportKind.t) : Prop := k = ImportKind.UseExplicitList \/ k = ImportKind.RequireThenImport.
Definition expands_groups (k : ImportKind.t) : Prop := lists_names k \/ k = ImportKind.UseTag.
(** An import that has been reached at the offset; an unanchored one always is. *)
Definition reached (byte_offset : Z) (i : ImportSpec) : Prop := forall start, import_start i = Some start -> start <= byte_offset.
Definition same_scope (query : option Z) (e : EntityFact) : Prop := forall q s, query = Some q -> entity_scope e = Some s -> s = q.
(** The first anchor with the id of the entity starts at or before the offset. *)
Definition declared (shard : FileFactShard) (byte_offset : Z) (e : EntityFact) : Prop :=
  exists aid a, entity_anchor e = Some aid /\ find_first (fun a => anchor a =? aid) (anchors shard) = Some a /\ span_start_byte a <= byte_offset.
Definition package_member (e : EntityFact) : Prop := entity_kind e ∈ [EntityKind.Subroutine; EntityKind.Method; EntityKind.Package].
(** What the imports bring in, the constants and the generated members. *)
Inductive brought_in (file_id byte_offset : Z) (shard : FileFactShard) (ie : ImportExportIndex) : VisibleSymbol -> Prop :=
| see_explicit i n : i ∈ get_imports_for_file file_id ie -> reached byte_offset i -> lists_names (import_kind i) ->
    n ∈ explicit_names (import_symbols i) -> strip_dash n = None ->
    brought_in file_id byte_offset shard ie (imported_symbol VisibleSymbolSource.ExplicitImport (import_confidence i) (import_context i ie) n)
| see_default i exports n : i ∈ get_imports_for_file file_id ie -> reached byte_offset i -> import_kind i = ImportKind.Use ->
    get_exports_for_module (module i) ie = Some exports -> n ∈ default_exports exports ->
    brought_in file_id byte_offset shard ie (imported_symbol VisibleSymbolSource.DefaultExport (export_confidence exports) (import_context i ie) n)
| see_group i exports t n : i ∈ get_imports_for_file file_id ie -> reached byte_offset i -> expands_groups (import_kind i) ->
    get_exports_for_module (module i) ie = Some exports -> t ∈ tags exports -> asks_for (import_symbols i) (tag_name t) -> n ∈ members t ->
    brought_in file_id byte_offset shard ie (imported_symbol VisibleSymbolSource.ExportTag (export_confidence exports) (import_context i ie) n)
| see_constant e : e ∈ entities shard -> entity_kind e = EntityKind.Constant -> brought_in file_id byte_offset shard ie (local_symbol VisibleSymbolSource.Constant e)
| see_generated e : e ∈ entities shard -> entity_kind e = EntityKind.GeneratedMember -> brought_in file_id byte_offset shard ie (local_symbol VisibleSymbolSource.Generated e).
(** All that the code answers: before these, the variables declared by then,
    and the subroutines, methods and packages of the file. *)
Inductive visible (file_id byte_offset : Z) (scope_id : option Z) (shard : FileFactShard) (ie : ImportExportIndex) : VisibleSymbol -> Prop :=
| see_lexical e : e ∈ entities shard -> entity_kind e = EntityKind.Variable_ -> same_scope scope_id e -> declared shard byte_offset e ->
    visible file_id byte_offset scope_id shard ie (local_symbol VisibleSymbolSource.LocalLexical e)
| see_package e : e ∈ entities shard -> package_member e -> visible file_id byte_offset scope_id shard ie (local_symbol VisibleSymbolSource.LocalPackage e)
| see_brought v : brought_in file_id byte_offset shard ie v -> visible file_id byte_offset scope_id shard ie v.

Lemma elem_collect source p shard v : v ∈ collect source p shard <-> exists e, e ∈ entities shard /\ p e = true /\ v = local_symbol source e.
Proof. unfold collect. rewrite list_elem_of_fmap. setoid_rewrite list_elem_of_filter. naive_solver. Qed.
Lemma is_kind_eq k e : is_kind k e = true <-> entity_kind e = k.
Proof. apply bool_decide_eq_true. Qed.
Lemma reached_iff byte_offset i : starts_after byte_offset i = false <-> reached byte_offset i.
Proof.
  unfold starts_after, reached. destruct (import_start i) as [start|]; [|by split].
  rewrite Z.ltb_ge. split; [by intros ? ? [= <-]|by intros H; apply H].
Qed.
Lemma same_scope_iff query e : in_scope query e = true <-> same_scope query e.
Proof.
  unfold in_scope, same_scope. destruct query as [q|], (entity_scope e) as [s|]; try (split; [congruence|done]).
  rewrite Z.eqb_eq. split; [congruence|by intros H; apply H].
Qed.
Lemma declared_iff shard byte_offset e : declared_before shard byte_offset e = true <-> declared shard byte_offset e.
Proof.
  unfold declared_before, declared. destruct (entity_anchor e) as [aid|]; simpl; [|naive_solver].
  destruct (find_first (fun a => anchor a =? aid) (anchors shard)) as [a|] eqn:E; [rewrite Z.leb_le|]; naive_solver.
Qed.
Lemma package_member_iff e : is_package_member e = true <-> package_member e.
Proof. unfold is_package_member, package_member. rewrite !elem_of_cons, elem_of_nil. destruct (entity_kind e); naive_solver. Qed.
Lemma strip_dash_Some n group : strip_dash n = Some group <-> n = 45 :: group.
Proof. split; [|by intros ->]. unfold strip_dash. destruct n as [|c n]; [done|]. repeat (destruct c as [|c|c]; try done). by intros [= <-]. Qed.
Lemma declares_tag_iff exports group : declares_tag exports group = true <-> exists t, t ∈ tags exports /\ tag_name t = group.
Proof. unfold declares_tag. rewrite existsb_exists. setoid_rewrite bool_decide_eq_true. by setoid_rewrite <-list_elem_of_In. Qed.
Lemma elem_dashed exports names group : group ∈ dashed_tags exports names <-> 45 :: group ∈ names /\ exists t, t ∈ tags exports /\ tag_name t = group.
Proof.
  unfold dashed_tags. rewrite list_elem_of_omap. setoid_rewrite bind_Some. setoid_rewrite strip_dash_Some. rewrite <-declares_tag_iff. split.
  - intros (n & Hn & g & -> & Hg). destruct (declares_tag exports g) eqn:E; [|done]. injection Hg as ->. done.
  - intros [Hn Hg]. eexists. split; [exact Hn|]. exists group. by rewrite Hg.
Qed.
Lemma elem_explicit i context v : v ∈ collect_explicit_import_names i context <->
  exists n, n ∈ explicit_names (import_symbols i) /\ strip_dash n = None /\ v = imported_symbol VisibleSymbolSource.ExplicitImport (import_confidence i) context n.
Proof. unfold collect_explicit_import_names. rewrite list_elem_of_fmap. setoid_rewrite list_elem_of_filter. naive_solver. Qed.
(** The groups that are expanded are those asked for, among those declared. *)
Lemma asked_groups i exports t : t ∈ tags exports ->
  asks_for (import_symbols i) (tag_name t) <->
  exists asked, requested_tags (import_symbols i) = Some asked /\ tag_name t ∈ asked ++ dashed_tags exports (explicit_names (import_symbols i)).
Proof.
  intros Ht. assert (Hd : forall names, tag_name t ∈ dashed_tags exports names <-> 45 :: tag_name t ∈ names) by (intros names; rewrite elem_dashed; naive_solver).
  setoid_rewrite elem_of_app. setoid_rewrite Hd. clear Hd. unfold asks_for, requested_tags. destruct (import_symbols i) as [| |names|ts|ts names|]; simpl.
  all: split; [intros Ha|intros (asked & [= <-] & Ha)]; try done; try (eexists; split; [reflexivity|]); rewrite ?elem_of_nil in *; tauto.
Qed.
Lemma elem_import_tags i ie context v : v ∈ collect_import_tags i ie context <->
  exists exports t n, get_exports_for_module (module i) ie = Some exports /\ t ∈ tags exports /\ asks_for (import_symbols i) (tag_name t) /\ n ∈ members t /\
    v = imported_symbol VisibleSymbolSource.ExportTag (export_confidence exports) context n.
Proof.
  unfold collect_import_tags. destruct (get_exports_for_module (module i) ie) as [exports|]; [|split; [by intros ?%elem_of_nil|naive_solver]].
  transitivity (exists t n, t ∈ tags exports /\ asks_for (import_symbols i) (tag_name t) /\ n ∈ members t /\ v = imported_symbol VisibleSymbolSource.ExportTag (export_confidence exports) context n); [|naive_solver].
  destruct (requested_tags (import_symbols i)) as [asked|] eqn:Er.
  - rewrite elem_concat_fmap. setoid_rewrite elem_concat_fmap. setoid_rewrite list_elem_of_fmap. setoid_rewrite list_elem_of_filter. split.
    + intros (g & Hg & t & [<- Ht] & n & -> & Hn). exists t, n. split; [done|]. split; [|done]. apply (asked_groups i exports t Ht). by exists asked.
    + intros (t & n & Ht & Ha & Hn & ->). apply (asked_groups i exports t Ht) in Ha as (asked' & Ea & Hg). rewrite Er in Ea. injection Ea as <-. exists (tag_name t). split; [done|]. exists t. split; [done|]. by exists n.
  - split; [by intros ?%elem_of_nil|]. intros (t & n & Ht & Ha & _). apply (asked_groups i exports t Ht) in Ha as (asked' & Ea & _). congruence.
Qed.
Lemma elem_import ie byte_offset i v : v ∈ collect_import ie byte_offset i <-> reached byte_offset i /\
  (lists_names (import_kind i) /\ v ∈ collect_explicit_import_names i (import_context i ie) \/
   expands_groups (import_kind i) /\ v ∈ collect_import_tags i ie (import_context i ie) \/
   import_kind i = ImportKind.Use /\ exists exports n, get_exports_for_module (module i) ie = Some exports /\ n ∈ default_exports exports /\
     v = imported_symbol VisibleSymbolSource.DefaultExport (export_confidence exports) (import_context i ie) n).
Proof.
  rewrite <-reached_iff. unfold collect_import, expands_groups, lists_names. destruct (starts_after byte_offset i); [split; [by intros ?%elem_of_nil|by intros [? _]]|].
  destruct (import_kind i); rewrite ?elem_of_app, ?elem_of_nil; try naive_solver.
  destruct (get_exports_for_module (module i) ie) as [exports|]; rewrite ?list_elem_of_fmap, ?elem_of_nil; naive_solver.
Qed.

(** The order of the answer. *)
Definition source_rank (s : VisibleSymbolSource.t) : Z :=
  match s with
  | VisibleSymbolSource.LocalLexical => 0
  | VisibleSymbolSource.LocalPackage => 1
  | VisibleSymbolSource.ExplicitImport | VisibleSymbolSource.DefaultExport | VisibleSymbolSource.ExportTag => 2
  | VisibleSymbolSource.Constant => 3
  | VisibleSymbolSource.Generated => 4
  | VisibleSymbolSource.External | VisibleSymbolSource.DynamicUnknown => 5
  end.
Definition no_later (v w : VisibleSymbol) : Prop := source_rank (vs_source v) <= source_rank (vs_source w).
Lemma sorted_block k l l' : Forall (fun v => source_rank (vs_source v) = k) l -> Forall (fun v => k <= source_rank (vs_source v)) l' -> StronglySorted no_later l' ->
  StronglySorted no_later (l ++ l').
Proof.
  intros Hl Hl' Hs. induction Hl as [|v l Hv Hl IH]; [done|]. simpl. constructor; [done|]. apply Forall_app. unfold no_later. rewrite Hv. split; [|done].
  eapply Forall_impl; [exact Hl|]. simpl. intros w ->. lia.
Qed.
Lemma import_source ie byte_offset file_id v : v ∈ collect_import_visibility file_id byte_offset ie -> source_rank (vs_source v) = 2.
Proof.
  unfold collect_import_visibility. rewrite elem_concat_fmap. intros (i & _ & Hv). apply elem_import in Hv as [_ [[_ Hv]|[[_ Hv]|(_ & exports & n & _ & _ & ->)]]]; [| |done].
  - by apply elem_explicit in Hv as (n & _ & _ & ->).
  - by apply elem_import_tags in Hv as (exports & t & n & _ & _ & _ & _ & ->).
Qed.
Lemma collect_source source p shard : Forall (fun v => source_rank (vs_source v) = source_rank source) (collect source p shard).
Proof. apply Forall_forall. by intros v (e & _ & _ & ->)%elem_collect. Qed.

Lemma elem_visible_symbols file_id byte_offset scope_id shard ie v : v ∈ visible_symbols_at file_id byte_offset scope_id shard ie <-> visible file_id byte_offset scope_id shard ie v.
Proof.
  unfold visible_symbols_at, collect_local_lexical, collect_local_package, collect_constants, collect_generated_members, collect_import_visibility.
  rewrite !elem_of_app, !elem_collect, elem_concat_fmap. setoid_rewrite elem_import. setoid_rewrite elem_explicit. setoid_rewrite elem_import_tags.
  setoid_rewrite andb_true_iff. setoid_rewrite andb_true_iff. setoid_rewrite is_kind_eq.
  setoid_rewrite same_scope_iff. setoid_rewrite declared_iff. setoid_rewrite package_member_iff. split.
  + intros [(e & ? & [[? ?] ?] & ->)|[(e & ? & ? & ->)|[(i & ? & ? & [[? (n & ? & ? & ->)]|[[? (es & t & n & ? & ? & ? & ? & ->)]|(? & es & n & ? & ? & ->)]])|[(e & ? & ? & ->)|(e & ? & ? & ->)]]]];
      [by constructor|by constructor|apply see_brought; econstructor; eauto..].
  + intros [| |? []]; naive_solver.
Qed.

(** The sources beyond the file's own variables and subroutines. *)
Definition outside : list VisibleSymbolSource.t :=
  [VisibleSymbolSource.ExplicitImport; VisibleSymbolSource.DefaultExport; VisibleSymbolSource.ExportTag; VisibleSymbolSource.Constant; VisibleSymbolSource.Generated].
Lemma brought_in_outside file_id byte_offset shard ie v : brought_in file_id byte_offset shard ie v -> vs_source v ∈ outside.
Proof. unfold outside. rewrite !elem_of_cons, elem_of_nil. destruct 1; simpl; tauto. Qed.
Lemma visible_outside file_id byte_offset scope_id shard ie v : visible file_id byte_offset scope_id shard ie v /\ vs_source v ∈ outside <-> brought_in file_id byte_offset shard ie v.
Proof.
  split; [|intros Hv; split; [by apply see_brought|by eapply brought_in_outside]]. unfold outside. rewrite !elem_of_cons, elem_of_nil.
  intros [[e He Hk Hs Hd|e He Hk|w Hw] Ho]; simpl in Ho; [exfalso; by destruct_or! Ho..|done].
Qed.

(** C12. What imports make visible is exact.  The symbols that are answered at
    an offset of a file with an imported, constant or generated source are: for
    every import statement that does not start behind the offset the names it
    lists, the default exports of its module when it is a bare [use], and the
    members of the groups it asks for by tag or by a dash and that the module
    declares, and the constants and generated members of the file; nothing
    else.  In the whole answer the variables come first, then the subroutines,
    methods and packages of the file, then what is imported, then constants,
    then generated members.  (Which variables are answered is not claimed.) *)
Theorem imported_symbols_exact file_id byte_offset scope_id shard ie :
  (forall v, v ∈ visible_symbols_at file_id byte_offset scope_id shard ie /\ vs_source v ∈ outside <-> brought_in file_id byte_offset shard ie v) /\
  StronglySorted no_later (visible_symbols_at file_id byte_offset scope_id shard ie).
Proof.
  split.
  - intros v. by rewrite elem_visible_symbols, visible_outside.
  - assert (Hc : forall source p, Forall (fun v => source_rank (vs_source v) = source_rank source) (collect source p shard)) by (intros; apply collect_source).
    assert (Hi : Forall (fun v => source_rank (vs_source v) = 2) (collect_import_visibility file_id byte_offset ie)) by (apply Forall_forall; intros v; apply import_source).
    assert (Hle : forall j k l, j <= k -> Forall (fun v => source_rank (vs_source v) = k) l -> Forall (fun v => j <= source_rank (vs_source v)) l).
    { intros j k l Hjk Hl. eapply Forall_impl; [exact Hl|]. simpl. intros v ->. done. }
    pose proof (Hc VisibleSymbolSource.LocalLexical) as C0. pose proof (Hc VisibleSymbolSource.LocalPackage) as C1.
    pose proof (Hc VisibleSymbolSource.Constant) as C3. pose proof (Hc VisibleSymbolSource.Generated) as C4. simpl in C0, C1, C3, C4.
    unfold visible_symbols_at, collect_local_lexical, collect_local_package, collect_constants, collect_generated_members.
    apply (sorted_block 0); [apply C0|rewrite !Forall_app; repeat split; (eapply Hle; [|first [apply C1|exact Hi|apply C3|apply C4]]; lia)|].
    apply (sorted_block 1); [apply C1|rewrite !Forall_app; repeat split; (eapply Hle; [|first [apply C1|exact Hi|apply C3|apply C4]]; lia)|].
    apply (sorted_block 2); [done|rewrite !Forall_app; repeat split; (eapply Hle; [|first [apply C1|exact Hi|apply C3|apply C4]]; lia)|].
    apply (sorted_block 3); [apply C3|eapply Hle; [|apply C4]; lia|].
    rewrite <-(app_nil_r (collect VisibleSymbolSource.Generated _ _)). apply (sorted_block 4); [apply C4|constructor|constructor].
Qed.
