(* ===== verification/SemanticQueries.v ===== *)
(** * Semantic queries (perl-workspace/src/semantic/queries.rs, semantic/value_shape.rs)

    The facade through which providers read the semantic indexes: symbols and
    occurrences at a position, ranked definitions, references, the spans of
    anchors, methods of a receiver, and the evidence for dynamic boundaries.
    A hash map is iterated in the order of [map_to_list].  The rename and
    delete plans are in [SemanticPlans]. *)

From stdpp Require Import base numbers list gmap sets.
From S2P Require Import Prelude Utf8 StdText PackageGraph NameMaps WorkspaceSymbols SemanticFacts ReferenceIndex ImportExports Visibility.

(** ** Data (perl-semantic-facts/src/lib.rs) *)

Module DefinitionRank.
Inductive t := ExactQualified | SamePackage | ExplicitImport | DefaultExport | WorkspaceCandidate | Heuristic.
Definition index (r : t) : Z := match r with ExactQualified => 0 | SamePackage => 1 | ExplicitImport => 2 | DefaultExport => 3 | WorkspaceCandidate => 4 | Heuristic => 5 end.
#[export] Instance t_dec : EqDecision t.
Proof. solve_decision. Defined.
End DefinitionRank.
Export (hints) DefinitionRank.
Inductive DefinitionRankReason := ExactQualifiedName | InSamePackage | ByExplicitImport (module : str) | ByDefaultExport (module : str) | WorkspaceSymbolReason | HeuristicNameMatch.
Record DefinitionCandidate := mkDefinition {
  dc_entity : Z;
  dc_anchor : Z;
  dc_canonical_name : str;
  dc_display_name : str;
  dc_package : option str;
  dc_kind : EntityKind.t;
  dc_provenance : Provenance;
  dc_confidence : Confidence;
  dc_rank : DefinitionRank.t;
  dc_reason : DefinitionRankReason;
}.
Inductive ValueShape := ShapeUnknown | ShapeScalar | ArrayRef | HashRef | CodeRef | PackageName (package : str) | Object (package : str) (confidence : Confidence).

(** ** Value shapes (semantic/value_shape.rs) *)

Record ValueShapeIndex := mkShapes { shapes : gmap Z ValueShape; file_entities : gmap str (list Z) }.
Definition shapes_new : ValueShapeIndex := mkShapes ∅ ∅.
Definition add_shapes (source_uri : str) (new : list (Z * ValueShape)) (self : ValueShapeIndex) : ValueShapeIndex :=
  mkShapes (foldl (fun m x => <[x.1 := x.2]> m) (shapes self) new) (<[source_uri := new.*1]> (file_entities self)).
Definition remove_shapes_for_file (source_uri : str) (self : ValueShapeIndex) : ValueShapeIndex :=
  match file_entities self !! source_uri with
  | None => self
  | Some ids => mkShapes (foldl (fun m id => delete id m) (shapes self) ids) (delete source_uri (file_entities self))
  end.
Definition shape_of (entity_id : Z) (self : ValueShapeIndex) : option ValueShape := shapes self !! entity_id.
Definition resolve_receiver_package (shape : ValueShape) : option str :=
  match shape with Object package _ | PackageName package => Some package | _ => None end.

(** ** The facade *)

Record QueryContext := mkQueryContext { query_file : Z; query_scope : option Z; query_offset : option Z }.
Record AnchorSourceSpan := mkSourceSpan { span_uri : str; start_byte : Z; end_byte : Z }.
Inductive DynamicCallableEvidence := DynamicImport (file_id : Z) (anchor_id : option Z) (module : str) | EvalSub (occurrence : OccurrenceFact).
Record WorkspaceSemanticQueries := mkQueries {
  reference_index : ReferenceIndex;
  import_export_index : ImportExportIndex;
  fact_shards : gmap str FileFactShard;
  package_graph : option PackageGraphIndex;
  value_shape_index : option ValueShapeIndex;
}.
(** [fact_shards.values()] *)
Definition values (self : WorkspaceSemanticQueries) : list FileFactShard := (map_to_list (fact_shards self)).*2.
Definition shard_for_file (file_id' : Z) (self : WorkspaceSemanticQueries) : option FileFactShard := find_first (fun s => file_id s =? file_id') (values self).
Definition all_entities (self : WorkspaceSemanticQueries) : list EntityFact := concat (entities <$> values self).

(** ** Names and kinds *)

Definition bare_name (qualified : str) : str := match rsplit_colons qualified with Some (_, bare) => bare | None => qualified end.
Definition extract_package (qualified : str) : option str := fst <$> rsplit_colons qualified.
(** [contains("::")] *)
Definition contains_colons (s : str) : bool := match rsplit_colons s with Some _ => true | None => false end.
(** [strip_prefix] *)
Fixpoint strip_prefix (prefix s : str) : option str :=
  match prefix, s with
  | [], _ => Some s
  | c :: prefix, d :: s => if c =? d then strip_prefix prefix s else None
  | _ :: _, [] => None
  end.
Definition qualified (package name : str) : str := package ++ [58; 58] ++ name.
Definition is_definition_kind (k : EntityKind.t) : bool :=
  match k with
  | EntityKind.Subroutine | EntityKind.Method | EntityKind.Variable_ | EntityKind.Constant | EntityKind.Package | EntityKind.Class_ | EntityKind.Role
  | EntityKind.Module_ | EntityKind.Field_ | EntityKind.GeneratedMember => true
  | _ => false
  end.
Definition is_method_kind (k : EntityKind.t) : bool :=
  match k with EntityKind.Method | EntityKind.Subroutine | EntityKind.GeneratedMember => true | _ => false end.
Definition is_named (symbol : str) (e : EntityFact) : bool := bool_decide (canonical_name e = symbol) || bool_decide (bare_name (canonical_name e) = symbol).

(** ** Definitions *)

Definition rank_for_entity (e : EntityFact) (symbol : str) : DefinitionRank.t :=
  if bool_decide (canonical_name e = symbol) && contains_colons symbol then DefinitionRank.ExactQualified
  else if bool_decide (canonical_name e = symbol) then DefinitionRank.SamePackage
  else if bool_decide (bare_name (canonical_name e) = symbol) then DefinitionRank.WorkspaceCandidate
  else DefinitionRank.Heuristic.
Definition rank_reason_for (r : DefinitionRank.t) : DefinitionRankReason :=
  match r with
  | DefinitionRank.ExactQualified => ExactQualifiedName
  | DefinitionRank.SamePackage => InSamePackage
  | DefinitionRank.ExplicitImport => ByExplicitImport []
  | DefinitionRank.DefaultExport => ByDefaultExport []
  | DefinitionRank.WorkspaceCandidate => WorkspaceSymbolReason
  | DefinitionRank.Heuristic => HeuristicNameMatch
  end.
Definition anchor_location (anchor_id : Z) (self : WorkspaceSemanticQueries) : str * Z :=
  default ([], u32_max)
    (find_map (fun s => (fun a => (source_uri s, span_start_byte a)) <$> find_first (fun a => anchor a =? anchor_id) (anchors s)) (values self)).
Definition candidate_order (self : WorkspaceSemanticQueries) (a b : DefinitionCandidate) : comparison :=
  then_cmp (DefinitionRank.index (dc_rank a) ?= DefinitionRank.index (dc_rank b))
    (let x := anchor_location (dc_anchor a) self in let y := anchor_location (dc_anchor b) self in then_cmp (str_cmp x.1 y.1) (x.2 ?= y.2)).
Definition sort_candidates (self : WorkspaceSemanticQueries) (l : list DefinitionCandidate) : list DefinitionCandidate := sort_by (not_after (candidate_order self)) l.
Definition by_name (symbol : str) (e : EntityFact) : option DefinitionCandidate :=
  if is_named symbol e && is_definition_kind (entity_kind e) then
    anchor_id ← entity_anchor e;
    let rank := rank_for_entity e symbol in
    Some (mkDefinition (entity e) anchor_id (canonical_name e) (bare_name (canonical_name e)) (extract_package (canonical_name e)) (entity_kind e)
      (entity_provenance e) (entity_confidence e) rank (rank_reason_for rank))
  else None.
Definition is_import_export_visible_source (s : VisibleSymbolSource.t) : bool :=
  match s with VisibleSymbolSource.ExplicitImport | VisibleSymbolSource.DefaultExport | VisibleSymbolSource.ExportTag => true | _ => false end.
Definition import_export_definition_rank (s : VisibleSymbolSource.t) (module : str) : DefinitionRank.t * DefinitionRankReason :=
  match s with
  | VisibleSymbolSource.ExplicitImport => (DefinitionRank.ExplicitImport, ByExplicitImport module)
  | VisibleSymbolSource.DefaultExport | VisibleSymbolSource.ExportTag => (DefinitionRank.DefaultExport, ByDefaultExport module)
  | _ => (DefinitionRank.WorkspaceCandidate, WorkspaceSymbolReason)
  end.
Definition by_import (v : VisibleSymbol) (module name : str) (e : EntityFact) : option DefinitionCandidate :=
  if bool_decide (canonical_name e = name) && is_definition_kind (entity_kind e) then
    anchor_id ← entity_anchor e;
    let r := import_export_definition_rank (vs_source v) module in
    Some (mkDefinition (entity e) anchor_id (canonical_name e) (bare_name (canonical_name e)) (extract_package (canonical_name e)) (entity_kind e)
      ImportExportInference (vs_confidence v) r.1 r.2)
  else None.
Definition imported_definitions (symbol : str) (self : WorkspaceSemanticQueries) (v : VisibleSymbol) : list DefinitionCandidate :=
  if bool_decide (vs_name v = symbol) && is_import_export_visible_source (vs_source v) then
    match vs_context v ≫= source_module with
    | Some module => omap (by_import v module (qualified module symbol)) (all_entities self)
    | None => []
    end
  else [].
Definition append_import_export_definition_candidates (symbol : str) (context : QueryContext) (self : WorkspaceSemanticQueries) : list DefinitionCandidate :=
  if contains_colons symbol then []
  else
    match query_offset context, shard_for_file (query_file context) self with
    | Some byte_offset, Some query_shard =>
      concat (imported_definitions symbol self <$>
        Visibility.visible_symbols_at (query_file context) byte_offset (query_scope context) query_shard (import_export_index self))
    | _, _ => []
    end.
Definition is_import_export_definition_candidate (c : DefinitionCandidate) : bool :=
  match dc_rank c with DefinitionRank.ExplicitImport | DefinitionRank.DefaultExport => bool_decide (dc_provenance c = ImportExportInference) | _ => false end.
Definition retain_import_export_context_candidates (symbol : str) (l : list DefinitionCandidate) : list DefinitionCandidate :=
  if contains_colons symbol || negb (existsb is_import_export_definition_candidate l) then l
  else filter (fun c => is_import_export_definition_candidate c || bool_decide (dc_rank c = DefinitionRank.SamePackage) = true) l.
Definition definitions (symbol : str) (context : QueryContext) (self : WorkspaceSemanticQueries) : list DefinitionCandidate :=
  retain_import_export_context_candidates symbol
    (sort_candidates self (omap (by_name symbol) (all_entities self) ++ append_import_export_definition_candidates symbol context self)).

(** ** Anchors *)

(** The anchors of all shards, each with the URI of its shard. *)
Definition anchored (self : WorkspaceSemanticQueries) : list (str * AnchorFact) := concat ((fun s => (fun a => (source_uri s, a)) <$> anchors s) <$> values self).
Definition degenerate (a : AnchorFact) : bool := span_end_byte a <=? span_start_byte a.
Definition source_span (x : str * AnchorFact) : AnchorSourceSpan := mkSourceSpan x.1 (span_start_byte x.2) (span_end_byte x.2).
Fixpoint scan_anchors (found : option AnchorSourceSpan) (l : list (str * AnchorFact)) : option AnchorSourceSpan :=
  match l with
  | [] => found
  | x :: l => if degenerate x.2 then None else match found with Some _ => None | None => scan_anchors (Some (source_span x)) l end
  end.
Definition anchor_source_span (anchor_id : Z) (self : WorkspaceSemanticQueries) : option AnchorSourceSpan :=
  scan_anchors None (filter (fun x => anchor x.2 = anchor_id) (anchored self)).
(** One pass for many anchors. *)
Record SpanScan := mkSpanScan { resolved : gmap Z (option AnchorSourceSpan); claimed : gmap Z Z }.
Definition scan_step (requested : gset Z) (w : SpanScan) (x : str * AnchorFact) : SpanScan :=
  let id := anchor x.2 in
  if decide (id ∈ requested) then
    let n := default 0 (claimed w !! id) + 1 in
    let span := if 1 <? n then None else if degenerate x.2 then None else Some (source_span x) in
    mkSpanScan (<[id := span]> (resolved w)) (<[id := n]> (claimed w))
  else w.
Definition anchor_source_spans (anchor_ids : list Z) (self : WorkspaceSemanticQueries) : list (option AnchorSourceSpan) :=
  match anchor_ids with
  | [] => []
  | _ =>
    let w := foldl (scan_step (list_to_set anchor_ids)) (mkSpanScan (list_to_map ((fun id => (id, None)) <$> anchor_ids)) ∅) (anchored self) in
    (fun id => default None (resolved w !! id)) <$> anchor_ids
  end.

(** ** Positions *)

Definition encloses (file_id' byte_offset : Z) (a : AnchorFact) : bool :=
  (anchor_file a =? file_id') && (span_start_byte a <=? byte_offset) && (byte_offset <? span_end_byte a).
Definition occurrence_at (file_id' byte_offset : Z) (self : WorkspaceSemanticQueries) : option OccurrenceFact :=
  shard ← shard_for_file file_id' self;
  a ← find_first (encloses file_id' byte_offset) (anchors shard);
  find_first (fun o => occ_anchor o =? anchor a) (occurrences shard).
Definition symbol_at (file_id' byte_offset : Z) (self : WorkspaceSemanticQueries) : option (EntityFact * OccurrenceFact) :=
  occ ← occurrence_at file_id' byte_offset self;
  entity_id ← occ_entity occ;
  e ← find_first (fun e => entity e =? entity_id) (all_entities self);
  Some (e, occ).
Definition occurrence_of_edge (e : ReferenceEdge) : OccurrenceFact :=
  mkOccurrence (re_occurrence e) (re_kind e) (head (target_candidates e)) (re_anchor e) None (re_provenance e) (re_confidence e).
Definition references (entity_id : Z) (self : WorkspaceSemanticQueries) : list OccurrenceFact := occurrence_of_edge <$> get_by_entity entity_id (reference_index self).
Definition visible_symbols_at (file_id' byte_offset : Z) (scope_id : option Z) (self : WorkspaceSemanticQueries) : list VisibleSymbol :=
  match shard_for_file file_id' self with
  | Some shard => Visibility.visible_symbols_at file_id' byte_offset scope_id shard (import_export_index self)
  | None => []
  end.
Definition use_lib_paths (file_id' : Z) (self : WorkspaceSemanticQueries) : list UseLibFact := get_use_lib_for_file file_id' (import_export_index self).

(** ** Methods *)

Definition method_entity (package method_name : str) (e : EntityFact) : option DefinitionCandidate :=
  if bool_decide (canonical_name e = qualified package method_name) && is_method_kind (entity_kind e) then
    anchor_id ← entity_anchor e;
    Some (mkDefinition (entity e) anchor_id (canonical_name e) method_name (Some package) (entity_kind e) (entity_provenance e) (entity_confidence e)
      DefinitionRank.ExactQualified ExactQualifiedName)
  else None.
Definition find_method_entities (package method_name : str) (self : WorkspaceSemanticQueries) : list DefinitionCandidate :=
  omap (method_entity package method_name) (all_entities self).
Definition methods_of (self : WorkspaceSemanticQueries) (method_name package : str) : list DefinitionCandidate :=
  sort_candidates self (find_method_entities package method_name self).
Definition method_candidates (receiver_package method_name : str) (self : WorkspaceSemanticQueries) : outcome (list DefinitionCandidate) :=
  match package_graph self with
  | None => mret []
  | Some graph =>
    match get_node graph receiver_package with
    | None => mret (methods_of self method_name receiver_package)
    | Some _ => packages ← packages_to_search graph receiver_package; mret (concat (methods_of self method_name <$> packages))
    end
  end.
Definition direct_member (package : str) (e : EntityFact) : option str :=
  rest ← strip_prefix (package ++ [58; 58]) (canonical_name e); if contains_colons rest then None else Some rest.
Definition known_package (package : str) (self : WorkspaceSemanticQueries) : option bool :=
  graph ← package_graph self;
  match get_node graph package with
  | Some _ => Some true
  | None =>
    Some (existsb (fun e => bool_decide (canonical_name e = package) || match direct_member package e with Some _ => true | None => false end) (all_entities self))
  end.
Definition enumerate_package_methods (package : str) (self : WorkspaceSemanticQueries) : list str :=
  omap (fun e => if is_method_kind (entity_kind e) then direct_member package e else None) (all_entities self).
(** [BTreeMap::entry(method).or_insert(origin)], as an ordered list *)
Fixpoint or_insert_with (method origin : str) (l : list (str * str)) : list (str * str) :=
  match l with
  | [] => [(method, origin)]
  | (m, o) :: l' =>
    match str_cmp method m with Lt => (method, origin) :: l | Eq => l | Gt => (m, o) :: or_insert_with method origin l' end
  end.
Definition transitive_role_methods (role_package : str) (self : WorkspaceSemanticQueries) : outcome (list (str * str)) :=
  match package_graph self with
  | None => mret []
  | Some graph =>
    r ← transitive_composed_roles graph role_package;
    mret (foldl (fun origins pkg => foldl (fun origins method => or_insert_with method pkg origins) origins (enumerate_package_methods pkg self)) []
      (role_package :: roles_of r))
  end.
Definition method_candidates_by_shape (shape : ValueShape) (method_name : str) (self : WorkspaceSemanticQueries) : outcome (list DefinitionCandidate) :=
  match resolve_receiver_package shape with Some package => method_candidates package method_name self | None => mret [] end.
Definition method_candidates_for_entity (entity_id : Z) (method_name : str) (self : WorkspaceSemanticQueries) : outcome (list DefinitionCandidate) :=
  match value_shape_index self ≫= shape_of entity_id with Some shape => method_candidates_by_shape shape method_name self | None => mret [] end.

(** ** Dynamic boundaries *)

Definition entity_matches (shard : FileFactShard) (entity_id : Z) (symbol : str) : bool := existsb (fun e => (entity e =? entity_id) && is_named symbol e) (entities shard).
Definition is_boundary (o : OccurrenceFact) : bool := bool_decide (occ_kind o = OccurrenceKind.DynamicBoundary).
Definition anchor_of (shard : FileFactShard) (o : OccurrenceFact) : option AnchorFact := find_first (fun a => anchor a =? occ_anchor o) (anchors shard).
Definition covers (shard : FileFactShard) (byte_offset : Z) (symbol : option str) (o : OccurrenceFact) : bool :=
  is_boundary o &&
  match anchor_of shard o with Some a => (span_start_byte a <=? byte_offset) && (byte_offset <? span_end_byte a) | None => false end &&
  match symbol, occ_entity o with Some s, Some entity_id => entity_matches shard entity_id s | _, _ => true end.
Definition dynamic_boundary_at (file_id' byte_offset : Z) (symbol : option str) (self : WorkspaceSemanticQueries) : option OccurrenceFact :=
  shard ← shard_for_file file_id' self; find_first (covers shard byte_offset symbol) (occurrences shard).
Definition has_sigil (symbol : str) : bool := match symbol with c :: _ => bool_decide (c ∈ [36; 64; 37; 38; 42]) | [] => false end.
Definition dynamic_import_before (byte_offset : Z) (i : ImportSpec) : bool :=
  match import_symbols i, import_start i with ImportSymbols.Dynamic, Some start => start <=? byte_offset | _, _ => false end.
Definition declares_before (shard : FileFactShard) (byte_offset : Z) (symbol : str) (o : OccurrenceFact) : bool :=
  is_boundary o && match occ_entity o with Some entity_id => entity_matches shard entity_id symbol | None => false end &&
  match anchor_of shard o with Some a => span_start_byte a <=? byte_offset | None => false end.
Definition dynamic_callable_may_be_visible_at (file_id' byte_offset : Z) (symbol : str) (self : WorkspaceSemanticQueries) : option DynamicCallableEvidence :=
  if has_sigil symbol then None
  else
    match find_first (dynamic_import_before byte_offset) (get_imports_for_file file_id' (import_export_index self)) with
    | Some i => Some (DynamicImport file_id' (import_anchor i) (module i))
    | None => shard ← shard_for_file file_id' self; EvalSub <$> find_first (declares_before shard byte_offset symbol) (occurrences shard)
    end.
