(* ===== verification/SemanticQueryLaws.v ===== *)
(** * Laws of the semantic queries

    Batched anchor lookup equals the single one, definitions are exactly the
    entities of the name and those an import makes visible, in order, and a
    method lookup finds exactly the methods of the searched packages. *)

From stdpp Require Import base numbers list gmap sets sorting.
From S2P Require Import Prelude Utf8 StdText PackageGraph PackageIndex NameMaps WorkspaceSymbols WorkspaceSymbolLaws SemanticFacts ReferenceIndex ImportExports Visibility SemanticQueries.

(** ** Anchors *)

(** A single anchor that is not degenerate has a span. *)
Definition sole_span (l : list (str * AnchorFact)) : option AnchorSourceSpan :=
  match l with [x] => if degenerate x.2 then None else Some (source_span x) | _ => None end.
Lemma scan_sole l : scan_anchors None l = sole_span l.
Proof. destruct l as [|x [|y l]]; simpl; [done|done|]. destruct (degenerate x.2); [done|]. by destruct (degenerate y.2). Qed.
(** What the batch knows after some anchors. *)
Record scanned (requested : gset Z) (l : list (str * AnchorFact)) (w : SpanScan) : Prop := mkScanned {
  sc_claimed : forall id, id ∈ requested -> default 0 (claimed w !! id) = len (filter (fun x => anchor x.2 = id) l);
  sc_resolved : forall id, id ∈ requested -> resolved w !! id = Some (sole_span (filter (fun x => anchor x.2 = id) l));
}.
Lemma scan_step_ok requested l w x : scanned requested l w -> scanned requested (l ++ [x]) (scan_step requested w x).
Proof.
  intros [H1 H2]. assert (Hf : forall id, filter (fun y : str * AnchorFact => anchor y.2 = id) (l ++ [x]) = filter (fun y => anchor y.2 = id) l ++ (if decide (anchor x.2 = id) then [x] else [])).
  { intros id. by rewrite filter_app. }
  unfold scan_step. destruct (decide (anchor x.2 ∈ requested)) as [Hx|Hx]; split; intros id Hid; rewrite Hf; simpl.
  - destruct (decide (anchor x.2 = id)) as [<-|Hne]; [rewrite lookup_insert_eq, len_app; simpl; by rewrite H1|]. rewrite lookup_insert_ne, app_nil_r by done. by apply H1.
  - destruct (decide (anchor x.2 = id)) as [<-|Hne]; [|rewrite lookup_insert_ne, app_nil_r by done; by apply H2]. rewrite lookup_insert_eq, H1 by done. f_equal.
    destruct (filter _ l) as [|y [|z k]]; simpl; [done|done|]. rewrite (proj2 (Z.ltb_lt 1 _)); [done|]. unfold len. simpl. lia.
  - destruct (decide (anchor x.2 = id)) as [E|Hne]; [by rewrite E in Hx|]. rewrite app_nil_r. by apply H1.
  - destruct (decide (anchor x.2 = id)) as [E|Hne]; [by rewrite E in Hx|]. rewrite app_nil_r. by apply H2.
Qed.
Lemma scan_all requested l w : scanned requested [] w -> scanned requested l (foldl (scan_step requested) w l).
Proof.
  intros Hw. induction l as [|x l IH] using rev_ind; [done|]. rewrite foldl_app. by apply scan_step_ok.
Qed.

(** The batched lookup of anchors answers every anchor as the single lookup
    does, duplicates in the request included: the span of the anchor when one
    shard has it once and the span is not empty, and nothing otherwise. *)
Theorem batched_spans_agree anchor_ids self :
  anchor_source_spans anchor_ids self = (fun id => anchor_source_span id self) <$> anchor_ids /\
  (forall id span, anchor_source_span id self = Some span <->
    exists x, filter (fun x => anchor x.2 = id) (anchored self) = [x] /\ span_start_byte x.2 < span_end_byte x.2 /\ span = source_span x).
Proof.
  split.
  - unfold anchor_source_spans. destruct anchor_ids as [|i ids]; [done|]. set (l := i :: ids). set (w := mkSpanScan _ _). assert (Hw : scanned (list_to_set l) [] w).
    { split; intros id Hid; [done|]. apply elem_of_list_to_set in Hid.
      change ((list_to_map ((fun id => (id, @None AnchorSourceSpan)) <$> l) : gmap Z (option AnchorSourceSpan)) !! id = Some None). apply elem_of_list_to_map_1'.
      - intros y (z & [= -> ->] & _)%list_elem_of_fmap. done.
      - apply list_elem_of_fmap. by exists id. }
    pose proof (scan_all _ (anchored self) w Hw) as [_ Hr]. apply list_fmap_ext. intros k id Hid. apply list_elem_of_lookup_2 in Hid.
    rewrite Hr by by apply elem_of_list_to_set. unfold anchor_source_span. by rewrite scan_sole.
  - intros id span. unfold anchor_source_span. rewrite scan_sole. unfold sole_span, degenerate. destruct (filter _ _) as [|x [|y k]]; [naive_solver| |naive_solver].
    destruct (Z.leb_spec (span_end_byte x.2) (span_start_byte x.2)); split.
    + done.
    + intros (z & [= ->] & ? & _). lia.
    + intros [= <-]. by exists x.
    + intros (z & [= ->] & _ & ->). done.
Qed.

(** The first shard that has an anchor of this id, and the first such anchor. *)
Definition first_anchor (self : WorkspaceSemanticQueries) (anchor_id : Z) (s : FileFactShard) (a : AnchorFact) : Prop :=
  exists before after, values self = before ++ s :: after /\ find_first (fun a => anchor a =? anchor_id) (anchors s) = Some a /\
    forall s' a', s' ∈ before -> a' ∈ anchors s' -> anchor a' <> anchor_id.
Lemma first_anchor_found {A} self anchor_id s a (f : FileFactShard -> AnchorFact -> A) : first_anchor self anchor_id s a ->
  find_map (fun s => f s <$> find_first (fun a => anchor a =? anchor_id) (anchors s)) (values self) = Some (f s a).
Proof.
  intros (before & after & -> & Ea & Hb). induction before as [|s' before IH]; simpl; [by rewrite Ea|].
  rewrite (proj2 (find_first_None _ (anchors s'))); [simpl; apply IH; intros; eapply Hb; [by right|done]|]. intros a' Ha'. apply Z.eqb_neq. eapply Hb; [by left|done].
Qed.

(** ** Definitions *)

(** The kinds of entities that are definitions. *)
Definition definition_kinds : list EntityKind.t :=
  [EntityKind.Subroutine; EntityKind.Method; EntityKind.Variable_; EntityKind.Constant; EntityKind.Package; EntityKind.Class_; EntityKind.Role; EntityKind.Module_;
   EntityKind.Field_; EntityKind.GeneratedMember].
Lemma definition_kinds_iff k : is_definition_kind k = true <-> k ∈ definition_kinds.
Proof. unfold definition_kinds. rewrite !elem_of_cons, elem_of_nil. destruct k; simpl; naive_solver. Qed.
(** A defining entity with an anchor, as a candidate of this standing. *)
Definition candidate_for (e : EntityFact) (anchor_id : Z) (p : Provenance) (c : Confidence) (r : DefinitionRank.t * DefinitionRankReason) : DefinitionCandidate :=
  mkDefinition (entity e) anchor_id (canonical_name e) (bare_name (canonical_name e)) (extract_package (canonical_name e)) (entity_kind e) p c r.1 r.2.
(** The standing of a name that is the symbol: qualified as it is, bare as it
    is, or the last part of a qualified name. *)
Inductive standing (symbol name : str) : DefinitionRank.t * DefinitionRankReason -> Prop :=
| stands_qualified : name = symbol -> contains_colons symbol = true -> standing symbol name (DefinitionRank.ExactQualified, ExactQualifiedName)
| stands_bare : name = symbol -> contains_colons symbol = false -> standing symbol name (DefinitionRank.SamePackage, InSamePackage)
| stands_elsewhere : name <> symbol -> bare_name name = symbol -> standing symbol name (DefinitionRank.WorkspaceCandidate, WorkspaceSymbolReason).
(** An entity that the symbol names, bare or qualified. *)
Definition named (symbol : str) (self : WorkspaceSemanticQueries) (c : DefinitionCandidate) : Prop :=
  exists e anchor_id r, e ∈ all_entities self /\ entity_kind e ∈ definition_kinds /\ entity_anchor e = Some anchor_id /\ standing symbol (canonical_name e) r /\
    c = candidate_for e anchor_id (entity_provenance e) (entity_confidence e) r.
(** How an import brings a name in. *)
Inductive brings : VisibleSymbolSource.t -> str -> DefinitionRank.t * DefinitionRankReason -> Prop :=
| brings_listed m : brings VisibleSymbolSource.ExplicitImport m (DefinitionRank.ExplicitImport, ByExplicitImport m)
| brings_default m : brings VisibleSymbolSource.DefaultExport m (DefinitionRank.DefaultExport, ByDefaultExport m)
| brings_tagged m : brings VisibleSymbolSource.ExportTag m (DefinitionRank.DefaultExport, ByDefaultExport m).
(** An entity of the module from which an import makes the bare name visible
    at the position of the query. *)
Definition imported (symbol : str) (context : QueryContext) (self : WorkspaceSemanticQueries) (c : DefinitionCandidate) : Prop :=
  contains_colons symbol = false /\ exists byte_offset shard v m e anchor_id r,
    query_offset context = Some byte_offset /\ shard_for_file (query_file context) self = Some shard /\
    visible (query_file context) byte_offset (query_scope context) shard (import_export_index self) v /\ vs_name v = symbol /\
    vs_context v ≫= source_module = Some m /\ brings (vs_source v) m r /\
    e ∈ all_entities self /\ canonical_name e = qualified m symbol /\ entity_kind e ∈ definition_kinds /\ entity_anchor e = Some anchor_id /\
    c = candidate_for e anchor_id ImportExportInference (vs_confidence v) r.

Lemma standing_iff symbol e r : is_named symbol e = true /\ r = (rank_for_entity e symbol, rank_reason_for (rank_for_entity e symbol)) <-> standing symbol (canonical_name e) r.
Proof.
  unfold is_named, rank_for_entity. rewrite orb_true_iff, !bool_decide_eq_true. split.
  - intros [Hn ->]. case_bool_decide as E1; simpl; [destruct (contains_colons symbol) eqn:Ec; by constructor|]. destruct Hn as [|Hn]; [done|].
    rewrite bool_decide_eq_true_2 by done. by constructor.
  - intros [-> Ec| -> Ec|Hne <-]; rewrite ?(bool_decide_eq_true_2 (symbol = symbol)) by done; rewrite ?Ec; simpl; [by split; [left|]..|].
    rewrite bool_decide_eq_false_2 by done. simpl. rewrite bool_decide_eq_true_2 by done. by split; [right|].
Qed.
Lemma named_iff symbol self c : (exists e, e ∈ all_entities self /\ by_name symbol e = Some c) <-> named symbol self c.
Proof.
  unfold named, by_name, candidate_for. setoid_rewrite <-definition_kinds_iff. setoid_rewrite <-standing_iff. split.
  - intros (e & He & E). destruct (is_named symbol e && _) eqn:Eb; [|done]. apply andb_true_iff in Eb as [Hn Hk]. apply bind_Some in E as (anchor_id & Ea & [= <-]). by eexists e, anchor_id, _.
  - intros (e & anchor_id & r & He & Hk & Ea & [Hn ->] & ->). exists e. split; [done|]. by rewrite Hn, Hk, Ea.
Qed.
Lemma by_import_iff v m name e c : is_import_export_visible_source (vs_source v) = true /\ by_import v m name e = Some c <->
  exists anchor_id r, brings (vs_source v) m r /\ canonical_name e = name /\ entity_kind e ∈ definition_kinds /\ entity_anchor e = Some anchor_id /\
    c = candidate_for e anchor_id ImportExportInference (vs_confidence v) r.
Proof.
  unfold by_import, candidate_for. setoid_rewrite <-definition_kinds_iff. split.
  - intros [Hs E]. destruct (bool_decide _ && _) eqn:Eb; [|done]. apply andb_true_iff in Eb as [Hn%bool_decide_eq_true Hk]. apply bind_Some in E as (anchor_id & Ea & [= <-]).
    exists anchor_id. destruct (vs_source v); try done; eexists; (split; [constructor|done]).
  - intros (anchor_id & r & Hb & Hn & Hk & Ea & ->). rewrite bool_decide_eq_true_2, Hk, Ea by done. by destruct Hb.
Qed.
Lemma elem_imported_definitions symbol self v c : c ∈ imported_definitions symbol self v <->
  vs_name v = symbol /\ exists m e, vs_context v ≫= source_module = Some m /\ e ∈ all_entities self /\
    is_import_export_visible_source (vs_source v) = true /\ by_import v m (qualified m symbol) e = Some c.
Proof.
  unfold imported_definitions. destruct (bool_decide (vs_name v = symbol) && _) eqn:E.
  - apply andb_true_iff in E as [->%bool_decide_eq_true ->]. destruct (vs_context v ≫= source_module) as [m|]; [rewrite list_elem_of_omap|rewrite elem_of_nil]; naive_solver.
  - apply andb_false_iff in E as [E|E]; [apply bool_decide_eq_false in E|]; (split; [by intros ?%elem_of_nil|intros (? & ? & ? & _ & _ & ? & _); congruence]).
Qed.
Lemma elem_appended symbol context self c : c ∈ append_import_export_definition_candidates symbol context self <-> imported symbol context self c.
Proof.
  unfold append_import_export_definition_candidates, imported. destruct (contains_colons symbol); [split; [by intros ?%elem_of_nil|by intros [? _]]|].
  destruct (query_offset context) as [byte_offset|]; [|split; [by intros ?%elem_of_nil|naive_solver]].
  destruct (shard_for_file (query_file context) self) as [shard|]; [|split; [by intros ?%elem_of_nil|naive_solver]].
  rewrite elem_concat_fmap. setoid_rewrite elem_imported_definitions. setoid_rewrite elem_visible_symbols. setoid_rewrite by_import_iff. naive_solver.
Qed.
Lemma imported_kind symbol context self c : imported symbol context self c -> is_import_export_definition_candidate c = true.
Proof. intros (_ & byte_offset & shard & v & m & e & anchor_id & r & _ & _ & _ & _ & _ & Hb & _ & _ & _ & _ & ->). by destruct Hb. Qed.
Lemma named_kind symbol self c : named symbol self c -> is_import_export_definition_candidate c = false.
Proof. intros (e & anchor_id & r & _ & _ & _ & Hs & ->). by destruct Hs. Qed.
Lemma candidate_order_lawful self : lawful (candidate_order self).
Proof.
  unfold candidate_order. apply lawful_then; [exact (lawful_on _ _ lawful_Z)|].
  apply (lawful_on (fun c => anchor_location (dc_anchor c) self) (fun x y => then_cmp (str_cmp x.1 y.1) (x.2 ?= y.2))).
  apply lawful_then; [exact (lawful_on fst _ lawful_str)|exact (lawful_on snd _ lawful_Z)].
Qed.

(** Better ranks come first, and among equal ranks, where the anchors of both
    are in a shard, file and offset decide. *)
Definition comes_before (self : WorkspaceSemanticQueries) (c d : DefinitionCandidate) : Prop :=
  DefinitionRank.index (dc_rank c) <= DefinitionRank.index (dc_rank d) /\
  (dc_rank c = dc_rank d -> forall s a s' a', first_anchor self (dc_anchor c) s a -> first_anchor self (dc_anchor d) s' a' ->
    str_cmp (source_uri s) (source_uri s') = Lt \/ source_uri s = source_uri s' /\ span_start_byte a <= span_start_byte a').
Lemma str_cmp_eq x y : str_cmp x y = Eq -> x = y.
Proof. revert y. induction x as [|c x IH]; intros [|d y]; simpl; try done. destruct (Z.compare_spec c d) as [->| |]; simpl; try done. by intros ->%IH. Qed.
Lemma first_anchor_location self anchor_id s a : first_anchor self anchor_id s a -> anchor_location anchor_id self = (source_uri s, span_start_byte a).
Proof. intros Ha. unfold anchor_location. apply (f_equal (default ([], u32_max)) (first_anchor_found self anchor_id s a (fun s a => (source_uri s, span_start_byte a)) Ha)). Qed.
Lemma ordered_before self c d : not_after (candidate_order self) c d = true -> comes_before self c d.
Proof.
  unfold not_after, candidate_order. intros Hc. split.
  - destruct (Z.compare_spec (DefinitionRank.index (dc_rank c)) (DefinitionRank.index (dc_rank d))); [lia|lia|done].
  - intros Er s a s' a' Ha Ha'. rewrite Er, Z.compare_refl in Hc. simpl in Hc.
    rewrite (first_anchor_location _ _ _ _ Ha), (first_anchor_location _ _ _ _ Ha') in Hc. simpl in Hc. destruct (str_cmp (source_uri s) (source_uri s')) eqn:E; simpl in Hc; [right|by left|done]. apply str_cmp_eq in E. split; [done|].
    destruct (Z.compare_spec (span_start_byte a) (span_start_byte a')); [lia|lia|done].
Qed.
Lemma ordered_sorted self l : ordered (not_after (candidate_order self)) l -> StronglySorted (comes_before self) l.
Proof. induction 1 as [|c l Hl IH Hc]; constructor; [done|]. eapply Forall_impl; [exact Hc|]. intros d. apply ordered_before. Qed.

(** C11. Go-to-definition is exact.  The answer has the definitions (entities of
    a kind that defines, with an anchor) that the symbol names, bare or
    qualified, and those that an import visible at the position brings in under
    the bare name, from a list, by default or with a tag; when there is one of
    the latter, of the former only those whose whole name is the symbol remain.
    Better ranks come first, and equal ranks, among candidates whose anchor is
    in a shard, in the order of file and offset. *)
Theorem definition_candidates_exact symbol context self :
  (forall c, c ∈ definitions symbol context self <->
    imported symbol context self c \/ named symbol self c /\ ((exists c', imported symbol context self c') -> dc_rank c = DefinitionRank.SamePackage)) /\
  StronglySorted (comes_before self) (definitions symbol context self).
Proof.
  set (l := sort_candidates self (omap (by_name symbol) (all_entities self) ++ append_import_export_definition_candidates symbol context self)).
  assert (Hl : forall c, c ∈ l <-> named symbol self c \/ imported symbol context self c).
  { intros c. unfold l, sort_candidates. by rewrite sort_by_perm, elem_of_app, elem_appended, list_elem_of_omap, <-named_iff. }
  assert (Ho : ordered (not_after (candidate_order self)) l) by apply sorted_ordered, candidate_order_lawful.
  unfold definitions. fold l. unfold retain_import_export_context_candidates. destruct (contains_colons symbol || _) eqn:E; (split; [|by apply ordered_sorted; try apply ordered_filter]).
  - assert (Hn : forall c, ~ imported symbol context self c).
    { intros c Hc. destruct (contains_colons symbol) eqn:Ec; [by destruct Hc; congruence|]. simpl in E. apply negb_true_iff in E.
      assert (Ht : existsb is_import_export_definition_candidate l = true); [|congruence]. apply existsb_exists. exists c.
      split; [apply list_elem_of_In, Hl; by right|by eapply imported_kind]. }
    intros c. rewrite Hl. naive_solver.
  - apply orb_false_iff in E as [_ E]. apply negb_false_iff, existsb_exists in E as (c' & Hc' & Ek). apply list_elem_of_In, Hl in Hc'.
    assert (Hi : imported symbol context self c') by (destruct Hc' as [Hn|]; [apply named_kind in Hn; congruence|done]). clear Hc'.
    intros c. rewrite list_elem_of_filter, Hl, orb_true_iff, bool_decide_eq_true. split.
    + intros [[Hk|Hk] [Hn|Hc]]; [apply named_kind in Hn; congruence|by left|by right|by left].
    + intros [Hc|[Hn Hr]]; [split; [left; by eapply imported_kind|by right]|]. split; [right; apply Hr; by exists c'|by left].
Qed.

(** An anchor that no shard has sorts before every known one, not last. *)
Example unknown_anchor_sorts_first self c c' : dc_rank c = dc_rank c' -> find_map (fun s => find_first (fun a => anchor a =? dc_anchor c) (anchors s)) (values self) = None ->
  forall s a, find_map (fun s => (fun a => (s, a)) <$> find_first (fun a => anchor a =? dc_anchor c') (anchors s)) (values self) = Some (s, a) -> source_uri s <> [] ->
  candidate_order self c c' = Lt.
Proof.
  intros Er Hnone s a Hs Hu. unfold candidate_order. rewrite Er, Z.compare_refl. simpl.
  assert (Ec : anchor_location (dc_anchor c) self = ([], u32_max)).
  { unfold anchor_location. rewrite (proj2 (find_map_None _ _)); [done|]. intros s' Hs'. rewrite find_map_None in Hnone. specialize (Hnone s' Hs'). by rewrite Hnone. }
  assert (Ec' : anchor_location (dc_anchor c') self = (source_uri s, span_start_byte a)).
  { clear Hnone. unfold anchor_location. revert Hs. induction (values self) as [|s' l IH]; simpl; [done|]. destruct (find_first _ (anchors s')); simpl; [by intros [= <- <-]|exact IH]. }
  rewrite Ec, Ec'. simpl. by destruct (source_uri s).
Qed.
