(* ===== verification/SemanticPlans.v ===== *)
(** * Rename and delete plans (perl-workspace/src/semantic/queries.rs)

    What a rename would edit and what stands against it, and what stands
    against deleting a symbol.  A plan is conservative: what cannot be edited
    with certainty is a blocker.  The laws are in [SemanticPlanLaws]. *)

From Stdlib Require Import String.
From stdpp Require Import base numbers list gmap.
From S2P Require Import Prelude Utf8 StdText PackageGraph NameMaps SemanticFacts ReferenceIndex ImportExports Visibility SemanticQueries.
#[local] Open Scope string_scope.
#[local] Open Scope Z_scope.
#[local] Open Scope list_scope.

(** ** Data (perl-semantic-facts/src/lib.rs) *)

Module PlanBlockerReason.
Inductive t := DynamicBoundary | AmbiguousReference | CrossModuleExport | ImportedSymbol | ExportedSymbol | ReferencesExist | GeneratedMember | StaleFact | UnclassifiedOccurrence.
#[export] Instance t_dec : EqDecision t.
Proof. solve_decision. Defined.
End PlanBlockerReason.
Export (hints) PlanBlockerReason.
Module PlannedEditCategory.
Inductive t := Definition_ | Reference | ImportList | ExportList.
End PlannedEditCategory.
Record PlanBlocker := mkBlocker { reason : PlanBlockerReason.t; blocker_anchor : option Z; description : str }.
Record PlanWarning := mkWarning { message : str; warning_anchor : option Z }.
Record PlannedEdit := mkEdit { edit_anchor : Z; edit_file : Z; category : PlannedEditCategory.t; old_text : str; new_text : str }.
Record RenamePlan := mkRenamePlan {
  rename_entity : Z;
  old_name : str;
  new_name : str;
  edits : list PlannedEdit;
  rename_blockers : list PlanBlocker;
  rename_warnings : list PlanWarning;
}.
Record SafeDeletePlan := mkDeletePlan { delete_entity : Z; deleted_name : str; delete_blockers : list PlanBlocker; delete_warnings : list PlanWarning }.

(** ** Sites *)

Definition find_entity_with_shard (entity_id : Z) (self : WorkspaceSemanticQueries) : option (EntityFact * FileFactShard) :=
  find_map (fun s => (fun e => (e, s)) <$> find_first (fun e => entity e =? entity_id) (entities s)) (values self).
Definition find_entity (entity_id : Z) (self : WorkspaceSemanticQueries) : option EntityFact :=
  find_map (fun s => find_first (fun e => entity e =? entity_id) (entities s)) (values self).
Definition find_entity_name (entity_id : Z) (self : WorkspaceSemanticQueries) : option str := canonical_name <$> find_entity entity_id self.
Definition is_high_confidence_source_backed (p : Provenance) (c : Confidence) : bool :=
  bool_decide (c = High) && match p with ExactAst | DesugaredAst | LiteralRequireImport => true | _ => false end.
Definition source_backed_anchor_for_edit (shard : FileFactShard) (anchor_id : Z) : option AnchorFact :=
  find_first (fun a => (anchor a =? anchor_id) && (anchor_file a =? file_id shard) && is_high_confidence_source_backed (anchor_provenance a) (anchor_confidence a)) (anchors shard).
Definition classify_occurrence (k : OccurrenceKind.t) : option PlannedEditCategory.t :=
  match k with
  | OccurrenceKind.Definition_ => Some PlannedEditCategory.Definition_
  | OccurrenceKind.Import_ => Some PlannedEditCategory.ImportList
  | OccurrenceKind.Export_ => Some PlannedEditCategory.ExportList
  | OccurrenceKind.Reference | OccurrenceKind.Read | OccurrenceKind.Write | OccurrenceKind.Call | OccurrenceKind.MethodCall
  | OccurrenceKind.StaticMethodCall | OccurrenceKind.CoderefReference | OccurrenceKind.GeneratedUse => Some PlannedEditCategory.Reference
  | OccurrenceKind.Inheritance | OccurrenceKind.RoleComposition => None
  | OccurrenceKind.DynamicBoundary | OccurrenceKind.TypeglobReference => None
  end.
Definition is_dynamic_boundary_occurrence (k : OccurrenceKind.t) : bool :=
  match k with OccurrenceKind.DynamicBoundary | OccurrenceKind.TypeglobReference => true | _ => false end.
(** [{:?}] of an occurrence kind *)
Definition kind_debug (k : OccurrenceKind.t) : str :=
  bytes_of match k with
  | OccurrenceKind.Definition_ => "Definition" | OccurrenceKind.Reference => "Reference" | OccurrenceKind.Read => "Read" | OccurrenceKind.Write => "Write"
  | OccurrenceKind.Call => "Call" | OccurrenceKind.MethodCall => "MethodCall" | OccurrenceKind.StaticMethodCall => "StaticMethodCall"
  | OccurrenceKind.CoderefReference => "CoderefReference" | OccurrenceKind.TypeglobReference => "TypeglobReference" | OccurrenceKind.Import_ => "Import"
  | OccurrenceKind.Export_ => "Export" | OccurrenceKind.Inheritance => "Inheritance" | OccurrenceKind.RoleComposition => "RoleComposition"
  | OccurrenceKind.GeneratedUse => "GeneratedUse" | OccurrenceKind.DynamicBoundary => "DynamicBoundary"
  end.
Definition non_source_backed_edit_blocker (symbol : str) (anchor_id : option Z) (dynamic_boundary : bool) (site : str) : PlanBlocker :=
  mkBlocker (if dynamic_boundary then PlanBlockerReason.DynamicBoundary else PlanBlockerReason.AmbiguousReference) anchor_id
    (site ++ bytes_of " for '" ++ symbol ++ bytes_of "' is not high-confidence source-backed.").
Definition is_dynamic (p : Provenance) : bool := bool_decide (p = PackageGraph.DynamicBoundary).

(** ** The rename plan *)

(** An edit, or what stands against it. *)
Definition site_result : Type := PlannedEdit + PlanBlocker.
Definition definition_site (bare new : str) (e : EntityFact) (shard : FileFactShard) : option site_result :=
  if is_definition_kind (entity_kind e) then
    anchor_id ← entity_anchor e;
    Some match find_first (fun a => (anchor a =? anchor_id) && (anchor_file a =? file_id shard)) (anchors shard) with
    | Some a =>
      if is_high_confidence_source_backed (entity_provenance e) (entity_confidence e) && is_high_confidence_source_backed (anchor_provenance a) (anchor_confidence a)
      then inl (mkEdit anchor_id (file_id shard) PlannedEditCategory.Definition_ bare new)
      else inr (non_source_backed_edit_blocker bare (Some (anchor a)) (is_dynamic (entity_provenance e) || is_dynamic (anchor_provenance a)) (bytes_of "Definition anchor"))
    | None =>
      inr (mkBlocker PlanBlockerReason.UnclassifiedOccurrence (Some anchor_id)
        (bytes_of "Definition anchor for '" ++ bare ++ bytes_of "' was not found in the owning fact shard."))
    end
  else None.
(** The site of an occurrence or of a reference edge: its kind, anchor and
    evidence, and the anchor that can be edited. *)
Definition use_site (site unclassified : str) (bare new : str) (file : Z) (k : OccurrenceKind.t) (anchor_id : Z) (p : Provenance) (c : Confidence) (target : option AnchorFact) : site_result :=
  if is_dynamic_boundary_occurrence k then
    inr (mkBlocker PlanBlockerReason.DynamicBoundary (Some anchor_id) (bytes_of "Reference crosses a dynamic boundary (string eval, symbolic deref, or AUTOLOAD)."))
  else
    match classify_occurrence k with
    | Some cat =>
      match target with
      | Some a =>
        if is_high_confidence_source_backed p c then inl (mkEdit (anchor a) file cat bare new)
        else inr (non_source_backed_edit_blocker bare (Some (anchor a)) (is_dynamic p || is_dynamic (anchor_provenance a)) site)
      | None =>
        inr (mkBlocker PlanBlockerReason.UnclassifiedOccurrence (Some anchor_id) (site ++ bytes_of " anchor for '" ++ bare ++ bytes_of "' was not high-confidence source-backed."))
      end
    | None =>
      inr (mkBlocker PlanBlockerReason.UnclassifiedOccurrence (Some anchor_id) (unclassified ++ kind_debug k ++ bytes_of " could not be classified into a rename edit category."))
    end.
Definition occurrence_site (bare new : str) (shard : FileFactShard) (o : OccurrenceFact) : site_result :=
  use_site (bytes_of "Occurrence") (bytes_of "Occurrence kind ") bare new (file_id shard) (occ_kind o) (occ_anchor o) (occ_provenance o) (occ_confidence o)
    (source_backed_anchor_for_edit shard (occ_anchor o)).
Definition occurrence_sites (entity_id : Z) (bare new : str) (self : WorkspaceSemanticQueries) : list site_result :=
  concat ((fun s => occurrence_site bare new s <$> filter (fun o => occ_entity o = Some entity_id) (occurrences s)) <$> values self).
Definition edge_site (bare new : str) (self : WorkspaceSemanticQueries) (e : ReferenceEdge) : site_result :=
  use_site (bytes_of "Reference") (bytes_of "Reference edge kind ") bare new (re_file e) (re_kind e) (re_anchor e) (re_provenance e) (re_confidence e)
    (shard ← shard_for_file (re_file e) self; source_backed_anchor_for_edit shard (re_anchor e)).
Definition edge_sites (entity_id : Z) (bare new : str) (self : WorkspaceSemanticQueries) : list site_result :=
  edge_site bare new self <$> get_by_entity entity_id (reference_index self).
Definition is_edit (r : site_result) : option PlannedEdit := match r with inl e => Some e | inr _ => None end.
Definition is_blocker (r : site_result) : option PlanBlocker := match r with inl _ => None | inr b => Some b end.

(** [sort_by_key(|e| (e.file_id, e.anchor_id))] and [dedup_by_key] *)
Definition edit_key (e : PlannedEdit) : Z * Z := (edit_file e, edit_anchor e).
Definition edit_le (a b : PlannedEdit) : bool := (edit_file a <? edit_file b) || (edit_file a =? edit_file b) && (edit_anchor a <=? edit_anchor b).
Fixpoint dedup_after (last : Z * Z) (l : list PlannedEdit) : list PlannedEdit :=
  match l with
  | [] => []
  | e :: l => if bool_decide (edit_key e = last) then dedup_after last l else e :: dedup_after (edit_key e) l
  end.
Definition dedup_by_key (l : list PlannedEdit) : list PlannedEdit := match l with [] => [] | e :: l => e :: dedup_after (edit_key e) l end.

Definition exported_and_imported (bare exporting_module : str) : PlanBlocker :=
  mkBlocker PlanBlockerReason.CrossModuleExport None
    (bytes_of "Symbol '" ++ bare ++ bytes_of "' is exported by module '" ++ exporting_module ++ bytes_of "' and imported by other files.").
Definition listed_in_exports (bare exporting_module : str) : str :=
  bytes_of "Symbol '" ++ bare ++ bytes_of "' is listed in the export set of module '" ++ exporting_module ++ bytes_of "'.".
Definition imported_by_another (bare : str) : PlanBlocker :=
  mkBlocker PlanBlockerReason.ImportedSymbol None (bytes_of "Symbol '" ++ bare ++ bytes_of "' is imported by another file.").
Definition has_reason (r : PlanBlockerReason.t) (l : list PlanBlocker) : bool := existsb (fun b => bool_decide (reason b = r)) l.
Definition is_generated (e : option EntityFact) : bool := match e with Some e => bool_decide (entity_kind e = EntityKind.GeneratedMember) | None => false end.
Definition generated_blocker (e : option EntityFact) (verb plan : str) : PlanBlocker :=
  mkBlocker PlanBlockerReason.GeneratedMember (e ≫= entity_anchor)
    (bytes_of "Cannot " ++ verb ++ bytes_of " generated member without a generator-specific " ++ plan ++ bytes_of " plan.").

Definition rename_plan (entity_id : Z) (new : str) (self : WorkspaceSemanticQueries) : RenamePlan :=
  let old := default [] (find_entity_name entity_id self) in
  let entity_info := find_entity entity_id self in
  if is_generated entity_info then mkRenamePlan entity_id old new [] [generated_blocker entity_info (bytes_of "rename") (bytes_of "edit")] []
  else
    let bare := bare_name old in
    let owner := find_entity_with_shard entity_id self in
    let sites :=
      option_list ('(e, shard) ← owner; definition_site bare new e shard) ++ occurrence_sites entity_id bare new self ++ edge_sites entity_id bare new self in
    let is_imported := match owner with Some (_, shard) => is_imported_by_other_file bare (file_id shard) (import_export_index self) | None => false end in
    let exporting := find_exporting_module bare (import_export_index self) in
    let blockers := omap is_blocker sites ++ match exporting with Some m => if is_imported then [exported_and_imported bare m] else [] | None => [] end in
    let warnings := match exporting with Some m => if is_imported then [] else [mkWarning (listed_in_exports bare m) None] | None => [] end in
    let blockers := if is_imported && negb (has_reason PlanBlockerReason.CrossModuleExport blockers) then blockers ++ [imported_by_another bare] else blockers in
    mkRenamePlan entity_id old new (dedup_by_key (sort_by edit_le (omap is_edit sites))) blockers warnings.

(** ** The delete plan *)

Definition counted (before symbol middle : str) (n : Z) (after : str) : str := before ++ symbol ++ middle ++ decimal n ++ after.
Definition count_blocker (r : PlanBlockerReason.t) (bare middle : str) (n : Z) (after : str) : list PlanBlocker :=
  if 0 <? n then [mkBlocker r None (counted (bytes_of "Symbol '") bare middle n after)] else [].
Definition all_occurrences (self : WorkspaceSemanticQueries) : list OccurrenceFact := concat (occurrences <$> values self).
Definition dynamic_use (entity_id : Z) (o : OccurrenceFact) : bool := bool_decide (occ_entity o = Some entity_id) && is_dynamic_boundary_occurrence (occ_kind o).
Definition concrete_use (entity_id : Z) (o : OccurrenceFact) : bool :=
  bool_decide (occ_entity o = Some entity_id) && negb (is_definition o) && negb (is_dynamic_boundary_occurrence (occ_kind o)).
Definition count_if {A} (p : A -> bool) (l : list A) : Z := len (filter (fun x => p x = true) l).
(** The file of the first shard that has the anchor of the entity. *)
Definition entity_file_id (e : option EntityFact) (self : WorkspaceSemanticQueries) : option Z :=
  anchor_id ← e ≫= entity_anchor;
  find_map (fun s => (fun _ => file_id s) <$> find_first (fun a => anchor a =? anchor_id) (anchors s)) (values self).
Definition safe_delete_plan (entity_id : Z) (self : WorkspaceSemanticQueries) : SafeDeletePlan :=
  let name := default [] (find_entity_name entity_id self) in
  let entity_info := find_entity entity_id self in
  if is_generated entity_info then mkDeletePlan entity_id name [generated_blocker entity_info (bytes_of "delete") (bytes_of "delete")] []
  else
    let bare := bare_name name in
    let ref_edges := get_by_entity entity_id (reference_index self) in
    let dynamic_ref_count := count_if (fun e => is_dynamic_boundary_occurrence (re_kind e)) ref_edges in
    let concrete_ref_count := saturating_sub (len ref_edges) dynamic_ref_count in
    let shard_dynamic_count := if bool_decide (ref_edges = []) then count_if (dynamic_use entity_id) (all_occurrences self) else 0 in
    let shard_ref_count := if bool_decide (ref_edges = []) then count_if (concrete_use entity_id) (all_occurrences self) else 0 in
    let is_imported := match entity_file_id entity_info self with Some fid => is_imported_by_other_file bare fid (import_export_index self) | None => false end in
    let blockers :=
      count_blocker PlanBlockerReason.DynamicBoundary bare (bytes_of "' crosses ") dynamic_ref_count (bytes_of " dynamic boundary reference(s).") ++
      count_blocker PlanBlockerReason.ReferencesExist bare (bytes_of "' still has ") concrete_ref_count (bytes_of " reference(s) in the workspace.") ++
      count_blocker PlanBlockerReason.DynamicBoundary bare (bytes_of "' crosses ") shard_dynamic_count (bytes_of " dynamic boundary occurrence(s) in fact shards.") ++
      count_blocker PlanBlockerReason.ReferencesExist bare (bytes_of "' still has ") shard_ref_count (bytes_of " reference(s) in fact shards.") ++
      match find_exporting_module bare (import_export_index self) with Some m => [mkBlocker PlanBlockerReason.ExportedSymbol None (listed_in_exports bare m)] | None => [] end ++
      (if is_imported then [imported_by_another bare] else []) in
    mkDeletePlan entity_id name blockers
      (if bool_decide (length blockers = 0%nat) then [mkWarning (bytes_of "Symbol '" ++ bare ++ bytes_of "' appears safe to delete.") None] else []).
