(* ===== verification/SemanticPlanLaws.v ===== *)
(** * Laws of the rename and delete plans

    A rename plan without blockers edits every place at which a present fact
    refers to the entity, each once and at an anchor read from the source; a
    delete plan is free of blockers exactly when nothing refers to the symbol
    any more.  Labels and formats, and entities without an anchor, are the
    exceptions. *)

From stdpp Require Import base numbers list gmap sorting.
From S2P Require Import Prelude Utf8 StdText PackageGraph NameMaps SemanticFacts ReferenceIndex ImportExports Visibility SemanticQueries SemanticQueryLaws SemanticPlans.

(** ** Edits in order, one for each anchor *)

Definition key_le (x y : Z * Z) : Prop := x.1 < y.1 \/ x.1 = y.1 /\ x.2 <= y.2.
Definition key_lt (x y : Z * Z) : Prop := x.1 < y.1 \/ x.1 = y.1 /\ x.2 < y.2.
Lemma edit_le_iff a b : edit_le a b = true <-> key_le (edit_key a) (edit_key b).
Proof. unfold edit_le, key_le, edit_key. simpl. rewrite orb_true_iff, andb_true_iff, Z.ltb_lt, Z.eqb_eq, Z.leb_le. done. Qed.
Lemma key_le_lt x y z : key_le x y -> y <> x -> key_le y z -> key_lt x z.
Proof. destruct x as [a b], y as [c d], z as [e f]. unfold key_le, key_lt. simpl. intros H1 Hn H2. assert (c <> a \/ d <> b) by (destruct (decide (c = a)); [right|left]; congruence). lia. Qed.
Lemma key_le_neq x y : key_le x y -> y <> x -> key_lt x y.
Proof. intros H Hn. apply (key_le_lt x y y); [done|done|]. right. lia. Qed.
Lemma sorted_edits l : ordered edit_le (sort_by edit_le l).
Proof.
  apply sort_by_ordered; intros x y.
  - intros Hn. apply edit_le_iff. apply not_true_iff_false in Hn. rewrite edit_le_iff in Hn. unfold key_le in *. lia.
  - intros z. rewrite !edit_le_iff. unfold key_le. lia.
Qed.
(** Behind a key, the next greater ones remain, each once. *)
Lemma dedup_after_spec l : forall last, ordered edit_le l -> Forall (fun e => key_le last (edit_key e)) l ->
  let r := dedup_after last l in
  StronglySorted key_lt (edit_key <$> r) /\ Forall (fun e => key_lt last (edit_key e)) r /\ (forall e, e ∈ r -> e ∈ l) /\
  (forall k, k ∈ edit_key <$> l -> k = last \/ k ∈ edit_key <$> r).
Proof.
  induction l as [|e l IH]; intros last Ho Hl; simpl; [repeat split; try constructor; set_solver|].
  inversion Ho as [|? ? Ho' He]; subst. apply Forall_cons in Hl as [Hle Hl]. assert (He' : Forall (fun x => key_le (edit_key e) (edit_key x)) l).
  { eapply Forall_impl; [exact He|]. simpl. intros x. apply edit_le_iff. }
  destruct (bool_decide (edit_key e = last)) eqn:E.
  - apply bool_decide_eq_true in E. subst last. destruct (IH (edit_key e) Ho' He') as (I1 & I2 & I3 & I4). split; [done|]. split; [done|]. split; [set_solver|].
    intros k. rewrite ?fmap_cons, elem_of_cons. intros [->|Hk]; [by left|by apply I4].
  - apply bool_decide_eq_false in E. destruct (IH (edit_key e) Ho' He') as (I1 & I2 & I3 & I4). rewrite ?fmap_cons. split; [|split; [|split; [set_solver|]]].
    + constructor; [done|]. apply Forall_fmap. exact I2.
    + constructor; [by apply key_le_neq|]. eapply Forall_impl; [exact I2|]. simpl. intros x Hx. eapply key_le_lt; [exact Hle|done|]. unfold key_lt, key_le in *. lia.
    + intros k. rewrite !elem_of_cons. intros [->|Hk]; [by right; left|]. destruct (I4 k Hk) as [->|]; [by right; left|by right; right].
Qed.
Lemma dedup_spec l : let r := dedup_by_key (sort_by edit_le l) in
  StronglySorted key_lt (edit_key <$> r) /\ (forall e, e ∈ r -> e ∈ l) /\ (forall e, e ∈ l -> edit_key e ∈ edit_key <$> r).
Proof.
  pose proof (sorted_edits l) as Ho. assert (Hp : forall e, e ∈ sort_by edit_le l <-> e ∈ l) by (intros e; by rewrite sort_by_perm).
  cbv zeta. setoid_rewrite <-Hp. clear Hp. destruct (sort_by edit_le l) as [|e k]; simpl; [repeat split; [constructor|set_solver|set_solver]|].
  inversion Ho as [|? ? Ho' He]; subst. destruct (dedup_after_spec k (edit_key e) Ho') as (I1 & I2 & I3 & I4).
  { eapply Forall_impl; [exact He|]. simpl. intros x. apply edit_le_iff. }
  rewrite ?fmap_cons. split; [constructor; [done|by apply Forall_fmap]|]. split; [set_solver|].
  intros x. rewrite !elem_of_cons. intros [->|Hx]; [by left|]. apply I4. apply list_elem_of_fmap. by exists x.
Qed.

(** ** Sites *)

(** An anchor of a file of the workspace that was read from its source. *)
Definition editable (self : WorkspaceSemanticQueries) (file anchor_id : Z) : Prop :=
  exists s a, s ∈ values self /\ file_id s = file /\ a ∈ anchors s /\ anchor a = anchor_id /\ anchor_file a = file /\
    is_high_confidence_source_backed (anchor_provenance a) (anchor_confidence a) = true.
Definition fits (self : WorkspaceSemanticQueries) (file anchor_id : Z) (bare new : str) (r : site_result) : Prop :=
  match r with
  | inl e => edit_key e = (file, anchor_id) /\ old_text e = bare /\ new_text e = new /\ editable self file anchor_id
  | inr _ => True
  end.
Lemma source_backed_found shard anchor_id a : source_backed_anchor_for_edit shard anchor_id = Some a ->
  a ∈ anchors shard /\ anchor a = anchor_id /\ anchor_file a = file_id shard /\ is_high_confidence_source_backed (anchor_provenance a) (anchor_confidence a) = true.
Proof. intros [Ha [[H1%Z.eqb_eq H2%Z.eqb_eq]%andb_true_iff H3]%andb_true_iff]%find_first_Some. done. Qed.
Lemma use_site_fits self site unclassified bare new file k anchor_id p c target :
  (forall a, target = Some a -> anchor a = anchor_id /\ editable self file anchor_id) -> fits self file anchor_id bare new (use_site site unclassified bare new file k anchor_id p c target).
Proof.
  intros Ht. unfold use_site. destruct (is_dynamic_boundary_occurrence k); [done|]. destruct (classify_occurrence k); [|done]. destruct target as [a|]; [|done].
  destruct (is_high_confidence_source_backed p c); [|done]. destruct (Ht a eq_refl) as [<- He]. by repeat split.
Qed.
Lemma occurrence_site_fits self s o bare new : s ∈ values self -> fits self (file_id s) (occ_anchor o) bare new (occurrence_site bare new s o).
Proof. intros Hs. apply use_site_fits. intros a (H1 & H2 & H3 & H4)%source_backed_found. split; [done|]. by exists s, a. Qed.
Lemma shard_found self file s : shard_for_file file self = Some s -> s ∈ values self /\ file_id s = file.
Proof. by intros [Hs ?%Z.eqb_eq]%find_first_Some. Qed.
Lemma edge_site_fits self e bare new : fits self (re_file e) (re_anchor e) bare new (edge_site bare new self e).
Proof.
  apply use_site_fits. intros a (s & [Hs Hf]%shard_found & (H1 & H2 & H3 & H4)%source_backed_found)%bind_Some. split; [done|]. exists s, a. split; [done|]. by rewrite <-Hf.
Qed.
Lemma owner_found entity_id self e s : find_entity_with_shard entity_id self = Some (e, s) -> s ∈ values self /\ e ∈ entities s /\ entity e = entity_id.
Proof.
  intros (s' & Hs & E)%find_map_Some. apply fmap_Some in E as (e' & [He Hid%Z.eqb_eq]%find_first_Some & [= -> ->]). done.
Qed.
Lemma definition_site_fits self s e bare new r anchor_id : s ∈ values self -> entity_anchor e = Some anchor_id -> definition_site bare new e s = Some r -> fits self (file_id s) anchor_id bare new r.
Proof.
  intros Hs Ea. unfold definition_site. destruct (is_definition_kind _); [|done]. rewrite Ea. simpl. intros [= <-]. destruct (find_first _ (anchors s)) as [a|] eqn:E; [|done].
  apply find_first_Some in E as [Ha [H1%Z.eqb_eq H2%Z.eqb_eq]%andb_true_iff]. destruct (_ && _) eqn:Eb; [|done]. apply andb_true_iff in Eb as [_ Eb]. repeat split. by exists s, a.
Qed.

(** ** The rename plan *)

(** The places at which present facts refer to the entity: the anchor of its
    definition, its occurrences in the shards, and the edges of the reference
    index. *)
Inductive refers (entity_id : Z) (self : WorkspaceSemanticQueries) : Z -> Z -> Prop :=
| refers_definition e s anchor_id : find_entity_with_shard entity_id self = Some (e, s) -> entity_anchor e = Some anchor_id ->
    refers entity_id self (file_id s) anchor_id
| refers_occurrence s o : s ∈ values self -> o ∈ occurrences s -> occ_entity o = Some entity_id -> refers entity_id self (file_id s) (occ_anchor o)
| refers_edge r : r ∈ get_by_entity entity_id (reference_index self) -> refers entity_id self (re_file r) (re_anchor r).

Definition rename_sites (entity_id : Z) (bare new : str) (self : WorkspaceSemanticQueries) : list site_result :=
  option_list ('(e, shard) ← find_entity_with_shard entity_id self; definition_site bare new e shard) ++ occurrence_sites entity_id bare new self ++ edge_sites entity_id bare new self.
(** Every site stems from a place, and every place has its site. *)
Lemma site_place entity_id bare new self r : r ∈ rename_sites entity_id bare new self -> exists file anchor_id, refers entity_id self file anchor_id /\ fits self file anchor_id bare new r.
Proof.
  unfold rename_sites, occurrence_sites, edge_sites. rewrite !elem_of_app, elem_concat_fmap, list_elem_of_fmap. intros [Hr|[(s & Hs & Hr)|(e & -> & He)]].
  - destruct (find_entity_with_shard entity_id self) as [[e s]|] eqn:E; simpl in Hr; [|by apply elem_of_nil in Hr]. destruct (definition_site bare new e s) as [r'|] eqn:Ed; simpl in Hr; [|by apply elem_of_nil in Hr].
    apply list_elem_of_singleton in Hr as ->. pose proof Ed as Ed'. unfold definition_site in Ed'. destruct (is_definition_kind _) eqn:Ek; [|done]. destruct (entity_anchor e) as [anchor_id|] eqn:Ea; [|done]. clear Ed'.
    exists (file_id s), anchor_id. split; [by eapply refers_definition|]. eapply definition_site_fits; [by apply (owner_found entity_id self e)|done|done].
  - apply list_elem_of_fmap in Hr as (o & -> & [Ho Hin]%list_elem_of_filter). exists (file_id s), (occ_anchor o). split; [by apply refers_occurrence|by apply occurrence_site_fits].
  - exists (re_file e), (re_anchor e). split; [by apply refers_edge|apply edge_site_fits].
Qed.
(** The kinds of entities whose definition a plan does not look at. *)
Definition overlooked : list EntityKind.t := [EntityKind.Label; EntityKind.Format; EntityKind.ExternalSymbol; EntityKind.Unknown].
Lemma definition_kind k : k ∉ overlooked -> is_definition_kind k = true.
Proof. unfold overlooked. rewrite !elem_of_cons, elem_of_nil. destruct k; try done; intros []; tauto. Qed.
Lemma place_site entity_id bare new self file anchor_id : (forall e s, find_entity_with_shard entity_id self = Some (e, s) -> entity_kind e ∉ overlooked) ->
  refers entity_id self file anchor_id -> exists r, r ∈ rename_sites entity_id bare new self /\ fits self file anchor_id bare new r.
Proof.
  unfold rename_sites, occurrence_sites, edge_sites. setoid_rewrite elem_of_app. setoid_rewrite elem_of_app. setoid_rewrite elem_concat_fmap.
  intros Hk. destruct 1 as [e s anchor_id E Ea|s o Hs Ho Eo|e He].
  - pose proof (definition_kind _ (Hk _ _ E)) as Ek. rewrite E. simpl. unfold definition_site at 1. rewrite Ek, Ea. simpl. eexists. split; [left; by apply list_elem_of_singleton|].
    eapply definition_site_fits; [by apply (owner_found entity_id self e)|done|]. unfold definition_site. by rewrite Ek, Ea.
  - exists (occurrence_site bare new s o). split; [|by apply occurrence_site_fits]. right. left. exists s. split; [done|]. apply list_elem_of_fmap. exists o. split; [done|]. by apply list_elem_of_filter.
  - exists (edge_site bare new self e). split; [right; right; apply list_elem_of_fmap; by exists e|apply edge_site_fits].
Qed.
Lemma rename_plan_edits entity_id new self : is_generated (find_entity entity_id self) = false ->
  edits (rename_plan entity_id new self) =
    dedup_by_key (sort_by edit_le (omap is_edit (rename_sites entity_id (bare_name (old_name (rename_plan entity_id new self))) new self))).
Proof. intros Hg. unfold rename_plan. by rewrite Hg. Qed.
Lemma rename_plan_blocked entity_id new self b : is_generated (find_entity entity_id self) = false ->
  b ∈ omap is_blocker (rename_sites entity_id (bare_name (old_name (rename_plan entity_id new self))) new self) -> b ∈ rename_blockers (rename_plan entity_id new self).
Proof.
  unfold rename_plan. intros ->. cbv zeta. cbn [old_name rename_blockers]. unfold rename_sites. intros Hb. destruct (_ && _); rewrite !(elem_of_app _ _ b); tauto.
Qed.
Lemma rename_plan_imports entity_id new self e s : is_generated (find_entity entity_id self) = false -> find_entity_with_shard entity_id self = Some (e, s) ->
  rename_blockers (rename_plan entity_id new self) = [] -> is_imported_by_other_file (bare_name (canonical_name e)) (file_id s) (import_export_index self) = false.
Proof.
  intros Hg E. assert (En : find_entity_name entity_id self = Some (canonical_name e)).
  { unfold find_entity_name, find_entity. unfold find_entity_with_shard in E. revert E. induction (values self) as [|s' l IH]; simpl; [done|].
    destruct (find_first _ (entities s')); simpl; [by intros [= <- _]|exact IH]. }
  unfold rename_plan. rewrite Hg, E, En. cbv zeta. simpl. destruct (is_imported_by_other_file _ _ _); [|done]. simpl.
  destruct (has_reason _ _) eqn:Eh; simpl; [|by intros [_ ?]%app_nil]. intros Hb. by rewrite Hb in Eh.
Qed.

(** C9. A rename plan without blockers is complete and safe.  Its edits are in
    the order of file and anchor with one for each, replace the bare name of
    the entity by the new one, and each lies at a place where a present fact
    refers to the entity, at an anchor that was read from the source of its
    file.  When there is no blocker and the entity is not a label, a format, an
    external symbol or of unknown kind (for these the plan does not look at the
    definition), every place where a present fact refers to the entity is
    edited: its definition, an occurrence in any shard, an edge of the reference
    index.  When there is no blocker, no other file has an import list that
    names the bare name; names that come by default or with a tag are not
    looked at. *)
Theorem rename_plan_complete entity_id new self : let plan := rename_plan entity_id new self in
  StronglySorted key_lt (edit_key <$> edits plan) /\
  (forall e, e ∈ edits plan -> old_text e = bare_name (old_name plan) /\ new_text e = new /\ refers entity_id self (edit_file e) (edit_anchor e) /\ editable self (edit_file e) (edit_anchor e)) /\
  (rename_blockers plan = [] ->
    ((forall e s, find_entity_with_shard entity_id self = Some (e, s) -> entity_kind e ∉ overlooked) ->
      forall file anchor_id, refers entity_id self file anchor_id -> exists e, e ∈ edits plan /\ edit_file e = file /\ edit_anchor e = anchor_id) /\
    (forall e s other specs spec, find_entity_with_shard entity_id self = Some (e, s) -> imports_by_file (import_export_index self) !! other = Some specs -> other <> file_id s ->
      spec ∈ specs -> ~ names_symbol (bare_name (canonical_name e)) spec)).
Proof.
  cbv zeta. destruct (is_generated (find_entity entity_id self)) eqn:Hg.
  { unfold rename_plan. rewrite Hg. simpl. split; [constructor|]. split; [by intros e ?%elem_of_nil|done]. }
  pose proof (rename_plan_blocked entity_id new self) as Hb. pose proof (rename_plan_imports entity_id new self) as Hi. rewrite (rename_plan_edits entity_id new self Hg).
  set (bare := bare_name (old_name (rename_plan entity_id new self))) in *. destruct (dedup_spec (omap is_edit (rename_sites entity_id bare new self))) as (D1 & D2 & D3).
  assert (Hed : forall e, e ∈ omap is_edit (rename_sites entity_id bare new self) <-> inl e ∈ rename_sites entity_id bare new self).
  { intros e. rewrite list_elem_of_omap. split; [intros ([e'|b] & Hr & [= ->]); done|intros Hr; by exists (inl e)]. }
  split; [done|]. split.
  - intros e He. apply D2, Hed in He. apply site_place in He as (file & anchor_id & Hr & Ek & Ho & Hn & Hsb). injection Ek as <- <-. done.
  - intros Hnil. split.
    + intros Hk file anchor_id Hr. destruct (place_site _ bare new _ _ _ Hk Hr) as ([e|b] & Hin & Hf).
      * apply Hed, D3 in Hin. destruct Hf as (Ek & _). rewrite Ek in Hin. apply list_elem_of_fmap in Hin as (e' & Ek' & He'). injection Ek' as -> ->. by exists e'.
      * specialize (Hb b Hg). rewrite Hnil in Hb. exfalso. apply (not_elem_of_nil b), Hb. apply list_elem_of_omap. by exists (inr b).
    + intros e s other specs spec E Ho Hne Hs Hn. specialize (Hi e s Hg E Hnil). apply not_true_iff_false in Hi. apply Hi, imported_elsewhere. by exists other, specs, spec.
Qed.

(** While the reference index follows the shards, this covers everything that
    a reference edge of a shard targets at the entity. *)
Corollary rename_covers_targets entity_id new self s o : follows (fact_shards self) (reference_index self) -> rename_blockers (rename_plan entity_id new self) = [] ->
  s ∈ values self -> o ∈ occurrences s -> occ_kind o <> OccurrenceKind.Definition_ -> entity_id ∈ targets_of s o -> refers entity_id self (file_id s) (occ_anchor o).
Proof.
  intros Hf _ Hs Ho Hk Ht. apply (refers_edge entity_id self (reference_edge s o)). unfold get_by_entity. rewrite (proj1 (fo_entities _ _ Hf) entity_id).
  apply list_elem_of_fmap in Hs as ([key s'] & -> & Hs). apply elem_of_map_to_list in Hs. apply elem_contributed. exists key, s'. split; [done|]. apply elem_entity_entries. by exists o.
Qed.

(** ** The delete plan *)

Lemma app_nil_iff {A} (l k : list A) : l ++ k = [] <-> l = [] /\ k = [].
Proof. split; [apply app_nil|]. by intros [-> ->]. Qed.
Lemma count_if_zero {A} (p : A -> bool) (l : list A) : count_if p l <= 0 <-> forall x, x ∈ l -> p x = false.
Proof.
  unfold count_if. split.
  - intros Hc x Hx. destruct (p x) eqn:E; [|done]. assert (Hin : x ∈ filter (fun x => p x = true) l) by by apply list_elem_of_filter.
    destruct (filter _ l); [by apply elem_of_nil in Hin|]. unfold len in Hc. simpl in Hc. lia.
  - intros Hp. rewrite filter_drops; [done|]. apply Forall_forall. intros x Hx. by rewrite (Hp x Hx).
Qed.
Lemma count_blocker_nil r bare middle n after : count_blocker r bare middle n after = [] <-> n <= 0.
Proof. unfold count_blocker. destruct (Z.ltb_spec 0 n); split; try done; lia. Qed.
(** What stands against deleting: a generated member, an edge, an occurrence
    other than a definition, an export of the bare name, or an import list of
    another file that names it. *)
Inductive needed (e : EntityFact) (own : Z) (self : WorkspaceSemanticQueries) : Prop :=
| needed_generated : entity_kind e = EntityKind.GeneratedMember -> needed e own self
| needed_edge r : r ∈ get_by_entity (entity e) (reference_index self) -> needed e own self
| needed_occurrence s o : s ∈ values self -> o ∈ occurrences s -> occ_entity o = Some (entity e) -> occ_kind o <> OccurrenceKind.Definition_ -> needed e own self
| needed_export m ex : exports_by_module (import_export_index self) !! m = Some ex ->
    bare_name (canonical_name e) ∈ default_exports ex \/ bare_name (canonical_name e) ∈ optional_exports ex -> needed e own self
| needed_import other specs spec : imports_by_file (import_export_index self) !! other = Some specs -> other <> own -> spec ∈ specs -> names_symbol (bare_name (canonical_name e)) spec ->
    needed e own self.
Lemma no_edges (l : list ReferenceEdge) : count_if (fun e => is_dynamic_boundary_occurrence (re_kind e)) l <= 0 ->
  saturating_sub (len l) (count_if (fun e => is_dynamic_boundary_occurrence (re_kind e)) l) <= 0 -> l = [].
Proof. unfold saturating_sub, count_if, len. destruct l; [done|]. simpl. lia. Qed.

Lemma anchored_file e anchor_id self s a : entity_anchor e = Some anchor_id -> first_anchor self anchor_id s a -> entity_file_id (Some e) self = Some (file_id s).
Proof. intros Ea Ha. unfold entity_file_id. simpl. rewrite Ea. simpl. apply (first_anchor_found self anchor_id s a (fun s _ => file_id s) Ha). Qed.


(** ** A concrete plan *)

Definition demo_anchor (n : Z) : AnchorFact := mkAnchor n 1 (10 * n) (10 * n + 3) None ExactAst High.
Definition demo_shard : FileFactShard :=
  mkShard [97] 1 0 1 None None None None [demo_anchor 1; demo_anchor 2] [mkEntity 7 EntityKind.Subroutine [65; 58; 58; 102] (Some 1) None ExactAst High]
    [mkOccurrence 4 OccurrenceKind.Definition_ (Some 7) 1 None ExactAst High; mkOccurrence 5 OccurrenceKind.Call (Some 7) 2 None ExactAst High] [].
Definition demo_queries : WorkspaceSemanticQueries := mkQueries (add_file demo_shard ReferenceIndex.new) ImportExports.new {[ [97] := demo_shard ]} None None.
Lemma rename_plan_complete_witness :
  edits (rename_plan 7 [103] demo_queries) = [mkEdit 1 1 PlannedEditCategory.Definition_ [102] [103]; mkEdit 2 1 PlannedEditCategory.Reference [102] [103]] /\
  exists e, e ∈ edits (rename_plan 7 [103] demo_queries) /\ edit_file e = 1 /\ edit_anchor e = 2.
Proof.
  split; [by vm_compute|]. apply (rename_plan_complete 7 [103] demo_queries); [by vm_compute| |].
  { intros e s E. assert (Ek : entity_kind <$> (fst <$> find_entity_with_shard 7 demo_queries) = Some EntityKind.Subroutine) by by vm_compute. rewrite E in Ek. injection Ek as ->.
    unfold overlooked. rewrite !elem_of_cons, elem_of_nil. by intros [|[|[|[|[]]]]]. }
  apply (refers_occurrence 7 demo_queries demo_shard (mkOccurrence 5 OccurrenceKind.Call (Some 7) 2 None ExactAst High)); [by left|right; by left|done].
Defined.
Example demo_still_referenced : reason <$> delete_blockers (safe_delete_plan 7 demo_queries) = [PlanBlockerReason.ReferencesExist].
Proof. by vm_compute. Qed.
(** An entity without an anchor has no file to compare importers with. *)
Definition unanchored_shard : FileFactShard := mkShard [97] 1 0 1 None None None None [] [mkEntity 7 EntityKind.Subroutine [102] None None ExactAst High] [] [].
Definition unanchored_queries : WorkspaceSemanticQueries :=
  mkQueries ReferenceIndex.new
    (add_file_imports [98] 2 [mkImport [77] ImportKind.UseExplicitList (ImportSymbols.Explicit [[102]]) ExactAst High None None None None] ImportExports.new)
    {[ [97] := unanchored_shard ]} None None.
Example unanchored_import_ignored :
  delete_blockers (safe_delete_plan 7 unanchored_queries) = [] /\ reason <$> rename_blockers (rename_plan 7 [103] unanchored_queries) = [PlanBlockerReason.ImportedSymbol].
Proof. by vm_compute. Qed.

(** The definition of a label, which has an anchor in the source like any other
    symbol, is neither edited nor does it block the plan. *)
Definition label_shard : FileFactShard :=
  mkShard [97] 1 0 1 None None None None [demo_anchor 1] [mkEntity 7 EntityKind.Label [76] (Some 1) None ExactAst High] [] [].
Example label_not_renamed : let plan := rename_plan 7 [103] (mkQueries ReferenceIndex.new ImportExports.new {[ [97] := label_shard ]} None None) in
  edits plan = [] /\ rename_blockers plan = [].
Proof. by vm_compute. Qed.
